(* ===== verification/_CoqProject ===== *)
-Q . S2P
Prelude.v
GuestMem.v
Introspect.v
Plugin.v
HostUtils.v
HBitmap.v
Bitmap.v
Xbzrle.v
Pic.v
Int128.v
Memory.v
PhysMap.v
Dispatch.v
X86Flags.v
X86Int.v
HostMem.v
Iov.v
Checksum.v
BitField.v
TcgOp.v
TcgOpt.v
TcgSem.v
TcgMono.v
TcgInv.v
TcgFold.v
TcgMask.v
TcgGood.v
TcgCorrect.v
TcgOptimize.v
TcgFrame.v
TcgLive.v
TcgLiveness.v
TcgAlloc.v
TcgHost.v
TcgAllocInv.v
TcgAllocMove.v
TcgAllocLive.v
TcgAllocOp.v
TcgAllocExec.v
TcgAllocRun.v
TcgAllocCall.v
TcgAllocMov.v
TcgGenCode.v
TcgText.v
TcgCompile.v
TcgConstraints.v
TcgX86.v
