(* ===== verification/Prelude.v ===== *)
(** * Verification of the TEMU fork of QEMU 2.3.0

    ** The program

    QEMU is a machine emulator.  The TEMU fork adds introspection of a Windows
    guest: monitor commands that walk the guest's kernel structures, and a
    plugin, loaded at run time, that filters and logs network frames and block
    transfers.  The parts that are modelled, and how they meet:

    - the monitor commands (src/monitor.c) read guest memory through the
      debugger's accessor (src/exec.c), which translates every page with the
      x86 page walk (src/target-i386/helper.c);
    - the plugin (src/plugins/main.c) is loaded by src/plugin.c and called by
      hooks in the e1000 card (src/hw/net/e1000.c) and the DMA helpers
      (src/dma-helpers.c);
    - guest-physical memory is a tree of regions that src/memory.c flattens
      and hands to listeners, with addresses in the 128-bit integers of
      src/include/qemu/int128.h; src/exec.c is one of the listeners, and keeps
      a radix tree from pages to sections for the accesses of the processor;
    - the PC's interrupt controllers (src/hw/intc/i8259.c) belong to the
      machine the guest runs on;
    - live migration tracks dirty blocks and pages in bitmaps
      (src/util/hbitmap.c, src/util/bitmap.c, src/util/bitops.c) and sends
      page deltas (src/migration/xbzrle.c);
    - guest instructions call the helpers for condition codes and integer
      arithmetic (src/target-i386/cc_helper.c, int_helper.c and their
      templates);
    - the code translated from guest instructions goes through the optimiser of
      TCG (src/tcg/optimize.c), the liveness analysis and the register
      allocator (src/tcg/tcg.c), which asks the host (src/tcg/i386) for
      instructions; a host may also be the interpreter of byte code
      (src/tci.c);
    - network and block devices describe their buffers by scatter/gather
      vectors (src/util/iov.c), and network cards fill in checksums
      (src/net/checksum.c);
    - all of these use the integer helpers of src/util/host-utils.c.

    ** The files

    - [Prelude]: machine integers as [Z] with explicit wrapping, bit lemmas
      and the rewrite databases [mach] and [bits], little-endian encodings,
      the [outcome] monad (a value, a fault, or the end of the fuel), text.
    - [GuestMem]: [x86_cpu_get_phys_page_debug] in its four paging modes and
      [cpu_memory_rw_debug] over a physical memory of bytes; the class
      [DebugMem] is what the introspection relies on.  Shown: the walk is the
      architecture's radix walk, reads return the mapped bytes, legacy walks
      stay below 4 GiB.
    - [Introspect]: [findKDBG], [PSlist], [getcr3], [pool_files],
      [f2p_mapping] and their commands, proved against [DebugMem].  Shown: what
      they print on well-formed guest structures, and a guest on which the
      walk does not end.
    - [Plugin]: the plugin with its files, filter, toggles and linked list of
      traced files, the loader and the hooks.  Shown: the filter, the capture
      file, the list as a refinement of a sequence, that the loader closes
      only what is open, and the failures the code permits.
    - [HostUtils]: bit counts, 128-bit products and quotients in both
      variants of the source; each portable variant against the other.
    - [HBitmap], [Bitmap]: hierarchical and flat bitmaps; a hierarchical bitmap
      refines a set of groups, its levels are linked, iteration ends and is
      complete; searches, ranges and predicates of flat bitmaps.
    - [Xbzrle]: encoder and decoder; decoding what was encoded gives the new
      page, the encoder gives up exactly where the encoding does not fit, and
      decoding is safe on any input.
    - [Pic]: the two interrupt controllers and their wires as a transition
      system; the line delivered, the wires in step with the registers,
      acknowledgement and end of interrupt.
    - [Int128]: the 128-bit integers against [Z].
    - [Memory]: regions, flat view, lookup and listener events; the view shows
      what the tree resolves to, a listener ends up with the new view.
    - [PhysMap]: the radix tree of src/exec.c; a run of pages is entered at
      exactly its pages within the nodes reserved for it, and compaction does
      not change any lookup.
    - [Dispatch]: sections, split pages and the listener that fills the radix
      tree; composed with [Memory] and [PhysMap], a lookup in the table built
      for an update finds at every address what the tree of regions has there.
    - [X86Flags]: lazily computed condition codes; for every kind and size of
      instruction the computed flags are those of the operation on integers.
    - [X86Int]: divisions, decimal adjustments, rotations through the carry, bit
      deposit and extract; when they raise an error and what they compute.
    - [HostMem]: host memory with [memcpy] and [memset], and the scans for
      nonzero bytes of src/util/cutils.c; they find a nonzero byte exactly when
      there is one.
    - [Iov]: scatter/gather vectors; copies touch the bytes asked for and are
      inverse to each other, socket transfers end and restore the vector,
      growing vectors stay well formed and refine a list of addresses, clones
      keep overlaps.  The class [SocketLaws] is what transfers rely on.
    - [Checksum]: Internet checksums; a frame filled in verifies against the
      one's complement sum of RFC 1071 with the pseudo header, and sums over
      vectors agree with sums over buffers.
    - [BitField]: rotations and bit fields of src/include/qemu/bitops.h.
    - [TcgOp], [TcgOpt], [TcgSem]: operations of the intermediate code of TCG
      and the values src/tci.c computes for them; the optimiser of
      src/tcg/optimize.c; what a block may do, after src/tcg/README, with
      undefined values, jumps, memory and helpers.
    - [TcgMono], [TcgInv], [TcgFold], [TcgMask], [TcgGood], [TcgCorrect]: blocks
      with fewer defined variables may do more; the rings of copies and what
      the optimiser knows of the variables; folding; known-zero bits; one
      operation; a block.  [TcgOptimize] has the theorems: what an optimised
      block does the block may do, the optimiser returns, constants are folded
      into the values the interpreter computes.
    - [TcgFrame], [TcgLive], [TcgLiveness]: variables a block does not read do
      not matter to it; the liveness analysis of src/tcg/tcg.c; what a block
      does after it the block may do.
    - [TcgAlloc]: the register allocator of src/tcg/tcg.c with its tables of
      variables and registers, and [tcg_gen_code] from a block to the
      instructions it asks of the host ([hinsn]); a host is a record
      ([TCGTarget]).  [TcgHost] says what these instructions may do.
    - [TcgAllocInv], [TcgAllocMove], [TcgAllocLive], [TcgAllocOp],
      [TcgAllocExec], [TcgAllocRun], [TcgAllocCall], [TcgAllocMov]: registers
      and slots in step with the variables; moves, spills and constants; the
      marks of the liveness analysis against the allocator's table; operations,
      helper calls and moves, each as it is allocated and as it runs.
    - [TcgGenCode], [TcgText], [TcgCompile]: a block; the optimiser keeps
      blocks in the form the allocator takes; code generation returns code,
      and whatever the code does the block may do, through optimiser, liveness
      analysis and allocator.  What is asked of blocks and hosts are
      [compilable] and [host_ready].
    - [TcgConstraints], [TcgX86]: the constraints on operands a host gives as
      strings; the x86-64 host of src/tcg/i386 and the globals of a guest, which
      meet [host_ready].

    ** Conventions

    A definition has the name of the C function it translates; a loop or a
    branch that has a definition of its own has a name derived from it, and the
    comment above it says which lines it is.  C code that can fault returns an
    [outcome]: [Fault] is undefined behaviour, a failed assertion or [exit].
    Pointers that are compared or shared are locations in a store ([Plugin]) or
    identities ([Memory]); buffers are lists of bytes, or runs of addresses in a
    memory that may be shared ([HostMem]).

    Loops that are not structural have fuel, and every theorem about one either
    shows that the fuel suffices or is about divergence: page loops have one
    unit for each byte, scans one for each candidate, bitmap loops one for
    each word or level, codec loops one for each byte of input, the two passes
    over a memory map one for each range, a socket transfer one for each byte
    and one for each interruption still to come, the optimiser two visits for
    each operation and a step of a ring of copies for each variable.  C library functions are modelled by
    what the standard says of them; [popen], [dlopen], the clock, [bsearch],
    [qsort] and the socket calls are parameters with their documented behaviour as hypotheses, and a witness
    instantiates them.

    Every theorem with hypotheses has a lemma with the suffix [_witness] that
    applies it to concrete data.

    ** Not modelled

    The encoding of host instructions (a host is asked for moves, loads, stores,
    operations, calls and labels, which [TcgHost] gives a meaning), labels in
    host code and chains of translated blocks, hosts other than x86-64, the
    translators of the target processors and their helpers other than
    the x86 condition codes and integer operations, the block
    layer and its formats, user-mode emulation, device models other than those
    above, display, audio, USB, the object model and QAPI, character devices,
    the main loop and threads, coroutines, migration other than the delta
    codec, network backends and slirp, firmware and the bundled libraries: they are either large
    independent programs, input and output, generated code or third-party code.
    In the parts that are modelled: memory mapped devices behind the debug
    accessor (physical memory is RAM), the access paths of src/exec.c behind the
    lookup of a section, reference counts, locking and RCU,
    creation and registration of devices, migration descriptions of devices,
    trace and debug output.  The helper programs fname2sector_f.c and
    fname2sector_res.c call shell scripts and The Sleuth Kit; the plugin sees
    only their output, which is a parameter. *)

From Stdlib Require Export ZArith Lia.
From stdpp Require Export base option gmap strings pretty numbers list.

Global Open Scope Z_scope.

(** ** Machine integers *)

(** An unsigned [w]-bit C integer is a [Z] in [0, 2^w); arithmetic on it is
    done in [Z] and reduced with [wrap].  A signed one is a [Z] in
    [-2^(w-1), 2^(w-1)); a conversion to it is [sext]. *)
Definition wrap (w x : Z) : Z := x mod 2 ^ w.

Definition sext (w x : Z) : Z :=
  let y := wrap w x in if y <? 2 ^ (w - 1) then y else y - 2 ^ w.

Declare Scope machine_scope.
Delimit Scope machine_scope with mach.
Abbreviation u8 := (wrap 8).
Abbreviation u16 := (wrap 16).
Abbreviation u32 := (wrap 32).
Abbreviation u64 := (wrap 64).
Abbreviation s32 := (sext 32).
Abbreviation s64 := (sext 64).
Infix "&&&" := Z.land (at level 40, left associativity) : machine_scope.
Infix "|||" := Z.lor (at level 50, left associativity) : machine_scope.
Infix "^^^" := Z.lxor (at level 50, left associativity) : machine_scope.
Infix "<<" := Z.shiftl (at level 40, left associativity) : machine_scope.
Infix ">>" := Z.shiftr (at level 40, left associativity) : machine_scope.
Global Open Scope machine_scope.

(** The C condition [x & m]. *)
Definition has_bits (x m : Z) : bool := negb (Z.land x m =? 0).

(** The C conversion of a truth value to [int]. *)
Definition b2z (b : bool) : Z := if b then 1 else 0.

#[global] Arguments Z.testbit : simpl never.
#[global] Arguments Z.land : simpl never.
#[global] Arguments Z.lor : simpl never.
#[global] Arguments Z.lxor : simpl never.
#[global] Arguments Z.shiftl : simpl never.
#[global] Arguments Z.shiftr : simpl never.
#[global] Arguments Z.pow : simpl never.
#[global] Arguments Z.div : simpl never.
#[global] Arguments Z.modulo : simpl never.
#[global] Arguments wrap : simpl never.
#[global] Arguments sext : simpl never.

(** ** Automation *)

Create HintDb mach discriminated.
Create Rewrite HintDb mach.
Create Rewrite HintDb bits.

Ltac mlia := Z.div_mod_to_equations; lia.

(** Turns boolean comparisons of the context into propositions. *)
Ltac zbool :=
  repeat match goal with
  | H : (_ <? _) = true |- _ => apply Z.ltb_lt in H
  | H : (_ <? _) = false |- _ => apply Z.ltb_ge in H
  | H : (_ <=? _) = true |- _ => apply Z.leb_le in H
  | H : (_ <=? _) = false |- _ => apply Z.leb_gt in H
  | H : (_ =? _) = true |- _ => apply Z.eqb_eq in H
  | H : (_ =? _) = false |- _ => apply Z.eqb_neq in H
  | H : andb _ _ = true |- _ => apply andb_true_iff in H as [? ?]
  | H : orb _ _ = false |- _ => apply orb_false_iff in H as [? ?]
  | H : negb _ = true |- _ => apply negb_true_iff in H
  | H : negb _ = false |- _ => apply negb_false_iff in H
  end.

(** Splits on the boolean comparisons the goal branches on. *)
Ltac zcase :=
  match goal with
  | |- context [Z.ltb ?a ?b] => destruct (Z.ltb_spec a b)
  | |- context [Z.leb ?a ?b] => destruct (Z.leb_spec a b)
  | |- context [Z.eqb ?a ?b] => destruct (Z.eqb_spec a b)
  end.

Lemma wrap_range w x : 0 <= w -> 0 <= wrap w x < 2 ^ w.
Proof. intros. apply Z.mod_pos_bound. lia. Qed.

Lemma wrap_small w x : 0 <= x < 2 ^ w -> wrap w x = x.
Proof. apply Z.mod_small. Qed.

Lemma wrap_wrap w x : wrap w (wrap w x) = wrap w x.
Proof. apply Zmod_mod. Qed.

Lemma wrap_add_l w x y : wrap w (wrap w x + y) = wrap w (x + y).
Proof. apply Zplus_mod_idemp_l. Qed.

Lemma wrap_add_r w x y : wrap w (x + wrap w y) = wrap w (x + y).
Proof. apply Zplus_mod_idemp_r. Qed.

Lemma wrap_sub_l w x y : wrap w (wrap w x - y) = wrap w (x - y).
Proof. apply Zminus_mod_idemp_l. Qed.

Lemma wrap_sub_r w x y : wrap w (x - wrap w y) = wrap w (x - y).
Proof. apply Zminus_mod_idemp_r. Qed.

Lemma wrap_mul_l w x y : wrap w (wrap w x * y) = wrap w (x * y).
Proof. apply Zmult_mod_idemp_l. Qed.

Lemma wrap_land w x : 0 <= w -> wrap w x = Z.land x (Z.ones w).
Proof. intros. symmetry. by apply Z.land_ones. Qed.

#[export] Hint Rewrite wrap_wrap wrap_add_l wrap_add_r wrap_sub_l wrap_sub_r : mach.

Lemma sext_range w x : 1 <= w -> - 2 ^ (w - 1) <= sext w x < 2 ^ (w - 1).
Proof.
  intros Hw. unfold sext. pose proof (wrap_range w x ltac:(lia)).
  assert (2 ^ w = 2 * 2 ^ (w - 1)).
  { rewrite <- Z.pow_succ_r by lia. f_equal; lia. }
  zcase; lia.
Qed.

Lemma sext_small w x : 1 <= w -> - 2 ^ (w - 1) <= x < 2 ^ (w - 1) -> sext w x = x.
Proof.
  intros Hw Hx. unfold sext, wrap.
  assert (2 ^ w = 2 * 2 ^ (w - 1)).
  { rewrite <- Z.pow_succ_r by lia. f_equal; lia. }
  destruct (Z.leb_spec 0 x).
  - rewrite (Z.mod_small x) by lia. zcase; lia.
  - replace (x mod 2 ^ w) with (x + 2 ^ w).
    + zcase; lia.
    + apply (Z.mod_unique x (2 ^ w) (-1)); lia.
Qed.

Lemma wrap_sext w x : 1 <= w -> wrap w (sext w x) = wrap w x.
Proof.
  intros Hw. unfold sext. zcase; [apply wrap_wrap|].
  unfold wrap. rewrite Zminus_mod, Z_mod_same_full, Z.sub_0_r, !Zmod_mod. done.
Qed.

(** ** Bits *)

Lemma testbit_wrap w x i :
  0 <= w -> Z.testbit (wrap w x) i = (i <? w) && Z.testbit x i.
Proof.
  intros Hw. unfold wrap. zcase; simpl.
  - destruct (Z.ltb_spec i 0).
    + by rewrite !Z.testbit_neg_r.
    + by rewrite Z.mod_pow2_bits_low.
  - by rewrite Z.mod_pow2_bits_high by lia.
Qed.

Lemma testbit_shiftl x n i : Z.testbit (x << n) i = (0 <=? i) && Z.testbit x (i - n).
Proof.
  zcase; simpl; [by apply Z.shiftl_spec | by apply Z.testbit_neg_r].
Qed.

Lemma testbit_shiftr x n i : Z.testbit (x >> n) i = (0 <=? i) && Z.testbit x (i + n).
Proof.
  zcase; simpl; [by apply Z.shiftr_spec | by apply Z.testbit_neg_r].
Qed.

Lemma testbit_lnot x i : Z.testbit (Z.lnot x) i = (0 <=? i) && negb (Z.testbit x i).
Proof.
  zcase; simpl; [by apply Z.lnot_spec | by apply Z.testbit_neg_r].
Qed.

Lemma testbit_ones w i : 0 <= w -> Z.testbit (Z.ones w) i = (0 <=? i) && (i <? w).
Proof. intros. by rewrite Z.testbit_ones. Qed.

Lemma testbit_pow2 k i : 0 <= k -> Z.testbit (2 ^ k) i = (i =? k).
Proof.
  intros. rewrite Z.pow2_bits_eqb by done. apply Z.eqb_sym.
Qed.

Lemma testbit_high w x i : 0 <= x < 2 ^ w -> w <= i -> Z.testbit x i = false.
Proof.
  intros Hx Hi. destruct (decide (0 <= w)).
  - rewrite <- (wrap_small w x) by done. rewrite testbit_wrap by done.
    zcase; [lia|done].
  - rewrite Z.pow_neg_r in Hx by lia. lia.
Qed.

#[export] Hint Rewrite Z.land_spec Z.lor_spec Z.lxor_spec Z.ldiff_spec
  testbit_shiftl testbit_shiftr testbit_lnot Z.testbit_0_l : bits.
#[export] Hint Rewrite testbit_ones testbit_wrap testbit_pow2 using lia : bits.

(** Extensionality on bits; what is left is about single bits. *)
Ltac bits_ext i Hi := apply Z.bits_inj'; intros i Hi; autorewrite with bits.

Lemma bits_range w x :
  0 <= w -> 0 <= x -> (forall i, w <= i -> Z.testbit x i = false) -> x < 2 ^ w.
Proof.
  intros Hw Hx Hb. assert (x = wrap w x) as ->; [|apply wrap_range; lia].
  apply Z.bits_inj'. intros i Hi. rewrite testbit_wrap by done.
  zcase; [done|]. by apply Hb.
Qed.

Lemma land_range_l w x m : 0 <= w -> 0 <= x < 2 ^ w -> 0 <= Z.land x m < 2 ^ w.
Proof.
  intros Hw Hx. assert (0 <= Z.land x m) by (apply Z.land_nonneg; lia).
  split; [done|]. apply bits_range; [done..|].
  intros i Hi. rewrite Z.land_spec, (testbit_high w) by (done || lia). done.
Qed.

Lemma land_range_r w x m : 0 <= w -> 0 <= m < 2 ^ w -> 0 <= Z.land x m < 2 ^ w.
Proof. rewrite Z.land_comm. apply land_range_l. Qed.

Lemma lor_range w x y :
  0 <= w -> 0 <= x < 2 ^ w -> 0 <= y < 2 ^ w -> 0 <= Z.lor x y < 2 ^ w.
Proof.
  intros Hw Hx Hy. assert (0 <= Z.lor x y) by (apply Z.lor_nonneg; lia).
  split; [done|]. apply bits_range; [done..|].
  intros i Hi. rewrite Z.lor_spec, !(testbit_high w) by (done || lia). done.
Qed.

Lemma lxor_range w x y :
  0 <= w -> 0 <= x < 2 ^ w -> 0 <= y < 2 ^ w -> 0 <= Z.lxor x y < 2 ^ w.
Proof.
  intros Hw Hx Hy. assert (0 <= Z.lxor x y) by (apply Z.lxor_nonneg; lia).
  split; [done|]. apply bits_range; [done..|].
  intros i Hi. rewrite Z.lxor_spec, !(testbit_high w) by (done || lia). done.
Qed.

Lemma has_bits_pow2 x k : 0 <= k -> has_bits x (2 ^ k) = Z.testbit x k.
Proof.
  intros Hk. unfold has_bits. destruct (Z.testbit x k) eqn:E.
  - apply negb_true_iff, Z.eqb_neq. intros H0.
    assert (Z.testbit (Z.land x (2 ^ k)) k = true) as H1.
    { rewrite Z.land_spec, E, testbit_pow2 by done. by rewrite Z.eqb_refl. }
    rewrite H0, Z.testbit_0_l in H1. done.
  - apply negb_false_iff, Z.eqb_eq. bits_ext i Hi.
    zcase; [subst; by rewrite E | by rewrite andb_false_r].
Qed.

(** ** Little-endian bytes *)

(** A byte is a [Z] in [0, 256). *)
Definition is_byte (b : Z) : Prop := 0 <= b < 256.

#[export] Instance is_byte_dec b : Decision (is_byte b).
Proof. unfold is_byte. apply _. Defined.

Fixpoint le_combine (bs : list Z) : Z :=
  match bs with
  | [] => 0
  | b :: bs => b + 256 * le_combine bs
  end.

Fixpoint le_split (n : nat) (z : Z) : list Z :=
  match n with
  | O => []
  | S n => z mod 256 :: le_split n (z / 256)
  end.

Lemma le_split_length n z : length (le_split n z) = n.
Proof. revert z; induction n; simpl; auto. Qed.

Lemma le_split_bytes n z : Forall is_byte (le_split n z).
Proof.
  revert z; induction n; simpl; constructor; [|done].
  apply Z.mod_pos_bound; lia.
Qed.

Lemma le_combine_split n z : le_combine (le_split n z) = z mod 256 ^ Z.of_nat n.
Proof.
  revert z; induction n as [|n IH]; intros z.
  - simpl. by rewrite Z.mod_1_r.
  - cbn [le_split le_combine]. rewrite IH.
    rewrite Nat2Z.inj_succ, Z.pow_succ_r by lia.
    rewrite Z.rem_mul_r by lia. lia.
Qed.

Lemma le_combine_range bs :
  Forall is_byte bs -> 0 <= le_combine bs < 256 ^ Z.of_nat (length bs).
Proof.
  induction 1 as [|b bs Hb _ IH]; [simpl; lia|].
  cbn [le_combine length]. rewrite Nat2Z.inj_succ, Z.pow_succ_r by lia.
  unfold is_byte in Hb. lia.
Qed.

Lemma le_split_combine bs :
  Forall is_byte bs -> le_split (length bs) (le_combine bs) = bs.
Proof.
  induction 1 as [|b bs Hb _ IH]; [done|]. cbn [le_combine length le_split].
  unfold is_byte in Hb. f_equal.
  - rewrite Z.mul_comm, Z_mod_plus_full. apply Z.mod_small; lia.
  - rewrite Z.mul_comm, Z_div_plus_full by lia.
    rewrite Z.div_small by lia. done.
Qed.

(** ** Arrays indexed by C integers *)

Definition zget {A} (l : list A) (i : Z) : option A :=
  if i <? 0 then None else l !! Z.to_nat i.

Definition zset {A} (l : list A) (i : Z) (x : A) : list A :=
  if i <? 0 then l else <[Z.to_nat i := x]> l.

Lemma length_zset {A} (l : list A) i x : length (zset l i x) = length l.
Proof. unfold zset. case_match; [done|]. apply length_insert. Qed.

Lemma zget_zset_eq {A} (l : list A) i x :
  0 <= i < Z.of_nat (length l) -> zget (zset l i x) i = Some x.
Proof.
  intros. unfold zget, zset. destruct (Z.ltb_spec i 0); [lia|].
  apply list_lookup_insert_eq. lia.
Qed.

Lemma zget_zset_ne {A} (l : list A) i j x :
  i <> j -> zget (zset l i x) j = zget l j.
Proof.
  intros. unfold zget, zset. repeat zcase; try done.
  apply list_lookup_insert_ne. lia.
Qed.

Lemma zget_Some {A} (l : list A) i x :
  zget l i = Some x -> 0 <= i < Z.of_nat (length l).
Proof.
  unfold zget. zcase; [done|]. intros H1%lookup_lt_Some. lia.
Qed.

Lemma zget_is_Some {A} (l : list A) i :
  0 <= i < Z.of_nat (length l) -> is_Some (zget l i).
Proof.
  intros. unfold zget. zcase; [lia|]. apply lookup_lt_is_Some. lia.
Qed.

(** ** Runs of addresses and lookups *)

Lemma mapM_app {A B} (f : A -> option B) (l k : list A) :
  mapM f (l ++ k) = (x ← mapM f l; y ← mapM f k; mret (x ++ y)).
Proof.
  induction l as [|a l IH]; simpl.
  - destruct (mapM f k); done.
  - destruct (f a); simpl; [|done]. rewrite IH.
    destruct (mapM f l); simpl; [|done]. destruct (mapM f k); done.
Qed.

Lemma mapM_Some_fmap {A B} (f : A -> option B) (g : A -> B) (l : list A) :
  (forall x, x ∈ l -> f x = Some (g x)) -> mapM f l = Some (g <$> l).
Proof.
  induction l as [|a l IH]; intros Hf; [done|]. simpl.
  rewrite Hf by set_solver. simpl. rewrite IH; [done|]. set_solver.
Qed.

(** The [n] addresses from [a] on, modulo [2^64]. *)
Definition addrs (a n : Z) : list Z := (fun i => u64 (a + i)) <$> seqZ 0 n.

Lemma addrs_app a n1 n2 :
  0 <= n1 -> 0 <= n2 -> addrs a (n1 + n2) = addrs a n1 ++ addrs (u64 (a + n1)) n2.
Proof.
  intros. unfold addrs. rewrite seqZ_app, fmap_app by lia. f_equal.
  rewrite <- (Z.add_0_r (0 + n1)), <- fmap_add_seqZ, <- list_fmap_compose.
  apply list_fmap_ext. intros _ x _. simpl. rewrite wrap_add_l. f_equal. lia.
Qed.

(** ** Outcomes of C code *)

(** What a run of C code ends in: a value, a fault (behaviour the C standard
    leaves undefined, a failed assertion or [exit]), or the bound on a loop's
    iterations. *)
Inductive fault :=
| NullDeref
| OutOfBounds
| Uninitialised
| AssertFailed
| Overlap
| Undefined
| Exited (code : Z).

Inductive outcome (A : Type) :=
| Ret (a : A)
| Fault (f : fault)
| NoFuel.
Arguments Ret {A} a.
Arguments Fault {A} f.
Arguments NoFuel {A}.

#[export] Instance outcome_ret : MRet outcome := fun A a => Ret a.
#[export] Instance outcome_bind : MBind outcome := fun A B k m =>
  match m with
  | Ret a => k a
  | Fault f => Fault f
  | NoFuel => NoFuel
  end.

#[export] Instance outcome_fmap : FMap outcome := fun A B f m =>
  match m with
  | Ret a => Ret (f a)
  | Fault e => Fault e
  | NoFuel => NoFuel
  end.

#[export] Instance fault_eq_dec : EqDecision fault.
Proof. solve_decision. Defined.

#[export] Instance outcome_eq_dec `{EqDecision A} : EqDecision (outcome A).
Proof. solve_decision. Defined.

(** A dereference of a pointer modelled as an option. *)
Definition deref {A} (p : option A) : outcome A :=
  match p with Some a => Ret a | None => Fault NullDeref end.

Lemma bind_Ret {A B} (m : outcome A) (k : A -> outcome B) b :
  (m ≫= k) = Ret b <-> exists a, m = Ret a /\ k a = Ret b.
Proof.
  destruct m as [a|f|]; simpl; split; [by eauto|by intros (? & [= <-] & ?)|..]; naive_solver.
Qed.

Lemma fmap_Ret {A B} (f : A -> B) (m : outcome A) b :
  f <$> m = Ret b <-> exists a, m = Ret a /\ b = f a.
Proof. destruct m; simpl; naive_solver. Qed.

(** ** Text *)

(** The newline character. *)
Definition nl : string := String (Ascii.ascii_of_nat 10) EmptyString.

Definition hex_digit (d : Z) : Ascii.ascii :=
  Ascii.ascii_of_nat (Z.to_nat (if d <? 10 then 48 + d else 87 + d)).

Fixpoint hex_string (n : nat) (z : Z) (acc : string) : string :=
  match n with
  | O => acc
  | S n => hex_string n (z / 16) (String (hex_digit (z mod 16)) acc)
  end.

(** [%0nx]: at least [n] hexadecimal digits; the values printed in this
    program fit the width, so exactly [n]. *)
Definition fmt_x (n : nat) (z : Z) : string := hex_string n z "".

(** [%d] and its 64-bit variant. *)
Definition fmt_d (z : Z) : string := pretty z.

Fixpoint spaces (n : nat) : string :=
  match n with O => "" | S n => String (Ascii.ascii_of_nat 32) (spaces n) end.

(** [%*d]: padded on the left with blanks. *)
Definition fmt_wd (width : nat) (z : Z) : string :=
  let s := fmt_d z in (spaces (width - String.length s) +:+ s)%string.
