(* ===== verification/GuestMem.v ===== *)
(** * Guest memory as the debugger sees it

    [x86_cpu_get_phys_page_debug] of target-i386/helper.c (the page-table walk
    that takes no fault) and [cpu_memory_rw_debug] of exec.c (the page-by-page
    copy between a host buffer and guest virtual memory), for the system
    emulator of a 64-bit x86 target.  The physical address space behind
    [ldl_phys], [ldq_phys], [address_space_rw] and
    [cpu_physical_memory_write_rom] is RAM: a byte per address. *)

From S2P Require Import Prelude.

(** ** State and constants *)

(** The fields of [CPUX86State] that the walk reads; [a20_mask] is the signed
    32-bit field, so [-1] when the A20 gate is open. *)
Record CPUX86State := {
  cr0 : Z;
  cr3 : Z;
  cr4 : Z;
  hflags : Z;
  a20_mask : Z;
}.

Definition pmem := Z -> Z.

Definition CR0_PG_MASK : Z := 2 ^ 31.
Definition CR4_PSE_MASK : Z := 2 ^ 4.
Definition CR4_PAE_MASK : Z := 2 ^ 5.
Definition HF_LMA_MASK : Z := 2 ^ 14.
Definition PG_PRESENT_MASK : Z := 2 ^ 0.
Definition PG_PSE_MASK : Z := 2 ^ 7.
Definition PG_ADDRESS_MASK : Z := 0x000ffffffffff000.
Definition TARGET_PAGE_SIZE : Z := 4096.
Definition TARGET_PAGE_MASK : Z := Z.lnot (TARGET_PAGE_SIZE - 1).

(** The error value: [(hwaddr)-1]. *)
Definition HWADDR_ERR : Z := 2 ^ 64 - 1.

(** ** Physical accesses *)

Definition read_phys (m : pmem) (a : Z) (n : Z) : list Z :=
  (fun i => m (a + i)) <$> seqZ 0 n.

Definition write_phys (m : pmem) (a : Z) (bs : list Z) : pmem :=
  fun x => default (m x) (zget bs (x - a)).

Definition ldl_phys (m : pmem) (a : Z) : Z := le_combine (read_phys m a 4).
Definition ldq_phys (m : pmem) (a : Z) : Z := le_combine (read_phys m a 8).

(** ** The page walk *)

(** The code after the label [out]. *)
Definition walk_out (addr pte page_size : Z) : Z :=
  let pte := pte &&& (PG_ADDRESS_MASK &&& Z.lnot (page_size - 1)) in
  let page_offset := u32 ((addr &&& TARGET_PAGE_MASK) &&& (page_size - 1)) in
  pte ||| page_offset.

(** The common tail of the PAE walks: from a page-directory-pointer entry. *)
Definition walk_pae_pde (env : CPUX86State) (m : pmem) (addr pdpe : Z) : Z :=
  let pde_addr := u64 ((pdpe &&& PG_ADDRESS_MASK)
                       + (((addr >> 21) &&& 0x1ff) << 3)) &&& a20_mask env in
  let pde := ldq_phys m pde_addr in
  if negb (has_bits pde PG_PRESENT_MASK) then HWADDR_ERR
  else if has_bits pde PG_PSE_MASK then
    walk_out addr pde (2048 * 1024)
  else
    let pte_addr := u64 ((pde &&& PG_ADDRESS_MASK)
                         + (((addr >> 12) &&& 0x1ff) << 3)) &&& a20_mask env in
    let pte := ldq_phys m pte_addr in
    if negb (has_bits pte PG_PRESENT_MASK) then HWADDR_ERR
    else walk_out addr pte 4096.

Definition x86_cpu_get_phys_page_debug (env : CPUX86State) (m : pmem) (addr : Z) : Z :=
  if negb (has_bits (cr0 env) CR0_PG_MASK) then
    walk_out addr (addr &&& a20_mask env) 4096
  else if has_bits (cr4 env) CR4_PAE_MASK then
    if has_bits (hflags env) HF_LMA_MASK then
      let sx := (s64 addr) >> 47 in
      if negb (sx =? 0) && negb (sx =? -1) then HWADDR_ERR
      else
        let pml4e_addr := u64 ((cr3 env &&& Z.lnot 0xfff)
                               + (((addr >> 39) &&& 0x1ff) << 3)) &&& a20_mask env in
        let pml4e := ldq_phys m pml4e_addr in
        if negb (has_bits pml4e PG_PRESENT_MASK) then HWADDR_ERR
        else
          let pdpe_addr := u64 ((pml4e &&& PG_ADDRESS_MASK)
                                + (((addr >> 30) &&& 0x1ff) << 3)) &&& a20_mask env in
          let pdpe := ldq_phys m pdpe_addr in
          if negb (has_bits pdpe PG_PRESENT_MASK) then HWADDR_ERR
          else if has_bits pdpe PG_PSE_MASK then
            walk_out addr pdpe (1024 * 1024 * 1024)
          else walk_pae_pde env m addr pdpe
    else
      let pdpe_addr := u64 ((cr3 env &&& Z.lnot 0x1f)
                            + ((addr >> 27) &&& 0x18)) &&& a20_mask env in
      let pdpe := ldq_phys m pdpe_addr in
      if negb (has_bits pdpe PG_PRESENT_MASK) then HWADDR_ERR
      else walk_pae_pde env m addr pdpe
  else
    let pde_addr := u64 ((cr3 env &&& Z.lnot 0xfff)
                         + ((addr >> 20) &&& 0xffc)) &&& a20_mask env in
    let pde := ldl_phys m pde_addr in
    if negb (has_bits pde PG_PRESENT_MASK) then HWADDR_ERR
    else if has_bits pde PG_PSE_MASK && has_bits (cr4 env) CR4_PSE_MASK then
      (* [pde] is a [uint32_t]: the shift is done on 32 bits *)
      let pte := pde ||| u32 ((pde &&& 0x1fe000) << (32 - 13)) in
      walk_out addr (pte &&& a20_mask env) (4096 * 1024)
    else
      let pte_addr := u64 ((pde &&& Z.lnot 0xfff)
                           + ((addr >> 10) &&& 0xffc)) &&& a20_mask env in
      let pte := ldl_phys m pte_addr in
      if negb (has_bits pte PG_PRESENT_MASK) then HWADDR_ERR
      else walk_out addr (pte &&& a20_mask env) 4096.

(** ** The copy loop *)

(** One run of the [while] loop of [cpu_memory_rw_debug]; [pos] is how far
    [buf] has been advanced.  [fuel] bounds the iterations: every one handles
    at least a byte, so the length is enough ([rw_debug_loop_fuel]). *)
Fixpoint rw_debug_loop (fuel : nat) (env : CPUX86State) (m : pmem)
    (addr : Z) (buf : list Z) (pos len : Z) (is_write : bool)
    : outcome (Z * pmem * list Z) :=
  if len <=? 0 then Ret (0, m, buf)
  else match fuel with
  | O => NoFuel
  | S fuel =>
    let page := addr &&& TARGET_PAGE_MASK in
    let phys_addr := x86_cpu_get_phys_page_debug env m page in
    if phys_addr =? HWADDR_ERR then Ret (-1, m, buf)
    else
      let l := s32 (u64 (u64 (page + TARGET_PAGE_SIZE) - addr)) in
      let l := if len <? l then len else l in
      let phys_addr := u64 (phys_addr + (addr &&& Z.lnot TARGET_PAGE_MASK)) in
      if is_write then
        let m := write_phys m phys_addr (take (Z.to_nat l) (drop (Z.to_nat pos) buf)) in
        rw_debug_loop fuel env m (u64 (addr + l)) buf (pos + l) (len - l) is_write
      else
        let buf := list_inserts (Z.to_nat pos) (read_phys m phys_addr l) buf in
        rw_debug_loop fuel env m (u64 (addr + l)) buf (pos + l) (len - l) is_write
  end.

Definition cpu_memory_rw_debug (env : CPUX86State) (m : pmem) (addr : Z)
    (buf : list Z) (len : Z) (is_write : bool) : outcome (Z * pmem * list Z) :=
  rw_debug_loop (Z.to_nat len) env m addr buf 0 len is_write.

(** ** Frames *)

Lemma testbit_PG_ADDRESS_MASK i :
  Z.testbit PG_ADDRESS_MASK i = (12 <=? i) && (i <? 52).
Proof.
  change PG_ADDRESS_MASK with (Z.ones 40 << 12). autorewrite with bits.
  repeat zcase; simpl; lia.
Qed.

Lemma testbit_TARGET_PAGE_MASK i : Z.testbit TARGET_PAGE_MASK i = (12 <=? i).
Proof.
  change TARGET_PAGE_MASK with (Z.lnot (Z.ones 12)). autorewrite with bits.
  repeat zcase; simpl; lia.
Qed.
#[export] Hint Rewrite testbit_PG_ADDRESS_MASK testbit_TARGET_PAGE_MASK : bits.

Lemma testbit_page_mask k i :
  0 <= k -> Z.testbit (2 ^ k - 1) i = (0 <=? i) && (i <? k).
Proof. intros. rewrite <- testbit_ones by done. by rewrite Z.ones_equiv. Qed.
#[export] Hint Rewrite testbit_page_mask using lia : bits.

(** Bit by bit, the result of the walk is the frame above the page size and
    the address below it, from bit 12 on. *)
Lemma walk_out_bits addr pte k i :
  12 <= k <= 30 -> 0 <= i ->
  Z.testbit (walk_out addr pte (2 ^ k)) i =
    (12 <=? i) && (if i <? k then Z.testbit addr i
                   else (i <? 52) && Z.testbit pte i).
Proof.
  intros Hk Hi. unfold walk_out. autorewrite with bits.
  repeat zcase; simpl; rewrite ?andb_false_r, ?andb_true_r, ?orb_false_r; try done; lia.
Qed.

Lemma walk_out_range addr pte k :
  12 <= k <= 30 -> 0 <= walk_out addr pte (2 ^ k) < 2 ^ 52.
Proof.
  intros Hk. assert (0 <= walk_out addr pte (2 ^ k)).
  { unfold walk_out. apply Z.lor_nonneg. split.
    - apply Z.land_nonneg. right. apply Z.land_nonneg. left. done.
    - apply wrap_range. lia. }
  split; [done|]. apply bits_range; [lia|done|].
  intros i Hi. rewrite walk_out_bits by lia. repeat zcase; simpl; try done; lia.
Qed.

Lemma walk_out_aligned addr pte k :
  12 <= k <= 30 -> Z.land (walk_out addr pte (2 ^ k)) 0xfff = 0.
Proof.
  intros Hk. change 0xfff with (Z.ones 12). bits_ext i Hi.
  rewrite walk_out_bits by lia. repeat zcase; simpl; rewrite ?andb_false_r; try done; lia.
Qed.

(** A page frame: page-aligned and inside the 52-bit physical space. *)
Definition is_frame (p : Z) : Prop := 0 <= p < 2 ^ 52 /\ Z.land p 0xfff = 0.

Lemma walk_out_frame addr pte k : 12 <= k <= 30 -> is_frame (walk_out addr pte (2 ^ k)).
Proof. split; [by apply walk_out_range | by apply walk_out_aligned]. Qed.

Lemma walk_pae_pde_frame env m addr pdpe :
  walk_pae_pde env m addr pdpe = HWADDR_ERR \/ is_frame (walk_pae_pde env m addr pdpe).
Proof.
  unfold walk_pae_pde. repeat case_match; auto; right.
  - apply (walk_out_frame _ _ 21); lia.
  - apply (walk_out_frame _ _ 12); lia.
Qed.

Lemma get_phys_page_frame env m addr :
  x86_cpu_get_phys_page_debug env m addr = HWADDR_ERR
  \/ is_frame (x86_cpu_get_phys_page_debug env m addr).
Proof.
  unfold x86_cpu_get_phys_page_debug.
  repeat case_match; auto using walk_pae_pde_frame; right.
  all: first [apply (walk_out_frame _ _ 12); lia | apply (walk_out_frame _ _ 30); lia
             | apply (walk_out_frame _ _ 22); lia].
Qed.

(** ** A reference walk *)

(** The page that an entry mapping [2^sh] bytes gives to [addr]: the frame
    number of the entry, then the 4 KiB page of [addr] inside the mapping. *)
Definition page_of (entry sh addr : Z) : Z :=
  (entry mod 2 ^ 52) / 2 ^ sh * 2 ^ sh + (addr mod 2 ^ sh) / 4096 * 4096.

(** The architecture's walk of a radix tree of [level] levels, nine address
    bits per level, the leaf at level 1 or at a level 2 or 3 entry whose
    page-size bit is set. *)
Fixpoint radix_walk (m : pmem) (a20 : Z) (level : nat) (table addr : Z) : option Z :=
  match level with
  | O => None
  | S below =>
    let sh := 12 + 9 * Z.of_nat below in
    let entry := ldq_phys m (u64 (table + 8 * ((addr / 2 ^ sh) mod 512)) &&& a20) in
    if Z.testbit entry 0 then
      if bool_decide (below = 0%nat) || (bool_decide (below < 3)%nat && Z.testbit entry 7)
      then Some (page_of entry sh addr)
      else radix_walk m a20 below (entry mod 2 ^ 52 / 4096 * 4096) addr
    else None
  end.

Lemma mul_div_as_bits x k : 0 <= k -> x / 2 ^ k * 2 ^ k = (x >> k) << k.
Proof. intros. by rewrite Z.shiftl_mul_pow2, Z.shiftr_div_pow2. Qed.

Lemma walk_out_page_of addr pte k :
  12 <= k <= 30 -> walk_out addr pte (2 ^ k) = page_of pte k addr.
Proof.
  intros Hk. unfold page_of. set (x := walk_out addr pte (2 ^ k)).
  rewrite (Z.div_mod x (2 ^ k)) by lia. f_equal.
  - rewrite Z.mul_comm. f_equal. rewrite <- !Z.shiftr_div_pow2 by lia.
    change (pte mod 2 ^ 52) with (wrap 52 pte). bits_ext i Hi.
    unfold x. rewrite walk_out_bits by lia. repeat zcase; simpl; try done; lia.
  - change (x mod 2 ^ k) with (wrap k x). change (addr mod 2 ^ k) with (wrap k addr).
    change 4096 with (2 ^ 12). rewrite mul_div_as_bits by lia. bits_ext i Hi.
    unfold x. rewrite walk_out_bits by lia.
    repeat zcase; simpl; try done; try lia; f_equal; lia.
Qed.

Lemma table_index addr sh : 0 <= sh -> ((addr >> sh) &&& 0x1ff) << 3 = 8 * ((addr / 2 ^ sh) mod 512).
Proof.
  intros. change 0x1ff with (Z.ones 9). rewrite Z.land_ones by lia.
  rewrite Z.shiftl_mul_pow2, Z.shiftr_div_pow2 by lia. apply Z.mul_comm.
Qed.

Lemma table_base e : Z.land e PG_ADDRESS_MASK = e mod 2 ^ 52 / 4096 * 4096.
Proof.
  change 4096 with (2 ^ 12). rewrite mul_div_as_bits by lia.
  change (e mod 2 ^ 52) with (wrap 52 e). bits_ext i Hi.
  repeat zcase; simpl; rewrite ?andb_false_r, ?andb_true_r; try done; try lia.
  f_equal; lia.
Qed.

Lemma present_bit e : has_bits e PG_PRESENT_MASK = Z.testbit e 0.
Proof. by apply has_bits_pow2. Qed.

Lemma pse_bit e : has_bits e PG_PSE_MASK = Z.testbit e 7.
Proof. by apply has_bits_pow2. Qed.
#[export] Hint Rewrite present_bit pse_bit table_base : mach.
#[export] Hint Rewrite table_index using lia : mach.

Lemma walk_pae_pde_radix env m addr pdpe :
  walk_pae_pde env m addr pdpe =
  default HWADDR_ERR
    (radix_walk m (a20_mask env) 2 (pdpe mod 2 ^ 52 / 4096 * 4096) addr).
Proof.
  unfold walk_pae_pde. cbv zeta. autorewrite with mach. cbn [radix_walk].
  change (12 + 9 * Z.of_nat 1) with 21. change (12 + 9 * Z.of_nat 0) with 12.
  destruct (Z.testbit _ 0); simpl; [|done].
  destruct (Z.testbit _ 7); simpl; [by apply (walk_out_page_of _ _ 21)|].
  destruct (Z.testbit _ 0); simpl; [|done].
  by apply (walk_out_page_of _ _ 12).
Qed.

(** Long mode: paging on, PAE and long mode active. *)
Definition long_mode (env : CPUX86State) : bool :=
  has_bits (cr0 env) CR0_PG_MASK && has_bits (cr4 env) CR4_PAE_MASK
  && has_bits (hflags env) HF_LMA_MASK.

(** A canonical address: bits 63 to 47 are equal. *)
Definition canonical (addr : Z) : bool :=
  (addr <? 2 ^ 47) || (2 ^ 64 - 2 ^ 47 <=? addr).

Lemma canonical_sext addr :
  0 <= addr < 2 ^ 64 ->
  negb (s64 addr >> 47 =? 0) && negb (s64 addr >> 47 =? -1) = negb (canonical addr).
Proof.
  intros Ha. rewrite Z.shiftr_div_pow2 by lia. unfold sext, canonical.
  rewrite wrap_small by lia.
  change (2 ^ (64 - 1)) with (2 ^ 63).
  repeat zcase; simpl; try done; mlia.
Qed.

(** C8: the 4-level debug walk of a 64-bit guest is the architecture's radix
    walk from CR3 on canonical addresses, and fails on the others. *)
Theorem long_mode_walk_correct env m addr :
  long_mode env = true -> 0 <= addr < 2 ^ 64 ->
  x86_cpu_get_phys_page_debug env m addr =
  if canonical addr then
    default HWADDR_ERR (radix_walk m (a20_mask env) 4 (Z.land (cr3 env) (Z.lnot 0xfff)) addr)
  else HWADDR_ERR.
Proof.
  unfold long_mode. intros Hlm Ha. zbool. unfold x86_cpu_get_phys_page_debug.
  rewrite H, H0, H1. cbn [negb]. rewrite canonical_sext by done.
  destruct (canonical addr); [cbn [negb]|done].
  cbv zeta. autorewrite with mach. cbn [radix_walk].
  change (12 + 9 * Z.of_nat 3) with 39. change (12 + 9 * Z.of_nat 2) with 30.
  destruct (Z.testbit _ 0); cbn [negb]; [|done].
  rewrite bool_decide_eq_false_2 by done. cbn [orb andb bool_decide decide].
  destruct (Z.testbit _ 0); cbn [negb]; [|done].
  destruct (Z.testbit _ 7); simpl; [by apply (walk_out_page_of _ _ 30)|].
  apply walk_pae_pde_radix.
Qed.

(** A legacy (non-PAE) walk never leaves the low 4 GiB: the high address
    bits of a 4 MiB page-directory entry (PSE-36) are lost. *)
Lemma legacy_walk_low env m addr :
  (forall a, is_byte (m a)) ->
  has_bits (cr0 env) CR0_PG_MASK = true -> has_bits (cr4 env) CR4_PAE_MASK = false ->
  x86_cpu_get_phys_page_debug env m addr = HWADDR_ERR
  \/ 0 <= x86_cpu_get_phys_page_debug env m addr < 2 ^ 32.
Proof.
  intros Hm Hpg Hpae. unfold x86_cpu_get_phys_page_debug. rewrite Hpg, Hpae.
  cbn [negb]. cbv zeta.
  assert (forall a, 0 <= ldl_phys m a < 2 ^ 32) as Hl.
  { intros a. unfold ldl_phys. apply (le_combine_range (read_phys m a 4)).
    unfold read_phys. apply Forall_fmap, Forall_true. intros x. apply Hm. }
  assert (forall k pte, 12 <= k <= 30 -> 0 <= pte < 2 ^ 32 -> 0 <= walk_out addr pte (2 ^ k) < 2 ^ 32) as Hw.
  { intros k pte Hk Hp. pose proof (walk_out_range addr pte k Hk).
    split; [lia|]. apply bits_range; [lia..|]. intros i Hi.
    rewrite walk_out_bits, (testbit_high 32 pte) by lia.
    repeat zcase; simpl; rewrite ?andb_false_r; try done; lia. }
  repeat case_match; auto; right.
  - apply (Hw 22); [lia|]. apply land_range_l; [lia|]. apply lor_range; [lia|apply Hl|].
    apply wrap_range. lia.
  - apply (Hw 12); [lia|]. apply land_range_l; [lia|]. apply Hl.
Qed.

(** ** The copy loop reads what the walk maps *)

Definition page_phys (env : CPUX86State) (m : pmem) (a : Z) : option Z :=
  let p := x86_cpu_get_phys_page_debug env m (a &&& TARGET_PAGE_MASK) in
  if p =? HWADDR_ERR then None else Some p.

(** The byte at a virtual address. *)
Definition vbyte (env : CPUX86State) (m : pmem) (a : Z) : option Z :=
  (fun p => m (p + a mod 4096)) <$> page_phys env m a.

Lemma page_mask_div a : a &&& TARGET_PAGE_MASK = a / 4096 * 4096.
Proof.
  change 4096 with (2 ^ 12). rewrite mul_div_as_bits by lia. bits_ext i Hi.
  repeat zcase; simpl; rewrite ?andb_false_r, ?andb_true_r; try done; try lia.
  f_equal; lia.
Qed.

Lemma page_offset_mod a : a &&& Z.lnot TARGET_PAGE_MASK = a mod 4096.
Proof.
  change (Z.lnot TARGET_PAGE_MASK) with (Z.ones 12). by apply Z.land_ones.
Qed.

(** How many bytes an iteration handles. *)
Lemma page_left a :
  0 <= a < 2 ^ 64 ->
  s32 (u64 (u64 (a / 4096 * 4096 + TARGET_PAGE_SIZE) - a)) = 4096 - a mod 4096.
Proof.
  intros Ha. rewrite wrap_sub_l. unfold TARGET_PAGE_SIZE.
  rewrite (wrap_small 64) by mlia. rewrite sext_small; mlia.
Qed.

Lemma page_phys_same env m a i :
  0 <= a < 2 ^ 64 -> 0 <= i < 4096 - a mod 4096 ->
  page_phys env m (u64 (a + i)) = page_phys env m a.
Proof.
  intros Ha Hi. unfold page_phys. rewrite !page_mask_div.
  rewrite (wrap_small 64) by mlia.
  replace ((a + i) / 4096) with (a / 4096) by mlia. done.
Qed.

Lemma vbytes_page env m a l :
  0 <= a < 2 ^ 64 -> 0 < l <= 4096 - a mod 4096 ->
  mapM (vbyte env m) (addrs a l) =
  (fun p => read_phys m (p + a mod 4096) l) <$> page_phys env m a.
Proof.
  intros Ha Hl. destruct (page_phys env m a) as [p|] eqn:Ep; simpl.
  - rewrite (mapM_Some_fmap _ (fun x => m (p + x mod 4096))).
    + f_equal. unfold addrs, read_phys. rewrite <- list_fmap_compose.
      apply list_fmap_ext. intros k x [-> Hx]%lookup_seqZ. simpl. f_equal.
      rewrite wrap_small by mlia. mlia.
    + intros x (k & -> & Hk%elem_of_seqZ)%list_elem_of_fmap.
      unfold vbyte. rewrite page_phys_same by lia. by rewrite Ep.
  - assert (vbyte env m (u64 (a + 0)) = None) as E0.
    { unfold vbyte. rewrite page_phys_same by lia. by rewrite Ep. }
    unfold addrs. rewrite seqZ_cons by lia. simpl. by rewrite E0.
Qed.

Lemma read_phys_length m a n : length (read_phys m a n) = Z.to_nat n.
Proof. unfold read_phys. by rewrite length_fmap, length_seqZ. Qed.

Lemma page_phys_range env m a p : page_phys env m a = Some p -> 0 <= p < 2 ^ 52.
Proof.
  unfold page_phys. intros Hp. case_match; [done|]. simplify_eq. zbool.
  destruct (get_phys_page_frame env m (a &&& TARGET_PAGE_MASK)) as [?|[? _]]; done.
Qed.

(** One iteration of the reading loop, in terms of the page translation. *)
Lemma rw_debug_loop_read_step fuel env m addr buf pos len :
  0 <= addr < 2 ^ 64 -> 0 < len ->
  rw_debug_loop (S fuel) env m addr buf pos len false =
  match page_phys env m addr with
  | None => Ret (-1, m, buf)
  | Some p =>
    let l := Z.min len (4096 - addr mod 4096) in
    rw_debug_loop fuel env m (u64 (addr + l))
      (list_inserts (Z.to_nat pos) (read_phys m (p + addr mod 4096) l) buf)
      (pos + l) (len - l) false
  end.
Proof.
  intros Ha Hl. cbn [rw_debug_loop]. rewrite page_offset_mod.
  destruct (Z.leb_spec len 0); [lia|].
  destruct (page_phys env m addr) as [p|] eqn:Ep; pose proof Ep as Hp;
    unfold page_phys in Hp; case_match; try done.
  simplify_eq. rewrite page_mask_div, page_left by done.
  rewrite <- page_mask_div. pose proof (page_phys_range _ _ _ _ Ep).
  rewrite (wrap_small 64 (_ + addr mod 4096)) by mlia.
  replace (if len <? _ then _ else _) with (Z.min len (4096 - addr mod 4096))
    by (zcase; lia).
  done.
Qed.

Lemma rw_debug_loop_read fuel env m addr buf pos len :
  0 <= addr < 2 ^ 64 -> 0 <= len <= Z.of_nat fuel -> 0 <= pos ->
  match mapM (vbyte env m) (addrs addr len) with
  | Some bs => rw_debug_loop fuel env m addr buf pos len false
               = Ret (0, m, list_inserts (Z.to_nat pos) bs buf)
  | None => exists buf', rw_debug_loop fuel env m addr buf pos len false = Ret (-1, m, buf')
                         /\ length buf' = length buf
  end.
Proof.
  revert addr buf pos len. induction fuel as [|fuel IH]; intros addr buf pos len Ha Hl Hp.
  { assert (len = 0) as -> by lia. done. }
  destruct (decide (len = 0)) as [->|]; [done|].
  rewrite rw_debug_loop_read_step by lia.
  set (l := Z.min len (4096 - addr mod 4096)).
  assert (0 < l) by (unfold l; mlia).
  assert (addrs addr len = addrs addr l ++ addrs (u64 (addr + l)) (len - l)) as ->.
  { rewrite <- addrs_app by (unfold l; lia). f_equal. lia. }
  rewrite mapM_app.
  rewrite (vbytes_page env m addr l) by (unfold l in *; lia).
  destruct (page_phys env m addr) as [p|]; simpl; [|by eexists].
  set (bs1 := read_phys m (p + addr mod 4096) l).
  specialize (IH (u64 (addr + l)) (list_inserts (Z.to_nat pos) bs1 buf) (pos + l) (len - l)).
  pose proof (wrap_range 64 (addr + l)).
  destruct (mapM _ _) as [bs2|]; simpl.
  - rewrite IH by (unfold l in *; lia). do 2 f_equal.
    rewrite list_inserts_app_l. f_equal.
    unfold bs1. rewrite read_phys_length. lia.
  - destruct IH as (buf' & -> & Hlen); [unfold l in *; lia..|].
    exists buf'. by rewrite Hlen, length_inserts.
Qed.

Lemma debug_read_Some env m addr buf len bs :
  0 <= addr < 2 ^ 64 -> 0 <= len <= Z.of_nat (length buf) ->
  mapM (vbyte env m) (addrs addr len) = Some bs ->
  cpu_memory_rw_debug env m addr buf len false = Ret (0, m, bs ++ drop (Z.to_nat len) buf).
Proof.
  intros Ha Hl Hbs. unfold cpu_memory_rw_debug.
  pose proof (rw_debug_loop_read (Z.to_nat len) env m addr buf 0 len Ha ltac:(lia) ltac:(lia)) as H.
  rewrite Hbs in H. rewrite H. do 2 f_equal.
  assert (length bs = Z.to_nat len) as Hlen.
  { apply length_mapM in Hbs. unfold addrs in Hbs.
    rewrite length_fmap, length_seqZ in Hbs. done. }
  rewrite <- (take_drop (Z.to_nat len) buf) at 1.
  apply list_inserts_0_r. rewrite length_take. lia.
Qed.

Lemma debug_read_None env m addr buf len :
  0 <= addr < 2 ^ 64 -> 0 <= len ->
  mapM (vbyte env m) (addrs addr len) = None ->
  exists buf', cpu_memory_rw_debug env m addr buf len false = Ret (-1, m, buf')
               /\ length buf' = length buf.
Proof.
  intros Ha Hl Hbs.
  pose proof (rw_debug_loop_read (Z.to_nat len) env m addr buf 0 len Ha ltac:(lia) ltac:(lia)) as H.
  by rewrite Hbs in H.
Qed.

(** C15: a debugger read terminates; it succeeds exactly when every page it
    touches is mapped, and then the head of the buffer holds the bytes the
    page walk maps one by one, the rest of it being untouched. *)
Theorem debug_read_correct env m addr buf len :
  0 <= addr < 2 ^ 64 -> 0 <= len <= Z.of_nat (length buf) ->
  match mapM (vbyte env m) (addrs addr len) with
  | Some bs => cpu_memory_rw_debug env m addr buf len false
               = Ret (0, m, bs ++ drop (Z.to_nat len) buf)
  | None => exists buf', cpu_memory_rw_debug env m addr buf len false = Ret (-1, m, buf')
                         /\ length buf' = length buf
  end.
Proof.
  intros Ha Hl. destruct (mapM _ _) as [bs|] eqn:Hbs.
  - by apply debug_read_Some.
  - apply debug_read_None; [done|lia|done].
Qed.

(** ** The interface to the monitor *)

(** What the introspection commands use of a guest: a read of [len] bytes at a
    virtual address into a buffer, with the value the C function returns. *)
Class DebugMem := {
  dbg_read : Z -> list Z -> Z -> Z * list Z;
  dbg_byte : Z -> option Z;
  dbg_byte_range : forall a b, dbg_byte a = Some b -> is_byte b;
  dbg_read_ok : forall a buf len bs,
    0 <= a < 2 ^ 64 -> 0 <= len <= Z.of_nat (length buf) ->
    mapM dbg_byte (addrs a len) = Some bs ->
    dbg_read a buf len = (0, bs ++ drop (Z.to_nat len) buf);
  dbg_read_err : forall a buf len,
    0 <= a < 2 ^ 64 -> 0 <= len <= Z.of_nat (length buf) ->
    mapM dbg_byte (addrs a len) = None ->
    (dbg_read a buf len).1 = -1;
}.

Lemma vbyte_range env m a b : (forall x, is_byte (m x)) -> vbyte env m a = Some b -> is_byte b.
Proof.
  unfold vbyte. intros Hm (p & _ & ->)%fmap_Some. apply Hm.
Qed.

Definition x86_dbg_read (env : CPUX86State) (m : pmem) (a : Z) (buf : list Z) (len : Z)
  : Z * list Z :=
  match cpu_memory_rw_debug env m a buf len false with
  | Ret (r, _, buf') => (r, buf')
  | _ => (-1, buf)
  end.

(** The x86 walk and copy loop implement it. *)
Program Definition x86_debug_mem (env : CPUX86State) (m : pmem)
    (Hm : forall x, is_byte (m x)) : DebugMem := {|
  dbg_read := x86_dbg_read env m;
  dbg_byte := vbyte env m;
|}.
Next Obligation. intros env m Hm a b. by apply vbyte_range. Qed.
Next Obligation.
  intros env m Hm a buf len bs Ha Hl Hbs. unfold x86_dbg_read.
  by rewrite (debug_read_Some _ _ _ _ _ bs).
Qed.
Next Obligation.
  intros env m Hm a buf len Ha Hl Hbs. unfold x86_dbg_read.
  destruct (debug_read_None env m a buf len) as (buf' & -> & _); [done|lia|done..].
Qed.

(** ** Samples *)

(** Physical memory given by its non-zero 64-bit words. *)
Definition words_mem (ws : list (Z * Z)) (x : Z) : Z :=
  let w := default 0 ((fun p => p.2.2) <$> list_find (fun p => p.1 = x / 8 * 8) ws) in
  (w / 256 ^ (x mod 8)) mod 256.

Lemma words_mem_byte ws x : is_byte (words_mem ws x).
Proof. apply Z.mod_pos_bound. lia. Qed.

(** A long-mode guest with one 2 MiB page at 0xfffff80003a00000. *)
Definition sample_long_env : CPUX86State :=
  {| cr0 := 2 ^ 31; cr3 := 0x1000; cr4 := 2 ^ 5; hflags := 2 ^ 14; a20_mask := -1 |}.

Definition sample_long_mem : pmem :=
  words_mem [(0x1f80, 0x2001); (0x2000, 0x3001); (0x30e8, 0x200081); (0x300010, 0x1122334455667788)].

Lemma long_mode_walk_correct_witness :
  x86_cpu_get_phys_page_debug sample_long_env sample_long_mem 0xfffff80003b00000 = 0x300000.
Proof.
  rewrite (long_mode_walk_correct sample_long_env sample_long_mem 0xfffff80003b00000).
  - vm_compute. reflexivity.
  - vm_compute. reflexivity.
  - split; vm_compute; [discriminate|reflexivity].
Defined.

Lemma debug_read_correct_witness :
  cpu_memory_rw_debug sample_long_env sample_long_mem 0xfffff80003b00010 [0; 0; 0] 2 false
  = Ret (0, sample_long_mem, [0x88; 0x77; 0]).
Proof.
  pose proof (debug_read_correct sample_long_env sample_long_mem 0xfffff80003b00010 [0; 0; 0] 2) as H.
  assert (mapM (vbyte sample_long_env sample_long_mem) (addrs 0xfffff80003b00010 2)
          = Some [0x88; 0x77]) as E by (vm_compute; reflexivity).
  rewrite E in H. apply H.
  - split; vm_compute; [discriminate|reflexivity].
  - simpl. lia.
Defined.

(** A legacy guest with a 4 MiB page whose entry asks for address bit 32. *)
Definition sample_pse_env : CPUX86State :=
  {| cr0 := 2 ^ 31; cr3 := 0x1000; cr4 := 2 ^ 4; hflags := 0; a20_mask := -1 |}.

Definition sample_pse_mem : pmem := words_mem [(0x1000, 0x00402081)].

Lemma legacy_walk_low_witness :
  x86_cpu_get_phys_page_debug sample_pse_env sample_pse_mem 0x1000 = HWADDR_ERR
  \/ 0 <= x86_cpu_get_phys_page_debug sample_pse_env sample_pse_mem 0x1000 < 2 ^ 32.
Proof.
  apply (legacy_walk_low sample_pse_env sample_pse_mem 0x1000).
  - intros a. apply words_mem_byte.
  - vm_compute. reflexivity.
  - vm_compute. reflexivity.
Defined.
