(* ===== verification/Introspect.v ===== *)
(** * Introspection of a Windows guest from the monitor

    The commands this fork adds to monitor.c ([pslist], [getcr3], [pool_files]
    and the file-to-process mapping [f2p_mapping]), for the 64-bit target.
    They see the guest only through [cpu_memory_rw_debug] (interface
    [DebugMem]).  The monitor's output is the list of strings printed, one per
    [monitor_printf]. *)

From S2P Require Import Prelude GuestMem.

(** ** Offsets of static_structs_test.h *)

Definition PsActiveProcessHead : Z := 0x50.
Definition PCB : Z := 0x188.
Definition PID : Z := 0x180.
Definition handle_table : Z := 0x200.
Definition ImageFileName : Z := 0x2e0.
Definition CR3 : Z := 0x28.
Definition PPID : Z := 0x290.
Definition KDBG_offset : Z := 0x10.
Definition pool_offset : Z := 0x10.

(** The bounds and the tag of the search for the debugger data block. *)
Definition kdbg_start : Z := 0xfffff80003b00000.
Definition kdbg_end : Z := 0xfffff80004000000.
Definition kdbg_value : Z := 0x000003404742444b.

Section Introspect.
Context {D : DebugMem}.
(** What an uninitialised stack buffer holds, and the text (up to the first
    zero byte) that a fresh allocation of a given size holds. *)
Variable stack_junk : Z -> Z.
Variable heap_junk : Z -> string.

(** ** Reads *)

(** A [uint8_t buf[n]] on the stack. *)
Definition stack_buf (n : Z) : list Z := stack_junk <$> seqZ 0 n.

Definition my_memory_dump (addr : Z) : Z :=
  let '(r, buf) := dbg_read addr (stack_buf 16) 8 in
  if r <? 0 then u64 (-1) else le_combine (take 8 buf).

Definition my_memory_dump_printd (addr : Z) : Z :=
  let '(r, buf) := dbg_read addr (stack_buf 16) 8 in
  if r <? 0 then u64 (-1) else le_combine (take 8 buf).

Definition printable (v : Z) : bool := (32 <=? v) && (v <=? 126).

(** The text of [%c]. *)
Definition fmt_c (v : Z) : string := String (Ascii.ascii_of_nat (Z.to_nat v)) "".

Definition my_memory_dump_printc (addr : Z) : list string :=
  let '(_, buf) := dbg_read addr (stack_buf 16) 16 in
  (fun v => if printable v then fmt_c v else " "%string) <$> take 16 buf.

Definition memory_dump_string (addr length : Z) : list string :=
  let '(_, buf) := dbg_read addr (stack_buf 1000) length in
  fmt_c <$> filter (fun v => printable v = true) (take (Z.to_nat length) buf).

(** [fname] is not cleared before the first [strcat]: the text starts with
    what the allocation holds. *)
Definition get_string (addr length : Z) : outcome string :=
  let fname := heap_junk (length + 10) in
  let '(_, buf) := dbg_read addr (stack_buf 1000) length in
  let cs := filter (fun v => printable v = true) (take (Z.to_nat length) buf) in
  let res := (fname +:+ String.concat "" (fmt_c <$> cs))%string in
  match cs with
  | [] => Ret fname
  | _ => if Z.of_nat (String.length res) <? length + 10 then Ret res else Fault OutOfBounds
  end.

(** ** The debugger data block *)

(** The [while] loop of [findKDBG]; the fuel is the number of candidates. *)
Fixpoint kdbg_scan (fuel : nat) (start_addr : Z) : outcome Z :=
  if start_addr =? kdbg_end then Ret start_addr
  else match fuel with
  | O => NoFuel
  | S fuel =>
    let start_addr := u64 (start_addr + KDBG_offset) in
    if my_memory_dump start_addr =? kdbg_value then Ret start_addr
    else kdbg_scan fuel start_addr
  end.

Definition kdbg_candidates : nat := Z.to_nat ((kdbg_end - kdbg_start) / KDBG_offset).

Definition findKDBG : outcome Z :=
  start_addr ← kdbg_scan kdbg_candidates kdbg_start;
  Ret (u64 (start_addr - KDBG_offset)).

(** ** The list of processes *)

(** How an iteration of a loop over the processes ends. *)
Inductive step (S R : Type) :=
| Continue (s : S)
| Break (s : S)
| Return (r : R).
Arguments Continue {S R} s.
Arguments Break {S R} s.
Arguments Return {S R} r.

(** [while (my_memory_dump(link) != pshead_value) { next = ...; body; link = next; }],
    the loop that [PSlist], [getcr3] and [f2p_mapping] share; the body sees the
    state and the next link.  The list is guest data, so the loop need not end. *)
Fixpoint eprocess_walk {S R} (fuel : nat) (body : S -> Z -> outcome (step S R))
    (pshead_value link : Z) (s : S) : outcome (S + R) :=
  match fuel with
  | O => NoFuel
  | S fuel =>
    if my_memory_dump link =? pshead_value then Ret (inl s)
    else
      let next := my_memory_dump link in
      st ← body s next;
      match st with
      | Continue s => eprocess_walk fuel body pshead_value next s
      | Break s => Ret (inl s)
      | Return r => Ret (inr r)
      end
  end.

(** ** pslist *)

(** The object a handle-table entry points to. *)
Definition handle_object (entry : Z) : Z :=
  (my_memory_dump entry &&& Z.lnot 0x7) ||| 0x8000000000000000.

(** One entry of a handle table: the name of a file object. *)
Definition ps_print_entry (entry : Z) : list string :=
  let object_addr := handle_object entry in
  let object_type := u64 (object_addr + 0x18) in
  let object_body := u64 (object_addr + 0x30) in
  if (my_memory_dump object_type &&& 0xffff) =? 0x1c then
    let length := s32 (my_memory_dump (u64 (object_body + 0x58)) &&& 0xff) in
    if negb (length =? 0) then
      ["   "%string; ("length: " +:+ fmt_d length +:+ "   ")%string]
      ++ memory_dump_string (my_memory_dump (u64 (object_body + 0x60))) length
      ++ [nl]
    else []
  else [].

(** The 256 entries of a table, 0x10 bytes apart. *)
Fixpoint ps_print_table (n : nat) (entry : Z) : list string :=
  match n with
  | O => []
  | S n => ps_print_entry entry ++ ps_print_table n (u64 (entry + 0x10))
  end.

(** A two-level table: pages of entries until a zero pointer. *)
Fixpoint ps_print_level1 (fuel : nat) (i handle_entry : Z) : outcome (list string) :=
  match fuel with
  | O => NoFuel
  | S fuel =>
    if my_memory_dump handle_entry =? 0 then Ret []
    else
      let lv2_handle_entry := my_memory_dump handle_entry in
      rest ← ps_print_level1 fuel (i + 1) (u64 (handle_entry + 0x8));
      Ret ([("Table num: " +:+ fmt_d i +:+ " " +:+ nl)%string]
           ++ ps_print_table 256 lv2_handle_entry ++ rest)
  end.

Definition ps_print_handles (fuel : nat) (table_code : Z) : outcome (list string) :=
  let handle_entry := table_code &&& Z.lnot 7 in
  if (table_code &&& 7) =? 0 then Ret (ps_print_table 256 handle_entry)
  else if (table_code &&& 7) =? 1 then ps_print_level1 fuel 1 handle_entry
  else Ret [("Multi-level " +:+ nl)%string].

Definition fmt_lx (z : Z) : string := fmt_x 16 z.

(** The lines [PSlist] prints for a process before its handles. *)
Definition ps_print_process (pcb_addr : Z) (table : string) (table_addr : Z) : list string :=
  let imagefilename := u64 (pcb_addr + ImageFileName) in
  let ppid_value := my_memory_dump_printd (u64 (pcb_addr + PPID)) in
  let pid_value := my_memory_dump_printd (u64 (pcb_addr + PID)) in
  [("0x" +:+ fmt_lx imagefilename +:+ " ")%string]
  ++ my_memory_dump_printc imagefilename
  ++ ["   "%string;
      ("PID:" +:+ fmt_wd 4 (s64 pid_value) +:+ "   ")%string;
      ("PPID:" +:+ fmt_wd 4 (s64 ppid_value) +:+ "   ")%string;
      (table +:+ ": 0x" +:+ fmt_lx table_addr +:+ " " +:+ nl)%string].

(** The body of the loop of [PSlist]; the state is what was printed and
    [process_num]. *)
Definition ps_body (fuel : nat) (s : list string * Z) (next : Z)
    : outcome (step (list string * Z) Empty_set) :=
  let '(out, process_num) := s in
  let pcb_addr := u64 (next - PCB) in
  let pid_value := my_memory_dump_printd (u64 (pcb_addr + PID)) in
  let handle_table_addr := my_memory_dump (u64 (pcb_addr + handle_table)) in
  let table_code := my_memory_dump handle_table_addr in
  let handle_entry := table_code &&& Z.lnot 7 in
  if pid_value =? 0 then Ret (Break (out, process_num))
  else
    handles ← ps_print_handles fuel table_code;
    Ret (Continue (out ++ ps_print_process pcb_addr "Table" handle_entry ++ handles,
                   process_num + 1)).

Definition not_found_text : string := ("Could not found KDBG address. " +:+ nl)%string.

Definition ps_header (KDBG_addr pshead_addr pshead_value link : Z) : list string :=
  [("----------------------------------------------" +:+ nl)%string;
   ("KDBG : 0x" +:+ fmt_lx KDBG_addr +:+ nl)%string;
   ("PsActiveProcessHead : 0x" +:+ fmt_lx pshead_addr +:+ " (value:0x"
      +:+ fmt_x 16 pshead_value +:+ ")" +:+ nl)%string;
   ("EPROCESS_ActiveProcessLinks : 0x" +:+ fmt_lx link +:+ nl)%string;
   ("-----------------Process List-----------------" +:+ nl)%string].

Definition ps_footer (process_num : Z) : list string :=
  [("-----------------------------------------------" +:+ nl)%string;
   ("Total : " +:+ fmt_d process_num +:+ " processes " +:+ nl)%string].

Definition PSlist (fuel : nat) (KDBG_addr : Z) : outcome (list string) :=
  if u64 (KDBG_addr + KDBG_offset) =? kdbg_end then
    Ret [not_found_text; not_found_text]
  else
    let pshead_addr := u64 (KDBG_addr + PsActiveProcessHead) in
    let pshead_value := my_memory_dump pshead_addr in
    let link := my_memory_dump pshead_value in
    let pcb_addr := u64 (link - PCB) in
    let handle_table_addr := my_memory_dump (u64 (pcb_addr + handle_table)) in
    let out := ps_header KDBG_addr pshead_addr pshead_value link
               ++ ps_print_process pcb_addr "Handle table" handle_table_addr in
    r ← eprocess_walk (R := Empty_set) fuel (ps_body fuel) pshead_value link (out, 1);
    match (r : _ + Empty_set) with
    | inl (out, process_num) => Ret (out ++ ps_footer process_num)
    | inr e => match e with end
    end.

(** ** getcr3 *)

Definition cr3_print_process (pcb_addr : Z) : list string :=
  let cr3_value := my_memory_dump (u64 (pcb_addr + CR3)) in
  let imagefilename := u64 (pcb_addr + ImageFileName) in
  let pid_value := my_memory_dump_printd (u64 (pcb_addr + PID)) in
  ["ProcessName:"%string]
  ++ my_memory_dump_printc imagefilename
  ++ [("PID:" +:+ fmt_wd 4 (s64 pid_value) +:+ "   ")%string;
      ("CR3=0x" +:+ fmt_lx cr3_value +:+ nl)%string].

Definition cr3_body (out : list string) (next : Z)
    : outcome (step (list string) Empty_set) :=
  let pcb_addr := u64 (next - PCB) in
  let pid_value := my_memory_dump_printd (u64 (pcb_addr + PID)) in
  if pid_value =? 0 then Ret (Break out)
  else Ret (Continue (out ++ cr3_print_process pcb_addr)).

Definition cr3_header : list string :=
  [("-----------------Process CR3-----------------" +:+ nl)%string].

Definition cr3_footer (vcpu_cr3 : Z) : list string :=
  [("---------------------------------------------" +:+ nl)%string;
   ("Current vcpu CR3 = 0x" +:+ fmt_lx vcpu_cr3 +:+ " (physical addr)" +:+ nl)%string].

(** [vcpu_cr3] is [env->cr[3]] of the monitor's current CPU. *)
Definition getcr3 (fuel : nat) (vcpu_cr3 : Z) : outcome (list string) :=
  KDBG_addr ← findKDBG;
  if u64 (KDBG_addr + KDBG_offset) =? kdbg_end then
    Ret [("Could not found KDBG address." +:+ nl)%string]
  else
    let pshead_addr := u64 (KDBG_addr + PsActiveProcessHead) in
    let pshead_value := my_memory_dump pshead_addr in
    let link := my_memory_dump pshead_value in
    let out := cr3_header ++ cr3_print_process (u64 (link - PCB)) in
    r ← eprocess_walk (R := Empty_set) fuel cr3_body pshead_value link out;
    match (r : _ + Empty_set) with
    | inl out => Ret (out ++ cr3_footer vcpu_cr3)
    | inr e => match e with end
    end.

(** ** pool_files *)

Definition pool_start : Z := 0xFFFFFa8000D00004.
Definition pool_end : Z := 0xFFFFFa8003000004.

Fixpoint pool_scan (fuel : nat) (start_addr : Z) : outcome (list string) :=
  if start_addr <? pool_end then
    match fuel with
    | O => NoFuel
    | S fuel =>
      rest ← pool_scan fuel (u64 (start_addr + pool_offset));
      Ret ([("Dump : 0x" +:+ fmt_lx start_addr +:+ nl)%string]
           ++ my_memory_dump_printc start_addr ++ rest)
    end
  else Ret [].

Definition pool_files : outcome (list string) :=
  out ← pool_scan (Z.to_nat ((pool_end - pool_start) / pool_offset)) pool_start;
  Ret (out ++ [("Traverse done!" +:+ nl)%string]).

(** ** f2p_mapping *)

(** [strstr(hay, needle) != NULL]. *)
Definition strstr (hay needle : string) : bool :=
  match String.index 0 needle hay with Some _ => true | None => false end.

(** The [while] loop that finds the data block: here with [<]. *)
Fixpoint f2p_scan (fuel : nat) (start_addr : Z) : outcome Z :=
  if start_addr <? kdbg_end then
    match fuel with
    | O => NoFuel
    | S fuel =>
      let start_addr := u64 (start_addr + KDBG_offset) in
      if my_memory_dump start_addr =? kdbg_value then Ret start_addr
      else f2p_scan fuel start_addr
    end
  else Ret start_addr.

(** One entry of a handle table: does it name a part of [fname]? *)
Definition f2p_entry (fname : string) (entry : Z) : outcome bool :=
  let object_addr := handle_object entry in
  let object_type := u64 (object_addr + 0x18) in
  let object_body := u64 (object_addr + 0x30) in
  if (my_memory_dump object_type &&& 0xffff) =? 0x1c then
    let length := s32 (my_memory_dump (u64 (object_body + 0x58)) &&& 0xff) in
    if negb (length =? 0) then
      fname2 ← get_string (my_memory_dump (u64 (object_body + 0x60))) length;
      Ret (strstr fname fname2)
    else Ret false
  else Ret false.

Fixpoint f2p_table (n : nat) (fname : string) (entry : Z) : outcome bool :=
  match n with
  | O => Ret false
  | S n =>
    hit ← f2p_entry fname entry;
    if hit : bool then Ret true else f2p_table n fname (u64 (entry + 0x10))
  end.

Fixpoint f2p_level1 (fuel : nat) (fname : string) (handle_entry : Z) : outcome bool :=
  match fuel with
  | O => NoFuel
  | S fuel =>
    if my_memory_dump handle_entry =? 0 then Ret false
    else
      hit ← f2p_table 256 fname (my_memory_dump handle_entry);
      if hit : bool then Ret true else f2p_level1 fuel fname (u64 (handle_entry + 0x8))
  end.

Definition f2p_handles (fuel : nat) (fname : string) (table_code : Z) : outcome bool :=
  let handle_entry := table_code &&& Z.lnot 7 in
  if (table_code &&& 7) =? 0 then f2p_table 256 fname handle_entry
  else if (table_code &&& 7) =? 1 then f2p_level1 fuel fname handle_entry
  else Ret false.

Definition f2p_body (fuel : nat) (fname : string) (s : unit) (next : Z)
    : outcome (step unit string) :=
  let pcb_addr := u64 (next - PCB) in
  let imagefilename := u64 (pcb_addr + ImageFileName) in
  let pid_value := my_memory_dump_printd (u64 (pcb_addr + PID)) in
  let handle_table_addr := my_memory_dump (u64 (pcb_addr + handle_table)) in
  let table_code := my_memory_dump handle_table_addr in
  if pid_value =? 0 then Ret (Break s)
  else
    hit ← f2p_handles fuel fname table_code;
    if hit : bool then name ← get_string imagefilename 8; Ret (Return name)
    else Ret (Continue s).

(** What [f2p_mapping] returns: the name of a process, or the one-byte
    allocation that holds X and no terminator. *)
Inductive f2p_result :=
| ProcessName (name : string)
| UnterminatedX.

(** The part of [f2p_mapping] after the search. *)
Definition f2p_from (fuel : nat) (fname : string) (KDBG_addr : Z)
    : outcome (list string * f2p_result) :=
  if u64 (KDBG_addr + KDBG_offset) =? kdbg_end then
    Ret ([not_found_text; not_found_text], UnterminatedX)
  else
    let pshead_value := my_memory_dump (u64 (KDBG_addr + PsActiveProcessHead)) in
    let link := my_memory_dump pshead_value in
    r ← eprocess_walk fuel (f2p_body fuel fname) pshead_value link tt;
    match r with
    | inl _ => Ret ([], UnterminatedX)
    | inr name => Ret ([], ProcessName name)
    end.

Definition f2p_mapping (fuel : nat) (fname : string) : outcome (list string * f2p_result) :=
  start_addr ← f2p_scan kdbg_candidates kdbg_start;
  f2p_from fuel fname (u64 (start_addr - KDBG_offset)).

(** ** Commands *)

(** [arg] is the optional "command" argument of the monitor command. *)
Definition hmp_pslist (fuel : nat) (arg : option string) : outcome (list string) :=
  match arg with
  | Some a =>
    if decide (a = "-h"%string) then
      Ret [("List the active process in guest Windows OS. Usage: pslist [-h]" +:+ nl)%string]
    else Ret [("Unknown command. Usage: pslist [-h]" +:+ nl)%string]
  | None => KDBG_addr ← findKDBG; PSlist fuel KDBG_addr
  end.

Definition hmp_pool_files (arg : option string) : outcome (list string) :=
  match arg with
  | Some a =>
    if decide (a = "-h"%string) then
      Ret [("List the active process cr3 value in guest Windows OS." +:+ nl)%string]
    else Ret [("Unknown command. Usage: getcr3 [-h]" +:+ nl)%string]
  | None => pool_files
  end.

Definition hmp_getcr3 (fuel : nat) (vcpu_cr3 : Z) (arg : option string) : outcome (list string) :=
  match arg with
  | Some a =>
    if decide (a = "-h"%string) then
      Ret [("List the files in guest Windows OS." +:+ nl)%string]
    else Ret [("Unknown command. Usage: pool_files [-h]" +:+ nl)%string]
  | None => getcr3 fuel vcpu_cr3
  end.

(** ** What the reads return *)

(** The 64-bit word at a virtual address, if its bytes are mapped. *)
Definition vword (a : Z) : option Z := le_combine <$> mapM dbg_byte (addrs a 8).

Lemma stack_buf_length n : length (stack_buf n) = Z.to_nat n.
Proof. unfold stack_buf. by rewrite length_fmap, length_seqZ. Qed.

Lemma my_memory_dump_word a :
  0 <= a < 2 ^ 64 -> my_memory_dump a = default (2 ^ 64 - 1) (vword a).
Proof.
  intros Ha. unfold my_memory_dump, vword.
  destruct (mapM dbg_byte (addrs a 8)) as [bs|] eqn:Hbs; simpl.
  - rewrite (dbg_read_ok _ _ _ bs) by (done || rewrite stack_buf_length; lia).
    simpl. rewrite take_app_le, take_ge; [done|..];
      apply length_mapM in Hbs; unfold addrs in Hbs;
      rewrite length_fmap, length_seqZ in Hbs; lia.
  - pose proof (dbg_read_err a (stack_buf 16) 8) as He.
    rewrite stack_buf_length in He. specialize (He Ha ltac:(lia) Hbs).
    destruct (dbg_read a (stack_buf 16) 8) as [r b]. simpl in He. subst r. done.
Qed.

(** The word the commands see: all ones where it is not mapped. *)
Definition word (a : Z) : Z := default (2 ^ 64 - 1) (vword a).

Lemma my_memory_dump_eq a : 0 <= a < 2 ^ 64 -> my_memory_dump a = word a.
Proof. apply my_memory_dump_word. Qed.

Lemma my_memory_dump_u64 a : my_memory_dump (u64 a) = word (u64 a).
Proof. apply my_memory_dump_eq, wrap_range. lia. Qed.

Lemma mapped_bytes l bs : mapM dbg_byte l = Some bs -> Forall is_byte bs /\ length bs = length l.
Proof.
  intros H. split; [|symmetry; by apply length_mapM in H].
  apply mapM_Some in H. induction H; constructor; eauto using dbg_byte_range.
Qed.

Lemma word_range a : 0 <= word a < 2 ^ 64.
Proof.
  unfold word, vword. destruct (mapM dbg_byte (addrs a 8)) as [bs|] eqn:E; simpl; [|lia].
  apply mapped_bytes in E as [Hb Hl]. unfold addrs in Hl. rewrite length_fmap, length_seqZ in Hl.
  pose proof (le_combine_range bs Hb) as Hr. rewrite Hl in Hr. exact Hr.
Qed.

Lemma my_memory_dump_unmapped a :
  0 <= a < 2 ^ 64 -> dbg_byte a = None -> my_memory_dump a = 2 ^ 64 - 1.
Proof.
  intros Ha Hb. rewrite my_memory_dump_word by done. unfold vword, addrs.
  rewrite seqZ_cons by lia. simpl. rewrite Z.add_0_r, (wrap_small 64 a) by lia.
  by rewrite Hb.
Qed.

Lemma my_memory_dump_printd_eq a : my_memory_dump_printd a = my_memory_dump a.
Proof. done. Qed.

(** ** The search *)

(** The addresses the search looks at, in order. *)
Definition kdbg_addrs (start : Z) (n : nat) : list Z :=
  (fun i => start + KDBG_offset * i) <$> seqZ 1 (Z.of_nat n).

(** The first of them that holds the tag. *)
Definition first_kdbg (l : list Z) : option Z :=
  head (filter (fun a => my_memory_dump a = kdbg_value) l).

Lemma kdbg_addrs_S start n :
  kdbg_addrs start (S n) = (start + 16) :: kdbg_addrs (start + 16) n.
Proof.
  unfold kdbg_addrs. rewrite seqZ_cons by lia. cbn [fmap list_fmap].
  f_equal. replace (Z.pred (Z.of_nat (S n))) with (Z.of_nat n) by lia.
  change (Z.succ 1) with (1 + 1). rewrite <- fmap_add_seqZ, <- list_fmap_compose.
  apply list_fmap_ext. intros _ x _. unfold KDBG_offset, compose. lia.
Qed.

Lemma kdbg_scan_spec n :
  Z.of_nat n <= (kdbg_end - kdbg_start) / KDBG_offset ->
  let start := kdbg_end - KDBG_offset * Z.of_nat n in
  kdbg_scan n start = Ret (default kdbg_end (first_kdbg (kdbg_addrs start n))).
Proof.
  change ((kdbg_end - kdbg_start) / KDBG_offset) with 327680.
  unfold KDBG_offset. induction n as [|n IH]; intros Hn; [done|].
  cbn [kdbg_scan]. zcase; [unfold kdbg_end in *; lia|].
  rewrite kdbg_addrs_S. unfold KDBG_offset, first_kdbg.
  rewrite wrap_small by (unfold kdbg_end in *; lia).
  rewrite filter_cons. zcase.
  - by rewrite decide_True.
  - rewrite decide_False by done.
    replace (kdbg_end - 16 * Z.of_nat (S n) + 16) with (kdbg_end - 16 * Z.of_nat n) by lia.
    apply IH. lia.
Qed.

Lemma kdbg_scan_full n :
  Z.of_nat n = 327680 ->
  kdbg_scan n kdbg_start = Ret (default kdbg_end (first_kdbg (kdbg_addrs kdbg_start n))).
Proof.
  intros Hn. pose proof (kdbg_scan_spec n) as H. rewrite Hn in H. by apply H.
Qed.

Lemma kdbg_candidates_Z : Z.of_nat kdbg_candidates = 327680.
Proof. unfold kdbg_candidates. rewrite Z2Nat.id; [done|]. by vm_compute. Qed.

Lemma first_kdbg_Some start n a :
  first_kdbg (kdbg_addrs start n) = Some a ->
  my_memory_dump a = kdbg_value /\ start < a <= start + 16 * Z.of_nat n.
Proof.
  unfold first_kdbg. intros [Hv Ha]%head_Some_elem_of%list_elem_of_filter.
  apply list_elem_of_fmap in Ha as (i & -> & Hi%elem_of_seqZ).
  split; [done|]. unfold KDBG_offset. lia.
Qed.

Lemma findKDBG_eq n :
  n = kdbg_candidates ->
  findKDBG = Ret (default kdbg_end (first_kdbg (kdbg_addrs kdbg_start n)) - KDBG_offset).
Proof.
  intros Hn. unfold findKDBG. rewrite <- Hn.
  pose proof kdbg_candidates_Z as Hz. rewrite <- Hn in Hz. clear Hn.
  rewrite kdbg_scan_full by done. cbn [mbind outcome_bind]. f_equal. apply wrap_small.
  destruct (first_kdbg _) as [a|] eqn:Ha; cbn [default from_option id].
  - apply first_kdbg_Some in Ha as [_ Ha]. unfold kdbg_start, KDBG_offset in *. lia.
  - by vm_compute.
Qed.

(** No candidate before the first one found holds the tag. *)
Lemma first_kdbg_least start n i :
  1 <= i <= Z.of_nat n ->
  start + 16 * i < default (start + 16 * Z.of_nat n + 1) (first_kdbg (kdbg_addrs start n)) ->
  my_memory_dump (start + 16 * i) <> kdbg_value.
Proof.
  revert start i. induction n as [|n IH]; intros start i Hi; [lia|].
  rewrite kdbg_addrs_S. unfold first_kdbg. rewrite filter_cons.
  case_decide as Hd; cbn [head default from_option id].
  - unfold id. lia.
  - intros Hlt. destruct (decide (i = 1)) as [->|]; [done|].
    specialize (IH (start + 16) (i - 1) ltac:(lia)).
    replace (start + 16 + 16 * (i - 1)) with (start + 16 * i) in IH by lia.
    apply IH. replace (start + 16 + 16 * Z.of_nat n + 1) with (start + 16 * Z.of_nat (S n) + 1) by lia.
    exact Hlt.
Qed.

(** C17: the search for the debugger data block always ends.  It returns
    [KDBG_offset] below the first address after the start, in steps of 16 up
    to and including [kdbg_end], that holds the tag, and
    [kdbg_end - KDBG_offset] when none does. *)
Theorem findKDBG_correct :
  exists r, findKDBG = Ret r /\
  let found := r + KDBG_offset in
  kdbg_start < found <= kdbg_end
  /\ (my_memory_dump found = kdbg_value \/ found = kdbg_end)
  /\ (forall i, 1 <= i -> kdbg_start + 16 * i < found ->
                my_memory_dump (kdbg_start + 16 * i) <> kdbg_value).
Proof.
  remember kdbg_candidates as n eqn:Hn.
  pose proof kdbg_candidates_Z as Hz. rewrite <- Hn in Hz.
  rewrite (findKDBG_eq n Hn). eexists. split; [done|]. cbv zeta.
  pose proof (first_kdbg_least kdbg_start n) as Hleast. rewrite Hz in Hleast.
  destruct (first_kdbg (kdbg_addrs kdbg_start n)) as [a|] eqn:Ha;
    cbn [default from_option id] in *; unfold id in *.
  - apply first_kdbg_Some in Ha as [Hv Hr]. rewrite Hz in Hr.
    unfold kdbg_start, kdbg_end, KDBG_offset in *.
    replace (a - 16 + 16) with a by lia.
    split_and!; [lia..|auto|]. intros i Hi Hlt. apply Hleast; lia.
  - unfold kdbg_start, kdbg_end, KDBG_offset in *. split_and!; [lia..|auto|].
    intros i Hi Hlt. apply Hleast; lia.
Qed.

(** ** Walking a well-formed list *)

(** The guest's circular list: from [link] the links lead to [es] and then
    back to the head. *)
Fixpoint process_chain (pshead link : Z) (es : list Z) : Prop :=
  match es with
  | [] => word link = pshead
  | e :: es => word link = e /\ e <> pshead /\ process_chain pshead e es
  end.

(** A loop body run over a list of links. *)
Fixpoint run_body {S R} (body : S -> Z -> outcome (step S R)) (s : S) (es : list Z)
    : outcome (S + R) :=
  match es with
  | [] => Ret (inl s)
  | e :: es =>
    st ← body s e;
    match st with
    | Continue s => run_body body s es
    | Break s => Ret (inl s)
    | Return r => Ret (inr r)
    end
  end.

Lemma eprocess_walk_chain {S R} fuel (body : S -> Z -> outcome (step S R)) pshead link es s :
  0 <= link < 2 ^ 64 -> process_chain pshead link es -> (length es < fuel)%nat ->
  eprocess_walk fuel body pshead link s = run_body body s es.
Proof.
  revert fuel link s. induction es as [|e es IH]; intros fuel link s Hl Hc Hf;
    (destruct fuel as [|fuel]; [simpl in Hf; lia|]); simpl in Hc |- *; rewrite (my_memory_dump_eq link Hl).
  - by rewrite Hc, Z.eqb_refl.
  - destruct Hc as (He & Hne & Hc). rewrite He.
    destruct (Z.eqb_spec e pshead); [done|].
    destruct (body s e) as [st| |]; simpl; [|done..].
    destruct st; simpl; [|done..]. apply IH; [subst e; apply word_range|done|]. simpl in Hf. lia.
Qed.

Definition pcb_of (e : Z) : Z := u64 (e - PCB).
Definition pid_of (e : Z) : Z := word (u64 (pcb_of e + PID)).
Definition table_addr_of (e : Z) : Z := word (u64 (pcb_of e + handle_table)).
Definition table_code_of (e : Z) : Z := word (table_addr_of e).

Lemma pid_dump e : my_memory_dump_printd (u64 (pcb_of e + PID)) = pid_of e.
Proof. apply my_memory_dump_u64. Qed.

Lemma table_addr_dump e : my_memory_dump (u64 (pcb_of e + handle_table)) = table_addr_of e.
Proof. apply my_memory_dump_u64. Qed.

Lemma table_code_dump e : my_memory_dump (table_addr_of e) = table_code_of e.
Proof. apply my_memory_dump_eq, word_range. Qed.

(** The processes up to the first one with process id 0. *)
Fixpoint live_processes (es : list Z) : list Z :=
  match es with
  | [] => []
  | e :: es => if pid_of e =? 0 then [] else e :: live_processes es
  end.

(** *** What is to be printed

    The following is in terms of the words and bytes of the guest. *)

(** The line of the process with the link [e]: the file name of its image, 16
    bytes, with blanks for what cannot be printed, and its numbers. *)
Inductive shows_process (e : Z) (label : string) (table : Z) : list string -> Prop :=
| shows_line name :
    mapM dbg_byte (addrs (u64 (pcb_of e + ImageFileName)) 16) = Some name ->
    shows_process e label table
      ([("0x" +:+ fmt_lx (u64 (pcb_of e + ImageFileName)) +:+ " ")%string]
       ++ ((fun v => if printable v then fmt_c v else " "%string) <$> name)
       ++ ["   "%string;
           ("PID:" +:+ fmt_wd 4 (s64 (pid_of e)) +:+ "   ")%string;
           ("PPID:" +:+ fmt_wd 4 (s64 (word (u64 (pcb_of e + PPID)))) +:+ "   ")%string;
           (label +:+ ": 0x" +:+ fmt_lx table +:+ " " +:+ nl)%string]).

(** The object of a handle: the lowest three bits of the pointer are flags,
    and objects are in the upper half of the address space. *)
Definition object_of (entry : Z) : Z := 2 ^ 63 + (word entry / 8 * 8) mod 2 ^ 63.

Definition object_word (entry offset : Z) : Z := word (u64 (object_of entry + offset)).

(** A handle of a file with a name is shown by the characters of the name,
    other handles are not shown. *)
Inductive shows_entry (entry : Z) : list string -> Prop :=
| shows_other : object_word entry 0x18 mod 2 ^ 16 <> 0x1c -> shows_entry entry []
| shows_unnamed :
    object_word entry 0x18 mod 2 ^ 16 = 0x1c -> object_word entry 0x88 mod 256 = 0 -> shows_entry entry []
| shows_file name :
    object_word entry 0x18 mod 2 ^ 16 = 0x1c ->
    0 < object_word entry 0x88 mod 256 ->
    mapM dbg_byte (addrs (object_word entry 0x90) (object_word entry 0x88 mod 256)) = Some name ->
    shows_entry entry
      (["   "%string; ("length: " +:+ fmt_d (object_word entry 0x88 mod 256) +:+ "   ")%string]
       ++ (fmt_c <$> filter (fun v => printable v = true) name) ++ [nl]).

(** A table of 256 entries of 16 bytes. *)
Definition shows_table (entry : Z) (lines : list string) : Prop :=
  exists ls, Forall2 (fun i => shows_entry (u64 (entry + 16 * i))) (seqZ 0 256) ls /\ lines = concat ls.

(** An array of pointers to tables, up to a zero; the first has number [i]. *)
Inductive shows_tables : Z -> Z -> nat -> list string -> Prop :=
| shows_last i p : word p = 0 -> shows_tables i p 0 []
| shows_more i p k table rest :
    word p <> 0 -> shows_table (word p) table -> shows_tables (i + 1) (u64 (p + 8)) k rest ->
    shows_tables i p (S k) ([("Table num: " +:+ fmt_d i +:+ " " +:+ nl)%string] ++ table ++ rest).

(** The handles of a process: the lowest bits of the table code say whether it
    has one table, an array of [k] tables, or more levels, which are not
    walked. *)
Inductive shows_handles (code : Z) : nat -> list string -> Prop :=
| shows_one lines : code mod 8 = 0 -> shows_table code lines -> shows_handles code 0 lines
| shows_two k lines : code mod 8 = 1 -> shows_tables 1 (code - 1) k lines -> shows_handles code k lines
| shows_deep : 2 <= code mod 8 -> shows_handles code 0 [("Multi-level " +:+ nl)%string].

(** *** That it is printed *)

Lemma addrs_length a n : 0 <= n -> length (addrs a n) = Z.to_nat n.
Proof. intros. unfold addrs. by rewrite length_fmap, length_seqZ. Qed.

Lemma read_mapped a n len bs :
  0 <= a < 2 ^ 64 -> 0 <= len <= n -> mapM dbg_byte (addrs a len) = Some bs ->
  exists r buf, dbg_read a (stack_buf n) len = (r, buf) /\ take (Z.to_nat len) buf = bs.
Proof.
  intros Ha Hn Hb. eexists _, _. split; [apply dbg_read_ok; [done|rewrite stack_buf_length; lia|done]|].
  apply mapped_bytes in Hb as [_ Hl]. rewrite addrs_length in Hl by lia. rewrite <- Hl. apply take_app_length.
Qed.

Lemma low_bits x k : 0 <= k -> x &&& (2 ^ k - 1) = x mod 2 ^ k.
Proof. intros. rewrite <- Z.land_ones by lia. f_equal. rewrite Z.ones_equiv. lia. Qed.

Lemma clear_low3 x : x &&& Z.lnot 7 = x / 8 * 8.
Proof.
  change 7 with (Z.ones 3). rewrite <- Z.ldiff_land, Z.ldiff_ones_r, Z.shiftl_mul_pow2, Z.shiftr_div_pow2 by lia.
  done.
Qed.

Lemma handle_object_eq entry : 0 <= entry < 2 ^ 64 -> handle_object entry = object_of entry.
Proof.
  clear heap_junk. intros He. unfold handle_object, object_of. rewrite my_memory_dump_eq, clear_low3 by done.
  pose proof (word_range entry) as Hr. assert (0 <= word entry / 8 * 8 < 2 ^ 64) as Hx by mlia.
  set (x := word entry / 8 * 8) in Hx |- *.
  change 0x8000000000000000 with (2 ^ 63). apply Z.bits_inj'. intros i Hi.
  rewrite (Z.add_comm (2 ^ 63)), Z.add_nocarry_lxor, Z.lxor_spec, Z.lor_spec.
  2:{ apply Z.bits_inj'. intros j Hj. rewrite Z.land_spec, Z.testbit_0_l, Z.pow2_bits_eqb by lia.
      destruct (Z.eqb_spec 63 j) as [<-|]; [|by rewrite andb_false_r]. by rewrite Z.mod_pow2_bits_high by lia. }
  rewrite Z.pow2_bits_eqb by lia. destruct (Z.lt_trichotomy i 63) as [Hl|[->|Hl]].
  - by rewrite Z.mod_pow2_bits_low, (proj2 (Z.eqb_neq 63 i)), xorb_false_r, orb_false_r by lia.
  - by rewrite Z.mod_pow2_bits_high, Z.eqb_refl, orb_true_r by lia.
  - by rewrite Z.mod_pow2_bits_high, (testbit_high 64 x), (proj2 (Z.eqb_neq 63 i)) by lia.
Qed.

Lemma print_entry_ok entry lines :
  0 <= entry < 2 ^ 64 -> shows_entry entry lines -> ps_print_entry entry = lines.
Proof.
  intros He Hs. unfold ps_print_entry. rewrite handle_object_eq, !my_memory_dump_u64 by done.
  change 0xffff with (2 ^ 16 - 1). change 0xff with (2 ^ 8 - 1). rewrite !low_bits by lia.
  assert (forall off, u64 (u64 (object_of entry + 0x30) + off) = u64 (object_of entry + (0x30 + off))) as Ho.
  { intros off. rewrite wrap_add_l by lia. f_equal. lia. }
  rewrite !Ho. change (0x30 + 0x58) with 0x88. change (0x30 + 0x60) with 0x90.
  fold (object_word entry 0x18) (object_word entry 0x88) (object_word entry 0x90). change (2 ^ 8) with 256.
  pose proof (Z.mod_pos_bound (object_word entry 0x88) 256 ltac:(lia)) as Hr.
  rewrite (sext_small 32) by lia.
  destruct Hs as [Hne|Ht Hz|name Ht Hn Hm].
  - by rewrite (proj2 (Z.eqb_neq _ _) Hne).
  - by rewrite Ht, Hz.
  - rewrite Ht, (proj2 (Z.eqb_neq _ 0)) by lia. change (0x1c =? 0x1c) with true. cbn [negb]. do 2 f_equal.
    unfold memory_dump_string. edestruct read_mapped as (r & buf & -> & ->); [apply word_range|lia|done|done].
Qed.

Lemma print_table_ok n : forall entry k lines,
  Forall2 (fun i => shows_entry (u64 (entry + 16 * i))) (seqZ k (Z.of_nat n)) lines ->
  ps_print_table n (u64 (entry + 16 * k)) = concat lines.
Proof.
  induction n as [|n IH]; intros entry k lines; [by intros ->%Forall2_nil_inv_l|].
  rewrite seqZ_cons by lia. intros (l & ls & Hl & Hls & ->)%Forall2_cons_inv_l. cbn [ps_print_table concat].
  rewrite (print_entry_ok _ l) by (done || apply wrap_range; lia). f_equal.
  rewrite <- (IH entry (Z.succ k)); [|by replace (Z.of_nat n) with (Z.pred (Z.of_nat (S n))) by lia].
  rewrite wrap_add_l by lia. do 2 f_equal. lia.
Qed.

Lemma shows_table_ok entry lines :
  0 <= entry < 2 ^ 64 -> shows_table entry lines -> ps_print_table 256 entry = lines.
Proof.
  intros He (ls & Hls & ->). rewrite <- (print_table_ok 256 entry 0 ls Hls). rewrite Z.add_0_r, wrap_small; done.
Qed.

Lemma print_tables_ok i p k lines :
  shows_tables i p k lines -> 0 <= p < 2 ^ 64 -> forall fuel, (k < fuel)%nat -> ps_print_level1 fuel i p = Ret lines.
Proof.
  induction 1 as [i p Hz|i p k table rest Hnz Ht _ IH]; intros Hp [|fuel] Hf; try lia; cbn [ps_print_level1];
    rewrite my_memory_dump_eq by done.
  - by rewrite Hz.
  - rewrite (proj2 (Z.eqb_neq _ _) Hnz), (shows_table_ok _ table) by (done || apply word_range).
    rewrite IH; [done|apply wrap_range; lia|lia].
Qed.

Lemma print_handles_ok code k lines fuel :
  0 <= code < 2 ^ 64 -> shows_handles code k lines -> (k < fuel)%nat -> ps_print_handles fuel code = Ret lines.
Proof.
  clear heap_junk. intros Hc Hs Hf. unfold ps_print_handles. rewrite !clear_low3. change 7 with (2 ^ 3 - 1). rewrite !low_bits by lia.
  change (2 ^ 3) with 8. destruct Hs as [lines Hm Ht|k lines Hm Ht|Hm].
  - rewrite Hm. replace (code / 8 * 8) with code by mlia. by rewrite (shows_table_ok _ lines).
  - rewrite Hm. replace (code / 8 * 8) with (code - 1) by mlia. eapply print_tables_ok; [done|mlia|done].
  - by rewrite !(proj2 (Z.eqb_neq _ _)) by lia.
Qed.

Lemma print_process_ok e label table lines :
  shows_process e label table lines -> ps_print_process (pcb_of e) label table = lines.
Proof.
  intros [name Hn]. unfold ps_print_process. rewrite pid_dump.
  change my_memory_dump_printd with my_memory_dump. rewrite my_memory_dump_u64. f_equal. f_equal.
  unfold my_memory_dump_printc.
  edestruct (read_mapped (u64 (pcb_of e + ImageFileName)) 16) as (r & buf & -> & <-);
    [apply wrap_range; lia|lia|done|done].
Qed.

(** What [PSlist] prints for a process after the first; the array of its
    handle tables ends before the fuel does. *)
Definition shows_listed (fuel : nat) (e : Z) (lines : list string) : Prop :=
  exists line k handles, shows_process e "Table" (table_code_of e / 8 * 8) line /\
    shows_handles (table_code_of e) k handles /\ (k < fuel)%nat /\ lines = line ++ handles.

Lemma ps_body_eq fuel out n e :
  ps_body fuel (out, n) e =
  if pid_of e =? 0 then Ret (Break (out, n))
  else h ← ps_print_handles fuel (table_code_of e);
       Ret (Continue (out ++ ps_print_process (pcb_of e) "Table" (table_code_of e / 8 * 8) ++ h, n + 1)).
Proof.
  unfold ps_body. fold (pcb_of e). by rewrite pid_dump, table_addr_dump, table_code_dump, clear_low3.
Qed.

Lemma run_ps_body fuel es lines out n :
  Forall2 (shows_listed fuel) (live_processes es) lines ->
  run_body (ps_body fuel) (out, n) es
  = Ret (inl (out ++ concat lines, n + Z.of_nat (length (live_processes es)))).
Proof.
  revert lines out n. induction es as [|e es IH]; intros ls out n; cbn [run_body live_processes].
  - intros ->%Forall2_nil_inv_l. simpl. by rewrite app_nil_r, Z.add_0_r.
  - rewrite ps_body_eq. destruct (Z.eqb_spec (pid_of e) 0).
    + intros ->%Forall2_nil_inv_l. simpl. by rewrite app_nil_r, Z.add_0_r.
    + intros (l & ls' & (line & k & h & Hp & Hh & Hk & ->) & Hls & ->)%Forall2_cons_inv_l.
      rewrite (print_handles_ok _ k h) by (done || apply word_range). rewrite (print_process_ok _ _ _ line) by done.
      simpl. rewrite (IH ls') by done. do 3 f_equal; [|lia]. by rewrite <- !app_assoc.
Qed.

(** C16: on a guest whose active-process list is well formed, [PSlist] prints
    the head of the list and then the processes up to the first with process
    id 0, each with the files it has handles for, in list order, and counts
    them.  What is printed is given by the words and bytes of the guest: names
    of processes and of open files are mapped, and handle tables have one
    level, or are an array of tables that ends in a zero, or are not walked.
    It takes one step more than there are processes in the list or tables in
    an array. *)
Theorem PSlist_correct fuel KDBG_addr es first_line lines :
  let pshead := word (u64 (KDBG_addr + PsActiveProcessHead)) in
  let first := word pshead in
  u64 (KDBG_addr + KDBG_offset) <> kdbg_end ->
  process_chain pshead first es ->
  (length es < fuel)%nat ->
  shows_process first "Handle table" (table_addr_of first) first_line ->
  Forall2 (shows_listed fuel) (live_processes es) lines ->
  PSlist fuel KDBG_addr = Ret (
    ps_header KDBG_addr (u64 (KDBG_addr + PsActiveProcessHead)) pshead first
    ++ first_line ++ concat lines ++ ps_footer (1 + Z.of_nat (length (live_processes es)))).
Proof.
  intros pshead first Hk Hc Hf Hl Hls. unfold PSlist.
  destruct (Z.eqb_spec (u64 (KDBG_addr + KDBG_offset)) kdbg_end); [done|].
  rewrite my_memory_dump_u64, my_memory_dump_eq by apply word_range. fold pshead first (pcb_of first).
  rewrite table_addr_dump, (print_process_ok _ _ _ _ Hl).
  rewrite (eprocess_walk_chain _ _ _ _ es) by (done || apply word_range).
  rewrite (run_ps_body _ _ lines) by done. cbn [mbind outcome_bind]. by rewrite <- !app_assoc.
Qed.

Lemma cr3_body_eq out e :
  cr3_body out e =
  Ret (if pid_of e =? 0 then Break out else Continue (out ++ cr3_print_process (pcb_of e))).
Proof.
  unfold cr3_body. fold (pcb_of e).
  rewrite pid_dump. by case_match.
Qed.

Lemma run_cr3_body es out :
  run_body cr3_body out es
  = Ret (inl (out ++ concat ((fun e => cr3_print_process (pcb_of e)) <$> live_processes es))).
Proof.
  revert out. induction es as [|e es IH]; intros out; cbn [run_body live_processes].
  - by rewrite app_nil_r.
  - rewrite cr3_body_eq. destruct (Z.eqb_spec (pid_of e) 0); simpl.
    + by rewrite app_nil_r.
    + rewrite IH. by rewrite <- app_assoc.
Qed.

(** [getcr3] prints the page-table base of the first process and of those
    after it up to the first with process id 0. *)
Lemma getcr3_correct fuel vcpu_cr3 KDBG_addr es :
  let pshead := word (u64 (KDBG_addr + PsActiveProcessHead)) in
  let first := word pshead in
  findKDBG = Ret KDBG_addr ->
  u64 (KDBG_addr + KDBG_offset) <> kdbg_end ->
  process_chain pshead first es ->
  (length es < fuel)%nat ->
  getcr3 fuel vcpu_cr3 = Ret (
    cr3_header
    ++ concat ((fun e => cr3_print_process (pcb_of e)) <$> first :: live_processes es)
    ++ cr3_footer vcpu_cr3).
Proof.
  intros pshead first Hfind Hk Hc Hf. unfold getcr3. rewrite Hfind. cbn [mbind outcome_bind].
  destruct (Z.eqb_spec (u64 (KDBG_addr + KDBG_offset)) kdbg_end); [done|].
  rewrite my_memory_dump_u64, my_memory_dump_eq by apply word_range. fold pshead first.
  rewrite (eprocess_walk_chain _ _ _ _ es) by (done || apply word_range).
  rewrite run_cr3_body. cbn [mbind outcome_bind fmap list_fmap concat].
  by rewrite <- !app_assoc.
Qed.

Lemma f2p_body_eq fuel fname s e :
  f2p_body fuel fname s e =
  if pid_of e =? 0 then Ret (Break s)
  else hit ← f2p_handles fuel fname (table_code_of e);
       if hit : bool then name ← get_string (u64 (pcb_of e + ImageFileName)) 8; Ret (Return name)
       else Ret (Continue s).
Proof.
  unfold f2p_body. fold (pcb_of e).
  by rewrite pid_dump, table_addr_dump, table_code_dump.
Qed.

Lemma run_f2p_body fuel fname es1 e es2 :
  Forall (fun x => pid_of x <> 0 /\ f2p_handles fuel fname (table_code_of x) = Ret false) es1 ->
  pid_of e <> 0 -> f2p_handles fuel fname (table_code_of e) = Ret true ->
  run_body (f2p_body fuel fname) tt (es1 ++ e :: es2)
  = (name ← get_string (u64 (pcb_of e + ImageFileName)) 8; Ret (inr name)).
Proof.
  intros H1 Hp Hh. induction H1 as [|x es1 [Hpx Hhx] _ IH]; cbn [app run_body];
    rewrite f2p_body_eq.
  - destruct (Z.eqb_spec (pid_of e) 0); [done|]. rewrite Hh. simpl.
    by destruct (get_string _ 8).
  - destruct (Z.eqb_spec (pid_of x) 0); [done|]. by rewrite Hhx.
Qed.

(** The two searches agree, although their loops test differently. *)
Lemma f2p_scan_eq n :
  Z.of_nat n <= 327680 ->
  let start := kdbg_end - KDBG_offset * Z.of_nat n in f2p_scan n start = kdbg_scan n start.
Proof.
  unfold KDBG_offset. induction n as [|n IH]; intros Hn; [done|].
  cbn [f2p_scan kdbg_scan]. zcase; [|unfold kdbg_end in *; lia].
  destruct (Z.eqb_spec (kdbg_end - 16 * Z.of_nat (S n)) kdbg_end); [lia|].
  case_match; [done|]. unfold KDBG_offset.
  rewrite wrap_small by (unfold kdbg_end in *; lia).
  replace (kdbg_end - 16 * Z.of_nat (S n) + 16) with (kdbg_end - 16 * Z.of_nat n) by lia.
  apply IH. lia.
Qed.

Lemma f2p_scan_full n :
  Z.of_nat n = 327680 -> f2p_scan n kdbg_start = kdbg_scan n kdbg_start.
Proof.
  intros Hn. pose proof (f2p_scan_eq n) as H. rewrite Hn in H. by apply H.
Qed.

Lemma f2p_mapping_search n fuel fname :
  n = kdbg_candidates -> f2p_mapping fuel fname = (KDBG_addr ← findKDBG; f2p_from fuel fname KDBG_addr).
Proof.
  intros Hn. unfold f2p_mapping, findKDBG. rewrite <- Hn.
  pose proof kdbg_candidates_Z as Hz. rewrite <- Hn in Hz. clear Hn.
  rewrite f2p_scan_full by done. by destruct (kdbg_scan n kdbg_start).
Qed.

(** On a well-formed list, [f2p_mapping] returns the image name of the
    first process (after the head) one of whose file handles names a part of
    the given path. *)
Lemma f2p_mapping_first fuel fname KDBG_addr es1 e es2 :
  let pshead := word (u64 (KDBG_addr + PsActiveProcessHead)) in
  let first := word pshead in
  findKDBG = Ret KDBG_addr ->
  u64 (KDBG_addr + KDBG_offset) <> kdbg_end ->
  process_chain pshead first (es1 ++ e :: es2) ->
  (length (es1 ++ e :: es2) < fuel)%nat ->
  Forall (fun x => pid_of x <> 0 /\ f2p_handles fuel fname (table_code_of x) = Ret false) es1 ->
  pid_of e <> 0 -> f2p_handles fuel fname (table_code_of e) = Ret true ->
  f2p_mapping fuel fname =
  (name ← get_string (u64 (pcb_of e + ImageFileName)) 8; Ret ([], ProcessName name)).
Proof.
  intros pshead first Hfind Hk Hc Hf H1 Hp Hh.
  rewrite (f2p_mapping_search _ _ _ eq_refl), Hfind. cbn [mbind outcome_bind].
  unfold f2p_from.
  destruct (Z.eqb_spec (u64 (KDBG_addr + KDBG_offset)) kdbg_end); [done|].
  rewrite my_memory_dump_u64, my_memory_dump_eq by apply word_range. fold pshead first.
  rewrite (eprocess_walk_chain _ _ _ _ _ _ (word_range _) Hc Hf), run_f2p_body by done.
  by destruct (get_string _ 8).
Qed.

(** ** An unreadable list *)

Lemma ps_print_level1_total fuel i e :
  (exists h, ps_print_level1 fuel i e = Ret h) \/ ps_print_level1 fuel i e = NoFuel.
Proof.
  revert i e. induction fuel as [|fuel IH]; intros i e; [by right|]. cbn [ps_print_level1].
  case_match; [by left; eexists|].
  destruct (IH (i + 1) (u64 (e + 0x8))) as [[h ->]| ->]; [left|by right].
  by eexists.
Qed.

Lemma ps_print_handles_total fuel code :
  (exists h, ps_print_handles fuel code = Ret h) \/ ps_print_handles fuel code = NoFuel.
Proof.
  unfold ps_print_handles. repeat case_match; eauto using ps_print_level1_total.
Qed.

Lemma eprocess_walk_stuck fuel s :
  (forall a, 2 ^ 64 - 4096 <= a < 2 ^ 64 -> dbg_byte a = None) ->
  forall pshead, pshead <> 2 ^ 64 - 1 -> forall fuel',
  eprocess_walk (R := Empty_set) fuel (ps_body fuel') pshead (2 ^ 64 - 1) s = NoFuel.
Proof.
  intros Htop pshead Hps fuel'. revert s.
  assert (my_memory_dump (2 ^ 64 - 1) = 2 ^ 64 - 1) as Hm.
  { apply my_memory_dump_unmapped; [lia|]. apply Htop. lia. }
  assert (pid_of (2 ^ 64 - 1) = 2 ^ 64 - 1) as Hpid.
  { unfold pid_of, pcb_of. change (u64 (u64 _ + PID)) with (2 ^ 64 - 9).
    rewrite <- my_memory_dump_eq by lia. apply my_memory_dump_unmapped; [lia|]. apply Htop. lia. }
  induction fuel as [|fuel IH]; intros [out n]; [done|]. cbn [eprocess_walk].
  rewrite Hm. destruct (Z.eqb_spec (2 ^ 64 - 1) pshead); [done|].
  rewrite ps_body_eq, Hpid. change (2 ^ 64 - 1 =? 0) with false. cbn [mbind outcome_bind].
  destruct (ps_print_handles_total fuel' (table_code_of (2 ^ 64 - 1))) as [[h ->]| ->];
    cbn [outcome_bind]; [apply IH|done].
Qed.

(** C18: when the list head cannot be read (its page is not mapped, so that the
    read gives -1) and the last page of the address space is not mapped
    either, [PSlist] never ends, whatever the number of iterations. *)
Theorem PSlist_unmapped_diverges KDBG_addr :
  let pshead := my_memory_dump (u64 (KDBG_addr + PsActiveProcessHead)) in
  u64 (KDBG_addr + KDBG_offset) <> kdbg_end ->
  0 <= pshead < 2 ^ 64 - 1 -> dbg_byte pshead = None ->
  (forall a, 2 ^ 64 - 4096 <= a < 2 ^ 64 -> dbg_byte a = None) ->
  forall fuel, PSlist fuel KDBG_addr = NoFuel.
Proof.
  intros pshead Hk Hps Hb Htop fuel. unfold PSlist.
  destruct (Z.eqb_spec (u64 (KDBG_addr + KDBG_offset)) kdbg_end); [done|].
  fold pshead. rewrite (my_memory_dump_unmapped pshead) by (done || lia).
  rewrite eprocess_walk_stuck; [done..|lia].
Qed.

End Introspect.

(** ** Sample guests *)

(** A guest with paging off, whose list holds two processes; the second one
    has an open file named foo. *)
Definition sample_env : CPUX86State :=
  {| cr0 := 0; cr3 := 0; cr4 := 0; hflags := 0; a20_mask := -1 |}.

Definition sample_words : list (Z * Z) :=
  [(0xff80003b00010, 0x000003404742444b);
   (0xff80003b00050, 0xfffff80003c00000);
   (0xff80003c00000, 0xfffffa8000001188);
   (0xffa8000001188, 0xfffffa8000003188);
   (0xffa8000003188, 0xfffff80003c00000);
   (0xffa8000001180, 4);
   (0xffa8000003180, 300);
   (0xffa80000032e0, 0x006578652e646d63);
   (0xffa8000003200, 0xfffffa8000005000);
   (0xffa8000005000, 0xfffffa8000006000);
   (0xffa8000006000, 0xfffffa8000007001);
   (0xffa8000007018, 0x1c);
   (0xffa8000007088, 3);
   (0xffa8000007090, 0xfffffa8000008000);
   (0xffa8000008000, 0x6f6f66)].

Definition sample_guest : DebugMem :=
  x86_debug_mem sample_env (words_mem sample_words) (words_mem_byte sample_words).

Definition sample_second : Z := 0xfffffa8000003188.

Ltac eval_done := vm_compute; first [reflexivity | discriminate | congruence | lia].

Lemma findKDBG_sample : @findKDBG sample_guest (fun _ => 0) = Ret kdbg_start.
Proof. vm_compute. reflexivity. Qed.

(** What is shown, computed. *)
Definition entry_shown {D : DebugMem} (entry : Z) : option (list string) :=
  let len := object_word entry 0x88 mod 256 in
  if negb (object_word entry 0x18 mod 2 ^ 16 =? 0x1c) || (len =? 0) then Some []
  else
    name ← mapM dbg_byte (addrs (object_word entry 0x90) len);
    Some (["   "%string; ("length: " +:+ fmt_d len +:+ "   ")%string]
          ++ (fmt_c <$> filter (fun v => printable v = true) name) ++ [nl]).

Lemma entry_shown_ok {D : DebugMem} entry lines : entry_shown entry = Some lines -> shows_entry entry lines.
Proof.
  unfold entry_shown. destruct (Z.eqb_spec (object_word entry 0x18 mod 2 ^ 16) 0x1c) as [Ht|Ht]; cbn [negb orb].
  2:{ intros [= <-]. by apply shows_other. }
  destruct (Z.eqb_spec (object_word entry 0x88 mod 256) 0) as [Hz|Hz].
  { intros [= <-]. by apply shows_unnamed. }
  pose proof (Z.mod_pos_bound (object_word entry 0x88) 256 ltac:(lia)).
  intros (name & Hn & [= <-])%bind_Some. apply shows_file; [done|lia|done].
Qed.

Lemma table_shown_ok {D : DebugMem} entry ls :
  mapM (fun i => entry_shown (u64 (entry + 16 * i))) (seqZ 0 256) = Some ls -> shows_table entry (concat ls).
Proof.
  intros H. exists ls. split; [|done]. apply mapM_Some in H.
  eapply Forall2_impl; [exact H|]. intros i l. apply entry_shown_ok.
Qed.

Lemma PSlist_correct_witness :
  exists head line1 line2,
  @PSlist sample_guest (fun _ => 0) 3 kdbg_start = Ret (
    head ++ line1 ++ line2 ++ ["   "; "length: 3   "; "f"; "o"; "o"; nl]%string ++ ps_footer 2).
Proof.
  assert (@live_processes sample_guest [sample_second] = [sample_second]) as Hl by (vm_compute; reflexivity).
  eexists _, _, _. etransitivity.
  - eapply (@PSlist_correct sample_guest (fun _ => 0) 3 kdbg_start [sample_second] _ [_]).
    + eval_done.
    + repeat split; eval_done.
    + simpl. lia.
    + apply shows_line. vm_compute. reflexivity.
    + rewrite Hl. constructor; [|constructor]. eexists _, O, ["   "; "length: 3   "; "f"; "o"; "o"; nl]%string.
      split; [apply shows_line; vm_compute; reflexivity|]. split; [|split; [lia|reflexivity]].
      apply shows_one; [vm_compute; reflexivity|].
      apply (table_shown_ok _ (["   "; "length: 3   "; "f"; "o"; "o"; nl]%string :: replicate 255 [])).
      vm_compute. reflexivity.
  - rewrite Hl. cbn [concat length Z.of_nat]. rewrite app_nil_r, <- (app_assoc _ _ (ps_footer _)). reflexivity.
Defined.

Lemma getcr3_correct_witness :
  exists out, @getcr3 sample_guest (fun _ => 0) 3 0 = Ret out.
Proof.
  eexists. apply (@getcr3_correct sample_guest (fun _ => 0) 3 0 kdbg_start [sample_second]).
  - vm_compute. reflexivity.
  - eval_done.
  - repeat split; eval_done.
  - simpl. lia.
Defined.

Lemma f2p_mapping_first_witness :
  @f2p_mapping sample_guest (fun _ => 0) (fun _ => ""%string) 3 "C:\foo"
  = Ret ([], ProcessName "cmd.exe").
Proof.
  rewrite (@f2p_mapping_first sample_guest (fun _ => 0) (fun _ => ""%string) 3 "C:\foo"
             kdbg_start [] sample_second []).
  - vm_compute. reflexivity.
  - vm_compute. reflexivity.
  - eval_done.
  - repeat split; eval_done.
  - simpl. lia.
  - constructor.
  - eval_done.
  - vm_compute. reflexivity.
Defined.

(** A 64-bit guest that maps one 2 MiB page, which holds the data block; the
    list head it points to is not mapped, nor is the last page. *)
Definition hole_env : CPUX86State :=
  {| cr0 := 2 ^ 31; cr3 := 0x1000; cr4 := 2 ^ 5; hflags := 2 ^ 14; a20_mask := -1 |}.

Definition hole_words : list (Z * Z) :=
  [(0x1f80, 0x2001); (0x2000, 0x3001); (0x30e8, 0x200081);
   (0x300050, 0xfffff90000000000)].

Definition hole_guest : DebugMem :=
  x86_debug_mem hole_env (words_mem hole_words) (words_mem_byte hole_words).

Lemma hole_last_page a :
  2 ^ 64 - 4096 <= a < 2 ^ 64 -> @dbg_byte hole_guest a = None.
Proof.
  intros Ha. change (vbyte hole_env (words_mem hole_words) a = None).
  unfold vbyte, page_phys. rewrite page_mask_div.
  replace (a / 4096 * 4096) with (2 ^ 64 - 4096) by mlia.
  assert (x86_cpu_get_phys_page_debug hole_env (words_mem hole_words) (2 ^ 64 - 4096)
          = HWADDR_ERR) as -> by (vm_compute; reflexivity).
  done.
Qed.

Lemma PSlist_unmapped_diverges_witness :
  @PSlist hole_guest (fun _ => 0) 1000 kdbg_start = NoFuel.
Proof.
  apply (@PSlist_unmapped_diverges hole_guest (fun _ => 0) kdbg_start).
  - eval_done.
  - split; [vm_compute; discriminate | vm_compute; reflexivity].
  - vm_compute. reflexivity.
  - exact hole_last_page.
Defined.
