(* ===== verification/Plugin.v ===== *)
(** * The TEMU plugin and its loader

    plugins/main.c (filters, packet and block-I/O logs, the list of traced
    files) and plugin.c (the loader), with the hooks through which monitor.c,
    hw/net/e1000.c and dma-helpers.c call them.

    Files and the terminal are lists of what is appended to them; the clock, the
    helper scripts run through [popen] and the dynamic linker are parameters.
    A dereference of NULL, an access outside an array and a read of memory
    that was never written are faults. *)

From S2P Require Import Prelude.

(** ** C library *)

Definition isspace (c : Z) : bool := (c =? 32) || ((9 <=? c) && (c <=? 13)).

Definition code (c : Ascii.ascii) : Z := Z.of_nat (Ascii.nat_of_ascii c).

Fixpoint skip_spaces (s : string) : string :=
  match s with
  | String c s' => if isspace (code c) then skip_spaces s' else s
  | EmptyString => s
  end.

(** The value of the leading decimal digits. *)
Fixpoint digits (acc : Z) (s : string) : Z :=
  match s with
  | String c s' =>
    if (48 <=? code c) && (code c <=? 57) then digits (10 * acc + (code c - 48)) s' else acc
  | EmptyString => acc
  end.

(** [strtol(s, NULL, 10)]: out-of-range values saturate. *)
Definition strtol (s : string) : Z :=
  let clamp z := Z.max (- 2 ^ 63) (Z.min (2 ^ 63 - 1) z) in
  match skip_spaces s with
  | String c s' =>
    if code c =? 45 then clamp (- digits 0 s')
    else if code c =? 43 then clamp (digits 0 s')
    else clamp (digits 0 (String c s'))
  | EmptyString => 0
  end.

(** [atoi]: [strtol] converted to [int]. *)
Definition atoi (s : string) : Z := s32 (strtol s).

(** [fgets] into a buffer of [n + 1] bytes, from the start of a stream: the
    characters up to the first newline, at most [n]. *)
Fixpoint fgets_line (n : nat) (s : string) : string :=
  match n, s with
  | S n, String c s' =>
    if code c =? 10 then String c "" else String c (fgets_line n s')
  | _, _ => ""
  end.

(** What [popen] of a command gives: an error, or the output of the command. *)
Inductive popen_result :=
| PopenError
| PopenOutput (out : string).

(** [time] and [gettimeofday]: the text of [asctime] and the two fields. *)
Record clock := {
  asctime : string;
  tv_sec : Z;
  tv_usec : Z;
}.

(** ** State of plugins/main.c *)

Abbreviation loc := positive.

(** A [NODES] cell; a field that was never written is [None].  [next] is a
    pointer, [None] for NULL. *)
Record NODES := {
  data : option Z;
  fname : option string;
  next : option (option loc);
}.

(** The filter and the snapshot length. *)
Record config := {
  PDU_bytes : Z;
  target_s_port : Z;
  target_d_port : Z;
  target_s_ip : string;
  target_d_ip : string;
  target_protocol_number : Z;
}.

Record toggles := {
  enable_print_packet : bool;
  enable_log : bool;
  enable_pcap_log : bool;
  enable_traceblk : bool;
  enable_print_blkio : bool;
}.

(** The traced files: the global variables, and the heap of list cells with
    the next location [malloc] returns. *)
Record trace := {
  first_file : bool;
  count : Z;
  sector_number : Z;
  target_file_name : string;
  list_ptr : option loc;
  heap : gmap loc NODES;
  brk : loc;
}.

(** What was written so far, oldest first. *)
Record logs := {
  stdout : list string;
  packet_log : list string;
  packet_log_pcap : list Z;
  IO_log : list string;
}.

Record plugin_state := {
  cfg : config;
  tog : toggles;
  tr : trace;
  out : logs;
}.

Definition NOT_SET : string := "NOT_SET".

(** The static initialisers. *)
Definition config0 : config :=
  {| PDU_bytes := 128; target_s_port := -1; target_d_port := -1;
     target_s_ip := NOT_SET; target_d_ip := NOT_SET; target_protocol_number := -1 |}.

Definition toggles0 : toggles :=
  {| enable_print_packet := false; enable_log := false; enable_pcap_log := false;
     enable_traceblk := false; enable_print_blkio := false |}.

Definition trace0 : trace :=
  {| first_file := true; count := 0; sector_number := 0; target_file_name := NOT_SET;
     list_ptr := None; heap := ∅; brk := 1%positive |}.

Definition logs0 : logs :=
  {| stdout := []; packet_log := []; packet_log_pcap := []; IO_log := [] |}.

Definition plugin_state0 : plugin_state :=
  {| cfg := config0; tog := toggles0; tr := trace0; out := logs0 |}.

(** *** Updates *)

Definition with_cfg (c : config) (st : plugin_state) : plugin_state :=
  {| cfg := c; tog := tog st; tr := tr st; out := out st |}.
Definition with_tog (t : toggles) (st : plugin_state) : plugin_state :=
  {| cfg := cfg st; tog := t; tr := tr st; out := out st |}.
Definition with_tr (t : trace) (st : plugin_state) : plugin_state :=
  {| cfg := cfg st; tog := tog st; tr := t; out := out st |}.
Definition with_out (o : logs) (st : plugin_state) : plugin_state :=
  {| cfg := cfg st; tog := tog st; tr := tr st; out := o |}.

Definition to_stdout (ls : list string) (o : logs) : logs :=
  {| stdout := stdout o ++ ls; packet_log := packet_log o;
     packet_log_pcap := packet_log_pcap o; IO_log := IO_log o |}.
Definition to_packet_log (ls : list string) (o : logs) : logs :=
  {| stdout := stdout o; packet_log := packet_log o ++ ls;
     packet_log_pcap := packet_log_pcap o; IO_log := IO_log o |}.
Definition to_pcap (bs : list Z) (o : logs) : logs :=
  {| stdout := stdout o; packet_log := packet_log o;
     packet_log_pcap := packet_log_pcap o ++ bs; IO_log := IO_log o |}.
Definition to_IO_log (ls : list string) (o : logs) : logs :=
  {| stdout := stdout o; packet_log := packet_log o;
     packet_log_pcap := packet_log_pcap o; IO_log := IO_log o ++ ls |}.

Definition printf (s : string) (st : plugin_state) : plugin_state :=
  with_out (to_stdout [s] (out st)) st.

Definition set_s_port (v : Z) (c : config) : config :=
  {| PDU_bytes := PDU_bytes c; target_s_port := v; target_d_port := target_d_port c;
     target_s_ip := target_s_ip c; target_d_ip := target_d_ip c;
     target_protocol_number := target_protocol_number c |}.
Definition set_d_port (v : Z) (c : config) : config :=
  {| PDU_bytes := PDU_bytes c; target_s_port := target_s_port c; target_d_port := v;
     target_s_ip := target_s_ip c; target_d_ip := target_d_ip c;
     target_protocol_number := target_protocol_number c |}.
Definition set_s_ip (v : string) (c : config) : config :=
  {| PDU_bytes := PDU_bytes c; target_s_port := target_s_port c;
     target_d_port := target_d_port c; target_s_ip := v; target_d_ip := target_d_ip c;
     target_protocol_number := target_protocol_number c |}.
Definition set_d_ip (v : string) (c : config) : config :=
  {| PDU_bytes := PDU_bytes c; target_s_port := target_s_port c;
     target_d_port := target_d_port c; target_s_ip := target_s_ip c; target_d_ip := v;
     target_protocol_number := target_protocol_number c |}.
Definition set_PDU (v : Z) (c : config) : config :=
  {| PDU_bytes := v; target_s_port := target_s_port c; target_d_port := target_d_port c;
     target_s_ip := target_s_ip c; target_d_ip := target_d_ip c;
     target_protocol_number := target_protocol_number c |}.
Definition set_proto (v : Z) (c : config) : config :=
  {| PDU_bytes := PDU_bytes c; target_s_port := target_s_port c;
     target_d_port := target_d_port c; target_s_ip := target_s_ip c;
     target_d_ip := target_d_ip c; target_protocol_number := v |}.

Definition set_sector (v : Z) (t : trace) : trace :=
  {| first_file := first_file t; count := count t; sector_number := v;
     target_file_name := target_file_name t; list_ptr := list_ptr t; heap := heap t;
     brk := brk t |}.
Definition set_file_name (v : string) (t : trace) : trace :=
  {| first_file := first_file t; count := count t; sector_number := sector_number t;
     target_file_name := v; list_ptr := list_ptr t; heap := heap t; brk := brk t |}.
Definition set_heap (h : gmap loc NODES) (t : trace) : trace :=
  {| first_file := first_file t; count := count t; sector_number := sector_number t;
     target_file_name := target_file_name t; list_ptr := list_ptr t; heap := h; brk := brk t |}.

(** ** The list of traced files *)

(** [malloc(sizeof(NODES))]: a cell nothing was written to. *)
Definition malloc_node (t : trace) : loc * trace :=
  (brk t,
   {| first_file := first_file t; count := count t; sector_number := sector_number t;
      target_file_name := target_file_name t; list_ptr := list_ptr t;
      heap := <[brk t := {| data := None; fname := None; next := None |}]> (heap t);
      brk := Pos.succ (brk t) |}).

(** The cell a pointer leads to. *)
Definition load (t : trace) (p : option loc) : outcome NODES :=
  l ← deref p; deref (heap t !! l).

Definition store (t : trace) (p : option loc) (n : NODES) : outcome trace :=
  l ← deref p; _ ← deref (heap t !! l); Ret (set_heap (<[l := n]> (heap t)) t).

Definition init_read {A} (o : option A) : outcome A :=
  match o with Some a => Ret a | None => Fault Uninitialised end.

(** [strcpy] into [fname[50]]. *)
Definition strcpy_fname (s : string) : outcome string :=
  if (String.length s <? 50)%nat then Ret s else Fault OutOfBounds.

Definition insertNode (node : option loc) (name : string) (d : Z) (t : trace) : outcome trace :=
  let '(l, t) := malloc_node t in
  name ← strcpy_fname name;
  n ← load t node;
  nx ← init_read (next n);
  t ← store t (Some l) {| data := Some d; fname := Some name; next := Some nx |};
  store t node {| data := data n; fname := fname n; next := Some (Some l) |}.

(** The lines [print_lists] prints. *)
Fixpoint print_lists (fuel : nat) (t : trace) (p : option loc) : outcome (list string) :=
  match p with
  | None => Ret []
  | Some l =>
    match fuel with
    | O => NoFuel
    | S fuel =>
      n ← load t p;
      f ← init_read (fname n);
      d ← init_read (data n);
      nx ← init_read (next n);
      rest ← print_lists fuel t nx;
      Ret ((f +:+ ": " +:+ fmt_d d +:+ nl)%string :: rest)
    end
  end.

(** [freeList]: every cell is given back. *)
Fixpoint freeList (fuel : nat) (t : trace) (head : option loc) : outcome trace :=
  match head with
  | None => Ret t
  | Some l =>
    match fuel with
    | O => NoFuel
    | S fuel =>
      n ← load t head;
      nx ← init_read (next n);
      freeList fuel (set_heap (delete l (heap t)) t) nx
    end
  end.

Section Scripts.
(** [popen]: what a shell command prints. *)
Variable popen : string -> popen_result.

(** [popen] followed by [fgets] into [char buf[30]]; a stream without output
    leaves the buffer as it was, uninitialised. *)
Definition popen_fgets (cmd : string) : outcome (option string) :=
  match popen cmd with
  | PopenError => Fault (Exited 1)
  | PopenOutput "" => Ret None
  | PopenOutput s => Ret (Some (fgets_line 29 s))
  end.

(** The sector a file starts at, as the scripts report it. *)
Definition script_sector (file : string) : outcome Z :=
  buf ← popen_fgets ("bash ../../fname2sector_singl.sh " +:+ file)%string;
  buf ← init_read buf;
  if atoi buf =? -1000 then
    buff ← popen_fgets ("../../fname2sector_res ../../../win7_test.img " +:+ file)%string;
    buff ← init_read buff;
    Ret (atoi buff)
  else Ret (atoi buf).

Definition get_sectornum (file : string) (st : plugin_state) : outcome plugin_state :=
  sector ← script_sector file;
  let st := with_tr (set_sector (u64 sector) (tr st)) st in
  Ret (printf ("get sector num:" +:+ fmt_d (u64 sector) +:+ nl)%string st).

Definition saveFile (lst : option loc) (name : string) (st : plugin_state) : outcome plugin_state :=
  st ← get_sectornum name st;
  let sector := s32 (sector_number (tr st)) in
  if first_file (tr st) then
    if negb (sector =? 0) then
      name ← strcpy_fname name;
      t ← store (tr st) lst {| data := Some sector; fname := Some name; next := Some None |};
      Ret (with_tr {| first_file := false; count := count t; sector_number := sector_number t;
                      target_file_name := target_file_name t; list_ptr := list_ptr t;
                      heap := heap t; brk := brk t |} st)
    else Ret st
  else
    t ← insertNode lst name sector (tr st);
    Ret (with_tr {| first_file := first_file t; count := count t + 1;
                    sector_number := sector_number t; target_file_name := target_file_name t;
                    list_ptr := list_ptr t; heap := heap t; brk := brk t |} st).

(** ** Commands *)

Definition protocol_text (p : Z) : string :=
  if p =? 6 then "Protocol: 6(tcp)" +:+ nl
  else if p =? 17 then "Protocol: 17(udp)" +:+ nl
  else if p =? 1 then "Protocol: 128(icmp)" +:+ nl
  else "Protocol number:" +:+ fmt_d p +:+ nl.

Definition set_plugin (property value : string) (st : plugin_state) : outcome plugin_state :=
  if decide (property = "target_s_port"%string) then
    let st := with_cfg (set_s_port (atoi value) (cfg st)) st in
    Ret (printf ("setting target source port: " +:+ fmt_d (target_s_port (cfg st)) +:+ nl)%string st)
  else if decide (property = "target_d_port"%string) then
    let st := with_cfg (set_d_port (atoi value) (cfg st)) st in
    Ret (printf ("setting target destination port: " +:+ fmt_d (target_d_port (cfg st)) +:+ nl)%string st)
  else if decide (property = "target_s_ip"%string) then
    let st := with_cfg (set_s_ip value (cfg st)) st in
    Ret (printf ("setting target source ip: " +:+ target_s_ip (cfg st) +:+ nl)%string st)
  else if decide (property = "target_d_ip"%string) then
    let st := with_cfg (set_d_ip value (cfg st)) st in
    Ret (printf ("setting target destination ip: " +:+ target_d_ip (cfg st) +:+ nl)%string st)
  else if decide (property = "PDU_bytes"%string) then
    let st := with_cfg (set_PDU (atoi value) (cfg st)) st in
    Ret (printf ("setting PDU bytes: " +:+ fmt_d (PDU_bytes (cfg st)) +:+ nl)%string st)
  else if decide (property = "target_protocol_number"%string) then
    let st := with_cfg (set_proto (atoi value) (cfg st)) st in
    let p := target_protocol_number (cfg st) in
    let st := printf ("setting target protocol number: " +:+ fmt_d p +:+ nl)%string st in
    Ret (printf (protocol_text p) st)
  else if decide (property = "target_file_name"%string) then
    let st := with_tr (set_file_name value (tr st)) st in
    let st := printf ("setting target file name: " +:+ target_file_name (tr st) +:+ nl)%string st in
    saveFile (list_ptr (tr st)) value st
  else if decide (property = "file_list"%string) then
    let st := printf ("Print current file list: " +:+ nl)%string st in
    ls ← print_lists (Pos.to_nat (brk (tr st))) (tr st) (list_ptr (tr st));
    Ret (with_out (to_stdout ls (out st)) st)
  else Ret st.

End Scripts.

Definition reset_plugin (property : string) (st : plugin_state) : plugin_state :=
  if decide (property = "target_s_port"%string) then
    with_cfg (set_s_port (-1) (cfg st)) (printf ("resetting target source port" +:+ nl) st)
  else if decide (property = "target_d_port"%string) then
    with_cfg (set_d_port (-1) (cfg st)) (printf ("resetting target destination port" +:+ nl) st)
  else if decide (property = "target_s_ip"%string) then
    with_cfg (set_s_ip NOT_SET (cfg st)) (printf ("resetting target source ip" +:+ nl) st)
  else if decide (property = "target_d_ip"%string) then
    with_cfg (set_d_ip NOT_SET (cfg st)) (printf ("resetting target destination ip" +:+ nl) st)
  else if decide (property = "PDU_bytes"%string) then
    with_cfg (set_PDU 128 (cfg st)) (printf ("resetting PDU bytes (128)" +:+ nl) st)
  else if decide (property = "target_protocol_number"%string) then
    with_cfg (set_proto (-1) (cfg st)) (printf ("resetting target protocol number" +:+ nl) st)
  else st.

Definition toggle_plugin (property : string) (st : plugin_state) : plugin_state :=
  let t := tog st in
  if decide (property = "enable_print_packet"%string) then
    let b := negb (enable_print_packet t) in
    let t := {| enable_print_packet := b; enable_log := enable_log t;
                enable_pcap_log := enable_pcap_log t; enable_traceblk := enable_traceblk t;
                enable_print_blkio := enable_print_blkio t |} in
    printf ("toggle enable_print_packet: " +:+ fmt_d (b2z b) +:+ nl) (with_tog t st)
  else if decide (property = "enable_log"%string) then
    let b := negb (enable_log t) in
    let t := {| enable_print_packet := enable_print_packet t; enable_log := b;
                enable_pcap_log := enable_pcap_log t; enable_traceblk := enable_traceblk t;
                enable_print_blkio := enable_print_blkio t |} in
    printf ("toggle enable_log: " +:+ fmt_d (b2z b) +:+ nl) (with_tog t st)
  else if decide (property = "enable_pcap_log"%string) then
    let b := negb (enable_pcap_log t) in
    let t := {| enable_print_packet := enable_print_packet t; enable_log := enable_log t;
                enable_pcap_log := b; enable_traceblk := enable_traceblk t;
                enable_print_blkio := enable_print_blkio t |} in
    printf ("toggle enable_pcap_log: " +:+ fmt_d (b2z b) +:+ nl) (with_tog t st)
  else if decide (property = "enable_traceblk"%string) then
    let b := negb (enable_traceblk t) in
    let t := {| enable_print_packet := enable_print_packet t; enable_log := enable_log t;
                enable_pcap_log := enable_pcap_log t; enable_traceblk := b;
                enable_print_blkio := enable_print_blkio t |} in
    printf (" enable_traceblk: " +:+ fmt_d (b2z b) +:+ nl) (with_tog t st)
  else if decide (property = "enable_print_blkio"%string) then
    let b := negb (enable_print_blkio t) in
    let t := {| enable_print_packet := enable_print_packet t; enable_log := enable_log t;
                enable_pcap_log := enable_pcap_log t; enable_traceblk := enable_traceblk t;
                enable_print_blkio := b |} in
    printf ("enable_print_blkio" +:+ nl) (with_tog t st)
  else st.

(** ** Packets *)

(** [*(buf + i)] *)
Definition byte_at (buf : list Z) (i : Z) : outcome Z :=
  match zget buf i with Some b => Ret b | None => Fault OutOfBounds end.

(** The first [n] bytes from [i] on, read one by one. *)
Fixpoint bytes_from (n : nat) (buf : list Z) (i : Z) : outcome (list Z) :=
  match n with
  | O => Ret []
  | S n => b ← byte_at buf i; bs ← bytes_from n buf (i + 1); Ret (b :: bs)
  end.

(** [%d.%d.%d.%d] *)
Definition fmt_ip (a b c d : Z) : string :=
  fmt_d a +:+ "." +:+ fmt_d b +:+ "." +:+ fmt_d c +:+ "." +:+ fmt_d d.

(** What the code reads of a frame: an Ethernet header, an IPv4 header
    without options, a transport header. *)
Record packet_info := {
  pi_s_ip : string;
  pi_d_ip : string;
  pi_s_port : Z;
  pi_d_port : Z;
  pi_protocol : Z;
}.

Definition packet_fields (buf : list Z) : outcome packet_info :=
  b34 ← byte_at buf 34; b35 ← byte_at buf 35;
  b36 ← byte_at buf 36; b37 ← byte_at buf 37;
  b26 ← byte_at buf 26; b27 ← byte_at buf 27; b28 ← byte_at buf 28; b29 ← byte_at buf 29;
  b30 ← byte_at buf 30; b31 ← byte_at buf 31; b32 ← byte_at buf 32; b33 ← byte_at buf 33;
  b23 ← byte_at buf 23;
  Ret {| pi_s_ip := fmt_ip b26 b27 b28 b29; pi_d_ip := fmt_ip b30 b31 b32 b33;
         pi_s_port := 256 * b34 + b35; pi_d_port := 256 * b36 + b37; pi_protocol := b23 |}.

(** [%02x] *)
Definition fmt_02x (b : Z) : string := fmt_x 2 b.

Definition log_packet_pcap (clk : clock) (buf : list Z) (size : Z) (st : plugin_state)
    : outcome plugin_state :=
  let sec := le_split 4 (u32 (tv_sec clk)) in
  let usec := le_split 4 (u32 (tv_usec clk)) in
  (* [size <= PDU_bytes] compares a size_t with an int *)
  let '(Caplen, len) :=
    if size <=? u64 (PDU_bytes (cfg st)) then (s32 size, s32 size)
    else (PDU_bytes (cfg st), s32 size) in
  bs ← bytes_from (Z.to_nat Caplen) buf 0;
  Ret (with_out (to_pcap (sec ++ usec ++ le_split 4 (u32 Caplen) ++ le_split 4 (u32 len) ++ bs)
                         (out st)) st).

Definition log_packet_readable (clk : clock) (buf : list Z) (size : Z) (st : plugin_state)
    : outcome plugin_state :=
  p ← packet_fields buf;
  bs ← bytes_from (Z.to_nat size) buf 0;
  let hex := concat (imap (fun i b => (if (Nat.even i) then [" "%string] else []) ++ [fmt_02x b]) bs) in
  let cr := String (Ascii.ascii_of_nat 13) "" in
  Ret (with_out (to_packet_log
    ([("[packet received]" +:+ asctime clk +:+ nl)%string;
      ("Source IP:" +:+ pi_s_ip p +:+ nl)%string;
      ("Source Port:" +:+ fmt_d (pi_s_port p) +:+ nl)%string;
      ("Destination IP:" +:+ pi_d_ip p +:+ nl)%string;
      ("Destination Port:" +:+ fmt_d (pi_d_port p) +:+ nl)%string;
      protocol_text (pi_protocol p);
      "pdu: "%string]
     ++ hex
     ++ [("     -end" +:+ cr +:+ nl)%string;
         ("---------------------------------------" +:+ cr +:+ nl)%string]) (out st)) st).

Definition print_packet (clk : clock) (buf : list Z) (size : Z) (st : plugin_state)
    : outcome plugin_state :=
  p ← packet_fields buf;
  bs ← bytes_from (Z.to_nat size) buf 0;
  let proto :=
    if pi_protocol p =? 6 then "Protocol: tcp" +:+ nl
    else if pi_protocol p =? 17 then "Protocol: udp" +:+ nl
    else if pi_protocol p =? 1 then "Protocol: icmp" +:+ nl
    else "Protocol number:" +:+ fmt_d (pi_protocol p) +:+ nl in
  Ret (with_out (to_stdout
    ([("[packet received]" +:+ asctime clk +:+ nl)%string;
      ("Source IP:" +:+ pi_s_ip p +:+ nl)%string;
      ("Source Port:" +:+ fmt_d (pi_s_port p) +:+ nl)%string;
      ("Destination IP:" +:+ pi_d_ip p +:+ nl)%string;
      ("Destination Port:" +:+ fmt_d (pi_d_port p) +:+ nl)%string;
      proto; "pdu: "%string]
     ++ ((fun b => (fmt_02x b +:+ " ")%string) <$> bs)
     ++ [(nl +:+ "---------------------------------------" +:+ nl)%string]) (out st)) st).

Definition get_logged (clk : clock) (buf : list Z) (size : Z) (st : plugin_state)
    : outcome plugin_state :=
  st ← (if enable_print_packet (tog st) then print_packet clk buf size st else Ret st);
  st ← (if enable_log (tog st) then log_packet_readable clk buf size st else Ret st);
  if enable_pcap_log (tog st) then log_packet_pcap clk buf size st else Ret st.

(** The condition under which [get_packet] drops a packet. *)
Definition filtered (c : config) (p : packet_info) : bool :=
  (negb (target_s_port c =? -1) && negb (target_s_port c =? pi_s_port p))
  || (negb (target_d_port c =? -1) && negb (target_d_port c =? pi_d_port p))
  || (bool_decide (target_s_ip c <> NOT_SET) && bool_decide (target_s_ip c <> pi_s_ip p))
  || (bool_decide (target_d_ip c <> NOT_SET) && bool_decide (target_d_ip c <> pi_d_ip p))
  || (negb (target_protocol_number c =? -1)
      && negb (pi_protocol p =? target_protocol_number c)).

Definition get_packet (clk : clock) (buf : list Z) (size : Z) (mode : Z) (st : plugin_state)
    : outcome plugin_state :=
  if negb (enable_print_packet (tog st)) && negb (enable_log (tog st))
     && negb (enable_pcap_log (tog st))
  then Ret st
  else
    p ← packet_fields buf;
    if filtered (cfg st) p then Ret st else get_logged clk buf size st.

Definition do_nic_receive (clk : clock) (buf : list Z) (size : Z) (st : plugin_state) :=
  get_packet clk buf size 0 st.
Definition do_nic_send (clk : clock) (buf : list Z) (size : Z) (st : plugin_state) :=
  get_packet clk buf size 1 st.

(** ** Block I/O *)

Definition blockio_text (clk : clock) (sector_num base len dir : Z) (name : string)
    (process : list string) : list string :=
  [nl; ("[io time]" +:+ asctime clk +:+ nl)%string;
   ("filename: " +:+ name +:+ nl)%string;
   ("sector number: " +:+ fmt_d sector_num +:+ nl)%string]
  ++ process
  ++ [(nl +:+ "IO buffer: " +:+ nl)%string;
      ("  base: " +:+ fmt_d base +:+ nl)%string;
      ("  length: " +:+ fmt_d len +:+ nl)%string]
  ++ (if dir =? 1 then [("IO Write" +:+ nl)%string]
      else if dir =? 0 then [("IO Read" +:+ nl)%string] else []).

Definition print_blockio (clk : clock) (sector_num base len dir : Z) (name : string)
    (st : plugin_state) : plugin_state :=
  let o := to_stdout (blockio_text clk sector_num base len dir name []) (out st) in
  let o := to_IO_log (blockio_text clk sector_num base len dir name ["Process: notepad.exe"%string]
                      ++ [("=====================================" +:+ nl)%string]) o in
  with_out o st.

Definition log_blkio := print_blockio.

(** The [while] loop of [get_blockio].  [data] is an [int]: the comparison
    with the 64-bit sector number converts it. *)
Fixpoint blockio_loop (fuel : nat) (clk : clock) (sector_num base len dir : Z)
    (p : option loc) (st : plugin_state) : outcome plugin_state :=
  match p with
  | None => Ret st
  | Some _ =>
    match fuel with
    | O => NoFuel
    | S fuel =>
      if sector_num =? 0 then Ret st
      else
        n ← load (tr st) p;
        d ← init_read (data n);
        st ← (if sector_num =? u64 d
              then f ← init_read (fname n); Ret (log_blkio clk sector_num base len dir f st)
              else Ret st);
        nx ← init_read (next n);
        blockio_loop fuel clk sector_num base len dir nx st
    end
  end.

Definition get_blockio (clk : clock) (sector_num base len dir : Z) (st : plugin_state)
    : outcome plugin_state :=
  blockio_loop (Pos.to_nat (brk (tr st))) clk sector_num base len dir (list_ptr (tr st)) st.

Definition do_blk_write (clk : clock) (sector_num base len : Z) (st : plugin_state) :=
  get_blockio clk sector_num base len 1 st.
Definition do_blk_read (clk : clock) (sector_num base len : Z) (st : plugin_state) :=
  get_blockio clk sector_num base len 0 st.

(** ** Initialisation *)

(** [remove], then the three [long]s of the file header. *)
Definition create_logfile (st : plugin_state) : plugin_state :=
  let o := out st in
  with_out {| stdout := stdout o; packet_log := packet_log o;
              packet_log_pcap := le_split 8 0x00040002a1b2c3d4 ++ le_split 8 0
                                 ++ le_split 8 0x000000010000ffff;
              IO_log := IO_log o |} st.

(** [log_opens]: whether plugin.log can be opened; the result says whether
    the interface is returned, or NULL. *)
Definition init_plugin (log_opens : bool) (st : plugin_state) : bool * plugin_state :=
  if negb log_opens then (false, st)
  else
    let st := create_logfile st in
    match list_ptr (tr st) with
    | Some _ => (true, st)
    | None =>
      let '(l, t) := malloc_node (tr st) in
      (true, with_tr {| first_file := first_file t; count := count t;
                        sector_number := sector_number t;
                        target_file_name := target_file_name t; list_ptr := Some l;
                        heap := heap t; brk := brk t |} st)
    end.

(** The callback [test]. *)
Definition test (st : plugin_state) : plugin_state := printf ("test" +:+ nl) st.

(** ** The loader (plugin.c) *)

(** The dynamic linker: what [dlopen] returns for a path, whether the object
    defines [init_plugin], and what that returns. *)
Record dynlink := {
  handle : Type;
  dlopen : string -> option handle;
  has_init : handle -> bool;
  run_init : handle -> option string;
}.

(** The calls of the loader that change what is open. *)
Inductive dlcall (H : Type) :=
| dl_opened (h : H)
| dl_closed (h : option H).
Arguments dl_opened {H} _.
Arguments dl_closed {H} _.

Record loader (L : dynlink) := {
  plugin : option string;
  plugin_handle : option (handle L);
  cur_plugin_path : string;
  dlcalls : list (dlcall (handle L));
}.
Arguments plugin {L} _.
Arguments plugin_handle {L} _.
Arguments cur_plugin_path {L} _.
Arguments dlcalls {L} _.

Definition loader0 (L : dynlink) : loader L :=
  {| plugin := None; plugin_handle := None; cur_plugin_path := ""; dlcalls := [] |}.

(** [plugin] holds the interface [init_plugin] returned, named by a string;
    [dlcalls] records the handles [dlopen] returned and the arguments of
    [dlclose], newest first. *)
Definition do_load_plugin (L : dynlink) (path : string) (s : loader L) : loader L :=
  match dlopen L path with
  | None => {| plugin := plugin s; plugin_handle := None;
               cur_plugin_path := cur_plugin_path s; dlcalls := dlcalls s |}
  | Some h =>
    let calls := dl_opened h :: dlcalls s in
    if negb (has_init L h) then
      {| plugin := plugin s; plugin_handle := None;
         cur_plugin_path := cur_plugin_path s; dlcalls := dl_closed (Some h) :: calls |}
    else match run_init L h with
    | None => {| plugin := None; plugin_handle := None;
                 cur_plugin_path := cur_plugin_path s; dlcalls := dl_closed (Some h) :: calls |}
    | Some i => {| plugin := Some i; plugin_handle := Some h;
                   cur_plugin_path := String.substring 0 100 path; dlcalls := calls |}
    end
  end.

Definition do_unload_plugin (L : dynlink) (s : loader L) : loader L :=
  match cur_plugin_path s with
  | "" => s
  | _ => {| plugin := None; plugin_handle := None; cur_plugin_path := "";
            dlcalls := dl_closed (plugin_handle s) :: dlcalls s |}
  end.

(** ** The hooks *)

(** [plugin->f(...)]: the call through the global pointer. *)
Definition hook {L : dynlink} {A} (s : loader L) (call : outcome A) : outcome A :=
  _ ← deref (plugin s); call.

Definition hmp_plugin_set {L} (s : loader L) popen (property value : string) st :=
  hook s (set_plugin popen property value st).
Definition hmp_plugin_reset {L} (s : loader L) (property : string) st :=
  hook s (Ret (reset_plugin property st)).
Definition hmp_plugin_toggle {L} (s : loader L) (property : string) st :=
  hook s (Ret (toggle_plugin property st)).

(** The call [e1000_receive] makes before it hands the frame to the device. *)
Definition e1000_receive_hook {L} (s : loader L) clk buf size st :=
  hook s (do_nic_receive clk buf size st).

(** [e1000_send_packet]: a frame in loop-back mode is not shown to the plugin. *)
Definition e1000_send_hook {L} (s : loader L) (loopback : bool) clk buf size st :=
  if loopback then Ret st else hook s (do_nic_send clk buf size st).

(** The calls at the end of [dma_blk_io], after the transfer is started. *)
Definition dma_blk_io_hook {L} (s : loader L) (to_device : bool) clk sector_num base len st :=
  if to_device then hook s (do_blk_write clk sector_num base len st)
  else hook s (do_blk_read clk sector_num base len st).

(** * Properties *)

(** ** The filter *)

Fixpoint no_dot (s : string) : bool :=
  match s with
  | String c s => negb (code c =? 46) && no_dot s
  | EmptyString => true
  end.

Lemma split_at_dot s1 s2 r1 r2 :
  no_dot s1 = true -> no_dot s2 = true ->
  (s1 +:+ "." +:+ r1 = s2 +:+ "." +:+ r2)%string -> s1 = s2 /\ r1 = r2.
Proof.
  revert s2. induction s1 as [|c1 s1 IH]; intros [|c2 s2]; simpl; intros H1 H2 Heq;
    zbool; injection Heq as; subst; try done.
  destruct (IH s2) as [-> ->]; done.
Qed.

Lemma fmt_d_byte_no_dot x : is_byte x -> no_dot (fmt_d x) = true.
Proof.
  intros Hx. unfold is_byte in Hx.
  assert (forallb (fun x => no_dot (fmt_d x)) (seqZ 0 256) = true) as H
    by (vm_compute; reflexivity).
  apply (proj1 (List.forallb_forall _ _) H). apply list_elem_of_In, elem_of_seqZ. lia.
Qed.

Lemma fmt_d_inj x y : fmt_d x = fmt_d y -> x = y.
Proof. apply (inj pretty). Qed.

Lemma fmt_ip_inj a b c d a' b' c' d' :
  Forall is_byte [a; b; c; d] -> Forall is_byte [a'; b'; c'; d'] ->
  fmt_ip a b c d = fmt_ip a' b' c' d' -> [a; b; c; d] = [a'; b'; c'; d'].
Proof.
  rewrite !Forall_cons_iff. intros (Ha & Hb & Hc & Hd & _) (Ha' & Hb' & Hc' & Hd' & _) H.
  unfold fmt_ip in H.
  apply split_at_dot in H as [?%fmt_d_inj H]; [|by apply fmt_d_byte_no_dot..].
  apply split_at_dot in H as [?%fmt_d_inj H]; [|by apply fmt_d_byte_no_dot..].
  apply split_at_dot in H as [?%fmt_d_inj ?%fmt_d_inj]; [|by apply fmt_d_byte_no_dot..].
  by subst.
Qed.

(** An address to look for: none, or four bytes. *)
Definition ip_setting (o : option (Z * Z * Z * Z)) : string :=
  match o with
  | None => NOT_SET
  | Some (a, b, c, d) => fmt_ip a b c d
  end.

Definition ip_bytes (o : Z * Z * Z * Z) : list Z :=
  let '(a, b, c, d) := o in [a; b; c; d].

Definition ip_matches (o : option (Z * Z * Z * Z)) (bs : list Z) : Prop :=
  match o with None => True | Some ip => ip_bytes ip = bs end.

#[export] Instance ip_matches_dec o bs : Decision (ip_matches o bs).
Proof. destruct o as [ip|]; simpl; apply _. Defined.

Definition s_ip_bytes (buf : list Z) : list Z := take 4 (drop 26 buf).
Definition d_ip_bytes (buf : list Z) : list Z := take 4 (drop 30 buf).
Definition s_port_of (buf : list Z) : Z :=
  256 * default 0 (buf !! 34%nat) + default 0 (buf !! 35%nat).
Definition d_port_of (buf : list Z) : Z :=
  256 * default 0 (buf !! 36%nat) + default 0 (buf !! 37%nat).
Definition protocol_of (buf : list Z) : Z := default 0 (buf !! 23%nat).

(** What the filter means: each setting that is not the wildcard agrees with
    the packet. *)
Definition packet_matches (c : config) (s_ip d_ip : option (Z * Z * Z * Z)) (buf : list Z) : Prop :=
  (target_s_port c = -1 \/ target_s_port c = s_port_of buf)
  /\ (target_d_port c = -1 \/ target_d_port c = d_port_of buf)
  /\ ip_matches s_ip (s_ip_bytes buf)
  /\ ip_matches d_ip (d_ip_bytes buf)
  /\ (target_protocol_number c = -1 \/ target_protocol_number c = protocol_of buf).

#[export] Instance packet_matches_dec c s_ip d_ip buf :
  Decision (packet_matches c s_ip d_ip buf).
Proof. unfold packet_matches. apply _. Defined.

Lemma byte_at_Some buf i b : zget buf i = Some b -> byte_at buf i = Ret b.
Proof. unfold byte_at. by intros ->. Qed.

Lemma drop_lookups4 (buf : list Z) n a b c d :
  buf !! n = Some a -> buf !! (n + 1)%nat = Some b -> buf !! (n + 2)%nat = Some c ->
  buf !! (n + 3)%nat = Some d -> take 4 (drop n buf) = [a; b; c; d].
Proof.
  intros Ha Hb Hc Hd.
  apply list_eq. intros i. destruct (decide (i < 4)%nat) as [Hi|Hi].
  - rewrite lookup_take_lt by done. rewrite lookup_drop.
    destruct i as [|[|[|[|]]]]; [..|lia]; rewrite ?Nat.add_0_r; done.
  - rewrite lookup_take_ge by lia. symmetry. apply lookup_ge_None. simpl. lia.
Qed.

(** On a frame of at least 38 bytes the fields are the header fields. *)
Lemma packet_fields_ok buf :
  (38 <= length buf)%nat ->
  exists a b c d a' b' c' d',
    s_ip_bytes buf = [a; b; c; d] /\ d_ip_bytes buf = [a'; b'; c'; d'] /\
    packet_fields buf = Ret {| pi_s_ip := fmt_ip a b c d; pi_d_ip := fmt_ip a' b' c' d';
                               pi_s_port := s_port_of buf; pi_d_port := d_port_of buf;
                               pi_protocol := protocol_of buf |}.
Proof.
  intros Hlen.
  assert (forall i, (i < 38)%nat -> exists b, buf !! i = Some b) as Hget.
  { intros i Hi. apply lookup_lt_is_Some. lia. }
  destruct (Hget 23%nat) as [b23 H23]; [lia|].
  destruct (Hget 26%nat) as [b26 H26]; [lia|]. destruct (Hget 27%nat) as [b27 H27]; [lia|].
  destruct (Hget 28%nat) as [b28 H28]; [lia|]. destruct (Hget 29%nat) as [b29 H29]; [lia|].
  destruct (Hget 30%nat) as [b30 H30]; [lia|]. destruct (Hget 31%nat) as [b31 H31]; [lia|].
  destruct (Hget 32%nat) as [b32 H32]; [lia|]. destruct (Hget 33%nat) as [b33 H33]; [lia|].
  destruct (Hget 34%nat) as [b34 H34]; [lia|]. destruct (Hget 35%nat) as [b35 H35]; [lia|].
  destruct (Hget 36%nat) as [b36 H36]; [lia|]. destruct (Hget 37%nat) as [b37 H37]; [lia|].
  exists b26, b27, b28, b29, b30, b31, b32, b33. split_and!.
  - by apply drop_lookups4.
  - by apply drop_lookups4.
  - unfold packet_fields, s_port_of, d_port_of, protocol_of.
    rewrite H23, H34, H35, H36, H37. cbn [default from_option id].
    rewrite (byte_at_Some _ 34 b34), (byte_at_Some _ 35 b35), (byte_at_Some _ 36 b36),
      (byte_at_Some _ 37 b37), (byte_at_Some _ 26 b26), (byte_at_Some _ 27 b27),
      (byte_at_Some _ 28 b28), (byte_at_Some _ 29 b29), (byte_at_Some _ 30 b30),
      (byte_at_Some _ 31 b31), (byte_at_Some _ 32 b32), (byte_at_Some _ 33 b33),
      (byte_at_Some _ 23 b23) by assumption.
    done.
Qed.

Lemma no_dot_app s r : no_dot (s +:+ "." +:+ r) = false.
Proof.
  induction s as [|c s IH]; simpl; [done|]. rewrite IH. by rewrite andb_false_r.
Qed.

Lemma fmt_ip_set a b c d : fmt_ip a b c d <> NOT_SET.
Proof.
  intros H. apply (f_equal no_dot) in H. unfold fmt_ip in H. by rewrite no_dot_app in H.
Qed.

Definition ip_valid (o : option (Z * Z * Z * Z)) : Prop :=
  match o with None => True | Some ip => Forall is_byte (ip_bytes ip) end.

Lemma ip_setting_check o a b c d :
  ip_valid o -> Forall is_byte [a; b; c; d] ->
  bool_decide (ip_setting o <> NOT_SET) && bool_decide (ip_setting o <> fmt_ip a b c d)
  = negb (bool_decide (ip_matches o [a; b; c; d])).
Proof.
  intros Ho Hb. destruct o as [[[[x y] z] w]|]; simpl; [|done].
  rewrite (bool_decide_eq_true_2 _ (fmt_ip_set x y z w)). simpl.
  case_bool_decide as H1; case_bool_decide as H2; try done.
  - injection H2 as; by subst.
  - destruct H2. by apply fmt_ip_inj.
Qed.

Lemma port_check t p :
  negb (t =? -1) && negb (t =? p) = negb (bool_decide (t = -1 \/ t = p)).
Proof.
  destruct (Z.eqb_spec t (-1)), (Z.eqb_spec t p); simpl; symmetry;
    first [apply negb_false_iff, bool_decide_eq_true_2; tauto
          | apply negb_true_iff, bool_decide_eq_false_2; tauto].
Qed.

Lemma filtered_matches c s_ip d_ip buf a b c' d e f g h :
  target_s_ip c = ip_setting s_ip -> target_d_ip c = ip_setting d_ip ->
  ip_valid s_ip -> ip_valid d_ip -> Forall is_byte buf ->
  s_ip_bytes buf = [a; b; c'; d] -> d_ip_bytes buf = [e; f; g; h] ->
  filtered c {| pi_s_ip := fmt_ip a b c' d; pi_d_ip := fmt_ip e f g h;
                pi_s_port := s_port_of buf; pi_d_port := d_port_of buf;
                pi_protocol := protocol_of buf |}
  = negb (bool_decide (packet_matches c s_ip d_ip buf)).
Proof.
  intros Hs Hd Hvs Hvd Hb Es Ed. unfold filtered; simpl.
  assert (Forall is_byte (s_ip_bytes buf)) as Hbs by (by apply Forall_take, Forall_drop).
  assert (Forall is_byte (d_ip_bytes buf)) as Hbd by (by apply Forall_take, Forall_drop).
  rewrite Es in Hbs. rewrite Ed in Hbd.
  rewrite Hs, Hd, !ip_setting_check by done.
  rewrite (Z.eqb_sym (protocol_of buf)), !port_check, <- !negb_andb, <- !bool_decide_and.
  rewrite <- Es, <- Ed. f_equal. apply bool_decide_ext. unfold packet_matches. tauto.
Qed.

(** C19: while an output is enabled, a frame of at least 38 bytes is logged
    exactly when its ports, protocol and addresses agree with the settings
    that are not the wildcard, the addresses being compared as bytes although
    the code compares their text; a frame that is dropped changes nothing. *)
Theorem get_packet_filter clk buf size mode st s_ip d_ip :
  (38 <= length buf)%nat -> Forall is_byte buf ->
  target_s_ip (cfg st) = ip_setting s_ip -> target_d_ip (cfg st) = ip_setting d_ip ->
  ip_valid s_ip -> ip_valid d_ip ->
  enable_print_packet (tog st) || enable_log (tog st) || enable_pcap_log (tog st) = true ->
  get_packet clk buf size mode st =
  if decide (packet_matches (cfg st) s_ip d_ip buf) then get_logged clk buf size st else Ret st.
Proof.
  intros Hlen Hb Hs Hd Hvs Hvd Hen. unfold get_packet.
  rewrite <- !negb_orb, Hen. cbn [negb].
  destruct (packet_fields_ok buf Hlen) as (a & b & c & d & e & f & g & h & Es & Ed & ->).
  cbn [mbind outcome_bind]. rewrite (filtered_matches _ s_ip d_ip) by done.
  case_decide; [by rewrite bool_decide_eq_true_2 | by rewrite bool_decide_eq_false_2].
Qed.

Definition sample_frame : list Z :=
  replicate 23 0 ++ [6; 0; 0; 10; 0; 2; 15; 192; 168; 0; 1; 0; 80; 31; 144].

Definition sample_clock : clock := {| asctime := "now"; tv_sec := 1; tv_usec := 2 |}.

Definition sample_filter : plugin_state :=
  {| cfg := set_s_ip "10.0.2.15" (set_d_port 8080 config0);
     tog := {| enable_print_packet := false; enable_log := false; enable_pcap_log := true;
               enable_traceblk := false; enable_print_blkio := false |};
     tr := trace0; out := logs0 |}.

Lemma get_packet_filter_witness :
  get_packet sample_clock sample_frame 38 0 sample_filter
  = get_logged sample_clock sample_frame 38 sample_filter.
Proof.
  rewrite (get_packet_filter sample_clock sample_frame 38 0 sample_filter
             (Some (10, 0, 2, 15)) None).
  - by rewrite decide_True by (vm_compute; repeat split; auto).
  - vm_compute. lia.
  - apply (bool_decide_unpack _). vm_compute. exact I.
  - vm_compute. reflexivity.
  - vm_compute. reflexivity.
  - apply (bool_decide_unpack _). vm_compute. exact I.
  - exact I.
  - vm_compute. reflexivity.
Defined.

(** ** The capture file *)

(** A reader of the libpcap format, little-endian. *)
Record pcap_record := {
  ts_sec : Z;
  ts_usec : Z;
  orig_len : Z;
  captured : list Z;
}.

Record pcap_header := {
  magic : Z;
  version_major : Z;
  version_minor : Z;
  thiszone : Z;
  sigfigs : Z;
  snaplen : Z;
  network : Z;
}.

Definition le_field (off n : nat) (bs : list Z) : Z := le_combine (take n (drop off bs)).

Fixpoint parse_records (fuel : nat) (bs : list Z) : option (list pcap_record) :=
  match bs with
  | [] => Some []
  | _ =>
    match fuel with
    | O => None
    | S fuel =>
      let caplen := Z.to_nat (le_field 8 4 bs) in
      if decide (16 + caplen <= length bs)%nat then
        rest ← parse_records fuel (drop (16 + caplen) bs);
        Some ({| ts_sec := le_field 0 4 bs; ts_usec := le_field 4 4 bs;
                 orig_len := le_field 12 4 bs; captured := take caplen (drop 16 bs) |} :: rest)
      else None
    end
  end.

Definition parse_pcap (bs : list Z) : option (pcap_header * list pcap_record) :=
  if decide (24 <= length bs)%nat then
    rs ← parse_records (length bs) (drop 24 bs);
    Some ({| magic := le_field 0 4 bs; version_major := le_field 4 2 bs;
             version_minor := le_field 6 2 bs; thiszone := le_field 8 4 bs;
             sigfigs := le_field 12 4 bs; snaplen := le_field 16 4 bs;
             network := le_field 20 4 bs |}, rs)
  else None.

(** The header of an Ethernet capture of version 2.4. *)
Definition ethernet_header : pcap_header :=
  {| magic := 0xa1b2c3d4; version_major := 2; version_minor := 4; thiszone := 0;
     sigfigs := 0; snaplen := 65535; network := 1 |}.

Definition encode_record (r : pcap_record) : list Z :=
  le_split 4 (ts_sec r) ++ le_split 4 (ts_usec r)
  ++ le_split 4 (Z.of_nat (length (captured r))) ++ le_split 4 (orig_len r) ++ captured r.

Definition record_ok (r : pcap_record) : Prop :=
  0 <= ts_sec r < 2 ^ 32 /\ 0 <= ts_usec r < 2 ^ 32 /\ 0 <= orig_len r < 2 ^ 32
  /\ Z.of_nat (length (captured r)) < 2 ^ 32.

(** The bytes kept of a frame; a negative [PDU_bytes] keeps all of them. *)
Definition snapshot (pdu : Z) (buf : list Z) : list Z :=
  if pdu <? 0 then buf else take (Z.to_nat pdu) buf.

Definition record_of (pdu : Z) (p : clock * list Z) : pcap_record :=
  {| ts_sec := u32 (tv_sec p.1); ts_usec := u32 (tv_usec p.1);
     orig_len := Z.of_nat (length p.2); captured := snapshot pdu p.2 |}.

Lemma le4 z : 0 <= z < 2 ^ 32 -> le_combine (le_split 4 z) = z.
Proof. intros. rewrite le_combine_split. apply Z.mod_small. done. Qed.

(** A four-byte field between two lists. *)
Lemma le_field_split off pre z post :
  length pre = off -> 0 <= z < 2 ^ 32 -> le_field off 4 (pre ++ le_split 4 z ++ post) = z.
Proof.
  intros Hl Hz. unfold le_field. subst off.
  rewrite drop_app_length, take_app_length' by (by rewrite le_split_length). by apply le4.
Qed.

Lemma parse_encode r rs fuel rest :
  record_ok r -> parse_records fuel rest = Some rs ->
  parse_records (S fuel) (encode_record r ++ rest) = Some (r :: rs).
Proof.
  intros (Hs & Hu & Ho & Hc) Hrest.
  set (n := length (captured r)). fold n in Hc.
  set (bs := encode_record r ++ rest).
  assert (le_field 8 4 bs = Z.of_nat n) as Hcap.
  { unfold bs, encode_record. rewrite <- !(assoc_L app), (assoc_L app).
    apply le_field_split; [by rewrite length_app, !le_split_length|lia]. }
  assert (length bs = (16 + n + length rest)%nat) as Hlen.
  { unfold bs, encode_record, n. rewrite !length_app, !le_split_length. lia. }
  assert (drop 16 bs = captured r ++ rest) as Hd.
  { unfold bs, encode_record. rewrite <- !(assoc_L app).
    by rewrite !(drop_app_ge (le_split 4 _)), ?le_split_length by (rewrite le_split_length; lia). }
  assert (exists b l, bs = b :: l) as (b & l & Hbs).
  { destruct bs; [simpl in Hlen; lia|by eexists _, _]. }
  rewrite Hbs. cbn [parse_records]. rewrite <- Hbs, Hcap, Nat2Z.id.
  rewrite decide_True by lia. rewrite <- drop_drop, Hd. unfold n. rewrite drop_app_length, Hrest.
  rewrite take_app_length. simpl. f_equal. f_equal.
  destruct r as [sec usec olen cap]; f_equal; unfold bs, encode_record; cbn [ts_sec ts_usec orig_len captured].
  - rewrite <- !(assoc_L app). by apply (le_field_split 0 []).
  - rewrite <- !(assoc_L app). by apply (le_field_split 4), Hu.
  - rewrite <- !(assoc_L app), !(assoc_L app _ _ (le_split 4 olen ++ _)).
    apply le_field_split; [|done]. by rewrite !length_app, !le_split_length.
Qed.

Lemma bytes_from_take n buf i :
  0 <= i -> (Z.to_nat i + n <= length buf)%nat ->
  bytes_from n buf i = Ret (take n (drop (Z.to_nat i) buf)).
Proof.
  revert i. induction n as [|n IH]; intros i Hi Hn; [done|]. cbn [bytes_from].
  destruct (lookup_lt_is_Some_2 buf (Z.to_nat i)) as [b Hb]; [lia|].
  rewrite (byte_at_Some _ _ b).
  2: { unfold zget. destruct (Z.ltb_spec i 0); [lia|done]. }
  cbn [mbind outcome_bind]. rewrite IH by lia. cbn [outcome_bind].
  rewrite (drop_S _ b (Z.to_nat i)) by done.
  replace (Z.to_nat (i + 1)) with (S (Z.to_nat i)) by lia. done.
Qed.

Definition log_pcap_frame (p : clock * list Z) (st : plugin_state) : outcome plugin_state :=
  log_packet_pcap p.1 p.2 (Z.of_nat (length p.2)) st.

Definition is_int (x : Z) : Prop := - 2 ^ 31 <= x < 2 ^ 31.

Lemma log_packet_pcap_record p st :
  is_int (PDU_bytes (cfg st)) -> Z.of_nat (length p.2) < 2 ^ 31 ->
  log_pcap_frame p st =
  Ret (with_out (to_pcap (encode_record (record_of (PDU_bytes (cfg st)) p)) (out st)) st).
Proof.
  unfold is_int. intros Hp Hl. unfold log_pcap_frame, log_packet_pcap.
  set (n := Z.of_nat (length p.2)) in *. set (pdu := PDU_bytes (cfg st)) in *.
  unfold encode_record, record_of, snapshot. cbn [ts_sec ts_usec orig_len captured].
  destruct (Z.ltb_spec pdu 0) as [Hneg|Hpos].
  - assert (u64 pdu = pdu + 2 ^ 64) as ->.
    { symmetry. apply (Z.mod_unique pdu (2 ^ 64) (-1)); lia. }
    destruct (Z.leb_spec n (pdu + 2 ^ 64)); [|lia]. cbn match.
    rewrite sext_small by lia. rewrite bytes_from_take by lia.
    cbn [mbind outcome_bind]. rewrite drop_0, take_ge by lia.
    rewrite (wrap_small 32 n) by lia. done.
  - rewrite (wrap_small 64) by lia. destruct (Z.leb_spec n pdu).
    + rewrite sext_small by lia. rewrite bytes_from_take by lia.
      cbn [mbind outcome_bind]. rewrite drop_0, !take_ge by lia.
      rewrite (wrap_small 32 n) by lia. done.
    + rewrite sext_small by lia. rewrite bytes_from_take by lia.
      cbn [mbind outcome_bind]. rewrite drop_0, length_take.
      rewrite (wrap_small 32 n), (wrap_small 32 pdu) by lia.
      by replace (Z.of_nat (Z.to_nat pdu `min` length p.2)) with pdu by lia.
Qed.

(** Logging frames one after the other. *)
Fixpoint log_frames (ps : list (clock * list Z)) (st : plugin_state) : outcome plugin_state :=
  match ps with
  | [] => Ret st
  | p :: ps => st ← log_pcap_frame p st; log_frames ps st
  end.

Lemma log_frames_records ps st :
  is_int (PDU_bytes (cfg st)) -> Forall (fun p => Z.of_nat (length p.2) < 2 ^ 31) ps ->
  log_frames ps st =
  Ret (with_out (to_pcap (concat (encode_record <$> (record_of (PDU_bytes (cfg st)) <$> ps)))
                         (out st)) st).
Proof.
  intros Hp Hl. revert st Hp. induction Hl as [|p ps Hlp _ IH]; intros st Hp.
  - simpl. destruct st as [c t r [so pl pc io]]. unfold with_out, to_pcap. simpl.
    by rewrite app_nil_r.
  - cbn [log_frames]. rewrite log_packet_pcap_record by done. cbn [mbind outcome_bind].
    rewrite IH by done. cbn [fmap list_fmap concat].
    unfold with_out, to_pcap. simpl. by rewrite <- app_assoc.
Qed.

Lemma record_of_ok pdu p :
  is_int pdu -> Z.of_nat (length p.2) < 2 ^ 31 -> record_ok (record_of pdu p).
Proof.
  unfold is_int. intros Hp Hl. unfold record_ok, record_of, snapshot; simpl.
  split_and!; try (apply wrap_range; lia); [lia..|]. zcase; rewrite ?length_take; lia.
Qed.

Lemma parse_records_all rs fuel :
  Forall record_ok rs -> (length rs <= fuel)%nat ->
  parse_records fuel (concat (encode_record <$> rs)) = Some rs.
Proof.
  intros Hrs. revert fuel. induction Hrs as [|r rs Hr _ IH]; intros fuel Hf.
  - by destruct fuel.
  - destruct fuel as [|fuel]; [simpl in Hf; lia|]. cbn [fmap list_fmap concat].
    apply parse_encode; [done|]. apply IH. simpl in Hf. lia.
Qed.

Lemma encode_records_length rs : (length rs <= length (concat (encode_record <$> rs)))%nat.
Proof.
  induction rs as [|r rs IH]; [simpl; lia|]. cbn [fmap list_fmap concat length] in *.
  rewrite length_app. unfold encode_record at 1. rewrite !length_app, !le_split_length. lia.
Qed.

(** C20: the capture file read back: after [create_logfile] and any sequence of
    logged frames, the file parses as an Ethernet capture of version 2.4 whose
    records are the frames in order, each with its time, its length and its
    first [PDU_bytes] bytes. *)
Theorem pcap_roundtrip st ps :
  is_int (PDU_bytes (cfg st)) -> Forall (fun p => Z.of_nat (length p.2) < 2 ^ 31) ps ->
  exists st', log_frames ps (create_logfile st) = Ret st' /\
    parse_pcap (packet_log_pcap (out st'))
    = Some (ethernet_header, record_of (PDU_bytes (cfg st)) <$> ps).
Proof.
  intros Hp Hl. rewrite log_frames_records by done. eexists. split; [done|].
  set (rs := record_of _ <$> ps).
  assert (Forall record_ok rs) as Hrs.
  { unfold rs. apply Forall_fmap. eapply Forall_impl; [exact Hl|].
    intros p Hlp. by apply record_of_ok. }
  clearbody rs. unfold create_logfile, with_out, to_pcap.
  cbn [out packet_log_pcap cfg]. unfold parse_pcap.
  set (hdr := le_split 8 _ ++ le_split 8 0 ++ le_split 8 _).
  assert (length hdr = 24%nat) as Hh by done.
  rewrite decide_True by (rewrite length_app; lia).
  rewrite drop_app_length' by done.
  rewrite parse_records_all; [|done|rewrite length_app; pose proof (encode_records_length rs); lia].
  done.
Qed.

Lemma pcap_roundtrip_witness :
  exists st', log_frames [(sample_clock, sample_frame)] (create_logfile sample_filter) = Ret st' /\
    parse_pcap (packet_log_pcap (out st'))
    = Some (ethernet_header, record_of 128 <$> [(sample_clock, sample_frame)]).
Proof.
  apply (pcap_roundtrip sample_filter [(sample_clock, sample_frame)]).
  - split; vm_compute; [discriminate|reflexivity].
  - repeat constructor.
Defined.

(** ** The list of traced files *)

(** The cells [ls], linked from [p], hold the files [fs]. *)
Fixpoint is_list (h : gmap loc NODES) (p : option loc) (ls : list loc) (fs : list (string * Z)) : Prop :=
  match ls, fs with
  | [], [] => p = None
  | l :: ls, (f, d) :: fs =>
    p = Some l /\ exists nx,
      h !! l = Some {| data := Some d; fname := Some f; next := Some nx |} /\ is_list h nx ls fs
  | _, _ => False
  end.

Lemma is_list_length h p ls fs : is_list h p ls fs -> length ls = length fs.
Proof.
  revert p fs. induction ls as [|l ls IH]; intros p [|[f d] fs]; simpl; try done.
  intros (_ & nx & _ & H). f_equal. eauto.
Qed.

Lemma is_list_frame h l n p ls fs :
  l ∉ ls -> is_list h p ls fs -> is_list (<[l := n]> h) p ls fs.
Proof.
  revert p fs. induction ls as [|l' ls IH]; intros p [|[f d] fs]; simpl; try done.
  intros Hl (-> & nx & Hl' & H). split; [done|]. exists nx.
  rewrite lookup_insert_ne by set_solver. split; [done|]. apply IH; [set_solver|done].
Qed.

(** The state of the trace that stands for the files [fs] (the one named
    first, then the later ones, latest first): while none was named the head
    cell is allocated but not written. *)
Definition traces (t : trace) (fs : list (string * Z)) : Prop :=
  exists l ls,
    list_ptr t = Some l
    /\ Forall (fun x => x < brk t)%positive (l :: ls)
    /\ NoDup (l :: ls)
    /\ match fs with
       | [] => ls = [] /\ first_file t = true
               /\ heap t !! l = Some {| data := None; fname := None; next := None |}
       | _ => first_file t = false /\ is_list (heap t) (Some l) (l :: ls) fs
       end.

(** Where a newly named file goes: after the head. *)
Definition add_file (x : string * Z) (fs : list (string * Z)) : list (string * Z) :=
  match fs with
  | [] => [x]
  | h :: fs => h :: x :: fs
  end.

Lemma init_plugin_traces st :
  list_ptr (tr st) = None -> first_file (tr st) = true ->
  exists st', init_plugin true st = (true, st') /\ traces (tr st') [].
Proof.
  intros Hp Hf. unfold init_plugin. simpl. rewrite Hp. eexists. split; [done|].
  exists (brk (tr st)), []. simpl. split_and!; auto.
  - constructor; [lia|constructor].
  - apply NoDup_singleton.
  - by rewrite lookup_insert_eq.
Qed.

Lemma insertNode_traces t f0 d0 fs name d :
  traces t ((f0, d0) :: fs) -> (String.length name < 50)%nat ->
  exists t', insertNode (list_ptr t) name d t = Ret t'
    /\ list_ptr t' = list_ptr t /\ first_file t' = false
    /\ traces t' ((f0, d0) :: (name, d) :: fs).
Proof.
  intros (l & ls & Hp & Hbrk & Hnd & Hf & Hl) Hname. simpl in Hl.
  destruct Hl as (_ & nx & Hhl & Hls).
  apply Forall_cons in Hbrk as [Hlb Hbrk]. simpl in Hlb. apply NoDup_cons in Hnd as [Hnin Hnd].
  unfold insertNode, strcpy_fname. rewrite Hp. simpl.
  destruct (Nat.ltb_spec (String.length name) 50); [|lia]. simpl.
  unfold load, store. simpl.
  assert (brk t <> l) as Hne by lia.
  rewrite (lookup_insert_ne _ (brk t) l) by done. rewrite Hhl. simpl.
  rewrite lookup_insert_eq. simpl.
  rewrite !(lookup_insert_ne _ (brk t) l) by done. rewrite Hhl. simpl.
  eexists. split; [done|]. simpl. split_and!; [done..|].
  exists l, (brk t :: ls). simpl. split_and!.
  - done.
  - constructor; [lia|]. constructor; [lia|].
    eapply Forall_impl; [exact Hbrk|]. simpl. lia.
  - assert (brk t ∉ ls).
    { intros Hin. rewrite Forall_forall in Hbrk. apply Hbrk in Hin. lia. }
    apply NoDup_cons. split; [|by apply NoDup_cons].
    apply not_elem_of_cons. split; [lia|done].
  - done.
  - done.
  - exists (Some (brk t)). split; [by rewrite lookup_insert_eq|].
    split; [done|]. exists nx. rewrite lookup_insert_ne, lookup_insert_eq by done.
    split; [done|].
    assert (brk t ∉ ls).
    { intros Hin. rewrite Forall_forall in Hbrk. apply Hbrk in Hin. lia. }
    by do 3 (apply is_list_frame; [done|]).
Qed.

Lemma traces_sector v t fs : traces t fs -> traces (set_sector v t) fs.
Proof. done. Qed.

Section TracedFiles.
Context (popen : string -> popen_result).

Lemma saveFile_traces st fs name sector :
  traces (tr st) fs -> (String.length name < 50)%nat ->
  script_sector popen name = Ret sector -> is_int sector ->
  fs <> [] \/ sector <> 0 ->
  exists st', saveFile popen (list_ptr (tr st)) name st = Ret st'
    /\ traces (tr st') (add_file (name, sector) fs) /\ cfg st' = cfg st /\ tog st' = tog st.
Proof.
  unfold is_int. intros Ht Hname Hs Hi Hor. unfold saveFile, get_sectornum. rewrite Hs.
  cbn [mbind outcome_bind tr printf with_out with_tr sector_number set_sector first_file].
  assert (s32 (u64 sector) = sector) as ->.
  { unfold sext, wrap. change (32 - 1) with 31. repeat zcase; mlia. }
  destruct fs as [|[f0 d0] fs].
  - destruct Ht as (l & ls & Hp & Hbrk & Hnd & -> & -> & Hh). destruct Hor as [?|Hnz]; [done|].
    destruct (Z.eqb_spec sector 0); [done|]. cbn [negb].
    unfold strcpy_fname. destruct (Nat.ltb_spec (String.length name) 50); [|lia].
    cbn [mbind outcome_bind]. unfold store. rewrite Hp. simpl. rewrite Hh. simpl.
    eexists. split; [done|]. split_and!; [|done..].
    exists l, []. simpl. split_and!; auto. exists None. split; [by rewrite lookup_insert_eq|done].
  - assert (first_file (tr st) = false) as ->.
    { by destruct Ht as (? & ? & _ & _ & _ & ? & _). }
    destruct (insertNode_traces (set_sector (u64 sector) (tr st)) f0 d0 fs name sector)
      as (t' & Hins & Hp' & Hf' & Ht'); [done..|].
    cbn [list_ptr set_sector] in Hins. cbn [tr]. rewrite Hins. cbn [mbind outcome_bind].
    eexists. split; [done|]. split_and!; [|done..].
    destruct Ht' as (l & ls & Hl & Hb & Hn & Hff & Hil).
    exists l, ls. cbn [tr with_tr list_ptr brk first_file heap]. split_and!; done.
Qed.

(** C21: naming a file refines adding it to the list of traced files: as long
    as its name fits, the scripts give a sector and (for the first file) the
    sector is not 0, the command ends, the linked list then stands for the old
    files with the new one inserted after the head, and the filter is as it was. *)
Theorem set_file_refines st fs name sector :
  traces (tr st) fs -> (String.length name < 50)%nat ->
  script_sector popen name = Ret sector -> is_int sector ->
  fs <> [] \/ sector <> 0 ->
  exists st', set_plugin popen "target_file_name" name st = Ret st'
    /\ traces (tr st') (add_file (name, sector) fs) /\ cfg st' = cfg st /\ tog st' = tog st.
Proof.
  intros Ht Hname Hs Hi Hor. unfold set_plugin. cbn [decide decide_rel].
  repeat (rewrite decide_False by done). rewrite decide_True by done.
  by apply (saveFile_traces (printf _ (with_tr (set_file_name name (tr st)) st))).
Qed.

End TracedFiles.

Lemma locs_length (ls : list loc) b :
  NoDup ls -> Forall (fun x => x < b)%positive ls -> (length ls <= Pos.to_nat b)%nat.
Proof.
  intros Hnd Hb. rewrite <- (length_fmap Pos.to_nat ls), <- (length_seq (Pos.to_nat b) 0).
  apply submseteq_length, NoDup_submseteq.
  - apply NoDup_fmap_2; [intros x y; lia|done].
  - intros x (y & -> & Hy)%list_elem_of_fmap. rewrite Forall_forall in Hb.
    apply Hb in Hy. apply elem_of_seq. lia.
Qed.

(** Logging a transfer for each of the named files. *)
Definition log_files clk sector base len dir (names : list string) (st : plugin_state) :=
  foldl (fun st f => log_blkio clk sector base len dir f st) st names.

(** The files whose first sector is the one accessed. *)
Definition files_at (sector : Z) (fs : list (string * Z)) : list string :=
  fst <$> filter (fun x => u64 x.2 = sector) fs.

Lemma blockio_loop_list clk sector base len dir fuel p ls fs st :
  sector <> 0 -> (length ls <= fuel)%nat -> is_list (heap (tr st)) p ls fs ->
  blockio_loop fuel clk sector base len dir p st
  = Ret (log_files clk sector base len dir (files_at sector fs) st).
Proof.
  intros Hs. revert fuel p fs st.
  induction ls as [|l ls IH]; intros fuel p [|[f d] fs] st Hf Hl; simpl in Hl; try done.
  { subst p. by destruct fuel. }
  destruct Hl as (-> & nx & Hh & Hl). destruct fuel as [|fuel]; [simpl in Hf; lia|].
  cbn [blockio_loop]. destruct (Z.eqb_spec sector 0); [done|].
  unfold load. cbn [deref mbind outcome_bind]. rewrite Hh. simpl.
  unfold files_at. rewrite filter_cons. simpl in Hf.
  destruct (Z.eqb_spec sector (u64 d)) as [E|E]; simpl.
  - rewrite decide_True by done. rewrite (IH _ _ fs); [done|lia|done].
  - rewrite decide_False by (simpl; congruence). rewrite (IH _ _ fs); [done|lia|done].
Qed.

(** A block transfer at a sector other than 0 is logged once for each
    traced file that starts there, in list order, and the traversal of the
    linked list ends. *)
Lemma get_blockio_correct clk sector base len dir st fs :
  traces (tr st) fs -> fs <> [] -> sector <> 0 ->
  get_blockio clk sector base len dir st
  = Ret (log_files clk sector base len dir (files_at sector fs) st).
Proof.
  intros (l & ls & Hp & Hb & Hnd & Ht) Hfs Hs. destruct fs as [|x fs]; [done|].
  destruct Ht as [_ Hl]. unfold get_blockio. rewrite Hp.
  apply (blockio_loop_list _ _ _ _ _ _ _ (l :: ls)); [done| |done].
  by apply locs_length.
Qed.

(** Before any file is named the head cell has not been written, so the
    first block transfer reads an uninitialised field. *)
Lemma get_blockio_uninitialised clk sector base len dir st :
  traces (tr st) [] -> sector <> 0 ->
  get_blockio clk sector base len dir st = Fault Uninitialised.
Proof.
  intros (l & ls & Hp & Hb & Hnd & -> & Hf & Hh) Hs. unfold get_blockio. rewrite Hp.
  destruct (Pos.to_nat (brk (tr st))) as [|n] eqn:Hn; [lia|]. cbn [blockio_loop].
  destruct (Z.eqb_spec sector 0); [done|]. unfold load. simpl. by rewrite Hh.
Qed.

(** The scripts of the samples: every file starts at sector 2048. *)
Definition sample_popen (_ : string) : popen_result := PopenOutput "2048".

Definition sample_init : plugin_state := (init_plugin true plugin_state0).2.

Lemma sample_init_traces : traces (tr sample_init) [].
Proof.
  exists 1%positive, [].
  split_and!; [done|by repeat constructor|apply NoDup_singleton|done|done|by vm_compute].
Qed.

Lemma set_file_refines_witness :
  exists st', set_plugin sample_popen "target_file_name" "a.txt" sample_init = Ret st'
    /\ traces (tr st') [("a.txt"%string, 2048)] /\ cfg st' = cfg sample_init
    /\ tog st' = tog sample_init.
Proof.
  apply (set_file_refines sample_popen sample_init [] "a.txt" 2048).
  - exact sample_init_traces.
  - simpl. lia.
  - vm_compute. reflexivity.
  - split; vm_compute; [discriminate|reflexivity].
  - right. discriminate.
Defined.

Definition sample_traced : plugin_state :=
  with_tr {| first_file := false; count := 0; sector_number := 2048;
             target_file_name := "a.txt"; list_ptr := Some 1%positive;
             heap := {[ 1%positive := {| data := Some 2048; fname := Some "a.txt"%string;
                                         next := Some None |} ]};
             brk := 2%positive |} plugin_state0.

Lemma sample_traced_traces : traces (tr sample_traced) [("a.txt"%string, 2048)].
Proof.
  exists 1%positive, [].
  split_and!; [done|by repeat constructor|apply NoDup_singleton|done|].
  split; [done|]. exists None. split; [by vm_compute|done].
Qed.

Lemma get_blockio_correct_witness :
  get_blockio sample_clock 2048 0 512 1 sample_traced
  = Ret (log_blkio sample_clock 2048 0 512 1 "a.txt" sample_traced).
Proof.
  rewrite (get_blockio_correct sample_clock 2048 0 512 1 sample_traced [("a.txt"%string, 2048)]).
  - reflexivity.
  - exact sample_traced_traces.
  - discriminate.
  - discriminate.
Defined.

Lemma get_blockio_uninitialised_witness :
  get_blockio sample_clock 2048 0 512 1 sample_init = Fault Uninitialised.
Proof.
  apply (get_blockio_uninitialised sample_clock 2048 0 512 1 sample_init).
  - exact sample_init_traces.
  - discriminate.
Defined.

(** ** Settings *)

Definition filter_properties : list string :=
  ["target_s_port"; "target_d_port"; "target_s_ip"; "target_d_ip"; "PDU_bytes";
   "target_protocol_number"]%string.

Definition toggle_properties : list string :=
  ["enable_print_packet"; "enable_log"; "enable_pcap_log"; "enable_traceblk";
   "enable_print_blkio"]%string.

Ltac pick_property :=
  repeat (rewrite decide_False by done); try (rewrite decide_True by done).

(** [reset_plugin] on the filter alone. *)
Definition reset_config (p : string) (c : config) : config :=
  if decide (p = "target_s_port"%string) then set_s_port (-1) c
  else if decide (p = "target_d_port"%string) then set_d_port (-1) c
  else if decide (p = "target_s_ip"%string) then set_s_ip NOT_SET c
  else if decide (p = "target_d_ip"%string) then set_d_ip NOT_SET c
  else if decide (p = "PDU_bytes"%string) then set_PDU 128 c
  else if decide (p = "target_protocol_number"%string) then set_proto (-1) c
  else c.

Lemma cfg_reset p st : cfg (reset_plugin p st) = reset_config p (cfg st).
Proof. unfold reset_plugin, reset_config. by repeat case_decide. Qed.

(** Setting a filter property never faults, and what [reset_plugin] leaves
    does not depend on it. *)
Lemma reset_after_set popen p v st :
  p ∈ filter_properties ->
  exists st', set_plugin popen p v st = Ret st'
    /\ cfg (reset_plugin p st') = cfg (reset_plugin p st)
    /\ tog st' = tog st /\ tr st' = tr st.
Proof.
  intros Hp. unfold filter_properties in Hp.
  repeat (apply elem_of_cons in Hp as [->|Hp]);
    [unfold set_plugin, reset_plugin; pick_property; eexists; split; [done|split_and!; done]..|].
  by apply not_elem_of_nil in Hp.
Qed.

(** Resetting every filter property restores the initial filter, whatever
    was set before, and leaves toggles and traced files alone; setting one of
    them first makes no difference. *)
Lemma reset_all_restores popen p v st :
  p ∈ filter_properties ->
  exists st', set_plugin popen p v st = Ret st'
    /\ cfg (foldl (fun st p => reset_plugin p st) st' filter_properties) = config0
    /\ tog (foldl (fun st p => reset_plugin p st) st' filter_properties) = tog st
    /\ tr (foldl (fun st p => reset_plugin p st) st' filter_properties) = tr st.
Proof.
  intros Hp. destruct (reset_after_set popen p v st Hp) as (st' & Hset & _ & Htog & Htr).
  exists st'. split; [done|].
  assert (forall s p, tog (reset_plugin p s) = tog s /\ tr (reset_plugin p s) = tr s) as Hr.
  { intros s q. unfold reset_plugin. repeat case_decide; done. }
  unfold filter_properties. cbn [foldl]. rewrite <- Htog, <- Htr.
  split_and!; [|rewrite !(proj1 (Hr _ _)); done|rewrite !(proj2 (Hr _ _)); done].
  rewrite !cfg_reset. by destruct (cfg st').
Qed.


(** Toggling an output twice is the identity on the toggles, and a toggle
    never touches the filter or the traced files. *)
Lemma toggle_involutive p st :
  tog (toggle_plugin p (toggle_plugin p st)) = tog st
  /\ cfg (toggle_plugin p st) = cfg st /\ tr (toggle_plugin p st) = tr st.
Proof.
  split_and!; unfold toggle_plugin; repeat case_decide; try done; simpl;
    rewrite negb_involutive; by destruct (tog st).
Qed.

(** ** The loader *)

(** What is open after some calls, a handle as often as it was opened more
    than closed; there is no such list if a handle was closed that was not
    open.  NULL closes nothing. *)
Inductive open_handles {H} : list (dlcall H) -> list H -> Prop :=
| open_none : open_handles [] []
| open_opened h calls open : open_handles calls open -> open_handles (dl_opened h :: calls) (h :: open)
| open_closed h calls open open' :
    open_handles calls open -> open ≡ₚ h :: open' -> open_handles (dl_closed (Some h) :: calls) open'
| open_null calls open : open_handles calls open -> open_handles (dl_closed None :: calls) open.

Inductive command := Load (path : string) | Unload.

Section Loader.
Context (L : dynlink).

Definition run_command (s : loader L) (c : command) : loader L :=
  match c with Load path => do_load_plugin L path s | Unload => do_unload_plugin L s end.

Definition run_commands (cmds : list command) : loader L := fold_left run_command cmds (loader0 L).

(** A load that succeeds: a path that is not empty, an object that opens, has
    an [init_plugin], and whose [init_plugin] returns an interface. *)
Definition succeeds (c : command) : Prop :=
  match c with
  | Load path => path <> ""%string /\ exists h i, dlopen L path = Some h /\ has_init L h = true /\ run_init L h = Some i
  | Unload => True
  end.

(** No plugin is loaded while another is. *)
Definition one_at_a_time (cmds : list command) : Prop :=
  forall before path, before ++ [Load path] `prefix_of` cmds -> plugin (run_commands before) = None.

(** The three variables agree on whether a plugin is loaded. *)
Definition agree (s : loader L) : Prop :=
  (is_Some (plugin s) <-> is_Some (plugin_handle s)) /\ (is_Some (plugin s) <-> cur_plugin_path s <> ""%string).

(** [good] and [single] are what is assumed of the commands so far. *)
Definition loader_ok (good single : Prop) (s : loader L) (open : list (handle L)) : Prop :=
  open_handles (dlcalls s) open /\
  (forall h, plugin_handle s = Some h -> h ∈ open) /\
  (good -> agree s /\ dl_closed None ∉ dlcalls s /\ (single -> open = option_list (plugin_handle s))).

Lemma substring_nonempty path : path <> ""%string -> String.substring 0 100 path <> ""%string.
Proof using Type. by destruct path. Qed.

Lemma do_load_ok good single s open path :
  loader_ok good single s open ->
  exists open', loader_ok (good /\ succeeds (Load path)) (single /\ plugin s = None) (do_load_plugin L path s) open'.
Proof using Type.
  intros (Hc & Hh & Hg). unfold do_load_plugin, loader_ok, succeeds.
  destruct (dlopen L path) as [h|] eqn:Ho.
  2:{ exists open. split_and!; [done..|]. intros (_ & _ & h & i & ? & _). congruence. }
  destruct (has_init L h) eqn:Hi; cbn [negb].
  2:{ exists open. split_and!; [by eapply open_closed; [constructor|]|done|].
      intros (_ & _ & h' & i & [= <-] & ? & _). congruence. }
  destruct (run_init L h) as [i|] eqn:Hr.
  2:{ exists open. split_and!; [by eapply open_closed; [constructor|]|done|].
      intros (_ & _ & h' & i & [= <-] & _ & ?). congruence. }
  exists (h :: open). cbn. split_and!; [by constructor|intros ? [= <-]; by left|].
  intros (Hgood & Hp & _). destruct (Hg Hgood) as ((Ha & _) & Hn & Hs). split_and!.
  - split; cbn; [done|]. split; [intros _; by apply substring_nonempty|done].
  - by intros [?|?]%elem_of_cons.
  - intros [Hsg Hnone]. rewrite (Hs Hsg). destruct (plugin_handle s) as [h0|]; [|done].
    destruct (proj2 Ha ltac:(by eexists)). congruence.
Qed.

Lemma do_unload_ok good single s open :
  loader_ok good single s open -> exists open', loader_ok good single (do_unload_plugin L s) open'.
Proof using Type.
  intros (Hc & Hh & Hg). unfold do_unload_plugin, loader_ok.
  destruct (cur_plugin_path s) eqn:Hp; [by exists open|]. cbn.
  destruct (plugin_handle s) as [h|] eqn:E.
  - destruct (proj1 (elem_of_Permutation open h) (Hh h eq_refl)) as [open' Ho].
    exists open'. split_and!; [by eapply open_closed|done|]. intros Hgood.
    destruct (Hg Hgood) as (_ & Hn & Hs). split_and!; [split; split; by intros []| |].
    + by intros [?|?]%elem_of_cons.
    + intros Hsg. rewrite (Hs Hsg) in Ho. by apply Permutation_cons_inv, Permutation_nil in Ho.
  - exists open. split_and!; [by apply open_null|done|]. intros Hgood.
    destruct (Hg Hgood) as ((Ha & Hb) & _). rewrite Hp in Hb. rewrite E in Ha.
    destruct (proj1 Ha); [by apply Hb|done].
Qed.

Lemma run_commands_ok cmds :
  exists open, loader_ok (Forall succeeds cmds) (one_at_a_time cmds) (run_commands cmds) open.
Proof using Type.
  induction cmds as [|c cmds [open IH]] using rev_ind.
  { exists []. split_and!; [constructor|done|]. intros _. split_and!; [split; split; by intros []| |done].
    by intros ?%elem_of_nil. }
  assert (one_at_a_time (cmds ++ [c]) -> one_at_a_time cmds) as Hs.
  { intros Ho before path Hp. eapply Ho. by eapply prefix_app_r. }
  unfold run_commands. rewrite fold_left_app. fold (run_commands cmds). destruct c as [path|]; cbn.
  - destruct (do_load_ok _ _ _ _ path IH) as [open' (H1 & H2 & H3)]. exists open'. split_and!; [done..|].
    intros [Hf Hl]%Forall_app. destruct H3 as (Ha & Hn & Ho); [split; [done|exact (proj1 (Forall_singleton _ _) Hl)]|].
    split_and!; [done..|]. intros Ht. apply Ho. split; [by apply Hs|]. by eapply Ht.
  - destruct (do_unload_ok _ _ _ _ IH) as [open' (H1 & H2 & H3)]. exists open'. split_and!; [done..|].
    intros [Hf _]%Forall_app. destruct (H3 Hf) as (Ha & Hn & Ho). split_and!; [done..|]. by intros ?%Hs%Ho.
Qed.
End Loader.

(** C22: whatever plugins are loaded and unloaded from the start, [dlclose] is
    never called on a handle that is not open at that time, and the handle the
    loader keeps is open.  If every load succeeds, the three variables agree on
    whether a plugin is loaded, and [dlclose] is never called with NULL.  If
    moreover no plugin is loaded while another is, nothing but the current
    plugin is open, and that once. *)
Theorem loader_invariant L cmds :
  let s := run_commands L cmds in
  exists open, open_handles (dlcalls s) open /\
    (forall h, plugin_handle s = Some h -> h ∈ open) /\
    (Forall (succeeds L) cmds ->
       (is_Some (plugin s) <-> is_Some (plugin_handle s)) /\
       (is_Some (plugin s) <-> cur_plugin_path s <> ""%string) /\
       dl_closed None ∉ dlcalls s /\
       (one_at_a_time L cmds -> open = option_list (plugin_handle s))).
Proof.
  destruct (run_commands_ok L cmds) as (open & Ho & Hh & Hg). exists open. split_and!; [done..|].
  intros Hf. destruct (Hg Hf) as ([Ha Hb] & Hn & Hs). done.
Qed.

(** A load that fails forgets the handle of the plugin already loaded but
    keeps its interface, and the next unload passes NULL to [dlclose]. *)
Lemma failed_reload_closes_null L s p1 p2 h1 i1 :
  p1 <> ""%string -> dlopen L p1 = Some h1 -> has_init L h1 = true -> run_init L h1 = Some i1 ->
  dlopen L p2 = None ->
  let s2 := do_load_plugin L p2 (do_load_plugin L p1 s) in
  plugin s2 = Some i1 /\ plugin_handle s2 = None
  /\ dlcalls (do_unload_plugin L s2) = dl_closed None :: dl_opened h1 :: dlcalls s.
Proof.
  intros Hp Ho Hi Hr Ho2. unfold do_load_plugin. rewrite Ho, Hi, Hr, Ho2. simpl.
  split_and!; [done..|]. unfold do_unload_plugin. simpl.
  destruct p1 as [|c p1]; [done|]. simpl. done.
Qed.

(** A hook called while no plugin is loaded dereferences NULL. *)
Lemma hooks_without_plugin L (s : loader L) clk buf size sector base len st b :
  plugin s = None ->
  e1000_receive_hook s clk buf size st = Fault NullDeref
  /\ e1000_send_hook s false clk buf size st = Fault NullDeref
  /\ dma_blk_io_hook s b clk sector base len st = Fault NullDeref.
Proof.
  intros Hp. unfold e1000_receive_hook, e1000_send_hook, dma_blk_io_hook, hook.
  rewrite Hp. by destruct b.
Qed.

Definition sample_link : dynlink :=
  {| handle := nat;
     dlopen := fun p => if decide (p = "p.so"%string) then Some 1%nat else None;
     has_init := fun _ => true;
     run_init := fun _ => Some "iface"%string |}.

Lemma loader_invariant_witness :
  exists open, open_handles (dlcalls (run_commands sample_link [Load "p.so"; Unload; Load "q.so"; Unload; Load "p.so"]))
                 open /\ 1%nat ∈ open.
Proof.
  destruct (loader_invariant sample_link [Load "p.so"; Unload; Load "q.so"; Unload; Load "p.so"])
    as (open & Ho & Hh & _).
  exists open. split; [exact Ho|]. apply Hh. reflexivity.
Defined.
