(* ===== verification/HostUtils.v ===== *)
(** * Integer helpers of the host

    Model of [src/include/qemu/host-utils.h] and [src/util/host-utils.c]:
    leading and trailing zeros, population counts, and the 64x64
    multiplication and 128/64 division.  The header has two bodies for most
    of them, one on top of compiler builtins and 128-bit integers and a
    portable one; both are modelled ([*_portable] for the second) and
    compared.  The builtins are modelled by what the compiler documents:
    counts of bits, given here by [lead] and [popcount]. *)

From S2P Require Import Prelude.

(** ** Reference counts *)

(** The number of leading [false]s of [f 0, ..., f (n - 1)]. *)
Fixpoint lead (n : nat) (f : Z -> bool) : Z :=
  match n with
  | O => 0
  | S n => if f 0 then 0 else 1 + lead n (fun i => f (i + 1))
  end.

(** The number of [true]s of [f 0, ..., f (n - 1)]. *)
Fixpoint popcount (n : nat) (f : Z -> bool) : Z :=
  match n with
  | O => 0
  | S n => b2z (f 0) + popcount n (fun i => f (i + 1))
  end.

(** ** host-utils.h: counts *)

Definition clz32 (val : Z) : Z :=
  if negb (val =? 0) then lead 32 (fun i => Z.testbit val (31 - i)) else 32.

(** A step [if (!(val & mask)) { cnt += n; val = next; }]. *)
Definition count_step (mask n : Z) (next : Z -> Z) (s : Z * Z) : Z * Z :=
  let '(cnt, val) := s in
  if negb (has_bits val mask) then (cnt + n, next val) else (cnt, val).

Definition clz32_portable (val : Z) : Z :=
  let s := (0, val) in
  let s := count_step 0xFFFF0000 16 (fun v => u32 (v << 16)) s in
  let s := count_step 0xFF000000 8 (fun v => u32 (v << 8)) s in
  let s := count_step 0xF0000000 4 (fun v => u32 (v << 4)) s in
  let s := count_step 0xC0000000 2 (fun v => u32 (v << 2)) s in
  let s := count_step 0x80000000 1 (fun v => u32 (v << 1)) s in
  let s := count_step 0x80000000 1 id s in
  fst s.

Definition clo32 (val : Z) : Z := clz32 (u32 (Z.lnot val)).

Definition clz64 (val : Z) : Z :=
  if negb (val =? 0) then lead 64 (fun i => Z.testbit val (63 - i)) else 64.

Definition clz64_portable (val : Z) : Z :=
  let '(cnt, val) := if (val >> 32) =? 0 then (32, val) else (0, val >> 32) in
  cnt + clz32_portable (u32 val).

Definition clo64 (val : Z) : Z := clz64 (u64 (Z.lnot val)).

Definition ctz32 (val : Z) : Z :=
  if negb (val =? 0) then lead 32 (Z.testbit val) else 32.

Definition ctz32_portable (val : Z) : Z :=
  let s := (0, val) in
  let s := count_step 0x0000FFFF 16 (fun v => v >> 16) s in
  let s := count_step 0x000000FF 8 (fun v => v >> 8) s in
  let s := count_step 0x0000000F 4 (fun v => v >> 4) s in
  let s := count_step 0x00000003 2 (fun v => v >> 2) s in
  let s := count_step 0x00000001 1 (fun v => v >> 1) s in
  let s := count_step 0x00000001 1 id s in
  fst s.

Definition cto32 (val : Z) : Z := ctz32 (u32 (Z.lnot val)).

Definition ctz64 (val : Z) : Z :=
  if negb (val =? 0) then lead 64 (Z.testbit val) else 64.

Definition ctz64_portable (val : Z) : Z :=
  let '(cnt, val) := if u32 val =? 0 then (32, val >> 32) else (0, val) in
  cnt + ctz32_portable (u32 val).

Definition cto64 (val : Z) : Z := ctz64 (u64 (Z.lnot val)).

(** [(int32_t) val >> 1] is an arithmetic shift. *)
Definition clrsb32 (val : Z) : Z := clz32 (val ^^^ u32 (s32 val >> 1)) - 1.

Definition clrsb64 (val : Z) : Z := clz64 (val ^^^ u64 (s64 val >> 1)) - 1.

Definition ctpop8 (val : Z) : Z := popcount 8 (Z.testbit val).

Definition ctpop16 (val : Z) : Z := popcount 16 (Z.testbit val).

Definition ctpop32 (val : Z) : Z := popcount 32 (Z.testbit val).

Definition ctpop64 (val : Z) : Z := popcount 64 (Z.testbit val).

(** The step [val = (val & m) + ((val >> k) & m)] on a [w]-bit variable. *)
Definition pop_step (w k m val : Z) : Z := wrap w ((val &&& m) + ((val >> k) &&& m)).

Definition ctpop8_portable (val : Z) : Z :=
  let val := pop_step 8 1 0x55 val in
  let val := pop_step 8 2 0x33 val in
  let val := pop_step 8 4 0x0f val in
  val.

Definition ctpop16_portable (val : Z) : Z :=
  let val := pop_step 16 1 0x5555 val in
  let val := pop_step 16 2 0x3333 val in
  let val := pop_step 16 4 0x0f0f val in
  let val := pop_step 16 8 0x00ff val in
  val.

Definition ctpop32_portable (val : Z) : Z :=
  let val := pop_step 32 1 0x55555555 val in
  let val := pop_step 32 2 0x33333333 val in
  let val := pop_step 32 4 0x0f0f0f0f val in
  let val := pop_step 32 8 0x00ff00ff val in
  let val := pop_step 32 16 0x0000ffff val in
  val.

Definition ctpop64_portable (val : Z) : Z :=
  let val := pop_step 64 1 0x5555555555555555 val in
  let val := pop_step 64 2 0x3333333333333333 val in
  let val := pop_step 64 4 0x0f0f0f0f0f0f0f0f val in
  let val := pop_step 64 8 0x00ff00ff00ff00ff val in
  let val := pop_step 64 16 0x0000ffff0000ffff val in
  let val := pop_step 64 32 0x00000000ffffffff val in
  val.

(** On the 64-bit hosts modelled here [unsigned long] has 64 bits. *)
Definition ctzl (val : Z) : Z := ctz64 val.

Definition clzl (val : Z) : Z := clz64 val.

Definition ctpopl (val : Z) : Z := ctpop64 val.

(** ** Multiplication and division

    The results are pairs [(low, high)] of the two output parameters; the
    divisions also return the overflow flag, and start from the old values of
    the two. *)

Definition mulu64 (a b : Z) : Z * Z :=
  let r := wrap 128 (a * b) in (u64 r, u64 (r >> 64)).

Definition muls64 (a b : Z) : Z * Z :=
  let r := sext 128 (a * b) in (u64 r, u64 (r >> 64)).

Definition divu128 (plow phigh divisor : Z) : Z * (Z * Z) :=
  if divisor =? 0 then (1, (plow, phigh))
  else
    let dividend := (phigh << 64) ||| plow in
    let result := dividend / divisor in
    (b2z (2 ^ 64 - 1 <? result), (u64 result, u64 (dividend mod divisor))).

(** [*plow] is an [int64_t]: the [|] converts it to a negative [__int128_t]
    when its sign bit is set. *)
Definition divs128 (plow phigh divisor : Z) : Z * (Z * Z) :=
  if divisor =? 0 then (1, (plow, phigh))
  else
    let dividend := sext 128 ((phigh << 64) ||| plow) in
    let result := sext 128 (Z.quot dividend divisor) in
    (b2z (negb (result =? s64 result)), (s64 result, s64 (Z.rem dividend divisor))).

(** The 32-bit halves of the union [LL]. *)
Definition ll_low (x : Z) : Z := u32 x.

Definition ll_high (x : Z) : Z := x >> 32.

Definition ll (low high : Z) : Z := low + 2 ^ 32 * high.

Definition mul64 (a b : Z) : Z * Z :=
  let rl := u64 (ll_low a * ll_low b) in
  let rm := u64 (ll_low a * ll_high b) in
  let rn := u64 (ll_high a * ll_low b) in
  let rh := u64 (ll_high a * ll_high b) in
  let c := u64 (ll_high rl + ll_low rm + ll_low rn) in
  let rl := ll (ll_low rl) (u32 c) in
  let c := c >> 32 in
  let c := u64 (c + ll_high rm + ll_high rn + ll_low rh) in
  let rh := ll (u32 c) (ll_high rh) in
  let rh := ll (ll_low rh) (u32 (ll_high rh + u32 (c >> 32))) in
  (rl, rh).

Definition mulu64_portable (a b : Z) : Z * Z := mul64 a b.

Definition muls64_portable (a b : Z) : Z * Z :=
  let '(plow, rh) := mul64 (u64 a) (u64 b) in
  let rh := if b <? 0 then u64 (rh - a) else rh in
  let rh := if a <? 0 then u64 (rh - b) else rh in
  (plow, rh).

(** One round of the division loop, on [(dlo, dhi)]. *)
Definition div_round (divisor : Z) (s : Z * Z) : Z * Z :=
  let '(dlo, dhi) := s in
  let carry := dhi >> 63 in
  let dhi := u64 (dhi << 1) ||| (dlo >> 63) in
  let '(dhi, carry) :=
    if negb (carry =? 0) || (divisor <=? dhi) then (u64 (dhi - divisor), 1)
    else (dhi, 0) in
  (u64 (dlo << 1) ||| carry, dhi).

Definition divu128_portable (plow phigh divisor : Z) : Z * (Z * Z) :=
  let dhi := phigh in
  let dlo := plow in
  if divisor =? 0 then (1, (plow, phigh))
  else if dhi =? 0 then (0, (dlo / divisor, dlo mod divisor))
  else if divisor <? dhi then (1, (plow, phigh))
  else (0, Nat.iter 64 (div_round divisor) (dlo, dhi)).

Definition divs128_portable (plow phigh divisor : Z) : Z * (Z * Z) :=
  let sgn_dvdnd := phigh <? 0 in
  let sgn_divsr := divisor <? 0 in
  let '(plow, phigh) :=
    if sgn_dvdnd then
      let plow := Z.lnot plow in
      let phigh := Z.lnot phigh in
      if plow =? -1 then (0, s64 (phigh + 1)) else (s64 (plow + 1), phigh)
    else (plow, phigh) in
  let divisor := if sgn_divsr then s64 (0 - divisor) else divisor in
  let '(overflow, (plow, phigh)) :=
    divu128_portable (u64 plow) (u64 phigh) (u64 divisor) in
  let plow := s64 plow in
  let phigh := s64 phigh in
  let plow := if xorb sgn_dvdnd sgn_divsr then s64 (0 - plow) else plow in
  let overflow :=
    if (overflow =? 0) && xorb (plow <? 0) (xorb sgn_dvdnd sgn_divsr) then 1
    else overflow in
  (overflow, (plow, phigh)).

(** ** Counts: lemmas *)

Lemma lead_ext n f g :
  (forall i, 0 <= i < Z.of_nat n -> f i = g i) -> lead n f = lead n g.
Proof.
  revert f g; induction n as [|n IH]; intros f g Hfg; [done|]. simpl.
  rewrite (Hfg 0) by lia. case_match; [done|]. f_equal. apply IH.
  intros i Hi. apply Hfg. lia.
Qed.

Lemma popcount_ext n f g :
  (forall i, 0 <= i < Z.of_nat n -> f i = g i) -> popcount n f = popcount n g.
Proof.
  revert f g; induction n as [|n IH]; intros f g Hfg; [done|]. simpl.
  rewrite (Hfg 0) by lia. f_equal. apply IH. intros i Hi. apply Hfg. lia.
Qed.

Lemma lead_spec n f :
  0 <= lead n f <= Z.of_nat n /\
  (forall i, 0 <= i < lead n f -> f i = false) /\
  (lead n f < Z.of_nat n -> f (lead n f) = true).
Proof.
  revert f; induction n as [|n IH]; intros f; cbn [lead].
  - split_and!; intros; lia.
  - destruct (f 0) eqn:E0.
    + split_and!; intros; done || lia.
    + destruct (IH (fun i => f (i + 1))) as (H1 & H2 & H3).
      split; [lia|split].
      * intros i Hi. destruct (decide (i = 0)) as [->|]; [done|].
        rewrite <- (Z.sub_add 1 i). apply H2. lia.
      * intros Hi. rewrite Z.add_comm. apply H3. lia.
Qed.

Lemma lead_unique n f k :
  0 <= k < Z.of_nat n -> (forall i, 0 <= i < k -> f i = false) -> f k = true ->
  lead n f = k.
Proof.
  intros Hk Hlow Hhit. destruct (lead_spec n f) as (H1 & H2 & H3).
  destruct (Z.lt_trichotomy (lead n f) k) as [Hlt|[He|Hlt]]; [|done|].
  - rewrite Hlow in H3 by lia. specialize (H3 ltac:(lia)). done.
  - rewrite H2 in Hhit by lia. done.
Qed.

Lemma lead_zero m n f :
  (forall i, 0 <= i < Z.of_nat m -> f i = false) ->
  lead (m + n) f = Z.of_nat m + lead n (fun i => f (i + Z.of_nat m)).
Proof.
  revert f; induction m as [|m IH]; intros f Hz.
  - simpl. apply lead_ext. intros i _. f_equal. lia.
  - cbn [lead Nat.add]. rewrite (Hz 0) by lia. rewrite IH.
    + rewrite Nat2Z.inj_succ, <- Z.add_1_l, Z.add_assoc. f_equal.
      apply lead_ext. intros. f_equal. lia.
    + intros i Hi. apply Hz. lia.
Qed.

Lemma lead_hit m n f i :
  0 <= i < Z.of_nat m -> f i = true -> lead (m + n) f = lead m f.
Proof.
  intros Hi Hhit. destruct (lead_spec m f) as (H1 & H2 & H3).
  assert (lead m f <= i).
  { destruct (decide (lead m f <= i)); [done|]. rewrite H2 in Hhit by lia. done. }
  apply lead_unique; [lia|done|apply H3; lia].
Qed.

Lemma has_bits_spec v m :
  0 <= m ->
  if has_bits v m then exists i, 0 <= i /\ Z.testbit m i = true /\ Z.testbit v i = true
  else forall i, 0 <= i -> Z.testbit m i = true -> Z.testbit v i = false.
Proof.
  intros Hm. unfold has_bits. destruct (Z.eqb_spec (v &&& m) 0) as [E|E]; simpl.
  - intros i Hi Hb. apply (f_equal (fun x => Z.testbit x i)) in E.
    rewrite Z.land_spec, Hb, Z.testbit_0_l, andb_true_r in E. done.
  - assert (0 < v &&& m) as Hpos.
    { assert (0 <= v &&& m) by (apply Z.land_nonneg; lia). lia. }
    exists (Z.log2 (v &&& m)). split; [apply Z.log2_nonneg|].
    apply Z.bit_log2 in Hpos. rewrite Z.land_spec in Hpos.
    apply andb_true_iff in Hpos. tauto.
Qed.

(** *** Binary search *)

Section search.
(** The bits of [v] in the order of the search. *)
Context (view : Z -> Z -> bool).

Lemma count_step_spec m cnt v mask next :
  0 <= mask ->
  (forall i, 0 <= i -> Z.testbit mask i = true ->
    exists j, 0 <= j < Z.of_nat m /\ view v j = Z.testbit v i) ->
  (forall j, 0 <= j < Z.of_nat m ->
    exists i, 0 <= i /\ Z.testbit mask i = true /\ view v j = Z.testbit v i) ->
  (forall j, 0 <= j < Z.of_nat m -> view (next v) j = view v (j + Z.of_nat m)) ->
  let '(cnt', v') := count_step mask (Z.of_nat m) next (cnt, v) in
  cnt' + lead m (view v') = cnt + lead (m + m) (view v).
Proof.
  intros Hm Hto Hfrom Hnext. unfold count_step.
  pose proof (has_bits_spec v mask Hm) as Hb.
  destruct (has_bits v mask); simpl.
  - destruct Hb as (i & Hi & Hmi & Hvi). destruct (Hto i Hi Hmi) as (j & Hj & Hvj).
    rewrite (lead_hit m m (view v) j); [done..|congruence].
  - rewrite (lead_zero m m (view v)).
    + rewrite (lead_ext m _ _ Hnext). lia.
    + intros j Hj. destruct (Hfrom j Hj) as (i & Hi & Hmi & ->). auto.
Qed.
End search.

(** The masks of the trailing zero count are the [n] lowest bits. *)
Lemma ctz_step n mask k cnt v :
  mask = Z.ones k -> k = Z.of_nat n ->
  let '(cnt', v') := count_step mask k (fun v => v >> k) (cnt, v) in
  cnt' + lead n (Z.testbit v') = cnt + lead (n + n) (Z.testbit v).
Proof.
  intros -> ->. apply count_step_spec.
  - rewrite Z.ones_equiv. lia.
  - intros i Hi. rewrite testbit_ones by lia. intros ?; zbool. exists i. lia || done.
  - intros j Hj. exists j. rewrite testbit_ones by lia. split_and!; [lia| |done].
    apply andb_true_iff; split; [apply Z.leb_le|apply Z.ltb_lt]; lia.
  - intros j Hj. rewrite testbit_shiftr. zcase; [done|lia].
Qed.

(** Those of the leading zero count are the [n] highest of 32. *)
Lemma clz_step n mask k cnt v :
  mask = Z.ones k << (32 - k) -> k = Z.of_nat n -> (n <= 32)%nat ->
  let '(cnt', v') := count_step mask k (fun v => u32 (v << k)) (cnt, v) in
  cnt' + lead n (fun i => Z.testbit v' (31 - i)) =
  cnt + lead (n + n) (fun i => Z.testbit v (31 - i)).
Proof.
  intros -> -> Hn. apply (count_step_spec (fun v i => Z.testbit v (31 - i))).
  - apply Z.shiftl_nonneg. rewrite Z.ones_equiv. lia.
  - intros i Hi. rewrite testbit_shiftl, testbit_ones by lia. intros ?; zbool.
    exists (31 - i). split; [lia|]. f_equal. lia.
  - intros j Hj. exists (31 - j). rewrite testbit_shiftl, testbit_ones by lia.
    split_and!; [lia| |done]. rewrite !andb_true_iff, !Z.leb_le, Z.ltb_lt. lia.
  - intros j Hj. autorewrite with bits. zcase; [|lia]. simpl. zcase; simpl.
    + f_equal. lia.
    + rewrite Z.testbit_neg_r by lia. done.
Qed.

Lemma lead_all n f : (forall i, 0 <= i < Z.of_nat n -> f i = false) -> lead n f = Z.of_nat n.
Proof.
  intros Hz. rewrite <- (Nat.add_0_r n) at 1. rewrite lead_zero by done. simpl. lia.
Qed.

(** The last step of both searches looks at a single bit. *)
Lemma count_last mask k cnt v f :
  0 <= k -> mask = 2 ^ k -> f 0 = Z.testbit v k ->
  fst (count_step mask 1 id (cnt, v)) = cnt + lead 1 f.
Proof.
  intros Hk -> Hf. simpl. rewrite has_bits_pow2, Hf by done.
  destruct (Z.testbit v k); simpl; lia.
Qed.

(** Runs the innermost step of a search by the given lemma about it. *)
Ltac search_step lem n :=
  match goal with
  | |- context [count_step ?mask ?k ?next (?cnt, ?v)] =>
      let H := fresh "Hs" in
      let c := fresh "c" in
      let v' := fresh "v" in
      pose proof (lem n mask k cnt v eq_refl eq_refl) as H;
      try specialize (H ltac:(lia));
      destruct (count_step mask k next (cnt, v)) as [c v']
  end.

Lemma ctz32_portable_lead v : ctz32_portable v = lead 32 (Z.testbit v).
Proof.
  unfold ctz32_portable.
  search_step ctz_step 16%nat. search_step ctz_step 8%nat. search_step ctz_step 4%nat.
  search_step ctz_step 2%nat. search_step ctz_step 1%nat.
  rewrite (count_last _ 0 c3 v4 (Z.testbit v4)) by done. cbn [Nat.add] in *. lia.
Qed.

Lemma clz32_portable_lead v :
  clz32_portable v = lead 32 (fun i => Z.testbit v (31 - i)).
Proof.
  unfold clz32_portable.
  search_step clz_step 16%nat. search_step clz_step 8%nat. search_step clz_step 4%nat.
  search_step clz_step 2%nat. search_step clz_step 1%nat.
  rewrite (count_last _ 31 c3 v4 (fun i => Z.testbit v4 (31 - i)))
    by (lia || done).
  cbn [Nat.add] in *. lia.
Qed.

(** The builtin versions are the counts, the special case of zero included. *)
Lemma ctz64_lead v : ctz64 v = lead 64 (Z.testbit v).
Proof.
  unfold ctz64. zcase; [|done]. subst. symmetry. apply lead_all. intros. apply Z.testbit_0_l.
Qed.

Lemma clz64_lead v : clz64 v = lead 64 (fun i => Z.testbit v (63 - i)).
Proof.
  unfold clz64. zcase; [|done]. subst. symmetry. apply lead_all. intros. apply Z.testbit_0_l.
Qed.

Lemma ctz32_lead v : ctz32 v = lead 32 (Z.testbit v).
Proof.
  unfold ctz32. zcase; [|done]. subst. symmetry. apply lead_all. intros. apply Z.testbit_0_l.
Qed.

Lemma clz32_lead v : clz32 v = lead 32 (fun i => Z.testbit v (31 - i)).
Proof.
  unfold clz32. zcase; [|done]. subst. symmetry. apply lead_all. intros. apply Z.testbit_0_l.
Qed.

Lemma ctzl_spec c :
  0 < c < 2 ^ 64 ->
  0 <= ctzl c < 64 /\ Z.testbit c (ctzl c) = true /\
  (forall j, 0 <= j < ctzl c -> Z.testbit c j = false).
Proof.
  intros Hc. unfold ctzl. rewrite ctz64_lead.
  destruct (lead_spec 64 (Z.testbit c)) as (H1 & H2 & H3).
  assert (lead 64 (Z.testbit c) < 64).
  { destruct (decide (lead 64 (Z.testbit c) < 64)); [done|]. exfalso.
    assert (Z.testbit c (Z.log2 c) = true) as Hb by (apply Z.bit_log2; lia).
    pose proof (Z.log2_nonneg c).
    assert (Z.log2 c < 64) by (apply Z.log2_lt_pow2; lia).
    rewrite H2 in Hb by lia. done. }
  split; [lia|]. split; [apply H3; lia|done].
Qed.

Lemma ctz64_portable_lead v : ctz64_portable v = lead 64 (Z.testbit v).
Proof.
  unfold ctz64_portable.
  destruct (Z.eqb_spec (u32 v) 0) as [E|E]; rewrite ctz32_portable_lead.
  - rewrite (lead_zero 32 32).
    + f_equal. apply lead_ext. intros i Hi. autorewrite with bits.
      repeat (zcase; try lia). done.
    + intros i Hi. apply (f_equal (fun x => Z.testbit x i)) in E.
      rewrite testbit_wrap, Z.testbit_0_l in E by lia.
      destruct (Z.ltb_spec i 32); [done|lia].
  - assert (0 < u32 v) as Hpos by (pose proof (wrap_range 32 v); lia).
    apply Z.bit_log2 in Hpos. rewrite testbit_wrap in Hpos by lia. zbool.
    pose proof (Z.log2_nonneg (u32 v)).
    rewrite (lead_hit 32 32 _ (Z.log2 (u32 v))) by (done || lia).
    rewrite Z.add_0_l. apply lead_ext. intros i Hi. autorewrite with bits. zcase; [done|lia].
Qed.

Lemma clz64_portable_lead v :
  0 <= v < 2 ^ 64 -> clz64_portable v = lead 64 (fun i => Z.testbit v (63 - i)).
Proof.
  intros Hv. unfold clz64_portable.
  destruct (Z.eqb_spec (v >> 32) 0) as [E|E]; rewrite clz32_portable_lead.
  - rewrite (lead_zero 32 32).
    + f_equal. apply lead_ext. intros i Hi. autorewrite with bits. zcase; [|lia].
      simpl. f_equal. lia.
    + intros i Hi. apply (f_equal (fun x => Z.testbit x (31 - i))) in E.
      rewrite testbit_shiftr, Z.testbit_0_l in E. destruct (Z.leb_spec 0 (31 - i)); [|lia].
      rewrite <- E. simpl. f_equal. lia.
  - assert (0 < v >> 32) as Hpos.
    { assert (0 <= v >> 32) by (apply Z.shiftr_nonneg; lia). lia. }
    apply Z.bit_log2 in Hpos. rewrite testbit_shiftr in Hpos. zbool.
    assert (Z.log2 (v >> 32) < 32).
    { destruct (decide (Z.log2 (v >> 32) < 32)); [done|].
      rewrite (testbit_high 64) in H0 by lia. done. }
    rewrite (lead_hit 32 32 _ (31 - Z.log2 (v >> 32))).
    + rewrite Z.add_0_l. apply lead_ext. intros i Hi. autorewrite with bits. repeat (zcase; [|lia]).
      simpl. f_equal. lia.
    + lia.
    + rewrite <- H0. f_equal. lia.
Qed.

(** *** Population counts *)

Lemma testbit_split w a b i :
  0 <= w -> 0 <= a < 2 ^ w -> 0 <= i ->
  Z.testbit (a + 2 ^ w * b) i = if i <? w then Z.testbit a i else Z.testbit b (i - w).
Proof.
  intros Hw Ha Hi. zcase.
  - rewrite <- (Z.mod_pow2_bits_low _ w) by done.
    rewrite (Z.mul_comm (2 ^ w)), Z_mod_plus_full, Z.mod_small by done. done.
  - rewrite <- (Z.sub_add w i) at 1. rewrite <- Z.div_pow2_bits by lia.
    rewrite (Z.mul_comm (2 ^ w)), Z_div_plus_full, Z.div_small by lia. done.
Qed.

Lemma land_split w a b c d :
  0 <= w -> 0 <= a < 2 ^ w -> 0 <= c < 2 ^ w ->
  (a + 2 ^ w * b) &&& (c + 2 ^ w * d) = (a &&& c) + 2 ^ w * (b &&& d).
Proof.
  intros Hw Ha Hc. pose proof (land_range_l w a c Hw Ha). apply Z.bits_inj'. intros i Hi.
  rewrite Z.land_spec, !testbit_split, !Z.land_spec by done. by zcase.
Qed.

(** The sum of the [n] lowest [k]-bit fields of [v]. *)
Fixpoint fsum (k : Z) (n : nat) (v : Z) : Z :=
  match n with
  | O => 0
  | S n => v mod 2 ^ k + fsum k n (v / 2 ^ k)
  end.

(** The mask of every other of [2n] fields of [k] bits. *)
Fixpoint fmask (k : Z) (n : nat) : Z :=
  match n with
  | O => 0
  | S n => 2 ^ k - 1 + 2 ^ (2 * k) * fmask k n
  end.

Lemma land_fmask k n x :
  0 < k -> x &&& fmask k (S n) = x mod 2 ^ k + 2 ^ (2 * k) * ((x / 2 ^ (2 * k)) &&& fmask k n).
Proof.
  intros Hk. cbn [fmask].
  assert (2 ^ k <= 2 ^ (2 * k)) by (apply Z.pow_le_mono_r; lia).
  assert (0 < 2 ^ k) by lia.
  pose proof (Z.mod_pos_bound x (2 ^ k) ltac:(lia)).
  apply Z.bits_inj'. intros i Hi.
  rewrite Z.land_spec, !testbit_split by lia. zcase.
  - replace (2 ^ k - 1) with (Z.ones k) by (rewrite Z.ones_equiv; lia).
    rewrite testbit_ones by lia. fold (wrap k x). rewrite testbit_wrap by lia.
    destruct (Z.leb_spec 0 i); [|lia]. apply andb_comm.
  - rewrite Z.land_spec, Z.div_pow2_bits by lia. do 2 f_equal. lia.
Qed.

(** A step of the count keeps the sum of the fields. *)
Lemma fsum_step k n v :
  0 < k -> 0 <= v ->
  let s := (v &&& fmask k n) + ((v / 2 ^ k) &&& fmask k n) in
  fsum (2 * k) n s = fsum k (2 * n) v /\ 0 <= s < 2 ^ (2 * k * Z.of_nat n).
Proof.
  intros Hk. revert v; induction n as [|n IH]; intros v Hv s.
  - subst s. simpl. rewrite Z.land_0_r, Z.land_0_r, Z.mul_0_r. done.
  - replace (2 * S n)%nat with (S (S (2 * n))) by lia. cbn [fsum].
    assert (0 < 2 ^ k) by lia.
    assert (2 ^ (2 * k) = 2 ^ k * 2 ^ k) as Hp
      by (rewrite <- Z.pow_add_r by lia; f_equal; lia).
    assert (2 <= 2 ^ k).
    { change 2 with (2 ^ 1) at 1. apply Z.pow_le_mono_r; lia. }
    destruct (IH (v / 2 ^ (2 * k))) as [IH1 IH2]; [apply Z.div_pos; lia|].
    set (t := _ + _) in IH1, IH2.
    pose proof (Z.mod_pos_bound v (2 ^ k) ltac:(lia)).
    pose proof (Z.mod_pos_bound (v / 2 ^ k) (2 ^ k) ltac:(lia)).
    assert (s = v mod 2 ^ k + (v / 2 ^ k) mod 2 ^ k + t * 2 ^ (2 * k)) as ->.
    { subst s t. rewrite !land_fmask by done.
      assert (v / 2 ^ k / 2 ^ (2 * k) = v / 2 ^ (2 * k) / 2 ^ k) as ->
        by (rewrite !Z.div_div, (Z.mul_comm (2 ^ k)) by lia; done).
      lia. }
    set (ab := v mod 2 ^ k + (v / 2 ^ k) mod 2 ^ k).
    assert (0 <= ab < 2 ^ (2 * k)) by (subst ab; nia).
    rewrite Z_mod_plus_full, Z_div_plus_full, (Z.mod_small ab), (Z.div_small ab) by lia.
    rewrite Z.add_0_l, IH1, Hp, <- Z.div_div by lia. split; [lia|].
    rewrite Nat2Z.inj_succ, Z.mul_succ_r, Z.pow_add_r by lia. nia.
Qed.

Lemma pop_step_spec w k n m v :
  0 < k -> 0 <= v -> m = fmask k n -> w = 2 * k * Z.of_nat n ->
  fsum (2 * k) n (pop_step w k m v) = fsum k (2 * n) v /\ 0 <= pop_step w k m v < 2 ^ w.
Proof.
  intros Hk Hv -> ->. unfold pop_step. rewrite Z.shiftr_div_pow2 by lia.
  destruct (fsum_step k n v Hk Hv) as [H1 H2]. rewrite wrap_small by done. done.
Qed.

Lemma fsum_popcount n v : 0 <= v -> fsum 1 n v = popcount n (Z.testbit v).
Proof.
  revert v; induction n as [|n IH]; intros v Hv; [done|]. cbn [fsum popcount].
  rewrite IH by (apply Z.div_pos; lia). f_equal.
  - rewrite Z.bit0_mod. destruct (Z.testbit v 0); done.
  - apply popcount_ext. intros i Hi. change (2 ^ 1) with 2. rewrite Z.div2_bits; [done|lia].
Qed.

Ltac pop_with k n :=
  match goal with
  | |- context [pop_step ?w k ?m ?v] =>
      let H1 := fresh "Hf" in
      let H2 := fresh "Hr" in
      let v' := fresh "v" in
      destruct (pop_step_spec w k n m v) as [H1 H2];
      [lia | lia | reflexivity | reflexivity | set (v' := pop_step w k m v) in *; clearbody v']
  end.

(** The sums of the steps agree. *)
Ltac pop_done :=
  repeat match goal with
  | H : fsum ?k ?n ?v = fsum _ _ _ |- fsum ?k' ?n' ?v = _ =>
      change (fsum k' n' v) with (fsum k n v); rewrite H
  end; reflexivity.

Lemma fsum_one w v : 0 <= v < 2 ^ w -> fsum w 1 v = v.
Proof. intros. simpl. rewrite Z.mod_small by done. lia. Qed.

Lemma ctpop64_portable_spec v : 0 <= v < 2 ^ 64 -> ctpop64_portable v = ctpop64 v.
Proof.
  intros Hv. unfold ctpop64, ctpop64_portable. rewrite <- fsum_popcount by lia. cbv zeta.
  pop_with 1 32%nat. pop_with 2 16%nat. pop_with 4 8%nat. pop_with 8 4%nat.
  pop_with 16 2%nat. pop_with 32 1%nat. rewrite <- (fsum_one 64 v5) by done.
  pop_done.
Qed.

Lemma ctpop32_portable_spec v : 0 <= v < 2 ^ 32 -> ctpop32_portable v = ctpop32 v.
Proof.
  intros Hv. unfold ctpop32, ctpop32_portable. rewrite <- fsum_popcount by lia. cbv zeta.
  pop_with 1 16%nat. pop_with 2 8%nat. pop_with 4 4%nat. pop_with 8 2%nat.
  pop_with 16 1%nat. rewrite <- (fsum_one 32 v4) by done.
  pop_done.
Qed.

Lemma ctpop16_portable_spec v : 0 <= v < 2 ^ 16 -> ctpop16_portable v = ctpop16 v.
Proof.
  intros Hv. unfold ctpop16, ctpop16_portable. rewrite <- fsum_popcount by lia. cbv zeta.
  pop_with 1 8%nat. pop_with 2 4%nat. pop_with 4 2%nat. pop_with 8 1%nat.
  rewrite <- (fsum_one 16 v3) by done.
  pop_done.
Qed.

Lemma ctpop8_portable_spec v : 0 <= v < 2 ^ 8 -> ctpop8_portable v = ctpop8 v.
Proof.
  intros Hv. unfold ctpop8, ctpop8_portable. rewrite <- fsum_popcount by lia. cbv zeta.
  pop_with 1 4%nat. pop_with 2 2%nat. pop_with 4 1%nat. rewrite <- (fsum_one 8 v2) by done.
  pop_done.
Qed.

(** ** Multiplication and division: lemmas *)

Lemma ll_split x : ll (ll_low x) (ll_high x) = x.
Proof.
  unfold ll, ll_low, ll_high, wrap. rewrite Z.shiftr_div_pow2 by lia.
  rewrite (Z.div_mod x (2 ^ 32)) at 3 by lia. lia.
Qed.

Lemma ll_low_range x : 0 <= ll_low x < 2 ^ 32.
Proof. apply wrap_range. lia. Qed.

Lemma ll_high_range x : 0 <= x < 2 ^ 64 -> 0 <= ll_high x < 2 ^ 32.
Proof. intros. unfold ll_high. rewrite Z.shiftr_div_pow2 by lia. mlia. Qed.

Lemma ll_fields l h : 0 <= l < 2 ^ 32 -> ll_low (ll l h) = l /\ ll_high (ll l h) = h.
Proof.
  intros. unfold ll, ll_low, ll_high, wrap. rewrite Z.shiftr_div_pow2 by lia. mlia.
Qed.

(** The product of the halves and its own halves. *)
Lemma half_product x y :
  0 <= x < 2 ^ 32 -> 0 <= y < 2 ^ 32 ->
  exists l h, x * y = l + 2 ^ 32 * h /\ 0 <= l < 2 ^ 32 /\ 0 <= h <= 2 ^ 32 - 2 /\
    ll_low (u64 (x * y)) = l /\ ll_high (u64 (x * y)) = h.
Proof.
  intros Hx Hy. assert (0 <= x * y <= (2 ^ 32 - 1) * (2 ^ 32 - 1)) by nia.
  rewrite (wrap_small 64 (x * y)) by lia. set (p := x * y) in *.
  exists (ll_low p), (ll_high p).
  pose proof (ll_split p). unfold ll in *. pose proof (ll_low_range p).
  pose proof (ll_high_range p ltac:(lia)). split_and!; lia.
Qed.

Lemma mul64_spec a b :
  0 <= a < 2 ^ 64 -> 0 <= b < 2 ^ 64 ->
  mul64 a b = (u64 (a * b), a * b / 2 ^ 64).
Proof.
  intros Ha Hb. unfold mul64.
  pose proof (ll_split a) as Ea. pose proof (ll_split b) as Eb.
  pose proof (ll_low_range a) as Hal. pose proof (ll_low_range b) as Hbl.
  pose proof (ll_high_range a Ha) as Hah. pose proof (ll_high_range b Hb) as Hbh.
  set (al := ll_low a) in *. set (ah := ll_high a) in *.
  set (bl := ll_low b) in *. set (bh := ll_high b) in *.
  destruct (half_product al bl Hal Hbl) as (l1 & h1 & E1 & ? & ? & -> & ->).
  destruct (half_product al bh Hal Hbh) as (l2 & h2 & E2 & ? & ? & -> & ->).
  destruct (half_product ah bl Hah Hbl) as (l3 & h3 & E3 & ? & ? & -> & ->).
  destruct (half_product ah bh Hah Hbh) as (l4 & h4 & E4 & ? & ? & -> & ->).
  unfold ll in Ea, Eb.
  assert (a * b = l1 + 2 ^ 32 * (h1 + l2 + l3) + 2 ^ 64 * (h2 + h3 + l4) + 2 ^ 96 * h4) as E
    by (rewrite <- Ea, <- Eb; change (2 ^ 96) with (2 ^ 32 * 2 ^ 32 * 2 ^ 32);
        change (2 ^ 64) with (2 ^ 32 * 2 ^ 32); lia).
  clearbody al ah bl bh. clear E1 E2 E3 E4 Ea Eb.
  rewrite (wrap_small 64 (h1 + l2 + l3)) by lia. set (c1 := h1 + l2 + l3) in *.
  rewrite Z.shiftr_div_pow2 by lia. 
  rewrite (wrap_small 64 (c1 / 2 ^ 32 + h2 + h3 + l4)) by mlia.
  set (c2 := c1 / 2 ^ 32 + h2 + h3 + l4).
  destruct (ll_fields (u32 c2) h4) as [-> ->]; [apply wrap_range; lia|].
  rewrite Z.shiftr_div_pow2 by lia. unfold ll.
  assert (0 <= a * b < 2 ^ 128) by nia.
  f_equal; rewrite E; unfold wrap in *; subst c2; mlia.
Qed.

Lemma mulu64_spec a b :
  0 <= a < 2 ^ 64 -> 0 <= b < 2 ^ 64 -> mulu64 a b = (u64 (a * b), a * b / 2 ^ 64).
Proof.
  intros Ha Hb. unfold mulu64. assert (0 <= a * b < 2 ^ 128) by nia.
  rewrite (wrap_small 128) by done. f_equal. rewrite Z.shiftr_div_pow2 by lia.
  apply wrap_small. mlia.
Qed.

Lemma muls64_spec a b :
  - 2 ^ 63 <= a < 2 ^ 63 -> - 2 ^ 63 <= b < 2 ^ 63 ->
  muls64 a b = (u64 (a * b), u64 (a * b / 2 ^ 64)).
Proof.
  intros Ha Hb. unfold muls64.
  rewrite (sext_small 128) by (change (2 ^ (128 - 1)) with (2 ^ 63 * 2 ^ 64); nia).
  by rewrite Z.shiftr_div_pow2 by lia.
Qed.

Lemma u64_of_signed a : - 2 ^ 63 <= a < 2 ^ 63 -> u64 a = a + 2 ^ 64 * b2z (a <? 0).
Proof.
  intros. unfold wrap. destruct (Z.ltb_spec a 0); simpl b2z.
  - symmetry. apply (Z.mod_unique a (2 ^ 64) (-1)); lia.
  - rewrite Z.mod_small; lia.
Qed.

Lemma mod_plus_multiple x y m k : 0 < m -> x = y + m * k -> x mod m = y mod m.
Proof. intros ? ->. by rewrite (Z.mul_comm m), Z_mod_plus_full. Qed.

Lemma muls64_portable_spec a b :
  - 2 ^ 63 <= a < 2 ^ 63 -> - 2 ^ 63 <= b < 2 ^ 63 ->
  muls64_portable a b = (u64 (a * b), u64 (a * b / 2 ^ 64)).
Proof.
  intros Ha Hb. unfold muls64_portable.
  pose proof (wrap_range 64 a ltac:(lia)) as HA. pose proof (wrap_range 64 b ltac:(lia)) as HB.
  rewrite mul64_spec by done. revert HA HB.
  rewrite (u64_of_signed a), (u64_of_signed b) by done. intros HA HB.
  set (x := b2z (a <? 0)) in *. set (y := b2z (b <? 0)) in *.
  assert ((a + 2 ^ 64 * x) * (b + 2 ^ 64 * y) =
          a * b + (x * b + y * a + 2 ^ 64 * (x * y)) * 2 ^ 64) as E by lia.
  assert (0 <= (a + 2 ^ 64 * x) * (b + 2 ^ 64 * y) / 2 ^ 64 < 2 ^ 64) as Hr.
  { assert (0 <= (a + 2 ^ 64 * x) * (b + 2 ^ 64 * y) < 2 ^ 64 * 2 ^ 64) by nia.
    split; [apply Z.div_pos; lia | apply Z.div_lt_upper_bound; lia]. }
  f_equal.
  - rewrite E. unfold wrap. by rewrite Z_mod_plus_full.
  - revert Hr. rewrite E, Z_div_plus_full by lia. intros Hr.
    rewrite <- (wrap_small 64 _ Hr). subst x y. unfold wrap.
    destruct (Z.ltb_spec b 0), (Z.ltb_spec a 0); simpl b2z;
      rewrite ?Zminus_mod_idemp_l.
    all: match goal with |- ?l mod _ = ?r mod _ =>
           apply (mod_plus_multiple l r (2 ^ 64) ((l - r) / 2 ^ 64)); mlia end.
Qed.

(** A disjunction with one bit below the other operand is a sum. *)
Lemma lor_low x c : 0 <= c <= 1 -> (2 * x) ||| c = 2 * x + c.
Proof.
  intros Hc. rewrite <- Z.add_lor_land.
  assert ((2 * x) &&& c = 0) as ->; [|lia].
  apply Z.bits_inj'. intros i Hi. rewrite Z.land_spec, Z.testbit_0_l.
  destruct (decide (i = 0)) as [->|].
  - by rewrite Z.testbit_even_0.
  - rewrite (testbit_high 1 c) by lia. apply andb_false_r.
Qed.

Lemma u64_double_lor x c :
  0 <= x -> 0 <= c <= 1 -> u64 (x << 1) ||| c = u64 (2 * x) + c.
Proof.
  intros Hx Hc. rewrite Z.shiftl_mul_pow2 by lia. unfold wrap.
  change (2 ^ 64) with (2 * 2 ^ 63). change (2 ^ 1) with 2. rewrite (Z.mul_comm x 2).
  rewrite Z.mul_mod_distr_l by lia. apply lor_low. done.
Qed.

(** One round of long division: a quotient bit is shifted in. *)
Lemma div_round_spec d lo hi :
  0 < d < 2 ^ 64 -> 0 <= lo < 2 ^ 64 -> 0 <= hi < d ->
  exists q, 0 <= q <= 1 /\
    let '(lo', hi') := div_round d (lo, hi) in
    0 <= lo' < 2 ^ 64 /\ 0 <= hi' < d /\
    hi' * 2 ^ 64 + lo' = 2 * (hi * 2 ^ 64 + lo) - q * (d * 2 ^ 64 - 1).
Proof.
  intros Hd Hlo Hhi. unfold div_round.
  rewrite !Z.shiftr_div_pow2 by lia.
  rewrite (u64_double_lor hi) by mlia.
  set (top := lo / 2 ^ 63). set (full := 2 * hi + top).
  assert (0 <= top <= 1) by (subst top; mlia).
  assert (0 <= full < 2 * d) by (subst full; lia).
  assert (u64 (2 * hi) + top = full - 2 ^ 64 * (hi / 2 ^ 63)) as ->
    by (subst full; unfold wrap; mlia).
  assert (u64 (2 * lo) = 2 * lo - 2 ^ 64 * top) as Hl
    by (subst top; unfold wrap; mlia).
  assert (0 <= hi / 2 ^ 63 <= 1) by mlia.
  assert (2 * lo - 2 ^ 64 * top < 2 ^ 64 - 1) by (subst top; mlia).
  assert (0 <= 2 * lo - 2 ^ 64 * top) by (subst top; mlia).
  assert (0 <= full - 2 ^ 64 * (hi / 2 ^ 63) < 2 ^ 64) by (subst full top; mlia).
  destruct (decide (d <= full)).
  - exists 1. split; [lia|].
    replace (negb (hi / 2 ^ 63 =? 0) || (d <=? full - 2 ^ 64 * (hi / 2 ^ 63))) with true.
    2:{ symmetry. destruct (Z.eqb_spec (hi / 2 ^ 63) 0); [|done]. simpl.
        apply Z.leb_le. lia. }
    rewrite u64_double_lor, Hl by lia.
    assert (u64 (full - 2 ^ 64 * (hi / 2 ^ 63) - d) = full - d) as ->.
    { unfold wrap. rewrite (mod_plus_multiple _ (full - d) _ (- (hi / 2 ^ 63))) by lia.
      apply Z.mod_small. lia. }
    split_and!; subst full; lia.
  - exists 0. split; [lia|].
    assert (hi / 2 ^ 63 = 0) as -> by mlia. rewrite Z.mul_0_r, Z.sub_0_r. simpl negb.
    destruct (Z.leb_spec d full); [lia|]. simpl orb. cbv iota.
    rewrite u64_double_lor, Hl by lia. split_and!; subst full; lia.
Qed.

Lemma div_rounds d lo hi n :
  0 < d < 2 ^ 64 -> 0 <= lo < 2 ^ 64 -> 0 <= hi < d ->
  exists q, 0 <= q < 2 ^ Z.of_nat n /\
    let '(lo', hi') := Nat.iter n (div_round d) (lo, hi) in
    0 <= lo' < 2 ^ 64 /\ 0 <= hi' < d /\
    hi' * 2 ^ 64 + lo' = 2 ^ Z.of_nat n * (hi * 2 ^ 64 + lo) - q * (d * 2 ^ 64 - 1).
Proof.
  intros Hd Hlo Hhi. induction n as [|n (q & Hq & IH)].
  - exists 0. simpl. lia.
  - rewrite Nat2Z.inj_succ, Z.pow_succ_r by lia. rewrite Nat.iter_succ.
    destruct (Nat.iter n _ _) as [lo1 hi1]. destruct IH as (H1 & H2 & E).
    destruct (div_round_spec d lo1 hi1) as (b & Hb & Hs); [done..|].
    exists (2 * q + b). split; [lia|]. destruct (div_round d (lo1, hi1)) as [lo2 hi2].
    destruct Hs as (? & ? & ->). split; [done|]. split; [done|]. rewrite E. lia.
Qed.

Lemma div_rounds_64 lo hi d :
  0 < d < 2 ^ 64 -> 0 <= lo < 2 ^ 64 -> 0 <= hi < d ->
  Nat.iter 64 (div_round d) (lo, hi) = ((hi * 2 ^ 64 + lo) / d, (hi * 2 ^ 64 + lo) mod d).
Proof.
  intros Hd Hlo Hhi. destruct (div_rounds d lo hi 64) as (q & Hq & Hs); [done..|].
  destruct (Nat.iter 64 _ _) as [lo' hi']. destruct Hs as (H1 & H2 & E).
  change (2 ^ Z.of_nat 64) with (2 ^ 64) in *.
  assert (lo' = q) as ->.
  { rewrite <- (Z.mod_small lo' (2 ^ 64)), <- (Z.mod_small q (2 ^ 64)) by done.
    apply (mod_plus_multiple _ _ _ (hi * 2 ^ 64 + lo - q * d - hi')); lia. }
  assert (hi * 2 ^ 64 + lo = d * q + hi') as -> by lia.
  rewrite Z.mul_comm, Z.div_add_l, Z.div_small, (Z.add_comm _ hi'), Z_mod_plus_full by lia.
  rewrite Z.mod_small by lia. f_equal. lia.
Qed.

Lemma divu128_portable_spec lo hi d :
  0 < d < 2 ^ 64 -> 0 <= lo < 2 ^ 64 -> 0 <= hi < d ->
  divu128_portable lo hi d =
    (0, ((hi * 2 ^ 64 + lo) / d, (hi * 2 ^ 64 + lo) mod d)).
Proof.
  intros Hd Hlo Hhi. unfold divu128_portable.
  destruct (Z.eqb_spec d 0); [lia|]. destruct (Z.eqb_spec hi 0) as [->|]; [done|].
  destruct (Z.ltb_spec d hi); [lia|]. by rewrite div_rounds_64.
Qed.

(** The two halves combine into the 128-bit dividend. *)
Lemma combine_halves lo hi :
  0 <= lo < 2 ^ 64 -> (hi << 64) ||| lo = hi * 2 ^ 64 + lo.
Proof.
  intros Hlo. rewrite <- Z.shiftl_mul_pow2, <- Z.add_lor_land by lia.
  assert ((hi << 64) &&& lo = 0) as ->; [|lia]. bits_ext i Hi. destruct (decide (i < 64)).
  - rewrite (Z.testbit_neg_r hi) by lia. by rewrite andb_false_r.
  - rewrite (testbit_high 64 lo) by lia. apply andb_false_r.
Qed.

(** The bits of [w] from position [k] on. *)
Definition hi_bits (w k : Z) : Z := Z.ldiff w (Z.ones k).

Lemma testbit_hi_bits w k j :
  0 <= k -> 0 <= j -> Z.testbit (hi_bits w k) j = Z.testbit w j && (k <=? j).
Proof.
  intros Hk Hj. unfold hi_bits. rewrite Z.ldiff_spec, testbit_ones by done. f_equal.
  repeat (zcase; simpl); done || lia.
Qed.

(** [c & (c - 1)] clears the lowest set bit. *)
Lemma clear_lowest c :
  0 < c < 2 ^ 64 -> c &&& u64 (c - 1) = hi_bits c (ctzl c + 1).
Proof.
  intros Hc. destruct (ctzl_spec c Hc) as (Hb & Hbit & Hlow). set (b := ctzl c) in *.
  rewrite (wrap_small 64 (c - 1)) by lia.
  assert (c = 2 ^ b * (2 * (c / 2 ^ b / 2) + 1)) as E.
  { assert (c mod 2 ^ b = 0) as Hm.
    { fold (wrap b c). apply Z.bits_inj'. intros j Hj. rewrite testbit_wrap, Z.testbit_0_l by lia.
      zcase; [|done]. apply Hlow. lia. }
    assert ((c / 2 ^ b) mod 2 = 1) as Ho.
    { rewrite <- Z.bit0_mod, Z.div_pow2_bits, Z.add_0_l, Hbit by lia. done. }
    rewrite (Z.div_mod c (2 ^ b)) at 1 by lia. mlia. }
  set (m := c / 2 ^ b / 2) in *.
  assert (2 ^ (b + 1) = 2 * 2 ^ b) as Hp by (rewrite Z.pow_add_r by lia; lia).
  assert (0 < 2 ^ b) by lia.
  apply Z.bits_inj'. intros j Hj. rewrite testbit_hi_bits, Z.land_spec by lia.
  destruct (decide (j < b)) as [|Hjb]; [by rewrite Hlow by lia|].
  replace (c - 1) with ((2 ^ b - 1) + 2 ^ (b + 1) * m) by lia.
  rewrite testbit_split by lia. destruct (Z.ltb_spec j (b + 1)), (Z.leb_spec (b + 1) j); try lia.
  - rewrite (testbit_high b (2 ^ b - 1)) by lia. done.
  - replace c with (2 ^ b + 2 ^ (b + 1) * m) by lia. rewrite testbit_split by lia.
    destruct (Z.ltb_spec j (b + 1)); [lia|]. by destruct (Z.testbit m _).
Qed.

(** ** Properties *)

(** The portable bodies of the leading zero, trailing zero and population
    counts compute what the builtins they replace are documented to compute,
    at every width and for zero too. *)
Lemma counts_portable v :
  0 <= v < 2 ^ 64 ->
  clz64_portable v = clz64 v /\ ctz64_portable v = ctz64 v /\
  ctpop64_portable v = ctpop64 v /\
  clz32_portable (u32 v) = clz32 (u32 v) /\ ctz32_portable (u32 v) = ctz32 (u32 v) /\
  ctpop32_portable (u32 v) = ctpop32 (u32 v) /\
  ctpop16_portable (u16 v) = ctpop16 (u16 v) /\ ctpop8_portable (u8 v) = ctpop8 (u8 v).
Proof.
  intros Hv.
  rewrite clz64_portable_lead, clz64_lead, ctz64_portable_lead, ctz64_lead,
    clz32_portable_lead, clz32_lead, ctz32_portable_lead, ctz32_lead by done.
  split_and!; try done.
  - by apply ctpop64_portable_spec.
  - apply ctpop32_portable_spec, wrap_range. lia.
  - apply ctpop16_portable_spec, wrap_range. lia.
  - apply ctpop8_portable_spec, wrap_range. lia.
Qed.

Lemma counts_portable_witness :
  clz64_portable 0x00F0000000001000 = 8 /\ ctz64_portable 0x00F0000000001000 = 12 /\
  ctpop64_portable 0x00F0000000001000 = 5.
Proof.
  destruct (counts_portable 0x00F0000000001000) as (-> & -> & -> & _); [lia|].
  vm_compute. done.
Defined.

(** The multiplication built from 32-bit halves gives the two halves of
    the exact 128-bit product, for unsigned and for signed operands, and
    agrees with the one on 128-bit integers. *)
Lemma mul_portable_correct a b :
  (0 <= a < 2 ^ 64 /\ 0 <= b < 2 ^ 64 ->
   mulu64_portable a b = mulu64 a b /\
   fst (mulu64_portable a b) + 2 ^ 64 * snd (mulu64_portable a b) = a * b) /\
  (- 2 ^ 63 <= a < 2 ^ 63 /\ - 2 ^ 63 <= b < 2 ^ 63 ->
   muls64_portable a b = muls64 a b /\
   fst (muls64_portable a b) + 2 ^ 64 * s64 (snd (muls64_portable a b)) = a * b).
Proof.
  split; intros [Ha Hb].
  - unfold mulu64_portable. rewrite mulu64_spec, mul64_spec by done. split; [done|].
    cbn [fst snd]. unfold wrap. mlia.
  - rewrite muls64_spec, muls64_portable_spec by done. split; [done|]. cbn [fst snd].
    assert (- 2 ^ 63 <= a * b / 2 ^ 64 < 2 ^ 63).
    { split; [apply Z.div_le_lower_bound|apply Z.div_lt_upper_bound]; nia. }
    assert (s64 (u64 (a * b / 2 ^ 64)) = a * b / 2 ^ 64) as ->.
    { unfold sext. rewrite wrap_wrap. fold (sext 64 (a * b / 2 ^ 64)).
      apply sext_small; [lia|done]. }
    unfold wrap. mlia.
Qed.

Lemma mul_portable_correct_witness :
  muls64_portable (-3) (2 ^ 62) = muls64 (-3) (2 ^ 62) /\
  mulu64_portable (2 ^ 64 - 1) (2 ^ 64 - 1) = (1, 2 ^ 64 - 2).
Proof.
  split.
  - apply (mul_portable_correct (-3) (2 ^ 62)). lia.
  - destruct (proj1 (mul_portable_correct (2 ^ 64 - 1) (2 ^ 64 - 1))) as [-> _]; [lia|].
    vm_compute. done.
Defined.

Lemma divu128_portable_other plow phigh divisor :
  0 <= plow < 2 ^ 64 -> 0 <= phigh < 2 ^ 64 -> 0 <= divisor < 2 ^ 64 ->
  phigh <> divisor ->
  fst (divu128_portable plow phigh divisor) = fst (divu128 plow phigh divisor) /\
  (fst (divu128 plow phigh divisor) = 0 ->
   divu128_portable plow phigh divisor = divu128 plow phigh divisor /\
   snd (divu128 plow phigh divisor) =
     ((phigh * 2 ^ 64 + plow) / divisor, (phigh * 2 ^ 64 + plow) mod divisor)).
Proof.
  intros Hlo Hhi Hd Hne.
  pose proof (combine_halves plow phigh Hlo) as HD.
  destruct (decide (divisor = 0)) as [->|].
  { unfold divu128_portable, divu128. simpl. done. }
  unfold divu128. rewrite HD. destruct (Z.eqb_spec divisor 0); [done|]. cbn [fst snd].
  destruct (decide (phigh < divisor)).
  - rewrite divu128_portable_spec by lia. cbn [fst].
    assert (0 <= (phigh * 2 ^ 64 + plow) / divisor < 2 ^ 64).
    { split; [apply Z.div_pos|apply Z.div_lt_upper_bound]; lia. }
    pose proof (Z.mod_pos_bound (phigh * 2 ^ 64 + plow) divisor ltac:(lia)).
    rewrite !wrap_small by lia. destruct (Z.ltb_spec (2 ^ 64 - 1)
      ((phigh * 2 ^ 64 + plow) / divisor)); [lia|]. done.
  - assert (2 ^ 64 <= (phigh * 2 ^ 64 + plow) / divisor)
      by (apply Z.div_le_lower_bound; lia).
    destruct (Z.ltb_spec (2 ^ 64 - 1) ((phigh * 2 ^ 64 + plow) / divisor)); [|lia].
    unfold divu128_portable. destruct (Z.eqb_spec divisor 0), (Z.eqb_spec phigh 0),
      (Z.ltb_spec divisor phigh); try lia. done.
Qed.

Lemma divu128_portable_same plow divisor :
  0 <= plow < 2 ^ 64 -> 0 < divisor < 2 ^ 64 ->
  2 ^ 64 <= (divisor * 2 ^ 64 + plow) / divisor /\
  fst (divu128 plow divisor divisor) = 1 /\
  fst (divu128_portable plow divisor divisor) = 0.
Proof.
  intros Hlo Hd.
  assert (2 ^ 64 <= (divisor * 2 ^ 64 + plow) / divisor)
    by (apply Z.div_le_lower_bound; lia).
  split; [done|]. unfold divu128, divu128_portable.
  destruct (Z.eqb_spec divisor 0), (Z.ltb_spec divisor divisor); try lia.
  cbn [fst]. split; [|done]. rewrite combine_halves by done. zcase; [done|lia].
Qed.

(** C23: the shift-and-subtract division ends after its 64 rounds with the
    quotient and the remainder, and reports overflow exactly when the division
    on 128-bit integers does, for every high half other than the divisor
    itself.  When the high half is the divisor the quotient needs 65 bits; the
    division on 128-bit integers reports the overflow, the portable one does
    not. *)
Theorem divu128_portable_correct plow phigh divisor :
  0 <= plow < 2 ^ 64 -> 0 <= phigh < 2 ^ 64 -> 0 <= divisor < 2 ^ 64 ->
  (phigh <> divisor ->
   fst (divu128_portable plow phigh divisor) = fst (divu128 plow phigh divisor) /\
   (fst (divu128 plow phigh divisor) = 0 ->
    divu128_portable plow phigh divisor = divu128 plow phigh divisor /\
    snd (divu128 plow phigh divisor) =
      ((phigh * 2 ^ 64 + plow) / divisor, (phigh * 2 ^ 64 + plow) mod divisor))) /\
  (phigh = divisor -> divisor <> 0 ->
   2 ^ 64 <= (phigh * 2 ^ 64 + plow) / divisor /\
   fst (divu128 plow phigh divisor) = 1 /\
   fst (divu128_portable plow phigh divisor) = 0).
Proof.
  intros Hlo Hhi Hd. split; [by apply divu128_portable_other|].
  intros -> Hne. apply divu128_portable_same; lia.
Qed.

Lemma divu128_portable_correct_witness :
  divu128_portable 5 1 3 = divu128 5 1 3 /\ fst (divu128_portable 0 1 1) = 0.
Proof.
  split.
  - apply (divu128_portable_correct 5 1 3); vm_compute; intuition congruence.
  - apply (divu128_portable_correct 0 1 1); lia.
Defined.

(** The signed division on 128-bit integers ignores the high half of a
    dividend whose low half has its sign bit set: the low half is
    sign-extended before the two are combined. *)
Lemma divs128_ignores_high plow phigh divisor :
  - 2 ^ 63 <= plow < 0 -> - 2 ^ 63 <= phigh < 2 ^ 63 -> divisor <> 0 ->
  divs128 plow phigh divisor =
    (b2z (negb (sext 128 (Z.quot plow divisor) =? s64 (sext 128 (Z.quot plow divisor)))),
     (s64 (sext 128 (Z.quot plow divisor)), s64 (Z.rem plow divisor))).
Proof.
  intros Hlo Hhi Hd. unfold divs128. destruct (Z.eqb_spec divisor 0); [done|].
  assert ((phigh << 64) ||| plow = plow) as ->.
  { bits_ext i Hi. destruct (decide (i < 64)).
    - rewrite (Z.testbit_neg_r phigh) by lia. by rewrite andb_false_r.
    - assert (Z.testbit plow i = true) as ->; [|apply orb_true_r].
      rewrite <- (Z.lnot_involutive plow), testbit_lnot.
      destruct (Z.leb_spec 0 i); [|lia].
      rewrite (testbit_high 63 (Z.lnot plow)); [done| |lia]. unfold Z.lnot. lia. }
  rewrite (sext_small 128 plow) by lia. done.
Qed.

Example divs128_disagree :
  divs128 (- 2 ^ 63) 0 4 = (0, (- 2 ^ 61, 0)) /\
  divs128_portable (- 2 ^ 63) 0 4 = (0, (2 ^ 61, 0)).
Proof.
  split; [|vm_compute; done].
  rewrite (divs128_ignores_high (- 2 ^ 63) 0 4); [vm_compute; done|lia..].
Qed.

(** Taking the absolute value of the dividend in its two halves. *)
Lemma dividend_abs plow phigh :
  - 2 ^ 63 <= plow < 2 ^ 63 -> - 2 ^ 63 <= phigh < 2 ^ 63 ->
  let '(lo, hi) :=
    if phigh <? 0 then
      if Z.lnot plow =? -1 then (0, s64 (Z.lnot phigh + 1))
      else (s64 (Z.lnot plow + 1), Z.lnot phigh)
    else (plow, phigh) in
  u64 hi * 2 ^ 64 + u64 lo = Z.abs (phigh * 2 ^ 64 + u64 plow).
Proof.
  intros Hlo Hhi. rewrite (u64_of_signed plow) by done.
  unfold Z.lnot. destruct (Z.ltb_spec phigh 0).
  - destruct (Z.eqb_spec (Z.pred (- plow)) (-1)).
    + rewrite wrap_sext by lia. rewrite (wrap_small 64 (_ + 1)) by lia.
      rewrite (wrap_small 64 0) by lia. destruct (Z.ltb_spec plow 0); simpl b2z; lia.
    + rewrite wrap_sext by lia. rewrite (wrap_small 64 (Z.pred (- phigh))) by lia.
      unfold wrap. destruct (Z.ltb_spec plow 0); simpl b2z.
      * rewrite Z.mod_small by lia. lia.
      * rewrite (mod_plus_multiple _ (2 ^ 64 - plow) _ (-1)) by lia.
        rewrite Z.mod_small by lia. lia.
  - rewrite (wrap_small 64 phigh), (u64_of_signed plow) by lia.
    destruct (Z.ltb_spec plow 0); simpl b2z; lia.
Qed.

(** The quotient of the absolute values, with its sign, and the overflow
    test on it. *)
Lemma quotient_sign a sgn :
  0 <= a < 2 ^ 64 ->
  let q := if sgn : bool then - a else a in
  (if sgn then s64 (0 - s64 a) else s64 a) = s64 q /\
  xorb (s64 q <? 0) sgn =
    negb ((- 2 ^ 63 <=? q) && (q <? 2 ^ 63)) || ((q =? 0) && sgn).
Proof.
  intros Ha q. split.
  - subst q. destruct sgn; [|done]. unfold sext at 1. rewrite <- wrap_sub_r, wrap_sext by lia.
    rewrite wrap_sub_r. unfold sext. f_equal.
  - subst q. unfold sext. destruct sgn.
    + destruct (decide (a = 0)) as [->|]; [done|].
      assert (u64 (- a) = 2 ^ 64 - a) as ->.
      { unfold wrap. rewrite (mod_plus_multiple _ (2 ^ 64 - a) _ (-1)) by lia.
        apply Z.mod_small. lia. }
      destruct (Z.ltb_spec (2 ^ 64 - a) (2 ^ (64 - 1))); repeat (zcase; simpl); lia || done.
    + rewrite (wrap_small 64 a) by done. destruct (Z.ltb_spec a (2 ^ (64 - 1))); repeat (zcase; simpl); lia || done.
Qed.

(** For a quotient of the absolute values below 2^64, the portable signed
    division returns the truncated quotient, reduced to 64 bits; it reports an
    overflow when the quotient is no [int64_t], and also when the quotient is
    zero and the operands have different signs; the remainder it returns is
    that of the absolute values. *)
Lemma divs128_portable_correct plow phigh divisor :
  - 2 ^ 63 <= plow < 2 ^ 63 -> - 2 ^ 63 <= phigh < 2 ^ 63 ->
  - 2 ^ 63 <= divisor < 2 ^ 63 -> divisor <> 0 ->
  let dividend := phigh * 2 ^ 64 + u64 plow in
  Z.abs dividend < Z.abs divisor * 2 ^ 64 ->
  let q := Z.quot dividend divisor in
  divs128_portable plow phigh divisor =
    (b2z (negb ((- 2 ^ 63 <=? q) && (q <? 2 ^ 63)) ||
          ((q =? 0) && xorb (phigh <? 0) (divisor <? 0))),
     (s64 q, s64 (Z.abs dividend mod Z.abs divisor))).
Proof.
  intros Hlo Hhi Hd Hd0 dividend Hlt q. unfold divs128_portable.
  pose proof (dividend_abs plow phigh Hlo Hhi) as Habs. fold dividend in Habs.
  destruct (if phigh <? 0 then _ else _) as [lo hi].
  assert (u64 (if divisor <? 0 then s64 (0 - divisor) else divisor) = Z.abs divisor) as ->.
  { destruct (Z.ltb_spec divisor 0); [rewrite wrap_sext by lia|]; rewrite wrap_small; lia. }
  pose proof (wrap_range 64 lo ltac:(lia)). pose proof (wrap_range 64 hi ltac:(lia)).
  rewrite divu128_portable_spec, Habs by lia.
  set (sgn := xorb (phigh <? 0) (divisor <? 0)).
  assert (0 <= Z.abs dividend / Z.abs divisor < 2 ^ 64) as Ha.
  { split; [apply Z.div_pos|apply Z.div_lt_upper_bound]; lia. }
  assert (q = if sgn then - (Z.abs dividend / Z.abs divisor)
              else Z.abs dividend / Z.abs divisor) as Hq.
  { subst q sgn. pose proof (wrap_range 64 plow ltac:(lia)).
    rewrite <- Z.quot_div_nonneg by lia.
    destruct (Z.ltb_spec phigh 0), (Z.ltb_spec divisor 0); simpl xorb; cbv iota.
    - rewrite !Z.abs_neq, Z.quot_opp_opp by lia. done.
    - rewrite Z.abs_neq, Z.abs_eq, Z.quot_opp_l by lia. lia.
    - rewrite Z.abs_eq, Z.abs_neq, Z.quot_opp_r by lia. lia.
    - rewrite !Z.abs_eq by lia. done. }
  destruct (quotient_sign _ sgn Ha) as [E1 E2]. rewrite <- Hq in E1, E2.
  rewrite E1. simpl (0 =? 0). rewrite andb_true_l, E2. case_match; done.
Qed.

Lemma divs128_portable_correct_witness :
  divs128_portable (-7) (-1) 2 = (0, (-3, 1)) /\
  divs128_portable (-1) (-1) 2 = (1, (0, 1)).
Proof.
  split; (rewrite divs128_portable_correct; [vm_compute; done | vm_compute; intuition congruence ..]).
Defined.
