(* ===== verification/HBitmap.v ===== *)
(** * Hierarchical bitmaps

    Model of [src/util/hbitmap.c] and [src/include/qemu/hbitmap.h], the dirty
    bitmaps of the block layer: seven levels of 64-bit words, where a bit of a
    level says whether a word of the next level is nonzero, so that iteration
    skips empty regions.  Shown here: the link between the levels is an
    invariant of allocation, setting and resetting; the assertions in the code
    hold and every array access is in bounds; the bitmap refines a set of
    groups of [2^granularity] items, with [count] its size; iteration visits
    the members in order and ends.

    The bitmap an iterator points to is passed to the iterator's operations.
    The loops over the words of a level have as fuel the number of words of
    the range. *)

From S2P Require Import Prelude HostUtils.

Definition BITS_PER_LEVEL : Z := 6.

Definition BITS_PER_LONG : Z := 64.

Definition HBITMAP_LOG_MAX_SIZE : Z := 41.

(** [HBITMAP_LOG_MAX_SIZE / BITS_PER_LEVEL + 1] *)
Definition HBITMAP_LEVELS : nat := 7.

Record HBitmap := {
  size : Z;
  count : Z;
  granularity : Z;
  levels : list (list Z);
}.

Record HBitmapIter := {
  hbi_granularity : Z;
  hbi_pos : Z;
  hbi_cur : list Z;
}.

(** [hb->levels[level][i]] as a value and as the target of an assignment. *)
Definition lvl_get (hb : HBitmap) (level : nat) (i : Z) : outcome Z :=
  match levels hb !! level ≫= fun ws => zget ws i with
  | Some w => Ret w
  | None => Fault OutOfBounds
  end.

Definition put (hb : HBitmap) (level : nat) (i w : Z) : HBitmap :=
  {| size := size hb; count := count hb; granularity := granularity hb;
     levels := alter (fun ws => zset ws i w) level (levels hb) |}.

Definition lvl_put (hb : HBitmap) (level : nat) (i w : Z) : outcome HBitmap :=
  _ ← lvl_get hb level i; Ret (put hb level i w).

Definition set_count (hb : HBitmap) (n : Z) : HBitmap :=
  {| size := size hb; count := n; granularity := granularity hb; levels := levels hb |}.

Definition cassert (b : bool) : outcome unit :=
  if b then Ret tt else Fault AssertFailed.

(** [hbi->cur[i]] *)
Definition cur_get (cur : list Z) (i : nat) : outcome Z :=
  match cur !! i with Some c => Ret c | None => Fault OutOfBounds end.

(** ** Iteration *)

(** The [do ... while (cur == 0)] loop. *)
Fixpoint skip_up (i : nat) (cur : list Z) (pos : Z) : outcome (nat * Z * Z) :=
  match i with
  | O => Fault OutOfBounds
  | S i =>
      c ← cur_get cur i;
      let pos := pos >> BITS_PER_LEVEL in
      if c =? 0 then skip_up i cur pos else Ret (i, c, pos)
  end.

(** The [for] loop: [n] levels from level [i] on. *)
Fixpoint skip_down (n : nat) (hb : HBitmap) (i : nat) (cur : list Z) (pos c : Z) :
    outcome (list Z * Z * Z) :=
  match n with
  | O => Ret (cur, pos, c)
  | S n =>
      _ ← cassert (negb (c =? 0));
      let pos := u64 (u64 (pos << BITS_PER_LEVEL) + ctzl c) in
      let cur := <[i := c &&& u64 (c - 1)]> cur in
      c ← lvl_get hb (S i) pos;
      skip_down n hb (S i) cur pos c
  end.

Definition hbitmap_iter_skip_words (hb : HBitmap) (hbi : HBitmapIter) :
    outcome (HBitmapIter * Z) :=
  '(i, c, pos) ← skip_up (HBITMAP_LEVELS - 1) (hbi_cur hbi) (hbi_pos hbi);
  if (i =? 0)%nat && (c =? 1 << (BITS_PER_LONG - 1)) then Ret (hbi, 0)
  else
    '(cur, pos, c) ← skip_down (HBITMAP_LEVELS - 1 - i) hb i (hbi_cur hbi) pos c;
    _ ← cassert (negb (c =? 0));
    Ret ({| hbi_granularity := hbi_granularity hbi; hbi_pos := pos; hbi_cur := cur |}, c).

(** The loop of [hbitmap_iter_init], for the levels below [i]. *)
Fixpoint iter_fill (i : nat) (hb : HBitmap) (pos : Z) (cur : list Z) : outcome (list Z) :=
  match i with
  | O => Ret cur
  | S i =>
      let bit := pos &&& (BITS_PER_LONG - 1) in
      let pos := pos >> BITS_PER_LEVEL in
      w ← lvl_get hb i pos;
      let c := w &&& u64 (Z.lnot ((1 << bit) - 1)) in
      let c := if (i =? HBITMAP_LEVELS - 1)%nat then c
               else c &&& u64 (Z.lnot (1 << bit)) in
      iter_fill i hb pos (<[i := c]> cur)
  end.

Definition hbitmap_iter_init (hb : HBitmap) (first : Z) : outcome HBitmapIter :=
  let pos := first >> granularity hb in
  _ ← cassert (pos <? size hb);
  cur ← iter_fill HBITMAP_LEVELS hb pos (replicate HBITMAP_LEVELS 0);
  Ret {| hbi_granularity := granularity hb; hbi_pos := pos >> BITS_PER_LEVEL;
         hbi_cur := cur |}.

Definition set_cur (hbi : HBitmapIter) (i : nat) (c : Z) : HBitmapIter :=
  {| hbi_granularity := hbi_granularity hbi; hbi_pos := hbi_pos hbi;
     hbi_cur := <[i := c]> (hbi_cur hbi) |}.

(** What both [next] functions start with: the rest of the current word, or
    the next nonzero one. *)
Definition iter_word (hb : HBitmap) (hbi : HBitmapIter) : outcome (HBitmapIter * Z) :=
  c ← cur_get (hbi_cur hbi) (HBITMAP_LEVELS - 1);
  if c =? 0 then hbitmap_iter_skip_words hb hbi else Ret (hbi, c).

Definition hbitmap_iter_next (hb : HBitmap) (hbi : HBitmapIter) : outcome (HBitmapIter * Z) :=
  '(hbi, c) ← iter_word hb hbi;
  if c =? 0 then Ret (hbi, -1)
  else
    let hbi := set_cur hbi (HBITMAP_LEVELS - 1) (c &&& u64 (c - 1)) in
    let item := s64 (u64 (u64 (hbi_pos hbi << BITS_PER_LEVEL) + ctzl c)) in
    Ret (hbi, s64 (item << hbi_granularity hbi)).

(** The result is the index and the value stored through [p_cur]. *)
Definition hbitmap_iter_next_word (hb : HBitmap) (hbi : HBitmapIter) :
    outcome (HBitmapIter * Z * Z) :=
  '(hbi, c) ← iter_word hb hbi;
  if c =? 0 then Ret (hbi, u64 (-1), 0)
  else
    let hbi := set_cur hbi (HBITMAP_LEVELS - 1) 0 in
    Ret (hbi, hbi_pos hbi, c).

(** ** Queries *)

Definition hbitmap_empty (hb : HBitmap) : bool := count hb =? 0.

Definition hbitmap_granularity (hb : HBitmap) : Z := granularity hb.

Definition hbitmap_count (hb : HBitmap) : Z := u64 (count hb << granularity hb).

(** The counting loop; the result is the count and the last [pos] and [cur]. *)
Fixpoint count_loop (fuel : nat) (hb : HBitmap) (hbi : HBitmapIter) (endw cnt : Z) :
    outcome (Z * Z * Z) :=
  '(hbi, pos, cur) ← hbitmap_iter_next_word hb hbi;
  if endw <=? pos then Ret (cnt, pos, cur)
  else
    match fuel with
    | O => NoFuel
    | S fuel => count_loop fuel hb hbi endw (u64 (cnt + ctpopl cur))
    end.

Definition hb_count_between (hb : HBitmap) (start last : Z) : outcome Z :=
  let end_ := u64 (last + 1) in
  hbi ← hbitmap_iter_init hb (u64 (start << granularity hb));
  '(cnt, pos, cur) ← count_loop (Z.to_nat (end_ >> BITS_PER_LEVEL)) hb hbi
                       (end_ >> BITS_PER_LEVEL) 0;
  if pos =? end_ >> BITS_PER_LEVEL then
    let bit := end_ &&& (BITS_PER_LONG - 1) in
    let cur := cur &&& ((1 << bit) - 1) in
    Ret (u64 (cnt + ctpopl cur))
  else Ret cnt.

Definition hbitmap_get (hb : HBitmap) (item : Z) : outcome bool :=
  let pos := item >> granularity hb in
  let bit := 1 << (pos &&& (BITS_PER_LONG - 1)) in
  w ← lvl_get hb (HBITMAP_LEVELS - 1) (pos >> BITS_PER_LEVEL);
  Ret (negb ((w &&& bit) =? 0)).

(** ** Setting *)

(** The mask of the bits from [start] to [last] of their word. *)
Definition elem_mask (start last : Z) : Z :=
  u64 (u64 (2 << (last &&& (BITS_PER_LONG - 1))) - (1 << (start &&& (BITS_PER_LONG - 1)))).

(** The result is the return value and the new word. *)
Definition hb_set_elem (elem start last : Z) : outcome (bool * Z) :=
  _ ← cassert (last >> BITS_PER_LEVEL =? start >> BITS_PER_LEVEL);
  _ ← cassert (start <=? last);
  let mask := elem_mask start last in
  Ret (elem =? 0, elem ||| mask).

(** The [for (;;)] loop: [i] is the last word done, [next] the first bit of the
    next one. *)
Fixpoint hb_set_loop (fuel : nat) (hb : HBitmap) (level : nat) (i next lastpos : Z)
    (changed : bool) : outcome (HBitmap * Z * Z * bool) :=
  let start := next in
  let next := u64 (next + BITS_PER_LONG) in
  let i := i + 1 in
  if i =? lastpos then Ret (hb, i, start, changed)
  else
    match fuel with
    | O => NoFuel
    | S fuel =>
        w ← lvl_get hb level i;
        hb ← lvl_put hb level i (2 ^ 64 - 1);
        hb_set_loop fuel hb level i next lastpos (changed || (w =? 0))
    end.

(** The first word and those in the middle, when the range has several; the
    result is the bitmap, [i], [start] and [changed]. *)
Definition hb_set_head (hb : HBitmap) (level : nat) (start last : Z) :
    outcome (HBitmap * Z * Z * bool) :=
  let pos := start >> BITS_PER_LEVEL in
  let lastpos := last >> BITS_PER_LEVEL in
  if pos <? lastpos then
    let next := u64 ((start ||| (BITS_PER_LONG - 1)) + 1) in
    w ← lvl_get hb level pos;
    '(c, w) ← hb_set_elem w start (u64 (next - 1));
    hb ← lvl_put hb level pos w;
    hb_set_loop (Z.to_nat (lastpos - pos)) hb level pos next lastpos c
  else Ret (hb, pos, start, false).

(** The part of [hb_set_between] that works on one level. *)
Definition hb_set_level (hb : HBitmap) (level : nat) (start last : Z) :
    outcome (HBitmap * bool) :=
  '(hb, i, start, changed) ← hb_set_head hb level start last;
  w ← lvl_get hb level i;
  '(c, w) ← hb_set_elem w start last;
  hb ← lvl_put hb level i w;
  Ret (hb, changed || c).

Fixpoint hb_set_between (level : nat) (hb : HBitmap) (start last : Z) : outcome HBitmap :=
  '(hb, changed) ← hb_set_level hb level start last;
  match level with
  | S level =>
      if changed : bool then
        hb_set_between level hb (start >> BITS_PER_LEVEL) (last >> BITS_PER_LEVEL)
      else Ret hb
  | O => Ret hb
  end.

Definition hbitmap_set (hb : HBitmap) (start cnt : Z) : outcome HBitmap :=
  let last := u64 (start + cnt - 1) in
  let start := start >> granularity hb in
  let last := last >> granularity hb in
  let cnt := u64 (last - start + 1) in
  n ← hb_count_between hb start last;
  let hb := set_count hb (u64 (count hb + u64 (cnt - n))) in
  hb_set_between (HBITMAP_LEVELS - 1) hb start last.

(** ** Resetting *)

Definition hb_reset_elem (elem start last : Z) : outcome (bool * Z) :=
  _ ← cassert (last >> BITS_PER_LEVEL =? start >> BITS_PER_LEVEL);
  _ ← cassert (start <=? last);
  let mask := elem_mask start last in
  let blanked := negb (elem =? 0) && ((elem &&& u64 (Z.lnot mask)) =? 0) in
  Ret (blanked, elem &&& u64 (Z.lnot mask)).

Fixpoint hb_reset_loop (fuel : nat) (hb : HBitmap) (level : nat) (i next lastpos : Z)
    (changed : bool) : outcome (HBitmap * Z * Z * bool) :=
  let start := next in
  let next := u64 (next + BITS_PER_LONG) in
  let i := i + 1 in
  if i =? lastpos then Ret (hb, i, start, changed)
  else
    match fuel with
    | O => NoFuel
    | S fuel =>
        w ← lvl_get hb level i;
        hb ← lvl_put hb level i 0;
        hb_reset_loop fuel hb level i next lastpos (changed || negb (w =? 0))
    end.

(** The first word and those in the middle; the result is the bitmap, [i],
    [start], [changed] and [pos]. *)
Definition hb_reset_head (hb : HBitmap) (level : nat) (start last : Z) :
    outcome (HBitmap * Z * Z * bool * Z) :=
  let pos := start >> BITS_PER_LEVEL in
  let lastpos := last >> BITS_PER_LEVEL in
  if pos <? lastpos then
    let next := u64 ((start ||| (BITS_PER_LONG - 1)) + 1) in
    w ← lvl_get hb level pos;
    '(c, w) ← hb_reset_elem w start (u64 (next - 1));
    hb ← lvl_put hb level pos w;
    '(hb, i, start, changed) ←
      hb_reset_loop (Z.to_nat (lastpos - pos)) hb level pos next lastpos c;
    Ret (hb, i, start, changed, if c : bool then pos else u64 (pos + 1))
  else Ret (hb, pos, start, false, pos).

(** The result is the new bitmap, [changed], [pos] and [lastpos]. *)
Definition hb_reset_level (hb : HBitmap) (level : nat) (start last : Z) :
    outcome (HBitmap * bool * Z * Z) :=
  let lastpos := last >> BITS_PER_LEVEL in
  '(hb, i, start, changed, pos) ← hb_reset_head hb level start last;
  w ← lvl_get hb level i;
  '(c, w) ← hb_reset_elem w start last;
  hb ← lvl_put hb level i w;
  Ret (hb, changed || c, pos, if c : bool then lastpos else u64 (lastpos - 1)).

Fixpoint hb_reset_between (level : nat) (hb : HBitmap) (start last : Z) : outcome HBitmap :=
  '(hb, changed, pos, lastpos) ← hb_reset_level hb level start last;
  match level with
  | S level => if changed : bool then hb_reset_between level hb pos lastpos else Ret hb
  | O => Ret hb
  end.

Definition hbitmap_reset (hb : HBitmap) (start cnt : Z) : outcome HBitmap :=
  let last := u64 (start + cnt - 1) in
  let start := start >> granularity hb in
  let last := last >> granularity hb in
  n ← hb_count_between hb start last;
  let hb := set_count hb (u64 (count hb - n)) in
  hb_reset_between (HBITMAP_LEVELS - 1) hb start last.

(** ** Allocation *)

(** The sizes of the levels, coarsest first, and the last value of [size]. *)
Fixpoint alloc_levels (i : nat) (size : Z) (lower : list (list Z)) : Z * list (list Z) :=
  match i with
  | O => (size, lower)
  | S i =>
      let size := Z.max (u64 (size + BITS_PER_LONG - 1) >> BITS_PER_LEVEL) 1 in
      alloc_levels i size (replicate (Z.to_nat size) 0 :: lower)
  end.

Definition hbitmap_alloc (size granularity : Z) : outcome HBitmap :=
  _ ← cassert ((0 <=? granularity) && (granularity <? 64));
  let size := u64 (u64 (size + (1 << granularity)) - 1) >> granularity in
  _ ← cassert (size <=? 1 << HBITMAP_LOG_MAX_SIZE);
  let '(size0, lvls) := alloc_levels HBITMAP_LEVELS size [] in
  let hb := {| size := size; count := 0; granularity := granularity; levels := lvls |} in
  _ ← cassert (size0 =? 1);
  w ← lvl_get hb 0 0;
  lvl_put hb 0 0 (w ||| (1 << (BITS_PER_LONG - 1))).

(** ** Words and bits of a level *)

Definition wd (hb : HBitmap) (l : nat) (i : Z) : Z :=
  default 0 (levels hb !! l ≫= fun ws => zget ws i).

Definition bt (hb : HBitmap) (l : nat) (n : Z) : bool :=
  Z.testbit (wd hb l (n / 64)) (n mod 64).

Definition len (hb : HBitmap) (l : nat) : Z :=
  Z.of_nat (length (default [] (levels hb !! l))).

Lemma wd_out hb l i : ~ 0 <= i < len hb l -> wd hb l i = 0.
Proof.
  unfold wd, len. intros Hi. destruct (levels hb !! l) as [ws|]; [|done]. simpl in *.
  destruct (zget ws i) as [w|] eqn:E; [|done]. apply zget_Some in E. lia.
Qed.

Lemma lvl_get_ok hb l i : 0 <= i < len hb l -> lvl_get hb l i = Ret (wd hb l i).
Proof.
  unfold lvl_get, wd, len. intros Hi. destruct (levels hb !! l) as [ws|]; simpl in *; [|lia].
  destruct (zget_is_Some ws i Hi) as [w ->]. done.
Qed.

Lemma lvl_put_ok hb l i w : 0 <= i < len hb l -> lvl_put hb l i w = Ret (put hb l i w).
Proof. intros. unfold lvl_put. by rewrite lvl_get_ok. Qed.

Lemma len_put hb l i w l' : len (put hb l i w) l' = len hb l'.
Proof.
  unfold len, put. simpl. destruct (decide (l = l')) as [<-|].
  - rewrite list_lookup_alter_eq. destruct (levels hb !! l); simpl; [|done].
    by rewrite length_zset.
  - by rewrite list_lookup_alter_ne.
Qed.

Lemma wd_put hb l i w l' i' :
  0 <= i < len hb l ->
  wd (put hb l i w) l' i' = if bool_decide (l = l' /\ i = i') then w else wd hb l' i'.
Proof.
  unfold wd, put, len. intros Hi. simpl. destruct (decide (l = l')) as [<-|Hl].
  - rewrite list_lookup_alter_eq. destruct (levels hb !! l) as [ws|]; simpl in *; [|lia].
    case_bool_decide as H.
    + destruct H as [_ <-]. by rewrite zget_zset_eq.
    + rewrite zget_zset_ne by (intros ->; by apply H). done.
  - rewrite list_lookup_alter_ne, bool_decide_eq_false_2 by intuition. done.
Qed.

(** [hb'] is [hb] with [f] applied to the words of level [l]. *)
Record eff (l : nat) (f : Z -> Z -> Z) (hb hb' : HBitmap) : Prop := {
  eff_size : size hb' = size hb;
  eff_count : count hb' = count hb;
  eff_gran : granularity hb' = granularity hb;
  eff_levels : length (levels hb') = length (levels hb);
  eff_len : forall l', len hb' l' = len hb l';
  eff_wd : forall l' i, wd hb' l' i = if bool_decide (l = l') then f i (wd hb l i) else wd hb l' i;
}.

Lemma eff_id l hb : eff l (fun _ x => x) hb hb.
Proof. constructor; try done. intros. case_bool_decide; by subst. Qed.

Lemma eff_ext l f g hb hb' :
  (forall i, f i (wd hb l i) = g i (wd hb l i)) -> eff l f hb hb' -> eff l g hb hb'.
Proof. intros Hfg []; constructor; try done. intros. rewrite eff_wd0, Hfg. done. Qed.

Lemma eff_trans l f g hb1 hb2 hb3 :
  eff l f hb1 hb2 -> eff l g hb2 hb3 -> eff l (fun i x => g i (f i x)) hb1 hb3.
Proof.
  intros [] []; constructor; try congruence.
  intros. rewrite eff_wd1, !eff_wd0. case_bool_decide; [|done].
  by rewrite bool_decide_eq_true_2.
Qed.

Lemma eff_put hb l i w :
  0 <= i < len hb l -> eff l (fun k x => if k =? i then w else x) hb (put hb l i w).
Proof.
  intros Hi. constructor; try done.
  - simpl. apply length_alter.
  - intros. apply len_put.
  - intros l' k. rewrite wd_put by done.
    destruct (Z.eqb_spec k i); repeat case_bool_decide; intuition congruence.
Qed.

(** ** Masks *)

Definition in_range (start last n : Z) : bool := (start <=? n) && (n <=? last).

(** The bits of word [i] that stand for the positions from [start] to [last]. *)
Definition rmask (start last i : Z) : Z :=
  let lo := Z.max 0 (start - 64 * i) in
  let hi := Z.min 63 (last - 64 * i) in
  if lo <=? hi then Z.ones (hi - lo + 1) << lo else 0.

Lemma testbit_rmask start last i j :
  0 <= j -> Z.testbit (rmask start last i) j = (j <? 64) && in_range start last (64 * i + j).
Proof.
  intros Hj. unfold rmask, in_range. destruct (Z.leb_spec (Z.max 0 (start - 64 * i))
    (Z.min 63 (last - 64 * i))).
  - autorewrite with bits. repeat (zcase; simpl); try lia; done.
  - rewrite Z.testbit_0_l. repeat (zcase; simpl); try lia; done.
Qed.

Lemma rmask_range start last i : 0 <= rmask start last i < 2 ^ 64.
Proof.
  assert (0 <= rmask start last i).
  { unfold rmask. zcase; [|lia]. apply Z.shiftl_nonneg. rewrite Z.ones_equiv.
    assert (0 < 2 ^ (Z.min 63 (last - 64 * i) - Z.max 0 (start - 64 * i) + 1)); lia. }
  split; [done|]. apply bits_range; [lia|done|].
  intros j Hj. rewrite testbit_rmask by lia. zcase; [lia|done].
Qed.

Lemma land_63 x : x &&& (BITS_PER_LONG - 1) = x mod 64.
Proof. change (BITS_PER_LONG - 1) with (Z.ones 6). by rewrite Z.land_ones. Qed.

Lemma shiftr_6 x : x >> BITS_PER_LEVEL = x / 64.
Proof. unfold BITS_PER_LEVEL. by rewrite Z.shiftr_div_pow2. Qed.

Lemma elem_mask_spec start last :
  0 <= start <= last -> last / 64 = start / 64 ->
  elem_mask start last = rmask start last (start / 64).
Proof.
  intros Hs Hw. unfold elem_mask. rewrite !land_63.
  set (e := last mod 64). set (s := start mod 64).
  assert (0 <= s <= e /\ e < 64) as Hse by (subst s e; mlia).
  rewrite wrap_sub_l, !Z.shiftl_mul_pow2 by lia.
  assert (rmask start last (start / 64) = Z.ones (e - s + 1) << s) as ->.
  { unfold rmask. rewrite Z.max_r by mlia. rewrite Z.min_r by (subst e; mlia).
    replace (start - 64 * (start / 64)) with s by (subst s; mlia).
    replace (last - 64 * (start / 64)) with e by (subst e; mlia).
    destruct (Z.leb_spec s e); [done|lia]. }
  rewrite Z.shiftl_mul_pow2, Z.ones_equiv by lia.
  assert (2 ^ (e - s + 1) * 2 ^ s = 2 * 2 ^ e) as Hp.
  { rewrite <- Z.pow_add_r, <- Z.pow_succ_r by lia. f_equal. lia. }
  assert (2 ^ s <= 2 ^ e) by (apply Z.pow_le_mono_r; lia).
  assert (2 ^ e <= 2 ^ 63) by (apply Z.pow_le_mono_r; lia).
  rewrite wrap_small; lia.
Qed.

Lemma rmask_ext s e s' e' i :
  (forall j, 0 <= j < 64 -> in_range s e (64 * i + j) = in_range s' e' (64 * i + j)) ->
  rmask s e i = rmask s' e' i.
Proof.
  intros H. apply Z.bits_inj'. intros j Hj. rewrite !testbit_rmask by done.
  zcase; [|done]. simpl. apply H. lia.
Qed.

Ltac range_cases := unfold in_range; repeat (zcase; simpl); try lia; try done.

Lemma rmask_out s e i : i < s / 64 \/ e / 64 < i -> rmask s e i = 0.
Proof.
  intros Hi. apply Z.bits_inj'. intros j Hj. rewrite testbit_rmask, Z.testbit_0_l by done.
  zcase; [|done]. range_cases; mlia.
Qed.

Lemma rmask_mid s e i : s / 64 < i < e / 64 -> rmask s e i = 2 ^ 64 - 1.
Proof.
  intros Hi. change (2 ^ 64 - 1) with (Z.ones 64). apply Z.bits_inj'. intros j Hj.
  rewrite testbit_rmask, testbit_ones by lia. range_cases; mlia.
Qed.

Lemma lor_all w : 0 <= w < 2 ^ 64 -> w ||| (2 ^ 64 - 1) = 2 ^ 64 - 1.
Proof.
  intros Hw. change (2 ^ 64 - 1) with (Z.ones 64). apply Z.lor_ones_low; [lia|].
  destruct (decide (w = 0)) as [->|]; [simpl; lia|]. apply Z.log2_lt_pow2; lia.
Qed.

Lemma next_word start :
  0 <= start < 2 ^ 63 -> u64 ((start ||| (BITS_PER_LONG - 1)) + 1) = 64 * (start / 64 + 1).
Proof.
  intros Hs. change (BITS_PER_LONG - 1) with (Z.ones 6).
  assert (start ||| Z.ones 6 = 64 * (start / 64) + 63) as ->.
  { apply Z.bits_inj'. intros j Hj. rewrite Z.lor_spec, testbit_ones by lia.
    rewrite (Z.add_comm (64 * _)), (testbit_split 6 63) by lia.
    change 63 with (Z.ones 6). rewrite testbit_ones by lia. repeat (zcase; simpl); try lia.
    rewrite orb_false_r. change 64 with (2 ^ 6). rewrite Z.div_pow2_bits by lia.
      f_equal. lia. }
  rewrite wrap_small; mlia.
Qed.

Lemma hb_set_elem_ok w start last :
  0 <= start <= last -> last / 64 = start / 64 ->
  hb_set_elem w start last = Ret (w =? 0, w ||| rmask start last (start / 64)).
Proof.
  intros Hs Hw. unfold hb_set_elem. rewrite !shiftr_6, Hw, Z.eqb_refl. simpl.
  destruct (Z.leb_spec start last); [|lia]. simpl. by rewrite elem_mask_spec.
Qed.

Lemma hb_set_loop_ok l lastpos n : forall fuel hb i next ch,
  (n <= fuel)%nat -> 0 <= i -> lastpos = i + 1 + Z.of_nat n -> lastpos < 2 ^ 57 ->
  next = 64 * (i + 1) -> lastpos <= len hb l ->
  exists hb' ch',
    hb_set_loop fuel hb l i next lastpos ch = Ret (hb', lastpos, 64 * lastpos, ch') /\
    eff l (fun k x => if (i <? k) && (k <? lastpos) then 2 ^ 64 - 1 else x) hb hb' /\
    (ch' = true <-> ch = true \/ exists k, i < k < lastpos /\ wd hb l k = 0).
Proof.
  induction n as [|n IH]; intros fuel hb i next ch Hf Hi Hlast Hb -> Hlen.
  - exists hb, ch. assert (lastpos = i + 1) as -> by lia. split; [|split].
    + destruct fuel; simpl; by rewrite Z.eqb_refl.
    + eapply eff_ext; [|apply eff_id]. intros k. repeat zcase; simpl; try done; lia.
    + split; [by left|]. intros [?|(k & ? & _)]; [done|lia].
  - destruct fuel as [|fuel]; [lia|]. cbn [hb_set_loop].
    destruct (Z.eqb_spec (i + 1) lastpos); [lia|].
    rewrite lvl_get_ok, lvl_put_ok by lia. cbn [mbind outcome_bind].
    set (hb1 := put hb l (i + 1) (2 ^ 64 - 1)).
    assert (eff l (fun k x => if k =? i + 1 then 2 ^ 64 - 1 else x) hb hb1) as He
      by (apply eff_put; lia).
    destruct (IH fuel hb1 (i + 1) (u64 (64 * (i + 1) + BITS_PER_LONG))
                (ch || (wd hb l (i + 1) =? 0))) as (hb' & ch' & -> & He' & Hch);
      [lia|lia|lia|done|..].
    { unfold BITS_PER_LONG. rewrite wrap_small; lia. }
    { rewrite (eff_len _ _ _ _ He). done. }
    exists hb', ch'. split; [done|]. split.
    + eapply eff_ext; [|eapply eff_trans; [exact He|exact He']].
      intros k. simpl. repeat (zcase; simpl); try done; lia.
    + rewrite Hch, orb_true_iff, Z.eqb_eq. clear Hch. split.
      * intros [[?|Hz]|(k & Hk & Hz)]; [by left|right; exists (i + 1); split; [lia|done]|].
        right. exists k. rewrite (eff_wd _ _ _ _ He), bool_decide_eq_true_2 in Hz by done.
        destruct (Z.eqb_spec k (i + 1)); [lia|]. split; [lia|done].
      * intros [?|(k & Hk & Hz)]; [by left; left|].
        destruct (decide (k = i + 1)) as [->|]; [left; by right|].
        right. exists k. rewrite (eff_wd _ _ _ _ He), bool_decide_eq_true_2 by done.
        destruct (Z.eqb_spec k (i + 1)); [lia|]. split; [lia|done].
Qed.

Definition words_ok (hb : HBitmap) : Prop := forall l i, 0 <= wd hb l i < 2 ^ 64.

(** The words before the last one are done. *)
Lemma hb_set_head_ok hb l start last :
  words_ok hb -> 0 <= start <= last -> last < 2 ^ 63 -> last / 64 < len hb l ->
  exists hb' i s ch,
    hb_set_head hb l start last = Ret (hb', i, s, ch) /\
    i = last / 64 /\ s = Z.max start (64 * (last / 64)) /\
    eff l (fun k x => if k <? last / 64 then x ||| rmask start last k else x) hb hb' /\
    (ch = true <-> exists k, start / 64 <= k < last / 64 /\ wd hb l k = 0).
Proof.
  intros Hok Hs Hl Hlen. unfold hb_set_head. rewrite !shiftr_6.
  destruct (Z.ltb_spec (start / 64) (last / 64)) as [Hlt|Hge].
  - rewrite next_word by lia. rewrite lvl_get_ok by mlia. cbn [mbind outcome_bind].
    rewrite (wrap_small 64 (64 * (start / 64 + 1) - 1)) by mlia.
    rewrite hb_set_elem_ok by mlia. cbn [mbind outcome_bind].
    rewrite lvl_put_ok by mlia. cbn [mbind outcome_bind].
    set (w := wd hb l (start / 64) ||| _). set (hb1 := put hb l (start / 64) w).
    assert (eff l (fun k x => if k =? start / 64 then w else x) hb hb1) as He
      by (apply eff_put; mlia).
    destruct (hb_set_loop_ok l (last / 64) (Z.to_nat (last / 64 - start / 64 - 1))
      (Z.to_nat (last / 64 - start / 64)) hb1 (start / 64) (64 * (start / 64 + 1))
      (wd hb l (start / 64) =? 0)) as (hb' & ch & -> & He' & Hch); [mlia..| |].
    { rewrite (eff_len _ _ _ _ He). lia. }
    exists hb', (last / 64), (64 * (last / 64)), ch. split_and!; [done|done|mlia|..].
    + eapply eff_ext; [|eapply eff_trans; [exact He|exact He']]. intros k. simpl.
      pose proof (Hok l k). destruct (Z.eqb_spec k (start / 64)) as [->|].
      * destruct (Z.ltb_spec (start / 64) (start / 64)), (Z.ltb_spec (start / 64) (last / 64));
          try lia. simpl. subst w. f_equal. apply rmask_ext. intros j Hj. range_cases; mlia.
      * destruct (Z.ltb_spec k (last / 64)); [|by rewrite andb_false_r].
        destruct (Z.ltb_spec (start / 64) k); simpl.
        -- rewrite rmask_mid, lor_all by lia. done.
        -- rewrite rmask_out, Z.lor_0_r by lia. done.
    + rewrite Hch, Z.eqb_eq. split.
      * intros [Hz|(k & Hk & Hz)]; [exists (start / 64); split; [lia|done]|].
        exists k. rewrite (eff_wd _ _ _ _ He), bool_decide_eq_true_2 in Hz by done.
        destruct (Z.eqb_spec k (start / 64)); [lia|]. split; [lia|done].
      * intros (k & Hk & Hz). destruct (decide (k = start / 64)) as [->|]; [by left|].
        right. exists k. rewrite (eff_wd _ _ _ _ He), bool_decide_eq_true_2 by done.
        destruct (Z.eqb_spec k (start / 64)); [lia|]. split; [lia|done].
  - assert (start / 64 = last / 64) as E by mlia.
    exists hb, (start / 64), start, false. split_and!; [done|done|mlia|..].
    + eapply eff_ext; [|apply eff_id]. intros k. simpl. zcase; [|done].
      rewrite rmask_out, Z.lor_0_r by lia. done.
    + split; [done|]. intros (k & ? & _). lia.
Qed.

Lemma hb_set_level_ok hb l start last :
  words_ok hb -> 0 <= start <= last -> last < 2 ^ 63 -> last / 64 < len hb l ->
  exists hb' ch,
    hb_set_level hb l start last = Ret (hb', ch) /\
    eff l (fun k x => x ||| rmask start last k) hb hb' /\
    (ch = true <-> exists k, start / 64 <= k <= last / 64 /\ wd hb l k = 0).
Proof.
  intros Hok Hs Hl Hlen. unfold hb_set_level.
  destruct (hb_set_head_ok hb l start last) as (hb1 & i & s & ch & -> & -> & -> & He & Hch);
    [done..|].
  assert (forall k, last / 64 <= k -> wd hb1 l k = wd hb l k) as Hsame.
  { intros k Hk. rewrite (eff_wd _ _ _ _ He), bool_decide_eq_true_2 by done. zcase; [lia|done]. }
  cbn [mbind outcome_bind].
  assert (0 <= last / 64 < len hb1 l) by (rewrite (eff_len _ _ _ _ He); mlia).
  rewrite lvl_get_ok by done. cbn [mbind outcome_bind].
  set (s := Z.max start (64 * (last / 64))).
  assert (s / 64 = last / 64) as Es by (subst s; mlia).
  rewrite hb_set_elem_ok, Hsame, Es by (subst s; mlia). cbn [mbind outcome_bind].
  rewrite lvl_put_ok by done. cbn [mbind outcome_bind].
  eexists _, _. split; [reflexivity|]. split.
  - eapply eff_ext; [|eapply eff_trans; [exact He|apply eff_put; done]].
    intros k. simpl. destruct (Z.eqb_spec k (last / 64)) as [->|].
    + f_equal. apply rmask_ext. intros j Hj. subst s. range_cases; mlia.
    + zcase; [done|]. rewrite rmask_out, Z.lor_0_r by lia. done.
  - rewrite orb_true_iff, Hch, Z.eqb_eq. split.
    + intros [(k & ? & ?)|Hz]; [exists k|exists (last / 64)]; split; try done; mlia.
    + intros (k & Hk & Hz). destruct (decide (k = last / 64)) as [->|]; [by right|].
      left. exists k. split; [lia|done].
Qed.

(** ** The levels *)

(** Bit [n] of level [l] tells whether word [n] of the next level is nonzero;
    the highest bit of level 0 is the sentinel. *)
Definition link (hb : HBitmap) (l : nat) : Prop :=
  forall n, 0 <= n ->
    bt hb l n = negb (wd hb (S l) n =? 0) || ((l =? 0)%nat && (n =? 63)).

Record dims (hb : HBitmap) : Prop := {
  dims_levels : length (levels hb) = HBITMAP_LEVELS;
  dims_0 : len hb 0 = 1;
  dims_1 : len hb 1 <= 63;
  dims_S : forall l, (l < 6)%nat -> len hb (S l) <= 64 * len hb l;
  dims_max : forall l, len hb l < 2 ^ 57;
}.

(** What an operation on level [l] leaves alone. *)
Record same_above (l : nat) (hb hb' : HBitmap) : Prop := {
  sa_size : size hb' = size hb;
  sa_count : count hb' = count hb;
  sa_gran : granularity hb' = granularity hb;
  sa_levels : length (levels hb') = length (levels hb);
  sa_len : forall l', len hb' l' = len hb l';
  sa_wd : forall l' i, (l < l')%nat -> wd hb' l' i = wd hb l' i;
}.

Lemma eff_same_above l f hb hb' : eff l f hb hb' -> same_above l hb hb'.
Proof.
  intros []; constructor; try done. intros. rewrite eff_wd0, bool_decide_eq_false_2 by lia. done.
Qed.

Lemma same_above_trans l l' hb1 hb2 hb3 :
  (l' <= l)%nat -> same_above l hb1 hb2 -> same_above l' hb2 hb3 -> same_above l hb1 hb3.
Proof.
  intros Hl [] []; constructor; try congruence.
  intros. rewrite sa_wd1, sa_wd0 by lia. done.
Qed.

Lemma same_above_dims l hb hb' : same_above l hb hb' -> dims hb -> dims hb'.
Proof.
  intros [] []. constructor; intros; rewrite ?sa_len0; auto. congruence.
Qed.

Lemma rmask_zero s e k : 0 <= s <= e -> rmask s e k = 0 <-> ~ (s / 64 <= k <= e / 64).
Proof.
  intros Hs. split.
  - intros H0 Hk. apply (f_equal (fun x => Z.testbit x (Z.max 0 (s - 64 * k)))) in H0.
    rewrite testbit_rmask, Z.testbit_0_l in H0 by lia. revert H0. range_cases; mlia.
  - intros Hk. apply rmask_out. lia.
Qed.

Lemma bt_or hb hb' l start last n :
  eff l (fun k x => x ||| rmask start last k) hb hb' -> 0 <= n ->
  bt hb' l n = bt hb l n || in_range start last n.
Proof.
  intros He Hn. unfold bt. rewrite (eff_wd _ _ _ _ He), bool_decide_eq_true_2 by done.
  rewrite Z.lor_spec, testbit_rmask by mlia. destruct (Z.ltb_spec (n mod 64) 64); [|mlia].
  simpl. do 2 f_equal. mlia.
Qed.

Lemma eff_words_ok l f hb hb' :
  eff l f hb hb' -> words_ok hb -> (forall i, 0 <= f i (wd hb l i) < 2 ^ 64) -> words_ok hb'.
Proof.
  intros He Hok Hf l' i. rewrite (eff_wd _ _ _ _ He). case_bool_decide; [apply Hf|apply Hok].
Qed.

(** A link only depends on its two levels. *)
Lemma link_ext hb hb' l :
  (forall n, 0 <= n -> bt hb' l n = bt hb l n) -> (forall i, wd hb' (S l) i = wd hb (S l) i) ->
  link hb l -> link hb' l.
Proof. intros Hb Hw Hl n Hn. rewrite Hb, Hw by done. by apply Hl. Qed.

Lemma eff_link_below l f hb hb' j : eff l f hb hb' -> (S j < l)%nat -> link hb j -> link hb' j.
Proof.
  intros He Hj. apply link_ext; intros; unfold bt; rewrite (eff_wd _ _ _ _ He),
    bool_decide_eq_false_2 by lia; done.
Qed.

Lemma hb_set_between_ok l : forall hb start last,
  (l <= 6)%nat -> words_ok hb -> dims hb -> (forall j, (j < l)%nat -> link hb j) ->
  0 <= start <= last -> last / 64 < len hb l ->
  exists hb', hb_set_between l hb start last = Ret hb' /\ words_ok hb' /\
    same_above l hb hb' /\ (forall j, (j < l)%nat -> link hb' j) /\
    (forall n, 0 <= n -> bt hb' l n = bt hb l n || in_range start last n).
Proof.
  induction l as [|l IH]; intros hb start last Hl Hok Hd Hlink Hs Hlast;
    pose proof (dims_max hb Hd) as Hmax;
    destruct (hb_set_level_ok hb _ start last Hok Hs
      ltac:(specialize (Hmax 0%nat) + specialize (Hmax (S l)); mlia) Hlast)
      as (hb1 & ch & Hrun & He & Hch);
    cbn [hb_set_between]; rewrite Hrun; cbn [mbind outcome_bind];
    pose proof (fun n => bt_or _ _ _ _ _ n He) as Hbt;
    assert (words_ok hb1) as Hok1
      by (eapply eff_words_ok; [exact He|done|]; intros i;
          apply lor_range; [lia|apply Hok|apply rmask_range]).
  - exists hb1. split_and!; [done|done|by eapply eff_same_above|intros; lia|done].
  - pose proof (eff_same_above _ _ _ _ He) as Hsa.
    assert (forall j, (j < l)%nat -> link hb1 j) as Hlink1.
    { intros j Hj. eapply eff_link_below; [exact He|lia|]. apply Hlink. lia. }
    assert (forall n, wd hb1 (S l) n = 0 <->
              wd hb (S l) n = 0 /\ ~ (start / 64 <= n <= last / 64)) as Hz.
    { intros n. rewrite (eff_wd _ _ _ _ He), bool_decide_eq_true_2 by done.
      rewrite Z.lor_eq_0_iff, rmask_zero by done. done. }
    assert (forall n, bt hb1 l n = bt hb l n) as Hb1.
    { intros n. unfold bt. rewrite (eff_wd _ _ _ _ He), bool_decide_eq_false_2 by lia. done. }
    destruct ch.
    + rewrite !shiftr_6.
      destruct (IH hb1 (start / 64) (last / 64)) as (hb2 & -> & Hok2 & Hsa2 & Hlink2 & Hbt2);
        [lia|done|by eapply same_above_dims|done|mlia|..].
      { rewrite (sa_len _ _ _ Hsa). pose proof (dims_S hb Hd l ltac:(lia)). mlia. }
      exists hb2. split_and!; [done|done|eapply same_above_trans; [|exact Hsa|exact Hsa2]; lia|..].
      * intros j Hj. destruct (decide (j = l)) as [->|]; [|apply Hlink2; lia].
        intros n Hn. rewrite Hbt2, Hb1, (Hlink l) by (done || lia).
        rewrite (sa_wd _ _ _ Hsa2) by lia.
        apply eq_true_iff_eq. rewrite !orb_true_iff, !negb_true_iff, !Z.eqb_neq, Hz.
        unfold in_range. rewrite !andb_true_iff, !Z.leb_le.
        destruct (decide (start / 64 <= n <= last / 64)), (decide (wd hb (S l) n = 0)); tauto.
      * intros n Hn. rewrite <- Hbt by done. unfold bt. rewrite (sa_wd _ _ _ Hsa2) by lia. done.
    + exists hb1. split_and!; [done|done|done| |done].
      intros j Hj. destruct (decide (j = l)) as [->|]; [|apply Hlink1; lia].
      intros n Hn. rewrite Hb1, (Hlink l) by (done || lia). do 2 f_equal.
      apply eq_true_iff_eq. rewrite !Z.eqb_eq, Hz. split; [|tauto]. intros H0. split; [done|].
      intros Hk. assert (false = true); [|done]. apply Hch. eauto.
Qed.

(** ** Resetting a level *)

Lemma land_lnot w m : 0 <= w < 2 ^ 64 -> w &&& u64 (Z.lnot m) = Z.ldiff w m.
Proof.
  intros Hw. bits_ext i Hi. destruct (Z.leb_spec 0 i); [|lia].
  zcase; simpl; [done|]. rewrite (testbit_high 64 w) by lia. done.
Qed.

Lemma ldiff_range w m : 0 <= w < 2 ^ 64 -> 0 <= Z.ldiff w m < 2 ^ 64.
Proof. intros Hw. rewrite <- land_lnot by done. apply land_range_l; [lia|done]. Qed.

Lemma ldiff_all w : 0 <= w < 2 ^ 64 -> Z.ldiff w (2 ^ 64 - 1) = 0.
Proof.
  intros Hw. change (2 ^ 64 - 1) with (Z.ones 64). rewrite Z.ldiff_ones_r by lia.
  rewrite Z.shiftr_div_pow2, Z.div_small by lia. done.
Qed.

Lemma hb_reset_elem_ok w start last :
  0 <= w < 2 ^ 64 -> 0 <= start <= last -> last / 64 = start / 64 ->
  hb_reset_elem w start last =
    Ret (negb (w =? 0) && (Z.ldiff w (rmask start last (start / 64)) =? 0),
         Z.ldiff w (rmask start last (start / 64))).
Proof.
  intros Hw Hs He. unfold hb_reset_elem. rewrite !shiftr_6, He, Z.eqb_refl. simpl.
  destruct (Z.leb_spec start last); [|lia]. simpl. by rewrite elem_mask_spec, land_lnot.
Qed.

Lemma hb_reset_loop_ok l lastpos n : forall fuel hb i next ch,
  (n <= fuel)%nat -> 0 <= i -> lastpos = i + 1 + Z.of_nat n -> lastpos < 2 ^ 57 ->
  next = 64 * (i + 1) -> lastpos <= len hb l ->
  exists hb' ch',
    hb_reset_loop fuel hb l i next lastpos ch = Ret (hb', lastpos, 64 * lastpos, ch') /\
    eff l (fun k x => if (i <? k) && (k <? lastpos) then 0 else x) hb hb' /\
    (ch' = true <-> ch = true \/ exists k, i < k < lastpos /\ wd hb l k <> 0).
Proof.
  induction n as [|n IH]; intros fuel hb i next ch Hf Hi Hlast Hb -> Hlen.
  - exists hb, ch. assert (lastpos = i + 1) as -> by lia. split; [|split].
    + destruct fuel; simpl; by rewrite Z.eqb_refl.
    + eapply eff_ext; [|apply eff_id]. intros k. repeat zcase; simpl; try done; lia.
    + split; [by left|]. intros [?|(k & ? & _)]; [done|lia].
  - destruct fuel as [|fuel]; [lia|]. cbn [hb_reset_loop].
    destruct (Z.eqb_spec (i + 1) lastpos); [lia|].
    rewrite lvl_get_ok, lvl_put_ok by lia. cbn [mbind outcome_bind].
    set (hb1 := put hb l (i + 1) 0).
    assert (eff l (fun k x => if k =? i + 1 then 0 else x) hb hb1) as He
      by (apply eff_put; lia).
    destruct (IH fuel hb1 (i + 1) (u64 (64 * (i + 1) + BITS_PER_LONG))
                (ch || negb (wd hb l (i + 1) =? 0))) as (hb' & ch' & -> & He' & Hch);
      [lia|lia|lia|done|..].
    { unfold BITS_PER_LONG. rewrite wrap_small; lia. }
    { rewrite (eff_len _ _ _ _ He). done. }
    assert (forall k, k <> i + 1 -> wd hb1 l k = wd hb l k) as Hsame.
    { intros k Hk. rewrite (eff_wd _ _ _ _ He), bool_decide_eq_true_2 by done. zcase; lia. }
    exists hb', ch'. split; [done|]. split.
    + eapply eff_ext; [|eapply eff_trans; [exact He|exact He']].
      intros k. simpl. repeat (zcase; simpl); try done; lia.
    + rewrite Hch, orb_true_iff, negb_true_iff, Z.eqb_neq. clear Hch. split.
      * intros [[?|Hz]|(k & Hk & Hz)]; [by left|right; exists (i + 1); split; [lia|done]|].
        right. exists k. rewrite Hsame in Hz by lia. split; [lia|done].
      * intros [?|(k & Hk & Hz)]; [by left; left|].
        destruct (decide (k = i + 1)) as [->|]; [left; by right|].
        right. exists k. rewrite Hsame by lia. split; [lia|done].
Qed.

(** Where the words before the last one became zero. *)
Record reset_head_spec (hb hb' : HBitmap) (l : nat) (start last pos : Z) (ch : bool) : Prop := {
  rh_eff : eff l (fun k x => if k <? last / 64 then Z.ldiff x (rmask start last k) else x) hb hb';
  rh_pos : start / 64 <= pos <= last / 64;
  rh_zero : forall k, pos <= k < last / 64 -> wd hb' l k = 0;
  rh_new : forall k, start / 64 <= k < last / 64 -> wd hb l k <> 0 -> wd hb' l k = 0 ->
    ch = true /\ pos <= k;
  rh_some : ch = true -> pos < last / 64;
}.

(** The case of a range with several words, from the loop's result. *)
Lemma reset_head_several hb hb1 hb' l start last c ch :
  let w := Z.ldiff (wd hb l (start / 64)) (rmask start last (start / 64)) in
  words_ok hb -> 0 <= start -> start / 64 < last / 64 ->
  c = negb (wd hb l (start / 64) =? 0) && (w =? 0) ->
  eff l (fun k x => if k =? start / 64 then w else x) hb hb1 ->
  eff l (fun k x => if (start / 64 <? k) && (k <? last / 64) then 0 else x) hb1 hb' ->
  (ch = true <-> c = true \/ exists k, start / 64 < k < last / 64 /\ wd hb1 l k <> 0) ->
  reset_head_spec hb hb' l start last (if c : bool then start / 64 else start / 64 + 1) ch.
Proof.
  intros w Hok Hs Hlt Hc He He' Hch.
  assert (c = true <-> wd hb l (start / 64) <> 0 /\ w = 0) as Hc'.
  { rewrite Hc, andb_true_iff, negb_true_iff, Z.eqb_neq, Z.eqb_eq. done. }
  assert (forall k, wd hb1 l k = if k =? start / 64 then w else wd hb l k) as H1.
  { intros k. rewrite (eff_wd _ _ _ _ He), bool_decide_eq_true_2 by done. done. }
  assert (forall k, start / 64 <= k < last / 64 ->
            wd hb' l k = if k =? start / 64 then w else 0) as H2.
  { intros k Hk. rewrite (eff_wd _ _ _ _ He'), bool_decide_eq_true_2, H1 by done.
    repeat (zcase; simpl); try lia; done. }
  constructor.
  - eapply eff_ext; [|eapply eff_trans; [exact He|exact He']]. intros k. simpl.
    pose proof (Hok l k). destruct (Z.eqb_spec k (start / 64)) as [->|].
    + repeat (zcase; simpl); try lia; done.
    + destruct (Z.ltb_spec k (last / 64)); [|by rewrite andb_false_r].
      destruct (Z.ltb_spec (start / 64) k); simpl.
      * rewrite rmask_mid, ldiff_all by lia. done.
      * rewrite rmask_out, Z.ldiff_0_r by lia. done.
  - destruct c; lia.
  - intros k Hk. rewrite H2 by (destruct c; lia). zcase; [|done].
    destruct c; [tauto|lia].
  - intros k Hk Hold. rewrite H2 by done. destruct (Z.eqb_spec k (start / 64)) as [->|].
    + intros Hw. assert (c = true) as -> by tauto. split; [tauto|lia].
    + intros _. split; [|destruct c; lia]. apply Hch. right. exists k. rewrite H1.
      zcase; [lia|]. split; [lia|done].
  - intros [->|(k & Hk & _)]%Hch; [done|]. destruct c; lia.
Qed.

Lemma hb_reset_head_ok hb l start last :
  words_ok hb -> 0 <= start <= last -> last < 2 ^ 63 -> last / 64 < len hb l ->
  exists hb' i s ch pos,
    hb_reset_head hb l start last = Ret (hb', i, s, ch, pos) /\
    i = last / 64 /\ s = Z.max start (64 * (last / 64)) /\
    reset_head_spec hb hb' l start last pos ch.
Proof.
  intros Hok Hs Hl Hlen. unfold hb_reset_head. rewrite !shiftr_6.
  destruct (Z.ltb_spec (start / 64) (last / 64)) as [Hlt|Hge].
  2:{ assert (start / 64 = last / 64) as E by mlia.
      exists hb, (start / 64), start, false, (start / 64).
      split_and!; [done|done|mlia|]. constructor; try (intros; lia || done).
      eapply eff_ext; [|apply eff_id]. intros k. simpl. zcase; [|done].
      rewrite rmask_out, Z.ldiff_0_r by lia. done. }
  rewrite next_word by lia. rewrite lvl_get_ok by mlia. cbn [mbind outcome_bind].
  rewrite (wrap_small 64 (64 * (start / 64 + 1) - 1)) by mlia.
  rewrite hb_reset_elem_ok by (apply Hok || mlia). cbn [mbind outcome_bind].
  rewrite lvl_put_ok by mlia. cbn [mbind outcome_bind].
  assert (rmask start (64 * (start / 64 + 1) - 1) (start / 64) = rmask start last (start / 64))
    as -> by (apply rmask_ext; intros j Hj; range_cases; mlia).
  set (w := Z.ldiff _ _). set (hb1 := put hb l (start / 64) w).
  set (c := negb _ && _).
  assert (eff l (fun k x => if k =? start / 64 then w else x) hb hb1) as He
    by (apply eff_put; mlia).
  destruct (hb_reset_loop_ok l (last / 64) (Z.to_nat (last / 64 - start / 64 - 1))
    (Z.to_nat (last / 64 - start / 64)) hb1 (start / 64) (64 * (start / 64 + 1)) c)
    as (hb' & ch & -> & He' & Hch); [mlia..| |].
  { rewrite (eff_len _ _ _ _ He). lia. }
  cbn [mbind outcome_bind]. rewrite (wrap_small 64 (start / 64 + 1)) by mlia.
  eexists hb', (last / 64), (64 * (last / 64)), ch, _.
  split_and!; [reflexivity|done|mlia|].
  eapply reset_head_several; [done|lia|done|reflexivity|exact He|exact He'|exact Hch].
Qed.

(** What a level looks like afterwards, and the range to reset above it. *)
Record reset_level_spec (hb hb' : HBitmap) (l : nat) (start last pos lastpos : Z) (ch : bool) :
    Prop := {
  rl_eff : eff l (fun k x => Z.ldiff x (rmask start last k)) hb hb';
  rl_zero : ch = true -> start / 64 <= pos <= lastpos /\ lastpos <= last / 64 /\
    forall k, pos <= k <= lastpos -> wd hb' l k = 0;
  rl_new : forall k, start / 64 <= k <= last / 64 -> wd hb l k <> 0 -> wd hb' l k = 0 ->
    ch = true /\ pos <= k <= lastpos;
}.

Lemma hb_reset_level_ok hb l start last :
  words_ok hb -> 0 <= start <= last -> last < 2 ^ 63 -> last / 64 < len hb l ->
  exists hb' ch pos lastpos,
    hb_reset_level hb l start last = Ret (hb', ch, pos, lastpos) /\
    reset_level_spec hb hb' l start last pos lastpos ch.
Proof.
  intros Hok Hs Hl Hlen. unfold hb_reset_level.
  destruct (hb_reset_head_ok hb l start last) as (hb1 & i & s & ch & pos & -> & -> & -> & Hh);
    [done..|].
  pose proof (rh_eff _ _ _ _ _ _ _ Hh) as He.
  assert (forall k, last / 64 <= k -> wd hb1 l k = wd hb l k) as Hsame.
  { intros k Hk. rewrite (eff_wd _ _ _ _ He), bool_decide_eq_true_2 by done. zcase; [lia|done]. }
  cbn [mbind outcome_bind].
  assert (0 <= last / 64 < len hb1 l) by (rewrite (eff_len _ _ _ _ He); mlia).
  rewrite lvl_get_ok by done. cbn [mbind outcome_bind].
  set (s := Z.max start (64 * (last / 64))).
  assert (s / 64 = last / 64) as Es by (subst s; mlia).
  rewrite Hsame by lia. rewrite hb_reset_elem_ok, Es by (apply Hok || (subst s; mlia)).
  assert (rmask s last (last / 64) = rmask start last (last / 64)) as ->.
  { apply rmask_ext. intros j Hj. subst s. range_cases; mlia. }
  cbn [mbind outcome_bind]. rewrite lvl_put_ok by done. cbn [mbind outcome_bind].
  set (w := Z.ldiff _ _). set (c := negb _ && _). set (hb2 := put hb1 l (last / 64) w).
  assert (eff l (fun k x => if k =? last / 64 then w else x) hb1 hb2) as He2
    by (by apply eff_put).
  assert (forall k, wd hb2 l k = if k =? last / 64 then w else wd hb1 l k) as H2.
  { intros k. rewrite (eff_wd _ _ _ _ He2), bool_decide_eq_true_2 by done. done. }
  assert (c = true <-> wd hb l (last / 64) <> 0 /\ w = 0) as Hc.
  { subst c. rewrite andb_true_iff, negb_true_iff, Z.eqb_neq, Z.eqb_eq. done. }
  eexists hb2, (ch || c), pos, _. split; [reflexivity|].
  rewrite shiftr_6. destruct Hh as [_ Hpos Hzero Hnew Hsome]. constructor.
  - eapply eff_ext; [|eapply eff_trans; [exact He|exact He2]].
    intros k. simpl. destruct (Z.eqb_spec k (last / 64)) as [->|]; [done|].
    zcase; [done|]. rewrite rmask_out, Z.ldiff_0_r by lia. done.
  - rewrite orb_true_iff. intros Hch. destruct c.
    + split_and!; [lia..|]. intros k Hk. rewrite H2. zcase; [tauto|]. apply Hzero. lia.
    + destruct Hch as [Hch|]; [|done]. specialize (Hsome Hch).
      rewrite wrap_small by mlia. split_and!; [lia..|].
      intros k Hk. rewrite H2. zcase; [lia|]. apply Hzero. lia.
  - intros k Hk Hold. rewrite H2. destruct (Z.eqb_spec k (last / 64)) as [->|].
    + intros Hw. assert (c = true) as -> by tauto. rewrite orb_true_r. lia.
    + intros Hw. destruct (Hnew k ltac:(lia) Hold Hw) as [-> Hp]. split; [done|].
      destruct c; [lia|]. rewrite wrap_small by mlia. lia.
Qed.

Lemma bt_diff hb hb' l start last n :
  eff l (fun k x => Z.ldiff x (rmask start last k)) hb hb' -> 0 <= n ->
  bt hb' l n = bt hb l n && negb (in_range start last n).
Proof.
  intros He Hn. unfold bt. rewrite (eff_wd _ _ _ _ He), bool_decide_eq_true_2 by done.
  rewrite Z.ldiff_spec, testbit_rmask by mlia. destruct (Z.ltb_spec (n mod 64) 64); [|mlia].
  simpl. do 3 f_equal. mlia.
Qed.

(** The words of a reset level, against the range to reset above it. *)
Lemma reset_level_zero hb hb' l start last pos lastpos ch n :
  reset_level_spec hb hb' l start last pos lastpos ch ->
  wd hb' l n = 0 <-> wd hb l n = 0 \/ (ch = true /\ pos <= n <= lastpos).
Proof.
  intros [He Hz Hn]. split.
  - intros H0. destruct (decide (wd hb l n = 0)) as [|Hold]; [by left|]. right.
    destruct (decide (start / 64 <= n <= last / 64)); [by apply Hn|].
    rewrite (eff_wd _ _ _ _ He), bool_decide_eq_true_2, rmask_out, Z.ldiff_0_r in H0
      by (done || lia). done.
  - intros [H0|[-> Hr]]; [|by apply Hz].
    rewrite (eff_wd _ _ _ _ He), bool_decide_eq_true_2, H0, Z.ldiff_0_l by done. done.
Qed.

Lemma hb_reset_between_ok l : forall hb start last,
  (l <= 6)%nat -> words_ok hb -> dims hb -> (forall j, (j < l)%nat -> link hb j) ->
  0 <= start <= last -> last / 64 < len hb l ->
  exists hb', hb_reset_between l hb start last = Ret hb' /\ words_ok hb' /\
    same_above l hb hb' /\ (forall j, (j < l)%nat -> link hb' j) /\
    (forall n, 0 <= n -> bt hb' l n = bt hb l n && negb (in_range start last n)).
Proof.
  induction l as [|l IH]; intros hb start last Hl Hok Hd Hlink Hs Hlast;
    pose proof (dims_max hb Hd) as Hmax;
    destruct (hb_reset_level_ok hb _ start last Hok Hs
      ltac:(specialize (Hmax 0%nat) + specialize (Hmax (S l)); mlia) Hlast)
      as (hb1 & ch & pos & lastpos & Hrun & Hspec);
    cbn [hb_reset_between]; rewrite Hrun; cbn [mbind outcome_bind];
    pose proof (rl_eff _ _ _ _ _ _ _ _ Hspec) as He;
    pose proof (fun n => bt_diff _ _ _ _ _ n He) as Hbt;
    assert (words_ok hb1) as Hok1
      by (eapply eff_words_ok; [exact He|done|]; intros i; apply ldiff_range, Hok).
  - exists hb1. split_and!; [done|done|by eapply eff_same_above|intros; lia|done].
  - pose proof (eff_same_above _ _ _ _ He) as Hsa.
    assert (forall j, (j < l)%nat -> link hb1 j) as Hlink1.
    { intros j Hj. eapply eff_link_below; [exact He|lia|]. apply Hlink. lia. }
    pose proof (fun n => reset_level_zero _ _ _ _ _ _ _ _ n Hspec) as Hz.
    assert (forall n, bt hb1 l n = bt hb l n) as Hb1.
    { intros n. unfold bt. rewrite (eff_wd _ _ _ _ He), bool_decide_eq_false_2 by lia. done. }
    destruct ch.
    + destruct (rl_zero _ _ _ _ _ _ _ _ Hspec eq_refl) as (Hp1 & Hp2 & _).
      destruct (IH hb1 pos lastpos) as (hb2 & -> & Hok2 & Hsa2 & Hlink2 & Hbt2);
        [lia|done|by eapply same_above_dims|done|mlia|..].
      { rewrite (sa_len _ _ _ Hsa). pose proof (dims_S hb Hd l ltac:(lia)). mlia. }
      exists hb2. split_and!; [done|done|eapply same_above_trans; [|exact Hsa|exact Hsa2]; lia|..].
      * intros j Hj. destruct (decide (j = l)) as [->|]; [|apply Hlink2; lia].
        intros n Hn. rewrite Hbt2, Hb1, (Hlink l) by (done || lia).
        rewrite (sa_wd _ _ _ Hsa2) by lia.
        assert (pos <= n <= lastpos -> ~ (l = 0%nat /\ n = 63)) as Hsent.
        { intros Hr [-> ->]. pose proof (dims_1 hb Hd). lia. }
        apply eq_true_iff_eq. unfold in_range.
        rewrite andb_true_iff, !orb_true_iff, !negb_true_iff, !Z.eqb_neq, Hz, andb_false_iff,
          andb_true_iff, !Z.leb_gt, Nat.eqb_eq, Z.eqb_eq.
        destruct (decide (pos <= n <= lastpos)) as [Hr|Hr]; [|tauto || lia].
        specialize (Hsent Hr). split; [lia|tauto].
      * intros n Hn. rewrite <- Hbt by done. unfold bt. rewrite (sa_wd _ _ _ Hsa2) by lia. done.
    + exists hb1. split_and!; [done|done|done| |done].
      intros j Hj. destruct (decide (j = l)) as [->|]; [|apply Hlink1; lia].
      intros n Hn. rewrite Hb1, (Hlink l) by (done || lia). do 2 f_equal.
      apply eq_true_iff_eq. rewrite !Z.eqb_eq, Hz. intuition congruence.
Qed.

(** ** Iteration *)

Lemma hi_bits_0 w : hi_bits w 0 = w.
Proof. unfold hi_bits. apply Z.ldiff_0_r. Qed.

Lemma hi_bits_range w k : 0 <= w < 2 ^ 64 -> 0 <= hi_bits w k < 2 ^ 64.
Proof. apply ldiff_range. Qed.

(** The iterator's words above level [i], for the path to word [q] of it:
    on each level the bits after the path. *)
Fixpoint path (hb : HBitmap) (i : nat) (cur : list Z) (q : Z) : Prop :=
  match i with
  | O => q = 0
  | S i => cur !! i = Some (hi_bits (wd hb i (q / 64)) (q mod 64 + 1)) /\ path hb i cur (q / 64)
  end.

Lemma path_ext hb i cur cur' q :
  (forall j, (j < i)%nat -> cur' !! j = cur !! j) -> path hb i cur q -> path hb i cur' q.
Proof.
  revert q; induction i as [|i IH]; intros q Hc; [done|]. intros [H1 H2]. split.
  - rewrite Hc by lia. done.
  - apply IH; [|done]. intros. apply Hc. lia.
Qed.

(** The links and sizes iteration relies on. *)
Record tree (hb : HBitmap) : Prop := {
  tree_words : words_ok hb;
  tree_dims : dims hb;
  tree_link : forall l, (l < 6)%nat -> link hb l;
}.

Lemma nonzero_len hb l i : wd hb l i <> 0 -> 0 <= i < len hb l.
Proof.
  intros H. destruct (decide (0 <= i < len hb l)); [done|]. rewrite wd_out in H; done.
Qed.

(** One step down, from the bits [k] and up of word [g] of level [l]. *)
Lemma skip_down_one hb l g k c cur :
  tree hb -> (l < 6)%nat -> 0 <= g < 2 ^ 57 -> 0 <= k <= 64 -> (l < length cur)%nat ->
  c = hi_bits (wd hb l g) k -> c <> 0 -> ~ (l = 0%nat /\ c = 2 ^ 63) ->
  exists w b,
    w = 64 * g + b /\ k <= b < 64 /\
    skip_down 1 hb l cur g c =
      Ret (<[l := hi_bits (wd hb l g) (b + 1)]> cur, w, wd hb (S l) w) /\
    wd hb (S l) w <> 0 /\
    (forall j, 64 * g + k <= j < w -> wd hb (S l) j = 0).
Proof.
  intros [Hok Hd Hlink] Hl Hg Hk Hcur -> Hc Hsent.
  pose proof (hi_bits_range (wd hb l g) k (Hok l g)) as Hr.
  destruct (ctzl_spec (hi_bits (wd hb l g) k) ltac:(lia)) as (Hb & Hbit & Hlow).
  set (b := ctzl _) in *. rewrite testbit_hi_bits in Hbit by lia.
  apply andb_true_iff in Hbit as [Hbit Hkb%Z.leb_le].
  assert (forall j, 0 <= j < 64 -> bt hb l (64 * g + j) = Z.testbit (wd hb l g) j) as Hbt.
  { intros j Hj. unfold bt. f_equal; [f_equal|]; mlia. }
  assert (wd hb (S l) (64 * g + b) <> 0) as Hnz.
  { rewrite <- Hbt, (Hlink l Hl), orb_true_iff, negb_true_iff, Z.eqb_neq in Hbit by lia.
    destruct Hbit as [?|[->%Nat.eqb_eq Hn%Z.eqb_eq]%andb_true_iff]; [done|].
    exfalso. apply Hsent. split; [done|].
    assert (len hb 0 = 1) by apply Hd.
    apply Z.bits_inj'. intros j Hj. rewrite testbit_pow2 by lia.
    destruct (Z.eqb_spec j 63) as [->|].
    - assert (b = 63) as <- by mlia. rewrite testbit_hi_bits by lia.
      rewrite <- Hbt by lia. rewrite (Hlink 0%nat), Hn by lia. simpl.
      rewrite orb_true_r. simpl. apply Z.leb_le. lia.
    - destruct (decide (j < 63)); [apply Hlow; mlia|]. apply (testbit_high 64); lia. }
  exists (64 * g + b), b. split; [done|]. split; [lia|]. split; [|split; [done|]].
  - cbn [skip_down]. rewrite (proj2 (Z.eqb_neq _ _) Hc). cbn [cassert negb mbind outcome_bind].
    unfold BITS_PER_LEVEL. rewrite Z.shiftl_mul_pow2 by lia. fold b.
    rewrite (wrap_small 64 (g * 2 ^ 6)), (wrap_small 64 (g * 2 ^ 6 + b)) by lia.
    replace (g * 2 ^ 6 + b) with (64 * g + b) by lia.
    rewrite lvl_get_ok by (by apply nonzero_len). cbn [mbind outcome_bind].
    rewrite clear_lowest by lia. fold b. do 4 f_equal.
    apply Z.bits_inj'. intros j Hj. rewrite !testbit_hi_bits by lia.
    repeat (zcase; simpl); try lia; by rewrite ?andb_true_r, ?andb_false_r.
  - intros j Hj. destruct (decide (wd hb (S l) j = 0)) as [|Hj0]; [done|]. exfalso.
    assert (bt hb l j = true) as Hjb.
    { rewrite (Hlink l Hl) by lia. rewrite (proj2 (Z.eqb_neq _ _) Hj0). done. }
    replace j with (64 * g + (j - 64 * g)) in Hjb by lia. rewrite Hbt in Hjb by lia.
    specialize (Hlow (j - 64 * g) ltac:(lia)). rewrite testbit_hi_bits, Hjb in Hlow by lia.
    revert Hlow. zcase; [done|lia].
Qed.

Lemma skip_down_app m n : forall hb i cur pos c,
  skip_down (m + n) hb i cur pos c =
    ('(cur, pos, c) ← skip_down m hb i cur pos c; skip_down n hb (m + i) cur pos c).
Proof.
  induction m as [|m IH]; intros hb i cur pos c; [done|]. cbn [Nat.add skip_down].
  destruct (cassert _); [|done|done]. cbn [mbind outcome_bind].
  destruct (lvl_get _ _ _); [|done|done]. cbn [mbind outcome_bind]. rewrite IH.
  by replace (m + S i)%nat with (S (m + i)) by lia.
Qed.

(** Word [w] is the first nonzero one of level [l] after word [q]. *)
Record next_nz (hb : HBitmap) (l : nat) (q w : Z) : Prop := {
  nz_after : q < w;
  nz_nonzero : wd hb l w <> 0;
  nz_between : forall k, q < k < w -> wd hb l k = 0;
}.

(** From the end of a word of level [l] to the first nonzero word of the next
    level after [q]. *)
Lemma next_nz_step hb l q w k b w' :
  tree hb -> (l < 6)%nat -> 0 <= q ->
  (q / 64 = w /\ k = q mod 64 + 1 \/
   next_nz hb l (q / 64) w /\ k = 0 /\ hi_bits (wd hb l (q / 64)) (q mod 64 + 1) = 0) ->
  w' = 64 * w + b -> k <= b < 64 -> wd hb (S l) w' <> 0 ->
  (forall j, 64 * w + k <= j < w' -> wd hb (S l) j = 0) ->
  next_nz hb (S l) q w'.
Proof.
  intros Ht Hl Hq Hcase -> Hb Hnz Hbetween.
  constructor; [|done|].
  - destruct Hcase as [[<- ->]|[[Hlt _ _] [-> _]]]; mlia.
  - intros j Hj. destruct (decide (64 * w + k <= j)); [apply Hbetween; lia|].
    destruct Hcase as [[<- ->]|([Hlt _ Hz] & -> & H0)]; [exfalso; mlia|].
    destruct (decide (wd hb (S l) j = 0)) as [|Hj0]; [done|]. exfalso.
    assert (bt hb l j = true) as Hjb.
    { rewrite (tree_link hb Ht l Hl) by lia. rewrite (proj2 (Z.eqb_neq _ _) Hj0). done. }
    destruct (decide (j / 64 = q / 64)) as [E|].
    + apply (f_equal (fun x => Z.testbit x (j mod 64))) in H0.
      rewrite testbit_hi_bits, <- E, Z.testbit_0_l in H0 by mlia.
      unfold bt in Hjb. rewrite Hjb in H0. revert H0. zcase; [done|mlia].
    + unfold bt in Hjb. rewrite Hz, Z.testbit_0_l in Hjb by mlia. done.
Qed.

(** The end of the search one level down. *)
Lemma none_step hb l q :
  tree hb -> (l < 6)%nat -> 0 <= q ->
  (forall k, q / 64 < k -> wd hb l k = 0) ->
  hi_bits (wd hb l (q / 64)) (q mod 64 + 1) = 0 ->
  forall k, q < k -> wd hb (S l) k = 0.
Proof.
  intros Ht Hl Hq Hz H0 k Hk. destruct (decide (wd hb (S l) k = 0)) as [|Hk0]; [done|]. exfalso.
  assert (bt hb l k = true) as Hkb.
  { rewrite (tree_link hb Ht l Hl) by lia. rewrite (proj2 (Z.eqb_neq _ _) Hk0). done. }
  unfold bt in Hkb. destruct (decide (k / 64 = q / 64)) as [E|].
  - apply (f_equal (fun x => Z.testbit x (k mod 64))) in H0.
    rewrite testbit_hi_bits, <- E, Z.testbit_0_l, Hkb in H0 by mlia.
    revert H0. zcase; [done|mlia].
  - rewrite Hz, Z.testbit_0_l in Hkb by mlia. done.
Qed.

(** At the top: the sentinel ends the search. *)
Lemma sentinel hb q :
  tree hb -> 0 <= q < len hb 1 ->
  hi_bits (wd hb 0 (q / 64)) (q mod 64 + 1) <> 0 /\
  (hi_bits (wd hb 0 (q / 64)) (q mod 64 + 1) = 2 ^ 63 -> forall k, q < k -> wd hb 1 k = 0).
Proof.
  intros Ht Hq. pose proof (dims_1 hb (tree_dims hb Ht)).
  assert (q / 64 = 0) as -> by mlia. assert (q mod 64 = q) as -> by mlia.
  assert (forall j, 0 <= j < 64 -> Z.testbit (wd hb 0 0) j = bt hb 0 j) as Hbt.
  { intros j Hj. unfold bt. f_equal; [f_equal|]; mlia. }
  pose proof (tree_link hb Ht 0%nat ltac:(lia)) as Hlink. split.
  - intros H0. apply (f_equal (fun x => Z.testbit x 63)) in H0.
    rewrite testbit_hi_bits, Hbt, Hlink, orb_true_r, Z.testbit_0_l in H0 by lia.
    revert H0. simpl. zcase; [done|lia].
  - intros H0 k Hk. destruct (decide (wd hb 1 k = 0)) as [|Hk0]; [done|]. exfalso.
    pose proof (nonzero_len hb 1 k Hk0).
    apply (f_equal (fun x => Z.testbit x k)) in H0.
    rewrite testbit_hi_bits, Hbt, Hlink, testbit_pow2, (proj2 (Z.eqb_neq _ _) Hk0) in H0 by lia.
    revert H0. simpl. repeat zcase; done || lia.
Qed.

Lemma path_step hb l cur q w b :
  w = 64 * q + b -> 0 <= b < 64 -> (l < length cur)%nat -> path hb l cur q ->
  path hb (S l) (<[l := hi_bits (wd hb l q) (b + 1)]> cur) w.
Proof.
  intros -> Hb Hl Hp.
  assert ((64 * q + b) / 64 = q) as E by mlia. assert ((64 * q + b) mod 64 = b) as E' by mlia.
  split; rewrite E; [rewrite E'; by apply list_lookup_insert_eq|].
  eapply path_ext; [|exact Hp]. intros j Hj. apply list_lookup_insert_ne. lia.
Qed.

Lemma skip_up_S i cur pos c :
  cur !! i = Some c ->
  skip_up (S i) cur pos = if c =? 0 then skip_up i cur (pos / 64) else Ret (i, c, pos / 64).
Proof. intros Hc. cbn [skip_up]. unfold cur_get. rewrite Hc, shiftr_6. done. Qed.

Lemma skip_ok hb i : forall cur q,
  tree hb -> (S i <= 6)%nat -> 0 <= q < len hb (S i) -> (6 <= length cur)%nat ->
  path hb (S i) cur q ->
  (exists w i0 c pos cur',
     next_nz hb (S i) q w /\ skip_up (S i) cur q = Ret (i0, c, pos) /\ (i0 <= i)%nat /\
     ~ (i0 = 0%nat /\ c = 2 ^ 63) /\
     skip_down (S i - i0) hb i0 cur pos c = Ret (cur', w, wd hb (S i) w) /\
     path hb (S i) cur' w /\ length cur' = length cur /\
     (forall j, (i < j)%nat -> cur' !! j = cur !! j)) \/
  ((forall k, q < k -> wd hb (S i) k = 0) /\
   exists pos, skip_up (S i) cur q = Ret (0%nat, 2 ^ 63, pos)).
Proof.
  induction i as [|i IH]; intros cur q Ht Hi Hq Hcur [Hc Hp];
    pose proof (dims_max hb (tree_dims hb Ht)) as Hmax;
    rewrite (skip_up_S _ _ _ _ Hc); set (c := hi_bits _ _) in *.
  - destruct (sentinel hb q Ht Hq) as [Hc0 Hend]. fold c in Hc0, Hend.
    rewrite (proj2 (Z.eqb_neq _ _) Hc0).
    destruct (decide (c = 2 ^ 63)) as [->|Hne]; [right; eauto|left].
    destruct (skip_down_one hb 0 (q / 64) (q mod 64 + 1) c cur)
      as (w & b & Hw & Hb & Hdown & Hnz & Hbt); [done|lia|specialize (Hmax 1%nat); mlia|
        mlia|lia|done|done|tauto|].
    eexists w, 0%nat, c, (q / 64), _. split_and!; [|done|lia|tauto|exact Hdown|..].
    + apply (next_nz_step hb 0 q (q / 64) (q mod 64 + 1) b w); [done|lia|lia|by left|done|lia|done|done].
    + eapply path_step; [done|mlia|lia|done].
    + apply length_insert.
    + intros j Hj. apply list_lookup_insert_ne. lia.
  - destruct (Z.eqb_spec c 0) as [Hc0|Hc0].
    + destruct (IH cur (q / 64)) as [(w & i0 & c0 & pos & cur' & Hn & Hup & Hi0 & Hs & Hdown & Hp' & Hl & Hr)
        |[Hz [pos Hup]]]; [done|lia| |done|done|..].
      { pose proof (dims_S hb (tree_dims hb Ht) (S i) ltac:(lia)). mlia. }
      * left. destruct (skip_down_one hb (S i) w 0 (wd hb (S i) w) cur')
          as (w' & b & Hw & Hb & Hdown' & Hnz & Hbt);
          [done|lia| |lia|rewrite Hl; lia|by rewrite hi_bits_0|apply Hn|by intros [? _]|].
        { pose proof (nonzero_len hb (S i) w ltac:(apply Hn)). specialize (Hmax (S i)). lia. }
        eexists w', i0, c0, pos, _.
        split_and!; [|exact Hup|lia|done| |..].
        -- apply (next_nz_step hb (S i) q w 0 b w'); [done|lia|lia|by right|done|lia|done|done].
        -- replace (S (S i) - i0)%nat with (S i - i0 + 1)%nat by lia.
           rewrite skip_down_app, Hdown. cbn [mbind outcome_bind].
           replace (S i - i0 + i0)%nat with (S i) by lia. exact Hdown'.
        -- eapply path_step; [done|lia|lia|done].
        -- by rewrite length_insert.
        -- intros j Hj. rewrite list_lookup_insert_ne by lia. apply Hr. lia.
      * right. split; [|eauto]. apply none_step; [done|lia|lia|done|done].
    + left. destruct (skip_down_one hb (S i) (q / 64) (q mod 64 + 1) c cur)
        as (w & b & Hw & Hb & Hdown & Hnz & Hbt); [done|lia|specialize (Hmax (S (S i))); mlia|
          mlia|lia|done|done|by intros [? _]|].
      eexists w, (S i), c, (q / 64), _. split_and!; [|done|lia|by intros [? _]| |..].
      * apply (next_nz_step hb (S i) q (q / 64) (q mod 64 + 1) b w); [done|lia|lia|by left|done|lia|done|done].
      * replace (S (S i) - S i)%nat with 1%nat by lia. exact Hdown.
      * eapply path_step; [done|mlia|lia|done].
      * apply length_insert.
      * intros j Hj. apply list_lookup_insert_ne. lia.
Qed.

#[global] Arguments path : simpl never.

(** An iterator on the path to its word. *)
Record iter_path (hb : HBitmap) (hbi : HBitmapIter) : Prop := {
  ip_gran : hbi_granularity hbi = granularity hb;
  ip_len : length (hbi_cur hbi) = HBITMAP_LEVELS;
  ip_pos : 0 <= hbi_pos hbi < len hb 6;
  ip_path : path hb 6 (hbi_cur hbi) (hbi_pos hbi);
}.

(** An iterator that has the bits from [k] on to visit. *)
Record iter_at (hb : HBitmap) (hbi : HBitmapIter) (k : Z) : Prop := {
  ia_path : iter_path hb hbi;
  ia_k : 64 * hbi_pos hbi <= k <= 64 * hbi_pos hbi + 64;
  ia_cur : hbi_cur hbi !! 6%nat =
    Some (hi_bits (wd hb 6 (hbi_pos hbi)) (k - 64 * hbi_pos hbi));
}.

Lemma set_cur_at hb hbi k :
  iter_path hb hbi -> 64 * hbi_pos hbi <= k <= 64 * hbi_pos hbi + 64 ->
  iter_at hb (set_cur hbi 6 (hi_bits (wd hb 6 (hbi_pos hbi)) (k - 64 * hbi_pos hbi))) k.
Proof.
  intros [] Hk. constructor; [constructor; simpl; try done|done|].
  - by rewrite length_insert.
  - eapply path_ext; [|done]. intros j Hj. apply list_lookup_insert_ne. lia.
  - simpl. apply list_lookup_insert_eq. rewrite ip_len0. unfold HBITMAP_LEVELS. lia.
Qed.

Lemma skip_words_ok hb hbi :
  tree hb -> iter_path hb hbi ->
  (exists hbi', hbitmap_iter_skip_words hb hbi = Ret (hbi', wd hb 6 (hbi_pos hbi')) /\
     next_nz hb 6 (hbi_pos hbi) (hbi_pos hbi') /\ iter_path hb hbi') \/
  ((forall k, hbi_pos hbi < k -> wd hb 6 k = 0) /\
   hbitmap_iter_skip_words hb hbi = Ret (hbi, 0)).
Proof.
  intros Ht [Hg Hlen Hpos Hp]. unfold hbitmap_iter_skip_words, HBITMAP_LEVELS.
  change (7 - 1)%nat with 6%nat.
  destruct (skip_ok hb 5 (hbi_cur hbi) (hbi_pos hbi)) as
    [(w & i0 & c & pos & cur & Hn & -> & Hi0 & Hs & Hd & Hp' & Hl & Hr)|[Hz [pos ->]]];
    [done|lia|done|rewrite Hlen; unfold HBITMAP_LEVELS; lia|done|..].
  - left. cbn [mbind outcome_bind].
    replace ((i0 =? 0)%nat && (c =? 1 << (BITS_PER_LONG - 1))) with false.
    2:{ symmetry. apply not_true_is_false. intros [?%Nat.eqb_eq ?%Z.eqb_eq]%andb_true_iff.
        apply Hs. split; [done|]. subst c. done. }
    rewrite Hd. cbn [mbind outcome_bind].
    rewrite (proj2 (Z.eqb_neq _ _) (nz_nonzero _ _ _ _ Hn)). cbn [cassert negb mbind outcome_bind].
    exists {| hbi_granularity := hbi_granularity hbi; hbi_pos := w; hbi_cur := cur |}.
    cbn [hbi_pos]. split; [done|]. split; [done|]. constructor; simpl; try done.
    + by rewrite Hl.
    + apply nonzero_len, Hn.
  - right. split; [done|]. done.
Qed.

Lemma iter_word_ok hb hbi k :
  tree hb -> iter_at hb hbi k ->
  (exists hbi' lo,
     iter_word hb hbi = Ret (hbi', hi_bits (wd hb 6 (hbi_pos hbi')) lo) /\
     hi_bits (wd hb 6 (hbi_pos hbi')) lo <> 0 /\ iter_path hb hbi' /\ 0 <= lo <= 64 /\
     k <= 64 * hbi_pos hbi' + lo /\ (lo = 0 \/ 64 * hbi_pos hbi' + lo = k) /\
     (forall n, k <= n < 64 * hbi_pos hbi' + lo -> bt hb 6 n = false)) \/
  ((forall n, k <= n -> bt hb 6 n = false) /\ iter_word hb hbi = Ret (hbi, 0)).
Proof.
  intros Ht [Hp Hk Hc]. unfold iter_word, cur_get, HBITMAP_LEVELS. simpl (7 - 1)%nat.
  rewrite Hc. cbn [mbind outcome_bind].
  destruct (Z.eqb_spec (hi_bits (wd hb 6 (hbi_pos hbi)) (k - 64 * hbi_pos hbi)) 0) as [H0|H0].
  - assert (forall n, k <= n < 64 * hbi_pos hbi + 64 -> bt hb 6 n = false) as Hthis.
    { intros n Hn. apply (f_equal (fun x => Z.testbit x (n - 64 * hbi_pos hbi))) in H0.
      rewrite testbit_hi_bits, Z.testbit_0_l in H0 by lia. unfold bt.
      assert (n / 64 = hbi_pos hbi) as -> by mlia.
      replace (n mod 64) with (n - 64 * hbi_pos hbi) by mlia.
      revert H0. zcase; [by rewrite andb_true_r|lia]. }
    pose proof (ip_pos _ _ Hp).
    destruct (skip_words_ok hb hbi Ht Hp) as [(hbi' & -> & Hn & Hp')|[Hz ->]].
    + left. exists hbi', 0. rewrite hi_bits_0. destruct Hn as [H1 H2 H3].
      split_and!; [done|done|done|lia|lia|lia|by left|]. intros n Hn.
      destruct (decide (n < 64 * hbi_pos hbi + 64)); [apply Hthis; lia|].
      unfold bt. rewrite H3, Z.testbit_0_l by mlia. done.
    + right. split; [|done]. intros n Hn.
      destruct (decide (n < 64 * hbi_pos hbi + 64)); [apply Hthis; lia|].
      unfold bt. rewrite Hz, Z.testbit_0_l by mlia. done.
  - left. exists hbi, (k - 64 * hbi_pos hbi). split_and!; [done|done|done|lia|lia|lia|right; lia|].
    intros n Hn. lia.
Qed.

(** The first set bit from [k] on. *)
Record next_bit (hb : HBitmap) (k n : Z) : Prop := {
  nb_after : k <= n;
  nb_set : bt hb 6 n = true;
  nb_between : forall m, k <= m < n -> bt hb 6 m = false;
}.

Lemma hbitmap_iter_next_ok hb hbi k :
  tree hb -> iter_at hb hbi k ->
  (exists hbi' n, next_bit hb k n /\
     hbitmap_iter_next hb hbi = Ret (hbi', s64 (n << granularity hb)) /\ iter_at hb hbi' (n + 1)) \/
  ((forall n, k <= n -> bt hb 6 n = false) /\ hbitmap_iter_next hb hbi = Ret (hbi, -1)).
Proof.
  intros Ht Hat. unfold hbitmap_iter_next.
  destruct (iter_word_ok hb hbi k Ht Hat) as [(hbi' & lo & -> & Hnz & Hp & Hlo & Hk & _ & Hz)|[Hz ->]];
    [left|right; done].
  cbn [mbind outcome_bind]. rewrite (proj2 (Z.eqb_neq _ _) Hnz).
  set (c := hi_bits _ _) in *.
  pose proof (hi_bits_range (wd hb 6 (hbi_pos hbi')) lo (tree_words _ Ht _ _)) as Hr. fold c in Hr.
  destruct (ctzl_spec c) as (Hb & Hbit & Hlow); [lia|]. set (b := ctzl c) in *.
  unfold c in Hbit. rewrite testbit_hi_bits in Hbit by lia.
  apply andb_true_iff in Hbit as [Hbit Hlob%Z.leb_le].
  pose proof (ip_pos _ _ Hp). pose proof (dims_max _ (tree_dims _ Ht) 6%nat).
  assert (hi_bits c (b + 1) = hi_bits (wd hb 6 (hbi_pos hbi')) (64 * hbi_pos hbi' + b + 1
            - 64 * hbi_pos hbi')) as Hc.
  { unfold c. apply Z.bits_inj'. intros j Hj. rewrite !testbit_hi_bits by lia.
    repeat (zcase; simpl); try lia; by rewrite ?andb_true_r, ?andb_false_r. }
  assert (forall j, 0 <= j < 64 -> bt hb 6 (64 * hbi_pos hbi' + j) =
            Z.testbit (wd hb 6 (hbi_pos hbi')) j) as Hbt.
  { intros j Hj. unfold bt. f_equal; [f_equal|]; mlia. }
  eexists _, (64 * hbi_pos hbi' + b). split; [constructor|split].
  - lia.
  - rewrite Hbt by lia. done.
  - intros m Hm. destruct (decide (m < 64 * hbi_pos hbi' + lo)); [apply Hz; lia|].
    replace m with (64 * hbi_pos hbi' + (m - 64 * hbi_pos hbi')) by lia. rewrite Hbt by lia.
    specialize (Hlow (m - 64 * hbi_pos hbi') ltac:(lia)). unfold c in Hlow.
    rewrite testbit_hi_bits in Hlow by lia. revert Hlow.
    zcase; [by rewrite andb_true_r|lia].
  - rewrite clear_lowest by lia. fold b. cbn [set_cur hbi_pos hbi_granularity].
    unfold BITS_PER_LEVEL. rewrite (Z.shiftl_mul_pow2 _ 6) by lia.
    rewrite (wrap_small 64 (hbi_pos hbi' * 2 ^ 6)) by lia.
    replace (hbi_pos hbi' * 2 ^ 6 + b) with (64 * hbi_pos hbi' + b) by lia.
    rewrite (wrap_small 64 (64 * hbi_pos hbi' + b)) by lia.
    rewrite (sext_small 64 (64 * hbi_pos hbi' + b)), (ip_gran _ _ Hp) by lia. reflexivity.
  - rewrite Hc. change (HBITMAP_LEVELS - 1)%nat with 6%nat. apply set_cur_at; [done|lia].
Qed.

Lemma iter_fill_S hb i pos cur :
  0 <= pos / 64 < len hb i ->
  iter_fill (S i) hb pos cur =
    iter_fill i hb (pos / 64)
      (<[i := let c := wd hb i (pos / 64) &&& u64 (Z.lnot ((1 << (pos mod 64)) - 1)) in
              if (i =? HBITMAP_LEVELS - 1)%nat then c
              else c &&& u64 (Z.lnot (1 << (pos mod 64)))]> cur).
Proof. intros H. cbn [iter_fill]. by rewrite shiftr_6, land_63, lvl_get_ok. Qed.

Lemma iter_fill_ok hb i : forall pos cur,
  tree hb -> (i <= 6)%nat -> 0 <= pos < len hb i -> length cur = HBITMAP_LEVELS ->
  exists cur', iter_fill i hb pos cur = Ret cur' /\ path hb i cur' pos /\
    length cur' = HBITMAP_LEVELS /\ (forall j, (i <= j)%nat -> cur' !! j = cur !! j).
Proof.
  induction i as [|i IH]; intros pos cur Ht Hi Hpos Hlen.
  - exists cur. pose proof (dims_0 _ (tree_dims _ Ht)). split_and!; [done| |done|done].
    unfold path. lia.
  - pose proof (dims_S _ (tree_dims _ Ht) i ltac:(lia)). rewrite iter_fill_S by mlia. cbv zeta.
    destruct (Nat.eqb_spec i (HBITMAP_LEVELS - 1)); [unfold HBITMAP_LEVELS in *; lia|].
    assert ((wd hb i (pos / 64) &&& u64 (Z.lnot ((1 << (pos mod 64)) - 1)))
              &&& u64 (Z.lnot (1 << (pos mod 64))) =
            hi_bits (wd hb i (pos / 64)) (pos mod 64 + 1)) as ->.
    { pose proof (tree_words _ Ht i (pos / 64)).
      rewrite (land_lnot (wd _ _ _)), land_lnot by (done || by apply ldiff_range).
      replace ((1 << (pos mod 64)) - 1) with (Z.ones (pos mod 64))
        by (rewrite Z.ones_equiv, Z.shiftl_1_l; lia).
      apply Z.bits_inj'. intros j Hj. rewrite testbit_hi_bits, !Z.ldiff_spec by mlia.
      rewrite Z.shiftl_1_l, testbit_ones, testbit_pow2 by mlia.
      destruct (Z.testbit _ j); [|done]. repeat (zcase; simpl); try done; mlia. }
    set (c := hi_bits _ _).
    destruct (IH (pos / 64) (<[i := c]> cur)) as (cur' & -> & Hp & Hl & Hr);
      [done|lia|mlia|by rewrite length_insert|].
    exists cur'. split_and!; [done| |done|].
    + split; [|done]. rewrite Hr by lia. apply list_lookup_insert_eq.
      rewrite Hlen. unfold HBITMAP_LEVELS. lia.
    + intros j Hj. rewrite Hr by lia. apply list_lookup_insert_ne. lia.
Qed.

Lemma hbitmap_iter_init_ok hb first :
  tree hb -> size hb <= 64 * len hb 6 -> 0 <= first >> granularity hb < size hb ->
  exists hbi, hbitmap_iter_init hb first = Ret hbi /\ iter_at hb hbi (first >> granularity hb).
Proof.
  intros Ht Hs Hf. unfold hbitmap_iter_init. set (pos := first >> granularity hb) in *.
  destruct (Z.ltb_spec pos (size hb)); [|lia]. cbn [cassert mbind outcome_bind].
  change HBITMAP_LEVELS with (S 6) at 1. rewrite iter_fill_S by mlia. rewrite shiftr_6.
  cbv zeta. change (6 =? HBITMAP_LEVELS - 1)%nat with true. cbv iota.
  assert (wd hb 6 (pos / 64) &&& u64 (Z.lnot ((1 << (pos mod 64)) - 1)) =
          hi_bits (wd hb 6 (pos / 64)) (pos - 64 * (pos / 64))) as ->.
  { rewrite land_lnot by apply (tree_words _ Ht). unfold hi_bits. f_equal.
    rewrite Z.ones_equiv, Z.shiftl_1_l, <- Z.sub_1_r. do 2 f_equal. mlia. }
  set (c := hi_bits _ _). set (cur0 := <[_ := c]> _).
  destruct (iter_fill_ok hb 6 (pos / 64) cur0) as (cur & -> & Hp & Hl & Hr);
    [done|lia|mlia|done|].
  eexists. split; [reflexivity|]. constructor; [constructor; simpl; try done; mlia|simpl; mlia|].
  simpl. rewrite Hr by lia. done.
Qed.

(** ** Counting *)

Lemma popcount_app m n f :
  popcount (m + n) f = popcount m f + popcount n (fun i => f (i + Z.of_nat m)).
Proof.
  revert f; induction m as [|m IH]; intros f.
  - simpl. apply popcount_ext. intros. f_equal. lia.
  - cbn [popcount Nat.add]. rewrite IH, <- Z.add_assoc. do 2 f_equal.
    apply popcount_ext. intros. f_equal. lia.
Qed.

Lemma popcount_zero n f :
  (forall i, 0 <= i < Z.of_nat n -> f i = false) -> popcount n f = 0.
Proof.
  revert f; induction n as [|n IH]; intros f Hf; [done|]. cbn [popcount].
  rewrite Hf, IH by (intros; try apply Hf; lia). done.
Qed.

Lemma popcount_bounds n f : 0 <= popcount n f <= Z.of_nat n.
Proof.
  revert f; induction n as [|n IH]; intros f; cbn [popcount]; [lia|].
  specialize (IH (fun i => f (i + 1))). destruct (f 0); simpl b2z; lia.
Qed.

(** The number of set bits from [a] up to but not including [b]. *)
Definition cnt (f : Z -> bool) (a b : Z) : Z :=
  popcount (Z.to_nat (b - a)) (fun i => f (a + i)).

Lemma cnt_split f a m b : a <= m <= b -> cnt f a b = cnt f a m + cnt f m b.
Proof.
  intros H. unfold cnt. replace (Z.to_nat (b - a)) with (Z.to_nat (m - a) + Z.to_nat (b - m))%nat
    by lia.
  rewrite popcount_app. f_equal. apply popcount_ext. intros. f_equal. lia.
Qed.

Lemma cnt_ext f g a b : (forall n, a <= n < b -> f n = g n) -> cnt f a b = cnt g a b.
Proof. intros H. apply popcount_ext. intros. apply H. lia. Qed.

Lemma cnt_zero f a b : (forall n, a <= n < b -> f n = false) -> cnt f a b = 0.
Proof. intros H. apply popcount_zero. intros. apply H. lia. Qed.

Lemma cnt_all f a b : a <= b -> (forall n, a <= n < b -> f n = true) -> cnt f a b = b - a.
Proof.
  intros Hab H. unfold cnt. rewrite (popcount_ext _ _ (fun _ => true)) by (intros; apply H; lia).
  assert (forall n, popcount n (fun _ => true) = Z.of_nat n) as ->; [|lia].
  induction n; cbn [popcount]; [done|]. rewrite IHn. simpl b2z. lia.
Qed.

Lemma cnt_bounds f a b : a <= b -> 0 <= cnt f a b <= b - a.
Proof. intros. pose proof (popcount_bounds (Z.to_nat (b - a)) (fun i => f (a + i))). unfold cnt. lia. Qed.

(** The bits [lo] to [hi - 1] of word [w]. *)
Lemma ctpopl_bits hb w lo hi c :
  0 <= lo <= hi -> hi <= 64 ->
  (forall j, 0 <= j < 64 -> Z.testbit c j = bt hb 6 (64 * w + j) && ((lo <=? j) && (j <? hi))) ->
  ctpopl c = cnt (bt hb 6) (64 * w + lo) (64 * w + hi).
Proof.
  intros Hlo Hhi Hc. unfold ctpopl, ctpop64.
  assert (popcount 64 (Z.testbit c) = cnt (Z.testbit c) 0 64) as -> by done.
  rewrite (cnt_split _ 0 lo 64), (cnt_split _ lo hi 64) by lia.
  rewrite (cnt_zero _ 0 lo), (cnt_zero _ hi 64).
  - unfold cnt. replace (64 * w + hi - (64 * w + lo)) with (hi - lo) by lia.
    rewrite (popcount_ext _ _ (fun i => bt hb 6 (64 * w + lo + i))); [lia|].
    intros i Hi. rewrite Hc by lia. rewrite <- Z.add_assoc.
    repeat (zcase; simpl); try lia. by rewrite andb_true_r.
  - intros j Hj. rewrite Hc by lia. repeat (zcase; simpl); try lia; by rewrite ?andb_false_r.
  - intros j Hj. rewrite Hc by lia. repeat (zcase; simpl); try lia; by rewrite ?andb_false_r.
Qed.

Lemma bt_word hb w j : 0 <= j < 64 -> bt hb 6 (64 * w + j) = Z.testbit (wd hb 6 w) j.
Proof. intros Hj. unfold bt. f_equal; [f_equal|]; mlia. Qed.

Lemma hi_bits_64 w : 0 <= w < 2 ^ 64 -> hi_bits w 64 = 0.
Proof. intros. unfold hi_bits. apply ldiff_all. done. Qed.

Lemma hbitmap_iter_next_word_ok hb hbi k :
  tree hb -> iter_at hb hbi k ->
  (exists hbi' w lo,
     hbitmap_iter_next_word hb hbi = Ret (hbi', w, hi_bits (wd hb 6 w) lo) /\
     iter_at hb hbi' (64 * w + 64) /\ 0 <= lo < 64 /\ 0 <= w < 2 ^ 57 /\ k <= 64 * w + lo /\
     (lo = 0 \/ 64 * w + lo = k) /\ (forall n, k <= n < 64 * w + lo -> bt hb 6 n = false)) \/
  ((forall n, k <= n -> bt hb 6 n = false) /\
   hbitmap_iter_next_word hb hbi = Ret (hbi, 2 ^ 64 - 1, 0)).
Proof.
  intros Ht Hat. unfold hbitmap_iter_next_word.
  destruct (iter_word_ok hb hbi k Ht Hat)
    as [(hbi' & lo & -> & Hnz & Hp & Hlo & Hk & Hor & Hz)|[Hz ->]]; [left|right; done].
  cbn [mbind outcome_bind]. rewrite (proj2 (Z.eqb_neq _ _) Hnz).
  assert (lo <> 64).
  { intros ->. apply Hnz, hi_bits_64, (tree_words _ Ht). }
  pose proof (ip_pos _ _ Hp). pose proof (dims_max _ (tree_dims _ Ht) 6%nat).
  exists (set_cur hbi' 6 0), (hbi_pos hbi'), lo. split; [done|]. split; [|lia || split_and!; done || lia].
  rewrite <- (hi_bits_64 (wd hb 6 (hbi_pos hbi'))) at 1 by apply (tree_words _ Ht).
  replace 64 with (64 * hbi_pos hbi' + 64 - 64 * hbi_pos hbi') at 1 by lia.
  apply set_cur_at; [done|lia].
Qed.

(** The end of the count, at the word with the end of the range or behind it. *)
Lemma count_exit hb e k n w lo :
  0 <= e < 2 ^ 62 -> 0 <= k <= e -> 0 <= n <= k -> e / 64 <= w -> 0 <= lo < 64 ->
  k <= 64 * w + lo -> (lo = 0 \/ 64 * w + lo = k) ->
  (forall m, k <= m < 64 * w + lo -> bt hb 6 m = false) ->
  (if w =? e / 64
   then u64 (n + ctpopl (hi_bits (wd hb 6 w) lo &&& ((1 << (e mod 64)) - 1))) else n) =
  n + cnt (bt hb 6) k e.
Proof.
  intros He Hk Hn Hw Hlo Hkw Hor Hz. destruct (Z.eqb_spec w (e / 64)) as [E|E].
  - assert (e = 64 * w + e mod 64) as Ee by mlia.
    pose proof (Z.mod_pos_bound e 64 ltac:(lia)). rewrite (ctpopl_bits hb w lo (e mod 64)).
    + rewrite <- Ee, (cnt_split _ k (64 * w + lo) e), (cnt_zero _ k) by (done || lia).
      pose proof (cnt_bounds (bt hb 6) (64 * w + lo) e ltac:(lia)). rewrite wrap_small; lia.
    + lia.
    + mlia.
    + intros j Hj. replace ((1 << (e mod 64)) - 1) with (Z.ones (e mod 64))
        by (rewrite Z.ones_equiv, Z.shiftl_1_l; lia).
      rewrite Z.land_spec, testbit_hi_bits, testbit_ones, bt_word by mlia.
      rewrite <- andb_assoc. destruct (Z.leb_spec 0 j); [done|lia].
  - rewrite cnt_zero; [lia|]. intros m Hm. apply Hz. mlia.
Qed.

Lemma count_loop_ok hb e fuel : forall hbi k n,
  tree hb -> 0 <= e < 2 ^ 62 -> iter_at hb hbi k -> 0 <= k <= e -> 0 <= n <= k ->
  (Z.to_nat (e / 64 - k / 64) <= fuel)%nat ->
  exists n' pos cur,
    count_loop fuel hb hbi (e / 64) n = Ret (n', pos, cur) /\
    (if pos =? e / 64 then u64 (n' + ctpopl (cur &&& ((1 << (e mod 64)) - 1))) else n') =
      n + cnt (bt hb 6) k e.
Proof.
  induction fuel as [|fuel IH]; intros hbi k n Ht He Hat Hk Hn Hf; cbn [count_loop];
  (destruct (hbitmap_iter_next_word_ok hb hbi k Ht Hat)
    as [(hbi' & w & lo & -> & Hat' & Hlo & Hw & Hkw & Hor & Hz)|[Hz ->]];
   cbn [mbind outcome_bind];
   [destruct (Z.leb_spec (e / 64) w);
      [eexists _, _, _; split; [reflexivity|]; by apply count_exit|]
   |destruct (Z.leb_spec (e / 64) (2 ^ 64 - 1)); [|mlia];
      eexists _, _, _; split; [reflexivity|];
      destruct (Z.eqb_spec (2 ^ 64 - 1) (e / 64)); [mlia|];
      rewrite cnt_zero; [lia|]; intros m Hm; apply Hz; lia]).
  - mlia.
  - assert (ctpopl (hi_bits (wd hb 6 w) lo) = cnt (bt hb 6) (64 * w + lo) (64 * w + 64)) as ->.
    { apply ctpopl_bits; [lia..|]. intros j Hj. rewrite testbit_hi_bits, bt_word by lia. f_equal.
      destruct (Z.ltb_spec j 64); [by rewrite andb_true_r|lia]. }
    pose proof (cnt_bounds (bt hb 6) (64 * w + lo) (64 * w + 64) ltac:(lia)).
    rewrite wrap_small by mlia.
    destruct (IH hbi' (64 * w + 64) (n + cnt (bt hb 6) (64 * w + lo) (64 * w + 64)))
      as (n' & pos & cur & -> & E); [done|done|done|mlia|lia|mlia|].
    exists n', pos, cur. split; [done|]. rewrite E.
    rewrite (cnt_split _ k (64 * w + lo) e), (cnt_split _ (64 * w + lo) (64 * w + 64) e) by mlia.
    rewrite (cnt_zero _ k) by done. lia.
Qed.

Lemma hb_count_between_ok hb start last :
  tree hb -> size hb <= 64 * len hb 6 -> 0 <= granularity hb < 64 ->
  0 <= start <= last -> last < size hb -> size hb <= 2 ^ 41 ->
  start * 2 ^ granularity hb < 2 ^ 64 ->
  hb_count_between hb start last = Ret (cnt (bt hb 6) start (last + 1)).
Proof.
  intros Ht Hsz Hg Hs Hl Hmax Hw. unfold hb_count_between.
  rewrite (wrap_small 64 (last + 1)) by lia. rewrite shiftr_6, land_63.
  assert (0 < 2 ^ granularity hb) by lia.
  assert (u64 (start << granularity hb) >> granularity hb = start) as E.
  { rewrite Z.shiftl_mul_pow2, wrap_small, Z.shiftr_div_pow2, Z.div_mul by nia. done. }
  destruct (hbitmap_iter_init_ok hb (u64 (start << granularity hb))) as (hbi & -> & Hat);
    [done|done|rewrite E; lia|]. rewrite E in Hat. cbn [mbind outcome_bind].
  destruct (count_loop_ok hb (last + 1) (Z.to_nat ((last + 1) / 64)) hbi start 0)
    as (n & pos & cur & -> & Hc); [done|lia|done|lia|lia|mlia|].
  cbn [mbind outcome_bind]. rewrite Z.add_0_l in Hc. rewrite <- Hc. by case_match.
Qed.

(** ** The invariant *)

Record hb_inv (hb : HBitmap) : Prop := {
  inv_tree : tree hb;
  inv_gran : 0 <= granularity hb < 64;
  inv_size : 0 <= size hb <= 2 ^ 41;
  inv_len : size hb <= 64 * len hb 6;
  inv_top : forall n, size hb <= n -> bt hb 6 n = false;
  inv_count : count hb = cnt (bt hb 6) 0 (size hb);
}.

Lemma shiftr_mono x y g : 0 <= g -> x <= y -> x >> g <= y >> g.
Proof. intros. rewrite !Z.shiftr_div_pow2 by done. apply Z.div_le_mono; lia. Qed.

Lemma group_start start g : 0 <= start < 2 ^ 64 -> 0 <= g -> (start >> g) * 2 ^ g < 2 ^ 64.
Proof.
  intros Hs Hg. rewrite Z.shiftr_div_pow2 by done.
  pose proof (Z.mul_div_le start (2 ^ g) ltac:(lia)). lia.
Qed.

(** Setting the count changes no word. *)
Lemma tree_set_count hb n : tree hb -> tree (set_count hb n).
Proof. intros [? [] ?]. constructor; [done|constructor; done|done]. Qed.

(** What is left to show after an update of the levels. *)
Lemma inv_update hb hb' n :
  hb_inv hb -> same_above 6 (set_count hb n) hb' -> words_ok hb' ->
  (forall j, (j < 6)%nat -> link hb' j) ->
  (forall p, size hb <= p -> bt hb' 6 p = false) ->
  n = cnt (bt hb' 6) 0 (size hb) ->
  hb_inv hb' /\ size hb' = size hb /\ granularity hb' = granularity hb.
Proof.
  intros Hinv Hsa Hok Hlink Htop Hn.
  assert (dims hb') by (eapply same_above_dims; [done|];
    apply (tree_dims _ (tree_set_count _ n (inv_tree _ Hinv)))).
  destruct Hsa as [E1 E2 E3 _ E5 _]. simpl in *. split; [|done].
  destruct Hinv. constructor; rewrite ?E1, ?E3; try done.
  - specialize (E5 6%nat). unfold len in *. simpl in *. lia.
  - rewrite E2. done.
Qed.

Lemma hbitmap_set_ok hb start n :
  hb_inv hb -> 0 <= start -> 0 < n -> start + n <= 2 ^ 64 ->
  (start + n - 1) >> granularity hb < size hb ->
  exists hb', hbitmap_set hb start n = Ret hb' /\
    (hb_inv hb' /\ size hb' = size hb /\ granularity hb' = granularity hb) /\
    forall p, 0 <= p -> bt hb' 6 p =
      bt hb 6 p || in_range (start >> granularity hb) ((start + n - 1) >> granularity hb) p.
Proof.
  intros Hinv Hs Hn Hmax Hlast. pose proof Hinv as [Ht Hg Hsz Hlen Htop Hcount].
  unfold hbitmap_set. rewrite (wrap_small 64 (start + n - 1)) by lia.
  pose proof (shiftr_mono start (start + n - 1) (granularity hb) ltac:(lia) ltac:(lia)).
  pose proof (group_start start (granularity hb) ltac:(lia) ltac:(lia)).
  assert (0 <= start >> granularity hb) by (apply Z.shiftr_nonneg; lia).
  set (s := start >> granularity hb) in *. set (e := (start + n - 1) >> granularity hb) in *.
  rewrite (hb_count_between_ok hb s e) by (done || lia). cbn [mbind outcome_bind].
  pose proof (cnt_bounds (bt hb 6) s (e + 1) ltac:(lia)).
  pose proof (cnt_bounds (bt hb 6) 0 (size hb) ltac:(lia)).
  set (m := count hb + (e - s + 1 - cnt (bt hb 6) s (e + 1))).
  assert (u64 (count hb + u64 (u64 (e - s + 1) - cnt (bt hb 6) s (e + 1))) = m) as ->.
  { rewrite wrap_sub_l, wrap_add_r. apply wrap_small. lia. }
  change (HBITMAP_LEVELS - 1)%nat with 6%nat.
  destruct (hb_set_between_ok 6 (set_count hb m) s e) as (hb' & -> & Hok & Hsa & Hlink & Hbt);
    [lia|apply (tree_words _ Ht)|apply (tree_dims _ (tree_set_count _ m Ht))
    |apply (tree_link _ Ht)|lia|change (len (set_count hb m) 6) with (len hb 6); mlia|].
  exists hb'. split; [done|]. split; [|done].
  eapply (inv_update hb hb' m); try done.
  - intros p Hp. rewrite Hbt by lia. change (bt (set_count hb m) 6 p) with (bt hb 6 p).
    rewrite Htop by done. range_cases.
  - subst m. rewrite Hcount.
    rewrite (cnt_split (bt hb' 6) 0 s (size hb)), (cnt_split (bt hb' 6) s (e + 1) (size hb)) by lia.
    rewrite (cnt_split (bt hb 6) 0 s (size hb)), (cnt_split (bt hb 6) s (e + 1) (size hb)) by lia.
    rewrite (cnt_all (bt hb' 6) s (e + 1)) by
      (lia || intros p Hp; rewrite Hbt by lia; unfold in_range;
         rewrite (proj2 (Z.leb_le s p)), (proj2 (Z.leb_le p e)) by lia; apply orb_true_r).
    assert (forall a b, 0 <= a -> (forall p, a <= p < b -> in_range s e p = false) ->
              cnt (bt hb' 6) a b = cnt (bt hb 6) a b) as Hsame.
    { intros a b Ha Hr. apply cnt_ext. intros p Hp. rewrite Hbt, Hr by lia. apply orb_false_r. }
    rewrite (Hsame 0 s), (Hsame (e + 1) (size hb)) by (lia || intros p Hp; range_cases). lia.
Qed.

Lemma hbitmap_reset_ok hb start n :
  hb_inv hb -> 0 <= start -> 0 < n -> start + n <= 2 ^ 64 ->
  (start + n - 1) >> granularity hb < size hb ->
  exists hb', hbitmap_reset hb start n = Ret hb' /\
    (hb_inv hb' /\ size hb' = size hb /\ granularity hb' = granularity hb) /\
    forall p, 0 <= p -> bt hb' 6 p =
      bt hb 6 p && negb (in_range (start >> granularity hb) ((start + n - 1) >> granularity hb) p).
Proof.
  intros Hinv Hs Hn Hmax Hlast. pose proof Hinv as [Ht Hg Hsz Hlen Htop Hcount].
  unfold hbitmap_reset. rewrite (wrap_small 64 (start + n - 1)) by lia.
  pose proof (shiftr_mono start (start + n - 1) (granularity hb) ltac:(lia) ltac:(lia)).
  pose proof (group_start start (granularity hb) ltac:(lia) ltac:(lia)).
  assert (0 <= start >> granularity hb) by (apply Z.shiftr_nonneg; lia).
  set (s := start >> granularity hb) in *. set (e := (start + n - 1) >> granularity hb) in *.
  rewrite (hb_count_between_ok hb s e) by (done || lia). cbn [mbind outcome_bind].
  set (m := count hb - cnt (bt hb 6) s (e + 1)).
  assert (cnt (bt hb 6) 0 (size hb) = cnt (bt hb 6) 0 s + cnt (bt hb 6) s (e + 1) +
            cnt (bt hb 6) (e + 1) (size hb)) as Hsplit.
  { rewrite (cnt_split _ 0 s), (cnt_split _ s (e + 1)) by lia. lia. }
  pose proof (cnt_bounds (bt hb 6) 0 s ltac:(lia)).
  pose proof (cnt_bounds (bt hb 6) (e + 1) (size hb) ltac:(lia)).
  rewrite (wrap_small 64 m) by lia.
  change (HBITMAP_LEVELS - 1)%nat with 6%nat.
  destruct (hb_reset_between_ok 6 (set_count hb m) s e) as (hb' & -> & Hok & Hsa & Hlink & Hbt);
    [lia|apply (tree_words _ Ht)|apply (tree_dims _ (tree_set_count _ m Ht))
    |apply (tree_link _ Ht)|lia|change (len (set_count hb m) 6) with (len hb 6); mlia|].
  exists hb'. split; [done|]. split; [|done].
  eapply (inv_update hb hb' m); try done.
  - intros p Hp. rewrite Hbt by lia. change (bt (set_count hb m) 6 p) with (bt hb 6 p).
    by rewrite Htop.
  - subst m. rewrite Hcount, Hsplit.
    rewrite (cnt_split (bt hb' 6) 0 s (size hb)), (cnt_split (bt hb' 6) s (e + 1) (size hb)) by lia.
    rewrite (cnt_zero (bt hb' 6) s (e + 1)) by
      (intros p Hp; rewrite Hbt by lia; unfold in_range;
         rewrite (proj2 (Z.leb_le s p)), (proj2 (Z.leb_le p e)) by lia; apply andb_false_r).
    assert (forall a b, 0 <= a -> (forall p, a <= p < b -> in_range s e p = false) ->
              cnt (bt hb' 6) a b = cnt (bt hb 6) a b) as Hsame.
    { intros a b Ha Hr. apply cnt_ext. intros p Hp. rewrite Hbt, Hr by lia. apply andb_true_r. }
    rewrite (Hsame 0 s), (Hsame (e + 1) (size hb)) by (lia || intros p Hp; range_cases). lia.
Qed.

Lemma hbitmap_get_ok hb item :
  0 <= item -> item >> granularity hb < 64 * len hb 6 ->
  hbitmap_get hb item = Ret (bt hb 6 (item >> granularity hb)).
Proof.
  intros Hi Hlt. assert (0 <= item >> granularity hb) by (apply Z.shiftr_nonneg; lia).
  unfold hbitmap_get. rewrite shiftr_6, land_63. change (HBITMAP_LEVELS - 1)%nat with 6%nat.
  rewrite lvl_get_ok by mlia. cbn [mbind outcome_bind]. rewrite Z.shiftl_1_l.
  fold (has_bits (wd hb 6 (item >> granularity hb / 64)) (2 ^ ((item >> granularity hb) mod 64))).
  rewrite has_bits_pow2 by mlia. done.
Qed.

(** *** Allocation *)

(** The number of words for [n] words or bits below. *)
Definition up (n : Z) : Z := Z.max ((n + 63) / 64) 1.

Lemma alloc_levels_eq i size lower :
  0 <= size < 2 ^ 63 ->
  alloc_levels (S i) size lower =
    alloc_levels i (up size) (replicate (Z.to_nat (up size)) 0 :: lower).
Proof.
  intros Hs. cbn [alloc_levels]. unfold up, BITS_PER_LONG.
  rewrite (wrap_small 64 (size + 64 - 1)), shiftr_6 by lia.
  by replace (size + 64 - 1) with (size + 63) by lia.
Qed.

Lemma up_bounds n k : 0 <= n <= 64 * k -> 1 <= k -> 1 <= up n <= k /\ n <= 64 * up n.
Proof. intros. unfold up. mlia. Qed.

(** The sizes of the seven levels for [n] bits. *)
Lemma alloc_levels_7 n :
  0 <= n <= 2 ^ 41 ->
  exists s1 s2 s3 s4 s5 s6,
    alloc_levels HBITMAP_LEVELS n [] =
      (1, (fun s => replicate (Z.to_nat s) 0) <$> [1; s1; s2; s3; s4; s5; s6]) /\
    1 <= s1 <= 2 ^ 5 /\ (1 <= s2 <= 2 ^ 11 /\ s2 <= 64 * s1) /\
    (1 <= s3 <= 2 ^ 17 /\ s3 <= 64 * s2) /\ (1 <= s4 <= 2 ^ 23 /\ s4 <= 64 * s3) /\
    (1 <= s5 <= 2 ^ 29 /\ s5 <= 64 * s4) /\ (1 <= s6 <= 2 ^ 35 /\ s6 <= 64 * s5) /\ n <= 64 * s6.
Proof.
  intros Hn. unfold HBITMAP_LEVELS.
  rewrite alloc_levels_eq by lia. destruct (up_bounds n (2 ^ 35)) as [H6 L6]; [lia..|].
  rewrite alloc_levels_eq by lia. destruct (up_bounds (up n) (2 ^ 29)) as [H5 L5]; [lia..|].
  set (s6 := up n) in *.
  rewrite alloc_levels_eq by lia. destruct (up_bounds (up s6) (2 ^ 23)) as [H4 L4]; [lia..|].
  set (s5 := up s6) in *.
  rewrite alloc_levels_eq by lia. destruct (up_bounds (up s5) (2 ^ 17)) as [H3 L3]; [lia..|].
  set (s4 := up s5) in *.
  rewrite alloc_levels_eq by lia. destruct (up_bounds (up s4) (2 ^ 11)) as [H2 L2]; [lia..|].
  set (s3 := up s4) in *.
  rewrite alloc_levels_eq by lia. destruct (up_bounds (up s3) (2 ^ 5)) as [H1 L1]; [lia..|].
  set (s2 := up s3) in *.
  rewrite alloc_levels_eq by lia. destruct (up_bounds (up s2) 1) as [H0 L0]; [lia..|].
  set (s1 := up s2) in *. assert (up s1 = 1) as -> by lia.
  exists s1, s2, s3, s4, s5, s6. cbn [alloc_levels fmap list_fmap]. split; [done|].
  clearbody s1 s2 s3 s4 s5 s6. lia.
Qed.

(** An allocated bitmap has the sentinel and no other bit. *)
Lemma inv_alloc hb g n s1 s2 s3 s4 s5 s6 :
  hb = {| size := n; count := 0; granularity := g;
          levels := (fun s => replicate (Z.to_nat s) 0) <$> [1; s1; s2; s3; s4; s5; s6] |} ->
  0 <= g < 64 -> 0 <= n <= 2 ^ 41 ->
  1 <= s1 <= 2 ^ 5 -> (1 <= s2 <= 2 ^ 11 /\ s2 <= 64 * s1) ->
  (1 <= s3 <= 2 ^ 17 /\ s3 <= 64 * s2) -> (1 <= s4 <= 2 ^ 23 /\ s4 <= 64 * s3) ->
  (1 <= s5 <= 2 ^ 29 /\ s5 <= 64 * s4) -> (1 <= s6 <= 2 ^ 35 /\ s6 <= 64 * s5) -> n <= 64 * s6 ->
  hb_inv (put hb 0 0 (2 ^ 63)) /\ forall p, bt (put hb 0 0 (2 ^ 63)) 6 p = false.
Proof.
  intros Hhb Hg Hn H1 H2 H3 H4 H5 H6 Hs.
  assert (forall l, len hb l = nth l [1; s1; s2; s3; s4; s5; s6] 0) as Hlen.
  { intros l. subst hb. unfold len. cbn [levels]. rewrite list_lookup_fmap.
    do 8 (destruct l as [|l]; [simpl; rewrite ?length_replicate; lia|]). simpl. by destruct l. }
  assert (forall l i, wd hb l i = 0) as Hz.
  { intros l i. subst hb. unfold wd. cbn [levels]. rewrite list_lookup_fmap.
    destruct (_ !! l) as [s|]; [|done]. simpl. unfold zget. zcase; [done|].
    destruct (replicate _ 0 !! _) eqn:E; [|done]. apply lookup_replicate in E as [-> _]. done. }
  assert (forall l i, wd (put hb 0 0 (2 ^ 63)) l i =
            if bool_decide (0%nat = l /\ 0 = i) then 2 ^ 63 else 0) as Hw.
  { intros l i. rewrite wd_put by (rewrite Hlen; simpl; lia). by rewrite Hz. }
  assert (forall l p, bt (put hb 0 0 (2 ^ 63)) l p = (l =? 0)%nat && (p =? 63)) as Hb.
  { intros l p. unfold bt. rewrite Hw. case_bool_decide as Hc.
    - destruct Hc as [<- Hp]. rewrite testbit_pow2 by lia. simpl. repeat zcase; done || mlia.
    - rewrite Z.testbit_0_l. destruct (Nat.eqb_spec l 0), (Z.eqb_spec p 63); try done.
      subst. exfalso. apply Hc. done. }
  assert (forall p, bt (put hb 0 0 (2 ^ 63)) 6 p = false) as Hb6 by (intros; by rewrite Hb).
  split; [|done].
  constructor; [constructor; [|constructor|]|..]; rewrite ?len_put, ?Hlen; try (subst hb; done).
  - intros l i. rewrite Hw. case_bool_decide; lia.
  - simpl. lia.
  - intros l Hl. rewrite !len_put, !Hlen. do 6 (destruct l as [|l]; [simpl; lia|]). lia.
  - intros l. rewrite len_put, Hlen. do 7 (destruct l as [|l]; [simpl; lia|]).
    simpl. destruct l; lia.
  - intros l Hl p Hp. rewrite Hb, Hw, bool_decide_eq_false_2 by lia. done.
  - rewrite cnt_zero by (intros; apply Hb6). subst hb. done.
Qed.

Lemma hbitmap_alloc_ok n g :
  0 <= n -> 0 <= g < 64 -> n + 2 ^ g <= 2 ^ 64 -> (n + 2 ^ g - 1) >> g <= 2 ^ 41 ->
  exists hb, hbitmap_alloc n g = Ret hb /\ hb_inv hb /\
    size hb = (n + 2 ^ g - 1) >> g /\ granularity hb = g /\ forall p, bt hb 6 p = false.
Proof.
  intros Hn Hg Hmax Hsz. unfold hbitmap_alloc.
  destruct (Z.leb_spec 0 g), (Z.ltb_spec g 64); try lia. cbn [cassert andb mbind outcome_bind].
  rewrite Z.shiftl_1_l, wrap_sub_l.
  assert (0 < 2 ^ g) by lia. rewrite (wrap_small 64 (n + 2 ^ g - 1)) by lia.
  assert (0 <= (n + 2 ^ g - 1) >> g) by (apply Z.shiftr_nonneg; lia).
  set (m := (n + 2 ^ g - 1) >> g) in *. change (1 << HBITMAP_LOG_MAX_SIZE) with (2 ^ 41).
  destruct (Z.leb_spec m (2 ^ 41)); [|lia]. cbn [cassert mbind outcome_bind].
  destruct (alloc_levels_7 m) as (s1 & s2 & s3 & s4 & s5 & s6 & -> & K1 & K2 & K3 & K4 & K5 & K6 & Ks);
    [lia|]. rewrite Z.eqb_refl. cbn [cassert mbind outcome_bind].
  set (hb := {| size := m |}).
  destruct (inv_alloc hb g m s1 s2 s3 s4 s5 s6) as [Hinv Hz]; [done|done|lia|done..|].
  exists (put hb 0 0 (2 ^ 63)). split; [done|]. done.
Qed.

(** ** Properties *)

Inductive hb_op :=
| OpSet (start n : Z)
| OpReset (start n : Z).

Definition run_op (hb : HBitmap) (op : hb_op) : outcome HBitmap :=
  match op with
  | OpSet start n => hbitmap_set hb start n
  | OpReset start n => hbitmap_reset hb start n
  end.

Fixpoint run_ops (hb : HBitmap) (ops : list hb_op) : outcome HBitmap :=
  match ops with
  | [] => Ret hb
  | op :: ops => hb ← run_op hb op; run_ops hb ops
  end.

(** A nonempty range inside a bitmap of [size] groups. *)
Definition valid_op (size g : Z) (op : hb_op) : Prop :=
  let '(OpSet start n | OpReset start n) := op in
  0 <= start /\ 0 < n /\ start + n <= 2 ^ 64 /\ (start + n - 1) >> g < size.

(** The abstract bitmap is a set of groups. *)
Definition spec_op (g : Z) (s : Z -> bool) (op : hb_op) : Z -> bool :=
  match op with
  | OpSet start n => fun p => s p || in_range (start >> g) ((start + n - 1) >> g) p
  | OpReset start n => fun p => s p && negb (in_range (start >> g) ((start + n - 1) >> g) p)
  end.

Lemma run_op_ok hb op :
  hb_inv hb -> valid_op (size hb) (granularity hb) op ->
  exists hb', run_op hb op = Ret hb' /\
    (hb_inv hb' /\ size hb' = size hb /\ granularity hb' = granularity hb) /\
    forall p, 0 <= p -> bt hb' 6 p = spec_op (granularity hb) (bt hb 6) op p.
Proof.
  intros Hinv Hv. destruct op as [start n|start n]; destruct Hv as (? & ? & ? & ?).
  - by apply hbitmap_set_ok.
  - by apply hbitmap_reset_ok.
Qed.

Lemma spec_op_ext g s s' op p : s p = s' p -> spec_op g s op p = spec_op g s' op p.
Proof. destruct op; simpl; by intros ->. Qed.

Lemma spec_ops_ext g ops : forall s s' p,
  s p = s' p -> foldl (spec_op g) s ops p = foldl (spec_op g) s' ops p.
Proof.
  induction ops as [|op ops IH]; intros s s' p Hp; simpl; [done|]. apply IH.
  by apply spec_op_ext.
Qed.

Lemma run_ops_ok ops : forall hb,
  hb_inv hb -> Forall (valid_op (size hb) (granularity hb)) ops ->
  exists hb', run_ops hb ops = Ret hb' /\
    (hb_inv hb' /\ size hb' = size hb /\ granularity hb' = granularity hb) /\
    forall p, 0 <= p -> bt hb' 6 p = foldl (spec_op (granularity hb)) (bt hb 6) ops p.
Proof.
  induction ops as [|op ops IH]; intros hb Hinv Hv; [by exists hb|].
  apply Forall_cons in Hv as [Hop Hv]. cbn [run_ops].
  destruct (run_op_ok hb op Hinv Hop) as (hb1 & -> & (Hi1 & Es & Eg) & Hb1).
  rewrite <- Es, <- Eg in Hv. destruct (IH hb1 Hi1 Hv) as (hb2 & Hr & (Hi2 & Es2 & Eg2) & Hb2).
  exists hb2. split; [done|]. split; [by rewrite Es2, Eg2|].
  intros p Hp. rewrite Hb2, Eg by done. simpl. apply spec_ops_ext. by apply Hb1.
Qed.

Lemma item_in_range n g item :
  0 <= g -> 0 <= item < n -> item >> g < (n + 2 ^ g - 1) >> g.
Proof.
  intros Hg Hi. rewrite !Z.shiftr_div_pow2 by done.
  assert (item / 2 ^ g <= (n - 1) / 2 ^ g) by (apply Z.div_le_mono; lia).
  replace (n + 2 ^ g - 1) with (n - 1 + 1 * 2 ^ g) by lia. rewrite Z.div_add by lia. lia.
Qed.

(** C9: a bitmap refines a set of groups of [2^g] items: after any sequence of
    set and reset operations on nonempty ranges inside it, no assertion has
    failed and no access was out of bounds; [hbitmap_get] tells whether the
    group of an item is in the set that the operations describe, and
    [hbitmap_count] is the size of that set, in items. *)
Theorem hbitmap_refines n g ops :
  0 <= n -> 0 <= g < 64 -> n + 2 ^ g <= 2 ^ 64 -> (n + 2 ^ g - 1) >> g <= 2 ^ 41 ->
  Forall (valid_op ((n + 2 ^ g - 1) >> g) g) ops ->
  let groups := foldl (spec_op g) (fun _ => false) ops in
  exists hb,
    (hb ← hbitmap_alloc n g; run_ops hb ops) = Ret hb /\
    (forall item, 0 <= item < n -> hbitmap_get hb item = Ret (groups (item >> g))) /\
    hbitmap_count hb = u64 (cnt groups 0 ((n + 2 ^ g - 1) >> g) << g) /\
    hbitmap_empty hb = (cnt groups 0 ((n + 2 ^ g - 1) >> g) =? 0).
Proof.
  intros Hn Hg Hmax Hsz Hv groups.
  destruct (hbitmap_alloc_ok n g) as (hb0 & -> & Hi0 & Es & Eg & Hz); [done..|].
  cbn [mbind outcome_bind]. rewrite <- Es, <- Eg in Hv.
  destruct (run_ops_ok ops hb0 Hi0 Hv) as (hb & Hr & (Hi & Es1 & Eg1) & Hb).
  exists hb. split; [done|].
  assert (forall p, 0 <= p -> bt hb 6 p = groups p) as Hp.
  { intros p Hp. rewrite Hb, Eg by done. apply spec_ops_ext. apply Hz. }
  assert (count hb = cnt groups 0 ((n + 2 ^ g - 1) >> g)) as Hc.
  { rewrite (inv_count _ Hi), Es1, Es. apply cnt_ext. intros p Hp'. apply Hp. lia. }
  split; [|split].
  - intros item Hitem. pose proof (item_in_range n g item ltac:(lia) Hitem).
    rewrite hbitmap_get_ok; rewrite ?Eg1, ?Eg.
    + rewrite Hp; [done|]. apply Z.shiftr_nonneg. lia.
    + lia.
    + pose proof (inv_len _ Hi). lia.
  - unfold hbitmap_count. by rewrite Hc, Eg1, Eg.
  - unfold hbitmap_empty. by rewrite Hc.
Qed.

Lemma hbitmap_refines_witness :
  exists hb, (hb ← hbitmap_alloc 400 1; run_ops hb [OpSet 3 200; OpReset 10 150]) = Ret hb /\
    hbitmap_get hb 9 = Ret true /\ hbitmap_count hb = 52.
Proof.
  destruct (hbitmap_refines 400 1 [OpSet 3 200; OpReset 10 150]) as (hb & Hr & Hg & Hc & _).
  1-4: vm_compute; intuition congruence.
  - repeat constructor; vm_compute; intuition congruence.
  - exists hb. split; [exact Hr|]. split.
    + rewrite Hg; [vm_compute; done|lia].
    + rewrite Hc. vm_compute. done.
Defined.

(** The bitmaps of a program that only uses valid ranges. *)
Inductive reachable : HBitmap -> Prop :=
| reach_alloc n g hb :
    0 <= n -> 0 <= g < 64 -> n + 2 ^ g <= 2 ^ 64 ->
    hbitmap_alloc n g = Ret hb -> reachable hb
| reach_op hb op hb' :
    reachable hb -> valid_op (size hb) (granularity hb) op ->
    run_op hb op = Ret hb' -> reachable hb'.

Lemma reachable_inv hb : reachable hb -> hb_inv hb.
Proof.
  induction 1 as [n g hb Hn Hg Hm Ha|hb op hb' _ IH Hv Hop].
  - destruct (decide ((n + 2 ^ g - 1) >> g <= 2 ^ 41)).
    + destruct (hbitmap_alloc_ok n g) as (hb0 & Ha' & Hi & _); [done..|]. congruence.
    + exfalso. unfold hbitmap_alloc in Ha.
      destruct (Z.leb_spec 0 g), (Z.ltb_spec g 64); try lia. cbn [cassert andb mbind outcome_bind] in Ha.
      rewrite Z.shiftl_1_l, wrap_sub_l, (wrap_small 64 (n + 2 ^ g - 1)) in Ha by lia.
      change (1 << HBITMAP_LOG_MAX_SIZE) with (2 ^ 41) in Ha.
      destruct (Z.leb_spec ((n + 2 ^ g - 1) >> g) (2 ^ 41)); [lia|]. done.
  - destruct (run_op_ok hb op IH Hv) as (hb1 & Hr & (Hi & _) & _). congruence.
Qed.

(** In every reachable bitmap, bit N of a level is set exactly when word N
    of the next level is nonzero, except for the sentinel in the highest bit
    of level 0, which is always set. *)
Lemma hbitmap_linked hb l n :
  reachable hb -> (l < HBITMAP_LEVELS - 1)%nat -> 0 <= n ->
  (l = 0%nat /\ n = 63 -> bt hb l n = true) /\
  (~ (l = 0%nat /\ n = 63) -> bt hb l n = negb (wd hb (S l) n =? 0)).
Proof.
  intros Hr Hl Hn. apply reachable_inv in Hr. unfold HBITMAP_LEVELS in Hl.
  pose proof (tree_link _ (inv_tree _ Hr) l ltac:(lia) n Hn) as Hlink. split.
  - intros [-> ->]. rewrite Hlink. apply orb_true_r.
  - intros Hne. rewrite Hlink. destruct (Nat.eqb_spec l 0), (Z.eqb_spec n 63); simpl;
      by rewrite ?orb_false_r || (exfalso; apply Hne).
Qed.

(** A bitmap of 400 items in groups of two, after each operation. *)
Definition value_of (o : outcome HBitmap) : HBitmap :=
  match o with
  | Ret hb => hb
  | _ => {| size := 0; count := 0; granularity := 0; levels := [] |}
  end.

Definition sample0 : HBitmap := Eval vm_compute in value_of (hbitmap_alloc 400 1).

Definition sample1 : HBitmap := Eval vm_compute in value_of (hbitmap_set sample0 3 200).

Definition sample2 : HBitmap := Eval vm_compute in value_of (hbitmap_reset sample1 10 150).

Lemma sample2_reachable : reachable sample2.
Proof.
  refine (reach_op sample1 (OpReset 10 150) sample2 _ _ _).
  - refine (reach_op sample0 (OpSet 3 200) sample1 _ _ _).
    + apply (reach_alloc 400 1); [lia..|vm_compute; reflexivity].
    + vm_compute. intuition congruence.
    + vm_compute. reflexivity.
  - vm_compute. intuition congruence.
  - vm_compute. reflexivity.
Qed.

Lemma hbitmap_linked_witness : bt sample2 5 1 = true /\ wd sample2 6 1 <> 0.
Proof.
  assert (bt sample2 5 1 = true) as Hb by (vm_compute; reflexivity).
  split; [exact Hb|].
  pose proof (proj2 (hbitmap_linked sample2 5 1 sample2_reachable ltac:(vm_compute; lia) ltac:(lia)))
    as Hl.
  rewrite Hb in Hl. specialize (Hl ltac:(lia)). symmetry in Hl.
  apply negb_true_iff, Z.eqb_neq in Hl. exact Hl.
Defined.

(** Iteration to the end, as the callers do it. *)
Fixpoint iter_all (fuel : nat) (hb : HBitmap) (hbi : HBitmapIter) : outcome (list Z) :=
  '(hbi, item) ← hbitmap_iter_next hb hbi;
  if item =? -1 then Ret []
  else
    match fuel with
    | O => NoFuel
    | S fuel => rest ← iter_all fuel hb hbi; Ret (item :: rest)
    end.

(** The set bits from [k] on, in order. *)
Definition set_bits (hb : HBitmap) (k : Z) : list Z :=
  filter (fun n => bt hb 6 n = true) (seqZ k (size hb - k)).

Lemma seqZ_cons_le k m : 0 < m -> seqZ k m = k :: seqZ (k + 1) (m - 1).
Proof. intros. rewrite seqZ_cons by done. rewrite Z.add_1_r, Z.sub_1_r. done. Qed.

Lemma set_bits_none hb k : (forall n, k <= n -> bt hb 6 n = false) -> set_bits hb k = [].
Proof.
  intros Hz. unfold set_bits. apply elem_of_nil_inv. intros n.
  rewrite list_elem_of_filter, elem_of_seqZ. intros [Hn ?]. rewrite Hz in Hn by lia. done.
Qed.

Lemma set_bits_next hb k n :
  next_bit hb k n -> n < size hb -> set_bits hb k = n :: set_bits hb (n + 1).
Proof.
  intros [Hkn Hset Hz] Hn. unfold set_bits.
  replace (size hb - k) with ((n - k) + (size hb - n)) by lia.
  rewrite seqZ_app by lia. replace (k + (n - k)) with n by lia.
  rewrite filter_app, (seqZ_cons_le n) by lia. rewrite filter_cons_True by done.
  replace (size hb - n - 1) with (size hb - (n + 1)) by lia.
  assert (filter (fun n => bt hb 6 n = true) (seqZ k (n - k)) = []) as ->; [|done].
  apply elem_of_nil_inv. intros m. rewrite list_elem_of_filter, elem_of_seqZ. intros [Hm ?].
  rewrite Hz in Hm by lia. done.
Qed.

Lemma iter_all_ok hb fuel : forall hbi k,
  hb_inv hb -> size hb * 2 ^ granularity hb <= 2 ^ 63 -> 0 <= k -> iter_at hb hbi k ->
  (length (set_bits hb k) <= fuel)%nat ->
  iter_all fuel hb hbi = Ret ((fun n => n << granularity hb) <$> set_bits hb k).
Proof.
  induction fuel as [|fuel IH]; intros hbi k Hinv Hmax Hk Hat Hf; cbn [iter_all];
  (destruct (hbitmap_iter_next_ok hb hbi k (inv_tree _ Hinv) Hat)
     as [(hbi' & n & Hn & -> & Hat')|[Hz ->]];
   cbn [mbind outcome_bind]; [|rewrite (set_bits_none hb k Hz); done];
   assert (n < size hb) as Hsz
     by (destruct (decide (n < size hb)); [done|];
         pose proof (nb_set _ _ _ Hn) as Hb; rewrite (inv_top _ Hinv) in Hb by lia; done);
   rewrite (set_bits_next hb k n Hn Hsz) in Hf |- *; simpl in Hf; try lia).
  pose proof (nb_after _ _ _ Hn). pose proof (inv_gran _ Hinv).
  assert (s64 (n << granularity hb) = n << granularity hb) as ->.
  { rewrite Z.shiftl_mul_pow2 by lia. apply sext_small; [lia|]. assert (0 < 2 ^ granularity hb) by lia.
    split; [nia|]. change (2 ^ (64 - 1)) with (2 ^ 63). nia. }
  assert (0 <= n << granularity hb) by (apply Z.shiftl_nonneg; lia).
  destruct (Z.eqb_spec (n << granularity hb) (-1)); [lia|].
  rewrite (IH hbi' (n + 1)) by (done || lia). done.
Qed.

(** C24: iteration from [first] ends and visits exactly the groups that are set,
    from the group of [first] on, in increasing order and each once, by the
    first item of the group. *)
Theorem hbitmap_iterates hb first fuel :
  reachable hb -> 0 <= first -> first >> granularity hb < size hb ->
  size hb * 2 ^ granularity hb <= 2 ^ 63 -> (Z.to_nat (size hb) <= fuel)%nat ->
  (hbi ← hbitmap_iter_init hb first; iter_all fuel hb hbi) =
    Ret ((fun n => n << granularity hb) <$> set_bits hb (first >> granularity hb)).
Proof.
  intros Hr Hf Hlt Hmax Hfuel. apply reachable_inv in Hr as Hinv.
  assert (0 <= first >> granularity hb) by (apply Z.shiftr_nonneg; lia).
  destruct (hbitmap_iter_init_ok hb first) as (hbi & -> & Hat);
    [apply Hinv|apply Hinv|lia|]. cbn [mbind outcome_bind].
  apply iter_all_ok; [done..|]. unfold set_bits.
  etransitivity; [apply length_filter|]. rewrite length_seqZ. lia.
Qed.

Lemma hbitmap_iterates_witness :
  (hbi ← hbitmap_iter_init sample2 5; iter_all 200 sample2 hbi) =
    Ret ([4; 6; 8] ++ ((fun n => n << 1) <$> seqZ 80 22)).
Proof.
  rewrite (hbitmap_iterates sample2 5 200 sample2_reachable);
    [vm_compute; reflexivity|vm_compute; intuition congruence..|].
  apply Nat.leb_le. vm_compute. reflexivity.
Defined.
