(* ===== verification/Bitmap.v ===== *)
(** * Bit operations and flat bitmaps

    Model of [src/include/qemu/bitops.h], [src/util/bitops.c],
    [src/include/qemu/bitmap.h] and [src/util/bitmap.c].  A bitmap is the list
    of its 64-bit words; an access outside of it is a fault.  The searches
    have as fuel the number of words (or of bits, for the search for an area).
    Shown here: the searches find the first (last) bit they look for and stay
    in bounds, setting and clearing a range changes exactly that range, the
    word-wise operations compute the bit-wise ones, and which results depend
    on the unused bits of the last word. *)

From S2P Require Import Prelude HostUtils.

Definition BITS_PER_LONG : Z := 64.

(** [~0UL] *)
Definition ULONG_MAX : Z := 2 ^ 64 - 1.

Definition lnot64 (x : Z) : Z := u64 (Z.lnot x).

Definition BIT_MASK (nr : Z) : Z := 1 << (nr mod BITS_PER_LONG).

Definition BIT_WORD (nr : Z) : Z := nr / BITS_PER_LONG.

Definition BITS_TO_LONGS (nr : Z) : Z := (nr + BITS_PER_LONG - 1) / BITS_PER_LONG.

(** [p[i]] as a value and as the target of an assignment. *)
Definition wget (map : list Z) (i : Z) : outcome Z :=
  match zget map i with Some w => Ret w | None => Fault OutOfBounds end.

Definition wput (map : list Z) (i w : Z) : outcome (list Z) :=
  _ ← wget map i; Ret (zset map i w).

(** ** bitops.h: single bits *)

Definition set_bit (nr : Z) (addr : list Z) : outcome (list Z) :=
  w ← wget addr (BIT_WORD nr); wput addr (BIT_WORD nr) (w ||| BIT_MASK nr).

Definition clear_bit (nr : Z) (addr : list Z) : outcome (list Z) :=
  w ← wget addr (BIT_WORD nr); wput addr (BIT_WORD nr) (w &&& lnot64 (BIT_MASK nr)).

Definition change_bit (nr : Z) (addr : list Z) : outcome (list Z) :=
  w ← wget addr (BIT_WORD nr); wput addr (BIT_WORD nr) (w ^^^ BIT_MASK nr).

Definition test_and_set_bit (nr : Z) (addr : list Z) : outcome (list Z * Z) :=
  old ← wget addr (BIT_WORD nr);
  addr ← wput addr (BIT_WORD nr) (old ||| BIT_MASK nr);
  Ret (addr, b2z (has_bits old (BIT_MASK nr))).

Definition test_and_clear_bit (nr : Z) (addr : list Z) : outcome (list Z * Z) :=
  old ← wget addr (BIT_WORD nr);
  addr ← wput addr (BIT_WORD nr) (old &&& lnot64 (BIT_MASK nr));
  Ret (addr, b2z (has_bits old (BIT_MASK nr))).

Definition test_and_change_bit (nr : Z) (addr : list Z) : outcome (list Z * Z) :=
  old ← wget addr (BIT_WORD nr);
  addr ← wput addr (BIT_WORD nr) (old ^^^ BIT_MASK nr);
  Ret (addr, b2z (has_bits old (BIT_MASK nr))).

Definition test_bit (nr : Z) (addr : list Z) : outcome Z :=
  w ← wget addr (BIT_WORD nr);
  Ret (1 &&& (w >> (nr &&& (BITS_PER_LONG - 1)))).

(** ** bitops.c: searches *)

(** Where a scanning loop ends: at the label [found_middle], or behind the loop
    with the pointer, [result] and [size]. *)
Inductive scan :=
| Found (r : Z)
| Rest (p result size : Z).

(** The loop over groups of four words. *)
Fixpoint scan4 (fuel : nat) (addr : list Z) (p result size : Z) : outcome scan :=
  if 4 * BITS_PER_LONG <=? size then
    match fuel with
    | O => NoFuel
    | S fuel =>
        tmp ← wget addr p;
        d1 ← wget addr (p + 1);
        d2 ← wget addr (p + 2);
        d3 ← wget addr (p + 3);
        if negb (tmp =? 0) then Ret (Found (result + ctzl tmp))
        else if negb (((d1 ||| d2) ||| d3) =? 0) then Ret (Rest p result size)
        else scan4 fuel addr (p + 4) (result + 4 * BITS_PER_LONG) (size - 4 * BITS_PER_LONG)
    end
  else Ret (Rest p result size).

(** The loop over single words; [inv] is [id], or [~] for the search for a zero
    bit. *)
Fixpoint scan1 (inv : Z -> Z) (fuel : nat) (addr : list Z) (p result size : Z) : outcome scan :=
  if BITS_PER_LONG <=? size then
    match fuel with
    | O => NoFuel
    | S fuel =>
        tmp ← wget addr p;
        if negb (inv tmp =? 0) then Ret (Found (result + ctzl (inv tmp)))
        else scan1 inv fuel addr (p + 1) (result + BITS_PER_LONG) (size - BITS_PER_LONG)
    end
  else Ret (Rest p result size).

(** The code from the label [found_first] on. *)
Definition found_first (tmp result size : Z) : Z :=
  let tmp := tmp &&& (ULONG_MAX >> (BITS_PER_LONG - size)) in
  if tmp =? 0 then result + size else result + ctzl tmp.

(** The code behind the word-wise loop. *)
Definition find_tail (addr : list Z) (s : scan) : outcome Z :=
  match s with
  | Found r => Ret r
  | Rest p result size =>
      if size =? 0 then Ret result
      else tmp ← wget addr p; Ret (found_first tmp result size)
  end.

(** The two loops and the rest. *)
Definition find_words (addr : list Z) (p result size : Z) : outcome Z :=
  s ← scan4 (length addr) addr p result size;
  match s with
  | Found r => Ret r
  | Rest p result size =>
      s ← scan1 id (length addr) addr p result size; find_tail addr s
  end.

Definition find_next_bit (addr : list Z) (size offset : Z) : outcome Z :=
  let p := offset / BITS_PER_LONG in
  let result := offset &&& lnot64 (BITS_PER_LONG - 1) in
  if size <=? offset then Ret size
  else
    let size := size - result in
    let offset := offset mod BITS_PER_LONG in
    if negb (offset =? 0) then
      tmp ← wget addr p;
      let tmp := tmp &&& u64 (ULONG_MAX << offset) in
      if size <? BITS_PER_LONG then Ret (found_first tmp result size)
      else if negb (tmp =? 0) then Ret (result + ctzl tmp)
      else find_words addr (p + 1) (result + BITS_PER_LONG) (size - BITS_PER_LONG)
    else find_words addr p result size.

(** The code from [found_first] on in the search for a zero bit. *)
Definition found_first_zero (tmp result size : Z) : Z :=
  let tmp := tmp ||| u64 (ULONG_MAX << size) in
  if tmp =? ULONG_MAX then result + size else result + ctzl (lnot64 tmp).

Definition find_zero_tail (addr : list Z) (s : scan) : outcome Z :=
  match s with
  | Found r => Ret r
  | Rest p result size =>
      if size =? 0 then Ret result
      else tmp ← wget addr p; Ret (found_first_zero tmp result size)
  end.

(** [size & ~(BITS_PER_LONG - 1)] is the test [size >= BITS_PER_LONG]. *)
Definition find_next_zero_bit (addr : list Z) (size offset : Z) : outcome Z :=
  let p := offset / BITS_PER_LONG in
  let result := offset &&& lnot64 (BITS_PER_LONG - 1) in
  if size <=? offset then Ret size
  else
    let size := size - result in
    let offset := offset mod BITS_PER_LONG in
    if negb (offset =? 0) then
      tmp ← wget addr p;
      let tmp := tmp ||| (ULONG_MAX >> (BITS_PER_LONG - offset)) in
      if size <? BITS_PER_LONG then Ret (found_first_zero tmp result size)
      else if negb (lnot64 tmp =? 0) then Ret (result + ctzl (lnot64 tmp))
      else
        s ← scan1 lnot64 (length addr) addr (p + 1) (result + BITS_PER_LONG)
              (size - BITS_PER_LONG);
        find_zero_tail addr s
    else s ← scan1 lnot64 (length addr) addr p result size; find_zero_tail addr s.

(** The [while (words)] loop. *)
Fixpoint last_loop (words : nat) (addr : list Z) (size : Z) : outcome Z :=
  match words with
  | O => Ret size
  | S words =>
      tmp ← wget addr (Z.of_nat words);
      if negb (tmp =? 0) then
        Ret (Z.of_nat words * BITS_PER_LONG + BITS_PER_LONG - 1 - clzl tmp)
      else last_loop words addr size
  end.

Definition find_last_bit (addr : list Z) (size : Z) : outcome Z :=
  let words := size / BITS_PER_LONG in
  let rest := size &&& (BITS_PER_LONG - 1) in
  if negb (rest =? 0) then
    w ← wget addr words;
    let tmp := w &&& (ULONG_MAX >> (BITS_PER_LONG - rest)) in
    if negb (tmp =? 0) then Ret (words * BITS_PER_LONG + BITS_PER_LONG - 1 - clzl tmp)
    else last_loop (Z.to_nat words) addr size
  else last_loop (Z.to_nat words) addr size.

Fixpoint first_loop (fuel : nat) (addr : list Z) (p result size : Z) : outcome Z :=
  if result <? size then
    match fuel with
    | O => NoFuel
    | S fuel =>
        tmp ← wget addr p;
        if negb (tmp =? 0) then
          let result := result + ctzl tmp in
          Ret (if result <? size then result else size)
        else first_loop fuel addr (p + 1) (result + BITS_PER_LONG) size
    end
  else Ret size.

Definition find_first_bit (addr : list Z) (size : Z) : outcome Z :=
  first_loop (length addr) addr 0 0 size.

Definition find_first_zero_bit (addr : list Z) (size : Z) : outcome Z :=
  find_next_zero_bit addr size 0.

(** ** bitmap.c *)

Definition BITMAP_LAST_WORD_MASK (nbits : Z) : Z :=
  if negb (nbits mod BITS_PER_LONG =? 0) then (1 << (nbits mod BITS_PER_LONG)) - 1
  else ULONG_MAX.

Definition BITMAP_FIRST_WORD_MASK (start : Z) : Z := u64 (ULONG_MAX << (start mod BITS_PER_LONG)).

(** The [while] loop of [bitmap_set] and [bitmap_clear]; [f] is the update of a
    word by a mask.  The result is the map, [p], [nr] and the mask. *)
Fixpoint range_loop (f : Z -> Z -> Z) (fuel : nat) (map : list Z) (p nr bits mask : Z) :
    outcome (list Z * Z * Z * Z) :=
  if 0 <=? nr - bits then
    match fuel with
    | O => NoFuel
    | S fuel =>
        w ← wget map p;
        map ← wput map p (f w mask);
        range_loop f fuel map (p + 1) (nr - bits) BITS_PER_LONG ULONG_MAX
    end
  else Ret (map, p, nr, mask).

Definition range_update (f : Z -> Z -> Z) (map : list Z) (start nr : Z) : outcome (list Z) :=
  let p := BIT_WORD start in
  let size := start + nr in
  let bits := BITS_PER_LONG - start mod BITS_PER_LONG in
  let mask := BITMAP_FIRST_WORD_MASK start in
  '(map, p, nr, mask) ← range_loop f (S (length map)) map p nr bits mask;
  if negb (nr =? 0) then
    let mask := mask &&& BITMAP_LAST_WORD_MASK size in
    w ← wget map p; wput map p (f w mask)
  else Ret map.

Definition bitmap_set (map : list Z) (start nr : Z) : outcome (list Z) :=
  range_update (fun w mask => w ||| mask) map start nr.

Definition bitmap_clear (map : list Z) (start nr : Z) : outcome (list Z) :=
  range_update (fun w mask => w &&& lnot64 mask) map start nr.

Definition ALIGN_MASK (x mask : Z) : Z := u64 (x + mask) &&& lnot64 mask.

Fixpoint zero_area_loop (fuel : nat) (map : list Z) (size start nr align_mask : Z) : outcome Z :=
  index ← find_next_zero_bit map size start;
  let index := ALIGN_MASK index align_mask in
  let end_ := u64 (index + nr) in
  if size <? end_ then Ret end_
  else
    i ← find_next_bit map end_ index;
    if i <? end_ then
      match fuel with
      | O => NoFuel
      | S fuel => zero_area_loop fuel map size (i + 1) nr align_mask
      end
    else Ret index.

Definition bitmap_find_next_zero_area (map : list Z) (size start nr align_mask : Z) : outcome Z :=
  zero_area_loop (Z.to_nat (size - start)) map size start nr align_mask.

(** A loop over the words [k] up to [lim], until [stop] holds. *)
Fixpoint any_word (n : nat) (k : Z) (stop : Z -> outcome bool) : outcome bool :=
  match n with
  | O => Ret false
  | S n => b ← stop k; if b : bool then Ret true else any_word n (k + 1) stop
  end.

(** The shape of the predicates: a test on the full words, then one on the used
    bits of the last one. *)
Definition any_bits (full : Z -> outcome bool) (last : Z -> outcome Z) (bits : Z) : outcome bool :=
  let lim := bits / BITS_PER_LONG in
  b ← any_word (Z.to_nat lim) 0 full;
  if b : bool then Ret true
  else if negb (bits mod BITS_PER_LONG =? 0) then
    w ← last lim; Ret (has_bits w (BITMAP_LAST_WORD_MASK bits))
  else Ret false.

(** [if (w)] *)
Definition nonzero (t : Z -> outcome Z) (k : Z) : outcome bool :=
  w ← t k; Ret (negb (w =? 0)).

Definition slow_bitmap_empty (bitmap : list Z) (bits : Z) : outcome Z :=
  b ← any_bits (nonzero (wget bitmap)) (wget bitmap) bits; Ret (b2z (negb b)).

Definition slow_bitmap_full (bitmap : list Z) (bits : Z) : outcome Z :=
  let t := fun k => w ← wget bitmap k; Ret (lnot64 w) in
  b ← any_bits (nonzero t) t bits; Ret (b2z (negb b)).

Definition slow_bitmap_equal (bitmap1 bitmap2 : list Z) (bits : Z) : outcome Z :=
  b ← any_bits (fun k => w1 ← wget bitmap1 k; w2 ← wget bitmap2 k; Ret (negb (w1 =? w2)))
        (fun k => w1 ← wget bitmap1 k; w2 ← wget bitmap2 k; Ret (w1 ^^^ w2)) bits;
  Ret (b2z (negb b)).

Definition slow_bitmap_intersects (bitmap1 bitmap2 : list Z) (bits : Z) : outcome Z :=
  let t := fun k => w1 ← wget bitmap1 k; w2 ← wget bitmap2 k; Ret (w1 &&& w2) in
  b ← any_bits (nonzero t) t bits; Ret (b2z b).

(** The loop of the operations on two bitmaps; the second result is the
    disjunction of the words written. *)
Fixpoint word_loop (f : Z -> Z -> Z) (n : nat) (k : Z) (dst bitmap1 bitmap2 : list Z)
    (result : Z) : outcome (list Z * Z) :=
  match n with
  | O => Ret (dst, result)
  | S n =>
      w1 ← wget bitmap1 k;
      w2 ← wget bitmap2 k;
      dst ← wput dst k (f w1 w2);
      word_loop f n (k + 1) dst bitmap1 bitmap2 (result ||| f w1 w2)
  end.

Definition slow_bitmap_and (dst bitmap1 bitmap2 : list Z) (bits : Z) : outcome (list Z * Z) :=
  '(dst, result) ← word_loop Z.land (Z.to_nat (BITS_TO_LONGS bits)) 0 dst bitmap1 bitmap2 0;
  Ret (dst, b2z (negb (result =? 0))).

Definition slow_bitmap_or (dst bitmap1 bitmap2 : list Z) (bits : Z) : outcome (list Z) :=
  '(dst, _) ← word_loop Z.lor (Z.to_nat (BITS_TO_LONGS bits)) 0 dst bitmap1 bitmap2 0;
  Ret dst.

Definition slow_bitmap_xor (dst bitmap1 bitmap2 : list Z) (bits : Z) : outcome (list Z) :=
  '(dst, _) ← word_loop Z.lxor (Z.to_nat (BITS_TO_LONGS bits)) 0 dst bitmap1 bitmap2 0;
  Ret dst.

Definition slow_bitmap_andnot (dst bitmap1 bitmap2 : list Z) (bits : Z) : outcome (list Z * Z) :=
  '(dst, result) ← word_loop (fun x y => x &&& lnot64 y) (Z.to_nat (BITS_TO_LONGS bits)) 0
                     dst bitmap1 bitmap2 0;
  Ret (dst, b2z (negb (result =? 0))).

Fixpoint complement_loop (n : nat) (k : Z) (dst src : list Z) : outcome (list Z) :=
  match n with
  | O => Ret dst
  | S n =>
      w ← wget src k;
      dst ← wput dst k (lnot64 w);
      complement_loop n (k + 1) dst src
  end.

Definition slow_bitmap_complement (dst src : list Z) (bits : Z) : outcome (list Z) :=
  let lim := bits / BITS_PER_LONG in
  dst ← complement_loop (Z.to_nat lim) 0 dst src;
  if negb (bits mod BITS_PER_LONG =? 0) then
    w ← wget src lim;
    wput dst lim (lnot64 w &&& BITMAP_LAST_WORD_MASK bits)
  else Ret dst.

(** ** bitmap.h: the inline variants for one word *)

Definition small_nbits (nbits : Z) : bool := nbits <=? BITS_PER_LONG.

Definition bitmap_empty (src : list Z) (nbits : Z) : outcome Z :=
  if small_nbits nbits then
    w ← wget src 0; Ret (b2z (negb (has_bits w (BITMAP_LAST_WORD_MASK nbits))))
  else slow_bitmap_empty src nbits.

Definition bitmap_full (src : list Z) (nbits : Z) : outcome Z :=
  if small_nbits nbits then
    w ← wget src 0; Ret (b2z (negb (has_bits (lnot64 w) (BITMAP_LAST_WORD_MASK nbits))))
  else slow_bitmap_full src nbits.

Definition bitmap_equal (src1 src2 : list Z) (nbits : Z) : outcome Z :=
  if small_nbits nbits then
    w1 ← wget src1 0; w2 ← wget src2 0;
    Ret (b2z (negb (has_bits (w1 ^^^ w2) (BITMAP_LAST_WORD_MASK nbits))))
  else slow_bitmap_equal src1 src2 nbits.

Definition bitmap_intersects (src1 src2 : list Z) (nbits : Z) : outcome Z :=
  if small_nbits nbits then
    w1 ← wget src1 0; w2 ← wget src2 0;
    Ret (b2z (has_bits (w1 &&& w2) (BITMAP_LAST_WORD_MASK nbits)))
  else slow_bitmap_intersects src1 src2 nbits.

Definition bitmap_and (dst src1 src2 : list Z) (nbits : Z) : outcome (list Z * Z) :=
  if small_nbits nbits then
    w1 ← wget src1 0; w2 ← wget src2 0;
    dst ← wput dst 0 (w1 &&& w2);
    Ret (dst, b2z (negb ((w1 &&& w2) =? 0)))
  else slow_bitmap_and dst src1 src2 nbits.

Definition bitmap_andnot (dst src1 src2 : list Z) (nbits : Z) : outcome (list Z * Z) :=
  if small_nbits nbits then
    w1 ← wget src1 0; w2 ← wget src2 0;
    dst ← wput dst 0 (w1 &&& lnot64 w2);
    Ret (dst, b2z (negb ((w1 &&& lnot64 w2) =? 0)))
  else slow_bitmap_andnot dst src1 src2 nbits.

Definition bitmap_or (dst src1 src2 : list Z) (nbits : Z) : outcome (list Z) :=
  if small_nbits nbits then
    w1 ← wget src1 0; w2 ← wget src2 0; wput dst 0 (w1 ||| w2)
  else slow_bitmap_or dst src1 src2 nbits.

Definition bitmap_xor (dst src1 src2 : list Z) (nbits : Z) : outcome (list Z) :=
  if small_nbits nbits then
    w1 ← wget src1 0; w2 ← wget src2 0; wput dst 0 (w1 ^^^ w2)
  else slow_bitmap_xor dst src1 src2 nbits.

Definition bitmap_complement (dst src : list Z) (nbits : Z) : outcome (list Z) :=
  if small_nbits nbits then
    w ← wget src 0; wput dst 0 (lnot64 w &&& BITMAP_LAST_WORD_MASK nbits)
  else slow_bitmap_complement dst src nbits.

(** ** Bits of a bitmap *)

Definition wrd (map : list Z) (i : Z) : Z := default 0 (zget map i).

Definition bit (map : list Z) (n : Z) : bool := Z.testbit (wrd map (n / 64)) (n mod 64).

Definition words_ok (map : list Z) : Prop := Forall (fun w => 0 <= w < 2 ^ 64) map.

(** The map has at least [n] bits. *)
Definition has_size (map : list Z) (n : Z) : Prop := n <= 64 * Z.of_nat (length map).

Lemma wget_ok map i : 0 <= i < Z.of_nat (length map) -> wget map i = Ret (wrd map i).
Proof. intros Hi. unfold wget, wrd. by destruct (zget_is_Some map i Hi) as [w ->]. Qed.

Lemma wput_ok map i w : 0 <= i < Z.of_nat (length map) -> wput map i w = Ret (zset map i w).
Proof. intros Hi. unfold wput. by rewrite wget_ok. Qed.

Lemma wrd_range map i : words_ok map -> 0 <= wrd map i < 2 ^ 64.
Proof.
  intros Hok. unfold wrd. destruct (zget map i) as [w|] eqn:E; [|simpl; lia].
  unfold zget in E. destruct (i <? 0); [done|].
  unfold words_ok in Hok. rewrite Forall_lookup in Hok. eauto.
Qed.

Lemma wrd_zset map i w k :
  0 <= i < Z.of_nat (length map) -> wrd (zset map i w) k = if k =? i then w else wrd map k.
Proof.
  intros Hi. unfold wrd. destruct (Z.eqb_spec k i) as [->|].
  - by rewrite zget_zset_eq.
  - by rewrite zget_zset_ne by lia.
Qed.

Lemma words_ok_zset map i w : words_ok map -> 0 <= w < 2 ^ 64 -> words_ok (zset map i w).
Proof. intros Hok Hw. unfold zset. case_match; [done|]. by apply Forall_insert. Qed.

Lemma bit_word map p j : 0 <= j < 64 -> bit map (64 * p + j) = Z.testbit (wrd map p) j.
Proof. intros Hj. unfold bit. f_equal; [f_equal|]; mlia. Qed.

Lemma testbit_lnot64 w j : 0 <= j < 64 -> Z.testbit (lnot64 w) j = negb (Z.testbit w j).
Proof.
  intros Hj. unfold lnot64. rewrite testbit_wrap, testbit_lnot by lia.
  destruct (Z.ltb_spec j 64), (Z.leb_spec 0 j); (done || lia).
Qed.

Lemma lnot64_range w : 0 <= lnot64 w < 2 ^ 64.
Proof. apply wrap_range. lia. Qed.

(** ** Searches *)

(** [r] is the first position of [f] in [a, b), or [b]. *)
Record first_in (f : Z -> bool) (a b r : Z) : Prop := {
  fi_range : a <= r <= b;
  fi_before : forall k, a <= k < r -> f k = false;
  fi_hit : r < b -> f r = true;
}.

Lemma first_in_skip f a m b r :
  a <= m -> (forall k, a <= k < m -> f k = false) -> first_in f m b r -> first_in f a b r.
Proof.
  intros Ham Hz [Hr Hb Hh]. constructor; [lia| |done].
  intros k Hk. destruct (decide (k < m)); [apply Hz|apply Hb]; lia.
Qed.

(** The first bit of a nonzero word. *)
Lemma first_in_word f p b tmp :
  0 < tmp < 2 ^ 64 -> (forall j, 0 <= j < 64 -> Z.testbit tmp j = f (64 * p + j)) ->
  64 * p + 64 <= b ->
  first_in f (64 * p) b (64 * p + ctzl tmp) /\ 64 * p + ctzl tmp < b.
Proof.
  intros Htmp Hf Hb. destruct (ctzl_spec tmp Htmp) as (H1 & H2 & H3).
  split; [|lia]. constructor; [lia| |].
  - intros k Hk. replace k with (64 * p + (k - 64 * p)) by lia. rewrite <- Hf by lia. apply H3. lia.
  - intros _. rewrite <- Hf by lia. done.
Qed.

Lemma zero_word f p tmp :
  tmp = 0 -> (forall j, 0 <= j < 64 -> Z.testbit tmp j = f (64 * p + j)) ->
  forall k, 64 * p <= k < 64 * p + 64 -> f k = false.
Proof.
  intros -> Hf k Hk. replace k with (64 * p + (k - 64 * p)) by lia.
  rewrite <- Hf by lia. apply Z.testbit_0_l.
Qed.

(** What a scanning loop started at word [p] has found. *)
Definition scan_spec (f : Z -> bool) (p e : Z) (maxrest : Z) (s : scan) : Prop :=
  match s with
  | Found r => first_in f (64 * p) e r /\ r < e
  | Rest p' result size =>
      p <= p' /\ result = 64 * p' /\ result + size = e /\ 0 <= size < maxrest /\
      forall k, 64 * p <= k < 64 * p' -> f k = false
  end.

Lemma scan_spec_step f p p' e m s :
  p <= p' -> (forall k, 64 * p <= k < 64 * p' -> f k = false) ->
  scan_spec f p' e m s -> scan_spec f p e m s.
Proof.
  intros Hp Hz. destruct s as [r|p'' result size]; simpl.
  - intros [Hr Hlt]. split; [|done]. apply (first_in_skip _ _ (64 * p')); [lia|done|done].
  - intros (? & ? & ? & ? & Hz'). split_and!; [lia|done|done|lia|lia|].
    intros k Hk. destruct (decide (k < 64 * p')); [apply Hz|apply Hz']; lia.
Qed.

Section scanning.
(** The word that is searched for a set bit, as a function of the map's. *)
Context (inv : Z -> Z) (map : list Z).
Hypothesis inv_range : forall i, 0 <= inv (wrd map i) < 2 ^ 64.

Definition ibit (n : Z) : bool := Z.testbit (inv (wrd map (n / 64))) (n mod 64).

Lemma ibit_word p j : 0 <= j < 64 -> Z.testbit (inv (wrd map p)) j = ibit (64 * p + j).
Proof. intros Hj. unfold ibit. f_equal; [f_equal; f_equal|]; mlia. Qed.

Lemma scan1_ok fuel : forall p size,
  0 <= p -> 0 <= size -> has_size map (64 * p + size) -> size < 64 * (Z.of_nat fuel + 1) ->
  exists s, scan1 inv fuel map p (64 * p) size = Ret s /\
    scan_spec ibit p (64 * p + size) 64 s.
Proof.
  unfold has_size.
  induction fuel as [|fuel IH]; intros p size Hp Hs Hlen Hf; cbn [scan1];
    unfold BITS_PER_LONG; (destruct (Z.leb_spec 64 size);
      [|eexists; split; [reflexivity|]; simpl; split_and!; try lia; intros; lia]); [lia|].
  rewrite wget_ok by lia. cbn [mbind outcome_bind].
  pose proof (inv_range p) as Hr.
  destruct (Z.eqb_spec (inv (wrd map p)) 0) as [E|E]; cbn [negb].
  - destruct (IH (p + 1) (size - 64)) as (s & Hs' & Hspec); [lia..|].
    replace (64 * p + 64) with (64 * (p + 1)) by lia. rewrite Hs'. exists s. split; [done|].
    replace (64 * (p + 1) + (size - 64)) with (64 * p + size) in Hspec by lia.
    eapply scan_spec_step; [|..|exact Hspec]; [lia|]. intros k Hk.
    eapply zero_word; [exact E|apply ibit_word|lia].
  - eexists. split; [reflexivity|]. simpl. apply first_in_word; [lia|apply ibit_word|lia].
Qed.

Lemma found_first_ok f p tmp size :
  0 <= tmp < 2 ^ 64 -> 0 < size < 64 ->
  (forall j, 0 <= j < 64 -> Z.testbit tmp j = f (64 * p + j)) ->
  first_in f (64 * p) (64 * p + size) (found_first tmp (64 * p) size).
Proof.
  intros Ht Hs Hf. unfold found_first, BITS_PER_LONG, ULONG_MAX.
  change (2 ^ 64 - 1) with (Z.ones 64). rewrite Z.shiftr_div_pow2 by lia.
  rewrite Z.ones_div_pow2 by lia. replace (64 - (64 - size)) with size by lia.
  assert (forall j, 0 <= j < 64 ->
    Z.testbit (tmp &&& Z.ones size) j = f (64 * p + j) && (j <? size)) as Hb.
  { intros j Hj. rewrite Z.land_spec, testbit_ones, Hf by lia.
    destruct (Z.leb_spec 0 j); [done|lia]. }
  destruct (Z.eqb_spec (tmp &&& Z.ones size) 0) as [E|E].
  - constructor; [lia| |lia]. intros k Hk.
    pose proof (Hb (k - 64 * p) ltac:(lia)) as Hk'. rewrite E, Z.testbit_0_l in Hk'.
    destruct (Z.ltb_spec (k - 64 * p) size); [|lia]. rewrite andb_true_r in Hk'.
    rewrite Hk'. f_equal. lia.
  - pose proof (land_range_l 64 tmp (Z.ones size) ltac:(lia) Ht).
    destruct (ctzl_spec (tmp &&& Z.ones size)) as (H1 & H2 & H3); [lia|].
    rewrite Hb in H2 by lia. apply andb_true_iff in H2 as [H2 H2'%Z.ltb_lt].
    constructor; [lia| |done]. intros k Hk.
    pose proof (H3 (k - 64 * p) ltac:(lia)) as Hk'. rewrite Hb in Hk' by lia.
    destruct (Z.ltb_spec (k - 64 * p) size); [|lia]. rewrite andb_true_r in Hk'.
    rewrite <- Hk'. f_equal. lia.
Qed.
End scanning.

(** The search for a zero bit ends in the search for a set bit of the
    complement. *)
Lemma found_first_zero_eq tmp result size :
  0 <= tmp < 2 ^ 64 -> 0 < size < 64 ->
  found_first_zero tmp result size = found_first (lnot64 tmp) result size.
Proof.
  intros Ht Hs. unfold found_first_zero, found_first, BITS_PER_LONG, ULONG_MAX.
  change (2 ^ 64 - 1) with (Z.ones 64).
  assert (lnot64 (tmp ||| u64 (Z.ones 64 << size)) =
          lnot64 tmp &&& (Z.ones 64 >> (64 - size))) as <-.
  { rewrite Z.shiftr_div_pow2, Z.ones_div_pow2 by lia.
    unfold lnot64. bits_ext i Hi. repeat (zcase; simpl; try lia);
      by destruct (Z.testbit tmp i). }
  set (w := tmp ||| u64 (Z.ones 64 << size)).
  assert (0 <= w < 2 ^ 64) by (apply lor_range; [lia|done|apply wrap_range; lia]).
  assert (lnot64 w = 2 ^ 64 - 1 - w) as ->.
  { unfold lnot64, Z.lnot, wrap. symmetry. apply (Z.mod_unique _ _ (-1)); lia. }
  change (Z.ones 64) with (2 ^ 64 - 1). repeat zcase; done || lia.
Qed.

Section tails.
Context (map : list Z).
Hypothesis map_ok : words_ok map.

Lemma find_tail_ok p e s :
  0 <= p -> has_size map e -> scan_spec (ibit id map) p e 64 s ->
  exists r, find_tail map s = Ret r /\ first_in (ibit id map) (64 * p) e r.
Proof.
  unfold has_size. intros Hp He. destruct s as [r|p' result size]; simpl.
  - intros [Hr _]. eauto.
  - intros (Hp' & -> & E & Hs & Hz). destruct (Z.eqb_spec size 0) as [->|].
    + eexists. split; [reflexivity|]. apply (first_in_skip _ _ (64 * p')); [lia|done|].
      constructor; [lia|intros; lia|lia].
    + rewrite wget_ok by lia. cbn [mbind outcome_bind]. eexists. split; [reflexivity|].
      apply (first_in_skip _ _ (64 * p')); [lia|done|]. rewrite <- E.
      apply found_first_ok; [by apply wrd_range|lia|apply (ibit_word id)].
Qed.

Lemma find_zero_tail_ok p e s :
  0 <= p -> has_size map e -> scan_spec (ibit lnot64 map) p e 64 s ->
  exists r, find_zero_tail map s = Ret r /\ first_in (ibit lnot64 map) (64 * p) e r.
Proof.
  unfold has_size. intros Hp He. destruct s as [r|p' result size]; simpl.
  - intros [Hr _]. eauto.
  - intros (Hp' & -> & E & Hs & Hz). destruct (Z.eqb_spec size 0) as [->|].
    + eexists. split; [reflexivity|]. apply (first_in_skip _ _ (64 * p')); [lia|done|].
      constructor; [lia|intros; lia|lia].
    + rewrite wget_ok by lia. cbn [mbind outcome_bind]. eexists. split; [reflexivity|].
      apply (first_in_skip _ _ (64 * p')); [lia|done|]. rewrite <- E.
      rewrite found_first_zero_eq by (lia || by apply wrd_range).
      apply found_first_ok; [apply lnot64_range|lia|apply (ibit_word lnot64)].
Qed.

Lemma scan4_ok fuel : forall p size,
  0 <= p -> 0 <= size -> has_size map (64 * p + size) -> size < 256 * (Z.of_nat fuel + 1) ->
  exists s, scan4 fuel map p (64 * p) size = Ret s /\
    scan_spec (ibit id map) p (64 * p + size) (size + 1) s.
Proof.
  unfold has_size.
  induction fuel as [|fuel IH]; intros p size Hp Hs Hlen Hf; cbn [scan4];
    unfold BITS_PER_LONG; (destruct (Z.leb_spec (4 * 64) size);
      [|eexists; split; [reflexivity|]; simpl; split_and!; try lia; intros; lia]); [lia|].
  rewrite !wget_ok by lia. cbn [mbind outcome_bind].
  pose proof (wrd_range map p map_ok).
  destruct (Z.eqb_spec (wrd map p) 0) as [E|E]; cbn [negb].
  2:{ eexists. split; [reflexivity|]. simpl.
      apply first_in_word; [lia|apply (ibit_word id)|lia]. }
  destruct (Z.eqb_spec (wrd map (p + 1) ||| wrd map (p + 2) ||| wrd map (p + 3)) 0) as [Ed|Ed];
    cbn [negb].
  2:{ eexists. split; [reflexivity|]. simpl. split_and!; try lia; intros; lia. }
  apply Z.lor_eq_0_iff in Ed as [[E1 E2]%Z.lor_eq_0_iff E3].
  destruct (IH (p + 4) (size - 256)) as (s & Hrun & Hspec); [lia..|].
  change (4 * 64) with 256. replace (64 * p + 256) with (64 * (p + 4)) by lia. rewrite Hrun.
  exists s. split; [done|].
  replace (64 * (p + 4) + (size - 256)) with (64 * p + size) in Hspec by lia.
  eapply scan_spec_step; [| |].
  3:{ destruct s as [r|p' res sz]; [exact Hspec|].
      destruct Hspec as (? & ? & ? & ? & ?). simpl. split_and!; try done; lia. }
  - lia.
  - intros k Hk. assert (exists q, wrd map q = 0 /\ 64 * q <= k < 64 * q + 64) as (q & Eq & Hq).
    { destruct (decide (k < 64 * p + 64)); [exists p; split; [done|lia]|].
      destruct (decide (k < 64 * p + 128)); [exists (p + 1); split; [done|lia]|].
      destruct (decide (k < 64 * p + 192)); [exists (p + 2); split; [done|lia]|].
      exists (p + 3). split; [done|lia]. }
    eapply zero_word; [exact Eq|apply (ibit_word id)|done].
Qed.

Lemma find_words_ok p size :
  0 <= p -> 0 <= size -> has_size map (64 * p + size) ->
  exists r, find_words map p (64 * p) size = Ret r /\
    first_in (ibit id map) (64 * p) (64 * p + size) r.
Proof.
  intros Hp Hs Hlen. unfold has_size in *. unfold find_words.
  destruct (scan4_ok (length map) p size) as (s & -> & Hspec); [unfold has_size; lia..|].
  cbn [mbind outcome_bind]. destruct s as [r|p' result size'].
  - exists r. destruct Hspec. done.
  - destruct Hspec as (Hp' & -> & E & Hs' & Hz).
    destruct (scan1_ok id map (fun i => wrd_range map i map_ok) (length map) p' size')
      as (s & -> & Hspec); [unfold has_size; lia..|]. rewrite E in Hspec.
    cbn [mbind outcome_bind]. apply (find_tail_ok p); [done|unfold has_size; lia|].
    by apply (scan_spec_step _ p p').
Qed.
End tails.

Lemma word_start offset :
  0 <= offset < 2 ^ 64 -> offset &&& lnot64 (BITS_PER_LONG - 1) = 64 * (offset / 64).
Proof.
  intros Ho. unfold lnot64, BITS_PER_LONG. change (64 - 1) with (Z.ones 6).
  apply Z.bits_inj'. intros i Hi. rewrite Z.land_spec, testbit_wrap, testbit_lnot, testbit_ones by lia.
  replace (64 * (offset / 64)) with (0 + 2 ^ 6 * (offset / 64)) by lia.
  rewrite testbit_split by lia. destruct (Z.leb_spec 0 i); [|lia].
  destruct (Z.ltb_spec i 6); simpl.
  - by rewrite !andb_false_r, Z.testbit_0_l.
  - change 64 with (2 ^ 6) at 2. rewrite Z.div_pow2_bits by lia. rewrite andb_true_r.
    replace (i - 6 + 6) with i by lia. zcase; [apply andb_true_r|].
    rewrite (testbit_high 64 offset) by lia. done.
Qed.

(** The bits of a word from [off] on: what the first word is masked with. *)
Lemma first_in_from f off e a r :
  a <= off <= e -> first_in (fun n => f n && (off <=? n)) a e r -> first_in f off e r.
Proof.
  intros Ha [Hr Hb Hh]. assert (off <= r).
  { destruct (decide (r < e)); [|lia]. apply Hh in l. apply andb_true_iff in l as [_ ?%Z.leb_le]. lia. }
  constructor; [lia| |].
  - intros k Hk. specialize (Hb k ltac:(lia)). revert Hb. simpl.
    destruct (Z.leb_spec off k); [by rewrite andb_true_r|lia].
  - intros Hlt. by apply Hh, andb_true_iff in Hlt as [? _].
Qed.

Lemma high_mask tmp off j :
  0 <= off < 64 -> 0 <= j < 64 ->
  Z.testbit (tmp &&& u64 (ULONG_MAX << off)) j = Z.testbit tmp j && (off <=? j).
Proof.
  intros Ho Hj. unfold ULONG_MAX. change (2 ^ 64 - 1) with (Z.ones 64).
  autorewrite with bits. f_equal. repeat (zcase; simpl; try lia); done.
Qed.

Lemma first_in_ext f g a b r :
  (forall k, a <= k -> f k = g k) -> first_in f a b r -> first_in g a b r.
Proof.
  intros Hfg [H1 H2 H3]. constructor; [done| |].
  - intros k Hk. rewrite <- Hfg by lia. by apply H2.
  - intros Hr. rewrite <- Hfg by lia. by apply H3.
Qed.

(** A search that starts inside word [p]: the masked first word, then the rest. *)
Lemma first_word f p offset size tmp (rest : outcome Z) :
  0 <= tmp < 2 ^ 64 ->
  (forall j, 0 <= j < 64 -> Z.testbit tmp j = f (64 * p + j) && (offset <=? 64 * p + j)) ->
  64 * p <= offset < size -> offset < 64 * p + 64 ->
  (64 <= size - 64 * p -> exists r, rest = Ret r /\ first_in f (64 * (p + 1)) size r) ->
  exists r, (if size - 64 * p <? 64 then Ret (found_first tmp (64 * p) (size - 64 * p))
             else if negb (tmp =? 0) then Ret (64 * p + ctzl tmp) else rest) = Ret r /\
    first_in f offset size r.
Proof.
  intros Ht Hb Ho Hp Hrest.
  enough (exists r, (if size - 64 * p <? 64 then Ret (found_first tmp (64 * p) (size - 64 * p))
             else if negb (tmp =? 0) then Ret (64 * p + ctzl tmp) else rest) = Ret r /\
             first_in (fun n => f n && (offset <=? n)) (64 * p) size r) as (r & -> & Hr).
  { exists r. split; [done|]. apply (first_in_from _ _ _ (64 * p)); [lia|done]. }
  destruct (Z.ltb_spec (size - 64 * p) 64).
  - eexists. split; [reflexivity|].
    pose proof (found_first_ok (fun n => f n && (offset <=? n)) p tmp (size - 64 * p)
      Ht ltac:(lia) Hb) as Hr.
    replace (64 * p + (size - 64 * p)) with size in Hr by lia. exact Hr.
  - destruct (Z.eqb_spec tmp 0) as [E0|E0]; cbn [negb].
    + destruct (Hrest ltac:(lia)) as (r & -> & Hr). exists r. split; [done|].
      apply (first_in_skip _ _ (64 * (p + 1))); [lia| |].
      * intros k Hk. eapply (zero_word (fun n => f n && (offset <=? n))); [exact E0|exact Hb|lia].
      * eapply first_in_ext; [|exact Hr]. intros k Hk.
        destruct (Z.leb_spec offset k); [by rewrite andb_true_r|lia].
    + eexists. split; [reflexivity|].
      apply (first_in_word (fun n => f n && (offset <=? n))); [lia|exact Hb|lia].
Qed.

Lemma find_next_bit_ok map size offset :
  words_ok map -> has_size map size -> 0 <= offset < 2 ^ 64 ->
  exists r, find_next_bit map size offset = Ret r /\
    (offset < size -> first_in (bit map) offset size r) /\ (size <= offset -> r = size).
Proof.
  intros Hok Hs Ho. unfold find_next_bit, has_size in *. rewrite word_start by done.
  change (offset / BITS_PER_LONG) with (offset / 64).
  destruct (Z.leb_spec size offset); [eexists; split; [reflexivity|]; split; [lia|done]|].
  enough (exists r, (if negb (offset mod BITS_PER_LONG =? 0) then _ else _) = Ret r /\
            first_in (bit map) offset size r) as (r & -> & Hr)
    by (exists r; split; [done|]; split; [done|lia]).
  assert (0 <= offset / 64 < Z.of_nat (length map)) by mlia. set (p := offset / 64) in *.
  assert (64 * p <= offset < 64 * p + 64) by (subst p; mlia).
  unfold BITS_PER_LONG. destruct (Z.eqb_spec (offset mod 64) 0) as [E|E]; cbn [negb].
  - destruct (find_words_ok map Hok p (size - 64 * p)) as (r & -> & Hr);
      [lia|lia|unfold has_size; lia|]. exists r. split; [done|].
    replace (64 * p + (size - 64 * p)) with size in Hr by lia.
    replace (64 * p) with offset in Hr by (subst p; mlia). exact Hr.
  - rewrite wget_ok by lia. cbn [mbind outcome_bind].
    apply first_word; [apply land_range_l; [lia|by apply wrd_range]| |lia|lia|].
    + intros j Hj. rewrite high_mask, bit_word by mlia. f_equal.
      repeat zcase; done || (subst p; mlia).
    + intros Hlt. destruct (find_words_ok map Hok (p + 1) (size - 64 * p - 64)) as (r & Hrun & Hr);
        [lia|lia|unfold has_size; lia|].
      replace (64 * p + 64) with (64 * (p + 1)) by lia. rewrite Hrun. exists r. split; [done|].
      by replace (64 * (p + 1) + (size - 64 * p - 64)) with size in Hr by lia.
Qed.

Lemma low_mask tmp off j :
  0 <= off < 64 -> 0 <= j < 64 ->
  Z.testbit (lnot64 (tmp ||| (ULONG_MAX >> (BITS_PER_LONG - off)))) j =
    negb (Z.testbit tmp j) && (off <=? j).
Proof.
  intros Ho Hj. unfold BITS_PER_LONG, ULONG_MAX. change (2 ^ 64 - 1) with (Z.ones 64).
  rewrite Z.shiftr_div_pow2, Z.ones_div_pow2 by lia. rewrite testbit_lnot64 by done.
  rewrite Z.lor_spec, testbit_ones, negb_orb by lia. f_equal. repeat (zcase; simpl; try lia); done.
Qed.

Lemma ibit_zero map n : 0 <= n -> ibit lnot64 map n = negb (bit map n).
Proof. intros Hn. unfold ibit, bit. rewrite testbit_lnot64 by mlia. done. Qed.

Lemma find_next_zero_bit_ok map size offset :
  words_ok map -> has_size map size -> 0 <= offset < 2 ^ 64 ->
  exists r, find_next_zero_bit map size offset = Ret r /\
    (offset < size -> first_in (fun n => negb (bit map n)) offset size r) /\
    (size <= offset -> r = size).
Proof.
  intros Hok Hs Ho. unfold find_next_zero_bit, has_size in *. rewrite word_start by done.
  change (offset / BITS_PER_LONG) with (offset / 64).
  destruct (Z.leb_spec size offset); [eexists; split; [reflexivity|]; split; [lia|done]|].
  enough (exists r, (if negb (offset mod BITS_PER_LONG =? 0) then _ else _) = Ret r /\
            first_in (fun n => negb (bit map n)) offset size r) as (r & -> & Hr)
    by (exists r; split; [done|]; split; [done|lia]).
  assert (0 <= offset / 64 < Z.of_nat (length map)) by mlia. set (p := offset / 64) in *.
  assert (64 * p <= offset < 64 * p + 64) by (subst p; mlia).
  assert (forall q, 0 <= q -> 64 * q <= size -> exists r,
    (s ← scan1 lnot64 (length map) map q (64 * q) (size - 64 * q); find_zero_tail map s) = Ret r /\
    first_in (fun n => negb (bit map n)) (64 * q) size r) as Hwords.
  { intros q Hq Hle.
    destruct (scan1_ok lnot64 map (fun i => lnot64_range _) (length map) q (size - 64 * q))
      as (s & -> & Hspec); [lia|lia|unfold has_size; lia|lia|]. cbn [mbind outcome_bind].
    replace (64 * q + (size - 64 * q)) with size in Hspec by lia.
    destruct (find_zero_tail_ok map Hok q size s) as (r & -> & Hr); [lia|done|done|].
    exists r. split; [done|]. eapply first_in_ext; [|exact Hr]. intros k Hk. apply ibit_zero. lia. }
  unfold BITS_PER_LONG. destruct (Z.eqb_spec (offset mod 64) 0) as [E|E]; cbn [negb].
  - destruct (Hwords p) as (r & -> & Hr); [lia..|]. exists r. split; [done|].
    by replace (64 * p) with offset in Hr by (subst p; mlia).
  - rewrite wget_ok by lia. cbn [mbind outcome_bind]. set (tmp := wrd map p ||| _).
    assert (0 <= tmp < 2 ^ 64).
    { apply lor_range; [lia|by apply wrd_range|]. unfold ULONG_MAX.
      rewrite Z.shiftr_div_pow2 by mlia.
      assert (0 < 2 ^ (64 - offset mod 64)) by (apply Z.pow_pos_nonneg; mlia).
      split; [apply Z.div_pos; lia|apply Z.div_lt_upper_bound; nia]. }
    match goal with |- exists r, (if ?b then Ret _ else ?k) = _ /\ _ =>
      replace (if b then Ret (found_first_zero tmp (64 * p) (size - 64 * p)) else k)
        with (if b then Ret (found_first (lnot64 tmp) (64 * p) (size - 64 * p)) else k)
        by (destruct (Z.ltb_spec (size - 64 * p) 64); [rewrite found_first_zero_eq by lia|]; done)
    end.
    apply first_word; [apply lnot64_range| |lia|lia|].
    + intros j Hj. subst tmp. change 64 with BITS_PER_LONG at 1.
      rewrite low_mask, bit_word by mlia. f_equal. repeat zcase; done || (subst p; mlia).
    + intros Hlt. replace (64 * p + 64) with (64 * (p + 1)) by lia.
      replace (size - 64 * p - 64) with (size - 64 * (p + 1)) by lia. apply Hwords; lia.
Qed.

Lemma first_loop_ok map size fuel : forall p,
  words_ok map -> has_size map size -> 0 <= p -> size <= 64 * (p + Z.of_nat fuel) ->
  64 * p <= size + 63 -> 0 <= size ->
  exists r, first_loop fuel map p (64 * p) size = Ret r /\
    (64 * p < size -> first_in (bit map) (64 * p) size r) /\ (size <= 64 * p -> r = size).
Proof.
  unfold has_size.
  induction fuel as [|fuel IH]; intros p Hok Hs Hp Hf Hle H0; cbn [first_loop];
    (destruct (Z.ltb_spec (64 * p) size);
      [|eexists; split; [reflexivity|]; split; [lia|done]]); [lia|].
  rewrite wget_ok by lia. cbn [mbind outcome_bind]. pose proof (wrd_range map p Hok).
  assert (forall j, 0 <= j < 64 -> Z.testbit (wrd map p) j = bit map (64 * p + j)) as Hb
    by (intros; by rewrite bit_word).
  destruct (Z.eqb_spec (wrd map p) 0) as [E|E]; cbn [negb].
  - unfold BITS_PER_LONG. replace (64 * p + 64) with (64 * (p + 1)) by lia.
    destruct (IH (p + 1)) as (r & -> & Hr & Hr'); [done|done|lia|lia|lia|done|].
    exists r. split; [done|]. split; [|lia]. intros _.
    pose proof (zero_word _ _ _ E Hb) as Hz. destruct (decide (64 * (p + 1) < size)).
    + apply (first_in_skip _ _ (64 * (p + 1))); [lia|intros; apply Hz; lia|by apply Hr].
    + rewrite Hr' by lia. constructor; [lia|intros; apply Hz; lia|lia].
  - eexists. split; [reflexivity|]. split; [|lia]. intros _.
    destruct (ctzl_spec (wrd map p)) as (Hc & Hset & Hlow); [lia|].
    assert (forall k, 64 * p <= k < 64 * p + ctzl (wrd map p) -> bit map k = false) as Hz.
    { intros k Hk. replace k with (64 * p + (k - 64 * p)) by lia. rewrite <- Hb by lia.
      apply Hlow. lia. }
    zcase; constructor; try lia.
    + intros k Hk. apply Hz. lia.
    + intros _. by rewrite <- Hb.
    + intros k Hk. apply Hz. lia.
Qed.

(** [r] is the last position of [f] below [b], or [b]. *)
Definition last_in (f : Z -> bool) (b r : Z) : Prop :=
  (0 <= r < b /\ f r = true /\ forall k, r < k < b -> f k = false) \/
  (r = b /\ forall k, 0 <= k < b -> f k = false).

Lemma clzl_spec c :
  0 < c < 2 ^ 64 ->
  0 <= clzl c < 64 /\ Z.testbit c (63 - clzl c) = true /\
  (forall j, 63 - clzl c < j < 64 -> Z.testbit c j = false).
Proof.
  intros Hc. unfold clzl. rewrite clz64_lead.
  destruct (lead_spec 64 (fun i => Z.testbit c (63 - i))) as (H1 & H2 & H3).
  set (n := lead 64 _) in *.
  assert (n < 64).
  { destruct (decide (n < 64)); [done|]. exfalso.
    assert (Z.testbit c (Z.log2 c) = true) as Hb by (apply Z.bit_log2; lia).
    pose proof (Z.log2_nonneg c). assert (Z.log2 c < 64) by (apply Z.log2_lt_pow2; lia).
    specialize (H2 (63 - Z.log2 c) ltac:(lia)). simpl in H2.
    replace (63 - (63 - Z.log2 c)) with (Z.log2 c) in H2 by lia. congruence. }
  split; [lia|]. split; [apply H3; lia|]. intros j Hj.
  specialize (H2 (63 - j) ltac:(lia)). simpl in H2. by replace (63 - (63 - j)) with j in H2 by lia.
Qed.

(** The last bit of a nonzero word, when nothing is set behind the word. *)
Lemma last_in_word f p b tmp :
  0 < tmp < 2 ^ 64 -> 0 <= p -> 64 * p < b ->
  (forall j, 0 <= j < 64 -> Z.testbit tmp j = f (64 * p + j) && (64 * p + j <? b)) ->
  (forall k, 64 * p + 64 <= k < b -> f k = false) ->
  last_in f b (p * 64 + 64 - 1 - clzl tmp).
Proof.
  intros Ht Hp Hb Hf Hz. destruct (clzl_spec tmp Ht) as (H1 & H2 & H3). left.
  rewrite Hf in H2 by lia. apply andb_true_iff in H2 as [H2 H2'%Z.ltb_lt].
  replace (p * 64 + 64 - 1 - clzl tmp) with (64 * p + (63 - clzl tmp)) by lia.
  split; [lia|]. split; [done|]. intros k Hk.
  destruct (decide (k < 64 * p + 64)); [|apply Hz; lia].
  specialize (H3 (k - 64 * p) ltac:(lia)). rewrite Hf in H3 by lia.
  replace (64 * p + (k - 64 * p)) with k in H3 by lia.
  destruct (Z.ltb_spec k b); [|lia]. by rewrite andb_true_r in H3.
Qed.

Lemma last_loop_ok map size words :
  words_ok map -> has_size map size -> 64 * Z.of_nat words <= size ->
  (forall k, 64 * Z.of_nat words <= k < size -> bit map k = false) ->
  exists r, last_loop words map size = Ret r /\ last_in (bit map) size r.
Proof.
  unfold has_size. intros Hok Hs.
  induction words as [|p IH]; intros Hle Hz; cbn [last_loop].
  - exists size. split; [done|]. right. split; [done|]. intros. apply Hz. lia.
  - rewrite wget_ok by lia. cbn [mbind outcome_bind]. pose proof (wrd_range map (Z.of_nat p) Hok).
    assert (forall j, 0 <= j < 64 ->
              Z.testbit (wrd map (Z.of_nat p)) j = bit map (64 * Z.of_nat p + j)) as Hb
      by (intros; by rewrite bit_word).
    destruct (Z.eqb_spec (wrd map (Z.of_nat p)) 0) as [E|E]; cbn [negb].
    + apply IH; [lia|]. intros k Hk. destruct (decide (k < 64 * Z.of_nat p + 64)).
      * eapply zero_word; [exact E|exact Hb|lia].
      * apply Hz. lia.
    + eexists. split; [reflexivity|]. unfold BITS_PER_LONG. apply last_in_word; [lia|lia|lia| |].
      * intros j Hj. rewrite Hb by done. destruct (Z.ltb_spec (64 * Z.of_nat p + j) size);
          [by rewrite andb_true_r|lia].
      * intros k Hk. apply Hz. lia.
Qed.

Lemma find_last_bit_ok map size :
  words_ok map -> has_size map size -> 0 <= size ->
  exists r, find_last_bit map size = Ret r /\ last_in (bit map) size r.
Proof.
  intros Hok Hs H0. unfold find_last_bit, has_size in *.
  change (BITS_PER_LONG - 1) with (Z.ones 6). rewrite Z.land_ones by lia.
  change (2 ^ 6) with 64. change (size / BITS_PER_LONG) with (size / 64).
  set (p := size / 64) in *. assert (0 <= p) by (subst p; mlia).
  assert (size = 64 * p + size mod 64) as E by (subst p; mlia).
  pose proof (Z.mod_pos_bound size 64 ltac:(lia)).
  destruct (Z.eqb_spec (size mod 64) 0) as [E0|E0]; cbn [negb].
  { apply last_loop_ok; [done|done|lia|intros; lia]. }
  rewrite wget_ok by lia. cbn [mbind outcome_bind]. unfold BITS_PER_LONG, ULONG_MAX.
  change (2 ^ 64 - 1) with (Z.ones 64). rewrite Z.shiftr_div_pow2, Z.ones_div_pow2 by lia.
  replace (64 - (64 - size mod 64)) with (size mod 64) by lia.
  set (tmp := wrd map p &&& _).
  assert (forall j, 0 <= j < 64 ->
    Z.testbit tmp j = bit map (64 * p + j) && (64 * p + j <? size)) as Hb.
  { intros j Hj. subst tmp. rewrite Z.land_spec, testbit_ones, bit_word by lia. f_equal.
    destruct (Z.leb_spec 0 j); [|lia]. repeat zcase; done || lia. }
  assert (0 <= tmp < 2 ^ 64) by (apply land_range_l; [lia|by apply wrd_range]).
  destruct (Z.eqb_spec tmp 0) as [Et|Et]; cbn [negb].
  - apply last_loop_ok; [done|done|lia|]. rewrite Z2Nat.id by done. intros k Hk.
    specialize (Hb (k - 64 * p) ltac:(lia)). rewrite Et, Z.testbit_0_l in Hb.
    replace (64 * p + (k - 64 * p)) with k in Hb by lia.
    destruct (Z.ltb_spec k size); [|lia]. by rewrite andb_true_r in Hb.
  - eexists. split; [reflexivity|]. apply last_in_word; [lia|done|lia|done|intros; lia].
Qed.

(** ** Ranges *)

(** [map'] is [map] with the bits of [a, b) set to [v]. *)
Record updated (v : bool) (a b : Z) (map map' : list Z) : Prop := {
  up_len : length map' = length map;
  up_ok : words_ok map';
  up_bit : forall n, 0 <= n -> bit map' n = if (a <=? n) && (n <? b) then v else bit map n;
}.

Section ranges.
(** The update of a word by a mask. *)
Context (f : Z -> Z -> Z) (v : bool).
Hypothesis f_range : forall w m, 0 <= w < 2 ^ 64 -> 0 <= m < 2 ^ 64 -> 0 <= f w m < 2 ^ 64.
Hypothesis f_bit : forall w m j, 0 <= j < 64 ->
  Z.testbit (f w m) j = if Z.testbit m j then v else Z.testbit w j.

(** One word, with a mask for the bits from [a] to [b]. *)
Lemma update_word map p m a b :
  words_ok map -> 0 <= p < Z.of_nat (length map) -> 0 <= m < 2 ^ 64 ->
  64 * p <= a <= b -> b <= 64 * p + 64 ->
  (forall j, 0 <= j < 64 -> Z.testbit m j = (a <=? 64 * p + j) && (64 * p + j <? b)) ->
  updated v a b map (zset map p (f (wrd map p) m)).
Proof.
  intros Hok Hp Hm Hab Hb Hbits. constructor.
  - apply length_zset.
  - apply words_ok_zset; [done|]. apply f_range; [by apply wrd_range|done].
  - intros n Hn. unfold bit. rewrite wrd_zset by done.
    destruct (Z.eqb_spec (n / 64) p) as [E|E].
    + rewrite f_bit, Hbits by mlia. subst p.
      replace (64 * (n / 64) + n mod 64) with n by mlia. done.
    + destruct (Z.leb_spec a n), (Z.ltb_spec n b); simpl; try done. mlia.
Qed.

Lemma updated_trans a b c map1 map2 map3 :
  a <= b <= c -> updated v a b map1 map2 -> updated v b c map2 map3 -> updated v a c map1 map3.
Proof.
  intros Hab [L1 _ B1] [L2 O2 B2]. constructor; [congruence|done|].
  intros n Hn. rewrite B2, B1 by done. repeat (zcase; simpl); try lia; done.
Qed.

Lemma updated_refl a map : words_ok map -> updated v a a map map.
Proof.
  intros Hok. constructor; [done|done|]. intros n Hn. repeat (zcase; simpl); try lia; done.
Qed.

Definition mask_from (k : Z) : Z := u64 (ULONG_MAX << k).

Lemma testbit_mask_from k j :
  0 <= k < 64 -> 0 <= j < 64 -> Z.testbit (mask_from k) j = (k <=? j).
Proof.
  intros Hk Hj. pose proof (high_mask ULONG_MAX k j Hk Hj) as H. revert H.
  unfold mask_from, ULONG_MAX. change (2 ^ 64 - 1) with (Z.ones 64).
  rewrite Z.land_spec, testbit_ones by lia.
  destruct (Z.leb_spec 0 j), (Z.ltb_spec j 64); (done || lia).
Qed.

Lemma range_loop_ok fuel : forall map pos nr,
  words_ok map -> 0 <= pos -> 0 <= nr -> has_size map (pos + nr) ->
  pos / 64 + Z.of_nat fuel >= Z.of_nat (length map) + 1 ->
  exists map' p nr' mask,
    range_loop f fuel map (pos / 64) nr (64 - pos mod 64) (mask_from (pos mod 64)) =
      Ret (map', p, nr', mask) /\
    let pos' := pos + nr - nr' in
    pos <= pos' /\ p = pos' / 64 /\ mask = mask_from (pos' mod 64) /\
    0 <= nr' < 64 - pos' mod 64 /\ updated v pos pos' map map'.
Proof.
  unfold has_size. induction fuel as [|fuel IH]; intros map pos nr Hok Hp Hn Hs Hf;
    cbn [range_loop]; (destruct (Z.leb_spec 0 (nr - (64 - pos mod 64)));
      [|eexists _, _, _, _; split; [reflexivity|]; cbv zeta;
        replace (pos + nr - nr) with pos by lia;
        split_and!; [lia|done|done|lia|lia|by apply updated_refl]]); [mlia|].
  assert (0 <= pos / 64 < Z.of_nat (length map)) by mlia.
  rewrite wget_ok by done. cbn [mbind outcome_bind].
  rewrite wput_ok by done. cbn [mbind outcome_bind].
  set (map1 := zset _ _ _). set (pos1 := 64 * (pos / 64 + 1)).
  assert (updated v pos pos1 map map1) as Hup.
  { subst pos1. apply update_word; [done|done|apply wrap_range; lia|mlia|lia|].
    intros j Hj. rewrite testbit_mask_from by mlia. repeat (zcase; simpl); done || mlia. }
  destruct (IH map1 pos1 (nr - (64 - pos mod 64))) as (map' & p & nr' & mask & Hrun & Hspec).
  { apply Hup. }
  { subst pos1. lia. }
  { lia. }
  { rewrite (up_len _ _ _ _ _ Hup). subst pos1. mlia. }
  { rewrite (up_len _ _ _ _ _ Hup). subst pos1. mlia. }
  assert (pos1 / 64 = pos / 64 + 1) as E1 by (subst pos1; mlia).
  assert (pos1 mod 64 = 0) as E2 by (subst pos1; mlia).
  assert (mask_from 0 = ULONG_MAX) as E3 by done.
  rewrite E1, E2, E3 in Hrun. unfold BITS_PER_LONG. change (64 - 0) with 64 in Hrun.
  exists map', p, nr', mask. split; [exact Hrun|]. cbv zeta in *.
  replace (pos1 + (nr - (64 - pos mod 64)) - nr') with (pos + nr - nr') in Hspec
    by (subst pos1; mlia).
  destruct Hspec as (H1 & H2 & H3 & H4 & H5). split_and!; try done; [subst pos1; mlia|lia|lia|].
  apply (updated_trans _ pos1 _ _ map1); [subst pos1; mlia|done|done].
Qed.

Lemma range_update_ok map start nr :
  words_ok map -> 0 <= start -> 0 <= nr -> has_size map (start + nr) ->
  exists map', range_update f map start nr = Ret map' /\ updated v start (start + nr) map map'.
Proof.
  intros Hok Hs Hn Hlen. unfold range_update, BIT_WORD, BITMAP_FIRST_WORD_MASK, BITS_PER_LONG.
  destruct (range_loop_ok (S (length map)) map start nr) as
    (map1 & p & nr1 & mask & Hrun & Hspec); [done..|mlia|].
  unfold mask_from at 1 in Hrun. rewrite Hrun. cbn [mbind outcome_bind].
  set (pos := start + nr - nr1) in *. destruct Hspec as (H1 & -> & -> & H4 & Hup).
  destruct (Z.eqb_spec nr1 0) as [->|Hne]; cbn [negb].
  { exists map1. split; [done|]. by replace (start + nr) with pos by lia. }
  assert (0 <= pos / 64 < Z.of_nat (length map1)) as Hp.
  { rewrite (up_len _ _ _ _ _ Hup). unfold has_size in Hlen. subst pos. mlia. }
  assert ((start + nr) mod 64 = pos mod 64 + nr1) as Em by (subst pos; mlia).
  rewrite wget_ok by done. cbn [mbind outcome_bind].
  rewrite wput_ok by done. cbn [mbind outcome_bind].
  eexists. split; [reflexivity|].
  apply (updated_trans _ pos _ _ map1); [lia|done|].
  unfold BITMAP_LAST_WORD_MASK, BITS_PER_LONG. rewrite Em.
  destruct (Z.eqb_spec (pos mod 64 + nr1) 0); [mlia|]. cbn [negb].
  replace ((1 << (pos mod 64 + nr1)) - 1) with (Z.ones (pos mod 64 + nr1))
    by (rewrite Z.ones_equiv, Z.shiftl_1_l; lia).
  apply update_word; [apply Hup|done| |mlia|mlia|].
  - apply land_range_l; [lia|]. apply wrap_range. lia.
  - intros j Hj. rewrite Z.land_spec, testbit_mask_from, testbit_ones by mlia.
    repeat (zcase; simpl); done || mlia.
Qed.
End ranges.

(** ** Areas *)

Lemma ALIGN_MASK_ok x al :
  0 <= al -> 0 <= x -> x + 2 ^ al <= 2 ^ 64 ->
  ALIGN_MASK x (2 ^ al - 1) = 2 ^ al * ((x + 2 ^ al - 1) / 2 ^ al).
Proof.
  intros Ha Hx Hmax. unfold ALIGN_MASK, lnot64. assert (0 < 2 ^ al) by lia.
  rewrite (wrap_small 64 (x + _)) by lia. replace (x + (2 ^ al - 1)) with (x + 2 ^ al - 1) by lia.
  set (y := x + 2 ^ al - 1). replace (2 ^ al - 1) with (Z.ones al) by (rewrite Z.ones_equiv; lia).
  apply Z.bits_inj'. intros i Hi.
  rewrite Z.land_spec, testbit_wrap, testbit_lnot, testbit_ones by lia.
  replace (2 ^ al * (y / 2 ^ al)) with (0 + 2 ^ al * (y / 2 ^ al)) by lia.
  rewrite testbit_split by lia. destruct (Z.leb_spec 0 i); [|lia]. destruct (Z.ltb_spec i al); simpl.
  - by rewrite !andb_false_r, Z.testbit_0_l.
  - rewrite Z.div_pow2_bits by lia. replace (i - al + al) with i by lia. rewrite andb_true_r.
    zcase; [apply andb_true_r|]. rewrite (testbit_high 64 y) by (subst y; lia). done.
Qed.

Lemma align_least x al a :
  0 <= al -> let y := 2 ^ al * ((x + 2 ^ al - 1) / 2 ^ al) in
  x <= y < x + 2 ^ al /\ (2 ^ al | y) /\ (x <= a -> (2 ^ al | a) -> y <= a).
Proof.
  intros Ha y. assert (0 < 2 ^ al) by lia. subst y. split; [mlia|]. split.
  - apply Z.divide_factor_l.
  - intros Hxa [k ->]. rewrite (Z.mul_comm k).
    apply Z.mul_le_mono_nonneg_l; [lia|].
    assert ((x + 2 ^ al - 1) / 2 ^ al < k + 1); [|lia].
    apply Z.div_lt_upper_bound; lia.
Qed.

(** An aligned area of [nr] zero bits inside the bitmap, from [start] on. *)
Record zero_area (map : list Z) (size start nr al a : Z) : Prop := {
  za_start : start <= a;
  za_end : a + nr <= size;
  za_align : (2 ^ al | a);
  za_zero : forall k, a <= k < a + nr -> bit map k = false;
}.

Lemma zero_area_loop_ok map size nr al fuel : forall start,
  words_ok map -> has_size map size -> 0 <= al -> 0 < nr -> 0 <= size -> 0 <= start < 2 ^ 63 ->
  size + nr + 2 ^ al <= 2 ^ 63 -> size <= start + Z.of_nat fuel ->
  exists r, zero_area_loop fuel map size start nr (2 ^ al - 1) = Ret r /\
    ((zero_area map size start nr al r /\ forall a, zero_area map size start nr al a -> r <= a) \/
     (size < r /\ forall a, ~ zero_area map size start nr al a)).
Proof.
  induction fuel as [|fuel IH]; intros start Hok Hs Ha Hnr Hsz Hst Hmax Hf; cbn [zero_area_loop];
  (destruct (find_next_zero_bit_ok map size start) as (z & -> & Hz & Hz'); [done|done|lia|];
   assert (0 <= z <= size /\ (z = size \/ start <= z) /\
           forall k, start <= k < z -> bit map k = true) as (Hzr & Hzs & Hbefore)
     by (destruct (decide (start < size)) as [Hlt|];
         [destruct (Hz Hlt) as [H1 H2 H3]; split_and!; [lia|lia|lia|];
          intros k Hk; specialize (H2 k Hk); by destruct (bit map k)
         |rewrite Hz' by lia; split_and!; [lia|lia|lia|intros; lia]]);
   cbn [mbind outcome_bind]; assert (0 < 2 ^ al) by lia;
   rewrite ALIGN_MASK_ok by lia;
   set (index := 2 ^ al * ((z + 2 ^ al - 1) / 2 ^ al));
   assert (z <= index < z + 2 ^ al /\ (2 ^ al | index)) as [Hi Hdiv]
     by (destruct (align_least z al 0 Ha) as (? & ? & _); done);
   assert (forall a, zero_area map size start nr al a -> index <= a) as Hleast
     by (intros a [A1 A2 A3 A4]; apply (align_least z al a Ha); [|done];
         destruct (decide (a < z)) as [Hlt|]; [|lia];
         specialize (A4 a ltac:(lia)); rewrite Hbefore in A4 by lia; done);
   rewrite (wrap_small 64 (index + nr)) by lia;
   destruct (Z.ltb_spec size (index + nr));
     [eexists; split; [reflexivity|]; right; split; [lia|]; intros a Har;
      pose proof (Hleast a Har); destruct Har; lia|];
   destruct (find_next_bit_ok map (index + nr) index) as (i & -> & Hi' & _);
     [done|unfold has_size in *; lia|lia|]; destruct (Hi' ltac:(lia)) as [I1 I2 I3];
   cbn [mbind outcome_bind]; destruct (Z.ltb_spec i (index + nr));
     [|eexists; split; [reflexivity|]; left; split; [|done]; constructor;
       [lia|lia|done|intros k Hk; apply I2; lia]]).
  - lia.
  - destruct (IH (i + 1)) as (r & -> & Hr); [done|done|done|done|done|lia|done|lia|].
    exists r. split; [done|]. specialize (I3 ltac:(lia)).
    assert (forall a, zero_area map size start nr al a -> zero_area map size (i + 1) nr al a) as Hto.
    { intros a Har. pose proof (Hleast a Har). destruct Har as [A1 A2 A3 A4].
      constructor; [|done|done|done]. destruct (decide (a <= i)); [|lia].
      rewrite A4 in I3 by lia. done. }
    destruct Hr as [[[R1 R2 R3 R4] Hmin]|[Hr Hnone]].
    + left. split; [constructor; [lia|done|done|done]|]. intros a Har. by apply Hmin, Hto.
    + right. split; [done|]. intros a Har. by apply (Hnone a), Hto.
Qed.

(** ** Predicates and word-wise operations *)

Lemma last_word_mask nbits j :
  0 < nbits -> 0 <= j < 64 ->
  Z.testbit (BITMAP_LAST_WORD_MASK nbits) j = ((nbits mod 64 =? 0) || (j <? nbits mod 64)).
Proof.
  intros Hn Hj. unfold BITMAP_LAST_WORD_MASK, BITS_PER_LONG, ULONG_MAX.
  destruct (Z.eqb_spec (nbits mod 64) 0); cbn [negb orb].
  - change (2 ^ 64 - 1) with (Z.ones 64). rewrite testbit_ones by lia.
    destruct (Z.leb_spec 0 j), (Z.ltb_spec j 64); (done || lia).
  - replace ((1 << (nbits mod 64)) - 1) with (Z.ones (nbits mod 64))
      by (rewrite Z.ones_equiv, Z.shiftl_1_l; lia).
    rewrite testbit_ones by mlia. destruct (Z.leb_spec 0 j); [done|lia].
Qed.

Lemma BITMAP_LAST_WORD_MASK_range nbits : 0 <= BITMAP_LAST_WORD_MASK nbits < 2 ^ 64.
Proof.
  unfold BITMAP_LAST_WORD_MASK, BITS_PER_LONG, ULONG_MAX. zcase; cbn [negb]; [lia|].
  rewrite Z.shiftl_1_l. assert (0 < 2 ^ (nbits mod 64)) by (apply Z.pow_pos_nonneg; mlia).
  assert (2 ^ (nbits mod 64) <= 2 ^ 63) by (apply Z.pow_le_mono_r; mlia). lia.
Qed.

(** A word has one of the bits of a mask. *)
Lemma has_bits_true w m :
  0 <= m < 2 ^ 64 ->
  has_bits w m = true <-> exists j, 0 <= j < 64 /\ Z.testbit m j = true /\ Z.testbit w j = true.
Proof.
  intros Hm. pose proof (has_bits_spec w m ltac:(lia)) as H. destruct (has_bits w m).
  - split; [|done]. intros _. destruct H as (i & Hi & Hmi & Hwi). exists i. split; [|done].
    split; [done|]. destruct (decide (i < 64)); [done|].
    rewrite (testbit_high 64 m) in Hmi by lia. done.
  - split; [done|]. intros (j & Hj & Hmj & Hwj). rewrite H in Hwj by (done || lia). done.
Qed.

Lemma nonzero_bits w :
  0 <= w < 2 ^ 64 -> negb (w =? 0) = true <-> exists j, 0 <= j < 64 /\ Z.testbit w j = true.
Proof.
  intros Hw. rewrite negb_true_iff, Z.eqb_neq. split.
  - intros H0. destruct (ctzl_spec w) as (H1 & H2 & _); [lia|]. eauto.
  - intros (j & Hj & Hb) ->. rewrite Z.testbit_0_l in Hb. done.
Qed.

Section predicates.
(** The words whose used bits are looked at, and their number. *)
Context (t : Z -> Z) (nwords : Z).
Hypothesis t_range : forall k, 0 <= t k < 2 ^ 64.

Definition tbit (n : Z) : bool := Z.testbit (t (n / 64)) (n mod 64).

Lemma tbit_word k j : 0 <= j < 64 -> tbit (64 * k + j) = Z.testbit (t k) j.
Proof. intros Hj. unfold tbit. f_equal; [f_equal|]; mlia. Qed.

Lemma any_word_ok full n : forall k,
  (forall i, k <= i < k + Z.of_nat n -> full i = Ret (negb (t i =? 0))) -> 0 <= k ->
  exists b, any_word n k full = Ret b /\
    (b = true <-> exists m, 64 * k <= m < 64 * (k + Z.of_nat n) /\ tbit m = true).
Proof.
  induction n as [|n IH]; intros k Hfull Hk; cbn [any_word].
  - exists false. split; [done|]. split; [done|]. intros (m & ? & _). lia.
  - rewrite Hfull by lia. cbn [mbind outcome_bind].
    pose proof (nonzero_bits (t k) (t_range k)) as Hnz.
    destruct (negb (t k =? 0)) eqn:E.
    + exists true. split; [done|]. split; [|done]. intros _.
      destruct (proj1 Hnz eq_refl) as (j & Hj & Hb). exists (64 * k + j).
      split; [lia|]. by rewrite tbit_word.
    + destruct (IH (k + 1)) as (b & -> & Hb); [intros; apply Hfull; lia|lia|].
      exists b. split; [done|]. rewrite Hb. split.
      * intros (m & Hm & Hbm). exists m. split; [lia|done].
      * intros (m & Hm & Hbm). exists m. split; [|done]. split; [|lia].
        destruct (decide (m < 64 * (k + 1))); [|lia]. exfalso.
        assert (false = true); [|done]. apply Hnz. exists (m - 64 * k). split; [lia|].
        rewrite <- tbit_word by lia. by replace (64 * k + (m - 64 * k)) with m by lia.
Qed.

Lemma any_bits_ok full last bits :
  0 < bits -> bits <= 64 * nwords ->
  (forall i, 0 <= i < nwords -> full i = Ret (negb (t i =? 0)) /\ last i = Ret (t i)) ->
  exists b, any_bits full last bits = Ret b /\
    (b = true <-> exists m, 0 <= m < bits /\ tbit m = true).
Proof.
  intros Hb Hlen Hft. unfold any_bits. change (bits / BITS_PER_LONG) with (bits / 64).
  change (bits mod BITS_PER_LONG) with (bits mod 64).
  destruct (any_word_ok full (Z.to_nat (bits / 64)) 0) as (b & -> & Hw);
    [intros; apply Hft; mlia|lia|].
  cbn [mbind outcome_bind]. rewrite Z2Nat.id in Hw by mlia. simpl (64 * 0) in Hw.
  destruct b.
  - exists true. split; [done|]. split; [|done]. intros _.
    destruct (proj1 Hw eq_refl) as (m & Hm & Hbm). exists m. split; [mlia|done].
  - destruct (Z.eqb_spec (bits mod 64) 0) as [E|E]; cbn [negb].
    + exists false. split; [done|]. rewrite Hw. split; intros (m & Hm & Hbm); exists m; (split; [mlia|done]).
    + rewrite (proj2 (Hft (bits / 64) ltac:(mlia))). cbn [mbind outcome_bind].
      eexists. split; [reflexivity|].
      rewrite has_bits_true by apply BITMAP_LAST_WORD_MASK_range. split.
      * intros (j & Hj & Hm & Ht). rewrite last_word_mask in Hm by lia.
        exists (64 * (bits / 64) + j). split; [|by rewrite tbit_word].
        apply orb_true_iff in Hm as [?%Z.eqb_eq|?%Z.ltb_lt]; mlia.
      * intros (m & Hm & Hbm). destruct (decide (m < 64 * (bits / 64))).
        { exfalso. assert (false = true); [|done]. apply Hw. exists m. split; [lia|done]. }
        exists (m - 64 * (bits / 64)). split; [mlia|]. rewrite last_word_mask by mlia.
        rewrite <- tbit_word by mlia. replace (64 * (bits / 64) + (m - 64 * (bits / 64))) with m by lia.
        split; [|done]. apply orb_true_iff. right. apply Z.ltb_lt. mlia.
Qed.

(** The variant for one word. *)
Lemma small_ok nbits :
  0 < nbits <= 64 ->
  has_bits (t 0) (BITMAP_LAST_WORD_MASK nbits) = true <->
  exists m, 0 <= m < nbits /\ tbit m = true.
Proof.
  intros Hn. rewrite has_bits_true by apply BITMAP_LAST_WORD_MASK_range.
  assert (forall j, 0 <= j < 64 -> tbit j = Z.testbit (t 0) j) as Ht
    by (intros j Hj; by rewrite <- (tbit_word 0 j)).
  split.
  - intros (j & Hj & Hm & Hb). rewrite last_word_mask in Hm by lia.
    exists j. rewrite Ht by done. split; [|done].
    apply orb_true_iff in Hm as [?%Z.eqb_eq|?%Z.ltb_lt]; mlia.
  - intros (m & Hm & Hb). exists m. rewrite last_word_mask, <- Ht by lia.
    split; [lia|]. split; [|done]. apply orb_true_iff. rewrite Z.eqb_eq, Z.ltb_lt. mlia.
Qed.
End predicates.

Lemma word_loop_ok f n : forall k dst m1 m2 res,
  0 <= k -> k + Z.of_nat n <= Z.of_nat (length dst) -> k + Z.of_nat n <= Z.of_nat (length m1) ->
  k + Z.of_nat n <= Z.of_nat (length m2) ->
  exists dst' res', word_loop f n k dst m1 m2 res = Ret (dst', res') /\
    length dst' = length dst /\
    (forall i, wrd dst' i =
       if (k <=? i) && (i <? k + Z.of_nat n) then f (wrd m1 i) (wrd m2 i) else wrd dst i) /\
    (res' = 0 <-> res = 0 /\ forall i, k <= i < k + Z.of_nat n -> f (wrd m1 i) (wrd m2 i) = 0).
Proof.
  induction n as [|n IH]; intros k dst m1 m2 res Hk H0 H1 H2; cbn [word_loop].
  - exists dst, res. split_and!; [done|done| |].
    + intros i. repeat (zcase; simpl); done || lia.
    + split; [|tauto]. intros ->. split; [done|]. intros. lia.
  - rewrite !wget_ok by lia. cbn [mbind outcome_bind].
    rewrite wput_ok by lia. cbn [mbind outcome_bind].
    destruct (IH (k + 1) (zset dst k (f (wrd m1 k) (wrd m2 k))) m1 m2
                (res ||| f (wrd m1 k) (wrd m2 k))) as (dst' & res' & -> & Hl & Hw & Hr);
      [lia|rewrite length_zset; lia|lia|lia|].
    exists dst', res'. split_and!; [done|by rewrite Hl, length_zset| |].
    + intros i. rewrite Hw, wrd_zset by lia. repeat (zcase; simpl); try done; try lia; by subst.
    + rewrite Hr, Z.lor_eq_0_iff. split.
      * intros [[Hres Hk0] Hall]. split; [done|]. intros i Hi.
        destruct (decide (i = k)) as [->|]; [done|]. apply Hall. lia.
      * intros [Hres Hall]. split; [split; [done|]; apply Hall; lia|]. intros i Hi. apply Hall. lia.
Qed.

(** Both variants of an operation on two bitmaps. *)
Lemma word_op_ok f dst m1 m2 nbits :
  0 < nbits -> has_size dst nbits -> has_size m1 nbits -> has_size m2 nbits ->
  exists dst' res,
    (if small_nbits nbits then
       w1 ← wget m1 0; w2 ← wget m2 0;
       dst' ← wput dst 0 (f w1 w2);
       Ret (dst', f w1 w2)
     else word_loop f (Z.to_nat (BITS_TO_LONGS nbits)) 0 dst m1 m2 0) = Ret (dst', res) /\
    length dst' = length dst /\
    (forall i, wrd dst' i =
       if (0 <=? i) && (i <? BITS_TO_LONGS nbits) then f (wrd m1 i) (wrd m2 i) else wrd dst i) /\
    (res = 0 <-> forall i, 0 <= i < BITS_TO_LONGS nbits -> f (wrd m1 i) (wrd m2 i) = 0).
Proof.
  intros Hn Hd H1 H2. unfold has_size, small_nbits in *.
  assert (0 < BITS_TO_LONGS nbits /\ 64 * BITS_TO_LONGS nbits < nbits + 64) as HL.
  { unfold BITS_TO_LONGS, BITS_PER_LONG. mlia. }
  change (nbits <=? BITS_PER_LONG) with (nbits <=? 64).
  destruct (Z.leb_spec nbits 64) as [Hs|Hs].
  - assert (BITS_TO_LONGS nbits = 1) as -> by lia.
    rewrite !wget_ok by lia. cbn [mbind outcome_bind]. rewrite wput_ok by lia.
    cbn [mbind outcome_bind]. eexists _, _. split; [reflexivity|]. split; [apply length_zset|].
    split.
    + intros i. rewrite wrd_zset by lia. repeat (zcase; simpl); try done; try lia; by subst.
    + split; [|intros H; apply H; lia]. intros H0 i Hi. by replace i with 0 by lia.
  - destruct (word_loop_ok f (Z.to_nat (BITS_TO_LONGS nbits)) 0 dst m1 m2 0)
      as (dst' & res & -> & Hl & Hw & Hr); [lia..|].
    exists dst', res. split_and!; [done|done| |].
    + intros i. rewrite Hw. by replace (0 + Z.of_nat (Z.to_nat (BITS_TO_LONGS nbits)))
        with (BITS_TO_LONGS nbits) by lia.
    + rewrite Hr. replace (0 + Z.of_nat (Z.to_nat (BITS_TO_LONGS nbits)))
        with (BITS_TO_LONGS nbits) by lia. tauto.
Qed.

(** ** Properties *)

(** On a bitmap with [size] bits the searches return the first set bit and
    the first zero bit from [offset] on, the first set bit, and the last set
    bit below [size], or [size] when there is none; all accesses are in
    bounds. *)
Lemma bit_searches_correct map size offset :
  words_ok map -> has_size map size -> 0 <= offset < size -> size < 2 ^ 64 ->
  (exists r, find_next_bit map size offset = Ret r /\ first_in (bit map) offset size r) /\
  (exists r, find_next_zero_bit map size offset = Ret r /\
     first_in (fun n => negb (bit map n)) offset size r) /\
  (exists r, find_first_bit map size = Ret r /\ first_in (bit map) 0 size r) /\
  (exists r, find_last_bit map size = Ret r /\ last_in (bit map) size r).
Proof.
  intros Hok Hs Ho Hmax. split_and!.
  - destruct (find_next_bit_ok map size offset) as (r & -> & Hr & _); [done|done|lia|].
    exists r. split; [done|]. apply Hr. lia.
  - destruct (find_next_zero_bit_ok map size offset) as (r & -> & Hr & _); [done|done|lia|].
    exists r. split; [done|]. apply Hr. lia.
  - unfold has_size in Hs.
    destruct (first_loop_ok map size (length map) 0) as (r & Hrun & Hr & _); [done|done|lia..|].
    exists r. split; [exact Hrun|]. apply Hr. lia.
  - apply find_last_bit_ok; [done|done|lia].
Qed.

Lemma bit_searches_correct_witness :
  exists r, find_next_bit [8; 0; 0; 0; 0; 0x10] 384 4 = Ret r /\
    first_in (bit [8; 0; 0; 0; 0; 0x10]) 4 384 r.
Proof.
  apply (bit_searches_correct [8; 0; 0; 0; 0; 0x10] 384 4);
    [repeat constructor; lia|unfold has_size; simpl; lia|lia|lia].
Defined.

(** [bitmap_set] and [bitmap_clear] set and clear the bits of the range,
    leave all others as they are and stay in bounds. *)
Lemma bitmap_ranges_correct map start nr :
  words_ok map -> 0 <= start -> 0 <= nr -> has_size map (start + nr) ->
  (exists map', bitmap_set map start nr = Ret map' /\
     length map' = length map /\
     forall n, 0 <= n -> bit map' n = bit map n || ((start <=? n) && (n <? start + nr))) /\
  (exists map', bitmap_clear map start nr = Ret map' /\
     length map' = length map /\
     forall n, 0 <= n -> bit map' n = bit map n && negb ((start <=? n) && (n <? start + nr))).
Proof.
  intros Hok Hs Hn Hlen. split.
  - destruct (range_update_ok (fun w mask => w ||| mask) true) with map start nr
      as (map' & Hrun & [L _ B]); try done.
    + intros. by apply lor_range.
    + intros. rewrite Z.lor_spec. destruct (Z.testbit m j); [apply orb_true_r|apply orb_false_r].
    + exists map'. split; [done|]. split; [done|]. intros n Hn'. rewrite B by done.
      by case_match; rewrite ?orb_true_r, ?orb_false_r.
  - destruct (range_update_ok (fun w mask => w &&& lnot64 mask) false) with map start nr
      as (map' & Hrun & [L _ B]); try done.
    + intros. by apply land_range_l.
    + intros. rewrite Z.land_spec, testbit_lnot64 by done.
      destruct (Z.testbit m j); [apply andb_false_r|apply andb_true_r].
    + exists map'. split; [done|]. split; [done|]. intros n Hn'. rewrite B by done.
      by case_match; rewrite ?andb_true_r, ?andb_false_r.
Qed.

Lemma bitmap_ranges_correct_witness :
  exists map', bitmap_set [0; 0; 0] 60 80 = Ret map' /\ length map' = 3%nat.
Proof.
  destruct (bitmap_ranges_correct [0; 0; 0] 60 80) as [(map' & Hr & Hl & _) _];
    [repeat constructor; lia|lia|lia|unfold has_size; simpl; lia|].
  exists map'. split; [exact Hr|exact Hl].
Defined.

(** C25: the search for an area ends; it returns the lowest aligned start, from
    [start] on, of [nr] zero bits inside the bitmap, or a position behind the
    bitmap when there is no such area. *)
Theorem bitmap_find_next_zero_area_correct map size start nr al :
  words_ok map -> has_size map size -> 0 <= al -> 0 < nr -> 0 <= size -> 0 <= start < 2 ^ 63 ->
  size + nr + 2 ^ al <= 2 ^ 63 ->
  exists r, bitmap_find_next_zero_area map size start nr (2 ^ al - 1) = Ret r /\
    ((zero_area map size start nr al r /\ forall a, zero_area map size start nr al a -> r <= a) \/
     (size < r /\ forall a, ~ zero_area map size start nr al a)).
Proof.
  intros Hok Hs Ha Hn Hsz Hst Hmax. unfold bitmap_find_next_zero_area.
  apply zero_area_loop_ok; try done. lia.
Qed.

Lemma bitmap_find_next_zero_area_correct_witness :
  exists r, bitmap_find_next_zero_area [0xF0F; 0] 128 2 8 (2 ^ 3 - 1) = Ret r /\ r = 16.
Proof.
  destruct (bitmap_find_next_zero_area_correct [0xF0F; 0] 128 2 8 3) as (r & Hr & _);
    [repeat constructor; lia|unfold has_size; simpl; lia|lia|lia|lia|lia|lia|].
  exists r. split; [exact Hr|]. revert Hr. vm_compute. intros [= <-]. reflexivity.
Defined.

(** A predicate in both variants: [b] tells whether a used bit is set. *)
Lemma predicate_ok t nwords small (full : Z -> outcome bool) last nbits :
  (forall k, 0 <= t k < 2 ^ 64) -> 0 < nbits -> nbits <= 64 * nwords ->
  small = has_bits (t 0) (BITMAP_LAST_WORD_MASK nbits) ->
  (forall i, 0 <= i < nwords -> full i = Ret (negb (t i =? 0)) /\ last i = Ret (t i)) ->
  exists b, (if small_nbits nbits then Ret small else any_bits full last nbits) = Ret b /\
    (b = true <-> exists m, 0 <= m < nbits /\ tbit t m = true).
Proof.
  intros Ht Hn Hlen -> Hft. unfold small_nbits, BITS_PER_LONG. destruct (Z.leb_spec nbits 64).
  - eexists. split; [reflexivity|]. apply small_ok. lia.
  - by apply (any_bits_ok t nwords).
Qed.

Lemma longs_bounds nbits :
  0 < nbits -> 0 < BITS_TO_LONGS nbits /\ nbits <= 64 * BITS_TO_LONGS nbits < nbits + 64.
Proof. intros. unfold BITS_TO_LONGS, BITS_PER_LONG. mlia. Qed.

Lemma wget_used m nbits k :
  has_size m nbits -> 0 < nbits -> 0 <= k < BITS_TO_LONGS nbits -> wget m k = Ret (wrd m k).
Proof.
  unfold has_size. intros Hs Hn Hk. pose proof (longs_bounds nbits Hn). apply wget_ok. lia.
Qed.

Section used_bits.
Context (m1 m2 : list Z) (nbits : Z).
Hypothesis ok1 : words_ok m1.
Hypothesis ok2 : words_ok m2.
Hypothesis nbits_pos : 0 < nbits.
Hypothesis size1 : has_size m1 nbits.
Hypothesis size2 : has_size m2 nbits.

Lemma bitmap_empty_ok :
  exists b, bitmap_empty m1 nbits = Ret (b2z b) /\
    (b = true <-> forall n, 0 <= n < nbits -> bit m1 n = false).
Proof.
  destruct (predicate_ok (wrd m1) (BITS_TO_LONGS nbits) _ (nonzero (wget m1)) (wget m1) nbits
    (fun k => wrd_range _ _ ok1) nbits_pos ltac:(apply longs_bounds; done) eq_refl) as (b & Hb & Hb').
  { intros k Hk. unfold nonzero. by rewrite (wget_used m1 nbits). }
  exists (negb b). split.
  - unfold bitmap_empty, slow_bitmap_empty. pose proof (longs_bounds nbits nbits_pos).
    rewrite (wget_used m1 nbits) by (done || lia).
    destruct (small_nbits nbits); [by injection Hb as <-|by rewrite Hb].
  - rewrite negb_true_iff, <- not_true_iff_false, Hb'. split.
    + intros Hno n Hn. destruct (bit m1 n) eqn:E; [|done]. exfalso. apply Hno. by exists n.
    + intros Hall (n & Hn & E). specialize (Hall n Hn). unfold tbit, bit in *. congruence.
Qed.

Lemma bitmap_full_ok :
  exists b, bitmap_full m1 nbits = Ret (b2z b) /\
    (b = true <-> forall n, 0 <= n < nbits -> bit m1 n = true).
Proof.
  pose (t := fun k => w ← wget m1 k; Ret (lnot64 w)).
  destruct (predicate_ok (fun k => lnot64 (wrd m1 k)) (BITS_TO_LONGS nbits) _ (nonzero t) t nbits
    (fun k => lnot64_range _) nbits_pos ltac:(apply longs_bounds; done) eq_refl) as (b & Hb & Hb').
  { intros k Hk. unfold nonzero, t. by rewrite (wget_used m1 nbits). }
  exists (negb b). split.
  - unfold bitmap_full, slow_bitmap_full. pose proof (longs_bounds nbits nbits_pos).
    rewrite (wget_used m1 nbits) by (done || lia). fold t.
    destruct (small_nbits nbits); [by injection Hb as <-|cbv zeta; by rewrite Hb].
  - assert (forall n, 0 <= n -> tbit (fun k => lnot64 (wrd m1 k)) n = negb (bit m1 n)) as Ht.
    { intros n Hn. unfold tbit, bit. rewrite testbit_lnot64 by mlia. done. }
    rewrite negb_true_iff, <- not_true_iff_false, Hb'. split.
    + intros Hno n Hn. destruct (bit m1 n) eqn:E; [done|]. exfalso. apply Hno. exists n.
      rewrite Ht, E by lia. done.
    + intros Hall (n & Hn & E). rewrite Ht, Hall in E by lia. done.
Qed.

Lemma bitmap_equal_ok :
  exists b, bitmap_equal m1 m2 nbits = Ret (b2z b) /\
    (b = true <-> forall n, 0 <= n < nbits -> bit m1 n = bit m2 n).
Proof.
  destruct (predicate_ok (fun k => wrd m1 k ^^^ wrd m2 k) (BITS_TO_LONGS nbits)
    (has_bits (wrd m1 0 ^^^ wrd m2 0) (BITMAP_LAST_WORD_MASK nbits))
    (fun k => w1 ← wget m1 k; w2 ← wget m2 k; Ret (negb (w1 =? w2)))
    (fun k => w1 ← wget m1 k; w2 ← wget m2 k; Ret (w1 ^^^ w2)) nbits) as (b & Hb & Hb');
    [intros; apply lxor_range; [lia|by apply wrd_range|by apply wrd_range]|done
    |by apply longs_bounds|reflexivity|..].
  { intros k Hk. rewrite (wget_used m1 nbits), (wget_used m2 nbits) by done.
    cbn [mbind outcome_bind]. split; [|done].
    do 2 f_equal. destruct (Z.eqb_spec (wrd m1 k) (wrd m2 k)) as [->|Hne].
    - by rewrite Z.lxor_nilpotent.
    - symmetry. apply Z.eqb_neq. intros E. by apply Hne, Z.lxor_eq. }
  exists (negb b). split.
  - unfold bitmap_equal, slow_bitmap_equal. pose proof (longs_bounds nbits nbits_pos).
    rewrite (wget_used m1 nbits 0), (wget_used m2 nbits 0) by (done || lia).
    destruct (small_nbits nbits); [by injection Hb as <-|by rewrite Hb].
  - rewrite negb_true_iff, <- not_true_iff_false, Hb'. split.
    + intros Hno n Hn. destruct (decide (bit m1 n = bit m2 n)) as [|Hne]; [done|]. exfalso.
      apply Hno. exists n. split; [done|]. unfold tbit, bit in *. rewrite Z.lxor_spec.
      by destruct (Z.testbit (wrd m1 _) _), (Z.testbit (wrd m2 _) _).
    + intros Hall (n & Hn & E). specialize (Hall n Hn). unfold tbit, bit in *.
      rewrite Z.lxor_spec, Hall, xorb_nilpotent in E. done.
Qed.

Lemma bitmap_intersects_ok :
  exists b, bitmap_intersects m1 m2 nbits = Ret (b2z b) /\
    (b = true <-> exists n, 0 <= n < nbits /\ bit m1 n = true /\ bit m2 n = true).
Proof.
  pose (t := fun k => w1 ← wget m1 k; w2 ← wget m2 k; Ret (w1 &&& w2)).
  destruct (predicate_ok (fun k => wrd m1 k &&& wrd m2 k) (BITS_TO_LONGS nbits)
    (has_bits (wrd m1 0 &&& wrd m2 0) (BITMAP_LAST_WORD_MASK nbits)) (nonzero t) t nbits) as (b & Hb & Hb'); [intros; apply land_range_l; [lia|by apply wrd_range]|done
    |by apply longs_bounds|reflexivity|..].
  { intros k Hk. unfold nonzero, t. by rewrite (wget_used m1 nbits), (wget_used m2 nbits). }
  exists b. split.
  - unfold bitmap_intersects, slow_bitmap_intersects. pose proof (longs_bounds nbits nbits_pos).
    rewrite (wget_used m1 nbits 0), (wget_used m2 nbits 0) by (done || lia). fold t.
    destruct (small_nbits nbits); [by injection Hb as <-|cbv zeta; by rewrite Hb].
  - rewrite Hb'. unfold tbit, bit. setoid_rewrite Z.land_spec.
    split; intros (n & Hn & E); exists n; (split; [done|]); by apply andb_true_iff.
Qed.
End used_bits.

(** The predicates on bitmaps look at the used bits only, whatever the rest
    of the last word holds: [bitmap_empty], [bitmap_full], [bitmap_equal] and
    [bitmap_intersects] return 1 exactly when no used bit is set, all are, the
    used bits agree, or some used bit is set in both. *)
Lemma bitmap_predicates_correct m1 m2 nbits :
  words_ok m1 -> words_ok m2 -> 0 < nbits -> has_size m1 nbits -> has_size m2 nbits ->
  (exists b, bitmap_empty m1 nbits = Ret (b2z b) /\
     (b = true <-> forall n, 0 <= n < nbits -> bit m1 n = false)) /\
  (exists b, bitmap_full m1 nbits = Ret (b2z b) /\
     (b = true <-> forall n, 0 <= n < nbits -> bit m1 n = true)) /\
  (exists b, bitmap_equal m1 m2 nbits = Ret (b2z b) /\
     (b = true <-> forall n, 0 <= n < nbits -> bit m1 n = bit m2 n)) /\
  (exists b, bitmap_intersects m1 m2 nbits = Ret (b2z b) /\
     (b = true <-> exists n, 0 <= n < nbits /\ bit m1 n = true /\ bit m2 n = true)).
Proof.
  intros Hok1 Hok2 Hn Hs1 Hs2. split; [by apply bitmap_empty_ok|].
  split; [by apply bitmap_full_ok|]. split; [by apply bitmap_equal_ok|].
  by apply bitmap_intersects_ok.
Qed.

Lemma bitmap_predicates_correct_witness :
  exists b, bitmap_equal [5; 0xF1] [5; 0xE1] 68 = Ret (b2z b) /\
    (b = true <-> forall n, 0 <= n < 68 -> bit [5; 0xF1] n = bit [5; 0xE1] n).
Proof.
  apply (bitmap_predicates_correct [5; 0xF1] [5; 0xE1] 68);
    [repeat constructor; lia|repeat constructor; lia|lia|unfold has_size; simpl; lia..].
Defined.

Lemma nonzero_result f m1 m2 nbits res :
  (res = 0 <-> forall i, 0 <= i < BITS_TO_LONGS nbits -> f (wrd m1 i) (wrd m2 i) = 0) ->
  (forall i, 0 <= f (wrd m1 i) (wrd m2 i) < 2 ^ 64) ->
  negb (res =? 0) = true <->
  exists n, 0 <= n < 64 * BITS_TO_LONGS nbits /\
    Z.testbit (f (wrd m1 (n / 64)) (wrd m2 (n / 64))) (n mod 64) = true.
Proof.
  intros Hres Hr. rewrite negb_true_iff, Z.eqb_neq, Hres. split.
  - intros Hno.
    destruct (decide (Forall (fun i => f (wrd m1 i) (wrd m2 i) = 0) (seqZ 0 (BITS_TO_LONGS nbits))))
      as [Hall|Hex].
    + exfalso. apply Hno. intros i Hi. rewrite Forall_forall in Hall. apply Hall, elem_of_seqZ. lia.
    + apply not_Forall_Exists in Hex; [|apply _]. apply Exists_exists in Hex as (i & Hi & Hne).
      apply elem_of_seqZ in Hi. specialize (Hr i).
      destruct (ctzl_spec (f (wrd m1 i) (wrd m2 i))) as (H1 & H2 & _); [simpl in Hne; lia|].
      set (j := ctzl _) in *. exists (64 * i + j). split; [lia|].
      replace ((64 * i + j) / 64) with i by mlia. by replace ((64 * i + j) mod 64) with j by mlia.
  - intros (n & Hn & Hb) Hall. rewrite Hall, Z.testbit_0_l in Hb by mlia. done.
Qed.

(** [bitmap_and] and [bitmap_andnot] write the bitwise results to every
    word of the bitmap; what they return tells whether any bit of those words
    is set, the unused bits of the last word included. *)
Lemma bitmap_and_result dst m1 m2 nbits :
  words_ok m1 -> words_ok m2 -> 0 < nbits ->
  has_size dst nbits -> has_size m1 nbits -> has_size m2 nbits ->
  (exists dst' b, bitmap_and dst m1 m2 nbits = Ret (dst', b2z b) /\
     (forall n, 0 <= n < 64 * BITS_TO_LONGS nbits -> bit dst' n = bit m1 n && bit m2 n) /\
     (b = true <-> exists n, 0 <= n < 64 * BITS_TO_LONGS nbits /\ bit m1 n && bit m2 n = true)) /\
  (exists dst' b, bitmap_andnot dst m1 m2 nbits = Ret (dst', b2z b) /\
     (forall n, 0 <= n < 64 * BITS_TO_LONGS nbits -> bit dst' n = bit m1 n && negb (bit m2 n)) /\
     (b = true <->
      exists n, 0 <= n < 64 * BITS_TO_LONGS nbits /\ bit m1 n && negb (bit m2 n) = true)).
Proof.
  intros Hok1 Hok2 Hn Hd Hs1 Hs2. split.
  - destruct (word_op_ok Z.land dst m1 m2 nbits) as (dst' & res & Hrun & _ & Hw & Hres); [done..|].
    exists dst', (negb (res =? 0)). split; [|split].
    + unfold bitmap_and, slow_bitmap_and. rewrite (wget_used m1 nbits), (wget_used m2 nbits) in *
        by (done || pose proof (longs_bounds nbits Hn); lia). cbn [mbind outcome_bind] in *.
      destruct (small_nbits nbits); [|by rewrite Hrun].
      apply bind_Ret in Hrun as (d & -> & [= <- <-]). done.
    + intros n Hn'. unfold bit. rewrite Hw. destruct (Z.leb_spec 0 (n / 64)), (Z.ltb_spec (n / 64)
        (BITS_TO_LONGS nbits)); try mlia. simpl. apply Z.land_spec.
    + rewrite (nonzero_result Z.land m1 m2 nbits res Hres)
        by (intros; apply land_range_l; [lia|by apply wrd_range]).
      unfold bit. by setoid_rewrite Z.land_spec.
  - destruct (word_op_ok (fun x y => x &&& lnot64 y) dst m1 m2 nbits)
      as (dst' & res & Hrun & _ & Hw & Hres); [done..|].
    assert (forall n, Z.testbit (wrd m1 (n / 64) &&& lnot64 (wrd m2 (n / 64))) (n mod 64) =
              bit m1 n && negb (bit m2 n)) as Hbit.
    { intros n. unfold bit. rewrite Z.land_spec, testbit_lnot64 by mlia. done. }
    exists dst', (negb (res =? 0)). split; [|split].
    + unfold bitmap_andnot, slow_bitmap_andnot. rewrite (wget_used m1 nbits), (wget_used m2 nbits) in *
        by (done || pose proof (longs_bounds nbits Hn); lia). cbn [mbind outcome_bind] in *.
      destruct (small_nbits nbits); [|by rewrite Hrun].
      apply bind_Ret in Hrun as (d & -> & [= <- <-]). done.
    + intros n Hn'. unfold bit at 1. rewrite Hw. destruct (Z.leb_spec 0 (n / 64)),
        (Z.ltb_spec (n / 64) (BITS_TO_LONGS nbits)); try mlia. simpl. apply Hbit.
    + rewrite (nonzero_result (fun x y => x &&& lnot64 y) m1 m2 nbits res Hres)
        by (intros; apply land_range_l; [lia|by apply wrd_range]).
      by setoid_rewrite Hbit.
Qed.

Lemma bitmap_and_result_witness :
  (exists dst' b, bitmap_and [0] [0x11] [0x10] 4 = Ret (dst', b2z b) /\ b = true) /\
  bitmap_intersects [0x11] [0x10] 4 = Ret 0.
Proof.
  split; [|vm_compute; reflexivity].
  destruct (bitmap_and_result [0] [0x11] [0x10] 4) as [(dst' & b & Hr & _ & Hb) _];
    [repeat constructor; lia|repeat constructor; lia|lia|unfold has_size; simpl; lia..|].
  exists dst', b. split; [exact Hr|]. apply Hb. exists 4. split; [vm_compute; intuition congruence|].
  vm_compute. reflexivity.
Defined.
