(* ===== verification/Xbzrle.v ===== *)
(** * Page deltas of the migration stream

    Model of [src/migration/xbzrle.c] and of the two integer codecs it uses
    from [src/util/cutils.c].  A page is encoded as alternating runs: the
    length of a run of bytes that did not change, the length of a run of bytes
    that did, and those bytes.  The encoder compares words of eight bytes
    where it can, and finds the end of a run inside a word by a subtraction
    trick.  Shown here: both are equivalent to comparing bytes; the encoder
    never writes behind the [dlen] bytes of its buffer and gives up exactly
    where these are too few; and decoding what it wrote turns the old page into
    the new one.

    The bytes written to [dst] are the list [out], its length the index [d];
    positions are naturals, the return value an integer.  The loops have the
    page length as fuel. *)

From S2P Require Import Prelude HostUtils.

(** [buf[i]] *)
Definition get (buf : list Z) (i : nat) : outcome Z :=
  match buf !! i with Some b => Ret b | None => Fault OutOfBounds end.

(** The word at [buf + i]; hosts are little-endian. *)
Definition get_long (buf : list Z) (i : nat) : outcome Z :=
  if (i + 8 <=? length buf)%nat then Ret (le_combine (take 8 (drop i buf)))
  else Fault OutOfBounds.

(** ** cutils.c: ULEB128 for 14 bits *)

(** The result is what is written, its length what is returned. *)
Definition uleb128_encode_small (n : Z) : outcome (list Z) :=
  if negb (n <=? 0x3fff) then Fault AssertFailed
  else if n <? 0x80 then Ret [u8 n]
  else Ret [u8 ((n &&& 0x7f) ||| 0x80); u8 (n >> 7)].

(** The result is the return value and [*n]. *)
Definition uleb128_decode_small (src : list Z) (i : nat) : outcome (Z * Z) :=
  b ← get src i;
  if negb (has_bits b 0x80) then Ret (1, b)
  else
    let n := b &&& 0x7f in
    b ← get src (S i);
    if has_bits b 0x80 then Ret (-1, n)
    else Ret (2, n ||| u32 (b << 7)).

(** ** The encoder *)

(** [while (res && old_buf[i] == new_buf[i])]; the result is [res], [i] and the
    length of the run. *)
Fixpoint zrun_res (res : nat) (old new : list Z) (i zrun : nat) : outcome (nat * nat * nat) :=
  match res with
  | O => Ret (O, i, zrun)
  | S r =>
      a ← get old i;
      b ← get new i;
      if a =? b then zrun_res r old new (S i) (S zrun) else Ret (res, i, zrun)
  end.

Fixpoint zrun_words (fuel : nat) (old new : list Z) (slen i zrun : nat) : outcome (nat * nat) :=
  if (i <? slen)%nat then
    match fuel with
    | O => NoFuel
    | S fuel =>
        a ← get_long old i;
        b ← get_long new i;
        if a =? b then zrun_words fuel old new slen (i + 8) (zrun + 8) else Ret (i, zrun)
    end
  else Ret (i, zrun).

Fixpoint zrun_bytes (fuel : nat) (old new : list Z) (slen i zrun : nat) : outcome (nat * nat) :=
  if (i <? slen)%nat then
    match fuel with
    | O => NoFuel
    | S fuel =>
        a ← get old i;
        b ← get new i;
        if a =? b then zrun_bytes fuel old new slen (S i) (S zrun) else Ret (i, zrun)
    end
  else Ret (i, zrun).

(** The run of unchanged bytes from [i] on. *)
Definition zrun_scan (old new : list Z) (slen i : nat) : outcome (nat * nat) :=
  '(res, i, zrun) ← zrun_res ((slen - i) mod 8) old new i 0;
  if (res =? 0)%nat then
    '(i, zrun) ← zrun_words slen old new slen i zrun;
    zrun_bytes slen old new slen i zrun
  else Ret (i, zrun).

Fixpoint nzrun_res (res : nat) (old new : list Z) (i nzrun : nat) : outcome (nat * nat * nat) :=
  match res with
  | O => Ret (O, i, nzrun)
  | S r =>
      a ← get old i;
      b ← get new i;
      if negb (a =? b) then nzrun_res r old new (S i) (S nzrun) else Ret (res, i, nzrun)
  end.

(** [while (old_buf[i] != new_buf[i])] *)
Fixpoint nzrun_inner (fuel : nat) (old new : list Z) (i nzrun : nat) : outcome (nat * nat) :=
  match fuel with
  | O => NoFuel
  | S fuel =>
      a ← get old i;
      b ← get new i;
      if negb (a =? b) then nzrun_inner fuel old new (S i) (S nzrun) else Ret (i, nzrun)
  end.

Definition byte_mask : Z := 0x0101010101010101.

(** [(xor - mask) & ~xor & (mask << 7)] *)
Definition zero_byte_test (xor : Z) : bool :=
  negb ((u64 (xor - byte_mask) &&& u64 (Z.lnot xor) &&& u64 (byte_mask << 7)) =? 0).

Fixpoint nzrun_words (fuel : nat) (old new : list Z) (slen i nzrun : nat) : outcome (nat * nat) :=
  if (i <? slen)%nat then
    match fuel with
    | O => NoFuel
    | S fuel =>
        a ← get_long old i;
        b ← get_long new i;
        if zero_byte_test (a ^^^ b) then nzrun_inner 8 old new i nzrun
        else nzrun_words fuel old new slen (i + 8) (nzrun + 8)
    end
  else Ret (i, nzrun).

Definition nzrun_scan (old new : list Z) (slen i : nat) : outcome (nat * nat) :=
  '(res, i, nzrun) ← nzrun_res ((slen - i) mod 8) old new i 0;
  if (res =? 0)%nat then nzrun_words slen old new slen i nzrun else Ret (i, nzrun).

(** A write of [bytes] at [dst + d]. *)
Definition dst_write (dlen : nat) (out bytes : list Z) : outcome (list Z) :=
  if (length out + length bytes <=? dlen)%nat then Ret (out ++ bytes) else Fault OutOfBounds.

Fixpoint encode_loop (fuel : nat) (old new : list Z) (slen dlen i : nat) (out : list Z) :
    outcome (Z * list Z) :=
  if (i <? slen)%nat then
    match fuel with
    | O => NoFuel
    | S fuel =>
        if (dlen <? length out + 2)%nat then Ret (-1, out)
        else
          '(i, zrun) ← zrun_scan old new slen i;
          if (zrun =? slen)%nat then Ret (0, out)
          else if (i =? slen)%nat then Ret (Z.of_nat (length out), out)
          else
            u ← uleb128_encode_small (Z.of_nat zrun);
            out ← dst_write dlen out u;
            let nzrun_start := i in
            if (dlen <? length out + 2)%nat then Ret (-1, out)
            else
              '(i, nzrun) ← nzrun_scan old new slen i;
              u ← uleb128_encode_small (Z.of_nat nzrun);
              out ← dst_write dlen out u;
              if (dlen <? length out + nzrun)%nat then Ret (-1, out)
              else
                out ← dst_write dlen out (take nzrun (drop nzrun_start new));
                encode_loop fuel old new slen dlen i out
    end
  else Ret (Z.of_nat (length out), out).

(** The buffers are aligned; [slen] has to be a multiple of the word size. *)
Definition xbzrle_encode_buffer (old_buf new_buf : list Z) (slen dlen : nat) :
    outcome (Z * list Z) :=
  if negb (slen mod 8 =? 0)%nat then Fault AssertFailed
  else encode_loop slen old_buf new_buf slen dlen 0 [].

(** ** The decoder *)

(** [memcpy(dst + d, src + i, count)] *)
Definition copy (dst : list Z) (d : nat) (src : list Z) (i count : nat) : outcome (list Z) :=
  if (d + count <=? length dst)%nat && (i + count <=? length src)%nat then
    Ret (take d dst ++ take count (drop i src) ++ drop (d + count) dst)
  else Fault OutOfBounds.

Fixpoint decode_loop (fuel : nat) (src : list Z) (slen : nat) (dst : list Z) (dlen i d : nat) :
    outcome (Z * list Z) :=
  if (i <? slen)%nat then
    match fuel with
    | O => NoFuel
    | S fuel =>
        if (slen - i <? 2)%nat then Ret (-1, dst)
        else
          '(ret, count) ← uleb128_decode_small src i;
          if (ret <? 0) || (negb (i =? 0)%nat && (count =? 0)) then Ret (-1, dst)
          else
            let i := (i + Z.to_nat ret)%nat in
            let d := (d + Z.to_nat count)%nat in
            if (dlen <? d)%nat then Ret (-1, dst)
            else if (slen - i <? 2)%nat then Ret (-1, dst)
            else
              '(ret, count) ← uleb128_decode_small src i;
              if (ret <? 0) || (count =? 0) then Ret (-1, dst)
              else
                let i := (i + Z.to_nat ret)%nat in
                let count := Z.to_nat count in
                if (dlen <? d + count)%nat || (slen <? i + count)%nat then Ret (-1, dst)
                else
                  dst ← copy dst d src i count;
                  decode_loop fuel src slen dst dlen (i + count) (d + count)
    end
  else Ret (Z.of_nat d, dst).

Definition xbzrle_decode_buffer (src : list Z) (slen : nat) (dst : list Z) (dlen : nat) :
    outcome (Z * list Z) :=
  decode_loop slen src slen dst dlen 0 0.

(** ** Integer codec *)

Lemma get_middle pre a post : get (pre ++ a :: post) (length pre) = Ret a.
Proof. unfold get. by rewrite list_lookup_middle. Qed.

Lemma get_middle_S pre a b post : get (pre ++ a :: b :: post) (S (length pre)) = Ret b.
Proof.
  unfold get. rewrite (cons_middle a), (assoc_L (++)), list_lookup_middle; [done|].
  rewrite length_app. simpl. lia.
Qed.

Lemma uleb128_roundtrip n pre post :
  0 <= n <= 0x3fff ->
  exists u, uleb128_encode_small n = Ret u /\ (1 <= length u <= 2)%nat /\ Forall is_byte u /\
    uleb128_decode_small (pre ++ u ++ post) (length pre) = Ret (Z.of_nat (length u), n).
Proof.
  intros Hn. unfold uleb128_encode_small, uleb128_decode_small.
  destruct (Z.leb_spec n 0x3fff); [|lia]. cbn [negb].
  destruct (Z.ltb_spec n 0x80) as [Hs|Hs].
  - exists [u8 n]. rewrite (wrap_small 8) by lia. split; [done|]. split; [simpl; lia|].
    split; [repeat constructor; lia|]. cbn [app length]. rewrite get_middle.
    cbn [mbind outcome_bind].
    change 0x80 with (2 ^ 7). rewrite has_bits_pow2 by lia.
    rewrite (testbit_high 7) by lia. done.
  - exists [u8 ((n &&& 0x7f) ||| 0x80); u8 (n >> 7)]. split; [done|]. split; [simpl; lia|].
    split; [repeat constructor; apply wrap_range; lia|].
    cbn [app length]. rewrite get_middle. cbn [mbind outcome_bind].
    rewrite get_middle_S. cbn [mbind outcome_bind].
    assert (0 <= n >> 7 < 2 ^ 7) by (rewrite Z.shiftr_div_pow2 by lia; mlia).
    change 0x80 with (2 ^ 7). rewrite !has_bits_pow2 by lia.
    rewrite (wrap_small 8 (n >> 7)) by lia. rewrite (testbit_high 7 (n >> 7)) by lia.
    rewrite testbit_wrap, Z.lor_spec, testbit_pow2, orb_true_r by lia. simpl. do 2 f_equal.
    change 0x7f with (Z.ones 7). bits_ext i Hi.
    repeat (zcase; simpl; try lia); rewrite ?andb_true_r, ?orb_false_r, ?andb_false_r; try done.
    1-2: replace (i - 7 + 7) with i by lia; done.
    rewrite (testbit_high 14 n); [done|lia|lia].
Qed.

(** ** Runs *)

(** Equality of results component by component. *)
Ltac ret_lia :=
  repeat match goal with
  | |- Ret _ = Ret _ => f_equal
  | |- (_, _) = (_, _) => f_equal
  end; lia.

(** The length of the longest common prefix whose pairs satisfy [p]. *)
Fixpoint runlen (p : Z -> Z -> bool) (l1 l2 : list Z) : nat :=
  match l1, l2 with
  | a :: l1, b :: l2 => if p a b then S (runlen p l1 l2) else O
  | _, _ => O
  end.

Definition neqb (a b : Z) : bool := negb (a =? b).

Section runs.
Context (old new : list Z).
Let slen := length old.
Hypothesis same_length : length new = length old.

Definition run (p : Z -> Z -> bool) (i : nat) : nat := runlen p (drop i old) (drop i new).

Lemma byte_at i : (i < slen)%nat ->
  exists a b, old !! i = Some a /\ new !! i = Some b /\
    (forall p, run p i = if p a b then S (run p (S i)) else O).
Proof using same_length.
  intros Hi. destruct (lookup_lt_is_Some_2 old i Hi) as [a Ha].
  destruct (lookup_lt_is_Some_2 new i) as [b Hb]; [lia|].
  exists a, b. split_and!; [done|done|]. intros p. unfold run.
  rewrite (drop_S old a i), (drop_S new b i) by done. done.
Qed.

Lemma run_end p i : (slen <= i)%nat -> run p i = O.
Proof. intros Hi. unfold run. rewrite drop_ge by done. done. Qed.

Lemma run_bound p i : (i + run p i <= slen)%nat \/ (slen <= i)%nat.
Proof using same_length.
  destruct (decide (slen <= i)%nat) as [|Hlt]; [by right|]. left.
  remember (slen - i)%nat as n eqn:E. revert i E Hlt.
  induction n as [|n IH]; intros i E Hi; [lia|].
  destruct (byte_at i ltac:(lia)) as (a & b & _ & _ & Hr). rewrite Hr. destruct (p a b); [|lia].
  destruct (decide (slen <= S i)%nat); [rewrite run_end; lia|].
  specialize (IH (S i) ltac:(lia) ltac:(lia)). lia.
Qed.

Lemma run_add p k i : (k <= run p i)%nat -> run p i = (k + run p (i + k))%nat.
Proof using same_length.
  revert i; induction k as [|k IH]; intros i Hk; [by rewrite Nat.add_0_r|].
  destruct (decide (slen <= i)%nat); [rewrite run_end in Hk by done; lia|].
  destruct (byte_at i ltac:(lia)) as (a & b & _ & _ & Hr). rewrite Hr in *.
  destruct (p a b); [|lia]. rewrite (IH (S i)) by lia.
  replace (i + S k)%nat with (S i + k)%nat by lia. lia.
Qed.

(** The loop over the bytes before the first aligned word, for both runs. *)
Lemma zrun_res_ok res : forall i z, (i + res <= slen)%nat ->
  zrun_res res old new i z =
    if (res <=? run Z.eqb i)%nat then Ret (O, i + res, z + res)%nat
    else Ret (res - run Z.eqb i, i + run Z.eqb i, z + run Z.eqb i)%nat.
Proof using same_length.
  induction res as [|r IH]; intros i z Hi; [simpl; by rewrite !Nat.add_0_r|].
  destruct (byte_at i ltac:(lia)) as (a & b & Ha & Hb & Hr). cbn [zrun_res].
  unfold get. rewrite Ha, Hb, Hr. cbn [mbind outcome_bind]. destruct (a =? b).
  - rewrite IH by lia. destruct (Nat.leb_spec r (run Z.eqb (S i))), (Nat.leb_spec (S r)
      (S (run Z.eqb (S i)))); try lia; ret_lia.
  - simpl. by rewrite !Nat.add_0_r.
Qed.

Lemma nzrun_res_ok res : forall i z, (i + res <= slen)%nat ->
  nzrun_res res old new i z =
    if (res <=? run neqb i)%nat then Ret (O, i + res, z + res)%nat
    else Ret (res - run neqb i, i + run neqb i, z + run neqb i)%nat.
Proof using same_length.
  induction res as [|r IH]; intros i z Hi; [simpl; by rewrite !Nat.add_0_r|].
  destruct (byte_at i ltac:(lia)) as (a & b & Ha & Hb & Hr). cbn [nzrun_res].
  unfold get. rewrite Ha, Hb, Hr. cbn [mbind outcome_bind].
  change (neqb a b) with (negb (a =? b)). destruct (negb (a =? b)).
  - rewrite IH by lia. destruct (Nat.leb_spec r (run neqb (S i))), (Nat.leb_spec (S r)
      (S (run neqb (S i)))); try lia; ret_lia.
  - simpl. by rewrite !Nat.add_0_r.
Qed.

Lemma zrun_bytes_ok fuel : forall i z, (slen <= i + fuel)%nat ->
  zrun_bytes fuel old new slen i z = Ret (i + run Z.eqb i, z + run Z.eqb i)%nat.
Proof using same_length.
  induction fuel as [|fuel IH]; intros i z Hf; cbn [zrun_bytes];
    (destruct (Nat.ltb_spec i slen);
      [|rewrite run_end, !Nat.add_0_r by lia; done]); [lia|].
  destruct (byte_at i ltac:(lia)) as (a & b & Ha & Hb & Hr).
  unfold get. rewrite Ha, Hb, Hr. cbn [mbind outcome_bind]. destruct (a =? b).
  - rewrite IH by lia. ret_lia.
  - by rewrite !Nat.add_0_r.
Qed.

Lemma nzrun_inner_ok fuel : forall i z,
  (run neqb i < fuel)%nat -> (i + run neqb i < slen)%nat ->
  nzrun_inner fuel old new i z = Ret (i + run neqb i, z + run neqb i)%nat.
Proof using same_length.
  induction fuel as [|fuel IH]; intros i z Hf Hi; [lia|]. cbn [nzrun_inner].
  destruct (byte_at i ltac:(lia)) as (a & b & Ha & Hb & Hr).
  unfold get. rewrite Ha, Hb. cbn [mbind outcome_bind].
  rewrite Hr in *. change (neqb a b) with (negb (a =? b)) in *. destruct (negb (a =? b)).
  - rewrite IH by lia. ret_lia.
  - by rewrite !Nat.add_0_r.
Qed.
End runs.

(** ** Words *)

Lemma lxor_split w a b c d :
  0 <= w -> 0 <= a < 2 ^ w -> 0 <= c < 2 ^ w ->
  (a + 2 ^ w * b) ^^^ (c + 2 ^ w * d) = (a ^^^ c) + 2 ^ w * (b ^^^ d).
Proof.
  intros Hw Ha Hc. pose proof (lxor_range w a c Hw Ha Hc). apply Z.bits_inj'. intros i Hi.
  rewrite Z.lxor_spec, !testbit_split, !Z.lxor_spec by done. by zcase.
Qed.

(** The mask with [n] bytes, and the test without the reduction to a word. *)
Fixpoint bmask (n : nat) : Z :=
  match n with
  | O => 0
  | S n => 1 + 256 * bmask n
  end.

Definition swar (n : nat) (x : Z) : Z := (x - bmask n) &&& Z.lnot x &&& (bmask n << 7).

(** The test, byte by byte: a borrow only comes from a zero byte. *)
Lemma swar_S n b y : 0 <= b < 256 -> swar (S n) (b + 256 * y) = 0 <-> b <> 0 /\ swar n y = 0.
Proof.
  intros Hb. unfold swar. cbn [bmask]. set (m := bmask n).
  rewrite (Z.shiftl_mul_pow2 (1 + 256 * m)), (Z.shiftl_mul_pow2 m) by lia.
  replace (Z.lnot (b + 256 * y)) with ((255 - b) + 2 ^ 8 * Z.lnot y) by (unfold Z.lnot; lia).
  replace ((1 + 256 * m) * 2 ^ 7) with (128 + 2 ^ 8 * (m * 2 ^ 7)) by lia.
  destruct (decide (b = 0)) as [->|Hnz].
  - replace (0 + 256 * y - (1 + 256 * m)) with (255 + 2 ^ 8 * (y - m - 1)) by lia.
    rewrite !land_split by (lia || apply (land_range_l 8); lia).
    change (255 &&& (255 - 0) &&& 128) with 128. split; [lia|tauto].
  - replace (b + 256 * y - (1 + 256 * m)) with ((b - 1) + 2 ^ 8 * (y - m)) by lia.
    rewrite !land_split by (lia || apply (land_range_l 8); lia).
    assert ((b - 1) &&& (255 - b) &&& 128 = 0) as ->; [|lia].
    change 128 with (2 ^ 7). bits_ext i Hi. zcase; [subst|by rewrite andb_false_r].
    destruct (decide (b <= 128)).
    + rewrite (testbit_high 7 (b - 1)) by lia. done.
    + rewrite (testbit_high 7 (255 - b)) by lia. by rewrite andb_false_r.
Qed.

Lemma zero_byte_swar x : zero_byte_test x = negb (swar 8 x =? 0).
Proof.
  unfold zero_byte_test, swar. do 2 f_equal. change (bmask 8) with byte_mask.
  rewrite (wrap_small 64 (byte_mask << 7)) by (vm_compute; done).
  apply Z.bits_inj'. intros i Hi. rewrite !Z.land_spec, !testbit_wrap by lia.
  destruct (Z.ltb_spec i 64); [done|]. simpl.
  rewrite (testbit_high 64 (byte_mask << 7)) by (vm_compute; done || lia). by rewrite andb_false_r.
Qed.

(** A word has an equal byte exactly when the run of different bytes ends in it. *)
Lemma swar_run w1 : forall w2,
  length w2 = length w1 -> Forall is_byte w1 -> Forall is_byte w2 ->
  swar (length w1) (le_combine w1 ^^^ le_combine w2) = 0 <-> runlen neqb w1 w2 = length w1.
Proof.
  induction w1 as [|a w1 IH]; intros [|b w2] Hl H1 H2; simpl in Hl; try lia; [done|].
  apply Forall_cons in H1 as [Ha H1]. apply Forall_cons in H2 as [Hb H2]. unfold is_byte in *.
  cbn [le_combine length runlen]. change 256 with (2 ^ 8).
  rewrite lxor_split by lia. change (2 ^ 8) with 256.
  rewrite swar_S by (apply (lxor_range 8); lia). rewrite IH by (done || lia).
  unfold neqb. destruct (Z.eqb_spec a b) as [->|Hne]; cbn [negb].
  - rewrite Z.lxor_nilpotent. split; [tauto|lia].
  - split; [intros [_ ->]; done|]. intros [= ->]. split; [|done]. by intros ?%Z.lxor_eq.
Qed.

Lemma runlen_take p k : forall l1 l2,
  (k <= length l1)%nat -> (k <= length l2)%nat ->
  runlen p (take k l1) (take k l2) = Nat.min k (runlen p l1 l2).
Proof.
  induction k as [|k IH]; intros l1 l2 H1 H2; [done|].
  destruct l1 as [|a l1], l2 as [|b l2]; simpl in *; try lia.
  destruct (p a b); [|done]. rewrite IH by lia. done.
Qed.

Lemma runlen_eq l1 : forall l2,
  length l2 = length l1 -> runlen Z.eqb l1 l2 = length l1 <-> l1 = l2.
Proof.
  induction l1 as [|a l1 IH]; intros [|b l2] Hl; simpl in *; try lia; [done|].
  destruct (Z.eqb_spec a b) as [->|Hne].
  - split; [intros [= E]; f_equal; apply IH; lia|intros [= ->]; f_equal; by apply IH].
  - split; [lia|]. intros [= -> _]. done.
Qed.

Lemma le_combine_inj l1 l2 :
  Forall is_byte l1 -> Forall is_byte l2 -> length l2 = length l1 ->
  le_combine l1 = le_combine l2 <-> l1 = l2.
Proof.
  intros H1 H2 Hl. split; [|by intros ->]. intros E.
  rewrite <- (le_split_combine l1), <- (le_split_combine l2) by done. by rewrite E, Hl.
Qed.

Section words.
Context (old new : list Z).
Let slen := length old.
Hypothesis same_length : length new = length old.
Hypothesis old_bytes : Forall is_byte old.
Hypothesis new_bytes : Forall is_byte new.

Abbreviation run := (run old new).

Lemma word_at i : (i + 8 <= slen)%nat ->
  exists a b, get_long old i = Ret a /\ get_long new i = Ret b /\
    ((a =? b) = true <-> (8 <= run Z.eqb i)%nat) /\
    (zero_byte_test (a ^^^ b) = true <-> (run neqb i < 8)%nat).
Proof using same_length old_bytes new_bytes.
  intros Hi. unfold get_long. rewrite same_length.
  rewrite (proj2 (Nat.leb_le (i + 8) (length old))) by done.
  eexists _, _. split; [reflexivity|]. split; [reflexivity|].
  set (w1 := take 8 (drop i old)). set (w2 := take 8 (drop i new)).
  assert (length w1 = 8%nat) as L1 by (subst w1; rewrite length_take, length_drop; lia).
  assert (length w2 = 8%nat) as L2 by (subst w2; rewrite length_take, length_drop; lia).
  assert (Forall is_byte w1) as B1 by by apply Forall_take, Forall_drop.
  assert (Forall is_byte w2) as B2 by by apply Forall_take, Forall_drop.
  assert (forall p, runlen p w1 w2 = Nat.min 8 (run p i)) as Hr.
  { intros p. apply runlen_take; rewrite length_drop; lia. }
  split.
  - rewrite Z.eqb_eq, le_combine_inj, <- runlen_eq, Hr, L1 by (done || congruence). lia.
  - rewrite zero_byte_swar, negb_true_iff, Z.eqb_neq. rewrite <- L1 at 1.
    rewrite swar_run, Hr, L1 by (done || congruence). lia.
Qed.

Lemma zrun_words_ok fuel : forall i z,
  (slen <= i + 8 * fuel)%nat -> ((slen - i) mod 8 = 0)%nat ->
  exists k, zrun_words fuel old new slen i z = Ret (i + k, z + k)%nat /\ (k <= run Z.eqb i)%nat.
Proof using same_length old_bytes new_bytes.
  induction fuel as [|fuel IH]; intros i z Hf Hm; cbn [zrun_words];
    (destruct (Nat.ltb_spec i slen);
      [|exists O; rewrite !Nat.add_0_r; split; [done|lia]]); [lia|].
  assert (i + 8 <= slen)%nat by (apply Nat.Div0.mod_divides in Hm as [q Hq]; lia).
  destruct (word_at i) as (a & b & -> & -> & He & _); [done|]. cbn [mbind outcome_bind].
  destruct (a =? b).
  - destruct (IH (i + 8) (z + 8))%nat as (k & -> & Hk); [lia| |].
    { apply Nat.Div0.mod_divides in Hm as [q Hq]. apply Nat.Div0.mod_divides.
      exists (q - 1)%nat. lia. }
    exists (8 + k)%nat. split; [ret_lia|]. pose proof (proj1 He eq_refl).
    rewrite (run_add old new same_length Z.eqb 8 i) by done. lia.
  - exists O. rewrite !Nat.add_0_r. split; [done|lia].
Qed.

Lemma nzrun_words_ok fuel : forall i z,
  (slen <= i + 8 * fuel)%nat -> ((slen - i) mod 8 = 0)%nat -> (i <= slen)%nat ->
  nzrun_words fuel old new slen i z = Ret (i + run neqb i, z + run neqb i)%nat.
Proof using same_length old_bytes new_bytes.
  induction fuel as [|fuel IH]; intros i z Hf Hm Hi; cbn [nzrun_words];
    (destruct (Nat.ltb_spec i slen);
      [|rewrite (run_end old new), !Nat.add_0_r by (subst slen; lia); done]); [lia|].
  assert (i + 8 <= slen)%nat by (apply Nat.Div0.mod_divides in Hm as [q Hq]; lia).
  destruct (word_at i) as (a & b & -> & -> & _ & Hz); [done|]. cbn [mbind outcome_bind].
  destruct (zero_byte_test (a ^^^ b)).
  - pose proof (proj1 Hz eq_refl). apply nzrun_inner_ok; [done|lia|]. subst slen. lia.
  - assert (8 <= run neqb i)%nat.
    { destruct (decide (8 <= run neqb i)%nat); [done|]. assert (false = true); [|done].
      apply Hz. lia. }
    rewrite IH; [|lia| |lia].
    + rewrite (run_add old new same_length neqb 8 i) by done. ret_lia.
    + apply Nat.Div0.mod_divides in Hm as [q Hq]. apply Nat.Div0.mod_divides.
      exists (q - 1)%nat. lia.
Qed.

Lemma aligned_rest i k : (k = (slen - i) mod 8)%nat -> ((slen - (i + k)) mod 8 = 0)%nat.
Proof.
  intros ->. apply Nat.Div0.mod_divides. exists ((slen - i) / 8)%nat.
  pose proof (Nat.div_mod_eq (slen - i) 8). lia.
Qed.

Lemma zrun_scan_ok i : (i <= slen)%nat ->
  zrun_scan old new slen i = Ret (i + run Z.eqb i, run Z.eqb i)%nat.
Proof using same_length old_bytes new_bytes.
  intros Hi. unfold zrun_scan. set (res := ((slen - i) mod 8)%nat).
  assert (res <= slen - i)%nat by (apply Nat.Div0.mod_le).
  rewrite zrun_res_ok by (done || (subst slen; lia)).
  destruct (Nat.leb_spec res (run Z.eqb i)) as [Hr|Hr]; cbn [mbind outcome_bind].
  - simpl (0 =? 0)%nat. cbv iota. pose proof (run_add old new same_length Z.eqb res i Hr) as E.
    destruct (zrun_words_ok slen (i + res) (0 + res)) as (k & -> & Hk);
      [lia|by apply aligned_rest|]. cbn [mbind outcome_bind].
    rewrite zrun_bytes_ok by (done || (subst slen; lia)).
    rewrite E, (run_add old new same_length Z.eqb k (i + res)) by done. ret_lia.
  - destruct (Nat.eqb_spec (res - run Z.eqb i) 0); [lia|]. done.
Qed.

Lemma nzrun_scan_ok i : (i <= slen)%nat ->
  nzrun_scan old new slen i = Ret (i + run neqb i, run neqb i)%nat.
Proof using same_length old_bytes new_bytes.
  intros Hi. unfold nzrun_scan. set (res := ((slen - i) mod 8)%nat).
  assert (res <= slen - i)%nat by (apply Nat.Div0.mod_le).
  rewrite nzrun_res_ok by (done || (subst slen; lia)).
  destruct (Nat.leb_spec res (run neqb i)) as [Hr|Hr]; cbn [mbind outcome_bind].
  - simpl (0 =? 0)%nat. cbv iota. pose proof (run_add old new same_length neqb res i Hr) as E.
    rewrite nzrun_words_ok; [rewrite E; ret_lia|lia|by apply aligned_rest|lia].
  - destruct (Nat.eqb_spec (res - run neqb i) 0); [lia|]. done.
Qed.
End words.

(** ** The format *)

(** [enc old new i e tail]: the bytes [e] encode the pages from position [i]
    on, and [tail] says whether unchanged bytes follow the last run. *)
Inductive enc (old new : list Z) : nat -> list Z -> bool -> Prop :=
| enc_end : enc old new (length old) [] false
| enc_tail i : (i < length old)%nat -> drop i old = drop i new -> enc old new i [] true
| enc_run i z n uz un rest tail :
    z = run old new Z.eqb i -> (i + z < length old)%nat -> (i = 0 \/ 0 < z)%nat ->
    n = run old new neqb (i + z) -> (0 < n)%nat ->
    uleb128_encode_small (Z.of_nat z) = Ret uz -> uleb128_encode_small (Z.of_nat n) = Ret un ->
    enc old new (i + z + n) rest tail ->
    enc old new i (uz ++ un ++ take n (drop (i + z) new) ++ rest) tail.

Section encoder.
Context (old new : list Z).
Hypothesis same_length : length new = length old.
Hypothesis old_bytes : Forall is_byte old.
Hypothesis new_bytes : Forall is_byte new.
Hypothesis page_small : Z.of_nat (length old) <= 0x3fff.

Abbreviation run := (run old new).

Lemma run_stops p i : (i + run p i < length old)%nat -> run p (i + run p i) = O.
Proof using same_length.
  intros Hi. pose proof (run_add old new same_length p (run p i) i (Nat.le_refl _)). lia.
Qed.

Lemma run_eq_drop i :
  (i <= length old)%nat -> (i + run Z.eqb i = length old)%nat -> drop i old = drop i new.
Proof using same_length.
  intros Hi He. apply runlen_eq.
  - rewrite !length_drop. lia.
  - rewrite length_drop. unfold Xbzrle.run in He. lia.
Qed.

Lemma run_le p i : (i <= length old)%nat -> (i + run p i <= length old)%nat.
Proof using same_length.
  intros Hi. destruct (run_bound old new same_length p i) as [|Hge]; [done|].
  rewrite (run_end old new p i) by done. lia.
Qed.

(** Where an unchanged run ends, a changed one begins, and the other way
    round. *)
Lemma other_run i :
  (i < length old)%nat -> (run Z.eqb i = 0)%nat <-> (0 < run neqb i)%nat.
Proof using same_length.
  intros Hi. destruct (byte_at old new same_length i Hi) as (a & b & _ & _ & Hr).
  rewrite !Hr. unfold neqb. destruct (a =? b); simpl; lia.
Qed.

(** The positions where an iteration of the encoder begins. *)
Definition loop_at (i : nat) : Prop :=
  (i <= length old)%nat /\ (i = 0 \/ i = length old \/ 0 < run Z.eqb i)%nat.

(** The runs from such a position on. *)
Lemma next_runs i :
  loop_at i -> (i + run Z.eqb i < length old)%nat ->
  let n := run neqb (i + run Z.eqb i) in
  (0 < n)%nat /\ (i + run Z.eqb i + n <= length old)%nat /\ loop_at (i + run Z.eqb i + n).
Proof using same_length.
  intros [Hi Hst] Hz. set (z := run Z.eqb i) in *. intros n.
  pose proof (run_le neqb (i + z) ltac:(lia)) as Hn. fold n in Hn.
  assert (0 < n)%nat. { apply other_run; [lia|]. apply run_stops. fold z. lia. }
  split_and!; [done|done|]. split; [done|]. right.
  destruct (decide (i + z + n = length old)%nat); [by left|]. right.
  assert (run neqb (i + z + n) = 0)%nat by (apply run_stops; fold n; lia).
  pose proof (proj1 (other_run (i + z + n) ltac:(lia))). lia.
Qed.

Lemma enc_exists i : loop_at i -> exists e tail, enc old new i e tail.
Proof using same_length page_small.
  remember (length old - i)%nat as k eqn:Ek. revert i Ek.
  induction k as [k IH] using lt_wf_ind. intros i -> [Hi Hst].
  destruct (decide (i = length old)) as [->|Hlt]; [exists [], false; apply enc_end|].
  pose proof (run_le Z.eqb i Hi) as Hzle.
  destruct (decide (i + run Z.eqb i = length old)%nat) as [Ez|Ez].
  { exists [], true. apply enc_tail; [lia|]. by apply run_eq_drop. }
  destruct (next_runs i) as (Hn & Hle & Hl); [done|lia|].
  destruct (uleb128_roundtrip (Z.of_nat (run Z.eqb i)) [] [] ltac:(lia)) as (uz & Huz & _).
  destruct (uleb128_roundtrip (Z.of_nat (run neqb (i + run Z.eqb i))) [] [] ltac:(lia)) as (un & Hun & _).
  edestruct (IH (length old - (i + run Z.eqb i + run neqb (i + run Z.eqb i)))%nat) as (e & tail & He);
    [|reflexivity|done|]; [lia|].
  eexists _, tail. eapply enc_run; try done; lia.
Qed.

Lemma dst_write_ok dlen out bytes :
  (length out + length bytes <= dlen)%nat -> dst_write dlen out bytes = Ret (out ++ bytes).
Proof. intros H. unfold dst_write. by rewrite (proj2 (Nat.leb_le _ _)). Qed.

(** What the encoder returns that has written [out] and has [e] to write. *)
Definition enc_result (dlen : nat) (out e : list Z) (tail : bool) (o : outcome (Z * list Z)) : Prop :=
  exists r out', o = Ret (r, out') /\ (length out' <= dlen)%nat /\
    if (length out + length e + (if tail then 2 else 0) <=? dlen)%nat
    then r = Z.of_nat (length out') /\ out' = out ++ e else r = -1.

Lemma enc_result_end dlen out (tail : bool) :
  (length out + (if tail then 2 else 0) <= dlen)%nat ->
  enc_result dlen out [] tail (Ret (Z.of_nat (length out), out)).
Proof.
  intros Hd. exists (Z.of_nat (length out)), out. split; [done|]. split; [lia|].
  cbn [length]. rewrite (proj2 (Nat.leb_le _ _)) by lia. by rewrite app_nil_r.
Qed.

Lemma enc_result_full dlen out out' e (tail : bool) :
  (length out' <= dlen)%nat -> (dlen < length out + length e + (if tail then 2 else 0))%nat ->
  enc_result dlen out e tail (Ret (-1, out')).
Proof. intros Hd He. exists (-1), out'. by rewrite (proj2 (Nat.leb_gt _ _)). Qed.

Lemma encode_enc i e tail : enc old new i e tail -> forall fuel dlen out,
  (length old <= i + fuel)%nat -> (i = 0%nat -> out = []) -> (length out <= dlen)%nat ->
  enc_result dlen out e tail (encode_loop fuel old new (length old) dlen i out).
Proof using same_length old_bytes new_bytes page_small.
  induction 1 as [|i Hlt He|i z n uz un rest tail Ez Hlt Hz En Hn Huz Hun _ IH]; intros fuel dlen out Hf H0 Hd.
  - destruct fuel; cbn [encode_loop]; rewrite Nat.ltb_irrefl; apply enc_result_end; lia.
  - destruct fuel as [|fuel]; [lia|]. cbn [encode_loop]. rewrite (proj2 (Nat.ltb_lt _ _)) by done.
    destruct (Nat.ltb_spec dlen (length out + 2)) as [Hs|Hs]; [apply enc_result_full; cbn; lia|].
    rewrite zrun_scan_ok by (done || lia). cbn [mbind outcome_bind].
    assert (run Z.eqb i = length old - i)%nat as ->.
    { unfold Xbzrle.run. rewrite <- length_drop. by apply runlen_eq; rewrite He. }
    rewrite (proj2 (Nat.eqb_eq (i + _) _)) by lia.
    destruct (Nat.eqb_spec (length old - i) (length old)); [|by apply enc_result_end].
    rewrite H0 by lia. apply (enc_result_end dlen [] true). cbn. lia.
  - pose proof (run_le neqb (i + z) ltac:(lia)) as Hnle. rewrite <- En in Hnle.
    assert (length (take n (drop (i + z) new)) = n) as Lt by (rewrite length_take, length_drop; lia).
    destruct (uleb128_roundtrip (Z.of_nat z) [] [] ltac:(lia)) as (uz' & Huz' & Luz & _).
    rewrite Huz in Huz'. injection Huz' as <-.
    destruct (uleb128_roundtrip (Z.of_nat n) [] [] ltac:(lia)) as (un' & Hun' & Lun & _).
    rewrite Hun in Hun'. injection Hun' as <-.
    assert (length (uz ++ un ++ take n (drop (i + z) new) ++ rest)
            = length uz + length un + n + length rest)%nat as Le by (rewrite !length_app, Lt; lia).
    destruct fuel as [|fuel]; [lia|]. cbn [encode_loop]. rewrite (proj2 (Nat.ltb_lt _ _)) by lia.
    destruct (Nat.ltb_spec dlen (length out + 2)) as [Hs|Hs]; [apply enc_result_full; lia|].
    rewrite zrun_scan_ok by (done || lia). cbn [mbind outcome_bind]. rewrite <- Ez.
    rewrite (proj2 (Nat.eqb_neq _ _)), (proj2 (Nat.eqb_neq _ _)), Huz by lia.
    cbn [mbind outcome_bind]. rewrite dst_write_ok by lia. cbn [mbind outcome_bind].
    destruct (Nat.ltb_spec dlen (length (out ++ uz) + 2)) as [Hs2|Hs2]; rewrite length_app in Hs2.
    { apply enc_result_full; [rewrite length_app; lia|lia]. }
    rewrite nzrun_scan_ok by (done || lia). cbn [mbind outcome_bind]. rewrite <- En, Hun.
    cbn [mbind outcome_bind]. rewrite dst_write_ok by (rewrite length_app; lia). cbn [mbind outcome_bind].
    destruct (Nat.ltb_spec dlen (length ((out ++ uz) ++ un) + n)) as [Hs3|Hs3]; rewrite !length_app in Hs3.
    { apply enc_result_full; [rewrite !length_app; lia|lia]. }
    rewrite dst_write_ok by (rewrite !length_app, Lt; lia). cbn [mbind outcome_bind].
    destruct (IH fuel dlen (((out ++ uz) ++ un) ++ take n (drop (i + z) new))) as (r & out' & Hr & Hl & Hc);
      [lia|lia|rewrite !length_app, Lt; lia|].
    exists r, out'. split; [done|]. split; [done|]. rewrite Le. rewrite !length_app, Lt, <- !app_assoc in Hc.
    replace (length out + (length uz + length un + n + length rest))%nat
      with (length out + length uz + length un + n + length rest)%nat by lia. done.
Qed.
End encoder.

(** ** The decoder undoes the encoder *)

Lemma runlen_eq_take l1 : forall l2,
  take (runlen Z.eqb l1 l2) l1 = take (runlen Z.eqb l1 l2) l2.
Proof.
  induction l1 as [|a l1 IH]; intros [|b l2]; simpl; try done.
  destruct (Z.eqb_spec a b) as [->|]; [|done]. simpl. by rewrite IH.
Qed.

Section decoder.
Context (old new : list Z).
Hypothesis same_length : length new = length old.
Hypothesis page_small : Z.of_nat (length old) <= 0x3fff.

(** The page with the first [i] bytes updated. *)
Definition mix (i : nat) : list Z := take i new ++ drop i old.

Lemma mix_skip i : mix (i + run old new Z.eqb i) = mix i.
Proof.
  unfold mix. set (z := run old new Z.eqb i).
  rewrite <- take_take_drop, <- app_assoc. f_equal.
  assert (take z (drop i new) = take z (drop i old)) as ->.
  { symmetry. apply runlen_eq_take. }
  rewrite <- (take_drop z (drop i old)) at 2. f_equal. by rewrite drop_drop.
Qed.

Lemma copy_mix d n pre post :
  (d + n <= length old)%nat ->
  copy (mix d) d (pre ++ take n (drop d new) ++ post) (length pre) n = Ret (mix (d + n)).
Proof using same_length.
  intros Hd. unfold copy, mix.
  assert (length (take d new) = d) as Ld by (rewrite length_take; lia).
  assert (length (take n (drop d new)) = n) as Ln by (rewrite length_take, length_drop; lia).
  rewrite !length_app, Ld, Ln, length_drop.
  rewrite (proj2 (Nat.leb_le _ _)), (proj2 (Nat.leb_le _ _)) by lia. cbn [andb]. f_equal.
  rewrite (take_app_length' (take d new)) by done. rewrite drop_app_length, (take_app_length' (take n _)) by done.
  rewrite drop_app_ge, Ld, drop_drop by lia. replace (d + (d + n - d))%nat with (d + n)%nat by lia.
  rewrite app_assoc, take_take_drop. done.
Qed.

Lemma decode_enc i e tail : enc old new i e tail -> forall fuel pre,
  (length e <= fuel)%nat -> (i <= length old)%nat -> (pre = [] \/ 0 < i)%nat ->
  exists d, decode_loop fuel (pre ++ e) (length (pre ++ e)) (mix i) (length old) (length pre) i =
    Ret (Z.of_nat d, new) /\ (d <= length old)%nat.
Proof using same_length page_small.
  induction 1 as [|i Hlt He|i z n uz un rest tail Ez Hlt Hz En Hn Huz Hun _ IH]; intros fuel pre Hf Hi Hpre.
  - rewrite app_nil_r. exists (length old). split; [|done]. unfold mix.
    rewrite (drop_ge old), app_nil_r, take_ge by lia.
    destruct fuel; cbn [decode_loop]; by rewrite (proj2 (Nat.ltb_ge _ _)).
  - rewrite app_nil_r. exists i. split; [|done]. unfold mix. rewrite He, take_drop.
    destruct fuel; cbn [decode_loop]; by rewrite (proj2 (Nat.ltb_ge _ _)).
  - pose proof (run_le old new same_length neqb (i + z) ltac:(lia)) as Hle. rewrite <- En in Hle.
    assert (length (take n (drop (i + z) new)) = n) as Ln by (rewrite length_take, length_drop; lia).
    destruct (uleb128_roundtrip (Z.of_nat z) pre (un ++ take n (drop (i + z) new) ++ rest))
      as (uz' & Huz' & Luz & _ & Dz); [lia|].
    rewrite Huz in Huz'. injection Huz' as <-.
    destruct (uleb128_roundtrip (Z.of_nat n) (pre ++ uz) (take n (drop (i + z) new) ++ rest))
      as (un' & Hun' & Lun & _ & Dn); [lia|].
    rewrite Hun in Hun'. injection Hun' as <-. rewrite <- app_assoc in Dn.
    set (src := pre ++ uz ++ un ++ take n (drop (i + z) new) ++ rest) in *.
    assert (length src = length pre + length uz + length un + n + length rest)%nat as Ls.
    { subst src. rewrite !length_app, Ln. lia. }
    destruct fuel as [|fuel]; [rewrite !length_app in Hf; lia|]. cbn [decode_loop].
    rewrite (proj2 (Nat.ltb_lt _ _)), (proj2 (Nat.ltb_ge _ _)) by lia. rewrite Dz.
    cbn [mbind outcome_bind]. rewrite !Nat2Z.id.
    rewrite (proj2 (Z.ltb_ge _ _)) by lia. cbn [orb].
    replace (negb (length pre =? 0)%nat && (Z.of_nat z =? 0)) with false.
    2:{ symmetry. destruct Hpre as [->|]; [done|]. apply andb_false_iff. right. apply Z.eqb_neq. lia. }
    rewrite (proj2 (Nat.ltb_ge _ _)), (proj2 (Nat.ltb_ge _ _)) by lia.
    rewrite length_app in Dn. rewrite Dn. cbn [mbind outcome_bind]. rewrite !Nat2Z.id.
    rewrite (proj2 (Z.ltb_ge _ _)), (proj2 (Z.eqb_neq _ _)) by lia. cbn [orb].
    rewrite (proj2 (Nat.ltb_ge _ _)), (proj2 (Nat.ltb_ge _ _)) by lia. cbn [orb].
    assert (src = (pre ++ uz ++ un) ++ take n (drop (i + z) new) ++ rest) as Es
      by by rewrite <- !app_assoc.
    rewrite <- (mix_skip i), <- Ez, Es.
    replace (length pre + length uz + length un)%nat with (length (pre ++ uz ++ un))
      by (rewrite !length_app; lia).
    rewrite copy_mix by done. cbn [mbind outcome_bind].
    destruct (IH fuel ((pre ++ uz ++ un) ++ take n (drop (i + z) new))) as (d & Hd & Hdl);
      [rewrite !length_app in Hf; lia|lia|right; lia|].
    exists d. split; [|done]. rewrite <- Hd. rewrite <- (app_assoc _ (take _ _)).
    by rewrite (length_app (pre ++ uz ++ un) (take n (drop (i + z) new))), Ln.
Qed.
End decoder.

(** ** The size of an encoding *)

Definition uleb_size (n : nat) : nat := if (n <? 128)%nat then 1%nat else 2%nat.

(** What the runs of a page take, byte by byte: [z] unchanged and then [n]
    changed bytes have been passed since the last run was counted. *)
Fixpoint delta_size (z n : nat) (old new : list Z) : nat :=
  match old, new with
  | a :: old, b :: new =>
      if a =? b
      then if (n =? 0)%nat then delta_size (S z) 0 old new
           else (uleb_size z + uleb_size n + n + delta_size 1 0 old new)%nat
      else delta_size z (S n) old new
  | _, _ => if (n =? 0)%nat then O else (uleb_size z + uleb_size n + n)%nat
  end.

(** The last byte of the page is as it was. *)
Definition ends_unchanged (old new : list Z) : bool :=
  match last old, last new with Some a, Some b => a =? b | _, _ => false end.

Lemma uleb_length n u :
  uleb128_encode_small (Z.of_nat n) = Ret u -> length u = uleb_size n.
Proof.
  unfold uleb128_encode_small, uleb_size. destruct (negb _); [done|].
  destruct (Z.ltb_spec (Z.of_nat n) 0x80), (Nat.ltb_spec n 128); try lia; by intros [= <-].
Qed.

Lemma delta_unchanged z old : forall new,
  delta_size z 0 old new =
  delta_size (z + runlen Z.eqb old new) 0 (drop (runlen Z.eqb old new) old) (drop (runlen Z.eqb old new) new).
Proof.
  revert z. induction old as [|a old IH]; intros z [|b new]; cbn [runlen]; [by rewrite ?drop_0..|].
  destruct (a =? b) eqn:E; cbn [drop]; [|by rewrite Nat.add_0_r].
  cbn [delta_size]. rewrite E. cbn [Nat.eqb]. rewrite IH. f_equal. lia.
Qed.

Lemma delta_changed z old : forall n new, length new = length old -> (0 < n + runlen neqb old new)%nat ->
  let k := runlen neqb old new in
  delta_size z n old new = (uleb_size z + uleb_size (n + k) + (n + k) + delta_size 0 0 (drop k old) (drop k new))%nat.
Proof.
  induction old as [|a old IH]; intros n [|b new] Hl; try done; cbn [runlen delta_size] in *.
  - intros Hn. cbn. rewrite !Nat.add_0_r in *. destruct (Nat.eqb_spec n 0); lia.
  - change (neqb a b) with (negb (a =? b)). destruct (a =? b) eqn:E; cbn [negb drop]; intros Hn.
    + destruct (Nat.eqb_spec n 0); [lia|]. cbn [delta_size]. rewrite E. cbn [Nat.eqb]. rewrite Nat.add_0_r. lia.
    + cbv zeta. rewrite IH; [|by injection Hl|lia]. rewrite <- Nat.add_succ_comm. done.
Qed.

Section size.
Context (old new : list Z).
Hypothesis same_length : length new = length old.

Lemma enc_size i e tail :
  enc old new i e tail -> length e = delta_size 0 0 (drop i old) (drop i new).
Proof using same_length.
  induction 1 as [|i Hlt He|i z n uz un rest tail Ez Hlt Hz En Hn Huz Hun _ IH].
  - by rewrite !drop_ge by lia.
  - rewrite delta_unchanged, (proj2 (runlen_eq (drop i old) (drop i new) ltac:(by rewrite He)) He).
    rewrite (drop_ge (drop i old)), (drop_ge (drop i new)) by (rewrite !length_drop; lia). done.
  - pose proof (run_le old new same_length neqb (i + z) ltac:(lia)) as Hnle. rewrite <- En in Hnle.
    rewrite !length_app, length_take, length_drop, (uleb_length _ _ Huz), (uleb_length _ _ Hun), IH.
    rewrite (delta_unchanged 0 (drop i old)). unfold run in Ez. rewrite <- Ez, !drop_drop.
    rewrite (delta_changed (0 + z) (drop (i + z) old) 0 (drop (i + z) new)).
    + unfold run in En. rewrite <- En, !drop_drop. cbn [Nat.add]. lia.
    + rewrite !length_drop. lia.
    + unfold run in En. lia.
Qed.

Lemma ends_run : (0 < length old)%nat ->
  ends_unchanged old new = (0 <? run old new Z.eqb (length old - 1))%nat.
Proof using same_length.
  intros Hl. destruct (byte_at old new same_length (length old - 1)) as (a & b & Ha & Hb & Hr); [lia|].
  unfold ends_unchanged. rewrite !last_lookup, same_length, <- Nat.sub_1_r, Ha, Hb, Hr. by destruct (a =? b).
Qed.

Lemma enc_ends i e tail :
  enc old new i e tail -> (i < length old)%nat -> tail = ends_unchanged old new.
Proof using same_length.
  induction 1 as [|i _ He|i z n uz un rest tail Ez Hlt Hz En Hn Huz Hun Hrest IH]; intros Hi; [lia|..].
  - unfold ends_unchanged. rewrite !last_lookup, same_length.
    assert (forall l : list Z, l !! pred (length old) = drop i l !! (pred (length old) - i)%nat) as Hd.
    { intros l. rewrite lookup_drop. f_equal. lia. }
    rewrite !Hd, <- He, <- Hd. destruct (lookup_lt_is_Some_2 old (pred (length old))) as [a ->]; [lia|].
    by rewrite Z.eqb_refl.
  - pose proof (run_le old new same_length neqb (i + z) ltac:(lia)) as Hnle. rewrite <- En in Hnle.
    destruct (decide (i + z + n < length old)%nat) as [|He]; [by apply IH|].
    rewrite ends_run by lia. pose proof (run_add old new same_length neqb (n - 1) (i + z)) as Ha.
    replace (i + z + (n - 1))%nat with (length old - 1)%nat in Ha by lia.
    pose proof (other_run old new same_length (length old - 1) ltac:(lia)).
    destruct (Nat.ltb_spec 0 (run old new Z.eqb (length old - 1))); [lia|].
    assert (i + z + n = length old)%nat as Hend by lia. rewrite Hend in Hrest.
    inversion Hrest; subst; [done|lia|lia].
Qed.

Lemma delta_zero : delta_size 0 0 old new = O <-> old = new.
Proof using same_length.
  rewrite delta_unchanged, <- (runlen_eq old new same_length).
  pose proof (run_le old new same_length Z.eqb 0 (Nat.le_0_l _)) as Hb. unfold run in Hb. rewrite !drop_0 in Hb.
  set (k := runlen Z.eqb old new) in *. destruct (decide (k = length old)) as [->|Hk].
  - rewrite !drop_ge by lia. done.
  - split; [|done]. intros H0. exfalso.
    assert (0 < run old new neqb k)%nat as Hn.
    { apply (other_run old new same_length); [lia|]. subst k.
      pose proof (run_stops old new same_length Z.eqb 0) as Hs. unfold run in *. cbn [Nat.add] in Hs.
      rewrite !drop_0 in Hs. apply Hs. lia. }
    rewrite (delta_changed (0 + k) (drop k old) 0 (drop k new)) in H0.
    + unfold run in Hn. lia.
    + rewrite !length_drop. lia.
    + unfold run in Hn. lia.
Qed.
End size.

(** ** Properties *)

(** C10: decoding undoes encoding, and the encoder gives up only where it has
    to.  For pages of equal length, a multiple of the word size that fits the
    14-bit run lengths, the encoder ends without an access out of bounds and
    without writing more than [dlen] bytes.  It reports that the encoding does
    not fit exactly if its size, which [delta_size] counts byte by byte, exceeds
    [dlen]; with two bytes more where the page ends in unchanged bytes, as the
    room for another run is asked for before they are passed.  Otherwise it
    returns the number of bytes written, and decoding those over the old page
    gives the new page.  It returns 0 exactly for an unchanged page, if that
    fits. *)
Theorem xbzrle_roundtrip old new dlen :
  length new = length old -> (length old mod 8 = 0)%nat -> Z.of_nat (length old) <= 0x3fff ->
  Forall is_byte old -> Forall is_byte new ->
  let size := delta_size 0 0 old new in
  let room := (size + if ends_unchanged old new then 2 else 0)%nat in
  exists r out, xbzrle_encode_buffer old new (length old) dlen = Ret (r, out) /\
    (length out <= dlen)%nat /\
    (r = -1 <-> (dlen < room)%nat) /\
    (r = 0 <-> old = new /\ (room <= dlen)%nat) /\
    (r <> -1 -> r = Z.of_nat (length out) /\ length out = size /\
       exists d, xbzrle_decode_buffer out (length out) old (length old) = Ret (d, new) /\
         0 <= d <= Z.of_nat (length old)).
Proof.
  intros Hl Hm Hs Ho Hn size room. unfold xbzrle_encode_buffer. rewrite Hm. cbn [negb Nat.eqb].
  destruct (enc_exists old new Hl Hs 0) as (e & tail & He); [split; lia|].
  assert (length e = size) as Esz by (rewrite (enc_size old new Hl _ _ _ He); by rewrite !drop_0).
  assert (tail = ends_unchanged old new) as ->.
  { destruct (decide (old = [])) as [->|Hne]; [|eapply enc_ends; [done..|]; by destruct old; cbn; [|lia]].
    inversion He; subst; cbn in *; [done|lia|lia]. }
  destruct (encode_enc old new Hl Ho Hn Hs 0 e _ He (length old) dlen []) as (r & out & Hr & Hlen & Hc);
    [lia|done|simpl; lia|].
  exists r, out. split; [done|]. split; [done|]. cbn [length Nat.add app] in Hc. rewrite Esz in Hc. fold room in Hc.
  pose proof (delta_zero old new Hl) as Hz. fold size in Hz.
  destruct (Nat.leb_spec room dlen) as [Hfit|Hfit]; [|subst r; split; [lia|split; [lia|done]]].
  destruct Hc as [-> ->]. rewrite Esz. split; [lia|]. split; [rewrite <- Hz; lia|]. intros _.
  split; [done|]. split; [done|].
  destruct (decode_enc old new Hl Hs 0 e _ He (length e) []) as (d & Hd & Hle); [lia|lia|by left|].
  exists (Z.of_nat d). rewrite <- Esz. split; [exact Hd|lia].
Qed.

Lemma xbzrle_roundtrip_witness :
  exists out, xbzrle_encode_buffer (replicate 16 7) (replicate 5 7 ++ [1; 2; 3] ++ replicate 8 7)
                16 7 = Ret (5, out) /\
    exists d, xbzrle_decode_buffer out (length out) (replicate 16 7) 16 =
      Ret (d, replicate 5 7 ++ [1; 2; 3] ++ replicate 8 7).
Proof.
  destruct (xbzrle_roundtrip (replicate 16 7) (replicate 5 7 ++ [1; 2; 3] ++ replicate 8 7) 7)
    as (r & out & He & Hl & Hm & _ & Hd); [reflexivity|reflexivity|simpl; lia|..].
  - apply Forall_replicate. unfold is_byte. lia.
  - repeat constructor; unfold is_byte; lia.
  - assert (r <> -1) as Hr by (rewrite Hm; vm_compute; lia).
    destruct (Hd Hr) as (Hrr & Hsz & d & Hdec & _). change (delta_size _ _ _ _) with 5%nat in Hsz.
    exists out. rewrite Hsz in Hrr. subst r. split; [exact He|]. exists d. exact Hdec.
Defined.

Lemma uleb128_decode_safe src i :
  Forall is_byte src -> (i + 2 <= length src)%nat ->
  exists ret n, uleb128_decode_small src i = Ret (ret, n) /\ 0 <= n /\
    (ret = -1 \/ 1 <= ret <= 2).
Proof.
  intros Hb Hi. unfold uleb128_decode_small, get.
  destruct (lookup_lt_is_Some_2 src i) as [a Ha]; [lia|].
  destruct (lookup_lt_is_Some_2 src (S i)) as [b Hb']; [lia|].
  assert (is_byte a) as Ba by (eapply Forall_lookup_1; eauto). unfold is_byte in Ba.
  rewrite Ha, Hb'. cbn [mbind outcome_bind].
  destruct (has_bits a 0x80); cbn [negb]; [|exists 1, a; split; [done|lia]].
  assert (0 <= a &&& 0x7f) by (apply Z.land_nonneg; lia).
  destruct (has_bits b 0x80); [exists (-1), (a &&& 0x7f); split; [done|lia]|].
  exists 2, (a &&& 0x7f ||| u32 (b << 7)). split; [done|]. split; [|lia].
  apply Z.lor_nonneg. split; [done|]. apply wrap_range. lia.
Qed.

Lemma decode_loop_safe src fuel : forall dst i d,
  Forall is_byte src -> (length src <= i + fuel)%nat -> (d <= length dst)%nat ->
  exists r dst', decode_loop fuel src (length src) dst (length dst) i d = Ret (r, dst') /\
    length dst' = length dst /\ -1 <= r <= Z.of_nat (length dst).
Proof.
  induction fuel as [|fuel IH]; intros dst i d Hb Hf Hd; cbn [decode_loop];
    (destruct (Nat.ltb_spec i (length src));
      [|eexists _, dst; split; [reflexivity|]; split; [done|lia]]); [lia|].
  destruct (Nat.ltb_spec (length src - i) 2); [exists (-1), dst; split; [done|]; split; [done|lia]|].
  destruct (uleb128_decode_safe src i) as (ret & z & -> & Hz & Hret); [done|lia|].
  cbn [mbind outcome_bind].
  destruct ((ret <? 0) || _) eqn:E1; [exists (-1), dst; split; [done|]; split; [done|lia]|].
  apply orb_false_iff in E1 as [E1%Z.ltb_ge _].
  destruct (Nat.ltb_spec (length dst) (d + Z.to_nat z));
    [exists (-1), dst; split; [done|]; split; [done|lia]|].
  destruct (Nat.ltb_spec (length src - (i + Z.to_nat ret)) 2);
    [exists (-1), dst; split; [done|]; split; [done|lia]|].
  destruct (uleb128_decode_safe src (i + Z.to_nat ret)) as (ret' & n & -> & Hn & Hret'); [done|lia|].
  cbn [mbind outcome_bind].
  destruct ((ret' <? 0) || _) eqn:E2; [exists (-1), dst; split; [done|]; split; [done|lia]|].
  apply orb_false_iff in E2 as [E2%Z.ltb_ge _].
  destruct (_ || _) eqn:E3; [exists (-1), dst; split; [done|]; split; [done|lia]|].
  apply orb_false_iff in E3 as [E3%Nat.ltb_ge E4%Nat.ltb_ge].
  unfold copy. rewrite (proj2 (Nat.leb_le _ _)), (proj2 (Nat.leb_le _ _)) by lia.
  cbn [andb mbind outcome_bind]. set (dst1 := take _ _ ++ _).
  assert (length dst1 = length dst) as L.
  { subst dst1. rewrite !length_app, !length_take, !length_drop. lia. }
  rewrite <- L in E3 |- *. apply IH; [done|lia|lia].
Qed.

(** C26: the decoder is safe on any input: whatever bytes arrive, it ends, never
    reads behind the input or writes outside of the page, and returns -1 or a
    position inside the page. *)
Theorem xbzrle_decode_safe src dst :
  Forall is_byte src ->
  exists r dst', xbzrle_decode_buffer src (length src) dst (length dst) = Ret (r, dst') /\
    length dst' = length dst /\ -1 <= r <= Z.of_nat (length dst).
Proof. intros Hb. apply decode_loop_safe; [done|lia|lia]. Qed.

Lemma xbzrle_decode_safe_witness :
  exists r dst', xbzrle_decode_buffer [3; 200; 255; 0] 4 [0; 0; 0; 0] 4 = Ret (r, dst') /\
    length dst' = 4%nat.
Proof.
  destruct (xbzrle_decode_safe [3; 200; 255; 0] [0; 0; 0; 0]) as (r & dst' & Hr & Hl & _).
  - repeat constructor; unfold is_byte; lia.
  - exists r, dst'. split; [exact Hr|exact Hl].
Defined.
