(* ===== verification/Pic.v ===== *)
(** * The interrupt controllers of the PC

    Model of [src/hw/intc/i8259.c] and [src/hw/intc/i8259_common.c]: the two
    cascaded 8259 controllers, with their registers as in [PICCommonState].
    The state of the system is the two controllers and the level of their two
    INT wires: the slave's goes to line 2 of the master, the master's to the
    parent interrupt.  Shown here: which interrupt a controller asks for, that
    the wires follow the registers (with the two writes after which they do
    not), and that an end of interrupt undoes the acknowledgement.

    Not modelled: the device's creation and its I/O port registration, the
    monitor commands, and the migration description. *)

From S2P Require Import Prelude HostUtils.

Record PICCommonState := {
  last_irr : Z;
  irr : Z;
  imr : Z;
  isr : Z;
  priority_add : Z;
  irq_base : Z;
  read_reg_select : Z;
  poll : Z;
  special_mask : Z;
  init_state : Z;
  auto_eoi : Z;
  rotate_on_auto_eoi : Z;
  special_fully_nested_mode : Z;
  init4 : Z;
  single_mode : Z;
  elcr : Z;
  elcr_mask : Z;
  master : bool;
}.

(** Assignments to the fields. *)
Definition set_last_irr (s : PICCommonState) (v : Z) : PICCommonState :=
  let '(Build_PICCommonState _ b c d e f g h i j k l m n o p q r) := s in
  Build_PICCommonState v b c d e f g h i j k l m n o p q r.
Definition set_irr (s : PICCommonState) (v : Z) : PICCommonState :=
  let '(Build_PICCommonState a _ c d e f g h i j k l m n o p q r) := s in
  Build_PICCommonState a v c d e f g h i j k l m n o p q r.
Definition set_imr (s : PICCommonState) (v : Z) : PICCommonState :=
  let '(Build_PICCommonState a b _ d e f g h i j k l m n o p q r) := s in
  Build_PICCommonState a b v d e f g h i j k l m n o p q r.
Definition set_isr (s : PICCommonState) (v : Z) : PICCommonState :=
  let '(Build_PICCommonState a b c _ e f g h i j k l m n o p q r) := s in
  Build_PICCommonState a b c v e f g h i j k l m n o p q r.
Definition set_priority_add (s : PICCommonState) (v : Z) : PICCommonState :=
  let '(Build_PICCommonState a b c d _ f g h i j k l m n o p q r) := s in
  Build_PICCommonState a b c d v f g h i j k l m n o p q r.
Definition set_irq_base (s : PICCommonState) (v : Z) : PICCommonState :=
  let '(Build_PICCommonState a b c d e _ g h i j k l m n o p q r) := s in
  Build_PICCommonState a b c d e v g h i j k l m n o p q r.
Definition set_read_reg_select (s : PICCommonState) (v : Z) : PICCommonState :=
  let '(Build_PICCommonState a b c d e f _ h i j k l m n o p q r) := s in
  Build_PICCommonState a b c d e f v h i j k l m n o p q r.
Definition set_poll (s : PICCommonState) (v : Z) : PICCommonState :=
  let '(Build_PICCommonState a b c d e f g _ i j k l m n o p q r) := s in
  Build_PICCommonState a b c d e f g v i j k l m n o p q r.
Definition set_special_mask (s : PICCommonState) (v : Z) : PICCommonState :=
  let '(Build_PICCommonState a b c d e f g h _ j k l m n o p q r) := s in
  Build_PICCommonState a b c d e f g h v j k l m n o p q r.
Definition set_init_state (s : PICCommonState) (v : Z) : PICCommonState :=
  let '(Build_PICCommonState a b c d e f g h i _ k l m n o p q r) := s in
  Build_PICCommonState a b c d e f g h i v k l m n o p q r.
Definition set_auto_eoi (s : PICCommonState) (v : Z) : PICCommonState :=
  let '(Build_PICCommonState a b c d e f g h i j _ l m n o p q r) := s in
  Build_PICCommonState a b c d e f g h i j v l m n o p q r.
Definition set_rotate_on_auto_eoi (s : PICCommonState) (v : Z) : PICCommonState :=
  let '(Build_PICCommonState a b c d e f g h i j k _ m n o p q r) := s in
  Build_PICCommonState a b c d e f g h i j k v m n o p q r.
Definition set_special_fully_nested_mode (s : PICCommonState) (v : Z) : PICCommonState :=
  let '(Build_PICCommonState a b c d e f g h i j k l _ n o p q r) := s in
  Build_PICCommonState a b c d e f g h i j k l v n o p q r.
Definition set_init4 (s : PICCommonState) (v : Z) : PICCommonState :=
  let '(Build_PICCommonState a b c d e f g h i j k l m _ o p q r) := s in
  Build_PICCommonState a b c d e f g h i j k l m v o p q r.
Definition set_single_mode (s : PICCommonState) (v : Z) : PICCommonState :=
  let '(Build_PICCommonState a b c d e f g h i j k l m n _ p q r) := s in
  Build_PICCommonState a b c d e f g h i j k l m n v p q r.
Definition set_elcr (s : PICCommonState) (v : Z) : PICCommonState :=
  let '(Build_PICCommonState a b c d e f g h i j k l m n o _ q r) := s in
  Build_PICCommonState a b c d e f g h i j k l m n o v q r.

(** A register of eight bits without the bits of [mask]. *)
Definition clear8 (x mask : Z) : Z := x &&& u8 (Z.lnot mask).

(** ** Priorities *)

(** The [while] loop of [get_priority]; a nonzero mask of eight bits ends it
    before the fuel does. *)
Fixpoint priority_loop (fuel : nat) (add mask priority : Z) : Z :=
  match fuel with
  | O => priority
  | S fuel =>
      if (mask &&& (1 << ((priority + add) &&& 7))) =? 0
      then priority_loop fuel add mask (priority + 1)
      else priority
  end.

Definition get_priority (s : PICCommonState) (mask : Z) : Z :=
  if mask =? 0 then 8 else priority_loop 8 (priority_add s) mask 0.

Definition pic_get_irq (s : PICCommonState) : Z :=
  let mask := irr s &&& Z.lnot (imr s) in
  let priority := get_priority s mask in
  if priority =? 8 then -1
  else
    let mask := isr s in
    let mask := if negb (special_mask s =? 0) then mask &&& Z.lnot (imr s) else mask in
    let mask :=
      if negb (special_fully_nested_mode s =? 0) && master s
      then mask &&& Z.lnot (1 << 2) else mask in
    let cur_priority := get_priority s mask in
    if priority <? cur_priority then (priority + priority_add s) &&& 7 else -1.

(** ** The system *)

Inductive device := Master | Slave.

Record pics := {
  isa_pic : PICCommonState;
  slave_pic : PICCommonState;
  parent_int : bool;
  slave_int : bool;
}.

Definition pic_of (p : pics) (d : device) : PICCommonState :=
  match d with Master => isa_pic p | Slave => slave_pic p end.

Definition set_pic (p : pics) (d : device) (s : PICCommonState) : pics :=
  match d with
  | Master => {| isa_pic := s; slave_pic := slave_pic p;
                 parent_int := parent_int p; slave_int := slave_int p |}
  | Slave => {| isa_pic := isa_pic p; slave_pic := s;
                parent_int := parent_int p; slave_int := slave_int p |}
  end.

(** The registers after a change of line [irq]. *)
Definition set_irq_regs (s : PICCommonState) (irq : Z) (level : bool) : PICCommonState :=
  let mask := 1 << irq in
  if has_bits (elcr s) mask then
    if level then set_last_irr (set_irr s (u8 (irr s ||| mask))) (u8 (last_irr s ||| mask))
    else set_last_irr (set_irr s (clear8 (irr s) mask)) (clear8 (last_irr s) mask)
  else
    if level then
      let s := if (last_irr s &&& mask) =? 0 then set_irr s (u8 (irr s ||| mask)) else s in
      set_last_irr s (u8 (last_irr s ||| mask))
    else set_last_irr s (clear8 (last_irr s) mask).

(** [pic_update_irq] of the master sets the parent interrupt. *)
Definition pic_update_master (p : pics) : pics :=
  {| isa_pic := isa_pic p; slave_pic := slave_pic p;
     parent_int := 0 <=? pic_get_irq (isa_pic p); slave_int := slave_int p |}.

(** That of the slave sets line 2 of the master. *)
Definition pic_update_irq (p : pics) (d : device) : pics :=
  match d with
  | Master => pic_update_master p
  | Slave =>
      let level := 0 <=? pic_get_irq (slave_pic p) in
      pic_update_master
        {| isa_pic := set_irq_regs (isa_pic p) 2 level; slave_pic := slave_pic p;
           parent_int := parent_int p; slave_int := level |}
  end.

Definition pic_set_irq (p : pics) (d : device) (irq : Z) (level : bool) : pics :=
  pic_update_irq (set_pic p d (set_irq_regs (pic_of p d) irq level)) d.

Definition intack_regs (s : PICCommonState) (irq : Z) : PICCommonState :=
  let s :=
    if negb (auto_eoi s =? 0) then
      if negb (rotate_on_auto_eoi s =? 0) then set_priority_add s ((irq + 1) &&& 7) else s
    else set_isr s (u8 (isr s ||| (1 << irq))) in
  if negb (has_bits (elcr s) (1 << irq)) then set_irr s (clear8 (irr s) (1 << irq)) else s.

Definition pic_intack (p : pics) (d : device) (irq : Z) : pics :=
  pic_update_irq (set_pic p d (intack_regs (pic_of p d) irq)) d.

(** The interrupt number for the processor, which asks the master. *)
Definition pic_read_irq (p : pics) : pics * Z :=
  let irq := pic_get_irq (isa_pic p) in
  if 0 <=? irq then
    if irq =? 2 then
      let irq2 := pic_get_irq (slave_pic p) in
      let '(p, irq2) := if 0 <=? irq2 then (pic_intack p Slave irq2, irq2) else (p, 7) in
      let intno := irq_base (slave_pic p) + irq2 in
      (pic_intack p Master irq, intno)
    else (pic_intack p Master irq, irq_base (isa_pic p) + irq)
  else (p, irq_base (isa_pic p) + 7).

Definition pic_reset_common (s : PICCommonState) : PICCommonState :=
  {| last_irr := 0; irr := irr s &&& elcr s; imr := 0; isr := 0; priority_add := 0;
     irq_base := 0; read_reg_select := 0; poll := 0; special_mask := 0; init_state := 0;
     auto_eoi := 0; rotate_on_auto_eoi := 0; special_fully_nested_mode := 0; init4 := 0;
     single_mode := 0; elcr := elcr s; elcr_mask := elcr_mask s; master := master s |}.

Definition pic_init_reset (p : pics) (d : device) : pics :=
  pic_update_irq (set_pic p d (pic_reset_common (pic_of p d))) d.

Definition pic_reset (p : pics) (d : device) : pics :=
  pic_init_reset (set_pic p d (set_elcr (pic_of p d) 0)) d.

(** ** Port accesses *)

(** The first initialisation word. *)
Definition write_icw1 (p : pics) (d : device) (val : Z) : pics :=
  let p := pic_init_reset p d in
  let s := set_init_state (pic_of p d) 1 in
  let s := set_init4 s (val &&& 1) in
  set_pic p d (set_single_mode s (val &&& 2)).

(** The third operation word. *)
Definition write_ocw3 (s : PICCommonState) (val : Z) : PICCommonState :=
  let s := if has_bits val 0x04 then set_poll s 1 else s in
  let s := if has_bits val 0x02 then set_read_reg_select s (val &&& 1) else s in
  if has_bits val 0x40 then set_special_mask s ((val >> 5) &&& 1) else s.

(** The end-of-interrupt commands without a line, [cmd] 1 and 5. *)
Definition nonspecific_eoi (p : pics) (d : device) (cmd : Z) : pics :=
  let s := pic_of p d in
  let priority := get_priority s (isr s) in
  if negb (priority =? 8) then
    let irq := (priority + priority_add s) &&& 7 in
    let s := set_isr s (clear8 (isr s) (1 << irq)) in
    let s := if cmd =? 5 then set_priority_add s ((irq + 1) &&& 7) else s in
    pic_update_irq (set_pic p d s) d
  else p.

(** The second operation word. *)
Definition write_ocw2 (p : pics) (d : device) (val : Z) : pics :=
  let s := pic_of p d in
  let cmd := val >> 5 in
  if (cmd =? 0) || (cmd =? 4) then set_pic p d (set_rotate_on_auto_eoi s (cmd >> 2))
  else if (cmd =? 1) || (cmd =? 5) then nonspecific_eoi p d cmd
  else if cmd =? 3 then
    pic_update_irq (set_pic p d (set_isr s (clear8 (isr s) (1 << (val &&& 7))))) d
  else if cmd =? 6 then
    pic_update_irq (set_pic p d (set_priority_add s (u32 (val + 1) &&& 7))) d
  else if cmd =? 7 then
    let irq := val &&& 7 in
    let s := set_isr s (clear8 (isr s) (1 << irq)) in
    pic_update_irq (set_pic p d (set_priority_add s ((irq + 1) &&& 7))) d
  else p.

(** A write to the second port: the mask, or the next initialisation word. *)
Definition write_data (p : pics) (d : device) (val : Z) : pics :=
  let s := pic_of p d in
  if init_state s =? 0 then pic_update_irq (set_pic p d (set_imr s (u8 val))) d
  else if init_state s =? 1 then
    let s := set_irq_base s (val &&& 0xf8) in
    set_pic p d (set_init_state s
      (if negb (single_mode s =? 0) then (if negb (init4 s =? 0) then 3 else 0) else 2))
  else if init_state s =? 2 then
    set_pic p d (set_init_state s (if negb (init4 s =? 0) then 3 else 0))
  else if init_state s =? 3 then
    let s := set_special_fully_nested_mode s ((val >> 4) &&& 1) in
    let s := set_auto_eoi s ((val >> 1) &&& 1) in
    set_pic p d (set_init_state s 0)
  else p.

Definition pic_ioport_write (p : pics) (d : device) (addr64 val64 : Z) : pics :=
  let addr := u32 addr64 in
  let val := u32 val64 in
  if addr =? 0 then
    if has_bits val 0x10 then write_icw1 p d val
    else if has_bits val 0x08 then set_pic p d (write_ocw3 (pic_of p d) val)
    else write_ocw2 p d val
  else write_data p d val.

Definition pic_ioport_read (p : pics) (d : device) (addr : Z) : pics * Z :=
  let s := pic_of p d in
  if negb (poll s =? 0) then
    let ret := pic_get_irq s in
    let '(p, ret) := if 0 <=? ret then (pic_intack p d ret, ret ||| 0x80) else (p, 0) in
    (set_pic p d (set_poll (pic_of p d) 0), ret)
  else
    (p, if addr =? 0 then (if negb (read_reg_select s =? 0) then isr s else irr s) else imr s).

Definition pic_get_output (s : PICCommonState) : bool := 0 <=? pic_get_irq s.

Definition elcr_ioport_write (p : pics) (d : device) (val : Z) : pics :=
  set_pic p d (set_elcr (pic_of p d) (u8 (val &&& elcr_mask (pic_of p d)))).

Definition elcr_ioport_read (s : PICCommonState) : Z := elcr s.

(** ** Well-formed controllers *)

Definition byte (x : Z) : Prop := 0 <= x < 2 ^ 8.

Record pic_ok (s : PICCommonState) : Prop := {
  ok_last_irr : byte (last_irr s);
  ok_irr : byte (irr s);
  ok_imr : byte (imr s);
  ok_isr : byte (isr s);
  ok_elcr : byte (elcr s);
  ok_priority_add : 0 <= priority_add s < 8;
}.

(** ** Which interrupt a controller asks for *)

(** Level 0 is the highest priority; [priority_add] is the line that has it. *)
Definition level_of (s : PICCommonState) (i : Z) : Z := (i - priority_add s) mod 8.

Definition requested (s : PICCommonState) (i : Z) : bool :=
  Z.testbit (irr s) i && negb (Z.testbit (imr s) i).

(** Lines in service that hold back others. *)
Definition in_service (s : PICCommonState) (i : Z) : bool :=
  Z.testbit (isr s) i
  && negb (negb (special_mask s =? 0) && Z.testbit (imr s) i)
  && negb (negb (special_fully_nested_mode s =? 0) && master s && (i =? 2)).

Lemma land7 x : x &&& 7 = x mod 8.
Proof. change 7 with (Z.ones 3). rewrite Z.land_ones by lia. done. Qed.

Lemma byte_bit_high x i : byte x -> 8 <= i -> Z.testbit x i = false.
Proof. intros Hx Hi. exact (testbit_high 8 x i Hx Hi). Qed.

Lemma byte_nonzero x : byte x -> x <> 0 -> exists j, 0 <= j < 8 /\ Z.testbit x j = true.
Proof.
  intros [H0 H1] Hx. exists (Z.log2 x). split; [|apply Z.bit_log2; lia].
  split; [apply Z.log2_nonneg|apply Z.log2_lt_pow2; lia].
Qed.

Lemma land_bit_zero x k : 0 <= k -> ((x &&& (1 << k)) =? 0) = negb (Z.testbit x k).
Proof.
  intros Hk. rewrite <- has_bits_pow2 by done. unfold has_bits.
  rewrite Z.shiftl_mul_pow2, Z.mul_1_l, negb_involutive by done. done.
Qed.

Lemma has_bit x k : 0 <= k -> has_bits x (1 << k) = Z.testbit x k.
Proof. intros Hk. unfold has_bits. rewrite land_bit_zero by done. apply negb_involutive. Qed.

Lemma priority_loop_lead fuel add mask p :
  priority_loop fuel add mask p
  = p + lead fuel (fun i => Z.testbit mask ((p + i + add) mod 8)).
Proof.
  revert p. induction fuel as [|fuel IH]; intros p; cbn [priority_loop lead]; [lia|].
  rewrite land7, land_bit_zero, Z.add_0_r by (apply Z.mod_pos_bound; lia).
  destruct (Z.testbit _ _); simpl; [lia|]. rewrite IH, <- Z.add_assoc. do 2 f_equal.
  apply lead_ext. intros i _. f_equal. f_equal. lia.
Qed.

Lemma level_range s i : 0 <= level_of s i < 8.
Proof. apply Z.mod_pos_bound. lia. Qed.

Lemma level_line s p : 0 <= p < 8 -> level_of s ((p + priority_add s) mod 8) = p.
Proof. intros Hp. unfold level_of. rewrite Zminus_mod_idemp_l, Z.add_simpl_r. apply Z.mod_small. done. Qed.

Lemma line_level s j : 0 <= j < 8 -> (level_of s j + priority_add s) mod 8 = j.
Proof. intros Hj. unfold level_of. rewrite Zplus_mod_idemp_l, Z.sub_add. apply Z.mod_small. done. Qed.

(** [get_priority] is the smallest level of the lines in the mask. *)
Lemma get_priority_spec s mask :
  byte mask ->
  let r := get_priority s mask in
  0 <= r <= 8
  /\ (r < 8 -> Z.testbit mask ((r + priority_add s) mod 8) = true)
  /\ (forall j, 0 <= j < 8 -> Z.testbit mask j = true -> r <= level_of s j).
Proof.
  intros Hm r. unfold r, get_priority. destruct (Z.eqb_spec mask 0) as [->|Hz].
  { split; [lia|]. split; [lia|]. intros j _. rewrite Z.testbit_0_l. done. }
  rewrite priority_loop_lead, Z.add_0_l.
  set (f := fun i => _). destruct (lead_spec 8 f) as (H1 & H2 & H3).
  split; [lia|]. split; [exact H3|]. intros j Hj Hb. pose proof (level_range s j).
  destruct (Z.le_gt_cases (lead 8 f) (level_of s j)) as [?|Hlt]; [done|].
  assert (f (level_of s j) = true) as Hf.
  { unfold f. rewrite Z.add_0_l, line_level by done. done. }
  rewrite H2 in Hf by lia. done.
Qed.

Lemma get_priority_none s mask : byte mask -> (get_priority s mask = 8 <-> mask = 0).
Proof.
  intros Hm. split; [|intros ->; done]. intros E.
  destruct (Z.eq_dec mask 0) as [?|Hz]; [done|].
  destruct (byte_nonzero mask Hm Hz) as (j & Hj & Hb).
  destruct (get_priority_spec s mask Hm) as (_ & _ & H). specialize (H j Hj Hb).
  pose proof (level_range s j). lia.
Qed.

(** The masks [pic_get_irq] gives to [get_priority]. *)
Definition request_mask (s : PICCommonState) : Z := irr s &&& Z.lnot (imr s).
Definition service_mask (s : PICCommonState) : Z :=
  let mask := isr s in
  let mask := if negb (special_mask s =? 0) then mask &&& Z.lnot (imr s) else mask in
  if negb (special_fully_nested_mode s =? 0) && master s
  then mask &&& Z.lnot (1 << 2) else mask.

Lemma request_mask_ok s : pic_ok s -> byte (request_mask s).
Proof. intros []. apply land_range_l; [lia|done]. Qed.

Lemma service_mask_ok s : pic_ok s -> byte (service_mask s).
Proof.
  intros []. unfold service_mask, byte in *.
  repeat case_match; try done; repeat (apply land_range_l; [lia|]); done.
Qed.

Lemma request_mask_bit s i : 0 <= i -> Z.testbit (request_mask s) i = requested s i.
Proof. intros Hi. unfold request_mask, requested. autorewrite with bits.
  destruct (Z.leb_spec 0 i); [done|lia]. Qed.

Lemma service_mask_bit s i : 0 <= i -> Z.testbit (service_mask s) i = in_service s i.
Proof.
  intros Hi. unfold service_mask, in_service.
  assert (Z.testbit (1 << 2) i = (i =? 2)) as E2.
  { change (1 << 2) with (2 ^ 2). apply testbit_pow2. lia. }
  destruct (negb (special_mask s =? 0)), (negb (special_fully_nested_mode s =? 0)), (master s);
    cbn [andb negb]; rewrite ?Z.land_spec, ?testbit_lnot, ?E2, ?andb_true_r, ?andb_false_r;
    destruct (Z.leb_spec 0 i); try lia; done.
Qed.

Lemma pic_get_irq_unfold s :
  pic_get_irq s
  = let r := get_priority s (request_mask s) in
    if r =? 8 then -1
    else if r <? get_priority s (service_mask s) then (r + priority_add s) mod 8 else -1.
Proof. unfold pic_get_irq. rewrite land7. done. Qed.

Lemma mod8_range x : 0 <= x mod 8 < 8.
Proof. apply Z.mod_pos_bound. lia. Qed.

Lemma get_irq_delivers s :
  pic_ok s -> 0 <= pic_get_irq s ->
  pic_get_irq s < 8 /\ requested s (pic_get_irq s) = true
  /\ (forall j, 0 <= j < 8 -> requested s j = true -> level_of s (pic_get_irq s) <= level_of s j)
  /\ (forall j, 0 <= j < 8 -> in_service s j = true -> level_of s (pic_get_irq s) < level_of s j).
Proof.
  intros Hok Hi.
  destruct (get_priority_spec s (request_mask s) (request_mask_ok s Hok)) as (R1 & R2 & R3).
  destruct (get_priority_spec s (service_mask s) (service_mask_ok s Hok)) as (_ & _ & S3).
  rewrite pic_get_irq_unfold in *. cbv zeta in *.
  set (r := get_priority s (request_mask s)) in *. set (c := get_priority s (service_mask s)) in *.
  destruct (Z.eqb_spec r 8); [lia|]. destruct (Z.ltb_spec r c); [|lia].
  split; [apply mod8_range|]. rewrite level_line by lia.
  rewrite <- request_mask_bit by apply mod8_range. split; [apply R2; lia|]. split.
  - intros j Hj Hb. apply R3; [done|]. rewrite request_mask_bit by lia. done.
  - intros j Hj Hb. enough (c <= level_of s j) by lia. apply S3; [done|].
    rewrite service_mask_bit by lia. done.
Qed.

Lemma get_irq_silent s :
  pic_ok s -> pic_get_irq s < 0 ->
  pic_get_irq s = -1
  /\ forall j, 0 <= j < 8 -> requested s j = true ->
     exists k, 0 <= k < 8 /\ in_service s k = true /\ level_of s k <= level_of s j.
Proof.
  intros Hok Hi.
  destruct (get_priority_spec s (request_mask s) (request_mask_ok s Hok)) as (R1 & _ & R3).
  destruct (get_priority_spec s (service_mask s) (service_mask_ok s Hok)) as (S1 & S2 & _).
  rewrite pic_get_irq_unfold in *. cbv zeta in *.
  set (r := get_priority s (request_mask s)) in *. set (c := get_priority s (service_mask s)) in *.
  pose proof (mod8_range (r + priority_add s)).
  assert (r = 8 \/ c <= r) as Hr.
  { destruct (Z.eqb_spec r 8), (Z.ltb_spec r c); lia. }
  split; [destruct (Z.eqb_spec r 8), (Z.ltb_spec r c); lia|]. intros j Hj Hb. rewrite <- request_mask_bit in Hb by lia.
  apply R3 in Hb; [|done]. pose proof (level_range s j).
  exists ((c + priority_add s) mod 8).
  rewrite level_line, <- service_mask_bit by (apply mod8_range || lia).
  split; [apply mod8_range|]. split; [apply S2; lia|lia].
Qed.

Lemma get_priority_stops s mask :
  byte mask -> mask <> 0 ->
  (mask &&& (1 << ((get_priority s mask + priority_add s) &&& 7))) <> 0.
Proof.
  intros Hm Hz. destruct (get_priority_spec s mask Hm) as (M1 & M2 & _).
  pose proof (get_priority_none s mask Hm).
  apply Z.eqb_neq. rewrite land7, land_bit_zero by apply mod8_range. rewrite M2 by lia. done.
Qed.

(** C27: [pic_get_irq] gives the requested, unmasked line of highest priority
    when its priority is above that of every line in service, and -1 exactly
    when no request has such a priority.  The loop of [get_priority] stops on
    every mask the registers can hold. *)
Theorem pic_get_irq_correct s :
  pic_ok s ->
  let i := pic_get_irq s in
  (0 <= i ->
   i < 8 /\ requested s i = true
   /\ (forall j, 0 <= j < 8 -> requested s j = true -> level_of s i <= level_of s j)
   /\ (forall j, 0 <= j < 8 -> in_service s j = true -> level_of s i < level_of s j))
  /\ (i < 0 ->
      i = -1
      /\ forall j, 0 <= j < 8 -> requested s j = true ->
         exists k, 0 <= k < 8 /\ in_service s k = true /\ level_of s k <= level_of s j)
  /\ (forall mask, byte mask -> mask <> 0 ->
      (mask &&& (1 << ((get_priority s mask + priority_add s) &&& 7))) <> 0).
Proof.
  intros Hok i. split; [apply get_irq_delivers, Hok|].
  split; [apply get_irq_silent, Hok|apply get_priority_stops].
Qed.

(** Lines 1, 3 and 6 requested, 3 masked, 6 in service; 5 is the highest. *)
Definition sample_pic : PICCommonState :=
  Build_PICCommonState 0x4a 0x4a 0x08 0x40 5 0x20 0 0 0 0 0 0 0 0 0 0 0xf8 true.

Lemma pic_get_irq_correct_witness :
  pic_ok sample_pic /\ pic_get_irq sample_pic = -1
  /\ exists k, 0 <= k < 8 /\ in_service sample_pic k = true /\ level_of sample_pic k <= 4.
Proof.
  assert (pic_ok sample_pic) as H by (constructor; vm_compute; split; congruence).
  split; [done|]. split; [vm_compute; reflexivity|].
  destruct (pic_get_irq_correct sample_pic H) as (_ & Hs & _).
  destruct (Hs eq_refl) as [_ Hk]. apply (Hk 1); [lia|reflexivity].
Defined.

(** ** The wires follow the registers *)

(** What the processor, the devices and the guest do to the controllers. *)
Inductive pic_op :=
| SetIrq (d : device) (irq : Z) (level : bool)
| ReadIrq
| IoWrite (d : device) (addr val : Z)
| IoRead (d : device) (addr : Z)
| ElcrWrite (d : device) (val : Z)
| Reset (d : device).

Definition exec_op (p : pics) (op : pic_op) : pics :=
  match op with
  | SetIrq d irq level => pic_set_irq p d irq level
  | ReadIrq => (pic_read_irq p).1
  | IoWrite d addr val => pic_ioport_write p d addr val
  | IoRead d addr => (pic_ioport_read p d addr).1
  | ElcrWrite d val => elcr_ioport_write p d val
  | Reset d => pic_reset p d
  end.

(** The writes that change an input of [pic_get_irq] without calling
    [pic_update_irq]: the special mask of the third operation word, and the
    special fully nested mode of the fourth initialisation word. *)
Definition silent_change (p : pics) (op : pic_op) : bool :=
  match op with
  | IoWrite d addr64 val64 =>
      let s := pic_of p d in
      let val := u32 val64 in
      if u32 addr64 =? 0 then
        negb (has_bits val 0x10) && has_bits val 0x08 && has_bits val 0x40
        && negb (((val >> 5) &&& 1) =? special_mask s)
      else (init_state s =? 3) && negb (((val >> 4) &&& 1) =? special_fully_nested_mode s)
  | _ => false
  end.

Record in_sync (p : pics) : Prop := {
  sync_parent : parent_int p = pic_get_output (isa_pic p);
  sync_slave : slave_int p = pic_get_output (slave_pic p);
}.

Record pics_ok (p : pics) : Prop := {
  ok_isa : pic_ok (isa_pic p);
  ok_slave : pic_ok (slave_pic p);
}.

Definition power_on (mask : Z) (m : bool) : PICCommonState :=
  Build_PICCommonState 0 0 0 0 0 0 0 0 0 0 0 0 0 0 0 0 mask m.

(** The controllers as [i8259_init] connects them; the masks of the trigger
    registers are those of [i8259_init_chip]. *)
Definition initial : pics :=
  {| isa_pic := power_on 0xf8 true; slave_pic := power_on 0xde false;
     parent_int := false; slave_int := false |}.

Inductive reachable : pics -> Prop :=
| reachable_initial : reachable initial
| reachable_op p op :
    reachable p -> silent_change p op = false -> reachable (exec_op p op).

(** Registers keep their width. *)

Lemma u8_byte x : byte (u8 x).
Proof. apply wrap_range. lia. Qed.

Lemma clear8_byte x m : byte x -> byte (clear8 x m).
Proof. apply land_range_l. lia. Qed.

Lemma land7_range x : 0 <= x &&& 7 < 8.
Proof. rewrite land7. apply Z.mod_pos_bound. lia. Qed.

#[local] Hint Resolve u8_byte clear8_byte land7_range : core.

Ltac pic_regs s H := destruct s, H; constructor; simpl in *; auto.

Lemma set_irq_regs_ok s irq level : pic_ok s -> pic_ok (set_irq_regs s irq level).
Proof. intros H. unfold set_irq_regs. repeat case_match; pic_regs s H. Qed.

Lemma intack_regs_ok s irq : pic_ok s -> pic_ok (intack_regs s irq).
Proof.
  intros H. unfold intack_regs. destruct (negb (auto_eoi s =? 0)), (negb (rotate_on_auto_eoi s =? 0));
    case_match; pic_regs s H.
Qed.

Lemma reset_ok s : pic_ok s -> pic_ok (pic_reset_common s).
Proof.
  intros H. pose proof (land_range_l 8 _ (elcr s) ltac:(lia) (ok_irr s H)).
  destruct H. constructor; simpl; unfold byte in *; lia || done.
Qed.

Lemma write_ocw3_ok s val : pic_ok s -> pic_ok (write_ocw3 s val).
Proof. intros H. unfold write_ocw3. repeat case_match; pic_regs s H. Qed.

Lemma pic_of_ok p d : pics_ok p -> pic_ok (pic_of p d).
Proof. intros []. destruct d; done. Qed.

Lemma pic_of_set p d s : pic_of (set_pic p d s) d = s.
Proof. destruct d; done. Qed.

Lemma set_pic_ok p d s : pics_ok p -> pic_ok s -> pics_ok (set_pic p d s).
Proof. intros [] Hs. destruct d; constructor; done. Qed.

Lemma update_ok p d : pics_ok p -> pics_ok (pic_update_irq p d).
Proof. intros []. destruct d; constructor; simpl; auto using set_irq_regs_ok. Qed.

(** Two ways to stay in sync: to update, or to leave the output alone. *)

Definition good (p : pics) : Prop := pics_ok p /\ in_sync p.

Lemma good_update p d s : good p -> pic_ok s -> good (pic_update_irq (set_pic p d s) d).
Proof.
  intros [H []] Hs. split; [auto using update_ok, set_pic_ok|]. destruct d; constructor; done.
Qed.

Lemma good_quiet p d s :
  good p -> pic_ok s -> pic_get_irq s = pic_get_irq (pic_of p d) -> good (set_pic p d s).
Proof.
  intros [H []] Hs E. split; [auto using set_pic_ok|].
  destruct d; constructor; simpl in *; unfold pic_get_output in *; rewrite ?E; done.
Qed.

#[local] Hint Resolve pic_of_ok set_irq_regs_ok intack_regs_ok reset_ok write_ocw3_ok
  good_update : core.

Lemma good_pic p d : good p -> pic_ok (pic_of p d).
Proof. intros []. auto. Qed.

Lemma good_intack p d irq : good p -> good (pic_intack p d irq).
Proof. intros H. apply good_update; [done|]. apply intack_regs_ok, good_pic, H. Qed.

Lemma good_init_reset p d : good p -> good (pic_init_reset p d).
Proof. intros H. apply good_update; [done|]. apply reset_ok, good_pic, H. Qed.

Lemma good_read_irq p : good p -> good (pic_read_irq p).1.
Proof.
  intros H. unfold pic_read_irq. destruct (0 <=? pic_get_irq (isa_pic p)); [|done].
  destruct (_ =? 2), (0 <=? pic_get_irq (slave_pic p)); cbn [fst]; auto using good_intack.
Qed.

Lemma good_ioport_read p d addr : good p -> good (pic_ioport_read p d addr).1.
Proof.
  intros H. unfold pic_ioport_read. destruct (negb _); [|done].
  destruct (0 <=? _); cbn [fst].
  - apply (good_intack p d (pic_get_irq (pic_of p d))) in H. set (q := pic_intack _ _ _) in *.
    pose proof (good_pic q d H) as Hq.
    apply good_quiet; [done| |]; destruct (pic_of q d); [|done]. destruct Hq. constructor; done.
  - pose proof (good_pic p d H) as Hq.
    apply good_quiet; [done| |]; destruct (pic_of p d); [|done]. destruct Hq. constructor; done.
Qed.

Lemma good_icw1 p d val : good p -> good (write_icw1 p d val).
Proof.
  intros H%(good_init_reset p d). unfold write_icw1. set (q := pic_init_reset p d) in *.
  pose proof (good_pic q d H) as Hq.
  apply good_quiet; [done| |]; destruct (pic_of q d); [|done]. destruct Hq. constructor; done.
Qed.

Lemma good_ocw2 p d val : good p -> good (write_ocw2 p d val).
Proof.
  intros H. pose proof (good_pic p d H) as Hs. unfold write_ocw2, nonspecific_eoi.
  set (s := pic_of p d) in *.
  case_match.
  { apply good_quiet; [done| |]; fold s; destruct s; [|done]. destruct Hs. constructor; done. }
  repeat case_match; try done; apply good_update; try done; pic_regs s Hs.
Qed.

Lemma good_ocw3 p d val :
  good p ->
  has_bits val 0x40 && negb (((val >> 5) &&& 1) =? special_mask (pic_of p d)) = false ->
  good (set_pic p d (write_ocw3 (pic_of p d) val)).
Proof.
  intros H Hq. apply good_quiet; [done|apply write_ocw3_ok, good_pic, H|].
  unfold write_ocw3. destruct (pic_of p d), (has_bits val 0x04), (has_bits val 0x02); simpl in *;
    destruct (has_bits val 0x40); try done; simpl in *;
    apply negb_false_iff, Z.eqb_eq in Hq; rewrite Hq; done.
Qed.

Lemma good_data p d val :
  good p ->
  (init_state (pic_of p d) =? 3)
  && negb (((val >> 4) &&& 1) =? special_fully_nested_mode (pic_of p d)) = false ->
  good (write_data p d val).
Proof.
  intros H Hq. pose proof (good_pic p d H) as Hs. unfold write_data.
  destruct (init_state (pic_of p d) =? 0).
  { apply good_update; [done|]. pic_regs (pic_of p d) Hs. }
  destruct (init_state (pic_of p d) =? 1).
  { apply good_quiet; [done| |]; destruct (pic_of p d); [|done]. destruct Hs. constructor; done. }
  destruct (init_state (pic_of p d) =? 2).
  { apply good_quiet; [done| |]; destruct (pic_of p d); [|done]. destruct Hs. constructor; done. }
  destruct (init_state (pic_of p d) =? 3); [|done].
  apply negb_false_iff, Z.eqb_eq in Hq.
  apply good_quiet; [done| |]; destruct (pic_of p d); simpl in *; [destruct Hs; constructor; done|].
  rewrite Hq. done.
Qed.

Lemma good_op p op : good p -> silent_change p op = false -> good (exec_op p op).
Proof.
  intros H Hq. destruct op as [d irq level| |d addr val|d addr|d val|d]; cbn [exec_op].
  - apply good_update; [done|]. apply set_irq_regs_ok, good_pic, H.
  - apply good_read_irq, H.
  - cbn [silent_change] in Hq. unfold pic_ioport_write. destruct (u32 addr =? 0).
    + destruct (has_bits (u32 val) 0x10); [apply good_icw1, H|].
      destruct (has_bits (u32 val) 0x08); [apply good_ocw3; done|apply good_ocw2, H].
    + apply good_data; done.
  - apply good_ioport_read, H.
  - pose proof (good_pic p d H) as Hs.
    apply good_quiet; [done| |]; destruct (pic_of p d); [|done]. destruct Hs. constructor; simpl; auto.
  - apply good_init_reset. pose proof (good_pic p d H) as Hs.
    apply good_quiet; [done| |]; destruct (pic_of p d); [|done]. destruct Hs. constructor; done.
Qed.

(** C28: from power on, through any sequence of line changes, acknowledgements,
    port accesses and resets except the two writes of [silent_change], every
    register keeps its width and the INT wires of both controllers are high
    exactly when the controller has an interrupt to deliver. *)
Theorem pic_output_in_sync p :
  reachable p ->
  pics_ok p
  /\ parent_int p = pic_get_output (isa_pic p)
  /\ slave_int p = pic_get_output (slave_pic p).
Proof.
  intros Hr. assert (good p) as [Hok [H1 H2]]; [|done].
  induction Hr as [|p op _ IH Hq]; [|apply good_op; done].
  split; constructor; try done; constructor; done.
Qed.

(** The keyboard's line, then the clock's of the slave, from power on. *)
Definition sample_ops : list pic_op :=
  [IoWrite Master 0 0x11; IoWrite Master 1 0x20; IoWrite Master 1 4; IoWrite Master 1 1;
   SetIrq Master 1 true; ReadIrq; SetIrq Slave 0 true].

Lemma reachable_ops p ops q :
  reachable p ->
  fold_left (fun r op => p ← r; if silent_change p op then None else Some (exec_op p op))
    ops (Some p) = Some q ->
  reachable q.
Proof.
  revert p. induction ops as [|op ops IH]; intros p Hp E; [by simplify_eq/=|].
  simpl in E. destruct (silent_change p op) eqn:Eq.
  - exfalso. clear -E. induction ops; [done|auto].
  - apply (IH (exec_op p op)); [|done]. by constructor.
Qed.

Lemma pic_output_in_sync_witness :
  let p := fold_left exec_op sample_ops initial in
  parent_int p = pic_get_output (isa_pic p) /\ slave_int p = true.
Proof.
  intros p. split; [|vm_compute; reflexivity].
  apply (pic_output_in_sync p), (reachable_ops initial sample_ops); [constructor|].
  vm_compute. reflexivity.
Defined.

(** The exceptions are real.  A guest that masks the line in service and
    then turns the special mask mode on has a request on another line that is
    to be delivered at once; the controller has it ([pic_get_output]), the
    wire to the processor stays low. *)
Lemma pic_special_mask_stale :
  exists p op,
    reachable p
    /\ op = IoWrite Master 0 0x68
    /\ pic_get_irq (isa_pic (exec_op p op)) = 3
    /\ pic_get_output (isa_pic (exec_op p op)) = true
    /\ parent_int (exec_op p op) = false.
Proof.
  exists (fold_left exec_op
            [SetIrq Master 1 true; ReadIrq; SetIrq Master 3 true; IoWrite Master 1 0x02] initial).
  exists (IoWrite Master 0 0x68). split; [|vm_compute; repeat split].
  apply (reachable_ops initial
           [SetIrq Master 1 true; ReadIrq; SetIrq Master 3 true; IoWrite Master 1 0x02]);
    [constructor|]. vm_compute. reflexivity.
Qed.

(** ** Acknowledgement and end of interrupt *)

Lemma testbit_bit k i : 0 <= k -> Z.testbit (1 << k) i = (i =? k).
Proof. intros Hk. rewrite Z.shiftl_mul_pow2, Z.mul_1_l by done. apply testbit_pow2. done. Qed.

Lemma clear8_bit x k i :
  0 <= i -> 0 <= k -> byte x -> Z.testbit (clear8 x (1 << k)) i = Z.testbit x i && negb (i =? k).
Proof.
  intros Hi Hk Hx. unfold clear8. rewrite Z.land_spec, testbit_wrap, testbit_lnot, testbit_bit by lia.
  destruct (Z.ltb_spec i 8), (Z.leb_spec 0 i); try lia; [done|]. by rewrite (byte_bit_high x i).
Qed.

Lemma set8_bit x k i :
  0 <= i -> 0 <= k < 8 -> byte x -> Z.testbit (u8 (x ||| (1 << k))) i = Z.testbit x i || (i =? k).
Proof.
  intros Hi Hk Hx. rewrite testbit_wrap, Z.lor_spec, testbit_bit by lia.
  destruct (Z.ltb_spec i 8); [done|]. rewrite (byte_bit_high x i) by done.
  destruct (Z.eqb_spec i k); [lia|done].
Qed.

Lemma clear8_set8 x k :
  0 <= k < 8 -> byte x -> Z.testbit x k = false -> clear8 (u8 (x ||| (1 << k))) (1 << k) = x.
Proof.
  intros Hk Hx Hb. apply Z.bits_inj'. intros i Hi.
  rewrite clear8_bit, set8_bit by (auto; lia). destruct (Z.eqb_spec i k) as [->|].
  - rewrite Hb. done.
  - by rewrite orb_false_r, andb_true_r.
Qed.

(** Plain operation: every line in service holds back the lower ones, and an
    acknowledged line stays in service until the guest ends it. *)
Record plain_mode (s : PICCommonState) : Prop := {
  plain_eoi : auto_eoi s = 0;
  plain_mask : special_mask s = 0;
  plain_nested : special_fully_nested_mode s = 0;
}.

Lemma plain_in_service s i : plain_mode s -> in_service s i = Z.testbit (isr s) i.
Proof.
  intros [_ E1 E2]. unfold in_service. rewrite E1, E2. simpl. by rewrite !andb_true_r.
Qed.

Record acked (s t : PICCommonState) (irq : Z) : Prop := {
  acked_isr : isr t = u8 (isr s ||| (1 << irq));
  acked_irr : irr t = irr s \/ irr t = clear8 (irr s) (1 << irq);
  acked_imr : imr t = imr s;
  acked_add : priority_add t = priority_add s;
  acked_plain : plain_mode t;
}.

Lemma intack_acked s irq : plain_mode s -> acked s (intack_regs s irq) irq.
Proof.
  intros [E1 E2 E3]. unfold intack_regs. rewrite E1. simpl.
  destruct (has_bits _ _), s; simpl in *; constructor; simpl; auto; constructor; done.
Qed.

Lemma acked_silent s t :
  pic_ok s -> pic_ok t -> 0 <= pic_get_irq s -> acked s t (pic_get_irq s) -> pic_get_output t = false.
Proof.
  intros Hs Ht Hi [A1 A2 A3 A4 A5]. destruct (get_irq_delivers s Hs Hi) as (H1 & _ & H3 & _).
  set (i := pic_get_irq s) in *. apply Z.leb_gt. apply Z.lt_nge. intros Hj.
  destruct (get_irq_delivers t Ht Hj) as (J1 & J2 & _ & J4). set (j := pic_get_irq t) in *.
  assert (requested s j = true) as Hr.
  { unfold requested in *. rewrite A3 in J2. destruct A2 as [A2|A2]; rewrite A2 in J2; [done|].
    rewrite clear8_bit in J2 by (apply Hs || lia). by destruct (Z.testbit (irr s) j), (j =? i). }
  apply H3 in Hr; [|lia]. specialize (J4 i). rewrite plain_in_service, A1 in J4 by done.
  rewrite set8_bit, Z.eqb_refl, orb_true_r in J4 by (apply Hs || lia).
  unfold level_of in *. rewrite A4 in J4. specialize (J4 ltac:(lia) eq_refl). lia.
Qed.

(** The line a non-specific end of interrupt takes out of service. *)
Lemma acked_eoi s t :
  pic_ok s -> pic_ok t -> plain_mode s -> 0 <= pic_get_irq s -> acked s t (pic_get_irq s) ->
  Z.testbit (isr s) (pic_get_irq s) = false
  /\ get_priority t (isr t) <> 8
  /\ (get_priority t (isr t) + priority_add t) &&& 7 = pic_get_irq s.
Proof.
  intros Hs Ht Hp Hi [A1 A2 A3 A4 A5]. destruct (get_irq_delivers s Hs Hi) as (H1 & _ & _ & H4).
  set (i := pic_get_irq s) in *.
  destruct (get_priority_spec t (isr t) (ok_isr t Ht)) as (P1 & P2 & P3).
  set (r := get_priority t (isr t)) in *. rewrite land7.
  assert (forall j, 0 <= j -> Z.testbit (isr t) j = Z.testbit (isr s) j || (j =? i)) as Hbit.
  { intros j Hj. rewrite A1. apply set8_bit; [done|lia|apply Hs]. }
  assert (r <= level_of t i) as Hle by (apply P3; [lia|]; rewrite Hbit, Z.eqb_refl, orb_true_r by lia; done).
  pose proof (level_range t i). assert (forall j, level_of t j = level_of s j) as El.
  { intros j. unfold level_of. by rewrite A4. }
  split; [|split; [lia|]].
  - apply not_true_is_false. intros Hb. specialize (H4 i). rewrite plain_in_service in H4 by done.
    specialize (H4 ltac:(lia) Hb). lia.
  - specialize (P2 ltac:(lia)). rewrite Hbit in P2 by apply mod8_range.
    destruct (Z.eqb_spec ((r + priority_add t) mod 8) i) as [|Hne]; [done|].
    rewrite orb_false_r in P2. specialize (H4 _ (mod8_range (r + priority_add t))).
    rewrite plain_in_service in H4 by done. specialize (H4 P2).
    rewrite <- !El, level_line in H4 by lia. lia.
Qed.

(** When the master delivers one of its own lines in plain mode, the
    processor gets the vector of that line, the line enters service, the wire
    to the processor goes low whatever else is requested, and the non-specific
    end of interrupt takes exactly that line out of service again.  The slave
    is not touched. *)
Lemma pic_ack_eoi p q intno :
  pics_ok p -> plain_mode (isa_pic p) ->
  let irq := pic_get_irq (isa_pic p) in
  0 <= irq -> irq <> 2 -> pic_read_irq p = (q, intno) ->
  intno = irq_base (isa_pic p) + irq
  /\ Z.testbit (isr (isa_pic p)) irq = false
  /\ Z.testbit (isr (isa_pic q)) irq = true
  /\ parent_int q = false
  /\ isr (isa_pic (pic_ioport_write q Master 0 0x20)) = isr (isa_pic p)
  /\ slave_pic (pic_ioport_write q Master 0 0x20) = slave_pic p.
Proof.
  intros [Hm Hsl] Hp irq Hi H2 E. unfold pic_read_irq in E. fold irq in E.
  destruct (Z.leb_spec 0 irq); [|lia]. destruct (Z.eqb_spec irq 2); [done|].
  injection E as <- <-. cbn [pic_intack pic_update_irq pic_update_master set_pic pic_of isa_pic
    slave_pic parent_int].
  set (s := isa_pic p) in *. set (t := intack_regs s irq).
  assert (acked s t irq) as Ha by (apply intack_acked; done).
  assert (pic_ok t) as Ht by (apply intack_regs_ok; done).
  destruct (get_irq_delivers s Hm Hi) as (H8 & _).
  destruct (acked_eoi s t Hm Ht Hp Hi Ha) as (B1 & B2 & B3).
  split; [done|]. split; [done|].
  split. { rewrite (acked_isr _ _ _ Ha), set8_bit, Z.eqb_refl, orb_true_r by (apply Hm || (unfold irq; lia)). done. }
  split; [exact (acked_silent s t Hm Ht Hi Ha)|].
  unfold pic_ioport_write. cbn -[t get_priority clear8 Z.land].
  unfold write_ocw2, nonspecific_eoi. cbn -[t get_priority clear8 Z.land].
  destruct (Z.eqb_spec (get_priority t (isr t)) 8) as [|_]; [done|].
  cbn -[t get_priority clear8 Z.land]. rewrite B3. split; [|done].
  transitivity (clear8 (isr t) (1 << irq)); [by destruct t|].
  rewrite (acked_isr _ _ _ Ha). apply clear8_set8; [unfold irq; lia|apply Hm|done].
Qed.

(** Line 6 requested while line 7 is in service. *)
Definition sample_pics : pics :=
  {| isa_pic := Build_PICCommonState 0xc0 0x40 0 0x80 0 0x20 0 0 0 0 0 0 0 1 0 0 0xf8 true;
     slave_pic := power_on 0xde false; parent_int := true; slave_int := false |}.

Lemma pic_ack_eoi_witness :
  (pic_read_irq sample_pics).2 = 0x26
  /\ isr (isa_pic (pic_ioport_write (pic_read_irq sample_pics).1 Master 0 0x20)) = 0x80.
Proof.
  split; [vm_compute; reflexivity|].
  refine (proj1 (proj2 (proj2 (proj2 (proj2
    (pic_ack_eoi sample_pics (pic_read_irq sample_pics).1 (pic_read_irq sample_pics).2
       _ _ _ _ _)))))).
  - split; constructor; vm_compute; split; congruence.
  - constructor; reflexivity.
  - vm_compute. congruence.
  - vm_compute. congruence.
  - vm_compute. reflexivity.
Defined.
