(* ===== verification/Int128.v ===== *)
(** * 128-bit integers

    Model of [src/include/qemu/int128.h]: signed 128-bit integers as a pair of
    a low unsigned and a high signed word, which memory.c uses for addresses
    and sizes up to 2^64.  Shown here: the operations are those of the
    integers, reduced to 128 bits where they can overflow. *)

From S2P Require Import Prelude HostUtils.

Record Int128 := { lo : Z; hi : Z }.

#[export] Instance Int128_eq_dec : EqDecision Int128.
Proof. solve_decision. Defined.

Definition int128_make64 (a : Z) : Int128 := {| lo := a; hi := 0 |}.

Definition int128_get64 (a : Int128) : outcome Z :=
  if hi a =? 0 then Ret (lo a) else Fault AssertFailed.

Definition int128_zero : Int128 := int128_make64 0.
Definition int128_one : Int128 := int128_make64 1.
Definition int128_2_64 : Int128 := {| lo := 0; hi := 1 |}.

Definition int128_exts64 (a : Z) : Int128 :=
  {| lo := u64 a; hi := if a <? 0 then -1 else 0 |}.

Definition int128_and (a b : Int128) : Int128 :=
  {| lo := lo a &&& lo b; hi := hi a &&& hi b |}.

Definition int128_rshift (a : Int128) (n : Z) : Int128 :=
  if n =? 0 then a
  else
    let h := hi a >> (n &&& 63) in
    if 64 <=? n then {| lo := u64 h; hi := h >> 63 |}
    else {| lo := (lo a >> n) ||| u64 (u64 (hi a) << (64 - n)); hi := h |}.

Definition int128_add (a b : Int128) : Int128 :=
  let l := u64 (lo a + lo b) in
  {| lo := l; hi := s64 (u64 (hi a) + u64 (hi b) + b2z (l <? lo a)) |}.

Definition int128_neg (a : Int128) : Int128 :=
  let l := u64 (- lo a) in
  {| lo := l; hi := s64 (u64 (Z.lnot (u64 (hi a))) + b2z (l =? 0)) |}.

Definition int128_sub (a b : Int128) : Int128 :=
  {| lo := u64 (lo a - lo b); hi := s64 (u64 (hi a) - u64 (hi b) - b2z (lo a <? lo b)) |}.

Definition int128_nonneg (a : Int128) : bool := 0 <=? hi a.
Definition int128_eq (a b : Int128) : bool := (lo a =? lo b) && (hi a =? hi b).
Definition int128_ne (a b : Int128) : bool := negb (int128_eq a b).
Definition int128_ge (a b : Int128) : bool :=
  (hi b <? hi a) || ((hi a =? hi b) && (lo b <=? lo a)).
Definition int128_lt (a b : Int128) : bool := negb (int128_ge a b).
Definition int128_le (a b : Int128) : bool := int128_ge b a.
Definition int128_gt (a b : Int128) : bool := negb (int128_le a b).
Definition int128_nz (a : Int128) : bool := negb (lo a =? 0) || negb (hi a =? 0).
Definition int128_min (a b : Int128) : Int128 := if int128_le a b then a else b.
Definition int128_max (a b : Int128) : Int128 := if int128_ge a b then a else b.

(** [int128_addto] and [int128_subfrom] assign the sum and the difference. *)
Definition int128_addto (a b : Int128) : Int128 := int128_add a b.
Definition int128_subfrom (a b : Int128) : Int128 := int128_sub a b.

(** ** The integer a pair stands for *)

Record ok128 (a : Int128) : Prop := {
  ok_lo : 0 <= lo a < 2 ^ 64;
  ok_hi : - 2 ^ 63 <= hi a < 2 ^ 63;
}.

Definition val (a : Int128) : Z := lo a + 2 ^ 64 * hi a.

(** [a] represents [x]. *)
Record rep (a : Int128) (x : Z) : Prop := {
  rep_ok : ok128 a;
  rep_val : val a = x;
}.

Definition in128 (x : Z) : Prop := - 2 ^ 127 <= x < 2 ^ 127.

Lemma rep_val_self a : ok128 a -> rep a (val a).
Proof. by constructor. Qed.

Lemma rep_in128 a x : rep a x -> in128 x.
Proof. intros [[] <-]. unfold in128, val. lia. Qed.

Lemma rep_inj a x y : rep a x -> rep a y -> x = y.
Proof. intros [_ <-] [_ <-]. done. Qed.

Lemma rep_fun a b x : rep a x -> rep b x -> a = b.
Proof.
  intros [[Ha1 Ha2] <-] [[Hb1 Hb2] E]. destruct a as [l h], b as [l' h']. unfold val in E.
  simpl in *. assert (h = h') by lia. assert (l = l') by lia. by subst.
Qed.

Lemma sext_mod w x y : wrap w x = wrap w y -> sext w x = sext w y.
Proof. unfold sext. by intros ->. Qed.

Lemma sext_words l h :
  0 <= l < 2 ^ 64 -> l + 2 ^ 64 * s64 h = sext 128 (l + 2 ^ 64 * h).
Proof.
  intros Hl. pose proof (sext_range 64 h ltac:(lia)).
  rewrite <- (sext_small 128 (l + 2 ^ 64 * s64 h)) by lia.
  apply sext_mod. pose proof (wrap_sext 64 h ltac:(lia)) as E. unfold wrap in *. mlia.
Qed.

(** Low and high words that add up to [x] up to a multiple of 2^128. *)
Lemma rep_words l h x :
  0 <= l < 2 ^ 64 -> wrap 128 (l + 2 ^ 64 * h) = wrap 128 x ->
  rep {| lo := l; hi := s64 h |} (sext 128 x).
Proof.
  intros Hl E. split; [constructor; simpl; [done|apply (sext_range 64); lia]|].
  unfold val. simpl. rewrite sext_words by done. apply sext_mod. done.
Qed.

Lemma rep_add_sext a b x y :
  rep a x -> rep b y -> rep (int128_add a b) (sext 128 (x + y)).
Proof.
  intros [[Ha1 Ha2] <-] [[Hb1 Hb2] <-]. apply rep_words; [apply wrap_range; lia|].
  unfold val, wrap, b2z. zcase; mlia.
Qed.

Lemma rep_sub_sext a b x y :
  rep a x -> rep b y -> rep (int128_sub a b) (sext 128 (x - y)).
Proof.
  intros [[Ha1 Ha2] <-] [[Hb1 Hb2] <-]. apply rep_words; [apply wrap_range; lia|].
  unfold val, wrap, b2z. zcase; mlia.
Qed.

Lemma rep_neg_sext a x : rep a x -> rep (int128_neg a) (sext 128 (- x)).
Proof.
  intros [[Ha1 Ha2] <-]. apply rep_words; [apply wrap_range; lia|].
  unfold val, Z.lnot, wrap, b2z. zcase; mlia.
Qed.

Lemma rep_add a b x y : rep a x -> rep b y -> in128 (x + y) -> rep (int128_add a b) (x + y).
Proof.
  intros Ha Hb H. rewrite <- (sext_small 128 (x + y)) by (unfold in128 in H; lia).
  apply rep_add_sext; done.
Qed.

Lemma rep_sub a b x y : rep a x -> rep b y -> in128 (x - y) -> rep (int128_sub a b) (x - y).
Proof.
  intros Ha Hb H. rewrite <- (sext_small 128 (x - y)) by (unfold in128 in H; lia).
  apply rep_sub_sext; done.
Qed.

Lemma rep_make64 x : 0 <= x < 2 ^ 64 -> rep (int128_make64 x) x.
Proof. intros Hx. repeat split; simpl; unfold val; simpl; lia. Qed.

Lemma rep_2_64 : rep int128_2_64 (2 ^ 64).
Proof. repeat split; simpl; lia. Qed.

Lemma rep_exts64 x : - 2 ^ 63 <= x < 2 ^ 63 -> rep (int128_exts64 x) x.
Proof.
  intros Hx. pose proof (wrap_range 64 x ltac:(lia)). unfold int128_exts64.
  split; [constructor; simpl; [lia|zcase; lia]|].
  unfold val. simpl. unfold wrap. zcase; mlia.
Qed.

Lemma get64_Ret a x : rep a x -> 0 <= x < 2 ^ 64 -> int128_get64 a = Ret x.
Proof.
  intros [[] <-] Hx. unfold int128_get64, val in *. zcase; [|lia]. f_equal. lia.
Qed.

Lemma get64_Fault a x : rep a x -> ~ 0 <= x < 2 ^ 64 -> int128_get64 a = Fault AssertFailed.
Proof. intros [[] <-] Hx. unfold int128_get64, val in *. zcase; [lia|done]. Qed.

(** Comparisons. *)

Lemma rep_ge a b x y : rep a x -> rep b y -> int128_ge a b = (y <=? x).
Proof.
  intros [[] <-] [[] <-]. unfold int128_ge, val.
  destruct (Z.ltb_spec (hi b) (hi a)), (Z.eqb_spec (hi a) (hi b)), (Z.leb_spec (lo b) (lo a));
    simpl; symmetry; apply Z.leb_le || apply Z.leb_gt; lia.
Qed.

Lemma rep_eq a b x y : rep a x -> rep b y -> int128_eq a b = (x =? y).
Proof.
  intros [[] <-] [[] <-]. unfold int128_eq, val.
  destruct (Z.eqb_spec (hi a) (hi b)), (Z.eqb_spec (lo a) (lo b));
    simpl; symmetry; apply Z.eqb_eq || apply Z.eqb_neq; lia.
Qed.

Lemma rep_lt a b x y : rep a x -> rep b y -> int128_lt a b = (x <? y).
Proof.
  intros Ha Hb. unfold int128_lt. rewrite (rep_ge a b x y), Z.leb_antisym by done.
  apply negb_involutive.
Qed.

Lemma rep_le a b x y : rep a x -> rep b y -> int128_le a b = (x <=? y).
Proof. intros Ha Hb. apply rep_ge; done. Qed.

Lemma rep_nz a x : rep a x -> int128_nz a = negb (x =? 0).
Proof.
  intros [[] <-]. unfold int128_nz, val.
  destruct (Z.eqb_spec (lo a) 0), (Z.eqb_spec (hi a) 0); simpl; symmetry;
    rewrite ?negb_true_iff, ?negb_false_iff; apply Z.eqb_eq || apply Z.eqb_neq; lia.
Qed.

Lemma rep_min a b x y : rep a x -> rep b y -> rep (int128_min a b) (Z.min x y).
Proof.
  intros Ha Hb. unfold int128_min. rewrite (rep_le a b x y) by done.
  zcase; [rewrite Z.min_l by lia|rewrite Z.min_r by lia]; done.
Qed.

Lemma rep_max a b x y : rep a x -> rep b y -> rep (int128_max a b) (Z.max x y).
Proof.
  intros Ha Hb. unfold int128_max. rewrite (rep_ge a b x y) by done.
  zcase; [rewrite Z.max_l by lia|rewrite Z.max_r by lia]; done.
Qed.

(** Bit operations. *)

Lemma signed_shift x : - 2 ^ 63 <= x < 2 ^ 63 <-> x >> 63 = 0 \/ x >> 63 = -1.
Proof. rewrite Z.shiftr_div_pow2 by lia. mlia. Qed.

Lemma land_signed x y :
  - 2 ^ 63 <= x < 2 ^ 63 -> - 2 ^ 63 <= y < 2 ^ 63 -> - 2 ^ 63 <= x &&& y < 2 ^ 63.
Proof.
  rewrite !signed_shift, Z.shiftr_land. intros [->| ->] [->| ->]; vm_compute; auto.
Qed.

Lemma rep_and a b x y : rep a x -> rep b y -> rep (int128_and a b) (x &&& y).
Proof.
  intros [[Ha1 Ha2] <-] [[Hb1 Hb2] <-]. unfold int128_and. split; [split; simpl|].
  - apply land_range_l; [lia|done].
  - apply land_signed; done.
  - unfold val. simpl. rewrite land_split by (done || lia). done.
Qed.

Lemma rshift_words l h n :
  0 <= l < 2 ^ 64 -> 0 <= n < 64 ->
  (l + 2 ^ 64 * h) >> n = ((l >> n) ||| u64 (u64 h << (64 - n))) + 2 ^ 64 * (h >> n).
Proof.
  intros Hl Hn. apply Z.bits_inj'. intros i Hi.
  assert (0 <= (l >> n) ||| u64 (u64 h << (64 - n)) < 2 ^ 64) as Hr.
  { apply lor_range; [lia| |apply wrap_range; lia].
    rewrite Z.shiftr_div_pow2 by lia. split; [apply Z.div_pos; lia|].
    apply Z.div_lt_upper_bound; nia. }
  rewrite testbit_shiftr, !testbit_split by (done || lia). autorewrite with bits.
  destruct (Z.leb_spec 0 i); [|lia]. destruct (Z.ltb_spec i 64).
  - destruct (Z.ltb_spec (i + n) 64); simpl.
    + rewrite (Z.testbit_neg_r h) by lia. rewrite andb_false_r, orb_false_r. done.
    + rewrite (testbit_high 64 l) by (done || lia). simpl.
      destruct (Z.ltb_spec (i - (64 - n)) 64); [|lia]. simpl. f_equal. lia.
  - destruct (Z.ltb_spec (i + n) 64); [lia|]. simpl.
    destruct (Z.leb_spec 0 (i - 64)); [|lia]. simpl. f_equal. lia.
Qed.

Lemma shiftr_signed h n : 0 <= n -> - 2 ^ 63 <= h < 2 ^ 63 -> - 2 ^ 63 <= h >> n < 2 ^ 63.
Proof.
  intros Hn Hh. rewrite Z.shiftr_div_pow2 by lia. pose proof (Z.pow_pos_nonneg 2 n). split.
  - apply Z.div_le_lower_bound; nia.
  - apply Z.div_lt_upper_bound; nia.
Qed.

Lemma rep_rshift a x n : rep a x -> 0 <= n < 128 -> rep (int128_rshift a n) (x >> n).
Proof.
  intros Ha Hn. unfold int128_rshift. destruct (Z.eqb_spec n 0) as [->|].
  { by rewrite Z.shiftr_0_r. }
  destruct Ha as [[Ha1 Ha2] <-]. 
  assert (n &&& 63 = n mod 2 ^ 6) as -> by (apply (Z.land_ones n 6); lia).
  destruct (Z.leb_spec 64 n).
  - replace (n mod 2 ^ 6) with (n - 64) by mlia.
    pose proof (shiftr_signed (hi a) (n - 64) ltac:(lia) Ha2) as Hh.
    assert (val a >> n = hi a >> (n - 64)) as E.
    { unfold val. replace n with (64 + (n - 64)) at 1 by lia.
      rewrite <- Z.shiftr_shiftr, (Z.shiftr_div_pow2 _ 64) by lia. f_equal. mlia. }
    rewrite E. set (h := hi a >> (n - 64)) in *. split; [constructor; simpl|].
    + apply wrap_range. lia.
    + apply signed_shift in Hh as [->| ->]; lia.
    + unfold val. simpl. rewrite Z.shiftr_div_pow2 by lia. unfold wrap. mlia.
  - rewrite (Z.mod_small n) by lia. split; [constructor; simpl|].
    + apply lor_range; [lia| |apply wrap_range; lia]. rewrite Z.shiftr_div_pow2 by lia.
      split; [apply Z.div_pos; lia|]. apply Z.div_lt_upper_bound; nia.
    + apply shiftr_signed; [lia|done].
    + unfold val. simpl. symmetry. apply rshift_words; [done|lia].
Qed.

(** C29: on well-formed pairs the 128-bit operations are those of the integers:
    comparisons, minimum, maximum, conjunction and arithmetic shift exactly,
    sum, difference and negation modulo 2^128; the conversion to 64 bits
    asserts exactly when the value does not fit. *)
Theorem int128_correct a b x y n :
  rep a x -> rep b y -> 0 <= n < 128 ->
  rep (int128_add a b) (sext 128 (x + y))
  /\ rep (int128_sub a b) (sext 128 (x - y))
  /\ rep (int128_neg a) (sext 128 (- x))
  /\ rep (int128_and a b) (x &&& y)
  /\ rep (int128_rshift a n) (x >> n)
  /\ rep (int128_min a b) (Z.min x y)
  /\ rep (int128_max a b) (Z.max x y)
  /\ int128_eq a b = (x =? y) /\ int128_ne a b = negb (x =? y)
  /\ int128_ge a b = (y <=? x) /\ int128_lt a b = (x <? y)
  /\ int128_le a b = (x <=? y) /\ int128_gt a b = (y <? x)
  /\ int128_nz a = negb (x =? 0) /\ int128_nonneg a = (0 <=? x)
  /\ int128_get64 a = (if (0 <=? x) && (x <? 2 ^ 64) then Ret x else Fault AssertFailed)
  /\ (0 <= x < 2 ^ 64 -> int128_make64 x = a)
  /\ (- 2 ^ 63 <= x < 2 ^ 63 -> int128_exts64 x = a).
Proof.
  intros Ha Hb Hn.
  do 7 (split; [auto using rep_add_sext, rep_sub_sext, rep_neg_sext, rep_and, rep_rshift, rep_min,
                  rep_max|]).
  unfold int128_ne, int128_gt.
  rewrite (rep_eq a b x y), (rep_ge a b x y), (rep_lt a b x y), (rep_le a b x y), (rep_nz a x) by done.
  do 5 (split; [done|]). split; [symmetry; apply Z.ltb_antisym|]. split; [done|].
  split. { destruct Ha as [[] <-]. unfold int128_nonneg, val. do 2 zcase; done || lia. }
  split.
  { destruct (Z.leb_spec 0 x), (Z.ltb_spec x (2 ^ 64)); simpl;
      (apply (get64_Ret a x); [done|lia]) || (apply (get64_Fault a x); [done|lia]). }
  split; intros Hx; apply (rep_fun _ _ x); auto using rep_make64, rep_exts64.
Qed.

Lemma int128_correct_witness :
  int128_get64 (int128_rshift (int128_sub int128_2_64 int128_one) 63) = Ret 1
  /\ rep (int128_rshift int128_2_64 63) 2.
Proof.
  split; [vm_compute; reflexivity|].
  apply (int128_correct int128_2_64 int128_one (2 ^ 64) 1 63);
    [repeat split; vm_compute; congruence|repeat split; vm_compute; congruence|lia].
Defined.
