(* ===== verification/Memory.v ===== *)
(** * The memory map

    Model of the flat view of [src/memory.c]: how a tree of memory regions
    with priorities, overlaps, clipping and aliases is rendered into a sorted
    list of disjoint ranges, how adjacent ranges are merged, how an address is
    looked up in the list, and which events the listeners get when the map
    changes.  The specification is [resolve], which asks the tree itself what
    is at an address.

    A region is the record [MemoryRegion], with the regions its pointers lead
    to inside it; [mr_id] is its address, which stands for the pointer in
    comparisons.  Not modelled: reference counts, ioeventfds, the dispatch of
    accesses to the callbacks of a region, and the registration of listeners
    (the events are those one listener gets). *)

From Stdlib Require Import Sorting.Sorted.
From S2P Require Import Prelude HostUtils Int128.

(** ** Address ranges *)

Record AddrRange := { start : Int128; size : Int128 }.

#[export] Instance AddrRange_eq_dec : EqDecision AddrRange.
Proof. solve_decision. Defined.

Definition addrrange_make (start size : Int128) : AddrRange :=
  {| start := start; size := size |}.

Definition addrrange_equal (r1 r2 : AddrRange) : bool :=
  int128_eq (start r1) (start r2) && int128_eq (size r1) (size r2).

Definition addrrange_end (r : AddrRange) : Int128 := int128_add (start r) (size r).

Definition addrrange_contains (range : AddrRange) (addr : Int128) : bool :=
  int128_ge addr (start range) && int128_lt addr (addrrange_end range).

Definition addrrange_intersects (r1 r2 : AddrRange) : bool :=
  addrrange_contains r1 (start r2) || addrrange_contains r2 (start r1).

Definition addrrange_intersection (r1 r2 : AddrRange) : AddrRange :=
  let start := int128_max (start r1) (start r2) in
  let end_ := int128_min (addrrange_end r1) (addrrange_end r2) in
  addrrange_make start (int128_sub end_ start).

(** ** Regions *)

Unset Elimination Schemes.
Inductive MemoryRegion := MkRegion {
  mr_id : Z;
  mr_size : Int128;
  mr_addr : Z;
  mr_terminates : bool;
  mr_romd_mode : bool;
  mr_readonly : bool;
  mr_enabled : bool;
  mr_alias : option MemoryRegion;
  mr_alias_offset : Z;
  mr_priority : Z;
  mr_may_overlap : bool;
  mr_subregions : list MemoryRegion;
  mr_dirty_log_mask : Z;
}.
Set Elimination Schemes.

(** The place of a new subregion: before the first of at most its priority. *)
Fixpoint insert_subregion (subregion : MemoryRegion) (subregions : list MemoryRegion) :
    list MemoryRegion :=
  match subregions with
  | [] => [subregion]
  | other :: rest =>
      if mr_priority other <=? mr_priority subregion then subregion :: other :: rest
      else other :: insert_subregion subregion rest
  end.

Definition place_region (mr : MemoryRegion) (offset priority : Z) (may_overlap : bool) :
    MemoryRegion :=
  MkRegion (mr_id mr) (mr_size mr) offset (mr_terminates mr) (mr_romd_mode mr) (mr_readonly mr)
    (mr_enabled mr) (mr_alias mr) (mr_alias_offset mr) priority may_overlap (mr_subregions mr)
    (mr_dirty_log_mask mr).

Definition memory_region_update_container_subregions (mr subregion : MemoryRegion) : MemoryRegion :=
  MkRegion (mr_id mr) (mr_size mr) (mr_addr mr) (mr_terminates mr) (mr_romd_mode mr)
    (mr_readonly mr) (mr_enabled mr) (mr_alias mr) (mr_alias_offset mr) (mr_priority mr)
    (mr_may_overlap mr) (insert_subregion subregion (mr_subregions mr)) (mr_dirty_log_mask mr).

Definition memory_region_add_subregion (mr : MemoryRegion) (offset : Z) (subregion : MemoryRegion) :
    MemoryRegion :=
  memory_region_update_container_subregions mr (place_region subregion offset 0 false).

Definition memory_region_add_subregion_overlap (mr : MemoryRegion) (offset : Z)
    (subregion : MemoryRegion) (priority : Z) : MemoryRegion :=
  memory_region_update_container_subregions mr (place_region subregion offset priority true).

(** ** The flat view *)

Record FlatRange := {
  fr_mr : Z;
  offset_in_region : Z;
  fr_addr : AddrRange;
  dirty_log_mask : Z;
  romd_mode : bool;
  readonly : bool;
}.

#[export] Instance FlatRange_eq_dec : EqDecision FlatRange.
Proof. solve_decision. Defined.

Abbreviation FlatView := (list FlatRange).

Definition flatrange_equal (a b : FlatRange) : bool :=
  (fr_mr a =? fr_mr b) && addrrange_equal (fr_addr a) (fr_addr b)
  && (offset_in_region a =? offset_in_region b)
  && eqb (romd_mode a) (romd_mode b) && eqb (readonly a) (readonly b).

Definition flatview_init : FlatView := [].

Definition flatview_insert (view : FlatView) (pos : nat) (range : FlatRange) : FlatView :=
  take pos view ++ range :: drop pos view.

Definition can_merge (r1 r2 : FlatRange) : bool :=
  int128_eq (addrrange_end (fr_addr r1)) (start (fr_addr r2))
  && (fr_mr r1 =? fr_mr r2)
  && int128_eq (int128_add (int128_make64 (offset_in_region r1)) (size (fr_addr r1)))
       (int128_make64 (offset_in_region r2))
  && (dirty_log_mask r1 =? dirty_log_mask r2)
  && eqb (romd_mode r1) (romd_mode r2) && eqb (readonly r1) (readonly r2).

Definition with_range (fr : FlatRange) (offset : Z) (addr : AddrRange) : FlatRange :=
  {| fr_mr := fr_mr fr; offset_in_region := offset; fr_addr := addr;
     dirty_log_mask := dirty_log_mask fr; romd_mode := romd_mode fr; readonly := readonly fr |}.

(** The range [ranges[i]] grown by the size of [ranges[j]]. *)
Definition grow (ri rj : FlatRange) : FlatRange :=
  with_range ri (offset_in_region ri)
    (addrrange_make (start (fr_addr ri)) (int128_addto (size (fr_addr ri)) (size (fr_addr rj)))).

(** The two loops of [flatview_simplify]: [ri] is [ranges[i]] so far, [prev]
    is [ranges[j-1]], [rest] the ranges from [j] on. *)
Fixpoint simplify_loop (ri prev : FlatRange) (rest : FlatView) : FlatView :=
  match rest with
  | [] => [ri]
  | rj :: rest =>
      if can_merge prev rj then simplify_loop (grow ri rj) rj rest
      else ri :: simplify_loop rj rj rest
  end.

Definition flatview_simplify (view : FlatView) : FlatView :=
  match view with [] => [] | r :: rest => simplify_loop r r rest end.

(** [view->ranges[i]] *)
Definition range_at (view : FlatView) (i : nat) : outcome FlatRange :=
  match view !! i with Some r => Ret r | None => Fault OutOfBounds end.

(** The gap before [r] is filled: the view, [i], [base], [offset_in_region] and
    [remain] after it. *)
Definition fill_gap (fr r : FlatRange) (view : FlatView) (i : nat) (base : Int128) (offset : Z)
    (remain : Int128) : outcome (FlatView * nat * Int128 * Z * Int128) :=
  if int128_lt base (start (fr_addr r)) then
    let now := int128_min remain (int128_sub (start (fr_addr r)) base) in
    let view := flatview_insert view i (with_range fr offset (addrrange_make base now)) in
    n ← int128_get64 now;
    Ret (view, S i, int128_addto base now, u64 (offset + n), int128_subfrom remain now)
  else Ret (view, i, base, offset, remain).

(** The loop of [render_memory_region] and what follows it. *)
Fixpoint render_gaps (fuel : nat) (fr : FlatRange) (view : FlatView) (i : nat) (base : Int128)
    (offset : Z) (remain : Int128) : outcome FlatView :=
  if (i <? length view)%nat && int128_nz remain then
    match fuel with
    | O => NoFuel
    | S fuel =>
        r ← range_at view i;
        if int128_ge base (addrrange_end (fr_addr r)) then
          render_gaps fuel fr view (S i) base offset remain
        else
          '(view, i, base, offset, remain) ← fill_gap fr r view i base offset remain;
          r ← range_at view i;
          let now :=
            int128_sub (int128_min (int128_add base remain) (addrrange_end (fr_addr r))) base in
          n ← int128_get64 now;
          render_gaps fuel fr view (S i) (int128_addto base now) (u64 (offset + n))
            (int128_subfrom remain now)
    end
  else if int128_nz remain then
    Ret (flatview_insert view i (with_range fr offset (addrrange_make base remain)))
  else Ret view.

Section foldM.
Context {A B : Type} (f : A -> B -> outcome B).

(** A loop over a list that updates a state. *)
Fixpoint foldM (b : B) (l : list A) : outcome B :=
  match l with
  | [] => Ret b
  | x :: l => b ← f x b; foldM b l
  end.
End foldM.

Fixpoint render_memory_region (view : FlatView) (mr : MemoryRegion) (base : Int128)
    (clip : AddrRange) (ro : bool) {struct mr} : outcome FlatView :=
  if negb (mr_enabled mr) then Ret view
  else
    let base := int128_addto base (int128_make64 (mr_addr mr)) in
    let ro := ro || mr_readonly mr in
    let tmp := addrrange_make base (mr_size mr) in
    if negb (addrrange_intersects tmp clip) then Ret view
    else
      let clip := addrrange_intersection tmp clip in
      match mr_alias mr with
      | Some alias =>
          let base := int128_subfrom base (int128_make64 (mr_addr alias)) in
          let base := int128_subfrom base (int128_make64 (mr_alias_offset mr)) in
          render_memory_region view alias base clip ro
      | None =>
          view ← foldM (fun subregion view => render_memory_region view subregion base clip ro)
                   view (mr_subregions mr);
          if negb (mr_terminates mr) then Ret view
          else
            offset ← int128_get64 (int128_sub (start clip) base);
            let fr :=
              {| fr_mr := mr_id mr; offset_in_region := offset; fr_addr := clip;
                 dirty_log_mask := mr_dirty_log_mask mr; romd_mode := mr_romd_mode mr;
                 readonly := ro |} in
            render_gaps (length view) fr view 0 (start clip) offset (size clip)
      end.

Definition generate_memory_topology (mr : option MemoryRegion) : outcome FlatView :=
  let view := flatview_init in
  view ←
    match mr with
    | Some mr =>
        render_memory_region view mr int128_zero (addrrange_make int128_zero int128_2_64) false
    | None => Ret view
    end;
  Ret (flatview_simplify view).

(** ** Looking up an address *)

Definition cmp_flatrange_addr (addr : AddrRange) (fr : FlatRange) : Z :=
  if int128_le (addrrange_end addr) (start (fr_addr fr)) then -1
  else if int128_ge (start addr) (addrrange_end (fr_addr fr)) then 1
  else 0.

Record MemoryRegionSection := {
  sec_mr : Z;
  offset_within_region : Z;
  sec_size : Int128;
  offset_within_address_space : Z;
  sec_readonly : bool;
}.

(** [while (fr > view->ranges && addrrange_intersects(fr[-1].addr, range)) --fr] *)
Fixpoint first_intersecting (view : FlatView) (fr : nat) (range : AddrRange) : outcome nat :=
  match fr with
  | O => Ret O
  | S prev =>
      r ← range_at view prev;
      if addrrange_intersects (fr_addr r) range then first_intersecting view prev range
      else Ret fr
  end.

Section find.
(** [bsearch] of the C library: the index of an element, or none. *)
Variable bsearch : FlatView -> (FlatRange -> Z) -> option nat.

Definition flatview_lookup (view : FlatView) (addr : AddrRange) : option nat :=
  bsearch view (cmp_flatrange_addr addr).

(** [addrs] are the [addr] of the region and of its containers, up to the root;
    [current_map] is the view of the root's address space, if it has one. *)
Definition memory_region_find (addrs : list Z) (current_map : option FlatView) (addr sz : Z) :
    outcome (option MemoryRegionSection) :=
  let addr := foldl (fun addr a => u64 (addr + a)) addr addrs in
  match current_map with
  | None => Ret None
  | Some view =>
      let range := addrrange_make (int128_make64 addr) (int128_make64 sz) in
      match flatview_lookup view range with
      | None => Ret None
      | Some fr =>
          fr ← first_intersecting view fr range;
          fr ← range_at view fr;
          let range := addrrange_intersection range (fr_addr fr) in
          offset ← int128_get64 (int128_sub (start range) (start (fr_addr fr)));
          at_ ← int128_get64 (start range);
          Ret (Some {| sec_mr := fr_mr fr;
                       offset_within_region := u64 (offset_in_region fr + offset);
                       sec_size := size range;
                       offset_within_address_space := at_;
                       sec_readonly := readonly fr |})
      end
  end.
End find.

(** ** Updating the listeners *)

Inductive event :=
| RegionDel (fr : FlatRange)
| RegionAdd (fr : FlatRange)
| RegionNop (fr : FlatRange)
| LogStart (fr : FlatRange)
| LogStop (fr : FlatRange).

(** What a pass says about a range of both views. *)
Definition nop_events (frold frnew : FlatRange) : list event :=
  RegionNop frnew ::
  (if negb (dirty_log_mask frold =? 0) && (dirty_log_mask frnew =? 0) then [LogStop frnew]
   else if negb (dirty_log_mask frnew =? 0) && (dirty_log_mask frold =? 0) then [LogStart frnew]
   else []).

(** The condition of the first branch, with both ranges there. *)
Definition old_first (frold frnew : FlatRange) : bool :=
  int128_lt (start (fr_addr frold)) (start (fr_addr frnew))
  || (int128_eq (start (fr_addr frold)) (start (fr_addr frnew))
      && negb (flatrange_equal frold frnew)).

(** [old] and [new] are the ranges from [iold] and from [inew] on. *)
Fixpoint topology_loop (fuel : nat) (old new : FlatView) (adding : bool) : outcome (list event) :=
  match old, new with
  | [], [] => Ret []
  | _, _ =>
      match fuel with
      | O => NoFuel
      | S fuel =>
          match old, new with
          | frold :: old', [] =>
              evs ← topology_loop fuel old' new adding;
              Ret ((if adding then [] else [RegionDel frold]) ++ evs)
          | frold :: old', frnew :: new' =>
              if old_first frold frnew then
                evs ← topology_loop fuel old' new adding;
                Ret ((if adding then [] else [RegionDel frold]) ++ evs)
              else if flatrange_equal frold frnew then
                evs ← topology_loop fuel old' new' adding;
                Ret ((if adding then nop_events frold frnew else []) ++ evs)
              else
                evs ← topology_loop fuel old new' adding;
                Ret ((if adding then [RegionAdd frnew] else []) ++ evs)
          | [], frnew :: new' =>
              evs ← topology_loop fuel old new' adding;
              Ret ((if adding then [RegionAdd frnew] else []) ++ evs)
          | [], [] => Ret []
          end
      end
  end.

Definition address_space_update_topology_pass (old_view new_view : FlatView) (adding : bool) :
    outcome (list event) :=
  topology_loop (length old_view + length new_view) old_view new_view adding.

(** The events and the new map. *)
Definition address_space_update_topology (current_map : FlatView) (root : option MemoryRegion) :
    outcome (list event * FlatView) :=
  new_view ← generate_memory_topology root;
  dels ← address_space_update_topology_pass current_map new_view false;
  adds ← address_space_update_topology_pass current_map new_view true;
  Ret (dels ++ adds, new_view).

(** ** Specification: what is at an address *)

Record cell := {
  c_mr : Z;
  c_offset : Z;
  c_dirty : Z;
  c_romd : bool;
  c_readonly : bool;
}.

Section first_some.
Context {A B : Type} (f : A -> option B).

(** The first result there is. *)
Fixpoint first_some (l : list A) : option B :=
  match l with
  | [] => None
  | x :: l => match f x with Some b => Some b | None => first_some l end
  end.
End first_some.

(** The region an address belongs to, in the tree: the first subregion that has
    something there, or the region itself. *)
Fixpoint resolve (mr : MemoryRegion) (base : Z) (ro : bool) (a : Z) {struct mr} : option cell :=
  if negb (mr_enabled mr) then None
  else
    let base := base + mr_addr mr in
    let ro := ro || mr_readonly mr in
    if (base <=? a) && (a <? base + val (mr_size mr)) then
      match mr_alias mr with
      | Some alias => resolve alias (base - mr_addr alias - mr_alias_offset mr) ro a
      | None =>
          match first_some (fun s => resolve s base ro a) (mr_subregions mr) with
          | Some c => Some c
          | None =>
              if mr_terminates mr then
                Some {| c_mr := mr_id mr; c_offset := a - base; c_dirty := mr_dirty_log_mask mr;
                        c_romd := mr_romd_mode mr; c_readonly := ro |}
              else None
          end
      end
    else None.

(** What a flat view has at an address. *)
Definition rstart (fr : FlatRange) : Z := val (start (fr_addr fr)).
Definition rsize (fr : FlatRange) : Z := val (size (fr_addr fr)).
Definition rend (fr : FlatRange) : Z := rstart fr + rsize fr.

Definition cell_at (fr : FlatRange) (a : Z) : option cell :=
  if (rstart fr <=? a) && (a <? rend fr) then
    Some {| c_mr := fr_mr fr; c_offset := offset_in_region fr + (a - rstart fr);
            c_dirty := dirty_log_mask fr; c_romd := romd_mode fr; c_readonly := readonly fr |}
  else None.

Definition view_at (view : FlatView) (a : Z) : option cell :=
  first_some (fun fr => cell_at fr a) view.

(** Sizes and addresses fit; regions that take accesses are at most [lim] long.
    No cycles of aliases or containers: the tree is finite. *)
Inductive wf_region (lim : Z) : MemoryRegion -> Prop :=
| wf_region_intro mr :
    ok128 (mr_size mr) -> 0 <= val (mr_size mr) <= 2 ^ 64 ->
    0 <= mr_addr mr < 2 ^ 64 -> 0 <= mr_alias_offset mr < 2 ^ 64 ->
    (mr_terminates mr = true -> val (mr_size mr) <= lim) ->
    (forall alias, mr_alias mr = Some alias -> wf_region lim alias) ->
    (forall s, s ∈ mr_subregions mr -> wf_region lim s) ->
    wf_region lim mr.

Record wf_range (fr : FlatRange) : Prop := {
  wf_start : rep (start (fr_addr fr)) (rstart fr);
  wf_size : rep (size (fr_addr fr)) (rsize fr);
  wf_lower : 0 <= rstart fr;
  wf_nonempty : 0 < rsize fr;
  wf_upper : rend fr <= 2 ^ 64;
  wf_offset : 0 <= offset_in_region fr;
  wf_offset_end : offset_in_region fr + rsize fr <= 2 ^ 64;
}.

(** Nonempty disjoint ranges in order, from [p] on. *)
Fixpoint view_from (p : Z) (view : FlatView) : Prop :=
  match view with
  | [] => True
  | fr :: view => p <= rstart fr /\ wf_range fr /\ view_from (rend fr) view
  end.

Definition orelse {A} (x y : option A) : option A :=
  match x with Some a => Some a | None => y end.

(** ** Rendering *)

Lemma orelse_assoc {A} (x y z : option A) : orelse (orelse x y) z = orelse x (orelse y z).
Proof. by destruct x. Qed.

Lemma orelse_None {A} (x : option A) : orelse x None = x.
Proof. by destruct x. Qed.

Lemma view_from_weaken p q view : q <= p -> view_from p view -> view_from q view.
Proof. destruct view; [done|]. simpl. intros ? (? & ? & ?). split_and!; [lia|done|done]. Qed.

Lemma view_at_cons fr view a : view_at (fr :: view) a = orelse (cell_at fr a) (view_at view a).
Proof. done. Qed.

Lemma view_at_one fr a : view_at [fr] a = cell_at fr a.
Proof. apply orelse_None. Qed.

Lemma view_at_low p view a : view_from p view -> a < p -> view_at view a = None.
Proof.
  revert p. induction view as [|fr view IH]; intros p Hv Ha; [done|].
  destruct Hv as (H1 & H2 & H3). rewrite view_at_cons.
  unfold cell_at. destruct (Z.leb_spec (rstart fr) a); [lia|]. simpl.
  apply (IH (rend fr)); [done|]. pose proof (wf_nonempty fr H2). unfold rend in *. lia.
Qed.

Lemma in128_small x : - 2 ^ 70 <= x <= 2 ^ 70 -> in128 x.
Proof. unfold in128. lia. Qed.

Lemma rep_end fr : wf_range fr -> rep (addrrange_end (fr_addr fr)) (rend fr).
Proof.
  intros []. apply rep_add; [done|done|]. apply in128_small. unfold rend in *. lia.
Qed.

Lemma insert_middle (done rest : FlatView) fr :
  flatview_insert (done ++ rest) (length done) fr = (done ++ [fr]) ++ rest.
Proof.
  unfold flatview_insert. rewrite take_app_length, drop_app_length, <- app_assoc. done.
Qed.

Lemma range_at_middle (done : FlatView) r rest : range_at (done ++ r :: rest) (length done) = Ret r.
Proof. unfold range_at. by rewrite list_lookup_middle. Qed.

(** A new range of [fr0] at [b]. *)
Lemma wf_with_range fr0 off base b remain n :
  rep base b -> rep remain n -> 0 <= b -> 0 < n -> b + n <= 2 ^ 64 -> 0 <= off ->
  off + n <= 2 ^ 64 ->
  let r := with_range fr0 off (addrrange_make base remain) in
  wf_range r /\ rstart r = b /\ rend r = b + n.
Proof.
  intros Hb Hn H1 H2 H3 H4 H5 r.
  assert (rstart r = b) as E1 by apply Hb. assert (rsize r = n) as E2 by apply Hn.
  split; [|unfold rend; rewrite E1, E2; done].
  constructor; unfold rend; rewrite ?E1, ?E2; simpl; done || lia.
Qed.

(** What the region shows at [a] when it starts at [b] with offset [off]. *)
Definition shown (fr0 : FlatRange) (off b n a : Z) : option cell :=
  if (b <=? a) && (a <? b + n) then
    Some {| c_mr := fr_mr fr0; c_offset := off + (a - b); c_dirty := dirty_log_mask fr0;
            c_romd := romd_mode fr0; c_readonly := readonly fr0 |}
  else None.

Lemma cell_with_range fr0 off base b remain n a :
  rep base b -> rep remain n ->
  cell_at (with_range fr0 off (addrrange_make base remain)) a = shown fr0 off b n a.
Proof. intros [_ <-] [_ <-]. done. Qed.

Ltac zcases := repeat (zcase; try lia).

(** The region cut in two. *)
Lemma shown_split fr0 off b n k a :
  0 <= k <= n -> shown fr0 off b n a = orelse (shown fr0 off b k a) (shown fr0 (off + k) (b + k) (n - k) a).
Proof.
  intros Hk. unfold shown.
  destruct (Z.leb_spec b a), (Z.ltb_spec a (b + n)), (Z.ltb_spec a (b + k)), (Z.leb_spec (b + k) a),
    (Z.ltb_spec a (b + k + (n - k))); simpl; try lia; try done.
  f_equal. f_equal. lia.
Qed.

Lemma shown_hidden fr0 off b n fr rest a :
  rstart fr <= b -> b + n <= rend fr ->
  orelse (view_at (fr :: rest) a) (shown fr0 off b n a) = view_at (fr :: rest) a.
Proof.
  intros H1 H2. rewrite view_at_cons. unfold shown, cell_at.
  destruct (Z.leb_spec b a), (Z.ltb_spec a (b + n)); simpl; try (by rewrite orelse_None).
  destruct (Z.leb_spec (rstart fr) a), (Z.ltb_spec a (rend fr)); simpl; try lia. done.
Qed.

(** What is left of the region: [n] bytes at [b], at offset [off] of it. *)
Record pending (base : Int128) (b off : Z) (remain : Int128) (n : Z) : Prop := {
  pend_base : rep base b;
  pend_remain : rep remain n;
  pend_b : 0 <= b;
  pend_n : 0 <= n;
  pend_end : b + n <= 2 ^ 64;
  pend_off : 0 <= off;
  pend_off_end : off + n <= 2 ^ 64;
}.

(** The rest of the view is completed by what is left of the region.  The
    assertion of [int128_get64] fails only for a region of 2^64 bytes. *)
Definition completes (fr0 : FlatRange) (done rest : FlatView) (p b off n : Z)
    (res : outcome FlatView) : Prop :=
  (n = 2 ^ 64 /\ res = Fault AssertFailed)
  \/ exists rest', res = Ret (done ++ rest') /\ view_from p rest'
     /\ forall a, view_at rest' a = orelse (view_at rest a) (shown fr0 off b n a).

Lemma shown_empty fr0 off b a : shown fr0 off b 0 a = None.
Proof.
  unfold shown. destruct (Z.leb_spec b a), (Z.ltb_spec a (b + 0)); simpl; done || lia.
Qed.

Lemma shown_wrap fr0 off b n a :
  0 <= off -> 0 <= n -> off + n <= 2 ^ 64 -> shown fr0 (u64 off) b n a = shown fr0 off b n a.
Proof.
  intros H1 H2 H3. destruct (Z.eq_dec n 0) as [->|]; [by rewrite !shown_empty|].
  rewrite wrap_small by lia. done.
Qed.

Lemma wrap_pending x n : 0 <= x -> 0 <= n -> x + n <= 2 ^ 64 -> 0 <= u64 x /\ u64 x + n <= 2 ^ 64.
Proof. intros. unfold wrap. mlia. Qed.

Lemma pending_advance base b off remain n now k :
  pending base b off remain n -> rep now k -> 0 <= k <= n ->
  pending (int128_addto base now) (b + k) (u64 (off + k)) (int128_subfrom remain now) (n - k).
Proof.
  intros [H1 H2 H3 H4 H5 H6 H7] Hn Hk.
  destruct (wrap_pending (off + k) (n - k)) as [? ?]; [lia|lia|lia|].
  constructor; try lia.
  - apply rep_add; [done|done|apply in128_small; lia].
  - apply rep_sub; [done|done|apply in128_small; lia].
Qed.

(** The second half of an iteration: the part behind [r] is skipped. *)
Lemma skip_range_ok fuel fr0 done r rest base b off remain n :
  pending base b off remain n -> wf_range r -> n = 0 \/ rstart r <= b -> b <= rend r ->
  (forall base b off remain n,
     pending base b off remain n -> n = 0 \/ rend r <= b ->
     completes fr0 (done ++ [r]) rest (rend r) b off n
       (render_gaps fuel fr0 ((done ++ [r]) ++ rest) (length (done ++ [r])) base off remain)) ->
  let res :=
    r0 ← range_at (done ++ r :: rest) (length done);
    let now := int128_sub (int128_min (int128_add base remain) (addrrange_end (fr_addr r0))) base in
    n0 ← int128_get64 now;
    render_gaps fuel fr0 (done ++ r :: rest) (S (length done)) (int128_addto base now)
      (u64 (off + n0)) (int128_subfrom remain now) in
  (n = 2 ^ 64 /\ res = Fault AssertFailed)
  \/ exists rest', res = Ret (done ++ r :: rest') /\ view_from (rend r) rest'
     /\ forall a, view_at (r :: rest') a = orelse (view_at (r :: rest) a) (shown fr0 off b n a).
Proof.
  intros Hp Hr Hlow Hup IH res. subst res. rewrite range_at_middle.
  cbv beta iota zeta delta [mbind outcome_bind].
  destruct (Hp) as [P1 P2 P3 P4 P5 P6 P7]. pose proof (wf_upper r Hr). pose proof (wf_lower r Hr).
  set (now := int128_sub _ base). set (k := Z.min (b + n) (rend r) - b).
  assert (0 <= k <= n) as Hk by lia.
  assert (rep now k) as Hnow.
  { apply rep_sub; [|done|apply in128_small; lia].
    apply rep_min; [apply rep_add; [done|done|apply in128_small; lia]|by apply rep_end]. }
  clearbody now. assert (b + k = Z.min (b + n) (rend r)) as Hbk by lia. clearbody k.
  destruct (Z.eq_dec k (2 ^ 64)) as [Ek|Ek].
  { left. split; [lia|]. rewrite (get64_Fault now k) by (done || lia). done. }
  rewrite (get64_Ret now k) by (done || lia). cbv beta iota.
  pose proof (pending_advance _ _ _ _ _ _ _ Hp Hnow Hk) as Hp'.
  specialize (IH _ _ _ _ _ Hp' ltac:(lia)).
  rewrite length_app, Nat.add_1_r, <- app_assoc in IH. cbn [app] in IH.
  destruct IH as [[? Hf]|(rest' & E & Hv & Hat)]; [left; split; [lia|done]|].
  right. exists rest'. rewrite <- app_assoc in E. split; [done|]. split; [done|]. intros a.
  rewrite !view_at_cons, Hat, shown_wrap by lia. rewrite (shown_split fr0 off b n k) by done.
  rewrite <- !orelse_assoc, <- view_at_cons. f_equal.
  symmetry. destruct (Z.eq_dec n 0) as [->|].
  - replace k with 0 by lia. rewrite shown_empty. apply orelse_None.
  - apply shown_hidden; lia.
Qed.

Lemma view_nonempty (done : FlatView) r rest : (length done <? length (done ++ r :: rest))%nat = true.
Proof. apply Nat.ltb_lt. rewrite length_app. simpl. lia. Qed.

(** The gap before [r], if there is one. *)
Lemma fill_gap_ok fr0 r done rest base b off remain n :
  pending base b off remain n -> 0 < n -> wf_range r -> b < rend r ->
  exists gap base' b' off' remain' n',
    fill_gap fr0 r (done ++ r :: rest) (length done) base off remain
    = Ret ((done ++ gap) ++ r :: rest, length (done ++ gap), base', off', remain')
    /\ pending base' b' off' remain' n' /\ (n' = 0 \/ rstart r <= b') /\ b' <= rend r
    /\ (n' = 2 ^ 64 -> n = 2 ^ 64)
    /\ (forall p v, p <= b -> p <= rstart r -> view_from (rend r) v -> view_from p (gap ++ r :: v))
    /\ (forall v a, view_at (gap ++ v) a = orelse (view_at gap a) (view_at v a))
    /\ (forall a, shown fr0 off b n a = orelse (view_at gap a) (shown fr0 off' b' n' a))
    /\ (forall a v, view_from (rstart r) v ->
          orelse (view_at gap a) (view_at v a) = orelse (view_at v a) (view_at gap a)).
Proof.
  intros Hp Hn Hr Hb. destruct (Hp) as [P1 P2 P3 P4 P5 P6 P7].
  pose proof (wf_upper r Hr). pose proof (wf_lower r Hr). pose proof (wf_nonempty r Hr).
  unfold fill_gap. rewrite (rep_lt _ _ b (rstart r)) by (done || apply Hr).
  destruct (Z.ltb_spec b (rstart r)) as [Hlt|].
  2: { exists [], base, b, off, remain, n. rewrite !app_nil_r. split_and!; try done; try lia.
       intros a v _. change (view_at [] a) with (@None cell). by rewrite orelse_None. }
  set (now := int128_min remain _). set (k := Z.min n (rstart r - b)).
  assert (rep now k) as Hnow.
  { apply rep_min; [done|]. apply rep_sub; [apply Hr|done|apply in128_small; unfold rend in *; lia]. }
  rewrite (get64_Ret now k) by (done || (unfold rend in *; lia)). cbn [mbind outcome_bind].
  set (g := with_range fr0 off (addrrange_make base now)).
  destruct (wf_with_range fr0 off base b now k) as (W1 & W2 & W3); try done; try lia. fold g in W1, W2, W3.
  exists [g], (int128_addto base now), (b + k), (u64 (off + k)), (int128_subfrom remain now), (n - k).
  rewrite insert_middle, length_app, Nat.add_1_r.
  split; [done|]. split; [apply pending_advance; [done|done|lia]|].
  split; [unfold rend in *; lia|]. split; [unfold rend in *; lia|]. split; [lia|].
  split. { intros p v ? ? ?. simpl. rewrite W2, W3. split_and!; try done; try lia. }
  split. { intros v a. by rewrite view_at_one. }
  assert (forall a, view_at [g] a = shown fr0 off b k a) as Eg.
  { intros a. rewrite view_at_one. by apply cell_with_range. }
  split.
  { intros a. rewrite Eg, shown_wrap by lia. apply shown_split. lia. }
  intros a v Hv. rewrite Eg. unfold shown. destruct (Z.leb_spec b a), (Z.ltb_spec a (b + k)); simpl;
    rewrite ?orelse_None; try done.
  rewrite (view_at_low (rstart r)) by (done || lia). done.
Qed.

Lemma render_gaps_ok fuel fr0 done rest base b off remain n p :
  (length rest <= fuel)%nat -> pending base b off remain n ->
  view_from p rest -> n = 0 \/ p <= b ->
  completes fr0 done rest p b off n
    (render_gaps fuel fr0 (done ++ rest) (length done) base off remain).
Proof.
  revert fuel done base b off remain n p.
  induction rest as [|r rest IH]; intros fuel done base b off remain n p Hf Hp Hv Hpb;
    destruct (Hp) as [P1 P2 P3 P4 P5 P6 P7].
  - right. rewrite app_nil_r.
    assert (render_gaps fuel fr0 done (length done) base off remain
            = if int128_nz remain
              then Ret (flatview_insert done (length done)
                          (with_range fr0 off (addrrange_make base remain)))
              else Ret done) as ->.
    { destruct fuel; simpl; rewrite Nat.ltb_irrefl; done. }
    rewrite (rep_nz remain n) by done. destruct (Z.eqb_spec n 0) as [->|]; simpl.
    + exists []. rewrite app_nil_r. split_and!; try done. intros a. by rewrite shown_empty.
    + destruct (wf_with_range fr0 off base b remain n) as (W1 & W2 & _); try done; try lia.
      eexists [_]. pose proof (insert_middle done []) as E. rewrite app_nil_r in E.
      rewrite E, app_nil_r. split; [done|]. split; [simpl; rewrite W2; split_and!; [lia|done|done]|].
      intros a. rewrite view_at_one. by apply cell_with_range.
  - destruct fuel as [|fuel]; simpl in Hf; [lia|]. destruct Hv as (V1 & V2 & V3).
    cbn [render_gaps]. rewrite view_nonempty, (rep_nz remain n) by done. cbn [andb].
    destruct (Z.eqb_spec n 0) as [->|Hn]; cbn [negb].
    { right. exists (r :: rest). split_and!; try done. intros a. by rewrite shown_empty, orelse_None. }
    rewrite range_at_middle. cbn [mbind outcome_bind].
    rewrite (rep_ge base _ b (rend r)) by (done || by apply rep_end).
    destruct (Z.leb_spec (rend r) b) as [Hge|Hlt].
    { destruct (IH fuel (done ++ [r]) base b off remain n (rend r)) as [[? E]|(rest' & E & Hv' & Hat)];
        try lia; try done; rewrite length_app, Nat.add_1_r, <- app_assoc in E; simpl in E.
      - left. done.
      - right. exists (r :: rest'). rewrite <- app_assoc in E. split_and!; try done.
        intros a. rewrite !view_at_cons, Hat. by rewrite orelse_assoc. }
    destruct (fill_gap_ok fr0 r done rest base b off remain n)
      as (gap & base' & b' & off' & remain' & n' & -> & Hp' & G1 & G2 & G3 & G4 & G5 & G6 & G7);
      try done; try lia. cbn [mbind outcome_bind].
    destruct (skip_range_ok fuel fr0 (done ++ gap) r rest base' b' off' remain' n')
      as [[? E]|(rest' & E & Hv' & Hat)]; try done.
    { intros. apply IH; done || lia. }
    { left. split; [auto|exact E]. }
    right. exists (gap ++ r :: rest'). split; [rewrite app_assoc; exact E|].
    split; [apply G4; done || lia|]. intros a.
    rewrite G5, Hat, G6, <- !orelse_assoc. f_equal. apply G7. simpl. split_and!; done.
Qed.

(** Induction on regions, through aliases and subregions. *)
Lemma wf_region_rect (lim : Z) (P : MemoryRegion -> Prop) :
  (forall mr,
     wf_region lim mr ->
     (forall alias, mr_alias mr = Some alias -> P alias) ->
     (forall s, s ∈ mr_subregions mr -> P s) ->
     P mr) ->
  forall mr, wf_region lim mr -> P mr.
Proof.
  intros H. fix go 2. intros mr Hmr. apply H; [done| |]; destruct Hmr as [mr H1 H2 H3 H4 H5 Ha Hs].
  - intros alias E. apply go, Ha, E.
  - intros s Es. apply go, Hs, Es.
Qed.

(** Ranges in integers. *)
Record rrep (r : AddrRange) (s n : Z) : Prop := {
  rrep_start : rep (start r) s;
  rrep_size : rep (size r) n;
}.

Definition inside (s n a : Z) : bool := (s <=? a) && (a <? s + n).

Lemma contains_ok r s n x a :
  rrep r s n -> rep x a -> in128 (s + n) -> addrrange_contains r x = inside s n a.
Proof.
  intros [] Hx Hin. unfold addrrange_contains, addrrange_end, inside.
  rewrite (rep_ge x (start r) a s), (rep_lt x _ a (s + n)) by auto using rep_add. done.
Qed.

Lemma intersects_ok r1 r2 s1 n1 s2 n2 :
  rrep r1 s1 n1 -> rrep r2 s2 n2 -> in128 (s1 + n1) -> in128 (s2 + n2) ->
  addrrange_intersects r1 r2 = inside s1 n1 s2 || inside s2 n2 s1.
Proof.
  intros H1 H2 I1 I2. unfold addrrange_intersects.
  rewrite (contains_ok r1 s1 n1 _ s2), (contains_ok r2 s2 n2 _ s1) by (done || apply H1 || apply H2). done.
Qed.

Lemma intersection_ok r1 r2 s1 n1 s2 n2 :
  rrep r1 s1 n1 -> rrep r2 s2 n2 -> in128 (s1 + n1) -> in128 (s2 + n2) ->
  in128 (Z.min (s1 + n1) (s2 + n2) - Z.max s1 s2) ->
  rrep (addrrange_intersection r1 r2) (Z.max s1 s2) (Z.min (s1 + n1) (s2 + n2) - Z.max s1 s2).
Proof.
  intros [] [] I1 I2 I3. unfold addrrange_intersection, addrrange_end.
  split; simpl; [by apply rep_max|].
  apply rep_sub; [apply rep_min; apply rep_add; done|by apply rep_max|done].
Qed.

(** Rendering adds what the region shows inside the clipping range. *)
Definition renders (lim : Z) (mr : MemoryRegion) : Prop :=
  forall view base b clip c k ro,
    rep base b -> - 3 * 2 ^ 64 <= b <= 2 ^ 64 ->
    rrep clip c k -> 0 <= c -> 0 <= k -> c + k <= 2 ^ 64 ->
    view_from 0 view ->
    (lim = 2 ^ 64 /\ render_memory_region view mr base clip ro = Fault AssertFailed)
    \/ exists view', render_memory_region view mr base clip ro = Ret view' /\ view_from 0 view'
       /\ forall a, view_at view' a
                    = orelse (view_at view a) (if inside c k a then resolve mr b ro a else None).

Lemma render_subs_ok lim subs base b clip c k ro view :
  (forall s, s ∈ subs -> renders lim s) ->
  rep base b -> - 3 * 2 ^ 64 <= b <= 2 ^ 64 ->
  rrep clip c k -> 0 <= c -> 0 <= k -> c + k <= 2 ^ 64 -> view_from 0 view ->
  let res := foldM (fun s view => render_memory_region view s base clip ro) view subs in
  (lim = 2 ^ 64 /\ res = Fault AssertFailed)
  \/ exists view', res = Ret view' /\ view_from 0 view'
     /\ forall a, view_at view' a
                  = orelse (view_at view a)
                      (if inside c k a then first_some (fun s => resolve s b ro a) subs else None).
Proof.
  intros Hs Hb Hbr Hc H1 H2 H3. revert view. induction subs as [|s subs IH]; intros view Hv res; subst res.
  { right. exists view. split_and!; try done. intros a. simpl. by case_match; rewrite orelse_None. }
  cbn [foldM]. destruct (Hs s ltac:(left) view base b clip c k ro) as [[? ->]|(v1 & -> & Hv1 & Hat1)];
    try done; [left; done|]. cbn [mbind outcome_bind].
  destruct (IH ltac:(intros; apply Hs; by right) v1 Hv1) as [[? E]|(v2 & E & Hv2 & Hat2)]; [by left|].
  right. exists v2. split_and!; try done. intros a. rewrite Hat2, Hat1, orelse_assoc. f_equal.
  destruct (inside c k a); done.
Qed.

(** [resolve] behind the checks every branch starts with. *)
Definition resolve_inner (mr : MemoryRegion) (b : Z) (ro : bool) (a : Z) : option cell :=
  match mr_alias mr with
  | Some alias => resolve alias (b - mr_addr alias - mr_alias_offset mr) ro a
  | None =>
      match first_some (fun s => resolve s b ro a) (mr_subregions mr) with
      | Some c => Some c
      | None =>
          if mr_terminates mr then
            Some {| c_mr := mr_id mr; c_offset := a - b; c_dirty := mr_dirty_log_mask mr;
                    c_romd := mr_romd_mode mr; c_readonly := ro |}
          else None
      end
  end.

Lemma resolve_unfold mr b ro a :
  resolve mr b ro a
  = if mr_enabled mr then
      if inside (b + mr_addr mr) (val (mr_size mr)) a
      then resolve_inner mr (b + mr_addr mr) (ro || mr_readonly mr) a else None
    else None.
Proof. destruct mr as [? ? ? ? ? ? []]; done. Qed.

(** The region itself, in the gaps of a view with its subregions. *)
Lemma render_self_ok lim mr view b base clip c k ro :
  rep base b -> - 2 ^ 64 <= b <= 2 ^ 64 -> rrep clip c k -> 0 <= c -> 0 <= k -> c + k <= 2 ^ 64 ->
  b <= c -> c + k <= b + 2 ^ 64 -> c < b + 2 ^ 64 -> (k = 2 ^ 64 -> lim = 2 ^ 64) ->
  view_from 0 view ->
  let fr off :=
    {| fr_mr := mr_id mr; offset_in_region := off; fr_addr := clip;
       dirty_log_mask := mr_dirty_log_mask mr; romd_mode := mr_romd_mode mr; readonly := ro |} in
  let res :=
    offset ← int128_get64 (int128_sub (start clip) base);
    render_gaps (length view) (fr offset) view 0 (start clip) offset (size clip) in
  (lim = 2 ^ 64 /\ res = Fault AssertFailed)
  \/ exists view', res = Ret view' /\ view_from 0 view'
     /\ forall a, view_at view' a
                  = orelse (view_at view a)
                      (if inside c k a then
                         Some {| c_mr := mr_id mr; c_offset := a - b;
                                 c_dirty := mr_dirty_log_mask mr; c_romd := mr_romd_mode mr;
                                 c_readonly := ro |}
                       else None).
Proof.
  intros Hb Hbr [Hc Hk] H1 H2 H3 H4 H5 H6 Hlim Hv fr res. subst res.
  rewrite (get64_Ret _ (c - b)); [|apply rep_sub; [done|done|apply in128_small; lia]|lia].
  cbn [mbind outcome_bind].
  destruct (render_gaps_ok (length view) (fr (c - b)) [] view (start clip) c (c - b) (size clip) k 0)
    as [[? E]|(v & E & Hv' & Hat)]; try done; try lia; [constructor; done || lia|left; auto|].
  right. exists v. split_and!; try done. intros a. rewrite Hat. f_equal. unfold shown, inside.
  destruct ((c <=? a) && (a <? c + k)); [|done]. f_equal. f_equal. lia.
Qed.

(** The branches behind the checks. *)
Definition render_inner (view : FlatView) (mr : MemoryRegion) (base : Int128) (clip : AddrRange)
    (ro : bool) : outcome FlatView :=
  match mr_alias mr with
  | Some alias =>
      render_memory_region view alias
        (int128_subfrom (int128_subfrom base (int128_make64 (mr_addr alias)))
           (int128_make64 (mr_alias_offset mr))) clip ro
  | None =>
      view ← foldM (fun s view => render_memory_region view s base clip ro) view (mr_subregions mr);
      if negb (mr_terminates mr) then Ret view
      else
        offset ← int128_get64 (int128_sub (start clip) base);
        render_gaps (length view)
          {| fr_mr := mr_id mr; offset_in_region := offset; fr_addr := clip;
             dirty_log_mask := mr_dirty_log_mask mr; romd_mode := mr_romd_mode mr;
             readonly := ro |} view 0 (start clip) offset (size clip)
  end.

Lemma render_unfold view mr base clip ro :
  render_memory_region view mr base clip ro
  = let base := int128_addto base (int128_make64 (mr_addr mr)) in
    let tmp := addrrange_make base (mr_size mr) in
    if mr_enabled mr then
      if addrrange_intersects tmp clip
      then render_inner view mr base (addrrange_intersection tmp clip) (ro || mr_readonly mr)
      else Ret view
    else Ret view.
Proof.
  destruct mr as [? ? ? ? ? ? [] ? ? ? ? ? ?]; cbn -[addrrange_intersects]; [|done].
  by destruct (addrrange_intersects _ _).
Qed.

Lemma render_inner_ok lim mr view base b clip c k ro :
  lim <= 2 ^ 64 -> wf_region lim mr ->
  (forall alias, mr_alias mr = Some alias -> renders lim alias) ->
  (forall s, s ∈ mr_subregions mr -> renders lim s) ->
  rep base b -> - 2 ^ 64 <= b <= 2 ^ 64 -> rrep clip c k -> 0 <= c -> 0 <= k -> c + k <= 2 ^ 64 ->
  b <= c -> c + k <= b + val (mr_size mr) -> c < b + 2 ^ 64 -> view_from 0 view ->
  (lim = 2 ^ 64 /\ render_inner view mr base clip ro = Fault AssertFailed)
  \/ exists view', render_inner view mr base clip ro = Ret view' /\ view_from 0 view'
     /\ forall a, view_at view' a
                  = orelse (view_at view a) (if inside c k a then resolve_inner mr b ro a else None).
Proof.
  intros Hl Hwf IHa IHs Hb Hbr Hc H1 H2 H3 H4 H5 H6 Hv.
  destruct Hwf as [mr Hok Hsz Haddr Hoff Hlim Hal _]. unfold render_inner, resolve_inner.
  destruct (mr_alias mr) as [alias|].
  - assert (0 <= mr_addr alias < 2 ^ 64) as Hadr by (destruct (Hal alias eq_refl); done).
    apply (IHa alias eq_refl); try done; [|lia].
    apply rep_sub; [|by apply rep_make64|apply in128_small; lia].
    apply rep_sub; [done|by apply rep_make64|apply in128_small; lia].
  - destruct (render_subs_ok lim (mr_subregions mr) base b clip c k ro view)
      as [[? ->]|(v1 & -> & Hv1 & Hat1)]; try done; try lia; [by left|]. cbn [mbind outcome_bind].
    destruct (mr_terminates mr) eqn:Et; cbn [negb].
    2: { right. exists v1. split_and!; try done. intros a. rewrite Hat1.
         destruct (inside c k a); [|done]. by destruct (first_some _ _). }
    specialize (Hlim eq_refl).
    destruct (render_self_ok lim mr v1 b base clip c k ro) as [?|(v2 & E & Hv2 & Hat2)];
      try done; try lia; [by left|].
    right. exists v2. split_and!; try done. intros a. rewrite Hat2, Hat1, orelse_assoc. f_equal.
    destruct (inside c k a); [|done]. by destruct (first_some _ _).
Qed.

Lemma render_ok lim mr : lim <= 2 ^ 64 -> wf_region lim mr -> renders lim mr.
Proof.
  intros Hl. revert mr. apply wf_region_rect.
  intros mr Hwf IHa IHs view base b clip c k ro Hb Hbr Hc H1 H2 H3 Hv.
  assert (ok128 (mr_size mr) /\ 0 <= val (mr_size mr) <= 2 ^ 64 /\ 0 <= mr_addr mr < 2 ^ 64)
    as (Hok & Hsz & Haddr) by (destruct Hwf; done).
  rewrite render_unfold. cbv zeta. setoid_rewrite resolve_unfold.
  destruct (mr_enabled mr).
  2: { right. exists view. split_and!; try done. intros a. by case_match; rewrite orelse_None. }
  set (base1 := int128_addto base (int128_make64 (mr_addr mr))). set (b1 := b + mr_addr mr).
  set (n := val (mr_size mr)) in *.
  assert (rep base1 b1) as Hb1.
  { apply rep_add; [done|by apply rep_make64|apply in128_small; lia]. }
  assert (rrep (addrrange_make base1 (mr_size mr)) b1 n) as Htmp by (split; [done|by apply rep_val_self]).
  rewrite (intersects_ok _ _ b1 n c k) by (done || (apply in128_small; lia)).
  destruct (inside b1 n c || inside c k b1) eqn:Ei.
  - assert (b1 <= c < b1 + n \/ c <= b1 < c + k) as Hi.
    { apply orb_true_iff in Ei. unfold inside in Ei. rewrite !andb_true_iff in Ei. lia. }
    set (c1 := Z.max b1 c). set (k1 := Z.min (b1 + n) (c + k) - c1).
    destruct (render_inner_ok lim mr view base1 b1
                (addrrange_intersection (addrrange_make base1 (mr_size mr)) clip) c1 k1
                (ro || mr_readonly mr)) as [?|(v & E & Hv' & Hat)]; try done; try lia; [|by left|].
    { apply intersection_ok; try done; apply in128_small; lia. }
    right. exists v. split_and!; try done. intros a. rewrite Hat. f_equal.
    replace (inside c1 k1 a) with (inside c k a && inside b1 n a).
    + destruct (inside c k a), (inside b1 n a); done.
    + unfold inside. apply eq_true_iff_eq. rewrite !andb_true_iff. lia.
  - right. exists view. split_and!; try done. intros a.
    apply orb_false_iff in Ei as [E1 E2]. unfold inside in *.
    apply andb_false_iff in E1. apply andb_false_iff in E2.
    destruct ((c <=? a) && (a <? c + k)) eqn:Ea, ((b1 <=? a) && (a <? b1 + n)) eqn:Eb;
      rewrite ?orelse_None; try done. rewrite !andb_true_iff in *. lia.
Qed.

(** ** Merging *)

(** No two neighbours can be merged. *)
Fixpoint maximal (view : FlatView) : bool :=
  match view with
  | r1 :: ((r2 :: _) as rest) => negb (can_merge r1 r2) && maximal rest
  | _ => true
  end.

(** [can_merge] in integers. *)
Lemma can_merge_ok r1 r2 :
  wf_range r1 -> wf_range r2 ->
  can_merge r1 r2
  = (rend r1 =? rstart r2) && (fr_mr r1 =? fr_mr r2)
    && (offset_in_region r1 + rsize r1 =? offset_in_region r2)
    && (dirty_log_mask r1 =? dirty_log_mask r2)
    && eqb (romd_mode r1) (romd_mode r2) && eqb (readonly r1) (readonly r2).
Proof.
  intros H1 H2. pose proof (rep_end r1 H1). destruct H1, H2. unfold can_merge.
  rewrite (rep_eq _ _ (rend r1) (rstart r2)) by done.
  rewrite (rep_eq _ _ (offset_in_region r1 + rsize r1) (offset_in_region r2)); [done| |].
  - apply rep_add; [apply rep_make64; lia|done|apply in128_small; lia].
  - apply rep_make64. lia.
Qed.

(** [ri] ends with [prev]. *)
Record ends_with (ri prev : FlatRange) : Prop := {
  ew_ri : wf_range ri;
  ew_prev : wf_range prev;
  ew_end : rend ri = rend prev;
  ew_offset : offset_in_region ri + rsize ri = offset_in_region prev + rsize prev;
  ew_mr : fr_mr ri = fr_mr prev;
  ew_dirty : dirty_log_mask ri = dirty_log_mask prev;
  ew_romd : romd_mode ri = romd_mode prev;
  ew_readonly : readonly ri = readonly prev;
}.

Lemma can_merge_ends ri prev r : ends_with ri prev -> wf_range r -> can_merge ri r = can_merge prev r.
Proof.
  intros [] Hr. rewrite !can_merge_ok by done. congruence.
Qed.

Lemma grow_ok ri prev r :
  ends_with ri prev -> wf_range r -> can_merge prev r = true ->
  ends_with (grow ri r) r /\ rstart (grow ri r) = rstart ri
  /\ forall a, cell_at (grow ri r) a = orelse (cell_at ri a) (cell_at r a).
Proof.
  intros [] Hr. rewrite can_merge_ok, !andb_true_iff, !Z.eqb_eq, !eqb_true_iff by done.
  intros (((((M1 & M2) & M3) & M4) & M5) & M6).
  assert (rep (size (fr_addr (grow ri r))) (rsize ri + rsize r)) as Hs.
  { destruct ew_ri0, Hr. apply rep_add; [done|done|apply in128_small; unfold rend in *; lia]. }
  assert (rsize (grow ri r) = rsize ri + rsize r) as Es by apply Hs.
  assert (rstart (grow ri r) = rstart ri) as E1 by done.
  assert (rend (grow ri r) = rend r) as E2 by (unfold rend in *; lia).
  split; [|split; [done|]].
  - destruct ew_ri0, (Hr). constructor; rewrite ?E2; try done; simpl; try congruence; [|lia].
    constructor; rewrite ?E1, ?E2, ?Es; simpl; done || (unfold rend in *; lia).
  - intros a. unfold cell_at. rewrite E1, E2. simpl.
    pose proof (wf_nonempty r Hr). pose proof (wf_nonempty ri ew_ri0). unfold rend in *.
    destruct (Z.leb_spec (rstart ri) a), (Z.ltb_spec a (rstart r + rsize r)),
      (Z.ltb_spec a (rstart ri + rsize ri)), (Z.leb_spec (rstart r) a); simpl; try lia; try done.
    f_equal. f_equal; try congruence. lia.
Qed.

Lemma simplify_loop_head ri prev rest :
  exists r v, simplify_loop ri prev rest = r :: v
    /\ rstart r = rstart ri /\ offset_in_region r = offset_in_region ri /\ fr_mr r = fr_mr ri
    /\ dirty_log_mask r = dirty_log_mask ri /\ romd_mode r = romd_mode ri
    /\ readonly r = readonly ri.
Proof.
  revert ri prev. induction rest as [|rj rest IH]; intros ri prev; simpl; [by eexists _, _|].
  destruct (can_merge prev rj); [|by eexists _, _].
  destruct (IH (grow ri rj) rj) as (r & v & E & H). exists r, v. done.
Qed.

Lemma simplify_loop_ok ri prev rest p :
  ends_with ri prev -> view_from (rend prev) rest -> p <= rstart ri ->
  view_from p (simplify_loop ri prev rest)
  /\ (forall a, view_at (simplify_loop ri prev rest) a = orelse (cell_at ri a) (view_at rest a))
  /\ maximal (simplify_loop ri prev rest) = true.
Proof.
  revert ri prev p. induction rest as [|rj rest IH]; intros ri prev p He Hv Hp; cbn [simplify_loop].
  { split_and!; try done. simpl. split_and!; [lia|apply He|done]. }
  destruct Hv as (V1 & V2 & V3). destruct (can_merge prev rj) eqn:Em.
  - destruct (grow_ok ri prev rj He V2 Em) as (G1 & G2 & G3).
    destruct (IH (grow ri rj) rj p G1 V3 ltac:(lia)) as (I1 & I2 & I3). split_and!; try done.
    intros a. rewrite I2, G3, orelse_assoc. done.
  - assert (ends_with rj rj) as Hj by (constructor; done).
    destruct (IH rj rj (rend ri) Hj V3) as (I1 & I2 & I3); [rewrite (ew_end ri prev He); done|].
    split; [simpl; split_and!; [lia|apply He|done]|].
    split; [intros a; rewrite view_at_cons, I2; done|].
    destruct (simplify_loop_head rj rj rest) as (r & v & E & Q1 & Q2 & Q3 & Q4 & Q5 & Q6).
    rewrite E in *. cbn [maximal]. apply andb_true_iff. split; [|done].
    assert (can_merge ri r = can_merge prev rj) as ->; [|by rewrite Em].
    rewrite <- (can_merge_ends ri prev rj He V2), !can_merge_ok by (done || apply He || apply I1).
    congruence.
Qed.

Lemma flatview_simplify_ok view :
  view_from 0 view ->
  view_from 0 (flatview_simplify view)
  /\ (forall a, view_at (flatview_simplify view) a = view_at view a)
  /\ maximal (flatview_simplify view) = true.
Proof.
  destruct view as [|r rest]; [done|]. intros (V1 & V2 & V3).
  apply (simplify_loop_ok r r rest 0); [constructor; done|done|done].
Qed.

Lemma generate_ok mr lim :
  lim <= 2 ^ 64 -> wf_region lim mr ->
  (lim = 2 ^ 64 /\ generate_memory_topology (Some mr) = Fault AssertFailed)
  \/ exists view,
    generate_memory_topology (Some mr) = Ret view
    /\ view_from 0 view /\ maximal view = true
    /\ forall a, 0 <= a < 2 ^ 64 -> view_at view a = resolve mr 0 false a.
Proof.
  intros Hl Hwf. unfold generate_memory_topology.
  destruct (render_ok lim mr Hl Hwf flatview_init int128_zero 0
              (addrrange_make int128_zero int128_2_64) 0 (2 ^ 64) false)
    as [[? ->]|(v & -> & Hv & Hat)]; try done; try lia.
  - by left.
  - right. destruct (flatview_simplify_ok v Hv) as (S1 & S2 & S3).
    exists (flatview_simplify v). split_and!; try done. intros a Ha. rewrite S2, Hat. simpl.
    unfold inside. destruct (Z.leb_spec 0 a), (Z.ltb_spec a (0 + 2 ^ 64)); done || lia.
Qed.

(** C6: rendering a well-formed tree of regions and merging the result gives a
    sorted list of nonempty disjoint ranges below 2^64 that shows at every
    address what the tree has there, with subregions before their container
    and earlier subregions before later ones, through aliases and clipped to
    every region on the way; no two neighbours can be merged.  It always
    returns when no region that takes accesses has 2^64 bytes; otherwise the
    only failure is an assertion. *)
Theorem generate_memory_topology_correct mr lim :
  lim <= 2 ^ 64 -> wf_region lim mr ->
  (lim = 2 ^ 64 /\ generate_memory_topology (Some mr) = Fault AssertFailed)
  \/ exists view,
    generate_memory_topology (Some mr) = Ret view
    /\ view_from 0 view /\ maximal view = true
    /\ forall a, 0 <= a < 2 ^ 64 -> view_at view a = resolve mr 0 false a.
Proof. apply generate_ok. Qed.

(** RAM of 1 MiB with a ROM over its end, a device window of higher priority
    that hides a part of both, and an alias of the window at 4 GiB. *)
Definition leaf (id : Z) (sz : Z) (ro : bool) : MemoryRegion :=
  MkRegion id (int128_make64 sz) 0 true true ro true None 0 0 false [] 0.

Definition container (id : Z) : MemoryRegion :=
  MkRegion id int128_2_64 0 false true false true None 0 0 false [] 0.

Definition alias_of (id : Z) (mr : MemoryRegion) (offset sz : Z) : MemoryRegion :=
  MkRegion id (int128_make64 sz) 0 false true false true (Some mr) offset 0 false [] 0.

Definition sample_window : MemoryRegion := leaf 3 0xc000 false.

Definition sample_map : MemoryRegion :=
  let root := memory_region_add_subregion (container 0) 0 (leaf 1 0x100000 false) in
  let root := memory_region_add_subregion root 0xf0000 (leaf 2 0x10000 true) in
  let root := memory_region_add_subregion_overlap root 0xe8000 sample_window 1 in
  memory_region_add_subregion root 0x100000000 (alias_of 4 sample_window 0x1000 0x800).

Ltac wf_tree :=
  repeat (apply wf_region_intro;
    [constructor; vm_compute; split; congruence | vm_compute; split; congruence
    | vm_compute; split; congruence | vm_compute; split; congruence
    | vm_compute; congruence
    | intros ? E; vm_compute in E; simplify_eq
    | intros ? E; vm_compute in E; repeat (apply elem_of_cons in E as [->|E]);
      try (by apply elem_of_nil in E)]).

Lemma generate_memory_topology_correct_witness :
  exists view, generate_memory_topology (Some sample_map) = Ret view /\ maximal view = true
    /\ view_at view 0xf7fff = resolve sample_map 0 false 0xf7fff /\ length view = 4%nat.
Proof.
  assert (wf_region (2 ^ 64 - 1) sample_map) as Hwf by wf_tree.
  destruct (generate_memory_topology_correct sample_map (2 ^ 64 - 1) ltac:(lia) Hwf)
    as [[H _]|(view & E & _ & Hm & Hat)]; [discriminate H|].
  exists view. split; [exact E|]. split; [exact Hm|]. split; [apply Hat; lia|].
  assert (generate_memory_topology (Some sample_map) = Ret view) as E' by exact E.
  vm_compute in E'. injection E' as <-. reflexivity.
Defined.

(** The assertion does fail: a region of 2^64 bytes that is entirely hidden
    by another one of 2^64 bytes cannot be rendered, because the size of the
    hidden part is converted to 64 bits. *)
Example full_region_asserts :
  let full id := MkRegion id int128_2_64 0 true true false true None 0 0 false [] 0 in
  let root :=
    memory_region_add_subregion_overlap
      (memory_region_add_subregion_overlap (container 0) 0 (full 1) 0) 0 (full 2) 1 in
  wf_region (2 ^ 64) root /\ resolve root 0 false 0 <> None
  /\ generate_memory_topology (Some root) = Fault AssertFailed.
Proof. split; [wf_tree|]. split; [by vm_compute|]. vm_compute. reflexivity. Qed.

(** ** Priorities *)

Definition above (priority : Z) (s : MemoryRegion) : Prop := priority < mr_priority s.
#[export] Instance above_dec priority s : Decision (above priority s) := Z_lt_dec _ _.

Definition by_priority : list MemoryRegion -> Prop :=
  StronglySorted (fun s t => mr_priority t <= mr_priority s).

Lemma list_filter_all {A} (P : A -> Prop) `{forall x, Decision (P x)} (l : list A) :
  (forall x, x ∈ l -> P x) -> filter P l = l.
Proof.
  induction l as [|x l IH]; intros Hl; [done|]. rewrite filter_cons_True by (apply Hl; left).
  f_equal. apply IH. intros y Hy. apply Hl. by right.
Qed.

Lemma list_filter_none {A} (P : A -> Prop) `{forall x, Decision (P x)} (l : list A) :
  (forall x, x ∈ l -> ~ P x) -> filter P l = [].
Proof.
  induction l as [|x l IH]; intros Hl; [done|]. rewrite filter_cons_False by (apply Hl; left).
  apply IH. intros y Hy. apply Hl. by right.
Qed.

Lemma insert_subregion_split sub subs :
  by_priority subs ->
  insert_subregion sub subs
  = filter (above (mr_priority sub)) subs ++ sub :: filter (fun s => ~ above (mr_priority sub) s) subs.
Proof.
  intros Hs. induction Hs as [|s subs Hs IH Hall]; [done|]. cbn [insert_subregion].
  rewrite Forall_forall in Hall. destruct (Z.leb_spec (mr_priority s) (mr_priority sub)).
  - rewrite list_filter_none, list_filter_all; [done| |]; intros t Ht; unfold above;
      apply elem_of_cons in Ht as [->|Ht%Hall]; lia.
  - rewrite filter_cons_True, filter_cons_False, IH by (unfold above; lia). done.
Qed.

Lemma first_some_app {A B} (f : A -> option B) l1 l2 :
  first_some f (l1 ++ l2) = orelse (first_some f l1) (first_some f l2).
Proof. induction l1 as [|x l1 IH]; simpl; [done|]. by destruct (f x). Qed.

Lemma by_priority_filter P `{forall s, Decision (P s)} subs :
  by_priority subs -> by_priority (filter P subs).
Proof.
  intros Hs. induction Hs as [|s subs Hs IH Hall]; [constructor|]. rewrite filter_cons.
  case_decide; [|done]. constructor; [done|]. rewrite Forall_forall in *.
  intros t [_ Ht]%list_elem_of_filter. by apply Hall.
Qed.

Lemma by_priority_app l1 l2 :
  by_priority l1 -> by_priority l2 ->
  (forall s t, s ∈ l1 -> t ∈ l2 -> mr_priority t <= mr_priority s) -> by_priority (l1 ++ l2).
Proof.
  intros H1 H2 H. induction H1 as [|s l1 H1 IH Hall]; [done|]. simpl. constructor.
  - apply IH. intros x y Hx Hy. apply H; [by right|done].
  - apply Forall_app. split; [done|]. apply Forall_forall. intros t Ht. apply H; [left|done].
Qed.

(** Adding a subregion keeps the subregions in order of priority, and the
    new one hides those of at most its priority, and is hidden by those of
    higher priority only, at every address. *)
Lemma add_subregion_priority mr sub base ro a :
  by_priority (mr_subregions mr) ->
  let priority := mr_priority sub in
  let mr' := memory_region_update_container_subregions mr sub in
  let shows l := first_some (fun s => resolve s base ro a) l in
  by_priority (mr_subregions mr')
  /\ shows (mr_subregions mr')
     = orelse (shows (filter (above priority) (mr_subregions mr)))
         (orelse (resolve sub base ro a)
            (shows (filter (fun s => ~ above priority s) (mr_subregions mr)))).
Proof.
  intros Hs priority mr' shows.
  assert (mr_subregions mr'
          = filter (above priority) (mr_subregions mr)
            ++ sub :: filter (fun s => ~ above priority s) (mr_subregions mr)) as ->.
  { by apply insert_subregion_split. }
  split; [|unfold shows; by rewrite first_some_app].
  apply by_priority_app; [by apply by_priority_filter| |].
  - constructor; [by apply by_priority_filter|]. apply Forall_forall.
    intros t [Ht _]%list_elem_of_filter. unfold above, priority in *. lia.
  - intros s t [Hs1 _]%list_elem_of_filter Ht. unfold above, priority in *.
    apply elem_of_cons in Ht as [->|[Ht _]%list_elem_of_filter]; lia.
Qed.

Lemma add_subregion_priority_witness :
  by_priority (mr_subregions sample_map)
  /\ by_priority (mr_subregions (memory_region_add_subregion_overlap sample_map 0 sample_window 0)).
Proof.
  assert (by_priority (mr_subregions sample_map)) as H by (repeat constructor; simpl; lia).
  split; [exact H|].
  exact (proj1 (add_subregion_priority sample_map (place_region sample_window 0 0 true) 0 false 0 H)).
Defined.

(** ** Listener events *)

Definition has_equal (view : FlatView) (r : FlatRange) : bool := existsb (flatrange_equal r) view.

(** The range of [view] that is equal to [r]. *)
Definition find_equal (view : FlatView) (r : FlatRange) : option FlatRange :=
  List.find (fun o => flatrange_equal o r) view.

(** What the second pass says about a range of the new view. *)
Definition add_events (old : FlatView) (frnew : FlatRange) : list event :=
  match find_equal old frnew with
  | Some frold => nop_events frold frnew
  | None => [RegionAdd frnew]
  end.

Lemma int128_eq_true a b : int128_eq a b = true -> a = b.
Proof.
  unfold int128_eq. intros [H1%Z.eqb_eq H2%Z.eqb_eq]%andb_true_iff. destruct a, b. simpl in *. by subst.
Qed.

Lemma equal_addr a b : flatrange_equal a b = true -> fr_addr a = fr_addr b.
Proof.
  unfold flatrange_equal, addrrange_equal. rewrite !andb_true_iff.
  intros ((((_ & H1%int128_eq_true & H2%int128_eq_true) & _) & _) & _).
  destruct (fr_addr a), (fr_addr b). simpl in *. by subst.
Qed.

Lemma equal_start a b : flatrange_equal a b = true -> rstart a = rstart b.
Proof. intros E%equal_addr. unfold rstart. by rewrite E. Qed.

Lemma view_from_elem p view r : view_from p view -> r ∈ view -> p <= rstart r /\ wf_range r.
Proof.
  revert p. induction view as [|fr view IH]; intros p Hv Hr; [by apply elem_of_nil in Hr|].
  destruct Hv as (H1 & H2 & H3). apply elem_of_cons in Hr as [->|Hr]; [done|].
  destruct (IH _ H3 Hr) as [H4 ?]. split; [|done]. pose proof (wf_nonempty fr H2).
  unfold rend in H4. lia.
Qed.

(** No range of a view is equal to one that starts before it. *)
Lemma view_before p view r s :
  view_from p view -> rstart r < p -> s ∈ view ->
  flatrange_equal r s = false /\ flatrange_equal s r = false.
Proof.
  intros Hv Hr Hs. destruct (view_from_elem p view s Hv Hs) as [Hp _].
  split; apply not_true_is_false; intros E%equal_start; lia.
Qed.

Lemma no_equal_before p view r : view_from p view -> rstart r < p -> has_equal view r = false.
Proof.
  intros Hv Hr. apply not_true_is_false. intros (s & Hs & E)%existsb_exists.
  apply list_elem_of_In in Hs. destruct (view_before p view r s Hv Hr Hs). congruence.
Qed.

Lemma no_find_before p view r : view_from p view -> rstart r < p -> find_equal view r = None.
Proof.
  intros Hv Hr. destruct (find_equal view r) as [s|] eqn:E; [|done].
  apply find_some in E as [Hs E]. apply list_elem_of_In in Hs.
  destruct (view_before p view r s Hv Hr Hs). congruence.
Qed.

Lemma rend_start r : wf_range r -> rstart r < rend r.
Proof. intros []. unfold rend. lia. Qed.

(** The ranges of [old] that [new] does not have. *)
Definition removed (old new : FlatView) : FlatView :=
  List.filter (fun o => negb (has_equal new o)) old.

(** A range at the head of one view does not matter for the later ones of the
    other. *)
Lemma removed_skip p old n new :
  view_from p old -> rstart n < p -> removed old (n :: new) = removed old new.
Proof.
  intros Hv Hn. apply filter_ext_in. intros o Ho%list_elem_of_In.
  destruct (view_before p old n o Hv Hn Ho) as [_ E]. simpl. by rewrite E.
Qed.

Lemma adds_skip p new o old :
  view_from p new -> rstart o < p ->
  flat_map (add_events (o :: old)) new = flat_map (add_events old) new.
Proof.
  intros Hv Ho. rewrite !flat_map_concat_map. f_equal. apply map_ext_in.
  intros n Hn%list_elem_of_In. destruct (view_before p new o n Hv Ho Hn) as [E _].
  unfold add_events, find_equal. simpl. by rewrite E.
Qed.

Lemma flatrange_equal_refl r : flatrange_equal r r = true.
Proof.
  unfold flatrange_equal, addrrange_equal, int128_eq. rewrite !Z.eqb_refl, !eqb_reflx. done.
Qed.

(** The three branches of the loop. *)
Lemma old_first_ok o n :
  wf_range o -> wf_range n ->
  if old_first o n then rstart o < rstart n \/ (rstart o = rstart n /\ flatrange_equal o n = false)
  else if flatrange_equal o n then rstart o = rstart n
  else rstart n < rstart o.
Proof.
  intros Ho Hn. unfold old_first.
  rewrite (rep_lt _ _ (rstart o) (rstart n)), (rep_eq _ _ (rstart o) (rstart n))
    by (apply Ho || apply Hn).
  destruct (flatrange_equal o n) eqn:E; [apply equal_start in E|];
    destruct (Z.ltb_spec (rstart o) (rstart n)), (Z.eqb_spec (rstart o) (rstart n)); simpl; auto; lia.
Qed.

Lemma topology_loop_ok fuel old new p q adding :
  view_from p old -> view_from q new -> (length old + length new <= fuel)%nat ->
  topology_loop fuel old new adding
  = Ret (if adding then flat_map (add_events old) new else RegionDel <$> removed old new).
Proof.
  revert old new p q. induction fuel as [|fuel IH]; intros old new p q Ho Hn Hf.
  { destruct old, new; simpl in Hf; try lia. by destruct adding. }
  destruct old as [|o old], new as [|n new]; cbn [topology_loop].
  - by destruct adding.
  - destruct Hn as (N1 & N2 & N3). simpl in Hf. rewrite (IH [] new p (rend n)) by (done || simpl; lia).
    by destruct adding.
  - destruct Ho as (O1 & O2 & O3). simpl in Hf. rewrite (IH old [] (rend o) q) by (done || simpl; lia).
    by destruct adding.
  - destruct (Ho) as (O1 & O2 & O3). destruct (Hn) as (N1 & N2 & N3). simpl in Hf.
    pose proof (old_first_ok o n O2 N2) as Hc. pose proof (rend_start o O2). pose proof (rend_start n N2).
    destruct (old_first o n); [|destruct (flatrange_equal o n) eqn:E].
    + rewrite (IH old (n :: new) (rend o) q) by (done || simpl; lia).
      assert (flatrange_equal o n = false) as En.
      { apply not_true_is_false. intros E. pose proof (equal_start _ _ E). destruct Hc as [?|[_ ?]]; [lia|congruence]. }
      assert (has_equal (n :: new) o = false) as Eh.
      { simpl. rewrite En. apply (no_equal_before (rend n)); [done|]. destruct Hc; lia. }
      assert (flat_map (add_events (o :: old)) (n :: new) = flat_map (add_events old) (n :: new)) as Ea.
      { cbn [flat_map]. rewrite (adds_skip (rend n) new o old) by (done || lia). f_equal.
        unfold add_events, find_equal. simpl. by rewrite En. }
      destruct adding; [by rewrite Ea|]. unfold removed. cbn [List.filter]. rewrite Eh. done.
    + rewrite (IH old new (rend o) (rend n)) by (done || simpl; lia).
      destruct adding.
      * cbn [flat_map]. rewrite (adds_skip (rend n) new o old) by (done || lia).
        unfold add_events at 2. unfold find_equal. simpl. by rewrite E.
      * rewrite <- (removed_skip (rend o) old n new) by (done || lia).
        assert (has_equal (n :: new) o = true) as Eh by (simpl; by rewrite E).
        unfold removed at 2. cbn [List.filter]. rewrite Eh. done.
    + rewrite (IH (o :: old) new p (rend n)) by (done || simpl; lia).
      destruct adding.
      * cbn [flat_map]. unfold add_events at 2.
        assert (find_equal (o :: old) n = None) as ->; [|done].
        unfold find_equal. simpl. rewrite E. apply (no_find_before (rend o)); [done|lia].
      * rewrite (removed_skip (rstart o) (o :: old) n new); [done| |lia]. simpl. auto with lia.
Qed.

(** What [flatrange_equal] compares. *)
Definition key (r : FlatRange) : Z * AddrRange * Z * bool * bool :=
  (fr_mr r, fr_addr r, offset_in_region r, romd_mode r, readonly r).

Lemma flatrange_equal_key a b : flatrange_equal a b = true <-> key a = key b.
Proof.
  split.
  - intros E. pose proof (equal_addr a b E) as Ea. unfold flatrange_equal in E.
    rewrite !andb_true_iff, !Z.eqb_eq, !eqb_true_iff in E. unfold key.
    destruct E as ((((-> & _) & ->) & ->) & ->). by rewrite Ea.
  - unfold key. intros [= E1 E2 E3 E4 E5]. rewrite <- (flatrange_equal_refl a).
    unfold flatrange_equal. congruence.
Qed.

Lemma has_equal_key view r : has_equal view r = true <-> key r ∈ key <$> view.
Proof.
  unfold has_equal. rewrite existsb_exists, list_elem_of_fmap. split.
  - intros (s & Hs%list_elem_of_In & E%flatrange_equal_key). eauto.
  - intros (s & E & Hs%list_elem_of_In). exists s. split; [done|by apply flatrange_equal_key].
Qed.

Definition overlaps (a b : FlatRange) : bool := (rstart a <? rend b) && (rstart b <? rend a).

(** A listener that keeps the ranges it was told of, and checks that it is told
    to forget or to keep only ranges it has, and to add only ranges that overlap
    none of those. *)
Definition listen (ev : event) (m : FlatView) : outcome FlatView :=
  match ev with
  | RegionDel fr =>
      if has_equal m fr then Ret (List.filter (fun x => negb (flatrange_equal x fr)) m)
      else Fault AssertFailed
  | RegionAdd fr => if existsb (overlaps fr) m then Fault AssertFailed else Ret (fr :: m)
  | RegionNop fr | LogStart fr | LogStop fr => if has_equal m fr then Ret m else Fault AssertFailed
  end.

Lemma foldM_app {A B} (f : A -> B -> outcome B) b b' l1 l2 :
  foldM f b l1 = Ret b' -> foldM f b (l1 ++ l2) = foldM f b' l2.
Proof.
  revert b. induction l1 as [|x l1 IH]; intros b E; simpl in *; [by injection E as ->|].
  destruct (f x b); try done. by apply IH.
Qed.

Lemma view_disjoint p view a b :
  view_from p view -> a ∈ view -> b ∈ view -> a = b \/ rend a <= rstart b \/ rend b <= rstart a.
Proof.
  revert p. induction view as [|r view IH]; intros p Hv Ha Hb; [by apply elem_of_nil in Ha|].
  destruct Hv as (_ & _ & Hv).
  apply elem_of_cons in Ha as [->|Ha]; apply elem_of_cons in Hb as [->|Hb]; auto.
  - right. left. by apply (view_from_elem _ view).
  - right. right. by apply (view_from_elem _ view).
  - by apply (IH (rend r)).
Qed.

Lemma key_range a b : key a = key b -> rstart a = rstart b /\ rend a = rend b.
Proof. unfold key, rend, rstart, rsize. intros [= _ -> _ _ _]. done. Qed.

Lemma key_inj_view p view a b : view_from p view -> a ∈ view -> b ∈ view -> key a = key b -> a = b.
Proof.
  intros Hv Ha Hb E. apply key_range in E as [E1 E2].
  destruct (view_from_elem p view a Hv Ha) as [_ H%rend_start].
  destruct (view_disjoint p view a b Hv Ha Hb) as [|]; [done|lia].
Qed.

(** The first pass leaves the ranges that stay. *)
Lemma listen_dels ds m :
  NoDup (key <$> ds) -> (forall d, d ∈ ds -> key d ∈ key <$> m) ->
  exists m', foldM listen m (RegionDel <$> ds) = Ret m'
    /\ forall x, x ∈ m' <-> x ∈ m /\ key x ∉ key <$> ds.
Proof.
  revert m. induction ds as [|d ds IH]; intros m Hnd Hds.
  { exists m. split; [done|]. intros x. simpl. rewrite elem_of_nil. tauto. }
  apply NoDup_cons in Hnd as [Hd Hnd]. cbn [foldM fmap list_fmap listen].
  rewrite (proj2 (has_equal_key m d)) by (apply Hds; left). cbn [mbind outcome_bind].
  set (m1 := List.filter _ m).
  assert (forall x, x ∈ m1 <-> x ∈ m /\ key x <> key d) as Hm1.
  { intros x. unfold m1. rewrite !list_elem_of_In, filter_In, negb_true_iff, <- not_true_iff_false.
    by rewrite flatrange_equal_key. }
  destruct (IH m1 Hnd) as (m' & E & Hm').
  { intros d' Hd'. specialize (Hds d' ltac:(by right)). apply list_elem_of_fmap in Hds as (x & Ex & Hx).
    rewrite Ex. apply list_elem_of_fmap_2, Hm1. split; [done|]. intros Ed. apply Hd.
    rewrite <- Ed, <- Ex. by apply list_elem_of_fmap_2. }
  exists m'. split; [exact E|]. intros x. rewrite Hm', Hm1. cbn [fmap list_fmap].
  rewrite not_elem_of_cons. tauto.
Qed.

Lemma view_from_middle p l1 r l2 d : view_from p (l1 ++ r :: l2) -> d ∈ l1 -> rend d <= rstart r.
Proof.
  revert p. induction l1 as [|x l1 IH]; intros p Hv Hd; [by apply elem_of_nil in Hd|].
  destruct Hv as (_ & _ & Hv). apply elem_of_cons in Hd as [->|Hd]; [|by apply (IH (rend x))].
  apply (view_from_elem _ (l1 ++ r :: l2)); [done|]. apply elem_of_app. right. left.
Qed.

Lemma listen_nops old new m : has_equal m new = true -> foldM listen m (nop_events old new) = Ret m.
Proof.
  intros E. unfold nop_events. repeat case_match; simpl; rewrite ?E; simpl; rewrite ?E; done.
Qed.

(** A range that is new overlaps none of those that are kept. *)
Lemma listen_add (old done : FlatView) n new (m : FlatView) :
  view_from 0 (done ++ n :: new) -> key n ∉ key <$> old ->
  (forall k, k ∈ key <$> m <->
     (k ∈ key <$> old /\ k ∈ key <$> done ++ n :: new) \/ k ∈ key <$> done) ->
  existsb (overlaps n) m = false.
Proof.
  intros Hv Hn Hm. apply not_true_is_false. intros (x & Hx%list_elem_of_In & Ho)%existsb_exists.
  assert (key x ∈ key <$> m) as Hk by by apply list_elem_of_fmap_2.
  apply Hm in Hk. unfold overlaps in Ho. rewrite andb_true_iff, !Z.ltb_lt in Ho.
  assert (exists v, key x = key v /\ v ∈ done ++ n :: new /\ v <> n) as (v & Ev & Hv' & Hne).
  { destruct Hk as [[H1 (v & E & Hv')%list_elem_of_fmap]|(v & E & Hv')%list_elem_of_fmap];
      exists v; (split; [done|]).
    - split; [done|]. intros ->. by rewrite E in H1.
    - split; [apply elem_of_app; by left|]. intros ->.
      pose proof (view_from_middle 0 done n new n Hv Hv').
      destruct (view_from_elem 0 _ n Hv) as [_ Hr%rend_start]; [apply elem_of_app; right; left|]. lia. }
  apply key_range in Ev as [E1 E2]. rewrite E1, E2 in Ho.
  destruct (view_disjoint 0 _ n v Hv) as [->|]; [apply elem_of_app; right; left|done|done|lia].
Qed.

Lemma listen_adds (old done new m : FlatView) :
  view_from 0 (done ++ new) ->
  (forall k, k ∈ key <$> m <-> (k ∈ key <$> old /\ k ∈ key <$> done ++ new) \/ k ∈ key <$> done) ->
  exists m', foldM listen m (flat_map (add_events old) new) = Ret m'
    /\ forall k, k ∈ key <$> m' <-> k ∈ key <$> done ++ new.
Proof.
  revert done m. induction new as [|n new IH]; intros done m Hv Hm.
  { exists m. split; [done|]. intros k. rewrite Hm, app_nil_r. tauto. }
  rewrite (cons_middle n), (assoc_L (++)) in Hm, Hv |- *.
  cbn [flat_map]. unfold add_events at 1. destruct (find_equal old n) as [o|] eqn:Ef.
  - apply find_some in Ef as [Ho%list_elem_of_In Eo%flatrange_equal_key].
    rewrite (foldM_app _ m m).
    + apply IH; [done|]. intros k. rewrite Hm, (fmap_app key done [n]), elem_of_app.
      simpl. rewrite list_elem_of_singleton. split; [tauto|]. intros [?|[?| ->]]; [tauto|tauto|].
      left. split; [rewrite <- Eo; by apply list_elem_of_fmap_2|].
      apply list_elem_of_fmap_2. rewrite !elem_of_app. left. right. left.
    + apply listen_nops, has_equal_key, Hm. left. rewrite <- Eo at 1.
      split; [by apply list_elem_of_fmap_2|]. apply list_elem_of_fmap_2. rewrite !elem_of_app. left. right. left.
  - assert (key n ∉ key <$> old) as Hn.
    { intros (o & E & Ho%list_elem_of_In)%list_elem_of_fmap.
      apply (find_none _ _ Ef) in Ho. rewrite (proj2 (flatrange_equal_key o n)) in Ho by done. done. }
    cbn [app foldM listen]. rewrite (listen_add old done n new m); [|by rewrite <- (assoc_L (++)) in Hv|done|].
    2: { intros k. rewrite Hm, <- (assoc_L (++)). done. }
    cbn [mbind outcome_bind]. apply IH; [done|]. intros k. cbn [fmap list_fmap].
    rewrite elem_of_cons. change (list_fmap _ _ key m) with (key <$> m). rewrite Hm.
    rewrite (fmap_app key done [n]), elem_of_app. simpl. rewrite list_elem_of_singleton. tauto.
Qed.

Lemma removed_nodup p old new : view_from p old -> NoDup (key <$> removed old new).
Proof.
  revert p. induction old as [|o old IH]; intros p Hv; [constructor|].
  destruct Hv as (_ & Ho & Hv). unfold removed. cbn [List.filter].
  destruct (negb (has_equal new o)); [|by apply (IH (rend o))].
  constructor; [|by apply (IH (rend o))].
  intros (x & E & Hx)%list_elem_of_fmap. apply list_elem_of_In, filter_In in Hx as [Hx%list_elem_of_In _].
  destruct (view_from_elem _ _ _ Hv Hx) as [Hs _]. apply key_range in E as [E _].
  pose proof (rend_start o Ho). lia.
Qed.

(** C12: from a sorted map and a well-formed tree the two passes return, the new
    map is the one the tree renders to, the first pass deletes exactly the old
    ranges that are not in it and the second adds exactly those that were not
    there, and a listener that follows the events never gets a deletion of a
    range it does not have or a range that overlaps one it has, and ends up
    with the new map. *)
Theorem address_space_update_topology_correct old root :
  view_from 0 old -> wf_region (2 ^ 64 - 1) root ->
  exists new m,
    generate_memory_topology (Some root) = Ret new
    /\ address_space_update_topology old (Some root)
       = Ret ((RegionDel <$> removed old new) ++ flat_map (add_events old) new, new)
    /\ foldM listen old ((RegionDel <$> removed old new) ++ flat_map (add_events old) new) = Ret m
    /\ forall r, has_equal m r = has_equal new r.
Proof.
  intros Hold Hwf.
  destruct (generate_ok root (2 ^ 64 - 1) ltac:(lia) Hwf) as [[? _]|(new & Eg & Hnew & _ & _)]; [lia|].
  exists new. set (ds := removed old new).
  assert (forall d, d ∈ ds <-> d ∈ old /\ key d ∉ key <$> new) as Hds.
  { intros d. unfold ds, removed.
    rewrite <- has_equal_key, not_true_iff_false, <- negb_true_iff, !list_elem_of_In, filter_In. done. }
  destruct (listen_dels ds old) as (m1 & E1 & Hm1).
  { apply (removed_nodup 0); done. }
  { intros d [Hd _]%Hds. by apply list_elem_of_fmap_2. }
  destruct (listen_adds old [] new m1) as (m2 & E2 & Hm2); [done| |].
  { intros k. simpl. rewrite elem_of_nil, !list_elem_of_fmap. split.
    - intros (x & -> & [Hx Hk]%Hm1). left. split; [eauto|].
      destruct (decide (key x ∈ key <$> new)) as [Hin|Hin]; [by apply list_elem_of_fmap in Hin|].
      destruct Hk. apply list_elem_of_fmap_2, Hds. done.
    - intros [[(x & -> & Hx) (y & Ey & Hy)]|[]]. exists x. split; [done|]. apply Hm1. split; [done|].
      intros (d & Ed & [_ Hd]%Hds)%list_elem_of_fmap. apply Hd. rewrite <- Ed, Ey.
      by apply list_elem_of_fmap_2. }
  exists m2. split; [done|]. unfold address_space_update_topology, address_space_update_topology_pass.
  rewrite Eg. cbn [mbind outcome_bind]. rewrite !(topology_loop_ok _ old new 0 0) by done.
  split; [done|]. split; [by rewrite (foldM_app _ _ m1)|].
  intros r. apply eq_true_iff_eq. rewrite !has_equal_key. apply Hm2.
Qed.

(** The map before the window and its alias were added. *)
Definition sample_old : FlatView :=
  Eval vm_compute in
    match generate_memory_topology
            (Some (memory_region_add_subregion
                     (memory_region_add_subregion (container 0) 0 (leaf 1 0x100000 false))
                     0xf0000 (leaf 2 0x10000 true))) with
    | Ret view => view | _ => []
    end.

Lemma address_space_update_topology_correct_witness :
  length sample_old = 2%nat
  /\ exists evs new, address_space_update_topology sample_old (Some sample_map) = Ret (evs, new)
       /\ length evs = 6%nat /\ length new = 4%nat.
Proof.
  split; [reflexivity|].
  assert (wf_region (2 ^ 64 - 1) sample_map) as Hwf by wf_tree.
  assert (view_from 0 sample_old) as Hv.
  { repeat split; vm_compute; congruence. }
  destruct (address_space_update_topology_correct sample_old sample_map Hv Hwf)
    as (new & m & Eg & E & _).
  exists ((RegionDel <$> removed sample_old new) ++ flat_map (add_events sample_old) new), new.
  split; [exact E|]. clear E. vm_compute in Eg. injection Eg as <-. split; reflexivity.
Defined.

(** ** Lookup *)

(** What the C standard says of [bsearch]: on an array with the elements below
    the key before those equal to it and these before those above it, it finds
    an element equal to the key if there is one. *)
Definition ordered_for (cmp : FlatRange -> Z) (view : FlatView) : Prop :=
  forall l1 r l2 s l3, view = l1 ++ r :: l2 ++ s :: l3 -> Z.sgn (cmp s) <= Z.sgn (cmp r).

Definition bsearch_spec (bsearch : FlatView -> (FlatRange -> Z) -> option nat) : Prop :=
  forall view cmp,
    ordered_for cmp view ->
    match bsearch view cmp with
    | Some i => exists r, view !! i = Some r /\ cmp r = 0
    | None => forall r, r ∈ view -> cmp r <> 0
    end.

Section lookup.
Context (view : FlatView) (range : AddrRange) (A n : Z).
Hypothesis Hview : view_from 0 view.
Hypothesis Hrange : rrep range A n.
Hypothesis HA : 0 <= A < 2 ^ 64.
Hypothesis Hn : 0 < n < 2 ^ 64.

Lemma rrep_wf r : wf_range r -> rrep (fr_addr r) (rstart r) (rsize r).
Proof. intros []. done. Qed.

(** The range meets the addresses asked for. *)
Definition meets (r : FlatRange) : bool := (A <? rend r) && (rstart r <? A + n).

Lemma meets_intersects r : wf_range r -> addrrange_intersects (fr_addr r) range = meets r.
Proof.
  intros Hr. rewrite (intersects_ok _ _ (rstart r) (rsize r) A n);
    [|by apply rrep_wf|done|destruct Hr; apply in128_small; unfold rend in *; lia|apply in128_small; lia].
  unfold inside, meets. destruct Hr. unfold rend in *.
  apply eq_true_iff_eq. rewrite orb_true_iff, !andb_true_iff. lia.
Qed.

Lemma cmp_meets r :
  wf_range r ->
  cmp_flatrange_addr range r = (if A + n <=? rstart r then -1 else if rend r <=? A then 1 else 0).
Proof.
  intros Hr. unfold cmp_flatrange_addr.
  rewrite (rep_le _ _ (A + n) (rstart r)), (rep_ge _ _ A (rend r)); [done| | | |].
  - apply Hrange.
  - by apply rep_end.
  - apply rep_add; [apply Hrange|apply Hrange|apply in128_small; lia].
  - apply Hr.
Qed.

Lemma cmp_zero r : wf_range r -> cmp_flatrange_addr range r = 0 <-> meets r = true.
Proof.
  intros Hr. rewrite cmp_meets by done. unfold meets. rewrite andb_true_iff.
  destruct (Z.leb_spec (A + n) (rstart r)), (Z.leb_spec (rend r) A); lia.
Qed.

Lemma cmp_ordered : ordered_for (cmp_flatrange_addr range) view.
Proof.
  intros l1 r l2 s l3 E. rewrite E in Hview.
  assert (rend r <= rstart s) as Hrs.
  { rewrite (cons_middle r), !(assoc_L (++)) in Hview. apply (view_from_middle 0 _ _ _ _ Hview).
    rewrite !elem_of_app. left. right. left. }
  destruct (view_from_elem _ _ r Hview) as [_ Hr]; [apply elem_of_app; right; left|].
  destruct (view_from_elem _ _ s Hview) as [_ Hs].
  { apply elem_of_app; right; right. apply elem_of_app; right; left. }
  rewrite !cmp_meets by done. pose proof (rend_start r Hr). pose proof (rend_start s Hs).
  destruct (Z.leb_spec (A + n) (rstart r)), (Z.leb_spec (rend r) A), (Z.leb_spec (A + n) (rstart s)),
    (Z.leb_spec (rend s) A); simpl; lia.
Qed.

(** The walk back ends at the first range that meets the addresses. *)
Lemma first_intersecting_ok i r :
  view !! i = Some r -> meets r = true ->
  exists l1 r' l2,
    first_intersecting view i range = Ret (length l1) /\ view = l1 ++ r' :: l2 /\ meets r' = true
    /\ forall x, x ∈ l1 -> rend x <= A.
Proof.
  revert r. induction i as [|i IH]; intros r Hi Hr.
  { destruct view as [|x v]; [done|]. injection Hi as ->. exists [], r, v. split_and!; try done.
    intros x Hx. by apply elem_of_nil in Hx. }
  assert (is_Some (view !! i)) as [q Hq].
  { apply lookup_lt_is_Some. apply lookup_lt_Some in Hi. lia. }
  cbn [first_intersecting]. unfold range_at. rewrite Hq. cbn [mbind outcome_bind].
  assert (wf_range q) as Wq by (eapply (view_from_elem 0 view); [done|by apply list_elem_of_lookup_2 in Hq]).
  rewrite meets_intersects by done. destruct (meets q) eqn:Eq; [by apply (IH q)|].
  exists (take (S i) view), r, (drop (S (S i)) view).
  assert (view = take (S i) view ++ r :: drop (S (S i)) view) as Ev by (symmetry; by apply take_drop_middle).
  pose proof (lookup_lt_Some _ _ _ Hi). rewrite length_take_le by lia. split_and!; try done.
  intros x Hx. assert (rend q <= A) as HqA.
  { rewrite Ev in Hview. pose proof (view_from_middle 0 _ _ _ q Hview) as Hqr.
    unfold meets in *. rewrite andb_true_iff in Hr. apply andb_false_iff in Eq.
    pose proof (rend_start q Wq). specialize (Hqr ltac:(apply list_elem_of_lookup; exists i; rewrite lookup_take_lt by lia; done)).
    lia. }
  rewrite (take_S_r view i q Hq) in Hx. apply elem_of_app in Hx as [Hx|Hx%list_elem_of_singleton];
    [|by subst].
  rewrite <- (take_drop_middle view i q Hq) in Hview.
  pose proof (view_from_middle 0 _ _ _ x Hview Hx). pose proof (rend_start q Wq). lia.
Qed.
End lookup.

Lemma view_at_skip l1 r l2 a :
  (forall x, x ∈ l1 -> rend x <= a) -> view_at (l1 ++ r :: l2) a = view_at (r :: l2) a.
Proof.
  intros H. induction l1 as [|x l1 IH]; [done|]. cbn [app]. rewrite view_at_cons.
  unfold cell_at. pose proof (H x ltac:(left)).
  destruct (Z.ltb_spec a (rend x)); [lia|]. rewrite andb_false_r. apply IH. intros y Hy. apply H. by right.
Qed.

Lemma view_from_drop p l1 r l2 : view_from p (l1 ++ r :: l2) -> wf_range r /\ view_from (rend r) l2.
Proof.
  revert p. induction l1 as [|x l1 IH]; intros p; [intros (_ & ? & ?); done|].
  intros (_ & _ & H). by apply IH in H.
Qed.

(** The section [s] is the first piece of the view in the [n] bytes at [A]. *)
Record first_section (view : FlatView) (A n : Z) (s : MemoryRegionSection) : Prop := {
  fs_lower : A <= offset_within_address_space s;
  fs_size : 0 < val (sec_size s);
  fs_upper : offset_within_address_space s + val (sec_size s) <= A + n;
  fs_first : forall a, A <= a < offset_within_address_space s -> view_at view a = None;
  fs_shows : forall a,
    offset_within_address_space s <= a < offset_within_address_space s + val (sec_size s) ->
    exists c, view_at view a = Some c /\ c_mr c = sec_mr s /\ c_readonly c = sec_readonly s
      /\ c_offset c = offset_within_region s + (a - offset_within_address_space s);
}.

Lemma view_at_none view a : (forall r, r ∈ view -> ~ rstart r <= a < rend r) -> view_at view a = None.
Proof.
  intros H. induction view as [|r view IH]; [done|]. rewrite view_at_cons, IH by (intros; apply H; by right).
  specialize (H r ltac:(left)). unfold cell_at.
  destruct (Z.leb_spec (rstart r) a), (Z.ltb_spec a (rend r)); done || lia.
Qed.

Lemma sum_addrs addrs addr :
  0 <= addr < 2 ^ 64 ->
  foldl (fun addr a => u64 (addr + a)) addr addrs = u64 (addr + foldr Z.add 0 addrs).
Proof.
  revert addr. induction addrs as [|a addrs IH]; intros addr Ha; simpl.
  - by rewrite Z.add_0_r, wrap_small.
  - rewrite IH by (apply wrap_range; lia). rewrite wrap_add_l, Z.add_assoc. done.
Qed.

(** The section made from the first range [r] that meets the bytes. *)
Lemma make_section_ok l1 r l2 range A n :
  view_from 0 (l1 ++ r :: l2) -> rrep range A n -> 0 <= A < 2 ^ 64 -> 0 < n < 2 ^ 64 ->
  meets A n r = true -> (forall x, x ∈ l1 -> rend x <= A) ->
  let piece := addrrange_intersection range (fr_addr r) in
  exists off x,
    int128_get64 (int128_sub (start piece) (start (fr_addr r))) = Ret off
    /\ int128_get64 (start piece) = Ret x
    /\ first_section (l1 ++ r :: l2) A n
         {| sec_mr := fr_mr r; offset_within_region := u64 (offset_in_region r + off);
            sec_size := size piece; offset_within_address_space := x; sec_readonly := readonly r |}.
Proof.
  intros Hv Hrange HA Hn Hm Hl piece. destruct (view_from_drop 0 l1 r l2 Hv) as [Wr Hl2].
  unfold meets in Hm. rewrite andb_true_iff, !Z.ltb_lt in Hm. destruct (Wr) as [W1 W2 W3 W4 W5 W6 W7].
  assert (rend r = rstart r + rsize r) as Er by done.
  assert (rrep piece (Z.max A (rstart r)) (Z.min (A + n) (rend r) - Z.max A (rstart r))) as [P1 P2].
  { apply intersection_ok; [done|by apply rrep_wf|apply in128_small; lia ..]. }
  set (x := Z.max A (rstart r)) in *. set (k := Z.min (A + n) (rend r) - x) in *.
  exists (x - rstart r), x.
  split; [apply get64_Ret; [apply rep_sub; [done|done|apply in128_small; lia]|lia]|].
  split; [apply get64_Ret; [done|lia]|].
  rewrite wrap_small by lia. pose proof (rep_val _ _ P2) as Ek.
  constructor; cbn [sec_mr offset_within_region sec_size offset_within_address_space sec_readonly];
    rewrite ?Ek; try lia.
  - intros a Ha. rewrite view_at_skip by (intros y Hy; apply Hl in Hy; lia).
    apply (view_at_low (rstart r)); [|lia]. simpl. split_and!; done.
  - intros a Ha. rewrite view_at_skip by (intros y Hy; apply Hl in Hy; lia).
    rewrite view_at_cons. unfold cell_at.
    destruct (Z.leb_spec (rstart r) a), (Z.ltb_spec a (rend r)); try lia. simpl.
    eexists. split; [done|]. simpl. split_and!; try done. lia.
Qed.

(** C30: on a sorted map [memory_region_find] returns without a fault the first
    piece of a range that is mapped in the bytes asked for, with its region and
    its offset there, or nothing when no byte is mapped, whichever of several
    matches the search of the C library finds. *)
Theorem memory_region_find_correct bsearch addrs view addr n :
  bsearch_spec bsearch -> view_from 0 view -> 0 <= addr < 2 ^ 64 -> 0 < n < 2 ^ 64 ->
  let A := u64 (addr + foldr Z.add 0 addrs) in
  (memory_region_find bsearch addrs (Some view) addr n = Ret None
   /\ forall a, A <= a < A + n -> view_at view a = None)
  \/ exists s, memory_region_find bsearch addrs (Some view) addr n = Ret (Some s)
       /\ first_section view A n s.
Proof.
  intros Hb Hv Ha Hn A. unfold memory_region_find. rewrite sum_addrs by done. fold A.
  assert (0 <= A < 2 ^ 64) as HA by (apply wrap_range; lia).
  set (range := addrrange_make (int128_make64 A) (int128_make64 n)).
  assert (rrep range A n) as Hr by (split; apply rep_make64; lia).
  unfold flatview_lookup.
  pose proof (Hb view _ (cmp_ordered view range A n Hv Hr HA Hn)) as Hs.
  destruct (bsearch view (cmp_flatrange_addr range)) as [i|].
  - right. destruct Hs as (r & Hi & Hc).
    assert (wf_range r) as Wr.
    { apply (view_from_elem 0 view); [done|]. by apply list_elem_of_lookup_2 in Hi. }
    apply (cmp_zero range A n Hr HA Hn r Wr) in Hc.
    destruct (first_intersecting_ok view range A n Hv Hr HA Hn i r Hi Hc)
      as (l1 & r' & l2 & -> & -> & Hm & Hl).
    cbn [mbind outcome_bind]. rewrite range_at_middle. cbn [mbind outcome_bind].
    destruct (make_section_ok l1 r' l2 range A n) as (off & x & -> & -> & Hf); try done.
    eexists. split; [reflexivity|exact Hf].
  - left. split; [done|]. intros a Ha'. apply view_at_none. intros r Hr'.
    destruct (view_from_elem 0 view r Hv Hr') as [_ Wr]. specialize (Hs r Hr').
    rewrite (cmp_zero range A n Hr HA Hn r Wr) in Hs. unfold meets in Hs.
    rewrite andb_true_iff, !Z.ltb_lt in Hs. lia.
Qed.

(** A search from the front. *)
Fixpoint linear_search (i : nat) (view : FlatView) (cmp : FlatRange -> Z) : option nat :=
  match view with
  | [] => None
  | r :: view => if cmp r =? 0 then Some i else linear_search (S i) view cmp
  end.

Lemma linear_search_ok i view cmp :
  match linear_search i view cmp with
  | Some j => exists k r, j = (i + k)%nat /\ view !! k = Some r /\ cmp r = 0
  | None => forall r, r ∈ view -> cmp r <> 0
  end.
Proof.
  revert i. induction view as [|r view IH]; intros i; simpl.
  { intros r Hr. by apply elem_of_nil in Hr. }
  destruct (Z.eqb_spec (cmp r) 0) as [E|E].
  { exists 0%nat, r. split_and!; done || lia. }
  specialize (IH (S i)). destruct (linear_search (S i) view cmp) as [j|].
  - destruct IH as (k & s & -> & Hk & Hs). exists (S k), s. split_and!; done || lia.
  - intros s [->|Hs]%elem_of_cons; [done|by apply IH].
Qed.

Lemma memory_region_find_correct_witness :
  bsearch_spec (linear_search 0)
  /\ exists s, memory_region_find (linear_search 0) [0x1000] (Some sample_old) 0xeefff 2 = Ret (Some s)
       /\ sec_mr s = 1 /\ offset_within_address_space s = 0xeffff
       /\ first_section sample_old 0xeffff 2 s.
Proof.
  assert (bsearch_spec (linear_search 0)) as Hb.
  { intros view cmp _. pose proof (linear_search_ok 0 view cmp) as H.
    destruct (linear_search 0 view cmp); [|exact H].
    destruct H as (k & r & -> & H). exists r. exact H. }
  split; [exact Hb|].
  assert (view_from 0 sample_old) as Hv by (repeat split; vm_compute; congruence).
  destruct (memory_region_find_correct (linear_search 0) [0x1000] sample_old 0xeefff 2 Hb Hv
              ltac:(lia) ltac:(lia)) as [[E _]|(s & E & Hs)].
  - vm_compute in E. discriminate E.
  - exists s. split; [exact E|]. split; [|split]; [| |exact Hs];
      vm_compute in E; injection E as <-; reflexivity.
Defined.
