(* ===== verification/PhysMap.v ===== *)
(** * The radix tree from pages to sections

    Model of the physical page map of [src/exec.c]: [phys_page_set] enters a
    run of pages, [phys_page_compact] shortens paths with a single child, and
    [phys_page_find] looks an address up.  Shown here: a run of unassigned
    pages is entered at exactly its pages, within the nodes that were reserved,
    and a lookup gives the same section before and after compaction.

    The C code keeps the nodes in one array and an entry has the number of a
    node or of a section.  Here an entry contains the node its number stands
    for; [nodes_nb] and [nodes_nb_alloc] count the nodes as in the code.  A
    section number used as the number of a node is a fault.  Sections keep
    their numbers. *)

From S2P Require Import Prelude HostUtils GuestMem Int128.

Definition TARGET_PAGE_BITS : Z := 12.
Definition PHYS_MAP_NODE_NIL : Z := 2 ^ 26 - 1.
Definition P_L2_BITS : Z := 9.
Definition P_L2_SIZE : Z := 1 << P_L2_BITS.
Definition ADDR_SPACE_BITS : Z := 64.
Definition P_L2_LEVELS : Z := (ADDR_SPACE_BITS - TARGET_PAGE_BITS - 1) / P_L2_BITS + 1.
Definition PHYS_SECTION_UNASSIGNED : Z := 0.

(** [Leaf ptr] has [skip] 0 and a section number; [Ptr skip None] has the
    number [PHYS_MAP_NODE_NIL], [Ptr skip (Some node)] that of a node. *)
Unset Elimination Schemes.
Inductive PhysPageEntry :=
| Leaf (ptr : Z)
| Ptr (skip : Z) (node : option (list PhysPageEntry)).
Set Elimination Schemes.

Abbreviation Node := (list PhysPageEntry).

(** The counters of [PhysPageMap]. *)
Record node_count := { nodes_nb : Z; nodes_nb_alloc : Z }.

Definition phys_map_node_reserve (map : node_count) (nodes : Z) : node_count :=
  if nodes_nb_alloc map <? nodes_nb map + nodes then
    {| nodes_nb := nodes_nb map;
       nodes_nb_alloc :=
         Z.max (Z.max (nodes_nb_alloc map * 2) 16) (nodes_nb map + nodes) |}
  else map.

(** The new node is made by the caller. *)
Definition phys_map_node_alloc (map : node_count) : outcome node_count :=
  let ret := nodes_nb map in
  if (ret =? PHYS_MAP_NODE_NIL) || (ret =? nodes_nb_alloc map) then Fault AssertFailed
  else Ret {| nodes_nb := nodes_nb map + 1; nodes_nb_alloc := nodes_nb_alloc map |}.

Definition node_size : nat := 512.
#[global] Arguments node_size : simpl never.

(** The node of an entry, allocated if there is none. *)
Definition node_of (map : node_count) (lp : PhysPageEntry) (level : nat) :
    outcome (node_count * Z * Node) :=
  match lp with
  | Ptr skip None =>
      map ← phys_map_node_alloc map;
      Ret (map, skip,
           repeat (if (level =? 0)%nat then Leaf PHYS_SECTION_UNASSIGNED else Ptr 1 None) node_size)
  | Ptr skip (Some p) => Ret (map, skip, p)
  | Leaf _ => Fault OutOfBounds
  end.

(** What a level does to an entry: the counters, the entry, [*index], [*nb]. *)
Abbreviation set_state := (node_count * PhysPageEntry * Z * Z)%type.

Section set_loop.
Variable next_level : node_count -> PhysPageEntry -> Z -> Z -> outcome set_state.
Variable step leaf : Z.

(** The [while] loop over the entries from [lp] on. *)
Fixpoint set_loop (map : node_count) (entries : Node) (index nb : Z) :
    outcome (node_count * Node * Z * Z) :=
  match entries with
  | [] => Ret (map, [], index, nb)
  | lp :: rest =>
      if negb (nb =? 0) then
        '(map, lp, index, nb) ←
          (if ((index &&& (step - 1)) =? 0) && (step <=? nb)
           then Ret (map, Leaf leaf, u64 (index + step), u64 (nb - step))
           else next_level map lp index nb);
        '(map, rest, index, nb) ← set_loop map rest index nb;
        Ret (map, lp :: rest, index, nb)
      else Ret (map, entries, index, nb)
  end.
End set_loop.

(** Level 0 does not call level -1: its step is one page. *)
Fixpoint phys_page_set_level (level : nat) (leaf : Z) (map : node_count) (lp : PhysPageEntry)
    (index nb : Z) : outcome set_state :=
  let shift := Z.of_nat level * P_L2_BITS in
  let step := u64 (1 << shift) in
  '(map, skip, p) ← node_of map lp level;
  let i := Z.to_nat ((index >> shift) &&& (P_L2_SIZE - 1)) in
  '(map, rest, index, nb) ←
    set_loop
      (match level with
       | O => fun _ _ _ _ => Fault OutOfBounds
       | S level => phys_page_set_level level leaf
       end) step leaf map (drop i p) index nb;
  Ret (map, Ptr skip (Some (take i p ++ rest)), index, nb).

(** [leaf] is a [uint16_t]; callers pass numbers of sections, which are less
    than [TARGET_PAGE_SIZE]. *)
Definition phys_page_set (map : node_count) (phys_map : PhysPageEntry) (index nb leaf : Z) :
    outcome (node_count * PhysPageEntry) :=
  let map := phys_map_node_reserve map (3 * P_L2_LEVELS) in
  '(map, lp, _, _) ← phys_page_set_level (Z.to_nat (P_L2_LEVELS - 1)) leaf map phys_map index nb;
  Ret (map, lp).

(** ** Compaction *)

Definition entry_nil (e : PhysPageEntry) : bool :=
  match e with
  | Leaf ptr => ptr =? PHYS_MAP_NODE_NIL
  | Ptr _ None => true
  | Ptr _ (Some _) => false
  end.

Definition entry_skip (e : PhysPageEntry) : Z :=
  match e with Leaf _ => 0 | Ptr skip _ => skip end.

(** The entry when [e] is the only child of its node. *)
Definition compact_one (skip : Z) (p : Node) (e : PhysPageEntry) : PhysPageEntry :=
  if (1 << 3) <=? skip + entry_skip e then Ptr skip (Some p)
  else
    match e with
    | Leaf ptr => Leaf ptr
    | Ptr s node => Ptr (skip + s) node
    end.

(** [p] is the node before and [p'] the node after its children are compacted;
    the valid children are counted before. *)
Fixpoint phys_page_compact (lp : PhysPageEntry) : PhysPageEntry :=
  match lp with
  | Leaf _ | Ptr _ None => lp
  | Ptr skip (Some p) =>
      let p' :=
        map (fun e => if entry_nil e then e
                      else match e with Leaf _ => e | Ptr _ _ => phys_page_compact e end) p in
      match List.filter (fun e => negb (entry_nil (fst e))) (zip p p') with
      | [(_, e)] => compact_one skip p' e
      | _ => Ptr skip (Some p')
      end
  end.

Definition phys_page_compact_all (phys_map : PhysPageEntry) : PhysPageEntry :=
  match phys_map with Leaf _ => phys_map | Ptr _ _ => phys_page_compact phys_map end.

(** ** Lookup *)

(** The loop of [phys_page_find]: the section number it ends with.  [skip] is
    at least one, so [i] falls and the loop ends. *)
Fixpoint find_loop (fuel : nat) (lp : PhysPageEntry) (i index : Z) : outcome Z :=
  match lp with
  | Leaf ptr => Ret ptr
  | Ptr skip node =>
      match fuel with
      | O => NoFuel
      | S fuel =>
          let i := i - skip in
          if 0 <=? i then
            match node with
            | None => Ret PHYS_SECTION_UNASSIGNED
            | Some p =>
                match p !! Z.to_nat ((index >> (i * P_L2_BITS)) &&& (P_L2_SIZE - 1)) with
                | Some lp => find_loop fuel lp i index
                | None => Fault OutOfBounds
                end
            end
          else Fault OutOfBounds
      end
  end.

Definition range_get_last (offset len : Z) : Z := u64 (u64 (offset + len) - 1).

Definition range_covers_byte (offset len byte : Z) : bool :=
  (offset <=? byte) && (byte <=? range_get_last offset len).

(** What a section's [mr] points to: one of the regions of [io_mem_init], a
    page split between sections, or a region of the memory map. *)
Inductive section_mr :=
| Unassigned
| NotDirty
| Rom
| Watch
| Subpage (k : nat)
| Region (id : Z).

#[export] Instance section_mr_eq_dec : EqDecision section_mr.
Proof. solve_decision. Defined.

Record PhysSection := {
  ps_mr : section_mr;
  ps_offset_within_region : Z;
  ps_size : Int128;
  ps_offset_within_address_space : Z;
  ps_readonly : bool;
}.

Definition section_covers (s : PhysSection) (addr : Z) : bool :=
  negb (hi (ps_size s) =? 0)
  || range_covers_byte (ps_offset_within_address_space s) (lo (ps_size s)) addr.

(** The number of the section [phys_page_find] returns a pointer to. *)
Definition phys_page_find (lp : PhysPageEntry) (addr : Z) (sections : list PhysSection) : outcome Z :=
  let index := addr >> TARGET_PAGE_BITS in
  ptr ← find_loop (Z.to_nat P_L2_LEVELS) lp P_L2_LEVELS index;
  match sections !! Z.to_nat ptr with
  | None => Fault OutOfBounds
  | Some s => if section_covers s addr then Ret ptr else Ret PHYS_SECTION_UNASSIGNED
  end.

(** ** What a tree says of a page *)

(** The pages below an entry with [n] levels under it. *)
Definition span (n : nat) : Z := 2 ^ (9 * Z.of_nat n).

Definition digit (n : nat) (idx : Z) : nat := Z.to_nat ((idx >> (Z.of_nat n * P_L2_BITS)) &&& (P_L2_SIZE - 1)).

Fixpoint sem (n : nat) (e : PhysPageEntry) (idx : Z) : Z :=
  match e with
  | Leaf q => q
  | Ptr _ None => PHYS_SECTION_UNASSIGNED
  | Ptr _ (Some p) =>
      match n with
      | O => PHYS_SECTION_UNASSIGNED
      | S n =>
          match p !! digit n idx with
          | Some e => sem n e idx
          | None => PHYS_SECTION_UNASSIGNED
          end
      end
  end.

(** Trees before compaction: every pointer goes down one level; above the last
    level only assigned sections are leaves. *)
Inductive wf_entry : nat -> PhysPageEntry -> Prop :=
| wf_leaf n q : 0 <= q < PHYS_MAP_NODE_NIL -> (n = 0%nat \/ q <> PHYS_SECTION_UNASSIGNED) -> wf_entry n (Leaf q)
| wf_nil n : wf_entry (S n) (Ptr 1 None)
| wf_node n p :
    length p = node_size -> (forall e, e ∈ p -> wf_entry n e) -> wf_entry (S n) (Ptr 1 (Some p)).

Lemma span_pos n : 0 < span n.
Proof. unfold span. lia. Qed.

Lemma span_S n : span (S n) = 512 * span n.
Proof.
  unfold span. replace (9 * Z.of_nat (S n)) with (9 + 9 * Z.of_nat n) by lia.
  by rewrite Z.pow_add_r by lia.
Qed.

Lemma digit_div n idx : digit n idx = Z.to_nat ((idx / span n) mod 512).
Proof.
  unfold digit. change (P_L2_SIZE - 1) with (Z.ones 9). rewrite Z.land_ones by lia.
  rewrite Z.shiftr_div_pow2 by (unfold P_L2_BITS; lia).
  replace (Z.of_nat n * P_L2_BITS) with (9 * Z.of_nat n) by (unfold P_L2_BITS; lia). done.
Qed.

Lemma digit_bound n idx : (digit n idx < node_size)%nat.
Proof. rewrite digit_div. pose proof (Z.mod_pos_bound (idx / span n) 512). unfold node_size. lia. Qed.

(** The page [r] of child [k] of a node whose pages start at [b * span (S n)]. *)
Lemma digit_child n b k r :
  0 <= k < 512 -> 0 <= r < span n -> digit n (b * span (S n) + k * span n + r) = Z.to_nat k.
Proof.
  intros Hk Hr. rewrite digit_div, span_S. pose proof (span_pos n). f_equal.
  replace (b * (512 * span n) + k * span n + r) with (r + (b * 512 + k) * span n) by ring.
  rewrite Z.div_add, (Z.div_small r), Z.add_0_l by lia.
  rewrite Z.add_comm, Z.mod_add, Z.mod_small by lia. done.
Qed.

Lemma node_lookup (p : Node) n idx : length p = node_size -> exists e, p !! digit n idx = Some e /\ e ∈ p.
Proof.
  intros Hl. destruct (lookup_lt_is_Some_2 p (digit n idx)) as [e He].
  { rewrite Hl. apply digit_bound. }
  exists e. split; [done|]. by apply list_elem_of_lookup_2 in He.
Qed.

Lemma sem_leaf n q idx : sem n (Leaf q) idx = q.
Proof. by destruct n. Qed.

Lemma sem_node n skip p idx e :
  p !! digit n idx = Some e -> sem (S n) (Ptr skip (Some p)) idx = sem n e idx.
Proof. intros E. cbn [sem]. by rewrite E. Qed.

Lemma sem_mod n e idx : wf_entry n e -> sem n e idx = sem n e (idx mod span n).
Proof.
  revert e idx. induction n as [|n IH]; intros e idx Hwf; inversion Hwf as [| |? p Hl Hp]; subst; try done.
  assert (forall m, (m <= n)%nat -> digit m (idx mod span (S n)) = digit m idx) as Hd.
  { intros m Hm. rewrite !digit_div. f_equal. unfold span.
    replace (9 * Z.of_nat (S n)) with ((9 * Z.of_nat (S n) - 9 * Z.of_nat m) + 9 * Z.of_nat m) by lia.
    rewrite Z.pow_add_r by lia. rewrite (Z.mul_comm (2 ^ _)), Z.rem_mul_r by lia.
    rewrite Z.add_comm, Z.mul_comm, Z.div_add_l by lia.
    rewrite (Z.div_small (idx mod _)) by (apply Z.mod_pos_bound; lia). rewrite Z.add_0_r.
    apply Z.mod_mod_divide. exists (2 ^ (9 * Z.of_nat (S n) - 9 * Z.of_nat m - 9)).
    change 512 with (2 ^ 9). rewrite <- Z.pow_add_r by lia. f_equal. lia. }
  destruct (node_lookup p n idx Hl) as (e & He & Hin).
  rewrite (sem_node n 1 p idx e He), (sem_node n 1 p _ e) by (rewrite Hd; done).
  rewrite (IH e idx), (IH e (idx mod span (S n))) by auto. f_equal.
  rewrite span_S. symmetry. apply Z.mod_mod_divide. by exists 512.
Qed.

(** ** Lookup before and after compaction *)

(** The loop of [phys_page_find] ends at section [q]. *)
Definition finds (n : nat) (e : PhysPageEntry) (idx q : Z) : Prop :=
  forall fuel, (n <= fuel)%nat -> find_loop fuel e (Z.of_nat n) idx = Ret q.

Lemma finds_leaf n q idx : finds n (Leaf q) idx q.
Proof. intros fuel _. by destruct fuel. Qed.

Lemma finds_nil n s idx : 1 <= s <= Z.of_nat n -> finds n (Ptr s None) idx PHYS_SECTION_UNASSIGNED.
Proof.
  intros Hs fuel Hf. destruct fuel as [|fuel]; [lia|]. simpl. zcase; [done|lia].
Qed.

Lemma finds_node n m s p e idx q :
  1 <= s -> (n = m + Z.to_nat s)%nat -> p !! digit m idx = Some e -> finds m e idx q ->
  finds n (Ptr s (Some p)) idx q.
Proof.
  intros Hs -> He Hq fuel Hf. destruct fuel as [|fuel]; [lia|]. cbn [find_loop].
  replace (Z.of_nat (m + Z.to_nat s) - s) with (Z.of_nat m) by lia.
  zcase; [|lia]. unfold digit in He. rewrite He. apply Hq. lia.
Qed.

(** The pointer one level up, to the same node. *)
Lemma finds_skip n s x idx q : 1 <= s -> finds n (Ptr s x) idx q -> finds (S n) (Ptr (1 + s) x) idx q.
Proof.
  intros Hs Hq fuel Hf. destruct fuel as [|fuel]; [lia|]. specialize (Hq (S fuel) ltac:(lia)).
  cbn [find_loop] in *. replace (Z.of_nat (S n) - (1 + s)) with (Z.of_nat n - s) by lia. done.
Qed.

Lemma finds_sem n e idx : wf_entry n e -> finds n e idx (sem n e idx).
Proof.
  revert e. induction n as [|n IH]; intros e Hwf; inversion Hwf as [| |? p Hl Hp]; subst;
    try apply finds_leaf; [apply finds_nil; lia|].
  destruct (node_lookup p n idx Hl) as (e & He & Hin). rewrite (sem_node n 1 p idx e He).
  apply (finds_node _ n 1 p e); auto; lia.
Qed.

(** What compaction may change: a page that was unassigned may show a section
    of another page. *)
Definition shows_some (n : nat) (e e' : PhysPageEntry) (idx q : Z) : Prop :=
  finds n e' idx q
  /\ (q = sem n e idx
      \/ (sem n e idx = PHYS_SECTION_UNASSIGNED /\ exists idx', 0 <= idx' < span n /\ sem n e idx' = q)).

Definition compact_shape (n : nat) (e : PhysPageEntry) : Prop :=
  match e with Leaf _ => True | Ptr s _ => 1 <= s <= Z.of_nat n end.

Lemma compact_child_eq e :
  (if entry_nil e then e else match e with Leaf _ => e | Ptr _ _ => phys_page_compact e end)
  = phys_page_compact e.
Proof. destruct e as [q|s [p|]]; simpl; try done. by case_match. Qed.

Lemma filter_single {A} (f : A -> bool) l x :
  List.filter f l = [x] ->
  exists l1 l2, l = l1 ++ x :: l2 /\ f x = true /\ forall y, y ∈ l1 ++ l2 -> f y = false.
Proof.
  induction l as [|y l IH]; simpl; [done|]. destruct (f y) eqn:Ey.
  - intros [= -> E]. exists [], l. split_and!; try done. intros z Hz. simpl in Hz.
    destruct (f z) eqn:Ez; [|done]. assert (z ∈ List.filter f l) as Hin.
    { apply list_elem_of_In, filter_In. split; [by apply list_elem_of_In|done]. }
    rewrite E in Hin. by apply elem_of_nil in Hin.
  - intros (l1 & l2 & -> & Hx & Hall)%IH. exists (y :: l1), l2. split_and!; try done.
    intros z [->|Hz]%elem_of_cons; auto.
Qed.

(** The node with compacted children; with exactly one of them, its place. *)
Lemma compact_node skip p :
  let p' := phys_page_compact <$> p in
  phys_page_compact (Ptr skip (Some p)) = Ptr skip (Some p')
  \/ exists p1 c p2, p = p1 ++ c :: p2 /\ entry_nil c = false
     /\ (forall e, e ∈ p1 ++ p2 -> entry_nil e = true)
     /\ phys_page_compact (Ptr skip (Some p)) = compact_one skip p' (phys_page_compact c).
Proof.
  intros p'. cbn [phys_page_compact].
  rewrite (map_ext _ phys_page_compact) by apply compact_child_eq. fold (phys_page_compact <$> p).
  change (map phys_page_compact p) with p'.
  destruct (List.filter _ (zip p p')) as [|[c c'] [|]] eqn:E; [by left| |by left]. right.
  apply filter_single in E as (l1 & l2 & E & Hc & Hall). simpl in Hc.
  assert (zip p p' = (fun e => (e, phys_page_compact e)) <$> p) as Hz.
  { unfold p'. clear. induction p as [|e p IH]; [done|]. simpl. by f_equal. }
  rewrite Hz in E. apply fmap_app_inv in E as (p1 & p2' & -> & E2 & ->).
  symmetry in E2. apply fmap_cons_inv in E2 as (c0 & p2 & [= -> ->] & -> & ->).
  exists p1, c0, p2. split_and!; try done; [by apply negb_true_iff|].
  intros e He. specialize (Hall (e, phys_page_compact e)). simpl in Hall.
  rewrite <- fmap_app in Hall. apply negb_false_iff, Hall.
  by apply (list_elem_of_fmap_2 (fun e => (e, phys_page_compact e))).
Qed.

Lemma wf_nil_sem n e idx : wf_entry n e -> entry_nil e = true -> sem n e idx = PHYS_SECTION_UNASSIGNED.
Proof.
  intros Hwf. destruct Hwf as [n q Hq _| |]; simpl; try done.
  unfold PHYS_MAP_NODE_NIL in *. intros E%Z.eqb_eq. lia.
Qed.

(** A page of child [d], by its number in the child. *)
Lemma sem_at_child n p d e idx :
  wf_entry n e -> p !! d = Some e -> length p = node_size -> 0 <= idx < span n ->
  0 <= Z.of_nat d * span n + idx < span (S n)
  /\ sem (S n) (Ptr 1 (Some p)) (Z.of_nat d * span n + idx) = sem n e idx.
Proof.
  intros Hwf Hd Hl Hi. pose proof (lookup_lt_Some _ _ _ Hd) as Hlt. rewrite Hl in Hlt.
  unfold node_size in Hlt. pose proof (span_S n). split; [nia|].
  pose proof (digit_child n 0 (Z.of_nat d) idx ltac:(lia) Hi) as Hdig.
  rewrite Z.mul_0_l, Z.add_0_l, Nat2Z.id in Hdig.
  rewrite (sem_node n 1 p _ e) by (by rewrite Hdig). rewrite sem_mod by done.
  rewrite Z.add_comm, Z.mod_add, Z.mod_small by lia. done.
Qed.

Lemma compact_ok n e :
  wf_entry n e -> (n < 8)%nat ->
  compact_shape n (phys_page_compact e)
  /\ forall idx, exists q, shows_some n e (phys_page_compact e) idx q.
Proof.
  revert e. induction n as [|n IH]; intros e Hwf Hn; inversion Hwf as [n' q Hq Hz| |n' p Hl Hp]; subst.
  - split; [done|]. intros idx. exists q. split; [apply finds_leaf|by left].
  - split; [done|]. intros idx. exists q. split; [apply finds_leaf|by left].
  - split; [simpl; lia|]. intros idx. exists PHYS_SECTION_UNASSIGNED.
    split; [apply finds_nil; lia|by left].
  - destruct (compact_node 1 p) as [->|(p1 & c & p2 & Ep & Hc & Hnil & ->)].
    + split; [simpl; lia|]. intros idx. destruct (node_lookup p n idx Hl) as (e & He & Hin).
      destruct (IH e (Hp e Hin) ltac:(lia)) as [_ Hs]. destruct (Hs idx) as (q & Hf & Hq).
      exists q. split.
      * apply (finds_node _ n 1 _ (phys_page_compact e)); [lia|lia| |done].
        rewrite list_lookup_fmap. by rewrite He.
      * rewrite (sem_node n 1 p idx e He). destruct Hq as [|(Hq & i' & Hi' & Hq')]; [by left|right].
        split; [done|]. destruct (sem_at_child n p _ e i' (Hp e Hin) He Hl Hi') as [Hr Es].
        rewrite <- Hq', <- Es. eauto.
    + assert (p !! length p1 = Some c) as Hj by (rewrite Ep; by apply list_lookup_middle).
      assert (wf_entry n c) as Wc by (apply Hp; by apply list_elem_of_lookup_2 in Hj).
      destruct (IH c Wc ltac:(lia)) as [Hsh Hs].
      assert (compact_one 1 (phys_page_compact <$> p) (phys_page_compact c)
              = match phys_page_compact c with Leaf q => Leaf q | Ptr s x => Ptr (1 + s) x end) as ->.
      { unfold compact_one. destruct (Z.leb_spec (1 << 3) (1 + entry_skip (phys_page_compact c))) as [Hbig|]; [|done].
        change (1 << 3) with 8 in Hbig. destruct (phys_page_compact c); simpl in *; lia. }
      split. { destruct (phys_page_compact c); simpl in *; lia. }
      intros idx. destruct (Hs idx) as (q & Hf & Hq). exists q. split.
      { destruct (phys_page_compact c) as [q0|s x].
        - specialize (Hf n ltac:(lia)). destruct n; simpl in Hf; injection Hf as ->; apply finds_leaf.
        - apply finds_skip; [simpl in Hsh; lia|done]. }
      assert (exists i', 0 <= i' < span n /\ sem n c i' = q) as (i' & Hi' & Hq').
      { destruct Hq as [->|(_ & ?)]; [|done]. exists (idx mod span n).
        split; [apply Z.mod_pos_bound, span_pos|]. symmetry. by apply sem_mod. }
      destruct (sem_at_child n p _ c i' Wc Hj Hl Hi') as [Hr Es].
      destruct (node_lookup p n idx Hl) as (e & He & Hin). rewrite (sem_node n 1 p idx e He).
      destruct (decide (digit n idx = length p1)) as [Ed|Ed].
      * rewrite Ed, Hj in He. injection He as <-. destruct Hq as [|[Hq _]]; [by left|right].
        split; [done|]. rewrite <- Hq', <- Es. eauto.
      * right. split; [|rewrite <- Hq', <- Es; eauto]. apply wf_nil_sem; [by apply Hp|].
        apply Hnil. rewrite Ep in He. apply elem_of_app.
        apply lookup_app_Some in He as [He|[Hle He]]; [left|right]; [by apply list_elem_of_lookup_2 in He|].
        destruct (digit n idx - length p1)%nat as [|k] eqn:Ek; [lia|]. simpl in He.
        by apply list_elem_of_lookup_2 in He.
Qed.

(** The sections in the tree cover no page but their own. *)
Definition covers_own (root : PhysPageEntry) (sections : list PhysSection) : Prop :=
  forall idx s addr,
    0 <= idx < span 6 -> sem 6 root idx <> PHYS_SECTION_UNASSIGNED ->
    sections !! Z.to_nat (sem 6 root idx) = Some s -> 0 <= addr < 2 ^ 64 ->
    section_covers s addr = true -> sem 6 root (addr >> TARGET_PAGE_BITS) = sem 6 root idx.

(** All section numbers of the tree exist, and section 0. *)
Definition sections_exist (root : PhysPageEntry) (sections : list PhysSection) : Prop :=
  (exists s0, sections !! 0%nat = Some s0)
  /\ forall idx, 0 <= idx < span 6 -> exists s, sections !! Z.to_nat (sem 6 root idx) = Some s.

Lemma page_index addr : 0 <= addr < 2 ^ 64 -> 0 <= addr >> TARGET_PAGE_BITS < span 6.
Proof.
  intros Ha. unfold TARGET_PAGE_BITS. rewrite Z.shiftr_div_pow2 by lia.
  change (span 6) with (2 ^ 54). mlia.
Qed.

Lemma phys_page_find_sem root addr sections s :
  wf_entry 6 root -> sections !! Z.to_nat (sem 6 root (addr >> TARGET_PAGE_BITS)) = Some s ->
  phys_page_find root addr sections
  = Ret (if section_covers s addr then sem 6 root (addr >> TARGET_PAGE_BITS)
         else PHYS_SECTION_UNASSIGNED).
Proof.
  intros Hwf Hs. unfold phys_page_find. pose proof (finds_sem 6 root (addr >> TARGET_PAGE_BITS) Hwf) as Hf.
  specialize (Hf 6%nat ltac:(lia)). change (Z.to_nat P_L2_LEVELS) with 6%nat.
  change P_L2_LEVELS with (Z.of_nat 6). rewrite Hf. cbn [mbind outcome_bind]. rewrite Hs.
  by case_match.
Qed.

(** Compaction does not change any lookup, as long as the sections of the
    tree cover no page but their own: paths through it are shorter, and an
    address that was unassigned may end at the section of another page, which
    the final check of the lookup turns into unassigned again. *)
Lemma find_compact root addr sections :
  wf_entry 6 root -> covers_own root sections -> sections_exist root sections -> 0 <= addr < 2 ^ 64 ->
  phys_page_find (phys_page_compact_all root) addr sections = phys_page_find root addr sections.
Proof.
  intros Hwf Hcov [[s0 H0] Hex] Ha. pose proof (page_index addr Ha) as Hi.
  assert (phys_page_compact_all root = phys_page_compact root) as -> by (by destruct root).
  destruct (Hex _ Hi) as [s Hs]. rewrite (phys_page_find_sem root addr sections s Hwf Hs).
  destruct (compact_ok 6 root Hwf ltac:(lia)) as [_ Hc].
  destruct (Hc (addr >> TARGET_PAGE_BITS)) as (q & Hf & Hq). unfold phys_page_find.
  specialize (Hf 6%nat ltac:(lia)). change (Z.to_nat P_L2_LEVELS) with 6%nat.
  change P_L2_LEVELS with (Z.of_nat 6). rewrite Hf. cbn [mbind outcome_bind].
  destruct Hq as [->|(Hz & idx & Hidx & <-)]; [rewrite Hs; by case_match|].
  destruct (Hex idx Hidx) as [s' Hs']. rewrite Hs', Hz.
  destruct (section_covers s' addr) eqn:Ec; [|by case_match].
  destruct (decide (sem 6 root idx = PHYS_SECTION_UNASSIGNED)) as [->|Hne]; [by case_match|].
  rewrite <- (Hcov idx s' addr), Hz; try done. by case_match.
Qed.

(** ** Entering pages *)

(** Room for [c] more nodes. *)
Record room (map : node_count) (c : Z) : Prop := {
  room_nb : 0 <= nodes_nb map;
  room_left : nodes_nb map + c <= nodes_nb_alloc map;
  room_max : nodes_nb map + c <= PHYS_MAP_NODE_NIL;
}.

(** At most [c] nodes were taken. *)
Record took (map map' : node_count) (c : Z) : Prop := {
  took_min : nodes_nb map <= nodes_nb map';
  took_max : nodes_nb map' <= nodes_nb map + c;
  took_alloc : nodes_nb_alloc map' = nodes_nb_alloc map;
}.

Lemma took_refl map c : 0 <= c -> took map map c.
Proof. constructor; lia. Qed.

Lemma took_trans m1 m2 m3 c1 c2 c : took m1 m2 c1 -> took m2 m3 c2 -> c1 + c2 <= c -> took m1 m3 c.
Proof. intros [] [] ?. constructor; lia. Qed.

Lemma room_took map map' c1 c2 c : room map c -> took map map' c1 -> c1 + c2 <= c -> room map' c2.
Proof. intros [] [] ?. constructor; lia. Qed.

(** Nodes for the ends of a run that are not whole entries of level [l]. *)
Definition ends_cost (l : nat) (aligned reaches : bool) : Z :=
  (if aligned then 0 else Z.of_nat l) + (if reaches then 0 else Z.of_nat l).

Definition run (index nb idx : Z) : bool := (index <=? idx) && (idx <? index + nb).

(** The entry [lp] with [n] levels below it gets the part of the run
    [index, index + nb) that is inside its pages. *)
Record entry_set (n : nat) (leaf : Z) (map : node_count) (lp : PhysPageEntry) (index nb c : Z)
    (res : outcome set_state) (map' : node_count) (lp' : PhysPageEntry) : Prop := {
  es_res :
    let base := index / span n * span n in
    let E := Z.min (index + nb) (base + span n) in
    res = Ret (map', lp', E, index + nb - E);
  es_wf : wf_entry n lp';
  es_took : took map map' c;
  es_sem : forall idx, idx / span n = index / span n ->
    sem n lp' idx = if run index nb idx then leaf else sem n lp idx;
}.

(** What a level relies on from the one below. *)
Definition next_ok (n : nat) (leaf : Z) (next : node_count -> PhysPageEntry -> Z -> Z -> outcome set_state) :
    Prop :=
  forall map lp index nb,
    wf_entry n lp -> 0 <= index -> 0 < nb -> index + nb <= 2 ^ 60 ->
    ~ (index mod span n = 0 /\ span n <= nb) ->
    (forall idx, idx / span n = index / span n -> run index nb idx = true ->
       sem n lp idx = PHYS_SECTION_UNASSIGNED) ->
    let base := index / span n * span n in
    let c := 1 + ends_cost (n - 1) (index mod span n =? 0) (base + span n <=? index + nb) in
    room map c ->
    exists map' lp', entry_set n leaf map lp index nb c (next map lp index nb) map' lp'.

(** The entry of the page among the entries that start at page [P]. *)
Definition sems (n : nat) (es : list PhysPageEntry) (P idx : Z) : Z :=
  match es !! Z.to_nat ((idx - P) / span n) with
  | Some e => sem n e idx
  | None => PHYS_SECTION_UNASSIGNED
  end.

Lemma sems_head n e es P idx : P <= idx < P + span n -> sems n (e :: es) P idx = sem n e idx.
Proof. intros H. unfold sems. rewrite Z.div_small by lia. done. Qed.

Lemma sems_tail n e es P idx :
  P + span n <= idx -> sems n (e :: es) P idx = sems n es (P + span n) idx.
Proof.
  intros H. unfold sems. pose proof (span_pos n).
  replace (idx - P) with (idx - (P + span n) + 1 * span n) by lia.
  rewrite Z.div_add by lia. assert (0 <= (idx - (P + span n)) / span n) by (apply Z.div_pos; lia).
  rewrite Z2Nat.inj_add by lia. rewrite Nat.add_comm. done.
Qed.

Lemma set_loop_zero next step leaf map es index :
  set_loop next step leaf map es index 0 = Ret (map, es, index, 0).
Proof. by destruct es. Qed.

Lemma span_mod n idx P : idx / span n = P / span n -> P mod span n = 0 -> P <= idx < P + span n.
Proof.
  intros H1 H2. pose proof (span_pos n).
  pose proof (Z.div_mod idx (span n) ltac:(lia)). pose proof (Z.div_mod P (span n) ltac:(lia)).
  pose proof (Z.mod_pos_bound idx (span n) ltac:(lia)). nia.
Qed.

Lemma span_div n idx P : P mod span n = 0 -> P <= idx < P + span n -> idx / span n = P / span n.
Proof.
  intros H1 H2. pose proof (span_pos n). pose proof (Z.div_mod P (span n) ltac:(lia)).
  symmetry. apply (Z.div_unique idx (span n) (P / span n) (idx - P)); lia.
Qed.

Lemma step_span n : (n <= 6)%nat -> u64 (1 << (Z.of_nat n * P_L2_BITS)) = span n.
Proof.
  intros Hn. rewrite Z.shiftl_mul_pow2, Z.mul_1_l by (unfold P_L2_BITS; lia).
  replace (Z.of_nat n * P_L2_BITS) with (9 * Z.of_nat n) by (unfold P_L2_BITS; lia).
  apply wrap_small. split; [apply Z.pow_nonneg; lia|]. apply Z.pow_lt_mono_r; lia.
Qed.

Lemma step_aligned n index : (index &&& (span n - 1)) = index mod span n.
Proof.
  unfold span. rewrite <- Z.land_ones by lia. f_equal. rewrite Z.ones_equiv. lia.
Qed.

Lemma span_small n : (n <= 6)%nat -> span n <= 2 ^ 54.
Proof. intros Hn. unfold span. apply Z.pow_le_mono_r; lia. Qed.

Lemma cost_le n index nb :
  ~ (index mod span n = 0 /\ span n <= nb) -> 0 < nb ->
  let base := index / span n * span n in
  let a := index mod span n =? 0 in
  let r := base + span n <=? index + nb in
  1 + ends_cost (n - 1) a r <= ends_cost n a r.
Proof.
  intros Hp Hnb base a r. pose proof (Z.div_mod index (span n)). pose proof (span_pos n).
  destruct n as [|n]; [change (span 0) with 1 in *; rewrite Z.mod_1_r in *; lia|].
  subst a r base. unfold ends_cost. replace (S n - 1)%nat with n by lia.
  destruct (Z.eqb_spec (index mod span (S n)) 0),
    (Z.leb_spec (index / span (S n) * span (S n) + span (S n)) (index + nb)); lia.
Qed.

(** One iteration of the loop. *)
Lemma child_step_ok n leaf next map e index nb :
  (n <= 6)%nat -> next_ok n leaf next -> 0 < leaf < PHYS_MAP_NODE_NIL ->
  wf_entry n e -> 0 <= index -> 0 < nb -> index + nb <= 2 ^ 60 ->
  (forall idx, idx / span n = index / span n -> run index nb idx = true ->
     sem n e idx = PHYS_SECTION_UNASSIGNED) ->
  let base := index / span n * span n in
  let c := ends_cost n (index mod span n =? 0) (base + span n <=? index + nb) in
  room map c ->
  exists map' e',
    entry_set n leaf map e index nb c
      (if ((index &&& (span n - 1)) =? 0) && (span n <=? nb)
       then Ret (map, Leaf leaf, u64 (index + span n), u64 (nb - span n))
       else next map e index nb) map' e'.
Proof.
  intros Hn Hnext Hleaf He Hi Hnb Hmax Hpre base c Hroom. rewrite step_aligned.
  pose proof (span_pos n). pose proof (span_small n Hn).
  pose proof (Z.div_mod index (span n) ltac:(lia)) as Hdm.
  destruct ((index mod span n =? 0) && (span n <=? nb)) eqn:Ec.
  - apply andb_true_iff in Ec as [Ha%Z.eqb_eq Hl%Z.leb_le].
    assert (base = index) as Hb by (unfold base; lia).
    exists map, (Leaf leaf). constructor.
    + cbv zeta. fold base. rewrite Hb, Z.min_r by lia.
      rewrite (wrap_small 64 (index + span n)), (wrap_small 64 (nb - span n)) by lia.
      do 2 f_equal. lia.
    + constructor; [lia|right; unfold PHYS_SECTION_UNASSIGNED; lia].
    + apply took_refl. unfold c, ends_cost. repeat case_match; lia.
    + intros idx Hd. apply span_mod in Hd; [|done]. unfold run. rewrite sem_leaf.
      destruct (Z.leb_spec index idx), (Z.ltb_spec idx (index + nb)); simpl; done || lia.
  - assert (~ (index mod span n = 0 /\ span n <= nb)) as Hp.
    { apply andb_false_iff in Ec. rewrite Z.eqb_neq, Z.leb_gt in Ec. lia. }
    pose proof (cost_le n index nb Hp Hnb) as Hc. cbv zeta in Hc. fold base in Hc. fold c in Hc.
    destruct (Hnext map e index nb) as (map' & e' & Hs); try done.
    { destruct Hroom. constructor; fold base; lia. }
    exists map', e'. destruct Hs as [S1 S2 S3 S4]. constructor; try done.
    eapply took_trans; [apply (took_refl _ 0); lia|exact S3|]. fold base. lia.
Qed.

Lemma run_rest index nb P idx :
  index <= P -> P <= idx -> run P (index + nb - P) idx = run index nb idx.
Proof.
  intros H1 H2. unfold run. replace (P + (index + nb - P)) with (index + nb) by lia.
  destruct (Z.leb_spec P idx), (Z.leb_spec index idx); done || lia.
Qed.

Lemma mod_next n P : P mod span n = 0 -> (P + span n) mod span n = 0.
Proof.
  intros H. pose proof (span_pos n). replace (P + span n) with (P + 1 * span n) by lia.
  by rewrite Z.mod_add by lia.
Qed.

(** The loop over the entries [es], whose pages start at [P]. *)
Lemma set_loop_ok n leaf next es map P index nb :
  (n <= 6)%nat -> next_ok n leaf next -> 0 < leaf < PHYS_MAP_NODE_NIL ->
  (forall e, e ∈ es -> wf_entry n e) -> P mod span n = 0 ->
  0 <= P -> 0 < nb -> index + nb <= 2 ^ 60 ->
  (es <> [] /\ P <= index < P + span n \/ es = [] /\ index = P) ->
  let last := P + Z.of_nat (length es) * span n in
  (forall idx, P <= idx < last -> run index nb idx = true -> sems n es P idx = PHYS_SECTION_UNASSIGNED) ->
  let c := ends_cost n (index mod span n =? 0) (last <=? index + nb) in
  room map c ->
  exists map' es',
    set_loop next (span n) leaf map es index nb
    = Ret (map', es', Z.min (index + nb) last, index + nb - Z.min (index + nb) last)
    /\ length es' = length es /\ (forall e, e ∈ es' -> wf_entry n e) /\ took map map' c
    /\ forall idx, P <= idx < last ->
       sems n es' P idx = if run index nb idx then leaf else sems n es P idx.
Proof.
  intros Hn Hnext Hleaf. pose proof (span_pos n) as Hsp.
  revert map P index nb. induction es as [|e es IH];
    intros map P index nb Hwf HP HP0 Hnb Hmax Hpos last Hpre c Hroom.
  { destruct Hpos as [[? _]|[_ ->]]; [done|]. exists map, []. subst last. simpl in *.
    rewrite Z.add_0_r, Z.min_r by lia. split_and!; try done; try lia.
    - do 2 f_equal. lia.
    - apply took_refl. unfold c, ends_cost. repeat case_match; lia. }
  destruct Hpos as [[_ Hpos]|[? _]]; [|done].
  assert (index / span n = P / span n) as Hdiv by (by apply span_div).
  assert (P / span n * span n = P) as HPP by (pose proof (Z.div_mod P (span n)); lia).
  set (c1 := ends_cost n (index mod span n =? 0) (P + span n <=? index + nb)).
  assert (last = P + span n + Z.of_nat (length es) * span n) as Hlast by (unfold last; simpl length; lia).
  assert (c1 <= c) as Hc1.
  { unfold c1, c, ends_cost. destruct (Z.leb_spec (P + span n) (index + nb)), (Z.leb_spec last (index + nb)); nia. }
  destruct (child_step_ok n leaf next map e index nb) as (map1 & e1 & Hs); try done; try lia.
  { apply Hwf. left. }
  { intros idx Hd Hr. rewrite Hdiv in Hd. apply span_mod in Hd; [|done].
    rewrite <- (sems_head n e es P idx Hd). apply Hpre; [|done]. unfold last. simpl length. lia. }
  { rewrite Hdiv, HPP. destruct Hroom. constructor; fold c1; lia. }
  destruct Hs as [S1 S2 S3 S4]. rewrite Hdiv, HPP in S3. fold c1 in S3. cbn [set_loop]. destruct (Z.eqb_spec nb 0); [lia|]. cbn [negb].
  rewrite S1. cbv zeta. rewrite Hdiv, HPP. cbn [mbind outcome_bind]. clear S1.
  assert (forall idx, P <= idx < P + span n -> sem n e1 idx = if run index nb idx then leaf else sem n e idx) as S4'.
  { intros idx Hd. apply S4. rewrite Hdiv. by apply span_div. }
  destruct (Z.le_gt_cases (index + nb) (P + span n)) as [Hin|Hout].
  - rewrite !Z.min_l by nia. replace (index + nb - (index + nb)) with 0 by lia. rewrite set_loop_zero.
    cbn [mbind outcome_bind]. exists map1, (e1 :: es). split; [done|]. split; [done|].
    split. { intros x [->|Hx]%elem_of_cons; [done|]. apply Hwf. by right. }
    split. { destruct S3. constructor; lia. }
    intros idx Hidx. destruct (Z.lt_ge_cases idx (P + span n)).
    + rewrite !sems_head by lia. apply S4'. lia.
    + rewrite !sems_tail by lia. unfold run. destruct (Z.ltb_spec idx (index + nb)); [lia|]. by rewrite andb_false_r.
  - rewrite (Z.min_r (index + nb) (P + span n)) by lia.
    assert (c1 + ends_cost n ((P + span n) mod span n =? 0) (last <=? P + span n + (index + nb - (P + span n))) <= c)
      as Hc2.
    { rewrite mod_next by done. unfold c1, c, ends_cost.
      replace (P + span n + (index + nb - (P + span n))) with (index + nb) by lia.
      destruct (Z.leb_spec (P + span n) (index + nb)); simpl; lia. }
    destruct (IH map1 (P + span n) (P + span n) (index + nb - (P + span n)))
      as (map2 & es2 & E2 & L2 & W2 & T2 & Sem2).
    + intros x Hx. apply Hwf. by right.
    + by apply mod_next.
    + lia.
    + lia.
    + lia.
    + destruct es; [by right|left; split; [done|lia]].
    + intros idx Hidx Hr. rewrite <- (sems_tail n e) by lia. apply Hpre; [lia|].
      by rewrite (run_rest index nb) in Hr by lia.
    + rewrite <- Hlast. apply (room_took map _ c1 _ c); [done|done|]. exact Hc2.
    + rewrite E2. cbn [mbind outcome_bind]. exists map2, (e1 :: es2).
      split. { do 2 f_equal; [f_equal|]; lia. }
      split; [simpl; lia|]. split. { intros x [->|Hx]%elem_of_cons; auto. }
      split. { apply (took_trans _ map1 _ c1 _ _ S3 T2). rewrite <- Hlast. exact Hc2. }
      intros idx Hidx. destruct (Z.lt_ge_cases idx (P + span n)).
      * rewrite !sems_head by lia. apply S4'. lia.
      * rewrite !sems_tail by lia. rewrite Sem2, (run_rest index nb) by lia. done.
Qed.

(** The node an entry gets, and what it costs. *)
Lemma node_of_ok level map lp index c :
  0 <= c -> wf_entry (S level) lp -> sem (S level) lp index = PHYS_SECTION_UNASSIGNED ->
  room map (1 + c) ->
  exists map' p,
    node_of map lp level = Ret (map', 1, p) /\ wf_entry (S level) (Ptr 1 (Some p))
    /\ took map map' 1 /\ room map' c
    /\ forall idx, sem (S level) (Ptr 1 (Some p)) idx = sem (S level) lp idx.
Proof.
  intros Hc Hwf Hs Hroom. inversion Hwf as [? q Hq Hz| |? p Hl Hp]; subst.
  - rewrite sem_leaf in Hs. destruct Hz; done.
  - destruct Hroom as [R1 R2 R3]. unfold node_of, phys_map_node_alloc.
    destruct (Z.eqb_spec (nodes_nb map) PHYS_MAP_NODE_NIL), (Z.eqb_spec (nodes_nb map) (nodes_nb_alloc map));
      cbn [orb]; try lia. cbn [mbind outcome_bind].
    set (e0 := if (level =? 0)%nat then Leaf PHYS_SECTION_UNASSIGNED else Ptr 1 None).
    assert (wf_entry level e0) as W0.
    { unfold e0. destruct level; simpl; constructor; [done|by left]. }
    assert (forall idx, sem level e0 idx = PHYS_SECTION_UNASSIGNED) as S0.
    { intros idx. unfold e0. destruct level; done. }
    eexists _, _. split; [done|]. split.
    { constructor; [apply repeat_length|]. intros e He%list_elem_of_In%repeat_spec. by subst. }
    split; [constructor; simpl; lia|]. split; [constructor; simpl; lia|].
    intros idx. destruct (node_lookup (repeat e0 node_size) level idx) as (e & He & Hin);
      [apply repeat_length|].
    rewrite (sem_node _ _ _ _ e He). apply list_elem_of_In, repeat_spec in Hin as ->. apply S0.
  - exists map, p. split_and!; try done; [apply took_refl; lia|].
    destruct Hroom. constructor; lia.
Qed.

(** The place of a page in the node whose pages start at [base]. *)
Lemma digit_of level base idx :
  base mod span (S level) = 0 -> base <= idx < base + span (S level) ->
  let k := (idx - base) / span level in
  digit level idx = Z.to_nat k /\ 0 <= k < 512
  /\ base + k * span level <= idx < base + k * span level + span level.
Proof.
  intros Hb Hidx k. pose proof (span_pos level) as Hsp. pose proof (span_S level) as HS.
  pose proof (Z.div_mod (idx - base) (span level) ltac:(lia)) as Hdm. fold k in Hdm.
  pose proof (Z.mod_pos_bound (idx - base) (span level) ltac:(lia)) as Hr.
  assert (0 <= k < 512) as Hk.
  { split; [apply Z.div_pos; lia|apply Z.div_lt_upper_bound; lia]. }
  split; [|lia].
  rewrite <- (digit_child level (base / span (S level)) k ((idx - base) mod span level)) by lia.
  f_equal. pose proof (Z.div_mod base (span (S level))). lia.
Qed.

(** The entries from [i] on, as part of such a node. *)
Lemma sems_drop level p i base idx :
  base mod span (S level) = 0 -> (i < node_size)%nat ->
  base + Z.of_nat i * span level <= idx < base + span (S level) ->
  sems level (drop i p) (base + Z.of_nat i * span level) idx = sem (S level) (Ptr 1 (Some p)) idx.
Proof.
  intros Hb Hi Hidx. pose proof (span_pos level) as Hsp.
  destruct (digit_of level base idx Hb ltac:(nia)) as (Hd & Hk & Hpos).
  set (k := (idx - base) / span level) in *.
  assert (Z.of_nat i <= k) by nia.
  cbn [sem]. unfold sems. rewrite Hd, lookup_drop.
  replace (Z.to_nat k) with (i + Z.to_nat ((idx - (base + Z.of_nat i * span level)) / span level))%nat; [done|].
  replace (idx - (base + Z.of_nat i * span level)) with (idx - base + (- Z.of_nat i) * span level) by lia.
  rewrite Z.div_add by lia. fold k. lia.
Qed.

Lemma elem_of_drop_in {A} (l : list A) i x : x ∈ drop i l -> x ∈ l.
Proof. intros H. rewrite <- (take_drop i l). apply elem_of_app. by right. Qed.

Lemma elem_of_take_in {A} (l : list A) i x : x ∈ take i l -> x ∈ l.
Proof. intros H. rewrite <- (take_drop i l). apply elem_of_app. by left. Qed.

Lemma ends_cost_nonneg l a r : 0 <= ends_cost l a r.
Proof. unfold ends_cost. repeat case_match; lia. Qed.

(** The node with its entries from [i] on replaced. *)
Lemma sem_replaced level p rest i base idx :
  length p = node_size -> (i < node_size)%nat -> length rest = length (drop i p) ->
  base mod span (S level) = 0 -> base <= idx < base + span (S level) ->
  sem (S level) (Ptr 1 (Some (take i p ++ rest))) idx
  = if idx <? base + Z.of_nat i * span level then sem (S level) (Ptr 1 (Some p)) idx
    else sems level rest (base + Z.of_nat i * span level) idx.
Proof.
  intros Hl Hi Hr Hb Hidx. pose proof (span_pos level). rewrite length_drop, Hl in Hr.
  destruct (Z.ltb_spec idx (base + Z.of_nat i * span level)).
  - destruct (digit_of level base idx Hb Hidx) as (Hd & Hk & Hpos). cbn [sem].
    rewrite lookup_app_l by (rewrite length_take_le; [rewrite Hd; nia|lia]).
    rewrite lookup_take_lt by (rewrite Hd; nia). done.
  - rewrite <- (sems_drop level (take i p ++ rest) i base) by (done || lia).
    rewrite drop_app_length' by (rewrite length_take_le; lia). done.
Qed.

Lemma phys_page_set_level_eq level leaf map lp index nb :
  phys_page_set_level level leaf map lp index nb
  = ('(map, skip, p) ← node_of map lp level;
     '(map, rest, index', nb') ←
       set_loop
         (match level with
          | O => fun _ _ _ _ => Fault OutOfBounds
          | S level => phys_page_set_level level leaf
          end) (u64 (1 << (Z.of_nat level * P_L2_BITS))) leaf map (drop (digit level index) p) index nb;
     Ret (map, Ptr skip (Some (take (digit level index) p ++ rest)), index', nb')).
Proof. by destruct level. Qed.

Lemma set_level_ok level leaf :
  (level <= 5)%nat -> 0 < leaf < PHYS_MAP_NODE_NIL ->
  next_ok (S level) leaf (phys_page_set_level level leaf).
Proof.
  intros Hlev Hleaf. induction level as [level IH0] using lt_wf_ind.
  assert (next_ok level leaf (match level with
                              | O => fun _ _ _ _ => Fault OutOfBounds
                              | S level => phys_page_set_level level leaf
                              end)) as IH.
  { destruct level as [|l]; [|apply IH0; lia]. intros map lp index nb _ _ Hnb _ Hp.
    exfalso. apply Hp. change (span 0) with 1. rewrite Z.mod_1_r. lia. }
  clear IH0. intros map lp index nb Hwf Hi Hnb Hmax Hpart Hpre base c Hroom.
  pose proof (span_pos level) as Hsp. pose proof (span_S level) as HS.
  subst c. replace (S level - 1)%nat with level in * by lia.
  set (c := ends_cost level (index mod span (S level) =? 0) (base + span (S level) <=? index + nb)) in *.
  assert (base mod span (S level) = 0) as Hbase by (apply Z.mod_mul; lia).
  assert (base <= index < base + span (S level)) as Hblk.
  { apply span_mod; [|done]. unfold base. rewrite Z.div_mul by lia. done. }
  assert (forall idx, base <= idx < base + span (S level) -> idx / span (S level) = index / span (S level)) as Hsame.
  { intros idx Hidx. rewrite (span_div _ idx base), (span_div _ index base) by done. done. }
  destruct (node_of_ok level map lp index c) as (map1 & p & E1 & Wp & T1 & R1 & Sem1);
    [apply ends_cost_nonneg|done|apply Hpre; [done|]|done|].
  { unfold run. destruct (Z.leb_spec index index), (Z.ltb_spec index (index + nb)); done || lia. }
  inversion Wp as [| |? ? Hl Hp]; subst.
  destruct (digit_of level base index Hbase Hblk) as (Hd & Hk & Hpos).
  set (k := (index - base) / span level) in *. set (i := Z.to_nat k) in *.
  assert (Z.of_nat i = k) as Eik by lia. assert (i < node_size)%nat as Hib by (unfold node_size; lia).
  set (P := base + Z.of_nat i * span level).
  assert (P + Z.of_nat (length (drop i p)) * span level = base + span (S level)) as Hlast.
  { rewrite length_drop, Hl. unfold P, node_size in *. rewrite HS. nia. }
  assert (0 <= base) as Hb0 by (apply Z.mul_nonneg_nonneg; [apply Z.div_pos|]; lia).
  assert (P mod span level = 0) as HP.
  { unfold P, base. rewrite HS. replace (index / (512 * span level) * (512 * span level) + Z.of_nat i * span level)
      with ((index / (512 * span level) * 512 + Z.of_nat i) * span level) by ring. apply Z.mod_mul. lia. }
  assert (ends_cost level (index mod span level =? 0) (base + span (S level) <=? index + nb) <= c) as Hcc.
  { unfold c, ends_cost. destruct (Z.eqb_spec (index mod span (S level)) 0) as [E0|]; [|repeat case_match; lia].
    assert (index mod span level = 0) as ->; [|done].
    rewrite <- (Z.mod_mod_divide index (span (S level)) (span level)) by (exists 512; done). by rewrite E0. }
  destruct (set_loop_ok level leaf _ (drop i p) map1 P index nb ltac:(lia) IH Hleaf)
    as (map2 & rest & E2 & L2 & W2 & T2 & Sem2); try done.
  { intros e He%elem_of_drop_in. by apply Hp. }
  { unfold P. nia. }
  { left. split; [|unfold P; rewrite Eik; lia]. intros E0. apply (f_equal length) in E0.
    rewrite length_drop, Hl in E0. simpl in E0. lia. }
  { rewrite Hlast. intros idx Hidx Hr. unfold P in *. rewrite sems_drop, Sem1 by (done || lia).
    apply Hpre; [apply Hsame; nia|done]. }
  { rewrite Hlast. destruct R1. constructor; lia. }
  rewrite Hlast in *.
  exists map2, (Ptr 1 (Some (take i p ++ rest))). constructor.
  - fold base. rewrite phys_page_set_level_eq, E1. cbn [mbind outcome_bind].
    rewrite step_span, Hd, E2 by lia. done.
  - constructor; [rewrite length_app, length_take_le, L2, length_drop by lia; lia|].
    intros e [He%elem_of_take_in|He]%elem_of_app; auto.
  - apply (took_trans _ map1 _ 1 (ends_cost level (index mod span level =? 0) (base + span (S level) <=? index + nb)));
      [done|done|lia].
  - intros idx Hidx. assert (base <= idx < base + span (S level)) as Hin.
    { apply span_mod; [|done]. rewrite Hidx. unfold base. by rewrite Z.div_mul by lia. }
    rewrite (sem_replaced level p rest i base idx) by done. fold P. rewrite <- Sem1.
    destruct (Z.ltb_spec idx P).
    + unfold run. destruct (Z.leb_spec index idx); [unfold P in *; lia|done].
    + rewrite Sem2 by lia. unfold P in *. by rewrite sems_drop by (done || lia).
Qed.

(** Pages of the whole tree. *)
Lemma root_block idx : 0 <= idx < span 6 -> idx / span 6 = 0.
Proof. apply Z.div_small. Qed.

Lemma phys_page_set_ok map root index nb leaf :
  wf_entry 6 root -> 0 < leaf < PHYS_MAP_NODE_NIL ->
  0 <= index -> 0 < nb -> index + nb <= 2 ^ 52 ->
  0 <= nodes_nb map <= nodes_nb_alloc map -> nodes_nb map + 3 * P_L2_LEVELS <= PHYS_MAP_NODE_NIL ->
  (forall idx, run index nb idx = true -> sem 6 root idx = PHYS_SECTION_UNASSIGNED) ->
  exists map' root',
    phys_page_set map root index nb leaf = Ret (map', root') /\ wf_entry 6 root'
    /\ nodes_nb map <= nodes_nb map' <= nodes_nb map + 11 /\ nodes_nb map' <= nodes_nb_alloc map'
    /\ forall idx, 0 <= idx < span 6 ->
       sem 6 root' idx = if run index nb idx then leaf else sem 6 root idx.
Proof.
  intros Hwf Hleaf Hi Hnb Hmax Hc Hnil Hpre. change (3 * P_L2_LEVELS) with 18 in *.
  change (span 6) with (2 ^ 54) in *. unfold phys_page_set. change (3 * P_L2_LEVELS) with 18.
  change (Z.to_nat (P_L2_LEVELS - 1)) with 5%nat.
  set (m := phys_map_node_reserve map 18).
  assert (nodes_nb m = nodes_nb map /\ nodes_nb map + 18 <= nodes_nb_alloc m) as [Em Ha].
  { unfold m, phys_map_node_reserve. zcase; simpl; lia. }
  assert (index / span 6 = 0) as H0 by (apply root_block; change (span 6) with (2 ^ 54); lia).
  destruct (set_level_ok 5 leaf ltac:(lia) Hleaf m root index nb) as (map' & root' & [S1 S2 S3 S4]);
    try done; try lia.
  - rewrite Z.mod_small by (change (span 6) with (2 ^ 54); lia). change (span 6) with (2 ^ 54). lia.
  - intros idx _ Hr. by apply Hpre.
  - constructor; rewrite ?Em; unfold ends_cost; simpl; repeat case_match; lia.
  - exists map', root'. rewrite S1. cbn [mbind outcome_bind]. split; [done|]. split; [done|].
    destruct S3 as [T1 T2 T3].
    assert (nodes_nb map' <= nodes_nb map + 11).
    { etrans; [exact T2|]. rewrite Em. unfold ends_cost. simpl. repeat case_match; lia. }
    split; [lia|]. split; [lia|]. intros idx Hidx. apply S4. rewrite H0. by apply root_block.
Qed.

(** C31: entering a run of unassigned pages returns, takes at most eleven of the
    eighteen nodes that are reserved for it, keeps the tree well-formed, and
    changes what the lookup loop finds at exactly the pages of the run. *)
Theorem phys_page_set_correct map root index nb leaf :
  wf_entry 6 root -> 0 < leaf < PHYS_MAP_NODE_NIL ->
  0 <= index -> 0 < nb -> index + nb <= 2 ^ 52 ->
  0 <= nodes_nb map <= nodes_nb_alloc map -> nodes_nb map + 3 * P_L2_LEVELS <= PHYS_MAP_NODE_NIL ->
  (forall idx, index <= idx < index + nb ->
     find_loop 6 root P_L2_LEVELS idx = Ret PHYS_SECTION_UNASSIGNED) ->
  exists map' root',
    phys_page_set map root index nb leaf = Ret (map', root') /\ wf_entry 6 root'
    /\ nodes_nb map <= nodes_nb map' <= nodes_nb map + 11 /\ nodes_nb map' <= nodes_nb_alloc map'
    /\ forall idx, 0 <= idx < 2 ^ 52 ->
       find_loop 6 root' P_L2_LEVELS idx
       = if (index <=? idx) && (idx <? index + nb) then Ret leaf else find_loop 6 root P_L2_LEVELS idx.
Proof.
  intros Hwf Hleaf Hi Hnb Hmax Hc Hnil Hpre.
  pose proof (fun e idx H => finds_sem 6 e idx H 6%nat ltac:(lia)) as Hf.
  change (Z.of_nat 6) with P_L2_LEVELS in Hf.
  destruct (phys_page_set_ok map root index nb leaf) as (map' & root' & E & W & T & A & S); try done.
  { intros idx Hr. apply andb_true_iff in Hr. specialize (Hpre idx ltac:(lia)).
    rewrite (Hf root idx Hwf) in Hpre. congruence. }
  exists map', root'. split_and!; try done; try lia. intros idx Hidx.
  rewrite (Hf root' idx W), (Hf root idx Hwf), S by (change (span 6) with (2 ^ 54); lia).
  unfold run. by case_match.
Qed.

Lemma phys_page_set_correct_witness :
  exists map' root',
    phys_page_set {| nodes_nb := 0; nodes_nb_alloc := 0 |} (Ptr 1 None) 510 1030 7 = Ret (map', root')
    /\ wf_entry 6 root' /\ nodes_nb map' <= 11 /\ nodes_nb map' <= nodes_nb_alloc map'
    /\ forall idx, 0 <= idx < 2 ^ 52 ->
       find_loop 6 root' P_L2_LEVELS idx
       = if (510 <=? idx) && (idx <? 1540) then Ret 7 else Ret PHYS_SECTION_UNASSIGNED.
Proof.
  destruct (phys_page_set_correct {| nodes_nb := 0; nodes_nb_alloc := 0 |} (Ptr 1 None) 510 1030 7
              (wf_nil 5) ltac:(by vm_compute) ltac:(lia) ltac:(lia) ltac:(lia)
              ltac:(by vm_compute) ltac:(by vm_compute) ltac:(reflexivity))
    as (map' & root' & E & W & [_ T] & A & S).
  exists map', root'. split; [exact E|]. split; [exact W|]. split; [exact T|]. split; [exact A|exact S].
Defined.

(** A node whose only child is a leaf does occur: two aligned megabytes in an
    otherwise empty map make even the root a leaf. *)
Example only_child_is_leaf :
  (x ← phys_page_set {| nodes_nb := 0; nodes_nb_alloc := 0 |} (Ptr 1 None) 512 512 7;
   Ret (phys_page_compact_all (snd x))) = Ret (Leaf 7).
Proof. vm_compute. reflexivity. Qed.

(** Three pages from page 5 on belong to section 1. *)
Lemma three_pages :
  exists root, wf_entry 6 root
    /\ forall idx, 0 <= idx < span 6 ->
       sem 6 root idx = if run 5 3 idx then 1 else PHYS_SECTION_UNASSIGNED.
Proof.
  destruct (phys_page_set_ok {| nodes_nb := 0; nodes_nb_alloc := 0 |} (Ptr 1 None) 5 3 1
              (wf_nil 5) ltac:(by vm_compute) ltac:(lia) ltac:(lia) ltac:(lia)
              ltac:(by vm_compute) ltac:(by vm_compute) ltac:(reflexivity))
    as (map' & root & _ & W & _ & _ & S).
  exists root. split; [exact W|exact S].
Qed.

Definition sample_sections : list PhysSection :=
  [ {| ps_mr := Unassigned; ps_offset_within_region := 0; ps_size := {| lo := 0; hi := 1 |};
       ps_offset_within_address_space := 0; ps_readonly := false |};
    {| ps_mr := Region 1; ps_offset_within_region := 0; ps_size := {| lo := 12288; hi := 0 |};
       ps_offset_within_address_space := 20480; ps_readonly := false |} ].

Example compacted_lookups :
  exists root,
    phys_page_find (phys_page_compact_all root) 20490 sample_sections = Ret 1
    /\ phys_page_find (phys_page_compact_all root) 32768 sample_sections = Ret PHYS_SECTION_UNASSIGNED.
Proof.
  destruct three_pages as (root & W & S). exists root.
  assert (forall addr, 0 <= addr < 2 ^ 64 -> run 5 3 (addr >> TARGET_PAGE_BITS) = true
          <-> 20480 <= addr < 32768) as Hr.
  { intros addr Ha. unfold run, TARGET_PAGE_BITS. rewrite Z.shiftr_div_pow2 by lia.
    rewrite andb_true_iff, Z.leb_le, Z.ltb_lt. mlia. }
  assert (covers_own root sample_sections) as C1.
  { intros idx s addr Hidx Hne Hs Ha Hcov. pose proof (page_index addr Ha) as Hp.
    rewrite (S idx Hidx) in *. destruct (run 5 3 idx); [|done]. injection Hs as <-.
    rewrite (S _ Hp). apply andb_true_iff in Hcov as [C1%Z.leb_le C2%Z.leb_le].
    change (range_get_last _ _) with 32767 in C2. simpl in C1.
    destruct (run 5 3 (addr >> TARGET_PAGE_BITS)) eqn:E; [done|]. exfalso.
    apply not_true_iff_false in E. apply E, Hr; lia. }
  assert (sections_exist root sample_sections) as C2.
  { split; [by eexists|]. intros idx Hidx. rewrite (S idx Hidx). case_match; by eexists. }
  split; (rewrite (find_compact root _ sample_sections W C1 C2) by lia);
    erewrite phys_page_find_sem by (done || (rewrite S by (by vm_compute); reflexivity));
    rewrite S by (by vm_compute); reflexivity.
Qed.
