(* ===== verification/Dispatch.v ===== *)
(** * The dispatch table of an address space

    Model of the memory listener of [src/exec.c] that turns the ranges of a flat
    view into the radix tree of [PhysMap]: [mem_begin] starts a table,
    [mem_add] enters a range (whole pages by [register_multipage], the rest
    through pages split between sections by [register_subpage]), [mem_commit]
    compacts the tree, and [address_space_lookup_region] finds the section of
    an address.

    Shown here: fed with the events of an update of the memory map, the table
    is built without a failed assertion, and afterwards a lookup finds at every
    address the region that the tree of regions resolves it to.

    The number of a section is its place in the table of sections; the space
    allocated for the table, which doubles when it is full, is not part of the
    model.  A page that is split is a number in the table of such pages,
    which stands for the pointer to it. *)

From S2P Require Import Prelude HostUtils GuestMem Int128 Memory PhysMap.

Definition PHYS_SECTION_NOTDIRTY : Z := 1.
Definition PHYS_SECTION_ROM : Z := 2.
Definition PHYS_SECTION_WATCH : Z := 3.

Record subpage_t := {
  sp_base : Z;
  sub_section : list Z;
}.

Record AddressSpaceDispatch := {
  phys_map : PhysPageEntry;
  nodes : node_count;
  sections : list PhysSection;
  subpages : list subpage_t;
}.

Definition SUBPAGE_IDX (addr : Z) : Z := addr &&& Z.lnot TARGET_PAGE_MASK.

Definition TARGET_PAGE_ALIGN (addr : Z) : Z :=
  u64 (u64 (addr + TARGET_PAGE_SIZE) - 1) &&& TARGET_PAGE_MASK.

(** The new section's number. *)
Definition phys_section_add (d : AddressSpaceDispatch) (section : PhysSection) :
    outcome (AddressSpaceDispatch * Z) :=
  let sections_nb := Z.of_nat (length (sections d)) in
  if sections_nb <? TARGET_PAGE_SIZE then
    Ret ({| phys_map := phys_map d; nodes := nodes d;
            sections := sections d ++ [section]; subpages := subpages d |}, u16 sections_nb)
  else Fault AssertFailed.

(** [for (; idx <= eidx; idx++) mmio->sub_section[idx] = section], with [n]
    iterations. *)
Fixpoint fill_sections (n : nat) (idx : Z) (section : Z) (l : list Z) : list Z :=
  match n with
  | O => l
  | S n => fill_sections n (idx + 1) section (<[Z.to_nat idx := section]> l)
  end.

(** The returned code, which no caller uses, is left out. *)
Definition subpage_register (mmio : subpage_t) (start end_ : Z) (section : Z) : subpage_t :=
  let start := u32 start in
  let end_ := u32 end_ in
  if (TARGET_PAGE_SIZE <=? start) || (TARGET_PAGE_SIZE <=? end_) then mmio
  else
    let idx := SUBPAGE_IDX start in
    let eidx := SUBPAGE_IDX end_ in
    {| sp_base := sp_base mmio;
       sub_section := fill_sections (Z.to_nat (eidx - idx + 1)) idx section (sub_section mmio) |}.

Definition subpage_init (base : Z) : subpage_t :=
  let mmio := {| sp_base := base; sub_section := repeat 0 (Z.to_nat TARGET_PAGE_SIZE) |} in
  subpage_register mmio 0 (TARGET_PAGE_SIZE - 1) PHYS_SECTION_UNASSIGNED.

Definition dummy (mr : section_mr) : PhysSection :=
  {| ps_mr := mr; ps_offset_within_region := 0; ps_size := int128_2_64;
     ps_offset_within_address_space := 0; ps_readonly := false |}.

Definition dummy_section (d : AddressSpaceDispatch) (mr : section_mr) :
    outcome (AddressSpaceDispatch * Z) :=
  phys_section_add d (dummy mr).

(** [d->map] is filled with zeros by [g_new0]; [d->phys_map] is assigned last. *)
Definition mem_begin : outcome AddressSpaceDispatch :=
  let d := {| phys_map := Leaf 0; nodes := {| nodes_nb := 0; nodes_nb_alloc := 0 |};
              sections := []; subpages := [] |} in
  '(d, n) ← dummy_section d Unassigned;
  if negb (n =? PHYS_SECTION_UNASSIGNED) then Fault AssertFailed else
  '(d, n) ← dummy_section d NotDirty;
  if negb (n =? PHYS_SECTION_NOTDIRTY) then Fault AssertFailed else
  '(d, n) ← dummy_section d Rom;
  if negb (n =? PHYS_SECTION_ROM) then Fault AssertFailed else
  '(d, n) ← dummy_section d Watch;
  if negb (n =? PHYS_SECTION_WATCH) then Fault AssertFailed else
  Ret {| phys_map := Ptr 1 None; nodes := nodes d; sections := sections d; subpages := subpages d |}.

(** [phys_page_set] on the table. *)
Definition set_pages (d : AddressSpaceDispatch) (index nb leaf : Z) : outcome AddressSpaceDispatch :=
  '(n, lp) ← phys_page_set (nodes d) (phys_map d) index nb leaf;
  Ret {| phys_map := lp; nodes := n; sections := sections d; subpages := subpages d |}.

Definition with_subpages (d : AddressSpaceDispatch) (l : list subpage_t) : AddressSpaceDispatch :=
  {| phys_map := phys_map d; nodes := nodes d; sections := sections d; subpages := l |}.

(** The split page of the section, made when there is none. *)
Definition subpage_for (d : AddressSpaceDispatch) (base : Z) : outcome (AddressSpaceDispatch * nat) :=
  n ← phys_page_find (phys_map d) base (sections d);
  match sections d !! Z.to_nat n with
  | None => Fault OutOfBounds
  | Some existing =>
      match ps_mr existing with
      | Subpage k => Ret (d, k)
      | Unassigned =>
          let k := length (subpages d) in
          let d := with_subpages d (subpages d ++ [subpage_init base]) in
          '(d, n) ← phys_section_add d
            {| ps_mr := Subpage k; ps_offset_within_region := 0;
               ps_size := int128_make64 TARGET_PAGE_SIZE;
               ps_offset_within_address_space := base; ps_readonly := false |};
          d ← set_pages d (base >> TARGET_PAGE_BITS) 1 n;
          Ret (d, k)
      | _ => Fault AssertFailed
      end
  end.

Definition register_subpage (d : AddressSpaceDispatch) (section : PhysSection) :
    outcome AddressSpaceDispatch :=
  let base := ps_offset_within_address_space section &&& TARGET_PAGE_MASK in
  '(d, k) ← subpage_for d base;
  let start := ps_offset_within_address_space section &&& Z.lnot TARGET_PAGE_MASK in
  size ← int128_get64 (ps_size section);
  let end_ := u64 (u64 (start + size) - 1) in
  '(d, n) ← phys_section_add d section;
  match subpages d !! k with
  | None => Fault OutOfBounds
  | Some subpage =>
      Ret (with_subpages d (<[k := subpage_register subpage start end_ n]> (subpages d)))
  end.

Definition register_multipage (d : AddressSpaceDispatch) (section : PhysSection) :
    outcome AddressSpaceDispatch :=
  let start_addr := ps_offset_within_address_space section in
  '(d, section_index) ← phys_section_add d section;
  num_pages ← int128_get64 (int128_rshift (ps_size section) TARGET_PAGE_BITS);
  if num_pages =? 0 then Fault AssertFailed
  else set_pages d (start_addr >> TARGET_PAGE_BITS) num_pages section_index.

Definition with_size (s : PhysSection) (size : Int128) : PhysSection :=
  {| ps_mr := ps_mr s; ps_offset_within_region := ps_offset_within_region s; ps_size := size;
     ps_offset_within_address_space := ps_offset_within_address_space s;
     ps_readonly := ps_readonly s |}.

(** [remain] without the first [now] bytes. *)
Definition advance_section (remain : PhysSection) (now : Int128) : outcome PhysSection :=
  n ← int128_get64 now;
  Ret {| ps_mr := ps_mr remain;
         ps_offset_within_region := u64 (ps_offset_within_region remain + n);
         ps_size := int128_sub (ps_size remain) now;
         ps_offset_within_address_space := u64 (ps_offset_within_address_space remain + n);
         ps_readonly := ps_readonly remain |}.

(** The loop of [mem_add]; of [now] it uses the size. *)
Fixpoint mem_add_loop (fuel : nat) (d : AddressSpaceDispatch) (now : Int128) (remain : PhysSection) :
    outcome AddressSpaceDispatch :=
  if int128_ne (ps_size remain) now then
    match fuel with
    | O => NoFuel
    | S fuel =>
        let page_size := int128_make64 TARGET_PAGE_SIZE in
        remain ← advance_section remain now;
        if int128_lt (ps_size remain) page_size then
          d ← register_subpage d remain;
          mem_add_loop fuel d (ps_size remain) remain
        else if negb (ps_offset_within_address_space remain &&& Z.lnot TARGET_PAGE_MASK =? 0) then
          d ← register_subpage d (with_size remain page_size);
          mem_add_loop fuel d page_size remain
        else
          let size := int128_and (ps_size remain) (int128_neg page_size) in
          d ← register_multipage d (with_size remain size);
          mem_add_loop fuel d size remain
    end
  else Ret d.

(** The pieces of a range: up to a page boundary, whole pages, and the rest. *)
Definition mem_add (d : AddressSpaceDispatch) (section : PhysSection) : outcome AddressSpaceDispatch :=
  let addr := ps_offset_within_address_space section in
  if negb (addr &&& Z.lnot TARGET_PAGE_MASK =? 0) then
    let left := u64 (TARGET_PAGE_ALIGN addr - addr) in
    let size := int128_min (int128_make64 left) (ps_size section) in
    d ← register_subpage d (with_size section size);
    mem_add_loop 2 d size section
  else mem_add_loop 2 d int128_zero section.

Definition mem_commit (d : AddressSpaceDispatch) : AddressSpaceDispatch :=
  {| phys_map := phys_page_compact_all (phys_map d); nodes := nodes d;
     sections := sections d; subpages := subpages d |}.

(** The section a listener is given for a flat range. *)
Definition section_of (fr : FlatRange) : outcome PhysSection :=
  addr ← int128_get64 (start (fr_addr fr));
  Ret {| ps_mr := Region (fr_mr fr); ps_offset_within_region := offset_in_region fr;
         ps_size := size (fr_addr fr); ps_offset_within_address_space := addr;
         ps_readonly := readonly fr |}.

(** [region_add] and [region_nop] are [mem_add]; the other callbacks are not
    set. *)
Definition dispatch_listener (ev : event) (d : AddressSpaceDispatch) : outcome AddressSpaceDispatch :=
  match ev with
  | RegionAdd fr | RegionNop fr => s ← section_of fr; mem_add d s
  | RegionDel _ | LogStart _ | LogStop _ => Ret d
  end.

Definition address_space_lookup_region (d : AddressSpaceDispatch) (addr : Z) (resolve_subpage : bool) :
    outcome PhysSection :=
  n ← phys_page_find (phys_map d) addr (sections d);
  match sections d !! Z.to_nat n with
  | None => Fault OutOfBounds
  | Some section =>
      match ps_mr section with
      | Subpage k =>
          if resolve_subpage then
            match subpages d !! k with
            | None => Fault NullDeref
            | Some subpage =>
                match sub_section subpage !! Z.to_nat (SUBPAGE_IDX addr) with
                | None => Fault OutOfBounds
                | Some n =>
                    match sections d !! Z.to_nat n with
                    | None => Fault OutOfBounds
                    | Some section => Ret section
                    end
                end
            end
          else Ret section
      | _ => Ret section
      end
  end.

(** The section, [*xlat] and [*plen]; [mr_size] are the sizes of the regions. *)
Definition address_space_translate_internal (mr_size : section_mr -> Int128) (d : AddressSpaceDispatch)
    (addr plen : Z) (resolve_subpage : bool) : outcome (PhysSection * Z * Z) :=
  section ← address_space_lookup_region d addr resolve_subpage;
  let addr := u64 (addr - ps_offset_within_address_space section) in
  let xlat := u64 (addr + ps_offset_within_region section) in
  let diff := int128_sub (mr_size (ps_mr section)) (int128_make64 addr) in
  plen ← int128_get64 (int128_min diff (int128_make64 plen));
  Ret (section, xlat, plen).

(** ** What a table says of an address *)

#[local] Arguments sem : simpl never.

Definition pg (d : AddressSpaceDispatch) (idx : Z) : Z := sem 6 (phys_map d) idx.

Definition page_of (addr : Z) : Z := addr >> TARGET_PAGE_BITS.

(** The section of an address of a page that belongs to section [s]. *)
Definition within (secs : list PhysSection) (subs : list subpage_t) (s : PhysSection) (addr : Z) :
    option PhysSection :=
  match ps_mr s with
  | Subpage k =>
      sp ← subs !! k;
      n ← sub_section sp !! Z.to_nat (SUBPAGE_IDX addr);
      secs !! Z.to_nat n
  | _ => Some s
  end.

Definition look (d : AddressSpaceDispatch) (addr : Z) : option PhysSection :=
  s ← sections d !! Z.to_nat (pg d (page_of addr));
  within (sections d) (subpages d) s addr.

(** The region of a section, the difference between offset and address, and
    whether it is read-only; nothing for the unassigned section. *)
Abbreviation meaning := (option (Z * Z * bool)).

Definition shows (s : PhysSection) (m : meaning) : Prop :=
  match m with
  | None => ps_mr s = Unassigned
  | Some (id, delta, ro) =>
      ps_mr s = Region id
      /\ ps_offset_within_region s - ps_offset_within_address_space s = delta
      /\ ps_readonly s = ro
  end.

Definition kind_ok (subs : list subpage_t) (idx : Z) (s : PhysSection) : Prop :=
  match ps_mr s with
  | Region _ => True
  | Subpage k =>
      exists sp, subs !! k = Some sp /\ sp_base sp = idx * 4096 /\ Z.of_nat (length (sub_section sp)) = 4096
  | _ => False
  end.

(** A page of section [s]: the section covers exactly the pages that have its
    number, and a split page is the page it was made for. *)
Record page_sec (d : AddressSpaceDispatch) (idx : Z) (s : PhysSection) : Prop := {
  page_found : sections d !! Z.to_nat (pg d idx) = Some s;
  page_pos : 0 < pg d idx;
  page_covers : forall addr, 0 <= addr < 2 ^ 64 ->
    section_covers s addr = true <-> pg d (page_of addr) = pg d idx;
  page_kind : kind_ok (subpages d) idx s;
}.

Definition is_subpage (s : PhysSection) : Prop := exists k, ps_mr s = Subpage k.

(** Ranges below [P] were entered, and addresses mean what [g] says. *)
Record table_ok (d : AddressSpaceDispatch) (P : Z) (g : Z -> meaning) : Prop := {
  t_tree : wf_entry 6 (phys_map d);
  t_count : 0 <= nodes_nb (nodes d) <= nodes_nb_alloc (nodes d);
  t_nodes : nodes_nb (nodes d) <= 11 * Z.of_nat (length (sections d));
  t_zero : sections d !! 0%nat = Some (dummy Unassigned);
  t_page : forall idx, 0 <= idx < span 6 ->
    pg d idx = PHYS_SECTION_UNASSIGNED \/ exists s, page_sec d idx s;
  t_split : forall idx s, 0 <= idx < span 6 -> P < (idx + 1) * 4096 ->
    page_sec d idx s -> is_subpage s;
  t_free : forall idx, 0 <= idx < span 6 -> P <= idx * 4096 -> pg d idx = PHYS_SECTION_UNASSIGNED;
  t_look : forall addr, 0 <= addr < 2 ^ 64 -> exists s, look d addr = Some s /\ shows s (g addr);
}.

Lemma page_of_div addr : page_of addr = addr / 4096.
Proof. unfold page_of, TARGET_PAGE_BITS. by rewrite Z.shiftr_div_pow2. Qed.

Lemma page_of_range addr : 0 <= addr < 2 ^ 64 -> 0 <= page_of addr < 2 ^ 52.
Proof. intros H. rewrite page_of_div. mlia. Qed.

Lemma small_page idx : 0 <= idx < 2 ^ 52 -> 0 <= idx < span 6.
Proof. change (span 6) with (2 ^ 54). lia. Qed.

Lemma page_sec_unique d idx s s' : page_sec d idx s -> page_sec d idx s' -> s = s'.
Proof. intros [H _ _ _] [H' _ _ _]. congruence. Qed.

Lemma table_weaken d P P' g : P <= P' -> table_ok d P g -> table_ok d P' g.
Proof.
  intros HP [T1 T2 T3 T4 T5 T6 T7 T8]. constructor; try done.
  - intros idx s Hidx Hlt. apply T6; [done|lia].
  - intros idx Hidx Hle. apply T7; [done|lia].
Qed.

Lemma table_ext d P g g' :
  (forall addr, 0 <= addr < 2 ^ 64 -> g addr = g' addr) -> table_ok d P g -> table_ok d P g'.
Proof.
  intros Hg [T1 T2 T3 T4 T5 T6 T7 T8]. constructor; try done.
  intros addr Ha. rewrite <- Hg by done. by apply T8.
Qed.

(** A page that is not unassigned has a section below the number of sections. *)
Lemma pg_below d P g idx :
  table_ok d P g -> 0 <= idx < span 6 -> 0 <= pg d idx < Z.of_nat (length (sections d)).
Proof.
  intros T Hidx. destruct (t_page _ _ _ T idx Hidx) as [->|[s [H Hp _ _]]].
  - pose proof (lookup_lt_Some _ _ _ (t_zero _ _ _ T)). unfold PHYS_SECTION_UNASSIGNED. lia.
  - apply lookup_lt_Some in H. lia.
Qed.

(** ** Adding sections *)

Definition extend (d : AddressSpaceDispatch) (t : list PhysSection) (u : list subpage_t) :
    AddressSpaceDispatch :=
  {| phys_map := phys_map d; nodes := nodes d; sections := sections d ++ t; subpages := subpages d ++ u |}.

Lemma section_add_ok d s :
  Z.of_nat (length (sections d)) < 4096 ->
  phys_section_add d s = Ret (extend d [s] [], Z.of_nat (length (sections d))).
Proof.
  intros H. unfold phys_section_add, TARGET_PAGE_SIZE, extend. zcase; [|lia].
  rewrite app_nil_r, wrap_small by lia. done.
Qed.

Lemma within_app secs subs s t u addr r :
  within secs subs s addr = Some r -> within (secs ++ t) (subs ++ u) s addr = Some r.
Proof.
  unfold within. destruct (ps_mr s) as [| | | |k|]; try done.
  destruct (subs !! k) as [sp|] eqn:E; [|done]. rewrite (lookup_app_l_Some _ _ _ _ E). simpl.
  destruct (sub_section sp !! _); simpl; [|done]. apply lookup_app_l_Some.
Qed.

Lemma kind_app subs u idx s : kind_ok subs idx s -> kind_ok (subs ++ u) idx s.
Proof.
  unfold kind_ok. destruct (ps_mr s); try done. intros (sp & E & H). exists sp.
  split; [by apply lookup_app_l_Some|done].
Qed.

Lemma page_sec_app d t u idx s : page_sec d idx s -> page_sec (extend d t u) idx s.
Proof. intros [H1 H2 H3 H4]. constructor; try done; [by apply lookup_app_l_Some|by apply kind_app]. Qed.

Lemma page_sec_app_inv d P g t u idx s :
  table_ok d P g -> 0 <= idx < span 6 -> page_sec (extend d t u) idx s -> page_sec d idx s.
Proof.
  intros T Hidx H. destruct (t_page _ _ _ T idx Hidx) as [E|[s' Hs']].
  - destruct H as [_ Hp _ _]. change (pg (extend d t u) idx) with (pg d idx) in Hp. by rewrite E in Hp.
  - by rewrite (page_sec_unique _ _ _ _ H (page_sec_app d t u idx s' Hs')).
Qed.

Lemma table_extend d P g t u : table_ok d P g -> table_ok (extend d t u) P g.
Proof.
  intros T. pose proof T as [T1 T2 T3 T4 T5 T6 T7 T8]. constructor; try done.
  - simpl. rewrite length_app. lia.
  - by apply lookup_app_l_Some.
  - intros idx Hidx. destruct (T5 idx Hidx) as [?|[s Hs]]; [by left|right].
    exists s. by apply page_sec_app.
  - intros idx s Hidx Hlt Hs. eapply T6; eauto using page_sec_app_inv.
  - intros addr Ha. destruct (T8 addr Ha) as (s & Hl & Hs). exists s. split; [|done].
    unfold look in *. change (pg (extend d t u)) with (pg d).
    destruct (sections d !! Z.to_nat (pg d (page_of addr))) as [s0|] eqn:E; [|done]. simpl in Hl.
    change (sections (extend d t u)) with (sections d ++ t).
    rewrite (lookup_app_l_Some _ _ _ _ E). simpl. by apply within_app.
Qed.

(** ** Entering pages *)

(** [s], the last section, takes the unassigned pages from [i] on. *)
Record takes_pages (d : AddressSpaceDispatch) (P : Z) (g : Z -> meaning) (s : PhysSection) (i nb : Z)
    (P' : Z) (g' : Z -> meaning) : Prop := {
  tk_first : 0 <= i;
  tk_some : 0 < nb;
  tk_last : i + nb <= 2 ^ 52;
  tk_free : forall idx, run i nb idx = true -> pg d idx = PHYS_SECTION_UNASSIGNED;
  tk_from : P <= P';
  tk_upto : (i + nb - 1) * 4096 < P';
  tk_split : is_subpage s \/ (i + nb) * 4096 <= P';
  tk_covers : forall addr, 0 <= addr < 2 ^ 64 -> section_covers s addr = run i nb (page_of addr);
  tk_kind : forall idx, run i nb idx = true -> kind_ok (subpages d) idx s;
  tk_shows : forall addr, 0 <= addr < 2 ^ 64 -> run i nb (page_of addr) = true ->
    exists r, within (sections d ++ [s]) (subpages d ++ []) s addr = Some r /\ shows r (g' addr);
  tk_same : forall addr, 0 <= addr < 2 ^ 64 -> run i nb (page_of addr) = false -> g' addr = g addr;
}.

Lemma run_true i nb idx : run i nb idx = true <-> i <= idx < i + nb.
Proof. unfold run. rewrite andb_true_iff. lia. Qed.

(** The table after [phys_page_set] for a new section. *)
Record pages_set (d : AddressSpaceDispatch) (s : PhysSection) (i nb : Z) (d' : AddressSpaceDispatch) :
    Prop := {
  st_tree : wf_entry 6 (phys_map d');
  st_count : 0 <= nodes_nb (nodes d') <= nodes_nb_alloc (nodes d');
  st_nodes : nodes_nb (nodes d') <= nodes_nb (nodes d) + 11;
  st_sections : sections d' = sections d ++ [s];
  st_subpages : subpages d' = subpages d ++ [];
  st_pg : forall idx, 0 <= idx < span 6 ->
    pg d' idx = if run i nb idx then Z.of_nat (length (sections d)) else pg d idx;
}.

Lemma set_tree_ok d P g s i nb P' g' :
  table_ok d P g -> takes_pages d P g s i nb P' g' -> Z.of_nat (length (sections d)) < 4096 ->
  exists d',
    set_pages (extend d [s] []) i nb (Z.of_nat (length (sections d))) = Ret d' /\ pages_set d s i nb d'.
Proof.
  intros T [K1 K2 K3 K4 _ _ _ _ _ _ _] Hlen. pose proof T as [T1 T2 T3 T4 _ _ _ _].
  pose proof (lookup_lt_Some _ _ _ T4).
  destruct (phys_page_set_ok (nodes d) (phys_map d) i nb (Z.of_nat (length (sections d))))
    as (n' & root & E & W & [N1 N2] & A & S); try done; try lia.
  { unfold PHYS_MAP_NODE_NIL. lia. }
  { change (3 * P_L2_LEVELS) with 18. unfold PHYS_MAP_NODE_NIL. lia. }
  unfold set_pages. change (nodes (extend d [s] [])) with (nodes d).
  change (phys_map (extend d [s] [])) with (phys_map d). rewrite E. cbn [mbind outcome_bind].
  eexists. split; [done|]. constructor; try done. simpl. lia.
Qed.

Lemma taken_page d P g s i nb P' g' d' idx :
  table_ok d P g -> takes_pages d P g s i nb P' g' -> pages_set d s i nb d' ->
  run i nb idx = true -> page_sec d' idx s.
Proof.
  intros T K [S1 S2 S3 S4 S5 S6] Hr.
  assert (0 <= idx < span 6) as Hidx.
  { destruct K as [K1 K2 K3 _ _ _ _ _ _ _ _]. apply run_true in Hr. apply small_page. lia. }
  pose proof (lookup_lt_Some _ _ _ (t_zero _ _ _ T)).
  constructor; rewrite ?(S6 idx Hidx), ?Hr, ?S4, ?S5.
  - rewrite Nat2Z.id. by apply list_lookup_middle.
  - lia.
  - intros addr Ha. pose proof (small_page _ (page_of_range addr Ha)) as Hp.
    rewrite (tk_covers _ _ _ _ _ _ _ _ K addr Ha), (S6 _ Hp). pose proof (pg_below d P g _ T Hp).
    case_match; intuition (done || lia).
  - apply kind_app. by apply K.
Qed.

Lemma kept_page d P g s i nb P' g' d' idx s0 :
  table_ok d P g -> takes_pages d P g s i nb P' g' -> pages_set d s i nb d' ->
  0 <= idx < span 6 -> run i nb idx = false -> page_sec d idx s0 -> page_sec d' idx s0.
Proof.
  intros T K [S1 S2 S3 S4 S5 S6] Hidx Hr Hs. pose proof Hs as [H1 H2 H3 H4].
  constructor; rewrite ?(S6 idx Hidx), ?Hr, ?S4, ?S5; try done.
  - by apply lookup_app_l_Some.
  - intros addr Ha. pose proof (small_page _ (page_of_range addr Ha)) as Hp.
    rewrite H3, (S6 _ Hp) by done. pose proof (pg_below d P g _ T Hidx).
    destruct (run i nb (page_of addr)) eqn:Er; [|done].
    rewrite (tk_free _ _ _ _ _ _ _ _ K _ Er). unfold PHYS_SECTION_UNASSIGNED. lia.
  - by apply kind_app.
Qed.

Lemma set_table_ok d P g s i nb P' g' d' :
  table_ok d P g -> takes_pages d P g s i nb P' g' -> pages_set d s i nb d' -> table_ok d' P' g'.
Proof.
  intros T K S. pose proof S as [S1 S2 S3 S4 S5 S6]. pose proof K as [K1 K2 K3 K4 K5 K6 K7 _ _ K10 K11].
  pose proof (fun idx => taken_page _ _ _ _ _ _ _ _ _ idx T K S) as Hnew.
  pose proof (fun idx s0 => kept_page _ _ _ _ _ _ _ _ _ idx s0 T K S) as Hold.
  constructor; try done.
  - rewrite S4, length_app. pose proof (t_nodes _ _ _ T). simpl. lia.
  - rewrite S4. apply lookup_app_l_Some, T.
  - intros idx Hidx. destruct (run i nb idx) eqn:Er; [right; eauto|].
    destruct (t_page _ _ _ T idx Hidx) as [E0|[s0 Hs0]]; [left|right; eauto].
    by rewrite (S6 idx Hidx), Er.
  - intros idx s0 Hidx Hlt Hs0. destruct (run i nb idx) eqn:Er.
    + rewrite (page_sec_unique _ _ _ _ Hs0 (Hnew idx Er)). destruct K7 as [?|Hge]; [done|].
      apply run_true in Er. lia.
    + destruct (t_page _ _ _ T idx Hidx) as [E0|[s1 Hs1]].
      * destruct Hs0 as [_ Hp _ _]. rewrite (S6 idx Hidx), Er, E0 in Hp. done.
      * rewrite (page_sec_unique _ _ _ _ Hs0 (Hold idx s1 Hidx Er Hs1)).
        apply (t_split _ _ _ T idx); [done|lia|done].
  - intros idx Hidx Hle. rewrite (S6 idx Hidx). destruct (run i nb idx) eqn:Er.
    + apply run_true in Er. lia.
    + apply (t_free _ _ _ T); [done|lia].
  - intros addr Ha. pose proof (small_page _ (page_of_range addr Ha)) as Hp.
    unfold look. rewrite (S6 _ Hp), S4, S5. destruct (run i nb (page_of addr)) eqn:Er.
    + rewrite Nat2Z.id, (list_lookup_middle (sections d) [] s) by done. simpl. by apply K10.
    + rewrite K11 by done. apply (t_look _ _ _ (table_extend _ _ _ [s] [] T) addr Ha).
Qed.

Lemma set_pages_ok d P g s i nb P' g' :
  table_ok d P g -> takes_pages d P g s i nb P' g' -> Z.of_nat (length (sections d)) < 4096 ->
  exists d',
    set_pages (extend d [s] []) i nb (Z.of_nat (length (sections d))) = Ret d'
    /\ sections d' = sections d ++ [s] /\ subpages d' = subpages d ++ []
    /\ table_ok d' P' g' /\ forall idx, run i nb idx = true -> page_sec d' idx s.
Proof.
  intros T K Hlen. destruct (set_tree_ok _ _ _ _ _ _ _ _ T K Hlen) as (d' & E & S).
  exists d'. split; [done|]. pose proof (st_sections _ _ _ _ _ S). pose proof (st_subpages _ _ _ _ _ S).
  split_and!; try done; [by apply (set_table_ok d P g s i nb)|].
  intros idx. by apply (taken_page d P g s i nb P' g').
Qed.

(** ** Split pages *)

Lemma fill_length n idx q l : length (fill_sections n idx q l) = length l.
Proof. revert idx l. induction n as [|n IH]; intros idx l; simpl; [done|]. by rewrite IH, length_insert. Qed.

Lemma fill_lookup n idx q l j :
  0 <= idx -> idx + Z.of_nat n <= Z.of_nat (length l) -> 0 <= j ->
  fill_sections n idx q l !! Z.to_nat j
  = if (idx <=? j) && (j <? idx + Z.of_nat n) then Some q else l !! Z.to_nat j.
Proof.
  revert idx l. induction n as [|n IH]; intros idx l Hi Hn Hj; cbn [fill_sections].
  - destruct (Z.leb_spec idx j), (Z.ltb_spec j (idx + Z.of_nat 0)); simpl; done || lia.
  - rewrite IH by (rewrite ?length_insert; lia).
    destruct (decide (j = idx)) as [->|Hne].
    + rewrite list_lookup_insert_eq by lia.
      destruct (Z.leb_spec (idx + 1) idx), (Z.leb_spec idx idx), (Z.ltb_spec idx (idx + Z.of_nat (S n)));
        simpl; done || lia.
    + rewrite list_lookup_insert_ne by lia.
      destruct (Z.leb_spec (idx + 1) j), (Z.leb_spec idx j), (Z.ltb_spec j (idx + 1 + Z.of_nat n)),
        (Z.ltb_spec j (idx + Z.of_nat (S n))); simpl; done || lia.
Qed.

Lemma subpage_idx addr : SUBPAGE_IDX addr = addr mod 4096.
Proof. apply page_offset_mod. Qed.

Lemma subpage_register_ok sp st en q :
  Z.of_nat (length (sub_section sp)) = 4096 -> 0 <= st <= en -> en < 4096 ->
  let sp' := subpage_register sp st en q in
  sp_base sp' = sp_base sp /\ Z.of_nat (length (sub_section sp')) = 4096
  /\ forall j, 0 <= j -> sub_section sp' !! Z.to_nat j
     = if (st <=? j) && (j <=? en) then Some q else sub_section sp !! Z.to_nat j.
Proof.
  intros Hl Hs He sp'. unfold sp', subpage_register.
  rewrite !(wrap_small 32), !subpage_idx, !(Z.mod_small _ 4096) by lia. unfold TARGET_PAGE_SIZE.
  destruct (Z.leb_spec 4096 st), (Z.leb_spec 4096 en); try lia. cbn [orb sp_base sub_section].
  split; [done|]. split; [by rewrite fill_length|]. intros j Hj. rewrite fill_lookup by lia.
  replace (st + Z.of_nat (Z.to_nat (en - st + 1))) with (en + 1) by lia.
  destruct (Z.ltb_spec j (en + 1)), (Z.leb_spec j en); done || lia.
Qed.

Lemma subpage_init_ok base :
  sp_base (subpage_init base) = base /\ Z.of_nat (length (sub_section (subpage_init base))) = 4096
  /\ forall j, 0 <= j < 4096 -> sub_section (subpage_init base) !! Z.to_nat j = Some PHYS_SECTION_UNASSIGNED.
Proof.
  unfold subpage_init. set (sp := {| sp_base := base; sub_section := _ |}).
  destruct (subpage_register_ok sp 0 (TARGET_PAGE_SIZE - 1) PHYS_SECTION_UNASSIGNED) as (E1 & E2 & E3).
  { cbn [sub_section sp]. rewrite repeat_length. done. }
  { unfold TARGET_PAGE_SIZE. lia. }
  { unfold TARGET_PAGE_SIZE. lia. }
  split; [exact E1|]. split; [exact E2|]. intros j Hj. rewrite E3 by lia. unfold TARGET_PAGE_SIZE.
  by rewrite (proj2 (Z.leb_le 0 j)), (proj2 (Z.leb_le j (4096 - 1))) by lia.
Qed.

(** The bytes a section covers. *)
Lemma covers_bytes s a n addr :
  rep (ps_size s) n -> ps_offset_within_address_space s = a -> 0 <= a -> 0 < n -> a + n <= 2 ^ 64 ->
  0 <= addr < 2 ^ 64 -> section_covers s addr = (a <=? addr) && (addr <? a + n).
Proof.
  intros [[Hl Hh] Hv] <- Ha Hn Hmax Haddr. unfold section_covers, range_covers_byte, range_get_last, val in *.
  set (b := ps_offset_within_address_space s) in *.
  destruct (Z.eqb_spec (hi (ps_size s)) 0) as [E|E]; cbn [negb orb].
  - rewrite E in Hv. rewrite wrap_sub_l, (wrap_small 64) by lia.
    destruct (Z.leb_spec b addr), (Z.leb_spec addr (b + lo (ps_size s) - 1)), (Z.ltb_spec addr (b + n));
      simpl; done || lia.
  - destruct (Z.leb_spec b addr), (Z.ltb_spec addr (b + n)); simpl; done || lia.
Qed.

Lemma run_page i nb addr :
  (i * 4096 <=? addr) && (addr <? i * 4096 + nb * 4096) = run i nb (page_of addr).
Proof.
  rewrite page_of_div. unfold run. pose proof (Z.div_mod addr 4096). pose proof (Z.mod_pos_bound addr 4096).
  destruct (Z.leb_spec (i * 4096) addr), (Z.leb_spec i (addr / 4096)),
    (Z.ltb_spec addr (i * 4096 + nb * 4096)), (Z.ltb_spec (addr / 4096) (i + nb)); simpl; done || lia.
Qed.

Lemma look_unassigned d P g addr :
  table_ok d P g -> 0 <= addr < 2 ^ 64 -> pg d (page_of addr) = PHYS_SECTION_UNASSIGNED -> g addr = None.
Proof.
  intros T Ha E. destruct (t_look _ _ _ T addr Ha) as (s & Hl & Hs). unfold look in Hl. rewrite E in Hl.
  change (Z.to_nat PHYS_SECTION_UNASSIGNED) with 0%nat in Hl. rewrite (t_zero _ _ _ T) in Hl.
  simpl in Hl. injection Hl as <-. destruct (g addr) as [[[]]|]; [|done]. by destruct Hs.
Qed.

(** What [phys_page_find] finds. *)
Lemma page_find_ok d P g addr :
  table_ok d P g -> 0 <= addr < 2 ^ 64 ->
  phys_page_find (phys_map d) addr (sections d) = Ret (pg d (page_of addr)).
Proof.
  intros T Ha. pose proof (small_page _ (page_of_range addr Ha)) as Hp.
  destruct (t_page _ _ _ T _ Hp) as [E|[s [H1 H2 H3 H4]]].
  - rewrite (phys_page_find_sem _ _ _ (dummy Unassigned)); [done|apply T|].
    unfold pg, page_of in E. rewrite E. apply T.
  - rewrite (phys_page_find_sem _ _ _ s); [|apply T|done]. rewrite (proj2 (H3 addr Ha) eq_refl). done.
Qed.

#[local] Opaque subpage_init.

(** The section of a new split page takes its page. *)
Lemma new_subpage_takes d P g i P' sp :
  sp_base sp = i * 4096 -> Z.of_nat (length (sub_section sp)) = 4096 ->
  (forall j, 0 <= j < 4096 -> sub_section sp !! Z.to_nat j = Some PHYS_SECTION_UNASSIGNED) ->
  table_ok d P g -> 0 <= i < 2 ^ 52 -> pg d i = PHYS_SECTION_UNASSIGNED ->
  P <= P' -> i * 4096 < P' ->
  takes_pages (extend d [] [sp]) P g
    {| ps_mr := Subpage (length (subpages d)); ps_offset_within_region := 0;
       ps_size := int128_make64 TARGET_PAGE_SIZE; ps_offset_within_address_space := i * 4096;
       ps_readonly := false |} i 1 P' g.
Proof.
  intros I1 I2 I3 T Hi E HP HP'. set (s := {| ps_mr := _ |}).
  assert ((subpages d ++ [sp]) !! length (subpages d) = Some sp)
    as Hk by (by apply list_lookup_middle).
  constructor.
  1-3: lia.
  - intros idx Hr%run_true. replace idx with i by lia. exact E.
  - exact HP.
  - lia.
  - left. by exists (length (subpages d)).
  - intros addr Ha. rewrite <- run_page. change (1 * 4096) with 4096.
    apply covers_bytes; [apply rep_make64; unfold TARGET_PAGE_SIZE; lia|reflexivity|lia..].
  - intros idx Hr%run_true. replace idx with i by lia. 
    exists sp. split; [exact Hk|]. split; [exact I1|exact I2].
  - intros addr Ha Hr%run_true. exists (dummy Unassigned). split.
    + unfold within. change (ps_mr s) with (Subpage (length (subpages d))). cbn iota.
      change (subpages (extend d [] [sp])) with (subpages d ++ [sp]).
      rewrite app_nil_r, Hk. cbn [mbind option_bind].
      rewrite subpage_idx, I3 by (apply Z.mod_pos_bound; lia). cbn [mbind option_bind].
      apply lookup_app_l_Some, lookup_app_l_Some, T.
    + rewrite (look_unassigned d P g addr T Ha); [done|].
      replace (page_of addr) with i by lia. exact E.
  - done.
Qed.

Lemma subpage_for_ok d P g a P' :
  table_ok d P g -> 0 <= a < 2 ^ 64 -> P <= a < P' -> Z.of_nat (length (sections d)) < 4096 ->
  exists d' k s,
    subpage_for d (a / 4096 * 4096) = Ret (d', k) /\ table_ok d' P' g
    /\ page_sec d' (a / 4096) s /\ ps_mr s = Subpage k
    /\ (length (sections d') <= S (length (sections d)))%nat.
Proof.
  intros T Ha HP Hlen. set (i := a / 4096).
  assert (0 <= i < 2 ^ 52 /\ i * 4096 <= a < (i + 1) * 4096) as [Hi Hia] by (unfold i; mlia).
  assert (0 <= i * 4096 < 2 ^ 64) as Hb by lia.
  assert (page_of (i * 4096) = i) as Hpi by (rewrite page_of_div; apply Z.div_mul; lia).
  unfold subpage_for. rewrite (page_find_ok d P g) by done. cbn [mbind outcome_bind]. rewrite Hpi.
  destruct (t_page _ _ _ T i (small_page _ Hi)) as [E|[s Hs]].
  - rewrite E. change (Z.to_nat PHYS_SECTION_UNASSIGNED) with 0%nat. rewrite (t_zero _ _ _ T).
    cbn [ps_mr dummy]. set (sp := subpage_init (i * 4096)).
    assert (with_subpages d (subpages d ++ [sp]) = extend d [] [sp]) as ->.
    { unfold with_subpages, extend. by rewrite app_nil_r. }
    destruct (subpage_init_ok (i * 4096)) as (I1 & I2 & I3). fold sp in I1, I2, I3. clearbody sp.
    pose proof (new_subpage_takes d P g i P' sp I1 I2 I3 T Hi E ltac:(lia) ltac:(lia)) as K.
    set (s := {| ps_mr := _ |}) in K |- *.
    pose proof (table_extend _ _ _ [] [sp] T) as T1.
    assert (length (sections (extend d [] [sp])) = length (sections d)) as El.
    { simpl. by rewrite app_nil_r. }
    rewrite section_add_ok by lia. cbn [mbind outcome_bind].
    destruct (set_pages_ok _ _ _ _ _ _ _ _ T1 K) as (d' & E' & Hsec & Hsub & T' & Hpages); [lia|].
    change (i * 4096 >> TARGET_PAGE_BITS) with (page_of (i * 4096)). rewrite Hpi, E'.
    cbn [mbind outcome_bind]. exists d', (length (subpages d)), s. split_and!; try done.
    + apply Hpages, run_true. lia.
    + rewrite Hsec, length_app, El. simpl. lia.
  - rewrite (page_found _ _ _ Hs).
    destruct (t_split _ _ _ T i s (small_page _ Hi) ltac:(lia) Hs) as [k Hk]. rewrite Hk.
    exists d, k, s. split_and!; try done; [|lia]. apply (table_weaken d P); [lia|done].
Qed.

(** The contents of a split page change. *)
Lemma fill_kind subs k sp sp' idx s :
  subs !! k = Some sp -> sp_base sp' = sp_base sp -> length (sub_section sp') = length (sub_section sp) ->
  kind_ok subs idx s -> kind_ok (<[k := sp']> subs) idx s.
Proof.
  intros Hk Hb Hl. unfold kind_ok. destruct (ps_mr s) as [| | | |j|]; try done.
  intros (sp0 & E & Hbase & Hlen). destruct (decide (k = j)) as [<-|Hne].
  - exists sp'. rewrite E in Hk. injection Hk as ->. rewrite list_lookup_insert_eq by (by apply lookup_lt_Some in E).
    split_and!; congruence.
  - exists sp0. by rewrite list_lookup_insert_ne.
Qed.

Lemma fill_page d k sp sp' idx s :
  subpages d !! k = Some sp -> sp_base sp' = sp_base sp -> length (sub_section sp') = length (sub_section sp) ->
  page_sec d idx s <-> page_sec (with_subpages d (<[k := sp']> (subpages d))) idx s.
Proof.
  intros Hk Hb Hl. split; intros [H1 H2 H3 H4]; constructor; try done.
  - by apply (fill_kind _ _ sp).
  - pose proof (lookup_lt_Some _ _ _ Hk). simpl in H4.
    rewrite <- (list_insert_id _ _ _ Hk), <- (list_insert_insert_eq _ k sp sp').
    apply (fill_kind _ _ sp'); [by rewrite list_lookup_insert_eq|done..].
Qed.

(** The number of a split page belongs to one page. *)
Lemma split_unique d i j s t k :
  page_sec d i s -> ps_mr s = Subpage k -> page_sec d j t -> ps_mr t = Subpage k -> i = j.
Proof.
  intros [_ _ _ Hi] Es [_ _ _ Hj] Et. unfold kind_ok in *. rewrite Es in Hi. rewrite Et in Hj.
  destruct Hi as (sp & E1 & B1 & _), Hj as (sp' & E2 & B2 & _).
  rewrite E1 in E2. injection E2 as <-. lia.
Qed.

Lemma fill_table_ok d P g i s k sp sp' g' :
  table_ok d P g -> 0 <= i < 2 ^ 52 -> page_sec d i s -> ps_mr s = Subpage k -> subpages d !! k = Some sp ->
  sp_base sp' = sp_base sp -> length (sub_section sp') = length (sub_section sp) ->
  (forall addr, 0 <= addr < 2 ^ 64 -> page_of addr = i ->
     exists n r, sub_section sp' !! Z.to_nat (SUBPAGE_IDX addr) = Some n
       /\ sections d !! Z.to_nat n = Some r /\ shows r (g' addr)) ->
  (forall addr, 0 <= addr < 2 ^ 64 -> page_of addr <> i -> g' addr = g addr) ->
  table_ok (with_subpages d (<[k := sp']> (subpages d))) P g'.
Proof.
  intros T Hi Hs Hk Hsp Hb Hl Hin Hout. set (d' := with_subpages d _).
  pose proof (fun idx s => fill_page d k sp sp' idx s Hsp Hb Hl) as Hp. fold d' in Hp.
  pose proof T as [T1 T2 T3 T4 T5 T6 T7 T8]. constructor; try done.
  - intros idx Hidx. destruct (T5 idx Hidx) as [?|[s0 Hs0]]; [by left|right]. exists s0. by apply Hp.
  - intros idx s0 Hidx Hlt Hs0. apply (T6 idx); [done..|]. by apply Hp.
  - intros addr Ha. unfold look. change (pg d') with (pg d). change (sections d') with (sections d).
    change (subpages d') with (<[k := sp']> (subpages d)).
    destruct (decide (page_of addr = i)) as [Ei|Ei].
    + destruct (Hin addr Ha Ei) as (n & r & E1 & E2 & Hr). exists r. split; [|done].
      rewrite Ei, (page_found _ _ _ Hs). cbn [mbind option_bind]. unfold within. rewrite Hk.
      rewrite list_lookup_insert_eq by (by apply lookup_lt_Some in Hsp). cbn [mbind option_bind].
      by rewrite E1.
    + destruct (T8 addr Ha) as (r & Hr & Hsh). exists r. rewrite Hout by done. split; [|done].
      rewrite <- Hr. unfold look. pose proof (small_page _ (page_of_range addr Ha)) as Hpa.
      destruct (T5 _ Hpa) as [E0|[s0 Hs0]].
      * rewrite E0. change (Z.to_nat PHYS_SECTION_UNASSIGNED) with 0%nat. by rewrite T4.
      * rewrite (page_found _ _ _ Hs0). cbn [mbind option_bind]. unfold within.
        destruct (ps_mr s0) as [| | | |j|] eqn:Ej; try done.
        rewrite list_lookup_insert_ne; [done|]. intros <-. apply Ei. symmetry.
        by apply (split_unique d i _ s s0 k).
Qed.

(** A section for [n] bytes of region [id] at address [a], from offset [o] on. *)
Record piece (s : PhysSection) (id : Z) (ro : bool) (a n o : Z) : Prop := {
  pc_mr : ps_mr s = Region id;
  pc_ro : ps_readonly s = ro;
  pc_size : rep (ps_size s) n;
  pc_addr : ps_offset_within_address_space s = a;
  pc_offset : ps_offset_within_region s = o;
  pc_from : 0 <= a;
  pc_some : 0 < n;
  pc_upto : a + n <= 2 ^ 64;
  pc_fits : 0 <= o /\ o + n <= 2 ^ 64;
}.

Definition patch (g : Z -> meaning) (a n : Z) (m : Z * Z * bool) (addr : Z) : meaning :=
  if (a <=? addr) && (addr <? a + n) then Some m else g addr.

Lemma piece_shows s id ro a n o : piece s id ro a n o -> shows s (Some (id, o - a, ro)).
Proof. intros [H1 H2 _ H4 H5 _ _ _ _]. simpl. split; [done|]. split; [lia|done]. Qed.

Lemma page_bytes i addr : page_of addr = i <-> i * 4096 <= addr < i * 4096 + 4096.
Proof. rewrite page_of_div. split; intros; mlia. Qed.

Lemma patch_in g a n m addr : a <= addr < a + n -> patch g a n m addr = Some m.
Proof. intros H. unfold patch. by rewrite (proj2 (Z.leb_le a _)), (proj2 (Z.ltb_lt _ _)) by lia. Qed.

Lemma patch_out g a n m addr : ~ a <= addr < a + n -> patch g a n m addr = g addr.
Proof.
  intros H. unfold patch. destruct (Z.leb_spec a addr), (Z.ltb_spec addr (a + n)); simpl; done || lia.
Qed.

Lemma look_split d P g i t k sp addr :
  table_ok d P g -> page_sec d i t -> ps_mr t = Subpage k -> subpages d !! k = Some sp ->
  0 <= addr < 2 ^ 64 -> page_of addr = i ->
  exists n r, sub_section sp !! Z.to_nat (SUBPAGE_IDX addr) = Some n
    /\ sections d !! Z.to_nat n = Some r /\ shows r (g addr).
Proof.
  intros T Ht Hk Hsp Ha Epg. destruct (t_look _ _ _ T addr Ha) as (r & Hr & Hsh). unfold look in Hr.
  rewrite Epg, (page_found _ _ _ Ht) in Hr. cbn [mbind option_bind] in Hr.
  unfold within in Hr. rewrite Hk, Hsp in Hr. cbn [mbind option_bind] in Hr.
  destruct (sub_section sp !! _) as [n|]; [|done]. exists n, r. done.
Qed.

(** [s], the last section, gets its bytes of the split page [i]. *)
Lemma fill_bytes_ok d P g s id ro a n o i st t k sp :
  table_ok d P g -> piece s id ro a n o -> a = i * 4096 + st -> 0 <= st -> st + n <= 4096 -> 0 <= i < 2 ^ 52 ->
  page_sec d i t -> ps_mr t = Subpage k -> subpages d !! k = Some sp ->
  Z.of_nat (length (sub_section sp)) = 4096 ->
  let d2 := extend d [s] [] in
  let sp' := subpage_register sp st (st + n - 1) (Z.of_nat (length (sections d))) in
  table_ok (with_subpages d2 (<[k := sp']> (subpages d2))) P (patch g a n (id, o - a, ro)).
Proof.
  intros T Hpc Ea Hst Hend Hi Ht Hk Hsp Hlen d2 sp'. set (q := Z.of_nat (length (sections d))) in sp'.
  pose proof (pc_some _ _ _ _ _ _ Hpc) as Hn.
  destruct (subpage_register_ok sp st (st + n - 1) q) as (R1 & R2 & R3); [done|lia|lia|].
  fold sp' in R1, R2, R3. clearbody sp'.
  pose proof (table_extend _ _ _ [s] [] T) as T2. fold d2 in T2.
  pose proof (page_sec_app d [s] [] i t Ht) as Ht2. fold d2 in Ht2.
  assert (subpages d2 !! k = Some sp) as Hsp2 by (by apply lookup_app_l_Some).
  apply (fill_table_ok d2 _ g i t k sp); try done; try lia.
  - intros addr Ha Epg. pose proof (proj1 (page_bytes _ _) Epg) as Hpb.
    assert (SUBPAGE_IDX addr = addr - i * 4096) as Eidx.
    { rewrite subpage_idx. symmetry. apply (Z.mod_unique _ _ i); lia. }
    destruct (decide (a <= addr < a + n)) as [Hin|Hnin].
    + exists q, s. rewrite Eidx, R3, patch_in by lia.
      rewrite (proj2 (Z.leb_le st _)), (proj2 (Z.leb_le _ (st + n - 1))) by lia. split; [done|].
      split; [|by apply (piece_shows _ _ _ _ n)].
      unfold q. rewrite Nat2Z.id. by apply list_lookup_middle.
    + rewrite patch_out by done. destruct (look_split d2 P g i t k sp addr) as (m & r & E & H); try done.
      exists m, r. split; [|done]. rewrite <- E, Eidx, R3 by lia.
      assert ((st <=? addr - i * 4096) && (addr - i * 4096 <=? st + n - 1) = false) as ->; [|done].
      apply andb_false_iff. rewrite !Z.leb_gt. lia.
  - intros addr Ha Hne. apply patch_out. pose proof (proj2 (page_bytes i addr)). lia.
Qed.

Lemma register_subpage_ok d P g s id ro a n o :
  table_ok d P g -> piece s id ro a n o -> P <= a -> a + n <= (a / 4096 + 1) * 4096 ->
  Z.of_nat (length (sections d)) + 2 <= 4096 ->
  exists d',
    register_subpage d s = Ret d' /\ table_ok d' (a + n) (patch g a n (id, o - a, ro))
    /\ (length (sections d') <= 2 + length (sections d))%nat.
Proof.
  intros T Hpc HP Hpage Hlen. pose proof Hpc as [C1 C2 C3 C4 C5 C6 C7 C8 C9].
  unfold register_subpage. rewrite C4, page_mask_div, page_offset_mod.
  destruct (subpage_for_ok d P g a (a + n)) as (d1 & k & t & E1 & T1 & Ht & Hk & L1); try done; try lia.
  rewrite E1. cbn [mbind outcome_bind].
  assert (a = a / 4096 * 4096 + a mod 4096 /\ 0 <= a mod 4096 /\ 0 <= a / 4096 < 2 ^ 52)
    as (Ea & Hst & Hi) by mlia.
  rewrite (get64_Ret _ n) by (done || lia). cbn [mbind outcome_bind].
  rewrite section_add_ok by lia. cbn [mbind outcome_bind].
  replace (u64 (u64 (a mod 4096 + n) - 1)) with (a mod 4096 + n - 1) by (rewrite wrap_sub_l, wrap_small; lia).
  pose proof (page_kind _ _ _ Ht) as Hkind. unfold kind_ok in Hkind. rewrite Hk in Hkind.
  destruct Hkind as (sp & Esp & _ & Hsub).
  replace (subpages (extend d1 [s] []) !! k) with (Some sp) by (symmetry; by apply lookup_app_l_Some).
  eexists. split; [done|]. split; [|simpl; rewrite length_app; simpl; lia].
  apply (fill_bytes_ok d1 _ g s id ro a n o (a / 4096) (a mod 4096) t); done || lia.
Qed.

(** Whole pages. *)
Lemma whole_pages_take d P g s id ro i nb o :
  table_ok d P g -> piece s id ro (i * 4096) (nb * 4096) o -> P <= i * 4096 ->
  takes_pages d P g s i nb (i * 4096 + nb * 4096) (patch g (i * 4096) (nb * 4096) (id, o - i * 4096, ro)).
Proof.
  intros T Hpc HP. pose proof Hpc as [C1 C2 C3 C4 C5 C6 C7 C8 C9]. constructor; try lia.
  - intros idx Hr%run_true. apply (t_free _ _ _ T); [apply small_page; lia|lia].
  - intros addr Ha. rewrite <- run_page. by apply covers_bytes.
  - intros idx _. unfold kind_ok. by rewrite C1.
  - intros addr Ha Hr. exists s. unfold within. rewrite C1. split; [done|].
    rewrite <- run_page in Hr. unfold patch. rewrite Hr. by apply (piece_shows _ _ _ _ (nb * 4096)).
  - intros addr Ha Hr. rewrite <- run_page in Hr. unfold patch. by rewrite Hr.
Qed.

Lemma register_multipage_ok d P g s id ro i nb o :
  table_ok d P g -> piece s id ro (i * 4096) (nb * 4096) o -> P <= i * 4096 ->
  Z.of_nat (length (sections d)) + 1 <= 4096 ->
  exists d',
    register_multipage d s = Ret d'
    /\ table_ok d' (i * 4096 + nb * 4096) (patch g (i * 4096) (nb * 4096) (id, o - i * 4096, ro))
    /\ length (sections d') = S (length (sections d)).
Proof.
  intros T Hpc HP Hlen. pose proof (whole_pages_take d P g s id ro i nb o T Hpc HP) as K.
  pose proof Hpc as [C1 C2 C3 C4 C5 C6 C7 C8 C9]. unfold register_multipage.
  rewrite section_add_ok by lia. cbn [mbind outcome_bind].
  pose proof (rep_rshift _ _ TARGET_PAGE_BITS C3 ltac:(unfold TARGET_PAGE_BITS; lia)) as Hr.
  change (nb * 4096 >> TARGET_PAGE_BITS) with (page_of (nb * 4096)) in Hr.
  rewrite page_of_div, Z.div_mul in Hr by lia. rewrite (get64_Ret _ nb Hr) by lia.
  cbn [mbind outcome_bind]. destruct (Z.eqb_spec nb 0); [lia|].
  change (ps_offset_within_address_space s >> TARGET_PAGE_BITS) with (page_of (ps_offset_within_address_space s)).
  rewrite C4, page_of_div, Z.div_mul by lia.
  destruct (set_pages_ok _ _ _ _ _ _ _ _ T K) as (d' & E & Hsec & _ & T' & _); [lia|].
  exists d'. split_and!; try done. rewrite Hsec, length_app. simpl. lia.
Qed.

(** ** Entering a range *)

Lemma advance_ok r id ro a n o now c :
  piece r id ro a n o -> rep now c -> 0 <= c < n -> c < 2 ^ 64 ->
  exists r', advance_section r now = Ret r' /\ piece r' id ro (a + c) (n - c) (o + c).
Proof.
  intros [C1 C2 C3 C4 C5 C6 C7 C8 C9] Hc Hcn Hc64. unfold advance_section.
  rewrite (get64_Ret now c) by (done || lia). cbn [mbind outcome_bind]. eexists. split; [done|].
  constructor; cbn [ps_mr ps_readonly ps_size ps_offset_within_address_space ps_offset_within_region];
    rewrite ?C4, ?C5; try done; try lia; try (apply wrap_small; lia).
  apply rep_sub; [done..|]. apply in128_small. lia.
Qed.

Lemma piece_size r id ro a n o size n' :
  piece r id ro a n o -> rep size n' -> 0 < n' <= n -> piece (with_size r size) id ro a n' o.
Proof. intros [C1 C2 C3 C4 C5 C6 C7 C8 C9] Hs Hn. constructor; simpl; done || lia. Qed.

Lemma loop_done fuel d now r n : rep (ps_size r) n -> rep now n -> mem_add_loop fuel d now r = Ret d.
Proof.
  intros H1 H2. unfold mem_add_loop, int128_ne. destruct fuel; rewrite (rep_eq _ _ n n) by done;
    by rewrite Z.eqb_refl.
Qed.

Lemma loop_step fuel d now r c n :
  rep (ps_size r) n -> rep now c -> n <> c ->
  mem_add_loop (S fuel) d now r =
    (let page_size := int128_make64 TARGET_PAGE_SIZE in
     remain ← advance_section r now;
     if int128_lt (ps_size remain) page_size then
       d ← register_subpage d remain;
       mem_add_loop fuel d (ps_size remain) remain
     else if negb (ps_offset_within_address_space remain &&& Z.lnot TARGET_PAGE_MASK =? 0) then
       d ← register_subpage d (with_size remain page_size);
       mem_add_loop fuel d page_size remain
     else
       let size := int128_and (ps_size remain) (int128_neg page_size) in
       d ← register_multipage d (with_size remain size);
       mem_add_loop fuel d size remain).
Proof.
  intros H1 H2 H. cbn [mem_add_loop]. unfold int128_ne. rewrite (rep_eq _ _ n c) by done.
  destruct (Z.eqb_spec n c); [done|]. done.
Qed.

Lemma rep_page : rep (int128_make64 TARGET_PAGE_SIZE) 4096.
Proof. apply rep_make64. unfold TARGET_PAGE_SIZE. lia. Qed.

Lemma rep_whole_pages x n :
  rep x n -> rep (int128_and x (int128_neg (int128_make64 TARGET_PAGE_SIZE))) (n / 4096 * 4096).
Proof.
  intros Hx. rewrite <- page_mask_div. apply rep_and; [done|].
  pose proof (rep_neg_sext _ _ rep_page) as H. exact H.
Qed.

Lemma patch_patch g a n1 n2 m addr :
  0 <= n1 -> 0 <= n2 -> patch (patch g a n1 m) (a + n1) n2 m addr = patch g a (n1 + n2) m addr.
Proof.
  intros H1 H2. destruct (decide (a + n1 <= addr < a + n1 + n2)).
  - by rewrite !patch_in by lia.
  - rewrite patch_out by lia. destruct (decide (a <= addr < a + n1)).
    + by rewrite !patch_in by lia.
    + by rewrite !patch_out by lia.
Qed.

Lemma table_patch d P g a n1 n2 m :
  0 <= n1 -> 0 <= n2 -> table_ok d P (patch (patch g a n1 m) (a + n1) n2 m) ->
  table_ok d P (patch g a (n1 + n2) m).
Proof. intros H1 H2. apply table_ext. intros addr _. by apply patch_patch. Qed.

(** The result of entering [n] bytes with at most [k] sections. *)
Definition enters (d : AddressSpaceDispatch) (g : Z -> meaning) (id : Z) (ro : bool) (a n o : Z)
    (k : nat) (res : outcome AddressSpaceDispatch) : Prop :=
  exists d',
    res = Ret d' /\ table_ok d' (a + n) (patch g a n (id, o - a, ro))
    /\ (length (sections d') <= k + length (sections d))%nat.

Lemma loop_tail fuel d P g r id ro a n o now c :
  table_ok d P g -> piece r id ro a n o -> rep now c -> 0 <= c < n -> n - c < 4096 -> c < 2 ^ 64 ->
  (a + c) mod 4096 = 0 -> P <= a + c -> Z.of_nat (length (sections d)) + 2 <= 4096 ->
  enters d g id ro (a + c) (n - c) (o + c) 2 (mem_add_loop (S fuel) d now r).
Proof.
  intros T Hpc Hc Hcn Htail Hc64 Hal HP Hlen.
  destruct (advance_ok r id ro a n o now c Hpc Hc Hcn Hc64) as (r' & E & Hpc').
  pose proof (pc_size _ _ _ _ _ _ Hpc') as Hs.
  rewrite (loop_step _ _ _ _ c n) by (lia || done || apply Hpc). cbv zeta. rewrite E. cbn [mbind outcome_bind].
  rewrite (rep_lt _ _ (n - c) 4096 Hs rep_page). destruct (Z.ltb_spec (n - c) 4096); [|lia].
  destruct (register_subpage_ok d P g r' id ro (a + c) (n - c) (o + c)) as (d' & E' & T' & L'); try done.
  { mlia. }
  rewrite E'. cbn [mbind outcome_bind]. rewrite (loop_done _ _ _ _ (n - c)) by done.
  exists d'. done.
Qed.

Lemma loop_pages d P g r id ro a n o now c :
  table_ok d P g -> piece r id ro a n o -> rep now c -> 0 <= c < n -> c < 2 ^ 64 ->
  (a + c) mod 4096 = 0 -> P <= a + c -> Z.of_nat (length (sections d)) + 3 <= 4096 ->
  enters d g id ro (a + c) (n - c) (o + c) 3 (mem_add_loop 2 d now r).
Proof.
  intros T Hpc Hc Hcn Hc64 Hal HP Hlen. destruct (Z.lt_ge_cases (n - c) 4096) as [Hlt|Hge].
  { destruct (loop_tail 1 d P g r id ro a n o now c) as (d' & E & T' & L); try done; [lia|].
    exists d'. split_and!; try done. lia. }
  destruct (advance_ok r id ro a n o now c Hpc Hc Hcn Hc64) as (r' & E & Hpc').
  pose proof (pc_size _ _ _ _ _ _ Hpc') as Hs.
  rewrite (loop_step _ _ _ _ c n) by (lia || done || apply Hpc). cbv zeta. rewrite E. cbn [mbind outcome_bind].
  rewrite (rep_lt _ _ (n - c) 4096 Hs rep_page). destruct (Z.ltb_spec (n - c) 4096); [lia|].
  rewrite (pc_addr _ _ _ _ _ _ Hpc'), page_offset_mod, Hal. cbn [Z.eqb negb].
  pose proof (rep_whole_pages _ _ Hs) as Hw. set (w := int128_and _ _) in *.
  set (nb := (n - c) / 4096) in *. set (i := (a + c) / 4096).
  assert (a + c = i * 4096) as Ei by (unfold i; mlia).
  assert (0 < nb /\ nb * 4096 <= n - c < nb * 4096 + 4096) as [Hnb Hrest] by (unfold nb; mlia).
  pose proof (piece_size _ _ _ _ _ _ w _ Hpc' Hw ltac:(lia)) as Hpw. rewrite Ei in Hpw, Hpc', HP |- *.
  destruct (register_multipage_ok d P g _ id ro i nb (o + c) T Hpw HP) as (d1 & E1 & T1 & L1); [lia|].
  rewrite E1. cbn [mbind outcome_bind].
  destruct (decide (nb * 4096 = n - c)) as [Eall|Hmore].
  - rewrite Eall in Hw. rewrite (loop_done _ _ _ _ (n - c)) by done. rewrite Eall in T1.
    exists d1. split_and!; try done. lia.
  - destruct (loop_tail 0 d1 _ _ r' id ro (i * 4096) (n - c) (o + c) w (nb * 4096) T1 Hpc' Hw)
      as (d2 & E2 & T2 & L2); try lia.
    + pose proof (pc_upto _ _ _ _ _ _ Hpc'). pose proof (pc_from _ _ _ _ _ _ Hpc'). lia.
    + rewrite <- Z.mul_add_distr_r. apply Z.mod_mul. lia.
    + exists d2. split; [done|]. split; [|lia].
      replace (i * 4096 + nb * 4096 + (n - c - nb * 4096)) with (i * 4096 + (n - c)) in T2 by lia.
      replace (o + c + nb * 4096 - (i * 4096 + nb * 4096)) with (o + c - i * 4096) in T2 by lia.
      apply table_patch in T2; [|lia..].
      by replace (nb * 4096 + (n - c - nb * 4096)) with (n - c) in T2 by lia.
Qed.

Lemma page_align a :
  0 <= a < 2 ^ 64 -> a mod 4096 <> 0 -> u64 (TARGET_PAGE_ALIGN a - a) = 4096 - a mod 4096.
Proof.
  intros Ha Hm. unfold TARGET_PAGE_ALIGN, TARGET_PAGE_SIZE. rewrite page_mask_div, wrap_sub_l. unfold wrap. mlia.
Qed.

Lemma mem_add_ok d P g s id ro a n o :
  table_ok d P g -> piece s id ro a n o -> P <= a -> Z.of_nat (length (sections d)) + 5 <= 4096 ->
  enters d g id ro a n o 5 (mem_add d s).
Proof.
  intros T Hpc HP Hlen. pose proof Hpc as [C1 C2 C3 C4 C5 C6 C7 C8 C9].
  unfold mem_add. rewrite C4, page_offset_mod. destruct (Z.eqb_spec (a mod 4096) 0) as [Hal|Hal]; cbn [negb].
  { destruct (loop_pages d P g s id ro a n o int128_zero 0) as (d' & E & T' & L); try done; try lia.
    - by rewrite Z.add_0_r.
    - rewrite !Z.add_0_r, !Z.sub_0_r in T'. exists d'. split_and!; try done. lia. }
  rewrite page_align by lia. set (left := 4096 - a mod 4096).
  assert (0 < left < 4096) as Hleft by (unfold left; pose proof (Z.mod_pos_bound a 4096); lia).
  pose proof (rep_min _ _ left n (rep_make64 left ltac:(lia)) C3) as Hmin.
  set (w := int128_min _ _) in *. set (c := Z.min left n) in *.
  pose proof (piece_size _ _ _ _ _ _ w c Hpc Hmin ltac:(lia)) as Hpw.
  destruct (register_subpage_ok d P g _ id ro a c o T Hpw HP) as (d1 & E1 & T1 & L1);
    [unfold c, left; mlia|lia|].
  rewrite E1. cbn [mbind outcome_bind]. destruct (decide (c = n)) as [Eall|Hmore].
  - rewrite Eall in *. rewrite (loop_done _ _ _ _ n) by done. exists d1. split_and!; try done. lia.
  - destruct (loop_pages d1 _ _ s id ro a n o w c T1 Hpc Hmin) as (d2 & E2 & T2 & L2); try lia.
    + replace (a + c) with ((a / 4096 + 1) * 4096) by (unfold c, left in *; mlia). apply Z.mod_mul. lia.
    + exists d2. split; [done|]. split; [|lia]. replace (a + c + (n - c)) with (a + n) in T2 by lia.
      replace (o + c - (a + c)) with (o - a) in T2 by lia. apply table_patch in T2; [|lia..].
      by replace (c + (n - c)) with n in T2 by lia.
Qed.

(** ** Building a table *)

Lemma begin_ok :
  exists d, mem_begin = Ret d /\ table_ok d 0 (fun _ => None) /\ length (sections d) = 4%nat.
Proof.
  eexists. split; [vm_compute; reflexivity|]. split; [|done]. constructor; try done.
  - constructor.
  - intros idx _. by left.
  - intros idx s _ _ [_ Hp _ _]. done.
  - intros addr Ha. exists (dummy Unassigned). done.
Qed.

Lemma compact_find d P g addr :
  table_ok d P g -> 0 <= addr < 2 ^ 64 ->
  phys_page_find (phys_page_compact_all (phys_map d)) addr (sections d) = Ret (pg d (page_of addr)).
Proof.
  intros T Ha. rewrite find_compact; [by apply (page_find_ok d P g)|apply T| | |done].
  - intros idx s a Hidx Hne Hs Haa Hc. destruct (t_page _ _ _ T idx Hidx) as [?|[t Ht]]; [done|].
    pose proof (page_found _ _ _ Ht) as Hf. unfold pg in Hf. rewrite Hs in Hf. injection Hf as <-.
    by apply (page_covers _ _ _ Ht a Haa).
  - split; [eexists; apply T|]. intros idx Hidx.
    destruct (t_page _ _ _ T idx Hidx) as [E|[t Ht]]; [|exists t; apply Ht].
    unfold pg in E. rewrite E. eexists. apply T.
Qed.

Lemma lookup_ok d P g addr :
  table_ok d P g -> 0 <= addr < 2 ^ 64 ->
  exists s, address_space_lookup_region (mem_commit d) addr true = Ret s /\ shows s (g addr).
Proof.
  intros T Ha. destruct (t_look _ _ _ T addr Ha) as (s & Hl & Hs). exists s. split; [|done].
  unfold address_space_lookup_region. cbn [phys_map sections subpages mem_commit].
  rewrite (compact_find d P g) by done. cbn [mbind outcome_bind]. unfold look in Hl.
  destruct (sections d !! Z.to_nat (pg d (page_of addr))) as [s0|]; [|done]. cbn [mbind option_bind] in Hl.
  unfold within in Hl. destruct (ps_mr s0) as [| | | |k|]; try congruence.
  destruct (subpages d !! k) as [sp|]; [|done]. cbn [mbind option_bind] in Hl.
  destruct (sub_section sp !! _) as [n|]; [|done]. cbn [mbind option_bind] in Hl. by rewrite Hl.
Qed.

Lemma section_of_ok fr :
  wf_range fr ->
  exists s, section_of fr = Ret s
    /\ piece s (fr_mr fr) (readonly fr) (rstart fr) (rsize fr) (offset_in_region fr).
Proof.
  intros [F1 F2 F3 F4 F5 F6 F7]. unfold rend in *. unfold section_of. rewrite (get64_Ret _ (rstart fr)) by (done || lia).
  cbn [mbind outcome_bind]. eexists. split; [done|]. constructor; done || lia.
Qed.

(** The listener's part of the events for a range. *)
Lemma listener_adds old fr d :
  foldM dispatch_listener d (add_events old fr) = (s ← section_of fr; mem_add d s).
Proof.
  unfold add_events, nop_events.
  destruct (find_equal old fr); simpl; repeat case_match; simpl;
    by destruct (section_of fr) as [s| |]; simpl; try done; destruct (mem_add d s).
Qed.

Lemma listener_dels d frs : foldM dispatch_listener d (RegionDel <$> frs) = Ret d.
Proof. induction frs as [|fr frs IH]; done. Qed.

Definition meaning_at (c : option cell) (addr : Z) : meaning :=
  match c with Some c => Some (c_mr c, c_offset c - addr, c_readonly c) | None => None end.

Lemma listener_ok old d P g view :
  view_from P view -> table_ok d P g ->
  Z.of_nat (length (sections d)) + 5 * Z.of_nat (length view) <= 4096 ->
  exists d' P',
    foldM dispatch_listener d (flat_map (add_events old) view) = Ret d'
    /\ table_ok d' P' (fun addr => orelse (meaning_at (view_at view addr) addr) (g addr)).
Proof.
  revert d P g. induction view as [|fr view IH]; intros d P g Hv T Hlen; [exists d, P; done|].
  destruct Hv as (Hp & Hwf & Hv). destruct (section_of_ok fr Hwf) as (s & Es & Hpc). cbn [length] in Hlen.
  destruct (mem_add_ok d P g s _ _ _ _ _ T Hpc Hp) as (d1 & E1 & T1 & L1); [lia|].
  destruct (IH d1 (rend fr) _ Hv T1) as (d2 & P2 & E2 & T2); [lia|].
  exists d2, P2. split.
  - cbn [flat_map]. rewrite (foldM_app _ _ d1), E2; [done|]. rewrite listener_adds, Es. done.
  - eapply table_ext; [|exact T2]. intros addr _. cbv beta. rewrite view_at_cons. unfold patch, cell_at.
    fold (rend fr). destruct ((rstart fr <=? addr) && (addr <? rend fr)) eqn:E; [|done].
    apply andb_true_iff in E as [_ E%Z.ltb_lt]. rewrite (view_at_low (rend fr)) by done. simpl.
    do 3 f_equal. lia.
Qed.

(** A new table for the events of an update. *)
Definition build_dispatch (events : list event) : outcome AddressSpaceDispatch :=
  d ← mem_begin;
  d ← foldM dispatch_listener d events;
  Ret (mem_commit d).

(** C7: after an update of the memory map the dispatch table is built without a
    failed assertion as long as the new map has at most 818 ranges (a table
    has at most 4096 sections, and a range needs at most five), and a lookup
    of any address finds the region the tree of regions has there, with the
    offset into it and whether it is read-only, or the unassigned section where
    the tree has nothing. *)
Theorem dispatch_correct old root :
  view_from 0 old -> wf_region (2 ^ 64 - 1) root ->
  exists events new,
    address_space_update_topology old (Some root) = Ret (events, new)
    /\ ((length new <= 818)%nat ->
        exists d, build_dispatch events = Ret d
          /\ forall addr, 0 <= addr < 2 ^ 64 ->
             exists s, address_space_lookup_region d addr true = Ret s
               /\ match resolve root 0 false addr with
                  | None => ps_mr s = Unassigned
                  | Some c =>
                      ps_mr s = Region (c_mr c)
                      /\ ps_offset_within_region s + (addr - ps_offset_within_address_space s) = c_offset c
                      /\ ps_readonly s = c_readonly c
                  end).
Proof.
  intros Hold Hwf.
  destruct (generate_ok root (2 ^ 64 - 1) ltac:(lia) Hwf) as [[? _]|(new & Eg & Hnew & _ & Hat)]; [lia|].
  eexists _, new. unfold address_space_update_topology, address_space_update_topology_pass.
  rewrite Eg. cbn [mbind outcome_bind]. rewrite !(topology_loop_ok _ old new 0 0) by done.
  split; [done|]. intros Hlen. destruct begin_ok as (d0 & E0 & T0 & L0).
  destruct (listener_ok old d0 0 _ new Hnew T0) as (d & P & E & T); [lia|].
  exists (mem_commit d). split.
  { unfold build_dispatch. rewrite E0. cbn [mbind outcome_bind].
    by rewrite (foldM_app _ _ d0), E by apply listener_dels. }
  intros addr Ha. destruct (lookup_ok d P _ addr T Ha) as (s & Es & Hs). exists s. split; [done|].
  rewrite <- Hat by done. destruct (view_at new addr) as [c|]; [|done]. destruct Hs as (H1 & H2 & H3).
  split_and!; try done. lia.
Qed.

Lemma dispatch_correct_witness :
  exists events new d s,
    address_space_update_topology sample_old (Some sample_map) = Ret (events, new)
    /\ build_dispatch events = Ret d
    /\ address_space_lookup_region d 0x100000123 true = Ret s
    /\ ps_mr s = Region 3
    /\ ps_offset_within_region s + (0x100000123 - ps_offset_within_address_space s) = 0x1123.
Proof.
  assert (wf_region (2 ^ 64 - 1) sample_map) as Hwf by wf_tree.
  assert (view_from 0 sample_old) as Hv by (repeat split; vm_compute; congruence).
  destruct (dispatch_correct sample_old sample_map Hv Hwf) as (events & new & E & H).
  assert (length new = 4%nat) as Hl.
  { vm_compute in E. injection E as _ <-. reflexivity. }
  destruct (H ltac:(lia)) as (d & Ed & Hd). destruct (Hd 0x100000123 ltac:(lia)) as (s & Es & Hs).
  assert (resolve sample_map 0 false 0x100000123
          = Some {| c_mr := 3; c_offset := 0x1123; c_dirty := 0; c_romd := true; c_readonly := false |})
    as Er by (vm_compute; reflexivity).
  rewrite Er in Hs. destruct Hs as (H1 & H2 & _).
  exists events, new, d, s. split; [exact E|]. split; [exact Ed|]. split; [exact Es|]. split; [exact H1|exact H2].
Defined.

(** The length of a translation is limited by the size of the region counted
    from the start of the section, not by the section: here the last 0x1000
    bytes of a region of 0x3000 bytes are mapped, and the translation of their
    first byte has 0x2000 bytes, the second half of which is outside the
    region. *)
Example translate_past_end :
  let sizes := fun mr => match mr with Region _ => int128_make64 0x3000 | _ => int128_2_64 end in
  (d ← mem_begin;
   d ← mem_add d {| ps_mr := Region 1; ps_offset_within_region := 0x2000; ps_size := int128_make64 0x1000;
                    ps_offset_within_address_space := 0x10000; ps_readonly := false |};
   '(s, xlat, plen) ← address_space_translate_internal sizes (mem_commit d) 0x10000 0x2000 true;
   Ret (ps_mr s, xlat, plen)) = Ret (Region 1, 0x2000, 0x2000).
Proof. vm_compute. reflexivity. Qed.
