(* ===== verification/X86Flags.v ===== *)
(** * Lazy condition codes of the x86

    Model of [src/target-i386/cc_helper.c] and its template for the four operand
    sizes.  Translated code does not compute the flags of an instruction: it
    leaves the result and an operand in [CC_DST], [CC_SRC] and [CC_SRC2] and
    the kind of the instruction in [CC_OP]; the helpers compute the flags from
    these when they are needed.

    Shown here: for every kind and size the helpers give the flags the
    instruction has, described on integers (carry out, signed overflow, carry
    out of bit 3, parity of the low byte), the helper for the carry alone
    agrees, and writing the flags register and reading it back gives what was
    written.

    The target is the 64-bit one: [target_ulong] has 64 bits. *)

From S2P Require Import Prelude.

Definition CC_C : Z := 1.
Definition CC_P : Z := 4.
Definition CC_A : Z := 16.
Definition CC_Z : Z := 64.
Definition CC_S : Z := 128.
Definition CC_O : Z := 2048.

Definition parity_table : list Z :=
  [
   CC_P; 0; 0; CC_P; 0; CC_P; CC_P; 0; 0; CC_P; CC_P; 0; CC_P; 0; 0; CC_P;
   0; CC_P; CC_P; 0; CC_P; 0; 0; CC_P; CC_P; 0; 0; CC_P; 0; CC_P; CC_P; 0;
   0; CC_P; CC_P; 0; CC_P; 0; 0; CC_P; CC_P; 0; 0; CC_P; 0; CC_P; CC_P; 0;
   CC_P; 0; 0; CC_P; 0; CC_P; CC_P; 0; 0; CC_P; CC_P; 0; CC_P; 0; 0; CC_P;
   0; CC_P; CC_P; 0; CC_P; 0; 0; CC_P; CC_P; 0; 0; CC_P; 0; CC_P; CC_P; 0;
   CC_P; 0; 0; CC_P; 0; CC_P; CC_P; 0; 0; CC_P; CC_P; 0; CC_P; 0; 0; CC_P;
   CC_P; 0; 0; CC_P; 0; CC_P; CC_P; 0; 0; CC_P; CC_P; 0; CC_P; 0; 0; CC_P;
   0; CC_P; CC_P; 0; CC_P; 0; 0; CC_P; CC_P; 0; 0; CC_P; 0; CC_P; CC_P; 0;
   0; CC_P; CC_P; 0; CC_P; 0; 0; CC_P; CC_P; 0; 0; CC_P; 0; CC_P; CC_P; 0;
   CC_P; 0; 0; CC_P; 0; CC_P; CC_P; 0; 0; CC_P; CC_P; 0; CC_P; 0; 0; CC_P;
   CC_P; 0; 0; CC_P; 0; CC_P; CC_P; 0; 0; CC_P; CC_P; 0; CC_P; 0; 0; CC_P;
   0; CC_P; CC_P; 0; CC_P; 0; 0; CC_P; CC_P; 0; 0; CC_P; 0; CC_P; CC_P; 0;
   CC_P; 0; 0; CC_P; 0; CC_P; CC_P; 0; 0; CC_P; CC_P; 0; CC_P; 0; 0; CC_P;
   0; CC_P; CC_P; 0; CC_P; 0; 0; CC_P; CC_P; 0; 0; CC_P; 0; CC_P; CC_P; 0;
   0; CC_P; CC_P; 0; CC_P; 0; 0; CC_P; CC_P; 0; 0; CC_P; 0; CC_P; CC_P; 0;
   CC_P; 0; 0; CC_P; 0; CC_P; CC_P; 0; 0; CC_P; CC_P; 0; CC_P; 0; 0; CC_P
  ].

(** [parity_table[(uint8_t)x]]; the table has an entry for every byte. *)
Definition parity_at (x : Z) : Z := default 0 (parity_table !! Z.to_nat (u8 x)).

Definition lshift (x n : Z) : Z :=
  let x := s64 x in
  if 0 <=? n then s64 (x << n) else x >> (- n).

(** ** The template, for operands of [DATA_BITS] bits *)

Section template.
Variable DATA_BITS : Z.

(** The parts that most of the functions share. *)
Definition zf_of (dst : Z) : Z := b2z (dst =? 0) * CC_Z.
Definition sf_of (dst : Z) : Z := lshift dst (8 - DATA_BITS) &&& CC_S.
Definition SIGN_MASK : Z := wrap DATA_BITS (1 << (DATA_BITS - 1)).

Definition compute_all_add (dst src1 : Z) : Z :=
  let src2 := wrap DATA_BITS (dst - src1) in
  let cf := b2z (dst <? src1) in
  let pf := parity_at dst in
  let af := (dst ^^^ src1 ^^^ src2) &&& CC_A in
  let ovf := lshift ((src1 ^^^ src2 ^^^ -1) &&& (src1 ^^^ dst)) (12 - DATA_BITS) &&& CC_O in
  cf ||| pf ||| af ||| zf_of dst ||| sf_of dst ||| ovf.

Definition compute_c_add (dst src1 : Z) : Z := b2z (dst <? src1).

Definition compute_c_adc (dst src1 src3 : Z) : Z :=
  if negb (src3 =? 0) then b2z (dst <=? src1) else b2z (dst <? src1).

Definition compute_all_adc (dst src1 src3 : Z) : Z :=
  let src2 := wrap DATA_BITS (dst - src1 - src3) in
  let cf := if negb (src3 =? 0) then b2z (dst <=? src1) else b2z (dst <? src1) in
  let pf := parity_at dst in
  let af := (dst ^^^ src1 ^^^ src2) &&& 0x10 in
  let zf := b2z (dst =? 0) << 6 in
  let sf := lshift dst (8 - DATA_BITS) &&& 0x80 in
  let ovf := lshift ((src1 ^^^ src2 ^^^ -1) &&& (src1 ^^^ dst)) (12 - DATA_BITS) &&& CC_O in
  cf ||| pf ||| af ||| zf ||| sf ||| ovf.

Definition compute_all_sub (dst src2 : Z) : Z :=
  let src1 := wrap DATA_BITS (dst + src2) in
  let cf := b2z (src1 <? src2) in
  let pf := parity_at dst in
  let af := (dst ^^^ src1 ^^^ src2) &&& CC_A in
  let ovf := lshift ((src1 ^^^ src2) &&& (src1 ^^^ dst)) (12 - DATA_BITS) &&& CC_O in
  cf ||| pf ||| af ||| zf_of dst ||| sf_of dst ||| ovf.

Definition compute_c_sub (dst src2 : Z) : Z :=
  let src1 := wrap DATA_BITS (dst + src2) in
  b2z (src1 <? src2).

Definition compute_all_sbb (dst src2 src3 : Z) : Z :=
  let src1 := wrap DATA_BITS (dst + src2 + src3) in
  let cf := if negb (src3 =? 0) then b2z (src1 <=? src2) else b2z (src1 <? src2) in
  let pf := parity_at dst in
  let af := (dst ^^^ src1 ^^^ src2) &&& 0x10 in
  let zf := b2z (dst =? 0) << 6 in
  let sf := lshift dst (8 - DATA_BITS) &&& 0x80 in
  let ovf := lshift ((src1 ^^^ src2) &&& (src1 ^^^ dst)) (12 - DATA_BITS) &&& CC_O in
  cf ||| pf ||| af ||| zf ||| sf ||| ovf.

Definition compute_c_sbb (dst src2 src3 : Z) : Z :=
  let src1 := wrap DATA_BITS (dst + src2 + src3) in
  if negb (src3 =? 0) then b2z (src1 <=? src2) else b2z (src1 <? src2).

Definition compute_all_logic (dst src1 : Z) : Z :=
  let pf := parity_at dst in
  0 ||| pf ||| 0 ||| zf_of dst ||| sf_of dst ||| 0.

(** [cf] is an [int]. *)
Definition compute_all_inc (dst src1 : Z) : Z :=
  let cf := s32 src1 in
  let src1 := wrap DATA_BITS (dst - 1) in
  let src2 := 1 in
  let pf := parity_at dst in
  let af := (dst ^^^ src1 ^^^ src2) &&& CC_A in
  let ovf := b2z (dst =? SIGN_MASK) * CC_O in
  cf ||| pf ||| af ||| zf_of dst ||| sf_of dst ||| ovf.

Definition compute_all_dec (dst src1 : Z) : Z :=
  let cf := s32 src1 in
  let src1 := wrap DATA_BITS (dst + 1) in
  let src2 := 1 in
  let pf := parity_at dst in
  let af := (dst ^^^ src1 ^^^ src2) &&& CC_A in
  let ovf := b2z (dst =? SIGN_MASK - 1) * CC_O in
  cf ||| pf ||| af ||| zf_of dst ||| sf_of dst ||| ovf.

Definition compute_c_shl (dst src1 : Z) : Z := (src1 >> (DATA_BITS - 1)) &&& CC_C.

Definition compute_all_shl (dst src1 : Z) : Z :=
  let cf := (src1 >> (DATA_BITS - 1)) &&& CC_C in
  let pf := parity_at dst in
  let ovf := lshift (src1 ^^^ dst) (12 - DATA_BITS) &&& CC_O in
  cf ||| pf ||| 0 ||| zf_of dst ||| sf_of dst ||| ovf.

Definition compute_all_sar (dst src1 : Z) : Z :=
  let cf := src1 &&& 1 in
  let pf := parity_at dst in
  let ovf := lshift (src1 ^^^ dst) (12 - DATA_BITS) &&& CC_O in
  cf ||| pf ||| 0 ||| zf_of dst ||| sf_of dst ||| ovf.

(** [src1] is not truncated. *)
Definition compute_all_mul (dst src1 : Z) : Z :=
  let cf := b2z (negb (src1 =? 0)) in
  let pf := parity_at dst in
  let ovf := cf * CC_O in
  cf ||| pf ||| 0 ||| zf_of dst ||| sf_of dst ||| ovf.

Definition compute_all_bmilg (dst src1 : Z) : Z :=
  let cf := b2z (src1 =? 0) in
  cf ||| 0 ||| 0 ||| zf_of dst ||| sf_of dst ||| 0.

Definition compute_c_bmilg (dst src1 : Z) : Z := b2z (src1 =? 0).
End template.

Definition compute_all_adcx (dst src1 src2 : Z) : Z :=
  (src1 &&& Z.lnot CC_C) ||| u64 (dst * CC_C).

Definition compute_all_adox (dst src1 src2 : Z) : Z :=
  (src1 &&& Z.lnot CC_O) ||| u64 (src2 * CC_O).

Definition compute_all_adcox (dst src1 src2 : Z) : Z :=
  (src1 &&& Z.lnot (CC_C ||| CC_O)) ||| u64 (dst * CC_C) ||| u64 (src2 * CC_O).

(** ** The helpers *)

(** The suffixes of the operand sizes. *)
Inductive size := B | W | L | Q.

Definition bits (sz : size) : Z := match sz with B => 8 | W => 16 | L => 32 | Q => 64 end.

Inductive CCOp :=
| CC_OP_DYNAMIC
| CC_OP_EFLAGS
| CC_OP_MUL (sz : size)
| CC_OP_ADD (sz : size)
| CC_OP_ADC (sz : size)
| CC_OP_SUB (sz : size)
| CC_OP_SBB (sz : size)
| CC_OP_LOGIC (sz : size)
| CC_OP_INC (sz : size)
| CC_OP_DEC (sz : size)
| CC_OP_SHL (sz : size)
| CC_OP_SAR (sz : size)
| CC_OP_BMILG (sz : size)
| CC_OP_ADCX
| CC_OP_ADOX
| CC_OP_ADCOX
| CC_OP_CLR.

(** Arguments are converted to the operand's type; the [int] that is returned
    is converted to [target_ulong]. *)
Definition helper_cc_compute_all (dst src1 src2 : Z) (op : CCOp) : Z :=
  match op with
  | CC_OP_DYNAMIC => 0
  | CC_OP_EFLAGS => src1
  | CC_OP_CLR => CC_Z ||| CC_P
  | CC_OP_MUL sz => u64 (compute_all_mul (bits sz) (wrap (bits sz) dst) (s64 src1))
  | CC_OP_ADD sz => u64 (compute_all_add (bits sz) (wrap (bits sz) dst) (wrap (bits sz) src1))
  | CC_OP_ADC sz =>
      u64 (compute_all_adc (bits sz) (wrap (bits sz) dst) (wrap (bits sz) src1) (wrap (bits sz) src2))
  | CC_OP_SUB sz => u64 (compute_all_sub (bits sz) (wrap (bits sz) dst) (wrap (bits sz) src1))
  | CC_OP_SBB sz =>
      u64 (compute_all_sbb (bits sz) (wrap (bits sz) dst) (wrap (bits sz) src1) (wrap (bits sz) src2))
  | CC_OP_LOGIC sz => u64 (compute_all_logic (bits sz) (wrap (bits sz) dst) (wrap (bits sz) src1))
  | CC_OP_INC sz => u64 (compute_all_inc (bits sz) (wrap (bits sz) dst) (wrap (bits sz) src1))
  | CC_OP_DEC sz => u64 (compute_all_dec (bits sz) (wrap (bits sz) dst) (wrap (bits sz) src1))
  | CC_OP_SHL sz => u64 (compute_all_shl (bits sz) (wrap (bits sz) dst) (wrap (bits sz) src1))
  | CC_OP_SAR sz => u64 (compute_all_sar (bits sz) (wrap (bits sz) dst) (wrap (bits sz) src1))
  | CC_OP_BMILG sz => u64 (compute_all_bmilg (bits sz) (wrap (bits sz) dst) (wrap (bits sz) src1))
  | CC_OP_ADCX => compute_all_adcx dst src1 src2
  | CC_OP_ADOX => compute_all_adox dst src1 src2
  | CC_OP_ADCOX => compute_all_adcox dst src1 src2
  end.

Definition helper_cc_compute_c (dst src1 src2 : Z) (op : CCOp) : Z :=
  match op with
  | CC_OP_DYNAMIC | CC_OP_LOGIC _ | CC_OP_CLR => 0
  | CC_OP_EFLAGS | CC_OP_SAR _ | CC_OP_ADOX => src1 &&& 1
  | CC_OP_INC _ | CC_OP_DEC _ => src1
  | CC_OP_MUL _ => b2z (negb (src1 =? 0))
  | CC_OP_ADCX | CC_OP_ADCOX => dst
  | CC_OP_ADD sz => compute_c_add (wrap (bits sz) dst) (wrap (bits sz) src1)
  | CC_OP_ADC sz => compute_c_adc (wrap (bits sz) dst) (wrap (bits sz) src1) (wrap (bits sz) src2)
  | CC_OP_SUB sz => compute_c_sub (bits sz) (wrap (bits sz) dst) (wrap (bits sz) src1)
  | CC_OP_SBB sz => compute_c_sbb (bits sz) (wrap (bits sz) dst) (wrap (bits sz) src1) (wrap (bits sz) src2)
  | CC_OP_SHL sz => compute_c_shl (bits sz) (wrap (bits sz) dst) (wrap (bits sz) src1)
  | CC_OP_BMILG sz => compute_c_bmilg (wrap (bits sz) dst) (wrap (bits sz) src1)
  end.

(** ** The flags of an instruction *)

Record flags := { f_c : bool; f_p : bool; f_a : bool; f_z : bool; f_s : bool; f_o : bool }.

Definition eflags_of (f : flags) : Z :=
  b2z (f_c f) ||| b2z (f_p f) * CC_P ||| b2z (f_a f) * CC_A ||| b2z (f_z f) * CC_Z
  ||| b2z (f_s f) * CC_S ||| b2z (f_o f) * CC_O.

(** An even number of the low eight bits is set. *)
Definition even_parity (x : Z) : bool :=
  negb (foldr xorb false (Z.testbit x <$> [0; 1; 2; 3; 4; 5; 6; 7])).

Definition fits_signed (w x : Z) : bool := (- 2 ^ (w - 1) <=? x) && (x <? 2 ^ (w - 1)).

(** [a + b + c] on [w] bits. *)
Definition add_flags (w a b c : Z) : flags :=
  let r := a + b + c in
  {| f_c := 2 ^ w <=? r; f_p := even_parity r; f_a := 16 <=? a mod 16 + b mod 16 + c;
     f_z := wrap w r =? 0; f_s := Z.testbit r (w - 1);
     f_o := negb (fits_signed w (sext w a + sext w b + c)) |}.

(** [a - b - c] on [w] bits. *)
Definition sub_flags (w a b c : Z) : flags :=
  let r := a - b - c in
  {| f_c := a <? b + c; f_p := even_parity r; f_a := a mod 16 <? b mod 16 + c;
     f_z := wrap w r =? 0; f_s := Z.testbit r (w - 1);
     f_o := negb (fits_signed w (sext w a - sext w b - c)) |}.

(** Zero, sign and parity of a result, with given carry and overflow. *)
Definition result_flags (w r : Z) (c o : bool) : flags :=
  {| f_c := c; f_p := even_parity r; f_a := false; f_z := wrap w r =? 0;
     f_s := Z.testbit r (w - 1); f_o := o |}.

(** ** The parts of the computations *)

Lemma parity_ext x y :
  (forall k, 0 <= k < 8 -> Z.testbit x k = Z.testbit y k) -> even_parity x = even_parity y.
Proof. intros H. unfold even_parity. cbn [fmap list_fmap]. by rewrite !H by lia. Qed.

Lemma parity_ok x : parity_at x = b2z (even_parity x) * CC_P.
Proof.
  assert (forall i, (i < 256)%nat ->
    default 0 (parity_table !! i) = b2z (even_parity (Z.of_nat i)) * CC_P) as Htab.
  { intros i Hi.
    assert (Forall (fun i => default 0 (parity_table !! i) = b2z (even_parity (Z.of_nat i)) * CC_P) (seq 0 256))
      as HF by (apply (bool_decide_unpack _); vm_compute; exact I).
    rewrite Forall_forall in HF. apply HF. apply elem_of_seq. lia. }
  pose proof (wrap_range 8 x ltac:(lia)). unfold parity_at.
  rewrite Htab, Z2Nat.id by lia. do 2 f_equal. apply parity_ext. intros k Hk.
  rewrite testbit_wrap by lia. by rewrite (proj2 (Z.ltb_lt _ _)) by lia.
Qed.

Lemma mask_bit x k : 0 <= k -> x &&& 2 ^ k = b2z (Z.testbit x k) * 2 ^ k.
Proof.
  intros Hk. apply Z.bits_inj'. intros i Hi. rewrite Z.land_spec, Z.pow2_bits_eqb by lia.
  destruct (Z.eqb_spec k i) as [->|Hne].
  - rewrite andb_true_r. destruct (Z.testbit x i); simpl b2z; [|by rewrite Z.mul_0_l, Z.testbit_0_l].
    rewrite Z.mul_1_l, Z.pow2_bits_true by lia. done.
  - rewrite andb_false_r. destruct (Z.testbit x k); simpl b2z; [|by rewrite Z.mul_0_l, Z.testbit_0_l].
    rewrite Z.mul_1_l, Z.pow2_bits_false by lia. done.
Qed.

Lemma testbit_s64 x k : 0 <= k < 64 -> Z.testbit (s64 x) k = Z.testbit x k.
Proof.
  intros Hk. assert (Z.testbit (u64 (s64 x)) k = Z.testbit (u64 x) k) as E by (by rewrite wrap_sext by lia).
  rewrite !testbit_wrap in E by lia. destruct (Z.ltb_spec k 64); [done|lia].
Qed.

Lemma bits_pos sz : 8 <= bits sz <= 64.
Proof. destruct sz; simpl; lia. Qed.

Lemma lshift_bit sz y k :
  k = 7 \/ k = 11 -> lshift y (k + 1 - bits sz) &&& 2 ^ k = b2z (Z.testbit y (bits sz - 1)) * 2 ^ k.
Proof.
  intros Hk. pose proof (bits_pos sz). rewrite mask_bit by lia. do 2 f_equal. unfold lshift.
  destruct (Z.leb_spec 0 (k + 1 - bits sz)).
  - rewrite testbit_s64, Z.shiftl_spec, testbit_s64 by (destruct Hk; lia). f_equal. lia.
  - rewrite Z.shiftr_spec, testbit_s64 by lia. f_equal. lia.
Qed.

(** The carry into bit [k] of a sum. *)
Lemma carry_bit a b c k :
  0 <= k -> 0 <= c <= 1 ->
  Z.testbit (a + b + c) k
  = xorb (xorb (Z.testbit a k) (Z.testbit b k)) (2 ^ k <=? a mod 2 ^ k + b mod 2 ^ k + c).
Proof.
  intros Hk Hc. rewrite !Z.testbit_odd, !Z.shiftr_div_pow2 by lia. set (m := 2 ^ k).
  assert (0 < m) by (apply Z.pow_pos_nonneg; lia).
  pose proof (Z.div_mod a m ltac:(lia)) as Ea. pose proof (Z.div_mod b m ltac:(lia)) as Eb.
  pose proof (Z.mod_pos_bound a m ltac:(lia)). pose proof (Z.mod_pos_bound b m ltac:(lia)).
  set (ra := a mod m) in *. set (rb := b mod m) in *. set (qa := a / m) in *. set (qb := b / m) in *.
  replace (a + b + c) with ((ra + rb + c) + (qa + qb) * m) by lia. rewrite Z.div_add, Z.odd_add by lia.
  rewrite Z.odd_add. destruct (Z.leb_spec m (ra + rb + c)).
  - replace ((ra + rb + c) / m) with 1 by (apply (Z.div_unique _ _ _ (ra + rb + c - m)); lia).
    by destruct (Z.odd qa), (Z.odd qb).
  - rewrite Z.div_small by lia. by destruct (Z.odd qa), (Z.odd qb).
Qed.

Lemma top_bit sz a : 0 <= a < 2 ^ bits sz -> Z.testbit a (bits sz - 1) = (2 ^ (bits sz - 1) <=? a).
Proof.
  intros Ha. rewrite Z.testbit_odd, Z.shiftr_div_pow2 by (pose proof (bits_pos sz); lia).
  destruct (Z.leb_spec (2 ^ (bits sz - 1)) a).
  - replace (a / 2 ^ (bits sz - 1)) with 1; [done|].
    apply (Z.div_unique _ _ _ (a - 2 ^ (bits sz - 1))); destruct sz; simpl in *; lia.
  - by rewrite Z.div_small by lia.
Qed.

Lemma sext_top sz a :
  0 <= a < 2 ^ bits sz ->
  sext (bits sz) a = if 2 ^ (bits sz - 1) <=? a then a - 2 ^ bits sz else a.
Proof.
  intros Ha. unfold sext. rewrite wrap_small by done.
  destruct (Z.ltb_spec a (2 ^ (bits sz - 1))), (Z.leb_spec (2 ^ (bits sz - 1)) a); done || lia.
Qed.

Lemma even_parity_wrap sz x : even_parity (wrap (bits sz) x) = even_parity x.
Proof.
  apply parity_ext. intros k Hk. pose proof (bits_pos sz). rewrite testbit_wrap by lia.
  by rewrite (proj2 (Z.ltb_lt _ _)) by lia.
Qed.

Lemma sf_ok sz x : sf_of (bits sz) (wrap (bits sz) x) = b2z (Z.testbit x (bits sz - 1)) * CC_S.
Proof.
  unfold sf_of. pose proof (lshift_bit sz (wrap (bits sz) x) 7 ltac:(auto)) as E.
  change (7 + 1) with 8 in E. change (2 ^ 7) with CC_S in E. rewrite E, testbit_wrap by (pose proof (bits_pos sz); lia).
  by rewrite (proj2 (Z.ltb_lt _ _)) by lia.
Qed.

Lemma of_ok sz y : lshift y (12 - bits sz) &&& CC_O = b2z (Z.testbit y (bits sz - 1)) * CC_O.
Proof. exact (lshift_bit sz y 11 ltac:(auto)). Qed.

Lemma af_ok x : x &&& CC_A = b2z (Z.testbit x 4) * CC_A.
Proof. exact (mask_bit x 4 ltac:(lia)). Qed.

(** ** Sums and differences *)

Section operands.
Context (sz : size) (a b c : Z).
Context (Ha : 0 <= a < 2 ^ bits sz) (Hb : 0 <= b < 2 ^ bits sz) (Hc : 0 <= c <= 1).

Lemma add_carry :
  (if negb (c =? 0) then b2z (wrap (bits sz) (a + b + c) <=? a) else b2z (wrap (bits sz) (a + b + c) <? a))
  = b2z (2 ^ bits sz <=? a + b + c).
Proof.
  assert (wrap (bits sz) (a + b + c) = if 2 ^ bits sz <=? a + b + c then a + b + c - 2 ^ bits sz else a + b + c)
    as E.
  { unfold wrap. symmetry. destruct (Z.leb_spec (2 ^ bits sz) (a + b + c)).
    - apply (Z.mod_unique _ _ 1); lia.
    - apply (Z.mod_unique _ _ 0); lia. }
  rewrite E. destruct (Z.leb_spec (2 ^ bits sz) (a + b + c)), (Z.eqb_spec c 0); cbn [negb]; f_equal; lia.
Qed.

(** The carry into bit 4. *)
Lemma add_aux :
  Z.testbit (wrap (bits sz) (a + b + c) ^^^ a ^^^ b) 4 = (16 <=? a mod 16 + b mod 16 + c).
Proof.
  pose proof (bits_pos sz). rewrite !Z.lxor_spec, testbit_wrap, (proj2 (Z.ltb_lt _ _)), carry_bit by lia.
  change (2 ^ 4) with 16. by destruct (Z.testbit a 4), (Z.testbit b 4), (16 <=? _).
Qed.

Lemma add_overflow :
  Z.testbit ((a ^^^ b ^^^ -1) &&& (a ^^^ wrap (bits sz) (a + b + c))) (bits sz - 1)
  = negb (fits_signed (bits sz) (sext (bits sz) a + sext (bits sz) b + c)).
Proof.
  pose proof (bits_pos sz). rewrite Z.land_spec, !Z.lxor_spec, Z.bits_m1 by lia.
  rewrite !top_bit, !sext_top by (done || (apply wrap_range; lia)).
  unfold fits_signed, wrap.
  assert (2 ^ bits sz = 2 * 2 ^ (bits sz - 1)) as E by (destruct sz; reflexivity).
  rewrite E in *. set (h := 2 ^ (bits sz - 1)) in *. clearbody h.
  assert ((a + b + c) mod (2 * h) = if 2 * h <=? a + b + c then a + b + c - 2 * h else a + b + c) as ->.
  { symmetry. zcase; [apply (Z.mod_unique _ _ 1)|apply (Z.mod_unique _ _ 0)]; lia. }
  destruct (Z.leb_spec (2 * h) (a + b + c)), (Z.leb_spec h a), (Z.leb_spec h b); simpl;
    repeat zcase; simpl; done || lia.
Qed.

(** The result of a subtraction and its first operand. *)
Lemma sub_operand : wrap (bits sz) (wrap (bits sz) (a - b - c) + b + c) = a.
Proof.
  rewrite <- Z.add_assoc, wrap_add_l. replace (a - b - c + (b + c)) with a by lia. by apply wrap_small.
Qed.

Lemma sub_wrap : wrap (bits sz) (a - b - c) = if a <? b + c then a - b - c + 2 ^ bits sz else a - b - c.
Proof.
  symmetry. unfold wrap. zcase; [apply (Z.mod_unique _ _ (-1))|apply (Z.mod_unique _ _ 0)]; lia.
Qed.

Lemma sub_carry :
  (if negb (c =? 0) then b2z (a <=? b) else b2z (a <? b)) = b2z (a <? b + c).
Proof. destruct (Z.eqb_spec c 0); cbn [negb]; f_equal; lia. Qed.

Lemma sub_aux :
  Z.testbit (wrap (bits sz) (a - b - c) ^^^ a ^^^ b) 4 = (a mod 16 <? b mod 16 + c).
Proof.
  set (d := wrap (bits sz) (a - b - c)).
  assert (Z.testbit a 4 = Z.testbit (d + b + c) 4) as E.
  { rewrite <- sub_operand at 1. pose proof (bits_pos sz). rewrite testbit_wrap by lia.
    by rewrite (proj2 (Z.ltb_lt _ _)) by lia. }
  rewrite !Z.lxor_spec, E, carry_bit by lia. change (2 ^ 4) with 16.
  assert (d mod 16 = (a - b - c) mod 16) as Ed.
  { unfold d, wrap. apply Z.mod_mod_divide. exists (2 ^ (bits sz - 4)). by destruct sz. }
  rewrite Ed. assert ((16 <=? (a - b - c) mod 16 + b mod 16 + c) = (a mod 16 <? b mod 16 + c)) as ->.
  { destruct (Z.ltb_spec (a mod 16) (b mod 16 + c)); [apply Z.leb_le|apply Z.leb_gt]; mlia. }
  by destruct (Z.testbit d 4), (Z.testbit b 4), (_ <? _).
Qed.

Lemma sub_overflow :
  Z.testbit ((a ^^^ b) &&& (a ^^^ wrap (bits sz) (a - b - c))) (bits sz - 1)
  = negb (fits_signed (bits sz) (sext (bits sz) a - sext (bits sz) b - c)).
Proof.
  pose proof (bits_pos sz). rewrite Z.land_spec, !Z.lxor_spec by lia.
  rewrite !top_bit, !sext_top by (done || (apply wrap_range; lia)). rewrite sub_wrap.
  unfold fits_signed. assert (2 ^ bits sz = 2 * 2 ^ (bits sz - 1)) as E by (destruct sz; reflexivity).
  rewrite E in *. set (h := 2 ^ (bits sz - 1)) in *. clearbody h.
  destruct (Z.ltb_spec a (b + c)), (Z.leb_spec h a), (Z.leb_spec h b); simpl;
    repeat zcase; simpl; done || lia.
Qed.
End operands.

Lemma adc_ok sz a b c :
  0 <= a < 2 ^ bits sz -> 0 <= b < 2 ^ bits sz -> 0 <= c <= 1 ->
  compute_all_adc (bits sz) (wrap (bits sz) (a + b + c)) a c = eflags_of (add_flags (bits sz) a b c).
Proof.
  intros Ha Hb Hc. unfold compute_all_adc, eflags_of, add_flags. cbn [f_c f_p f_a f_z f_s f_o].
  set (d := wrap (bits sz) (a + b + c)).
  assert (wrap (bits sz) (d - a - c) = b) as ->.
  { replace (d - a - c) with (d - (a + c)) by lia. unfold d. rewrite wrap_sub_l.
    replace (a + b + c - (a + c)) with b by lia. by apply wrap_small. }
  change 0x10 with CC_A. change 0x80 with CC_S. fold (sf_of (bits sz) d).
  replace (b2z (d =? 0) << 6) with (b2z (d =? 0) * CC_Z) by (by destruct (d =? 0)).
  unfold d. rewrite sf_ok, of_ok, af_ok, parity_ok, even_parity_wrap, add_carry, add_aux, add_overflow by done.
  done.
Qed.

Lemma sbb_ok sz a b c :
  0 <= a < 2 ^ bits sz -> 0 <= b < 2 ^ bits sz -> 0 <= c <= 1 ->
  compute_all_sbb (bits sz) (wrap (bits sz) (a - b - c)) b c = eflags_of (sub_flags (bits sz) a b c).
Proof.
  intros Ha Hb Hc. unfold compute_all_sbb, eflags_of, sub_flags. cbn [f_c f_p f_a f_z f_s f_o].
  rewrite sub_operand by done. set (d := wrap (bits sz) (a - b - c)).
  change 0x10 with CC_A. change 0x80 with CC_S. fold (sf_of (bits sz) d).
  replace (b2z (d =? 0) << 6) with (b2z (d =? 0) * CC_Z) by (by destruct (d =? 0)).
  unfold d. rewrite sf_ok, of_ok, af_ok, parity_ok, even_parity_wrap, sub_carry, sub_aux, sub_overflow by done.
  done.
Qed.

Lemma add_as_adc w dst src1 : compute_all_add w dst src1 = compute_all_adc w dst src1 0.
Proof.
  unfold compute_all_add, compute_all_adc. rewrite Z.sub_0_r. unfold zf_of. by destruct (dst =? 0).
Qed.

Lemma sub_as_sbb w dst src2 : compute_all_sub w dst src2 = compute_all_sbb w dst src2 0.
Proof.
  unfold compute_all_sub, compute_all_sbb. rewrite Z.add_0_r. unfold zf_of. by destruct (dst =? 0).
Qed.

(** ** The other kinds *)

Definition with_carry (f : flags) (c : bool) : flags :=
  {| f_c := c; f_p := f_p f; f_a := f_a f; f_z := f_z f; f_s := f_s f; f_o := f_o f |}.

Definition with_overflow (f : flags) (o : bool) : flags :=
  {| f_c := f_c f; f_p := f_p f; f_a := f_a f; f_z := f_z f; f_s := f_s f; f_o := o |}.

Lemma sign_mask_ok sz : SIGN_MASK (bits sz) = 2 ^ (bits sz - 1).
Proof. by destruct sz. Qed.

Lemma s32_bool c : s32 (b2z c) = b2z c.
Proof. by destruct c. Qed.

Lemma fits_succ sz a :
  0 <= a < 2 ^ bits sz ->
  (wrap (bits sz) (a + 1) =? SIGN_MASK (bits sz))
  = negb (fits_signed (bits sz) (sext (bits sz) a + sext (bits sz) 1 + 0)).
Proof.
  intros Ha. rewrite sign_mask_ok, sext_top, (sext_small _ 1) by (destruct sz; simpl in *; lia).
  unfold fits_signed, wrap. assert (2 ^ bits sz = 2 * 2 ^ (bits sz - 1)) as E by (destruct sz; reflexivity).
  assert (128 <= 2 ^ (bits sz - 1)) by (destruct sz; simpl; lia).
  rewrite E in *. set (h := 2 ^ (bits sz - 1)) in *. clearbody h.
  assert ((a + 1) mod (2 * h) = if 2 * h <=? a + 1 then a + 1 - 2 * h else a + 1) as ->.
  { symmetry. zcase; [apply (Z.mod_unique _ _ 1)|apply (Z.mod_unique _ _ 0)]; lia. }
  destruct (Z.leb_spec (2 * h) (a + 1)), (Z.leb_spec h a); repeat zcase; simpl; done || lia.
Qed.

Lemma fits_pred sz a :
  0 <= a < 2 ^ bits sz ->
  (wrap (bits sz) (a - 1) =? SIGN_MASK (bits sz) - 1)
  = negb (fits_signed (bits sz) (sext (bits sz) a - sext (bits sz) 1 - 0)).
Proof.
  intros Ha. rewrite sign_mask_ok, sext_top, (sext_small _ 1) by (destruct sz; simpl in *; lia).
  unfold fits_signed, wrap. assert (2 ^ bits sz = 2 * 2 ^ (bits sz - 1)) as E by (destruct sz; reflexivity).
  assert (128 <= 2 ^ (bits sz - 1)) by (destruct sz; simpl; lia).
  rewrite E in *. set (h := 2 ^ (bits sz - 1)) in *. clearbody h.
  assert ((a - 1) mod (2 * h) = if a <? 1 then a - 1 + 2 * h else a - 1) as ->.
  { symmetry. zcase; [apply (Z.mod_unique _ _ (-1))|apply (Z.mod_unique _ _ 0)]; lia. }
  destruct (Z.ltb_spec a 1), (Z.leb_spec h a); repeat zcase; simpl; done || lia.
Qed.

Lemma one_fits sz : 0 <= 1 < 2 ^ bits sz.
Proof. destruct sz; simpl; lia. Qed.

Lemma inc_ok sz a c :
  0 <= a < 2 ^ bits sz ->
  compute_all_inc (bits sz) (wrap (bits sz) (a + 1)) (b2z c)
  = eflags_of (with_carry (add_flags (bits sz) a 1 0) c).
Proof.
  intros Ha. unfold compute_all_inc, eflags_of, add_flags, with_carry. cbn [f_c f_p f_a f_z f_s f_o].
  rewrite wrap_sub_l. replace (a + 1 - 1) with a by lia. rewrite (wrap_small _ a) by done.
  pose proof (add_aux sz a 1 0 ltac:(lia)) as Haf. rewrite !Z.add_0_r in *.
  rewrite sf_ok, af_ok, Haf, parity_ok, even_parity_wrap, s32_bool, fits_succ by done.
  by rewrite Z.add_0_r.
Qed.

Lemma dec_ok sz a c :
  0 <= a < 2 ^ bits sz ->
  compute_all_dec (bits sz) (wrap (bits sz) (a - 1)) (b2z c)
  = eflags_of (with_carry (sub_flags (bits sz) a 1 0) c).
Proof.
  intros Ha. unfold compute_all_dec, eflags_of, sub_flags, with_carry. cbn [f_c f_p f_a f_z f_s f_o].
  rewrite wrap_add_l. replace (a - 1 + 1) with a by lia. rewrite (wrap_small _ a) by done.
  pose proof (sub_aux sz a 1 0 Ha (one_fits sz) ltac:(lia)) as Haf. rewrite !Z.sub_0_r in *.
  rewrite sf_ok, af_ok, Haf, parity_ok, even_parity_wrap, s32_bool, fits_pred by done.
  by rewrite Z.sub_0_r.
Qed.

Lemma logic_ok sz r src :
  compute_all_logic (bits sz) (wrap (bits sz) r) src = eflags_of (result_flags (bits sz) r false false).
Proof.
  unfold compute_all_logic, eflags_of, result_flags. cbn [f_c f_p f_a f_z f_s f_o].
  by rewrite sf_ok, parity_ok, even_parity_wrap.
Qed.

Lemma carry_out x k : 0 <= k -> (x >> k) &&& CC_C = b2z (Z.testbit x k).
Proof.
  intros Hk. pose proof (mask_bit (x >> k) 0 ltac:(lia)) as E. change (2 ^ 0) with CC_C in E.
  rewrite E, Z.shiftr_spec by lia. rewrite Z.add_0_l. apply Z.mul_1_r.
Qed.

Lemma shl_ok sz r s :
  compute_all_shl (bits sz) (wrap (bits sz) r) (wrap (bits sz) s)
  = eflags_of (result_flags (bits sz) r (Z.testbit s (bits sz - 1))
                 (xorb (Z.testbit s (bits sz - 1)) (Z.testbit r (bits sz - 1)))).
Proof.
  pose proof (bits_pos sz). unfold compute_all_shl, eflags_of, result_flags. cbn [f_c f_p f_a f_z f_s f_o].
  rewrite sf_ok, of_ok, parity_ok, even_parity_wrap, carry_out, Z.lxor_spec, !testbit_wrap by lia.
  rewrite (proj2 (Z.ltb_lt _ _)) by lia. done.
Qed.

Lemma sar_ok sz r s :
  compute_all_sar (bits sz) (wrap (bits sz) r) (wrap (bits sz) s)
  = eflags_of (result_flags (bits sz) r (Z.testbit s 0)
                 (xorb (Z.testbit s (bits sz - 1)) (Z.testbit r (bits sz - 1)))).
Proof.
  pose proof (bits_pos sz). unfold compute_all_sar, eflags_of, result_flags. cbn [f_c f_p f_a f_z f_s f_o].
  pose proof (carry_out (wrap (bits sz) s) 0 ltac:(lia)) as Ec. change (_ >> 0) with (wrap (bits sz) s) in Ec.
  change CC_C with 1 in Ec.
  rewrite sf_ok, of_ok, parity_ok, even_parity_wrap, Ec, Z.lxor_spec, !testbit_wrap by lia.
  rewrite !(proj2 (Z.ltb_lt _ _)) by lia. done.
Qed.

Lemma mul_ok sz r s o :
  (s = 0 <-> o = false) ->
  compute_all_mul (bits sz) (wrap (bits sz) r) s = eflags_of (result_flags (bits sz) r o o).
Proof.
  intros Ho. unfold compute_all_mul, eflags_of, result_flags. cbn [f_c f_p f_a f_z f_s f_o].
  rewrite sf_ok, parity_ok, even_parity_wrap.
  assert (negb (s =? 0) = o) as ->; [|done]. destruct (Z.eqb_spec s 0), o; simpl; intuition congruence.
Qed.

Lemma bmilg_ok sz r s :
  compute_all_bmilg (bits sz) (wrap (bits sz) r) (wrap (bits sz) s)
  = eflags_of {| f_c := wrap (bits sz) s =? 0; f_p := false; f_a := false; f_z := wrap (bits sz) r =? 0;
                 f_s := Z.testbit r (bits sz - 1); f_o := false |}.
Proof. unfold compute_all_bmilg, eflags_of. cbn [f_c f_p f_a f_z f_s f_o]. by rewrite sf_ok. Qed.

Lemma eflags_u64 f : u64 (eflags_of f) = eflags_of f.
Proof. by destruct f as [[] [] [] [] [] []]. Qed.

Lemma eflags_carry f : eflags_of f &&& 1 = b2z (f_c f).
Proof. by destruct f as [[] [] [] [] [] []]. Qed.

(** ** What instructions leave for the helpers *)

(** [leaves op dst src src2 f]: [CC_DST], [CC_SRC] and [CC_SRC2] after an
    instruction of kind [op] with the flags [f].  Bits of the first two beyond
    the operand size do not matter.  A shift leaves the value before its last
    step; [a] is shifted by [n].  [CC_OP_CLR] stands for the exclusive or of a
    register with itself, so its flags are those of the logical result 0: zero
    and also even parity.  The processor leaves some flags undefined, as
    comments in src/target-i386/cc_helper_template.h say: the auxiliary carry
    of shifts and products, the overflow of shifts by more than one, the
    parity and the auxiliary carry of [CC_OP_BMILG].  For these the rules have
    the values the code has chosen, no demand of the processor. *)
Inductive leaves : CCOp -> Z -> Z -> Z -> flags -> Prop :=
| leaves_add sz a b dst src src2 :
    0 <= a < 2 ^ bits sz -> 0 <= b < 2 ^ bits sz ->
    wrap (bits sz) dst = wrap (bits sz) (a + b) -> wrap (bits sz) src = a ->
    leaves (CC_OP_ADD sz) dst src src2 (add_flags (bits sz) a b 0)
| leaves_adc sz a b c dst src :
    0 <= a < 2 ^ bits sz -> 0 <= b < 2 ^ bits sz ->
    wrap (bits sz) dst = wrap (bits sz) (a + b + b2z c) -> wrap (bits sz) src = a ->
    leaves (CC_OP_ADC sz) dst src (b2z c) (add_flags (bits sz) a b (b2z c))
| leaves_sub sz a b dst src src2 :
    0 <= a < 2 ^ bits sz -> 0 <= b < 2 ^ bits sz ->
    wrap (bits sz) dst = wrap (bits sz) (a - b) -> wrap (bits sz) src = b ->
    leaves (CC_OP_SUB sz) dst src src2 (sub_flags (bits sz) a b 0)
| leaves_sbb sz a b c dst src :
    0 <= a < 2 ^ bits sz -> 0 <= b < 2 ^ bits sz ->
    wrap (bits sz) dst = wrap (bits sz) (a - b - b2z c) -> wrap (bits sz) src = b ->
    leaves (CC_OP_SBB sz) dst src (b2z c) (sub_flags (bits sz) a b (b2z c))
| leaves_logic sz r src src2 :
    leaves (CC_OP_LOGIC sz) r src src2 (result_flags (bits sz) r false false)
| leaves_inc sz a c dst src2 :
    0 <= a < 2 ^ bits sz -> wrap (bits sz) dst = wrap (bits sz) (a + 1) ->
    leaves (CC_OP_INC sz) dst (b2z c) src2 (with_carry (add_flags (bits sz) a 1 0) c)
| leaves_dec sz a c dst src2 :
    0 <= a < 2 ^ bits sz -> wrap (bits sz) dst = wrap (bits sz) (a - 1) ->
    leaves (CC_OP_DEC sz) dst (b2z c) src2 (with_carry (sub_flags (bits sz) a 1 0) c)
| leaves_shl sz a n src2 :
    1 <= n -> let c := Z.testbit a (bits sz - n) in
    leaves (CC_OP_SHL sz) (u64 (a << n)) (u64 (a << (n - 1))) src2
      (result_flags (bits sz) (a << n) c (xorb c (Z.testbit (a << n) (bits sz - 1))))
| leaves_shr sz a n src2 :
    0 <= a < 2 ^ bits sz -> 1 <= n ->
    leaves (CC_OP_SAR sz) (a >> n) (a >> (n - 1)) src2
      (result_flags (bits sz) (a >> n) (Z.testbit a (n - 1)) ((n =? 1) && Z.testbit a (bits sz - 1)))
| leaves_sar sz a n src2 :
    - 2 ^ (bits sz - 1) <= a < 2 ^ (bits sz - 1) -> 1 <= n ->
    leaves (CC_OP_SAR sz) (u64 (a >> n)) (u64 (a >> (n - 1))) src2
      (result_flags (bits sz) (a >> n) (Z.testbit a (n - 1)) false)
| leaves_mul sz r src src2 o :
    0 <= src < 2 ^ 64 -> (src = 0 <-> o = false) ->
    leaves (CC_OP_MUL sz) r src src2 (result_flags (bits sz) r o o)
| leaves_bmilg sz r src src2 :
    leaves (CC_OP_BMILG sz) r src src2
      {| f_c := wrap (bits sz) src =? 0; f_p := false; f_a := false; f_z := wrap (bits sz) r =? 0;
         f_s := Z.testbit r (bits sz - 1); f_o := false |}
| leaves_adcx f c src2 : leaves CC_OP_ADCX (b2z c) (eflags_of f) src2 (with_carry f c)
| leaves_adox f o dst : leaves CC_OP_ADOX dst (eflags_of f) (b2z o) (with_overflow f o)
| leaves_adcox f c o : leaves CC_OP_ADCOX (b2z c) (eflags_of f) (b2z o) (with_overflow (with_carry f c) o)
| leaves_eflags f dst src2 : leaves CC_OP_EFLAGS dst (eflags_of f) src2 f
| leaves_clr dst src src2 :
    leaves CC_OP_CLR dst src src2 (result_flags 64 0 false false).

(** Shifts to the right: the sign before and after the last step. *)
Lemma shr_sign sz a n :
  0 <= a < 2 ^ bits sz -> 1 <= n ->
  xorb (Z.testbit (a >> (n - 1)) (bits sz - 1)) (Z.testbit (a >> n) (bits sz - 1))
  = (n =? 1) && Z.testbit a (bits sz - 1).
Proof.
  intros Ha Hn. pose proof (bits_pos sz). rewrite !Z.shiftr_spec by lia.
  rewrite (testbit_high (bits sz) a (bits sz - 1 + n)) by lia. rewrite xorb_false_r.
  destruct (Z.eqb_spec n 1) as [->|Hne]; simpl; [f_equal; lia|].
  by rewrite (testbit_high (bits sz)) by lia.
Qed.

Lemma signed_high w a i :
  0 < w -> - 2 ^ (w - 1) <= a < 2 ^ (w - 1) -> w - 1 <= i -> Z.testbit a i = (a <? 0).
Proof.
  intros Hw Ha Hi. destruct (Z.ltb_spec a 0).
  - rewrite <- (Z.lnot_involutive a), Z.lnot_spec by lia.
    rewrite (testbit_high (w - 1)); [done|unfold Z.lnot; lia|lia].
  - apply (testbit_high (w - 1)); lia.
Qed.

Lemma sar_sign sz a n :
  - 2 ^ (bits sz - 1) <= a < 2 ^ (bits sz - 1) -> 1 <= n ->
  xorb (Z.testbit (a >> (n - 1)) (bits sz - 1)) (Z.testbit (a >> n) (bits sz - 1)) = false.
Proof.
  intros Ha Hn. pose proof (bits_pos sz). rewrite !Z.shiftr_spec by lia.
  rewrite !(signed_high (bits sz) a) by lia. apply xorb_nilpotent.
Qed.

Lemma add_c_ok sz a b :
  0 <= a < 2 ^ bits sz -> 0 <= b < 2 ^ bits sz ->
  compute_c_add (wrap (bits sz) (a + b)) a = b2z (2 ^ bits sz <=? a + b + 0).
Proof.
  intros Ha Hb. pose proof (add_carry sz a b 0 Ha Hb ltac:(lia)) as E. cbn [Z.eqb negb] in E.
  by rewrite Z.add_0_r in *.
Qed.

Lemma sub_c_ok sz a b :
  0 <= a < 2 ^ bits sz -> 0 <= b < 2 ^ bits sz ->
  compute_c_sub (bits sz) (wrap (bits sz) (a - b)) b = b2z (a <? b + 0).
Proof.
  intros Ha Hb. unfold compute_c_sub. pose proof (sub_operand sz a b 0 Ha) as E.
  rewrite Z.sub_0_r, Z.add_0_r in E. rewrite E. by rewrite Z.add_0_r.
Qed.

Lemma wrap_b2z sz c : wrap (bits sz) (b2z c) = b2z c.
Proof. destruct sz, c; reflexivity. Qed.

Lemma wrap_u64 sz x : wrap (bits sz) (u64 x) = wrap (bits sz) x.
Proof. unfold wrap. apply Z.mod_mod_divide. exists (2 ^ (64 - bits sz)). by destruct sz. Qed.

Lemma low_bit x : x &&& 1 = b2z (Z.testbit x 0).
Proof. exact (carry_out x 0 ltac:(lia)). Qed.

Lemma low_bit_shr x n : 1 <= n -> (x >> (n - 1)) &&& 1 = b2z (Z.testbit x (n - 1)).
Proof. intros Hn. exact (carry_out x (n - 1) ltac:(lia)). Qed.

Lemma compute_all_ok op dst src src2 f :
  leaves op dst src src2 f -> helper_cc_compute_all dst src src2 op = eflags_of f.
Proof.
  intros H.
  destruct H as [sz a b dst src src2 Ha Hb Hd Hs|sz a b c dst src Ha Hb Hd Hs|sz a b dst src src2 Ha Hb Hd Hs
    |sz a b c dst src Ha Hb Hd Hs|sz r src src2|sz a c dst src2 Ha Hd|sz a c dst src2 Ha Hd|sz a n src2 Hn c
    |sz a n src2 Ha Hn|sz a n src2 Ha Hn|sz r src src2 o Hsrc Ho|sz r src src2|f c src2|f o dst|f c o
    |f dst src2|dst src src2]; cbn [helper_cc_compute_all].
  - rewrite Hd, Hs, add_as_adc. rewrite <- (Z.add_0_r (a + b)), adc_ok by lia. apply eflags_u64.
  - rewrite Hd, Hs, wrap_b2z, adc_ok by (done || by destruct c). apply eflags_u64.
  - rewrite Hd, Hs, sub_as_sbb. rewrite <- (Z.sub_0_r (a - b)), sbb_ok by lia. apply eflags_u64.
  - rewrite Hd, Hs, wrap_b2z, sbb_ok by (done || by destruct c). apply eflags_u64.
  - rewrite logic_ok. apply eflags_u64.
  - rewrite Hd, wrap_b2z, inc_ok by done. apply eflags_u64.
  - rewrite Hd, wrap_b2z, dec_ok by done. apply eflags_u64.
  - rewrite !wrap_u64, shl_ok, eflags_u64. pose proof (bits_pos sz). rewrite (Z.shiftl_spec a (n - 1)) by lia.
    replace (bits sz - 1 - (n - 1)) with (bits sz - n) by lia. done.
  - rewrite sar_ok, shr_sign, Z.shiftr_spec by lia. apply eflags_u64.
  - rewrite !wrap_u64, sar_ok, sar_sign, Z.shiftr_spec by lia. apply eflags_u64.
  - rewrite (mul_ok sz r (s64 src) o); [apply eflags_u64|]. rewrite <- Ho. unfold sext.
    rewrite wrap_small by done. zcase; lia.
  - rewrite bmilg_ok. apply eflags_u64.
  - by destruct f as [[] [] [] [] [] []], c.
  - by destruct f as [[] [] [] [] [] []], o.
  - by destruct f as [[] [] [] [] [] []], c, o.
  - done.
  - done.
Qed.

Lemma compute_c_ok op dst src src2 f :
  leaves op dst src src2 f -> helper_cc_compute_c dst src src2 op = b2z (f_c f).
Proof.
  intros H.
  destruct H as [sz a b dst src src2 Ha Hb Hd Hs|sz a b c dst src Ha Hb Hd Hs|sz a b dst src src2 Ha Hb Hd Hs
    |sz a b c dst src Ha Hb Hd Hs|sz r src src2|sz a c dst src2 Ha Hd|sz a c dst src2 Ha Hd|sz a n src2 Hn c
    |sz a n src2 Ha Hn|sz a n src2 Ha Hn|sz r src src2 o Hsrc Ho|sz r src src2|f c src2|f o dst|f c o
    |f dst src2|dst src src2]; cbn [helper_cc_compute_c add_flags sub_flags result_flags with_carry f_c]; try done.
  - by rewrite Hd, Hs, add_c_ok.
  - rewrite Hd, Hs, wrap_b2z. apply (add_carry sz a b (b2z c)); [done..|by destruct c].
  - by rewrite Hd, Hs, sub_c_ok.
  - rewrite Hd, Hs, wrap_b2z. unfold compute_c_sbb. rewrite sub_operand by (done || by destruct c).
    apply (sub_carry sz a b (b2z c)); done || by destruct c.
  - pose proof (bits_pos sz). unfold compute_c_shl. rewrite wrap_u64, carry_out, testbit_wrap by lia.
    rewrite (proj2 (Z.ltb_lt _ _)), Z.shiftl_spec by lia.
    by replace (bits sz - 1 - (n - 1)) with (bits sz - n) by lia.
  - by apply low_bit_shr.
  - rewrite low_bit, testbit_wrap, Z.shiftr_spec by lia. done.
  - destruct (Z.eqb_spec src 0), o; simpl; intuition congruence.
  - rewrite eflags_carry. done.
  - apply eflags_carry.
Qed.

(** C14: whatever instruction left its operands for the helpers, the computed
    flags register has exactly the flags of the instruction: the carry out,
    the signed overflow, the carry out of bit 3, zero, sign and the parity of
    the low byte, for sums and differences with and without carry, logic,
    increments, shifts and products of every operand size; and the helper that
    computes only the carry gives the same carry.  A cleared register has zero
    and parity set, although a comment in src/target-i386/cpu.h says that all
    flags but zero are clear.  Flags the processor leaves undefined are those
    the code has chosen, as said above [leaves]. *)
Theorem cc_compute_correct op dst src src2 f :
  leaves op dst src src2 f ->
  helper_cc_compute_all dst src src2 op = eflags_of f
  /\ helper_cc_compute_c dst src src2 op = b2z (f_c f).
Proof. intros H. split; [by apply compute_all_ok|by apply compute_c_ok]. Qed.

(** The subtraction of 1 from the least 32-bit number, with rubbish above bit
    31, and an addition with carry of bytes. *)
Lemma cc_compute_correct_witness :
  helper_cc_compute_all 0xabc7fffffff 0x500000001 0 (CC_OP_SUB L) = 0x814
  /\ helper_cc_compute_c 0x00 0xff 1 (CC_OP_ADC B) = 1.
Proof.
  split.
  - rewrite (proj1 (cc_compute_correct _ _ _ _ _
      (leaves_sub L 0x80000000 1 0xabc7fffffff 0x500000001 0 ltac:(vm_compute; intuition congruence)
         ltac:(vm_compute; intuition congruence) eq_refl eq_refl))). reflexivity.
  - exact (proj2 (cc_compute_correct _ _ _ _ _
      (leaves_adc B 0xff 0 true 0x00 0xff ltac:(vm_compute; intuition congruence)
         ltac:(vm_compute; intuition congruence) eq_refl eq_refl))).
Defined.

(** ** Reading and writing the flags register *)

Definition DF_MASK : Z := 0x400.
Definition IF_MASK : Z := 0x200.
Definition RF_MASK : Z := 0x10000.
Definition VM_MASK : Z := 0x20000.
Definition AC_MASK : Z := 0x40000.
Definition CR0_TS_MASK : Z := 1 << 3.
Definition HF_TS_MASK : Z := 1 << 11.
Definition HF_INHIBIT_IRQ_MASK : Z := 1 << 3.

(** The part of the processor's state that the helpers use. *)
Record CPUX86State := {
  R_EAX : Z;
  R_EDX : Z;
  CC_DST : Z;
  CC_SRC : Z;
  CC_SRC2 : Z;
  CC_OP : CCOp;
  df : Z;
  eflags : Z;
  hflags : Z;
  cr0 : Z;
}.

Definition set_cc (env : CPUX86State) (src : Z) (op : CCOp) (d fl : Z) : CPUX86State :=
  {| R_EAX := R_EAX env; R_EDX := R_EDX env; CC_DST := CC_DST env; CC_SRC := src; CC_SRC2 := CC_SRC2 env;
     CC_OP := op; df := d; eflags := fl; hflags := hflags env; cr0 := cr0 env |}.

Definition set_eflags (env : CPUX86State) (fl : Z) : CPUX86State :=
  set_cc env (CC_SRC env) (CC_OP env) (df env) fl.

Definition set_hflags (env : CPUX86State) (h c : Z) : CPUX86State :=
  {| R_EAX := R_EAX env; R_EDX := R_EDX env; CC_DST := CC_DST env; CC_SRC := CC_SRC env;
     CC_SRC2 := CC_SRC2 env; CC_OP := CC_OP env; df := df env; eflags := eflags env;
     hflags := h; cr0 := c |}.

Definition cpu_cc_compute_all (env : CPUX86State) (op : CCOp) : Z :=
  u32 (helper_cc_compute_all (CC_DST env) (CC_SRC env) (CC_SRC2 env) op).

Definition cpu_compute_eflags (env : CPUX86State) : Z :=
  u32 (eflags env ||| cpu_cc_compute_all env (CC_OP env) ||| (df env &&& DF_MASK)).

(** The arguments are [int]. *)
Definition cpu_load_eflags (env : CPUX86State) (fl update_mask : Z) : CPUX86State :=
  set_cc env (fl &&& (CC_O ||| CC_S ||| CC_Z ||| CC_A ||| CC_P ||| CC_C)) CC_OP_EFLAGS
    (1 - 2 * ((fl >> 10) &&& 1))
    (u64 ((eflags env &&& Z.lnot update_mask) ||| (fl &&& update_mask) ||| 0x2)).

Definition helper_write_eflags (env : CPUX86State) (t0 update_mask : Z) : CPUX86State :=
  cpu_load_eflags env (s32 t0) (s32 update_mask).

Definition helper_read_eflags (env : CPUX86State) : Z :=
  let fl := cpu_cc_compute_all env (CC_OP env) in
  let fl := fl ||| (df env &&& DF_MASK) in
  u32 (fl ||| (eflags env &&& Z.lnot (VM_MASK ||| RF_MASK))).

(** [CR0_TS_MASK] is an unsigned [int]: its complement has 32 bits. *)
Definition helper_clts (env : CPUX86State) : CPUX86State :=
  set_hflags env (hflags env &&& Z.lnot HF_TS_MASK) (cr0 env &&& u32 (Z.lnot CR0_TS_MASK)).

Definition helper_reset_rf (env : CPUX86State) : CPUX86State :=
  set_eflags env (eflags env &&& Z.lnot RF_MASK).

Definition helper_cli (env : CPUX86State) : CPUX86State := set_eflags env (eflags env &&& Z.lnot IF_MASK).
Definition helper_sti (env : CPUX86State) : CPUX86State := set_eflags env (eflags env ||| IF_MASK).
Definition helper_clac (env : CPUX86State) : CPUX86State := set_eflags env (eflags env &&& Z.lnot AC_MASK).
Definition helper_stac (env : CPUX86State) : CPUX86State := set_eflags env (eflags env ||| AC_MASK).

Definition helper_set_inhibit_irq (env : CPUX86State) : CPUX86State :=
  set_hflags env (hflags env ||| HF_INHIBIT_IRQ_MASK) (cr0 env).

Definition helper_reset_inhibit_irq (env : CPUX86State) : CPUX86State :=
  set_hflags env (hflags env &&& Z.lnot HF_INHIBIT_IRQ_MASK) (cr0 env).

(** The flags that are kept outside of [eflags]. *)
Definition lazy_mask : Z := CC_O ||| DF_MASK ||| CC_S ||| CC_Z ||| CC_A ||| CC_P ||| CC_C.

Lemma testbit_s32 x k : 0 <= k < 32 -> Z.testbit (s32 x) k = Z.testbit x k.
Proof.
  intros Hk. assert (Z.testbit (u32 (s32 x)) k = Z.testbit (u32 x) k) as E by (by rewrite wrap_sext by lia).
  rewrite !testbit_wrap in E by lia. destruct (Z.ltb_spec k 32); [done|lia].
Qed.

Lemma df_mask_ok x : (1 - 2 * (x &&& 1)) &&& DF_MASK = b2z (Z.testbit x 0) * DF_MASK.
Proof. rewrite low_bit. by destruct (Z.testbit x 0). Qed.

(** The flags register reads back as it was written: the condition codes and
    the direction flag are those written, the bits of the mask too, the others
    are kept, bit 1 is set, and the virtual-8086 and resume flags read as 0. *)
Lemma eflags_roundtrip env t0 mask i :
  0 <= i -> 0 <= mask < 2 ^ 32 ->
  Z.testbit (helper_read_eflags (helper_write_eflags env t0 mask)) i
  = (i <? 32)
    && ((Z.testbit lazy_mask i && Z.testbit t0 i)
        || (negb (Z.testbit (VM_MASK ||| RF_MASK) i)
            && ((if Z.testbit mask i then Z.testbit t0 i else Z.testbit (eflags env) i) || (i =? 1)))).
Proof.
  intros Hi Hm. unfold helper_read_eflags, helper_write_eflags, cpu_load_eflags, cpu_cc_compute_all.
  cbn [set_cc CC_OP CC_SRC CC_DST CC_SRC2 df eflags helper_cc_compute_all].
  rewrite testbit_wrap by lia. destruct (Z.ltb_spec i 32) as [H32|]; [|done]. cbn [andb].
  rewrite df_mask_ok, Z.shiftr_spec by lia. rewrite Z.add_0_l, !Z.lor_spec, Z.land_spec.
  rewrite !testbit_wrap, !Z.lor_spec, !Z.land_spec, !Z.lnot_spec, !testbit_s32 by lia.
  rewrite (proj2 (Z.ltb_lt i 32)), (proj2 (Z.ltb_lt i 64)) by lia. cbn [andb].
  assert (Z.testbit 2 i = (i =? 1)) as ->.
  { change 2 with (2 ^ 1). rewrite Z.pow2_bits_eqb by lia. apply Z.eqb_sym. }
  destruct (Z.eqb_spec i 10) as [->|Hne].
  - destruct (Z.testbit t0 10), (Z.testbit mask 10), (Z.testbit (eflags env) 10); reflexivity.
  - assert (Z.testbit (b2z (Z.testbit t0 10) * DF_MASK) i = false) as ->.
    { destruct (Z.testbit t0 10); cbn [b2z]; [|by rewrite Z.mul_0_l, Z.testbit_0_l].
      rewrite Z.mul_1_l. change DF_MASK with (2 ^ 10). apply Z.pow2_bits_false. lia. }
    assert (Z.testbit lazy_mask i = Z.testbit (CC_O ||| CC_S ||| CC_Z ||| CC_A ||| CC_P ||| CC_C) i) as ->.
    { change lazy_mask with ((CC_O ||| CC_S ||| CC_Z ||| CC_A ||| CC_P ||| CC_C) ||| 2 ^ 10).
      rewrite Z.lor_spec, (Z.pow2_bits_false 10 i) by lia. apply orb_false_r. }
    rewrite <- Z.lor_spec.
    destruct (Z.testbit (CC_O ||| CC_S ||| CC_Z ||| CC_A ||| CC_P ||| CC_C) i), (Z.testbit t0 i), (Z.testbit mask i),
      (Z.testbit (eflags env) i), (i =? 1), (Z.testbit (VM_MASK ||| RF_MASK) i); reflexivity.
Qed.
