(* ===== verification/X86Int.v ===== *)
(** * Integer helpers of the x86

    Model of [src/target-i386/int_helper.c] and of the template for rotations
    through the carry: divisions, decimal adjustments, bit deposit and extract.

    Shown here: a division raises the divide error exactly when the divisor is
    zero or the quotient does not fit, and otherwise leaves quotient and
    remainder in the registers, with the exception of three signed divisions
    whose C code is undefined; the decimal adjustments after an addition or a
    subtraction of decimal digits give the decimal result and its carry; the
    rotations rotate the operand extended by the carry flag; and bit extract
    undoes bit deposit.

    An exception leaves the helper by a long jump: it is a result here. *)

From S2P Require Import Prelude HostUtils X86Flags.

Abbreviation s8 := (sext 8).
Abbreviation s16 := (sext 16).

Definition EXCP00_DIVZ : Z := 0.

Inductive exec :=
| Done (env : CPUX86State)
| Exception (intno : Z)
| Undefined.

Definition set_regs (env : CPUX86State) (eax edx : Z) : CPUX86State :=
  {| R_EAX := eax; R_EDX := edx; CC_DST := CC_DST env; CC_SRC := CC_SRC env; CC_SRC2 := CC_SRC2 env;
     CC_OP := CC_OP env; df := df env; eflags := eflags env; hflags := hflags env; cr0 := cr0 env |}.

Definition set_cc_dst (env : CPUX86State) (dst : Z) : CPUX86State :=
  {| R_EAX := R_EAX env; R_EDX := R_EDX env; CC_DST := dst; CC_SRC := CC_SRC env; CC_SRC2 := CC_SRC2 env;
     CC_OP := CC_OP env; df := df env; eflags := eflags env; hflags := hflags env; cr0 := cr0 env |}.

Definition set_cc_src (env : CPUX86State) (src : Z) : CPUX86State :=
  set_cc env src (CC_OP env) (df env) (eflags env).

(** ** Division *)

Definition helper_divb_AL (env : CPUX86State) (t0 : Z) : exec :=
  let num := R_EAX env &&& 0xffff in
  let den := t0 &&& 0xff in
  if den =? 0 then Exception EXCP00_DIVZ
  else
    let q := num / den in
    if 0xff <? q then Exception EXCP00_DIVZ
    else
      let q := q &&& 0xff in
      let r := (num mod den) &&& 0xff in
      Done (set_regs env ((R_EAX env &&& Z.lnot 0xffff) ||| (r << 8) ||| q) (R_EDX env)).

Definition helper_idivb_AL (env : CPUX86State) (t0 : Z) : exec :=
  let num := s16 (R_EAX env) in
  let den := s8 t0 in
  if den =? 0 then Exception EXCP00_DIVZ
  else
    let q := Z.quot num den in
    if negb (q =? s8 q) then Exception EXCP00_DIVZ
    else
      let q := q &&& 0xff in
      let r := Z.rem num den &&& 0xff in
      Done (set_regs env ((R_EAX env &&& Z.lnot 0xffff) ||| (r << 8) ||| q) (R_EDX env)).

Definition helper_divw_AX (env : CPUX86State) (t0 : Z) : exec :=
  let num := u32 ((R_EAX env &&& 0xffff) ||| ((R_EDX env &&& 0xffff) << 16)) in
  let den := t0 &&& 0xffff in
  if den =? 0 then Exception EXCP00_DIVZ
  else
    let q := num / den in
    if 0xffff <? q then Exception EXCP00_DIVZ
    else
      let q := q &&& 0xffff in
      let r := (num mod den) &&& 0xffff in
      Done (set_regs env ((R_EAX env &&& Z.lnot 0xffff) ||| q) ((R_EDX env &&& Z.lnot 0xffff) ||| r)).

(** The quotient of the least [int] and -1 is not an [int]. *)
Definition helper_idivw_AX (env : CPUX86State) (t0 : Z) : exec :=
  let num := s32 ((R_EAX env &&& 0xffff) ||| ((R_EDX env &&& 0xffff) << 16)) in
  let den := s16 t0 in
  if den =? 0 then Exception EXCP00_DIVZ
  else if (num =? - 2 ^ 31) && (den =? -1) then Undefined
  else
    let q := Z.quot num den in
    if negb (q =? s16 q) then Exception EXCP00_DIVZ
    else
      let q := q &&& 0xffff in
      let r := Z.rem num den &&& 0xffff in
      Done (set_regs env ((R_EAX env &&& Z.lnot 0xffff) ||| q) ((R_EDX env &&& Z.lnot 0xffff) ||| r)).

Definition helper_divl_EAX (env : CPUX86State) (t0 : Z) : exec :=
  let num := u32 (R_EAX env) ||| (u32 (R_EDX env) << 32) in
  let den := u32 t0 in
  if den =? 0 then Exception EXCP00_DIVZ
  else
    let q := num / den in
    let r := u32 (num mod den) in
    if 0xffffffff <? q then Exception EXCP00_DIVZ
    else Done (set_regs env (u32 q) (u32 r)).

Definition helper_idivl_EAX (env : CPUX86State) (t0 : Z) : exec :=
  let num := s64 (u32 (R_EAX env) ||| (u32 (R_EDX env) << 32)) in
  let den := s32 t0 in
  if den =? 0 then Exception EXCP00_DIVZ
  else if (num =? - 2 ^ 63) && (den =? -1) then Undefined
  else
    let q := Z.quot num den in
    let r := s32 (Z.rem num den) in
    if negb (q =? s32 q) then Exception EXCP00_DIVZ
    else Done (set_regs env (u32 q) (u32 r)).

Definition add128 (plow phigh a b : Z) : Z * Z :=
  let plow := u64 (plow + a) in
  let phigh := if plow <? a then u64 (phigh + 1) else phigh in
  (plow, u64 (phigh + b)).

Definition neg128 (plow phigh : Z) : Z * Z :=
  add128 (u64 (Z.lnot plow)) (u64 (Z.lnot phigh)) 1 0.

(** An iteration of the loop of [div64]. *)
Definition div64_step (b : Z) (a : Z * Z) : Z * Z :=
  let '(a0, a1) := a in
  let ab := a1 >> 63 in
  let a1 := u64 (a1 << 1) ||| (a0 >> 63) in
  let '(a1, qb) := if negb (ab =? 0) || (b <=? a1) then (u64 (a1 - b), 1) else (a1, 0) in
  (u64 (a0 << 1) ||| qb, a1).

(** The code that is returned, [*plow] and [*phigh]. *)
Definition div64 (plow phigh b : Z) : Z * (Z * Z) :=
  let a0 := plow in
  let a1 := phigh in
  if a1 =? 0 then (0, (a0 / b, a0 mod b))
  else if b <=? a1 then (1, (plow, phigh))
  else (0, Nat.iter 64 (div64_step b) (a0, a1)).

(** The code, [*plow] and [*phigh], or nothing where [-b] is not an [int64_t]. *)
Definition idiv64 (plow phigh b : Z) : option (Z * (Z * Z)) :=
  let sa := s64 phigh <? 0 in
  let '(plow, phigh) := if sa then neg128 plow phigh else (plow, phigh) in
  let sb := b <? 0 in
  if b =? - 2 ^ 63 then None
  else
    let b := if sb then - b else b in
    let '(overflow, (plow, phigh)) := div64 plow phigh (u64 b) in
    Some
      (if negb (overflow =? 0) then (1, (plow, phigh))
       else if xorb sa sb then
         if 1 << 63 <? plow then (1, (plow, phigh))
         else (0, (u64 (- plow), if sa then u64 (- phigh) else phigh))
       else if 1 << 63 <=? plow then (1, (plow, phigh))
       else (0, (plow, if sa then u64 (- phigh) else phigh))).

Definition helper_divq_EAX (env : CPUX86State) (t0 : Z) : exec :=
  if t0 =? 0 then Exception EXCP00_DIVZ
  else
    let '(overflow, (r0, r1)) := div64 (R_EAX env) (R_EDX env) t0 in
    if negb (overflow =? 0) then Exception EXCP00_DIVZ
    else Done (set_regs env r0 r1).

Definition helper_idivq_EAX (env : CPUX86State) (t0 : Z) : exec :=
  if t0 =? 0 then Exception EXCP00_DIVZ
  else
    match idiv64 (R_EAX env) (R_EDX env) (s64 t0) with
    | None => Undefined
    | Some (overflow, (r0, r1)) =>
      if negb (overflow =? 0) then Exception EXCP00_DIVZ
      else Done (set_regs env r0 r1)
    end.

(** ** Decimal adjustments *)

(** The translator does not emit the helper with base 0, a division by zero. *)
Definition helper_aam (env : CPUX86State) (base : Z) : exec :=
  let al := R_EAX env &&& 0xff in
  if base =? 0 then Undefined
  else
    let ah := Z.quot al base in
    let al := Z.rem al base in
    Done (set_cc_dst (set_regs env ((R_EAX env &&& Z.lnot 0xffff) ||| al ||| (ah << 8)) (R_EDX env)) al).

Definition helper_aad (env : CPUX86State) (base : Z) : CPUX86State :=
  let al := R_EAX env &&& 0xff in
  let ah := (R_EAX env >> 8) &&& 0xff in
  let al := (ah * base + al) &&& 0xff in
  set_cc_dst (set_regs env ((R_EAX env &&& Z.lnot 0xffff) ||| al) (R_EDX env)) al.

Definition helper_aaa (env : CPUX86State) : CPUX86State :=
  let eflags := cpu_cc_compute_all env (CC_OP env) in
  let af := eflags &&& CC_A in
  let al := R_EAX env &&& 0xff in
  let ah := (R_EAX env >> 8) &&& 0xff in
  let icarry := b2z (0xf9 <? al) in
  let '(al, ah, eflags) :=
    if (9 <? (al &&& 0x0f)) || negb (af =? 0)
    then ((al + 6) &&& 0x0f, (ah + 1 + icarry) &&& 0xff, eflags ||| (CC_C ||| CC_A))
    else (al &&& 0x0f, ah, eflags &&& Z.lnot (CC_C ||| CC_A)) in
  set_cc_src (set_regs env ((R_EAX env &&& Z.lnot 0xffff) ||| al ||| (ah << 8)) (R_EDX env)) eflags.

Definition helper_aas (env : CPUX86State) : CPUX86State :=
  let eflags := cpu_cc_compute_all env (CC_OP env) in
  let af := eflags &&& CC_A in
  let al := R_EAX env &&& 0xff in
  let ah := (R_EAX env >> 8) &&& 0xff in
  let icarry := b2z (al <? 6) in
  let '(al, ah, eflags) :=
    if (9 <? (al &&& 0x0f)) || negb (af =? 0)
    then ((al - 6) &&& 0x0f, (ah - 1 - icarry) &&& 0xff, eflags ||| (CC_C ||| CC_A))
    else (al &&& 0x0f, ah, eflags &&& Z.lnot (CC_C ||| CC_A)) in
  set_cc_src (set_regs env ((R_EAX env &&& Z.lnot 0xffff) ||| al ||| (ah << 8)) (R_EDX env)) eflags.

(** The flags that both adjustments compute by hand. *)
Definition decimal_flags (eflags al : Z) : Z :=
  eflags ||| (b2z (al =? 0) << 6) ||| parity_at al ||| (al &&& 0x80).

Definition helper_daa (env : CPUX86State) : CPUX86State :=
  let eflags := cpu_cc_compute_all env (CC_OP env) in
  let cf := eflags &&& CC_C in
  let af := eflags &&& CC_A in
  let al := R_EAX env &&& 0xff in
  let old_al := al in
  let eflags := 0 in
  let '(al, eflags) :=
    if (9 <? (al &&& 0x0f)) || negb (af =? 0) then ((al + 6) &&& 0xff, eflags ||| CC_A) else (al, eflags) in
  let '(al, eflags) :=
    if (0x99 <? old_al) || negb (cf =? 0) then ((al + 0x60) &&& 0xff, eflags ||| CC_C) else (al, eflags) in
  set_cc_src (set_regs env ((R_EAX env &&& Z.lnot 0xff) ||| al) (R_EDX env)) (decimal_flags eflags al).

Definition helper_das (env : CPUX86State) : CPUX86State :=
  let eflags := cpu_cc_compute_all env (CC_OP env) in
  let cf := eflags &&& CC_C in
  let af := eflags &&& CC_A in
  let al := R_EAX env &&& 0xff in
  let eflags := 0 in
  let al1 := al in
  let '(al, eflags) :=
    if (9 <? (al &&& 0x0f)) || negb (af =? 0) then
      let eflags := eflags ||| CC_A in
      let eflags := if (al <? 6) || negb (cf =? 0) then eflags ||| CC_C else eflags in
      ((al - 6) &&& 0xff, eflags)
    else (al, eflags) in
  let '(al, eflags) :=
    if (0x99 <? al1) || negb (cf =? 0) then ((al - 0x60) &&& 0xff, eflags ||| CC_C) else (al, eflags) in
  set_cc_src (set_regs env ((R_EAX env &&& Z.lnot 0xff) ||| al) (R_EDX env)) (decimal_flags eflags al).

(** ** Bit operations *)

Definition helper_ctz (t0 : Z) : Z := ctz64 t0.
Definition helper_clz (t0 : Z) : Z := clz64 t0.

(** [for (i = 0; mask != 0; i++)]; every iteration clears a bit of the mask. *)
Fixpoint pdep_loop (fuel : nat) (src mask dest i : Z) : outcome Z :=
  if negb (mask =? 0) then
    match fuel with
    | O => NoFuel
    | S fuel =>
        let o := ctz64 mask in
        let mask := mask &&& u64 (mask - 1) in
        pdep_loop fuel src mask (dest ||| u64 (((src >> i) &&& 1) << o)) (i + 1)
    end
  else Ret dest.

Definition helper_pdep (src mask : Z) : outcome Z := pdep_loop 64 src mask 0 0.

Fixpoint pext_loop (fuel : nat) (src mask dest o : Z) : outcome Z :=
  if negb (mask =? 0) then
    match fuel with
    | O => NoFuel
    | S fuel =>
        let i := ctz64 mask in
        let mask := mask &&& u64 (mask - 1) in
        pext_loop fuel src mask (dest ||| u64 (((src >> i) &&& 1) << o)) (o + 1)
    end
  else Ret dest.

Definition helper_pext (src mask : Z) : outcome Z := pext_loop 64 src mask 0 0.

(** ** Rotations through the carry *)

Definition rclb_table : list Z :=
  [0; 1; 2; 3; 4; 5; 6; 7; 8; 0; 1; 2; 3; 4; 5; 6; 7; 8; 0; 1; 2; 3; 4; 5; 6; 7; 8; 0; 1; 2; 3; 4].

Definition rclw_table : list Z :=
  [0; 1; 2; 3; 4; 5; 6; 7; 8; 9; 10; 11; 12; 13; 14; 15; 16; 0; 1; 2; 3; 4; 5; 6; 7; 8; 9; 10; 11; 12; 13; 14].

Definition SHIFT1_MASK (sz : size) : Z := match sz with Q => 0x3f | _ => 0x1f end.
Definition DATA_MASK (sz : size) : Z := 2 ^ bits sz - 1.

Definition rotate_count (sz : size) (t1 : Z) : Z :=
  let count := t1 &&& SHIFT1_MASK sz in
  match sz with
  | W => default 0 (rclw_table !! Z.to_nat count)
  | B => default 0 (rclb_table !! Z.to_nat count)
  | _ => count
  end.

(** The state and the value returned. *)
Definition helper_rcl (sz : size) (env : CPUX86State) (t0 t1 : Z) : CPUX86State * Z :=
  let count := rotate_count sz t1 in
  if negb (count =? 0) then
    let eflags := s32 (CC_SRC env) in
    let t0 := t0 &&& DATA_MASK sz in
    let src := t0 in
    let res := u64 (t0 << count) ||| u64 ((eflags &&& CC_C) << (count - 1)) in
    let res := if 1 <? count then res ||| (t0 >> (bits sz + 1 - count)) else res in
    let t0 := res in
    (set_cc_src env
       (u64 ((eflags &&& Z.lnot (CC_C ||| CC_O))
             ||| (lshift (src ^^^ t0) (11 - (bits sz - 1)) &&& CC_O)
             ||| ((src >> (bits sz - count)) &&& CC_C))), t0)
  else (env, t0).

Definition helper_rcr (sz : size) (env : CPUX86State) (t0 t1 : Z) : CPUX86State * Z :=
  let count := rotate_count sz t1 in
  if negb (count =? 0) then
    let eflags := s32 (CC_SRC env) in
    let t0 := t0 &&& DATA_MASK sz in
    let src := t0 in
    let res := (t0 >> count) ||| u64 ((eflags &&& CC_C) << (bits sz - count)) in
    let res := if 1 <? count then res ||| u64 (t0 << (bits sz + 1 - count)) else res in
    let t0 := res in
    (set_cc_src env
       (u64 ((eflags &&& Z.lnot (CC_C ||| CC_O))
             ||| (lshift (src ^^^ t0) (11 - (bits sz - 1)) &&& CC_O)
             ||| ((src >> (count - 1)) &&& CC_C))), t0)
  else (env, t0).

(** ** Divisions, on integers *)

(** The dividend and the parts that hold quotient and remainder. *)
Definition dividend (sz : size) (env : CPUX86State) : Z :=
  match sz with
  | B => wrap 16 (R_EAX env)
  | _ => wrap (bits sz) (R_EAX env) + 2 ^ bits sz * wrap (bits sz) (R_EDX env)
  end.

Definition quotient_part (sz : size) (env : CPUX86State) : Z := wrap (bits sz) (R_EAX env).

Definition remainder_part (sz : size) (env : CPUX86State) : Z :=
  match sz with B => wrap 8 (R_EAX env >> 8) | _ => wrap (bits sz) (R_EDX env) end.

(** What a division does not change: 32-bit divisions clear the upper halves. *)
Definition rest_kept (sz : size) (env env' : CPUX86State) : Prop :=
  match sz with
  | B => R_EAX env' >> 16 = R_EAX env >> 16 /\ R_EDX env' = R_EDX env
  | W => R_EAX env' >> 16 = R_EAX env >> 16 /\ R_EDX env' >> 16 = R_EDX env >> 16
  | L => R_EAX env' >> 32 = 0 /\ R_EDX env' >> 32 = 0
  | Q => True
  end
  /\ env' = set_regs env (R_EAX env') (R_EDX env').

Definition helper_div (sz : size) : CPUX86State -> Z -> exec :=
  match sz with
  | B => helper_divb_AL | W => helper_divw_AX | L => helper_divl_EAX | Q => helper_divq_EAX
  end.

Definition helper_idiv (sz : size) : CPUX86State -> Z -> exec :=
  match sz with
  | B => helper_idivb_AL | W => helper_idivw_AX | L => helper_idivl_EAX | Q => helper_idivq_EAX
  end.

(** The outcome of dividing with quotient [q] and remainder [r]. *)
Definition divided (sz : size) (env : CPUX86State) (q r : Z) (res : exec) : Prop :=
  exists env', res = Done env' /\ quotient_part sz env' = wrap (bits sz) q
    /\ remainder_part sz env' = wrap (bits sz) r /\ rest_kept sz env env'.

Lemma land_mask w x : 0 <= w -> x &&& (2 ^ w - 1) = wrap w x.
Proof. intros Hw. unfold wrap. rewrite <- Z.land_ones by lia. f_equal. rewrite Z.ones_equiv. lia. Qed.

(** A register whose low [w] bits are replaced. *)
Definition low_set (w x y : Z) : Z := (x &&& Z.lnot (2 ^ w - 1)) ||| y.

Lemma testbit_low_set w x y i :
  0 <= w -> 0 <= y < 2 ^ w -> 0 <= i ->
  Z.testbit (low_set w x y) i = if i <? w then Z.testbit y i else Z.testbit x i.
Proof.
  intros Hw Hy Hi. unfold low_set. rewrite Z.lor_spec, Z.land_spec, Z.lnot_spec by done.
  replace (2 ^ w - 1) with (Z.ones w) by (rewrite Z.ones_equiv; lia). rewrite testbit_ones by done.
  destruct (Z.leb_spec 0 i), (Z.ltb_spec i w); simpl; try lia.
  - by rewrite andb_false_r.
  - by rewrite (testbit_high w y) by lia; rewrite andb_true_r, orb_false_r.
Qed.

Lemma wrap_low_set w x y : 0 <= w -> 0 <= y < 2 ^ w -> wrap w (low_set w x y) = y.
Proof.
  intros Hw Hy. apply Z.bits_inj'. intros i Hi. rewrite testbit_wrap, testbit_low_set by done.
  destruct (Z.ltb_spec i w); [done|]. by rewrite (testbit_high w y) by lia.
Qed.

Lemma shift_low_set w x y : 0 <= w -> 0 <= y < 2 ^ w -> low_set w x y >> w = x >> w.
Proof.
  intros Hw Hy. apply Z.bits_inj'. intros i Hi. rewrite !Z.shiftr_spec, testbit_low_set by lia.
  destruct (Z.ltb_spec (i + w) w); [lia|done].
Qed.

(** Two bytes. *)
Lemma two_bytes r q :
  0 <= r < 256 -> 0 <= q < 256 -> (r << 8) ||| q = r * 256 + q.
Proof.
  intros Hr Hq. change (r * 256) with (r * 2 ^ 8). rewrite <- Z.shiftl_mul_pow2, <- Z.add_lor_land by lia.
  assert ((r << 8) &&& q = 0) as ->; [|lia].
  apply Z.bits_inj'. intros i Hi. rewrite Z.land_spec, Z.shiftl_spec, Z.testbit_0_l by lia.
  destruct (Z.lt_ge_cases i 8); [by rewrite Z.testbit_neg_r by lia|].
  rewrite (testbit_high 8 q) by lia. apply andb_false_r.
Qed.

Lemma wrap_byte x : 0 <= x -> wrap 8 x = wrap 8 (wrap 16 x).
Proof. intros Hx. unfold wrap. symmetry. apply Z.mod_mod_divide. by exists 256. Qed.

Lemma low_set_16 x y : (x &&& Z.lnot 0xffff) ||| y = low_set 16 x y.
Proof. done. Qed.

Lemma byte_mask x : x &&& 0xff = wrap 8 x.
Proof. exact (land_mask 8 x ltac:(lia)). Qed.

Lemma word_mask x : x &&& 0xffff = wrap 16 x.
Proof. exact (land_mask 16 x ltac:(lia)). Qed.

Lemma low_pair x r q :
  0 <= r < 256 -> 0 <= q < 256 ->
  let v := (x &&& Z.lnot 0xffff) ||| (r << 8) ||| q in
  wrap 8 v = q /\ wrap 8 (v >> 8) = r /\ v >> 16 = x >> 16.
Proof.
  intros Hr Hq v. unfold v. rewrite <- Z.lor_assoc, low_set_16, two_bytes by lia.
  set (y := r * 256 + q). assert (0 <= y < 2 ^ 16) as Hy by lia.
  pose proof (wrap_low_set 16 x y ltac:(lia) Hy) as Ew. split_and!.
  - transitivity (wrap 8 (wrap 16 (low_set 16 x y))).
    + unfold wrap. symmetry. apply Z.mod_mod_divide. by exists 256.
    + rewrite Ew. unfold y, wrap. mlia.
  - transitivity (wrap 16 (low_set 16 x y) >> 8).
    + apply Z.bits_inj'. intros i Hi. rewrite testbit_wrap, !Z.shiftr_spec, testbit_wrap by lia.
      destruct (Z.ltb_spec i 8), (Z.ltb_spec (i + 8) 16); done || lia.
    + rewrite Ew, Z.shiftr_div_pow2 by lia. unfold y. mlia.
  - by apply shift_low_set.
Qed.

Lemma done_B env q r :
  divided B env q r
    (Done (set_regs env ((R_EAX env &&& Z.lnot 0xffff) ||| ((r &&& 0xff) << 8) ||| (q &&& 0xff)) (R_EDX env))).
Proof.
  rewrite !byte_mask. eexists. split; [done|]. unfold quotient_part, remainder_part, rest_kept.
  cbn [R_EAX R_EDX set_regs bits].
  destruct (low_pair (R_EAX env) (wrap 8 r) (wrap 8 q)) as (E1 & E2 & E3); try (by apply wrap_range).
  done.
Qed.

Lemma done_W env q r :
  divided W env q r
    (Done (set_regs env ((R_EAX env &&& Z.lnot 0xffff) ||| (q &&& 0xffff))
             ((R_EDX env &&& Z.lnot 0xffff) ||| (r &&& 0xffff)))).
Proof.
  pose proof (wrap_range 16 q ltac:(lia)). pose proof (wrap_range 16 r ltac:(lia)).
  rewrite !low_set_16, !word_mask.
  eexists. split; [done|]. unfold quotient_part, remainder_part, rest_kept. cbn [R_EAX R_EDX set_regs bits].
  split_and!; try done; by apply wrap_low_set || by apply shift_low_set.
Qed.

Lemma done_L env q r : divided L env q r (Done (set_regs env (u32 q) (u32 r))).
Proof.
  pose proof (wrap_range 32 q ltac:(lia)). pose proof (wrap_range 32 r ltac:(lia)).
  eexists. split; [done|]. unfold quotient_part, remainder_part, rest_kept. cbn [R_EAX R_EDX set_regs bits].
  rewrite !wrap_wrap, !Z.shiftr_div_pow2, !Z.div_small by lia. done.
Qed.

Lemma done_Q env q r : divided Q env q r (Done (set_regs env (u64 q) (u64 r))).
Proof. eexists. split; [done|]. unfold quotient_part, remainder_part, rest_kept. cbn. by rewrite !wrap_wrap. Qed.

(** ** Unsigned division *)

(** Two halves of a dividend. *)
Lemma halves_joined w lo hi :
  0 <= w -> 0 <= lo < 2 ^ w -> lo ||| (hi << w) = lo + 2 ^ w * hi.
Proof.
  intros Hw Hlo. rewrite Z.mul_comm, <- Z.shiftl_mul_pow2, <- Z.add_lor_land by lia.
  assert (lo &&& (hi << w) = 0) as ->; [|lia].
  apply Z.bits_inj'. intros i Hi. rewrite Z.land_spec, Z.shiftl_spec, Z.testbit_0_l by lia.
  destruct (Z.lt_ge_cases i w); [by rewrite (Z.testbit_neg_r hi) by lia; rewrite andb_false_r|].
  by rewrite (testbit_high w lo) by lia.
Qed.

Lemma div64_steps b n a : Nat.iter n (div64_step b) a = Nat.iter n (div_round b) a.
Proof. induction n as [|n IH]; [done|]. rewrite !Nat.iter_succ, IH. by destruct (Nat.iter n _ _). Qed.

Lemma div64_ok lo hi b :
  0 < b < 2 ^ 64 -> 0 <= lo < 2 ^ 64 -> 0 <= hi < 2 ^ 64 ->
  div64 lo hi b =
    if 2 ^ 64 <=? (hi * 2 ^ 64 + lo) / b then (1, (lo, hi))
    else (0, ((hi * 2 ^ 64 + lo) / b, (hi * 2 ^ 64 + lo) mod b)).
Proof.
  intros Hb Hlo Hhi. unfold div64.
  assert ((2 ^ 64 <=? (hi * 2 ^ 64 + lo) / b) = (b <=? hi)) as ->.
  { destruct (Z.leb_spec b hi); [apply Z.leb_le, Z.div_le_lower_bound; nia|].
    apply Z.leb_gt, Z.div_lt_upper_bound; nia. }
  destruct (Z.eqb_spec hi 0) as [->|Hne].
  { destruct (Z.leb_spec b 0); [lia|]. done. }
  destruct (Z.leb_spec b hi); [done|]. rewrite div64_steps, div_rounds_64 by lia. done.
Qed.

Lemma div_ok sz env t0 :
  0 <= R_EAX env < 2 ^ 64 -> 0 <= R_EDX env < 2 ^ 64 -> 0 <= t0 < 2 ^ 64 ->
  let n := dividend sz env in
  let d := wrap (bits sz) t0 in
  if (d =? 0) || (2 ^ bits sz <=? n / d) then helper_div sz env t0 = Exception EXCP00_DIVZ
  else divided sz env (n / d) (n mod d) (helper_div sz env t0).
Proof.
  intros Ha Hd Ht n d. destruct sz; unfold helper_div; cbn [bits dividend] in *.
  - unfold helper_divb_AL. rewrite word_mask, byte_mask. fold n d.
    destruct (Z.eqb_spec d 0); [done|]. cbn [orb].
    destruct (Z.leb_spec (2 ^ 8) (n / d)), (Z.ltb_spec 0xff (n / d)); try done || lia. apply done_B.
  - unfold helper_divw_AX. rewrite (word_mask t0), (word_mask (R_EAX env)), (word_mask (R_EDX env)).
    rewrite halves_joined by (lia || apply wrap_range; lia).
    pose proof (wrap_range 16 (R_EAX env) ltac:(lia)). pose proof (wrap_range 16 (R_EDX env) ltac:(lia)).
    fold n d. rewrite (wrap_small 32 n) by (unfold n; lia).
    destruct (Z.eqb_spec d 0); [done|]. cbn [orb].
    destruct (Z.leb_spec (2 ^ 16) (n / d)), (Z.ltb_spec 0xffff (n / d)); try done || lia. apply done_W.
  - unfold helper_divl_EAX. rewrite halves_joined by (lia || apply wrap_range; lia). fold n d.
    destruct (Z.eqb_spec d 0); [done|]. cbn [orb].
    destruct (Z.leb_spec (2 ^ 32) (n / d)), (Z.ltb_spec 0xffffffff (n / d)); try done || lia.
    rewrite wrap_wrap. apply done_L.
  - unfold helper_divq_EAX. subst n d. rewrite !(wrap_small 64) by done.
    destruct (Z.eqb_spec t0 0); [done|]. cbn [orb]. rewrite div64_ok by lia.
    rewrite (Z.add_comm (R_EDX env * _)), (Z.mul_comm (R_EDX env)).
    destruct (Z.leb_spec (2 ^ 64) ((R_EAX env + 2 ^ 64 * R_EDX env) / t0)); [done|]. cbn [Z.eqb negb].
    set (q := _ / t0) in *. set (r := _ mod t0).
    assert (0 <= q) by (apply Z.div_pos; lia). assert (0 <= r < t0) by (apply Z.mod_pos_bound; lia).
    pose proof (done_Q env q r) as Hq. rewrite !wrap_small in Hq by lia. exact Hq.
Qed.

(** ** Signed division *)

(** Division that rounds towards zero, from absolute values. *)
Lemma quot_abs a b : b <> 0 -> Z.quot a b = (if xorb (a <? 0) (b <? 0) then - (Z.abs a / Z.abs b) else Z.abs a / Z.abs b).
Proof.
  intros Hb. rewrite Z.quot_div by done.
  destruct (Z.ltb_spec a 0), (Z.ltb_spec b 0); simpl.
  - rewrite !Z.sgn_neg by lia. lia.
  - rewrite Z.sgn_neg, Z.sgn_pos by lia. lia.
  - destruct (decide (a = 0)) as [->|]; [done|]. rewrite Z.sgn_pos, Z.sgn_neg by lia. lia.
  - destruct (decide (a = 0)) as [->|]; [done|]. rewrite !Z.sgn_pos by lia. lia.
Qed.

Lemma rem_abs a b : b <> 0 -> Z.rem a b = (if a <? 0 then - (Z.abs a mod Z.abs b) else Z.abs a mod Z.abs b).
Proof.
  intros Hb. rewrite Z.rem_mod by done. destruct (Z.ltb_spec a 0); [rewrite Z.sgn_neg by lia; lia|].
  destruct (decide (a = 0)) as [->|]; [done|]. rewrite Z.sgn_pos by lia. lia.
Qed.

Lemma neg128_ok lo hi :
  0 <= lo < 2 ^ 64 -> 2 ^ 63 <= hi < 2 ^ 64 ->
  exists lo' hi', neg128 lo hi = (lo', hi') /\ 0 <= lo' < 2 ^ 64 /\ 0 <= hi' < 2 ^ 64
    /\ hi' * 2 ^ 64 + lo' = 2 ^ 128 - (hi * 2 ^ 64 + lo).
Proof.
  intros Hlo Hhi. unfold neg128, add128. unfold Z.lnot.
  assert (u64 (Z.pred (- lo)) = 2 ^ 64 - 1 - lo) as -> by (unfold wrap; mlia).
  assert (u64 (Z.pred (- hi)) = 2 ^ 64 - 1 - hi) as -> by (unfold wrap; mlia).
  rewrite !Z.add_0_r. eexists _, _. split; [done|]. unfold wrap. zcase; mlia.
Qed.

(** The sign of the dividend is that of its upper half. *)
Lemma dividend_signed lo hi :
  0 <= lo < 2 ^ 64 -> 0 <= hi < 2 ^ 64 ->
  sext 128 (lo + 2 ^ 64 * hi) = (if s64 hi <? 0 then hi * 2 ^ 64 + lo - 2 ^ 128 else hi * 2 ^ 64 + lo)
  /\ (s64 hi <? 0) = (2 ^ 63 <=? hi).
Proof.
  intros Hlo Hhi. assert ((s64 hi <? 0) = (2 ^ 63 <=? hi)) as E.
  { unfold sext. rewrite wrap_small by lia. destruct (Z.ltb_spec hi (2 ^ (64 - 1))); repeat zcase; done || lia. }
  split; [|done]. rewrite E. unfold sext. rewrite wrap_small by lia.
  destruct (Z.leb_spec (2 ^ 63) hi); zcase; lia.
Qed.

(** The divisor, negated when it is negative. *)
Lemma divisor_abs b : - 2 ^ 63 < b < 2 ^ 63 -> u64 (if b <? 0 then - b else b) = Z.abs b.
Proof.
  intros Hb. destruct (Z.ltb_spec b 0); rewrite wrap_small; lia.
Qed.

Lemma idiv64_ok lo hi b :
  0 <= lo < 2 ^ 64 -> 0 <= hi < 2 ^ 64 -> - 2 ^ 63 < b < 2 ^ 63 -> b <> 0 ->
  let n := sext 128 (lo + 2 ^ 64 * hi) in
  match idiv64 lo hi b with
  | Some (overflow, (q, r)) =>
    if fits_signed 64 (Z.quot n b) then overflow = 0 /\ q = u64 (Z.quot n b) /\ r = u64 (Z.rem n b)
    else overflow = 1
  | None => False
  end.
Proof.
  intros Hlo Hhi Hb Hne n. unfold idiv64. destruct (dividend_signed lo hi Hlo Hhi) as [En Es].
  fold n in En. set (sa := s64 hi <? 0) in *. rewrite divisor_abs by done. rewrite (proj2 (Z.eqb_neq b _)) by lia.
  assert (exists lo' hi', (if sa then neg128 lo hi else (lo, hi)) = (lo', hi')
    /\ 0 <= lo' < 2 ^ 64 /\ 0 <= hi' < 2 ^ 64 /\ hi' * 2 ^ 64 + lo' = Z.abs n) as (lo' & hi' & -> & Hlo' & Hhi' & Ea).
  { destruct sa eqn:E.
    - destruct (neg128_ok lo hi Hlo) as (lo' & hi' & En' & ?); [symmetry in Es; apply Z.leb_le in Es; lia|].
      exists lo', hi'. rewrite En'. split_and!; try lia; try done.
    - exists lo, hi. split_and!; try lia; done. }
  assert ((n <? 0) = sa) as Hsa.
  { rewrite En. destruct sa eqn:E; [apply Z.ltb_lt|apply Z.ltb_ge]; lia. }
  rewrite (quot_abs n b Hne), (rem_abs n b Hne), Hsa. rewrite div64_ok, Ea by lia.
  set (q := Z.abs n / Z.abs b). set (r := Z.abs n mod Z.abs b).
  assert (0 <= q) by (apply Z.div_pos; lia). assert (0 <= r < Z.abs b) by (apply Z.mod_pos_bound; lia).
  change (1 << 63) with (2 ^ 63). unfold fits_signed. change (2 ^ (64 - 1)) with (2 ^ 63).
  destruct (Z.leb_spec (2 ^ 64) q) as [Hbig|Hsmall].
  - cbn [Z.eqb negb]. destruct (xorb sa (b <? 0)); repeat zcase; simpl; done || lia.
  - cbn [Z.eqb negb]. destruct (xorb sa (b <? 0)).
    + destruct (Z.ltb_spec (2 ^ 63) q), (Z.leb_spec (- 2 ^ 63) (- q)), (Z.ltb_spec (- q) (2 ^ 63)); simpl;
        try done; try lia. split; [done|]. split; [done|]. destruct sa; [done|]. rewrite wrap_small; lia.
    + destruct (Z.leb_spec (2 ^ 63) q), (Z.leb_spec (- 2 ^ 63) q), (Z.ltb_spec q (2 ^ 63)); simpl;
        try done; try lia. split; [done|]. split; [rewrite wrap_small; lia|].
      destruct sa; [done|]. rewrite wrap_small; lia.
Qed.

Lemma sext_wrap w x : sext w (wrap w x) = sext w x.
Proof. unfold sext. by rewrite wrap_wrap. Qed.

Lemma fits_sext w q : 1 <= w -> (q =? sext w q) = fits_signed w q.
Proof.
  intros Hw. unfold fits_signed. destruct (Z.leb_spec (- 2 ^ (w - 1)) q), (Z.ltb_spec q (2 ^ (w - 1))); simpl.
  - rewrite sext_small by lia. apply Z.eqb_refl.
  - apply Z.eqb_neq. pose proof (sext_range w q). lia.
  - apply Z.eqb_neq. pose proof (sext_range w q). lia.
  - apply Z.eqb_neq. pose proof (sext_range w q). lia.
Qed.

(** The C code divides the least number of its type by -1, or takes the
    opposite of it. *)
Definition c_overflows (sz : size) (n d : Z) : bool :=
  match sz with
  | B => false
  | W | L => (n =? - 2 ^ (2 * bits sz - 1)) && (d =? -1)
  | Q => d =? - 2 ^ 63
  end.

Lemma idiv_ok sz env t0 :
  0 <= R_EAX env < 2 ^ 64 -> 0 <= R_EDX env < 2 ^ 64 -> 0 <= t0 < 2 ^ 64 ->
  let n := sext (2 * bits sz) (dividend sz env) in
  let d := sext (bits sz) t0 in
  if d =? 0 then helper_idiv sz env t0 = Exception EXCP00_DIVZ
  else if c_overflows sz n d then helper_idiv sz env t0 = Undefined
  else if fits_signed (bits sz) (Z.quot n d)
  then divided sz env (Z.quot n d) (Z.rem n d) (helper_idiv sz env t0)
  else helper_idiv sz env t0 = Exception EXCP00_DIVZ.
Proof.
  intros Ha Hd Ht n d. destruct sz; unfold helper_idiv, c_overflows; cbn [bits dividend] in *.
  - unfold helper_idivb_AL. change (2 * 8) with 16 in n. rewrite <- (sext_wrap 16). fold n d.
    destruct (d =? 0); [done|]. rewrite fits_sext by lia.
    destruct (fits_signed 8 (Z.quot n d)); [apply done_B|done].
  - unfold helper_idivw_AX. rewrite (word_mask (R_EAX env)), (word_mask (R_EDX env)).
    rewrite halves_joined by (lia || apply wrap_range; lia). change (2 * 16) with 32 in *. fold n d.
    destruct (d =? 0); [done|]. change (32 - 1) with 31. destruct ((n =? - 2 ^ 31) && (d =? -1)); [done|].
    rewrite fits_sext by lia. destruct (fits_signed 16 (Z.quot n d)); [apply done_W|done].
  - unfold helper_idivl_EAX. rewrite halves_joined by (lia || apply wrap_range; lia).
    change (2 * 32) with 64 in *. fold n d.
    destruct (d =? 0); [done|]. change (64 - 1) with 63. destruct ((n =? - 2 ^ 63) && (d =? -1)); [done|].
    rewrite fits_sext by lia. destruct (fits_signed 32 (Z.quot n d)); [|done]. cbn [negb].
    rewrite wrap_sext by lia. apply done_L.
  - unfold helper_idivq_EAX. subst n. rewrite !(wrap_small 64) by done. change (2 * 64) with 128.
    assert ((t0 =? 0) = (d =? 0)) as ->.
    { unfold d, sext. rewrite wrap_small by done. destruct (Z.ltb_spec t0 (2 ^ (64 - 1))); repeat zcase; done || lia. }
    destruct (Z.eqb_spec d 0) as [|Hne]; [done|]. fold d.
    destruct (Z.eqb_spec d (- 2 ^ 63)) as [->|Hmin].
    { unfold idiv64. by destruct (if _ <? 0 then neg128 _ _ else _). }
    pose proof (sext_range 64 t0 ltac:(lia)) as Hr. fold d in Hr.
    pose proof (idiv64_ok (R_EAX env) (R_EDX env) d Ha Hd ltac:(lia) Hne) as H. cbv zeta in H.
    destruct (idiv64 (R_EAX env) (R_EDX env) d) as [[overflow [q r]]|]; [|done].
    destruct (fits_signed 64 _); [destruct H as (-> & -> & ->)|by rewrite H]. cbn [Z.eqb negb]. apply done_Q.
Qed.

(** C32: divisions at every operand size, on a dividend in two registers: the
    divide error is raised exactly when the divisor is zero or the quotient
    does not fit; otherwise quotient and remainder are left in the registers
    and the parts of them that are not result are kept (or cleared, by a
    32-bit division).  Signed quotients round towards zero.  The exceptions are
    where the C code overflows, undefined behaviour: the 16 and 32-bit signed
    division of the least dividend by -1, which is computed by a C division and
    traps on the usual hosts instead of raising the error; and the 64-bit signed
    division by the least divisor, whose opposite is taken. *)
Theorem division_correct sz env t0 :
  0 <= R_EAX env < 2 ^ 64 -> 0 <= R_EDX env < 2 ^ 64 -> 0 <= t0 < 2 ^ 64 ->
  (let n := dividend sz env in
   let d := wrap (bits sz) t0 in
   if (d =? 0) || (2 ^ bits sz <=? n / d) then helper_div sz env t0 = Exception EXCP00_DIVZ
   else divided sz env (n / d) (n mod d) (helper_div sz env t0))
  /\ (let n := sext (2 * bits sz) (dividend sz env) in
      let d := sext (bits sz) t0 in
      if d =? 0 then helper_idiv sz env t0 = Exception EXCP00_DIVZ
      else if c_overflows sz n d then helper_idiv sz env t0 = Undefined
      else if fits_signed (bits sz) (Z.quot n d)
      then divided sz env (Z.quot n d) (Z.rem n d) (helper_idiv sz env t0)
      else helper_idiv sz env t0 = Exception EXCP00_DIVZ).
Proof. intros Ha Hd Ht. split; [by apply div_ok|by apply idiv_ok]. Qed.

Definition sample_env (eax edx : Z) : CPUX86State :=
  {| R_EAX := eax; R_EDX := edx; CC_DST := 0; CC_SRC := 0; CC_SRC2 := 0; CC_OP := CC_OP_EFLAGS;
     df := 1; eflags := 2; hflags := 0; cr0 := 0 |}.

(** The dividend -7 in 128 bits, divided by 2; the least 32-bit dividend
    divided by -1; and 1 divided by the least 64-bit divisor. *)
Lemma division_correct_witness :
  divided Q (sample_env (2 ^ 64 - 7) (2 ^ 64 - 1)) (-3) (-1)
    (helper_idiv Q (sample_env (2 ^ 64 - 7) (2 ^ 64 - 1)) 2)
  /\ helper_idiv W (sample_env 0 0x8000) 0xffff = Undefined
  /\ helper_idiv Q (sample_env 1 0) (2 ^ 63) = Undefined.
Proof.
  split; [|split].
  - exact (proj2 (division_correct Q (sample_env (2 ^ 64 - 7) (2 ^ 64 - 1)) 2
      ltac:(vm_compute; intuition congruence) ltac:(vm_compute; intuition congruence) ltac:(lia))).
  - exact (proj2 (division_correct W (sample_env 0 0x8000) 0xffff
      ltac:(vm_compute; intuition congruence) ltac:(vm_compute; intuition congruence) ltac:(lia))).
  - exact (proj2 (division_correct Q (sample_env 1 0) (2 ^ 63)
      ltac:(vm_compute; intuition congruence) ltac:(vm_compute; intuition congruence) ltac:(lia))).
Defined.

(** ** Decimal arithmetic *)

(** Two decimal digits in a byte. *)
Definition bcd (n : Z) : Z := n / 10 * 16 + n mod 10.

(** The adjustments as functions of [AL] (and [AH]) and the flags. *)
Definition daa_core (fl al : Z) : Z * Z :=
  let c := (0x99 <? al) || negb (fl &&& CC_C =? 0) in
  let a := (9 <? (al &&& 0x0f)) || negb (fl &&& CC_A =? 0) in
  let al' := if a then (al + 6) &&& 0xff else al in
  let al' := if c then (al' + 0x60) &&& 0xff else al' in
  (al', decimal_flags (if c then (if a then 0 ||| CC_A else 0) ||| CC_C else if a then 0 ||| CC_A else 0) al').

Lemma daa_eq env :
  let r := daa_core (cpu_cc_compute_all env (CC_OP env)) (R_EAX env &&& 0xff) in
  helper_daa env =
    set_cc_src (set_regs env ((R_EAX env &&& Z.lnot 0xff) ||| fst r) (R_EDX env)) (snd r).
Proof.
  unfold helper_daa, daa_core.
  by destruct ((9 <? _) || _), ((0x99 <? _) || _).
Qed.

Definition das_core (fl al : Z) : Z * Z :=
  let c := (0x99 <? al) || negb (fl &&& CC_C =? 0) in
  let a := (9 <? (al &&& 0x0f)) || negb (fl &&& CC_A =? 0) in
  let b := (al <? 6) || negb (fl &&& CC_C =? 0) in
  let al' := if a then (al - 6) &&& 0xff else al in
  let al' := if c then (al' - 0x60) &&& 0xff else al' in
  let f := if a then if b then 0 ||| CC_A ||| CC_C else 0 ||| CC_A else 0 in
  (al', decimal_flags (if c then f ||| CC_C else f) al').

Lemma das_eq env :
  let r := das_core (cpu_cc_compute_all env (CC_OP env)) (R_EAX env &&& 0xff) in
  helper_das env =
    set_cc_src (set_regs env ((R_EAX env &&& Z.lnot 0xff) ||| fst r) (R_EDX env)) (snd r).
Proof.
  unfold helper_das, das_core. set (fl := cpu_cc_compute_all env _). set (al := R_EAX env &&& 0xff).
  by destruct ((9 <? (al &&& 0x0f)) || negb (fl &&& CC_A =? 0)), ((0x99 <? al) || negb (fl &&& CC_C =? 0)),
    ((al <? 6) || negb (fl &&& CC_C =? 0)).
Qed.

(** A check for all pairs of numbers below [n] and both carries. *)
Definition all_pairs (n : Z) (P : Z -> Z -> bool -> bool) : bool :=
  forallb (fun x => forallb (fun y => P x y false && P x y true) (seqZ 0 n)) (seqZ 0 n).

Lemma all_pairs_ok n P x y c :
  all_pairs n P = true -> 0 <= x < n -> 0 <= y < n -> P x y c = true.
Proof.
  unfold all_pairs. rewrite forallb_forall. intros H Hx Hy.
  specialize (H x ltac:(apply list_elem_of_In, elem_of_seqZ; lia)). rewrite forallb_forall in H.
  specialize (H y ltac:(apply list_elem_of_In, elem_of_seqZ; lia)). apply andb_true_iff in H. by destruct c, H.
Qed.

Lemma daa_all x y c :
  0 <= x < 100 -> 0 <= y < 100 ->
  let r := daa_core (eflags_of (add_flags 8 (bcd x) (bcd y) (b2z c))) (u8 (bcd x + bcd y + b2z c)) in
  fst r = bcd ((x + y + b2z c) mod 100) /\ snd r &&& CC_C = b2z (100 <=? x + y + b2z c).
Proof.
  intros Hx Hy r.
  pose proof (all_pairs_ok 100 (fun x y c =>
    let r := daa_core (eflags_of (add_flags 8 (bcd x) (bcd y) (b2z c))) (u8 (bcd x + bcd y + b2z c)) in
    (fst r =? bcd ((x + y + b2z c) mod 100)) && (snd r &&& CC_C =? b2z (100 <=? x + y + b2z c))) x y c
    ltac:(vm_compute; reflexivity) Hx Hy) as H. cbv beta zeta in H. fold r in H.
  apply andb_true_iff in H as [H1%Z.eqb_eq H2%Z.eqb_eq]. done.
Qed.

Lemma das_all x y c :
  0 <= x < 100 -> 0 <= y < 100 ->
  let r := das_core (eflags_of (sub_flags 8 (bcd x) (bcd y) (b2z c))) (u8 (bcd x - bcd y - b2z c)) in
  fst r = bcd ((x - y - b2z c) mod 100) /\ snd r &&& CC_C = b2z (x <? y + b2z c).
Proof.
  intros Hx Hy r.
  pose proof (all_pairs_ok 100 (fun x y c =>
    let r := das_core (eflags_of (sub_flags 8 (bcd x) (bcd y) (b2z c))) (u8 (bcd x - bcd y - b2z c)) in
    (fst r =? bcd ((x - y - b2z c) mod 100)) && (snd r &&& CC_C =? b2z (x <? y + b2z c))) x y c
    ltac:(vm_compute; reflexivity) Hx Hy) as H. cbv beta zeta in H. fold r in H.
  apply andb_true_iff in H as [H1%Z.eqb_eq H2%Z.eqb_eq]. done.
Qed.

Definition aaa_core (fl al ah : Z) : Z * Z * Z :=
  if (9 <? (al &&& 0x0f)) || negb (fl &&& CC_A =? 0)
  then ((al + 6) &&& 0x0f, (ah + 1 + b2z (0xf9 <? al)) &&& 0xff, fl ||| (CC_C ||| CC_A))
  else (al &&& 0x0f, ah, fl &&& Z.lnot (CC_C ||| CC_A)).

Definition aas_core (fl al ah : Z) : Z * Z * Z :=
  if (9 <? (al &&& 0x0f)) || negb (fl &&& CC_A =? 0)
  then ((al - 6) &&& 0x0f, (ah - 1 - b2z (al <? 6)) &&& 0xff, fl ||| (CC_C ||| CC_A))
  else (al &&& 0x0f, ah, fl &&& Z.lnot (CC_C ||| CC_A)).

(** [AH] changes by the carry: [AL] and the flags do not depend on it. *)
Lemma aaa_all x y c ah :
  0 <= x < 10 -> 0 <= y < 10 ->
  let '(al, ah', fl) := aaa_core (eflags_of (add_flags 8 x y (b2z c))) (u8 (x + y + b2z c)) ah in
  al = (x + y + b2z c) mod 10 /\ (0 <= ah < 256 -> ah' = u8 (ah + b2z (10 <=? x + y + b2z c)))
  /\ fl &&& CC_C = b2z (10 <=? x + y + b2z c).
Proof.
  intros Hx Hy.
  pose proof (all_pairs_ok 10 (fun x y c =>
    let fl := eflags_of (add_flags 8 x y (b2z c)) in
    let al := u8 (x + y + b2z c) in
    let adjust := (9 <? (al &&& 0x0f)) || negb (fl &&& CC_A =? 0) in
    Bool.eqb adjust (10 <=? x + y + b2z c) && negb (0xf9 <? al)
    && ((if adjust then (al + 6) &&& 0x0f else al &&& 0x0f) =? (x + y + b2z c) mod 10)
    && ((if adjust then fl ||| (CC_C ||| CC_A) else fl &&& Z.lnot (CC_C ||| CC_A)) &&& CC_C
        =? b2z (10 <=? x + y + b2z c))) x y c ltac:(vm_compute; reflexivity) Hx Hy) as H.
  cbv beta zeta in H. unfold aaa_core.
  set (al := u8 (x + y + b2z c)) in *. set (fl := eflags_of _) in *.
  apply andb_true_iff in H as [[[H1%eqb_prop H2%negb_true_iff]%andb_true_iff H3%Z.eqb_eq]%andb_true_iff H4%Z.eqb_eq].
  rewrite H2. rewrite H1 in H3, H4 |- *. destruct (10 <=? x + y + b2z c); (split; [done|]); (split; [|done]);
    intros Hah; rewrite ?byte_mask; unfold b2z; [f_equal; lia|rewrite Z.add_0_r; symmetry; by apply wrap_small].
Qed.

Lemma aas_all x y c ah :
  0 <= x < 10 -> 0 <= y < 10 ->
  let '(al, ah', fl) := aas_core (eflags_of (sub_flags 8 x y (b2z c))) (u8 (x - y - b2z c)) ah in
  al = (x - y - b2z c) mod 10 /\ (0 <= ah < 256 -> ah' = u8 (ah - b2z (x <? y + b2z c)))
  /\ fl &&& CC_C = b2z (x <? y + b2z c).
Proof.
  intros Hx Hy.
  pose proof (all_pairs_ok 10 (fun x y c =>
    let fl := eflags_of (sub_flags 8 x y (b2z c)) in
    let al := u8 (x - y - b2z c) in
    let adjust := (9 <? (al &&& 0x0f)) || negb (fl &&& CC_A =? 0) in
    Bool.eqb adjust (x <? y + b2z c) && implb adjust (negb (al <? 6))
    && ((if adjust then (al - 6) &&& 0x0f else al &&& 0x0f) =? (x - y - b2z c) mod 10)
    && ((if adjust then fl ||| (CC_C ||| CC_A) else fl &&& Z.lnot (CC_C ||| CC_A)) &&& CC_C
        =? b2z (x <? y + b2z c))) x y c ltac:(vm_compute; reflexivity) Hx Hy) as H.
  cbv beta zeta in H. unfold aas_core.
  set (al := u8 (x - y - b2z c)) in *. set (fl := eflags_of _) in *.
  apply andb_true_iff in H as [[[H1%eqb_prop H2]%andb_true_iff H3%Z.eqb_eq]%andb_true_iff H4%Z.eqb_eq].
  rewrite H1 in H2, H3, H4 |- *. destruct (x <? y + b2z c); (split; [done|]); (split; [|done]); intros Hah.
  - apply negb_true_iff in H2. rewrite H2, byte_mask. unfold b2z. f_equal. lia.
  - unfold b2z. rewrite Z.sub_0_r. symmetry. by apply wrap_small.
Qed.

Lemma bcd_byte n : 0 <= n < 100 -> 0 <= bcd n < 256.
Proof. unfold bcd. intros Hn. mlia. Qed.

(** [AL] and [AH]. *)
Definition AL (env : CPUX86State) : Z := u8 (R_EAX env).
Definition AH (env : CPUX86State) : Z := u8 (R_EAX env >> 8).

Lemma low_byte_set x a : 0 <= a < 256 ->
  u8 ((x &&& Z.lnot 0xff) ||| a) = a /\ ((x &&& Z.lnot 0xff) ||| a) >> 8 = x >> 8.
Proof.
  intros Ha. change ((x &&& Z.lnot 0xff) ||| a) with (low_set 8 x a).
  split; [by apply wrap_low_set|by apply shift_low_set].
Qed.

Lemma daa_ok env x y c :
  0 <= x < 100 -> 0 <= y < 100 -> AL env = u8 (bcd x + bcd y + b2z c) ->
  cpu_cc_compute_all env (CC_OP env) = eflags_of (add_flags 8 (bcd x) (bcd y) (b2z c)) ->
  let env' := helper_daa env in
  AL env' = bcd ((x + y + b2z c) mod 100) /\ CC_SRC env' &&& CC_C = b2z (100 <=? x + y + b2z c)
  /\ R_EAX env' >> 8 = R_EAX env >> 8.
Proof.
  intros Hx Hy Ha Hf. cbv zeta. rewrite daa_eq, Hf, byte_mask. unfold AL in Ha |- *. rewrite Ha.
  destruct (daa_all x y c Hx Hy) as [E1 E2]. cbn [R_EAX CC_SRC set_cc_src set_cc set_regs]. rewrite E1, E2.
  destruct (low_byte_set (R_EAX env) (bcd ((x + y + b2z c) mod 100))) as [L1 L2]; [apply bcd_byte; mlia|]. done.
Qed.

Lemma das_ok env x y c :
  0 <= x < 100 -> 0 <= y < 100 -> AL env = u8 (bcd x - bcd y - b2z c) ->
  cpu_cc_compute_all env (CC_OP env) = eflags_of (sub_flags 8 (bcd x) (bcd y) (b2z c)) ->
  let env' := helper_das env in
  AL env' = bcd ((x - y - b2z c) mod 100) /\ CC_SRC env' &&& CC_C = b2z (x <? y + b2z c)
  /\ R_EAX env' >> 8 = R_EAX env >> 8.
Proof.
  intros Hx Hy Ha Hf. cbv zeta. rewrite das_eq, Hf, byte_mask. unfold AL in Ha |- *. rewrite Ha.
  destruct (das_all x y c Hx Hy) as [E1 E2]. cbn [R_EAX CC_SRC set_cc_src set_cc set_regs]. rewrite E1, E2.
  destruct (low_byte_set (R_EAX env) (bcd ((x - y - b2z c) mod 100))) as [L1 L2]; [apply bcd_byte; mlia|]. done.
Qed.

(** The state after an ASCII adjustment. *)
Definition adjusted (env : CPUX86State) (r : Z * Z * Z) : CPUX86State :=
  let '(al, ah, fl) := r in
  set_cc_src (set_regs env ((R_EAX env &&& Z.lnot 0xffff) ||| al ||| (ah << 8)) (R_EDX env)) fl.

Lemma aaa_eq env :
  helper_aaa env = adjusted env (aaa_core (cpu_cc_compute_all env (CC_OP env)) (AL env) (AH env)).
Proof. unfold AL, AH. rewrite <- !byte_mask. done. Qed.

Lemma aas_eq env :
  helper_aas env = adjusted env (aas_core (cpu_cc_compute_all env (CC_OP env)) (AL env) (AH env)).
Proof. unfold AL, AH. rewrite <- !byte_mask. done. Qed.

Lemma adjusted_ok env al ah fl :
  0 <= al < 256 -> 0 <= ah < 256 ->
  let env' := adjusted env (al, ah, fl) in AL env' = al /\ AH env' = ah /\ CC_SRC env' = fl.
Proof.
  intros Hal Hah. cbn [adjusted]. unfold AL, AH. cbn [R_EAX CC_SRC set_cc_src set_cc set_regs].
  rewrite <- Z.lor_assoc, (Z.lor_comm al), Z.lor_assoc.
  destruct (low_pair (R_EAX env) ah al Hah Hal) as (E1 & E2 & _). done.
Qed.

Lemma aaa_ok env x y c :
  0 <= x < 10 -> 0 <= y < 10 -> AL env = u8 (x + y + b2z c) ->
  cpu_cc_compute_all env (CC_OP env) = eflags_of (add_flags 8 x y (b2z c)) ->
  let env' := helper_aaa env in
  AL env' = (x + y + b2z c) mod 10 /\ CC_SRC env' &&& CC_C = b2z (10 <=? x + y + b2z c)
  /\ AH env' = u8 (AH env + b2z (10 <=? x + y + b2z c)).
Proof.
  intros Hx Hy Ha Hf. cbv zeta. rewrite aaa_eq, Ha, Hf. pose proof (aaa_all x y c (AH env) Hx Hy) as H.
  destruct (aaa_core _ _ _) as [[al ah] fl]. destruct H as (-> & Eah & Ef).
  rewrite Eah by (by apply wrap_range).
  destruct (adjusted_ok env ((x + y + b2z c) mod 10) (u8 (AH env + b2z (10 <=? x + y + b2z c))) fl)
    as (E1 & E2 & E3); [mlia|by apply wrap_range|]. by rewrite E1, E2, E3.
Qed.

Lemma aas_ok env x y c :
  0 <= x < 10 -> 0 <= y < 10 -> AL env = u8 (x - y - b2z c) ->
  cpu_cc_compute_all env (CC_OP env) = eflags_of (sub_flags 8 x y (b2z c)) ->
  let env' := helper_aas env in
  AL env' = (x - y - b2z c) mod 10 /\ CC_SRC env' &&& CC_C = b2z (x <? y + b2z c)
  /\ AH env' = u8 (AH env - b2z (x <? y + b2z c)).
Proof.
  intros Hx Hy Ha Hf. cbv zeta. rewrite aas_eq, Ha, Hf. pose proof (aas_all x y c (AH env) Hx Hy) as H.
  destruct (aas_core _ _ _) as [[al ah] fl]. destruct H as (-> & Eah & Ef).
  rewrite Eah by (by apply wrap_range).
  destruct (adjusted_ok env ((x - y - b2z c) mod 10) (u8 (AH env - b2z (x <? y + b2z c))) fl)
    as (E1 & E2 & E3); [mlia|by apply wrap_range|]. by rewrite E1, E2, E3.
Qed.

(** After an addition (or subtraction) of packed decimal numbers with carry,
    whose flags are left for the helpers, the decimal adjustment leaves the
    decimal sum (difference) modulo 100 in [AL] and the decimal carry (borrow)
    in the carry flag; after one of single digits, the ASCII adjustment leaves
    the digit in [AL] and adds the carry to [AH]. *)
Lemma decimal_correct env x y c :
  0 <= x < 100 -> 0 <= y < 100 ->
  let fl := cpu_cc_compute_all env (CC_OP env) in
  (AL env = u8 (bcd x + bcd y + b2z c) -> fl = eflags_of (add_flags 8 (bcd x) (bcd y) (b2z c)) ->
   let env' := helper_daa env in
   AL env' = bcd ((x + y + b2z c) mod 100) /\ CC_SRC env' &&& CC_C = b2z (100 <=? x + y + b2z c)
   /\ R_EAX env' >> 8 = R_EAX env >> 8)
  /\ (AL env = u8 (bcd x - bcd y - b2z c) -> fl = eflags_of (sub_flags 8 (bcd x) (bcd y) (b2z c)) ->
      let env' := helper_das env in
      AL env' = bcd ((x - y - b2z c) mod 100) /\ CC_SRC env' &&& CC_C = b2z (x <? y + b2z c)
      /\ R_EAX env' >> 8 = R_EAX env >> 8)
  /\ (x < 10 -> y < 10 -> AL env = u8 (x + y + b2z c) -> fl = eflags_of (add_flags 8 x y (b2z c)) ->
      let env' := helper_aaa env in
      AL env' = (x + y + b2z c) mod 10 /\ CC_SRC env' &&& CC_C = b2z (10 <=? x + y + b2z c)
      /\ AH env' = u8 (AH env + b2z (10 <=? x + y + b2z c)))
  /\ (x < 10 -> y < 10 -> AL env = u8 (x - y - b2z c) -> fl = eflags_of (sub_flags 8 x y (b2z c)) ->
      let env' := helper_aas env in
      AL env' = (x - y - b2z c) mod 10 /\ CC_SRC env' &&& CC_C = b2z (x <? y + b2z c)
      /\ AH env' = u8 (AH env - b2z (x <? y + b2z c))).
Proof.
  intros Hx Hy fl. split; [by apply daa_ok|]. split; [by apply das_ok|].
  split; intros; [apply aaa_ok|apply aas_ok]; done || lia.
Qed.

(** 57 + 86, and 3 - 7. *)
Lemma decimal_correct_witness :
  let add := {| R_EAX := 0x1dd; R_EDX := 0; CC_DST := 0xdd; CC_SRC := 0x57; CC_SRC2 := 0;
                CC_OP := CC_OP_ADD B; df := 1; eflags := 2; hflags := 0; cr0 := 0 |} in
  let sub := {| R_EAX := 0x5fc; R_EDX := 0; CC_DST := 0xfc; CC_SRC := 7; CC_SRC2 := 0;
                CC_OP := CC_OP_SUB B; df := 1; eflags := 2; hflags := 0; cr0 := 0 |} in
  (AL (helper_daa add) = 0x43 /\ CC_SRC (helper_daa add) &&& CC_C = 1)
  /\ (AL (helper_aas sub) = 6 /\ AH (helper_aas sub) = 4).
Proof.
  intros add sub. split.
  - destruct (proj1 (decimal_correct add 57 86 false ltac:(lia) ltac:(lia)) eq_refl eq_refl) as (H1 & H2 & _).
    split; [exact H1|exact H2].
  - destruct (proj2 (proj2 (proj2 (decimal_correct sub 3 7 false ltac:(lia) ltac:(lia)))) ltac:(lia) ltac:(lia)
                eq_refl eq_refl) as (H1 & _ & H3).
    split; [exact H1|exact H3].
Defined.

(** Splitting a byte by a base and putting it together again. *)
Lemma aam_aad env base :
  0 < base < 256 -> 0 <= R_EAX env ->
  exists env', helper_aam env base = Done env' /\ AL (helper_aad env' base) = AL env.
Proof.
  intros Hb Hp. unfold helper_aam. destruct (Z.eqb_spec base 0); [lia|].
  rewrite byte_mask. fold (AL env). assert (0 <= AL env < 256) as Hal by (by apply wrap_range).
  rewrite Z.quot_div_nonneg, Z.rem_mod_nonneg by lia.
  set (q := AL env / base). set (r := AL env mod base).
  assert (0 <= q < 256 /\ 0 <= r < 256 /\ AL env = q * base + r) as (Hq & Hr & E).
  { unfold q, r. pose proof (Z.mod_pos_bound (AL env) base ltac:(lia)). pose proof (Z.div_mod (AL env) base ltac:(lia)).
    split; [split; [apply Z.div_pos|apply Z.div_lt_upper_bound]; nia|]. lia. }
  eexists. split; [done|]. unfold helper_aad, AL at 1. cbn [R_EAX set_cc_dst set_regs].
  rewrite !byte_mask, low_set_16. rewrite <- Z.lor_assoc, (Z.lor_comm r), Z.lor_assoc.
  destruct (low_pair (R_EAX env) q r Hq Hr) as (-> & -> & _). rewrite <- E, (wrap_small 8 (AL env)) by lia.
  pose proof (wrap_low_set 16 ((R_EAX env &&& Z.lnot 0xffff) ||| (q << 8) ||| r) (AL env) ltac:(lia) ltac:(lia)) as Ew.
  transitivity (u8 (u16 (low_set 16 ((R_EAX env &&& Z.lnot 0xffff) ||| (q << 8) ||| r) (AL env)))).
  - unfold wrap. symmetry. apply Z.mod_mod_divide. by exists 256.
  - rewrite Ew. by apply wrap_small.
Qed.

(** ** Rotations, bit by bit *)

(** The operand with the carry flag above its top bit. *)
Definition extended (sz : size) (t0 : Z) (cf : bool) (i : Z) : bool :=
  if i =? bits sz then cf else Z.testbit t0 i.

Lemma land31 x : x &&& 0x1f = x mod 32.
Proof. exact (Z.land_ones x 5 ltac:(lia)). Qed.

Lemma land63 x : x &&& 0x3f = x mod 64.
Proof. exact (Z.land_ones x 6 ltac:(lia)). Qed.

(** The tables are the remainders they say they are. *)
Lemma table_mod (l : list Z) m i :
  forallb (fun k => default 0 (l !! k) =? Z.of_nat k mod m) (seq 0 32) = true -> 0 <= i < 32 ->
  default 0 (l !! Z.to_nat i) = i mod m.
Proof.
  intros H Hi. rewrite forallb_forall in H. specialize (H (Z.to_nat i) ltac:(apply in_seq; lia)).
  apply Z.eqb_eq in H. by rewrite Z2Nat.id in H by lia.
Qed.

Lemma rotate_count_ok sz t1 :
  rotate_count sz t1 = (t1 &&& SHIFT1_MASK sz) mod (bits sz + 1)
  /\ 0 <= rotate_count sz t1 <= bits sz.
Proof.
  unfold rotate_count, SHIFT1_MASK. destruct sz; cbn [bits]; rewrite ?land31, ?land63.
  - rewrite (table_mod rclb_table 9); [split; [done|mlia]|reflexivity|mlia].
  - rewrite (table_mod rclw_table 17); [split; [done|mlia]|reflexivity|mlia].
  - split; mlia.
  - split; mlia.
Qed.

Lemma data_mask_bit sz t0 i :
  0 <= i -> Z.testbit (t0 &&& DATA_MASK sz) i = (i <? bits sz) && Z.testbit t0 i.
Proof.
  intros Hi. unfold DATA_MASK. pose proof (bits_pos sz). rewrite land_mask, testbit_wrap by lia. done.
Qed.

Lemma cf_bit x k i : 0 <= k -> 0 <= i -> Z.testbit ((x &&& CC_C) << k) i = (i =? k) && Z.testbit x 0.
Proof.
  intros Hk Hi. rewrite (low_bit x : x &&& CC_C = _), Z.shiftl_spec by lia.
  destruct (Z.testbit x 0); cbn [b2z]; [|by rewrite Z.testbit_0_l, andb_false_r].
  rewrite andb_true_r. change 1 with (2 ^ 0). destruct (Z.eqb_spec i k) as [->|Hne].
  - by rewrite Z.sub_diag.
  - rewrite Z.pow2_bits_false; [done|lia].
Qed.

(** The flags after a rotation. *)
Lemma rotate_flags fl o c i :
  0 <= i < 32 ->
  Z.testbit (u64 ((fl &&& Z.lnot (CC_C ||| CC_O)) ||| (o &&& CC_O) ||| (c &&& CC_C))) i
  = if i =? 0 then Z.testbit c 0 else if i =? 11 then Z.testbit o 11 else Z.testbit fl i.
Proof.
  intros Hi. rewrite testbit_wrap, (proj2 (Z.ltb_lt _ _)) by lia. cbn [andb].
  rewrite !Z.lor_spec, !Z.land_spec, Z.lnot_spec, Z.lor_spec by lia.
  change CC_C with (2 ^ 0). change CC_O with (2 ^ 11). rewrite !Z.pow2_bits_eqb by lia.
  rewrite (Z.eqb_sym 0 i), (Z.eqb_sym 11 i).
  destruct (Z.eqb_spec i 0) as [->|]; [by rewrite !andb_false_r, andb_true_r|].
  destruct (Z.eqb_spec i 11) as [->|].
  - by rewrite !andb_false_r, andb_true_r, orb_false_r.
  - by rewrite !andb_false_r, andb_true_r, !orb_false_r.
Qed.

Section rotate.
Context (sz : size) (t0 x n i : Z).
Context (Hn : 1 <= n <= bits sz) (Hi : 0 <= i < bits sz).
Let T := t0 &&& DATA_MASK sz.

Lemma rcl_bit :
  let res := u64 (T << n) ||| u64 ((x &&& CC_C) << (n - 1)) in
  Z.testbit (if 1 <? n then res ||| (T >> (bits sz + 1 - n)) else res) i
  = extended sz t0 (Z.testbit x 0) ((i - n) mod (bits sz + 1)).
Proof.
  pose proof (bits_pos sz) as Hb. intros res. unfold extended.
  assert (Z.testbit res i = ((n <=? i) && Z.testbit t0 (i - n)) || ((i =? n - 1) && Z.testbit x 0)) as Hres.
  { unfold res. rewrite Z.lor_spec, !testbit_wrap, (proj2 (Z.ltb_lt i 64)), cf_bit, Z.shiftl_spec by lia.
    cbn [andb]. f_equal. destruct (Z.leb_spec n i); cbn [andb].
    - unfold T. rewrite data_mask_bit, (proj2 (Z.ltb_lt _ _)) by lia. done.
    - apply Z.testbit_neg_r. lia. }
  assert (0 <= i + (bits sz + 1 - n)) as Hp by lia.
  pose proof (data_mask_bit sz t0 (i + (bits sz + 1 - n)) Hp) as Hhigh. fold T in Hhigh.
  destruct (Z.le_gt_cases n i) as [Hge|Hlt].
  - rewrite (Z.mod_small (i - n)) by lia. destruct (Z.eqb_spec (i - n) (bits sz)); [lia|].
    rewrite (proj2 (Z.leb_le n i)) in Hres by lia. destruct (Z.eqb_spec i (n - 1)); [lia|].
    rewrite orb_false_r in Hres. cbn [andb] in Hres.
    destruct (1 <? n); [|done]. rewrite Z.lor_spec, Z.shiftr_spec, Hres, Hhigh by lia.
    destruct (Z.ltb_spec (i + (bits sz + 1 - n)) (bits sz)); [lia|]. apply orb_false_r.
  - replace ((i - n) mod (bits sz + 1)) with (i - n + (bits sz + 1))
      by (apply (Z.mod_unique _ _ (-1)); lia).
    rewrite (proj2 (Z.leb_gt n i)) in Hres by lia. cbn [andb orb] in Hres.
    destruct (Z.eqb_spec (i - n + (bits sz + 1)) (bits sz)), (Z.eqb_spec i (n - 1)); try lia.
    + destruct (1 <? n); [|done]. rewrite Z.lor_spec, Z.shiftr_spec, Hres, Hhigh by lia.
      destruct (Z.ltb_spec (i + (bits sz + 1 - n)) (bits sz)); [lia|]. apply orb_false_r.
    + rewrite (proj2 (Z.ltb_lt 1 n)), Z.lor_spec, Z.shiftr_spec, Hres, Hhigh by lia.
      rewrite (proj2 (Z.ltb_lt _ _)) by lia. cbn [andb orb]. f_equal. lia.
Qed.

Lemma rcr_bit :
  let res := (T >> n) ||| u64 ((x &&& CC_C) << (bits sz - n)) in
  Z.testbit (if 1 <? n then res ||| u64 (T << (bits sz + 1 - n)) else res) i
  = extended sz t0 (Z.testbit x 0) ((i + n) mod (bits sz + 1)).
Proof.
  pose proof (bits_pos sz) as Hb. intros res. unfold extended.
  assert (Z.testbit res i = ((i + n <? bits sz) && Z.testbit t0 (i + n)) || ((i =? bits sz - n) && Z.testbit x 0))
    as Hres.
  { unfold res. rewrite Z.lor_spec, testbit_wrap, (proj2 (Z.ltb_lt i 64)), cf_bit, Z.shiftr_spec by lia.
    cbn [andb]. f_equal. unfold T. by rewrite data_mask_bit by lia. }
  assert (bits sz + 1 - n <= i -> Z.testbit (u64 (T << (bits sz + 1 - n))) i = Z.testbit t0 (i - (bits sz + 1 - n)))
    as Hhigh.
  { intros H. rewrite testbit_wrap, (proj2 (Z.ltb_lt i 64)), Z.shiftl_spec by lia. cbn [andb].
    unfold T. by rewrite data_mask_bit, (proj2 (Z.ltb_lt _ _)) by lia. }
  assert (i < bits sz + 1 - n -> Z.testbit (u64 (T << (bits sz + 1 - n))) i = false) as Hlow.
  { intros H. rewrite testbit_wrap, Z.shiftl_spec, (Z.testbit_neg_r T) by lia. apply andb_false_r. }
  destruct (Z.le_gt_cases (i + n) (bits sz)) as [Hle|Hgt].
  - rewrite (Z.mod_small (i + n)) by lia.
    assert (Z.testbit (if 1 <? n then res ||| u64 (T << (bits sz + 1 - n)) else res) i = Z.testbit res i) as ->.
    { destruct (1 <? n); [|done]. rewrite Z.lor_spec, Hlow by lia. apply orb_false_r. }
    rewrite Hres. destruct (Z.eqb_spec (i + n) (bits sz)), (Z.eqb_spec i (bits sz - n)),
      (Z.ltb_spec (i + n) (bits sz)); try lia; simpl; try done. apply orb_false_r.
  - replace ((i + n) mod (bits sz + 1)) with (i + n - (bits sz + 1)) by (apply (Z.mod_unique _ _ 1); lia).
    destruct (Z.eqb_spec (i + n - (bits sz + 1)) (bits sz)); [lia|].
    rewrite (proj2 (Z.ltb_lt 1 n)), Z.lor_spec, Hres, Hhigh by lia.
    destruct (Z.ltb_spec (i + n) (bits sz)), (Z.eqb_spec i (bits sz - n)); try lia. simpl. f_equal. lia.
Qed.
End rotate.

(** What a rotation that moves bit [p i] to place [i] leaves. *)
Definition rotated (sz : size) (env : CPUX86State) (t0 : Z) (p : Z -> Z) (res : CPUX86State * Z) : Prop :=
  let '(env', r) := res in
  let old := extended sz t0 (Z.testbit (CC_SRC env) 0) in
  (forall i, 0 <= i < bits sz -> Z.testbit r i = old (p i))
  /\ Z.testbit (CC_SRC env') 0 = old (p (bits sz))
  /\ forall i, 0 < i < 32 -> i <> 11 -> Z.testbit (CC_SRC env') i = Z.testbit (CC_SRC env) i.

Lemma not_rotated sz env t0 p :
  (forall i, 0 <= i <= bits sz -> p i = i) -> rotated sz env t0 p (env, t0).
Proof.
  intros Hp. pose proof (bits_pos sz). unfold rotated, extended. split_and!.
  - intros i Hi. rewrite Hp by lia. destruct (Z.eqb_spec i (bits sz)); [lia|done].
  - rewrite Hp by lia. by rewrite Z.eqb_refl.
  - done.
Qed.

Lemma rotated_flags sz env t0 n p r o c :
  (forall i, 0 <= i < bits sz -> Z.testbit r i = extended sz t0 (Z.testbit (CC_SRC env) 0) (p i)) ->
  Z.testbit c 0 = Z.testbit t0 n -> p (bits sz) = n -> n < bits sz ->
  rotated sz env t0 p
    (set_cc_src env (u64 ((s32 (CC_SRC env) &&& Z.lnot (CC_C ||| CC_O)) ||| (o &&& CC_O) ||| (c &&& CC_C))), r).
Proof.
  intros Hr Hc Hp Hn. unfold rotated. cbn [CC_SRC set_cc_src set_cc]. split; [done|]. split.
  - rewrite rotate_flags by lia. cbn [Z.eqb]. rewrite Hp, Hc. unfold extended.
    destruct (Z.eqb_spec n (bits sz)); [lia|done].
  - intros i Hi Hne. rewrite rotate_flags by lia.
    destruct (Z.eqb_spec i 0), (Z.eqb_spec i 11); try lia. apply testbit_s32; lia.
Qed.

Lemma rcl_ok sz env t0 t1 :
  rotated sz env t0 (fun i => (i - rotate_count sz t1) mod (bits sz + 1)) (helper_rcl sz env t0 t1).
Proof.
  destruct (rotate_count_ok sz t1) as [_ Hn]. pose proof (bits_pos sz) as Hb.
  unfold helper_rcl. set (n := rotate_count sz t1) in *. destruct (Z.eqb_spec n 0) as [->|Hne]; cbn [negb].
  { apply not_rotated. intros i Hi. rewrite Z.sub_0_r. apply Z.mod_small. lia. }
  apply (rotated_flags sz env t0 (bits sz - n)); try lia.
  - intros i Hi. rewrite <- (testbit_s32 (CC_SRC env) 0) by lia. apply rcl_bit; lia.
  - rewrite Z.shiftr_spec, data_mask_bit, (proj2 (Z.ltb_lt _ _)) by lia. done.
  - cbv beta. apply Z.mod_small. lia.
Qed.

Lemma rcr_ok sz env t0 t1 :
  rotated sz env t0 (fun i => (i + rotate_count sz t1) mod (bits sz + 1)) (helper_rcr sz env t0 t1).
Proof.
  destruct (rotate_count_ok sz t1) as [_ Hn]. pose proof (bits_pos sz) as Hb.
  unfold helper_rcr. set (n := rotate_count sz t1) in *. destruct (Z.eqb_spec n 0) as [->|Hne]; cbn [negb].
  { apply not_rotated. intros i Hi. rewrite Z.add_0_r. apply Z.mod_small. lia. }
  apply (rotated_flags sz env t0 (n - 1)); try lia.
  - intros i Hi. rewrite <- (testbit_s32 (CC_SRC env) 0) by lia. apply rcr_bit; lia.
  - rewrite Z.shiftr_spec, data_mask_bit, (proj2 (Z.ltb_lt _ _)) by lia. done.
  - cbv beta. symmetry. apply (Z.mod_unique _ _ 1); lia.
Qed.

(** A rotation through the carry rotates the operand and, above it, the
    carry flag, by the count modulo the number of these bits: bit by bit the
    result and the new carry, while the other flags but the overflow flag are
    kept; and rotating back restores operand and carry. *)
Lemma rotate_correct sz env t0 t1 :
  let n := (t1 &&& SHIFT1_MASK sz) mod (bits sz + 1) in
  rotated sz env t0 (fun i => (i - n) mod (bits sz + 1)) (helper_rcl sz env t0 t1)
  /\ rotated sz env t0 (fun i => (i + n) mod (bits sz + 1)) (helper_rcr sz env t0 t1)
  /\ (let '(env1, r1) := helper_rcl sz env t0 t1 in
      let '(env2, r2) := helper_rcr sz env1 r1 t1 in
      wrap (bits sz) r2 = wrap (bits sz) t0 /\ Z.testbit (CC_SRC env2) 0 = Z.testbit (CC_SRC env) 0).
Proof.
  intros n. pose proof (bits_pos sz) as Hb. destruct (rotate_count_ok sz t1) as [En _]. fold n in En.
  pose proof (rcl_ok sz env t0 t1) as Hl. pose proof (fun env t0 => rcr_ok sz env t0 t1) as Hr.
  rewrite En in Hl. split; [done|]. split; [rewrite <- En; apply Hr|].
  destruct (helper_rcl sz env t0 t1) as [env1 r1]. specialize (Hr env1 r1).
  destruct (helper_rcr sz env1 r1 t1) as [env2 r2]. rewrite En in Hr.
  destruct Hl as (L1 & L2 & _), Hr as (R1 & R2 & _).
  assert (forall i, 0 <= i <= bits sz ->
    extended sz r1 (Z.testbit (CC_SRC env1) 0) ((i + n) mod (bits sz + 1))
    = extended sz t0 (Z.testbit (CC_SRC env) 0) i) as Hback.
  { intros i Hi. assert ((((i + n) mod (bits sz + 1)) - n) mod (bits sz + 1) = i) as Ei.
    { rewrite Zminus_mod_idemp_l. replace (i + n - n) with i by lia. apply Z.mod_small. lia. }
    pose proof (Z.mod_pos_bound (i + n) (bits sz + 1) ltac:(lia)). set (j := (i + n) mod (bits sz + 1)) in *.
    unfold extended at 1. destruct (Z.eqb_spec j (bits sz)) as [Ej|].
    - rewrite Ej in Ei. by rewrite L2, Ei.
    - rewrite L1, Ei by lia. done. }
  split.
  - apply Z.bits_inj'. intros i Hi. rewrite !testbit_wrap by lia. destruct (Z.ltb_spec i (bits sz)); [|done].
    cbn [andb]. rewrite R1, Hback by lia. unfold extended. destruct (Z.eqb_spec i (bits sz)); [lia|done].
  - rewrite R2, Hback by lia. unfold extended. by rewrite Z.eqb_refl.
Qed.

(** ** Bit deposit and extract *)

(** The places of the ones of a mask, from the lowest on. *)
Definition ones_of (mask : Z) : list Z := List.filter (Z.testbit mask) (seqZ 0 64).

(** Bits [i], [i + 1], ... of [src] at the places [ps]. *)
Fixpoint deposit (ps : list Z) (src i : Z) : Z :=
  match ps with
  | [] => 0
  | p :: ps => (b2z (Z.testbit src i) << p) ||| deposit ps src (i + 1)
  end.

(** The bits of [src] at the places [ps], from bit [o] on. *)
Fixpoint extract (ps : list Z) (src o : Z) : Z :=
  match ps with
  | [] => 0
  | p :: ps => (b2z (Z.testbit src p) << o) ||| extract ps src (o + 1)
  end.

Lemma filter_seqZ_none f k n :
  (forall j, k <= j < k + n -> f j = false) -> List.filter f (seqZ k n) = [].
Proof.
  intros H. assert (forall l, (forall j, j ∈ l -> f j = false) -> List.filter f l = []) as Hl.
  { induction l as [|x l IH]; intros Hf; simpl; [done|]. rewrite Hf by left. apply IH. intros j Hj. apply Hf. by right. }
  apply Hl. intros j Hj%elem_of_seqZ. apply H. lia.
Qed.

Lemma filter_ext_seqZ f g k n :
  (forall j, k <= j < k + n -> f j = g j) -> List.filter f (seqZ k n) = List.filter g (seqZ k n).
Proof.
  intros H. apply filter_ext_in. intros j Hj%list_elem_of_In%elem_of_seqZ. apply H. lia.
Qed.

Lemma ones_of_step mask :
  0 < mask < 2 ^ 64 ->
  ones_of mask = ctz64 mask :: ones_of (mask &&& u64 (mask - 1))
  /\ 0 <= ctz64 mask < 64 /\ 0 <= mask &&& u64 (mask - 1) < 2 ^ 64.
Proof.
  intros Hm. destruct (ctzl_spec mask Hm) as (Hb & Hbit & Hlow). pose proof (clear_lowest mask Hm) as Hc.
  unfold ctzl in *. set (o := ctz64 mask) in *. split; [|split; [done|apply land_range_l; lia]].
  rewrite Hc. unfold ones_of. replace 64 with (o + (1 + (63 - o))) by lia.
  rewrite seqZ_app, !List.filter_app by lia.
  rewrite (filter_seqZ_none (Z.testbit mask) 0 o) by (intros j Hj; apply Hlow; lia).
  rewrite (filter_seqZ_none (Z.testbit (hi_bits mask (o + 1))) 0 o)
    by (intros j Hj; rewrite testbit_hi_bits, Hlow by lia; done).
  rewrite Z.add_0_l, seqZ_cons by lia. cbn [List.filter app]. rewrite Hbit.
  rewrite testbit_hi_bits, (proj2 (Z.leb_gt (o + 1) o)), andb_false_r by lia. f_equal.
  apply filter_ext_seqZ. intros j Hj. rewrite testbit_hi_bits, (proj2 (Z.leb_le (o + 1) j)) by lia.
  by rewrite andb_true_r.
Qed.

Lemma ones_of_0 : ones_of 0 = [].
Proof. apply filter_seqZ_none. intros j _. apply Z.testbit_0_l. Qed.

#[local] Opaque ones_of.

Lemma one_bit src i o : 0 <= i -> 0 <= o < 64 -> u64 (((src >> i) &&& 1) << o) = b2z (Z.testbit src i) << o.
Proof.
  intros Hi Ho. rewrite (carry_out src i Hi : (src >> i) &&& 1 = _). apply wrap_small.
  rewrite Z.shiftl_mul_pow2 by lia. assert (0 < 2 ^ o) by lia.
  assert (2 ^ o <= 2 ^ 63) by (apply Z.pow_le_mono_r; lia). destruct (Z.testbit src i); simpl b2z; lia.
Qed.

Lemma pdep_loop_ok fuel src mask dest i :
  0 <= mask < 2 ^ 64 -> (length (ones_of mask) <= fuel)%nat -> 0 <= i ->
  pdep_loop fuel src mask dest i = Ret (dest ||| deposit (ones_of mask) src i).
Proof.
  revert mask dest i. induction fuel as [|fuel IH]; intros mask dest i Hm Hf Hi;
    (destruct (Z.eq_dec mask 0) as [->|Hne]; [rewrite ones_of_0; cbn [deposit]; rewrite Z.lor_0_r; reflexivity|]);
    destruct (ones_of_step mask ltac:(lia)) as (E & Ho & Hm'); rewrite E in Hf |- *; cbn [length] in Hf; [lia|].
  cbn [pdep_loop deposit]. destruct (Z.eqb_spec mask 0); [lia|]. cbn [negb].
  rewrite one_bit, IH by lia. by rewrite Z.lor_assoc.
Qed.

Lemma pext_loop_ok fuel src mask dest o :
  0 <= mask < 2 ^ 64 -> (length (ones_of mask) <= fuel)%nat -> 0 <= o ->
  o + Z.of_nat (length (ones_of mask)) <= 64 ->
  pext_loop fuel src mask dest o = Ret (dest ||| extract (ones_of mask) src o).
Proof.
  revert mask dest o. induction fuel as [|fuel IH]; intros mask dest o Hm Hf Ho Hmax;
    (destruct (Z.eq_dec mask 0) as [->|Hne]; [rewrite ones_of_0; cbn [extract]; rewrite Z.lor_0_r; reflexivity|]);
    destruct (ones_of_step mask ltac:(lia)) as (E & Hc & Hm'); rewrite E in Hf, Hmax |- *;
    cbn [length] in Hf, Hmax; [lia|].
  cbn [pext_loop extract]. destruct (Z.eqb_spec mask 0); [lia|]. cbn [negb].
  rewrite one_bit, IH by lia. by rewrite Z.lor_assoc.
Qed.

Lemma testbit_b2z b j : 0 <= j -> Z.testbit (b2z b) j = (j =? 0) && b.
Proof.
  intros Hj. destruct b; cbn [b2z]; [|by rewrite Z.testbit_0_l, andb_false_r].
  rewrite andb_true_r. change 1 with (2 ^ 0). rewrite Z.pow2_bits_eqb by lia. apply Z.eqb_sym.
Qed.

Lemma testbit_placed b p j : 0 <= p -> 0 <= j -> Z.testbit (b2z b << p) j = (j =? p) && b.
Proof.
  intros Hp Hj. rewrite Z.shiftl_spec by lia. destruct (Z.lt_ge_cases j p).
  - rewrite Z.testbit_neg_r by lia. by rewrite (proj2 (Z.eqb_neq j p)) by lia.
  - rewrite testbit_b2z by lia. destruct (Z.eqb_spec j p), (Z.eqb_spec (j - p) 0); done || lia.
Qed.

Lemma testbit_extract ps s o k :
  0 <= o -> 0 <= k ->
  Z.testbit (extract ps s o) k
  = (o <=? k) && match ps !! Z.to_nat (k - o) with Some p => Z.testbit s p | None => false end.
Proof.
  revert o. induction ps as [|p ps IH]; intros o Ho Hk; cbn [extract].
  - by rewrite Z.testbit_0_l, lookup_nil, andb_false_r.
  - rewrite Z.lor_spec, testbit_placed, IH by lia. destruct (Z.eqb_spec k o) as [->|Hne].
    + rewrite Z.sub_diag, (proj2 (Z.leb_gt (o + 1) o)), (proj2 (Z.leb_le o o)) by lia. apply orb_false_r.
    + cbn [andb orb]. destruct (Z.leb_spec (o + 1) k), (Z.leb_spec o k); try done; try lia.
      cbn [andb]. by replace (Z.to_nat (k - o)) with (S (Z.to_nat (k - (o + 1)))) by lia.
Qed.

Lemma testbit_deposit_out ps s i j :
  (forall p, p ∈ ps -> 0 <= p) -> 0 <= j -> j ∉ ps -> Z.testbit (deposit ps s i) j = false.
Proof.
  revert i. induction ps as [|p ps IH]; intros i Hps Hj Hn; cbn [deposit]; [apply Z.testbit_0_l|].
  apply not_elem_of_cons in Hn as [Hne Hn].
  rewrite Z.lor_spec, testbit_placed, IH by (done || (intros; apply Hps; by right) || (apply Hps; left)).
  by rewrite (proj2 (Z.eqb_neq j p)) by done.
Qed.

Lemma testbit_deposit ps s i k p :
  (forall p, p ∈ ps -> 0 <= p) -> NoDup ps -> ps !! k = Some p ->
  Z.testbit (deposit ps s i) p = Z.testbit s (i + Z.of_nat k).
Proof.
  revert i k. induction ps as [|q ps IH]; intros i k Hps Hd Hk; [by rewrite lookup_nil in Hk|].
  apply NoDup_cons in Hd as [Hq Hd]. assert (0 <= p) by (apply Hps; by apply list_elem_of_lookup_2 in Hk).
  cbn [deposit]. rewrite Z.lor_spec, testbit_placed by (done || (apply Hps; left)). destruct k as [|k].
  - injection Hk as ->. rewrite Z.eqb_refl, testbit_deposit_out, Z.add_0_r by (done || (intros; apply Hps; by right)).
    apply orb_false_r.
  - rewrite (IH _ k) by (done || (intros; apply Hps; by right)). destruct (Z.eqb_spec p q) as [->|].
    + destruct Hq. exact (list_elem_of_lookup_2 ps k q Hk).
    + cbn [andb orb]. f_equal. lia.
Qed.

#[local] Transparent ones_of.

Lemma elem_of_ones mask p : p ∈ ones_of mask <-> 0 <= p < 64 /\ Z.testbit mask p = true.
Proof. unfold ones_of. rewrite list_elem_of_In, filter_In, <- list_elem_of_In, elem_of_seqZ, Z.add_0_l. tauto. Qed.

Lemma ones_nodup mask : NoDup (ones_of mask).
Proof. apply NoDup_ListNoDup, List.NoDup_filter, NoDup_ListNoDup, NoDup_seqZ. Qed.

Lemma ones_length mask : (length (ones_of mask) <= 64)%nat.
Proof. etrans; [apply filter_length_le|]. by rewrite length_seqZ. Qed.

#[local] Opaque ones_of.

(** Both loops end; extracting what was deposited gives back as many low bits
    of the source as the mask has ones, depositing changes no bit outside of the
    mask, and depositing what was extracted gives the source under the mask. *)
Lemma deposit_extract src mask :
  0 <= src -> 0 <= mask < 2 ^ 64 ->
  (exists d, helper_pdep src mask = Ret d /\ d &&& mask = d
     /\ helper_pext d mask = Ret (wrap (Z.of_nat (length (ones_of mask))) src))
  /\ exists e, helper_pext src mask = Ret e /\ helper_pdep e mask = Ret (u64 src &&& mask).
Proof.
  intros Hs Hm. set (ps := ones_of mask). pose proof (ones_nodup mask) as Hd. fold ps in Hd.
  pose proof (ones_length mask) as Hl. fold ps in Hl.
  assert (forall p, p ∈ ps -> 0 <= p) as Hpos by (intros p Hp%elem_of_ones; lia).
  unfold helper_pdep, helper_pext. split.
  - exists (deposit ps src 0). rewrite pdep_loop_ok, pext_loop_ok by (fold ps; lia). fold ps.
    rewrite !Z.lor_0_l. split; [done|]. split.
    + apply Z.bits_inj'. intros j Hj. rewrite Z.land_spec. destruct (decide (j ∈ ps)) as [Hin|Hout].
      * apply elem_of_ones in Hin as [_ ->]. apply andb_true_r.
      * by rewrite testbit_deposit_out.
    + f_equal. apply Z.bits_inj'. intros k Hk. rewrite testbit_extract, testbit_wrap, Z.sub_0_r by lia.
      rewrite (proj2 (Z.leb_le 0 k)) by done. cbn [andb]. destruct (ps !! Z.to_nat k) as [p|] eqn:Ep.
      * rewrite (testbit_deposit ps src 0 _ p Hpos Hd Ep). apply lookup_lt_Some in Ep.
        rewrite (proj2 (Z.ltb_lt _ _)) by lia. cbn [andb]. f_equal. lia.
      * apply lookup_ge_None in Ep. by rewrite (proj2 (Z.ltb_ge _ _)) by lia.
  - exists (extract ps src 0). rewrite pdep_loop_ok, pext_loop_ok by (fold ps; lia). fold ps.
    rewrite !Z.lor_0_l. split; [done|]. f_equal. apply Z.bits_inj'. intros j Hj.
    rewrite Z.land_spec, testbit_wrap by lia. destruct (decide (j ∈ ps)) as [Hin|Hout].
    + pose proof Hin as [H64 ->]%elem_of_ones. apply list_elem_of_lookup in Hin as [k Hk].
      rewrite (testbit_deposit ps _ 0 k j Hpos Hd Hk), testbit_extract, Z.sub_0_r by lia.
      rewrite (proj2 (Z.leb_le 0 _)), (proj2 (Z.ltb_lt j 64)) by lia. rewrite Z.add_0_l, Nat2Z.id, Hk.
      by rewrite andb_true_r.
    + rewrite testbit_deposit_out by done. destruct (Z.ltb_spec j 64); [|done]. cbn [andb].
      destruct (Z.testbit mask j) eqn:E; [|by rewrite andb_false_r]. destruct Hout. by apply elem_of_ones.
Qed.

Lemma deposit_extract_witness :
  helper_pdep 0xb 0xd2 = Ret 0x92
  /\ exists d, helper_pdep 0xb 0xd2 = Ret d /\ helper_pext d 0xd2 = Ret 0xb.
Proof.
  split; [reflexivity|].
  destruct (proj1 (deposit_extract 0xb 0xd2 ltac:(lia) ltac:(lia))) as (d & E1 & _ & E2).
  exists d. split; [exact E1|]. rewrite E2. reflexivity.
Defined.
