(* ===== verification/HostMem.v ===== *)
(** * Host memory as C code sees it

    The bytes the emulator may access, with the library functions that copy
    and fill them, and the scans of src/util/cutils.c that look for nonzero
    bytes in a buffer a vector or four words at a time.  Scatter/gather
    vectors (file [Iov]) and checksums (file [Checksum]) work on this
    memory. *)

From S2P Require Import Prelude.

(** Accessible bytes by address.  Objects do not wrap around the address
    space, so an address is a plain number. *)
Abbreviation hmem := (gmap Z Z).

(** The bytes at a list of addresses. *)
Definition gather (m : hmem) (A : list Z) : option (list Z) := mapM (m !!.) A.

(** Stores of bytes at a list of addresses, first to last. *)
Definition write_at (m : hmem) (A bs : list Z) : hmem :=
  foldl (fun m p => <[p.1 := p.2]> m) m (zip A bs).

Definition accessible (m : hmem) (A : list Z) : Prop :=
  Forall (fun a => is_Some (m !! a)) A.

#[export] Instance accessible_dec m A : Decision (accessible m A).
Proof. unfold accessible. apply _. Defined.

(** A read and a write of a run of bytes; both need every byte accessible. *)
Definition load (m : hmem) (a n : Z) : outcome (list Z) :=
  match gather m (seqZ a n) with
  | Some bs => Ret bs
  | None => Fault OutOfBounds
  end.

Definition store (m : hmem) (a : Z) (bs : list Z) : outcome hmem :=
  let A := seqZ a (Z.of_nat (length bs)) in
  if decide (accessible m A) then Ret (write_at m A bs) else Fault OutOfBounds.

(** [memcpy] is undefined on regions that overlap. *)
Definition memcpy (m : hmem) (dst src n : Z) : outcome hmem :=
  if n =? 0 then Ret m else
  bs ← load m src n;
  if (src <? dst + n) && (dst <? src + n) then Fault Overlap
  else store m dst bs.

Definition memset (m : hmem) (dst c n : Z) : outcome hmem :=
  store m dst (replicate (Z.to_nat n) (u8 c)).

(** ** Lemmas *)

Lemma gather_app m A B :
  gather m (A ++ B) = (x ← gather m A; y ← gather m B; mret (x ++ y)).
Proof. apply mapM_app. Qed.

Lemma gather_length m A bs : gather m A = Some bs -> length bs = length A.
Proof. intros H. symmetry. exact (length_mapM _ _ _ H). Qed.

Lemma gather_take m A bs n :
  gather m A = Some bs -> gather m (take n A) = Some (take n bs).
Proof. unfold gather. rewrite !mapM_Some. apply Forall2_take. Qed.

Lemma gather_accessible m A : accessible m A <-> is_Some (gather m A).
Proof.
  unfold accessible, gather. split.
  - intros H. by apply mapM_is_Some_2.
  - apply mapM_is_Some_1.
Qed.

Lemma accessible_app m A B : accessible m (A ++ B) <-> accessible m A /\ accessible m B.
Proof. apply Forall_app. Qed.

Lemma gather_ext m m' A : (forall a, a ∈ A -> m !! a = m' !! a) -> gather m A = gather m' A.
Proof.
  unfold gather. induction A as [|a A IH]; intros H; [done|]. simpl.
  rewrite H by set_solver. destruct (m' !! a); simpl; [|done].
  rewrite IH; [done|]. set_solver.
Qed.

Lemma write_at_nil_r m A : write_at m A [] = m.
Proof. unfold write_at. by destruct A. Qed.

Lemma write_at_app m A1 A2 b1 b2 :
  length A1 = length b1 ->
  write_at m (A1 ++ A2) (b1 ++ b2) = write_at (write_at m A1 b1) A2 b2.
Proof.
  intros H. unfold write_at. rewrite zip_with_app by done. apply foldl_app.
Qed.

Lemma write_at_ne m A bs a : a ∉ A -> write_at m A bs !! a = m !! a.
Proof.
  unfold write_at. revert m bs. induction A as [|x A IH]; intros m bs Ha; [done|].
  destruct bs as [|b bs]; [done|]. simpl. rewrite IH by set_solver.
  apply lookup_insert_ne. set_solver.
Qed.

Lemma gather_write_disj m A B bs :
  (forall x, x ∈ A -> x ∉ B) -> gather (write_at m A bs) B = gather m B.
Proof. intros H. apply gather_ext. intros a Ha. apply write_at_ne. naive_solver. Qed.

Lemma gather_write_at m A bs :
  NoDup A -> length A = length bs -> gather (write_at m A bs) A = Some bs.
Proof.
  intros Hd. revert m bs. induction Hd as [|a A Ha Hd IH]; intros m [|b bs] Hl;
    try done.
  change (write_at m (a :: A) (b :: bs)) with (write_at (<[a:=b]> m) A bs).
  change (a :: A) with ([a] ++ A). rewrite gather_app, IH by (simpl in Hl; lia).
  unfold gather. simpl. rewrite write_at_ne, lookup_insert_eq by done. done.
Qed.

Lemma accessible_write_at m A bs B :
  accessible m B -> accessible (write_at m A bs) B.
Proof.
  unfold accessible. rewrite !Forall_forall. intros H b Hb. specialize (H b Hb).
  unfold write_at. revert m bs H. induction A as [|a A IH]; intros m bs H; [done|].
  destruct bs as [|c bs]; [done|]. simpl. apply IH.
  destruct (decide (a = b)) as [->|].
  - rewrite lookup_insert_eq. eauto.
  - by rewrite lookup_insert_ne.
Qed.

Lemma load_gather m a n bs : gather m (seqZ a n) = Some bs -> load m a n = Ret bs.
Proof. unfold load. by intros ->. Qed.

Lemma length_seqZ_Z a n : 0 <= n -> Z.of_nat (length (seqZ a n)) = n.
Proof. intros. rewrite length_seqZ. lia. Qed.

(** A copy between disjoint accessible regions. *)
Lemma memcpy_ok m dst src n bs :
  0 <= n -> gather m (seqZ src n) = Some bs -> accessible m (seqZ dst n) ->
  (forall x, x ∈ seqZ dst n -> x ∉ seqZ src n) ->
  memcpy m dst src n = Ret (write_at m (seqZ dst n) bs).
Proof.
  intros Hn Hs Hd Hdis. pose proof (gather_length _ _ _ Hs) as Hl.
  assert (Z.of_nat (length bs) = n) as Hl' by (rewrite Hl; by apply length_seqZ_Z).
  unfold memcpy. destruct (Z.eqb_spec n 0) as [->|Hn0].
  { destruct bs; [|simpl in Hl; lia]. by rewrite write_at_nil_r. }
  rewrite (load_gather _ _ _ _ Hs). simpl.
  destruct ((src <? dst + n) && (dst <? src + n)) eqn:E.
  - exfalso. zbool. apply (Hdis (Z.max src dst)); apply elem_of_seqZ; lia.
  - unfold store. rewrite Hl', decide_True by done. done.
Qed.

Lemma memset_ok m dst c n :
  0 <= n -> accessible m (seqZ dst n) ->
  memset m dst c n = Ret (write_at m (seqZ dst n) (replicate (Z.to_nat n) (u8 c))).
Proof.
  intros Hn Hd. unfold memset, store. rewrite length_replicate, Z2Nat.id by done.
  by rewrite decide_True.
Qed.

(** ** Zero buffers *)

Definition BUFFER_FIND_NONZERO_OFFSET_UNROLL_FACTOR : Z := 8.

Definition SIZEOF_LONG : Z := 8.

Section scans.
(** [sizeof(VECTYPE)]: 16 with SSE2 or Altivec, 8 otherwise. *)
Context (vs : Z).

Definition can_use_buffer_find_nonzero_offset (buf len : Z) : bool :=
  (len mod (BUFFER_FIND_NONZERO_OFFSET_UNROLL_FACTOR * vs) =? 0)
  && (buf mod vs =? 0).

(** [p[i]] for a pointer to elements of [n] bytes, as a number. *)
Definition elem (n : Z) (m : hmem) (p i : Z) : outcome Z :=
  bs ← load m (p + i * n) n; Ret (le_combine bs).

(** The first loop, over the vectors [i], [i+1], ... with [k] to go: the index
    of the first that is not zero. *)
Fixpoint first_chunks (m : hmem) (p i : Z) (k : nat) : outcome (option Z) :=
  match k with
  | O => Ret None
  | S k =>
    v ← elem vs m p i;
    if negb (v =? 0) then Ret (Some i) else first_chunks m p (i + 1) k
  end.

(** The second loop, eight vectors at a time. *)
Fixpoint unrolled_chunks (fuel : nat) (m : hmem) (p len i : Z) : outcome Z :=
  match fuel with
  | O => NoFuel
  | S fuel =>
    if i <? len / vs then
      p0 ← elem vs m p (i + 0); p1 ← elem vs m p (i + 1);
      p2 ← elem vs m p (i + 2); p3 ← elem vs m p (i + 3);
      p4 ← elem vs m p (i + 4); p5 ← elem vs m p (i + 5);
      p6 ← elem vs m p (i + 6); p7 ← elem vs m p (i + 7);
      let tmp0 := p0 ||| p1 in
      let tmp1 := p2 ||| p3 in
      let tmp2 := p4 ||| p5 in
      let tmp3 := p6 ||| p7 in
      let tmp01 := tmp0 ||| tmp1 in
      let tmp23 := tmp2 ||| tmp3 in
      if negb (tmp01 ||| tmp23 =? 0) then Ret i
      else unrolled_chunks fuel m p len (i + BUFFER_FIND_NONZERO_OFFSET_UNROLL_FACTOR)
    else Ret i
  end.

Definition buffer_find_nonzero_offset (m : hmem) (buf len : Z) : outcome Z :=
  if negb (can_use_buffer_find_nonzero_offset buf len) then Fault AssertFailed else
  if len =? 0 then Ret 0 else
  r ← first_chunks m buf 0 (Z.to_nat BUFFER_FIND_NONZERO_OFFSET_UNROLL_FACTOR);
  match r with
  | Some i => Ret (i * vs)
  | None =>
    i ← unrolled_chunks (S (Z.to_nat len)) m buf len
          BUFFER_FIND_NONZERO_OFFSET_UNROLL_FACTOR;
    Ret (i * vs)
  end.

(** The loop over four words at a time. *)
Fixpoint long_chunks (fuel : nat) (m : hmem) (data len i : Z) : outcome bool :=
  match fuel with
  | O => NoFuel
  | S fuel =>
    if i <? len then
      d0 ← elem SIZEOF_LONG m data (i + 0); d1 ← elem SIZEOF_LONG m data (i + 1);
      d2 ← elem SIZEOF_LONG m data (i + 2); d3 ← elem SIZEOF_LONG m data (i + 3);
      if negb (d0 =? 0) || negb (d1 =? 0) || negb (d2 =? 0) || negb (d3 =? 0)
      then Ret false
      else long_chunks fuel m data len (i + 4)
    else Ret true
  end.

Definition buffer_is_zero (m : hmem) (buf len : Z) : outcome bool :=
  if can_use_buffer_find_nonzero_offset buf len then
    r ← buffer_find_nonzero_offset m buf len; Ret (r =? len)
  else if negb (len mod (4 * SIZEOF_LONG) =? 0) then Fault AssertFailed
  else long_chunks (S (Z.to_nat len)) m buf (len / SIZEOF_LONG) 0.

End scans.

(** A run of accessible bytes, and of zero bytes. *)
Definition bytes_at (m : hmem) (a n : Z) : Prop :=
  forall x, a <= x < a + n -> exists b, m !! x = Some b /\ is_byte b.

Definition zero_at (m : hmem) (a n : Z) : Prop :=
  forall x, a <= x < a + n -> m !! x = Some 0.

Lemma bytes_at_gather m a n :
  bytes_at m a n -> exists bs, gather m (seqZ a n) = Some bs /\ Forall is_byte bs.
Proof.
  intros H. destruct (proj1 (gather_accessible m (seqZ a n))) as [bs Hbs].
  { apply Forall_forall. intros x Hx%elem_of_seqZ.
    destruct (H x Hx) as (b & -> & _). eauto. }
  exists bs. split; [done|]. unfold gather in Hbs. apply mapM_Some in Hbs.
  apply Forall_forall. intros b Hb.
  eapply Forall2_Forall_r in Hbs; [eapply Forall_forall in Hbs; [exact Hbs|done]|].
  apply Forall_forall. intros x Hx%elem_of_seqZ y Hy. simpl in Hy.
  destruct (H x Hx) as (b' & Hb' & ?). congruence.
Qed.

Lemma le_combine_zero bs : Forall is_byte bs -> le_combine bs = 0 -> Forall (eq 0) bs.
Proof.
  induction 1 as [|b bs Hb Hbs IH]; [done|]. cbn [le_combine]. intros H0.
  pose proof (le_combine_range bs Hbs). unfold is_byte in Hb.
  constructor; [lia|]. apply IH. lia.
Qed.

Lemma le_combine_zeros bs : Forall (eq 0) bs -> le_combine bs = 0.
Proof. induction 1 as [|b bs <- Hbs IH]; [done|]. cbn [le_combine]. lia. Qed.

Lemma zero_at_gather m a n bs :
  gather m (seqZ a n) = Some bs -> (Forall (eq 0) bs <-> zero_at m a n).
Proof.
  unfold gather. intros H%mapM_Some. split.
  - intros Hz x Hx%elem_of_seqZ. apply list_elem_of_lookup in Hx as [i Hi].
    destruct (Forall2_lookup_l _ _ _ _ _ H Hi) as (y & Hy & Hxy).
    rewrite Hxy. by rewrite (Forall_lookup_1 _ _ _ _ Hz Hy) at 1.
  - intros Hz. apply Forall_lookup. intros i y Hy.
    destruct (Forall2_lookup_r _ _ _ _ _ H Hy) as (x & Hx & Hxy).
    apply list_elem_of_lookup_2, elem_of_seqZ, Hz in Hx. congruence.
Qed.

(** A zero run of [n1 + n2] bytes is two zero runs. *)
Lemma zero_at_add m a n1 n2 :
  0 <= n1 -> 0 <= n2 ->
  zero_at m a (n1 + n2) <-> zero_at m a n1 /\ zero_at m (a + n1) n2.
Proof.
  intros H1 H2. unfold zero_at. split.
  - intros H. split; intros x Hx; apply H; lia.
  - intros [Ha Hb] x Hx. destruct (Z.ltb_spec x (a + n1)); [apply Ha|apply Hb]; lia.
Qed.

Lemma elem_spec n m p i :
  bytes_at m (p + i * n) n ->
  exists v, elem n m p i = Ret v /\ (v = 0 <-> zero_at m (p + i * n) n).
Proof.
  intros H. destruct (bytes_at_gather _ _ _ H) as (bs & Hbs & Hb).
  exists (le_combine bs). unfold elem. rewrite (load_gather _ _ _ _ Hbs). split; [done|].
  rewrite <- (zero_at_gather _ _ _ _ Hbs).
  split; [by apply le_combine_zero|by apply le_combine_zeros].
Qed.

Lemma bytes_at_sub m a n b k :
  bytes_at m a n -> a <= b -> b + k <= a + n -> bytes_at m b k.
Proof. intros H H1 H2 x Hx. apply H. lia. Qed.

Lemma zero_at_sub m a n b k :
  zero_at m a n -> a <= b -> b + k <= a + n -> zero_at m b k.
Proof. intros H H1 H2 x Hx. apply H. lia. Qed.

(** Reads the next element of an accessible buffer. *)
Ltac read_elem H :=
  match goal with
  | |- context [elem ?n ?m ?p ?i] =>
    let v := fresh "v" in let Hv := fresh "Hv" in
    destruct (elem_spec n m p i) as (v & -> & Hv);
    [eapply bytes_at_sub; [exact H|nia|nia]|]; cbn [mbind outcome_bind]
  end.

Lemma first_chunks_spec vs m p i k :
  0 < vs -> 0 <= i -> bytes_at m p ((i + Z.of_nat k) * vs) -> zero_at m p (i * vs) ->
  exists r, first_chunks vs m p i k = Ret r /\
    match r with
    | None => zero_at m p ((i + Z.of_nat k) * vs)
    | Some j => i <= j < i + Z.of_nat k /\ zero_at m p (j * vs)
                /\ ~ zero_at m (p + j * vs) vs
    end.
Proof.
  intros Hvs. revert i. induction k as [|k IH]; intros i Hi Hb Hz.
  - exists None. rewrite Z.add_0_r. done.
  - cbn [first_chunks]. read_elem Hb.
    destruct (Z.eqb_spec v 0) as [Hv0|Hv0]; cbn [negb].
    + destruct (IH (i + 1)) as (r & Hr & Hs); [lia|by replace (i + 1 + Z.of_nat k) with (i + Z.of_nat (S k)) by lia| |].
      { replace ((i + 1) * vs) with (i * vs + vs) by lia.
        apply zero_at_add; [nia|lia|]. tauto. }
      exists r. split; [done|]. replace (i + Z.of_nat (S k)) with (i + 1 + Z.of_nat k) by lia.
      destruct r; [|done]. intuition lia.
    + exists (Some i). split; [done|]. split_and!; [lia..|done|tauto].
Qed.

(** Eight vectors are zero together when their disjunction is. *)
Lemma zero_at_8 vs m a :
  0 < vs ->
  zero_at m a (8 * vs) <->
  zero_at m (a + 0 * vs) vs /\ zero_at m (a + 1 * vs) vs /\
  zero_at m (a + 2 * vs) vs /\ zero_at m (a + 3 * vs) vs /\
  zero_at m (a + 4 * vs) vs /\ zero_at m (a + 5 * vs) vs /\
  zero_at m (a + 6 * vs) vs /\ zero_at m (a + 7 * vs) vs.
Proof.
  intros Hvs. split.
  - intros H. split_and!; (eapply zero_at_sub; [exact H|nia|nia]).
  - intros (H0 & H1 & H2 & H3 & H4 & H5 & H6 & H7) x Hx.
    destruct (Z.ltb_spec x (a + 1 * vs)); [apply H0; lia|].
    destruct (Z.ltb_spec x (a + 2 * vs)); [apply H1; lia|].
    destruct (Z.ltb_spec x (a + 3 * vs)); [apply H2; lia|].
    destruct (Z.ltb_spec x (a + 4 * vs)); [apply H3; lia|].
    destruct (Z.ltb_spec x (a + 5 * vs)); [apply H4; lia|].
    destruct (Z.ltb_spec x (a + 6 * vs)); [apply H5; lia|].
    destruct (Z.ltb_spec x (a + 7 * vs)); [apply H6; lia|apply H7; lia].
Qed.

Lemma unrolled_chunks_spec fuel vs m p q c :
  0 < vs -> 0 <= c <= q -> (Z.to_nat (q - c) < fuel)%nat ->
  bytes_at m p (q * (8 * vs)) -> zero_at m p (c * (8 * vs)) ->
  exists r, unrolled_chunks vs fuel m p (q * (8 * vs)) (c * 8) = Ret (r * 8) /\
    c <= r <= q /\ zero_at m p (r * (8 * vs)) /\
    (r = q \/ r < q /\ ~ zero_at m (p + r * (8 * vs)) (8 * vs)).
Proof.
  intros Hvs. revert c. induction fuel as [|fuel IH]; intros c Hc Hf Hb Hz; [lia|].
  cbn [unrolled_chunks].
  replace (q * (8 * vs) / vs) with (q * 8)
    by (symmetry; rewrite Z.mul_assoc; apply Z.div_mul; lia).
  destruct (Z.ltb_spec (c * 8) (q * 8)) as [Hlt|Hge].
  2: { exists c. split_and!; [done|lia..|done|lia]. }
  do 8 read_elem Hb. rewrite !Z.mul_add_distr_r, !Z.add_assoc in *.
  replace (p + c * 8 * vs) with (p + c * (8 * vs)) in * by lia.
  pose proof (zero_at_8 vs m (p + c * (8 * vs)) Hvs) as H8.
  match goal with |- context [?e =? 0] => destruct (Z.eqb_spec e 0) as [E|E] end;
    cbn [negb]; rewrite !Z.lor_eq_0_iff in E.
  - destruct (IH (c + 1)) as (r & Hr & Hs1 & Hs2 & Hs3);
      [lia..|done| |].
    + rewrite Z.mul_add_distr_r, Z.mul_1_l. apply zero_at_add; [nia|lia|]. tauto.
    + exists r. change BUFFER_FIND_NONZERO_OFFSET_UNROLL_FACTOR with 8.
      replace (c * 8 + 8) with ((c + 1) * 8) by lia. split_and!; [done|lia..|done|done].
  - exists c. split_and!; [done|lia..|done|]. right. split; [lia|]. tauto.
Qed.

Lemma long_chunks_spec fuel m p q c :
  0 <= c <= q -> (Z.to_nat (q - c) < fuel)%nat ->
  bytes_at m p (q * 32) -> zero_at m p (c * 32) ->
  exists b, long_chunks fuel m p (q * 4) (c * 4) = Ret b /\
    (b = true <-> zero_at m p (q * 32)).
Proof.
  revert c. induction fuel as [|fuel IH]; intros c Hc Hf Hb Hz; [lia|].
  cbn [long_chunks]. destruct (Z.ltb_spec (c * 4) (q * 4)) as [Hlt|Hge].
  2: { exists true. by replace q with c by lia. }
  unfold SIZEOF_LONG. do 4 read_elem Hb.
  destruct (negb (v2 =? 0) || _ || _ || _) eqn:E.
  - exists false. split; [done|]. split; [done|]. intros Hq. exfalso.
    assert (v = 0 /\ v0 = 0 /\ v1 = 0 /\ v2 = 0) as (-> & -> & -> & ->); [|done].
    split_and!; [apply Hv|apply Hv0|apply Hv1|apply Hv2];
      (eapply zero_at_sub; [exact Hq|lia|lia]).
  - zbool. destruct (IH (c + 1)) as (b & Hr & Hs); [lia..|done| |].
    + intros x Hx. destruct (Z.ltb_spec x (p + c * 32)); [apply Hz; lia|].
      destruct (Z.ltb_spec x (p + c * 32 + 8)); [apply Hv2; lia|].
      destruct (Z.ltb_spec x (p + c * 32 + 16)); [apply Hv1; lia|].
      destruct (Z.ltb_spec x (p + c * 32 + 24)); [apply Hv0; lia|apply Hv; lia].
    + exists b. by replace (c * 4 + 4) with ((c + 1) * 4) by lia.
Qed.

Lemma buffer_find_nonzero_offset_spec vs m buf len :
  0 < vs -> 0 <= len -> can_use_buffer_find_nonzero_offset vs buf len = true ->
  bytes_at m buf len ->
  exists r, buffer_find_nonzero_offset vs m buf len = Ret r /\
    0 <= r <= len /\ zero_at m buf r /\
    (r < len -> let n := if r <? 8 * vs then vs else 8 * vs in
       r mod vs = 0 /\ r + n <= len /\ ~ zero_at m (buf + r) n).
Proof.
  intros Hvs Hlen Hcan Hb. unfold buffer_find_nonzero_offset. rewrite Hcan. cbn [negb].
  unfold can_use_buffer_find_nonzero_offset in Hcan. zbool.
  destruct (Z.eqb_spec len 0) as [->|Hne].
  { exists 0. split; [done|]. split; [lia|]. split; [|lia]. intros x Hx. lia. }
  apply Z.mod_divide in H as [q ->]; [|unfold BUFFER_FIND_NONZERO_OFFSET_UNROLL_FACTOR; lia].
  change (Z.to_nat BUFFER_FIND_NONZERO_OFFSET_UNROLL_FACTOR) with 8%nat.
  change BUFFER_FIND_NONZERO_OFFSET_UNROLL_FACTOR with 8 in *.
  assert (1 <= q) as Hq by nia.
  destruct (first_chunks_spec vs m buf 0 8) as (r & -> & Hr);
    [lia..|eapply bytes_at_sub; [exact Hb|lia|nia]|intros x Hx; lia|].
  destruct r as [j|]; cbn [mbind outcome_bind].
  - destruct Hr as (Hj & Hz & Hn). exists (j * vs). split; [done|].
    split; [nia|]. split; [done|]. intros _. split; [apply Z.mod_mul; lia|].
    destruct (Z.ltb_spec (j * vs) (8 * vs)); [|nia]. split; [nia|done].
  - destruct (unrolled_chunks_spec (S (Z.to_nat (q * (8 * vs)))) vs m buf q 1)
      as (r & Hu & Hr1 & Hr2 & Hr3); [lia|nia|nia|done| |].
    { eapply zero_at_sub; [exact Hr|lia|lia]. }
    change (1 * 8) with 8 in Hu. rewrite Hu. cbn [mbind outcome_bind].
    exists (r * 8 * vs). replace (r * 8 * vs) with (r * (8 * vs)) by lia.
    split; [done|]. split; [nia|]. split; [done|]. intros Hlt.
    split; [rewrite Z.mul_assoc; apply Z.mod_mul; lia|].
    destruct (Z.ltb_spec (r * (8 * vs)) (8 * vs)); [nia|].
    destruct Hr3 as [->|[? Hr3]]; [lia|]. split; [nia|done].
Qed.

(** On a buffer of accessible bytes whose length is a multiple of four longs,
    [buffer_is_zero] returns and tells whether all bytes are zero, by vectors
    of 8 or 16 bytes where length and alignment allow it and by longs
    otherwise. *)
Lemma buffer_is_zero_spec vs m buf len :
  vs = 8 \/ vs = 16 -> 0 <= len -> len mod 32 = 0 -> bytes_at m buf len ->
  exists b, buffer_is_zero vs m buf len = Ret b /\ (b = true <-> zero_at m buf len).
Proof.
  intros Hvs Hlen Hmod Hb. unfold buffer_is_zero.
  destruct (can_use_buffer_find_nonzero_offset vs buf len) eqn:Hcan.
  - destruct (buffer_find_nonzero_offset_spec vs m buf len) as (r & -> & Hr & Hz & Hn);
      [lia..|done|done|].
    exists (r =? len). split; [done|]. split.
    + intros ->%Z.eqb_eq. done.
    + intros Hall. apply Z.eqb_eq. destruct (Z.eqb_spec r len) as [|Hne]; [done|].
      destruct Hn as (Hm & Hle & Hn); [lia|]. destruct Hn.
      eapply zero_at_sub; [exact Hall|lia|lia].
  - change (4 * SIZEOF_LONG) with 32. rewrite Hmod. cbn [negb Z.eqb].
    apply Z.mod_divide in Hmod as [q ->]; [|lia].
    replace (q * 32 / SIZEOF_LONG) with (q * 4)
      by (unfold SIZEOF_LONG; replace (q * 32) with (q * 4 * 8) by lia;
          symmetry; apply Z.div_mul; lia).
    apply (long_chunks_spec _ m buf q 0); [lia|lia|done|]. intros x Hx. lia.
Qed.
