(* ===== verification/Iov.v ===== *)
(** * Scatter/gather vectors

    The vectors of buffers of src/util/iov.c: copies between a vector and a
    buffer, transfers over a socket, copies and cuts of vectors, and the
    growing vectors ([QEMUIOVector]) of the block layer.  Vectors point into
    the memory of file [HostMem]; an array with its count is the list of its
    elements.  The sort of the C library and the socket calls are parameters
    with their documented behaviour. *)

From stdpp Require Import sorting.
From S2P Require Import Prelude HostMem.

Record iovec := mk_iovec { iov_base : Z; iov_len : Z }.

#[export] Instance iovec_eq_dec : EqDecision iovec.
Proof. solve_decision. Defined.

(** The addresses of the bytes of a vector, in order. *)
Definition iov_addrs (iov : list iovec) : list Z :=
  concat ((fun v => seqZ (iov_base v) (iov_len v)) <$> iov).

(** ** Copies *)

(** The loop shared by [iov_from_buf], [iov_to_buf] and [iov_memset]; they
    differ in the access [op] to the [len] bytes at an address, [done] bytes
    into the transfer.  The result is the state with [offset] and [done].
    [done <= bytes] throughout, so no difference wraps. *)
Fixpoint iov_loop {S} (op : Z -> Z -> Z -> S -> outcome S)
    (iov : list iovec) (offset done bytes : Z) (s : S) : outcome (S * Z * Z) :=
  match iov with
  | [] => Ret (s, offset, done)
  | v :: iov =>
    if negb (offset =? 0) || (done <? bytes) then
      if offset <? iov_len v then
        let len := Z.min (iov_len v - offset) (bytes - done) in
        s ← op (iov_base v + offset) done len s;
        iov_loop op iov 0 (done + len) bytes s
      else iov_loop op iov (offset - iov_len v) done bytes s
    else Ret (s, offset, done)
  end.

Definition iov_from_buf (m : hmem) (iov : list iovec) (offset buf bytes : Z)
    : outcome (hmem * Z) :=
  '(m, offset, done) ←
    iov_loop (fun p done len m => memcpy m p (buf + done) len) iov offset 0 bytes m;
  if offset =? 0 then Ret (m, done) else Fault AssertFailed.

Definition iov_to_buf (m : hmem) (iov : list iovec) (offset buf bytes : Z)
    : outcome (hmem * Z) :=
  '(m, offset, done) ←
    iov_loop (fun p done len m => memcpy m (buf + done) p len) iov offset 0 bytes m;
  if offset =? 0 then Ret (m, done) else Fault AssertFailed.

Definition iov_memset (m : hmem) (iov : list iovec) (offset fillc bytes : Z)
    : outcome (hmem * Z) :=
  '(m, offset, done) ←
    iov_loop (fun p done len m => memset m p fillc len) iov offset 0 bytes m;
  if offset =? 0 then Ret (m, done) else Fault AssertFailed.

Definition iov_size (iov : list iovec) : Z :=
  foldl (fun len v => u64 (len + iov_len v)) 0 iov.

(** [iov_copy]: the loop over the source with [j] elements of [dst_iov]
    written. *)
Fixpoint iov_copy_loop (dst_iov : list iovec) (dst_iov_cnt : nat)
    (iov : list iovec) (offset bytes : Z) (j : nat)
    : outcome (list iovec * Z * nat) :=
  match iov with
  | [] => Ret (dst_iov, offset, j)
  | v :: iov =>
    if (j <? dst_iov_cnt)%nat && negb (bytes =? 0) then
      if iov_len v <=? offset then
        iov_copy_loop dst_iov dst_iov_cnt iov (offset - iov_len v) bytes j
      else
        let len := Z.min bytes (iov_len v - offset) in
        match dst_iov !! j with
        | None => Fault OutOfBounds
        | Some _ =>
          iov_copy_loop (<[j := mk_iovec (iov_base v + offset) len]> dst_iov)
            dst_iov_cnt iov 0 (bytes - len) (S j)
        end
    else Ret (dst_iov, offset, j)
  end.

Definition iov_copy (dst_iov : list iovec) (dst_iov_cnt : nat) (iov : list iovec)
    (offset bytes : Z) : outcome (list iovec * nat) :=
  '(dst_iov, offset, j) ← iov_copy_loop dst_iov dst_iov_cnt iov offset bytes 0;
  if offset =? 0 then Ret (dst_iov, j) else Fault AssertFailed.

(** [iov_discard_front]: the bytes discarded and the vector [*iov] points to
    afterwards, its first element cut in place. *)
Fixpoint discard_front_loop (cur : list iovec) (bytes total : Z) : Z * list iovec :=
  match cur with
  | [] => (total, [])
  | v :: rest =>
    if bytes <? iov_len v then
      (total + bytes, mk_iovec (iov_base v + bytes) (iov_len v - bytes) :: rest)
    else discard_front_loop rest (bytes - iov_len v) (total + iov_len v)
  end.

Definition iov_discard_front (iov : list iovec) (bytes : Z) : Z * list iovec :=
  discard_front_loop iov bytes 0.

(** [iov_discard_back] with the array and its count: [cur] is the element
    before [iov_cnt]. *)
Fixpoint discard_back_loop (iov : list iovec) (iov_cnt : nat) (bytes total : Z)
    : outcome (Z * list iovec * nat) :=
  match iov_cnt with
  | O => Ret (total, iov, O)
  | S k =>
    match iov !! k with
    | None => Fault OutOfBounds
    | Some cur =>
      if bytes <? iov_len cur then
        Ret (total + bytes, <[k := mk_iovec (iov_base cur) (iov_len cur - bytes)]> iov,
             S k)
      else discard_back_loop iov k (bytes - iov_len cur) (total + iov_len cur)
    end
  end.

Definition iov_discard_back (iov : list iovec) (iov_cnt : nat) (bytes : Z)
    : outcome (Z * list iovec * nat) :=
  match iov_cnt with
  | O => Ret (0, iov, O)
  | S _ => discard_back_loop iov iov_cnt bytes 0
  end.

(** ** Transfers over a socket *)

Inductive errno := EINTR | EAGAIN | EOTHER.

#[export] Instance errno_eq_dec : EqDecision errno.
Proof. solve_decision. Defined.

(** The socket calls: what they leave of the world outside (and of memory),
    and a count of bytes or the error of a return value of -1. *)
Class Socket (world : Type) := {
  sendmsg : world -> hmem -> list iovec -> world * (errno + Z);
  recvmsg : world -> hmem -> list iovec -> world * hmem * (errno + Z);
}.

(** The first loop of both searches of [iov_send_recv]: how many full
    elements [offset] covers, and what is left of it. *)
Fixpoint skip_full (iov : list iovec) (offset : Z) : nat * Z :=
  match iov with
  | [] => (O, offset)
  | v :: iov =>
    if iov_len v <=? offset then
      let '(niov, offset) := skip_full iov (offset - iov_len v) in (S niov, offset)
    else (O, offset)
  end.

Section transfer.
Context {world : Type} `{Socket world}.

(** The loop ends with the first call that is not interrupted; [fuel] bounds
    the interruptions. *)
Fixpoint do_send_recv (fuel : nat) (w : world) (m : hmem) (iov : list iovec)
    (do_send : bool) : outcome (world * hmem * (errno + Z)) :=
  match fuel with
  | O => NoFuel
  | S fuel =>
    let '(w, m, ret) :=
      if do_send then let '(w, ret) := sendmsg w m iov in (w, m, ret)
      else recvmsg w m iov in
    match ret with
    | inl EINTR => do_send_recv fuel w m iov do_send
    | _ => Ret (w, m, ret)
    end
  end.

(** The end of the part to transfer: [bytes] of the vector [iov + k]; its last
    element is shortened for the call and restored after it.  Result: the
    array, and what the call gave. *)
Definition send_recv_tail (efuel : nat) (w : world) (m : hmem) (iov : list iovec)
    (k : nat) (bytes : Z) (do_send : bool)
    : outcome (list iovec * (world * hmem * (errno + Z))) :=
  let '(niov, tail) := skip_full (drop k iov) bytes in
  if negb (tail =? 0) then
    match iov !! (k + niov)%nat with
    | None => Fault AssertFailed
    | Some v =>
      if iov_len v <=? tail then Fault AssertFailed else
      let orig_len := iov_len v in
      let iov := <[(k + niov)%nat := mk_iovec (iov_base v) tail]> iov in
      r ← do_send_recv efuel w m (take (S niov) (drop k iov)) do_send;
      Ret (alter (fun v => mk_iovec (iov_base v) orig_len) (k + niov)%nat iov, r)
    end
  else
    r ← do_send_recv efuel w m (take niov (drop k iov)) do_send;
    Ret (iov, r).

(** One iteration with [iov + k] as the vector: the start of the part to
    transfer, its first element cut for the call and restored after it.
    Result: the new [k] and [offset], the array, and what the call gave. *)
Definition send_recv_step (efuel : nat) (w : world) (m : hmem) (iov : list iovec)
    (k : nat) (offset bytes : Z) (do_send : bool)
    : outcome (nat * Z * list iovec * (world * hmem * (errno + Z))) :=
  let '(niov, offset) := skip_full (drop k iov) offset in
  if negb (niov <? length iov - k)%nat then Fault AssertFailed else
  let k := (k + niov)%nat in
  let iov :=
    if offset =? 0 then iov
    else alter (fun v => mk_iovec (iov_base v + offset) (iov_len v - offset)) k iov in
  '(iov, r) ← send_recv_tail efuel w m iov k bytes do_send;
  let iov :=
    if offset =? 0 then iov
    else alter (fun v => mk_iovec (iov_base v - offset) (iov_len v + offset)) k iov in
  Ret (k, offset, iov, r).

Fixpoint send_recv_loop (fuel efuel : nat) (w : world) (m : hmem) (iov : list iovec)
    (k : nat) (offset bytes total : Z) (do_send : bool)
    : outcome (world * hmem * list iovec * (errno + Z)) :=
  match fuel with
  | O => NoFuel
  | S fuel =>
    if negb (0 <? bytes) then Ret (w, m, iov, inr total) else
    '(k, offset, iov, (w, m, ret)) ← send_recv_step efuel w m iov k offset bytes do_send;
    match ret with
    | inl EINTR => Fault AssertFailed
    | inl EAGAIN =>
      Ret (w, m, iov, if 0 <? total then inr total else inl EAGAIN)
    | inl e => Ret (w, m, iov, inl e)
    | inr ret =>
      if (ret =? 0) && negb do_send then Ret (w, m, iov, inr total)
      else send_recv_loop fuel efuel w m iov k (offset + ret) (bytes - ret)
             (total + ret) do_send
    end
  end.

Definition iov_send_recv (fuel efuel : nat) (w : world) (m : hmem) (iov : list iovec)
    (offset bytes : Z) (do_send : bool)
    : outcome (world * hmem * list iovec * (errno + Z)) :=
  send_recv_loop fuel efuel w m iov 0 offset bytes 0 do_send.

End transfer.

(** ** Growing vectors *)

(** [iov] is the allocated array, [None] an element never written; [nalloc]
    is -1 for an array the vector does not own. *)
Record QEMUIOVector := mk_qiov {
  iov : list (option iovec);
  niov : Z;
  nalloc : Z;
  size : Z;
}.

(** The first [niov] elements, as the loops over a vector read them. *)
Definition elems (q : QEMUIOVector) : outcome (list iovec) :=
  if Z.of_nat (length (iov q)) <? niov q then Fault OutOfBounds else
  match mapM id (take (Z.to_nat (niov q)) (iov q)) with
  | Some l => Ret l
  | None => Fault Uninitialised
  end.

Definition qemu_iovec_init (alloc_hint : Z) : QEMUIOVector :=
  mk_qiov (replicate (Z.to_nat alloc_hint) None) 0 alloc_hint 0.

Definition qemu_iovec_init_external (iov : list iovec) : QEMUIOVector :=
  mk_qiov (Some <$> iov) (Z.of_nat (length iov)) (-1) (iov_size iov).

Definition qemu_iovec_add (q : QEMUIOVector) (base len : Z) : outcome QEMUIOVector :=
  if nalloc q =? -1 then Fault AssertFailed else
  let q :=
    if niov q =? nalloc q then
      let n := s32 (2 * nalloc q + 1) in
      mk_qiov (resize (Z.to_nat n) None (iov q)) (niov q) n (size q)
    else q in
  if (0 <=? niov q) && (niov q <? Z.of_nat (length (iov q))) then
    Ret (mk_qiov (zset (iov q) (niov q) (Some (mk_iovec base len))) (niov q + 1)
           (nalloc q) (u64 (size q + len)))
  else Fault OutOfBounds.

Fixpoint concat_loop (dst : QEMUIOVector) (src_iov : list iovec)
    (soffset done sbytes : Z) : outcome (QEMUIOVector * Z * Z) :=
  match src_iov with
  | [] => Ret (dst, soffset, done)
  | v :: src_iov =>
    if done <? sbytes then
      if soffset <? iov_len v then
        let len := Z.min (iov_len v - soffset) (sbytes - done) in
        dst ← qemu_iovec_add dst (iov_base v + soffset) len;
        concat_loop dst src_iov 0 (done + len) sbytes
      else concat_loop dst src_iov (soffset - iov_len v) done sbytes
    else Ret (dst, soffset, done)
  end.

Definition qemu_iovec_concat_iov (dst : QEMUIOVector) (src_iov : list iovec)
    (soffset sbytes : Z) : outcome (QEMUIOVector * Z) :=
  if sbytes =? 0 then Ret (dst, 0) else
  if nalloc dst =? -1 then Fault AssertFailed else
  '(dst, soffset, done) ← concat_loop dst src_iov soffset 0 sbytes;
  if soffset =? 0 then Ret (dst, done) else Fault AssertFailed.

Definition qemu_iovec_concat (dst src : QEMUIOVector) (soffset sbytes : Z)
    : outcome QEMUIOVector :=
  l ← elems src;
  '(dst, _) ← qemu_iovec_concat_iov dst l soffset sbytes;
  Ret dst.

(** The bytes from [offs] up to the length, one by one. *)
Fixpoint tail_is_zero (m : hmem) (ptr offs : Z) (n : nat) : outcome bool :=
  match n with
  | O => Ret true
  | S n =>
    bs ← load m (ptr + offs) 1;
    if forallb (Z.eqb 0) bs then tail_is_zero m ptr (offs + 1) n else Ret false
  end.

Fixpoint is_zero_loop (vs : Z) (m : hmem) (l : list iovec) : outcome bool :=
  match l with
  | [] => Ret true
  | v :: l =>
    let offs := iov_len v / (4 * SIZEOF_LONG) * (4 * SIZEOF_LONG) in
    z ← (if offs =? 0 then Ret true else buffer_is_zero vs m (iov_base v) offs);
    if negb z then Ret false else
    z ← tail_is_zero m (iov_base v) offs (Z.to_nat (iov_len v - offs));
    if negb z then Ret false else is_zero_loop vs m l
  end.

Definition qemu_iovec_is_zero (vs : Z) (m : hmem) (q : QEMUIOVector) : outcome bool :=
  l ← elems q; is_zero_loop vs m l.

Definition qemu_iovec_reset (q : QEMUIOVector) : outcome QEMUIOVector :=
  if nalloc q =? -1 then Fault AssertFailed
  else Ret (mk_qiov (iov q) 0 (nalloc q) 0).

(** The array is freed: no element is left to access. *)
Definition qemu_iovec_destroy (q : QEMUIOVector) : outcome QEMUIOVector :=
  if nalloc q =? -1 then Fault AssertFailed else
  q ← qemu_iovec_reset q;
  Ret (mk_qiov [] (niov q) 0 (size q)).

Definition qemu_iovec_to_buf (m : hmem) (q : QEMUIOVector) (offset buf bytes : Z)
    : outcome (hmem * Z) :=
  l ← elems q; iov_to_buf m l offset buf bytes.

Definition qemu_iovec_from_buf (m : hmem) (q : QEMUIOVector) (offset buf bytes : Z)
    : outcome (hmem * Z) :=
  l ← elems q; iov_from_buf m l offset buf bytes.

Definition qemu_iovec_memset (m : hmem) (q : QEMUIOVector) (offset fillc bytes : Z)
    : outcome (hmem * Z) :=
  l ← elems q; iov_memset m l offset fillc bytes.

(** The [while] loop of [qemu_iovec_compare]: the final [len]. *)
Fixpoint equal_prefix (m : hmem) (p q : Z) (n : nat) : outcome Z :=
  match n with
  | O => Ret 0
  | S n =>
    x ← load m p 1; y ← load m q 1;
    if decide (x = y) then
      len ← equal_prefix m (p + 1) (q + 1) n; Ret (len + 1)
    else Ret 0
  end.

Fixpoint compare_loop (m : hmem) (a b : list iovec) (offset : Z) : outcome Z :=
  match a, b with
  | v :: a, w :: b =>
    if negb (iov_len v =? iov_len w) then Fault AssertFailed else
    len ← equal_prefix m (iov_base v) (iov_base w) (Z.to_nat (iov_len v));
    let offset := s64 (offset + len) in
    if negb (len =? iov_len v) then Ret offset else compare_loop m a b offset
  | _, _ => Ret (-1)
  end.

Definition qemu_iovec_compare (m : hmem) (a b : QEMUIOVector) : outcome Z :=
  if negb (niov a =? niov b) then Fault AssertFailed else
  la ← elems a; lb ← elems b; compare_loop m la lb 0.

Definition qemu_iovec_discard_back (q : QEMUIOVector) (bytes : Z)
    : outcome QEMUIOVector :=
  if size q <? bytes then Fault AssertFailed else
  l ← elems q;
  '(total, l, n) ← iov_discard_back l (length l) bytes;
  if negb (total =? bytes) then Fault AssertFailed else
  Ret (mk_qiov ((Some <$> l) ++ drop (length l) (iov q)) (Z.of_nat n) (nalloc q)
         (u64 (size q - bytes))).

(** ** Clones *)

Record IOVectorSortElem := mk_elem {
  src_index : Z;
  src_iov : iovec;
  dest_base : option Z;
}.

Definition sortelem_cmp_src_base (a b : IOVectorSortElem) : Z :=
  if iov_base (src_iov a) <? iov_base (src_iov b) then -1
  else if iov_base (src_iov b) <? iov_base (src_iov a) then 1
  else 0.

Definition sortelem_cmp_src_index (a b : IOVectorSortElem) : Z :=
  src_index a - src_index b.

(** The loop that lays the elements out from [buf] on; the null pointer is
    0. *)
Fixpoint clone_layout (l : list IOVectorSortElem) (buf last_end : Z)
    : list IOVectorSortElem :=
  match l with
  | [] => []
  | e :: l =>
    let cur := src_iov e in
    let rewind :=
      if negb (last_end =? 0) && (iov_base cur <? last_end)
      then last_end - iov_base cur else 0 in
    mk_elem (src_index e) cur (Some (buf - rewind))
    :: clone_layout l (buf + (iov_len cur - Z.min rewind (iov_len cur)))
         (Z.max (iov_base cur + iov_len cur) last_end)
  end.

(** The last loop, over the elements in the order of the source. *)
Fixpoint clone_add (dest : QEMUIOVector) (l : list IOVectorSortElem)
    (src : list iovec) : outcome QEMUIOVector :=
  match l, src with
  | e :: l, v :: src =>
    match dest_base e with
    | None => Fault Uninitialised
    | Some base => dest ← qemu_iovec_add dest base (iov_len v); clone_add dest l src
    end
  | _, _ => Ret dest
  end.

Section clone.
(** The sort of the C library. *)
Context (qsort : (IOVectorSortElem -> IOVectorSortElem -> Z) ->
                 list IOVectorSortElem -> list IOVectorSortElem).

Definition clone_elems (l : list iovec) (buf : Z) : list IOVectorSortElem :=
  let sortelems := imap (fun i v => mk_elem (Z.of_nat i) v None) l in
  qsort sortelem_cmp_src_index
    (clone_layout (qsort sortelem_cmp_src_base sortelems) buf 0).

Definition qemu_iovec_clone (dest src : QEMUIOVector) (buf : Z)
    : outcome QEMUIOVector :=
  l ← elems src; clone_add dest (clone_elems l buf) l.

End clone.

(** ** The part of a vector a transfer touches *)

Definition iov_ok (l : list iovec) : Prop := Forall (fun v => 0 <= iov_len v) l.

#[export] Instance iov_ok_dec l : Decision (iov_ok l).
Proof. unfold iov_ok. apply _. Defined.

Definition iov_total (l : list iovec) : Z := foldr (fun v n => iov_len v + n) 0 l.

(** The pieces of a vector that hold its bytes from [off] on, at most [n]. *)
Fixpoint iov_slice (off n : Z) (l : list iovec) : list iovec :=
  match l with
  | [] => []
  | v :: l =>
    if n <=? 0 then []
    else if off <? iov_len v then
      let len := Z.min (iov_len v - off) n in
      mk_iovec (iov_base v + off) len :: iov_slice 0 (n - len) l
    else iov_slice (off - iov_len v) n l
  end.

Lemma iov_total_nonneg l : iov_ok l -> 0 <= iov_total l.
Proof. induction 1; simpl; lia. Qed.

Lemma iov_total_app l k : iov_total (l ++ k) = iov_total l + iov_total k.
Proof. induction l; simpl; lia. Qed.

Lemma iov_addrs_cons v l : iov_addrs (v :: l) = seqZ (iov_base v) (iov_len v) ++ iov_addrs l.
Proof. done. Qed.

Lemma iov_addrs_app l k : iov_addrs (l ++ k) = iov_addrs l ++ iov_addrs k.
Proof. unfold iov_addrs. by rewrite fmap_app, concat_app. Qed.

Lemma length_iov_addrs l : iov_ok l -> length (iov_addrs l) = Z.to_nat (iov_total l).
Proof.
  induction 1 as [|v l Hv Hl IH]; [done|]. rewrite iov_addrs_cons, length_app, IH, length_seqZ.
  pose proof (iov_total_nonneg l Hl). simpl. lia.
Qed.

Lemma iov_slice_le0 off n l : n <= 0 -> iov_slice off n l = [].
Proof. intros. destruct l; [done|]. simpl. by destruct (Z.leb_spec n 0); [|lia]. Qed.

Lemma iov_slice_ok off n l : iov_ok l -> iov_ok (iov_slice off n l).
Proof.
  intros H. revert off n. induction H as [|v l Hv Hl IH]; intros off n; [constructor|].
  simpl. destruct (Z.leb_spec n 0); [constructor|].
  destruct (Z.ltb_spec off (iov_len v)); [|apply IH].
  constructor; [simpl; lia|apply IH].
Qed.

Lemma seqZ_take_drop b l o n :
  0 <= o <= l -> 0 <= n ->
  take (Z.to_nat n) (drop (Z.to_nat o) (seqZ b l)) = seqZ (b + o) (Z.min (l - o) n).
Proof.
  intros Ho Hn. replace l with (o + (l - o)) at 1 by lia.
  rewrite seqZ_app, drop_app_length' by (rewrite ?length_seqZ; lia).
  destruct (Z.leb_spec n (l - o)).
  - replace (l - o) with (n + (l - o - n)) at 1 by lia.
    rewrite seqZ_app, take_app_length' by (rewrite ?length_seqZ; lia).
    f_equal. lia.
  - rewrite take_ge by (rewrite length_seqZ; lia). f_equal. lia.
Qed.

(** The slice holds exactly the bytes asked for. *)
Lemma iov_slice_addrs off n l :
  iov_ok l -> 0 <= off -> 0 <= n ->
  iov_addrs (iov_slice off n l) = take (Z.to_nat n) (drop (Z.to_nat off) (iov_addrs l)).
Proof.
  intros H. revert off n. induction H as [|v l Hv Hl IH]; intros off n Ho Hn.
  { change (iov_addrs []) with (@nil Z). by rewrite drop_nil, take_nil. }
  cbn [iov_slice]. rewrite iov_addrs_cons.
  destruct (Z.leb_spec n 0); [by replace (Z.to_nat n) with 0%nat by lia|].
  destruct (Z.ltb_spec off (iov_len v)).
  - rewrite drop_app_le, take_app, length_drop, length_seqZ by (rewrite length_seqZ; lia).
    rewrite seqZ_take_drop, iov_addrs_cons, IH by lia. cbn [iov_base iov_len].
    f_equal. f_equal. lia.
  - rewrite drop_app_ge, length_seqZ, IH by (rewrite ?length_seqZ; lia).
    f_equal. f_equal. lia.
Qed.

Lemma iov_slice_total off n l :
  iov_ok l -> 0 <= off <= iov_total l -> 0 <= n ->
  iov_total (iov_slice off n l) = Z.min n (iov_total l - off).
Proof.
  intros Hl Ho Hn.
  assert (Z.to_nat (iov_total (iov_slice off n l)) = Z.to_nat (Z.min n (iov_total l - off))).
  { rewrite <- length_iov_addrs, iov_slice_addrs by (lia || by try apply iov_slice_ok).
    rewrite length_take, length_drop, length_iov_addrs by done. lia. }
  pose proof (iov_total_nonneg _ (iov_slice_ok off n l Hl)). lia.
Qed.

(** ** The copy loop *)

(** The accesses of a transfer, piece by piece. *)
Fixpoint do_pieces {S} (op : Z -> Z -> Z -> S -> outcome S) (l : list iovec)
    (done : Z) (s : S) : outcome S :=
  match l with
  | [] => Ret s
  | v :: l =>
    s ← op (iov_base v) done (iov_len v) s; do_pieces op l (done + iov_len v) s
  end.

Lemma iov_loop_pieces {S} (op : Z -> Z -> Z -> S -> outcome S) l off done bytes s :
  (forall a d s, op a d 0 s = Ret s) ->
  iov_ok l -> 0 <= off <= iov_total l -> done <= bytes ->
  iov_loop op l off done bytes s =
    (s ← do_pieces op (iov_slice off (bytes - done) l) done s;
     Ret (s, 0, done + iov_total (iov_slice off (bytes - done) l))).
Proof.
  intros Hop Hl. revert off done s. induction Hl as [|v l Hv Hl IH]; intros off d s Ho Hd.
  { simpl in *. replace off with 0 by lia. by rewrite Z.add_0_r. }
  cbn [iov_loop iov_slice iov_total foldr] in *. fold (iov_total l) in Ho.
  pose proof (iov_total_nonneg l Hl).
  destruct (Z.leb_spec (bytes - d) 0).
  - replace (d <? bytes) with false by (symmetry; apply Z.ltb_ge; lia).
    rewrite orb_false_r. destruct (Z.eqb_spec off 0) as [->|].
    { simpl. by rewrite Z.add_0_r. }
    cbn [negb]. destruct (Z.ltb_spec off (iov_len v)).
    + replace (Z.min _ _) with 0 by lia. rewrite Hop. simpl. rewrite IH by lia.
      rewrite (Z.add_0_r d), iov_slice_le0 by lia. simpl. do 2 f_equal. lia.
    + rewrite IH, iov_slice_le0 by lia. done.
  - replace (d <? bytes) with true by (symmetry; apply Z.ltb_lt; lia).
    rewrite orb_true_r. destruct (Z.ltb_spec off (iov_len v)); [|by rewrite IH by lia].
    cbn [do_pieces iov_base iov_len]. destruct (op _ d _ s) as [s'| |]; [|done..].
    cbn [mbind outcome_bind]. rewrite IH by lia.
    replace (bytes - (d + _)) with (bytes - d - Z.min (iov_len v - off) (bytes - d)) by lia.
    destruct (do_pieces _ _ _ s'); [|done..]. simpl. do 2 f_equal.
    unfold iov_total. lia.
Qed.

(** An offset behind the end of the vector touches nothing and is left over. *)
Lemma iov_loop_past {S} (op : Z -> Z -> Z -> S -> outcome S) l off done bytes s :
  iov_ok l -> iov_total l < off ->
  iov_loop op l off done bytes s = Ret (s, off - iov_total l, done).
Proof.
  intros Hl. revert off. induction Hl as [|v l Hv Hl IH]; intros off Ho.
  { simpl in *. by rewrite Z.sub_0_r. }
  cbn [iov_loop iov_total foldr] in *. fold (iov_total l) in *.
  pose proof (iov_total_nonneg l Hl).
  destruct (Z.eqb_spec off 0); [lia|]. cbn [negb orb].
  destruct (Z.ltb_spec off (iov_len v)); [lia|]. rewrite IH by lia. do 2 f_equal. f_equal. lia.
Qed.

Lemma gather_app_Some m A B bs :
  gather m (A ++ B) = Some bs ->
  exists x y, bs = x ++ y /\ gather m A = Some x /\ gather m B = Some y.
Proof.
  rewrite gather_app. destruct (gather m A) as [x|]; [|done].
  destruct (gather m B) as [y|]; [|done]. intros [= <-]. eauto.
Qed.

(** Copies into the pieces from a buffer apart from them. *)
Lemma pieces_from_buf m buf l d bs :
  iov_ok l -> gather m (seqZ (buf + d) (iov_total l)) = Some bs ->
  accessible m (iov_addrs l) ->
  (forall x, x ∈ iov_addrs l -> x ∉ seqZ (buf + d) (iov_total l)) ->
  do_pieces (fun p done len m => memcpy m p (buf + done) len) l d m
    = Ret (write_at m (iov_addrs l) bs).
Proof.
  intros Hl. revert m d bs. induction Hl as [|v l Hv Hl IH]; intros m d bs Hg Ha Hd; [done|].
  cbn [do_pieces iov_total foldr] in *. fold (iov_total l) in *.
  pose proof (iov_total_nonneg l Hl). rewrite iov_addrs_cons in *.
  rewrite seqZ_app in Hg, Hd by lia.
  apply gather_app_Some in Hg as (x & y & -> & Hx & Hy).
  apply accessible_app in Ha as [Ha1 Ha2].
  rewrite (memcpy_ok _ _ _ _ x) by (done || set_solver). cbn [mbind outcome_bind].
  rewrite <- Z.add_assoc in Hy, Hd.
  rewrite (IH _ _ y); [|rewrite gather_write_disj; [done|set_solver]
                       |by apply accessible_write_at|set_solver].
  rewrite write_at_app; [done|]. by rewrite (gather_length _ _ _ Hx), !length_seqZ.
Qed.

(** Copies out of the pieces to a buffer apart from them. *)
Lemma pieces_to_buf m buf l d bs :
  iov_ok l -> gather m (iov_addrs l) = Some bs ->
  accessible m (seqZ (buf + d) (iov_total l)) ->
  (forall x, x ∈ seqZ (buf + d) (iov_total l) -> x ∉ iov_addrs l) ->
  do_pieces (fun p done len m => memcpy m (buf + done) p len) l d m
    = Ret (write_at m (seqZ (buf + d) (iov_total l)) bs).
Proof.
  intros Hl. revert m d bs. induction Hl as [|v l Hv Hl IH]; intros m d bs Hg Ha Hd.
  { injection Hg as <-. by rewrite write_at_nil_r. }
  cbn [do_pieces iov_total foldr] in *. fold (iov_total l) in *.
  pose proof (iov_total_nonneg l Hl). rewrite iov_addrs_cons in *.
  rewrite seqZ_app in * by lia.
  apply gather_app_Some in Hg as (x & y & -> & Hx & Hy).
  apply accessible_app in Ha as [Ha1 Ha2].
  rewrite (memcpy_ok _ _ _ _ x) by (done || set_solver). cbn [mbind outcome_bind].
  rewrite <- Z.add_assoc in Ha2, Hd |- *.
  rewrite (IH _ _ y); [|rewrite gather_write_disj; [done|set_solver]
                       |by apply accessible_write_at|set_solver].
  rewrite write_at_app; [done|]. by rewrite (gather_length _ _ _ Hx), !length_seqZ.
Qed.

Lemma pieces_memset m c l d :
  iov_ok l -> accessible m (iov_addrs l) ->
  do_pieces (fun p done len m => memset m p c len) l d m
    = Ret (write_at m (iov_addrs l) (replicate (Z.to_nat (iov_total l)) (u8 c))).
Proof.
  intros Hl. revert m d. induction Hl as [|v l Hv Hl IH]; intros m d Ha; [done|].
  cbn [do_pieces iov_total foldr] in *. fold (iov_total l) in *.
  pose proof (iov_total_nonneg l Hl). rewrite iov_addrs_cons in *.
  apply accessible_app in Ha as [Ha1 Ha2]. rewrite memset_ok by done.
  cbn [mbind outcome_bind]. rewrite IH by (by apply accessible_write_at).
  rewrite Z2Nat.inj_add, replicate_add, write_at_app by
    (rewrite ?length_seqZ, ?length_replicate; lia). done.
Qed.

(** The addresses of the bytes of a vector from [off] on, at most [n]. *)
Definition iov_part (l : list iovec) (off n : Z) : list Z :=
  take (Z.to_nat n) (drop (Z.to_nat off) (iov_addrs l)).

(** Turns a copy on a vector into the accesses to its pieces. *)
Ltac by_pieces :=
  rewrite iov_loop_pieces by (done || lia);
  rewrite Z.sub_0_r, Z.add_0_l, iov_slice_total by (done || lia).

Section copies.
Context (m : hmem) (l : list iovec) (off buf bytes : Z).
Context (Hl : iov_ok l) (Hoff : 0 <= off) (Hbytes : 0 <= bytes).

Lemma iov_copies_past c :
  iov_total l < off ->
  iov_from_buf m l off buf bytes = Fault AssertFailed /\
  iov_to_buf m l off buf bytes = Fault AssertFailed /\
  iov_memset m l off c bytes = Fault AssertFailed.
Proof.
  intros H. unfold iov_from_buf, iov_to_buf, iov_memset.
  rewrite !iov_loop_past by done. cbn [mbind outcome_bind].
  destruct (Z.eqb_spec (off - iov_total l) 0); [lia|done].
Qed.

Context (Hin : off <= iov_total l).
Let n := Z.min bytes (iov_total l - off).

Lemma iov_from_buf_ok data :
  gather m (seqZ buf n) = Some data -> accessible m (iov_part l off bytes) ->
  (forall x, x ∈ iov_part l off bytes -> x ∉ seqZ buf n) ->
  iov_from_buf m l off buf bytes = Ret (write_at m (iov_part l off bytes) data, n).
Proof.
  unfold iov_part. rewrite <- iov_slice_addrs by done. intros Hg Ha Hd.
  unfold iov_from_buf. by_pieces.
  pose proof (pieces_from_buf m buf (iov_slice off bytes l) 0 data) as Hp.
  rewrite Z.add_0_r, iov_slice_total in Hp by (done || lia).
  rewrite Hp by (done || by apply iov_slice_ok). done.
Qed.

Lemma iov_to_buf_ok data :
  gather m (iov_part l off bytes) = Some data -> accessible m (seqZ buf n) ->
  (forall x, x ∈ iov_part l off bytes -> x ∉ seqZ buf n) ->
  iov_to_buf m l off buf bytes = Ret (write_at m (seqZ buf n) data, n).
Proof.
  unfold iov_part. rewrite <- iov_slice_addrs by done. intros Hg Ha Hd.
  unfold iov_to_buf. by_pieces.
  pose proof (pieces_to_buf m buf (iov_slice off bytes l) 0 data) as Hp.
  rewrite Z.add_0_r, iov_slice_total in Hp by (done || lia).
  rewrite Hp by (done || (by apply iov_slice_ok) || naive_solver). done.
Qed.

Lemma iov_memset_ok c :
  accessible m (iov_part l off bytes) ->
  iov_memset m l off c bytes
    = Ret (write_at m (iov_part l off bytes) (replicate (Z.to_nat n) (u8 c)), n).
Proof.
  unfold iov_part. rewrite <- iov_slice_addrs by done. intros Ha.
  unfold iov_memset. by_pieces.
  rewrite pieces_memset, iov_slice_total by (done || lia || by apply iov_slice_ok). done.
Qed.

Lemma length_iov_part : length (iov_part l off bytes) = Z.to_nat n.
Proof.
  unfold iov_part, n. rewrite length_take, length_drop, length_iov_addrs by done. lia.
Qed.

End copies.

(** ** Copies and cuts of vectors *)

Lemma iov_copy_loop_spec dst cnt l off bytes j :
  iov_ok l -> 0 <= off <= iov_total l -> 0 <= bytes ->
  (j <= cnt <= length dst)%nat -> (off = 0 \/ (0 < bytes /\ (j < cnt)%nat)) ->
  let s := take (cnt - j) (iov_slice off bytes l) in
  iov_copy_loop dst cnt l off bytes j
    = Ret (take j dst ++ s ++ drop (j + length s) dst, 0, (j + length s)%nat).
Proof.
  intros Hl. revert dst off bytes j.
  induction Hl as [|v l Hv Hl IH]; intros dst off bytes j Ho Hb Hj Hc; cbv zeta.
  { simpl in *. rewrite take_nil, Nat.add_0_r. simpl. rewrite take_drop.
    by replace off with 0 by lia. }
  cbn [iov_copy_loop iov_slice iov_total foldr] in *. fold (iov_total l) in *.
  pose proof (iov_total_nonneg l Hl).
  destruct (Nat.ltb_spec j cnt) as [Hjc|Hjc]; cbn [andb].
  2: { replace (cnt - j)%nat with 0%nat by lia. simpl. rewrite Nat.add_0_r, take_drop.
       by replace off with 0 by lia. }
  destruct (Z.eqb_spec bytes 0) as [->|Hb0]; cbn [negb].
  { simpl. rewrite take_nil, Nat.add_0_r. simpl. rewrite take_drop.
    by replace off with 0 by lia. }
  destruct (Z.leb_spec bytes 0); [lia|].
  destruct (Z.leb_spec (iov_len v) off); destruct (Z.ltb_spec off (iov_len v)); try lia.
  { apply IH; lia || auto. }
  destruct (lookup_lt_is_Some_2 dst j ltac:(lia)) as [w ->].
  rewrite (Z.min_comm bytes). rewrite IH by (rewrite ?length_insert; auto; lia).
  destruct (cnt - j)%nat as [|k] eqn:Hk; [lia|]. cbn [take length].
  replace (cnt - S j)%nat with k by lia.
  rewrite (take_S_r _ _ (mk_iovec (iov_base v + off) (Z.min (iov_len v - off) bytes)))
    by (apply list_lookup_insert_eq; lia).
  rewrite take_insert_ge, drop_insert_lt, <- app_assoc by lia. simpl.
  by rewrite Nat.add_succ_r.
Qed.

(** A copy of a vector holds the part asked for, as far as [dst_iov] has
    room. *)
Lemma iov_copy_spec dst cnt l off bytes :
  iov_ok l -> 0 <= off <= iov_total l -> 0 < bytes -> (0 < cnt <= length dst)%nat ->
  let s := take cnt (iov_slice off bytes l) in
  iov_copy dst cnt l off bytes = Ret (s ++ drop (length s) dst, length s).
Proof.
  intros Hl Ho Hb Hc. unfold iov_copy.
  rewrite (iov_copy_loop_spec dst cnt l off bytes 0) by (done || lia).
  by rewrite Nat.sub_0_r.
Qed.

(** A copy of no bytes from inside a vector fails the assertion, unlike the
    other functions, which skip the offset first. *)
Lemma iov_copy_nothing dst cnt l off :
  0 < off -> iov_copy dst cnt l off 0 = Fault AssertFailed.
Proof.
  intros Ho. unfold iov_copy.
  assert (iov_copy_loop dst cnt l off 0 0 = Ret (dst, off, 0%nat)) as ->.
  { destruct l; [done|]. simpl. by rewrite andb_false_r. }
  cbn [mbind outcome_bind]. destruct (Z.eqb_spec off 0); [lia|done].
Qed.

Lemma discard_front_spec l bytes total :
  iov_ok l -> 0 <= bytes ->
  exists rest,
    discard_front_loop l bytes total = (total + Z.min bytes (iov_total l), rest) /\
    iov_ok rest /\ iov_addrs rest = drop (Z.to_nat bytes) (iov_addrs l).
Proof.
  intros Hl. revert bytes total. induction Hl as [|v l Hv Hl IH]; intros bytes total Hb.
  { exists []. simpl. rewrite Z.min_r, Z.add_0_r by lia. split; [done|]. split; [constructor|].
    change (iov_addrs []) with (@nil Z). by rewrite drop_nil. }
  cbn [discard_front_loop iov_total foldr]. fold (iov_total l).
  pose proof (iov_total_nonneg l Hl). rewrite iov_addrs_cons.
  destruct (Z.ltb_spec bytes (iov_len v)).
  - eexists. split; [f_equal; lia|]. split; [constructor; simpl; [lia|done]|].
    rewrite iov_addrs_cons, drop_app_le by (rewrite length_seqZ; lia). f_equal. simpl.
    replace (iov_len v) with (bytes + (iov_len v - bytes)) at 2 by lia.
    by rewrite seqZ_app, drop_app_length' by (rewrite ?length_seqZ; lia).
  - destruct (IH (bytes - iov_len v) (total + iov_len v)) as (rest & -> & ? & Hr); [lia|].
    exists rest. split; [f_equal; lia|]. split; [done|].
    rewrite Hr, drop_app_ge, length_seqZ by (rewrite length_seqZ; lia).
    f_equal. lia.
Qed.

Lemma discard_back_spec l cnt bytes total :
  (cnt <= length l)%nat -> iov_ok (take cnt l) -> 0 <= bytes ->
  exists l' k,
    discard_back_loop l cnt bytes total
      = Ret (total + Z.min bytes (iov_total (take cnt l)), l', k) /\
    (k <= cnt)%nat /\ length l' = length l /\ drop cnt l' = drop cnt l /\
    iov_ok (take k l') /\
    iov_addrs (take k l')
      = take (Z.to_nat (iov_total (take cnt l) - bytes)) (iov_addrs (take cnt l)).
Proof.
  revert bytes total. induction cnt as [|k IH]; intros bytes total Hc Hl Hb.
  { exists l, 0%nat. simpl. rewrite Z.min_r, Z.add_0_r by lia. split_and!; try done.
    symmetry. apply take_nil. }
  cbn [discard_back_loop]. destruct (lookup_lt_is_Some_2 l k) as [v Hv]; [lia|].
  rewrite Hv. pose proof (take_S_r _ _ _ Hv) as HS. rewrite HS in *.
  apply Forall_app in Hl as [Hl Hlv]. apply Forall_singleton in Hlv.
  rewrite iov_total_app, iov_addrs_app. simpl iov_total.
  pose proof (iov_total_nonneg _ Hl) as Ht.
  pose proof (length_iov_addrs _ Hl) as Hlen.
  change (iov_addrs [v]) with (seqZ (iov_base v) (iov_len v) ++ []). rewrite app_nil_r.
  destruct (Z.ltb_spec bytes (iov_len v)).
  - eexists _, (S k). split; [do 3 f_equal; lia|]. split; [done|].
    rewrite length_insert, drop_insert_lt by lia. split; [done|]. split; [done|].
    rewrite (take_S_r _ _ (mk_iovec (iov_base v) (iov_len v - bytes)))
      by (apply list_lookup_insert_eq; lia).
    rewrite take_insert_ge by lia. split.
    { apply Forall_app. split; [done|]. apply Forall_singleton. simpl. lia. }
    rewrite iov_addrs_app, take_app_ge, Hlen by lia. f_equal.
    change (iov_addrs [?w]) with (seqZ (iov_base w) (iov_len w) ++ []). rewrite app_nil_r.
    simpl. pose proof (seqZ_take_drop (iov_base v) (iov_len v) 0 (iov_len v - bytes)) as Hs.
    rewrite Z.add_0_r, Z.min_r in Hs by lia. rewrite <- Hs by lia. simpl. f_equal. lia.
  - destruct (IH (bytes - iov_len v) (total + iov_len v)) as (l' & j & -> & Hr);
      [lia|done|lia|]. destruct Hr as (Hj & Hll & Hd & Hok & Hr).
    exists l', j. split; [do 3 f_equal; lia|]. split; [lia|]. split; [done|].
    split; [by rewrite <- Nat.add_1_r, <- !drop_drop, Hd|].
    split; [done|]. rewrite Hr, take_app_le by lia. f_equal. lia.
Qed.

(** ** Transfers over a socket *)

(** What POSIX says of the calls: a count is at most the length of the vector,
    and positive for a send of at least one byte; the bytes counted were
    taken from, or put to, the front of the vector; a failed call moves
    nothing.  [interruptions] bounds how often calls are still interrupted. *)
Class SocketLaws (world : Type) `{Socket world} := {
  sent : world -> list Z;
  received : world -> list Z;
  interruptions : world -> nat;
  sendmsg_count w m l w' n bs :
    sendmsg w m l = (w', inr n) -> gather m (iov_addrs l) = Some bs ->
    0 <= n <= iov_total l /\ (0 < iov_total l -> 0 < n) /\
    (interruptions w' <= interruptions w)%nat /\
    sent w' = sent w ++ take (Z.to_nat n) bs;
  sendmsg_error w m l w' e :
    sendmsg w m l = (w', inl e) ->
    sent w' = sent w /\ (interruptions w' <= interruptions w)%nat /\
    (e = EINTR -> interruptions w' < interruptions w)%nat;
  recvmsg_count w m l w' m' n :
    recvmsg w m l = (w', m', inr n) -> accessible m (iov_addrs l) ->
    0 <= n <= iov_total l /\ (interruptions w' <= interruptions w)%nat /\
    exists bs, length bs = Z.to_nat n /\
      m' = write_at m (take (Z.to_nat n) (iov_addrs l)) bs /\
      received w' = received w ++ bs;
  recvmsg_error w m l w' m' e :
    recvmsg w m l = (w', m', inl e) ->
    m' = m /\ received w' = received w /\ (interruptions w' <= interruptions w)%nat /\
    (e = EINTR -> interruptions w' < interruptions w)%nat;
}.

Section transfers.
Context {world : Type} `{SocketLaws world}.

(** The bytes at the addresses [A] have been sent, or filled with what was
    received. *)
Definition moved (do_send : bool) (w : world) (m : hmem) (A : list Z)
    (w' : world) (m' : hmem) : Prop :=
  if do_send then
    m' = m /\ exists bs, gather m A = Some bs /\ sent w' = sent w ++ bs
  else
    exists bs, length bs = length A /\ m' = write_at m A bs /\
      received w' = received w ++ bs.

Lemma moved_app s w m A w1 m1 B w2 m2 :
  moved s w m A w1 m1 -> moved s w1 m1 B w2 m2 -> moved s w m (A ++ B) w2 m2.
Proof.
  destruct s; simpl.
  - intros (-> & x & Hx & Hs1) (-> & y & Hy & Hs2). split; [done|]. exists (x ++ y).
    rewrite gather_app, Hx, Hs2, Hs1, app_assoc. simpl. by rewrite Hy.
  - intros (x & Hx & -> & Hr1) (y & Hy & -> & Hr2). exists (x ++ y).
    rewrite !length_app, write_at_app, Hr2, Hr1, app_assoc by done. auto with lia.
Qed.

Lemma moved_accessible s w m A w' m' B :
  moved s w m A w' m' -> accessible m B -> accessible m' B.
Proof.
  destruct s; simpl; [by intros [-> _]|]. intros (x & _ & -> & _). apply accessible_write_at.
Qed.

(** A call that was not interrupted moved the bytes it counts. *)
Lemma do_send_recv_spec fuel (w : world) m l do_send :
  iov_ok l -> accessible m (iov_addrs l) -> (interruptions w < fuel)%nat ->
  exists (w' : world) m' ret,
    do_send_recv fuel w m l do_send = Ret (w', m', ret) /\
    (interruptions w' <= interruptions w)%nat /\
    match ret with
    | inl e => e <> EINTR /\ moved do_send w m [] w' m'
    | inr n => 0 <= n <= iov_total l /\ (do_send = true -> 0 < iov_total l -> 0 < n) /\
               moved do_send w m (take (Z.to_nat n) (iov_addrs l)) w' m'
    end.
Proof.
  intros Hl Ha. destruct (proj1 (gather_accessible _ _) Ha) as [bs Hbs].
  revert w. induction fuel as [|fuel IH]; intros w Hf; [lia|]. cbn [do_send_recv].
  destruct do_send.
  - destruct (sendmsg w m l) as [w' [e|n]] eqn:E.
    + apply sendmsg_error in E as (Hs & Hi & Hlt). destruct e.
      { specialize (Hlt eq_refl). destruct (IH w') as (w2 & m2 & ret & Hr & Hi2 & Hret); [lia|].
        exists w2, m2, ret. split; [done|]. split; [lia|].
        unfold moved in *. by rewrite Hs in Hret. }
      all: eexists _, _, _; split; [done|]; split; [done|]; split; [done|];
        split; [done|]; exists []; by rewrite app_nil_r.
    + destruct (sendmsg_count _ _ _ _ _ _ E Hbs) as (Hn & Hpos & Hi & Hs).
      eexists _, _, _. split; [done|]. split; [done|]. split; [done|]. split; [auto|].
      split; [done|]. eexists. split; [by apply gather_take|done].
  - destruct (recvmsg w m l) as [[w' m'] [e|n]] eqn:E.
    + apply recvmsg_error in E as (-> & Hs & Hi & Hlt). destruct e.
      { specialize (Hlt eq_refl). destruct (IH w') as (w2 & m2 & ret & Hr & Hi2 & Hret); [lia|].
        exists w2, m2, ret. split; [done|]. split; [lia|].
        unfold moved in *. by rewrite Hs in Hret. }
      all: eexists _, _, _; split; [done|]; split; [done|]; split; [done|];
        exists []; by rewrite app_nil_r.
    + destruct (recvmsg_count _ _ _ _ _ _ E Ha) as (Hn & Hi & x & Hx & -> & Hs).
      eexists _, _, _. split; [done|]. split; [done|]. split; [done|]. split; [done|].
      exists x. split; [|done]. rewrite Hx, length_take, length_iov_addrs by done. lia.
Qed.
End transfers.

(** The search for a position in a vector stops in the element that has it. *)
Lemma skip_full_spec l x :
  iov_ok l -> 0 <= x <= iov_total l ->
  exists n o, skip_full l x = (n, o) /\ (n <= length l)%nat /\
    x = iov_total (take n l) + o /\ 0 <= o /\
    match l !! n with Some v => o < iov_len v | None => o = 0 end.
Proof.
  intros Hl. revert x. induction Hl as [|v l Hv Hl IH]; intros x Hx.
  { exists 0%nat, x. simpl in *. split_and!; lia || done. }
  cbn [skip_full iov_total foldr] in *. fold (iov_total l) in *.
  destruct (Z.leb_spec (iov_len v) x).
  - destruct (IH (x - iov_len v)) as (n & o & -> & Hn & Ho & Hr); [lia|].
    exists (S n), o. cbn [take lookup list_lookup length iov_total foldr].
    fold (iov_total (take n l)). split_and!; [done|lia|lia|tauto|]. apply Hr.
  - exists 0%nat, x. simpl. split_and!; lia || done.
Qed.

Lemma iov_addrs_drop l n o :
  iov_ok l -> 0 <= o ->
  drop (Z.to_nat (iov_total (take n l) + o)) (iov_addrs l)
    = drop (Z.to_nat o) (iov_addrs (drop n l)).
Proof.
  intros Hl Ho. rewrite <- (take_drop n l) at 2. rewrite iov_addrs_app.
  assert (iov_ok (take n l)) as Ht by by apply Forall_take.
  pose proof (iov_total_nonneg _ Ht). pose proof (length_iov_addrs _ Ht).
  rewrite drop_app_ge by lia. f_equal. lia.
Qed.

Lemma iov_addrs_take l n o v :
  iov_ok l -> l !! n = Some v -> 0 <= o <= iov_len v ->
  iov_addrs (take n l ++ [mk_iovec (iov_base v) o])
    = take (Z.to_nat (iov_total (take n l) + o)) (iov_addrs l).
Proof.
  intros Hl Hv Ho. rewrite <- (take_drop_middle _ _ _ Hv) at 3.
  assert (iov_ok (take n l)) as Ht by by apply Forall_take.
  pose proof (iov_total_nonneg _ Ht). pose proof (length_iov_addrs _ Ht).
  rewrite !iov_addrs_app, !iov_addrs_cons. cbn [iov_base iov_len].
  rewrite take_app_ge by lia. f_equal. rewrite app_nil_r.
  rewrite take_app_le by (rewrite length_seqZ; lia).
  pose proof (seqZ_take_drop (iov_base v) (iov_len v) 0 o) as Hs.
  rewrite Z.add_0_r, Z.min_r in Hs by lia. rewrite <- Hs by lia. simpl. f_equal. lia.
Qed.

Lemma iov_total_split l n : iov_total (take n l) + iov_total (drop n l) = iov_total l.
Proof. rewrite <- iov_total_app. by rewrite take_drop. Qed.

Lemma alter_at {A} (f : A -> A) (l : list A) i x :
  l !! i = Some x -> alter f i l = <[i := f x]> l.
Proof.
  intros Hx. apply list_eq. intros j. destruct (decide (i = j)) as [<-|].
  - rewrite list_lookup_alter_eq, Hx, list_lookup_insert_eq; [done|].
    by eapply lookup_lt_Some.
  - by rewrite list_lookup_alter_ne, list_lookup_insert_ne.
Qed.

Section steps.
Context {world : Type} `{Socket world}.

Lemma send_recv_tail_spec efuel (w : world) m arr k bytes s :
  iov_ok arr -> 0 <= bytes <= iov_total (drop k arr) ->
  exists L,
    send_recv_tail efuel w m arr k bytes s
      = (r ← do_send_recv efuel w m L s; Ret (arr, r)) /\
    iov_ok L /\ iov_addrs L = take (Z.to_nat bytes) (iov_addrs (drop k arr)).
Proof.
  intros Harr Hb. assert (iov_ok (drop k arr)) as Hok by by apply Forall_drop.
  unfold send_recv_tail.
  destruct (skip_full_spec _ _ Hok Hb) as (n & o & -> & Hn & -> & Ho & Hv).
  destruct (Z.eqb_spec o 0) as [->|Ho0]; cbn [negb].
  - exists (take n (drop k arr)). split; [done|]. split; [by apply Forall_take|].
    rewrite Z.add_0_r. rewrite <- (take_drop n (drop k arr)) at 3.
    rewrite iov_addrs_app, take_app_length'; [done|].
    by rewrite length_iov_addrs by by apply Forall_take.
  - destruct (drop k arr !! n) as [v|] eqn:E; [|lia].
    assert (arr !! (k + n)%nat = Some v) as Ev by by rewrite <- lookup_drop. rewrite Ev.
    destruct (Z.leb_spec (iov_len v) o); [lia|].
    exists (take n (drop k arr) ++ [mk_iovec (iov_base v) o]).
    rewrite drop_insert_ge by lia. replace (k + n - k)%nat with n by lia.
    rewrite (take_S_r _ _ (mk_iovec (iov_base v) o)), take_insert_ge
      by (lia || (apply list_lookup_insert_eq; by eapply lookup_lt_Some)).
    split; [|split].
    + rewrite (alter_at _ _ _ (mk_iovec (iov_base v) o))
        by (apply list_lookup_insert_eq; by eapply lookup_lt_Some).
      rewrite list_insert_insert_eq, list_insert_id; [done|]. by destruct v.
    + apply Forall_app. split; [by apply Forall_take|]. by apply Forall_singleton.
    + apply iov_addrs_take; [done..|lia].
Qed.

(** Cutting [o] bytes off the element at [k] drops them from the vector. *)
Lemma step_front arr k v o :
  iov_ok arr -> arr !! k = Some v -> 0 <= o <= iov_len v ->
  let arr1 := <[k := mk_iovec (iov_base v + o) (iov_len v - o)]> arr in
  iov_ok arr1 /\ iov_total (drop k arr1) = iov_total (drop k arr) - o /\
  iov_addrs (drop k arr1) = drop (Z.to_nat o) (iov_addrs (drop k arr)).
Proof.
  intros Hok Hv Ho. cbv zeta. pose proof (lookup_lt_Some _ _ _ Hv).
  rewrite (drop_S arr v k Hv).
  rewrite (drop_S _ (mk_iovec (iov_base v + o) (iov_len v - o)) k),
    drop_insert_lt by (lia || by apply list_lookup_insert_eq).
  split; [by apply Forall_insert; [done|simpl; lia]|].
  split; [simpl; lia|]. rewrite !iov_addrs_cons. cbn [iov_base iov_len].
  rewrite drop_app_le by (rewrite length_seqZ; lia). f_equal.
  replace (iov_len v) with (o + (iov_len v - o)) at 2 by lia.
  by rewrite seqZ_app, drop_app_length' by (rewrite ?length_seqZ; lia).
Qed.

(** An iteration calls the socket on exactly the bytes to transfer and leaves
    the array as it was. *)
Lemma send_recv_step_spec efuel (w : world) m arr k off bytes s :
  iov_ok arr -> 0 <= off -> 0 < bytes -> off + bytes <= iov_total (drop k arr) ->
  exists k' off' L,
    send_recv_step efuel w m arr k off bytes s
      = (r ← do_send_recv efuel w m L s; Ret (k', off', arr, r)) /\
    iov_ok L /\
    iov_addrs L = take (Z.to_nat bytes) (drop (Z.to_nat off) (iov_addrs (drop k arr))) /\
    0 <= off' /\ off' + bytes <= iov_total (drop k' arr) /\
    drop (Z.to_nat off') (iov_addrs (drop k' arr))
      = drop (Z.to_nat off) (iov_addrs (drop k arr)).
Proof.
  intros Harr Ho Hb Hob. assert (iov_ok (drop k arr)) as Hok by by apply Forall_drop.
  unfold send_recv_step.
  destruct (skip_full_spec (drop k arr) off Hok ltac:(lia)) as (n & o & -> & Hn & -> & Ho' & Hv).
  pose proof (iov_total_split (drop k arr) n) as Hsp.
  destruct (drop k arr !! n) as [v|] eqn:E.
  2: { apply lookup_ge_None in E. rewrite (drop_ge (drop k arr)) in Hsp by lia.
       simpl in Hsp. lia. }
  rewrite drop_drop in Hsp.
  pose proof (lookup_lt_Some _ _ _ E) as Hlt. rewrite length_drop in Hlt.
  replace (negb (n <? length arr - k)%nat) with false
    by (symmetry; apply negb_false_iff, Nat.ltb_lt; lia).
  assert (arr !! (k + n)%nat = Some v) as Ev by by rewrite <- lookup_drop.
  set (v1 := mk_iovec (iov_base v + o) (iov_len v - o)).
  set (arr1 := <[(k + n)%nat := v1]> arr).
  assert ((if o =? 0 then arr
           else alter (fun v => mk_iovec (iov_base v + o) (iov_len v - o)) (k + n)%nat arr)
          = arr1) as ->.
  { destruct (Z.eqb_spec o 0) as [->|]; [|by rewrite (alter_at _ _ _ v)].
    unfold arr1, v1. rewrite Z.add_0_r, Z.sub_0_r, list_insert_id; [done|].
    by destruct v. }
  destruct (step_front arr (k + n) v o) as (Hok1 & Ht1 & Ha1); [done|done|lia|].
  destruct (send_recv_tail_spec efuel w m arr1 (k + n) bytes s) as (L & -> & HL & HA);
    [done|unfold arr1, v1; lia|].
  exists (k + n)%nat, o, L. split; [|split_and!; [done| |lia..|]].
  - destruct (do_send_recv efuel w m L s) as [r| |]; [|done..]. cbn [mbind outcome_bind].
    do 3 f_equal. destruct (Z.eqb_spec o 0) as [->|].
    + unfold arr1, v1. rewrite Z.add_0_r, Z.sub_0_r. apply list_insert_id. by destruct v.
    + rewrite (alter_at _ _ _ v1)
        by (apply list_lookup_insert_eq; by eapply lookup_lt_Some).
      unfold arr1, v1. rewrite list_insert_insert_eq. apply list_insert_id.
      cbn [iov_base iov_len]. rewrite Z.add_simpl_r, Z.sub_add. by destruct v.
  - rewrite HA, iov_addrs_drop, drop_drop by done. f_equal. apply Ha1.
  - by rewrite iov_addrs_drop, drop_drop by done.
Qed.
End steps.

Section transfer_correct.
Context {world : Type} `{SocketLaws world}.

Lemma moved_nil s w m : moved s w m [] w m.
Proof. destruct s; simpl; [split; [done|]|]; exists []; by rewrite app_nil_r. Qed.

Lemma send_recv_loop_spec fuel efuel (w : world) m arr k off bytes total s :
  iov_ok arr -> 0 <= off -> 0 <= bytes -> off + bytes <= iov_total (drop k arr) ->
  0 <= total -> accessible m (iov_part (drop k arr) off bytes) ->
  (Z.to_nat bytes < fuel)%nat -> (interruptions w < efuel)%nat ->
  exists w' m' res n,
    send_recv_loop fuel efuel w m arr k off bytes total s = Ret (w', m', arr, res) /\
    0 <= n <= bytes /\ moved s w m (iov_part (drop k arr) off n) w' m' /\
    match res with
    | inr t => t = total + n
    | inl e => e <> EINTR /\ (e = EAGAIN -> total + n = 0)
    end.
Proof.
  intros Harr. revert w m k off bytes total.
  induction fuel as [|fuel IH]; intros w m k off bytes total Ho Hb Hob Ht Ha Hf He; [lia|].
  cbn [send_recv_loop]. destruct (Z.ltb_spec 0 bytes) as [Hb0|Hb0]; cbn [negb].
  2: { exists w, m, (inr total), 0. split_and!; [done|lia..|apply moved_nil|lia]. }
  destruct (send_recv_step_spec efuel w m arr k off bytes s Harr Ho Hb0 Hob)
    as (k' & off' & L & -> & HL & HA & Ho' & Hob' & HX).
  assert (iov_total L = bytes) as HLt.
  { pose proof (length_iov_addrs L HL) as Hlen. pose proof (iov_total_nonneg L HL).
    rewrite HA, length_take, length_drop, length_iov_addrs in Hlen by by apply Forall_drop.
    lia. }
  destruct (do_send_recv_spec efuel w m L s) as (w1 & m1 & ret & -> & Hi & Hret);
    [done|by rewrite HA|done|]. cbn [mbind outcome_bind].
  destruct ret as [e|r].
  { destruct Hret as [Hne Hmv]. destruct e; [done|..].
    - destruct (Z.ltb_spec 0 total).
      + exists w1, m1, (inr total), 0. split_and!; [done|lia..|done|lia].
      + exists w1, m1, (inl EAGAIN), 0. split_and!; [done|lia..|done|done|lia].
    - exists w1, m1, (inl EOTHER), 0. split_and!; [done|lia..|done|done|done]. }
  destruct Hret as (Hr & Hpos & Hmv). rewrite HLt in *.
  rewrite HA, take_take, Nat.min_l in Hmv by lia.
  destruct ((r =? 0) && negb s) eqn:Ez.
  { zbool. subst r. exists w1, m1, (inr total), 0. split_and!; [done|lia..|done|lia]. }
  assert (0 < r) as Hr0.
  { destruct s; [auto|]. rewrite andb_true_r in Ez. zbool. lia. }
  assert (forall x, 0 <= x -> iov_part (drop k' arr) (off' + r) x
            = take (Z.to_nat x) (drop (Z.to_nat r) (drop (Z.to_nat off) (iov_addrs (drop k arr)))))
    as Hpart.
  { intros x Hx. unfold iov_part. by rewrite Z2Nat.inj_add, <- drop_drop, HX by lia. }
  destruct (IH w1 m1 k' (off' + r) (bytes - r) (total + r))
    as (w2 & m2 & res & n & Hl & Hn & Hm & Hres); [lia..| |lia|lia|].
  { rewrite Hpart by lia. eapply moved_accessible; [exact Hmv|].
    rewrite take_drop_commute. apply Forall_drop.
    unfold iov_part in Ha. by replace (_ + _)%nat with (Z.to_nat bytes) by lia. }
  exists w2, m2, res, (r + n). split; [done|]. split; [lia|]. split.
  - rewrite Hpart in Hm by lia. unfold iov_part.
    rewrite Z2Nat.inj_add, <- take_take_drop by lia. by eapply moved_app.
  - destruct res; [|lia]. destruct Hres as [? Hres]. split; [done|]. intros Hag.
    specialize (Hres Hag). lia.
Qed.

End transfer_correct.

(** ** Growing vectors *)

(** [q] owns its array and holds the elements [l]. *)
Record qiov_rep (q : QEMUIOVector) (l : list iovec) : Prop := {
  rep_niov : niov q = Z.of_nat (length l);
  rep_elems : take (length l) (iov q) = Some <$> l;
  rep_nalloc : nalloc q = Z.of_nat (length (iov q));
  rep_size : size q = u64 (iov_total l);
  rep_ok : iov_ok l;
}.

Lemma qiov_rep_le q l : qiov_rep q l -> (length l <= length (iov q))%nat.
Proof.
  intros [_ He _ _ _]. apply (f_equal length) in He.
  rewrite length_take, length_fmap in He. lia.
Qed.

Lemma elems_Some a n l :
  n = Z.of_nat (length l) -> (length l <= length a)%nat ->
  take (length l) a = Some <$> l -> forall c s, elems (mk_qiov a n c s) = Ret l.
Proof.
  intros -> Hl He c s. unfold elems. cbn [iov niov].
  destruct (Z.ltb_spec (Z.of_nat (length a)) (Z.of_nat (length l))); [lia|].
  rewrite Nat2Z.id, He, (mapM_Some_2 _ _ l); [done|].
  apply Forall2_fmap_l, Forall_Forall2_diag, Forall_true. done.
Qed.

Lemma elems_rep q l : qiov_rep q l -> elems q = Ret l.
Proof.
  intros Hr. pose proof (qiov_rep_le _ _ Hr). destruct Hr. destruct q. by apply elems_Some.
Qed.

Lemma iov_size_total l : iov_size l = u64 (iov_total l).
Proof.
  unfold iov_size.
  assert (forall a, foldl (fun len v => u64 (len + iov_len v)) (u64 a) l
            = u64 (a + iov_total l)) as H.
  { induction l as [|v l IH]; intros a; cbn [foldl iov_total foldr].
    - by rewrite Z.add_0_r.
    - fold (iov_total l). rewrite wrap_add_l, IH. f_equal. lia. }
  apply (H 0).
Qed.

Lemma init_rep hint : 0 <= hint -> qiov_rep (qemu_iovec_init hint) [].
Proof. intros. split; try done; [simpl; rewrite length_replicate; lia|constructor]. Qed.

(** Room for one more element: where the array is full it is extended. *)
Lemma resize_rep a l :
  take (length l) a = Some <$> l -> forall n, (length l <= n)%nat ->
  (length l <= length a)%nat ->
  take (length l) (resize n None a) = (Some <$> l : list (option iovec)).
Proof. intros He n Hn Ha. by rewrite take_resize_le, resize_le by lia. Qed.

Lemma add_rep q l base len :
  qiov_rep q l -> 0 <= len -> Z.of_nat (length l) < 2 ^ 30 ->
  exists q', qemu_iovec_add q base len = Ret q' /\
             qiov_rep q' (l ++ [mk_iovec base len]).
Proof.
  intros Hr Hlen Hsmall. pose proof (qiov_rep_le _ _ Hr) as Hle.
  destruct Hr as [Hn He Hal Hs Hok]. unfold qemu_iovec_add.
  destruct (Z.eqb_spec (nalloc q) (-1)); [lia|].
  set (q1 := if niov q =? nalloc q then _ else q).
  assert (niov q1 = niov q /\ size q1 = size q /\ nalloc q1 = Z.of_nat (length (iov q1)) /\
          (length l < length (iov q1))%nat /\ take (length l) (iov q1) = Some <$> l)
    as (H1 & H2 & H3 & H4 & H5).
  { unfold q1. destruct (Z.eqb_spec (niov q) (nalloc q)) as [Eq|Ne]; [|split_and!; lia || done].
    cbn [niov size nalloc iov]. rewrite sext_small, length_resize by (simpl; lia).
    split_and!; [done|done|lia|lia|]. apply resize_rep; [done|lia|lia]. }
  clearbody q1. replace ((0 <=? niov q1) && _) with true
    by (symmetry; apply andb_true_iff; split; [apply Z.leb_le|apply Z.ltb_lt]; lia).
  eexists. split; [done|].
  unfold zset. destruct (Z.ltb_spec (niov q1) 0); [lia|].
  replace (Z.to_nat (niov q1)) with (length l) by lia.
  split; cbn [niov iov nalloc size]; rewrite ?length_app, ?length_insert; simpl; [lia| |done| |].
  - rewrite Nat.add_1_r, (take_S_r _ _ (Some (mk_iovec base len)))
      by by apply list_lookup_insert_eq.
    by rewrite take_insert_ge, H5, fmap_app.
  - rewrite H2, Hs, iov_total_app, wrap_add_l. simpl. f_equal. lia.
  - apply Forall_app. split; [done|]. by apply Forall_singleton.
Qed.

Lemma concat_loop_rep src q l soff d sbytes :
  iov_ok src -> qiov_rep q l -> 0 <= soff <= iov_total src -> d <= sbytes ->
  (soff = 0 \/ d < sbytes) -> Z.of_nat (length l + length src) <= 2 ^ 30 ->
  exists q', concat_loop q src soff d sbytes
               = Ret (q', 0, d + iov_total (iov_slice soff (sbytes - d) src)) /\
             qiov_rep q' (l ++ iov_slice soff (sbytes - d) src).
Proof.
  intros Hs. revert q l soff d. induction Hs as [|v src Hv Hs IH]; intros q l soff d Hr Ho Hd Hc Hk.
  { exists q. simpl in *. rewrite app_nil_r, Z.add_0_r. by replace soff with 0 by lia. }
  cbn [concat_loop iov_slice iov_total foldr length] in *. fold (iov_total src) in *.
  pose proof (iov_total_nonneg src Hs).
  destruct (Z.ltb_spec d sbytes); destruct (Z.leb_spec (sbytes - d) 0); try lia.
  2: { exists q. simpl. rewrite app_nil_r, Z.add_0_r. by replace soff with 0 by lia. }
  destruct (Z.ltb_spec soff (iov_len v)).
  2: { apply IH; [done|lia|lia|lia|lia]. }
  set (len := Z.min (iov_len v - soff) (sbytes - d)).
  destruct (add_rep q l (iov_base v + soff) len) as (q1 & -> & Hr1); [done|lia|lia|].
  cbn [mbind outcome_bind].
  destruct (IH q1 _ 0 (d + len) Hr1) as (q2 & -> & Hr2);
    [lia|lia|lia|rewrite length_app; simpl; lia|].
  replace (sbytes - (d + len)) with (sbytes - d - len) in * by lia.
  exists q2. rewrite <- app_assoc in Hr2. split; [|exact Hr2].
  do 2 f_equal. unfold iov_total. simpl. lia.
Qed.

Lemma concat_rep q l src soff sbytes :
  iov_ok src -> qiov_rep q l -> 0 <= soff <= iov_total src -> 0 <= sbytes ->
  Z.of_nat (length l + length src) <= 2 ^ 30 ->
  exists q', qemu_iovec_concat_iov q src soff sbytes
               = Ret (q', Z.min sbytes (iov_total src - soff)) /\
             qiov_rep q' (l ++ iov_slice soff sbytes src).
Proof.
  intros Hs Hr Ho Hb Hk. unfold qemu_iovec_concat_iov.
  destruct (Z.eqb_spec sbytes 0) as [->|].
  { exists q. rewrite iov_slice_le0, app_nil_r by lia. by rewrite Z.min_l by lia. }
  destruct (Z.eqb_spec (nalloc q) (-1)) as [E|]; [rewrite (rep_nalloc _ _ Hr) in E; lia|].
  destruct (concat_loop_rep src q l soff 0 sbytes) as (q' & -> & Hr'); [done|done|lia..|].
  rewrite Z.sub_0_r in *. exists q'. split; [|done].
  cbn [mbind outcome_bind Z.eqb]. do 2 f_equal. rewrite iov_slice_total; [lia|done|lia|lia].
Qed.

Lemma discard_rep q l bytes :
  qiov_rep q l -> iov_total l < 2 ^ 64 -> 0 <= bytes <= iov_total l ->
  exists q' l', qemu_iovec_discard_back q bytes = Ret q' /\ qiov_rep q' l' /\
    (length l' <= length l)%nat /\
    iov_addrs l' = take (Z.to_nat (iov_total l - bytes)) (iov_addrs l).
Proof.
  intros Hr Ht Hb. unfold qemu_iovec_discard_back. pose proof (qiov_rep_le _ _ Hr) as Hle.
  rewrite (elems_rep q l Hr). destruct Hr as [Hn He Hal Hs Hok].
  rewrite wrap_small in Hs by lia. destruct (Z.ltb_spec (size q) bytes); [lia|].
  cbn [mbind outcome_bind].
  assert (exists l' k, iov_discard_back l (length l) bytes = Ret (bytes, l', k) /\
    (k <= length l)%nat /\ length l' = length l /\ iov_ok (take k l') /\
    iov_addrs (take k l') = take (Z.to_nat (iov_total l - bytes)) (iov_addrs l))
    as (l' & k & -> & Hk & Hll & Hok' & Ha).
  { destruct (discard_back_spec l (length l) bytes 0) as (l' & k & Hd & Hk & Hll & _ & Hok' & Ha);
      [done|by rewrite firstn_all|lia|]. rewrite firstn_all in *.
    exists l', k. split; [|done]. unfold iov_discard_back. destruct l as [|v l].
    - simpl in *. assert (bytes = 0) as -> by lia. injection Hd as <- <-. done.
    - cbn [length] in *. rewrite Hd. do 2 f_equal. f_equal. lia. }
  cbn [mbind outcome_bind]. rewrite Z.eqb_refl. cbn [negb].
  assert (iov_total (take k l') = iov_total l - bytes) as Htot.
  { apply (f_equal length) in Ha.
    rewrite length_take, !length_iov_addrs in Ha by done.
    pose proof (iov_total_nonneg _ Hok'). lia. }
  eexists _, (take k l'). split; [done|].
  assert (length (take k l') = k) as Htk by (rewrite length_take; lia).
  split; [|split; [lia|done]].
  split; cbn [niov iov nalloc size]; rewrite ?Htk; [done| |..].
  - rewrite take_app_le, <- fmap_take by (rewrite length_fmap; lia). done.
  - rewrite length_app, length_fmap, length_drop. lia.
  - by rewrite Hs, Htot.
  - done.
Qed.

Inductive qop :=
| Add (base len : Z)
| Concat (src : list iovec) (soffset sbytes : Z)
| DiscardBack (bytes : Z)
| Reset
| Destroy.

Definition run_qop (q : QEMUIOVector) (op : qop) : outcome QEMUIOVector :=
  match op with
  | Add base len => qemu_iovec_add q base len
  | Concat src soffset sbytes =>
    '(q, _) ← qemu_iovec_concat_iov q src soffset sbytes; Ret q
  | DiscardBack bytes => qemu_iovec_discard_back q bytes
  | Reset => qemu_iovec_reset q
  | Destroy => qemu_iovec_destroy q
  end.

Fixpoint run_qops (q : QEMUIOVector) (ops : list qop) : outcome QEMUIOVector :=
  match ops with
  | [] => Ret q
  | op :: ops => q ← run_qop q op; run_qops q ops
  end.

(** The abstract vector is the list of the addresses of its bytes. *)
Definition spec_qop (A : list Z) (op : qop) : list Z :=
  match op with
  | Add base len => A ++ seqZ base len
  | Concat src soffset sbytes => A ++ iov_part src soffset sbytes
  | DiscardBack bytes => take (length A - Z.to_nat bytes) A
  | Reset | Destroy => []
  end.

(** What the callers of an operation must respect. *)
Definition qop_ok (A : list Z) (op : qop) : Prop :=
  Z.of_nat (length (spec_qop A op)) < 2 ^ 64 /\
  match op with
  | Add base len => 0 <= len
  | Concat src soffset sbytes =>
    iov_ok src /\ 0 <= soffset <= iov_total src /\ 0 <= sbytes
  | DiscardBack bytes => 0 <= bytes <= Z.of_nat (length A)
  | Reset | Destroy => True
  end.

#[export] Instance qop_ok_dec A op : Decision (qop_ok A op).
Proof. unfold qop_ok. destruct op; apply _. Defined.

Fixpoint qops_ok (A : list Z) (ops : list qop) : Prop :=
  match ops with
  | [] => True
  | op :: ops => qop_ok A op /\ qops_ok (spec_qop A op) ops
  end.

#[export] Instance qops_ok_dec A ops : Decision (qops_ok A ops).
Proof. revert A. induction ops; intros A; simpl; apply _. Defined.

(** The elements an operation adds at most. *)
Definition qop_cost (op : qop) : nat :=
  match op with Add _ _ => 1 | Concat src _ _ => length src | _ => 0 end.

Lemma length_iov_slice off n l : (length (iov_slice off n l) <= length l)%nat.
Proof.
  revert off n. induction l as [|v l IH]; intros off n; [done|]. simpl.
  destruct (n <=? 0); [simpl; lia|].
  destruct (off <? iov_len v); simpl; [apply le_n_S, IH|]. pose proof (IH (off - iov_len v) n). lia.
Qed.

Lemma run_qop_rep q l op :
  qiov_rep q l -> iov_total l < 2 ^ 64 -> qop_ok (iov_addrs l) op ->
  Z.of_nat (length l + qop_cost op) <= 2 ^ 30 ->
  exists q' l', run_qop q op = Ret q' /\ qiov_rep q' l' /\
    iov_addrs l' = spec_qop (iov_addrs l) op /\
    (length l' <= length l + qop_cost op)%nat.
Proof.
  intros Hr Ht Hop Hc. pose proof (rep_ok _ _ Hr) as Hok.
  destruct op; destruct Hop as [Hsz Hop]; cbn [run_qop spec_qop qop_cost] in *.
  - destruct (add_rep q l base len Hr) as (q' & Hq & Hr'); [lia|lia|].
    eexists q', _. split; [done|]. split; [done|].
    rewrite iov_addrs_app, length_app. split; [|simpl; lia].
    rewrite iov_addrs_cons. by rewrite app_nil_r.
  - destruct Hop as (Hs & Ho & Hb).
    destruct (concat_rep q l src soffset sbytes) as (q' & -> & Hr'); [done..|lia|].
    eexists q', _. split; [done|]. split; [done|].
    rewrite iov_addrs_app, length_app, iov_slice_addrs by (done || lia).
    pose proof (length_iov_slice soffset sbytes src). split; [done|lia].
  - rewrite length_iov_addrs in * by done. pose proof (iov_total_nonneg _ Hok).
    destruct (discard_rep q l bytes) as (q' & l' & -> & Hr' & Hl' & Ha); [done..|lia|].
    exists q', l'. split; [done|]. split; [done|]. split; [|lia].
    rewrite Ha. f_equal. lia.
  - destruct Hr as [Hn He Hal Hs _]. unfold qemu_iovec_reset.
    destruct (Z.eqb_spec (nalloc q) (-1)); [lia|].
    eexists _, []. split; [done|]. split; [|split; [done|simpl; lia]].
    split; try done. constructor.
  - destruct Hr as [Hn He Hal Hs _]. unfold qemu_iovec_destroy, qemu_iovec_reset.
    destruct (Z.eqb_spec (nalloc q) (-1)); [lia|].
    eexists _, []. split; [done|]. split; [|split; [done|simpl; lia]].
    split; try done. constructor.
Qed.

Lemma run_qops_rep ops q l :
  qiov_rep q l -> iov_total l < 2 ^ 64 -> qops_ok (iov_addrs l) ops ->
  Z.of_nat (length l + sum_list (qop_cost <$> ops)) <= 2 ^ 30 ->
  exists q' l', run_qops q ops = Ret q' /\ qiov_rep q' l' /\
    iov_addrs l' = foldl spec_qop (iov_addrs l) ops.
Proof.
  revert q l. induction ops as [|op ops IH]; intros q l Hr Ht Hops Hc.
  { exists q, l. done. }
  destruct Hops as [Hop Hops]. cbn [fmap list_fmap sum_list] in Hc.
  destruct (run_qop_rep q l op) as (q1 & l1 & Hq1 & Hr1 & Ha1 & Hl1); [done..|simpl in Hc; lia|].
  cbn [run_qops foldl]. rewrite Hq1. cbn [mbind outcome_bind]. rewrite <- Ha1 in *.
  apply IH; [done| |done|simpl in Hc; lia].
  destruct Hop as [Hsz _]. rewrite <- Ha1, length_iov_addrs in Hsz by by apply (rep_ok _ _ Hr1).
  lia.
Qed.

(** ** Clones *)

(** The sort: for a comparison that is a total preorder the result is a
    sorted permutation; the order of equal elements is left open. *)
Definition qsort_spec {A} (qsort : (A -> A -> Z) -> list A -> list A) : Prop :=
  forall cmp l,
    (forall a b, cmp a b <= 0 \/ cmp b a <= 0) ->
    (forall a b c, cmp a b <= 0 -> cmp b c <= 0 -> cmp a c <= 0) ->
    qsort cmp l ≡ₚ l /\ StronglySorted (fun a b => cmp a b <= 0) (qsort cmp l).

(** Strictly increasing on the covered addresses. *)
Definition increasing_on (C : Z -> Prop) (f : Z -> Z) : Prop :=
  forall x y, C x -> C y -> x < y -> f x < f y.

(** An element laid out as [f] says. *)
Definition laid_out (f : Z -> Z) (e : IOVectorSortElem) : Prop :=
  exists d, dest_base e = Some d /\
    forall o, 0 <= o < iov_len (src_iov e) -> f (iov_base (src_iov e) + o) = d + o.

Definition covers (e : IOVectorSortElem) (x : Z) : Prop :=
  iov_base (src_iov e) <= x < iov_base (src_iov e) + iov_len (src_iov e).

(** State of the loop: the addresses [C] placed so far by [f] are below
    [last_end] and placed between [buf0] and [buf]; the run they end in starts
    at [s] and is placed with one displacement. *)
Record layout_inv (buf0 : Z) (C : Z -> Prop) (f : Z -> Z) (s buf last_end : Z) : Prop := {
  inv_inc : increasing_on C f;
  inv_below : forall x, C x -> x < last_end;
  inv_range : forall x, C x -> buf0 <= f x < buf;
  inv_run : forall x, C x -> s <= x -> f x = x + (buf - last_end);
  inv_before : forall x, C x -> x < s -> f x < s + (buf - last_end);
  inv_start : s <= last_end;
  inv_low : buf0 <= s + (buf - last_end);
}.

(** One element: [s] and the displacement stay for an overlap and change at a
    gap. *)
Lemma layout_step buf0 C f s buf last_end v e :
  layout_inv buf0 C f s buf last_end -> src_iov e = v ->
  0 <= iov_base v -> s <= iov_base v -> 0 <= iov_len v -> 0 <= last_end ->
  let rewind := if negb (last_end =? 0) && (iov_base v <? last_end)
                then last_end - iov_base v else 0 in
  let buf' := buf + (iov_len v - Z.min rewind (iov_len v)) in
  let last_end' := Z.max (iov_base v + iov_len v) last_end in
  exists f' s',
    (forall x, C x -> f' x = f x) /\ s' <= iov_base v /\
    (forall o, 0 <= o < iov_len v -> f' (iov_base v + o) = buf - rewind + o) /\
    layout_inv buf0 (fun x => C x \/ covers e x) f' s' buf' last_end'.
Proof.
  intros [Hinc Hbel Hrng Hrun Hbef Hs Hlow] <- Hb Hsb Hl Hle. cbv zeta.
  set (c := iov_base (src_iov e)) in *. set (n := iov_len (src_iov e)) in *.
  assert (exists s' d, (if negb (last_end =? 0) && (c <? last_end) then last_end - c else 0)
             = Z.max 0 (last_end - c) /\
           s' <= c /\ d = buf - Z.max 0 (last_end - c) - c /\
           s <= s' /\ buf0 <= s' + d /\ (s' = s /\ d = buf - last_end /\ c < last_end \/
                                          s' = c /\ last_end <= c))
    as (s' & d & -> & Hs' & Hd & Hss & Hlow' & Hcase).
  { destruct (Z.eqb_spec last_end 0); destruct (Z.ltb_spec c last_end); cbn [negb andb]; try lia.
    - exists c, (buf - c). lia.
    - exists s, (buf - last_end). lia.
    - exists c, (buf - c). lia. }
  exists (fun x => if x <? s' then f x else x + d), s'. unfold covers. fold c n.
  split_and!.
  - intros x Hx. specialize (Hbel x Hx). destruct (Z.ltb_spec x s'); [done|].
    rewrite Hrun; [lia|done|lia].
  - done.
  - intros o Ho. destruct (Z.ltb_spec (c + o) s'); lia.
  - split.
    + intros x y Hx Hy Hxy.
      destruct (Z.ltb_spec x s'); destruct (Z.ltb_spec y s'); try lia.
      * apply Hinc; [|destruct Hy; [done|lia]|done]. destruct Hx; [done|lia].
      * destruct Hx as [Hx|Hx]; [|lia]. specialize (Hrng x Hx). specialize (Hbel x Hx).
        destruct (Z.ltb_spec x s); [specialize (Hbef x Hx)|specialize (Hrun x Hx)]; lia.
    + intros x [Hx|Hx]; [specialize (Hbel x Hx)|]; lia.
    + intros x Hx. destruct (Z.ltb_spec x s').
      * destruct Hx as [Hx|Hx]; [specialize (Hrng x Hx)|]; lia.
      * destruct Hx as [Hx|Hx]; [specialize (Hbel x Hx)|]; lia.
    + intros x Hx Hsx. destruct (Z.ltb_spec x s'); lia.
    + intros x Hx Hsx. destruct (Z.ltb_spec x s'); [|lia]. destruct Hx as [Hx|Hx]; [|lia].
      specialize (Hrng x Hx). specialize (Hbel x Hx).
      destruct (Z.ltb_spec x s); [specialize (Hbef x Hx)|specialize (Hrun x Hx)]; lia.
    + lia.
    + lia.
Qed.

Definition covered (l : list IOVectorSortElem) (x : Z) : Prop := exists e, e ∈ l /\ covers e x.

Definition elems_total (l : list IOVectorSortElem) : Z := iov_total (src_iov <$> l).

Lemma cmp_base_le a b :
  sortelem_cmp_src_base a b <= 0 <-> iov_base (src_iov a) <= iov_base (src_iov b).
Proof. unfold sortelem_cmp_src_base. repeat zcase; lia. Qed.

Lemma clone_layout_spec buf0 l C f s buf last_end :
  layout_inv buf0 C f s buf last_end -> 0 <= last_end ->
  StronglySorted (fun a b => sortelem_cmp_src_base a b <= 0) l ->
  Forall (fun e => 0 <= iov_base (src_iov e) /\ 0 <= iov_len (src_iov e) /\
                   s <= iov_base (src_iov e)) l ->
  exists f', (forall x, C x -> f' x = f x) /\
    increasing_on (fun x => C x \/ covered l x) f' /\
    Forall (laid_out f') (clone_layout l buf last_end) /\
    (forall x, covered l x -> buf0 <= f' x < buf + elems_total l).
Proof.
  revert C f s buf last_end. induction l as [|e l IH]; intros C f s buf last_end Hinv Hle Hsort Hl.
  { exists f. split_and!; [done| |constructor|].
    - intros x y [Hx|(?&Hx&_)] [Hy|(?&Hy&_)]; [by apply (inv_inc _ _ _ _ _ _ Hinv)|..];
        by apply elem_of_nil in Hx || apply elem_of_nil in Hy.
    - intros x (? & []%elem_of_nil & _). }
  apply Forall_cons in Hl as [(Hb & Hn & Hs) Hl].
  apply StronglySorted_cons in Hsort as [Hhd Hsort].
  destruct (layout_step buf0 C f s buf last_end _ e Hinv eq_refl Hb Hs Hn Hle)
    as (f1 & s1 & Hf1 & Hs1 & Hpl & Hinv1). cbn [clone_layout].
  set (rewind := if negb (last_end =? 0) && _ then _ else 0) in *.
  destruct (IH _ f1 s1 _ _ Hinv1) as (f2 & Hf2 & Hinc & Hlay & Hrng); [lia|done| |].
  { rewrite Forall_forall in Hhd, Hl |- *. intros x Hx. specialize (Hl x Hx).
    specialize (Hhd x Hx). rewrite cmp_base_le in Hhd. lia. }
  exists f2. split_and!.
  - intros x Hx. rewrite Hf2; [auto|]. by left.
  - intros x y Hx Hy. apply Hinc; unfold covered in *; set_solver.
  - constructor; [|done]. exists (buf - rewind). split; [done|]. intros o Ho.
    cbn [src_iov] in *. rewrite Hf2 by (right; unfold covers; lia). auto.
  - assert (0 <= elems_total l).
    { apply iov_total_nonneg, Forall_fmap. eapply Forall_impl; [exact Hl|]. naive_solver. }
    assert (0 <= rewind) by (unfold rewind; repeat zcase; simpl; lia).
    unfold elems_total in *. cbn [fmap list_fmap iov_total foldr] in *.
    fold (iov_total (src_iov <$> l)).
    intros x (e' & [->|He]%elem_of_cons & Hx).
    + rewrite Hf2 by (by right). pose proof (inv_range _ _ _ _ _ _ Hinv1 x (or_intror Hx)).
      change (foldr _ 0 (list_fmap _ _ _ l)) with (iov_total (src_iov <$> l)). lia.
    + specialize (Hrng x ltac:(exists e'; done)).
      change (foldr _ 0 (list_fmap _ _ _ l)) with (iov_total (src_iov <$> l)). lia.
Qed.

Lemma clone_layout_src l buf last_end :
  (fun e => (src_index e, src_iov e)) <$> clone_layout l buf last_end
    = (fun e => (src_index e, src_iov e)) <$> l.
Proof.
  revert buf last_end. induction l as [|e l IH]; intros; [done|]. simpl. by rewrite IH.
Qed.

Lemma iov_total_perm l k : l ≡ₚ k -> iov_total l = iov_total k.
Proof. unfold iov_total. induction 1; simpl; lia. Qed.

Definition src_of (e : IOVectorSortElem) : Z * iovec := (src_index e, src_iov e).

Lemma imap_sorted {A} (l : list A) k :
  StronglySorted (fun a b => a.1 <= b.1) (imap (fun i v => (Z.of_nat (k + i), v)) l).
Proof.
  revert k. induction l as [|v l IH]; intros k; [constructor|]. rewrite imap_cons.
  assert (imap ((fun i v => (Z.of_nat (k + i), v)) ∘ S) l
          = imap (fun i v => (Z.of_nat (S k + i), v)) l) as ->.
  { apply imap_ext. intros i x _. simpl. do 2 f_equal. lia. }
  constructor; [apply IH|]. apply Forall_forall. intros p Hp.
  apply elem_of_lookup_imap in Hp as (i & x & -> & _). simpl. lia.
Qed.

Lemma elem_of_iov_addrs l x :
  x ∈ iov_addrs l <-> exists v, v ∈ l /\ iov_base v <= x < iov_base v + iov_len v.
Proof.
  induction l as [|v l IH].
  - split; [by intros []%elem_of_nil|]. by intros (v & []%elem_of_nil & _).
  - rewrite iov_addrs_cons, elem_of_app, elem_of_seqZ, IH. setoid_rewrite elem_of_cons.
    naive_solver.
Qed.

(** The elements of a clone: in the order of the source, laid out by one
    increasing function of the source addresses. *)
Lemma clone_elems_spec qsort l buf :
  qsort_spec qsort -> iov_ok l -> Forall (fun v => 0 <= iov_base v) l ->
  exists f,
    src_of <$> clone_elems qsort l buf = imap (fun i v => (Z.of_nat i, v)) l /\
    Forall (laid_out f) (clone_elems qsort l buf) /\
    increasing_on (.∈ iov_addrs l) f /\
    (forall x, x ∈ iov_addrs l -> buf <= f x < buf + iov_total l).
Proof.
  intros Hq Hl Hb. unfold clone_elems.
  set (l0 := imap (fun i v => mk_elem (Z.of_nat i) v None) l).
  destruct (Hq sortelem_cmp_src_base l0) as [Hp1 Hs1].
  { intros a b. rewrite !cmp_base_le. lia. }
  { intros a b c. rewrite !cmp_base_le. lia. }
  set (l1 := qsort sortelem_cmp_src_base l0) in *.
  destruct (Hq sortelem_cmp_src_index (clone_layout l1 buf 0)) as [Hp2 Hs2].
  { intros a b. unfold sortelem_cmp_src_index. lia. }
  { intros a b c. unfold sortelem_cmp_src_index. lia. }
  set (l2 := qsort sortelem_cmp_src_index (clone_layout l1 buf 0)) in *.
  assert (src_iov <$> l0 = l) as Hl0.
  { apply list_eq. intros i. unfold l0. rewrite list_lookup_fmap, list_lookup_imap.
    by destruct (l !! i). }
  assert (src_of <$> l0 = imap (fun i v => (Z.of_nat i, v)) l) as Hsrc0.
  { unfold l0. by rewrite fmap_imap. }
  assert (src_of <$> l2 ≡ₚ imap (fun i v => (Z.of_nat i, v)) l) as Hperm.
  { rewrite Hp2, <- Hsrc0. unfold src_of. rewrite clone_layout_src, Hp1. done. }
  assert (forall x, covered l1 x <-> x ∈ iov_addrs l) as Hcov.
  { intros x. rewrite elem_of_iov_addrs, <- Hl0. unfold covered, covers.
    setoid_rewrite Hp1. setoid_rewrite list_elem_of_fmap. naive_solver. }
  destruct (clone_layout_spec buf l1 (fun _ => False) id 0 buf 0)
    as (f & _ & Hinc & Hlay & Hrng); 
    [split; [by intros x y []|by intros x []..|lia|lia]|done|done| |].
  { rewrite Hp1. apply Forall_forall. intros e He.
    assert (src_iov e ∈ l) as Hin by (rewrite <- Hl0; by apply list_elem_of_fmap_2).
    unfold iov_ok in Hl. rewrite Forall_forall in Hl, Hb.
    specialize (Hl _ Hin). specialize (Hb _ Hin). simpl in *. lia. }
  exists f. split_and!.
  - apply (StronglySorted_unique_strong (fun a b => a.1 <= b.1)); [| | |exact Hperm].
    + intros p1 p2 H1 H2 Hle1 Hle2. rewrite Hperm in H1.
      apply elem_of_lookup_imap in H1 as (i & v & -> & Hi).
      apply elem_of_lookup_imap in H2 as (j & w & -> & Hj). simpl in *.
      assert (i = j) as -> by lia. congruence.
    + eapply StronglySorted_fmap; [|exact Hs2]. intros a b. unfold sortelem_cmp_src_index.
      simpl. lia.
    + apply (imap_sorted l 0).
  - by rewrite Hp2.
  - intros x y Hx Hy. apply Hinc; right; by apply Hcov.
  - intros x Hx. apply Hcov, Hrng in Hx. unfold elems_total in Hx.
    rewrite (iov_total_perm (src_iov <$> l1) l) in Hx; [done|]. by rewrite Hp1, Hl0.
Qed.

Lemma laid_out_bases f l :
  Forall (laid_out f) l -> exists ds, dest_base <$> l = Some <$> ds.
Proof.
  induction 1 as [|e l (d & Hd & _) _ (ds & Hds)]; [by exists []|].
  exists (d :: ds). cbn. f_equal; [done|exact Hds].
Qed.

Lemma clone_add_rep l es ds q k :
  qiov_rep q k -> iov_ok l -> dest_base <$> es = Some <$> ds ->
  length ds = length l -> Z.of_nat (length k + length l) <= 2 ^ 30 ->
  exists q', clone_add q es l = Ret q' /\
    qiov_rep q' (k ++ zip_with (fun d v => mk_iovec d (iov_len v)) ds l).
Proof.
  intros Hr Hl. revert es ds q k Hr.
  induction Hl as [|v l Hv Hl IH]; intros es ds q k Hr He Hd Hc;
    destruct ds as [|d ds]; try done; destruct es as [|e es]; try done.
  { exists q. by rewrite app_nil_r. }
  cbn [fmap list_fmap] in He. injection He as He1 He2. cbn [clone_add length] in *.
  rewrite He1. destruct (add_rep q k d (iov_len v) Hr Hv) as (q1 & -> & Hr1); [lia|].
  destruct (IH es ds q1 _ Hr1 He2) as (q2 & Hq2 & Hr2);
    [lia|rewrite length_app; simpl; lia|].
  exists q2. split; [exact Hq2|]. by rewrite <- app_assoc in Hr2.
Qed.

(** Bytes of two elements are at the same place in a clone exactly when they
    are in the source. *)
Definition same_overlaps (l l' : list iovec) : Prop :=
  forall i j v w v' w' o p,
    l !! i = Some v -> l !! j = Some w -> l' !! i = Some v' -> l' !! j = Some w' ->
    0 <= o < iov_len v -> 0 <= p < iov_len w ->
    (iov_base v' + o = iov_base w' + p <-> iov_base v + o = iov_base w + p).

Lemma clone_spec qsort q k src l buf :
  qsort_spec qsort -> qiov_rep q k -> elems src = Ret l -> iov_ok l ->
  Forall (fun v => 0 <= iov_base v) l -> Z.of_nat (length k + length l) <= 2 ^ 30 ->
  exists q' l', qemu_iovec_clone qsort q src buf = Ret q' /\
    qiov_rep q' (k ++ l') /\ iov_len <$> l' = iov_len <$> l /\ same_overlaps l l' /\
    (forall a, a ∈ iov_addrs l' -> buf <= a < buf + iov_total l).
Proof.
  intros Hq Hr He Hl Hb Hc. unfold qemu_iovec_clone. rewrite He. cbn [mbind outcome_bind].
  destruct (clone_elems_spec qsort l buf Hq Hl Hb) as (f & Hsrc & Hlay & Hinc & Hrng).
  set (es := clone_elems qsort l buf) in *. clearbody es.
  destruct (laid_out_bases f es Hlay) as (ds & Hds).
  assert (length ds = length l) as Hlen.
  { apply (f_equal length) in Hsrc, Hds. rewrite !length_fmap, ?length_imap in *. lia. }
  destruct (clone_add_rep l es ds q k Hr Hl Hds Hlen Hc) as (q' & Hq' & Hr').
  set (l' := zip_with _ ds l) in *. exists q', l'.
  assert (forall i v v', l !! i = Some v -> l' !! i = Some v' ->
    iov_len v' = iov_len v /\ forall o, 0 <= o < iov_len v ->
      iov_base v' + o = f (iov_base v + o) /\ iov_base v + o ∈ iov_addrs l) as Hel.
  { intros i v v' Hv Hv'. unfold l' in Hv'. apply lookup_zip_with_Some in Hv' as (d & w & -> & Hd & Hw).
    rewrite Hv in Hw. injection Hw as <-. split; [done|]. intros o Ho. split; [|].
    - apply (f_equal (.!! i)) in Hsrc, Hds. rewrite !list_lookup_fmap, ?list_lookup_imap in *.
      rewrite Hv, Hd in *. destruct (es !! i) as [e|] eqn:Ee; [|done].
      rewrite Forall_lookup in Hlay. destruct (Hlay _ _ Ee) as (d' & Hd' & Hf).
      simpl in *. injection Hsrc as _ Hsv. rewrite Hsv in Hf. rewrite Hf by done. congruence.
    - apply elem_of_iov_addrs. exists v. split; [by eapply list_elem_of_lookup_2|lia]. }
  split; [done|]. split; [done|]. split_and!.
  - apply list_eq. intros i. rewrite !list_lookup_fmap. unfold l'. rewrite lookup_zip_with.
    destruct (l !! i) as [v|] eqn:Ev; destruct (ds !! i) as [d|] eqn:Ed; try done.
    apply lookup_lt_Some in Ev. apply lookup_ge_None in Ed. lia.
  - intros i j v w v' w' o p Hv Hw Hv' Hw' Ho Hp.
    destruct (Hel _ _ _ Hv Hv') as [_ H1]. destruct (Hel _ _ _ Hw Hw') as [_ H2].
    destruct (H1 o Ho) as [-> Hin1]. destruct (H2 p Hp) as [-> Hin2].
    split; [|by intros ->]. intros Heq. destruct (Z.lt_total (iov_base v + o) (iov_base w + p))
      as [Hlt|[?|Hlt]]; [|done|]; apply Hinc in Hlt; done || lia.
  - intros a (v' & Hin & Ha)%elem_of_iov_addrs. apply list_elem_of_lookup in Hin as [i Hi].
    destruct (lookup_lt_is_Some_2 l i) as [v Hv].
    { apply lookup_lt_Some in Hi. unfold l' in Hi. rewrite length_zip_with in Hi. lia. }
    destruct (Hel _ _ _ Hv Hi) as [Hvl Hf].
    destruct (Hf (a - iov_base v')) as [Heq Hina]; [lia|].
    rewrite Zplus_minus in Heq. rewrite Heq. by apply Hrng.
Qed.

(** ** Contents *)

(** The number of equal leading bytes. *)
Fixpoint lcp (x y : list Z) : nat :=
  match x, y with
  | a :: x, b :: y => if a =? b then S (lcp x y) else O
  | _, _ => O
  end.

Lemma lcp_app x1 x2 y1 y2 :
  length x1 = length y1 ->
  lcp (x1 ++ x2) (y1 ++ y2)
    = if (lcp x1 y1 <? length x1)%nat then lcp x1 y1 else (length x1 + lcp x2 y2)%nat.
Proof.
  revert y1. induction x1 as [|a x1 IH]; intros [|b y1] Hl; try done. simpl in *.
  destruct (a =? b); [|done]. rewrite IH by lia.
  destruct (Nat.ltb_spec (lcp x1 y1) (length x1)); destruct (Nat.ltb_spec (S (lcp x1 y1)) (S (length x1)));
    lia || done.
Qed.

Lemma lcp_le x y : (lcp x y <= length x)%nat.
Proof.
  revert y. induction x as [|a x IH]; intros [|b y]; simpl; try lia.
  destruct (a =? b); [apply le_n_S, IH|lia].
Qed.

Lemma lcp_full x y : length x = length y -> (lcp x y = length x <-> x = y).
Proof.
  revert y. induction x as [|a x IH]; intros [|b y] Hl; try done. simpl in *.
  destruct (Z.eqb_spec a b) as [->|Hne]; [|split; [done|congruence]].
  specialize (IH y ltac:(lia)). split; intros H.
  - f_equal. apply IH. lia.
  - injection H as H. f_equal. by apply IH.
Qed.

Lemma seqZ_S p n : seqZ p (Z.of_nat (S n)) = p :: seqZ (p + 1) (Z.of_nat n).
Proof. rewrite seqZ_cons by lia. f_equal. f_equal; lia. Qed.

Lemma equal_prefix_spec m n p q x y :
  gather m (seqZ p (Z.of_nat n)) = Some x -> gather m (seqZ q (Z.of_nat n)) = Some y ->
  equal_prefix m p q n = Ret (Z.of_nat (lcp x y)).
Proof.
  revert p q x y. induction n as [|n IH]; intros p q x y Hx Hy.
  { injection Hx as <-. done. }
  rewrite seqZ_S in Hx, Hy. change (?a :: ?l) with ([a] ++ l) in Hx, Hy.
  apply gather_app_Some in Hx as (x1 & x2 & -> & Hx1 & Hx2).
  apply gather_app_Some in Hy as (y1 & y2 & -> & Hy1 & Hy2).
  cbn [equal_prefix]. rewrite (load_gather m p 1 x1), (load_gather m q 1 y1) by done.
  cbn [mbind outcome_bind]. apply gather_length in Hx1, Hy1.
  destruct x1 as [|a [|]]; try done. destruct y1 as [|b [|]]; try done. simpl.
  destruct (Z.eqb_spec a b) as [->|Hne].
  - rewrite decide_True by done. rewrite (IH _ _ x2 y2 Hx2 Hy2). simpl. f_equal. lia.
  - rewrite decide_False by congruence. done.
Qed.

(** The comparison finds the first difference of the contents. *)
Lemma compare_loop_spec m a b off x y :
  iov_ok a -> iov_len <$> a = iov_len <$> b ->
  gather m (iov_addrs a) = Some x -> gather m (iov_addrs b) = Some y ->
  0 <= off -> off + iov_total a < 2 ^ 63 ->
  compare_loop m a b off = Ret (if decide (x = y) then -1 else off + Z.of_nat (lcp x y)).
Proof.
  intros Ha. revert b off x y. induction Ha as [|v a Hv Ha IH]; intros [|w b] off x y Hlen Hx Hy Ho Ht;
    try done.
  { injection Hx as <-. injection Hy as <-. done. }
  injection Hlen as Hvw Hlen. rewrite iov_addrs_cons in Hx, Hy. rewrite <- Hvw in Hy.
  cbn [iov_total foldr] in Ht. fold (iov_total a) in Ht.
  pose proof (iov_total_nonneg a Ha).
  apply gather_app_Some in Hx as (x1 & x2 & -> & Hx1 & Hx2).
  apply gather_app_Some in Hy as (y1 & y2 & -> & Hy1 & Hy2).
  cbn [compare_loop]. rewrite <- Hvw, Z.eqb_refl. cbn [negb].
  rewrite (equal_prefix_spec m _ _ _ x1 y1); rewrite ?Z2Nat.id by done; [|done|done].
  pose proof (gather_length _ _ _ Hx1) as Hlx. pose proof (gather_length _ _ _ Hy1) as Hly.
  rewrite length_seqZ in Hlx, Hly. pose proof (lcp_le x1 y1).
  cbn [mbind outcome_bind]. rewrite (sext_small 64) by (change (64 - 1) with 63; lia).
  pose proof (lcp_full x1 y1 ltac:(lia)) as Hfull. rewrite lcp_app by lia.
  destruct (Z.eqb_spec (Z.of_nat (lcp x1 y1)) (iov_len v)) as [E|E]; cbn [negb].
  - assert (x1 = y1) as -> by (apply Hfull; lia).
    destruct (Nat.ltb_spec (lcp y1 y1) (length y1)); [lia|].
    rewrite (IH b _ x2 y2) by (done || lia).
    destruct (decide (x2 = y2)) as [->|Hne]; [by rewrite decide_True|].
    rewrite decide_False; [f_equal; lia|]. intros ?%(inj (app y1)). done.
  - destruct (Nat.ltb_spec (lcp x1 y1) (length x1)); [|lia].
    rewrite decide_False; [done|]. intros [Heq _]%app_inj_1; [|lia].
    apply Hfull in Heq. lia.
Qed.

Lemma tail_is_zero_spec m ptr offs n :
  bytes_at m (ptr + offs) (Z.of_nat n) ->
  exists b, tail_is_zero m ptr offs n = Ret b /\
            (b = true <-> zero_at m (ptr + offs) (Z.of_nat n)).
Proof.
  revert offs. induction n as [|n IH]; intros offs Hb.
  { exists true. split; [done|]. split; [|done]. intros _ x Hx. lia. }
  destruct (Hb (ptr + offs)) as (b & Eb & _); [lia|]. cbn [tail_is_zero].
  rewrite (load_gather m (ptr + offs) 1 [b])
    by (change (seqZ (ptr + offs) 1) with [ptr + offs]; unfold gather; simpl; by rewrite Eb).
  cbn [mbind outcome_bind forallb]. rewrite andb_true_r.
  replace (Z.of_nat (S n)) with (1 + Z.of_nat n) by lia.
  pose proof (zero_at_add m (ptr + offs) 1 (Z.of_nat n) ltac:(lia) ltac:(lia)) as Hadd.
  assert (zero_at m (ptr + offs) 1 <-> b = 0) as H1.
  { split; [|intros ->; intros x Hx; by replace x with (ptr + offs) by lia].
    intros Hz. rewrite (Hz (ptr + offs)) in Eb by lia. congruence. }
  destruct (Z.eqb_spec 0 b) as [<-|Hne].
  - destruct (IH (offs + 1)) as (b & -> & Hbz).
    { eapply bytes_at_sub; [exact Hb|lia|lia]. }
    exists b. split; [done|]. rewrite Hadd, Hbz, H1, Z.add_assoc. tauto.
  - exists false. split; [done|]. rewrite Hadd, H1. split; [done|]. intros [-> _]. done.
Qed.

(** A vector is found zero exactly when all its bytes are. *)
Lemma is_zero_loop_spec vs m l :
  vs = 8 \/ vs = 16 -> iov_ok l ->
  Forall (fun v => bytes_at m (iov_base v) (iov_len v)) l ->
  exists b, is_zero_loop vs m l = Ret b /\
            (b = true <-> forall a, a ∈ iov_addrs l -> m !! a = Some 0).
Proof.
  intros Hvs Hl. induction Hl as [|v l Hv Hl IH]; intros Hb.
  { exists true. split; [done|]. split; [|done]. by intros _ a []%elem_of_nil. }
  apply Forall_cons in Hb as [Hb Hbl]. destruct (IH Hbl) as (z & Hz & Hzl).
  cbn [is_zero_loop]. change (4 * SIZEOF_LONG) with 32.
  set (offs := iov_len v / 32 * 32). assert (0 <= offs <= iov_len v) as Ho by (unfold offs; mlia).
  assert (exists b, (if offs =? 0 then Ret true else buffer_is_zero vs m (iov_base v) offs) = Ret b /\
            (b = true <-> zero_at m (iov_base v) offs)) as (b1 & -> & H1).
  { destruct (Z.eqb_spec offs 0) as [->|].
    - exists true. split; [done|]. split; [|done]. intros _ x Hx. lia.
    - apply buffer_is_zero_spec; [done|lia|unfold offs; apply Z.mod_mul; lia|].
      eapply bytes_at_sub; [exact Hb|lia|lia]. }
  destruct (tail_is_zero_spec m (iov_base v) offs (Z.to_nat (iov_len v - offs))) as (b2 & H2 & Hb2).
  { eapply bytes_at_sub; [exact Hb|lia|lia]. }
  rewrite Z2Nat.id in Hb2 by lia.
  assert ((forall a, a ∈ iov_addrs (v :: l) -> m !! a = Some 0) <->
          b1 = true /\ b2 = true /\ z = true) as Hall.
  { rewrite H1, Hb2, Hzl, iov_addrs_cons. unfold zero_at. setoid_rewrite elem_of_app.
    setoid_rewrite elem_of_seqZ. split.
    - intros Ha. split_and!; intros x Hx; apply Ha; [left; lia..|by right].
    - intros (Ha & Hb' & Hc) a [Hin|Hin]; [|by apply Hc].
      destruct (Z.ltb_spec a (iov_base v + offs)); [apply Ha|apply Hb']; lia. }
  cbn [mbind outcome_bind]. destruct b1; cbn [negb].
  - rewrite H2. cbn [mbind outcome_bind]. destruct b2; cbn [negb];
      [exists z|exists false]; rewrite Hall; split; naive_solver.
  - exists false. rewrite Hall. naive_solver.
Qed.

(** The difference found by [qemu_iovec_compare], and the zero test. *)
Lemma qemu_iovec_compare_spec m q1 q2 a b x y :
  qiov_rep q1 a -> qiov_rep q2 b -> iov_len <$> a = iov_len <$> b ->
  gather m (iov_addrs a) = Some x -> gather m (iov_addrs b) = Some y ->
  iov_total a < 2 ^ 63 ->
  qemu_iovec_compare m q1 q2
    = Ret (if decide (x = y) then -1 else Z.of_nat (lcp x y)).
Proof.
  intros H1 H2 Hlen Hx Hy Ht. unfold qemu_iovec_compare.
  rewrite (elems_rep _ _ H1), (elems_rep _ _ H2). cbn [mbind outcome_bind].
  apply (f_equal length) in Hlen as Hn. rewrite !length_fmap in Hn.
  rewrite (rep_niov _ _ H1), (rep_niov _ _ H2), Hn, Z.eqb_refl. cbn [negb].
  apply compare_loop_spec; try done; apply (rep_ok _ _ H1).
Qed.

Lemma qemu_iovec_is_zero_spec vs m q l :
  vs = 8 \/ vs = 16 -> qiov_rep q l ->
  Forall (fun v => bytes_at m (iov_base v) (iov_len v)) l ->
  exists b, qemu_iovec_is_zero vs m q = Ret b /\
            (b = true <-> forall a, a ∈ iov_addrs l -> m !! a = Some 0).
Proof.
  intros Hvs Hr Hb. unfold qemu_iovec_is_zero. rewrite (elems_rep _ _ Hr).
  apply is_zero_loop_spec; [done|apply (rep_ok _ _ Hr)|done].
Qed.

(** ** A socket that follows a script *)

(** Each call takes the next step of the script: an error, or a limit on the
    bytes it moves; behind the end of the script calls move all they can. *)
Record script_world := mk_script {
  sw_out : list Z;
  sw_in : list Z;
  sw_read : list Z;
  sw_plan : list (errno + Z);
}.

(** The count of a call for a vector of [total] bytes. *)
Definition script_count (plan : list (errno + Z)) (total : Z) : errno + Z :=
  if total <? 0 then inl EOTHER else
  match plan with
  | inl e :: _ => inl e
  | inr n :: _ => inr (Z.min (Z.max 1 n) total)
  | [] => inr total
  end.

Definition script_rest (plan : list (errno + Z)) (total : Z) : list (errno + Z) :=
  if total <? 0 then plan else tail plan.

#[export] Instance script_socket : Socket script_world := {
  sendmsg w m l :=
    let total := iov_total l in
    let w1 out := mk_script out (sw_in w) (sw_read w) (script_rest (sw_plan w) total) in
    match script_count (sw_plan w) total, gather m (iov_addrs l) with
    | inl e, _ => (w1 (sw_out w), inl e)
    | inr n, Some bs => (w1 (sw_out w ++ take (Z.to_nat n) bs), inr n)
    | inr n, None => (w1 (sw_out w), inl EOTHER)
    end;
  recvmsg w m l :=
    let total := iov_total l in
    let w1 inp rd := mk_script (sw_out w) inp rd (script_rest (sw_plan w) total) in
    match script_count (sw_plan w) total with
    | inl e => (w1 (sw_in w) (sw_read w), m, inl e)
    | inr n =>
      let bs := take (Z.to_nat n) (sw_in w) in
      (w1 (drop (Z.to_nat n) (sw_in w)) (sw_read w ++ bs),
       write_at m (take (length bs) (iov_addrs l)) bs, inr (Z.of_nat (length bs)))
    end;
}.

Definition eintr_count (plan : list (errno + Z)) : nat :=
  length (filter (fun x => x = inl EINTR) plan).

Lemma script_rest_le plan total : (eintr_count (script_rest plan total) <= eintr_count plan)%nat.
Proof.
  unfold script_rest. destruct (total <? 0); [done|]. destruct plan as [|x plan]; [done|].
  unfold eintr_count. simpl. rewrite filter_cons. case_decide; simpl; lia.
Qed.

Lemma script_eintr plan total :
  script_count plan total = inl EINTR ->
  (eintr_count (script_rest plan total) < eintr_count plan)%nat.
Proof.
  unfold script_count, script_rest. destruct (total <? 0); [done|].
  destruct plan as [|[e|n] plan]; try done. intros [= ->].
  unfold eintr_count. rewrite filter_cons_True by done. simpl. lia.
Qed.

Lemma script_count_range plan total n :
  script_count plan total = inr n -> 0 <= n <= total /\ (0 < total -> 0 < n).
Proof.
  unfold script_count. destruct (Z.ltb_spec total 0); [done|].
  destruct plan as [|[e|k] plan]; try done; intros [= <-]; lia.
Qed.

#[export, refine] Instance script_laws : SocketLaws script_world := {
  sent := sw_out;
  received := sw_read;
  interruptions w := eintr_count (sw_plan w);
}.
Proof.
  - intros w m l w' n bs. simpl. intros Heq Hg. rewrite Hg in Heq.
    destruct (script_count _ _) as [e|k] eqn:E; [done|]. injection Heq as <- <-.
    apply script_count_range in E. split_and!; try tauto. simpl. apply script_rest_le.
  - intros w m l w' e. simpl.
    destruct (script_count _ _) as [e'|k] eqn:E.
    + intros [= <- <-]. simpl. split; [done|]. split; [apply script_rest_le|].
      intros ->. by apply script_eintr.
    + destruct (gather m _); [done|]. intros [= <- <-]. simpl.
      split; [done|]. split; [apply script_rest_le|done].
  - intros w m l w' m' n. simpl. destruct (script_count _ _) as [e|k] eqn:E; [done|].
    intros [= <- <- <-] _. apply script_count_range in E.
    rewrite Nat2Z.id. split; [rewrite length_take; lia|]. simpl. split; [apply script_rest_le|].
    eauto.
  - intros w m l w' m' e. simpl. destruct (script_count _ _) as [e'|k] eqn:E; [|done].
    intros [= <- <- <-]. simpl. split; [done|]. split; [done|]. split; [apply script_rest_le|].
    intros ->. by apply script_eintr.
Defined.

(** ** Properties *)

(** C33: copies between a buffer and a vector touch exactly the bytes of the
    vector from the offset on, at most as many as asked for, and return their
    number; what was scattered by [iov_from_buf] is gathered unchanged by
    [iov_to_buf]; an offset behind the end of the vector fails the assertion
    of all three functions. *)
Theorem iov_copies_correct m l off buf buf2 bytes c :
  iov_ok l -> 0 <= off -> 0 <= bytes ->
  let n := Z.min bytes (iov_total l - off) in
  let part := iov_part l off bytes in
  (iov_total l < off ->
     iov_from_buf m l off buf bytes = Fault AssertFailed /\
     iov_to_buf m l off buf bytes = Fault AssertFailed /\
     iov_memset m l off c bytes = Fault AssertFailed) /\
  (off <= iov_total l -> accessible m part ->
     iov_memset m l off c bytes
       = Ret (write_at m part (replicate (Z.to_nat n) (u8 c)), n) /\
     forall data, gather m (seqZ buf n) = Some data ->
       (forall x, x ∈ part -> x ∉ seqZ buf n) ->
       iov_from_buf m l off buf bytes = Ret (write_at m part data, n) /\
       (NoDup part -> accessible m (seqZ buf2 n) ->
        (forall x, x ∈ part -> x ∉ seqZ buf2 n) ->
        exists m2, iov_to_buf (write_at m part data) l off buf2 bytes = Ret (m2, n) /\
                   gather m2 (seqZ buf2 n) = Some data)).
Proof.
  intros Hl Hoff Hbytes n part. split; [by apply iov_copies_past|].
  intros Hin Ha. split; [by apply iov_memset_ok|]. intros data Hg Hd.
  split; [by apply iov_from_buf_ok|]. intros Hnd Ha2 Hd2.
  pose proof (gather_length _ _ _ Hg) as Hlen. rewrite length_seqZ in Hlen.
  pose proof (length_iov_part l off bytes Hl Hoff Hbytes Hin) as Hlp.
  eexists. split.
  - apply iov_to_buf_ok; [done..| |by apply accessible_write_at|done].
    apply gather_write_at; [done|]. unfold part, n in *. lia.
  - apply gather_write_at; [apply NoDup_seqZ|]. rewrite length_seqZ. lia.
Qed.

(** Memory with the bytes [f a] at the addresses from [a] on. *)
Definition mem_of (a n : Z) (f : Z -> Z) : hmem :=
  list_to_map ((fun x => (x, f x)) <$> seqZ a n).

Lemma iov_copies_correct_witness :
  let l := [mk_iovec 100 3; mk_iovec 120 0; mk_iovec 110 4] in
  let m := mem_of 90 200 (fun x => x mod 7) in
  iov_ok l /\ iov_to_buf m l 2 200 9 = Ret (write_at m (seqZ 200 5) [4; 5; 6; 0; 1], 5) /\
  exists m2, iov_to_buf (write_at m (iov_part l 2 9) [1; 2; 3; 4; 5]) l 2 220 9 = Ret (m2, 5)
    /\ gather m2 (seqZ 220 5) = Some [1; 2; 3; 4; 5].
Proof.
  intros l m. split; [by apply (bool_decide_unpack _); vm_compute|]. split; [vm_compute; reflexivity|].
  destruct (iov_copies_correct m l 2 239 220 9 0
    (bool_decide_unpack (iov_ok l) ltac:(vm_compute; exact I))
    ltac:(lia) ltac:(lia)) as [_ Hok].
  destruct (Hok ltac:(vm_compute; discriminate)
    (bool_decide_unpack (accessible m (iov_part l 2 9)) ltac:(vm_compute; exact I))) as [_ Hrt].
  destruct (Hrt [1; 2; 3; 4; 5] ltac:(vm_compute; reflexivity)) as [_ Hback].
  { intros x Hx Hy. apply elem_of_seqZ in Hy. vm_compute in Hx.
    repeat (apply elem_of_cons in Hx as [->|Hx]; [vm_compute in Hy; intuition discriminate|]).
    by apply elem_of_nil in Hx. }
  apply Hback.
  - apply (bool_decide_unpack _). vm_compute. exact I.
  - apply (bool_decide_unpack _). vm_compute. exact I.
  - intros x Hx Hy. apply elem_of_seqZ in Hy. vm_compute in Hx.
    repeat (apply elem_of_cons in Hx as [->|Hx]; [vm_compute in Hy; intuition discriminate|]).
    by apply elem_of_nil in Hx.
Defined.

(** C13: a transfer over a socket of bytes that lie inside the vector returns,
    whatever calls are interrupted, cut short or failing, and leaves the array
    of the vector as it was; it has moved the first [n] of the bytes, in order
    and once each; a count it returns is [n], and it fails with EAGAIN only
    when nothing was moved. *)
Theorem iov_send_recv_correct {world} `{SocketLaws world} fuel efuel (w : world) m iov
    offset bytes do_send :
  iov_ok iov -> 0 <= offset -> 0 <= bytes -> offset + bytes <= iov_total iov ->
  accessible m (iov_part iov offset bytes) ->
  (Z.to_nat bytes < fuel)%nat -> (interruptions w < efuel)%nat ->
  exists w' m' res n,
    iov_send_recv fuel efuel w m iov offset bytes do_send = Ret (w', m', iov, res) /\
    0 <= n <= bytes /\ moved do_send w m (iov_part iov offset n) w' m' /\
    match res with
    | inr total => total = n
    | inl e => e <> EINTR /\ (e = EAGAIN -> n = 0)
    end.
Proof.
  intros Hl Ho Hb Hob Ha Hf He.
  apply (send_recv_loop_spec fuel efuel w m iov 0 offset bytes 0 do_send); done.
Qed.

(** Seven bytes are sent in two pieces, the first call being interrupted. *)
Lemma iov_send_recv_correct_witness :
  let l := [mk_iovec 100 3; mk_iovec 120 0; mk_iovec 110 4; mk_iovec 130 9] in
  let m := mem_of 90 200 (fun x => x mod 256) in
  let w := mk_script [] [] [] [inl EINTR; inr 4; inr 2] in
  iov_send_recv 8 3 w m l 1 7 true
    = Ret (mk_script [101; 102; 110; 111; 112; 113; 130] [] [] [], m, l, inr 7) /\
  exists w' m' res n,
    iov_send_recv 8 3 w m l 1 7 true = Ret (w', m', l, res) /\
    0 <= n <= 7 /\ moved true w m (iov_part l 1 n) w' m' /\
    match res with
    | inr total => total = n
    | inl e => e <> EINTR /\ (e = EAGAIN -> n = 0)
    end.
Proof.
  intros l m w. split; [vm_compute; reflexivity|].
  apply (iov_send_recv_correct (world := script_world)).
  - apply (bool_decide_unpack _). vm_compute. exact I.
  - lia.
  - lia.
  - vm_compute. discriminate.
  - apply (bool_decide_unpack _). vm_compute. exact I.
  - vm_compute. lia.
  - vm_compute. lia.
Defined.

(** C34: a growing vector is a well-formed list of elements through every
    sequence of additions, concatenations, cuts and resets its callers may
    make: no operation reads an element that was not written or writes behind
    the array, no assertion fails, the elements hold exactly the addresses the
    abstract vector has, and [size] is their number. *)
Theorem qiov_refines hint ops :
  0 <= hint -> qops_ok [] ops -> Z.of_nat (sum_list (qop_cost <$> ops)) <= 2 ^ 30 ->
  exists q l, run_qops (qemu_iovec_init hint) ops = Ret q /\ elems q = Ret l /\
    iov_addrs l = foldl spec_qop [] ops /\
    size q = u64 (Z.of_nat (length (foldl spec_qop [] ops))) /\
    niov q <= nalloc q /\ nalloc q = Z.of_nat (length (iov q)).
Proof.
  intros Hh Hops Hc.
  destruct (run_qops_rep ops _ [] (init_rep hint Hh)) as (q & l & Hq & Hr & Ha); [done..|].
  exists q, l. pose proof (qiov_rep_le _ _ Hr) as Hle. pose proof (rep_ok _ _ Hr) as Hok.
  split; [done|]. split; [by apply elems_rep|]. split; [done|].
  change (iov_addrs []) with (@nil Z) in Ha. rewrite <- Ha, length_iov_addrs by done.
  pose proof (iov_total_nonneg l Hok). destruct Hr as [Hn _ Hal Hs _].
  rewrite Hs, Z2Nat.id by lia. split; [done|]. lia.
Qed.

Lemma qiov_refines_witness :
  let src := [mk_iovec 100 3; mk_iovec 110 4; mk_iovec 130 9] in
  let ops := [Add 10 2; Concat src 2 6; DiscardBack 3; Add 50 1] in
  qops_ok [] ops /\ foldl spec_qop [] ops = [10; 11; 102; 110; 111; 50] /\
  exists q l, run_qops (qemu_iovec_init 1) ops = Ret q /\ elems q = Ret l /\
    iov_addrs l = foldl spec_qop [] ops /\
    size q = u64 (Z.of_nat (length (foldl spec_qop [] ops))) /\
    niov q <= nalloc q /\ nalloc q = Z.of_nat (length (iov q)).
Proof.
  intros src ops. split; [apply (bool_decide_unpack _); vm_compute; exact I|].
  split; [vm_compute; reflexivity|].
  apply (qiov_refines 1 ops).
  - lia.
  - apply (bool_decide_unpack _). vm_compute. exact I.
  - vm_compute. discriminate.
Defined.

(** A clone has elements of the same lengths inside the buffer it is given,
    and bytes of its elements coincide exactly when they do in the source,
    whatever order the sort gives to elements with equal addresses. *)
Lemma qemu_iovec_clone_correct qsort q k src l buf :
  qsort_spec qsort -> qiov_rep q k -> elems src = Ret l -> iov_ok l ->
  Forall (fun v => 0 <= iov_base v) l -> Z.of_nat (length k + length l) <= 2 ^ 30 ->
  exists q' l', qemu_iovec_clone qsort q src buf = Ret q' /\
    elems q' = Ret (k ++ l') /\ iov_len <$> l' = iov_len <$> l /\ same_overlaps l l' /\
    (forall a, a ∈ iov_addrs l' -> buf <= a < buf + iov_total l).
Proof.
  intros Hq Hr He Hl Hb Hc.
  destruct (clone_spec qsort q k src l buf Hq Hr He Hl Hb Hc) as (q' & l' & H1 & H2 & H3).
  exists q', l'. split; [done|]. split; [by apply elems_rep|done].
Qed.

(** A merge sort meets the specification of the sort. *)
Definition merge_qsort (cmp : IOVectorSortElem -> IOVectorSortElem -> Z)
    (l : list IOVectorSortElem) : list IOVectorSortElem :=
  @merge_sort _ (fun a b => cmp a b <= 0) (fun a b => decide (cmp a b <= 0)) l.

Lemma merge_qsort_spec : qsort_spec merge_qsort.
Proof.
  intros cmp l Htot Htr. unfold merge_qsort. split; [apply merge_sort_Permutation|].
  apply StronglySorted_merge_sort.
  - intros a b c. apply Htr.
  - intros a b. apply Htot.
Qed.

Lemma qemu_iovec_clone_correct_witness :
  let l := [mk_iovec 105 4; mk_iovec 100 8; mk_iovec 200 2] in
  let src := qemu_iovec_init_external l in
  (qemu_iovec_clone merge_qsort (qemu_iovec_init 0) src 1000 ≫= elems)
    = Ret [mk_iovec 1005 4; mk_iovec 1000 8; mk_iovec 1009 2] /\
  exists q' l', qemu_iovec_clone merge_qsort (qemu_iovec_init 0) src 1000 = Ret q' /\
    elems q' = Ret ([] ++ l') /\ iov_len <$> l' = iov_len <$> l /\ same_overlaps l l' /\
    (forall a, a ∈ iov_addrs l' -> 1000 <= a < 1000 + iov_total l).
Proof.
  intros l src. split; [vm_compute; reflexivity|].
  apply qemu_iovec_clone_correct.
  - apply merge_qsort_spec.
  - apply init_rep. lia.
  - vm_compute. reflexivity.
  - apply (bool_decide_unpack _). vm_compute. exact I.
  - apply (bool_decide_unpack _). vm_compute. exact I.
  - vm_compute. discriminate.
Defined.
