(* ===== verification/Checksum.v ===== *)
(** * Internet checksums of network frames

    The checksum helpers of src/net/checksum.c and
    src/include/net/checksum.h, on the memory of file [HostMem] and the
    vectors of file [Iov]. *)

From S2P Require Import Prelude HostMem Iov.

Definition PROTO_TCP : Z := 6.

Definition PROTO_UDP : Z := 17.

(** One byte of memory. *)
Definition get (m : hmem) (a : Z) : outcome Z :=
  match m !! a with Some b => Ret b | None => Fault OutOfBounds end.

Definition put (m : hmem) (a b : Z) : outcome hmem :=
  match m !! a with Some _ => Ret (<[a := b]> m) | None => Fault OutOfBounds end.

(** The loop of [net_checksum_add_cont] with [n] bytes to go. *)
Fixpoint add_cont_loop (m : hmem) (buf seq i : Z) (n : nat) (sum : Z) : outcome Z :=
  match n with
  | O => Ret sum
  | S n =>
    b ← get m (buf + (i - seq));
    let sum := if has_bits i 1 then u32 (sum + b) else u32 (sum + u32 (b << 8)) in
    add_cont_loop m buf seq (i + 1) n sum
  end.

Definition net_checksum_add_cont (m : hmem) (len buf seq : Z) : outcome Z :=
  add_cont_loop m buf seq seq (Z.to_nat len) 0.

Definition net_checksum_add (m : hmem) (len buf : Z) : outcome Z :=
  net_checksum_add_cont m len buf 0.

Fixpoint finish_loop (fuel : nat) (sum : Z) : outcome Z :=
  match fuel with
  | O => NoFuel
  | S fuel =>
    if negb (sum >> 16 =? 0)
    then finish_loop fuel (u32 ((sum &&& 0xFFFF) + (sum >> 16)))
    else Ret (u16 (Z.lnot sum))
  end.

(** Two foldings bring 32 bits down to 16. *)
Definition net_checksum_finish (sum : Z) : outcome Z := finish_loop 3 sum.

Definition net_raw_checksum (m : hmem) (data length : Z) : outcome Z :=
  sum ← net_checksum_add m length data; net_checksum_finish sum.

Definition net_checksum_tcpudp (m : hmem) (length proto addrs buf : Z) : outcome Z :=
  a ← net_checksum_add m length buf;
  b ← net_checksum_add m 8 addrs;
  net_checksum_finish (u32 (u32 (u32 (0 + a) + b) + (proto + length))).

(** [net_checksum_calculate]; its argument [length] is not used. *)
Definition net_checksum_calculate (m : hmem) (data length : Z) : outcome hmem :=
  d14 ← get m (data + 14);
  if negb ((d14 &&& 0xf0) =? 0x40) then Ret m else
  let hlen := (d14 &&& 0x0f) * 4 in
  d16 ← get m (data + 16); d17 ← get m (data + 17);
  let plen := ((d16 << 8) ||| d17) - hlen in
  proto ← get m (data + 23);
  let switch :=
    if proto =? PROTO_TCP then Some 16
    else if proto =? PROTO_UDP then Some 6 else None in
  match switch with
  | None => Ret m
  | Some csum_offset =>
    if plen <? csum_offset + 2 then Ret m else
    m ← put m (data + (14 + hlen + csum_offset)) 0;
    m ← put m (data + (14 + hlen + csum_offset + 1)) 0;
    csum ← net_checksum_tcpudp m (u16 plen) proto (data + 14 + 12) (data + 14 + hlen);
    m ← put m (data + (14 + hlen + csum_offset)) (csum >> 8);
    put m (data + (14 + hlen + csum_offset + 1)) (csum &&& 0xff)
  end.

(** The loop of [net_checksum_add_iov]; [buf_off] is written only. *)
Fixpoint add_iov_loop (m : hmem) (iov : list iovec)
    (iov_off size iovec_off res seq : Z) : outcome Z :=
  match iov with
  | [] => Ret res
  | v :: iov =>
    if size =? 0 then Ret res else
    if iov_off <? u64 (iovec_off + iov_len v) then
      let len := Z.min (u64 (u64 (iovec_off + iov_len v) - iov_off)) size in
      let chunk_buf := iov_base v + (iov_off - iovec_off) in
      c ← net_checksum_add_cont m (s32 len) chunk_buf (s32 seq);
      add_iov_loop m iov (u32 (iov_off + len)) (u32 (size - len))
        (u64 (iovec_off + iov_len v)) (u32 (res + c)) (u32 (seq + len))
    else
      add_iov_loop m iov iov_off size (u64 (iovec_off + iov_len v)) res seq
  end.

Definition net_checksum_add_iov (m : hmem) (iov : list iovec) (iov_off size : Z)
    : outcome Z :=
  add_iov_loop m iov iov_off size 0 0 0.

(** ** Sums of 16-bit words *)

(** The sum of the big-endian 16-bit words of [bs]; [odd] says that the first
    byte is the second one of a word. *)
Fixpoint word_sum (odd : bool) (bs : list Z) : Z :=
  match bs with
  | [] => 0
  | b :: bs => (if odd then b else b * 256) + word_sum (negb odd) bs
  end.

Lemma word_sum_app odd x y :
  word_sum odd (x ++ y) = word_sum odd x + word_sum (xorb odd (Nat.odd (length x))) y.
Proof.
  revert odd. induction x as [|b x IH]; intros odd; cbn [app word_sum length].
  { by rewrite xorb_false_r. }
  rewrite IH, Nat.odd_succ, <- Nat.negb_odd.
  destruct odd, (Nat.odd (length x)); apply Z.add_assoc.
Qed.

Lemma word_sum_range odd bs :
  Forall is_byte bs -> 0 <= word_sum odd bs <= 255 * 256 * Z.of_nat (length bs).
Proof.
  intros H. revert odd. induction H as [|b bs Hb Hbs IH]; intros odd; cbn [word_sum length]; [lia|].
  specialize (IH (negb odd)). unfold is_byte in Hb. destruct odd; lia.
Qed.

(** Tighter: two bytes are at most [0xffff]. *)
Lemma word_sum_le bs k :
  Forall is_byte bs -> Z.of_nat (length bs) <= 2 * k -> word_sum false bs <= 65535 * k.
Proof.
  intros Hb Hl. rewrite <- (Z2Nat.id k) by lia.
  assert (length bs <= 2 * Z.to_nat k)%nat as Hn by lia. clear Hl. revert Hb Hn.
  generalize (Z.to_nat k) as n. clear k. intros n. revert bs. induction n as [|n IH]; intros bs Hb Hl.
  { destruct bs; [done|simpl in Hl; lia]. }
  destruct bs as [|a [|b bs]]; cbn [word_sum negb]; [lia| |].
  - apply Forall_cons in Hb as [Hb _]. unfold is_byte in Hb. lia.
  - apply Forall_cons in Hb as [Ha [Hb' Hbs]%Forall_cons].
    simpl in Hl. specialize (IH bs Hbs ltac:(lia)). unfold is_byte in *. lia.
Qed.

Lemma get_gather m a b : m !! a = Some b -> get m a = Ret b.
Proof. unfold get. by intros ->. Qed.

Lemma add_cont_loop_spec m buf seq i n sum bs :
  gather m (seqZ (buf + (i - seq)) (Z.of_nat n)) = Some bs ->
  Forall is_byte bs ->
  add_cont_loop m buf seq i n (u32 sum) = Ret (u32 (sum + word_sum (Z.odd i) bs)).
Proof.
  revert i sum bs. induction n as [|n IH]; intros i sum bs Hg Hb.
  { injection Hg as <-. simpl. by rewrite Z.add_0_r. }
  rewrite seqZ_S in Hg. change (?a :: ?l) with ([a] ++ l) in Hg.
  apply gather_app_Some in Hg as (x & y & -> & Hx & Hy).
  unfold gather in Hx. cbn in Hx. destruct (m !! (buf + (i - seq))) as [b|] eqn:Eb; [|done].
  injection Hx as <-. apply Forall_cons in Hb as [Hb Hbs]. unfold is_byte in Hb.
  cbn [add_cont_loop]. rewrite (get_gather _ _ _ Eb). cbn [mbind outcome_bind app word_sum].
  replace (has_bits i 1) with (Z.odd i)
    by (change 1 with (2 ^ 0); rewrite has_bits_pow2 by lia; by rewrite Z.bit0_odd).
  replace (negb (Z.odd i)) with (Z.odd (i + 1)) by (by rewrite Z.odd_add, xorb_true_r).
  replace (buf + (i - seq) + 1) with (buf + (i + 1 - seq)) in Hy by lia.
  destruct (Z.odd i).
  - rewrite wrap_add_l, (IH _ _ y) by done. f_equal. f_equal. lia.
  - rewrite wrap_add_l, wrap_add_r, (IH _ _ y), Z.shiftl_mul_pow2 by (done || lia).
    f_equal. f_equal. lia.
Qed.

Lemma add_cont_spec m len buf seq bs :
  gather m (seqZ buf len) = Some bs -> Forall is_byte bs -> 0 <= len ->
  net_checksum_add_cont m len buf seq = Ret (u32 (word_sum (Z.odd seq) bs)).
Proof.
  intros Hg Hb Hl. unfold net_checksum_add_cont.
  apply (add_cont_loop_spec m buf seq seq _ 0); [|done].
  by rewrite Z.sub_diag, Z.add_0_r, Z2Nat.id.
Qed.

(** ** Folding *)

(** The one's complement sum of 16-bit words, given their plain sum. *)
Definition fold16 (s : Z) : Z := if s =? 0 then 0 else (s - 1) mod 65535 + 1.

Lemma fold16_small s : 0 <= s <= 65535 -> fold16 s = s.
Proof. intros. unfold fold16. zcase; [done|]. rewrite Z.mod_small; lia. Qed.

Lemma fold16_step s : 0 <= s -> fold16 (s mod 65536 + s / 65536) = fold16 s.
Proof.
  intros Hs. pose proof (Z.div_mod s 65536 ltac:(lia)) as Hd.
  pose proof (Z.mod_pos_bound s 65536 ltac:(lia)). pose proof (Z.div_pos s 65536 Hs ltac:(lia)).
  set (q := s / 65536) in *. set (r := s mod 65536) in *. unfold fold16.
  destruct (Z.eqb_spec (r + q) 0); destruct (Z.eqb_spec s 0); try lia. f_equal.
  replace (s - 1) with (r + q - 1 + q * 65535) by lia. by rewrite Z_mod_plus_full.
Qed.

Lemma fold16_complement s : 0 <= s -> fold16 (s + (65535 - fold16 s)) = 65535.
Proof.
  intros Hs. unfold fold16 at 2. destruct (Z.eqb_spec s 0) as [->|Hne]; [done|].
  pose proof (Z.div_mod (s - 1) 65535 ltac:(lia)) as Hd.
  pose proof (Z.mod_pos_bound (s - 1) 65535 ltac:(lia)).
  pose proof (Z.div_pos (s - 1) 65535 ltac:(lia) ltac:(lia)).
  set (q := (s - 1) / 65535) in *. set (r := (s - 1) mod 65535) in *.
  replace (s + (65535 - (r + 1))) with (65535 + q * 65535) by lia. unfold fold16.
  destruct (Z.eqb_spec (65535 + q * 65535) 0); [lia|].
  replace (65535 + q * 65535 - 1) with (65534 + q * 65535) by lia.
  by rewrite Z_mod_plus_full.
Qed.

(** *** One's complement sums

    RFC 1071: 16-bit words are added with the carry added back in; a byte that
    is left over is the upper half of a word. *)

Definition oc_add (a b : Z) : Z := if a + b <? 65536 then a + b else a + b - 65535.

Fixpoint oc_sum (acc : Z) (bs : list Z) : Z :=
  match bs with
  | a :: b :: bs => oc_sum (oc_add acc (a * 256 + b)) bs
  | [a] => oc_add acc (a * 256)
  | [] => acc
  end.

Lemma oc_add_fold s w : 0 <= s -> 0 <= w <= 65535 -> oc_add (fold16 s) w = fold16 (s + w).
Proof.
  intros Hs Hw. unfold fold16 at 1. destruct (Z.eqb_spec s 0) as [->|Hne].
  { unfold oc_add. zcase; [|lia]. rewrite Z.add_0_l, fold16_small; lia. }
  pose proof (Z.div_mod (s - 1) 65535 ltac:(lia)) as Hd.
  pose proof (Z.mod_pos_bound (s - 1) 65535 ltac:(lia)).
  pose proof (Z.div_pos (s - 1) 65535 ltac:(lia) ltac:(lia)).
  set (q := (s - 1) / 65535) in *. set (r := (s - 1) mod 65535) in *.
  unfold oc_add, fold16. destruct (Z.eqb_spec (s + w) 0); [lia|].
  replace (s + w - 1) with (r + w + q * 65535) by lia. rewrite Z_mod_plus_full.
  destruct (Z.ltb_spec (r + 1 + w) 65536); [rewrite Z.mod_small; lia|].
  replace (r + w) with (r + w - 65535 + 1 * 65535) by lia. rewrite Z_mod_plus_full, Z.mod_small; lia.
Qed.

Lemma oc_sum_fold n : forall bs s, (length bs <= n)%nat -> 0 <= s -> Forall is_byte bs ->
  oc_sum (fold16 s) bs = fold16 (s + word_sum false bs).
Proof.
  induction n as [|n IH]; intros [|a [|b bs]] s Hn Hs Hb; cbn [oc_sum word_sum negb length] in *; try lia;
    try (by rewrite Z.add_0_r).
  - apply Forall_cons in Hb as [Ha _]. unfold is_byte in Ha. rewrite oc_add_fold, Z.add_0_r by lia. done.
  - apply Forall_cons in Hb as [Ha [Hb Hbs]%Forall_cons]. unfold is_byte in Ha, Hb.
    rewrite oc_add_fold, IH by (done || lia). f_equal. lia.
Qed.

(** What RFC 768 and RFC 793 have summed: the addresses, the protocol, the
    length, and the datagram or segment. *)
Definition pseudo_header (addresses : list Z) (proto len : Z) : list Z :=
  addresses ++ [0; proto; len / 256; len mod 256].

Lemma oc_sum_segment ad proto len seg :
  Forall is_byte ad -> length ad = 8%nat -> is_byte proto -> 0 <= len <= 65535 -> Forall is_byte seg ->
  oc_sum 0 (pseudo_header ad proto len ++ seg) = fold16 (word_sum false seg + word_sum false ad + (proto + len)).
Proof.
  intros Ha Hl Hp Hn Hs. unfold is_byte in Hp.
  assert (Forall is_byte [0; proto; len / 256; len mod 256]) as Hh
    by (repeat constructor; unfold is_byte; mlia).
  change 0 with (fold16 0) at 1. unfold pseudo_header.
  rewrite (oc_sum_fold _ _ 0 (Nat.le_refl _)); [|lia|by rewrite !Forall_app].
  rewrite !word_sum_app, length_app, Hl. cbn [length Nat.add Nat.odd Nat.even xorb negb word_sum].
  f_equal. pose proof (Z.div_mod len 256 ltac:(lia)). lia.
Qed.

Lemma finish_done fuel s :
  0 <= s <= 65535 -> finish_loop (S fuel) s = Ret (65535 - fold16 s).
Proof.
  intros Hs. cbn [finish_loop]. rewrite Z.shiftr_div_pow2 by lia. change (2 ^ 16) with 65536.
  rewrite Z.div_small by lia. cbn [Z.eqb negb]. rewrite fold16_small by lia. f_equal.
  unfold wrap, Z.lnot. change (2 ^ 16) with 65536.
  symmetry. apply (Z.mod_unique _ _ (-1)); lia.
Qed.

Lemma finish_next fuel s :
  65536 <= s < 2 ^ 32 -> finish_loop (S fuel) s = finish_loop fuel (s mod 65536 + s / 65536).
Proof.
  intros Hs. cbn [finish_loop]. rewrite Z.shiftr_div_pow2 by lia. change (2 ^ 16) with 65536.
  destruct (Z.eqb_spec (s / 65536) 0); [mlia|]. cbn [negb].
  change 0xFFFF with (Z.ones 16). rewrite Z.land_ones by lia. change (2 ^ 16) with 65536.
  rewrite wrap_small; [done|]. mlia.
Qed.

Lemma finish_spec s : 0 <= s < 2 ^ 32 -> net_checksum_finish s = Ret (65535 - fold16 s).
Proof.
  intros Hs. unfold net_checksum_finish.
  destruct (Z.leb_spec s 65535); [apply finish_done; lia|].
  rewrite finish_next, <- (fold16_step s) by lia.
  set (t := s mod 65536 + s / 65536). assert (0 <= t <= 131070) as Ht by (unfold t; mlia).
  clearbody t. destruct (Z.leb_spec t 65535); [apply finish_done; lia|].
  rewrite finish_next, <- (fold16_step t) by lia. apply finish_done. mlia.
Qed.

Lemma tcpudp_spec m len proto addrs buf bs ad :
  gather m (seqZ buf len) = Some bs -> Forall is_byte bs ->
  gather m (seqZ addrs 8) = Some ad -> Forall is_byte ad ->
  0 <= len <= 65535 -> 0 <= proto <= 255 ->
  net_checksum_tcpudp m len proto addrs buf
    = Ret (65535 - fold16 (word_sum false bs + word_sum false ad + (proto + len))).
Proof.
  intros Hg Hb Hga Hba Hl Hp. unfold net_checksum_tcpudp, net_checksum_add.
  rewrite (add_cont_spec m len buf 0 bs), (add_cont_spec m 8 addrs 0 ad) by (done || lia).
  cbn [mbind outcome_bind Z.odd].
  pose proof (gather_length _ _ _ Hg) as Hlb. pose proof (gather_length _ _ _ Hga) as Hla.
  rewrite length_seqZ in Hlb, Hla.
  pose proof (word_sum_range false bs Hb). pose proof (word_sum_range false ad Hba).
  pose proof (word_sum_le bs 32768 Hb ltac:(lia)). pose proof (word_sum_le ad 4 Hba ltac:(lia)).
  rewrite Z.add_0_l, !wrap_wrap, wrap_add_r, !wrap_add_l, <- Z.add_assoc, wrap_add_l, wrap_small by lia.
  rewrite Z.add_assoc. apply finish_spec. lia.
Qed.

(** ** The checksum field *)

Lemma put_two {A} m p a b (k : hmem -> outcome A) :
  accessible m [p; p + 1] ->
  (m ← put m p a; m ← put m (p + 1) b; k m) = k (write_at m [p; p + 1] [a; b]).
Proof.
  intros [[x Hx] [[y Hy] _]%Forall_cons]%Forall_cons. unfold put. cbv beta in *. rewrite Hx.
  cbn [mbind outcome_bind]. by rewrite lookup_insert_ne, Hy by lia.
Qed.

Lemma put_last m p a b :
  accessible m [p; p + 1] ->
  (m ← put m p a; put m (p + 1) b) = Ret (write_at m [p; p + 1] [a; b]).
Proof.
  intros Ha. rewrite <- (put_two m p a b Ret Ha).
  destruct (put m p a) as [m'| |]; [|done..]. simpl. by destruct (put m' (p + 1) b).
Qed.

(** The two bytes of the field, between the bytes before and after it. *)
Lemma seqZ_field buf n off :
  0 <= off -> off + 2 <= n ->
  seqZ buf n = seqZ buf off ++ [buf + off; buf + off + 1] ++ seqZ (buf + off + 2) (n - off - 2).
Proof.
  intros. replace n with (off + (2 + (n - off - 2))) at 1 by lia.
  rewrite seqZ_app, seqZ_app by lia. f_equal. f_equal. change (Z.of_nat 2) with 2.
  change 2 with (Z.of_nat 2) at 1. rewrite !seqZ_S. by rewrite <- !Z.add_assoc.
Qed.

(** What a write of the field makes of a region that holds it: the sum of the
    words changes by the value written. *)
Lemma field_sum m buf n off :
  0 <= off -> Z.even off = true -> off + 2 <= n -> bytes_at m buf n ->
  exists s, 0 <= s /\ forall a b m', is_byte a -> is_byte b ->
    (forall x, x <> buf + off -> x <> buf + off + 1 -> m' !! x = m !! x) ->
    gather m' [buf + off; buf + off + 1] = Some [a; b] ->
    exists bs, gather m' (seqZ buf n) = Some bs /\ Forall is_byte bs /\
               word_sum false bs = s + (a * 256 + b).
Proof.
  intros Ho He Hn Hb.
  destruct (bytes_at_gather m buf off) as (x & Hx & Hbx).
  { eapply bytes_at_sub; [exact Hb|lia|lia]. }
  destruct (bytes_at_gather m (buf + off + 2) (n - off - 2)) as (y & Hy & Hby).
  { eapply bytes_at_sub; [exact Hb|lia|lia]. }
  exists (word_sum false x + word_sum false y).
  pose proof (word_sum_range false x Hbx). pose proof (word_sum_range false y Hby).
  split; [lia|]. intros a b m' Ha Hb' Hsame Hf.
  exists (x ++ [a; b] ++ y). split_and!.
  - rewrite (seqZ_field buf n off) by lia. rewrite !gather_app.
    rewrite (gather_ext m' m (seqZ buf off)), Hx
      by (intros z Hz%elem_of_seqZ; apply Hsame; lia). cbn [mbind option_bind].
    rewrite Hf. rewrite (gather_ext m' m (seqZ (buf + off + 2) _)), Hy
      by (intros z Hz%elem_of_seqZ; apply Hsame; lia). done.
  - rewrite !Forall_app. split; [done|]. split; [|done].
    by apply Forall_cons; split; [|apply Forall_singleton].
  - rewrite !word_sum_app. apply gather_length in Hx. rewrite length_seqZ in Hx.
    assert (Nat.odd (length x) = false) as ->.
    { rewrite Hx. rewrite <- Nat.negb_even. apply negb_false_iff.
      apply Z.even_spec in He as [k ->]. apply Nat.even_spec. exists (Z.to_nat k). lia. }
    cbn [xorb negb length Nat.odd Nat.even word_sum]. lia.
Qed.

(** A test of all bytes. *)
Lemma byte_all (P : Z -> bool) :
  forallb P (seqZ 0 256) = true -> forall b, is_byte b -> P b = true.
Proof. rewrite forallb_forall. intros H b Hb. apply H, list_elem_of_In, elem_of_seqZ. done. Qed.

Lemma version_nibble b : is_byte b -> ((b &&& 0xf0) =? 0x40) = (b / 16 =? 4).
Proof.
  intros Hb. apply eqb_prop.
  refine (byte_all (fun b => Bool.eqb ((b &&& 0xf0) =? 0x40) (b / 16 =? 4)) _ b Hb).
  vm_compute. reflexivity.
Qed.

Lemma length_nibble b : b &&& 0x0f = b mod 16.
Proof. change 0x0f with (Z.ones 4). by rewrite Z.land_ones. Qed.

Lemma bytes_be a b : 0 <= a -> is_byte b -> (a << 8) ||| b = a * 256 + b.
Proof.
  intros Ha Hb. unfold is_byte in Hb. pose proof (Z.add_lor_land (a << 8) b) as H.
  assert ((a << 8) &&& b = 0) as Hz.
  { bits_ext i Hi. destruct (Z.ltb_spec i 8).
    - rewrite (Z.testbit_neg_r a) by lia. by rewrite andb_false_r.
    - rewrite (testbit_high 8 b) by (done || lia). by rewrite andb_false_r. }
  rewrite Hz, Z.add_0_r in H. rewrite H, Z.shiftl_mul_pow2 by lia. done.
Qed.

Lemma bytes_split c : 0 <= c < 65536 ->
  is_byte (c >> 8) /\ is_byte (c &&& 0xff) /\ (c >> 8) * 256 + (c &&& 0xff) = c.
Proof.
  intros Hc. change 0xff with (Z.ones 8). rewrite Z.land_ones, Z.shiftr_div_pow2 by lia.
  change (2 ^ 8) with 256. unfold is_byte. split_and!; mlia.
Qed.

Lemma fold16_range s : 0 <= fold16 s <= 65535.
Proof. unfold fold16. destruct (s =? 0); [lia|]. mlia. Qed.

(** The body of [net_checksum_calculate] once the header is read. *)
Lemma fill_field m data hlen plen proto off :
  let p := data + (14 + hlen + off) in
  20 <= hlen -> 0 <= off -> Z.even off = true -> off + 2 <= plen <= 65535 ->
  0 <= proto <= 255 -> bytes_at m data (14 + hlen + plen) ->
  exists m',
    (m ← put m p 0; m ← put m (p + 1) 0;
     csum ← net_checksum_tcpudp m plen proto (data + 14 + 12) (data + 14 + hlen);
     m ← put m p (csum >> 8); put m (p + 1) (csum &&& 0xff)) = Ret m' /\
    (forall a, a <> p -> a <> p + 1 -> m' !! a = m !! a) /\
    exists ad seg,
      gather m' (seqZ (data + 14 + 12) 8) = Some ad /\ gather m' (seqZ (data + 14 + hlen) plen) = Some seg /\
      oc_sum 0 (pseudo_header ad proto plen ++ seg) = 0xffff.
Proof.
  intros p Hh Ho He Hp Hpr Hb.
  assert (accessible m [p; p + 1]) as Hacc.
  { apply Forall_forall. intros x Hx. destruct (Hb x) as (b & -> & _); [|eauto].
    rewrite !elem_of_cons, elem_of_nil in Hx. unfold p in *. lia. }
  destruct (field_sum m (data + 14 + hlen) plen off) as (s & Hs & Hsum);
    [lia|done|lia|eapply bytes_at_sub; [exact Hb|lia|lia]|].
  replace (data + 14 + hlen + off) with p in Hsum by (unfold p; lia).
  destruct (bytes_at_gather m (data + 14 + 12) 8) as (ad & Had & Hba).
  { eapply bytes_at_sub; [exact Hb|lia|lia]. }
  assert (forall m', (forall x, x <> p -> x <> p + 1 -> m' !! x = m !! x) ->
    gather m' (seqZ (data + 14 + 12) 8) = Some ad) as Haddr.
  { intros m' Hm'. rewrite <- Had. apply gather_ext. intros a Ha%elem_of_seqZ.
    apply Hm'; unfold p; lia. }
  rewrite (put_two m p 0 0) by done. set (m0 := write_at m [p; p + 1] [0; 0]).
  assert (forall x, x <> p -> x <> p + 1 -> m0 !! x = m !! x) as Hm0.
  { intros x H1 H2. apply write_at_ne. set_solver. }
  assert (NoDup [p; p + 1]) as Hnd.
  { apply NoDup_cons. split; [|apply NoDup_singleton]. intros ?%list_elem_of_singleton. lia. }
  destruct (Hsum 0 0 m0) as (bs0 & Hg0 & Hb0 & Hs0); [done|done|done|by apply gather_write_at|].
  set (c := 65535 - fold16 (word_sum false bs0 + word_sum false ad + (proto + plen))).
  rewrite (tcpudp_spec m0 plen proto _ _ bs0 ad); [|done|done|by apply Haddr|done|lia|done].
  fold c. cbn [mbind outcome_bind].
  assert (0 <= c < 65536) as Hc.
  { unfold c. pose proof (fold16_range (word_sum false bs0 + word_sum false ad + (proto + plen))).
    lia. }
  destruct (bytes_split c Hc) as (Hhi & Hlo & Hcs).
  rewrite put_last by (by apply accessible_write_at).
  set (m1 := write_at m0 _ _). exists m1.
  assert (forall x, x <> p -> x <> p + 1 -> m1 !! x = m !! x) as Hm1.
  { intros x H1 H2. unfold m1. rewrite write_at_ne by set_solver. auto. }
  split; [done|]. split; [done|].
  destruct (Hsum (c >> 8) (c &&& 0xff) m1) as (bs1 & Hg1 & Hb1 & Hs1);
    [done|done|done|by apply gather_write_at|].
  exists ad, bs1. split; [by apply Haddr|]. split; [done|].
  pose proof (gather_length _ _ _ Had) as Hla. rewrite length_seqZ in Hla.
  rewrite oc_sum_segment by (done || (unfold is_byte; lia)).
  pose proof (word_sum_range false ad Hba). pose proof (word_sum_range false bs0 Hb0).
  replace (word_sum false bs1 + word_sum false ad + (proto + plen))
    with (word_sum false bs0 + word_sum false ad + (proto + plen) + c) by lia.
  unfold c. by rewrite fold16_complement by lia.
Qed.

(** ** Checksums over vectors *)

Lemma odd_of_nat k : Z.odd (Z.of_nat k) = Nat.odd k.
Proof.
  induction k as [|k IH]; [done|].
  by rewrite Nat2Z.inj_succ, Z.odd_succ, Nat.odd_succ, <- Z.negb_odd, <- Nat.negb_odd, IH.
Qed.

Lemma add_iov_loop_spec m l off size r iovec_off res seq bs :
  iov_ok l -> 0 <= r -> 0 <= size < 2 ^ 32 -> 0 <= off < 2 ^ 32 ->
  (size = 0 \/ off = iovec_off + r) -> 0 <= seq <= iovec_off ->
  iovec_off + iov_total l < 2 ^ 31 ->
  gather m (iov_addrs (iov_slice r size l)) = Some bs -> Forall is_byte bs ->
  add_iov_loop m l off size iovec_off (u32 res) seq
    = Ret (u32 (res + word_sum (Z.odd seq) bs)).
Proof.
  intros Hl. revert off size r iovec_off res seq bs.
  induction Hl as [|v l Hv Hl IH]; intros off size r io res seq bs Hr Hs Ho Hsz Hsq Ht Hg Hb.
  { injection Hg as <-. simpl. by rewrite Z.add_0_r. }
  cbn [add_iov_loop iov_slice iov_total foldr] in *. fold (iov_total l) in *.
  pose proof (iov_total_nonneg l Hl).
  destruct (Z.eqb_spec size 0) as [->|Hs0].
  { injection Hg as <-. simpl. by rewrite Z.add_0_r. }
  destruct Hsz as [?|Hoff]; [done|]. destruct (Z.leb_spec size 0); [lia|].
  rewrite !(wrap_small 64 (io + _)) by lia.
  destruct (Z.ltb_spec off (io + iov_len v)); destruct (Z.ltb_spec r (iov_len v)); try lia.
  2: { apply (IH _ _ (r - iov_len v)); [lia..|done|done]. }
  rewrite (wrap_small 64) by lia. replace (io + iov_len v - off) with (iov_len v - r) by lia.
  set (len := Z.min (iov_len v - r) size) in *.
  replace (off - io) with r by lia. rewrite iov_addrs_cons in Hg. cbn [iov_base iov_len] in Hg.
  apply gather_app_Some in Hg as (x & y & -> & Hx & Hy). apply Forall_app in Hb as [Hbx Hby].
  rewrite (sext_small 32 len), (sext_small 32 seq) by (change (32 - 1) with 31; lia).
  rewrite (add_cont_spec m len _ seq x) by (done || lia). cbn [mbind outcome_bind].
  rewrite wrap_add_l, wrap_add_r, !(wrap_small 32 (_ + len)), (wrap_small 32 (size - len)) by lia.
  rewrite (IH _ _ 0 _ _ _ y) by (done || lia).
  apply gather_length in Hx. rewrite length_seqZ in Hx.
  rewrite word_sum_app, Hx, Z.odd_add. f_equal. f_equal.
  rewrite <- odd_of_nat, Z2Nat.id by lia. lia.
Qed.

(** ** Properties *)

(** C35: on an Ethernet frame with an IPv4 header [net_checksum_calculate]
    fills in the TCP or UDP checksum: it changes the two bytes of the field
    only, and a receiver accepts the result: the one's complement sum of the
    pseudo header (addresses, protocol and length) and of the segment, field
    included, is all ones.  On any other frame, or one too short for the field,
    it does nothing. *)
Theorem net_checksum_calculate_correct m data length d14 d16 d17 proto :
  m !! (data + 14) = Some d14 -> m !! (data + 16) = Some d16 ->
  m !! (data + 17) = Some d17 -> m !! (data + 23) = Some proto ->
  is_byte d14 -> is_byte d16 -> is_byte d17 -> is_byte proto ->
  let hlen := d14 mod 16 * 4 in
  let plen := d16 * 256 + d17 - hlen in
  let off := if proto =? PROTO_TCP then 16 else 6 in
  let p := data + (14 + hlen + off) in
  (d14 / 16 <> 4 \/ (proto <> PROTO_TCP /\ proto <> PROTO_UDP) \/ plen < off + 2 ->
     net_checksum_calculate m data length = Ret m) /\
  (d14 / 16 = 4 -> proto = PROTO_TCP \/ proto = PROTO_UDP -> off + 2 <= plen ->
   20 <= hlen -> bytes_at m data (14 + hlen + plen) ->
   exists m', net_checksum_calculate m data length = Ret m' /\
     (forall a, a <> p -> a <> p + 1 -> m' !! a = m !! a) /\
     exists ad seg,
       gather m' (seqZ (data + 26) 8) = Some ad /\ gather m' (seqZ (data + 14 + hlen) plen) = Some seg /\
       oc_sum 0 (pseudo_header ad proto plen ++ seg) = 0xffff).
Proof.
  intros H14 H16 H17 H23 B14 B16 B17 B23 hlen plen off p. unfold is_byte in *.
  unfold net_checksum_calculate.
  rewrite (get_gather _ _ _ H14), (get_gather _ _ _ H16), (get_gather _ _ _ H17),
    (get_gather _ _ _ H23). cbn [mbind outcome_bind].
  rewrite version_nibble, length_nibble, bytes_be by (done || lia). fold hlen plen.
  destruct (Z.eqb_spec (d14 / 16) 4) as [E4|E4]; cbn [negb]; [|split; [done|by intros ?]].
  unfold off, p in *. destruct (Z.eqb_spec proto PROTO_TCP) as [Etcp|Etcp].
  2: destruct (Z.eqb_spec proto PROTO_UDP) as [Eudp|Eudp]; [|split; [done|by intros _ [?|?]]].
  all: match goal with |- context [?a <? ?k + 2] => destruct (Z.ltb_spec a (k + 2)) end;
    (split; [intros [?|[[? ?]|?]]; done || lia|intros _ _ Hp Hh Hb; try lia]).
  all: rewrite wrap_small by (subst plen hlen; lia).
  all: rewrite !(Z.add_assoc data _ 1); replace (data + 26) with (data + 14 + 12) by lia.
  all: apply fill_field; (done || (subst plen hlen; lia)).
Qed.

(** A frame with an IPv4 header of 20 bytes and a UDP datagram of 10. *)
Definition udp_frame : list Z :=
  replicate 12 0 ++ [8; 0] ++
  [0x45; 0; 0; 30; 0; 0; 0; 0; 64; 17; 0; 0; 10; 0; 0; 1; 10; 0; 0; 2] ++
  [0; 53; 0; 54; 0; 10; 0xab; 0xcd; 1; 2].

Definition frame_mem (a : Z) (bs : list Z) : hmem :=
  list_to_map (zip (seqZ a (Z.of_nat (length bs))) bs).

Lemma net_checksum_calculate_correct_witness :
  let m := frame_mem 100 udp_frame in
  exists m', net_checksum_calculate m 100 44 = Ret m' /\
    (forall a, a <> 140 -> a <> 141 -> m' !! a = m !! a) /\
    exists ad seg, gather m' (seqZ 126 8) = Some ad /\ gather m' (seqZ 134 10) = Some seg /\
      oc_sum 0 (pseudo_header ad 17 10 ++ seg) = 0xffff.
Proof.
  intros m.
  destruct (net_checksum_calculate_correct m 100 44 0x45 0 30 17
    ltac:(vm_compute; reflexivity) ltac:(vm_compute; reflexivity)
    ltac:(vm_compute; reflexivity) ltac:(vm_compute; reflexivity)
    ltac:(unfold is_byte; lia) ltac:(unfold is_byte; lia)
    ltac:(unfold is_byte; lia) ltac:(unfold is_byte; lia)) as [_ Hok].
  apply Hok.
  - vm_compute. reflexivity.
  - right. reflexivity.
  - vm_compute. discriminate.
  - vm_compute. discriminate.
  - intros x Hx. change (100 <= x < 144) in Hx.
    assert (forallb (fun x => match m !! x with Some b => bool_decide (is_byte b) | None => false end)
              (seqZ 100 44) = true) as Hall by (vm_compute; reflexivity).
    rewrite forallb_forall in Hall. specialize (Hall x).
    destruct (m !! x) as [b|].
    + exists b. split; [reflexivity|]. apply (bool_decide_unpack _). apply Is_true_true, Hall.
      apply list_elem_of_In, elem_of_seqZ. lia.
    + discriminate Hall. apply list_elem_of_In, elem_of_seqZ. lia.
Defined.

(** The length the caller gives is not looked at: a frame of 44 bytes whose
    header claims 60 makes the function read behind its end. *)
Example calculate_overruns :
  let m := frame_mem 100 (<[17%nat := 60]> udp_frame) in
  net_checksum_calculate m 100 44 = Fault OutOfBounds.
Proof. vm_compute. reflexivity. Qed.

(** The checksum over a part of a vector is the sum of the big-endian words
    of its bytes, wherever the elements end inside words, and agrees with the
    checksum of the same bytes copied to a buffer. *)
Lemma net_checksum_add_iov_correct m l off size bs buf :
  iov_ok l -> 0 <= off < 2 ^ 32 -> 0 <= size < 2 ^ 32 -> iov_total l < 2 ^ 31 ->
  gather m (iov_part l off size) = Some bs -> Forall is_byte bs ->
  net_checksum_add_iov m l off size = Ret (u32 (word_sum false bs)) /\
  let n := Z.min size (iov_total l - off) in
  (off <= iov_total l -> accessible m (seqZ buf n) ->
   (forall x, x ∈ iov_part l off size -> x ∉ seqZ buf n) ->
   exists m', iov_to_buf m l off buf size = Ret (m', n) /\
              net_checksum_add m' n buf = net_checksum_add_iov m l off size).
Proof.
  intros Hl Ho Hs Ht Hg Hb.
  assert (net_checksum_add_iov m l off size = Ret (u32 (word_sum false bs))) as Hsum.
  { unfold iov_part in Hg. rewrite <- iov_slice_addrs in Hg by (done || lia).
    apply (add_iov_loop_spec m l off size off 0 0 0 bs); done || lia. }
  split; [done|]. intros n Hin Ha Hd. rewrite Hsum.
  eexists. split; [apply (iov_to_buf_ok m l off buf size); done || lia|].
  apply (add_cont_spec _ _ _ 0); [|done|lia].
  apply gather_write_at; [apply NoDup_seqZ|].
  rewrite length_seqZ, (gather_length _ _ _ Hg), length_iov_part by (done || lia). lia.
Qed.

Lemma net_checksum_add_iov_correct_witness :
  let m := frame_mem 100 udp_frame in
  let l := [mk_iovec 114 3; mk_iovec 120 0; mk_iovec 117 17] in
  net_checksum_add_iov m l 0 20 = net_checksum_add m 20 114 /\
  net_checksum_add_iov m l 0 20 = Ret (u32 (word_sum false (take 20 (drop 14 udp_frame)))).
Proof.
  intros m l. split; [vm_compute; reflexivity|].
  refine (proj1 (net_checksum_add_iov_correct m l 0 20 _ 0 _ _ _ _ _ _)).
  - apply (bool_decide_unpack _). vm_compute. exact I.
  - lia.
  - lia.
  - vm_compute. reflexivity.
  - vm_compute. reflexivity.
  - apply (bool_decide_unpack _). vm_compute. exact I.
Defined.
