(* ===== verification/BitField.v ===== *)
(** * Rotations and bit fields

    The rotations and the bit field accessors of src/include/qemu/bitops.h.
    A shift of a 32- or 64-bit value by its width or more is undefined in C;
    8- and 16-bit values are promoted to [int] first. *)

From S2P Require Import Prelude.

(** Shifts of [w]-bit unsigned values. *)
Definition cshl (w x n : Z) : outcome Z :=
  if (0 <=? n) && (n <? w) then Ret (wrap w (x << n)) else Fault Undefined.

Definition cshr (w x n : Z) : outcome Z :=
  if (0 <=? n) && (n <? w) then Ret (x >> n) else Fault Undefined.

(** ** Rotations *)

Definition rol8 (word shift : Z) : outcome Z :=
  a ← cshl 32 word shift; b ← cshr 32 word (8 - shift); Ret (u8 (a ||| b)).

Definition ror8 (word shift : Z) : outcome Z :=
  a ← cshr 32 word shift; b ← cshl 32 word (8 - shift); Ret (u8 (a ||| b)).

Definition rol16 (word shift : Z) : outcome Z :=
  a ← cshl 32 word shift; b ← cshr 32 word (16 - shift); Ret (u16 (a ||| b)).

Definition ror16 (word shift : Z) : outcome Z :=
  a ← cshr 32 word shift; b ← cshl 32 word (16 - shift); Ret (u16 (a ||| b)).

Definition rol32 (word shift : Z) : outcome Z :=
  a ← cshl 32 word shift; b ← cshr 32 word (32 - shift); Ret (a ||| b).

Definition ror32 (word shift : Z) : outcome Z :=
  a ← cshr 32 word shift; b ← cshl 32 word (32 - shift); Ret (a ||| b).

Definition rol64 (word shift : Z) : outcome Z :=
  a ← cshl 64 word shift; b ← cshr 64 word (64 - shift); Ret (a ||| b).

Definition ror64 (word shift : Z) : outcome Z :=
  a ← cshr 64 word shift; b ← cshl 64 word (64 - shift); Ret (a ||| b).

(** ** Bit fields *)

Definition field_ok (w start length : Z) : bool :=
  (0 <=? start) && (0 <? length) && (length <=? w - start).

Definition extract32 (value start length : Z) : outcome Z :=
  if negb (field_ok 32 start length) then Fault AssertFailed else
  Ret ((value >> start) &&& ((2 ^ 32 - 1) >> (32 - length))).

Definition extract64 (value start length : Z) : outcome Z :=
  if negb (field_ok 64 start length) then Fault AssertFailed else
  Ret ((value >> start) &&& ((2 ^ 64 - 1) >> (64 - length))).

Definition sextract32 (value start length : Z) : outcome Z :=
  if negb (field_ok 32 start length) then Fault AssertFailed else
  Ret (s32 (u32 (value << (32 - length - start))) >> (32 - length)).

Definition sextract64 (value start length : Z) : outcome Z :=
  if negb (field_ok 64 start length) then Fault AssertFailed else
  Ret (s64 (u64 (value << (64 - length - start))) >> (64 - length)).

Definition deposit32 (value start length fieldval : Z) : outcome Z :=
  if negb (field_ok 32 start length) then Fault AssertFailed else
  let mask := u32 (((2 ^ 32 - 1) >> (32 - length)) << start) in
  Ret ((value &&& u32 (Z.lnot mask)) ||| (u32 (fieldval << start) &&& mask)).

Definition deposit64 (value start length fieldval : Z) : outcome Z :=
  if negb (field_ok 64 start length) then Fault AssertFailed else
  let mask := u64 (((2 ^ 64 - 1) >> (64 - length)) << start) in
  Ret ((value &&& u64 (Z.lnot mask)) ||| (u64 (fieldval << start) &&& mask)).

(** ** What they compute *)

(** Rotations and the deposit of a field on [w]-bit numbers. *)
Definition rotl (w x s : Z) : Z := wrap w (x << s) ||| (x >> (w - s)).

Definition rotr (w x s : Z) : Z := (x >> s) ||| wrap w (x << (w - s)).

Definition deposit (x start length y : Z) : Z :=
  Z.ldiff x (Z.ones length << start) ||| ((y << start) &&& (Z.ones length << start)).

Lemma rotate_ok x s :
  0 < s < 32 -> rol32 x s = Ret (rotl 32 x s) /\ ror32 x s = Ret (rotr 32 x s).
Proof.
  intros Hs. unfold rol32, ror32, cshl, cshr.
  destruct (Z.leb_spec 0 s); [|lia]. destruct (Z.ltb_spec s 32); [|lia].
  destruct (Z.leb_spec 0 (32 - s)); [|lia]. destruct (Z.ltb_spec (32 - s) 32); [|lia]. done.
Qed.

Lemma rotate64_ok x s :
  0 < s < 64 -> rol64 x s = Ret (rotl 64 x s) /\ ror64 x s = Ret (rotr 64 x s).
Proof.
  intros Hs. unfold rol64, ror64, cshl, cshr.
  destruct (Z.leb_spec 0 s); [|lia]. destruct (Z.ltb_spec s 64); [|lia].
  destruct (Z.leb_spec 0 (64 - s)); [|lia]. destruct (Z.ltb_spec (64 - s) 64); [|lia]. done.
Qed.

(** A rotation by zero shifts by the width. *)
Lemma rotate_zero x :
  rol32 x 0 = Fault Undefined /\ ror32 x 0 = Fault Undefined /\
  rol64 x 0 = Fault Undefined /\ ror64 x 0 = Fault Undefined.
Proof. done. Qed.

Lemma ones_shift w n : 0 <= n <= w -> (2 ^ w - 1) >> (w - n) = Z.ones n.
Proof.
  intros. replace (2 ^ w - 1) with (Z.ones w) by (rewrite Z.ones_equiv; lia).
  bits_ext i Hi. repeat zcase; lia || done.
Qed.

Lemma testbit_deposit_field x start length y i :
  0 <= start -> 0 <= length -> 0 <= i ->
  Z.testbit (deposit x start length y) i
    = if (start <=? i) && (i <? start + length) then Z.testbit y (i - start)
      else Z.testbit x i.
Proof.
  intros. unfold deposit. autorewrite with bits.
  destruct (Z.leb_spec 0 i); [|lia]. cbn [andb].
  destruct (Z.leb_spec start i), (Z.ltb_spec i (start + length)); cbn [andb];
    rewrite ?testbit_ones by lia.
  - replace ((0 <=? i - start) && (i - start <? length)) with true
      by (symmetry; apply andb_true_iff; split; [apply Z.leb_le|apply Z.ltb_lt]; lia).
    by rewrite andb_false_r, andb_true_r.
  - replace (i - start <? length) with false by (symmetry; apply Z.ltb_ge; lia).
    by rewrite !andb_false_r, orb_false_r, andb_true_r.
  - replace (0 <=? i - start) with false by (symmetry; apply Z.leb_gt; lia). cbn [andb].
    by rewrite !andb_false_r, orb_false_r, andb_true_r.
  - replace (0 <=? i - start) with false by (symmetry; apply Z.leb_gt; lia). cbn [andb].
    by rewrite !andb_false_r, orb_false_r, andb_true_r.
Qed.

Lemma deposit_range w x start length y :
  0 <= x < 2 ^ w -> 0 <= start -> 0 <= length -> start + length <= w ->
  0 <= deposit x start length y < 2 ^ w.
Proof.
  intros Hx Hs Hl Hw.
  assert (0 <= deposit x start length y).
  { unfold deposit. apply Z.lor_nonneg. split; [apply Z.ldiff_nonneg; lia|].
    apply Z.land_nonneg. right. apply Z.shiftl_nonneg.
    rewrite Z.ones_equiv. pose proof (Z.pow_pos_nonneg 2 length). lia. }
  split; [done|]. apply bits_range; [lia|done|]. intros i Hi.
  rewrite testbit_deposit_field by lia. destruct (Z.ltb_spec i (start + length)); [lia|].
  rewrite andb_false_r. by apply (testbit_high w).
Qed.

Lemma field_ok_spec w start length :
  field_ok w start length = true <-> 0 <= start /\ 0 < length /\ start + length <= w.
Proof.
  unfold field_ok. rewrite !andb_true_iff, !Z.leb_le, Z.ltb_lt. lia.
Qed.

(** Both accessors of a width, against [deposit]. *)
Lemma deposit_masks w value start length fieldval :
  0 <= value < 2 ^ w -> 0 <= start -> 0 < length -> start + length <= w ->
  let mask := wrap w (((2 ^ w - 1) >> (w - length)) << start) in
  (value &&& wrap w (Z.lnot mask)) ||| (wrap w (fieldval << start) &&& mask)
    = deposit value start length fieldval.
Proof.
  intros Hv Hs Hl Hw. cbv zeta. rewrite ones_shift by lia.
  bits_ext i Hi. rewrite testbit_deposit_field by lia.
  destruct (Z.leb_spec 0 i); [|lia]. cbn [andb].
  destruct (Z.ltb_spec i w); cbn [andb].
  - destruct (Z.leb_spec start i), (Z.ltb_spec i (start + length)),
      (Z.leb_spec 0 (i - start)), (Z.ltb_spec (i - start) length); try lia; cbn [andb negb];
      rewrite ?andb_true_r, ?andb_false_r, ?orb_false_r, ?orb_false_l; done.
  - rewrite (testbit_high w value) by (done || lia).
    destruct (Z.leb_spec start i), (Z.ltb_spec i (start + length)); try lia; done.
Qed.

Lemma deposit32_ok value start length fieldval :
  0 <= value < 2 ^ 32 -> 0 <= start -> 0 < length -> start + length <= 32 ->
  deposit32 value start length fieldval = Ret (deposit value start length fieldval).
Proof.
  intros Hv Hs Hl Hw. unfold deposit32.
  rewrite (proj2 (field_ok_spec 32 start length)) by lia. cbn [negb].
  f_equal. by apply (deposit_masks 32).
Qed.

Lemma deposit64_ok value start length fieldval :
  0 <= value < 2 ^ 64 -> 0 <= start -> 0 < length -> start + length <= 64 ->
  deposit64 value start length fieldval = Ret (deposit value start length fieldval).
Proof.
  intros Hv Hs Hl Hw. unfold deposit64.
  rewrite (proj2 (field_ok_spec 64 start length)) by lia. cbn [negb].
  f_equal. by apply (deposit_masks 64).
Qed.

(** What was deposited is extracted, and the other bits are kept. *)
Lemma extract_deposit value start length fieldval :
  0 <= value < 2 ^ 64 -> 0 <= start -> 0 < length -> start + length <= 64 ->
  (r ← deposit64 value start length fieldval; extract64 r start length)
    = Ret (wrap length fieldval).
Proof.
  intros Hv Hs Hl Hw. rewrite deposit64_ok by done. cbn [mbind outcome_bind].
  unfold extract64. rewrite (proj2 (field_ok_spec 64 start length)) by lia. cbn [negb].
  f_equal. rewrite ones_shift by lia. bits_ext i Hi. rewrite testbit_deposit_field by lia.
  destruct (Z.leb_spec 0 i); [|lia]. cbn [andb].
  destruct (Z.leb_spec start (i + start)); [|lia].
  destruct (Z.ltb_spec (i + start) (start + length)), (Z.ltb_spec i length); try lia; cbn [andb].
  rewrite andb_true_r. f_equal. lia.
Qed.

(** An arithmetic right shift down to the top [l] bits sign extends them. *)
Lemma sar_top x l :
  0 <= x < 2 ^ 64 -> 0 < l <= 64 -> s64 x >> (64 - l) = sext l (x >> (64 - l)).
Proof.
  intros Hx Hl. rewrite !Z.shiftr_div_pow2 by lia.
  assert (2 ^ 64 = 2 ^ l * 2 ^ (64 - l)) as Hp by (rewrite <- Z.pow_add_r by lia; f_equal; lia).
  assert (2 ^ 63 = 2 ^ (l - 1) * 2 ^ (64 - l)) as Hq
    by (rewrite <- Z.pow_add_r by lia; f_equal; lia).
  assert (0 < 2 ^ (64 - l)) by (apply Z.pow_pos_nonneg; lia).
  assert (0 <= x / 2 ^ (64 - l) < 2 ^ l) as Hr.
  { split; [apply Z.div_pos; lia|]. apply Z.div_lt_upper_bound; lia. }
  unfold sext. rewrite !wrap_small by done. change (64 - 1) with 63.
  destruct (Z.ltb_spec x (2 ^ 63)), (Z.ltb_spec (x / 2 ^ (64 - l)) (2 ^ (l - 1))).
  - done.
  - assert (2 ^ (l - 1) * 2 ^ (64 - l) <= x / 2 ^ (64 - l) * 2 ^ (64 - l)) by nia.
    pose proof (Z.mul_div_le x (2 ^ (64 - l))). lia.
  - assert (x < 2 ^ (l - 1) * 2 ^ (64 - l)); [|lia].
    pose proof (Z.mul_succ_div_gt x (2 ^ (64 - l)) ltac:(lia)). nia.
  - rewrite Hp. replace (x - 2 ^ l * 2 ^ (64 - l)) with (x + (- 2 ^ l) * 2 ^ (64 - l)) by lia.
    rewrite Z.div_add by lia. lia.
Qed.

(** The signed accessor sign extends what the unsigned one extracts. *)
Lemma sextract_extract value start length r :
  0 <= value < 2 ^ 64 -> extract64 value start length = Ret r ->
  sextract64 value start length = Ret (sext length r).
Proof.
  unfold extract64, sextract64. intros Hv.
  destruct (field_ok 64 start length) eqn:Hf; [|done]. cbn [negb].
  apply field_ok_spec in Hf as (Hs & Hl & Hw). intros [= <-]. f_equal.
  rewrite ones_shift, sar_top by (lia || apply wrap_range; lia). f_equal.
  bits_ext i Hi. destruct (Z.leb_spec 0 i); [|lia]. cbn [andb].
  destruct (Z.ltb_spec (i + (64 - length)) 64), (Z.ltb_spec i length); try lia; cbn [andb].
  destruct (Z.leb_spec 0 (i + (64 - length))); [|lia]. cbn [andb].
  rewrite andb_true_r. f_equal. lia.
Qed.
