(* ===== verification/TcgOp.v ===== *)
(** * The operations of TCG

    The intermediate code between the translators of guest instructions and
    the code generators of the host: opcodes with their table
    (src/tcg/tcg-opc.h), conditions (src/tcg/tcg.h), the results the
    instruction reference (src/tcg/README) defines, and the arithmetic of
    the interpreter for it (src/tci.c), which is shown to compute them.  The
    host is a 64-bit one. *)

From S2P Require Import Prelude HostUtils BitField.

(** ** Opcodes *)

(** The suffixes [_i32] and [_i64]. *)
Inductive width := W32 | W64.

Definition wbits (w : width) : Z := match w with W32 => 32 | W64 => 64 end.

Inductive binop :=
| op_add | op_sub | op_mul | op_and | op_or | op_xor
| op_shl | op_shr | op_sar | op_rotl | op_rotr
| op_andc | op_orc | op_eqv | op_nand | op_nor
| op_muluh | op_mulsh | op_div | op_divu | op_rem | op_remu.

Inductive unop :=
| op_not | op_neg | op_ext8s | op_ext8u | op_ext16s | op_ext16u
| op_ext32s | op_ext32u.

(** A row of the table of opcodes. *)
Record TCGOpDef := mk_def {
  nb_oargs : nat;
  nb_iargs : nat;
  nb_cargs : nat;
  OPF_BB_END : bool;
  OPF_64BIT : bool;
  OPF_CALL_CLOBBER : bool;
  OPF_SIDE_EFFECTS : bool;
}.

(** The rows without the last two flags. *)
Definition row (o i c : nat) (bb_end is64 : bool) : TCGOpDef :=
  mk_def o i c bb_end is64 false false.

(** [INDEX_op_other] stands for the opcodes the optimiser knows only by their
    row: stores, signed and full loads, byte swaps, [div2], [exit_tb] and
    [goto_tb]. *)
Inductive TCGOpcode :=
| INDEX_op_set_label
| INDEX_op_call
| INDEX_op_br
| INDEX_op_mov (w : width)
| INDEX_op_movi (w : width)
| INDEX_op_setcond (w : width)
| INDEX_op_movcond (w : width)
| INDEX_op_ld8u (w : width)
| INDEX_op_ld16u (w : width)
| INDEX_op_ld32u_i64
| INDEX_op_bin (b : binop) (w : width)
| INDEX_op_un (u : unop) (w : width)
| INDEX_op_deposit (w : width)
| INDEX_op_brcond (w : width)
| INDEX_op_add2 (w : width)
| INDEX_op_sub2 (w : width)
| INDEX_op_mulu2 (w : width)
| INDEX_op_muls2 (w : width)
| INDEX_op_brcond2_i32
| INDEX_op_setcond2_i32
| INDEX_op_trunc_shr_i32
| INDEX_op_qemu_ld (w : width)
| INDEX_op_discard
| INDEX_op_debug_insn_start
| INDEX_op_other (name : Z) (def : TCGOpDef).

#[export] Instance width_eq_dec : EqDecision width.
Proof. solve_decision. Defined.

#[export] Instance binop_eq_dec : EqDecision binop.
Proof. solve_decision. Defined.

#[export] Instance unop_eq_dec : EqDecision unop.
Proof. solve_decision. Defined.

#[export] Instance opdef_eq_dec : EqDecision TCGOpDef.
Proof. solve_decision. Defined.

#[export] Instance opcode_eq_dec : EqDecision TCGOpcode.
Proof. solve_decision. Defined.

Definition is64 (w : width) : bool := match w with W32 => false | W64 => true end.

(** The rows of [muluh_i64] and [mulsh_i64] lack the flag of 64-bit
    operations. *)
Definition tcg_op_defs (op : TCGOpcode) : TCGOpDef :=
  match op with
  | INDEX_op_set_label => row 0 0 1 true false
  | INDEX_op_call => mk_def 0 0 3 false false true false
  | INDEX_op_br => row 0 0 1 true false
  | INDEX_op_mov w => row 1 1 0 false (is64 w)
  | INDEX_op_movi w => row 1 0 1 false (is64 w)
  | INDEX_op_setcond w => row 1 2 1 false (is64 w)
  | INDEX_op_movcond w => row 1 4 1 false (is64 w)
  | INDEX_op_ld8u w => row 1 1 1 false (is64 w)
  | INDEX_op_ld16u w => row 1 1 1 false (is64 w)
  | INDEX_op_ld32u_i64 => row 1 1 1 false true
  | INDEX_op_bin op_muluh _ => row 1 2 0 false false
  | INDEX_op_bin op_mulsh _ => row 1 2 0 false false
  | INDEX_op_bin _ w => row 1 2 0 false (is64 w)
  | INDEX_op_un _ w => row 1 1 0 false (is64 w)
  | INDEX_op_deposit w => row 1 2 2 false (is64 w)
  | INDEX_op_brcond w => row 0 2 2 true (is64 w)
  | INDEX_op_add2 w => row 2 4 0 false (is64 w)
  | INDEX_op_sub2 w => row 2 4 0 false (is64 w)
  | INDEX_op_mulu2 w => row 2 2 0 false (is64 w)
  | INDEX_op_muls2 w => row 2 2 0 false (is64 w)
  | INDEX_op_brcond2_i32 => row 0 4 2 true false
  | INDEX_op_setcond2_i32 => row 1 4 1 false false
  | INDEX_op_trunc_shr_i32 => row 1 1 1 false false
  | INDEX_op_qemu_ld w => mk_def 1 1 2 false (is64 w) true true
  | INDEX_op_discard => row 1 0 0 false false
  | INDEX_op_debug_insn_start => row 0 0 1 false false
  | INDEX_op_other _ def => def
  end.

(** An operation: its arguments are outputs, inputs, then constants;
    [callo] and [calli] count those of a call. *)
Record TCGOp := mk_op {
  opc : TCGOpcode;
  args : list Z;
  callo : nat;
  calli : nat;
}.

Definition arg (op : TCGOp) (i : nat) : Z := nth i (args op) 0.

(** ** Conditions *)

Definition TCG_COND_EQ : Z := 8.
Definition TCG_COND_NE : Z := 9.
Definition TCG_COND_LT : Z := 2.
Definition TCG_COND_GE : Z := 3.
Definition TCG_COND_LE : Z := 10.
Definition TCG_COND_GT : Z := 11.
Definition TCG_COND_LTU : Z := 4.
Definition TCG_COND_GEU : Z := 5.
Definition TCG_COND_LEU : Z := 12.
Definition TCG_COND_GTU : Z := 13.

Definition tcg_invert_cond (c : Z) : Z := c ^^^ 1.

Definition tcg_swap_cond (c : Z) : Z := if has_bits c 6 then c ^^^ 9 else c.

(** The conditions the instruction reference lists. *)
Definition valid_cond (c : Z) : bool :=
  existsb (Z.eqb c)
    [TCG_COND_EQ; TCG_COND_NE; TCG_COND_LT; TCG_COND_GE; TCG_COND_LE; TCG_COND_GT;
     TCG_COND_LTU; TCG_COND_GEU; TCG_COND_LEU; TCG_COND_GTU].

(** ** Results of operations *)

(** The low bits of a register, and their value as a signed number. *)
Definition low (w : width) (x : Z) : Z := wrap (wbits w) x.

Definition slow (w : width) (x : Z) : Z := sext (wbits w) x.

(** The result of a binary operation on [w]-bit values where the reference
    defines it. *)
Definition sem_bin (b : binop) (w : width) (x y : Z) : Z :=
  let n := wbits w in
  match b with
  | op_add => low w (x + y)
  | op_sub => low w (x - y)
  | op_mul => low w (x * y)
  | op_and => x &&& y
  | op_or => x ||| y
  | op_xor => x ^^^ y
  | op_shl => low w (x << y)
  | op_shr => x >> y
  | op_sar => low w (slow w x >> y)
  | op_rotl => rotl n x y
  | op_rotr => rotr n x y
  | op_andc => Z.ldiff x y
  | op_orc => low w (x ||| Z.lnot y)
  | op_eqv => low w (Z.lnot (x ^^^ y))
  | op_nand => low w (Z.lnot (x &&& y))
  | op_nor => low w (Z.lnot (x ||| y))
  | op_muluh => (x * y) >> n
  | op_mulsh => low w ((slow w x * slow w y) >> n)
  | op_div => low w (Z.quot (slow w x) (slow w y))
  | op_divu => x / y
  | op_rem => low w (Z.rem (slow w x) (slow w y))
  | op_remu => x mod y
  end.

(** Shifts and rotations by the width or more are unspecified, divisions by
    zero and those that overflow undefined. *)
Definition bin_defined (b : binop) (w : width) (x y : Z) : bool :=
  match b with
  | op_shl | op_shr | op_sar | op_rotl | op_rotr => y <? wbits w
  | op_div | op_rem =>
    negb (y =? 0) && negb ((x =? 2 ^ (wbits w - 1)) && (y =? 2 ^ wbits w - 1))
  | op_divu | op_remu => negb (y =? 0)
  | _ => true
  end.

Definition sem_un (u : unop) (w : width) (x : Z) : Z :=
  match u with
  | op_not => low w (Z.lnot x)
  | op_neg => low w (- x)
  | op_ext8s => low w (sext 8 x)
  | op_ext8u => u8 x
  | op_ext16s => low w (sext 16 x)
  | op_ext16u => u16 x
  | op_ext32s => low w (sext 32 x)
  | op_ext32u => u32 x
  end.

Definition sem_cond (w : width) (c x y : Z) : bool :=
  if c =? TCG_COND_EQ then low w x =? low w y
  else if c =? TCG_COND_NE then negb (low w x =? low w y)
  else if c =? TCG_COND_LT then slow w x <? slow w y
  else if c =? TCG_COND_GE then slow w y <=? slow w x
  else if c =? TCG_COND_LE then slow w x <=? slow w y
  else if c =? TCG_COND_GT then slow w y <? slow w x
  else if c =? TCG_COND_LTU then low w x <? low w y
  else if c =? TCG_COND_GEU then low w y <=? low w x
  else if c =? TCG_COND_LEU then low w x <=? low w y
  else low w y <? low w x.

(** The width an input is read at: the extensions of 32 bits convert 32-bit
    variables. *)
Definition in_width (u : unop) (w : width) : width :=
  match u with op_ext32s | op_ext32u => W32 | _ => w end.

(** The double word of two words. *)
Definition pair_of (w : width) (l h : Z) : Z := low w l + 2 ^ wbits w * low w h.

(** ** The interpreter *)

(** [tci_compare32] and [tci_compare64]; [TODO()] aborts. *)
Definition tci_compare (n u0 u1 condition : Z) : outcome bool :=
  let i0 := sext n u0 in
  let i1 := sext n u1 in
  if condition =? TCG_COND_EQ then Ret (u0 =? u1)
  else if condition =? TCG_COND_NE then Ret (negb (u0 =? u1))
  else if condition =? TCG_COND_LT then Ret (i0 <? i1)
  else if condition =? TCG_COND_GE then Ret (i1 <=? i0)
  else if condition =? TCG_COND_LE then Ret (i0 <=? i1)
  else if condition =? TCG_COND_GT then Ret (i1 <? i0)
  else if condition =? TCG_COND_LTU then Ret (u0 <? u1)
  else if condition =? TCG_COND_GEU then Ret (u1 <=? u0)
  else if condition =? TCG_COND_LEU then Ret (u0 <=? u1)
  else if condition =? TCG_COND_GTU then Ret (u1 <? u0)
  else Fault AssertFailed.

Definition tci_compare32 (u0 u1 condition : Z) : outcome bool := tci_compare 32 u0 u1 condition.

Definition tci_compare64 (u0 u1 condition : Z) : outcome bool := tci_compare 64 u0 u1 condition.

(** A C division: by zero, or of the least value by -1, it is undefined. *)
Definition cdiv (n x y : Z) : outcome Z :=
  if (y =? 0) || ((x =? - 2 ^ (n - 1)) && (y =? -1)) then Fault Undefined
  else Ret (Z.quot x y).

Definition crem (n x y : Z) : outcome Z :=
  if (y =? 0) || ((x =? - 2 ^ (n - 1)) && (y =? -1)) then Fault Undefined
  else Ret (Z.rem x y).

Definition cdivu (x y : Z) : outcome Z :=
  if y =? 0 then Fault Undefined else Ret (x / y).

Definition cremu (x y : Z) : outcome Z :=
  if y =? 0 then Fault Undefined else Ret (x mod y).

(** The arms of the interpreter for binary operations on the registers [r1]
    and [r2]: the value written to the output register, or [None] where the
    interpreter has no arm. *)
Definition tci_bin32 (b : binop) (r1 r2 : Z) : option (outcome Z) :=
  let t1 := u32 r1 in
  let t2 := u32 r2 in
  match b with
  | op_add => Some (Ret (u32 (u64 (t1 + t2))))
  | op_sub => Some (Ret (u32 (u64 (t1 - t2))))
  | op_mul => Some (Ret (u32 (u64 (t1 * t2))))
  | op_div => Some (q ← cdiv 32 (s32 t1) (s32 t2); Ret (u32 q))
  | op_divu => Some (q ← cdivu t1 t2; Ret (u32 q))
  | op_rem => Some (q ← crem 32 (s32 t1) (s32 t2); Ret (u32 q))
  | op_remu => Some (q ← cremu t1 t2; Ret (u32 q))
  | op_and => Some (Ret (u32 (t1 &&& t2)))
  | op_or => Some (Ret (u32 (t1 ||| t2)))
  | op_xor => Some (Ret (u32 (t1 ^^^ t2)))
  | op_shl => Some (Ret (u32 (u64 (t1 << (t2 &&& 31)))))
  | op_shr => Some (Ret (u32 (t1 >> (t2 &&& 31))))
  | op_sar => Some (Ret (u32 (s32 t1 >> (t2 &&& 31))))
  | op_rotl => Some (q ← rol32 t1 (t2 &&& 31); Ret (u32 q))
  | op_rotr => Some (q ← ror32 t1 (t2 &&& 31); Ret (u32 q))
  | _ => None
  end.

Definition tci_bin64 (b : binop) (t1 t2 : Z) : option (outcome Z) :=
  match b with
  | op_add => Some (Ret (u64 (t1 + t2)))
  | op_sub => Some (Ret (u64 (t1 - t2)))
  | op_mul => Some (Ret (u64 (t1 * t2)))
  | op_and => Some (Ret (t1 &&& t2))
  | op_or => Some (Ret (t1 ||| t2))
  | op_xor => Some (Ret (t1 ^^^ t2))
  | op_shl => Some (Ret (u64 (t1 << (t2 &&& 63))))
  | op_shr => Some (Ret (t1 >> (t2 &&& 63)))
  | op_sar => Some (Ret (u64 (s64 t1 >> (t2 &&& 63))))
  | op_rotl => Some (rol64 t1 (t2 &&& 63))
  | op_rotr => Some (ror64 t1 (t2 &&& 63))
  | _ => None
  end.

Definition tci_un32 (u : unop) (r1 : Z) : option Z :=
  match u with
  | op_ext8s => Some (u32 (sext 8 r1))
  | op_ext16s => Some (u32 (sext 16 r1))
  | op_ext8u => Some (u8 r1)
  | op_ext16u => Some (u16 r1)
  | op_not => Some (u32 (u64 (Z.lnot (u32 r1))))
  | op_neg => Some (u32 (u64 (- u32 r1)))
  | _ => None
  end.

Definition tci_un64 (u : unop) (r1 : Z) : option Z :=
  match u with
  | op_ext8u => Some (u8 r1)
  | op_ext8s => Some (u64 (sext 8 r1))
  | op_ext16s => Some (u64 (sext 16 r1))
  | op_ext16u => Some (u16 r1)
  | op_ext32s => Some (u64 (sext 32 r1))
  | op_ext32u => Some (u32 r1)
  | op_not => Some (u64 (Z.lnot r1))
  | op_neg => Some (u64 (- r1))
  end.

(** ** Widths *)

Lemma wbits_cases w : wbits w = 32 \/ wbits w = 64.
Proof. destruct w; auto. Qed.

Lemma low_range w x : 0 <= low w x < 2 ^ wbits w.
Proof. apply wrap_range. by destruct w. Qed.

Lemma low_small w x : 0 <= x < 2 ^ wbits w -> low w x = x.
Proof. apply wrap_small. Qed.

Lemma low_low w x : low w (low w x) = low w x.
Proof. apply wrap_wrap. Qed.

Lemma wrap_wrap_le v w x : 0 <= v <= w -> wrap v (wrap w x) = wrap v x.
Proof.
  intros. bits_ext i Hi. destruct (Z.ltb_spec i v), (Z.ltb_spec i w); lia || done.
Qed.

Lemma low_u64 w x : low w (u64 x) = low w x.
Proof. apply wrap_wrap_le. by destruct w. Qed.

Lemma sext_wrap_le v w x : 1 <= v <= w -> sext v (wrap w x) = sext v x.
Proof. intros. unfold sext. by rewrite wrap_wrap_le by lia. Qed.

Lemma slow_low w x : slow w (low w x) = slow w x.
Proof. apply sext_wrap_le. by destruct w. Qed.

Lemma slow_range w x : - 2 ^ (wbits w - 1) <= slow w x < 2 ^ (wbits w - 1).
Proof. apply sext_range. by destruct w. Qed.

Lemma testbit_low w x i : Z.testbit (low w x) i = (i <? wbits w) && Z.testbit x i.
Proof. apply testbit_wrap. by destruct w. Qed.

#[export] Hint Rewrite testbit_low : bits.

(** Congruence of the operations that commute with truncation. *)
Lemma low_add w x y : low w (low w x + low w y) = low w (x + y).
Proof. unfold low. by rewrite wrap_add_l, wrap_add_r. Qed.

Lemma low_sub w x y : low w (low w x - low w y) = low w (x - y).
Proof. unfold low. by rewrite wrap_sub_l, wrap_sub_r. Qed.

Lemma low_mul w x y : low w (low w x * low w y) = low w (x * y).
Proof. unfold low, wrap. by rewrite <- Zmult_mod. Qed.

Lemma low_neg w x : low w (- low w x) = low w (- x).
Proof. rewrite <- !Z.sub_0_l. unfold low. apply wrap_sub_r. Qed.

Lemma low_land w x y : low w (x &&& y) = low w x &&& low w y.
Proof. bits_ext i Hi. by destruct (i <? wbits w), (Z.testbit x i), (Z.testbit y i). Qed.

Lemma low_lor w x y : low w (x ||| y) = low w x ||| low w y.
Proof. bits_ext i Hi. by destruct (i <? wbits w), (Z.testbit x i), (Z.testbit y i). Qed.

Lemma low_lxor w x y : low w (x ^^^ y) = low w x ^^^ low w y.
Proof. bits_ext i Hi. by destruct (i <? wbits w), (Z.testbit x i), (Z.testbit y i). Qed.

Lemma low_lnot w x : low w (Z.lnot (low w x)) = low w (Z.lnot x).
Proof.
  bits_ext i Hi. destruct (Z.ltb_spec i (wbits w)); cbn [andb]; [|done].
  by destruct (Z.testbit x i).
Qed.

Lemma low_shiftl w x k : 0 <= k -> low w (low w x << k) = low w (x << k).
Proof.
  intros. bits_ext i Hi. destruct (Z.ltb_spec i (wbits w)); cbn [andb]; [|done].
  destruct (Z.ltb_spec (i - k) (wbits w)); [done|lia].
Qed.

Lemma sext_sext v w x : 1 <= v <= w -> sext v (sext w x) = sext v x.
Proof.
  intros. rewrite <- (sext_wrap_le v w (sext w x)), wrap_sext, sext_wrap_le by lia. done.
Qed.
