(* ===== verification/TcgOpt.v ===== *)
(** * The optimiser of TCG

    src/tcg/optimize.c: copy and constant propagation over the operations of
    a translation block, with the bits of each variable that may be set.
    The operations of the block are a list, the links of the operation buffer
    are not modelled; an operation's [args] are exactly those its opcode
    takes. *)

From S2P Require Import Prelude HostUtils BitField TcgOp.

(** ** State *)

Inductive tcg_temp_state := TCG_TEMP_UNDEF | TCG_TEMP_CONST | TCG_TEMP_COPY.

#[export] Instance temp_state_eq_dec : EqDecision tcg_temp_state.
Proof. solve_decision. Defined.

Record tcg_temp_info := mk_info {
  state : tcg_temp_state;
  prev_copy : Z;
  next_copy : Z;
  val : Z;
  mask : Z;
}.

Definition set_state x i := mk_info x (prev_copy i) (next_copy i) (val i) (mask i).
Definition set_prev_copy x i := mk_info (state i) x (next_copy i) (val i) (mask i).
Definition set_next_copy x i := mk_info (state i) (prev_copy i) x (val i) (mask i).
Definition set_val x i := mk_info (state i) (prev_copy i) (next_copy i) x (mask i).
Definition set_mask x i := mk_info (state i) (prev_copy i) (next_copy i) (val i) x.

(** The array [temps]. *)
Definition temps_t : Type := Z -> tcg_temp_info.

Definition upd (temps : temps_t) (t : Z) (f : tcg_temp_info -> tcg_temp_info) : temps_t :=
  fun i => if i =? t then f (temps i) else temps i.

(** What the optimiser reads of the context: the variables of the block,
    globals first. *)
Record TCGContext := mk_ctx {
  nb_globals : Z;
  nb_temps : Z;
  temp_type : Z -> width;
  temp_local : Z -> bool;
}.

(** All bits of a [tcg_target_ulong]. *)
Definition all_ones : Z := 2 ^ 64 - 1.

Definition high_ones : Z := all_ones - (2 ^ 32 - 1).

Definition is_const (temps : temps_t) (t : Z) : bool :=
  bool_decide (state (temps t) = TCG_TEMP_CONST).

Definition is_copy (temps : temps_t) (t : Z) : bool :=
  bool_decide (state (temps t) = TCG_TEMP_COPY).

(** [temps[t].state == TCG_TEMP_CONST && temps[t].val == v] *)
Definition const_is (temps : temps_t) (t v : Z) : bool :=
  is_const temps t && (val (temps t) =? v).

Definition reset_temp (temps : temps_t) (temp : Z) : temps_t :=
  let temps :=
    if is_copy temps temp then
      if prev_copy (temps temp) =? next_copy (temps temp) then
        upd temps (next_copy (temps temp)) (set_state TCG_TEMP_UNDEF)
      else
        let temps := upd temps (next_copy (temps temp)) (set_prev_copy (prev_copy (temps temp))) in
        upd temps (prev_copy (temps temp)) (set_next_copy (next_copy (temps temp)))
    else temps in
  upd (upd temps temp (set_state TCG_TEMP_UNDEF)) temp (set_mask all_ones).

Definition op_bits (op : TCGOpcode) : Z := if OPF_64BIT (tcg_op_defs op) then 64 else 32.

(** The other values of [op_bits] that abort do not occur. *)
Definition op_to_mov (op : TCGOpcode) : TCGOpcode :=
  if op_bits op =? 32 then INDEX_op_mov W32 else INDEX_op_mov W64.

Definition op_to_movi (op : TCGOpcode) : TCGOpcode :=
  if op_bits op =? 32 then INDEX_op_movi W32 else INDEX_op_movi W64.

(** ** Constant folding *)

(** The operands are [TCGArg]s, 64-bit unsigned; the results are converted
    to that type. *)
Definition do_constant_folding_2 (op : TCGOpcode) (x y : Z) : outcome Z :=
  match op with
  | INDEX_op_bin op_add _ => Ret (u64 (x + y))
  | INDEX_op_bin op_sub _ => Ret (u64 (x - y))
  | INDEX_op_bin op_mul _ => Ret (u64 (x * y))
  | INDEX_op_bin op_and _ => Ret (x &&& y)
  | INDEX_op_bin op_or _ => Ret (x ||| y)
  | INDEX_op_bin op_xor _ => Ret (x ^^^ y)
  | INDEX_op_bin op_shl W32 => Ret (u32 (u32 x << (y &&& 31)))
  | INDEX_op_bin op_shl W64 => Ret (u64 (x << (y &&& 63)))
  | INDEX_op_bin op_shr W32 => Ret (u32 x >> (y &&& 31))
  | INDEX_op_trunc_shr_i32
  | INDEX_op_bin op_shr W64 => Ret (x >> (y &&& 63))
  | INDEX_op_bin op_sar W32 => Ret (u64 (s32 x >> (y &&& 31)))
  | INDEX_op_bin op_sar W64 => Ret (u64 (s64 x >> (y &&& 63)))
  | INDEX_op_bin op_rotr W32 => ror32 (u32 x) (y &&& 31)
  | INDEX_op_bin op_rotr W64 => ror64 x (y &&& 63)
  | INDEX_op_bin op_rotl W32 => rol32 (u32 x) (y &&& 31)
  | INDEX_op_bin op_rotl W64 => rol64 x (y &&& 63)
  | INDEX_op_un op_not _ => Ret (u64 (Z.lnot x))
  | INDEX_op_un op_neg _ => Ret (u64 (- x))
  | INDEX_op_bin op_andc _ => Ret (x &&& u64 (Z.lnot y))
  | INDEX_op_bin op_orc _ => Ret (x ||| u64 (Z.lnot y))
  | INDEX_op_bin op_eqv _ => Ret (u64 (Z.lnot (x ^^^ y)))
  | INDEX_op_bin op_nand _ => Ret (u64 (Z.lnot (x &&& y)))
  | INDEX_op_bin op_nor _ => Ret (u64 (Z.lnot (x ||| y)))
  | INDEX_op_un op_ext8s _ => Ret (u64 (sext 8 x))
  | INDEX_op_un op_ext16s _ => Ret (u64 (sext 16 x))
  | INDEX_op_un op_ext8u _ => Ret (u8 x)
  | INDEX_op_un op_ext16u _ => Ret (u16 x)
  | INDEX_op_un op_ext32s _ => Ret (u64 (s32 x))
  | INDEX_op_un op_ext32u _ => Ret (u32 x)
  | INDEX_op_bin op_muluh W32 => Ret ((u32 x * u32 y) >> 32)
  | INDEX_op_bin op_mulsh W32 => Ret (u64 ((s32 x * s32 y) >> 32))
  | INDEX_op_bin op_muluh W64 => Ret (snd (mulu64 x y))
  | INDEX_op_bin op_mulsh W64 => Ret (snd (muls64 (s64 x) (s64 y)))
  | INDEX_op_bin op_div W32 =>
    q ← cdiv 32 (s32 x) (if s32 y =? 0 then 1 else s32 y); Ret (u64 q)
  | INDEX_op_bin op_divu W32 => cdivu (u32 x) (if u32 y =? 0 then 1 else u32 y)
  | INDEX_op_bin op_div W64 =>
    q ← cdiv 64 (s64 x) (if s64 y =? 0 then 1 else s64 y); Ret (u64 q)
  | INDEX_op_bin op_divu W64 => cdivu x (if y =? 0 then 1 else y)
  | INDEX_op_bin op_rem W32 =>
    q ← crem 32 (s32 x) (if s32 y =? 0 then 1 else s32 y); Ret (u64 q)
  | INDEX_op_bin op_remu W32 => cremu (u32 x) (if u32 y =? 0 then 1 else u32 y)
  | INDEX_op_bin op_rem W64 =>
    q ← crem 64 (s64 x) (if s64 y =? 0 then 1 else s64 y); Ret (u64 q)
  | INDEX_op_bin op_remu W64 => cremu x (if y =? 0 then 1 else y)
  | _ => Fault AssertFailed
  end.

Definition do_constant_folding (op : TCGOpcode) (x y : Z) : outcome Z :=
  res ← do_constant_folding_2 op x y;
  Ret (if op_bits op =? 32 then res &&& 0xffffffff else res).

(** [do_constant_folding_cond_32] and its 64-bit variant. *)
Definition folding_cond (n x y c : Z) : outcome bool :=
  if c =? TCG_COND_EQ then Ret (x =? y)
  else if c =? TCG_COND_NE then Ret (negb (x =? y))
  else if c =? TCG_COND_LT then Ret (sext n x <? sext n y)
  else if c =? TCG_COND_GE then Ret (sext n y <=? sext n x)
  else if c =? TCG_COND_LE then Ret (sext n x <=? sext n y)
  else if c =? TCG_COND_GT then Ret (sext n y <? sext n x)
  else if c =? TCG_COND_LTU then Ret (x <? y)
  else if c =? TCG_COND_GEU then Ret (y <=? x)
  else if c =? TCG_COND_LEU then Ret (x <=? y)
  else if c =? TCG_COND_GTU then Ret (y <? x)
  else Fault AssertFailed.

Definition do_constant_folding_cond_32 (x y c : Z) : outcome bool := folding_cond 32 x y c.

Definition do_constant_folding_cond_64 (x y c : Z) : outcome bool := folding_cond 64 x y c.

Definition do_constant_folding_cond_eq (c : Z) : outcome bool :=
  if existsb (Z.eqb c) [TCG_COND_GT; TCG_COND_LTU; TCG_COND_LT; TCG_COND_GTU; TCG_COND_NE]
  then Ret false
  else if existsb (Z.eqb c) [TCG_COND_GE; TCG_COND_GEU; TCG_COND_LE; TCG_COND_LEU; TCG_COND_EQ]
  then Ret true
  else Fault AssertFailed.

(** [*p1] and [*p2] afterwards, and whether they were swapped. *)
Definition swap_commutative (temps : temps_t) (dest a1 a2 : Z) : bool * Z * Z :=
  let sum := b2z (is_const temps a1) - b2z (is_const temps a2) in
  if (0 <? sum) || ((sum =? 0) && (dest =? a2)) then (true, a2, a1) else (false, a1, a2).

Definition swap_commutative2 (temps : temps_t) (p1 p2 : Z * Z) : bool * (Z * Z) * (Z * Z) :=
  let sum := b2z (is_const temps p1.1) + b2z (is_const temps p1.2)
             - b2z (is_const temps p2.1) - b2z (is_const temps p2.2) in
  if 0 <? sum then (true, p2, p1) else (false, p1, p2).

(** ** Copies *)

Section Optimizer.
Context (s : TCGContext).
Context (TCG_TARGET_HAS_neg TCG_TARGET_HAS_not : width -> bool).

Definition in_temps (t : Z) : bool := (0 <=? t) && (t <? nb_temps s).

Definition reset_all_temps (temps : temps_t) : temps_t :=
  fun i => if in_temps i then set_mask all_ones (set_state TCG_TEMP_UNDEF (temps i)) else temps i.

(** The walk [for (i = temps[temp].next_copy; i != temp; i = temps[i].next_copy)]
    up to the first copy with [p]. *)
Fixpoint ring_find (fuel : nat) (temps : temps_t) (temp : Z) (p : Z -> bool) (i : Z)
  : outcome (option Z) :=
  match fuel with
  | O => NoFuel
  | S fuel =>
    if i =? temp then Ret None
    else if p i then Ret (Some i)
    else ring_find fuel temps temp p (next_copy (temps i))
  end.

(** No ring is longer than the number of variables. *)
Definition ring_fuel : nat := S (Z.to_nat (nb_temps s)).

Definition find_better_copy (temps : temps_t) (temp : Z) : outcome Z :=
  if temp <? nb_globals s then Ret temp else
  g ← ring_find ring_fuel temps temp (fun i => i <? nb_globals s) (next_copy (temps temp));
  match g with
  | Some i => Ret i
  | None =>
    if temp_local s temp then Ret temp else
    l ← ring_find ring_fuel temps temp (temp_local s) (next_copy (temps temp));
    Ret (default temp l)
  end.

Definition temps_are_copies (temps : temps_t) (arg1 arg2 : Z) : outcome bool :=
  if arg1 =? arg2 then Ret true
  else if negb (is_copy temps arg1) || negb (is_copy temps arg2) then Ret false
  else
    r ← ring_find ring_fuel temps arg1 (fun i => i =? arg2) (next_copy (temps arg1));
    Ret (bool_decide (is_Some r)).

(** ** Emitting moves *)

Definition tcg_opt_gen_mov (temps : temps_t) (old_op : TCGOpcode) (dst src : Z)
  : outcome (temps_t * TCGOp) :=
  let new_op := op_to_mov old_op in
  let temps := reset_temp temps dst in
  let mask := mask (temps src) in
  let mask := if bool_decide (new_op = INDEX_op_mov W32) then mask ||| high_ones else mask in
  let temps := upd temps dst (set_mask mask) in
  if is_const temps src then Fault AssertFailed else
  let temps :=
    if bool_decide (temp_type s src = temp_type s dst) then
      let temps :=
        if negb (is_copy temps src) then
          upd (upd (upd temps src (set_state TCG_TEMP_COPY)) src (set_next_copy src))
            src (set_prev_copy src)
        else temps in
      let temps := upd temps dst (set_state TCG_TEMP_COPY) in
      let temps := upd temps dst (set_next_copy (next_copy (temps src))) in
      let temps := upd temps dst (set_prev_copy src) in
      let temps := upd temps (next_copy (temps dst)) (set_prev_copy dst) in
      upd temps src (set_next_copy dst)
    else temps in
  Ret (temps, mk_op new_op [dst; src] 0 0).

(** The comparison of [new_op] is with the opcode of a move of a variable. *)
Definition tcg_opt_gen_movi (temps : temps_t) (old_op : TCGOpcode) (dst v : Z)
  : temps_t * TCGOp :=
  let new_op := op_to_movi old_op in
  let temps := reset_temp temps dst in
  let temps := upd temps dst (set_state TCG_TEMP_CONST) in
  let temps := upd temps dst (set_val v) in
  let mask := if bool_decide (new_op = INDEX_op_mov W32) then v ||| high_ones else v in
  let temps := upd temps dst (set_mask mask) in
  (temps, mk_op new_op [dst; v] 0 0).

(** ** Conditions *)

Definition do_constant_folding_cond (temps : temps_t) (op : TCGOpcode) (x y c : Z) : outcome Z :=
  if is_const temps x && is_const temps y then
    if op_bits op =? 32
    then b2z <$> do_constant_folding_cond_32 (u32 (val (temps x))) (u32 (val (temps y))) c
    else b2z <$> do_constant_folding_cond_64 (val (temps x)) (val (temps y)) c
  else
    same ← temps_are_copies temps x y;
    if (same : bool) then b2z <$> do_constant_folding_cond_eq c
    else if const_is temps y 0 then
      Ret (if c =? TCG_COND_LTU then 0 else if c =? TCG_COND_GEU then 1 else 2)
    else Ret 2.

Definition do_constant_folding_cond2 (temps : temps_t) (p1 p2 : Z * Z) (c : Z) : outcome Z :=
  let '(al, ah) := p1 in
  let '(bl, bh) := p2 in
  let copies :=
    l ← temps_are_copies temps al bl;
    if negb l then Ret 2 else
    h ← temps_are_copies temps ah bh;
    if negb h then Ret 2 else b2z <$> do_constant_folding_cond_eq c in
  if is_const temps bl && is_const temps bh then
    let b := u64 (val (temps bh) << 32) ||| u32 (val (temps bl)) in
    if is_const temps al && is_const temps ah then
      let a := u64 (val (temps ah) << 32) ||| u32 (val (temps al)) in
      b2z <$> do_constant_folding_cond_64 a b c
    else if b =? 0 then
      if c =? TCG_COND_LTU then Ret 0
      else if c =? TCG_COND_GEU then Ret 1
      else copies
    else copies
  else copies.

(** ** One operation *)

(** What handling an operation leads to: the state, the operations that take
    its place before the point where the loop goes on, and the operation the
    loop goes on with when that is not the next one. *)
Record handled := mk_handled {
  h_temps : temps_t;
  h_ops : list TCGOp;
  h_again : option TCGOp;
}.

Definition keep (r : temps_t * TCGOp) : handled := mk_handled r.1 [r.2] None.

(** [tcg_op_remove] *)
Definition tcg_op_remove (temps : temps_t) : handled := mk_handled temps [] None.

Definition gen_movi (temps : temps_t) (old_op : TCGOpcode) (dst v : Z) : handled :=
  keep (tcg_opt_gen_movi temps old_op dst v).

Definition gen_mov (temps : temps_t) (old_op : TCGOpcode) (dst src : Z) : outcome handled :=
  keep <$> tcg_opt_gen_mov temps old_op dst src.

(** The statement that makes [dst] a move of [src] or drops the operation. *)
Definition mov_or_remove (temps : temps_t) (old_op : TCGOpcode) (dst src : Z) : outcome handled :=
  same ← temps_are_copies temps dst src;
  if (same : bool) then Ret (tcg_op_remove temps)
  else if negb (is_const temps src) then gen_mov temps old_op dst src
  else Ret (gen_movi temps old_op dst (val (temps src))).

Definition op_oargs (op : TCGOp) : nat :=
  if bool_decide (opc op = INDEX_op_call) then callo op else nb_oargs (tcg_op_defs (opc op)).

Definition op_iargs (op : TCGOp) : nat :=
  if bool_decide (opc op = INDEX_op_call) then calli op else nb_iargs (tcg_op_defs (opc op)).

Definition with_args (op : TCGOp) (l : list Z) : TCGOp := mk_op (opc op) l (callo op) (calli op).

(** Copy propagation into the [n] inputs that follow the first [i] arguments. *)
Fixpoint propagate (temps : temps_t) (i n : nat) (l : list Z) : outcome (list Z) :=
  match i, n, l with
  | S i, _, a :: l => l ← propagate temps i n l; Ret (a :: l)
  | O, S n, a :: l =>
    a ← (if is_copy temps a then find_better_copy temps a else Ret a);
    l ← propagate temps 0 n l;
    Ret (a :: l)
  | _, _, l => Ret l
  end.

Definition commutes (b : binop) : bool :=
  match b with
  | op_add | op_mul | op_and | op_or | op_xor | op_eqv | op_nand | op_nor | op_muluh | op_mulsh =>
    true
  | _ => false
  end.

(** For commutative operations make constant second argument. *)
Definition canonicalize (temps : temps_t) (op : TCGOp) : TCGOp :=
  match opc op, args op with
  | INDEX_op_bin b _, [d; x; y] =>
    if commutes b then let '(_, x, y) := swap_commutative temps d x y in with_args op [d; x; y]
    else op
  | INDEX_op_brcond _, [x; y; c; l] =>
    let '(sw, x, y) := swap_commutative temps all_ones x y in
    with_args op [x; y; (if (sw : bool) then tcg_swap_cond c else c); l]
  | INDEX_op_setcond _, [d; x; y; c] =>
    let '(sw, x, y) := swap_commutative temps d x y in
    with_args op [d; x; y; if (sw : bool) then tcg_swap_cond c else c]
  | INDEX_op_movcond _, [d; x; y; v1; v2; c] =>
    let '(sw, x, y) := swap_commutative temps all_ones x y in
    let c := if (sw : bool) then tcg_swap_cond c else c in
    let '(sw, v2, v1) := swap_commutative temps d v2 v1 in
    let c := if (sw : bool) then tcg_invert_cond c else c in
    with_args op [d; x; y; v1; v2; c]
  | INDEX_op_add2 _, [dl; dh; al; ah; bl; bh] =>
    let '(_, al, bl) := swap_commutative temps dl al bl in
    let '(_, ah, bh) := swap_commutative temps dh ah bh in
    with_args op [dl; dh; al; ah; bl; bh]
  | INDEX_op_mulu2 _, [dl; dh; x; y] | INDEX_op_muls2 _, [dl; dh; x; y] =>
    let '(_, x, y) := swap_commutative temps dl x y in
    with_args op [dl; dh; x; y]
  | INDEX_op_brcond2_i32, [al; ah; bl; bh; c; l] =>
    let '(sw, p1, p2) := swap_commutative2 temps (al, ah) (bl, bh) in
    with_args op [p1.1; p1.2; p2.1; p2.2; (if (sw : bool) then tcg_swap_cond c else c); l]
  | INDEX_op_setcond2_i32, [d; al; ah; bl; bh; c] =>
    let '(sw, p1, p2) := swap_commutative2 temps (al, ah) (bl, bh) in
    with_args op [d; p1.1; p1.2; p2.1; p2.2; if (sw : bool) then tcg_swap_cond c else c]
  | _, _ => op
  end.

(** Simplify expressions for "shift/rot r, 0, a => movi r, 0", and "sub r, 0,
    a => neg r, a" case. *)
Definition try_not (temps : temps_t) (op : TCGOp) (d x : Z) : option handled :=
  let w := if OPF_64BIT (tcg_op_defs (opc op)) then W64 else W32 in
  if TCG_TARGET_HAS_not w
  then Some (keep (reset_temp temps d, mk_op (INDEX_op_un op_not w) [d; x] 0 0))
  else None.

Definition simplify_unary (temps : temps_t) (op : TCGOp) : option handled :=
  match opc op, args op with
  | INDEX_op_bin b w, [d; x; y] =>
    match b with
    | op_shl | op_shr | op_sar | op_rotl | op_rotr =>
      if const_is temps x 0 then Some (gen_movi temps (opc op) d 0) else None
    | op_sub =>
      if is_const temps y then None
      else if negb (TCG_TARGET_HAS_neg w) then None
      else if const_is temps x 0
      then Some (keep (reset_temp temps d, mk_op (INDEX_op_un op_neg w) [d; y] 0 0))
      else None
    | op_xor | op_nand =>
      if negb (is_const temps x) && const_is temps y all_ones then try_not temps op d x else None
    | op_nor =>
      if negb (is_const temps x) && const_is temps y 0 then try_not temps op d x else None
    | op_andc =>
      if negb (is_const temps y) && const_is temps x all_ones then try_not temps op d y else None
    | op_orc | op_eqv =>
      if negb (is_const temps y) && const_is temps x 0 then try_not temps op d y else None
    | _ => None
    end
  | _, _ => None
  end.

(** Simplify expression for "op r, a, const => mov r, a" cases. *)
Definition simplify_mov (temps : temps_t) (op : TCGOp) : outcome (option handled) :=
  match opc op, args op with
  | INDEX_op_bin b w, [d; x; y] =>
    let do_mov3 :=
      same ← temps_are_copies temps d x;
      if (same : bool) then Ret (Some (tcg_op_remove temps))
      else Some <$> gen_mov temps (opc op) d x in
    match b with
    | op_add | op_sub | op_shl | op_shr | op_sar | op_rotl | op_rotr | op_or | op_xor | op_andc =>
      if negb (is_const temps x) && const_is temps y 0 then do_mov3 else Ret None
    | op_and | op_orc | op_eqv =>
      if negb (is_const temps x) && const_is temps y all_ones then do_mov3 else Ret None
    | _ => Ret None
    end
  | _, _ => Ret None
  end.

Definition MO_SIZE : Z := 3.
Definition MO_SIGN : Z := 4.

(** [mask] and [affected] after the switch on known-zero bits; [and_const] is
    the label of the same name. *)
Definition and_const (m1 mask : Z) : Z * Z := (m1 &&& mask, m1 &&& u64 (Z.lnot mask)).

Definition no_mask : Z * Z := (all_ones, all_ones).

Definition known_un (u : unop) (mx : Z) : Z * Z :=
  match u with
  | op_ext8s => if has_bits mx 0x80 then no_mask else and_const mx 0xff
  | op_ext8u => and_const mx 0xff
  | op_ext16s => if has_bits mx 0x8000 then no_mask else and_const mx 0xffff
  | op_ext16u => and_const mx 0xffff
  | op_ext32s => if has_bits mx 0x80000000 then no_mask else and_const mx 0xffffffff
  | op_ext32u => and_const mx 0xffffffff
  | op_neg => (u64 (- (mx &&& u64 (- mx))), all_ones)
  | op_not => no_mask
  end.

(** [cy] is the second operand when it is constant. *)
Definition known_bin (b : binop) (w : width) (mx my : Z) (cy : option Z) : Z * Z :=
  match b, w, cy with
  | op_and, _, Some _ => and_const mx my
  | op_and, _, None => (mx &&& my, all_ones)
  | op_andc, _, Some _ => and_const mx (u64 (Z.lnot my))
  | op_andc, _, None => (mx, all_ones)
  | op_sar, W32, Some y => (u64 (s32 mx >> (y &&& 31)), all_ones)
  | op_sar, W64, Some y => (u64 (s64 mx >> (y &&& 63)), all_ones)
  | op_shr, W32, Some y => (u32 mx >> (y &&& 31), all_ones)
  | op_shr, W64, Some y => (mx >> (y &&& 63), all_ones)
  | op_shl, _, Some y => (u64 (mx << (y &&& 63)), all_ones)
  | op_or, _, _ | op_xor, _, _ => (mx ||| my, all_ones)
  | _, _, _ => no_mask
  end.

Definition known_zero (temps : temps_t) (op : TCGOp) : outcome (Z * Z) :=
  let m t := mask (temps t) in
  match opc op, args op with
  | INDEX_op_un u _, [d; x] => Ret (known_un u (m x))
  | INDEX_op_bin b w, [d; x; y] =>
    Ret (known_bin b w (m x) (m y) (if is_const temps y then Some (val (temps y)) else None))
  | INDEX_op_trunc_shr_i32, [d; x; pos] => k ← cshr 64 (m x) pos; Ret (k, all_ones)
  | INDEX_op_deposit _, [d; x; y; pos; len] => k ← deposit64 (m x) pos len (m y); Ret (k, all_ones)
  | INDEX_op_setcond _, _ | INDEX_op_setcond2_i32, _ => Ret (1, all_ones)
  | INDEX_op_movcond _, [d; x; y; v1; v2; c] => Ret (m v1 ||| m v2, all_ones)
  | INDEX_op_ld8u _, _ => Ret (0xff, all_ones)
  | INDEX_op_ld16u _, _ => Ret (0xffff, all_ones)
  | INDEX_op_ld32u_i64, _ => Ret (0xffffffff, all_ones)
  | INDEX_op_qemu_ld _, _ =>
    let mop := arg op (op_oargs op + op_iargs op) in
    Ret (if has_bits mop MO_SIGN then no_mask
         else (u64 (u64 (2 << ((8 << (mop &&& MO_SIZE)) - 1)) - 1), all_ones))
  | _, _ => Ret no_mask
  end.

(** Simplify using known-zero bits; the mask of the result otherwise. *)
Definition simplify_zero (temps : temps_t) (op : TCGOp) : outcome (Z * option handled) :=
  ma ← known_zero temps op;
  let '(mask, affected) := ma in
  let '(mask, partmask, affected) :=
    if negb (OPF_64BIT (tcg_op_defs (opc op)))
    then (mask ||| high_ones, mask &&& 0xffffffff, affected &&& 0xffffffff)
    else (mask, mask, affected) in
  if partmask =? 0 then
    if negb (Nat.eqb (op_oargs op) 1) then Fault AssertFailed
    else Ret (mask, Some (gen_movi temps (opc op) (arg op 0) 0))
  else if affected =? 0 then
    if negb (Nat.eqb (op_oargs op) 1) then Fault AssertFailed
    else r ← mov_or_remove temps (opc op) (arg op 0) (arg op 1); Ret (mask, Some r)
  else Ret (mask, None).

(** Simplify expression for "op r, a, 0 => movi r, 0", "op r, a, a => mov r, a"
    and "op r, a, a => movi r, 0" cases. *)
Definition simplify_same (temps : temps_t) (op : TCGOp) : outcome (option handled) :=
  match opc op, args op with
  | INDEX_op_bin b w, [d; x; y] =>
    match b with
    | op_and | op_mul | op_muluh | op_mulsh =>
      if const_is temps y 0 then Ret (Some (gen_movi temps (opc op) d 0))
      else match b with
           | op_and =>
             same ← temps_are_copies temps x y;
             if (same : bool) then Some <$> mov_or_remove temps (opc op) d x else Ret None
           | _ => Ret None
           end
    | op_or =>
      same ← temps_are_copies temps x y;
      if (same : bool) then Some <$> mov_or_remove temps (opc op) d x else Ret None
    | op_andc | op_sub | op_xor =>
      same ← temps_are_copies temps x y;
      if (same : bool) then Ret (Some (gen_movi temps (opc op) d 0)) else Ret None
    | _ => Ret None
    end
  | _, _ => Ret None
  end.

Definition TCG_CALL_NO_READ_GLOBALS : Z := 0x10.
Definition TCG_CALL_NO_WRITE_GLOBALS : Z := 0x20.
Definition TCG_CALL_NO_SIDE_EFFECTS : Z := 0x40.

Definition reset_output (temps : temps_t) (mask : Z) (outs : list Z) : temps_t :=
  match outs with
  | [] => temps
  | o :: outs => fold_left reset_temp outs (upd (reset_temp temps o) o (set_mask mask))
  end.

(** The label [do_default]. *)
Definition do_default (temps : temps_t) (op : TCGOp) (mask : Z) : handled :=
  if OPF_BB_END (tcg_op_defs (opc op)) then keep (reset_all_temps temps, op)
  else keep (reset_output temps mask (firstn (op_oargs op) (args op)), op).

Definition do_call (temps : temps_t) (op : TCGOp) (mask : Z) : handled :=
  let flags := arg op (op_oargs op + op_iargs op + 1) in
  let temps :=
    if negb (has_bits flags (TCG_CALL_NO_READ_GLOBALS ||| TCG_CALL_NO_WRITE_GLOBALS))
    then fold_left reset_temp (seqZ 0 (nb_globals s)) temps else temps in
  keep (reset_output temps mask (firstn (op_oargs op) (args op)), op).

(** The low word of a constant result is moved in place, the high word by an
    operation inserted before; the loop goes on with the operation after the
    inserted one. *)
Definition gen_movi2 (temps : temps_t) (old_op : TCGOpcode) (rl rh v : Z) : handled :=
  let '(temps, op) := tcg_opt_gen_movi temps old_op rl (u32 v) in
  let '(temps, op2) := tcg_opt_gen_movi temps old_op rh (u32 (v >> 32)) in
  mk_handled temps [op2] (Some op).

Definition br_to (temps : temps_t) (label : Z) : handled :=
  keep (reset_all_temps temps, mk_op INDEX_op_br [label] 0 0).

Definition fold_brcond2 (temps : temps_t) (op : TCGOp) (mask al ah bl bh c label : Z)
  : outcome handled :=
  let brcond x y :=
    Ret (keep (reset_all_temps temps, mk_op (INDEX_op_brcond W32) [x; y; c; label] 0 0)) in
  let brcond_true := Ret (br_to temps label) in
  let brcond_false := Ret (tcg_op_remove temps) in
  let brcond_high := brcond ah bh in
  let brcond_low := brcond al bl in
  let default := Ret (do_default temps op mask) in
  tmp ← do_constant_folding_cond2 temps (al, ah) (bl, bh) c;
  if negb (tmp =? 2) then
    if negb (tmp =? 0) then brcond_true else brcond_false
  else if ((c =? TCG_COND_LT) || (c =? TCG_COND_GE)) && const_is temps bl 0 && const_is temps bh 0
  then brcond_high
  else if c =? TCG_COND_EQ then
    tmp ← do_constant_folding_cond temps (INDEX_op_brcond W32) al bl TCG_COND_EQ;
    if tmp =? 0 then brcond_false
    else if tmp =? 1 then brcond_high
    else
      tmp ← do_constant_folding_cond temps (INDEX_op_brcond W32) ah bh TCG_COND_EQ;
      if tmp =? 0 then brcond_false
      else if negb (tmp =? 1) then default
      else brcond_low
  else if c =? TCG_COND_NE then
    tmp ← do_constant_folding_cond temps (INDEX_op_brcond W32) al bl TCG_COND_NE;
    if tmp =? 0 then brcond_high
    else if tmp =? 1 then brcond_true
    else
      tmp ← do_constant_folding_cond temps (INDEX_op_brcond W32) ah bh TCG_COND_NE;
      if tmp =? 0 then brcond_low
      else if tmp =? 1 then brcond_true
      else default
  else default.

Definition fold_setcond2 (temps : temps_t) (op : TCGOp) (mask d al ah bl bh c : Z)
  : outcome handled :=
  let setcond x y :=
    Ret (keep (upd (reset_temp temps d) d (set_mask 1),
               mk_op (INDEX_op_setcond W32) [d; x; y; c] 0 0)) in
  let setcond_const tmp := Ret (gen_movi temps (opc op) d tmp) in
  let setcond_high := setcond ah bh in
  let setcond_low := setcond al bl in
  let default := Ret (do_default temps op mask) in
  tmp ← do_constant_folding_cond2 temps (al, ah) (bl, bh) c;
  if negb (tmp =? 2) then setcond_const tmp
  else if ((c =? TCG_COND_LT) || (c =? TCG_COND_GE)) && const_is temps bl 0 && const_is temps bh 0
  then setcond_high
  else if c =? TCG_COND_EQ then
    tmp ← do_constant_folding_cond temps (INDEX_op_setcond W32) al bl TCG_COND_EQ;
    if tmp =? 0 then setcond_const tmp
    else if tmp =? 1 then setcond_high
    else
      tmp ← do_constant_folding_cond temps (INDEX_op_setcond W32) ah bh TCG_COND_EQ;
      if tmp =? 0 then setcond_high
      else if negb (tmp =? 1) then default
      else setcond_low
  else if c =? TCG_COND_NE then
    tmp ← do_constant_folding_cond temps (INDEX_op_setcond W32) al bl TCG_COND_NE;
    if tmp =? 0 then setcond_high
    else if tmp =? 1 then setcond_const tmp
    else
      tmp ← do_constant_folding_cond temps (INDEX_op_setcond W32) ah bh TCG_COND_NE;
      if tmp =? 0 then setcond_low
      else if tmp =? 1 then setcond_const tmp
      else default
  else default.

(** Propagate constants through copy operations and do constant folding. *)
Definition fold_constants (temps : temps_t) (op : TCGOp) (mask : Z) : outcome handled :=
  let v t := val (temps t) in
  let default := Ret (do_default temps op mask) in
  match opc op, args op with
  | INDEX_op_mov _, [d; x] => mov_or_remove temps (opc op) d x
  | INDEX_op_movi _, [d; x] => Ret (gen_movi temps (opc op) d x)
  | INDEX_op_un _ _, [d; x] =>
    if is_const temps x then
      tmp ← do_constant_folding (opc op) (v x) 0;
      Ret (gen_movi temps (opc op) d tmp)
    else default
  | INDEX_op_trunc_shr_i32, [d; x; pos] =>
    if is_const temps x then
      tmp ← do_constant_folding (opc op) (v x) pos;
      Ret (gen_movi temps (opc op) d tmp)
    else default
  | INDEX_op_bin _ _, [d; x; y] =>
    if is_const temps x && is_const temps y then
      tmp ← do_constant_folding (opc op) (v x) (v y);
      Ret (gen_movi temps (opc op) d tmp)
    else default
  | INDEX_op_deposit _, [d; x; y; pos; len] =>
    if is_const temps x && is_const temps y then
      tmp ← deposit64 (v x) pos len (v y);
      Ret (gen_movi temps (opc op) d tmp)
    else default
  | INDEX_op_setcond _, [d; x; y; c] =>
    tmp ← do_constant_folding_cond temps (opc op) x y c;
    if negb (tmp =? 2) then Ret (gen_movi temps (opc op) d tmp) else default
  | INDEX_op_brcond _, [x; y; c; label] =>
    tmp ← do_constant_folding_cond temps (opc op) x y c;
    if negb (tmp =? 2) then
      if negb (tmp =? 0) then Ret (br_to temps label) else Ret (tcg_op_remove temps)
    else default
  | INDEX_op_movcond _, [d; x; y; v1; v2; c] =>
    tmp ← do_constant_folding_cond temps (opc op) x y c;
    if negb (tmp =? 2) then mov_or_remove temps (opc op) d (if tmp =? 1 then v1 else v2)
    else default
  | INDEX_op_add2 W32, [rl; rh; al; ah; bl; bh] | INDEX_op_sub2 W32, [rl; rh; al; ah; bl; bh] =>
    if is_const temps al && is_const temps ah && is_const temps bl && is_const temps bh then
      let a := u64 (u32 (v ah) << 32) ||| u32 (v al) in
      let b := u64 (u32 (v bh) << 32) ||| u32 (v bl) in
      let a := if bool_decide (opc op = INDEX_op_add2 W32) then u64 (a + b) else u64 (a - b) in
      Ret (gen_movi2 temps (opc op) rl rh a)
    else default
  | INDEX_op_mulu2 W32, [rl; rh; x; y] =>
    if is_const temps x && is_const temps y then
      Ret (gen_movi2 temps (opc op) rl rh (u64 (u32 (v x) * u32 (v y))))
    else default
  | INDEX_op_brcond2_i32, [al; ah; bl; bh; c; label] =>
    fold_brcond2 temps op mask al ah bl bh c label
  | INDEX_op_setcond2_i32, [d; al; ah; bl; bh; c] =>
    fold_setcond2 temps op mask d al ah bl bh c
  | INDEX_op_call, _ => Ret (do_call temps op mask)
  | _, _ => default
  end.

(** The body of the loop of [tcg_constant_folding]: the simplifications in
    turn, after propagation and canonicalisation. *)
Definition simplify (temps : temps_t) (op : TCGOp) : outcome handled :=
  match simplify_unary temps op with
  | Some h => Ret h
  | None =>
    h ← simplify_mov temps op;
    match h with
    | Some h => Ret h
    | None =>
      mh ← simplify_zero temps op;
      match mh.2 with
      | Some h => Ret h
      | None =>
        h ← simplify_same temps op;
        match h with
        | Some h => Ret h
        | None => fold_constants temps op mh.1
        end
      end
    end
  end.

Definition fold_op (temps : temps_t) (op : TCGOp) : outcome handled :=
  l ← propagate temps (op_oargs op) (op_iargs op) (args op);
  simplify temps (canonicalize temps (with_args op l)).

(** The loop, with a bound on the operations visited. *)
Fixpoint fold_ops (fuel : nat) (temps : temps_t) (ops : list TCGOp) : outcome (list TCGOp) :=
  match fuel, ops with
  | O, _ => NoFuel
  | _, [] => Ret []
  | S fuel, op :: ops =>
    h ← fold_op temps op;
    rest ← fold_ops fuel (h_temps h) (option_list (h_again h) ++ ops);
    Ret (h_ops h ++ rest)
  end.

(** At most one visit more per operation. *)
Definition tcg_constant_folding (temps : temps_t) (ops : list TCGOp) : outcome (list TCGOp) :=
  fold_ops (S (2 * length ops)) (reset_all_temps temps) ops.

Definition tcg_optimize (temps : temps_t) (ops : list TCGOp) : outcome (list TCGOp) :=
  tcg_constant_folding temps ops.

End Optimizer.
