(* ===== verification/TcgSem.v ===== *)
(** * Runs of TCG code

    What a list of operations may do, after the instruction reference
    (src/tcg/README): the specification the optimiser is proved against.  A
    variable holds a number of its type or nothing defined: an operation with
    an unspecified result, or on an undefined operand, leaves its output
    undefined, a branch on an undefined operand may go either way, and a
    64-bit operation on a 32-bit variable finds nothing defined in the other
    half.  Helpers, loads and stores are a relation on the operands, the
    globals and the rest of the machine, which is a parameter. *)

From S2P Require Import Prelude HostUtils BitField TcgOp TcgOpt.

(** ** Variables *)

Definition env : Type := Z -> option Z.

(** What becomes of control after an operation. *)
Inductive flow :=
| Next
| Jump (label : Z)
| Stop
| Wrong.

#[export] Instance flow_eq_dec : EqDecision flow.
Proof. solve_decision. Defined.

(** The block is not left. *)
Definition goes_on (f : flow) : bool := match f with Next | Jump _ => true | _ => false end.

Section Sem.
Context (s : TCGContext).

(** The value of [t] for an operand of width [w]. *)
Definition rd (E : env) (w : width) (t : Z) : option Z :=
  v ← E t; if wbits w <=? wbits (temp_type s t) then Some (low w v) else None.

(** [t] written by an operation of width [w]. *)
Definition wr (E : env) (w : width) (t : Z) (v : option Z) : env :=
  fun i => if i =? t then (if bool_decide (w = temp_type s t) then low w <$> v else None) else E i.

(** [E] has fewer defined variables than [E'] but agrees otherwise. *)
Definition lessdef (E E' : env) : Prop := forall t, E t = None \/ E t = E' t.

(** Globals and local temporaries survive the end of a basic block. *)
Definition survives (t : Z) : bool := (t <? nb_globals s) || temp_local s t.

Definition bb_end (E : env) : env := fun t => if survives t then E t else None.

(** ** Operations without effects *)

Definition eval_bin (b : binop) (w : width) (x y : option Z) : option Z :=
  match x, y with
  | Some x, Some y => if bin_defined b w x y then Some (sem_bin b w x y) else None
  | _, _ => None
  end.

(** The double-word results. *)
Definition sem_bin2 (opc : TCGOpcode) (w : width) (a b : Z) : Z :=
  wrap (2 * wbits w) (match opc with INDEX_op_add2 _ => a + b | _ => a - b end).

Definition sem_mul2 (opc : TCGOpcode) (w : width) (x y : Z) : Z :=
  wrap (2 * wbits w) (match opc with INDEX_op_mulu2 _ => x * y | _ => slow w x * slow w y end).

Definition wr2 (E : env) (w : width) (l h : Z) (r : option Z) : env :=
  wr (wr E w h ((fun r => r >> wbits w) <$> r)) w l (low w <$> r).

Definition eval_cond (c : Z) (w : width) (x y : option Z) : option bool :=
  x ← x; y ← y; Some (sem_cond w c x y).

Definition eval_cond2 (c : Z) (al ah bl bh : option Z) : option bool :=
  al ← al; ah ← ah; bl ← bl; bh ← bh;
  Some (sem_cond W64 c (pair_of W32 al ah) (pair_of W32 bl bh)).

(** The variables after an operation that only computes. *)
Definition eval_op (E : env) (op : TCGOp) : option env :=
  match opc op, args op with
  | INDEX_op_mov w, [d; x] => Some (wr E w d (rd E w x))
  | INDEX_op_movi w, [d; v] => Some (wr E w d (Some (low w v)))
  | INDEX_op_un u w, [d; x] => Some (wr E w d (sem_un u w <$> rd E (in_width u w) x))
  | INDEX_op_bin b w, [d; x; y] => Some (wr E w d (eval_bin b w (rd E w x) (rd E w y)))
  | INDEX_op_trunc_shr_i32, [d; x; pos] =>
    Some (wr E W32 d ((fun x => low W32 (x >> pos)) <$> rd E W64 x))
  | INDEX_op_deposit w, [d; x; y; pos; len] =>
    Some (wr E w d (x ← rd E w x; y ← rd E w y; Some (deposit x pos len y)))
  | INDEX_op_setcond w, [d; x; y; c] =>
    Some (wr E w d (b2z <$> eval_cond c w (rd E w x) (rd E w y)))
  | INDEX_op_movcond w, [d; x; y; v1; v2; c] =>
    Some (wr E w d (b ← eval_cond c w (rd E w x) (rd E w y); rd E w (if (b : bool) then v1 else v2)))
  | INDEX_op_add2 w, [l; h; al; ah; bl; bh] | INDEX_op_sub2 w, [l; h; al; ah; bl; bh] =>
    Some (wr2 E w l h
      (al ← rd E w al; ah ← rd E w ah; bl ← rd E w bl; bh ← rd E w bh;
       Some (sem_bin2 (opc op) w (pair_of w al ah) (pair_of w bl bh))))
  | INDEX_op_mulu2 w, [l; h; x; y] | INDEX_op_muls2 w, [l; h; x; y] =>
    Some (wr2 E w l h (x ← rd E w x; y ← rd E w y; Some (sem_mul2 (opc op) w x y)))
  | INDEX_op_setcond2_i32, [d; al; ah; bl; bh; c] =>
    Some (wr E W32 d
      (b2z <$> eval_cond2 c (rd E W32 al) (rd E W32 ah) (rd E W32 bl) (rd E W32 bh)))
  | INDEX_op_discard, [t] => Some (wr E (temp_type s t) t None)
  | INDEX_op_debug_insn_start, [_] => Some E
  | _, _ => None
  end.

(** A division that is not defined may crash. *)
Definition traps (b : binop) : bool :=
  match b with op_div | op_divu | op_rem | op_remu => true | _ => false end.

Definition may_trap (E : env) (op : TCGOp) : bool :=
  match opc op, args op with
  | INDEX_op_bin b w, [d; x; y] =>
    traps b && bool_decide (eval_bin b w (rd E w x) (rd E w y) = None)
  | _, _ => false
  end.

(** ** Operations with effects *)

(** An undefined operand may be found with any value. *)
Definition found (E : env) (t x : Z) : Prop :=
  match E t with Some v => x = v | None => 0 <= x < 2 ^ wbits (temp_type s t) end.

(** The condition of a branch: whether it may be [b]. *)
Definition cond_may (c : option bool) (b : bool) : Prop :=
  match c with Some b' => b = b' | None => True end.

Definition op_inputs (op : TCGOp) : list Z := firstn (op_iargs op) (skipn (op_oargs op) (args op)).
Definition op_outputs (op : TCGOp) : list Z := firstn (op_oargs op) (args op).
Definition op_consts (op : TCGOp) : list Z := skipn (op_oargs op + op_iargs op) (args op).

Definition is_effect (opc : TCGOpcode) : bool :=
  match opc with
  | INDEX_op_call | INDEX_op_ld8u _ | INDEX_op_ld16u _ | INDEX_op_ld32u_i64 | INDEX_op_qemu_ld _
  | INDEX_op_other _ _ => true
  | _ => false
  end.

(** A memory access of [8 << (mop & MO_SIZE)] bits, extended. *)
Definition load_ext (mop x : Z) : Z :=
  let n := 8 << (mop &&& MO_SIZE) in if has_bits mop MO_SIGN then sext n x else wrap n x.

(** What an access makes of the bits found in memory. *)
Definition loaded (op : TCGOp) (x : Z) : Z :=
  match opc op with
  | INDEX_op_ld8u _ => u8 x
  | INDEX_op_ld16u _ => u16 x
  | INDEX_op_ld32u_i64 => u32 x
  | INDEX_op_qemu_ld _ => load_ext (arg op (op_oargs op + op_iargs op)) x
  | _ => x
  end.

(** The outputs, each of the type of its variable. *)
Fixpoint wr_outs (E : env) (op : TCGOp) (outs vals : list Z) : env :=
  match outs with
  | [] => E
  | o :: outs =>
    let w := temp_type s o in
    wr_outs (wr E w o (Some (low w (loaded op (default 0 (head vals)))))) op outs (tail vals)
  end.

(** The flags of a call. *)
Definition call_flags (op : TCGOp) : Z := arg op (op_oargs op + op_iargs op + 1).

(** Helpers may see the globals unless they promise not to; operations that
    can raise an exception or leave the block show them. *)
Definition reads_globals (op : TCGOp) : bool :=
  match opc op with
  | INDEX_op_call => negb (has_bits (call_flags op) TCG_CALL_NO_READ_GLOBALS)
  | oc => OPF_SIDE_EFFECTS (tcg_op_defs oc) || OPF_BB_END (tcg_op_defs oc)
  end.

(** A helper may change the globals unless it promises not to read or not to
    write them, or to have no effects. *)
Definition writes_globals (op : TCGOp) : bool :=
  bool_decide (opc op = INDEX_op_call) &&
  negb (has_bits (call_flags op) (TCG_CALL_NO_READ_GLOBALS ||| TCG_CALL_NO_WRITE_GLOBALS)) &&
  negb (has_bits (call_flags op) TCG_CALL_NO_SIDE_EFFECTS).

Definition shown_globals (op : TCGOp) : list Z :=
  if reads_globals op then seqZ 0 (nb_globals s) else [].

Definition wr_globals (E : env) (op : TCGOp) (g : list Z) : env :=
  fun i => if writes_globals op && (0 <=? i) && (i <? nb_globals s)
           then Some (low (temp_type s i) (nth (Z.to_nat i) g 0)) else E i.

(** The outputs are not written where an exception leaves the block. *)
Definition after_effect (E : env) (op : TCGOp) (g vals : list Z) (go : bool) : env :=
  let E := wr_globals E op g in
  let E := if go then wr_outs E op (op_outputs op) vals else E in
  if OPF_BB_END (tcg_op_defs (opc op)) then bb_end E else E.

Context {World : Type}.

(** [ext op consts inputs globals m vals globals' m' go]: on the machine [m]
    the operation may give [vals], leave the globals at [globals'] and the
    machine at [m'], and the block goes on if [go]. *)
Context (ext : TCGOpcode -> list Z -> list Z -> list Z -> World ->
               list Z -> list Z -> World -> bool -> Prop).

Inductive exec (op : TCGOp) (E : env) (m : World) : env -> World -> flow -> Prop :=
| exec_eval E' : eval_op E op = Some E' -> exec op E m E' m Next
| exec_trap : may_trap E op = true -> exec op E m E m Wrong
| exec_label l : opc op = INDEX_op_set_label -> args op = [l] -> exec op E m (bb_end E) m Next
| exec_br l : opc op = INDEX_op_br -> args op = [l] -> exec op E m (bb_end E) m (Jump l)
| exec_brcond w x y c l b : opc op = INDEX_op_brcond w -> args op = [x; y; c; l] ->
  cond_may (eval_cond c w (rd E w x) (rd E w y)) b ->
  exec op E m (bb_end E) m (if b then Jump l else Next)
| exec_brcond2 al ah bl bh c l b :
  opc op = INDEX_op_brcond2_i32 -> args op = [al; ah; bl; bh; c; l] ->
  cond_may (eval_cond2 c (rd E W32 al) (rd E W32 ah) (rd E W32 bl) (rd E W32 bh)) b ->
  exec op E m (bb_end E) m (if b then Jump l else Next)
| exec_effect ins gl vals gl' m' (go : bool) :
  is_effect (opc op) = true ->
  Forall2 (found E) (op_inputs op) ins ->
  Forall2 (found E) (shown_globals op) gl ->
  (go = false -> reads_globals op = true) ->
  ext (opc op) (op_consts op) ins gl m vals gl' m' go ->
  exec op E m (after_effect E op gl' vals go) m' (if go then Next else Stop).

(** ** Blocks *)

(** What follows the label [l]. *)
Fixpoint find_label (l : Z) (P : list TCGOp) : option (list TCGOp) :=
  match P with
  | [] => None
  | op :: P =>
    if bool_decide (opc op = INDEX_op_set_label) && bool_decide (args op = [l]) then Some P
    else find_label l P
  end.

(** How a run ends: past the last operation, out of the block, at a jump, or
    in a crash. *)
Inductive ending := AtEnd | Left_block | AtLabel (l : Z) | Crashed.

(** [run P n k E m e E' m']: in the block [P], with [k] still to do, the run
    that is cut at the jump after [n] jumps may end in [e]. *)
Inductive run (P : list TCGOp) : nat -> list TCGOp -> env -> World ->
                                 ending -> env -> World -> Prop :=
| run_end n E m : run P n [] E m AtEnd E m
| run_next n op k E m E1 m1 e E' m' :
  exec op E m E1 m1 Next -> run P n k E1 m1 e E' m' -> run P n (op :: k) E m e E' m'
| run_stop n op k E m E' m' :
  exec op E m E' m' Stop -> run P n (op :: k) E m Left_block E' m'
| run_wrong n op k E m E' m' :
  exec op E m E' m' Wrong -> run P n (op :: k) E m Crashed E' m'
| run_cut op k E m E' m' l :
  exec op E m E' m' (Jump l) -> run P 0 (op :: k) E m (AtLabel l) E' m'
| run_lost n op k E m E' m' l :
  exec op E m E' m' (Jump l) -> find_label l P = None ->
  run P (S n) (op :: k) E m (AtLabel l) E' m'
| run_jump n op k E m E1 m1 l k1 e E' m' :
  exec op E m E1 m1 (Jump l) -> find_label l P = Some k1 ->
  run P n k1 E1 m1 e E' m' -> run P (S n) (op :: k) E m e E' m'.

(** ** Well-formed code *)

(** An operand read, and a result written, at width [w]; an argument that is
    a constant. *)
Definition in_ok (w : width) (t : Z) : bool :=
  in_temps s t && (wbits w <=? wbits (temp_type s t)).

Definition out_ok (w : width) (t : Z) : bool :=
  in_temps s t && bool_decide (temp_type s t = w).

Definition is_arg (v : Z) : bool := (0 <=? v) && (v <? 2 ^ 64).

(** The opcodes that exist for both widths, and on a 64-bit host:
    [setcond2_i32], the comparison of double words into a variable, is declared
    in src/tcg/tcg-opc.h for 32-bit hosts only.  [muluh_i64] and [mulsh_i64]
    are excluded, the optimiser takes them for 32-bit operations
    (file [TcgOptimize] shows what becomes of one). *)
Definition wf_opcode (opc : TCGOpcode) : bool :=
  match opc with
  | INDEX_op_bin (op_muluh | op_mulsh) W64 => false
  | INDEX_op_un (op_ext32s | op_ext32u) W32 => false
  | INDEX_op_setcond2_i32 => false
  | _ => true
  end.

Definition wf_args (op : TCGOp) : bool :=
  match opc op, args op with
  | INDEX_op_mov w, [d; x] => out_ok w d && in_ok w x
  | INDEX_op_movi w, [d; v] => out_ok w d && is_arg v
  | INDEX_op_un u w, [d; x] => out_ok w d && in_ok (in_width u w) x
  | INDEX_op_bin _ w, [d; x; y] => out_ok w d && in_ok w x && in_ok w y
  | INDEX_op_trunc_shr_i32, [d; x; pos] =>
    out_ok W32 d && in_ok W64 x && (0 <=? pos) && (pos <? 64)
  | INDEX_op_deposit w, [d; x; y; pos; len] =>
    out_ok w d && in_ok w x && in_ok w y && field_ok (wbits w) pos len
  | INDEX_op_setcond w, [d; x; y; c] => out_ok w d && in_ok w x && in_ok w y && valid_cond c
  | INDEX_op_movcond w, [d; x; y; v1; v2; c] =>
    out_ok w d && in_ok w x && in_ok w y && in_ok w v1 && in_ok w v2 && valid_cond c
  | INDEX_op_brcond w, [x; y; c; l] => in_ok w x && in_ok w y && valid_cond c
  | INDEX_op_brcond2_i32, [al; ah; bl; bh; c; l] =>
    in_ok W32 al && in_ok W32 ah && in_ok W32 bl && in_ok W32 bh && valid_cond c
  | INDEX_op_add2 w, [l; h; al; ah; bl; bh] | INDEX_op_sub2 w, [l; h; al; ah; bl; bh] =>
    out_ok w l && out_ok w h && negb (l =? h) &&
    in_ok w al && in_ok w ah && in_ok w bl && in_ok w bh
  | INDEX_op_mulu2 w, [l; h; x; y] | INDEX_op_muls2 w, [l; h; x; y] =>
    out_ok w l && out_ok w h && negb (l =? h) && in_ok w x && in_ok w y
  | INDEX_op_set_label, [l] | INDEX_op_br, [l] => true
  | INDEX_op_ld8u w, [d; x; _] | INDEX_op_ld16u w, [d; x; _] => out_ok w d && in_temps s x
  | INDEX_op_ld32u_i64, [d; x; _] => out_ok W64 d && in_temps s x
  | INDEX_op_qemu_ld w, [d; x; _; _] => out_ok w d && in_temps s x
  | INDEX_op_discard, [t] => in_temps s t
  | INDEX_op_debug_insn_start, [_] => true
  | INDEX_op_call, _ | INDEX_op_other _ _, _ =>
    forallb (in_temps s) (op_outputs op) && forallb (in_temps s) (op_inputs op)
  | _, _ => false
  end.

(** Only calls count their arguments. *)
Definition wf_counts (op : TCGOp) : bool :=
  bool_decide (opc op = INDEX_op_call) || (Nat.eqb (callo op) 0 && Nat.eqb (calli op) 0).

Definition wf_op (op : TCGOp) : bool := wf_opcode (opc op) && wf_counts op && wf_args op.

Definition wf_ctx : bool := (0 <=? nb_globals s) && (nb_globals s <=? nb_temps s).

(** The variables hold numbers of their types. *)
Definition env_ok (E : env) : Prop :=
  forall t v, E t = Some v -> 0 <= v < 2 ^ wbits (temp_type s t).

End Sem.
