(* ===== verification/TcgMono.v ===== *)
(** * Undefined variables

    Runs of TCG code keep every variable within its type, and what code may
    do with some variables undefined includes what it may do when they are
    defined. *)

From S2P Require Import Prelude HostUtils BitField TcgOp TcgOpt TcgSem.

(** An undefined value stands for any. *)
Definition ole {A} (x y : option A) : Prop := x = None \/ x = y.

#[export] Instance ole_refl {A} : Reflexive (@ole A).
Proof. by right. Qed.

#[export] Instance ole_trans {A} : Transitive (@ole A).
Proof. intros x y z [->| ->]; [by left|done]. Qed.

Lemma ole_Some {A} (x : A) y : ole (Some x) y -> y = Some x.
Proof. by intros [?|?]. Qed.

Lemma ole_None {A} (x : option A) : ole x None -> x = None.
Proof. by intros [?|?]. Qed.

Lemma ole_bind {A B} (f g : A -> option B) x y :
  ole x y -> (forall a, ole (f a) (g a)) -> ole (x ≫= f) (y ≫= g).
Proof. intros [->| ->] Hf; [by left|]. destruct y; [apply Hf|by left]. Qed.

Lemma ole_fmap {A B} (f : A -> B) x y : ole x y -> ole (f <$> x) (f <$> y).
Proof. intros [->| ->]; [by left|done]. Qed.

#[export] Instance lessdef_refl : Reflexive lessdef.
Proof. intros E t. by right. Qed.

#[export] Instance lessdef_trans : Transitive lessdef.
Proof. intros E1 E2 E3 H1 H2 t. exact (ole_trans _ _ _ (H1 t) (H2 t)). Qed.

Section Mono.
Context (s : TCGContext).

(** ** Types *)

Lemma env_ok_wr E w t v : env_ok s E -> env_ok s (wr s E w t v).
Proof.
  intros He i x. unfold wr. destruct (Z.eqb_spec i t) as [->|]; [|apply He].
  case_bool_decide as Hw; [|done]. destruct v; [|done]. intros [= <-]. rewrite <- Hw.
  apply low_range.
Qed.

Lemma env_ok_bb_end E : env_ok s E -> env_ok s (bb_end s E).
Proof. intros He t v. unfold bb_end. destruct (survives s t); [apply He|done]. Qed.

Lemma env_ok_wr_outs E op outs vals : env_ok s E -> env_ok s (wr_outs s E op outs vals).
Proof.
  revert E vals. induction outs as [|o outs IH]; intros E vals He; [done|].
  apply IH. by apply env_ok_wr.
Qed.

Lemma env_ok_wr_globals E op g : env_ok s E -> env_ok s (wr_globals s E op g).
Proof.
  intros He t v. unfold wr_globals. case_match; [|apply He]. intros [= <-]. apply low_range.
Qed.

Lemma env_ok_after E op g vals go : env_ok s E -> env_ok s (after_effect s E op g vals go).
Proof.
  intros He. unfold after_effect. case_match; [apply env_ok_bb_end|];
    (destruct go; [apply env_ok_wr_outs|]); by apply env_ok_wr_globals.
Qed.

Lemma env_ok_eval E op E' : env_ok s E -> eval_op s E op = Some E' -> env_ok s E'.
Proof.
  intros He. unfold eval_op, wr2. repeat case_match; intros [= <-] || done;
    repeat apply env_ok_wr; done.
Qed.

(** ** Reads and writes *)

Lemma rd_mono E Et w t : lessdef E Et -> ole (rd s E w t) (rd s Et w t).
Proof. intros Hl. apply ole_bind; [apply Hl|done]. Qed.

Lemma wr_mono E Et w t v vt : lessdef E Et -> ole v vt -> lessdef (wr s E w t v) (wr s Et w t vt).
Proof.
  intros Hl Hv i. unfold wr. destruct (i =? t); [|apply Hl].
  case_bool_decide; [|by left]. by apply ole_fmap.
Qed.

Lemma bb_end_mono E Et : lessdef E Et -> lessdef (bb_end s E) (bb_end s Et).
Proof. intros Hl t. unfold bb_end. destruct (survives s t); [apply Hl|by left]. Qed.

Lemma bb_end_le E : lessdef (bb_end s E) E.
Proof. intros t. unfold bb_end. destruct (survives s t); [by right|by left]. Qed.

Lemma wr_outs_mono E Et op outs vals :
  lessdef E Et -> lessdef (wr_outs s E op outs vals) (wr_outs s Et op outs vals).
Proof.
  revert E Et vals. induction outs as [|o outs IH]; intros E Et vals Hl; [done|].
  apply IH. by apply wr_mono.
Qed.

Lemma wr_globals_mono E Et op g :
  lessdef E Et -> lessdef (wr_globals s E op g) (wr_globals s Et op g).
Proof. intros Hl t. unfold wr_globals. case_match; [by right|apply Hl]. Qed.

Lemma after_mono E Et op g vals go :
  lessdef E Et -> lessdef (after_effect s E op g vals go) (after_effect s Et op g vals go).
Proof.
  intros Hl. unfold after_effect. case_match; [apply bb_end_mono|];
    (destruct go; [apply wr_outs_mono|]); by apply wr_globals_mono.
Qed.

Lemma eval_bin_mono b w x xt y yt :
  ole x xt -> ole y yt -> ole (eval_bin b w x y) (eval_bin b w xt yt).
Proof.
  intros [->| ->] [->| ->]; [by left..| |by right]. unfold eval_bin. destruct xt; by left.
Qed.

Lemma eval_cond_mono c w x xt y yt :
  ole x xt -> ole y yt -> ole (eval_cond c w x y) (eval_cond c w xt yt).
Proof. intros Hx Hy. unfold eval_cond. repeat (apply ole_bind; [done|intros ?]). done. Qed.

Lemma found_mono E Et t x : lessdef E Et -> env_ok s Et -> found s Et t x -> found s E t x.
Proof.
  intros Hl He. unfold found. destruct (Hl t) as [->| ->]; [|done].
  destruct (Et t) as [v|] eqn:Hv; [|done]. intros ->. by apply He.
Qed.

Lemma cond_may_mono c ct b : ole c ct -> cond_may ct b -> cond_may c b.
Proof. by intros [->| ->]. Qed.

Lemma eval_op_mono E Et op Et' :
  lessdef E Et -> eval_op s Et op = Some Et' ->
  exists E', eval_op s E op = Some E' /\ lessdef E' Et'.
Proof.
  intros Hl. unfold eval_op, wr2. repeat case_match; try done; intros [= <-];
    (eexists; split; [done|]); repeat apply wr_mono; try done;
    repeat first [apply rd_mono; done | apply ole_fmap | apply eval_bin_mono
                 | apply eval_cond_mono | apply ole_bind; [|intros ?] | done].
Qed.

Lemma may_trap_mono E Et op : lessdef E Et -> may_trap s Et op = true -> may_trap s E op = true.
Proof.
  intros Hl. unfold may_trap. repeat case_match; try done. rewrite !andb_true_iff, !bool_decide_eq_true.
  intros [-> Hn]. split; [done|]. apply ole_None. rewrite <- Hn.
  apply eval_bin_mono; by apply rd_mono.
Qed.

(** ** Operations *)

Context {World : Type}.
Context (ext : TCGOpcode -> list Z -> list Z -> list Z -> World ->
               list Z -> list Z -> World -> bool -> Prop).

Lemma exec_env_ok op E m E' m' f : exec s ext op E m E' m' f -> env_ok s E -> env_ok s E'.
Proof.
  destruct 1; intros He;
    [by eapply env_ok_eval|done|by apply env_ok_bb_end..|by apply env_ok_after].
Qed.

(** What is done with defined variables may be done with undefined ones. *)
Lemma exec_mono op E Et m Et' m' f :
  lessdef E Et -> env_ok s Et -> exec s ext op Et m Et' m' f ->
  exists E', exec s ext op E m E' m' f /\ lessdef E' Et'.
Proof.
  intros Hl He Hx. destruct Hx as [Et' Hev|Ht|l Ho Ha|l Ho Ha|w x y c l b Ho Ha Hc
    |al ah bl bh c l b Ho Ha Hc|ins gl vals gl' m' go Hf Hi Hg Hgo Hx].
  - destruct (eval_op_mono E Et op Et' Hl Hev) as (E' & ? & ?). exists E'. by split; [constructor|].
  - exists E. split; [|done]. constructor. by eapply may_trap_mono.
  - exists (bb_end s E). split; [by econstructor|by apply bb_end_mono].
  - exists (bb_end s E). split; [by econstructor|by apply bb_end_mono].
  - exists (bb_end s E). split; [|by apply bb_end_mono]. eapply exec_brcond; [done..|].
    eapply cond_may_mono; [|done]. apply eval_cond_mono; by apply rd_mono.
  - exists (bb_end s E). split; [|by apply bb_end_mono]. eapply exec_brcond2; [done..|].
    eapply cond_may_mono; [|done].
    repeat (apply ole_bind; [by apply rd_mono|intros ?]). done.
  - exists (after_effect s E op gl' vals go). split; [|by apply after_mono].
    eapply exec_effect; [done| | |done|done]; (eapply Forall2_impl; [done|]); intros t x;
      by apply found_mono.
Qed.

End Mono.
