(* ===== verification/TcgInv.v ===== *)
(** * The state of the TCG optimiser

    The rings of copies of src/tcg/optimize.c stay linked both ways, walks
    along them end, and what is recorded of a variable holds of its value:
    the invariant of the proof of correctness, kept by the operations that
    change the state. *)

From S2P Require Import Prelude HostUtils BitField TcgOp TcgOpt TcgSem.

(** ** Rings of copies *)

Lemma upd_eq temps t f : upd temps t f t = f (temps t).
Proof. unfold upd. by rewrite Z.eqb_refl. Qed.

Lemma upd_ne temps t f i : i <> t -> upd temps t f i = temps i.
Proof. intros. unfold upd. by destruct (Z.eqb_spec i t). Qed.

#[local] Arguments ring_fuel : simpl never.

Section Rings.
Context (s : TCGContext).

(** The copies of a variable are linked both ways, and have its type. *)
Record linked (temps : temps_t) (t : Z) : Prop := {
  l_next : in_temps s (next_copy (temps t)) = true;
  l_prev : in_temps s (prev_copy (temps t)) = true;
  l_next_copy : state (temps (next_copy (temps t))) = TCG_TEMP_COPY;
  l_prev_copy : state (temps (prev_copy (temps t))) = TCG_TEMP_COPY;
  l_prev_next : prev_copy (temps (next_copy (temps t))) = t;
  l_next_prev : next_copy (temps (prev_copy (temps t))) = t;
  l_type : temp_type s (next_copy (temps t)) = temp_type s t;
}.

Definition rings (temps : temps_t) : Prop :=
  forall t, in_temps s t = true -> state (temps t) = TCG_TEMP_COPY -> linked temps t.

(** ** Resets *)

Lemma reset_temp_self temps d :
  state (reset_temp temps d d) = TCG_TEMP_UNDEF /\ mask (reset_temp temps d d) = all_ones.
Proof. unfold reset_temp. by rewrite !upd_eq. Qed.

(** The three shapes of a reset: [d] is alone, has one copy, or leaves a ring
    of more. *)
Lemma reset_temp_other temps d t :
  rings temps -> in_temps s d = true -> t <> d ->
  (state (temps d) <> TCG_TEMP_COPY \/ next_copy (temps d) = d ->
   reset_temp temps d t = temps t) /\
  (state (temps d) = TCG_TEMP_COPY -> next_copy (temps d) <> d ->
   prev_copy (temps d) = next_copy (temps d) ->
   reset_temp temps d t
     = if t =? next_copy (temps d) then set_state TCG_TEMP_UNDEF (temps t) else temps t) /\
  (state (temps d) = TCG_TEMP_COPY -> next_copy (temps d) <> d ->
   prev_copy (temps d) <> next_copy (temps d) ->
   reset_temp temps d t
     = let i := if t =? next_copy (temps d)
                then set_prev_copy (prev_copy (temps d)) (temps t) else temps t in
       if t =? prev_copy (temps d) then set_next_copy (next_copy (temps d)) i else i).
Proof.
  intros Hr Hd Ht. unfold reset_temp, is_copy. rewrite !(upd_ne _ d) by done.
  split_and!.
  - intros [Hs|Hs].
    + by rewrite bool_decide_eq_false_2.
    + case_bool_decide as Hc; [|done]. destruct (Hr d Hd Hc) as [_ _ _ _ Hpn _ _].
      rewrite Hs in *. rewrite Hpn, Z.eqb_refl. by rewrite upd_ne.
  - intros Hc Hn Hp. rewrite bool_decide_eq_true_2 by done. by rewrite Hp, Z.eqb_refl.
  - intros Hc Hn Hp. rewrite bool_decide_eq_true_2 by done.
    destruct (Z.eqb_spec (prev_copy (temps d)) (next_copy (temps d))) as [?|_]; [done|].
    rewrite (upd_ne temps (next_copy (temps d)) _ d) by done. done.
Qed.

(** Each shape keeps the others linked. *)
Lemma linked_unchanged temps temps' t :
  linked temps t -> temps' t = temps t ->
  temps' (next_copy (temps t)) = temps (next_copy (temps t)) ->
  temps' (prev_copy (temps t)) = temps (prev_copy (temps t)) -> linked temps' t.
Proof. intros [] Ht Hn Hp. constructor; rewrite Ht, ?Hn, ?Hp; done. Qed.

Lemma reset_alone temps d t :
  rings temps -> in_temps s d = true -> in_temps s t = true -> t <> d ->
  state (temps d) <> TCG_TEMP_COPY \/ next_copy (temps d) = d ->
  state (temps t) = TCG_TEMP_COPY -> linked (reset_temp temps d) t.
Proof.
  intros Hr Hd Ht Hne Hs Hc. destruct (Hr t Ht Hc) as [? ? Hnc Hpc Hpn Hnp ?].
  assert (HA : forall x, x <> d -> reset_temp temps d x = temps x)
    by (intros x Hx; by apply reset_temp_other).
  apply (linked_unchanged temps); [by apply Hr|by apply HA|apply HA..].
  - intros Hn. rewrite Hn in *. destruct Hs as [Hs|Hs]; [done|].
    destruct (Hr d Hd Hnc). congruence.
  - intros Hp. rewrite Hp in *. destruct Hs as [Hs|Hs]; congruence.
Qed.

Lemma reset_pair temps d t :
  rings temps -> in_temps s d = true -> in_temps s t = true -> t <> d ->
  state (temps d) = TCG_TEMP_COPY -> next_copy (temps d) <> d ->
  prev_copy (temps d) = next_copy (temps d) -> t <> next_copy (temps d) ->
  state (temps t) = TCG_TEMP_COPY -> linked (reset_temp temps d) t.
Proof.
  intros Hr Hd Ht Hne Hdc Hdn Hdp Htn Hc.
  destruct (Hr t Ht Hc) as [? ? Hnc Hpc Hpn Hnp ?]. destruct (Hr d Hd Hdc) as [? ? ? ? Hdpn Hdnp ?].
  assert (HA : forall x, x <> d -> x <> next_copy (temps d) -> reset_temp temps d x = temps x).
  { intros x Hx Hx'. destruct (reset_temp_other temps d x Hr Hd Hx) as (_ & Hb & _).
    rewrite Hb by done. by destruct (Z.eqb_spec x (next_copy (temps d))). }
  apply (linked_unchanged temps); [by apply Hr|by apply HA|apply HA..]; congruence.
Qed.

Lemma reset_longer temps d t :
  rings temps -> in_temps s d = true -> in_temps s t = true -> t <> d ->
  state (temps d) = TCG_TEMP_COPY -> next_copy (temps d) <> d ->
  prev_copy (temps d) <> next_copy (temps d) ->
  state (temps t) = TCG_TEMP_COPY -> linked (reset_temp temps d) t.
Proof.
  intros Hr Hd Ht Hne Hdc Hdn Hdp Hc.
  destruct (Hr t Ht Hc) as [Htn Htp Hnc Hpc Hpn Hnp Hty].
  destruct (Hr d Hd Hdc) as [Hdn' Hdp' Hdnc Hdpc Hdpn Hdnp Hdty].
  remember (next_copy (temps d)) as n eqn:Hn. remember (prev_copy (temps d)) as p eqn:Hp.
  assert (HA : forall x, x <> d -> reset_temp temps d x
    = let i := if x =? n then set_prev_copy p (temps x) else temps x in
      if x =? p then set_next_copy n i else i).
  { intros x Hx. destruct (reset_temp_other temps d x Hr Hd Hx) as (_ & _ & Hb).
    rewrite <- Hn, <- Hp in Hb. by apply Hb. }
  assert (Hst : forall x, x <> d -> state (reset_temp temps d x) = state (temps x)).
  { intros x Hx. rewrite HA by done. cbv zeta. by destruct (x =? n), (x =? p). }
  assert (Hnx : forall x, x <> d ->
    next_copy (reset_temp temps d x) = if x =? p then n else next_copy (temps x)).
  { intros x Hx. rewrite HA by done. cbv zeta. by destruct (x =? n), (x =? p). }
  assert (Hpx : forall x, x <> d ->
    prev_copy (reset_temp temps d x) = if x =? n then p else prev_copy (temps x)).
  { intros x Hx. rewrite HA by done. cbv zeta. by destruct (x =? n), (x =? p). }
  assert (Hpd : p <> d) by congruence.
  assert (Hnn : next_copy (reset_temp temps d t) <> d).
  { rewrite Hnx by done. destruct (Z.eqb_spec t p); [done|]. congruence. }
  assert (Hpp : prev_copy (reset_temp temps d t) <> d).
  { rewrite Hpx by done. destruct (Z.eqb_spec t n); [done|]. congruence. }
  constructor.
  - rewrite Hnx by done. by destruct (Z.eqb_spec t p).
  - rewrite Hpx by done. by destruct (Z.eqb_spec t n).
  - rewrite Hst, Hnx by done. by destruct (Z.eqb_spec t p).
  - rewrite Hst, Hpx by done. by destruct (Z.eqb_spec t n).
  - rewrite Hpx, Hnx by done. destruct (Z.eqb_spec t p) as [->|Htp'].
    + by rewrite Z.eqb_refl.
    + destruct (Z.eqb_spec (next_copy (temps t)) n); congruence.
  - rewrite Hnx, Hpx by done. destruct (Z.eqb_spec t n) as [->|Htn'].
    + by rewrite Z.eqb_refl.
    + destruct (Z.eqb_spec (prev_copy (temps t)) p); congruence.
  - rewrite Hnx by done. destruct (Z.eqb_spec t p) as [->|]; [|done].
    rewrite <- Hty, Hdnp. done.
Qed.

Lemma reset_temp_rings temps d t :
  rings temps -> in_temps s d = true -> in_temps s t = true -> t <> d ->
  let temps' := reset_temp temps d in
  val (temps' t) = val (temps t) /\ mask (temps' t) = mask (temps t) /\
  (state (temps' t) = TCG_TEMP_CONST <-> state (temps t) = TCG_TEMP_CONST) /\
  (state (temps' t) = TCG_TEMP_COPY ->
   state (temps t) = TCG_TEMP_COPY /\ linked temps' t /\
   (next_copy (temps' t) = next_copy (temps t) \/
    next_copy (temps t) = d /\ state (temps d) = TCG_TEMP_COPY /\
    next_copy (temps' t) = next_copy (temps d))).
Proof.
  intros Hr Hd Ht Hne. cbv zeta.
  destruct (reset_temp_other temps d t Hr Hd Hne) as (HA & HB & HC).
  destruct (decide (state (temps d) = TCG_TEMP_COPY)) as [Hdc|Hdc];
    [destruct (decide (next_copy (temps d) = d)) as [Hdn|Hdn];
     [|destruct (decide (prev_copy (temps d) = next_copy (temps d))) as [Hdp|Hdp]]|].
  - rewrite HA by auto. split_and!; [done..|]. intros Hc. split_and!; [done| |by left].
    eapply reset_alone; eauto.
  - rewrite HB by done. destruct (Z.eqb_spec t (next_copy (temps d))) as [->|Hn]; simpl.
    + destruct (Hr d Hd Hdc) as [_ _ Hnc _ _ _ _]. split_and!; [done..| |done]. by rewrite Hnc.
    + split_and!; [done..|]. intros Hc. split_and!; [done| |by left]. by apply reset_pair.
  - pose proof (reset_longer temps d t Hr Hd Ht Hne Hdc Hdn Hdp) as HL.
    rewrite HC by done. cbv zeta. destruct (Hr d Hd Hdc) as [_ _ _ _ _ Hnp _].
    destruct (Z.eqb_spec t (next_copy (temps d))), (Z.eqb_spec t (prev_copy (temps d))); simpl;
      (split_and!; [done..|]); intros Hc; (split_and!; [done|by apply HL|]); try by left.
    all: right; subst t; done.
  - rewrite HA by auto. split_and!; [done..|]. intros Hc. split_and!; [done| |by left].
    eapply reset_alone; eauto.
Qed.

(** ** Walks *)

(** The [k]-th copy from [t] on. *)
Definition step_to (temps : temps_t) (k : nat) (t : Z) : Z :=
  Nat.iter k (fun i => next_copy (temps i)) t.

Lemma step_to_S temps k t : step_to temps (S k) t = step_to temps k (next_copy (temps t)).
Proof. unfold step_to. by rewrite Nat.iter_succ_r. Qed.

Lemma step_to_ring temps k t :
  rings temps -> in_temps s t = true -> state (temps t) = TCG_TEMP_COPY ->
  in_temps s (step_to temps k t) = true /\ state (temps (step_to temps k t)) = TCG_TEMP_COPY /\
  temp_type s (step_to temps k t) = temp_type s t.
Proof.
  intros Hr. revert t. induction k as [|k IH]; intros t Ht Hc; [done|].
  destruct (Hr t Ht Hc). rewrite step_to_S.
  destruct (IH (next_copy (temps t))) as (? & ? & ->); done.
Qed.

Lemma step_to_inj temps a b t :
  rings temps -> in_temps s t = true -> state (temps t) = TCG_TEMP_COPY -> (a <= b)%nat ->
  step_to temps a t = step_to temps b t -> step_to temps (b - a) t = t.
Proof.
  intros Hr Ht Hc. revert b. induction a as [|a IH]; intros b Hab Heq.
  - rewrite Nat.sub_0_r. done.
  - destruct b as [|b]; [lia|]. simpl. apply IH; [lia|].
    destruct (step_to_ring temps a t Hr Ht Hc) as (Hia & Hca & _).
    destruct (step_to_ring temps b t Hr Ht Hc) as (Hib & Hcb & _).
    destruct (Hr _ Hia Hca) as [_ _ _ _ Ha _ _]. destruct (Hr _ Hib Hcb) as [_ _ _ _ Hb _ _].
    unfold step_to in *. simpl in Heq. congruence.
Qed.

Lemma in_temps_seqZ t : in_temps s t = true <-> t ∈ seqZ 0 (nb_temps s).
Proof. unfold in_temps. rewrite elem_of_seqZ. rewrite andb_true_iff, Z.leb_le, Z.ltb_lt. lia. Qed.

(** A walk is back where it began within the number of variables. *)
Lemma ring_closes temps t :
  rings temps -> in_temps s t = true -> state (temps t) = TCG_TEMP_COPY ->
  ~ forall k, (k < ring_fuel s)%nat -> step_to temps (S k) t <> t.
Proof.
  intros Hr Ht Hc Hno.
  set (l := (fun k => step_to temps k t) <$> seq 0 (ring_fuel s)).
  assert (NoDup l) as Hnd.
  { apply NoDup_alt. intros i j x. unfold l. rewrite !list_lookup_fmap.
    destruct (seq 0 (ring_fuel s) !! i) as [i'|] eqn:Hi; [|done].
    destruct (seq 0 (ring_fuel s) !! j) as [j'|] eqn:Hj; [|done].
    apply lookup_seq in Hi as [-> Hi]. apply lookup_seq in Hj as [-> Hj]. simpl.
    intros [= <-] [= He]. destruct (Nat.lt_trichotomy i j) as [Hlt|[->|Hlt]]; [|done|].
    - destruct (Hno (j - i - 1)%nat); [lia|].
      replace (S (j - i - 1)) with (j - i)%nat by lia. apply step_to_inj; done || lia.
    - destruct (Hno (i - j - 1)%nat); [lia|].
      replace (S (i - j - 1)) with (i - j)%nat by lia. apply step_to_inj; done || lia. }
  assert (l ⊆+ seqZ 0 (nb_temps s)) as Hs%submseteq_length.
  { apply NoDup_submseteq; [done|]. intros x. unfold l. rewrite list_elem_of_fmap.
    intros (k & -> & _). apply in_temps_seqZ, step_to_ring; done. }
  unfold l in Hs. rewrite length_fmap, length_seq, length_seqZ in Hs. unfold ring_fuel in Hs. lia.
Qed.

Lemma ring_find_Ret fuel temps t p i r :
  ring_find fuel temps t p i = Ret r ->
  match r with
  | Some j => p j = true /\ exists k, j = step_to temps k i
  | None => exists n, step_to temps n i = t /\ forall k, (k < n)%nat -> p (step_to temps k i) = false
  end.
Proof.
  revert i. induction fuel as [|fuel IH]; intros i; simpl; [done|].
  destruct (Z.eqb_spec i t) as [->|Hi]; [intros [= <-]; by exists 0%nat; split; [|lia]|].
  destruct (p i) eqn:Hp.
  - intros [= <-]. split; [done|]. by exists 0%nat.
  - intros H%IH. destruct r as [j|].
    + destruct H as (? & k & ->). split; [done|]. exists (S k). by rewrite step_to_S.
    + destruct H as (n & Hn & Hk). exists (S n). split; [by rewrite step_to_S|].
      intros [|k] ?; [done|]. rewrite step_to_S. apply Hk. lia.
Qed.

(** Positions in a ring repeat. *)
Lemma step_to_mod temps n k t :
  step_to temps (S n) t = t -> step_to temps k t = step_to temps (k mod S n) t.
Proof.
  intros Hn. rewrite (Nat.div_mod_eq k (S n)) at 1. generalize (k / S n)%nat. intros q.
  induction q as [|q IH]; [by rewrite Nat.mul_0_r|].
  replace (S n * S q + k mod S n)%nat with ((S n * q + k mod S n) + S n)%nat by lia.
  unfold step_to in *. by rewrite Nat.iter_add, Hn.
Qed.

Lemma ring_find_total fuel temps t p i :
  (exists r, ring_find fuel temps t p i = Ret r) \/
  forall k, (k < fuel)%nat -> step_to temps k i <> t.
Proof.
  revert i. induction fuel as [|fuel IH]; intros i; simpl.
  - right. lia.
  - destruct (Z.eqb_spec i t) as [->|Hi]; [eauto|]. destruct (p i); [eauto|].
    destruct (IH (next_copy (temps i))) as [?|Hn]; [by left|right].
    intros [|k] Hk; [done|]. rewrite step_to_S. apply Hn. lia.
Qed.

(** Copies, as the walks find them. *)
Definition copies (temps : temps_t) (t j : Z) : Prop :=
  t = j \/ state (temps t) = TCG_TEMP_COPY /\ exists k, j = step_to temps k t.

(** On rings the walk ends, at a copy with the property if there is one. *)
Lemma ring_find_ok temps t p :
  rings temps -> in_temps s t = true -> state (temps t) = TCG_TEMP_COPY ->
  exists r, ring_find (ring_fuel s) temps t p (next_copy (temps t)) = Ret r /\
  match r with
  | Some j => p j = true /\ copies temps t j
  | None => forall j, copies temps t j -> j <> t -> p j = false
  end.
Proof.
  intros Hr Ht Hc.
  destruct (ring_find_total (ring_fuel s) temps t p (next_copy (temps t))) as [[r H]|Hn].
  - exists r. split; [done|]. apply ring_find_Ret in H. destruct r as [j|].
    + destruct H as (? & k & ->). split; [done|]. right. split; [done|]. exists (S k).
      by rewrite step_to_S.
    + destruct H as (n & Hn & Hk). rewrite <- step_to_S in Hn.
      intros j [->|(_ & k & ->)] Hne; [done|].
      rewrite (step_to_mod temps n k t Hn) in *.
      pose proof (Nat.mod_upper_bound k (S n)) as Hb.
      destruct (k mod S n)%nat as [|k']; [done|]. rewrite step_to_S. apply Hk. lia.
  - destruct (ring_closes temps t Hr Ht Hc). intros k Hk. rewrite step_to_S. by apply Hn.
Qed.

(** A global if the ring has one, a local temporary otherwise if it has one. *)
Definition best_copy (temps : temps_t) (t j : Z) : Prop :=
  copies temps t j /\
  (j < nb_globals s \/
   (forall i, copies temps t i -> nb_globals s <= i) /\
   (temp_local s j = true \/ j = t /\ forall i, copies temps t i -> temp_local s i = false)).

Lemma find_better_copy_ok temps t :
  rings temps -> in_temps s t = true -> state (temps t) = TCG_TEMP_COPY ->
  exists j, find_better_copy s temps t = Ret j /\ best_copy temps t j.
Proof.
  intros Hr Ht Hc. unfold find_better_copy, best_copy.
  destruct (Z.ltb_spec t (nb_globals s)) as [|Htg]; [exists t; by split; [|split; left]|].
  destruct (ring_find_ok temps t (fun i => i <? nb_globals s) Hr Ht Hc) as ([j|] & -> & Hj);
    cbn [mbind outcome_bind].
  { exists j. destruct Hj as [?%Z.ltb_lt ?]. split; [done|]. split; [done|by left]. }
  assert (forall i, copies temps t i -> nb_globals s <= i) as Hg.
  { intros i Hi. destruct (decide (i = t)) as [->|Hne]; [done|].
    specialize (Hj i Hi Hne). lia. }
  destruct (temp_local s t) eqn:Htl; [exists t; split; [done|]; split; [by left|by right; auto]|].
  destruct (ring_find_ok temps t (temp_local s) Hr Ht Hc) as ([j|] & -> & Hj'); cbn [mbind outcome_bind default].
  - exists j. destruct Hj'. split; [done|]. split; [done|by right; auto].
  - exists t. split; [done|]. split; [by left|]. right. split; [done|]. right. split; [done|].
    intros i Hi. destruct (decide (i = t)) as [->|Hne]; [done|]. by apply Hj'.
Qed.

Lemma temps_are_copies_ok temps t j :
  rings temps -> in_temps s t = true ->
  exists b, temps_are_copies s temps t j = Ret b /\ (b = true <-> copies temps t j).
Proof.
  intros Hr Ht. unfold temps_are_copies.
  destruct (Z.eqb_spec t j) as [->|Hne]; [exists true; by split; [|split; [left|]]|].
  destruct (is_copy temps t) eqn:Hc; cbn [negb orb].
  2: { exists false. split; [done|]. split; [done|]. intros [?|[Hs _]]; [done|].
       apply bool_decide_eq_false in Hc. done. }
  apply bool_decide_eq_true in Hc.
  destruct (is_copy temps j) eqn:Hcj; cbn [negb orb].
  2: { exists false. split; [done|]. split; [done|]. intros [?|(_ & k & ->)]; [done|].
       apply bool_decide_eq_false in Hcj. by destruct (step_to_ring temps k t Hr Ht Hc) as (_ & ? & _). }
  destruct (ring_find_ok temps t (fun i => i =? j) Hr Ht Hc) as ([i|] & -> & Hj);
    cbn [mbind outcome_bind].
  - exists true. split; [done|]. destruct Hj as [->%Z.eqb_eq ?]. done.
  - exists false. split; [done|]. split; [done|]. intros Hj'. specialize (Hj j Hj' (not_eq_sym Hne)). lia.
Qed.

Lemma temps_are_copies_cases temps t j :
  rings temps -> in_temps s t = true ->
  exists b, temps_are_copies s temps t j = Ret b /\ (if b then copies temps t j else t <> j).
Proof.
  intros Hr Ht. destruct (temps_are_copies_ok temps t j Hr Ht) as (b & ? & Hb). exists b.
  split; [done|]. destruct b; [by apply Hb|]. intros ->. by destruct Hb as [_ Hb]; discriminate Hb; left.
Qed.

Lemma copies_ring temps t j :
  rings temps -> in_temps s t = true -> copies temps t j ->
  in_temps s j = true /\ temp_type s j = temp_type s t.
Proof.
  intros Hr Ht [->|(Hc & k & ->)]; [done|].
  destruct (step_to_ring temps k t Hr Ht Hc) as (? & _ & ?). done.
Qed.

End Rings.

(** ** What the optimiser knows *)

(** The bits of [v] are among those of [m]. *)
Definition covers (m v : Z) : Prop :=
  forall i, 0 <= i -> Z.testbit v i = true -> Z.testbit m i = true.

Lemma covers_all_ones v : 0 <= v < 2 ^ 64 -> covers all_ones v.
Proof.
  intros Hv i Hi Hb. unfold all_ones. replace (2 ^ 64 - 1) with (Z.ones 64) by done.
  rewrite testbit_ones by lia. destruct (Z.ltb_spec i 64).
  - destruct (Z.leb_spec 0 i); done || lia.
  - rewrite (testbit_high 64 v) in Hb by (done || lia). done.
Qed.

Lemma value_64 w v : 0 <= v < 2 ^ wbits w -> 0 <= v < 2 ^ 64.
Proof. intros Hv. destruct w; cbn [wbits] in Hv; lia. Qed.

Section Inv.
Context (s : TCGContext).

(** What is recorded of a variable holds of its value, where that is defined;
    the high half of the mask of a 32-bit variable says nothing, except for a
    constant. *)
Record info_ok (temps : temps_t) (E : env) (t : Z) : Prop := {
  i_mask : 0 <= mask (temps t) < 2 ^ 64;
  i_const : state (temps t) = TCG_TEMP_CONST ->
    mask (temps t) = val (temps t) /\ E t = Some (low (temp_type s t) (val (temps t)));
  i_copy : state (temps t) = TCG_TEMP_COPY -> E (next_copy (temps t)) = E t;
  i_covers : forall v, E t = Some v -> covers (mask (temps t)) v;
  i_high : temp_type s t = W32 -> state (temps t) <> TCG_TEMP_CONST ->
    covers (mask (temps t)) high_ones;
}.

Record inv (temps : temps_t) (E : env) : Prop := {
  inv_env : env_ok s E;
  inv_rings : rings s temps;
  inv_info : forall t, in_temps s t = true -> info_ok temps E t;
}.

Lemma inv_step_to temps E k t :
  inv temps E -> in_temps s t = true -> state (temps t) = TCG_TEMP_COPY ->
  E (step_to temps k t) = E t.
Proof.
  intros [_ Hr Hi]. revert t. induction k as [|k IH]; intros t Ht Hc; [done|].
  destruct (Hr t Ht Hc). rewrite step_to_S, IH by done. by apply Hi.
Qed.

Lemma inv_copies temps E t j :
  inv temps E -> in_temps s t = true -> copies temps t j -> E j = E t.
Proof. intros Hi Ht [->|(Hc & k & ->)]; [done|]. by apply inv_step_to. Qed.

(** A change of [d] alone, after the others forgot it. *)
Lemma inv_set temps temps' E E' d :
  inv temps E -> in_temps s d = true ->
  (forall t, t <> d -> temps' t = reset_temp temps d t) ->
  state (temps' d) <> TCG_TEMP_COPY ->
  (forall t, t <> d -> E' t = E t) -> env_ok s E' -> info_ok temps' E' d -> inv temps' E'.
Proof.
  intros [He Hr Hi] Hd HA Hs HE He' Hid.
  assert (Hnd : forall t, state (reset_temp temps d t) = TCG_TEMP_COPY -> t <> d).
  { intros t Hc ->. destruct (reset_temp_self temps d). congruence. }
  constructor; [done|..].
  - intros t Ht Hc. assert (t <> d) as Hne by congruence.
    pose proof Hc as Hc'. rewrite HA in Hc' by done.
    destruct (reset_temp_rings s temps d t Hr Hd Ht Hne) as (_ & _ & _ & H).
    destruct (H Hc') as (_ & Hl & _).
    apply (linked_unchanged s (reset_temp temps d)); [done|by apply HA|..]; apply HA, Hnd; by destruct Hl.
  - intros t Ht. destruct (decide (t = d)) as [->|Hne]; [done|].
    destruct (reset_temp_rings s temps d t Hr Hd Ht Hne) as (Hv & Hm & Hco & Hcp).
    destruct (Hi t Ht) as [i2 i3 i4 i5 i6].
    constructor; rewrite ?HA, ?(HE t), ?Hv, ?Hm by done; try done.
    + intros Hc%Hco. by apply i3.
    + intros Hc. destruct (Hcp Hc) as (Hc0 & Hl & Hn). rewrite HE by (apply Hnd; exact (l_next_copy _ _ _ Hl)).
      destruct Hn as [->|(Hnd' & Hdc & ->)]; [by apply i4|].
      rewrite (i_copy temps E d (Hi d Hd) Hdc). rewrite <- (i4 Hc0). congruence.
    + intros Hty Hc. apply i6; [done|]. by rewrite <- Hco.
Qed.

Lemma high_ones_range : 0 <= high_ones < 2 ^ 64.
Proof. unfold high_ones, all_ones. lia. Qed.

Lemma all_ones_range : 0 <= all_ones < 2 ^ 64.
Proof. unfold all_ones. lia. Qed.

Lemma env_ok_64 E t v : env_ok s E -> E t = Some v -> 0 <= v < 2 ^ 64.
Proof. intros He Hv%He. by eapply value_64. Qed.

(** A reset, then a mask. *)
Lemma inv_reset_mask temps E E' d m :
  inv temps E -> in_temps s d = true -> (forall t, t <> d -> E' t = E t) -> env_ok s E' ->
  0 <= m < 2 ^ 64 -> (forall v, E' d = Some v -> covers m v) ->
  (temp_type s d = W32 -> covers m high_ones) ->
  inv (upd (reset_temp temps d) d (set_mask m)) E'.
Proof.
  intros Hi Hd HE He' Hm Hc Hh.
  destruct (reset_temp_self temps d) as [Hs _].
  apply (inv_set temps _ E _ d); [done..|intros; by rewrite upd_ne| |done|done|].
  - rewrite upd_eq. simpl. congruence.
  - constructor; rewrite ?upd_eq; simpl; rewrite ?Hs; try done. by intros ? _; auto.
Qed.

Lemma inv_reset temps E E' d :
  inv temps E -> in_temps s d = true -> (forall t, t <> d -> E' t = E t) -> env_ok s E' ->
  inv (reset_temp temps d) E'.
Proof.
  intros Hi Hd HE He'.
  assert (inv (upd (reset_temp temps d) d (set_mask all_ones)) E') as Hi'.
  { apply (inv_reset_mask temps E); try done.
    - intros v Hv. apply covers_all_ones. by eapply env_ok_64.
    - intros _. apply covers_all_ones, high_ones_range. }
  assert (Heq : forall t, upd (reset_temp temps d) d (set_mask all_ones) t = reset_temp temps d t).
  { intros t. unfold upd at 1. destruct (Z.eqb_spec t d) as [->|]; [|done].
    unfold reset_temp. by rewrite !upd_eq. }
  destruct Hi' as [_ Hr Hinf]. constructor; [done|..].
  - intros t Ht Hc. rewrite <- Heq in Hc. eapply linked_unchanged; [by apply Hr|symmetry; apply Heq..].
  - intros t Ht. destruct (Hinf t Ht). constructor; rewrite <- ?Heq; done.
Qed.

Lemma inv_reset_all temps E : env_ok s E -> inv (reset_all_temps s temps) E.
Proof.
  intros He.
  assert (HA : forall t, in_temps s t = true -> reset_all_temps s temps t
    = set_mask all_ones (set_state TCG_TEMP_UNDEF (temps t))).
  { intros t Ht. unfold reset_all_temps. by rewrite Ht. }
  constructor; [done|intros t Ht; by rewrite HA|]. intros t Ht.
  constructor; rewrite ?HA by done; simpl; try done.
  - intros v Hv. apply covers_all_ones. by eapply env_ok_64.
  - intros _ _. apply covers_all_ones, high_ones_range.
Qed.

(** ** Moves *)

Lemma inv_gen_movi temps E E' old_op d v w :
  inv temps E -> in_temps s d = true -> op_bits old_op = wbits w -> temp_type s d = w ->
  0 <= v < 2 ^ 64 -> (forall t, t <> d -> E' t = E t) -> E' d = Some (low w v) ->
  inv (tcg_opt_gen_movi temps old_op d v).1 E' /\
  (tcg_opt_gen_movi temps old_op d v).2 = mk_op (INDEX_op_movi w) [d; v] 0 0.
Proof.
  intros Hi Hd Ho Hty Hv HE Hx. unfold tcg_opt_gen_movi, op_to_movi. rewrite Ho. simpl.
  split; [|by destruct w]. rewrite bool_decide_eq_false_2 by (by destruct w).
  assert (env_ok s E').
  { intros t x Hx'. destruct (decide (t = d)) as [->|Hne].
    - rewrite Hx in Hx'. injection Hx' as <-. rewrite Hty. apply low_range.
    - rewrite HE in Hx' by done. by apply (inv_env temps E Hi). }
  apply (inv_set temps _ E _ d); [done|done|intros; by rewrite !upd_ne| |done|done|].
  - by rewrite !upd_eq.
  - constructor; rewrite !upd_eq; simpl; try done.
    + intros _. by rewrite Hty.
    + rewrite Hx. intros x [= <-] i Hi0 Hb. rewrite testbit_low in Hb.
      by apply andb_true_iff in Hb as [_ ?].
Qed.

(** [d], so far without copies, enters the ring of [src] after it. *)
Definition ring_insert (temps : temps_t) (d src : Z) : temps_t :=
  let temps := upd temps d (set_state TCG_TEMP_COPY) in
  let temps := upd temps d (set_next_copy (next_copy (temps src))) in
  let temps := upd temps d (set_prev_copy src) in
  let temps := upd temps (next_copy (temps d)) (set_prev_copy d) in
  upd temps src (set_next_copy d).

Lemma ring_insert_at temps d src t :
  d <> src -> next_copy (temps src) <> d ->
  ring_insert temps d src t
    = if t =? d then mk_info TCG_TEMP_COPY src (next_copy (temps src)) (val (temps d)) (mask (temps d))
      else let i := if t =? next_copy (temps src) then set_prev_copy d (temps t) else temps t in
           if t =? src then set_next_copy d i else i.
Proof.
  intros Hne Hnd. unfold ring_insert. cbv zeta.
  assert (H1 : forall f, upd temps d f src = temps src) by (intros; apply upd_ne; congruence).
  rewrite H1. rewrite !upd_eq. simpl.
  unfold upd. destruct (Z.eqb_spec t d) as [->|Htd].
  - destruct (Z.eqb_spec d src); [congruence|].
    by destruct (Z.eqb_spec d (next_copy (temps src))).
  - done.
Qed.

Section Insert.
Context (temps : temps_t) (d src : Z).
Hypothesis (Hr : rings s temps) (Hd : in_temps s d = true) (Hsrc : in_temps s src = true).
Hypothesis (Hne : d <> src) (Hds : state (temps d) = TCG_TEMP_UNDEF).
Hypothesis (Hss : state (temps src) = TCG_TEMP_COPY) (Hty : temp_type s d = temp_type s src).

#[local] Abbreviation nx := (next_copy (temps src)).
#[local] Abbreviation temps' := (ring_insert temps d src).

Lemma insert_next_ne : nx <> d.
Proof. intros Hn. destruct (Hr src Hsrc Hss). congruence. Qed.

Lemma insert_next t :
  next_copy (temps' t) = if t =? d then nx else if t =? src then d else next_copy (temps t).
Proof.
  rewrite ring_insert_at by (done || apply insert_next_ne). cbv zeta.
  by destruct (t =? d), (t =? nx), (t =? src).
Qed.

Lemma insert_prev t :
  prev_copy (temps' t) = if t =? d then src else if t =? nx then d else prev_copy (temps t).
Proof.
  rewrite ring_insert_at by (done || apply insert_next_ne). cbv zeta.
  by destruct (t =? d), (t =? nx), (t =? src).
Qed.

Lemma insert_state t : state (temps' t) = if t =? d then TCG_TEMP_COPY else state (temps t).
Proof.
  rewrite ring_insert_at by (done || apply insert_next_ne). cbv zeta.
  by destruct (t =? d), (t =? nx), (t =? src).
Qed.

Lemma insert_data t : val (temps' t) = val (temps t) /\ mask (temps' t) = mask (temps t).
Proof.
  rewrite ring_insert_at by (done || apply insert_next_ne). cbv zeta.
  destruct (Z.eqb_spec t d) as [->|]; [done|]. by destruct (t =? nx), (t =? src).
Qed.

Lemma insert_copy t :
  t = d \/ t <> d /\ in_temps s t = true /\ state (temps t) = TCG_TEMP_COPY ->
  state (temps' t) = TCG_TEMP_COPY.
Proof.
  rewrite insert_state. destruct (Z.eqb_spec t d); naive_solver.
Qed.

Lemma insert_rings : rings s temps'.
Proof.
  destruct (Hr src Hsrc Hss) as [Hn Hp Hnc Hpc Hpn Hnp Hnt]. pose proof insert_next_ne as Hnd.
  intros t Ht Hc. rewrite insert_state in Hc.
  destruct (Z.eqb_spec t d) as [->|Htd].
  - constructor; rewrite ?insert_next, ?insert_prev, ?insert_state, ?Z.eqb_refl;
      rewrite ?insert_next, ?insert_prev, ?insert_state, ?Z.eqb_refl; try done.
    + by destruct (Z.eqb_spec nx d).
    + by destruct (Z.eqb_spec src d).
    + by destruct (Z.eqb_spec nx d).
    + by destruct (Z.eqb_spec src d); [congruence|].
    + congruence.
  - destruct (Hr t Ht Hc) as [Htn Htp Htnc Htpc Htpn Htnp Htt].
    assert (next_copy (temps t) <> d) by congruence. assert (prev_copy (temps t) <> d) by congruence.
    assert (Hnx : next_copy (temps' t) = if t =? src then d else next_copy (temps t)).
    { rewrite insert_next. by destruct (Z.eqb_spec t d). }
    assert (Hpx : prev_copy (temps' t) = if t =? nx then d else prev_copy (temps t)).
    { rewrite insert_prev. by destruct (Z.eqb_spec t d). }
    constructor; rewrite ?Hnx, ?Hpx.
    + by destruct (t =? src).
    + by destruct (t =? nx).
    + apply insert_copy. destruct (t =? src); auto.
    + apply insert_copy. destruct (t =? nx); auto.
    + rewrite insert_prev. destruct (Z.eqb_spec t src) as [->|]; [by rewrite Z.eqb_refl|].
      destruct (Z.eqb_spec (next_copy (temps t)) d); [done|].
      destruct (Z.eqb_spec (next_copy (temps t)) nx); congruence.
    + rewrite insert_next. destruct (Z.eqb_spec t nx) as [->|]; [by rewrite Z.eqb_refl|].
      destruct (Z.eqb_spec (prev_copy (temps t)) d); [done|].
      destruct (Z.eqb_spec (prev_copy (temps t)) src); congruence.
    + destruct (Z.eqb_spec t src) as [->|]; congruence.
Qed.

Lemma insert_inv E : inv temps E -> E d = E src -> inv temps' E.
Proof.
  intros [He _ Hi] HE. constructor; [done|apply insert_rings|]. intros t Ht.
  destruct (Hi t Ht) as [i2 i3 i4 i5 i6]. destruct (insert_data t) as [Hv Hm].
  constructor; rewrite ?Hv, ?Hm, ?insert_state; try done.
  - destruct (t =? d); [done|]. apply i3.
  - rewrite insert_next. destruct (Z.eqb_spec t d) as [->|]; intros Hc.
    + rewrite HE. by apply (Hi src).
    + destruct (Z.eqb_spec t src) as [->|]; [done|]. by apply i4.
  - destruct (Z.eqb_spec t d) as [->|]; [|done]. intros Hw _. apply i6; [done|congruence].
Qed.
End Insert.

(** A variable without copies that becomes a ring of its own. *)
Lemma inv_self temps E src :
  inv temps E -> in_temps s src = true -> state (temps src) = TCG_TEMP_UNDEF ->
  inv (upd (upd (upd temps src (set_state TCG_TEMP_COPY)) src (set_next_copy src))
            src (set_prev_copy src)) E.
Proof.
  intros [He Hr Hi] Hs Hu. set (temps' := upd _ src (set_prev_copy src)).
  assert (HA : forall t, t <> src -> temps' t = temps t)
    by (intros; unfold temps'; by rewrite !upd_ne).
  assert (HS : temps' src = mk_info TCG_TEMP_COPY src src (val (temps src)) (mask (temps src)))
    by (unfold temps'; by rewrite !upd_eq).
  constructor; [done|..].
  - intros t Ht Hc. destruct (decide (t = src)) as [->|Hne].
    + constructor; rewrite !HS; simpl; rewrite ?HS; done.
    + rewrite HA in Hc by done. destruct (Hr t Ht Hc) as [? ? Hnc Hpc].
      apply (linked_unchanged s temps); [by apply Hr|by apply HA|apply HA; congruence..].
  - intros t Ht. destruct (decide (t = src)) as [->|Hne].
    + destruct (Hi src Hs) as [i2 i3 i4 i5 i6].
      constructor; rewrite HS; simpl; try done. intros Hw _. apply i6; [done|congruence].
    + destruct (Hi t Ht). constructor; rewrite HA by done; done.
Qed.

Lemma covers_low m w v : covers m v -> covers m (low w v).
Proof. intros Hc i Hi Hb. rewrite testbit_low in Hb. apply andb_true_iff in Hb as [_ ?]. auto. Qed.

Lemma covers_lor_l m m' v : covers m v -> covers (m ||| m') v.
Proof. intros Hc i Hi Hb. by rewrite Z.lor_spec, (Hc i Hi Hb). Qed.

Lemma covers_lor_r m m' : covers (m ||| m') m'.
Proof. intros i Hi Hb. by rewrite Z.lor_spec, Hb, orb_true_r. Qed.

Lemma rd_Some E w t x :
  rd s E w t = Some x <->
  exists v, E t = Some v /\ wbits w <= wbits (temp_type s t) /\ x = low w v.
Proof.
  unfold rd. destruct (E t) as [v|]; simpl; [|naive_solver].
  destruct (Z.leb_spec (wbits w) (wbits (temp_type s t))); naive_solver lia.
Qed.

(** A read at the type of the variable. *)
Lemma rd_type E w t : env_ok s E -> temp_type s t = w -> rd s E w t = E t.
Proof.
  intros He <-. unfold rd. destruct (E t) as [v|] eqn:Hv; [|done]. simpl.
  rewrite Z.leb_refl, low_small by (by apply He). done.
Qed.

Lemma inv_gen_mov temps E E' old_op d src w :
  inv temps E -> in_temps s d = true -> in_temps s src = true -> d <> src ->
  state (temps src) <> TCG_TEMP_CONST -> op_bits old_op = wbits w -> temp_type s d = w ->
  (forall t, t <> d -> E' t = E t) -> E' d = rd s E w src ->
  exists temps', tcg_opt_gen_mov s temps old_op d src
                   = Ret (temps', mk_op (INDEX_op_mov w) [d; src] 0 0) /\ inv temps' E'.
Proof.
  intros Hi Hd Hsrc Hne Hnc Ho Hty HE HEd.
  assert (Hop : op_to_mov old_op = INDEX_op_mov w) by (unfold op_to_mov; rewrite Ho; by destruct w).
  unfold tcg_opt_gen_mov. rewrite Hop. cbv zeta.
  destruct (reset_temp_rings s temps d src (inv_rings _ _ Hi) Hd Hsrc ltac:(done))
    as (_ & Hms & Hcs & _).
  rewrite Hms. set (m := if bool_decide (INDEX_op_mov w = INDEX_op_mov W32) then _ else _).
  set (temps1 := upd (reset_temp temps d) d (set_mask m)).
  assert (He' : env_ok s E').
  { intros t v Hv. destruct (decide (t = d)) as [->|Hnd].
    - rewrite HEd in Hv. apply rd_Some in Hv as (x & _ & _ & ->). rewrite Hty. apply low_range.
    - rewrite HE in Hv by done. by apply (inv_env temps E Hi). }
  assert (Hcov : forall v, E' d = Some v -> covers m v).
  { intros v Hv. rewrite HEd in Hv. apply rd_Some in Hv as (x & Hx & _ & ->).
    apply covers_low. pose proof (i_covers _ _ _ (inv_info _ _ Hi src Hsrc) x Hx).
    unfold m. case_bool_decide; [by apply covers_lor_l|done]. }
  assert (Hm : 0 <= m < 2 ^ 64).
  { pose proof (i_mask _ _ _ (inv_info _ _ Hi src Hsrc)). unfold m. case_bool_decide; [|done].
    apply lor_range; [lia|done|apply high_ones_range]. }
  assert (inv temps1 E') as Hi1.
  { apply (inv_reset_mask temps E); try done. intros Hw. unfold m.
    rewrite bool_decide_eq_true_2 by congruence. apply covers_lor_r. }
  assert (H1s : temps1 src = reset_temp temps d src) by (unfold temps1; by rewrite upd_ne).
  assert (H1d : state (temps1 d) = TCG_TEMP_UNDEF).
  { unfold temps1. rewrite upd_eq. apply reset_temp_self. }
  assert (Hn1 : state (temps1 src) <> TCG_TEMP_CONST) by (rewrite H1s; naive_solver).
  unfold is_const. rewrite bool_decide_eq_false_2 by done.
  eexists. split; [done|]. case_bool_decide as Hts; [|done].
  unfold is_copy. case_bool_decide as Hc1; cbn [negb].
  - apply insert_inv; try done; [by apply Hi1|]. rewrite HEd, HE by done.
    apply rd_type; [by apply Hi|congruence].
  - assert (Hu : state (temps1 src) = TCG_TEMP_UNDEF) by (destruct (state (temps1 src)); done).
    pose proof (inv_self temps1 E' src Hi1 Hsrc Hu) as Hi2.
    apply insert_inv; try done; [by apply Hi2|by rewrite !upd_ne|by rewrite !upd_eq|].
    rewrite HEd, HE by done. apply rd_type; [by apply Hi|congruence].
Qed.

End Inv.
