(* ===== verification/TcgFold.v ===== *)
(** * Constant folding in TCG

    The folding of constants by the optimiser (src/tcg/optimize.c) against
    the results of the instruction reference, and against the arithmetic of
    the interpreter (src/tci.c). *)

From S2P Require Import Prelude HostUtils BitField TcgOp TcgOpt TcgSem.

(** ** Arithmetic *)

Lemma land_ffffffff x : x &&& 0xffffffff = u32 x.
Proof. rewrite wrap_land by lia. done. Qed.

Lemma mask_31 y : y &&& 31 = wrap 5 y.
Proof. rewrite wrap_land by lia. done. Qed.

Lemma mask_63 y : y &&& 63 = wrap 6 y.
Proof. rewrite wrap_land by lia. done. Qed.

Lemma low_32 x : low W32 x = u32 x.
Proof. done. Qed.

(** A shift count in range is what the masks leave of it. *)
Lemma count_31 y : 0 <= u32 y < 32 -> y &&& 31 = u32 y.
Proof.
  intros Hy. rewrite mask_31, <- (wrap_wrap_le 5 32) by lia. by apply wrap_small.
Qed.

Lemma count_63 y : 0 <= y < 64 -> y &&& 63 = y.
Proof. intros Hy. rewrite mask_63. by apply wrap_small. Qed.

Lemma low_arith w x y :
  low w (u64 (x + y)) = low w (low w x + low w y) /\
  low w (u64 (x - y)) = low w (low w x - low w y) /\
  low w (u64 (x * y)) = low w (low w x * low w y).
Proof. by rewrite !low_u64, low_add, low_sub, low_mul. Qed.

Lemma low_ldiff w x y : low w (x &&& u64 (Z.lnot y)) = Z.ldiff (low w x) (low w y).
Proof.
  bits_ext i Hi. destruct (wbits_cases w) as [Hw|Hw]; rewrite Hw;
    destruct (Z.ltb_spec i 32), (Z.ltb_spec i 64); try lia;
    destruct (Z.leb_spec 0 i); try lia; cbn [andb]; by rewrite ?andb_false_r.
Qed.

Lemma low_logic w x y :
  low w (x ||| u64 (Z.lnot y)) = low w (low w x ||| Z.lnot (low w y)) /\
  low w (u64 (Z.lnot (x ^^^ y))) = low w (Z.lnot (low w x ^^^ low w y)) /\
  low w (u64 (Z.lnot (x &&& y))) = low w (Z.lnot (low w x &&& low w y)) /\
  low w (u64 (Z.lnot (x ||| y))) = low w (Z.lnot (low w x ||| low w y)).
Proof.
  split_and!; bits_ext i Hi; destruct (wbits_cases w) as [Hw|Hw]; rewrite Hw;
    destruct (Z.ltb_spec i 32), (Z.ltb_spec i 64); try lia;
    destruct (Z.leb_spec 0 i); try lia; done.
Qed.

(** Quotients and remainders of signed numbers. *)
Lemma slow_zero w x : slow w x =? 0 = (low w x =? 0).
Proof.
  unfold slow, sext. pose proof (low_range w x). fold (low w x).
  assert (2 ^ (wbits w - 1) > 0 /\ 2 ^ wbits w = 2 * 2 ^ (wbits w - 1)) as [] by (by destruct w).
  destruct (Z.ltb_spec (low w x) (2 ^ (wbits w - 1))), (Z.eqb_spec (low w x) 0); lia.
Qed.

Lemma slow_least w x : slow w x =? - 2 ^ (wbits w - 1) = (low w x =? 2 ^ (wbits w - 1)).
Proof.
  unfold slow, sext. pose proof (low_range w x). fold (low w x).
  assert (2 ^ (wbits w - 1) > 0 /\ 2 ^ wbits w = 2 * 2 ^ (wbits w - 1)) as [] by (by destruct w).
  destruct (Z.ltb_spec (low w x) (2 ^ (wbits w - 1))), (Z.eqb_spec (low w x) (2 ^ (wbits w - 1))); lia.
Qed.

Lemma slow_minus_one w x : slow w x =? -1 = (low w x =? 2 ^ wbits w - 1).
Proof.
  unfold slow, sext. pose proof (low_range w x). fold (low w x).
  assert (2 ^ (wbits w - 1) > 0 /\ 2 ^ wbits w = 2 * 2 ^ (wbits w - 1)) as [] by (by destruct w).
  destruct (Z.ltb_spec (low w x) (2 ^ (wbits w - 1))), (Z.eqb_spec (low w x) (2 ^ wbits w - 1)); lia.
Qed.

Lemma shiftr_range w x k : 0 <= w -> 0 <= k -> 0 <= x < 2 ^ w -> 0 <= x >> k < 2 ^ w.
Proof.
  intros Hw Hk Hx. assert (0 <= x >> k) by (apply Z.shiftr_nonneg; lia). split; [done|].
  rewrite Z.shiftr_div_pow2 by done. assert (0 < 2 ^ k) by (apply Z.pow_pos_nonneg; lia).
  apply Z.div_lt_upper_bound; [done|]. nia.
Qed.

Lemma u64_range x : 0 <= u64 x < 2 ^ 64.
Proof. apply wrap_range. lia. Qed.

Lemma u32_range x : 0 <= u32 x < 2 ^ 64.
Proof. pose proof (wrap_range 32 x ltac:(lia)). lia. Qed.

Lemma rot_range w x k r :
  (w = 32 \/ w = 64) -> 0 <= x < 2 ^ w ->
  (a ← cshl w x k; b ← cshr w x (w - k); Ret (a ||| b)) = Ret r \/
  (a ← cshr w x k; b ← cshl w x (w - k); Ret (a ||| b)) = Ret r -> 0 <= r < 2 ^ w.
Proof.
  intros Hw Hx. unfold cshl, cshr.
  destruct ((0 <=? k) && (k <? w)) eqn:Hk, ((0 <=? w - k) && (w - k <? w)) eqn:Hk';
    cbn [mbind outcome_bind]; try (by intros [?|?]). zbool.
  intros [[= <-]|[= <-]]; apply lor_range; try lia;
    first [apply wrap_range; lia | apply shiftr_range; lia].
Qed.

Lemma cdivu_range x y r : 0 <= x < 2 ^ 64 -> 0 <= y -> cdivu x y = Ret r -> 0 <= r < 2 ^ 64.
Proof.
  unfold cdivu. intros Hx Hy. destruct (Z.eqb_spec y 0); [done|]. intros [= <-].
  split; [apply Z.div_pos; lia|]. apply Z.div_lt_upper_bound; nia.
Qed.

Lemma cremu_range x y r : 0 <= x < 2 ^ 64 -> 0 <= y -> cremu x y = Ret r -> 0 <= r < 2 ^ 64.
Proof.
  unfold cremu. intros Hx Hy. destruct (Z.eqb_spec y 0); [done|]. intros [= <-].
  pose proof (Z.mod_pos_bound x y). pose proof (Z.mod_le x y). lia.
Qed.

Lemma muluh_range n x y : 0 <= n -> 0 <= x < 2 ^ n -> 0 <= y < 2 ^ n -> 0 <= (x * y) >> n < 2 ^ n.
Proof.
  intros Hn Hx Hy. split; [apply Z.shiftr_nonneg; nia|]. rewrite Z.shiftr_div_pow2 by done.
  apply Z.div_lt_upper_bound; nia.
Qed.

(** What is folded is a [TCGArg]. *)
Lemma folding_2_range op x y r :
  0 <= x < 2 ^ 64 -> 0 <= y < 2 ^ 64 -> do_constant_folding_2 op x y = Ret r -> 0 <= r < 2 ^ 64.
Proof.
  intros Hx Hy. pose proof (u32_range x) as Hx32. pose proof (u32_range y) as Hy32.
  pose proof (wrap_range 5 y ltac:(lia)). pose proof (wrap_range 6 y ltac:(lia)).
  pose proof (wrap_range 32 x ltac:(lia)) as Hx'. pose proof (wrap_range 32 y ltac:(lia)) as Hy'.
  assert (forall z : outcome Z, (q ← z; Ret (u64 q)) = Ret r -> 0 <= r < 2 ^ 64) as Hq.
  { intros z (q & _ & [= <-])%bind_Ret. apply u64_range. }
  destruct op as [| | |w|w|w|w|w|w| |b w|u w|w|w|w|w|w|w| | | |w| | |name def]; try done;
    [destruct b, w|destruct u|]; cbn [do_constant_folding_2]; rewrite ?mask_31, ?mask_63;
    try (intros [= <-]);
    try first [ apply u64_range | apply u32_range | by apply land_range_l; lia
              | by apply lor_range, u64_range; lia | by apply lor_range; lia
              | by apply lxor_range; lia | by apply shiftr_range; lia | by eapply Hq ].
  - intros Hr. pose proof (rot_range 32 (u32 x) (wrap 5 y) r ltac:(auto) Hx' (or_introl Hr)). lia.
  - intros Hr. apply (rot_range 64 x (wrap 6 y) r ltac:(auto) Hx (or_introl Hr)).
  - intros Hr. pose proof (rot_range 32 (u32 x) (wrap 5 y) r ltac:(auto) Hx' (or_intror Hr)). lia.
  - intros Hr. apply (rot_range 64 x (wrap 6 y) r ltac:(auto) Hx (or_intror Hr)).
  - pose proof (muluh_range 32 (u32 x) (u32 y) ltac:(lia) Hx' Hy'). lia.
  - apply cdivu_range; [done|]. destruct (u32 y =? 0); lia.
  - apply cdivu_range; [done|]. destruct (y =? 0); lia.
  - apply cremu_range; [done|]. destruct (u32 y =? 0); lia.
  - apply cremu_range; [done|]. destruct (y =? 0); lia.
  - pose proof (wrap_range 8 x ltac:(lia)). lia.
  - pose proof (wrap_range 16 x ltac:(lia)). lia.
Qed.

(** The count of a defined shift is not masked. *)
Lemma count_ok w y :
  0 <= y < 2 ^ 64 -> low w y < wbits w ->
  y &&& (wbits w - 1) = low w y /\ 0 <= low w y.
Proof.
  intros Hy Hlt. pose proof (low_range w y). split; [|lia]. destruct w.
  - apply count_31. unfold low in *. cbn [wbits] in *. lia.
  - unfold low in *. cbn [wbits] in *. rewrite (wrap_small 64 y) in * by done.
    apply count_63. lia.
Qed.

Lemma low_W64 x : 0 <= x < 2 ^ 64 -> low W64 x = x.
Proof. apply (low_small W64). Qed.

Lemma folding_2_shift b w x y r :
  b ∈ [op_shl; op_shr; op_sar; op_rotl; op_rotr] -> 0 <= x < 2 ^ 64 -> 0 <= y < 2 ^ 64 ->
  do_constant_folding_2 (INDEX_op_bin b w) x y = Ret r -> low w y < wbits w ->
  low w r = low w (sem_bin b w (low w x) (low w y)).
Proof.
  intros Hb Hx Hy Hr Hlt. destruct (count_ok w y Hy Hlt) as [Hk Hk0].
  assert (Hm : y &&& match w with W32 => 31 | W64 => 63 end = low w y) by (by destruct w).
  assert (Hrot : low w y = 0 \/ 0 < low w y < wbits w) by lia.
  rewrite !list_elem_of_In in Hb. simpl in Hb. destruct_or? Hb; subst b; try done;
    destruct w; cbn [do_constant_folding_2 sem_bin] in *; rewrite Hm in Hr;
    rewrite ?low_low, ?(low_W64 x) by done; change (wbits W32) with 32 in *;
    change (wbits W64) with 64 in *.
  all: try (injection Hr as <-).
  - unfold low. cbn [wbits]. by rewrite wrap_wrap.
  - unfold low. cbn [wbits]. by rewrite wrap_wrap.
  - done.
  - done.
  - rewrite low_u64. unfold slow, low. cbn [wbits]. by rewrite sext_wrap_le by lia.
  - by rewrite low_u64.
  - destruct Hrot as [H0|H0]; [by rewrite H0 in Hr|].
    destruct (rotate_ok (u32 x) (low W32 y) H0) as [Hl _]. rewrite Hl in Hr. by injection Hr as <-.
  - destruct Hrot as [H0|H0]; [by rewrite H0 in Hr|].
    destruct (rotate64_ok x (low W64 y) H0) as [Hl _]. rewrite Hl in Hr. by injection Hr as <-.
  - destruct Hrot as [H0|H0]; [by rewrite H0 in Hr|].
    destruct (rotate_ok (u32 x) (low W32 y) H0) as [_ Hl]. rewrite Hl in Hr. by injection Hr as <-.
  - destruct Hrot as [H0|H0]; [by rewrite H0 in Hr|].
    destruct (rotate64_ok x (low W64 y) H0) as [_ Hl]. rewrite Hl in Hr. by injection Hr as <-.
Qed.

(** Signed divisions of either width. *)
Lemma cdiv_fold w x y :
  bin_defined op_div w (low w x) (low w y) = true ->
  let d := if slow w y =? 0 then 1 else slow w y in
  cdiv (wbits w) (slow w x) d = Ret (Z.quot (slow w x) (slow w y)) /\
  crem (wbits w) (slow w x) d = Ret (Z.rem (slow w x) (slow w y)).
Proof.
  cbn [bin_defined]. intros Hd. cbv zeta. unfold cdiv, crem.
  rewrite <- (slow_zero w y), <- slow_least, <- slow_minus_one in Hd.
  destruct (slow w y =? 0) eqn:H0; [done|]. rewrite H0. cbn [orb]. cbn [negb andb] in Hd.
  apply negb_true_iff in Hd. by rewrite Hd.
Qed.

Lemma folding_2_div b w x y r :
  b ∈ [op_div; op_divu; op_rem; op_remu] -> 0 <= x < 2 ^ 64 -> 0 <= y < 2 ^ 64 ->
  do_constant_folding_2 (INDEX_op_bin b w) x y = Ret r ->
  bin_defined b w (low w x) (low w y) = true ->
  low w r = low w (sem_bin b w (low w x) (low w y)).
Proof.
  intros Hb Hx Hy Hr Hd. pose proof (slow_low w x) as Hsx. pose proof (slow_low w y) as Hsy.
  rewrite !list_elem_of_In in Hb. simpl in Hb. destruct_or? Hb; subst b; try done;
    cbn [sem_bin]; rewrite ?low_low, ?Hsx, ?Hsy.
  1, 3: destruct (cdiv_fold w x y Hd) as [Hq Hm]; destruct w;
    cbn [do_constant_folding_2] in Hr; apply bind_Ret in Hr as (q & Hq' & [= <-]);
    rewrite low_u64; f_equal;
    first [change (cdiv 32 (s32 x) (if s32 y =? 0 then 1 else s32 y)) with
            (cdiv (wbits W32) (slow W32 x) (if slow W32 y =? 0 then 1 else slow W32 y)) in Hq'
          | idtac]; unfold slow in *; cbn [wbits] in *; congruence.
  all: cbn [bin_defined] in Hd; apply negb_true_iff in Hd; destruct w;
    cbn [do_constant_folding_2] in Hr; rewrite ?(low_W64 x), ?(low_W64 y) in * by done;
    rewrite ?low_32 in *; rewrite Hd in Hr; unfold cdivu, cremu in Hr; rewrite Hd in Hr;
    by injection Hr as <-.
Qed.

Lemma folding_2_bin b w x y r :
  wf_opcode (INDEX_op_bin b w) = true -> 0 <= x < 2 ^ 64 -> 0 <= y < 2 ^ 64 ->
  do_constant_folding_2 (INDEX_op_bin b w) x y = Ret r ->
  bin_defined b w (low w x) (low w y) = true ->
  low w r = low w (sem_bin b w (low w x) (low w y)).
Proof.
  intros Hwf Hx Hy Hr Hd. destruct (low_arith w x y) as (Ha & Hs & Hm).
  destruct (low_logic w x y) as (Hor & He & Hna & Hno).
  destruct b;
    try (apply folding_2_shift; [rewrite list_elem_of_In; simpl; tauto|done..|by apply Z.ltb_lt]);
    try (apply folding_2_div; [rewrite list_elem_of_In; simpl; tauto|done..]);
    cbn [do_constant_folding_2 sem_bin] in *; rewrite ?low_low;
    try (injection Hr as <-; rewrite ?low_land, ?low_lor, ?low_lxor, ?low_ldiff, ?low_low; done).
  - injection Hr as <-. by rewrite <- low_ldiff, low_low.
  - by injection Hr as <-.
  - destruct w; [|done]. by injection Hr as <-.
  - destruct w; [|done]. injection Hr as <-. by rewrite low_u64, !slow_low.
Qed.

Lemma op_bits_width w op :
  OPF_64BIT (tcg_op_defs op) = is64 w -> op_bits op = wbits w.
Proof. unfold op_bits. intros ->. by destruct w. Qed.

Lemma op_bits_bin b w : wf_opcode (INDEX_op_bin b w) = true -> op_bits (INDEX_op_bin b w) = wbits w.
Proof. intros Hwf. apply op_bits_width. by destruct b, w. Qed.

(** The conversion of a folded value. *)
Lemma folding_Ret op w x y r :
  op_bits op = wbits w -> 0 <= x < 2 ^ 64 -> 0 <= y < 2 ^ 64 ->
  do_constant_folding op x y = Ret r ->
  0 <= r < 2 ^ 64 /\ exists r', do_constant_folding_2 op x y = Ret r' /\ low w r = low w r'.
Proof.
  intros Ho Hx Hy (r' & Hr & [= <-])%bind_Ret. rewrite Ho.
  pose proof (folding_2_range op x y r' Hx Hy Hr). split; [|exists r'; split; [done|]].
  - destruct (wbits w =? 32); [|done]. rewrite land_ffffffff. apply u32_range.
  - destruct w; [|done]. cbn [wbits Z.eqb Pos.eqb]. rewrite land_ffffffff. apply wrap_wrap.
Qed.

(** Folding a binary operation gives the result of the reference. *)
Lemma folding_bin b w x y r :
  wf_opcode (INDEX_op_bin b w) = true -> 0 <= x < 2 ^ 64 -> 0 <= y < 2 ^ 64 ->
  do_constant_folding (INDEX_op_bin b w) x y = Ret r ->
  0 <= r < 2 ^ 64 /\
  (bin_defined b w (low w x) (low w y) = true ->
   low w r = low w (sem_bin b w (low w x) (low w y))).
Proof.
  intros Hwf Hx Hy Hr. destruct (folding_Ret _ w x y r (op_bits_bin b w Hwf) Hx Hy Hr)
    as (Hrr & r' & Hr' & ->). split; [done|]. by apply folding_2_bin.
Qed.

Lemma folding_un u w x r :
  wf_opcode (INDEX_op_un u w) = true -> 0 <= x < 2 ^ 64 ->
  do_constant_folding (INDEX_op_un u w) x 0 = Ret r ->
  0 <= r < 2 ^ 64 /\ low w r = low w (sem_un u w (low (in_width u w) x)).
Proof.
  intros Hwf Hx Hr. destruct (folding_Ret _ w x 0 r (op_bits_width w (INDEX_op_un u w) eq_refl) Hx ltac:(lia) Hr)
    as (Hrr & r' & Hr' & ->). split; [done|].
  destruct u; cbn [do_constant_folding_2 sem_un in_width] in *; injection Hr' as <-;
    rewrite ?low_u64, ?low_low, ?low_lnot, ?low_neg; try done.
  all: unfold low; try (rewrite sext_wrap_le by (by destruct w)); rewrite ?wrap_wrap; try done.
  all: rewrite (wrap_wrap_le _ (wbits w)) by (by destruct w); done.
Qed.

Lemma folding_trunc_shr x pos r :
  0 <= x < 2 ^ 64 -> 0 <= pos < 64 ->
  do_constant_folding INDEX_op_trunc_shr_i32 x pos = Ret r ->
  0 <= r < 2 ^ 64 /\ low W32 r = low W32 (x >> pos).
Proof.
  intros Hx Hp Hr.
  destruct (folding_Ret INDEX_op_trunc_shr_i32 W32 x pos r eq_refl Hx ltac:(lia) Hr)
    as (Hrr & r' & Hr' & ->). split; [done|].
  cbn [do_constant_folding_2] in Hr'. rewrite count_63 in Hr' by done. by injection Hr' as <-.
Qed.

(** Where C may leave the folding undefined: rotations by zero, and the
    division of the least number by -1. *)
Definition may_overflow (op : TCGOpcode) : bool :=
  match op with
  | INDEX_op_bin (op_rotl | op_rotr | op_div | op_rem) _ => true
  | _ => false
  end.

(** Folding never fails an assertion. *)
Lemma folding_total op x y :
  (exists b w, op = INDEX_op_bin b w) \/ (exists u w, op = INDEX_op_un u w) \/
  op = INDEX_op_trunc_shr_i32 ->
  (exists r, do_constant_folding op x y = Ret r) \/
  (may_overflow op = true /\ do_constant_folding op x y = Fault Undefined).
Proof.
  intros Hop. unfold do_constant_folding.
  assert ((exists r, do_constant_folding_2 op x y = Ret r) \/
          (may_overflow op = true /\ do_constant_folding_2 op x y = Fault Undefined))
    as [[r ->]|[? ->]]; [|by left; eexists|by right].
  destruct Hop as [(b & w & ->)|[(u & w & ->)| ->]]; [| |by left; eexists].
  - destruct b, w; cbn [do_constant_folding_2]; try (by left; eexists);
      unfold rol32, ror32, rol64, ror64, cshl, cshr, cdiv, crem, cdivu, cremu;
      repeat case_match; simpl; eauto; lia.
  - destruct u; by left; eexists.
Qed.

(** ** Conditions *)

Lemma valid_cond_cases c :
  valid_cond c = true ->
  c = TCG_COND_EQ \/ c = TCG_COND_NE \/ c = TCG_COND_LT \/ c = TCG_COND_GE \/ c = TCG_COND_LE \/
  c = TCG_COND_GT \/ c = TCG_COND_LTU \/ c = TCG_COND_GEU \/ c = TCG_COND_LEU \/ c = TCG_COND_GTU.
Proof.
  unfold valid_cond. cbn [existsb]. rewrite !orb_true_iff, !Z.eqb_eq. intuition discriminate.
Qed.

(** One case for each condition, computed. *)
Ltac cond_cases H :=
  apply valid_cond_cases in H; destruct_or? H; subst;
  unfold TCG_COND_EQ, TCG_COND_NE, TCG_COND_LT, TCG_COND_GE, TCG_COND_LE, TCG_COND_GT,
    TCG_COND_LTU, TCG_COND_GEU, TCG_COND_LEU, TCG_COND_GTU in *.

Lemma folding_cond_ok w x y c :
  valid_cond c = true -> folding_cond (wbits w) (low w x) (low w y) c = Ret (sem_cond w c x y).
Proof.
  intros Hc. unfold folding_cond, sem_cond. fold (slow w (low w x)) (slow w (low w y)).
  rewrite !slow_low. cond_cases Hc; done.
Qed.

Lemma folding_cond_eq w x c :
  valid_cond c = true -> do_constant_folding_cond_eq c = Ret (sem_cond w c x x).
Proof.
  intros Hc. unfold do_constant_folding_cond_eq, sem_cond.
  cond_cases Hc; cbn; rewrite ?Z.eqb_refl, ?Z.leb_refl, ?Z.ltb_irrefl; done.
Qed.

Lemma sem_cond_swap w c x y :
  valid_cond c = true -> sem_cond w (tcg_swap_cond c) y x = sem_cond w c x y.
Proof.
  intros Hc. unfold sem_cond. cond_cases Hc; cbn; rewrite ?(Z.eqb_sym (low w y)); done.
Qed.

Lemma sem_cond_invert w c x y :
  valid_cond c = true -> sem_cond w (tcg_invert_cond c) x y = negb (sem_cond w c x y).
Proof.
  intros Hc. unfold sem_cond.
  cond_cases Hc; match goal with |- context [tcg_invert_cond ?k] =>
    let v := eval vm_compute in (tcg_invert_cond k) in change (tcg_invert_cond k) with v end;
    cbn; rewrite ?negb_involutive; try done; lia.
Qed.

Lemma valid_swap c : valid_cond c = true -> valid_cond (tcg_swap_cond c) = true.
Proof. intros Hc. by cond_cases Hc. Qed.

Lemma valid_invert c : valid_cond c = true -> valid_cond (tcg_invert_cond c) = true.
Proof. intros Hc. by cond_cases Hc. Qed.

(** An unsigned number is not below zero. *)
Lemma sem_cond_zero w x y :
  low w y = 0 -> sem_cond w TCG_COND_LTU x y = false /\ sem_cond w TCG_COND_GEU x y = true.
Proof.
  intros Hy. unfold sem_cond. cbn. rewrite Hy. pose proof (low_range w x). lia.
Qed.

(** ** The interpreter *)

Lemma tci_compare_folding n x y c : tci_compare n x y c = folding_cond n x y c.
Proof. done. Qed.

(** Folding at 32 bits, and at 64 bits. *)
Lemma folding_W32 op x y :
  op_bits op = 32 ->
  do_constant_folding op x y = (r ← do_constant_folding_2 op x y; Ret (u32 r)).
Proof.
  intros Ho. unfold do_constant_folding. rewrite Ho. cbn [Z.eqb Pos.eqb].
  destruct (do_constant_folding_2 op x y); simpl; by rewrite ?land_ffffffff.
Qed.

Lemma folding_W64 op x y :
  op_bits op = 64 -> do_constant_folding op x y = do_constant_folding_2 op x y.
Proof.
  intros Ho. unfold do_constant_folding. rewrite Ho. cbn [Z.eqb Pos.eqb].
  by destruct (do_constant_folding_2 op x y).
Qed.

(** Folded constants are what the interpreter computes: of 32-bit binary
    operations, *)
Lemma tci_bin32_folding b x y o :
  (traps b = true -> u32 y <> 0) -> tci_bin32 b x y = Some o ->
  do_constant_folding (INDEX_op_bin b W32) x y = o.
Proof.
  intros Hz Ho.
  assert (u32 y &&& 31 = y &&& 31) as Hk by (rewrite !mask_31; by rewrite wrap_wrap_le by lia).
  destruct (low_arith W32 x y) as (Ha & Hs & Hm). unfold low in *. cbn [wbits] in *.
  rewrite folding_W32 by (by destruct b).
  destruct b; cbn [tci_bin32] in Ho; try done; injection Ho as <-;
    cbn [do_constant_folding_2]; rewrite ?Hk; try done;
    rewrite ?sext_wrap_le by lia; cbn [mbind outcome_bind].
  1-3: rewrite (wrap_wrap_le 32 64 (_ (u32 x) (u32 y))) by lia; by rewrite ?Ha, ?Hs, ?Hm.
  1-3: f_equal; rewrite <- !low_32, ?low_land, ?low_lor, ?low_lxor, ?low_low; done.
  - f_equal. by rewrite wrap_wrap, (wrap_wrap_le 32 64) by lia.
  - f_equal. by rewrite (wrap_wrap_le 32 64) by lia.
  - specialize (Hz eq_refl). destruct (Z.eqb_spec (s32 y) 0) as [H0|_].
    { pose proof (slow_zero W32 y) as H1. unfold slow, low in H1. cbn [wbits] in H1. lia. }
    destruct (cdiv _ _ _); simpl; [|done..]. by rewrite wrap_wrap_le by lia.
  - specialize (Hz eq_refl). by destruct (Z.eqb_spec (u32 y) 0).
  - specialize (Hz eq_refl). destruct (Z.eqb_spec (s32 y) 0) as [H0|_].
    { pose proof (slow_zero W32 y) as H1. unfold slow, low in H1. cbn [wbits] in H1. lia. }
    destruct (crem _ _ _); simpl; [|done..]. by rewrite wrap_wrap_le by lia.
  - specialize (Hz eq_refl). by destruct (Z.eqb_spec (u32 y) 0).
Qed.

(** of 64-bit ones, *)
Lemma tci_bin64_folding b x y o :
  tci_bin64 b x y = Some o -> do_constant_folding (INDEX_op_bin b W64) x y = o.
Proof.
  intros Ho. destruct b; cbn [tci_bin64] in Ho; try done; injection Ho as <-;
    rewrite folding_W64 by done; done.
Qed.

(** and of unary ones. *)
Lemma tci_un_folding u x v :
  (tci_un32 u x = Some v -> do_constant_folding (INDEX_op_un u W32) x 0 = Ret v) /\
  (tci_un64 u x = Some v -> do_constant_folding (INDEX_op_un u W64) x 0 = Ret v).
Proof.
  split; intros Ho.
  - rewrite folding_W32 by done. pose proof (low_lnot W32 x) as Hn. pose proof (low_neg W32 x) as Hg.
    unfold low in *. cbn [wbits] in *.
    destruct u; cbn [tci_un32] in Ho; try done; injection Ho as <-;
      cbn [do_constant_folding_2 mbind outcome_bind]; f_equal;
      rewrite ?(wrap_wrap_le 32 64) by lia; try done.
    + pose proof (wrap_range 8 x). apply wrap_small. lia.
    + pose proof (wrap_range 16 x). apply wrap_small. lia.
  - rewrite folding_W64 by done. destruct u; injection Ho as <-; done.
Qed.

(** ** Identities *)

Lemma low_all_ones w : low w all_ones = Z.ones (wbits w).
Proof. by destruct w. Qed.

Lemma low_0 w : low w 0 = 0.
Proof. by destruct w. Qed.

Lemma testbit_low_value w x i :
  0 <= x < 2 ^ wbits w -> Z.testbit x i = (i <? wbits w) && Z.testbit x i.
Proof. intros Hx. by rewrite <- testbit_low, low_small. Qed.

(** "shift/rot r, 0, a => movi r, 0" *)
Lemma bin_zero_l b w y :
  b ∈ [op_shl; op_shr; op_sar; op_rotl; op_rotr] -> sem_bin b w 0 y = 0.
Proof.
  intros Hb. assert (slow w 0 = 0) as Hs by (by destruct w).
  rewrite !list_elem_of_In in Hb. simpl in Hb. destruct_or? Hb; subst b; try done;
    cbn [sem_bin]; unfold rotl, rotr; rewrite ?Hs, ?Z.shiftl_0_l, ?Z.shiftr_0_l; try by destruct w.
Qed.

(** "op r, a, 0 => mov r, a" *)
Lemma bin_zero_r b w x :
  b ∈ [op_add; op_sub; op_shl; op_shr; op_sar; op_rotl; op_rotr; op_or; op_xor; op_andc] ->
  0 <= x < 2 ^ wbits w -> low w (sem_bin b w x 0) = x.
Proof.
  intros Hb Hx. assert (Hlx : low w x = x) by (by apply low_small).
  assert (Hss : low w (slow w x) = x) by (unfold low, slow; rewrite wrap_sext by (by destruct w); done).
  assert (Hsh : x >> wbits w = 0).
  { rewrite Z.shiftr_div_pow2 by (by destruct w). by apply Z.div_small. }
  assert (Hsl : wrap (wbits w) (x << wbits w) = 0).
  { change (low w (x << wbits w) = 0). bits_ext i Hi. destruct (Z.ltb_spec i (wbits w)); [|done].
    rewrite (Z.testbit_neg_r x) by lia. by rewrite andb_false_r. }
  rewrite !list_elem_of_In in Hb. simpl in Hb. destruct_or? Hb; subst b; try done;
    cbn [sem_bin]; unfold rotl, rotr;
    rewrite ?Z.add_0_r, ?Z.sub_0_r, ?Z.shiftl_0_r, ?Z.shiftr_0_r, ?Z.lor_0_r, ?Z.lxor_0_r,
      ?Z.ldiff_0_r, ?Hsh, ?Hsl, ?low_low, ?Z.lor_0_r; try done.
  fold (low w x). by rewrite !Hlx.
Qed.

(** "op r, a, -1 => mov r, a" *)
Lemma bin_ones_r b w x :
  b ∈ [op_and; op_orc; op_eqv] -> 0 <= x < 2 ^ wbits w ->
  low w (sem_bin b w x (Z.ones (wbits w))) = x.
Proof.
  intros Hb Hx. rewrite !list_elem_of_In in Hb. simpl in Hb.
  destruct_or? Hb; subst b; try done; cbn [sem_bin]; bits_ext i Hi;
    rewrite (testbit_low_value w x i Hx), ?testbit_ones by (by destruct w);
    destruct (Z.ltb_spec i (wbits w)), (Z.leb_spec 0 i); try lia; by destruct (Z.testbit x i).
Qed.

(** The complements. *)
Lemma bin_not w x :
  low w (sem_bin op_xor w x (Z.ones (wbits w))) = sem_un op_not w x /\
  low w (sem_bin op_nand w x (Z.ones (wbits w))) = sem_un op_not w x /\
  low w (sem_bin op_nor w x 0) = sem_un op_not w x /\
  low w (sem_bin op_andc w (Z.ones (wbits w)) x) = sem_un op_not w x /\
  low w (sem_bin op_orc w 0 x) = sem_un op_not w x /\
  low w (sem_bin op_eqv w 0 x) = sem_un op_not w x.
Proof.
  cbn [sem_bin sem_un]. rewrite !low_low, Z.lor_0_r, Z.lor_0_l, Z.lxor_0_l.
  split_and!; try done; bits_ext i Hi; rewrite ?testbit_ones by (by destruct w);
    destruct (Z.ltb_spec i (wbits w)), (Z.leb_spec 0 i); try lia; by destruct (Z.testbit x i).
Qed.

(** "op r, a, 0 => movi r, 0" and "op r, a, a" *)
Lemma bin_zero b w x :
  b ∈ [op_and; op_mul; op_muluh; op_mulsh] -> low w (sem_bin b w x 0) = 0.
Proof.
  intros Hb. assert (slow w 0 = 0) as Hs by (by destruct w).
  rewrite !list_elem_of_In in Hb. simpl in Hb. destruct_or? Hb; subst b; try done;
    cbn [sem_bin]; rewrite ?Hs, ?Z.mul_0_r, ?Z.land_0_r, ?Z.shiftr_0_l; by destruct w.
Qed.

Lemma bin_same b w x : b ∈ [op_or; op_and] -> sem_bin b w x x = x.
Proof.
  intros Hb. rewrite !list_elem_of_In in Hb. simpl in Hb.
  destruct_or? Hb; subst b; try done; cbn [sem_bin]; [apply Z.lor_diag|apply Z.land_diag].
Qed.

Lemma bin_same_zero b w x : b ∈ [op_andc; op_sub; op_xor] -> sem_bin b w x x = 0.
Proof.
  intros Hb. rewrite !list_elem_of_In in Hb. simpl in Hb.
  destruct_or? Hb; subst b; try done; cbn [sem_bin];
    [apply Z.ldiff_diag|rewrite Z.sub_diag; apply low_0|apply Z.lxor_nilpotent].
Qed.

Lemma bin_comm b w x y : commutes b = true -> sem_bin b w x y = sem_bin b w y x.
Proof.
  destruct b; try done; intros _; cbn [sem_bin];
    first [by rewrite Z.add_comm|by rewrite Z.mul_comm|by rewrite Z.land_comm|by rewrite Z.lor_comm
          |by rewrite Z.lxor_comm].
Qed.
