(* ===== verification/TcgMask.v ===== *)
(** * Known-zero bits in the TCG optimiser

    The masks of src/tcg/optimize.c: the bits of a result are among those
    computed from the masks of the operands, and an operation that affects
    none of the bits that may be set changes nothing. *)

From S2P Require Import Prelude HostUtils BitField TcgOp TcgOpt TcgSem.
From S2P Require Import TcgInv TcgFold.

Lemma testbit_sext n x i : 1 <= n -> 0 <= i -> Z.testbit (sext n x) i = Z.testbit x (Z.min i (n - 1)).
Proof.
  intros Hn Hi. destruct (Z.ltb_spec i n).
  - rewrite Z.min_l by lia. transitivity (Z.testbit (wrap n (sext n x)) i).
    + rewrite testbit_wrap by lia. by destruct (Z.ltb_spec i n); [|lia].
    + rewrite wrap_sext, testbit_wrap by lia. by destruct (Z.ltb_spec i n); [|lia].
  - rewrite Z.min_r by lia. pose proof (wrap_range n x ltac:(lia)).
    assert (Hp : 2 ^ n = 2 * 2 ^ (n - 1)) by (rewrite <- Z.pow_succ_r by lia; f_equal; lia).
    assert (Hb : Z.testbit x (n - 1) = negb (wrap n x <? 2 ^ (n - 1))).
    { transitivity (Z.testbit (wrap n x) (n - 1)).
      - rewrite testbit_wrap by lia. by destruct (Z.ltb_spec (n - 1) n); [|lia].
      - rewrite Z.testbit_eqb by lia. destruct (Z.ltb_spec (wrap n x) (2 ^ (n - 1))).
        + by rewrite Z.div_small by lia.
        + replace (wrap n x / 2 ^ (n - 1)) with 1; [done|].
          apply (Z.div_unique_pos _ _ 1 (wrap n x - 2 ^ (n - 1))); lia. }
    rewrite Hb. unfold sext. destruct (Z.ltb_spec (wrap n x) (2 ^ (n - 1))); cbn [negb].
    + apply (testbit_high n); lia.
    + replace (wrap n x - 2 ^ n) with (Z.lnot (2 ^ n - 1 - wrap n x)) by (unfold Z.lnot; lia).
      rewrite Z.lnot_spec by done. rewrite (testbit_high n); [done|lia..].
Qed.

Lemma covers_land m m' v v' : covers m v -> covers m' v' -> covers (m &&& m') (v &&& v').
Proof.
  intros H1 H2 i Hi. rewrite !Z.land_spec, !andb_true_iff. intros [??]. auto.
Qed.

Lemma covers_lor m m' v v' : covers m v -> covers m' v' -> covers (m ||| m') (v ||| v').
Proof.
  intros H1 H2 i Hi. rewrite !Z.lor_spec, !orb_true_iff. intros [?|?]; auto.
Qed.

Lemma covers_lxor m m' v v' : covers m v -> covers m' v' -> covers (m ||| m') (v ^^^ v').
Proof.
  intros H1 H2 i Hi. rewrite Z.lor_spec, Z.lxor_spec, orb_true_iff. intros Hb.
  destruct (Z.testbit v i) eqn:Hv; [left; auto|right]. apply H2; [done|].
  by rewrite xorb_false_l in Hb.
Qed.

Lemma covers_refl m : covers m m.
Proof. by intros i. Qed.

Lemma covers_0 m : covers m 0.
Proof. intros i _. by rewrite Z.testbit_0_l. Qed.

(** A bit that may not be set is not. *)
Lemma covers_clear m v i : 0 <= i -> covers m v -> Z.testbit m i = false -> Z.testbit v i = false.
Proof. intros Hi Hc Hm. destruct (Z.testbit v i) eqn:Hv; [|done]. by rewrite (Hc i Hi Hv) in Hm. Qed.

Lemma covers_zero v : 0 <= v -> covers 0 v -> v = 0.
Proof.
  intros Hv Hc. bits_ext i Hi. apply (covers_clear 0); [done..|]. apply Z.testbit_0_l.
Qed.

(** The bits that matter of what is affected. *)
Definition relevant (w : width) (a : Z) : Z := low w a.

Lemma and_const_mask m k v :
  0 <= m < 2 ^ 64 -> covers m v -> covers (and_const m k).1 (v &&& k).
Proof. intros Hm Hc. unfold and_const. cbn [fst]. apply covers_land; [done|apply covers_refl]. Qed.

Lemma and_const_affected w m k v :
  covers m v -> relevant w (and_const m k).2 = 0 -> low w (v &&& k) = low w v.
Proof.
  intros Hc Ha. bits_ext i Hi. destruct (Z.ltb_spec i (wbits w)) as [Hw|Hw]; cbn [andb]; [|done].
  destruct (Z.testbit v i) eqn:Hv; [|done]. cbn [andb].
  assert (Z.testbit (relevant w (and_const m k).2) i = false) as Hb by (by rewrite Ha, Z.testbit_0_l).
  unfold relevant, and_const in Hb. cbn [snd] in Hb. autorewrite with bits in Hb.
  rewrite (Hc i Hi Hv) in Hb. destruct (Z.ltb_spec i (wbits w)); [|lia].
  destruct (Z.ltb_spec i 64); [|destruct w; cbn [wbits] in *; lia].
  destruct (Z.leb_spec 0 i); [|lia]. cbn [andb] in Hb. by apply negb_false_iff in Hb.
Qed.

Lemma sext_clear n v : 1 <= n -> Z.testbit v (n - 1) = false -> sext n v = wrap n v.
Proof.
  intros Hn Hb. apply Z.bits_inj'. intros i Hi. rewrite testbit_sext, testbit_wrap by lia.
  destruct (Z.ltb_spec i n); [by rewrite Z.min_l by lia|]. by rewrite Z.min_r by lia.
Qed.

(** The extensions as conjunctions. *)
Lemma wrap_const v : u8 v = v &&& 0xff /\ u16 v = v &&& 0xffff /\ u32 v = v &&& 0xffffffff.
Proof. by rewrite !wrap_land. Qed.

Lemma sem_ext_clear u w m v :
  covers m v ->
  match u with
  | op_ext8s => has_bits m 0x80 = false -> sem_un u w v = low w (v &&& 0xff)
  | op_ext16s => has_bits m 0x8000 = false -> sem_un u w v = low w (v &&& 0xffff)
  | op_ext32s => has_bits m 0x80000000 = false -> sem_un u w v = low w (v &&& 0xffffffff)
  | _ => True
  end.
Proof.
  intros Hc. destruct (wrap_const v) as (H8 & H16 & H32).
  destruct u; try done; intros Hb; cbn [sem_un]; f_equal; rewrite <- ?H8, <- ?H16, <- ?H32;
    apply sext_clear; try lia; apply (covers_clear m); try done; rewrite <- has_bits_pow2 by lia;
    apply Hb.
Qed.

(** The lowest bit of a number, if one of the first [n] is set. *)
Lemma lowest_bit m n :
  (forall i, 0 <= i < Z.of_nat n -> Z.testbit m i = false) \/
  exists k, 0 <= k < Z.of_nat n /\ Z.testbit m k = true /\
            forall i, 0 <= i < k -> Z.testbit m i = false.
Proof.
  induction n as [|n [IH|(k & Hk & ?)]]; [left; lia| |right; exists k; split; [lia|done]].
  destruct (Z.testbit m (Z.of_nat n)) eqn:Hb.
  - right. exists (Z.of_nat n). split; [lia|done].
  - left. intros i Hi. destruct (decide (i = Z.of_nat n)) as [->|]; [done|]. apply IH. lia.
Qed.

Lemma land_opp_odd t : (2 * t + 1) &&& - (2 * t + 1) = 1.
Proof.
  replace (- (2 * t + 1)) with (2 * Z.lnot t + 1) by (unfold Z.lnot; lia).
  apply Z.bits_inj'. intros i Hi. rewrite Z.land_spec. destruct (decide (i = 0)) as [->|Hne].
  - by rewrite !Z.testbit_odd_0.
  - destruct (Z.lt_exists_pred 0 i ltac:(lia)) as (j & -> & Hj).
    rewrite !Z.testbit_odd_succ, Z.lnot_spec by lia. change 1 with (2 * 0 + 1).
    rewrite Z.testbit_odd_succ, Z.testbit_0_l by lia. by destruct (Z.testbit t j).
Qed.

Lemma land_opp m k :
  0 <= k -> Z.testbit m k = true -> (forall i, 0 <= i < k -> Z.testbit m i = false) ->
  m &&& - m = 2 ^ k.
Proof.
  intros Hk Hb Hl. assert (m = (m >> k) << k) as Hm.
  { bits_ext i Hi. destruct (Z.leb_spec 0 i); [|lia]. cbn [andb].
    destruct (Z.leb_spec 0 (i - k)); cbn [andb]; [by rewrite Z.sub_add|]. apply Hl. lia. }
  assert (exists t, m >> k = 2 * t + 1) as [t Ht].
  { apply Z.odd_spec. rewrite <- Z.bit0_odd, Z.shiftr_spec by lia. by rewrite Z.add_0_l. }
  rewrite Hm, Ht at 1. rewrite Hm, Ht. rewrite !Z.shiftl_mul_pow2 by done.
  rewrite <- Z.mul_opp_l, <- !Z.shiftl_mul_pow2 by done.
  rewrite <- Z.shiftl_land, land_opp_odd. by rewrite Z.shiftl_mul_pow2, Z.mul_1_l.
Qed.

(** Below the lowest bit that may be set, a negation has none. *)
Lemma neg_mask m v :
  0 <= m < 2 ^ 64 -> covers m v -> covers (u64 (- (m &&& u64 (- m)))) (u64 (- v)).
Proof.
  intros Hm Hc i Hi Hb. rewrite testbit_wrap in * by lia. apply andb_true_iff in Hb as [H64 Hb].
  rewrite H64. apply Z.ltb_lt in H64. cbn [andb].
  replace (m &&& u64 (- m)) with (m &&& - m).
  2: { bits_ext j Hj. destruct (Z.ltb_spec j 64); [done|]. by rewrite (testbit_high 64 m). }
  destruct (lowest_bit m (Z.to_nat (i + 1))) as [Hn|(k & Hk & Hmk & Hl)].
  - exfalso. assert (v = (v >> (i + 1)) << (i + 1)) as Hv.
    { bits_ext j Hj. destruct (Z.leb_spec 0 j); [|lia]. cbn [andb].
      destruct (Z.leb_spec 0 (j - (i + 1))); cbn [andb]; [by rewrite Z.sub_add|].
      apply (covers_clear m); [done..|]. apply Hn. lia. }
    rewrite Hv, Z.shiftl_mul_pow2, <- Z.mul_opp_l, Z.mul_pow2_bits, Z.testbit_neg_r in Hb by lia.
    done.
  - rewrite (land_opp m k) by (done || lia). replace (- 2 ^ k) with (Z.lnot (Z.ones k)).
    + rewrite Z.lnot_spec, testbit_ones by lia. destruct (Z.ltb_spec i k); [lia|].
      by rewrite andb_false_r.
    + unfold Z.lnot. rewrite Z.ones_equiv. lia.
Qed.

(** Unary operations. *)
Lemma known_un_mask u w m V :
  wf_opcode (INDEX_op_un u w) = true -> 0 <= m < 2 ^ 64 -> covers m V ->
  0 <= (known_un u m).1 < 2 ^ 64 /\
  covers (known_un u m).1 (low w (sem_un u w (low (in_width u w) V))).
Proof.
  intros Hwf Hm Hc. set (v := low (in_width u w) V).
  assert (Hv : covers m v) by (by apply covers_low).
  assert (Hall : covers all_ones (low w (sem_un u w v))).
  { apply covers_all_ones, (value_64 w), low_range. }
  assert (Hand : forall k, 0 <= k < 2 ^ 64 ->
    0 <= (and_const m k).1 < 2 ^ 64 /\ covers (and_const m k).1 (low w (v &&& k))).
  { intros k Hk. split; [by apply land_range_l|]. by apply covers_low, and_const_mask. }
  destruct (wrap_const v) as (H8 & H16 & H32).
  pose proof (sem_ext_clear u w m v Hv) as Hx.
  destruct u; cbn [known_un in_width] in *; cbn [sem_un].
  - split; [apply all_ones_range|done].
  - split; [apply u64_range|]. cbn [fst]. rewrite low_low, <- low_u64.
    by apply covers_low, neg_mask.
  - destruct (has_bits m 128) eqn:Hb; [by split; [apply all_ones_range|]|].
    cbn [sem_un] in Hx. rewrite (Hx eq_refl), low_low. by apply Hand.
  - rewrite H8. by apply Hand.
  - destruct (has_bits m 32768) eqn:Hb; [by split; [apply all_ones_range|]|].
    cbn [sem_un] in Hx. rewrite (Hx eq_refl), low_low. by apply Hand.
  - rewrite H16. by apply Hand.
  - destruct (has_bits m 2147483648) eqn:Hb; [by split; [apply all_ones_range|]|].
    cbn [sem_un] in Hx. rewrite (Hx eq_refl), low_low. by apply Hand.
  - rewrite H32. by apply Hand.
Qed.

(** Nothing affected: the result is the operand, read at the width of the
    result, which the masks of 32-bit variables exclude. *)
Lemma known_un_affected u w m V :
  wf_opcode (INDEX_op_un u w) = true -> 0 <= V < 2 ^ 64 -> covers m V ->
  relevant w (known_un u m).2 = 0 ->
  low w (sem_un u w (low (in_width u w) V)) = low w V /\
  (in_width u w <> w -> ~ covers m high_ones).
Proof.
  intros Hwf HV Hc. set (v := low (in_width u w) V).
  assert (Hv : covers m v) by (by apply covers_low).
  assert (Hall : relevant w all_ones <> 0) by (by destruct w).
  pose proof (sem_ext_clear u w m v Hv) as Hx. destruct (wrap_const v) as (H8 & H16 & H32).
  assert (Hsame : in_width u w = w -> forall k, relevant w (and_const m k).2 = 0 ->
    low w (v &&& k) = low w V).
  { intros Hw k Ha. rewrite (and_const_affected w m k v Hv Ha). unfold v. by rewrite Hw, low_low. }
  assert (H64 : w = W64 -> relevant w (and_const m 0xffffffff).2 = 0 ->
    low w (low W32 V &&& 0xffffffff) = low w V /\ ~ covers m high_ones).
  { intros -> Ha. pose proof (and_const_affected W64 m 0xffffffff V Hc Ha) as Hl. split.
    - rewrite <- Hl. f_equal. rewrite !land_ffffffff. apply wrap_wrap.
    - intros Hh.
      pose proof (and_const_affected W64 m 0xffffffff high_ones Hh Ha) as Hh'. by vm_compute in Hh'. }
  destruct u; cbn [known_un in_width] in *; cbn [sem_un]; intros Ha.
  - done.
  - done.
  - destruct (has_bits m 128); [done|]. cbn [sem_un] in Hx. rewrite (Hx eq_refl), low_low.
    split; [by apply Hsame|done].
  - rewrite H8. split; [by apply Hsame|done].
  - destruct (has_bits m 32768); [done|]. cbn [sem_un] in Hx. rewrite (Hx eq_refl), low_low.
    split; [by apply Hsame|done].
  - rewrite H16. split; [by apply Hsame|done].
  - destruct w; [done|]. destruct (has_bits m 2147483648); [done|]. cbn [sem_un] in Hx.
    rewrite (Hx eq_refl), low_low. destruct (H64 eq_refl Ha) as [H1 H2]. by split; [exact H1|].
  - destruct w; [done|]. rewrite H32. destruct (H64 eq_refl Ha) as [H1 H2]. by split; [exact H1|].
Qed.

(** ** Binary operations *)

(** The count of a defined shift by a constant. *)
Lemma const_count w y Y :
  0 <= y < 2 ^ 64 -> low w Y = low w y -> low w Y < wbits w ->
  y &&& 63 = low w Y /\ y &&& (wbits w - 1) = low w Y /\ 0 <= low w Y.
Proof.
  intros Hy He Hlt. rewrite He in *. destruct (count_ok w y Hy Hlt) as [Hk H0].
  split_and!; [|done..]. destruct w; [|done]. cbn [wbits] in *. rewrite <- Hk.
  change (32 - 1) with 31. rewrite mask_31, mask_63.
  rewrite <- (wrap_wrap_le 6 32), <- (wrap_wrap_le 5 32) by lia.
  unfold low in *. cbn [wbits] in *. rewrite (wrap_small 6 (u32 y)), (wrap_small 5 (u32 y)); lia.
Qed.

Lemma covers_shiftr m v k : 0 <= k -> covers m v -> covers (m >> k) (v >> k).
Proof.
  intros Hk Hc i Hi. rewrite !testbit_shiftr. destruct (Z.leb_spec 0 i); [|lia]. apply Hc. lia.
Qed.

Lemma covers_shiftl m v k : 0 <= k -> covers m v -> covers (m << k) (v << k).
Proof.
  intros Hk Hc i Hi. rewrite !testbit_shiftl. destruct (Z.leb_spec 0 i); [|lia]. cbn [andb].
  destruct (decide (0 <= i - k)); [by apply Hc|]. by rewrite (Z.testbit_neg_r v) by lia.
Qed.

Lemma covers_wrap n m v : 0 <= n -> covers m v -> covers (wrap n m) (wrap n v).
Proof.
  intros Hn Hc i Hi. rewrite !testbit_wrap by done. rewrite !andb_true_iff. intros [??]. auto.
Qed.

Lemma covers_sext n m v : 1 <= n -> covers m v -> covers (sext n m) (sext n v).
Proof. intros Hn Hc i Hi. rewrite !testbit_sext by done. apply Hc. lia. Qed.

Lemma covers_ldiff m v k : covers m v -> covers m (Z.ldiff v k).
Proof. intros Hc i Hi. rewrite Z.ldiff_spec, andb_true_iff. intros [??]. auto. Qed.

Section KnownBin.
Context (w : width) (mx my X Y : Z) (cy : option Z).
Hypothesis (Hmx : 0 <= mx < 2 ^ 64) (Hmy : 0 <= my < 2 ^ 64).
Hypothesis (HX : covers mx X) (HY : covers my Y).
Hypothesis (Hcy : forall y, cy = Some y -> my = y /\ low w Y = low w y).

#[local] Abbreviation x := (low w X).
#[local] Abbreviation y := (low w Y).

Lemma land_const_mask : cy <> None -> low w (x &&& y) = low w (X &&& my).
Proof.
  destruct cy as [c|]; [|done]. intros _. destruct (Hcy c eq_refl) as [-> ->].
  by rewrite <- low_land, low_low.
Qed.

Lemma ldiff_const_mask : cy <> None -> low w (Z.ldiff x y) = low w (X &&& u64 (Z.lnot my)).
Proof.
  destruct cy as [c|]; [|done]. intros _. destruct (Hcy c eq_refl) as [-> ->].
  by rewrite <- low_ldiff, low_low.
Qed.

(** Shifts by constants. *)
Lemma shift_mask b c :
  cy = Some c -> b ∈ [op_shl; op_shr; op_sar] -> bin_defined b w x y = true ->
  covers (known_bin b w mx my cy).1 (low w (sem_bin b w x y)).
Proof.
  intros Hc Hb Hd. destruct (Hcy c Hc) as [Hmc Hyc]. rewrite Hc.
  assert (Hlt : y < wbits w).
  { rewrite !list_elem_of_In in Hb. simpl in Hb. destruct_or? Hb; subst b; try done; by apply Z.ltb_lt. }
  destruct (const_count w c Y) as (H63 & Hw & H0); [congruence|done..|].
  assert (Hx : covers mx x) by (by apply covers_low).
  rewrite !list_elem_of_In in Hb. simpl in Hb. destruct_or? Hb; subst b; try done;
    cbn [sem_bin]; rewrite ?low_low.
  - cbn [known_bin fst]. rewrite H63, <- (low_u64 w (x << y)). apply covers_low, covers_wrap; [lia|].
    by apply covers_shiftl.
  - destruct w; cbn [known_bin fst]; change (wbits W32 - 1) with 31 in *;
      change (wbits W64 - 1) with 63 in *; rewrite Hw; apply covers_low, covers_shiftr; try done.
    apply (covers_wrap 32); done.
  - destruct w; cbn [known_bin fst]; change (wbits W32 - 1) with 31 in *;
      change (wbits W64 - 1) with 63 in *; rewrite Hw, <- (low_u64 _ (slow _ _ >> _));
      apply covers_low, covers_wrap; try lia; apply covers_shiftr; try done;
      by apply covers_sext, covers_low.
Qed.

Lemma known_bin_range b : 0 <= (known_bin b w mx my cy).1 < 2 ^ 64.
Proof.
  pose proof all_ones_range. pose proof (wrap_range 32 mx ltac:(lia)).
  assert (forall c n, 0 <= c -> 0 <= c &&& n) by (intros; apply Z.land_nonneg; lia).
  assert (forall c, cy = Some c -> 0 <= c) as Hc by (intros c [<- _]%Hcy; lia).
  destruct b; cbn [known_bin]; try done; destruct cy as [c|]; try destruct w; cbn [fst and_const];
    try done; try specialize (Hc c eq_refl);
    first [apply u64_range | apply land_range_l; lia | apply lor_range; lia
          | apply shiftr_range; auto; lia].
Qed.

Lemma known_bin_mask b :
  bin_defined b w x y = true -> covers (known_bin b w mx my cy).1 (low w (sem_bin b w x y)).
Proof.
  intros Hd. assert (Hx : covers mx x) by (by apply covers_low).
  assert (Hy : covers my y) by (by apply covers_low).
  assert (Hall : covers all_ones (low w (sem_bin b w x y))).
  { apply covers_all_ones, (value_64 w), low_range. }
  pose proof land_const_mask as HL. pose proof ldiff_const_mask as HD. pose proof shift_mask as HS.
  destruct b; try done; cbn [known_bin sem_bin].
  - destruct cy as [c|]; cbn [fst]; [|by apply covers_low, covers_land].
    rewrite HL by done. by apply covers_low, and_const_mask.
  - by apply covers_low, covers_lor.
  - by apply covers_low, covers_lxor.
  - destruct cy as [c|]; [|done].
    apply (HS op_shl c); [done|rewrite list_elem_of_In; simpl; tauto|done].
  - destruct cy as [c|]; [|by destruct w].
    apply (HS op_shr c); [done|rewrite list_elem_of_In; simpl; tauto|done].
  - destruct cy as [c|]; [|by destruct w].
    apply (HS op_sar c); [done|rewrite list_elem_of_In; simpl; tauto|done].
  - destruct cy as [c|]; cbn [fst]; [|by apply covers_low, covers_ldiff].
    rewrite HD by done. by apply covers_low, and_const_mask.
Qed.

Lemma known_bin_affected b :
  relevant w (known_bin b w mx my cy).2 = 0 -> low w (sem_bin b w x y) = low w X.
Proof.
  assert (Hall : relevant w all_ones <> 0) by (by destruct w).
  pose proof land_const_mask as HL. pose proof ldiff_const_mask as HD.
  destruct b; try done; cbn [known_bin sem_bin]; destruct cy as [c|]; try (by destruct w); intros Ha.
  - rewrite HL by done. by apply (and_const_affected w mx).
  - rewrite HD by done. by apply (and_const_affected w mx).
Qed.
End KnownBin.
