(* ===== verification/TcgGood.v ===== *)
(** * Simplifications of the TCG optimiser

    Each of the simplifications of src/tcg/optimize.c, and the whole body of
    its loop after the operands are canonical: the operations that take the
    place of one do nothing it may not do, and the optimiser's knowledge holds
    afterwards.  No assertion fails and no walk is cut. *)

From S2P Require Import Prelude HostUtils BitField TcgOp TcgOpt TcgSem.
From S2P Require Import TcgMono TcgInv TcgFold TcgMask.

Section Good.
Context (s : TCGContext) (HAS_neg HAS_not : width -> bool).
Context {World : Type}.
Context (ext : TCGOpcode -> list Z -> list Z -> list Z -> World ->
               list Z -> list Z -> World -> bool -> Prop).

#[local] Abbreviation exec := (exec s ext).
#[local] Abbreviation inv := (inv s).
#[local] Abbreviation rd := (rd s).
#[local] Abbreviation wr := (wr s).

(** A few operations in sequence. *)
Inductive execs : list TCGOp -> env -> World -> env -> World -> flow -> Prop :=
| execs_nil E m : execs [] E m E m Next
| execs_next op ops E m E1 m1 E' m' f :
  exec op E m E1 m1 Next -> execs ops E1 m1 E' m' f -> execs (op :: ops) E m E' m' f
| execs_exit op ops E m E' m' f :
  exec op E m E' m' f -> f <> Next -> execs (op :: ops) E m E' m' f.

Definition labels (ops : list TCGOp) : list TCGOp :=
  List.filter (fun op => bool_decide (opc op = INDEX_op_set_label)) ops.

(** [ops] may stand for [op] where the variables are as in [E], and leave the
    optimiser with the knowledge [temps']: whatever they do on variables that
    are at least as defined, [op] may do, with what it leaves undefined
    replaced by values the knowledge holds of. *)
Record good (E : env) (op : TCGOp) (temps' : temps_t) (ops : list TCGOp) : Prop := {
  g_wf : Forall (fun op => wf_op s op = true) ops;
  g_labels : labels ops = labels [op];
  g_sim : forall Et m Et' m' f,
    lessdef E Et -> env_ok s Et -> execs ops Et m Et' m' f ->
    exists E1 Eg, exec op E m E1 m' f /\ lessdef E1 Eg /\ lessdef Eg Et' /\
                  (goes_on f = true -> inv temps' Eg);
}.

Lemma exec_eval_inv op E m E' m' f E0 :
  eval_op s E op = Some E0 -> may_trap s E op = false -> exec op E m E' m' f ->
  E' = E0 /\ m' = m /\ f = Next.
Proof.
  intros He Ht Hx. destruct Hx as [E' Hev|Ht'|l Ho Ha|l Ho Ha|w x y c l b Ho Ha Hc
    |al ah bl bh c l b Ho Ha Hc|ins gl vals gl' m' go Hf Hi Hg Hgo Hx];
    [naive_solver|congruence|unfold eval_op in He; rewrite Ho in He; done..|].
  exfalso. unfold eval_op in He. by destruct (opc op).
Qed.

Lemma execs_one op E m E' m' f : execs [op] E m E' m' f -> exec op E m E' m' f.
Proof.
  intros Hx. inversion Hx as [|? ? ? ? ? ? ? ? ? H1 H2|]; subst; [|done].
  inversion H2; subst. done.
Qed.

(** An operation that only computes, in place of one that may do less. *)
Lemma good_eval E op temps' op' E1 E' :
  wf_op s op' = true -> labels [op'] = labels [op] ->
  eval_op s E op = Some E1 -> eval_op s E op' = Some E' -> lessdef E1 E' ->
  (forall Et, may_trap s Et op' = false) -> inv temps' E' -> good E op temps' [op'].
Proof.
  intros Hwf Hl He He' Hle Ht Hi. constructor; [by constructor|done|].
  intros Et m Et' m' f HE Ho Hx%execs_one.
  destruct (exec_mono s ext op' E Et m Et' m' f HE Ho Hx) as (E2 & Hx2 & Hle2).
  destruct (exec_eval_inv op' E m E2 m' f E' He' (Ht E) Hx2) as (-> & -> & ->).
  exists E1, E'. split_and!; [by constructor|done..].
Qed.

(** The operation itself. *)
Lemma good_same E op temps' op' :
  wf_op s op' = true -> labels [op'] = labels [op] ->
  (forall m E1 m1 f, exec op' E m E1 m1 f ->
     exec op E m E1 m1 f /\ (goes_on f = true -> inv temps' E1)) -> good E op temps' [op'].
Proof.
  intros Hwf Hl Hs. constructor; [by constructor|done|].
  intros Et m Et' m' f HE Ho Hx%execs_one.
  destruct (exec_mono s ext op' E Et m Et' m' f HE Ho Hx) as (E2 & Hx2 & Hle2).
  destruct (Hs _ _ _ _ Hx2) as [Hx3 Hi]. by exists E2, E2.
Qed.

(** Nothing, for an operation that changes nothing. *)
Lemma good_remove E op temps E1 :
  labels [op] = [] -> (forall m, exec op E m E1 m Next) -> lessdef E1 E -> inv temps E ->
  good E op temps [].
Proof.
  intros Hl He Hle Hi. constructor; [done|done|].
  intros Et m Et' m' f HE Ho Hx. inversion Hx; subst. exists E1, E. split_and!; done.
Qed.

(** ** Moves *)

Lemma wr_eq E w d r : temp_type s d = w -> wr E w d r d = low w <$> r.
Proof. intros <-. unfold TcgSem.wr. by rewrite Z.eqb_refl, bool_decide_eq_true_2. Qed.

Lemma wr_ne E w d r t : t <> d -> wr E w d r t = E t.
Proof. intros. unfold TcgSem.wr. by destruct (Z.eqb_spec t d). Qed.

Lemma wr_le E w d r E' :
  temp_type s d = w -> ole (low w <$> r) (E' d) -> (forall t, t <> d -> E t = E' t) ->
  lessdef (wr E w d r) E'.
Proof.
  intros Hw Hd He t. destruct (decide (t = d)) as [->|Hne]; [by rewrite wr_eq|].
  rewrite wr_ne by done. right. by apply He.
Qed.

Lemma out_ok_spec w d : out_ok s w d = true <-> in_temps s d = true /\ temp_type s d = w.
Proof. unfold out_ok. by rewrite andb_true_iff, bool_decide_eq_true. Qed.

Lemma in_ok_spec w d :
  in_ok s w d = true <-> in_temps s d = true /\ wbits w <= wbits (temp_type s d).
Proof. unfold in_ok. by rewrite andb_true_iff, Z.leb_le. Qed.

Lemma is_arg_spec v : is_arg v = true <-> 0 <= v < 2 ^ 64.
Proof. unfold is_arg. rewrite andb_true_iff, Z.leb_le, Z.ltb_lt. done. Qed.

Section Moves.
Context (temps : temps_t) (E : env) (op : TCGOp) (oc : TCGOpcode) (w : width) (d : Z).
Context (r : option Z).
Hypothesis (Hi : inv temps E) (Hev : eval_op s E op = Some (wr E w d r)).
Hypothesis (Hd : out_ok s w d = true) (Ho : op_bits oc = wbits w) (Hl : labels [op] = []).

Lemma good_movi v :
  0 <= v < 2 ^ 64 -> ole (low w <$> r) (Some (low w v)) ->
  good E op (h_temps (gen_movi temps oc d v)) (h_ops (gen_movi temps oc d v)).
Proof.
  intros Hv Hr. pose proof Hd as [Hin Hty]%out_ok_spec.
  destruct (inv_gen_movi s temps E (wr E w d (Some (low w v))) oc d v w) as [Hi' Hop];
    [done..|by apply wr_ne|rewrite wr_eq by done; by cbn; rewrite low_low|].
  unfold gen_movi, keep. cbn [h_temps h_ops]. rewrite Hop.
  eapply (good_eval E op _ _ (wr E w d r) (wr E w d (Some (low w v)))); try done.
  - unfold wf_op. cbn. rewrite Hd. by apply is_arg_spec.
  - apply wr_le; [done| |intros; by rewrite wr_ne]. rewrite wr_eq by done. cbn. by rewrite low_low.
Qed.

Lemma good_mov x :
  in_ok s w x = true -> d <> x -> is_const temps x = false ->
  ole (low w <$> r) (rd E w x) ->
  exists h, gen_mov s temps oc d x = Ret h /\ h_again h = None /\ good E op (h_temps h) (h_ops h).
Proof.
  intros Hx Hne Hc Hr. pose proof Hd as [Hin Hty]%out_ok_spec. pose proof Hx as [Hxin Hxw]%in_ok_spec.
  apply bool_decide_eq_false in Hc.
  assert (Hlow : low w <$> rd E w x = rd E w x).
  { destruct (rd E w x) as [v|] eqn:Hv; [|done]. apply rd_Some in Hv as (u & _ & _ & ->).
    cbn. by rewrite low_low. }
  destruct (inv_gen_mov s temps E (wr E w d (rd E w x)) oc d x w) as (temps' & Hg & Hi');
    [done..|by apply wr_ne|by rewrite wr_eq|].
  unfold gen_mov. rewrite Hg. eexists. split; [done|]. split; [done|]. cbn [keep h_temps h_ops fst snd].
  eapply (good_eval E op _ _ (wr E w d r) (wr E w d (rd E w x))); try done.
  - unfold wf_op. cbn. by rewrite Hd.
  - apply wr_le; [done| |intros; by rewrite wr_ne]. rewrite wr_eq by done. by rewrite Hlow.
Qed.

(** A move of [x] to [d], whatever is known of [x]. *)
Lemma good_mov_or_remove x :
  in_temps s x = true ->
  (is_const temps x = false -> in_ok s w x = true /\ ole (low w <$> r) (rd E w x)) ->
  (is_const temps x = true -> ole (low w <$> r) (Some (low w (val (temps x))))) ->
  exists h, mov_or_remove s temps oc d x = Ret h /\ h_again h = None /\
            good E op (h_temps h) (h_ops h).
Proof.
  intros Hxin Hn Hc. pose proof Hd as [Hin Hty]%out_ok_spec.
  destruct (temps_are_copies_cases s temps d x) as (b & Hb & Hcp); [apply Hi|done|].
  unfold mov_or_remove. rewrite Hb. cbn [mbind outcome_bind]. destruct b.
  - eexists. split; [done|]. split; [done|].
    destruct (copies_ring s temps d x) as [_ Htx]; [by apply Hi|done..|].
    pose proof (inv_copies s temps E d x Hi Hin Hcp) as HE.
    eapply (good_remove E op temps (wr E w d r)); [done|intros; by constructor| |done].
    apply wr_le; [done| |done]. destruct (is_const temps x) eqn:Hcx.
    + rewrite <- HE. apply bool_decide_eq_true in Hcx.
      destruct (i_const _ _ _ _ (inv_info _ _ _ Hi x Hxin) Hcx) as [_ ->].
      rewrite Htx, Hty. by apply Hc.
    + rewrite <- HE, <- (rd_type s E w x) by (apply Hi || congruence). by apply Hn.
  - destruct (is_const temps x) eqn:Hcx; cbn [negb].
    + eexists. split; [done|]. split; [done|]. apply good_movi; [|by apply Hc].
      apply bool_decide_eq_true in Hcx.
      destruct (i_const _ _ _ _ (inv_info _ _ _ Hi x Hxin) Hcx) as [<- _].
      by apply (inv_info _ _ _ Hi x Hxin).
    + destruct (Hn eq_refl). by apply good_mov.
Qed.

End Moves.

(** ** Operations with one output *)

(** What may be recorded of the bits of a result. *)
Record mask_ok (w : width) (m : Z) (r : option Z) : Prop := {
  m_range : 0 <= m < 2 ^ 64;
  m_covers : forall v, low w <$> r = Some v -> covers m v;
}.

Lemma exec_eval_or_trap op E m E' m' f E0 :
  eval_op s E op = Some E0 -> exec op E m E' m' f -> f = Wrong \/ E' = E0 /\ m' = m /\ f = Next.
Proof.
  intros He Hx. destruct (may_trap s E op) eqn:Ht.
  - destruct Hx as [E' Hev|Ht'|l Ho Ha|l Ho Ha|w x y c l b Ho Ha Hc
      |al ah bl bh c l b Ho Ha Hc|ins gl vals gl' m' go Hf Hi Hg Hgo Hx];
      [right; naive_solver|by left|unfold eval_op in He; rewrite Ho in He; done..|].
    exfalso. unfold eval_op in He. by destruct (opc op).
  - right. by eapply exec_eval_inv.
Qed.

(** What the body of the loop makes of an operation. *)
Definition handled_ok (E : env) (op : TCGOp) (o : outcome handled) : Prop :=
  (may_overflow (opc op) = true /\ o = Fault Undefined) \/
  exists h, o = Ret h /\ h_again h = None /\ good E op (h_temps h) (h_ops h).

Lemma handled_Ret E op h :
  h_again h = None -> good E op (h_temps h) (h_ops h) -> handled_ok E op (Ret h).
Proof. intros. right. by exists h. Qed.

Section Single.
Context (temps : temps_t) (E : env) (op : TCGOp) (w : width) (d : Z) (r : option Z).
Hypothesis (Hi : inv temps E) (Hwf : wf_op s op = true).
Hypothesis (Hev : eval_op s E op = Some (wr E w d r)).
Hypothesis (Hd : out_ok s w d = true) (H64 : OPF_64BIT (tcg_op_defs (opc op)) = is64 w).
Hypothesis (Hbb : OPF_BB_END (tcg_op_defs (opc op)) = false).
Hypothesis (Hout : op_oargs op = 1%nat) (Hargs : args op = d :: tail (args op)).
Hypothesis (Hl : labels [op] = []).

Lemma single_bits : op_bits (opc op) = wbits w.
Proof. by apply op_bits_width. Qed.

(** The default case. *)
Lemma single_default m :
  mask_ok w m r -> (w = W32 -> covers m high_ones) ->
  good E op (h_temps (do_default s temps op m)) (h_ops (do_default s temps op m)).
Proof.
  intros [Hm Hc] Hh. pose proof Hd as [Hin Hty]%out_ok_spec.
  unfold do_default. rewrite Hbb, Hout, Hargs. cbn [firstn keep h_temps h_ops fst snd reset_output fold_left].
  apply good_same; [done..|]. intros m0 E1 m1 f Hx. split; [done|]. intros Hf.
  destruct (exec_eval_or_trap op E m0 E1 m1 f _ Hev Hx) as [->|(-> & _)]; [done|].
  apply (inv_reset_mask s temps E); try done.
  - intros t Ht. by apply wr_ne.
  - apply env_ok_wr, Hi.
  - intros v. rewrite wr_eq by done. apply Hc.
  - intros Hw. apply Hh. congruence.
Qed.

(** Known-zero bits. *)
Lemma single_zero ma :
  known_zero temps op = Ret ma -> mask_ok w ma.1 r ->
  (relevant w ma.2 = 0 -> let x := arg op 1 in
   in_temps s x = true /\
   (is_const temps x = false -> in_ok s w x = true /\ ole (low w <$> r) (rd E w x)) /\
   (is_const temps x = true -> ole (low w <$> r) (Some (low w (val (temps x)))))) ->
  (exists m', simplify_zero s temps op = Ret (m', None) /\ mask_ok w m' r /\
              (w = W32 -> covers m' high_ones)) \/
  (exists m' h, simplify_zero s temps op = Ret (m', Some h) /\ h_again h = None /\
                good E op (h_temps h) (h_ops h)).
Proof.
  destruct ma as [m a]. cbn [fst snd]. intros Hk [Hm Hc] Ha. pose proof single_bits as Hb.
  assert (arg op 0 = d) as Hd0 by (unfold arg; by rewrite Hargs).
  unfold simplify_zero. rewrite Hk. cbn [mbind outcome_bind]. rewrite H64, Hout, Hd0. cbn [Nat.eqb negb].
  set (m' := if negb (is64 w) then m ||| high_ones else m).
  assert (Hm' : mask_ok w m' r /\ (w = W32 -> covers m' high_ones)).
  { unfold m'. destruct w; cbn [is64 negb]; [|by split].
    split; [|intros _; apply covers_lor_r]. constructor.
    - apply lor_range; [lia|done|apply high_ones_range].
    - intros v Hv. by apply covers_lor_l, Hc. }
  replace (if negb (is64 w) then (m ||| high_ones, m &&& 0xffffffff, a &&& 0xffffffff) else (m, m, a))
    with (m', if is64 w then m else low w m, if is64 w then a else relevant w a).
  2: { unfold m'. destruct w; cbn [is64 negb]; [|done]. by rewrite !land_ffffffff. }
  destruct (Z.eqb_spec (if is64 w then m else low w m) 0) as [Hz|_].
  { right. eexists _, _. split; [done|]. split; [done|].
    apply (good_movi temps E op _ w d r); try done. rewrite low_0.
    destruct r as [v|] eqn:Hr; [right|by left]. cbn. f_equal.
    pose proof (low_range w v). assert (covers 0 (low w v)) as H0; [|apply covers_zero; [lia|done]].
    intros i Hi0 Hbt. pose proof (Hc _ eq_refl i Hi0 Hbt) as Hmt.
    rewrite <- Hz. destruct w; cbn [is64]; [|done]. rewrite testbit_low, Hmt.
    rewrite testbit_low in Hbt. apply andb_true_iff in Hbt as [-> _]. done. }
  destruct (Z.eqb_spec (if is64 w then a else relevant w a) 0) as [Hz|_].
  { right. destruct Ha as (Hx & Hn & Hcs).
    { destruct w; [done|]. cbn [is64] in Hz. by rewrite Hz. }
    destruct (good_mov_or_remove temps E op (opc op) w d r Hi Hev Hd Hb Hl (arg op 1))
      as (h & Hh & Hag & Hg); [done..|].
    rewrite Hh. by eexists _, h. }
  left. exists m'. done.
Qed.

(** The simplifications from the known-zero bits on. *)
Lemma single_tail ma rest :
  known_zero temps op = Ret ma -> mask_ok w ma.1 r ->
  (relevant w ma.2 = 0 -> let x := arg op 1 in
   in_temps s x = true /\
   (is_const temps x = false -> in_ok s w x = true /\ ole (low w <$> r) (rd E w x)) /\
   (is_const temps x = true -> ole (low w <$> r) (Some (low w (val (temps x)))))) ->
  (forall m', mask_ok w m' r -> (w = W32 -> covers m' high_ones) -> handled_ok E op (rest m')) ->
  handled_ok E op (mh ← simplify_zero s temps op;
                   match mh.2 with Some h => Ret h | None => rest mh.1 end).
Proof.
  intros Hk Hm Ha Hr.
  destruct (single_zero ma Hk Hm Ha) as [(m' & -> & Hm' & Hh)|(m' & h & -> & Hag & Hg)].
  - by apply Hr.
  - by apply handled_Ret.
Qed.

(** Results whose bits are the only thing known. *)
Lemma single_plain ma rest :
  known_zero temps op = Ret ma -> mask_ok w ma.1 r -> ma.2 = all_ones ->
  (forall m', mask_ok w m' r -> (w = W32 -> covers m' high_ones) -> handled_ok E op (rest m')) ->
  handled_ok E op (mh ← simplify_zero s temps op;
                   match mh.2 with Some h => Ret h | None => rest mh.1 end).
Proof.
  intros Hk Hm Ha. apply (single_tail ma); try done. rewrite Ha. intros H0.
  exfalso. by destruct w.
Qed.

Lemma single_default_ok m :
  mask_ok w m r -> (w = W32 -> covers m high_ones) ->
  handled_ok E op (Ret (do_default s temps op m)).
Proof.
  intros Hm Hh. apply handled_Ret; [|by apply single_default].
  unfold do_default. by rewrite Hbb.
Qed.

Lemma single_movi_ok v :
  0 <= v < 2 ^ 64 -> ole (low w <$> r) (Some (low w v)) ->
  handled_ok E op (Ret (gen_movi temps (opc op) d v)).
Proof.
  intros Hv Hr. apply handled_Ret; [done|].
  exact (good_movi temps E op (opc op) w d r Hi Hev Hd single_bits Hl v Hv Hr).
Qed.

Lemma single_mov_ok x :
  in_temps s x = true ->
  (is_const temps x = false -> in_ok s w x = true /\ ole (low w <$> r) (rd E w x)) ->
  (is_const temps x = true -> ole (low w <$> r) (Some (low w (val (temps x))))) ->
  handled_ok E op (mov_or_remove s temps (opc op) d x).
Proof.
  intros Hx Hn Hc. right.
  exact (good_mov_or_remove temps E op (opc op) w d r Hi Hev Hd single_bits Hl x Hx Hn Hc).
Qed.

End Single.

(** ** Operands *)

Lemma rd_const temps E w x :
  inv temps E -> in_ok s w x = true -> is_const temps x = true ->
  rd E w x = Some (low w (val (temps x))) /\ 0 <= val (temps x) < 2 ^ 64 /\
  mask (temps x) = val (temps x).
Proof.
  intros Hi [Hx Hw]%in_ok_spec Hc%bool_decide_eq_true.
  destruct (i_const _ _ _ _ (inv_info _ _ _ Hi x Hx) Hc) as [Hm HE].
  pose proof (i_mask _ _ _ _ (inv_info _ _ _ Hi x Hx)) as Hr. rewrite Hm in Hr.
  split_and!; [|lia..|done]. apply rd_Some. eexists. split_and!; [done|done|].
  unfold low. by rewrite wrap_wrap_le by (destruct w; cbn [wbits] in *; lia).
Qed.

Lemma rd_const_is temps E w x k :
  inv temps E -> in_ok s w x = true -> const_is temps x k = true ->
  rd E w x = Some (low w k).
Proof.
  intros Hi Hx [Hc Hv]%andb_true_iff. apply Z.eqb_eq in Hv.
  destruct (rd_const temps E w x Hi Hx Hc) as [-> _]. by rewrite Hv.
Qed.

Lemma value_mask temps E x V :
  inv temps E -> in_temps s x = true -> E x = Some V ->
  covers (mask (temps x)) V /\ 0 <= V < 2 ^ 64 /\ 0 <= mask (temps x) < 2 ^ 64.
Proof.
  intros Hi Hx HV. pose proof (inv_info _ _ _ Hi x Hx) as Hinf.
  split_and!; [by apply Hinf|by eapply env_ok_64; [apply Hi|]..|by apply Hinf|by apply Hinf].
Qed.

Lemma mask_range temps E x : inv temps E -> in_temps s x = true -> 0 <= mask (temps x) < 2 ^ 64.
Proof. intros Hi Hx. by apply (inv_info _ _ _ Hi). Qed.

(** ** Unary operations *)

Lemma simplify_un temps E u w d x :
  let op := mk_op (INDEX_op_un u w) [d; x] 0 0 in
  inv temps E -> wf_op s op = true -> handled_ok E op (simplify s HAS_neg HAS_not temps op).
Proof.
  intros op Hi Hwf. pose proof Hwf as [Hwc Hwa]%andb_true_iff. cbn in Hwa.
  apply andb_true_iff in Hwc as [Hwc _]. apply andb_true_iff in Hwa as [Hd Hx]. pose proof Hx as [Hxin Hxw]%in_ok_spec.
  set (r := sem_un u w <$> rd E (in_width u w) x).
  assert (Hev : eval_op s E op = Some (wr E w d r)) by done.
  pose proof (mask_range temps E x Hi Hxin) as Hmx.
  apply (single_tail temps E op w d r Hi Hev Hd eq_refl eq_refl eq_refl eq_refl
           (known_un u (mask (temps x)))); [done|..].
  - constructor; [by apply (known_un_mask u w _ 0), covers_0|]. intros v Hv. unfold r in Hv.
    destruct (rd E (in_width u w) x) as [v'|] eqn:Hrd; [|done].
    apply rd_Some in Hrd as (V & HV & _ & ->). injection Hv as <-.
    apply known_un_mask; [done..|]. by apply (value_mask temps E).
  - intros Ha. cbn [arg args op nth]. split; [done|]. split.
    + intros Hc. apply bool_decide_eq_false in Hc. split.
      * apply in_ok_spec. split; [done|]. destruct (decide (in_width u w = w)) as [<-|Hne]; [done|].
        destruct (known_un_affected u w (mask (temps x)) 0) as [_ Hnh]; [done|lia|apply covers_0|done|].
        destruct (temp_type s x) eqn:Hty; [|by destruct w].
        destruct (Hnh Hne). exact (i_high _ _ _ _ (inv_info _ _ _ Hi x Hxin) Hty Hc).
      * unfold r. destruct (rd E (in_width u w) x) as [v'|] eqn:Hrd; [|by left].
        apply rd_Some in Hrd as (V & HV & _ & ->).
        destruct (value_mask temps E x V Hi Hxin HV) as (HcV & HrV & _).
        destruct (known_un_affected u w (mask (temps x)) V) as [Heq Hnh]; [done..|].
        right. cbn. rewrite Heq. symmetry. apply rd_Some. exists V. split; [done|]. split; [|done].
        destruct (decide (in_width u w = w)) as [<-|Hne]; [done|].
        destruct (temp_type s x) eqn:Hty; [|by destruct w].
        destruct (Hnh Hne). exact (i_high _ _ _ _ (inv_info _ _ _ Hi x Hxin) Hty Hc).
    + intros Hc. unfold r. destruct (rd_const temps E _ x Hi Hx Hc) as (-> & Hv & Hm).
      destruct (known_un_affected u w (mask (temps x)) (val (temps x))) as [Heq _];
        [done..|rewrite Hm; apply covers_refl|done|]. right. cbn. by rewrite Heq.
  - intros m' Hm' Hh. cbn [fold_constants opc args op].
    destruct (is_const temps x) eqn:Hc; [|by apply (single_default_ok temps E op w d r)].
    destruct (rd_const temps E _ x Hi Hx Hc) as (Hrd & Hv & _).
    destruct (folding_total (INDEX_op_un u w) (val (temps x)) 0) as [[v Hf]|[? ->]]; [eauto| |by left].
    rewrite Hf. destruct (folding_un u w (val (temps x)) v) as [Hvr Hvl]; [done..|].
    apply (single_movi_ok temps E op w d r); try done. unfold r. rewrite Hrd. right. cbn. by rewrite Hvl.
Qed.

(** ** Binary operations *)

Lemma bin_64 b w :
  wf_opcode (INDEX_op_bin b w) = true -> OPF_64BIT (tcg_op_defs (INDEX_op_bin b w)) = is64 w.
Proof. by destruct b, w. Qed.

Lemma bin_oargs b w d x y :
  op_oargs (mk_op (INDEX_op_bin b w) [d; x; y] 0 0) = 1%nat /\
  OPF_BB_END (tcg_op_defs (INDEX_op_bin b w)) = false.
Proof. by destruct b. Qed.

Section Bin.
Context (temps : temps_t) (E : env) (b : binop) (w : width) (d x y : Z).
#[local] Abbreviation op := (mk_op (INDEX_op_bin b w) [d; x; y] 0 0).
#[local] Abbreviation r := (eval_bin b w (rd E w x) (rd E w y)).
Hypothesis (Hi : inv temps E) (Hwc : wf_opcode (INDEX_op_bin b w) = true).
Hypothesis (Hd : out_ok s w d = true) (Hx : in_ok s w x = true) (Hy : in_ok s w y = true).

Lemma bin_wf : wf_op s op = true.
Proof. unfold wf_op. cbn [opc]. rewrite Hwc. cbn. by rewrite Hd, Hx, Hy. Qed.

(** What the result is, where it is defined. *)
Lemma bin_ole z :
  (forall vx vy, rd E w x = Some vx -> rd E w y = Some vy -> bin_defined b w vx vy = true ->
     Some (low w (sem_bin b w vx vy)) = z) -> ole (low w <$> r) z.
Proof.
  intros Hz. destruct (rd E w x) as [vx|]; [|by left]. destruct (rd E w y) as [vy|]; [|by left].
  cbn [eval_bin]. destruct (bin_defined b w vx vy) eqn:Hdf; [|by left]. right. cbn. by apply Hz.
Qed.

Lemma rd_range z v : rd E w z = Some v -> 0 <= v < 2 ^ wbits w.
Proof. intros (V & _ & _ & ->)%rd_Some. apply low_range. Qed.

Lemma bin_movi v :
  0 <= v < 2 ^ 64 -> ole (low w <$> r) (Some (low w v)) ->
  handled_ok E op (Ret (gen_movi temps (INDEX_op_bin b w) d v)).
Proof.
  destruct (bin_oargs b w d x y). intros. apply (single_movi_ok temps E op w d r); try done.
  by apply bin_64.
Qed.

Lemma bin_mov z :
  in_ok s w z = true -> ole (low w <$> r) (rd E w z) ->
  handled_ok E op (mov_or_remove s temps (INDEX_op_bin b w) d z).
Proof.
  intros Hz Hr. destruct (bin_oargs b w d x y). pose proof Hz as [Hzin _]%in_ok_spec.
  apply (single_mov_ok temps E op w d r); try done; [by apply bin_64|].
  intros Hc. destruct (rd_const temps E w z Hi Hz Hc) as (Hrd & _). by rewrite <- Hrd.
Qed.

(** A unary operation in its place. *)
Lemma bin_unary u z :
  in_width u w = w -> wf_opcode (INDEX_op_un u w) = true -> in_ok s w z = true ->
  ole (low w <$> r) (low w <$> (sem_un u w <$> rd E w z)) ->
  handled_ok E op (Ret (keep (reset_temp temps d, mk_op (INDEX_op_un u w) [d; z] 0 0))).
Proof.
  intros Hu Hwu Hz Hr. pose proof Hd as [Hin Hty]%out_ok_spec. apply handled_Ret; [done|].
  cbn [keep h_temps h_ops fst snd].
  apply (good_eval E op _ _ (wr E w d r) (wr E w d (sem_un u w <$> rd E w z))); try done.
  - unfold wf_op. cbn [opc]. rewrite Hwu. cbn. by rewrite Hd, Hu.
  - unfold eval_op. cbn. by rewrite Hu.
  - apply wr_le; [done|by rewrite wr_eq|intros; by rewrite wr_ne].
  - apply (inv_reset s temps E); [done..|intros; by apply wr_ne|apply env_ok_wr, Hi].
Qed.

Lemma bin_try_not z h :
  try_not HAS_not temps op d z = Some h -> in_ok s w z = true ->
  ole (low w <$> r) (low w <$> (sem_un op_not w <$> rd E w z)) -> handled_ok E op (Ret h).
Proof.
  unfold try_not. cbn [opc]. rewrite bin_64 by done. destruct (HAS_not _); [|done]. intros [= <-] Hz Hr.
  replace (if is64 w then W64 else W32) with w by (by destruct w). by apply bin_unary.
Qed.

Lemma bin_not_ole z :
  (forall vx vy, rd E w x = Some vx -> rd E w y = Some vy ->
     exists v, rd E w z = Some v /\ low w (sem_bin b w vx vy) = sem_un op_not w v) ->
  ole (low w <$> r) (low w <$> (sem_un op_not w <$> rd E w z)).
Proof.
  intros Hz. apply bin_ole. intros vx vy Hvx Hvy _. destruct (Hz vx vy Hvx Hvy) as (v & -> & ->).
  cbn. by rewrite low_low.
Qed.

End Bin.

Lemma bin_simplify_unary temps E b w d x y h :
  inv temps E -> wf_opcode (INDEX_op_bin b w) = true -> out_ok s w d = true ->
  in_ok s w x = true -> in_ok s w y = true ->
  simplify_unary HAS_neg HAS_not temps (mk_op (INDEX_op_bin b w) [d; x; y] 0 0) = Some h ->
  handled_ok E (mk_op (INDEX_op_bin b w) [d; x; y] 0 0) (Ret h).
Proof.
  intros Hi Hwc Hd Hx Hy. unfold simplify_unary. cbn [opc args].
  assert (Hx0 : forall k, const_is temps x k = true -> rd E w x = Some (low w k))
    by (intros; by apply (rd_const_is temps)).
  assert (Hy0 : forall k, const_is temps y k = true -> rd E w y = Some (low w k))
    by (intros; by apply (rd_const_is temps)).
  assert (Hsh : b ∈ [op_shl; op_shr; op_sar; op_rotl; op_rotr] ->
    (if const_is temps x 0 then Some (gen_movi temps (INDEX_op_bin b w) d 0) else None) = Some h ->
    handled_ok E (mk_op (INDEX_op_bin b w) [d; x; y] 0 0) (Ret h)).
  { intros Hb. destruct (const_is temps x 0) eqn:Hc; [|done]. intros [= <-].
    apply bin_movi; try done. apply bin_ole. intros vx vy Hvx _ _. rewrite (Hx0 0 Hc), low_0 in Hvx.
    injection Hvx as <-. by rewrite bin_zero_l. }
  pose proof (fun v => bin_not w v) as Hnot. pose proof (low_all_ones w) as Hones.
  destruct b; try done; try (apply Hsh; rewrite list_elem_of_In; simpl; tauto); clear Hsh.
  { destruct (is_const temps y); [done|]. destruct (HAS_neg w); [|done]. cbn [negb].
    destruct (const_is temps x 0) eqn:Hc; [|done]. intros [= <-].
    apply bin_unary; try done. apply bin_ole. intros vx vy Hvx -> _.
    rewrite (Hx0 0 Hc), low_0 in Hvx. injection Hvx as <-. cbn. by rewrite Z.sub_0_l. }
  all: match goal with |- context [negb ?c && const_is ?t ?z ?k] =>
         destruct (negb c && const_is t z k) eqn:Hc; [|done];
         apply andb_true_iff in Hc as [_ Hc] end; intros Hh.
  all: first [apply Hy0 in Hc|apply Hx0 in Hc]; rewrite ?low_0, ?Hones in Hc.
  1, 5, 6: eapply (bin_try_not temps E); [done..|apply Hh|done|]; apply bin_not_ole;
    intros vx vy Hvx Hvy; rewrite Hc in Hvy; injection Hvy as <-; exists vx; split; [done|];
    apply Hnot.
  all: eapply (bin_try_not temps E); [done..|apply Hh|done|]; apply bin_not_ole;
    intros vx vy Hvx Hvy; rewrite Hc in Hvx; injection Hvx as <-; exists vy; split; [done|];
    apply Hnot.
Qed.

(** The outcome of a simplification that may not apply. *)
Definition maybe_ok (E : env) (op : TCGOp) (o : outcome (option handled)) : Prop :=
  o = Ret None \/ exists o', o = Some <$> o' /\ handled_ok E op o'.

Lemma maybe_bind E op o rest :
  maybe_ok E op o -> handled_ok E op rest ->
  handled_ok E op (h ← o; match h with Some h => Ret h | None => rest end).
Proof.
  intros [->|(o' & -> & [[? ->]|(h & -> & ? & ?)])] Hr; [done|by left|]. by apply handled_Ret.
Qed.

Lemma maybe_None E op : maybe_ok E op (Ret None).
Proof. by left. Qed.

Lemma maybe_Some E op o : handled_ok E op o -> maybe_ok E op (Some <$> o).
Proof. intros. right. by exists o. Qed.

Section BinOps.
Context (temps : temps_t) (E : env) (b : binop) (w : width) (d x y : Z).
#[local] Abbreviation op := (mk_op (INDEX_op_bin b w) [d; x; y] 0 0).
#[local] Abbreviation r := (eval_bin b w (rd E w x) (rd E w y)).
Hypothesis (Hi : inv temps E) (Hwc : wf_opcode (INDEX_op_bin b w) = true).
Hypothesis (Hd : out_ok s w d = true) (Hx : in_ok s w x = true) (Hy : in_ok s w y = true).

Lemma bin_do_mov3 :
  is_const temps x = false -> ole (low w <$> r) (rd E w x) ->
  maybe_ok E op (same ← temps_are_copies s temps d x;
                 if (same : bool) then Ret (Some (tcg_op_remove temps))
                 else Some <$> gen_mov s temps (opc op) d x).
Proof.
  intros Hc Hr. replace (same ← _; _) with (Some <$> mov_or_remove s temps (opc op) d x).
  - apply maybe_Some. by apply (bin_mov temps E b w d x y).
  - unfold mov_or_remove. rewrite Hc. cbn [negb].
    destruct (temps_are_copies s temps d x) as [[]| |]; done.
Qed.

Lemma bin_simplify_mov : maybe_ok E op (simplify_mov s temps op).
Proof.
  unfold simplify_mov. cbn [args opc].
  assert (H0 : b ∈ [op_add; op_sub; op_shl; op_shr; op_sar; op_rotl; op_rotr; op_or; op_xor; op_andc] ->
    const_is temps y 0 = true -> ole (low w <$> r) (rd E w x)).
  { intros Hb Hc. apply (rd_const_is temps E w y) in Hc; [|done..]. rewrite low_0 in Hc.
    apply bin_ole. intros vx vy Hvx Hvy _. rewrite Hc in Hvy. injection Hvy as <-.
    rewrite Hvx, bin_zero_r; [done..|]. by eapply rd_range. }
  assert (H1 : b ∈ [op_and; op_orc; op_eqv] ->
    const_is temps y all_ones = true -> ole (low w <$> r) (rd E w x)).
  { intros Hb Hc. apply (rd_const_is temps E w y) in Hc; [|done..]. rewrite low_all_ones in Hc.
    apply bin_ole. intros vx vy Hvx Hvy _. rewrite Hc in Hvy. injection Hvy as <-.
    rewrite Hvx, bin_ones_r; [done..|]. by eapply rd_range. }
  pose proof bin_do_mov3 as HM.
  destruct b; try apply maybe_None;
    (match goal with |- context [negb ?c && const_is ?t ?z ?k] =>
       destruct (negb c && const_is t z k) eqn:Hc; [|apply maybe_None];
       apply andb_true_iff in Hc as [Hc1%negb_true_iff Hc] end; apply HM; [done|];
     first [apply H0; [|done] | apply H1; [|done]]; rewrite list_elem_of_In; simpl; tauto).
Qed.

Lemma bin_simplify_same : maybe_ok E op (simplify_same s temps op).
Proof.
  unfold simplify_same. cbn [args opc]. pose proof Hx as [Hxin _]%in_ok_spec.
  assert (H0 : b ∈ [op_and; op_mul; op_muluh; op_mulsh] -> const_is temps y 0 = true ->
    maybe_ok E op (Ret (Some (gen_movi temps (INDEX_op_bin b w) d 0)))).
  { intros Hb Hc. apply (maybe_Some E op (Ret _)). apply bin_movi; try done.
    apply (rd_const_is temps E w y) in Hc; [|done..]. rewrite low_0 in Hc.
    apply bin_ole. intros vx vy Hvx Hvy _. rewrite Hc in Hvy. injection Hvy as <-.
    by rewrite bin_zero, low_0. }
  assert (Hsame : forall c rest, temps_are_copies s temps x y = Ret c ->
    (copies temps x y -> maybe_ok E op (if (c : bool) then rest else Ret None)) ->
    maybe_ok E op (if c then rest else Ret None)).
  { intros c rest Hc Hr. destruct (temps_are_copies_cases s temps x y) as (c' & Hc' & Hcp); [apply Hi|done|].
    rewrite Hc in Hc'. injection Hc' as <-. destruct c; [by apply Hr|apply maybe_None]. }
  assert (Hrd : copies temps x y -> rd E w y = rd E w x).
  { intros Hcp. destruct (copies_ring s temps x y (inv_rings _ _ _ Hi) Hxin Hcp) as [_ Hty].
    pose proof (inv_copies s temps E x y Hi Hxin Hcp) as HE. unfold TcgSem.rd. by rewrite HE, Hty. }
  assert (Hmov : b ∈ [op_or; op_and] -> copies temps x y ->
    maybe_ok E op (Some <$> mov_or_remove s temps (INDEX_op_bin b w) d x)).
  { intros Hb Hcp. apply maybe_Some. apply (bin_mov temps E b w d x y); try done.
    apply bin_ole. intros vx vy Hvx Hvy _. rewrite (Hrd Hcp), Hvx in Hvy. injection Hvy as <-.
    rewrite bin_same, Hvx by done. by rewrite low_small by (by eapply rd_range). }
  assert (Hzero : b ∈ [op_andc; op_sub; op_xor] -> copies temps x y ->
    maybe_ok E op (Ret (Some (gen_movi temps (INDEX_op_bin b w) d 0)))).
  { intros Hb Hcp. apply (maybe_Some E op (Ret _)). apply bin_movi; try done.
    apply bin_ole. intros vx vy Hvx Hvy _. rewrite (Hrd Hcp), Hvx in Hvy. injection Hvy as <-.
    by rewrite bin_same_zero. }
  destruct (temps_are_copies_cases s temps x y) as (c & -> & Hcp); [apply Hi|done|].
  cbn [mbind outcome_bind].
  destruct b; try apply maybe_None;
    try (destruct (const_is temps y 0) eqn:Hc;
         [apply H0; [rewrite list_elem_of_In; simpl; tauto|done]|]);
    try apply maybe_None; (destruct c; [|apply maybe_None]);
    first [apply Hmov|apply Hzero]; try done; rewrite list_elem_of_In; simpl; tauto.
Qed.

Lemma bin_fold m :
  mask_ok w m r -> (w = W32 -> covers m high_ones) ->
  handled_ok E op (fold_constants s temps op m).
Proof.
  intros Hm Hh. destruct (bin_oargs b w d x y). cbn [fold_constants opc args].
  destruct (is_const temps x && is_const temps y) eqn:Hc.
  - apply andb_true_iff in Hc as [Hcx Hcy].
    destruct (rd_const temps E w x Hi Hx Hcx) as (Hvx & Hrx & _).
    destruct (rd_const temps E w y Hi Hy Hcy) as (Hvy & Hry & _).
    destruct (folding_total (INDEX_op_bin b w) (val (temps x)) (val (temps y))) as [[v Hf]|[? ->]];
      [eauto| |by left].
    rewrite Hf. destruct (folding_bin b w _ _ v Hwc Hrx Hry Hf) as [Hvr Hvl].
    apply bin_movi; try done. apply bin_ole. intros vx vy Hvx' Hvy' Hdf.
    rewrite Hvx in Hvx'. injection Hvx' as <-. rewrite Hvy in Hvy'. injection Hvy' as <-.
    by rewrite <- Hvl.
  - apply (single_default_ok temps E op w d r); try done; first [by apply bin_wf|by apply bin_64].
Qed.

(** The masks of the operands, with what they hold. *)
Lemma value_default z :
  in_temps s z = true ->
  let Z := default 0 (E z) in
  covers (mask (temps z)) Z /\ 0 <= Z < 2 ^ 64 /\ 0 <= mask (temps z) < 2 ^ 64 /\
  (forall v, rd E w z = Some v -> v = low w Z).
Proof.
  intros Hz. pose proof (mask_range temps E z Hi Hz). destruct (E z) as [V|] eqn:HV; cbn.
  - destruct (value_mask temps E z V Hi Hz HV) as (? & ? & ?). split_and!; try done || lia.
    intros v (V' & HV' & _ & ->)%rd_Some. congruence.
  - split_and!; [apply covers_0|lia..|]. intros v (V' & HV' & _)%rd_Some. congruence.
Qed.

Lemma bin_simplify : handled_ok E op (simplify s HAS_neg HAS_not temps op).
Proof.
  unfold simplify. destruct (simplify_unary HAS_neg HAS_not temps op) as [h|] eqn:Hu.
  { by apply (bin_simplify_unary temps). }
  apply maybe_bind; [apply bin_simplify_mov|]. destruct (bin_oargs b w d x y).
  pose proof Hx as [Hxin _]%in_ok_spec. pose proof Hy as [Hyin _]%in_ok_spec.
  destruct (value_default x Hxin) as (HX & HXr & Hmx & HvX).
  destruct (value_default y Hyin) as (HY & HYr & Hmy & HvY).
  set (cy := if is_const temps y then Some (val (temps y)) else None).
  assert (Hcy : forall v, cy = Some v -> mask (temps y) = v /\ low w (default 0 (E y)) = low w v).
  { unfold cy. destruct (is_const temps y) eqn:Hc; [|done]. intros v [= <-].
    destruct (rd_const temps E w y Hi Hy Hc) as (Hrd & _ & ->). split; [done|].
    symmetry. by apply HvY. }
  apply (single_tail temps E op w d r) with
    (ma := known_bin b w (mask (temps x)) (mask (temps y)) cy)
    (rest := fun m => h ← simplify_same s temps op;
                      match h with Some h => Ret h | None => fold_constants s temps op m end);
    try done; [by apply (bin_64 b w)|constructor|..].
  - eapply known_bin_range; done.
  - intros v Hv. destruct (rd E w x) as [vx|] eqn:Hvx; [|done].
    destruct (rd E w y) as [vy|] eqn:Hvy; [|done]. cbn [eval_bin] in Hv.
    destruct (bin_defined b w vx vy) eqn:Hdf; [|done]. injection Hv as <-.
    rewrite (HvX vx), (HvY vy) in * by done. by apply known_bin_mask.
  - intros Ha. cbn [arg args nth].
    assert (Heq : ole (low w <$> r) (rd E w x)).
    { apply bin_ole. intros vx vy Hvx Hvy _. rewrite Hvx. f_equal. rewrite (HvX vx), (HvY vy) by done.
      rewrite (known_bin_affected w (mask (temps x)) (mask (temps y)) _ _ cy); done. }
    split; [done|]. split; [done|]. intros Hc.
    destruct (rd_const temps E w x Hi Hx Hc) as (Hrd & _). by rewrite <- Hrd.
  - intros m' Hm' Hh. apply maybe_bind; [apply bin_simplify_same|by apply bin_fold].
Qed.

End BinOps.

(** ** Other operations that only compute *)

Lemma mask_ok_all w r : mask_ok w all_ones r.
Proof.
  constructor; [apply all_ones_range|]. intros v Hv. apply covers_all_ones.
  destruct r; [|done]. injection Hv as <-. apply (value_64 w), low_range.
Qed.

Lemma low_rd E w x : low w <$> rd E w x = rd E w x.
Proof.
  destruct (rd E w x) as [v|] eqn:Hv; [|done]. apply rd_Some in Hv as (u & _ & _ & ->).
  cbn. by rewrite low_low.
Qed.

Lemma simplify_mov_op temps E w d x :
  let op := mk_op (INDEX_op_mov w) [d; x] 0 0 in
  inv temps E -> wf_op s op = true -> handled_ok E op (simplify s HAS_neg HAS_not temps op).
Proof.
  intros op Hi Hwf. pose proof Hwf as [_ Hwa]%andb_true_iff. cbn in Hwa.
  apply andb_true_iff in Hwa as [Hd Hx]. pose proof Hx as [Hxin Hxw]%in_ok_spec.
  apply (single_plain temps E op w d (rd E w x) Hi eq_refl Hd eq_refl eq_refl eq_refl eq_refl no_mask);
    [done|apply mask_ok_all|done|].
  intros m' _ _. cbn [fold_constants opc args op].
  apply (single_mov_ok temps E op w d (rd E w x)); try done; rewrite low_rd; [done|].
  intros Hc. destruct (rd_const temps E w x Hi Hx Hc) as (-> & _). done.
Qed.

Lemma fold_op_movi temps w d v :
  fold_op s HAS_neg HAS_not temps (mk_op (INDEX_op_movi w) [d; v] 0 0)
    = Ret (gen_movi temps (INDEX_op_movi w) d v).
Proof. by destruct w. Qed.

Lemma simplify_movi temps E w d v :
  let op := mk_op (INDEX_op_movi w) [d; v] 0 0 in
  inv temps E -> wf_op s op = true -> handled_ok E op (simplify s HAS_neg HAS_not temps op).
Proof.
  intros op Hi Hwf. pose proof Hwf as [_ Hwa]%andb_true_iff. cbn in Hwa.
  apply andb_true_iff in Hwa as [Hd Hv%is_arg_spec].
  apply (single_plain temps E op w d (Some (low w v)) Hi eq_refl Hd eq_refl eq_refl eq_refl eq_refl no_mask);
    [done|apply mask_ok_all|done|].
  intros m' _ _. cbn [fold_constants opc args op].
  apply (single_movi_ok temps E op w d (Some (low w v))); try done. right. cbn. by rewrite low_low.
Qed.

Lemma simplify_trunc_shr temps E d x pos :
  let op := mk_op INDEX_op_trunc_shr_i32 [d; x; pos] 0 0 in
  inv temps E -> wf_op s op = true -> handled_ok E op (simplify s HAS_neg HAS_not temps op).
Proof.
  intros op Hi Hwf. pose proof Hwf as [_ Hwa]%andb_true_iff. cbn in Hwa. zbool.
  rename H into Hd, H2 into Hx. pose proof Hx as [Hxin Hxw]%in_ok_spec.
  set (r := (fun x => low W32 (x >> pos)) <$> rd E W64 x).
  destruct (value_default temps E W64 Hi x Hxin) as (HX & HXr & Hmx & HvX).
  apply (single_plain temps E op W32 d r Hi eq_refl Hd eq_refl eq_refl eq_refl eq_refl
          (mask (temps x) >> pos, all_ones)); [|constructor|done|].
  - cbn [known_zero opc args op]. unfold cshr.
    by destruct (Z.leb_spec 0 pos), (Z.ltb_spec pos 64); try lia.
  - cbn [fst]. by apply shiftr_range.
  - intros v Hv. unfold r in Hv. destruct (rd E W64 x) as [V|] eqn:Hrd; [|done].
    injection Hv as <-. rewrite (HvX V eq_refl). cbn [fst].
    apply covers_low, covers_low, covers_shiftr; [done|]. by apply covers_low.
  - intros m' Hm' Hh. cbn [fold_constants opc args op].
    destruct (is_const temps x) eqn:Hc; [|by apply (single_default_ok temps E op W32 d r)].
    destruct (rd_const temps E W64 x Hi Hx Hc) as (Hrd & Hv & _).
    destruct (folding_total INDEX_op_trunc_shr_i32 (val (temps x)) pos) as [[v Hf]|[? ->]]; [auto| |by left].
    rewrite Hf. destruct (folding_trunc_shr (val (temps x)) pos v) as [Hvr Hvl]; [done..|].
    apply (single_movi_ok temps E op W32 d r); try done. unfold r. rewrite Hrd. right. cbn.
    by rewrite low_low, Hvl, low_W64.
Qed.

Lemma testbit_low_deposit w X pos len Y i :
  field_ok (wbits w) pos len = true -> 0 <= i ->
  Z.testbit (low w (deposit (low w X) pos len (low w Y))) i
    = Z.testbit (low w (deposit X pos len Y)) i.
Proof.
  intros Hf%field_ok_spec Hi. rewrite !testbit_low.
  destruct (Z.ltb_spec i (wbits w)); [|done]. cbn [andb].
  rewrite !testbit_deposit_field by lia. rewrite !testbit_low.
  destruct (Z.ltb_spec i (wbits w)), (Z.ltb_spec (i - pos) (wbits w)); try lia; done.
Qed.

Lemma simplify_deposit temps E w d x y pos len :
  let op := mk_op (INDEX_op_deposit w) [d; x; y; pos; len] 0 0 in
  inv temps E -> wf_op s op = true -> handled_ok E op (simplify s HAS_neg HAS_not temps op).
Proof.
  intros op Hi Hwf. pose proof Hwf as [_ Hwa]%andb_true_iff. cbn in Hwa.
  rewrite !andb_true_iff in Hwa. destruct Hwa as [[[Hd Hx] Hy] Hf].
  pose proof Hx as [Hxin _]%in_ok_spec. pose proof Hy as [Hyin _]%in_ok_spec.
  pose proof Hf as Hf'%field_ok_spec. assert (wbits w <= 64) by (by destruct w).
  set (r := x ← rd E w x; y ← rd E w y; Some (deposit x pos len y)).
  destruct (value_default temps E w Hi x Hxin) as (HX & HXr & Hmx & HvX).
  destruct (value_default temps E w Hi y Hyin) as (HY & HYr & Hmy & HvY).
  assert (Hdep : forall u v, 0 <= u < 2 ^ 64 -> deposit64 u pos len v = Ret (deposit u pos len v))
    by (intros; apply deposit64_ok; lia).
  apply (single_plain temps E op w d r Hi eq_refl Hd eq_refl eq_refl eq_refl eq_refl
          (deposit (mask (temps x)) pos len (mask (temps y)), all_ones)); [|constructor|done|].
  - cbn [known_zero opc args op]. by rewrite Hdep.
  - apply deposit_range; lia.
  - intros v Hv. unfold r in Hv. destruct (rd E w x) as [vx|] eqn:Hrx; [|done].
    destruct (rd E w y) as [vy|] eqn:Hry; [|done]. injection Hv as <-. cbn [fst].
    rewrite (HvX vx), (HvY vy) by done. intros i Hi0. rewrite testbit_low_deposit by done.
    rewrite testbit_low, !testbit_deposit_field, andb_true_iff by lia. intros [_ Hb].
    destruct ((pos <=? i) && (i <? pos + len)) eqn:Hin; [|by apply HX].
    zbool. apply HY; [lia|done].
  - intros m' Hm' Hh. cbn [fold_constants opc args op].
    destruct (is_const temps x && is_const temps y) eqn:Hc;
      [|by apply (single_default_ok temps E op w d r)].
    apply andb_true_iff in Hc as [Hcx Hcy].
    destruct (rd_const temps E w x Hi Hx Hcx) as (Hvx & Hrx & _).
    destruct (rd_const temps E w y Hi Hy Hcy) as (Hvy & Hry & _).
    rewrite Hdep by done. cbn [mbind outcome_bind].
    apply (single_movi_ok temps E op w d r); try done; [apply deposit_range; lia|].
    unfold r. rewrite Hvx, Hvy. right. cbn. f_equal.
    apply Z.bits_inj'. intros i Hi0. by apply testbit_low_deposit.
Qed.

(** ** Conditions *)

Lemma eval_cond_Some c w x y bb :
  eval_cond c w x y = Some bb ->
  exists vx vy, x = Some vx /\ y = Some vy /\ bb = sem_cond w c vx vy.
Proof. destruct x, y; try done. intros [= <-]. eauto. Qed.

Lemma rd_copies temps E w x y :
  inv temps E -> in_temps s x = true -> copies temps x y -> rd E w y = rd E w x.
Proof.
  intros Hi Hx Hcp. destruct (copies_ring s temps x y (inv_rings _ _ _ Hi) Hx Hcp) as [_ Hty].
  pose proof (inv_copies s temps E x y Hi Hx Hcp) as HE. unfold TcgSem.rd. by rewrite HE, Hty.
Qed.

(** What is found of a condition is what it evaluates to. *)
Lemma do_folding_cond_ok temps E oc w x y c :
  inv temps E -> in_ok s w x = true -> in_ok s w y = true -> valid_cond c = true ->
  op_bits oc = wbits w ->
  exists t, do_constant_folding_cond s temps oc x y c = Ret t /\
    (t = 2 \/ exists bt : bool, t = b2z bt /\
       forall bb, eval_cond c w (rd E w x) (rd E w y) = Some bb -> bb = bt).
Proof.
  intros Hi Hx Hy Hc Ho. unfold do_constant_folding_cond. rewrite Ho.
  pose proof Hx as [Hxin _]%in_ok_spec.
  destruct (is_const temps x && is_const temps y) eqn:Hcc.
  - apply andb_true_iff in Hcc as [Hcx Hcy].
    destruct (rd_const temps E w x Hi Hx Hcx) as (-> & Hrx & _).
    destruct (rd_const temps E w y Hi Hy Hcy) as (-> & Hry & _).
    assert (Hf : (if wbits w =? 32
      then b2z <$> do_constant_folding_cond_32 (u32 (val (temps x))) (u32 (val (temps y))) c
      else b2z <$> do_constant_folding_cond_64 (val (temps x)) (val (temps y)) c)
      = Ret (b2z (sem_cond w c (low w (val (temps x))) (low w (val (temps y)))))).
    { pose proof (folding_cond_ok w (low w (val (temps x))) (low w (val (temps y))) c Hc) as Hf.
      rewrite !low_low in Hf. destruct w; cbn [wbits Z.eqb Pos.eqb] in *.
      - unfold do_constant_folding_cond_32. unfold low in *. cbn [wbits] in *. by rewrite Hf.
      - unfold do_constant_folding_cond_64. rewrite !low_W64 in * by done. by rewrite Hf. }
    rewrite Hf. eexists. split; [done|]. right. eexists. split; [done|].
    intros bb (vx & vy & [= <-] & [= <-] & ->)%eval_cond_Some. done.
  - destruct (temps_are_copies_cases s temps x y) as (same & -> & Hcp); [apply Hi|done|].
    cbn [mbind outcome_bind]. destruct same.
    + pose proof (rd_copies temps E w x y Hi Hxin Hcp) as Hrd.
      rewrite (folding_cond_eq w (default 0 (rd E w x))) by done. eexists. split; [done|].
      right. eexists. split; [done|]. intros bb (vx & vy & Hvx & Hvy & ->)%eval_cond_Some.
      rewrite Hrd, Hvx in Hvy. injection Hvy as <-. by rewrite Hvx.
    + destruct (const_is temps y 0) eqn:Hc0; [|eexists; split; [done|by left]].
      eexists. split; [done|]. apply (rd_const_is temps E w y) in Hc0; [|done..]. rewrite low_0 in Hc0.
      destruct (Z.eqb_spec c TCG_COND_LTU) as [->|]; [|destruct (Z.eqb_spec c TCG_COND_GEU) as [->|]];
        [right; exists false|right; exists true|by left]; (split; [done|]);
        intros bb (vx & vy & Hvx & Hvy & ->)%eval_cond_Some; rewrite Hc0 in Hvy; injection Hvy as <-;
        by apply sem_cond_zero, low_0.
Qed.

Lemma simplify_setcond temps E w d x y c :
  let op := mk_op (INDEX_op_setcond w) [d; x; y; c] 0 0 in
  inv temps E -> wf_op s op = true -> handled_ok E op (simplify s HAS_neg HAS_not temps op).
Proof.
  intros op Hi Hwf. pose proof Hwf as [_ Hwa]%andb_true_iff. cbn in Hwa.
  rewrite !andb_true_iff in Hwa. destruct Hwa as [[[Hd Hx] Hy] Hc].
  set (r := b2z <$> eval_cond c w (rd E w x) (rd E w y)).
  assert (Hlb : forall bb, low w (b2z bb) = b2z bb) by (by intros []; destruct w).
  apply (single_plain temps E op w d r Hi eq_refl Hd eq_refl eq_refl eq_refl eq_refl
          (1, all_ones)); [done|constructor|done|].
  - done.
  - intros v Hv. unfold r in Hv. destruct (eval_cond _ _ _ _) as [bb|]; [|done].
    injection Hv as <-. rewrite Hlb. destruct bb; [apply covers_refl|apply covers_0].
  - intros m' Hm' Hh. cbn [fold_constants opc args op].
    destruct (do_folding_cond_ok temps E (INDEX_op_setcond w) w x y c) as (t & -> & Ht);
      [done..|by destruct w|]. cbn [mbind outcome_bind].
    destruct (Z.eqb_spec t 2) as [->|Hne]; cbn [negb]; [by apply (single_default_ok temps E op w d r)|].
    destruct Ht as [?|(bt & -> & Hbt)]; [done|].
    apply (single_movi_ok temps E op w d r); try done; [by destruct bt|].
    unfold r. destruct (eval_cond _ _ _ _) as [bb|] eqn:Heb; [right|by left]. cbn. by rewrite (Hbt bb).
Qed.

Lemma simplify_movcond temps E w d x y v1 v2 c :
  let op := mk_op (INDEX_op_movcond w) [d; x; y; v1; v2; c] 0 0 in
  inv temps E -> wf_op s op = true -> handled_ok E op (simplify s HAS_neg HAS_not temps op).
Proof.
  intros op Hi Hwf. pose proof Hwf as [_ Hwa]%andb_true_iff. cbn in Hwa.
  rewrite !andb_true_iff in Hwa. destruct Hwa as [[[[[Hd Hx] Hy] Hv1] Hv2] Hc].
  pose proof Hv1 as [Hin1 _]%in_ok_spec. pose proof Hv2 as [Hin2 _]%in_ok_spec.
  set (r := b ← eval_cond c w (rd E w x) (rd E w y); rd E w (if (b : bool) then v1 else v2)).
  destruct (value_default temps E w Hi v1 Hin1) as (HX & HXr & Hmx & HvX).
  destruct (value_default temps E w Hi v2 Hin2) as (HY & HYr & Hmy & HvY).
  apply (single_plain temps E op w d r Hi eq_refl Hd eq_refl eq_refl eq_refl eq_refl
          (mask (temps v1) ||| mask (temps v2), all_ones)); [done|constructor|done|].
  - cbn [fst]. by apply lor_range.
  - intros v Hv. unfold r in Hv. destruct (eval_cond _ _ _ _) as [bb|]; [|done].
    cbn [mbind option_bind] in Hv. destruct bb; rewrite low_rd in Hv.
    + rewrite (HvX v Hv). by apply covers_lor_l, covers_low.
    + rewrite (HvY v Hv). cbn [fst]. rewrite Z.lor_comm. by apply covers_lor_l, covers_low.
  - intros m' Hm' Hh. cbn [fold_constants opc args op].
    destruct (do_folding_cond_ok temps E (INDEX_op_movcond w) w x y c) as (t & -> & Ht);
      [done..|by destruct w|]. cbn [mbind outcome_bind].
    destruct (Z.eqb_spec t 2) as [->|Hne]; cbn [negb]; [by apply (single_default_ok temps E op w d r)|].
    destruct Ht as [?|(bt & -> & Hbt)]; [done|].
    replace (if b2z bt =? 1 then v1 else v2) with (if bt then v1 else v2) by (by destruct bt).
    assert (Hrz : ole (low w <$> r) (rd E w (if bt then v1 else v2))).
    { unfold r. destruct (eval_cond _ _ _ _) as [bb|] eqn:Heb; [right|by left]. cbn.
      rewrite (Hbt bb) by done. apply low_rd. }
    apply (single_mov_ok temps E op w d r); try done; [by destruct bt|by destruct bt|].
    intros Hcz. destruct (rd_const temps E w (if bt then v1 else v2)) as (Hz & _); try done;
      [by destruct bt|]. by rewrite <- Hz.
Qed.

(** ** Operations with two outputs *)

(** An operation is done with when the loop goes on with the next one. *)
Definition finish (h : handled) : outcome (temps_t * list TCGOp) :=
  match h_again h with
  | None => Ret (h_temps h, h_ops h)
  | Some op => h2 ← fold_op s HAS_neg HAS_not (h_temps h) op; Ret (h_temps h2, h_ops h ++ h_ops h2)
  end.

Definition done_ok (E : env) (op : TCGOp) (o : outcome handled) : Prop :=
  (may_overflow (opc op) = true /\ o = Fault Undefined) \/
  exists h temps' ops, o = Ret h /\ finish h = Ret (temps', ops) /\ good E op temps' ops /\
    match h_again h with
    | None => True
    | Some op2 => exists w d v, op2 = mk_op (INDEX_op_movi w) [d; v] 0 0
    end.

Lemma handled_done E op o : handled_ok E op o -> done_ok E op o.
Proof.
  intros [[? ->]|(h & -> & Ha & Hg)]; [by left|]. right. exists h, (h_temps h), (h_ops h).
  split; [done|]. unfold finish. by rewrite Ha.
Qed.

Lemma simplify_two temps op w l h tl :
  opc op ∈ [INDEX_op_add2 w; INDEX_op_sub2 w; INDEX_op_mulu2 w; INDEX_op_muls2 w] ->
  args op = l :: h :: tl ->
  simplify s HAS_neg HAS_not temps op = fold_constants s temps op all_ones.
Proof.
  intros Ho Ha. destruct op as [oc al co ci]. cbn in *. subst al.
  rewrite !list_elem_of_In in Ho. simpl in Ho. destruct_or? Ho; subst oc; try done; by destruct w.
Qed.

(** The default case. *)
Lemma two_default temps E op w l h tl r :
  opc op ∈ [INDEX_op_add2 w; INDEX_op_sub2 w; INDEX_op_mulu2 w; INDEX_op_muls2 w] ->
  args op = l :: h :: tl -> inv temps E -> wf_op s op = true ->
  out_ok s w l = true -> out_ok s w h = true -> l <> h ->
  eval_op s E op = Some (wr2 s E w l h r) ->
  handled_ok E op (Ret (do_default s temps op all_ones)).
Proof.
  intros Ho Ha Hi Hwf Hl Hh Hne Hev.
  pose proof Hl as [Hlin Hlt]%out_ok_spec. pose proof Hh as [Hhin Hht]%out_ok_spec.
  assert (OPF_BB_END (tcg_op_defs (opc op)) = false /\ op_oargs op = 2%nat) as [Hbb Hoa].
  { destruct op as [oc al co ci]. cbn in *. rewrite !list_elem_of_In in Ho. simpl in Ho.
    destruct_or? Ho; subst oc; done. }
  unfold do_default. rewrite Hbb, Hoa, Ha. cbn [firstn]. apply handled_Ret; [done|].
  cbn [keep h_temps h_ops fst snd reset_output fold_left].
  apply good_same; [done..|]. intros m E1 m1 f Hx. split; [done|]. intros Hf.
  destruct (exec_eval_or_trap op E m E1 m1 f _ Hev Hx) as [->|(-> & _)]; [done|].
  apply (inv_reset s _ (wr E w l (low w <$> r))).
  - apply (inv_reset_mask s temps E); try done.
    + intros t Ht. by apply wr_ne.
    + apply env_ok_wr, Hi.
    + intros v Hv. apply covers_all_ones. eapply env_ok_64; [|done]. apply env_ok_wr, Hi.
    + intros _. apply covers_all_ones, high_ones_range.
  - done.
  - intros t Ht. unfold wr2, TcgSem.wr. destruct (Z.eqb_spec t l); [done|].
    by destruct (Z.eqb_spec t h).
  - unfold wr2. by apply env_ok_wr, env_ok_wr, Hi.
Qed.

Lemma exec_movi E m E' m' f w d v :
  exec (mk_op (INDEX_op_movi w) [d; v] 0 0) E m E' m' f ->
  E' = wr E w d (Some (low w v)) /\ m' = m /\ f = Next.
Proof. by apply exec_eval_inv. Qed.

(** Two constants moved in sequence. *)
Lemma execs_movi2 E m E' m' f h vh l vl :
  execs [mk_op (INDEX_op_movi W32) [h; vh] 0 0; mk_op (INDEX_op_movi W32) [l; vl] 0 0] E m E' m' f ->
  E' = wr (wr E W32 h (Some (low W32 vh))) W32 l (Some (low W32 vl)) /\ m' = m /\ f = Next.
Proof.
  intros Hx. inversion Hx as [|op ops E0 m0 E1 m1 E2 m2 f2 H1 H2|? ? ? ? ? ? ? H1 Hf]; subst.
  - apply exec_movi in H1 as (-> & -> & _).
    apply execs_one, exec_movi in H2 as (-> & -> & ->). done.
  - by apply exec_movi in H1 as (_ & _ & ->).
Qed.

Lemma wf_movi w d v : out_ok s w d = true -> 0 <= v < 2 ^ 64 ->
  wf_op s (mk_op (INDEX_op_movi w) [d; v] 0 0) = true.
Proof. intros Hd Hv. unfold wf_op. cbn. rewrite Hd. by apply is_arg_spec. Qed.

(** The constant results. *)
Lemma two_movi temps E op oc l h r :
  op_bits oc = 32 -> inv temps E -> out_ok s W32 l = true -> out_ok s W32 h = true -> l <> h ->
  labels [op] = [] -> eval_op s E op = Some (wr2 s E W32 l h (Some r)) ->
  done_ok E op (Ret (gen_movi2 temps oc l h r)).
Proof.
  intros Ho Hi Hl Hh Hne Hlab Hev.
  pose proof Hl as [Hlin Hlt]%out_ok_spec. pose proof Hh as [Hhin Hht]%out_ok_spec.
  pose proof (u32_range r) as Hvl. pose proof (u32_range (r >> 32)) as Hvh.
  set (vl := u32 r) in *. set (vh := u32 (r >> 32)) in *.
  set (Eg := wr2 s E W32 l h (Some r)) in *.
  assert (HEl : Eg l = Some (low W32 vl)) by (unfold Eg, wr2; by rewrite wr_eq).
  assert (HEh : Eg h = Some (low W32 vh)).
  { unfold Eg, wr2. rewrite wr_ne, wr_eq by done. cbn. unfold vh, low. cbn [wbits]. by rewrite wrap_wrap. }
  assert (HEt : forall t, t <> l -> t <> h -> Eg t = E t) by (intros; unfold Eg, wr2; by rewrite !wr_ne).
  set (El := wr E W32 l (Some vl)). set (Elh := wr El W32 h (Some vh)).
  destruct (inv_gen_movi s temps E El oc l vl W32) as [Hi1 Hop1];
    [done..|intros; by apply wr_ne|unfold El; by rewrite wr_eq|].
  unfold gen_movi2. fold vl. fold vh.
  destruct (tcg_opt_gen_movi temps oc l vl) as [temps1 op1]. cbn [fst snd] in *. subst op1.
  destruct (inv_gen_movi s temps1 El Elh oc h vh W32) as [Hi2 Hop2];
    [done..|intros; by apply wr_ne|unfold Elh; by rewrite wr_eq|].
  destruct (tcg_opt_gen_movi temps1 oc h vh) as [temps2 op2]. cbn [fst snd] in *. subst op2.
  destruct (inv_gen_movi s temps2 Elh Eg (INDEX_op_movi W32) l vl W32) as [Hi3 Hop3];
    [done|done|done|done|done| |done|].
  { intros t Ht. unfold Elh, El. destruct (decide (t = h)) as [->|]; [by rewrite wr_eq|].
    rewrite !wr_ne by done. by apply HEt. }
  right. eexists _, _, _. split; [done|]. split.
  { unfold finish. cbn [h_again]. rewrite fold_op_movi. done. }
  split; [|by eexists _, _, _]. cbn [h_ops h_temps app gen_movi keep fst snd]. rewrite Hop3.
  constructor.
  - constructor; [by apply wf_movi|]. constructor; [by apply wf_movi|done].
  - by rewrite Hlab.
  - intros Et m Et' m' f HE _ (-> & -> & ->)%execs_movi2. exists Eg, Eg.
    split_and!; [by constructor|done| |done].
    intros t. destruct (decide (t = l)) as [->|]; [right; rewrite HEl, wr_eq by done; cbn; by rewrite low_low|].
    destruct (decide (t = h)) as [->|].
    + right. rewrite HEh, wr_ne, wr_eq by done. cbn. by rewrite low_low.
    + rewrite HEt, !wr_ne by done. apply HE.
Qed.

(** The double words of constants. *)
Lemma pair_lor l h : u64 (u32 h << 32) ||| u32 l = pair_of W32 (low W32 l) (low W32 h).
Proof.
  unfold pair_of. rewrite !low_low. unfold low. cbn [wbits].
  pose proof (wrap_range 32 l ltac:(lia)). pose proof (wrap_range 32 h ltac:(lia)).
  rewrite Z.shiftl_mul_pow2, (wrap_small 64) by lia.
  rewrite <- Z.add_nocarry_lor; [lia|]. bits_ext i Hi. rewrite Z.mul_pow2_bits by lia.
  destruct (Z.ltb_spec i 32); [|by rewrite andb_false_r].
  by rewrite Z.testbit_neg_r by lia.
Qed.

Lemma simplify_add2 temps E oc w l h al ah bl bh :
  let op := mk_op oc [l; h; al; ah; bl; bh] 0 0 in
  oc = INDEX_op_add2 w \/ oc = INDEX_op_sub2 w ->
  inv temps E -> wf_op s op = true -> done_ok E op (simplify s HAS_neg HAS_not temps op).
Proof.
  intros op Hoc Hi Hwf. pose proof Hwf as [_ Hwa]%andb_true_iff.
  assert (Hin : oc ∈ [INDEX_op_add2 w; INDEX_op_sub2 w; INDEX_op_mulu2 w; INDEX_op_muls2 w])
    by (rewrite list_elem_of_In; simpl; naive_solver).
  set (r := al ← rd E w al; ah ← rd E w ah; bl ← rd E w bl; bh ← rd E w bh;
            Some (sem_bin2 oc w (pair_of w al ah) (pair_of w bl bh))).
  assert (Hev : eval_op s E op = Some (wr2 s E w l h r)) by (by destruct Hoc; subst oc).
  assert (Hall : out_ok s w l && out_ok s w h && negb (l =? h) && in_ok s w al && in_ok s w ah &&
    in_ok s w bl && in_ok s w bh = true) by (by destruct Hoc; subst oc).
  rewrite !andb_true_iff in Hall. destruct Hall as [[[[[[Hl Hh] Hne] Hal] Hah] Hbl] Hbh].
  apply negb_true_iff, Z.eqb_neq in Hne.
  rewrite (simplify_two temps op w l h [al; ah; bl; bh]) by done.
  assert (Hdef : done_ok E op (Ret (do_default s temps op all_ones)))
    by (by apply handled_done, (two_default temps E op w l h [al; ah; bl; bh] r)).
  unfold fold_constants. cbn [opc args op].
  destruct w; [|by destruct Hoc; subst oc].
  destruct (is_const temps al && is_const temps ah && is_const temps bl && is_const temps bh) eqn:Hc;
    [|by destruct Hoc; subst oc].
  rewrite !andb_true_iff in Hc. destruct Hc as [[[Hc1 Hc2] Hc3] Hc4].
  destruct (rd_const temps E W32 al Hi Hal Hc1) as (H1 & _).
  destruct (rd_const temps E W32 ah Hi Hah Hc2) as (H2 & _).
  destruct (rd_const temps E W32 bl Hi Hbl Hc3) as (H3 & _).
  destruct (rd_const temps E W32 bh Hi Hbh Hc4) as (H4 & _).
  unfold r in Hev. rewrite H1, H2, H3, H4 in Hev. cbn [mbind option_bind] in Hev.
  destruct Hoc; subst oc; rewrite !pair_lor; by apply two_movi.
Qed.

Lemma simplify_mul2 temps E oc w l h x y :
  let op := mk_op oc [l; h; x; y] 0 0 in
  oc = INDEX_op_mulu2 w \/ oc = INDEX_op_muls2 w ->
  inv temps E -> wf_op s op = true -> done_ok E op (simplify s HAS_neg HAS_not temps op).
Proof.
  intros op Hoc Hi Hwf. pose proof Hwf as [_ Hwa]%andb_true_iff.
  assert (Hin : oc ∈ [INDEX_op_add2 w; INDEX_op_sub2 w; INDEX_op_mulu2 w; INDEX_op_muls2 w])
    by (rewrite list_elem_of_In; simpl; naive_solver).
  set (r := x ← rd E w x; y ← rd E w y; Some (sem_mul2 oc w x y)).
  assert (Hev : eval_op s E op = Some (wr2 s E w l h r)) by (by destruct Hoc; subst oc).
  assert (Hall : out_ok s w l && out_ok s w h && negb (l =? h) && in_ok s w x && in_ok s w y = true)
    by (by destruct Hoc; subst oc).
  rewrite !andb_true_iff in Hall. destruct Hall as [[[[Hl Hh] Hne] Hx] Hy].
  apply negb_true_iff, Z.eqb_neq in Hne.
  rewrite (simplify_two temps op w l h [x; y]) by done.
  assert (Hdef : done_ok E op (Ret (do_default s temps op all_ones)))
    by (by apply handled_done, (two_default temps E op w l h [x; y] r)).
  destruct Hoc; subst oc; [|done]. unfold fold_constants. cbn [opc args op]. destruct w; [|done].
  destruct (is_const temps x && is_const temps y) eqn:Hc; [|done].
  rewrite !andb_true_iff in Hc. destruct Hc as [Hc1 Hc2].
  destruct (rd_const temps E W32 x Hi Hx Hc1) as (H1 & _).
  destruct (rd_const temps E W32 y Hi Hy Hc2) as (H2 & _).
  unfold r in Hev. rewrite H1, H2 in Hev. by apply two_movi.
Qed.

(** ** Branches *)

Lemma exec_br_inv E m E' m' f l :
  exec (mk_op INDEX_op_br [l] 0 0) E m E' m' f -> E' = bb_end s E /\ m' = m /\ f = Jump l.
Proof. inversion 1; simpl in *; try done; naive_solver. Qed.

(** A branch that is always taken. *)
Lemma good_br temps E op l :
  inv temps E -> labels [op] = [] -> (forall m, exec op E m (bb_end s E) m (Jump l)) ->
  handled_ok E op (Ret (br_to s temps l)).
Proof.
  intros Hi Hl Hx. apply handled_Ret; [done|]. cbn [br_to keep h_temps h_ops fst snd].
  apply good_same; [done|by rewrite Hl|]. intros m E1 m1 f (-> & -> & ->)%exec_br_inv.
  split; [done|]. intros _. apply inv_reset_all, env_ok_bb_end, Hi.
Qed.

(** A branch that is never taken. *)
Lemma good_br_never temps E op :
  inv temps E -> labels [op] = [] -> (forall m, exec op E m (bb_end s E) m Next) ->
  handled_ok E op (Ret (tcg_op_remove temps)).
Proof.
  intros Hi Hl Hx. apply handled_Ret; [done|].
  apply (good_remove E op temps (bb_end s E)); [done..|apply bb_end_le|done].
Qed.

(** An operation that ends the basic block, kept or replaced. *)
Lemma good_bb_end temps E op op' :
  inv temps E -> wf_op s op' = true -> labels [op'] = labels [op] ->
  (forall m E1 m1 f, exec op' E m E1 m1 f -> exec op E m E1 m1 f) ->
  handled_ok E op (Ret (keep (reset_all_temps s temps, op'))).
Proof.
  intros Hi Hwf Hl Hx. apply handled_Ret; [done|]. apply good_same; [done..|].
  intros m E1 m1 f He. split; [by apply Hx|]. intros _. apply inv_reset_all.
  eapply exec_env_ok; [done|apply Hi].
Qed.

Lemma simplify_brcond temps E w x y c l :
  let op := mk_op (INDEX_op_brcond w) [x; y; c; l] 0 0 in
  inv temps E -> wf_op s op = true -> handled_ok E op (simplify s HAS_neg HAS_not temps op).
Proof.
  intros op Hi Hwf. pose proof Hwf as [_ Hwa]%andb_true_iff. cbn in Hwa.
  rewrite !andb_true_iff in Hwa. destruct Hwa as [[Hx Hy] Hc].
  replace (simplify s HAS_neg HAS_not temps op) with
    (fold_constants s temps op (if is64 w then all_ones else all_ones)) by (by destruct w).
  unfold fold_constants. cbn [opc args op].
  destruct (do_folding_cond_ok temps E (INDEX_op_brcond w) w x y c) as (t & -> & Ht);
    [done..|by destruct w|]. cbn [mbind outcome_bind].
  destruct (Z.eqb_spec t 2) as [->|Hne]; cbn [negb]; [by apply (good_bb_end temps)|].
  destruct Ht as [?|(bt & -> & Hbt)]; [done|].
  assert (Hex : forall m, exec op E m (bb_end s E) m (if bt then Jump l else Next)).
  { intros m. apply (exec_brcond s ext op E m w x y c l bt); [done..|].
    destruct (eval_cond _ _ _ _) as [bb|]; [|done]. cbn. by rewrite (Hbt bb). }
  destruct bt; cbn; [by apply good_br|by apply good_br_never].
Qed.

(** ** Double-word comparisons *)

Lemma pair_range l h : 0 <= pair_of W32 l h < 2 ^ 64.
Proof.
  unfold pair_of. pose proof (low_range W32 l). pose proof (low_range W32 h). cbn [wbits] in *. lia.
Qed.

Lemma pair_val l h :
  u64 (h << 32) ||| u32 l = pair_of W32 (low W32 l) (low W32 h).
Proof.
  rewrite <- pair_lor. f_equal. bits_ext i Hi. destruct (Z.ltb_spec i 64); [|done].
  destruct (Z.ltb_spec (i - 32) 32); [done|lia].
Qed.

Lemma sem_cond_64 c x y :
  0 <= x < 2 ^ 64 -> 0 <= y < 2 ^ 64 -> valid_cond c = true ->
  do_constant_folding_cond_64 x y c = Ret (sem_cond W64 c x y).
Proof.
  intros Hx Hy Hc. pose proof (folding_cond_ok W64 x y c Hc) as Hf.
  by rewrite !low_W64 in Hf by done.
Qed.

Lemma eval_cond2_Some c al ah bl bh bb :
  eval_cond2 c al ah bl bh = Some bb ->
  exists vl vh wl wh, al = Some vl /\ ah = Some vh /\ bl = Some wl /\ bh = Some wh /\
    bb = sem_cond W64 c (pair_of W32 vl vh) (pair_of W32 wl wh).
Proof.
  destruct al, ah, bl, bh; try done. intros [= <-]. by eexists _, _, _, _.
Qed.

Section Cond2.
Context (temps : temps_t) (E : env) (al ah bl bh c : Z).
Hypothesis (Hi : inv temps E) (Hc : valid_cond c = true).
Hypothesis (Hal : in_ok s W32 al = true) (Hah : in_ok s W32 ah = true).
Hypothesis (Hbl : in_ok s W32 bl = true) (Hbh : in_ok s W32 bh = true).
#[local] Abbreviation ev c :=
  (eval_cond2 c (rd E W32 al) (rd E W32 ah) (rd E W32 bl) (rd E W32 bh)).

(** What is found of the comparison is what it evaluates to. *)
Definition cond2_ok (t : Z) : Prop :=
  t = 2 \/ exists bt : bool, t = b2z bt /\ forall bb, ev c = Some bb -> bb = bt.

Lemma cond2_copies :
  exists t, (l ← temps_are_copies s temps al bl;
             if negb l then Ret 2 else
             h ← temps_are_copies s temps ah bh;
             if negb h then Ret 2 else b2z <$> do_constant_folding_cond_eq c) = Ret t /\ cond2_ok t.
Proof.
  pose proof Hal as [Hl _]%in_ok_spec. pose proof Hah as [Hh _]%in_ok_spec.
  destruct (temps_are_copies_cases s temps al bl) as (sl & -> & Hcl); [apply Hi|done|].
  destruct (temps_are_copies_cases s temps ah bh) as (sh & -> & Hch); [apply Hi|done|].
  cbn [mbind outcome_bind]. destruct sl; [|by exists 2; split; [|left]].
  destruct sh; [|by exists 2; split; [|left]]. cbn [negb].
  rewrite (folding_cond_eq W64 (pair_of W32 (default 0 (rd E W32 al)) (default 0 (rd E W32 ah)))) by done.
  eexists. split; [done|]. right. eexists. split; [done|].
  intros bb (vl & vh & wl & wh & H1 & H2 & H3 & H4 & ->)%eval_cond2_Some.
  rewrite (rd_copies temps E W32 al bl) in H3 by done. rewrite (rd_copies temps E W32 ah bh) in H4 by done.
  rewrite H1 in *. rewrite H2 in *. injection H3 as <-. injection H4 as <-. done.
Qed.

Lemma folding_cond2_ok :
  exists t, do_constant_folding_cond2 s temps (al, ah) (bl, bh) c = Ret t /\ cond2_ok t.
Proof.
  pose proof cond2_copies as Hcp. unfold do_constant_folding_cond2.
  destruct (is_const temps bl && is_const temps bh) eqn:Hcb; [|done].
  apply andb_true_iff in Hcb as [Hcbl Hcbh]. rewrite !pair_val.
  destruct (rd_const temps E W32 bl Hi Hbl Hcbl) as (H3 & _).
  destruct (rd_const temps E W32 bh Hi Hbh Hcbh) as (H4 & _).
  destruct (is_const temps al && is_const temps ah) eqn:Hca.
  - apply andb_true_iff in Hca as [Hcal Hcah].
    destruct (rd_const temps E W32 al Hi Hal Hcal) as (H1 & _).
    destruct (rd_const temps E W32 ah Hi Hah Hcah) as (H2 & _).
    rewrite sem_cond_64 by (done || apply pair_range). eexists. split; [done|]. right. eexists.
    split; [done|]. rewrite H1, H2, H3, H4. by intros bb [= <-].
  - destruct (Z.eqb_spec (pair_of W32 (low W32 (val (temps bl))) (low W32 (val (temps bh)))) 0) as [H0|_];
      [|done].
    destruct (Z.eqb_spec c TCG_COND_LTU) as [Hlt|_]; [|destruct (Z.eqb_spec c TCG_COND_GEU) as [Hge|_]];
      [..|done]; (eexists; split; [done|]; right).
    + exists false. split; [done|]. intros bb (vl & vh & wl & wh & H1 & H2 & H3' & H4' & ->)%eval_cond2_Some.
      rewrite H3 in H3'. rewrite H4 in H4'. injection H3' as <-. injection H4' as <-. rewrite Hlt.
      apply sem_cond_zero. by rewrite H0.
    + exists true. split; [done|]. intros bb (vl & vh & wl & wh & H1 & H2 & H3' & H4' & ->)%eval_cond2_Some.
      rewrite H3 in H3'. rewrite H4 in H4'. injection H3' as <-. injection H4' as <-. rewrite Hge.
      apply sem_cond_zero. by rewrite H0.
Qed.
End Cond2.

Lemma pair_eqb vl vh wl wh :
  0 <= vl < 2 ^ 32 -> 0 <= vh < 2 ^ 32 -> 0 <= wl < 2 ^ 32 -> 0 <= wh < 2 ^ 32 ->
  (pair_of W32 vl vh =? pair_of W32 wl wh) = (vl =? wl) && (vh =? wh).
Proof.
  intros. unfold pair_of. rewrite !low_small by done. cbn [wbits].
  destruct (Z.eqb_spec vl wl), (Z.eqb_spec vh wh), (Z.eqb_spec (vl + 2 ^ 32 * vh) (wl + 2 ^ 32 * wh));
    done || lia.
Qed.

(** Equality of pairs, once one of the words is known. *)
Lemma pair_cond_eq c vl vh wl wh :
  0 <= vl < 2 ^ 32 -> 0 <= vh < 2 ^ 32 -> 0 <= wl < 2 ^ 32 -> 0 <= wh < 2 ^ 32 ->
  c = TCG_COND_EQ \/ c = TCG_COND_NE ->
  let z := sem_cond W64 c (pair_of W32 vl vh) (pair_of W32 wl wh) in
  (sem_cond W32 c vl wl = bool_decide (c = TCG_COND_NE) -> z = bool_decide (c = TCG_COND_NE)) /\
  (sem_cond W32 c vh wh = bool_decide (c = TCG_COND_NE) -> z = bool_decide (c = TCG_COND_NE)) /\
  (sem_cond W32 c vl wl = bool_decide (c = TCG_COND_EQ) -> z = sem_cond W32 c vh wh) /\
  (sem_cond W32 c vh wh = bool_decide (c = TCG_COND_EQ) -> z = sem_cond W32 c vl wl).
Proof.
  intros H1 H2 H3 H4 Hc. cbv zeta. destruct Hc as [-> | ->]; unfold sem_cond; cbn;
    rewrite !low_W64 by apply pair_range; rewrite pair_eqb, !(low_small W32) by done;
    destruct (vl =? wl), (vh =? wh); done.
Qed.

(** The sign of a pair is that of its high word. *)
Lemma pair_cond_sign c vl vh :
  0 <= vl < 2 ^ 32 -> 0 <= vh < 2 ^ 32 -> c = TCG_COND_LT \/ c = TCG_COND_GE ->
  sem_cond W64 c (pair_of W32 vl vh) (pair_of W32 0 0) = sem_cond W32 c vh 0.
Proof.
  intros Hl Hh Hc. pose proof (pair_range vl vh).
  assert ((slow W64 (pair_of W32 vl vh) <? 0) = (slow W32 vh <? 0)) as Hs.
  { unfold slow, sext. cbn [wbits]. rewrite (wrap_small 64), (wrap_small 32) by done.
    unfold pair_of. rewrite !(low_small W32) by done. cbn [wbits].
    change (64 - 1) with 63. change (32 - 1) with 31.
    destruct (Z.ltb_spec (vl + 2 ^ 32 * vh) (2 ^ 63)), (Z.ltb_spec vh (2 ^ 31)); lia. }
  destruct Hc as [-> | ->].
  - exact Hs.
  - change ((0 <=? slow W64 (pair_of W32 vl vh)) = (0 <=? slow W32 vh)).
    rewrite !Z.leb_antisym. by rewrite Hs.
Qed.

Lemma exec_brcond_inv w x y c l E m E' m' f :
  exec (mk_op (INDEX_op_brcond w) [x; y; c; l] 0 0) E m E' m' f ->
  exists bb : bool, cond_may (eval_cond c w (rd E w x) (rd E w y)) bb /\
    E' = bb_end s E /\ m' = m /\ f = if bb then Jump l else Next.
Proof. inversion 1; simpl in *; try done. exists b. naive_solver. Qed.

Section Brcond2.
Context (temps : temps_t) (E : env) (al ah bl bh c l : Z).
#[local] Abbreviation op := (mk_op INDEX_op_brcond2_i32 [al; ah; bl; bh; c; l] 0 0).
#[local] Abbreviation ev :=
  (eval_cond2 c (rd E W32 al) (rd E W32 ah) (rd E W32 bl) (rd E W32 bh)).
Hypothesis (Hi : inv temps E) (Hc : valid_cond c = true).
Hypothesis (Hal : in_ok s W32 al = true) (Hah : in_ok s W32 ah = true).
Hypothesis (Hbl : in_ok s W32 bl = true) (Hbh : in_ok s W32 bh = true).

Lemma br2_fixed (bt : bool) :
  (forall bb, ev = Some bb -> bb = bt) ->
  handled_ok E op (Ret (if bt then br_to s temps l else tcg_op_remove temps)).
Proof.
  intros Hbt.
  assert (Hex : forall m, exec op E m (bb_end s E) m (if bt then Jump l else Next)).
  { intros m. apply (exec_brcond2 s ext op E m al ah bl bh c l bt); [done..|].
    destruct ev as [bb|]; [|done]. cbn. by rewrite (Hbt bb). }
  destruct bt; [by apply good_br|by apply good_br_never].
Qed.

(** A comparison of single words in its place. *)
Lemma br2_word x y :
  in_ok s W32 x = true -> in_ok s W32 y = true ->
  (forall bb bb', ev = Some bb -> eval_cond c W32 (rd E W32 x) (rd E W32 y) = Some bb' -> bb = bb') ->
  (ev <> None -> eval_cond c W32 (rd E W32 x) (rd E W32 y) <> None) ->
  handled_ok E op
    (Ret (keep (reset_all_temps s temps, mk_op (INDEX_op_brcond W32) [x; y; c; l] 0 0))).
Proof.
  intros Hx Hy Heq Hsome. apply good_bb_end; try done.
  { unfold wf_op. cbn. rewrite Hx, Hy. apply Hc. }
  intros m E1 m1 f (bb & Hm & -> & -> & ->)%exec_brcond_inv.
  apply (exec_brcond2 s ext op E m al ah bl bh c l bb); [done..|].
  destruct ev as [bv|]; [|done]. cbn.
  destruct (eval_cond c W32 (rd E W32 x) (rd E W32 y)) as [bw|]; [|by destruct Hsome].
  cbn in Hm. subst bb. symmetry. by apply Heq.
Qed.

(** The words that are compared when the comparison is evaluated. *)
Lemma br2_words bb :
  ev = Some bb ->
  exists vl vh wl wh, rd E W32 al = Some vl /\ rd E W32 ah = Some vh /\
    rd E W32 bl = Some wl /\ rd E W32 bh = Some wh /\
    0 <= vl < 2 ^ 32 /\ 0 <= vh < 2 ^ 32 /\ 0 <= wl < 2 ^ 32 /\ 0 <= wh < 2 ^ 32 /\
    bb = sem_cond W64 c (pair_of W32 vl vh) (pair_of W32 wl wh) /\
    eval_cond c W32 (rd E W32 al) (rd E W32 bl) = Some (sem_cond W32 c vl wl) /\
    eval_cond c W32 (rd E W32 ah) (rd E W32 bh) = Some (sem_cond W32 c vh wh).
Proof.
  intros (vl & vh & wl & wh & H1 & H2 & H3 & H4 & ->)%eval_cond2_Some.
  exists vl, vh, wl, wh. rewrite H1, H2, H3, H4.
  pose proof (rd_range E W32 al vl H1). pose proof (rd_range E W32 ah vh H2).
  pose proof (rd_range E W32 bl wl H3). pose proof (rd_range E W32 bh wh H4). done.
Qed.

(** The words left to compare when the others are known to agree. *)
Lemma br2_high :
  c = TCG_COND_EQ \/ c = TCG_COND_NE ->
  (forall bb, eval_cond c W32 (rd E W32 al) (rd E W32 bl) = Some bb -> bb = bool_decide (c = TCG_COND_EQ)) ->
  handled_ok E op (Ret (keep (reset_all_temps s temps, mk_op (INDEX_op_brcond W32) [ah; bh; c; l] 0 0))).
Proof.
  intros Hcc Hlow. apply br2_word; [done..| |].
  - intros bb bb' (vl & vh & wl & wh & _ & _ & _ & _ & ? & ? & ? & ? & -> & He1 & He2)%br2_words He.
    rewrite He2 in He. injection He as <-.
    destruct (pair_cond_eq c vl vh wl wh) as (_ & _ & Hz & _); [done..|]. by apply Hz, Hlow.
  - destruct ev as [bb|] eqn:He; [|done]. intros _.
    apply br2_words in He as (vl & vh & wl & wh & _ & _ & _ & _ & _ & _ & _ & _ & _ & _ & ->). done.
Qed.

Lemma br2_low :
  c = TCG_COND_EQ \/ c = TCG_COND_NE ->
  (forall bb, eval_cond c W32 (rd E W32 ah) (rd E W32 bh) = Some bb -> bb = bool_decide (c = TCG_COND_EQ)) ->
  handled_ok E op (Ret (keep (reset_all_temps s temps, mk_op (INDEX_op_brcond W32) [al; bl; c; l] 0 0))).
Proof.
  intros Hcc Hlow. apply br2_word; [done..| |].
  - intros bb bb' (vl & vh & wl & wh & _ & _ & _ & _ & ? & ? & ? & ? & -> & He1 & He2)%br2_words He.
    rewrite He1 in He. injection He as <-.
    destruct (pair_cond_eq c vl vh wl wh) as (_ & _ & _ & Hz); [done..|]. by apply Hz, Hlow.
  - destruct ev as [bb|] eqn:He; [|done]. intros _.
    apply br2_words in He as (vl & vh & wl & wh & _ & _ & _ & _ & _ & _ & _ & _ & _ & -> & _). done.
Qed.

(** One pair of words known to differ decides. *)
Lemma br2_differ :
  c = TCG_COND_EQ \/ c = TCG_COND_NE ->
  (forall bb, eval_cond c W32 (rd E W32 al) (rd E W32 bl) = Some bb -> bb = bool_decide (c = TCG_COND_NE)) \/
  (forall bb, eval_cond c W32 (rd E W32 ah) (rd E W32 bh) = Some bb -> bb = bool_decide (c = TCG_COND_NE)) ->
  handled_ok E op
    (Ret (if bool_decide (c = TCG_COND_NE) then br_to s temps l else tcg_op_remove temps)).
Proof.
  intros Hcc Hd. apply br2_fixed.
  intros bb (vl & vh & wl & wh & _ & _ & _ & _ & ? & ? & ? & ? & -> & He1 & He2)%br2_words.
  destruct (pair_cond_eq c vl vh wl wh) as (Hz1 & Hz2 & _); [done..|].
  destruct Hd as [Hd|Hd]; [by apply Hz1, Hd|by apply Hz2, Hd].
Qed.

Lemma br2_sign :
  c = TCG_COND_LT \/ c = TCG_COND_GE -> const_is temps bl 0 = true -> const_is temps bh 0 = true ->
  handled_ok E op (Ret (keep (reset_all_temps s temps, mk_op (INDEX_op_brcond W32) [ah; bh; c; l] 0 0))).
Proof.
  intros Hcc Hb1 Hb2. apply (rd_const_is temps E W32 bl) in Hb1; [|done..].
  apply (rd_const_is temps E W32 bh) in Hb2; [|done..]. rewrite low_0 in *.
  apply br2_word; [done..| |].
  - intros bb bb' (vl & vh & wl & wh & _ & _ & H3 & H4 & ? & ? & _ & _ & -> & _ & He2)%br2_words He.
    rewrite He2 in He. injection He as <-. rewrite Hb1 in H3. rewrite Hb2 in H4.
    injection H3 as <-. injection H4 as <-. by apply pair_cond_sign.
  - destruct ev as [bb|] eqn:He; [|done]. intros _.
    apply br2_words in He as (vl & vh & wl & wh & _ & _ & _ & _ & _ & _ & _ & _ & _ & _ & ->). done.
Qed.

(** What is found of one pair of words. *)
Lemma br2_part x y :
  in_ok s W32 x = true -> in_ok s W32 y = true ->
  exists t, do_constant_folding_cond s temps (INDEX_op_brcond W32) x y c = Ret t /\
    (t = 2 \/ exists bt : bool, t = b2z bt /\
       forall bb, eval_cond c W32 (rd E W32 x) (rd E W32 y) = Some bb -> bb = bt).
Proof. intros. by apply do_folding_cond_ok. Qed.

Lemma br2_default : handled_ok E op (Ret (do_default s temps op all_ones)).
Proof.
  apply good_bb_end; try done. unfold wf_op. cbn. rewrite Hal, Hah, Hbl, Hbh. apply Hc.
Qed.

Lemma simplify_brcond2 : handled_ok E op (simplify s HAS_neg HAS_not temps op).
Proof.
  change (simplify s HAS_neg HAS_not temps op) with (fold_brcond2 s temps op all_ones al ah bl bh c l).
  unfold fold_brcond2. destruct (folding_cond2_ok temps E al ah bl bh c) as (t & -> & Ht); [done..|].
  cbn [mbind outcome_bind]. destruct (Z.eqb_spec t 2) as [->|Hne]; cbn [negb].
  2: { destruct Ht as [?|(bt & -> & Hbt)]; [done|]. pose proof (br2_fixed bt Hbt). by destruct bt. }
  clear Ht. pose proof br2_default as Hdef.
  destruct (((c =? TCG_COND_LT) || (c =? TCG_COND_GE)) && const_is temps bl 0 && const_is temps bh 0) eqn:Hs.
  { rewrite !andb_true_iff, orb_true_iff, !Z.eqb_eq in Hs. destruct Hs as [[??]?]. by apply br2_sign. }
  destruct (br2_part al bl Hal Hbl) as (tl & Htl & Hl). destruct (br2_part ah bh Hah Hbh) as (th & Hth & Hh).
  destruct (Z.eqb_spec c TCG_COND_EQ) as [Heq|_].
  - assert (Hcc : c = TCG_COND_EQ \/ c = TCG_COND_NE) by auto.
    pose proof (br2_high Hcc) as HH. pose proof (br2_low Hcc) as HL. pose proof (br2_differ Hcc) as HD.
    subst c. cbn in HD. rewrite Htl. cbn [mbind outcome_bind].
    destruct Hl as [->|([] & -> & Hl)]; cbn; [|by apply HH|by apply HD; left].
    rewrite Hth. cbn [mbind outcome_bind].
    destruct Hh as [->|([] & -> & Hh)]; cbn; [done|by apply HL|by apply HD; right].
  - destruct (Z.eqb_spec c TCG_COND_NE) as [Heq|_]; [|done].
    assert (Hcc : c = TCG_COND_EQ \/ c = TCG_COND_NE) by auto.
    pose proof (br2_high Hcc) as HH. pose proof (br2_low Hcc) as HL. pose proof (br2_differ Hcc) as HD.
    subst c. cbn in HD. rewrite Htl. cbn [mbind outcome_bind].
    destruct Hl as [->|([] & -> & Hl)]; cbn; [|by apply HD; left|by apply HH].
    rewrite Hth. cbn [mbind outcome_bind].
    destruct Hh as [->|([] & -> & Hh)]; cbn; [done|by apply HD; right|by apply HL].
Qed.
End Brcond2.

(** ** Labels and jumps *)

Lemma simplify_label temps E oc l :
  let op := mk_op oc [l] 0 0 in
  oc = INDEX_op_set_label \/ oc = INDEX_op_br -> inv temps E ->
  handled_ok E op (simplify s HAS_neg HAS_not temps op).
Proof.
  intros op Hoc Hi.
  assert (simplify s HAS_neg HAS_not temps op = Ret (keep (reset_all_temps s temps, op))) as ->
    by (destruct Hoc; by subst oc).
  apply good_bb_end; try done. by destruct Hoc; subst oc.
Qed.

(** ** Operations with effects *)

Lemma exec_effect_inv op E m E' m' f :
  is_effect (opc op) = true -> exec op E m E' m' f ->
  exists g vals go, E' = after_effect s E op g vals go /\ f = if go then Next else Stop.
Proof.
  intros He Hx. destruct Hx as [E' Hev|Ht|l Ho Ha|l Ho Ha|w x y c l b Ho Ha Hc
    |al ah bl bh c l b Ho Ha Hc|ins gl vals gl' m' go Hf Hi Hg Hgo Hx];
    try (rewrite Ho in He; done); [| |by eexists _, _, _].
  - exfalso. unfold eval_op in Hev. by destruct (opc op).
  - exfalso. unfold may_trap in Ht. by destruct (opc op).
Qed.

Lemma inv_resets l temps E E' :
  inv temps E -> Forall (fun t => in_temps s t = true) l -> env_ok s E' ->
  (forall t, t ∉ l -> E' t = E t) -> inv (fold_left reset_temp l temps) E'.
Proof.
  revert temps E. induction l as [|a l IH]; intros temps E Hi Hl He' HE; cbn.
  - destruct Hi as [He Hr Hinf]. constructor; [done..|]. intros t Ht. destruct (Hinf t Ht).
    assert (forall x, E' x = E x) as HE' by (intros; apply HE; set_solver).
    constructor; intros; rewrite ?HE' in *; auto.
  - inversion Hl; subst. set (Ea := fun t => if t =? a then E' t else E t).
    apply (IH _ Ea); [|done..|].
    + apply (inv_reset s temps E); [done..| |].
      * intros t Ht. unfold Ea. by destruct (Z.eqb_spec t a).
      * intros t v. unfold Ea. destruct (t =? a); [apply He'|apply Hi].
    + intros t Ht. unfold Ea. destruct (Z.eqb_spec t a); [done|]. apply HE. set_solver.
Qed.

Lemma wr_outs_other E op outs vals t : t ∉ outs -> wr_outs s E op outs vals t = E t.
Proof.
  revert E vals. induction outs as [|o outs IH]; intros E vals Ht; [done|]. cbn.
  rewrite IH by set_solver. apply wr_ne. set_solver.
Qed.

(** What an effect leaves of the knowledge: the outputs are forgotten but for
    the mask of the first. *)
Lemma inv_reset_output temps E op outs vals m :
  inv temps E -> Forall (fun t => in_temps s t = true) outs ->
  match outs with
  | [] => True
  | o :: _ => 0 <= m < 2 ^ 64 /\ (forall v, covers m (low (temp_type s o) (loaded op v))) /\
              (temp_type s o = W32 -> covers m high_ones)
  end ->
  inv (reset_output temps m outs) (wr_outs s E op outs vals).
Proof.
  intros Hi Ho Hm. destruct outs as [|o outs]; [done|]. destruct Hm as (Hr & Hc & Hh).
  inversion Ho; subst. cbn [reset_output wr_outs].
  set (E1 := wr E _ o _). apply (inv_resets outs _ E1); [|done|apply env_ok_wr_outs, env_ok_wr, Hi|].
  - apply (inv_reset_mask s temps E); try done.
    + intros t Ht. by apply wr_ne.
    + apply env_ok_wr, Hi.
    + intros v. unfold E1. rewrite wr_eq by done. intros [= <-]. by apply covers_low.
  - intros t Ht. by apply wr_outs_other.
Qed.

(** The mask recorded for the first output holds. *)
Definition output_mask (op : TCGOp) (m : Z) : Prop :=
  match op_outputs op with
  | [] => True
  | o :: _ => 0 <= m < 2 ^ 64 /\ (forall v, covers m (low (temp_type s o) (loaded op v))) /\
              (temp_type s o = W32 -> covers m high_ones)
  end.

Lemma effect_default temps E op m :
  is_effect (opc op) = true -> opc op <> INDEX_op_call -> inv temps E -> wf_op s op = true ->
  Forall (fun t => in_temps s t = true) (op_outputs op) -> output_mask op m ->
  handled_ok E op (Ret (do_default s temps op m)).
Proof.
  intros He Hnc Hi Hwf Ho Hm. unfold do_default.
  destruct (OPF_BB_END (tcg_op_defs (opc op))) eqn:Hbb; [by apply good_bb_end|].
  apply handled_Ret; [done|]. apply good_same; [done..|].
  intros m0 E1 m1 f Hx. split; [done|]. intros Hf.
  destruct (exec_effect_inv op E m0 E1 m1 f He Hx) as (g & vals & [] & -> & ->); [|done].
  unfold after_effect. rewrite Hbb. cbn [keep h_temps fst].
  apply inv_reset_output; [|done|done].
  assert (wr_globals s E op g = E) as ->; [|done].
  unfold wr_globals, writes_globals. by rewrite bool_decide_eq_false_2.
Qed.

Lemma forallb_in_temps l : forallb (in_temps s) l = true <-> Forall (fun t => in_temps s t = true) l.
Proof. rewrite forallb_forall, Forall_forall. setoid_rewrite list_elem_of_In. done. Qed.

Lemma effect_call temps E op :
  wf_ctx s = true -> opc op = INDEX_op_call -> inv temps E -> wf_op s op = true ->
  handled_ok E op (Ret (do_call s temps op all_ones)).
Proof.
  intros Hctx Hc Hi Hwf. pose proof Hwf as [_ Hwa]%andb_true_iff. unfold wf_args in Hwa.
  rewrite Hc in Hwa. apply andb_true_iff in Hwa as [Ho%forallb_in_temps _].
  apply handled_Ret; [done|]. unfold do_call. cbn [keep h_temps h_ops fst snd].
  apply good_same; [done..|]. intros m0 E1 m1 f Hx. split; [done|]. intros Hf.
  destruct (exec_effect_inv op E m0 E1 m1 f) as (g & vals & [] & -> & ->); [by rewrite Hc|done| |done].
  unfold after_effect. rewrite Hc. cbn [tcg_op_defs row OPF_BB_END].
  apply inv_reset_output; [|done|].
  - unfold wr_globals, writes_globals, call_flags. rewrite bool_decide_eq_true_2 by done. cbn [andb].
    destruct (negb (has_bits _ (TCG_CALL_NO_READ_GLOBALS ||| _))); cbn [andb]; [|done].
    apply andb_true_iff in Hctx as [Hg1%Z.leb_le Hg2%Z.leb_le].
    apply (inv_resets _ _ E); [done|..].
    + apply Forall_forall. intros t Ht%elem_of_seqZ. unfold in_temps.
      apply andb_true_iff. rewrite Z.leb_le, Z.ltb_lt. lia.
    + intros t v. destruct (_ && _); [|apply Hi]. intros [= <-]. apply low_range.
    + intros t Ht. destruct (_ && (0 <=? t) && (t <? nb_globals s)) eqn:Hin; [|done].
      rewrite !andb_true_iff in Hin. destruct Ht. apply elem_of_seqZ. lia.
  - fold (op_outputs op). destruct (op_outputs op) as [|o outs]; [done|].
    split; [apply all_ones_range|]. split; [|intros _; apply covers_all_ones, high_ones_range].
    intros v. apply covers_all_ones, (value_64 (temp_type s o)), low_range.
Qed.

Lemma output_mask_all op : output_mask op all_ones.
Proof.
  unfold output_mask. destruct (op_outputs op) as [|o outs]; [done|].
  split; [apply all_ones_range|]. split; [|intros _; apply covers_all_ones, high_ones_range].
  intros v. apply covers_all_ones, (value_64 (temp_type s o)), low_range.
Qed.

(** The mask of a load of [w] bits into a variable, high half included. *)
Lemma output_mask_load op w d m :
  op_outputs op = [d] -> temp_type s d = w -> 0 <= m < 2 ^ 64 ->
  (forall v, covers m (low w (loaded op v))) ->
  output_mask op (if is64 w then m else m ||| high_ones).
Proof.
  intros Ho Hw Hm Hc. unfold output_mask. rewrite Ho, Hw. destruct w; cbn [is64].
  - split; [apply lor_range; [lia|done|apply high_ones_range]|].
    split; [intros v; by apply covers_lor_l|intros _; apply covers_lor_r].
  - done.
Qed.

Lemma covers_wrap_ones n m v w : 0 <= n -> m = Z.ones n -> covers m (low w (wrap n v)).
Proof.
  intros Hn ->. apply covers_low. intros i Hi0. rewrite testbit_wrap, testbit_ones by done.
  intros [-> _]%andb_true_iff. by destruct (Z.leb_spec 0 i); [|lia].
Qed.

Lemma size_cases mop : let k := mop &&& MO_SIZE in k = 0 \/ k = 1 \/ k = 2 \/ k = 3.
Proof.
  cbv zeta. assert (mop &&& MO_SIZE = wrap 2 mop) as -> by (by rewrite wrap_land).
  pose proof (wrap_range 2 mop ltac:(lia)). lia.
Qed.

Lemma load_mask mop v w :
  has_bits mop MO_SIGN = false ->
  let m := u64 (u64 (2 << ((8 << (mop &&& MO_SIZE)) - 1)) - 1) in
  covers m (low w (load_ext mop v)).
Proof.
  intros Hs. cbv zeta. unfold load_ext. rewrite Hs.
  destruct (size_cases mop) as [-> |[-> |[-> | ->]]];
    [apply (covers_wrap_ones 8)|apply (covers_wrap_ones 16)|apply (covers_wrap_ones 32)
    |apply (covers_wrap_ones 64)]; done.
Qed.

Lemma simplify_qemu_ld temps w d x mop idx co ci :
  let op := mk_op (INDEX_op_qemu_ld w) [d; x; mop; idx] co ci in
  let m := (if has_bits mop MO_SIGN then no_mask
            else (u64 (u64 (2 << ((8 << (mop &&& MO_SIZE)) - 1)) - 1), all_ones)).1 in
  Ret (do_default s temps op (if is64 w then m else m ||| high_ones))
    = simplify s HAS_neg HAS_not temps op.
Proof.
  intros op m.
  assert (Hk : known_zero temps op = Ret (if has_bits mop MO_SIGN then no_mask
    else (u64 (u64 (2 << ((8 << (mop &&& MO_SIZE)) - 1)) - 1), all_ones))) by done.
  unfold simplify. change (simplify_unary HAS_neg HAS_not temps op) with (@None handled).
  change (simplify_mov s temps op) with (@Ret (option handled) None). cbn [mbind outcome_bind].
  unfold simplify_zero. rewrite Hk. unfold m.
  destruct (has_bits mop MO_SIGN); [by destruct w|].
  destruct (size_cases mop) as [-> |[-> |[-> | ->]]]; by destruct w.
Qed.

Lemma simplify_effect temps E op :
  wf_ctx s = true -> is_effect (opc op) = true -> inv temps E -> wf_op s op = true ->
  handled_ok E op (simplify s HAS_neg HAS_not temps op).
Proof.
  intros Hctx He Hi Hwf. pose proof Hwf as [[_ Hcnt]%andb_true_iff Hwa]%andb_true_iff.
  destruct op as [oc al co ci]. cbn [opc] in He. unfold wf_counts in Hcnt. unfold wf_args in Hwa.
  cbn [opc args callo calli] in *.
  assert (Hload : forall d tl w m, al = d :: tl -> out_ok s w d = true ->
    op_oargs (mk_op oc al co ci) = 1%nat -> oc <> INDEX_op_call -> 0 <= m < 2 ^ 64 ->
    (forall v, covers m (low w (loaded (mk_op oc al co ci) v))) ->
    handled_ok E (mk_op oc al co ci)
      (Ret (do_default s temps (mk_op oc al co ci) (if is64 w then m else m ||| high_ones)))).
  { intros d tl w m Hal [Hin Hty]%out_ok_spec Hoa Hnc Hm Hc.
    assert (op_outputs (mk_op oc al co ci) = [d]) as Ho by (unfold op_outputs; rewrite Hoa; cbn; by rewrite Hal).
    apply effect_default; try done; [rewrite Ho; by repeat constructor|].
    by apply (output_mask_load _ w d). }
  destruct oc as [| | |w|w|w|w|w|w| |b w|u w|w|w|w|w|w|w| | | |w| | |name def]; try done.
  - replace (simplify _ _ _ _ _) with (Ret (do_call s temps (mk_op INDEX_op_call al co ci) all_ones)) by done.
    by apply effect_call.
  - destruct al as [|d [|x [|o [|]]]]; try done. apply andb_true_iff in Hwa as [Hd _].
    replace (simplify _ _ _ _ _) with
      (Ret (do_default s temps (mk_op (INDEX_op_ld8u w) [d; x; o] co ci)
              (if is64 w then 0xff else 0xff ||| high_ones))) by (by destruct w).
    apply (Hload d [x; o] w); try done. intros v. by apply (covers_wrap_ones 8).
  - destruct al as [|d [|x [|o [|]]]]; try done. apply andb_true_iff in Hwa as [Hd _].
    replace (simplify _ _ _ _ _) with
      (Ret (do_default s temps (mk_op (INDEX_op_ld16u w) [d; x; o] co ci)
              (if is64 w then 0xffff else 0xffff ||| high_ones))) by (by destruct w).
    apply (Hload d [x; o] w); try done. intros v. by apply (covers_wrap_ones 16).
  - destruct al as [|d [|x [|o [|]]]]; try done. apply andb_true_iff in Hwa as [Hd _].
    apply (Hload d [x; o] W64 0xffffffff); try done. intros v. by apply (covers_wrap_ones 32).
  - destruct al as [|d [|x [|mop [|idx [|]]]]]; try done. apply andb_true_iff in Hwa as [Hd _].
    set (op := mk_op _ _ _ _) in *. set (m := (if has_bits mop MO_SIGN then no_mask
         else (u64 (u64 (2 << ((8 << (mop &&& MO_SIZE)) - 1)) - 1), all_ones)).1).
    replace (simplify _ _ _ _ op) with
      (Ret (do_default s temps op (if is64 w then m else m ||| high_ones))) by apply simplify_qemu_ld.
    apply (Hload d [x; mop; idx] w); try done; unfold m; cbn [loaded op opc].
    + destruct (has_bits mop MO_SIGN); [apply all_ones_range|apply u64_range].
    + intros v. destruct (has_bits mop MO_SIGN) eqn:Hs; [|by apply (load_mask mop v w)].
      apply covers_all_ones, (value_64 w), low_range.
  - apply andb_true_iff in Hwa as [Ho%forallb_in_temps _].
    replace (simplify _ _ _ _ _) with
      (Ret (do_default s temps (mk_op (INDEX_op_other name def) al co ci) all_ones)).
    + apply effect_default; try done. apply output_mask_all.
    + unfold simplify. cbn. unfold simplify_zero. cbn. by destruct (OPF_64BIT def).
Qed.

(** ** Every operation *)

(** ** Markers *)

Lemma simplify_discard temps E t :
  let op := mk_op INDEX_op_discard [t] 0 0 in
  inv temps E -> wf_op s op = true -> handled_ok E op (simplify s HAS_neg HAS_not temps op).
Proof.
  intros op Hi Hwf. pose proof Hwf as [_ Hin]%andb_true_iff. cbn in Hin.
  replace (simplify _ _ _ _ op) with (Ret (do_default s temps op all_ones)) by done.
  apply handled_Ret; [done|]. apply good_same; [done..|]. intros m E1 m1 f Hx. split; [done|]. intros _.
  destruct (exec_eval_inv op E m E1 m1 f _ eq_refl eq_refl Hx) as (-> & _ & _).
  apply (inv_reset_mask s temps E); try done.
  - intros i Hne. by apply wr_ne.
  - apply env_ok_wr, Hi.
  - intros v. rewrite wr_eq by done. done.
  - intros _. apply covers_all_ones, high_ones_range.
Qed.

Lemma simplify_debug_insn_start temps E v :
  let op := mk_op INDEX_op_debug_insn_start [v] 0 0 in
  inv temps E -> handled_ok E op (simplify s HAS_neg HAS_not temps op).
Proof.
  intros op Hi. replace (simplify _ _ _ _ op) with (Ret (do_default s temps op all_ones)) by done.
  apply handled_Ret; [done|]. apply good_same; [done..|]. intros m E1 m1 f Hx. split; [done|]. intros _.
  by destruct (exec_eval_inv op E m E1 m1 f _ eq_refl eq_refl Hx) as (-> & _ & _).
Qed.

Lemma simplify_ok temps E op :
  wf_ctx s = true -> inv temps E -> wf_op s op = true ->
  done_ok E op (simplify s HAS_neg HAS_not temps op).
Proof.
  intros Hctx Hi Hwf. destruct (is_effect (opc op)) eqn:He.
  { by apply handled_done, simplify_effect. }
  pose proof Hwf as [[Hwc Hcnt]%andb_true_iff Hwa]%andb_true_iff.
  destruct op as [oc al co ci]. cbn [opc] in He, Hwc.
  assert (co = 0%nat /\ ci = 0%nat) as [-> ->].
  { unfold wf_counts in Hcnt. cbn [opc callo calli] in Hcnt.
    rewrite bool_decide_eq_false_2 in Hcnt by (by intros ->). apply andb_true_iff in Hcnt as [H1 H2].
    by apply Nat.eqb_eq in H1, H2. }
  unfold wf_args in Hwa. cbn [opc args] in Hwa.
  destruct oc as [| | |w|w|w|w|w|w| |b w|u w|w|w|w|w|w|w| | | |w| | |name def]; try done;
    repeat (destruct al as [|? al]; try done).
  - apply handled_done, simplify_label; auto.
  - apply handled_done, simplify_label; auto.
  - by apply handled_done, simplify_mov_op.
  - by apply handled_done, simplify_movi.
  - by apply handled_done, simplify_setcond.
  - by apply handled_done, simplify_movcond.
  - rewrite !andb_true_iff in Hwa. destruct Hwa as [[??]?]. by apply handled_done, bin_simplify.
  - by apply handled_done, simplify_un.
  - by apply handled_done, simplify_deposit.
  - by apply handled_done, simplify_brcond.
  - apply (simplify_add2 temps E _ w); auto.
  - apply (simplify_add2 temps E _ w); auto.
  - apply (simplify_mul2 temps E _ w); auto.
  - apply (simplify_mul2 temps E _ w); auto.
  - rewrite !andb_true_iff in Hwa. destruct Hwa as [[[[??]?]?]?]. by apply handled_done, simplify_brcond2.
  - by apply handled_done, simplify_trunc_shr.
  - by apply handled_done, simplify_discard.
  - by apply handled_done, simplify_debug_insn_start.
Qed.

End Good.
