(* ===== verification/TcgCorrect.v ===== *)
(** * Correctness of the TCG optimiser

    The optimised block does what the block may do (src/tcg/optimize.c). *)

From S2P Require Import Prelude HostUtils BitField TcgOp TcgOpt TcgSem.
From S2P Require Import TcgMono TcgInv TcgFold TcgMask TcgGood.

Section Correct.
Context (s : TCGContext) (HAS_neg HAS_not : width -> bool).
Context {World : Type}.
Context (ext : TCGOpcode -> list Z -> list Z -> list Z -> World ->
               list Z -> list Z -> World -> bool -> Prop).

#[local] Abbreviation exec := (exec s ext).
#[local] Abbreviation inv := (inv s).
#[local] Abbreviation rd := (rd s).
#[local] Abbreviation good := (good s ext).
#[local] Abbreviation done_ok := (done_ok s HAS_neg HAS_not ext).

(** ** Copy propagation *)

(** Arguments after propagation into the [n] inputs that follow [i] outputs. *)
Fixpoint propagated (temps : temps_t) (i n : nat) (l l' : list Z) : Prop :=
  match i, n, l, l' with
  | S i, _, a :: l, a' :: l' => a' = a /\ propagated temps i n l l'
  | O, S n, a :: l, a' :: l' => copies temps a a' /\ propagated temps 0 n l l'
  | _, _, l, l' => l' = l
  end.

Lemma propagate_ok temps i n l :
  rings s temps -> Forall (fun t => in_temps s t = true) (firstn n (skipn i l)) ->
  exists l', propagate s temps i n l = Ret l' /\ propagated temps i n l l'.
Proof.
  intros Hr. revert i n. induction l as [|a l IH]; intros i n Hin.
  { exists []. by destruct i, n. }
  destruct i as [|i]; cbn [propagate propagated].
  - destruct n as [|n]; [by eexists|]. cbn in Hin. inversion Hin as [|? ? Ha Hl]; subst.
    destruct (IH 0%nat n) as (l' & -> & Hl'); [by destruct l|].
    unfold is_copy. case_bool_decide as Hc.
    + destruct (find_better_copy_ok s temps a Hr Ha Hc) as (j & -> & Hj & _). cbn. by eexists.
    + cbn. eexists. split; [done|]. by split; [left|].
  - destruct (IH i n Hin) as (l' & -> & Hl'). cbn. by eexists.
Qed.

(** Operations that only compute: their results decide what they do. *)
Definition is_pure (oc : TCGOpcode) : bool :=
  match oc with
  | INDEX_op_set_label | INDEX_op_br | INDEX_op_brcond _ | INDEX_op_brcond2_i32 => false
  | _ => negb (is_effect oc)
  end.

Lemma exec_pure_transfer op op' E m E1 m1 f :
  is_pure (opc op') = true -> eval_op s E op' = eval_op s E op ->
  may_trap s E op' = may_trap s E op -> exec op' E m E1 m1 f -> exec op E m E1 m1 f.
Proof.
  intros Hp He Ht Hx. destruct Hx as [E' Hev|Ht'|l Ho Ha|l Ho Ha|w x y c l b Ho Ha Hc
    |al ah bl bh c l b Ho Ha Hc|ins gl vals gl' m' go Hf Hi Hg Hgo Hx];
    try (rewrite Ho in Hp; done).
  - constructor. congruence.
  - constructor. congruence.
  - exfalso. by destruct (opc op').
Qed.

(** What propagation leaves as it was. *)
Lemma propagated_parts temps i n l l' :
  propagated temps i n l l' ->
  firstn i l' = firstn i l /\ skipn (i + n) l' = skipn (i + n) l /\
  Forall2 (copies temps) (firstn n (skipn i l)) (firstn n (skipn i l')).
Proof.
  revert i n l'. induction l as [|a l IH]; intros i n l' Hp.
  { assert (l' = []) as -> by (by destruct i, n). by destruct i, n. }
  destruct i as [|i]; [destruct n as [|n]|]; cbn in Hp.
  - by subst l'.
  - destruct l' as [|a' l']; [done|]. destruct Hp as [Ha Hp]. destruct (IH 0%nat n l' Hp) as (_ & H2 & H3).
    cbn in *. split_and!; [done|done|by constructor].
  - destruct l' as [|a' l']; [done|]. destruct Hp as [-> Hp]. destruct (IH i n l' Hp) as (H1 & H2 & H3).
    cbn in *. by rewrite H1.
Qed.

Lemma nth_skipn_eq (l l' : list Z) k j :
  skipn k l' = skipn k l -> (k <= j)%nat -> nth j l' 0 = nth j l 0.
Proof.
  intros Hs Hj. replace j with (k + (j - k))%nat by lia.
  by rewrite <- !nth_skipn, Hs.
Qed.

Lemma found_copies temps E x y v :
  inv temps E -> in_temps s x = true -> copies temps x y -> found s E y v -> found s E x v.
Proof.
  intros Hi Hx Hc. destruct (copies_ring s temps x y (inv_rings _ _ _ Hi) Hx Hc) as [_ Ht].
  unfold found. by rewrite (inv_copies s temps E x y Hi Hx Hc), Ht.
Qed.

Section Propagated.
Context (temps : temps_t) (E : env) (op : TCGOp) (l' : list Z).
Hypothesis (Hi : inv temps E) (Hwf : wf_op s op = true).
Hypothesis (Hp : propagated temps (op_oargs op) (op_iargs op) (args op) l').
#[local] Abbreviation op' := (with_args op l').

Lemma propagated_loaded v : loaded op' v = loaded op v.
Proof.
  destruct (propagated_parts _ _ _ _ _ Hp) as (_ & Hs & _). unfold loaded. cbn [opc with_args].
  destruct (opc op); try done. change (op_oargs op') with (op_oargs op).
  change (op_iargs op') with (op_iargs op). unfold arg. cbn [args with_args].
  by rewrite (nth_skipn_eq (args op) l' _ _ Hs).
Qed.

Lemma propagated_flags : call_flags op' = call_flags op.
Proof.
  destruct (propagated_parts _ _ _ _ _ Hp) as (_ & Hs & _). unfold call_flags, arg.
  change (op_oargs op') with (op_oargs op). change (op_iargs op') with (op_iargs op).
  by rewrite (nth_skipn_eq (args op) l' _ _ Hs) by lia.
Qed.

Lemma propagated_globals g : wr_globals s E op' g = wr_globals s E op g.
Proof. unfold wr_globals, writes_globals. by rewrite propagated_flags. Qed.

Lemma propagated_reads : reads_globals op' = reads_globals op.
Proof. unfold reads_globals. by rewrite propagated_flags. Qed.

Lemma propagated_outs E0 outs vals : wr_outs s E0 op' outs vals = wr_outs s E0 op outs vals.
Proof.
  revert E0 vals. induction outs as [|o outs IH]; intros E0 vals; [done|]. cbn.
  by rewrite propagated_loaded, IH.
Qed.

Lemma propagated_after g vals go : after_effect s E op' g vals go = after_effect s E op g vals go.
Proof.
  destruct (propagated_parts _ _ _ _ _ Hp) as (Ho & _ & _). unfold after_effect.
  rewrite propagated_globals, propagated_outs. cbn [opc with_args].
  assert (op_outputs op' = op_outputs op) as -> by apply Ho. done.
Qed.

Lemma propagated_effect m E1 m1 f :
  is_effect (opc op) = true -> Forall (fun t => in_temps s t = true) (op_inputs op) ->
  exec op' E m E1 m1 f -> exec op E m E1 m1 f.
Proof.
  intros He Hin Hx. destruct (propagated_parts _ _ _ _ _ Hp) as (_ & Hc & Hr).
  destruct Hx as [E' Hev|Ht|l Ho Ha|l Ho Ha|w x y c l b Ho Ha Hc'
    |al ah bl bh c l b Ho Ha Hc'|ins gl vals gl' m' go Hf Hins Hg Hgo Hx];
    try (cbn [opc with_args] in Ho; rewrite Ho in He; done).
  - exfalso. unfold eval_op in Hev. cbn [opc with_args] in Hev. by destruct (opc op).
  - exfalso. unfold may_trap in Ht. cbn [opc with_args] in Ht. by destruct (opc op).
  - rewrite propagated_after. apply (exec_effect s ext op E m ins gl vals gl' m' go); [done| |..].
    + fold (op_inputs op) in Hr. change (firstn _ (skipn _ l')) with (op_inputs op') in Hr.
      clear -Hr Hins Hin Hi. revert ins Hins Hin. generalize dependent (op_inputs op').
      intros lt Hr. induction Hr as [|x y lx ly Hxy _ IH]; intros ins Hins Hin;
        inversion Hins; inversion Hin; subst; constructor; [|by apply IH].
      by eapply found_copies.
    + unfold shown_globals in *. by rewrite <- propagated_reads.
    + by rewrite <- propagated_reads.
    + assert (op_consts op' = op_consts op) as <- by apply Hc. done.
Qed.
End Propagated.

Lemma copies_facts temps E x x' :
  inv temps E -> in_temps s x = true -> copies temps x x' ->
  (forall w, rd E w x' = rd E w x) /\ (forall w, in_ok s w x' = in_ok s w x) /\ in_temps s x' = true.
Proof.
  intros Hi Hx Hc. destruct (copies_ring s temps x x' (inv_rings _ _ _ Hi) Hx Hc) as [Hx' Ht].
  split_and!; [intros w; by apply (rd_copies s temps)|intros w|done].
  unfold in_ok. by rewrite Hx, Hx', Ht.
Qed.

Lemma propagated_in_temps temps E l l' :
  inv temps E -> Forall2 (copies temps) l l' -> Forall (fun t => in_temps s t = true) l ->
  Forall (fun t => in_temps s t = true) l'.
Proof.
  intros Hi. induction 1 as [|x y l l' Hxy _ IH]; intros Hl; [done|].
  inversion Hl; subst. constructor; [by eapply copies_facts|by apply IH].
Qed.

(** The operands of well-formed operations are variables. *)
Lemma in_ok_in w x : in_ok s w x = true -> in_temps s x = true.
Proof. by intros [? _]%in_ok_spec. Qed.

(** The counts of an operation that is not a call. *)
Lemma op_args_def op :
  opc op <> INDEX_op_call ->
  op_oargs op = nb_oargs (tcg_op_defs (opc op)) /\ op_iargs op = nb_iargs (tcg_op_defs (opc op)).
Proof. intros. unfold op_oargs, op_iargs. by rewrite bool_decide_eq_false_2. Qed.

Lemma bin_args b w :
  nb_oargs (tcg_op_defs (INDEX_op_bin b w)) = 1%nat /\ nb_iargs (tcg_op_defs (INDEX_op_bin b w)) = 2%nat.
Proof. by destruct b. Qed.

(** Takes apart the arguments of a well-formed operation and of the
    propagated one. *)
Ltac propagated_args Hwa Hp :=
  unfold wf_args in Hwa; cbn [opc args] in Hwa;
  repeat match type of Hwa with context [match ?al with _ => _ end] =>
    is_var al; destruct al as [|? al]; try done end;
  cbn [opc args tcg_op_defs row nb_oargs nb_iargs propagated] in Hp;
  repeat match type of Hp with context [match ?al with _ => _ end] =>
    is_var al; destruct al as [|? al]; try done; cbn [propagated] in Hp end;
  rewrite ?andb_true_iff in Hwa; destruct_and? Hwa; destruct_and? Hp; subst; try done.

(** Replaces reads of copies by reads of what they are copies of. *)
Ltac read_copies Hi :=
  repeat match goal with
  | Hc : copies ?temps ?x ?x', Hx : in_ok ?s ?w ?x = true |- _ =>
    let Hr := fresh "Hr" in let Hk := fresh "Hk" in
    destruct (copies_facts temps _ x x' Hi (in_ok_in w x Hx) Hc) as (Hr & Hk & _); clear Hc
  end.

(** Rewrites with the facts on copies, and finishes what is then the same. *)
Ltac with_copies :=
  repeat match goal with Hk : forall w, in_ok _ w _ = _ |- _ => progress rewrite !Hk end;
  repeat match goal with Hr : forall w, TcgSem.rd _ _ w _ = _ |- _ => progress rewrite !Hr end.

Lemma propagated_pure temps E op l' :
  inv temps E -> is_pure (opc op) = true -> wf_args s op = true ->
  propagated temps (op_oargs op) (op_iargs op) (args op) l' ->
  wf_args s (with_args op l') = true /\ eval_op s E (with_args op l') = eval_op s E op /\
  may_trap s E (with_args op l') = may_trap s E op.
Proof.
  intros Hi Hpu Hwa Hp. destruct op as [oc al co ci].
  destruct (op_args_def (mk_op oc al co ci)) as [Hno Hni]; [by intros [= ->]|]. rewrite Hno, Hni in Hp.
  clear Hno Hni.
  destruct oc as [| | |w|w|w|w|w|w| |b w|u w|w|w|w|w|w|w| | | |w| | |name def]; try done.
  all: cbn [opc] in Hp; try (destruct (bin_args b w) as [Hb1 Hb2]; rewrite Hb1, Hb2 in Hp).
  all: propagated_args Hwa Hp; read_copies Hi; unfold wf_args, eval_op, may_trap; cbn [opc args with_args].
  all: with_copies.
  all: rewrite ?andb_true_iff; split_and!; try done.
  destruct (eval_cond z4 w (rd E w z0) (rd E w z1)) as [[]|]; cbn; with_copies; done.
Qed.

(** Branches: the same comparison of the same values. *)
Lemma brcond_transfer co ci w x y x' y' c l E m E1 m1 f :
  rd E w x' = rd E w x -> rd E w y' = rd E w y ->
  exec (mk_op (INDEX_op_brcond w) [x'; y'; c; l] co ci) E m E1 m1 f ->
  exec (mk_op (INDEX_op_brcond w) [x; y; c; l] co ci) E m E1 m1 f.
Proof.
  intros Hx Hy He. inversion He; simpl in *; try done; simplify_eq.
  eapply exec_brcond; [done..|]. by rewrite <- Hx, <- Hy.
Qed.

Lemma brcond2_transfer co ci al ah bl bh al' ah' bl' bh' c l E m E1 m1 f :
  rd E W32 al' = rd E W32 al -> rd E W32 ah' = rd E W32 ah ->
  rd E W32 bl' = rd E W32 bl -> rd E W32 bh' = rd E W32 bh ->
  exec (mk_op INDEX_op_brcond2_i32 [al'; ah'; bl'; bh'; c; l] co ci) E m E1 m1 f ->
  exec (mk_op INDEX_op_brcond2_i32 [al; ah; bl; bh; c; l] co ci) E m E1 m1 f.
Proof.
  intros H1 H2 H3 H4 He. inversion He; simpl in *; try done; simplify_eq.
  eapply exec_brcond2; [done..|]. by rewrite <- H1, <- H2, <- H3, <- H4.
Qed.

Lemma propagated_sound temps E op l' :
  inv temps E -> wf_op s op = true ->
  propagated temps (op_oargs op) (op_iargs op) (args op) l' ->
  wf_op s (with_args op l') = true /\
  forall m E1 m1 f, exec (with_args op l') E m E1 m1 f -> exec op E m E1 m1 f.
Proof.
  intros Hi Hwf Hp. pose proof Hwf as [Hc Hwa]%andb_true_iff. unfold wf_op.
  assert (wf_opcode (opc (with_args op l')) && wf_counts (with_args op l') = true) as -> by apply Hc.
  destruct (is_pure (opc op)) eqn:Hpu.
  { destruct (propagated_pure temps E op l' Hi Hpu Hwa Hp) as (Hw' & He & Ht).
    split; [done|]. intros m E1 m1 f. by apply exec_pure_transfer. }
  destruct (propagated_parts _ _ _ _ _ Hp) as (Hout & _ & Hins).
  assert (Heff : is_effect (opc op) = true ->
    Forall (fun t => in_temps s t = true) (op_inputs op) ->
    forall m E1 m1 f, exec (with_args op l') E m E1 m1 f -> exec op E m E1 m1 f)
    by (intros; by eapply propagated_effect).
  assert (Hany : forallb (in_temps s) (op_outputs op) && forallb (in_temps s) (op_inputs op) = true ->
    forallb (in_temps s) (op_outputs (with_args op l')) &&
    forallb (in_temps s) (op_inputs (with_args op l')) = true /\
    Forall (fun t => in_temps s t = true) (op_inputs op)).
  { intros [Ho Hin%forallb_in_temps]%andb_true_iff. split; [|done].
    assert (op_outputs (with_args op l') = op_outputs op) as -> by apply Hout. rewrite Ho.
    by eapply forallb_in_temps, propagated_in_temps. }
  destruct op as [oc al co ci].
  destruct (decide (oc = INDEX_op_call)) as [->|Hnc].
  { destruct (Hany Hwa) as [Hw Hin]. split; [exact Hw|by apply Heff]. }
  destruct (op_args_def (mk_op oc al co ci) Hnc) as [Hno Hni]. rewrite Hno, Hni in Hp.
  destruct oc as [| | |w|w|w|w|w|w| |b w|u w|w|w|w|w|w|w| | | |w| | |name def]; try done; cbn [andb].
  9: { destruct (Hany Hwa) as [Hw Hin]. split; [exact Hw|by apply Heff]. }
  all: propagated_args Hwa Hp.
  4, 5: read_copies Hi; unfold wf_args; cbn [opc args with_args]; with_copies; rewrite ?andb_true_iff;
    (split; [by split_and!|]); intros m E1 m1 f;
    first [by apply brcond_transfer|by apply brcond2_transfer].
  all: match goal with Hc : copies _ ?x ?x', Hx : in_temps s ?x = true |- _ =>
      destruct (copies_facts temps E x x' Hi Hx Hc) as (_ & _ & Hx') end;
    (split; [unfold wf_args; cbn [opc args with_args]; by rewrite andb_true_iff|]);
    apply Heff; [done|]; unfold op_inputs; rewrite Hno, Hni; by repeat constructor.
Qed.

(** ** Canonical operands *)

Lemma swap_cases temps d x y :
  swap_commutative temps d x y = (false, x, y) \/ swap_commutative temps d x y = (true, y, x).
Proof. unfold swap_commutative. destruct (_ || _); auto. Qed.

Lemma swap2_cases temps p1 p2 :
  swap_commutative2 temps p1 p2 = (false, p1, p2) \/ swap_commutative2 temps p1 p2 = (true, p2, p1).
Proof. unfold swap_commutative2. destruct (0 <? _); auto. Qed.

Lemma eval_bin_comm b w x y : commutes b = true -> eval_bin b w x y = eval_bin b w y x.
Proof.
  intros Hb. destruct x as [x|], y as [y|]; try done. cbn. rewrite (bin_comm b w x y Hb).
  by destruct b.
Qed.

Lemma eval_cond_swap c w x y :
  valid_cond c = true -> eval_cond (tcg_swap_cond c) w y x = eval_cond c w x y.
Proof. intros Hc. destruct x, y; try done. cbn. by rewrite sem_cond_swap. Qed.

Lemma eval_cond_invert c w x y :
  valid_cond c = true -> eval_cond (tcg_invert_cond c) w x y = negb <$> eval_cond c w x y.
Proof. intros Hc. destruct x, y; try done. cbn. by rewrite sem_cond_invert. Qed.

Lemma eval_cond2_swap c al ah bl bh :
  valid_cond c = true -> eval_cond2 (tcg_swap_cond c) bl bh al ah = eval_cond2 c al ah bl bh.
Proof. intros Hc. destruct al, ah, bl, bh; try done. cbn. by rewrite sem_cond_swap. Qed.

(** The sum of double words does not depend on which low word goes with
    which high word. *)
Lemma add2_swap w (al ah bl bh : option Z) (sl sh : bool) :
  let add al ah bl bh :=
    al ← al; ah ← ah; bl ← bl; bh ← bh;
    Some (sem_bin2 (INDEX_op_add2 w) w (pair_of w al ah) (pair_of w bl bh)) in
  add (if sl then bl else al) (if sh then bh else ah) (if sl then al else bl) (if sh then ah else bh)
    = add al ah bl bh.
Proof.
  cbv zeta. destruct sl, sh, al, ah, bl, bh; try done; cbn [mbind option_bind];
    unfold sem_bin2, pair_of; do 2 f_equal; ring.
Qed.

Lemma mul2_swap oc w (x y : option Z) :
  (x ← x; y ← y; Some (sem_mul2 oc w x y)) = (y ← y; x ← x; Some (sem_mul2 oc w y x)).
Proof.
  destruct x, y; try done. cbn [mbind option_bind]. unfold sem_mul2. do 2 f_equal.
  destruct oc; apply Z.mul_comm.
Qed.

(** [op'] may stand for [op], operand for operand. *)
Definition equivalent (E : env) (op op' : TCGOp) : Prop :=
  wf_args s op' = true /\
  forall m E1 m1 f, exec op' E m E1 m1 f -> exec op E m E1 m1 f.

Lemma equivalent_pure E op op' :
  is_pure (opc op') = true -> wf_args s op' = true -> eval_op s E op' = eval_op s E op ->
  may_trap s E op' = may_trap s E op -> equivalent E op op'.
Proof. intros. split; [done|]. intros m E1 m1 f. by apply exec_pure_transfer. Qed.

Section Canonical.
Context (temps : temps_t) (E : env) (co ci : nat).

Lemma canonical_bin b w d x y :
  let op := mk_op (INDEX_op_bin b w) [d; x; y] co ci in
  wf_args s op = true -> equivalent E op (canonicalize temps op).
Proof.
  intros op Hwa. unfold canonicalize. cbn [opc args op].
  destruct (commutes b) eqn:Hb; [|by split].
  destruct (swap_cases temps d x y) as [-> | ->]; [by split|].
  cbn in Hwa. rewrite !andb_true_iff in Hwa. destruct Hwa as [[Hd Hx] Hy].
  apply equivalent_pure; [done|..]; unfold wf_args, eval_op, may_trap; cbn [opc args op with_args].
  - by rewrite Hd, Hx, Hy.
  - by rewrite eval_bin_comm.
  - by destruct b.
Qed.

Lemma canonical_setcond w d x y c :
  let op := mk_op (INDEX_op_setcond w) [d; x; y; c] co ci in
  wf_args s op = true -> equivalent E op (canonicalize temps op).
Proof.
  intros op Hwa. unfold canonicalize. cbn [opc args op].
  destruct (swap_cases temps d x y) as [-> | ->]; [by split|].
  cbn in Hwa. rewrite !andb_true_iff in Hwa. destruct Hwa as [[[Hd Hx] Hy] Hc].
  apply equivalent_pure; [done|..]; unfold wf_args, eval_op, may_trap; cbn [opc args op with_args]; [| |done].
  - by rewrite Hd, Hx, Hy, valid_swap.
  - by rewrite eval_cond_swap.
Qed.

Lemma canonical_movcond w d x y v1 v2 c :
  let op := mk_op (INDEX_op_movcond w) [d; x; y; v1; v2; c] co ci in
  wf_args s op = true -> equivalent E op (canonicalize temps op).
Proof.
  intros op Hwa. unfold canonicalize. cbn [opc args op].
  cbn in Hwa. rewrite !andb_true_iff in Hwa. destruct Hwa as [[[[[Hd Hx] Hy] Hv1] Hv2] Hc].
  assert (exists sw x' y', swap_commutative temps all_ones x y = (sw, x', y') /\
    in_ok s w x' = true /\ in_ok s w y' = true /\
    valid_cond (if sw : bool then tcg_swap_cond c else c) = true /\
    eval_cond (if sw : bool then tcg_swap_cond c else c) w (rd E w x') (rd E w y')
      = eval_cond c w (rd E w x) (rd E w y)) as (sw & x' & y' & -> & Hx' & Hy' & Hc' & He).
  { destruct (swap_cases temps all_ones x y) as [-> | ->]; do 3 eexists; [done|].
    split_and!; [done..|by apply valid_swap|by apply eval_cond_swap]. }
  destruct (swap_cases temps d v2 v1) as [-> | ->].
  - apply equivalent_pure; [done|..]; unfold wf_args, eval_op, may_trap; cbn [opc args op with_args]; [| |done].
    + by rewrite Hd, Hx', Hy', Hv1, Hv2.
    + by rewrite He.
  - apply equivalent_pure; [done|..]; unfold wf_args, eval_op, may_trap; cbn [opc args op with_args]; [| |done].
    + by rewrite Hd, Hx', Hy', Hv1, Hv2, valid_invert.
    + rewrite eval_cond_invert, He by done. do 2 f_equal.
      by destruct (eval_cond c w (rd E w x) (rd E w y)) as [[]|].
Qed.

Lemma canonical_add2 w l h al ah bl bh :
  let op := mk_op (INDEX_op_add2 w) [l; h; al; ah; bl; bh] co ci in
  wf_args s op = true -> equivalent E op (canonicalize temps op).
Proof.
  intros op Hwa. unfold canonicalize. cbn [opc args op].
  cbn in Hwa. rewrite !andb_true_iff in Hwa. destruct Hwa as [[[[[[Hl Hh] Hne] Hal] Hah] Hbl] Hbh].
  pose proof (add2_swap w (rd E w al) (rd E w ah) (rd E w bl) (rd E w bh)) as Hsw. cbv zeta in Hsw.
  destruct (swap_cases temps l al bl) as [-> | ->], (swap_cases temps h ah bh) as [-> | ->];
    (apply equivalent_pure; [done|..]; unfold wf_args, eval_op, may_trap; cbn [opc args op with_args]);
    try done; try (by rewrite Hl, Hh, Hne, Hal, Hah, Hbl, Hbh); do 2 f_equal.
  - apply (Hsw false true).
  - apply (Hsw true false).
  - apply (Hsw true true).
Qed.

Lemma canonical_mul2 oc w l h x y :
  let op := mk_op oc [l; h; x; y] co ci in
  oc = INDEX_op_mulu2 w \/ oc = INDEX_op_muls2 w ->
  wf_args s op = true -> equivalent E op (canonicalize temps op).
Proof.
  intros op Hoc Hwa.
  assert (out_ok s w l && out_ok s w h && negb (l =? h) && in_ok s w x && in_ok s w y = true) as Hw
    by (by destruct Hoc; subst oc).
  rewrite !andb_true_iff in Hw. destruct Hw as [[[[Hl Hh] Hne] Hx] Hy].
  assert (canonicalize temps op = let '(_, x, y) := swap_commutative temps l x y in
    with_args op [l; h; x; y]) as -> by (by destruct Hoc; subst oc).
  destruct (swap_cases temps l x y) as [-> | ->]; [by split|].
  destruct Hoc; subst oc; (apply equivalent_pure; [done|..]; unfold wf_args, eval_op, may_trap;
    cbn [opc args op with_args]); try done; try (by rewrite Hl, Hh, Hne, Hx, Hy);
    do 2 f_equal; apply mul2_swap.
Qed.

Lemma canonical_brcond w x y c l :
  let op := mk_op (INDEX_op_brcond w) [x; y; c; l] co ci in
  wf_args s op = true -> equivalent E op (canonicalize temps op).
Proof.
  intros op Hwa. unfold canonicalize. cbn [opc args op].
  destruct (swap_cases temps all_ones x y) as [-> | ->]; [by split|].
  cbn in Hwa. rewrite !andb_true_iff in Hwa. destruct Hwa as [[Hx Hy] Hc]. split.
  - unfold wf_args. cbn [opc args op with_args]. by rewrite Hx, Hy, valid_swap.
  - intros m E1 m1 f He. inversion He; simpl in *; try done; simplify_eq.
    eapply exec_brcond; [done..|]. by rewrite <- eval_cond_swap.
Qed.

Lemma canonical_brcond2 al ah bl bh c l :
  let op := mk_op INDEX_op_brcond2_i32 [al; ah; bl; bh; c; l] co ci in
  wf_args s op = true -> equivalent E op (canonicalize temps op).
Proof.
  intros op Hwa. unfold canonicalize. cbn [opc args op].
  destruct (swap2_cases temps (al, ah) (bl, bh)) as [-> | ->]; [by split|]. cbn [fst snd].
  cbn in Hwa. rewrite !andb_true_iff in Hwa. destruct Hwa as [[[[H1 H2] H3] H4] Hc]. split.
  - unfold wf_args. cbn [opc args op with_args]. by rewrite H1, H2, H3, H4, valid_swap.
  - intros m E1 m1 f He. inversion He; simpl in *; try done; simplify_eq.
    eapply exec_brcond2; [done..|]. by rewrite <- eval_cond2_swap.
Qed.
End Canonical.

Lemma canonicalize_same temps op :
  opc (canonicalize temps op) = opc op /\ callo (canonicalize temps op) = callo op /\
  calli (canonicalize temps op) = calli op.
Proof. unfold canonicalize. repeat case_match; try done. Qed.

Lemma canonicalize_sound temps E op :
  wf_op s op = true ->
  wf_op s (canonicalize temps op) = true /\
  forall m E1 m1 f, exec (canonicalize temps op) E m E1 m1 f -> exec op E m E1 m1 f.
Proof.
  intros [Hc Hwa]%andb_true_iff. destruct (canonicalize_same temps op) as (Ho & Hco & Hci).
  assert (equivalent E op (canonicalize temps op)) as [Hw Hx].
  { destruct op as [oc al co ci].
    destruct oc as [| | |w|w|w|w|w|w| |b w|u w|w|w|w|w|w|w| | | |w| | |name def]; try (by split);
      unfold wf_args in Hwa; cbn [opc args] in Hwa; repeat (destruct al as [|? al]; try done).
    - by apply canonical_setcond.
    - by apply canonical_movcond.
    - by apply canonical_bin.
    - by apply canonical_brcond.
    - by apply canonical_add2.
    - apply (canonical_mul2 temps E _ _ _ w); auto.
    - apply (canonical_mul2 temps E _ _ _ w); auto.
    - by apply canonical_brcond2. }
  split; [|done]. unfold wf_op, wf_counts in *. by rewrite Ho, Hco, Hci, Hw, Hc.
Qed.

(** ** One operation *)

Lemma good_transfer E op op' temps' ops :
  labels [op'] = labels [op] ->
  (forall m E1 m1 f, exec op' E m E1 m1 f -> exec op E m E1 m1 f) ->
  good E op' temps' ops -> good E op temps' ops.
Proof.
  intros Hl Hx [Hwf Hlab Hsim]. constructor; [done|congruence|].
  intros Et m Et' m' f Hle Het He. destruct (Hsim Et m Et' m' f Hle Het He) as (E1 & Eg & ? & ?).
  exists E1, Eg. naive_solver.
Qed.

Lemma labels_opc op op' : opc op' = opc op -> opc op <> INDEX_op_set_label -> labels [op'] = labels [op].
Proof. intros Ho Hn. unfold labels. cbn. rewrite Ho. by rewrite bool_decide_eq_false_2. Qed.

Lemma wf_label op : opc op = INDEX_op_set_label -> wf_op s op = true -> exists l, args op = [l].
Proof.
  intros Ho [_ Hw]%andb_true_iff. unfold wf_args in Hw. rewrite Ho in Hw.
  destruct (args op) as [|l [|]]; try done. by exists l.
Qed.

(** A label is kept, and nothing is known behind it. *)
Lemma fold_op_label temps op :
  opc op = INDEX_op_set_label -> wf_op s op = true ->
  fold_op s HAS_neg HAS_not temps op = Ret (keep (reset_all_temps s temps, op)).
Proof.
  intros Ho Hwf. destruct (wf_label op Ho Hwf) as [l Ha]. by destruct op; simpl in *; subst.
Qed.

Lemma wf_inputs op :
  wf_op s op = true -> Forall (fun t => in_temps s t = true) (op_inputs op).
Proof.
  intros [_ Hw]%andb_true_iff.
  assert (Hany : forallb (in_temps s) (op_outputs op) && forallb (in_temps s) (op_inputs op) = true ->
    Forall (fun t => in_temps s t = true) (op_inputs op))
    by (by intros [_ ?%forallb_in_temps]%andb_true_iff).
  destruct op as [oc al co ci].
  destruct (decide (oc = INDEX_op_call)) as [->|Hnc]; [by apply Hany|].
  destruct (op_args_def (mk_op oc al co ci) Hnc) as [Hno Hni].
  destruct oc as [| | |w|w|w|w|w|w| |b w|u w|w|w|w|w|w|w| | | |w| | |name def]; try (by apply Hany).
  all: unfold op_inputs; rewrite Hno, Hni; clear Hany Hno Hni; unfold wf_args in Hw;
    cbn [opc args] in Hw; repeat (destruct al as [|? al]; try done); try destruct b; cbn;
    unfold in_ok, out_ok in Hw; rewrite ?andb_true_iff in Hw;
    repeat constructor; intuition.
Qed.

Lemma fold_op_ok temps E op :
  wf_ctx s = true -> inv temps E -> wf_op s op = true ->
  done_ok E op (fold_op s HAS_neg HAS_not temps op).
Proof.
  intros Hctx Hi Hwf. unfold fold_op.
  destruct (propagate_ok temps (op_oargs op) (op_iargs op) (args op)) as (l' & -> & Hp);
    [apply Hi|by apply wf_inputs|]. cbn [mbind outcome_bind].
  destruct (propagated_sound temps E op l' Hi Hwf Hp) as [Hwf1 Hx1].
  destruct (canonicalize_sound temps E _ Hwf1) as [Hwf2 Hx2].
  set (op2 := canonicalize temps (with_args op l')) in *.
  assert (labels [op2] = labels [op]) as Hl.
  { destruct (decide (opc op = INDEX_op_set_label)) as [Ho|Ho].
    - destruct (wf_label op Ho Hwf) as [l Ha]. destruct op as [oc al co ci]. simpl in *. subst oc al.
      assert (l' = [l]) as -> by exact Hp. done.
    - apply labels_opc; [|done]. apply (canonicalize_same temps (with_args op l')). }
  destruct (simplify_ok s HAS_neg HAS_not ext temps E op2 Hctx Hi Hwf2)
    as [[Hm ->]|(h & temps' & ops & -> & Hf & Hg & Ha)].
  { left. split; [|done]. destruct (canonicalize_same temps (with_args op l')) as [Ho _].
    unfold op2 in Hm. by rewrite Ho in Hm. }
  right.
  exists h, temps', ops. split_and!; [done..| |done].
  apply (good_transfer E op op2); auto.
Qed.

(** ** A block

    [optimised temps k k']: the loop, knowing [temps], makes [k'] of [k]. *)

Inductive optimised : temps_t -> list TCGOp -> list TCGOp -> Prop :=
| optimised_nil temps : optimised temps [] []
| optimised_cons temps op k h temps' ops k' :
  wf_op s op = true -> fold_op s HAS_neg HAS_not temps op = Ret h ->
  finish s HAS_neg HAS_not h = Ret (temps', ops) -> labels ops = labels [op] ->
  optimised temps' k k' -> optimised temps (op :: k) (ops ++ k').

Lemma find_label_app l ops k :
  labels ops = [] -> find_label l (ops ++ k) = find_label l k.
Proof.
  induction ops as [|op ops IH]; [done|]. unfold labels. cbn [List.filter app find_label].
  case_bool_decide as Ho; [done|]. cbn. apply IH.
Qed.

(** A label stays where it is, and what follows it is optimised knowing
    nothing. *)
Lemma optimised_label temps k k' l :
  optimised temps k k' ->
  match find_label l k with
  | None => find_label l k' = None
  | Some k1 => exists temps1 k1',
      find_label l k' = Some k1' /\ optimised (reset_all_temps s temps1) k1 k1'
  end.
Proof.
  induction 1 as [|temps op k h temps' ops k' Hwf Hf Hfin Hl Ho IH]; [done|].
  cbn [find_label]. case_bool_decide as Hop; cbn [andb].
  - rewrite fold_op_label in Hf by done. injection Hf as <-. cbn in Hfin. injection Hfin as <- <-.
    cbn [app find_label]. rewrite (bool_decide_eq_true_2 _ Hop). cbn [andb].
    case_bool_decide; [|done]. by exists temps, k'.
  - rewrite find_label_app; [done|]. rewrite Hl. unfold labels. cbn.
    by rewrite (bool_decide_eq_false_2 _ Hop).
Qed.

(** What a run does after an operation. *)
Definition after (P : list TCGOp) (n : nat) (k : list TCGOp) (f : flow) (E1 : env) (m1 : World)
    (e : ending) (E' : env) (m' : World) : Prop :=
  match f with
  | Next => run s ext P n k E1 m1 e E' m'
  | Stop => e = Left_block /\ E' = E1 /\ m' = m1
  | Wrong => e = Crashed /\ E' = E1 /\ m' = m1
  | Jump l =>
    match n, find_label l P with
    | S n, Some k1 => run s ext P n k1 E1 m1 e E' m'
    | _, _ => e = AtLabel l /\ E' = E1 /\ m' = m1
    end
  end.

Lemma run_after P n op k E m E1 m1 f e E' m' :
  exec op E m E1 m1 f -> after P n k f E1 m1 e E' m' -> run s ext P n (op :: k) E m e E' m'.
Proof.
  intros Hx Ha. destruct f as [|l| |]; cbn in Ha.
  - by eapply run_next.
  - destruct n as [|n]; [destruct Ha as (-> & -> & ->); by eapply run_cut|].
    destruct (find_label l P) eqn:Hl; [by eapply run_jump|].
    destruct Ha as (-> & -> & ->). by eapply run_lost.
  - destruct Ha as (-> & -> & ->). by eapply run_stop.
  - destruct Ha as (-> & -> & ->). by eapply run_wrong.
Qed.

Lemma run_app P n ops k E m e E' m' :
  run s ext P n (ops ++ k) E m e E' m' ->
  exists E1 m1 f, execs s ext ops E m E1 m1 f /\ after P n k f E1 m1 e E' m'.
Proof.
  revert E m. induction ops as [|op ops IH]; intros E m Hr.
  { exists E, m, Next. by split; [constructor|]. }
  cbn [app] in Hr. inversion Hr; subst.
  - edestruct IH as (E2 & m2 & f & ? & ?); [done|]. exists E2, m2, f. split; [|done].
    by eapply execs_next.
  - exists E', m', Stop. by split; [apply execs_exit|].
  - exists E', m', Wrong. by split; [apply execs_exit|].
  - exists E', m', (Jump l). by split; [apply execs_exit|].
  - exists E', m', (Jump l). split; [by apply execs_exit|]. cbn. by case_match.
  - exists E1, m1, (Jump l). split; [by apply execs_exit|]. cbn. by case_match; simplify_eq.
Qed.

Lemma execs_env_ok ops E m E' m' f : execs s ext ops E m E' m' f -> env_ok s E -> env_ok s E'.
Proof.
  induction 1 as [|op ops E m E1 m1 E' m' f Hx _ IH|op ops E m E' m' f Hx]; intros He; [done|..].
  - apply IH. by eapply exec_env_ok.
  - by eapply exec_env_ok.
Qed.

(** One operation against the operations that replace it. *)
Lemma optimised_step temps Eg E Et op h temps' ops m Et' m' f :
  wf_ctx s = true -> wf_op s op = true -> inv temps Eg -> lessdef E Eg -> lessdef Eg Et ->
  env_ok s Et -> fold_op s HAS_neg HAS_not temps op = Ret h ->
  finish s HAS_neg HAS_not h = Ret (temps', ops) -> execs s ext ops Et m Et' m' f ->
  exists E' Eg', exec op E m E' m' f /\ lessdef E' Eg' /\ lessdef Eg' Et' /\
    (goes_on f = true -> inv temps' Eg').
Proof.
  intros Hctx Hwf Hi Hle Hle' Het Hf Hfin Hx.
  destruct (fold_op_ok temps Eg op Hctx Hi Hwf) as [[_ ?]|(h' & t' & ops' & Hh & Hfin' & Hg & _)];
    [congruence|]. assert (h' = h) as -> by congruence. assert (ops' = ops /\ t' = temps') as [-> ->]
    by (split; congruence).
  destruct (g_sim _ _ _ _ _ _ Hg Et m Et' m' f Hle' Het Hx) as (E1 & Eg' & Hx1 & H1 & H2 & H3).
  destruct (exec_mono s ext op E Eg m E1 m' f Hle (inv_env _ _ _ Hi) Hx1) as (E' & Hx' & Hl').
  exists E', Eg'. split_and!; [done| |done..]. by eapply lessdef_trans.
Qed.

Section Block.
Context (P P' : list TCGOp) (temps0 : temps_t).
Hypothesis Hctx : wf_ctx s = true.
Hypothesis Hopt : optimised temps0 P P'.

Definition simulated (n : nat) (k k' : list TCGOp) (E Et : env) (m : World) : Prop :=
  forall e Et' m', run s ext P' n k' Et m e Et' m' ->
  exists E', run s ext P n k E m e E' m' /\ lessdef E' Et'.

(** A jump goes to code optimised knowing nothing, where the runs that have
    jumps left are simulated. *)
Lemma simulated_after n k k' f E1 Eg Et m temps e Et' m' :
  (forall n' temps k k' E Eg Et m, (n' < n)%nat -> optimised temps k k' -> inv temps Eg ->
     lessdef E Eg -> lessdef Eg Et -> env_ok s Et -> simulated n' k k' E Et m) ->
  (inv temps Eg -> simulated n k k' E1 Et m) ->
  (goes_on f = true -> inv temps Eg) -> lessdef E1 Eg -> lessdef Eg Et -> env_ok s Et ->
  after P' n k' f Et m e Et' m' ->
  exists E', after P n k f E1 m e E' m' /\ lessdef E' Et'.
Proof.
  intros Hn Hk Hinv Hle Hle' Het Ha. pose proof (lessdef_trans _ _ _ Hle Hle') as Hll.
  destruct f as [|l| |]; cbn [after] in *.
  - by apply Hk; [apply Hinv|].
  - pose proof (optimised_label _ _ _ l Hopt) as Hl.
    destruct n as [|n]; [destruct Ha as (-> & -> & ->); by exists E1|].
    destruct (find_label l P) as [k1|].
    + destruct Hl as (temps1 & k1' & Hl & Ho). rewrite Hl in Ha.
      assert (env_ok s Eg) as Heg by (by apply Hinv).
      apply (Hn n (reset_all_temps s temps1) k1 k1' E1 Eg Et m); auto using inv_reset_all with lia.
    + rewrite Hl in Ha. destruct Ha as (-> & -> & ->). by exists E1.
  - destruct Ha as (-> & -> & ->). by exists E1.
  - destruct Ha as (-> & -> & ->). by exists E1.
Qed.

Lemma optimised_simulated n temps k k' E Eg Et m :
  optimised temps k k' -> inv temps Eg -> lessdef E Eg -> lessdef Eg Et -> env_ok s Et ->
  simulated n k k' E Et m.
Proof.
  revert temps k k' E Eg Et m. induction n as [n Hn] using (well_founded_induction Nat.lt_wf_0).
  intros temps k k' E Eg Et m Ho. revert E Eg Et m.
  induction Ho as [temps|temps op k h temps' ops k' Hwf Hf Hfin _ Ho IH];
    intros E Eg Et m Hi Hle Hle' Het e Et' m' Hr.
  { inversion Hr; subst. exists E. split; [constructor|]. by eapply lessdef_trans. }
  destruct (run_app P' n ops k' Et m e Et' m' Hr) as (Et1 & m1 & f & Hx & Ha).
  destruct (optimised_step temps Eg E Et op h temps' ops m Et1 m1 f)
    as (E1 & Eg1 & Hx1 & Hl1 & Hl2 & Hi1); [done..|].
  assert (env_ok s Et1) as Het1 by (by eapply execs_env_ok).
  destruct (simulated_after n k k' f E1 Eg1 Et1 m1 temps' e Et' m') as (E' & Ha' & Hl'); eauto.
  exists E'. split; [|done]. by eapply run_after.
Qed.
End Block.
End Correct.

(** ** Operations can run *)

(** The rest of the machine can always answer and let the block go on. *)
Definition ext_total {World} (ext : TCGOpcode -> list Z -> list Z -> list Z -> World ->
    list Z -> list Z -> World -> bool -> Prop) : Prop :=
  forall oc cs ins gl m, exists vals gl' m', ext oc cs ins gl m vals gl' m' true.

Section Total.
Context (s : TCGContext) {World : Type}.
Context (ext : TCGOpcode -> list Z -> list Z -> list Z -> World ->
               list Z -> list Z -> World -> bool -> Prop).
Hypothesis Hext : ext_total ext.

Lemma found_total E l : exists vals, Forall2 (found s E) l vals.
Proof.
  induction l as [|t l [vals IH]]; [by exists []|].
  exists (default 0 (E t) :: vals). constructor; [|done]. unfold found.
  destruct (E t); [done|]. cbn. split; [lia|]. apply Z.pow_pos_nonneg; [lia|by destruct (temp_type s t)].
Qed.

(** An operation that is well formed can run, and without a crash. *)
Lemma exec_total op E m :
  wf_op s op = true -> exists E' m' f, exec s ext op E m E' m' f /\ goes_on f = true.
Proof.
  intros [_ Hw]%andb_true_iff. destruct (is_effect (opc op)) eqn:He.
  { destruct (found_total E (op_inputs op)) as [ins Hi].
    destruct (found_total E (shown_globals s op)) as [gl Hg].
    destruct (Hext (opc op) (op_consts op) ins gl m) as (vals & gl' & m' & Hx).
    do 3 eexists. split; [by apply (exec_effect s ext op E m ins gl vals gl' m' true)|done]. }
  destruct op as [oc al co ci]. cbn [opc] in He. unfold wf_args in Hw. cbn [opc args] in Hw.
  assert (Hmay : forall c, exists b, cond_may c b) by (by intros [b|]; [exists b|exists true]).
  destruct oc as [| | |w|w|w|w|w|w| |b w|u w|w|w|w|w|w|w| | | |w| | |name def]; try done;
    repeat (destruct al as [|? al]; try done);
    try (by do 3 eexists; split; [by apply exec_eval|]);
    try (by do 3 eexists; split; [by eapply exec_label|]);
    try (by do 3 eexists; split; [by eapply exec_br|]).
  all: edestruct Hmay as [[] ?]; do 3 eexists;
    (split; [first [by eapply exec_brcond|by eapply exec_brcond2]|done]).
Qed.

Lemma execs_total ops E m :
  Forall (fun op => wf_op s op = true) ops ->
  exists E' m' f, execs s ext ops E m E' m' f /\ goes_on f = true.
Proof.
  intros Hw. revert E m. induction Hw as [|op ops Hop _ IH]; intros E m.
  { exists E, m, Next. by split; [constructor|]. }
  destruct (exec_total op E m Hop) as (E1 & m1 & f & Hx & Hf).
  destruct (decide (f = Next)) as [->|Hn].
  - destruct (IH E1 m1) as (E' & m' & f & ? & ?). exists E', m', f. by split; [eapply execs_next|].
  - exists E1, m1, f. by split; [apply execs_exit|].
Qed.

Lemma find_label_wf l P k :
  find_label l P = Some k -> Forall (fun op => wf_op s op = true) P ->
  Forall (fun op => wf_op s op = true) k.
Proof.
  intros Hf Hw. induction Hw as [|op P _ Hw IH]; [done|]. cbn in Hf.
  destruct (bool_decide _ && bool_decide _); [by simplify_eq|auto].
Qed.

(** A block can run, up to any number of jumps. *)
Lemma run_total P n k E m :
  Forall (fun op => wf_op s op = true) P -> Forall (fun op => wf_op s op = true) k ->
  exists e E' m', run s ext P n k E m e E' m' /\ e <> Crashed.
Proof.
  intros HP. revert k E m. induction n as [n Hn] using (well_founded_induction Nat.lt_wf_0).
  intros k E m Hk. revert E m. induction Hk as [|op k Hop Hk IH]; intros E m.
  { exists AtEnd, E, m. by split; [constructor|]. }
  destruct (exec_total op E m Hop) as (E1 & m1 & f & Hx & Hf).
  assert (exists e E' m', after s ext P n k f E1 m1 e E' m' /\ e <> Crashed) as (e & E' & m' & Ha & He).
  { destruct f as [|l| |]; cbn [after]; [apply IH| |by exists Left_block, E1, m1|done].
    destruct n as [|n]; [by exists (AtLabel l), E1, m1|].
    destruct (find_label l P) as [k1|] eqn:Hl; [|by exists (AtLabel l), E1, m1].
    apply Hn; [lia|]. by eapply find_label_wf. }
  exists e, E', m'. split; [|done]. by eapply run_after.
Qed.
End Total.

(** ** The loop *)

Section Loop.
Context (s : TCGContext) (HAS_neg HAS_not : width -> bool).
Hypothesis Hctx : wf_ctx s = true.

(** The knowledge is true of some variables. *)
Definition possible (temps : temps_t) : Prop := exists E, inv s temps E.

Definition any (oc : TCGOpcode) (cs ins gl : list Z) (m : unit) (vals gl' : list Z) (m' : unit)
  (go : bool) : Prop := True.

Lemma fold_op_possible temps op :
  possible temps -> wf_op s op = true ->
  (may_overflow (opc op) = true /\ fold_op s HAS_neg HAS_not temps op = Fault Undefined) \/
  exists h temps' ops, fold_op s HAS_neg HAS_not temps op = Ret h /\
    finish s HAS_neg HAS_not h = Ret (temps', ops) /\
    possible temps' /\ Forall (fun op => wf_op s op = true) ops /\ labels ops = labels [op] /\
    match h_again h with
    | None => True
    | Some op2 => exists w d v, op2 = mk_op (INDEX_op_movi w) [d; v] 0 0
    end.
Proof.
  intros [E Hi] Hwf.
  destruct (fold_op_ok s HAS_neg HAS_not any temps E op Hctx Hi Hwf)
    as [?|(h & temps' & ops & Hf & Hfin & [Hw Hl Hs] & Ha)]; [by left|right].
  exists h, temps', ops. split_and!; try done.
  destruct (execs_total s any) with (ops := ops) (E := E) (m := tt) as (E' & m' & f & Hx & Hn);
    [by intros; exists [], [], tt|done|].
  destruct (Hs E tt E' m' f) as (E1 & Eg & _ & _ & _ & Hg); [by right|apply Hi|done|].
  exists Eg. by apply Hg.
Qed.

(** The loop ends within its bound, and every operation is either optimised
    or makes the optimiser compute something C leaves undefined. *)
Lemma fold_ops_optimised fuel temps k :
  possible temps -> Forall (fun op => wf_op s op = true) k -> (2 * length k < fuel)%nat ->
  (existsb (fun op => may_overflow (opc op)) k = true /\
   fold_ops s HAS_neg HAS_not fuel temps k = Fault Undefined) \/
  exists k', fold_ops s HAS_neg HAS_not fuel temps k = Ret k' /\
    optimised s HAS_neg HAS_not temps k k' /\ Forall (fun op => wf_op s op = true) k'.
Proof.
  intros Hp Hk. revert fuel temps Hp. induction Hk as [|op k Hop Hk IH]; intros fuel temps Hp Hfuel.
  { right. exists []. destruct fuel; [lia|]. split_and!; [done|constructor|done]. }
  destruct fuel as [|fuel]; [lia|]. cbn [fold_ops length] in *.
  destruct (fold_op_possible temps op Hp Hop)
    as [[Hm ->]|(h & temps' & ops & Hf & Hfin & Hp' & Hw & Hl & Ha)];
    [left; cbn; by rewrite Hm|].
  rewrite Hf. cbn [mbind outcome_bind].
  assert (exists fuel', (2 * length k < fuel')%nat /\
    (rest ← fold_ops s HAS_neg HAS_not fuel (h_temps h) (option_list (h_again h) ++ k); Ret (h_ops h ++ rest))
    = (rest ← fold_ops s HAS_neg HAS_not fuel' temps' k; Ret (ops ++ rest))) as (fuel' & Hfuel' & ->).
  { unfold finish in Hfin. destruct (h_again h) as [op2|].
    - destruct Ha as (w & d & v & ->). rewrite fold_op_movi in Hfin.
      cbn [mbind outcome_bind] in Hfin. injection Hfin as <- <-.
      destruct fuel as [|fuel]; [lia|]. exists fuel. split; [lia|].
      change (option_list (Some ?x) ++ k) with (x :: k). cbn [fold_ops]. rewrite fold_op_movi.
      cbn [mbind outcome_bind]. change (option_list (h_again (gen_movi _ _ _ _)) ++ k) with k.
      destruct (fold_ops _ _ _ _ _ k); try done. cbn [mbind outcome_bind]. by rewrite <- app_assoc.
    - simplify_eq. exists fuel. by split; [lia|]. }
  destruct (IH fuel' temps' Hp' Hfuel') as [[Hm ->]|(k' & -> & Ho & Hw')];
    [left; cbn; by rewrite Hm, orb_true_r|right].
  exists (ops ++ k'). split_and!; [done| |by apply Forall_app].
  by eapply optimised_cons.
Qed.
End Loop.
