(* ===== verification/TcgOptimize.v ===== *)
(** * The TCG optimiser: what it guarantees

    The theorems of [tcg_optimize] (src/tcg/optimize.c) on whole blocks, of
    constant folding, and of the rings of copies, with a block they apply
    to. *)

From S2P Require Import Prelude HostUtils BitField TcgOp TcgOpt TcgSem.
From S2P Require Import TcgMono TcgInv TcgFold TcgMask TcgGood TcgCorrect.

(** ** Where folding overflows *)

(** The C expression that folds [b] is undefined. *)
Definition overflows (b : binop) (w : width) (x y : Z) : bool :=
  match b with
  | op_rotl | op_rotr => y &&& (wbits w - 1) =? 0
  | op_div | op_rem => (low w x =? 2 ^ (wbits w - 1)) && (low w y =? 2 ^ wbits w - 1)
  | _ => false
  end.

Lemma rot_overflows w x k :
  (w = 32 \/ w = 64) -> 0 <= k < w ->
  ((a ← cshl w x k; b ← cshr w x (w - k); Ret (a ||| b)) = Fault Undefined <-> k = 0) /\
  ((a ← cshr w x k; b ← cshl w x (w - k); Ret (a ||| b)) = Fault Undefined <-> k = 0).
Proof.
  intros Hw Hk. unfold cshl, cshr.
  assert ((0 <=? k) && (k <? w) = true) as -> by lia.
  assert ((0 <=? w - k) && (w - k <? w) = negb (k =? 0)) as -> by lia.
  destruct (Z.eqb_spec k 0); cbn; split; split; intros; done || lia.
Qed.

Lemma div_overflows w x y :
  let d := if slow w y =? 0 then 1 else slow w y in
  let o := (low w x =? 2 ^ (wbits w - 1)) && (low w y =? 2 ^ wbits w - 1) in
  (if o then cdiv (wbits w) (slow w x) d = Fault Undefined /\ crem (wbits w) (slow w x) d = Fault Undefined
   else (exists r, cdiv (wbits w) (slow w x) d = Ret r) /\ exists r, crem (wbits w) (slow w x) d = Ret r).
Proof.
  cbv zeta. unfold cdiv, crem. rewrite <- slow_least, <- slow_minus_one.
  destruct (Z.eqb_spec (slow w y) 0) as [Hy|Hy].
  - rewrite Hy. cbn. rewrite !andb_false_r. split; by eexists.
  - destruct (Z.eqb_spec (slow w y) 0) as [|_]; [done|]. cbn [orb].
    destruct (_ && _); [done|]. split; by eexists.
Qed.

Lemma folding_2_overflows b w x y :
  do_constant_folding_2 (INDEX_op_bin b w) x y = Fault Undefined <-> overflows b w x y = true.
Proof.
  pose proof (wrap_range 5 y ltac:(lia)) as H5. rewrite <- mask_31 in H5.
  pose proof (wrap_range 6 y ltac:(lia)) as H6. rewrite <- mask_63 in H6.
  pose proof (div_overflows w x y) as Hdiv. cbv zeta in Hdiv.
  destruct b; try (by destruct w); unfold overflows; rewrite ?Z.eqb_eq.
  1, 2: destruct w; apply rot_overflows; auto; done.
  - destruct w; cbn [do_constant_folding_2]; unfold slow in Hdiv; cbn [wbits] in *;
      destruct (_ && _); destruct Hdiv as [H1 H2]; [by rewrite H1|by destruct H1 as [? ->]
        |by rewrite H1|by destruct H1 as [? ->]].
  - destruct w; cbn; unfold cdivu; (split; [|done]); repeat case_match; try done; lia.
  - destruct w; cbn [do_constant_folding_2]; unfold slow in Hdiv; cbn [wbits] in *;
      destruct (_ && _); destruct Hdiv as [H1 H2]; [by rewrite H2|by destruct H2 as [? ->]
        |by rewrite H2|by destruct H2 as [? ->]].
  - destruct w; cbn; unfold cremu; (split; [|done]); repeat case_match; try done; lia.
Qed.

(** ** A block *)

(** One global and five temporaries, of 64 bits. *)
Definition ex_ctx : TCGContext := mk_ctx 1 6 (fun _ => W64) (fun _ => false).

Definition ex_temps : temps_t := fun _ => mk_info TCG_TEMP_UNDEF 0 0 0 0.

(** Copies, a sum of constants, identities, a branch that is always taken
    and a call. *)
Definition ex_block : list TCGOp :=
  [mk_op (INDEX_op_movi W64) [1; 6] 0 0;
   mk_op (INDEX_op_mov W64) [2; 1] 0 0;
   mk_op (INDEX_op_bin op_add W64) [3; 2; 1] 0 0;
   mk_op (INDEX_op_bin op_xor W64) [4; 0; 0] 0 0;
   mk_op (INDEX_op_bin op_add W64) [0; 0; 4] 0 0;
   mk_op (INDEX_op_brcond W64) [3; 1; TCG_COND_GTU; 7] 0 0;
   mk_op (INDEX_op_movi W64) [0; 99] 0 0;
   mk_op INDEX_op_set_label [7] 0 0;
   mk_op (INDEX_op_mov W64) [5; 0] 0 0;
   mk_op INDEX_op_call [5; 0x1000; 0] 0 1].

Definition ex_optimised : list TCGOp :=
  [mk_op (INDEX_op_movi W64) [1; 6] 0 0;
   mk_op (INDEX_op_movi W64) [2; 6] 0 0;
   mk_op (INDEX_op_movi W64) [3; 12] 0 0;
   mk_op (INDEX_op_movi W64) [4; 0] 0 0;
   mk_op INDEX_op_br [7] 0 0;
   mk_op (INDEX_op_movi W64) [0; 99] 0 0;
   mk_op INDEX_op_set_label [7] 0 0;
   mk_op (INDEX_op_mov W64) [5; 0] 0 0;
   mk_op INDEX_op_call [0; 0x1000; 0] 0 1].

Example ex_block_optimised :
  tcg_optimize ex_ctx (fun _ => true) (fun _ => true) ex_temps ex_block = Ret ex_optimised.
Proof. reflexivity. Qed.

(** ** Whole blocks *)

Definition wf_block (s : TCGContext) (P : list TCGOp) : bool := wf_ctx s && forallb (wf_op s) P.

Lemma wf_block_spec s P :
  wf_block s P = true <-> wf_ctx s = true /\ Forall (fun op => wf_op s op = true) P.
Proof. unfold wf_block. by rewrite andb_true_iff, List.Forall_forall, forallb_forall. Qed.

Lemma optimised_labels s HAS_neg HAS_not temps k k' :
  optimised s HAS_neg HAS_not temps k k' -> labels k' = labels k.
Proof.
  induction 1 as [|temps op k h temps' ops k' _ _ _ Hl _ IH]; [done|].
  unfold labels in *. change (op :: k) with ([op] ++ k). rewrite !List.filter_app. by rewrite Hl, IH.
Qed.

(** The environment without defined variables. *)
Definition no_env : env := fun _ => None.

Lemma possible_reset s temps : possible s (reset_all_temps s temps).
Proof. exists no_env. by apply inv_reset_all. Qed.

Lemma tcg_optimize_cases s HAS_neg HAS_not temps P :
  wf_block s P = true ->
  (existsb (fun op => may_overflow (opc op)) P = true /\
   tcg_optimize s HAS_neg HAS_not temps P = Fault Undefined) \/
  exists P', tcg_optimize s HAS_neg HAS_not temps P = Ret P' /\
    optimised s HAS_neg HAS_not (reset_all_temps s temps) P P' /\ wf_block s P' = true.
Proof.
  intros [Hctx HP]%wf_block_spec. unfold tcg_optimize, tcg_constant_folding.
  destruct (fold_ops_optimised s HAS_neg HAS_not Hctx (S (2 * length P)) (reset_all_temps s temps) P)
    as [?|(P' & ? & ? & ?)]; [apply possible_reset|done|lia|by left|right].
  exists P'. by rewrite wf_block_spec.
Qed.

(** C11: The optimiser returns.  On every block of well-formed operations the
    loop ends within its bound, no walk around a ring of copies goes on for
    ever and no assertion fails; the result is a block of well-formed
    operations with the same labels in the same order, unless the block has a
    rotation or a signed division whose folding C leaves undefined. *)
Theorem tcg_optimize_total s HAS_neg HAS_not temps P :
  wf_block s P = true ->
  (existsb (fun op => may_overflow (opc op)) P = true /\
   tcg_optimize s HAS_neg HAS_not temps P = Fault Undefined) \/
  exists P', tcg_optimize s HAS_neg HAS_not temps P = Ret P' /\
    wf_block s P' = true /\ labels P' = labels P.
Proof.
  intros HP. destruct (tcg_optimize_cases s HAS_neg HAS_not temps P HP)
    as [?|(P' & ? & ? & ?)]; [by left|right].
  exists P'. split_and!; [done..|]. by eapply optimised_labels.
Qed.

Lemma tcg_optimize_total_witness :
  exists P', tcg_optimize ex_ctx (fun _ => true) (fun _ => true) ex_temps ex_block = Ret P' /\
    wf_block ex_ctx P' = true /\ labels P' = [mk_op INDEX_op_set_label [7] 0 0].
Proof.
  destruct (tcg_optimize_total ex_ctx (fun _ => true) (fun _ => true) ex_temps ex_block eq_refl)
    as [[H _]|H]; [discriminate H|exact H].
Defined.

(** C2: The optimiser is correct.  Whatever an optimised block may do, at any
    number of jumps, on any machine, the block itself may do: the run ends at
    the same place, with the same memory and helper calls, and with the same
    values in the variables that are defined. *)
Theorem tcg_optimize_refines s HAS_neg HAS_not {World : Type}
    (ext : TCGOpcode -> list Z -> list Z -> list Z -> World ->
           list Z -> list Z -> World -> bool -> Prop) temps P P' n E m e E' m' :
  wf_block s P = true -> tcg_optimize s HAS_neg HAS_not temps P = Ret P' -> env_ok s E ->
  run s ext P' n P' E m e E' m' ->
  exists E1, run s ext P n P E m e E1 m' /\ lessdef E1 E'.
Proof.
  intros HP Ho He Hr. destruct (tcg_optimize_cases s HAS_neg HAS_not temps P HP)
    as [[_ ?]|(P1 & Ho1 & Hopt & _)]; [congruence|]. assert (P1 = P') as -> by congruence.
  apply wf_block_spec in HP as [Hctx _].
  eapply (optimised_simulated s HAS_neg HAS_not ext P P'); eauto using inv_reset_all.
  all: by intros t; right.
Qed.

(** A machine that logs what helpers are called with. *)
Definition ex_ext (oc : TCGOpcode) (cs ins gl : list Z) (m : list (list Z)) (vals gl' : list Z)
    (m' : list (list Z)) (go : bool) : Prop :=
  vals = [] /\ gl' = gl /\ m' = ins :: m /\ go = true.

Definition ex_env : env := fun t => if t =? 0 then Some 42 else None.

Lemma ex_env_ok : env_ok ex_ctx ex_env.
Proof. intros t v. unfold ex_env. destruct (t =? 0); [|done]. intros [= <-]. cbn. lia. Qed.

Lemma ex_run : exists E', run ex_ctx ex_ext ex_optimised 1 ex_optimised ex_env [] AtEnd E' [[42]].
Proof.
  eexists. do 4 (eapply run_next; [by apply exec_eval|]).
  eapply run_jump; [by eapply exec_br|reflexivity|].
  eapply run_next; [by apply exec_eval|].
  eapply run_next; [|apply run_end].
  eapply (exec_effect _ _ _ _ _ [42] [42] [] [42] [[42]] true); [done|..];
    repeat constructor.
Qed.

Lemma tcg_optimize_refines_witness :
  exists E' E1, run ex_ctx ex_ext ex_block 1 ex_block ex_env [] AtEnd E1 [[42]] /\ lessdef E1 E'.
Proof.
  destruct ex_run as [E' Hr]. exists E'.
  exact (tcg_optimize_refines ex_ctx (fun _ => true) (fun _ => true) ex_ext ex_temps ex_block
    ex_optimised 1 ex_env [] AtEnd E' [[42]] eq_refl eq_refl ex_env_ok Hr).
Defined.

(** C36: The optimised block runs.  Where the machine answers every access and
    call, the optimised block has a run without a crash up to any number of
    jumps, and the block has a run that ends in the same way. *)
Theorem tcg_optimize_runs s HAS_neg HAS_not {World : Type}
    (ext : TCGOpcode -> list Z -> list Z -> list Z -> World ->
           list Z -> list Z -> World -> bool -> Prop) temps P P' n E m :
  wf_block s P = true -> tcg_optimize s HAS_neg HAS_not temps P = Ret P' -> env_ok s E ->
  ext_total ext ->
  exists e E' m' E1, e <> Crashed /\ run s ext P' n P' E m e E' m' /\
    run s ext P n P E m e E1 m' /\ lessdef E1 E'.
Proof.
  intros HP Ho He Hx. destruct (tcg_optimize_cases s HAS_neg HAS_not temps P HP)
    as [[_ ?]|(P1 & Ho1 & Hopt & [_ HP1]%wf_block_spec)]; [congruence|].
  assert (P1 = P') as -> by congruence. apply wf_block_spec in HP as [Hctx _].
  destruct (run_total s ext Hx P' n P' E m HP1 HP1) as (e & E' & m' & Hr & Hc).
  edestruct (optimised_simulated s HAS_neg HAS_not ext P P') with (E := E) (Eg := E)
    as (E1 & Hr1 & Hl); eauto using inv_reset_all; [by intros t; right..|].
  by exists e, E', m', E1.
Qed.

Lemma tcg_optimize_runs_witness :
  exists e E' m' E1, e <> Crashed /\ run ex_ctx ex_ext ex_optimised 3 ex_optimised ex_env [] e E' m' /\
    run ex_ctx ex_ext ex_block 3 ex_block ex_env [] e E1 m' /\ lessdef E1 E'.
Proof.
  apply (tcg_optimize_runs ex_ctx (fun _ => true) (fun _ => true) ex_ext ex_temps ex_block
    ex_optimised 3 ex_env []); [reflexivity|reflexivity|apply ex_env_ok|].
  intros oc cs ins gl m. by exists [], gl, (ins :: m).
Defined.

(** ** Rings of copies *)

(** On well-linked rings both walks end: [find_better_copy] gives a copy
    of the variable, a global if its ring has one, otherwise a local
    temporary if it has one; and [temps_are_copies] tells exactly whether two
    variables are on one ring. *)
Lemma copies_found s temps t j :
  rings s temps -> in_temps s t = true ->
  (state (temps t) = TCG_TEMP_COPY ->
   exists b, find_better_copy s temps t = Ret b /\ best_copy s temps t b) /\
  exists b, temps_are_copies s temps t j = Ret b /\ (b = true <-> copies temps t j).
Proof.
  intros Hr Ht. split; [|by apply temps_are_copies_ok]. by apply find_better_copy_ok.
Qed.

(** The ring 5, 3, 0. *)
Definition ex_ring : temps_t := fun t =>
  if t =? 5 then mk_info TCG_TEMP_COPY 0 3 0 all_ones
  else if t =? 3 then mk_info TCG_TEMP_COPY 5 0 0 all_ones
  else if t =? 0 then mk_info TCG_TEMP_COPY 3 5 0 all_ones
  else mk_info TCG_TEMP_UNDEF 0 0 0 all_ones.

Lemma ex_ring_linked : rings ex_ctx ex_ring.
Proof.
  intros t Ht. unfold in_temps in Ht. cbn in Ht.
  assert (t = 0 \/ t = 1 \/ t = 2 \/ t = 3 \/ t = 4 \/ t = 5) as Hc by lia.
  destruct_or? Hc; subst t; cbn; intros Hs; discriminate Hs || by constructor.
Qed.

Lemma copies_found_witness :
  find_better_copy ex_ctx ex_ring 5 = Ret 0 /\ best_copy ex_ctx ex_ring 5 0 /\
  temps_are_copies ex_ctx ex_ring 5 4 = Ret false /\ ~ copies ex_ring 5 4.
Proof.
  destruct (copies_found ex_ctx ex_ring 5 4 ex_ring_linked eq_refl) as [H1 (b & H2 & H3)].
  destruct (H1 eq_refl) as (j & Hj & Hb).
  assert (find_better_copy ex_ctx ex_ring 5 = Ret 0) as H0 by reflexivity.
  assert (temps_are_copies ex_ctx ex_ring 5 4 = Ret false) as H4 by reflexivity.
  assert (j = 0) as -> by congruence. assert (b = false) as -> by congruence.
  split; [exact H0|]. split; [exact Hb|]. split; [exact H4|]. intros Hc. by apply H3 in Hc.
Defined.

(** ** Constant folding *)

(** C37: Folding a binary operation of constants gives what the operation
    computes where the documentation defines it; it fails only where the C
    expression is undefined: for a rotation by zero, modulo the width, and
    the signed division of the least number by -1. *)
Theorem folding_bin_correct b w x y :
  wf_opcode (INDEX_op_bin b w) = true -> 0 <= x < 2 ^ 64 -> 0 <= y < 2 ^ 64 ->
  if overflows b w x y
  then do_constant_folding (INDEX_op_bin b w) x y = Fault Undefined
  else exists r, do_constant_folding (INDEX_op_bin b w) x y = Ret r /\ 0 <= r < 2 ^ 64 /\
    (bin_defined b w (low w x) (low w y) = true -> low w r = low w (sem_bin b w (low w x) (low w y))).
Proof.
  intros Hwf Hx Hy. pose proof (folding_2_overflows b w x y) as Ho.
  destruct (folding_total (INDEX_op_bin b w) x y) as [[r Hr]|[_ Hf]]; [eauto|..].
  - destruct (overflows b w x y).
    + unfold do_constant_folding in Hr. by rewrite (proj2 Ho eq_refl) in Hr.
    + exists r. split; [done|]. by apply folding_bin.
  - destruct (overflows b w x y); [done|]. unfold do_constant_folding in Hf.
    destruct (do_constant_folding_2 _ x y) as [|f|]; simpl in Hf; try done. simplify_eq.
    discriminate (proj1 Ho eq_refl).
Qed.

Lemma folding_bin_correct_witness :
  do_constant_folding (INDEX_op_bin op_rotl W32) 5 64 = Fault Undefined /\
  exists r, do_constant_folding (INDEX_op_bin op_sar W32) 0x80000000 4 = Ret r /\ 0 <= r < 2 ^ 64 /\
    low W32 r = 0xf8000000.
Proof.
  split; [apply (folding_bin_correct op_rotl W32 5 64); [reflexivity|lia|lia]|].
  destruct (folding_bin_correct op_sar W32 0x80000000 4) as (r & H1 & H2 & H3); [reflexivity|lia|lia|].
  exists r. split; [exact H1|]. split; [exact H2|]. rewrite (H3 eq_refl). reflexivity.
Defined.

(** Constant folding and the interpreter agree: for every operation the
    interpreter has, the optimiser folds constants into the value the
    interpreter would compute, or both are undefined; conditions are decided
    alike.  Division by zero, which the interpreter does not guard, is left
    out. *)
Lemma folding_interpreter x y c :
  (forall b o, (traps b = true -> u32 y <> 0) -> tci_bin32 b x y = Some o ->
     do_constant_folding (INDEX_op_bin b W32) x y = o) /\
  (forall b o, tci_bin64 b x y = Some o -> do_constant_folding (INDEX_op_bin b W64) x y = o) /\
  (forall u v, tci_un32 u x = Some v -> do_constant_folding (INDEX_op_un u W32) x 0 = Ret v) /\
  (forall u v, tci_un64 u x = Some v -> do_constant_folding (INDEX_op_un u W64) x 0 = Ret v) /\
  tci_compare32 x y c = do_constant_folding_cond_32 x y c /\
  tci_compare64 x y c = do_constant_folding_cond_64 x y c.
Proof.
  split_and!; [intros b o; apply tci_bin32_folding|intros b o; apply tci_bin64_folding
    |intros u v; apply (tci_un_folding u x v)..|apply tci_compare_folding|apply tci_compare_folding].
Qed.

Lemma folding_interpreter_witness :
  do_constant_folding (INDEX_op_bin op_rem W32) 0xfffffff9 3 = Ret 0xffffffff /\
  do_constant_folding (INDEX_op_un op_ext8s W64) 0x80 0 = Ret 0xffffffffffffff80.
Proof.
  destruct (folding_interpreter 0xfffffff9 3 0) as [H _].
  destruct (folding_interpreter 0x80 0 0) as (_ & _ & _ & H' & _).
  split; [apply (H op_rem); [discriminate|reflexivity]|apply (H' op_ext8s); reflexivity].
Defined.

(** C38: [muluh_i64] lacks the flag of 64-bit operations: folding it keeps only
    the low 32 bits of the high word of the product, and emits a 32-bit
    move. *)
Theorem muluh_i64_folding x y :
  0 <= x < 2 ^ 64 -> 0 <= y < 2 ^ 64 ->
  do_constant_folding (INDEX_op_bin op_muluh W64) x y = Ret (u32 (sem_bin op_muluh W64 x y)) /\
  op_to_movi (INDEX_op_bin op_muluh W64) = INDEX_op_movi W32.
Proof.
  intros Hx Hy. split; [|done]. rewrite folding_W32 by done. cbn [do_constant_folding_2].
  rewrite mulu64_spec by done. cbn. by rewrite Z.shiftr_div_pow2.
Qed.

Lemma muluh_i64_folding_witness :
  do_constant_folding (INDEX_op_bin op_muluh W64) (2 ^ 63) (2 ^ 34) = Ret 0 /\
  sem_bin op_muluh W64 (2 ^ 63) (2 ^ 34) = 2 ^ 33.
Proof.
  split; [|reflexivity].
  destruct (muluh_i64_folding (2 ^ 63) (2 ^ 34)) as [-> _]; [lia|lia|reflexivity].
Defined.
