(* ===== verification/TcgFrame.v ===== *)
(** * What a TCG operation reads and writes

    An operation depends only on its inputs, and on the globals where it may
    see them; the variables it does not write it leaves alone, up to the end
    of a basic block. *)

From S2P Require Import Prelude HostUtils BitField TcgOp TcgOpt TcgSem.
From S2P Require Import TcgMono TcgInv TcgFold TcgMask TcgGood TcgCorrect.

Section Frame.
Context (s : TCGContext) {World : Type}.
Context (ext : TCGOpcode -> list Z -> list Z -> list Z -> World ->
               list Z -> list Z -> World -> bool -> Prop).

#[local] Abbreviation exec := (exec s ext).
#[local] Abbreviation rd := (rd s).
#[local] Abbreviation wr := (wr s).

Definition ends_bb (op : TCGOp) : bool := OPF_BB_END (tcg_op_defs (opc op)).

(** A variable that is not written, after the operation. *)
Definition left_alone (op : TCGOp) (E : env) : env := if ends_bb op then bb_end s E else E.

Definition written (op : TCGOp) (t : Z) : Prop :=
  t ∈ op_outputs op \/ writes_globals op = true /\ 0 <= t < nb_globals s.

#[export] Instance written_dec op t : Decision (written op t).
Proof. unfold written. apply _. Qed.

(** The operands of an operation that computes. *)
Lemma op_parts op :
  opc op <> INDEX_op_call ->
  op_outputs op = firstn (nb_oargs (tcg_op_defs (opc op))) (args op) /\
  op_inputs op = firstn (nb_iargs (tcg_op_defs (opc op)))
                   (skipn (nb_oargs (tcg_op_defs (opc op))) (args op)).
Proof.
  intros Hc. destruct (op_args_def op Hc) as [Ho Hi]. unfold op_outputs, op_inputs.
  by rewrite Ho, Hi.
Qed.

Lemma rd_eq E E1 w t : E t = E1 t -> rd E w t = rd E1 w t.
Proof. intros H. unfold TcgSem.rd. by rewrite H. Qed.

Lemma wr_at E E1 w d v t : t = d -> wr E w d v t = wr E1 w d v t.
Proof. intros ->. unfold TcgSem.wr. by rewrite Z.eqb_refl. Qed.

(** ** Operations that compute *)

Ltac op_args Hw al :=
  unfold wf_args in Hw; cbn [opc args] in Hw; repeat (destruct al as [|? al]; try done).

Lemma eval_unwritten op E E' t :
  wf_args s op = true -> eval_op s E op = Some E' -> t ∉ op_outputs op -> E' t = E t.
Proof.
  intros Hw He Ht. destruct op as [oc al co ci].
  destruct (decide (oc = INDEX_op_call)) as [->|Hc]; [done|].
  destruct (op_parts (mk_op oc al co ci) Hc) as [Ho _]. rewrite Ho in Ht. clear Ho.
  destruct oc as [| | |w|w|w|w|w|w| |b w|u w|w|w|w|w|w|w| | | |w| | |name def]; try done;
    op_args Hw al; try destruct b; cbn in He, Ht; simplify_eq; unfold wr2;
    rewrite ?wr_ne by set_solver; done.
Qed.

Lemma wr2_at E E1 w l h r t : t ∈ [l; h] -> wr2 s E w l h r t = wr2 s E1 w l h r t.
Proof.
  intros Ht. unfold wr2. destruct (decide (t = l)) as [->|Hne]; [by apply wr_at|].
  rewrite !(wr_ne s _ w l) by done. apply wr_at. set_solver.
Qed.

Lemma eval_same op E E1 E1' :
  wf_args s op = true -> Forall (fun t => E t = E1 t) (op_inputs op) ->
  eval_op s E1 op = Some E1' ->
  exists E', eval_op s E op = Some E' /\ forall t, t ∈ op_outputs op -> E' t = E1' t.
Proof.
  intros Hw Hi He. destruct op as [oc al co ci].
  destruct (decide (oc = INDEX_op_call)) as [->|Hc]; [done|].
  destruct (op_parts (mk_op oc al co ci) Hc) as [-> Hin]. rewrite Hin in Hi. clear Hin.
  destruct oc as [| | |w|w|w|w|w|w| |b w|u w|w|w|w|w|w|w| | | |w| | |name def]; try done;
    op_args Hw al; try (destruct (bin_args b w) as [Hb1 Hb2]; cbn [opc] in *; rewrite Hb1, Hb2 in * ).
  all: cbn in Hi, He; injection He as <-; rewrite ?Forall_cons in Hi; destruct_and? Hi.
  all: eexists; (split; [done|]); cbn; intros t Ht.
  all: repeat match goal with H : ?Ea ?x = ?Eb ?x |- context [TcgSem.rd _ ?Ea _ ?x] =>
    rewrite !(rd_eq Ea Eb _ x H) end.
  all: try (apply wr2_at; exact Ht).
  all: try (apply wr_at; by apply list_elem_of_singleton in Ht).
  - apply list_elem_of_singleton in Ht as ->.
    destruct (eval_cond _ _ _ _) as [[]|]; cbn; [rewrite (rd_eq E E1 w z2) by done
      |rewrite (rd_eq E E1 w z3) by done|]; by apply wr_at.
  - set_solver.
Qed.

Lemma trap_same op E E1 :
  wf_args s op = true -> Forall (fun t => E t = E1 t) (op_inputs op) ->
  may_trap s E op = may_trap s E1 op.
Proof.
  intros Hw Hi. unfold may_trap. destruct op as [oc al co ci]. cbn [opc args].
  destruct oc as [| | |w|w|w|w|w|w| |b w|u w|w|w|w|w|w|w| | | |w| | |name def]; try done.
  op_args Hw al. destruct (op_parts (mk_op (INDEX_op_bin b w) [z; z0; z1] co ci)) as [_ Hin]; [done|].
  rewrite Hin in Hi. destruct (bin_args b w) as [Hb1 Hb2]. cbn [opc] in Hi. rewrite Hb1, Hb2 in Hi.
  cbn in Hi. rewrite !Forall_cons in Hi. destruct Hi as (H0 & H1 & _).
  by rewrite (rd_eq E E1 w z0 H0), (rd_eq E E1 w z1 H1).
Qed.

(** ** All operations *)

Lemma effect_unwritten op E g vals go t :
  ~ written op t -> after_effect s E op g vals go t = left_alone op E t.
Proof.
  intros Hn. unfold after_effect, left_alone, ends_bb, written in *.
  assert (Hg : (if go then wr_outs s (wr_globals s E op g) op (op_outputs op) vals
                else wr_globals s E op g) t = E t).
  { trans (wr_globals s E op g t); [destruct go; [by rewrite wr_outs_other by tauto|done]|].
    unfold wr_globals.
    destruct (writes_globals op); [|done]. cbn [andb].
    destruct ((0 <=? t) && (t <? nb_globals s)) eqn:Ht; [|done].
    destruct Hn. right. split; [done|lia]. }
  destruct (OPF_BB_END _); [|done]. unfold bb_end. by rewrite Hg.
Qed.

Lemma wr_outs_at E E1 op outs vals t :
  t ∈ outs -> wr_outs s E op outs vals t = wr_outs s E1 op outs vals t.
Proof.
  revert E E1 vals. induction outs as [|o outs IH]; intros E E1 vals Ht; [set_solver|]. cbn.
  destruct (decide (t ∈ outs)) as [Hin|Hn]; [by apply IH|]. rewrite !wr_outs_other by done.
  apply wr_at. set_solver.
Qed.

Lemma effect_written op E E1 g vals go t :
  written op t -> (go = false -> E t = E1 t) ->
  after_effect s E op g vals go t = after_effect s E1 op g vals go t.
Proof.
  intros Hwr Hgo. unfold after_effect.
  assert ((if go then wr_outs s (wr_globals s E op g) op (op_outputs op) vals
           else wr_globals s E op g) t
          = (if go then wr_outs s (wr_globals s E1 op g) op (op_outputs op) vals
             else wr_globals s E1 op g) t) as Hg.
  { assert (Hgl : (t ∈ op_outputs op -> E t = E1 t) -> wr_globals s E op g t = wr_globals s E1 op g t).
    { unfold wr_globals. destruct (writes_globals op && (0 <=? t) && (t <? nb_globals s)) eqn:Hb; [done|].
      intros Ho. destruct Hwr as [|[Hw Ht]]; [auto|]. rewrite Hw in Hb. lia. }
    destruct go; [|by apply Hgl; auto].
    destruct (decide (t ∈ op_outputs op)) as [Hin|Hn]; [by apply wr_outs_at|].
    rewrite !wr_outs_other by done. by apply Hgl. }
  destruct (OPF_BB_END _); [|done]. unfold bb_end. by rewrite Hg.
Qed.

Lemma writes_call op : writes_globals op = true -> opc op = INDEX_op_call.
Proof. unfold writes_globals. rewrite !andb_true_iff, bool_decide_eq_true. tauto. Qed.

Lemma exec_unwritten op E m E' m' f t :
  wf_args s op = true -> exec op E m E' m' f -> ~ written op t ->
  E' t = left_alone op E t.
Proof.
  intros Hw Hx Hn. unfold left_alone, ends_bb.
  destruct Hx as [E' Hev|Ht|l Ho Ha|l Ho Ha|w x y c l b Ho Ha Hc
    |al ah bl bh c l b Ho Ha Hc|ins gl vals gl' m' go Hf Hi Hg Hgo Hx];
    try (rewrite Ho; done).
  - assert (OPF_BB_END (tcg_op_defs (opc op)) = false) as ->.
    { unfold eval_op in Hev. destruct (opc op) as [| | |w|w|w|w|w|w| |[] w|u w|w|w|w|w|w|w| | | |w| | |name def];
        done. }
    eapply eval_unwritten; [done..|]. intros ?. destruct Hn. by left.
  - assert (OPF_BB_END (tcg_op_defs (opc op)) = false) as ->; [|done].
    unfold may_trap in Ht. by destruct (opc op) as [| | |w|w|w|w|w|w| |[] w|u w|w|w|w|w|w|w| | | |w| | |name def].
  - by apply effect_unwritten.
Qed.

Lemma nothing_written op t :
  opc op <> INDEX_op_call -> nb_oargs (tcg_op_defs (opc op)) = 0%nat -> ~ written op t.
Proof.
  intros Hc Ho [Ht|[?%writes_call _]]; [|done]. destruct (op_parts op Hc) as [Hp _].
  rewrite Hp, Ho in Ht. set_solver.
Qed.

Lemma exec_same op E E1 m E1' m' f :
  wf_args s op = true -> Forall (fun t => E t = E1 t) (op_inputs op) ->
  Forall (fun t => E t = E1 t) (shown_globals s op) -> exec op E1 m E1' m' f ->
  exists E', exec op E m E' m' f /\
    (f <> Wrong -> forall t, written op t -> (f = Stop -> E t = E1 t) -> E' t = E1' t).
Proof.
  intros Hw Hin Hgl Hx.
  assert (Hno : opc op <> INDEX_op_call -> nb_oargs (tcg_op_defs (opc op)) = 0%nat ->
    f <> Wrong -> forall t, written op t -> (f = Stop -> E t = E1 t) -> bb_end s E t = E1' t)
    by (intros ? ? _ t ?; by destruct (nothing_written op t)).
  destruct Hx as [E1' Hev|Ht|l Ho Ha|l Ho Ha|w x y c l b Ho Ha Hc
    |al ah bl bh c l b Ho Ha Hc|ins gl vals gl' m' go Hf Hi Hg Hgo Hx].
  - destruct (eval_same op E E1 E1' Hw Hin Hev) as (E' & He & Ho). exists E'.
    split; [by constructor|]. intros _ t [Ht|[Ht%writes_call _]] _; [by apply Ho|].
    unfold eval_op in Hev. by rewrite Ht in Hev.
  - exists E. split; [|done]. constructor. by rewrite (trap_same op E E1).
  - exists (bb_end s E). split; [by eapply exec_label|]. by apply Hno; rewrite Ho.
  - exists (bb_end s E). split; [by eapply exec_br|]. by apply Hno; rewrite Ho.
  - exists (bb_end s E). split.
    + eapply exec_brcond; [done..|]. destruct (op_parts op) as [_ Hp]; [by rewrite Ho|].
      rewrite Hp, Ho, Ha in Hin. cbn in Hin. rewrite !Forall_cons in Hin. destruct Hin as (H1 & H2 & _).
      by rewrite (rd_eq E E1 w x H1), (rd_eq E E1 w y H2).
    + by apply Hno; rewrite Ho.
  - exists (bb_end s E). split.
    + eapply exec_brcond2; [done..|]. destruct (op_parts op) as [_ Hp]; [by rewrite Ho|].
      rewrite Hp, Ho, Ha in Hin. cbn in Hin. rewrite !Forall_cons in Hin.
      destruct Hin as (H1 & H2 & H3 & H4 & _).
      by rewrite (rd_eq E E1 _ _ H1), (rd_eq E E1 _ _ H2), (rd_eq E E1 _ _ H3), (rd_eq E E1 _ _ H4).
    + by apply Hno; rewrite Ho.
  - exists (after_effect s E op gl' vals go).
    split; [|intros _ t Ht Hs; apply effect_written; [done|by intros ->; apply Hs]].
    assert (Hfound : forall l v, Forall (fun t => E t = E1 t) l -> Forall2 (found s E1) l v ->
      Forall2 (found s E) l v).
    { intros l v HF HF2. induction HF2 as [|t x l v Htx _ IH]; [done|].
      inversion HF; subst. constructor; [|by apply IH]. unfold found in *. match goal with H : E t = E1 t |- _ => by rewrite H end. }
    eapply exec_effect; eauto.
Qed.

(** What is done with variables that are at least as defined where it
    matters may be done. *)
Lemma exec_agree op E Et m Et' m' f :
  wf_args s op = true -> env_ok s Et ->
  Forall (fun t => ole (E t) (Et t)) (op_inputs op) ->
  Forall (fun t => ole (E t) (Et t)) (shown_globals s op) -> exec op Et m Et' m' f ->
  exists E', exec op E m E' m' f /\
    (f <> Wrong -> forall t, written op t -> (f = Stop -> ole (E t) (Et t)) -> ole (E' t) (Et' t)) /\
    forall t, ~ written op t -> E' t = left_alone op E t /\ Et' t = left_alone op Et t.
Proof.
  intros Hwf Het Hi Hg Hx.
  set (E1 := fun t => if decide (E t = None \/ E t = Et t) then E t else Et t).
  assert (HE1 : forall t, ole (E t) (Et t) -> E t = E1 t)
    by (intros t Ht; unfold E1; by rewrite decide_True).
  destruct (exec_mono s ext op E1 Et m Et' m' f) as (E1' & Hx1 & Hl1); [|done..|].
  { intros t. unfold E1. case_decide; [done|by right]. }
  destruct (exec_same op E E1 m E1' m' f) as (E' & Hx' & Heq); try done.
  - by eapply Forall_impl; [exact Hi|].
  - by eapply Forall_impl; [exact Hg|].
  - exists E'. split_and!; [done| |].
    + intros Hf t Ht Hs. rewrite Heq by auto. apply Hl1.
    + intros t Ht. split; by eapply exec_unwritten.
Qed.
End Frame.
