(* ===== verification/TcgLive.v ===== *)
(** * Liveness analysis of TCG

    The backward pass of src/tcg/tcg.c that removes operations whose results
    are not used, narrows double-word operations, and tells the register
    allocator which arguments are dead and which have to be stored. *)

From S2P Require Import Prelude HostUtils BitField TcgOp TcgOpt TcgSem.

(** [dead_temps] and [mem_temps] at a point of the block: the value of a
    variable is not used in a register any more; it is used in memory. *)
Record la := mk_la {
  dead_temps : Z -> bool;
  mem_temps : Z -> bool;
}.

Definition set1 (f : Z -> bool) (i : Z) (v : bool) : Z -> bool := fun t => if t =? i then v else f t.

Definition TCG_CALL_DUMMY_ARG : Z := all_ones.

Section Live.
Context (s : TCGContext).
Context (TCG_TARGET_HAS_muluh TCG_TARGET_HAS_mulsh : width -> bool).

Definition is_global (t : Z) : bool := (0 <=? t) && (t <? nb_globals s).

Definition tcg_la_func_end : la := mk_la (fun _ => true) is_global.

Definition tcg_la_bb_end : la := mk_la (fun _ => true) (fun t => is_global t || temp_local s t).

(** [memset(mem_temps, 1, s->nb_globals)], and of [dead_temps]. *)
Definition mem_globals (l : la) : la :=
  mk_la (dead_temps l) (fun t => is_global t || mem_temps l t).

Definition dead_globals (l : la) : la :=
  mk_la (fun t => is_global t || dead_temps l t) (mem_temps l).

(** A variable that is written is dead and not in memory before. *)
Definition la_output (l : la) (t : Z) : la :=
  mk_la (set1 (dead_temps l) t true) (set1 (mem_temps l) t false).

(** The loops over the arguments, from argument [i] on; [dead_args] and
    [sync_args] are the bits of the arguments that are dead and that have to
    be stored. *)
Fixpoint la_outputs (l : la) (i : Z) (outs : list Z) (dead_args sync_args : Z) : la * Z * Z :=
  match outs with
  | [] => (l, dead_args, sync_args)
  | arg :: outs =>
    let dead_args := if dead_temps l arg then u16 (dead_args ||| (1 << i)) else dead_args in
    let sync_args := if mem_temps l arg then u8 (sync_args ||| (1 << i)) else sync_args in
    la_outputs (la_output l arg) (i + 1) outs dead_args sync_args
  end.

Fixpoint la_inputs (call : bool) (l : la) (i : Z) (ins : list Z) (dead_args : Z) : la * Z :=
  match ins with
  | [] => (l, dead_args)
  | arg :: ins =>
    if call && (arg =? TCG_CALL_DUMMY_ARG) then la_inputs call l (i + 1) ins dead_args
    else
      let dead_args := if dead_temps l arg then u16 (dead_args ||| (1 << i)) else dead_args in
      la_inputs call (mk_la (set1 (dead_temps l) arg false) (mem_temps l)) (i + 1) ins dead_args
  end.

(** Neither used in a register nor in memory. *)
Definition unused (l : la) (t : Z) : bool := dead_temps l t && negb (mem_temps l t).

(** What becomes of an operation: the sets before it, and the operation with
    its [op_dead_args] and [op_sync_args], which are set only where the
    register allocator uses them; nothing when it is removed. *)
Definition analysed : Type := la * option (TCGOp * option (Z * Z)).

(** The label [do_not_remove], with [no] outputs and [ni] inputs. *)
Definition do_not_remove (l : la) (def : TCGOpDef) (op : TCGOp) (no ni : nat) : analysed :=
  let '(l, dead_args, sync_args) := la_outputs l 0 (firstn no (args op)) 0 0 in
  let l := if OPF_BB_END def then tcg_la_bb_end
           else if OPF_SIDE_EFFECTS def then mem_globals l else l in
  let '(l, dead_args) := la_inputs false l (Z.of_nat no) (firstn ni (skipn no (args op))) dead_args in
  (l, Some (op, Some (dead_args, sync_args))).

Definition live_call (l : la) (op : TCGOp) : analysed :=
  let no := callo op in
  let ni := calli op in
  let call_flags := arg op (no + ni + 1) in
  if has_bits call_flags TCG_CALL_NO_SIDE_EFFECTS && forallb (unused l) (firstn no (args op))
  then (l, None)
  else
    let '(l, dead_args, sync_args) := la_outputs l 0 (firstn no (args op)) 0 0 in
    let l := if negb (has_bits call_flags TCG_CALL_NO_READ_GLOBALS) then mem_globals l else l in
    let l := if negb (has_bits call_flags (TCG_CALL_NO_WRITE_GLOBALS ||| TCG_CALL_NO_READ_GLOBALS))
             then dead_globals l else l in
    let '(l, dead_args) :=
      la_inputs true l (Z.of_nat no) (firstn ni (skipn no (args op))) dead_args in
    (l, Some (op, Some (dead_args, sync_args))).

(** The label [do_addsub2]. *)
Definition do_addsub2 (l : la) (op : TCGOp) (opc_new : TCGOpcode) (rl rh al bl : Z) : analysed :=
  let def := tcg_op_defs (opc op) in
  if unused l rh then
    if unused l rl then (l, None)
    else do_not_remove l def (mk_op opc_new [rl; al; bl] 0 0) 1 2
  else do_not_remove l def op 2 4.

(** The label [do_mul2]. *)
Definition do_mul2 (l : la) (op : TCGOp) (opc_new opc_new2 : TCGOpcode) (have_opc_new2 : bool)
    (rl rh x y : Z) : analysed :=
  let def := tcg_op_defs (opc op) in
  if unused l rh then
    if unused l rl then (l, None)
    else do_not_remove l def (mk_op opc_new [rl; x; y] 0 0) 1 2
  else if have_opc_new2 && unused l rl
  then do_not_remove l def (mk_op opc_new2 [rh; x; y] 0 0) 1 2
  else do_not_remove l def op 2 2.

Definition live_default (l : la) (op : TCGOp) : analysed :=
  let def := tcg_op_defs (opc op) in
  if negb (OPF_SIDE_EFFECTS def) && negb (Nat.eqb (nb_oargs def) 0)
     && forallb (unused l) (firstn (nb_oargs def) (args op))
  then (l, None)
  else do_not_remove l def op (nb_oargs def) (nb_iargs def).

(** The body of the loop. *)
Definition live_op (l : la) (op : TCGOp) : analysed :=
  match opc op, args op with
  | INDEX_op_call, _ => live_call l op
  | INDEX_op_debug_insn_start, _ => (l, Some (op, None))
  | INDEX_op_discard, [t] => (la_output l t, Some (op, None))
  | INDEX_op_add2 w, [rl; rh; al; ah; bl; bh] =>
    do_addsub2 l op (INDEX_op_bin op_add w) rl rh al bl
  | INDEX_op_sub2 w, [rl; rh; al; ah; bl; bh] =>
    do_addsub2 l op (INDEX_op_bin op_sub w) rl rh al bl
  | INDEX_op_mulu2 w, [rl; rh; x; y] =>
    do_mul2 l op (INDEX_op_bin op_mul w) (INDEX_op_bin op_muluh w) (TCG_TARGET_HAS_muluh w) rl rh x y
  | INDEX_op_muls2 w, [rl; rh; x; y] =>
    do_mul2 l op (INDEX_op_bin op_mul w) (INDEX_op_bin op_mulsh w) (TCG_TARGET_HAS_mulsh w) rl rh x y
  | _, _ => live_default l op
  end.

(** The loop, from the last operation to the first. *)
Fixpoint live_ops (ops : list TCGOp) : la * list (TCGOp * option (Z * Z)) :=
  match ops with
  | [] => (tcg_la_func_end, [])
  | op :: ops =>
    let '(l, rest) := live_ops ops in
    let '(l, r) := live_op l op in
    (l, option_list r ++ rest)
  end.

Definition tcg_liveness_analysis (ops : list TCGOp) : list (TCGOp * option (Z * Z)) :=
  snd (live_ops ops).

End Live.
