(* ===== verification/TcgLiveness.v ===== *)
(** * Correctness of the liveness analysis

    What a block does after the backward pass of src/tcg/tcg.c the block may
    do: the variables that are used later, in registers or in memory, have
    the values they should have. *)

From S2P Require Import Prelude HostUtils BitField TcgOp TcgOpt TcgSem.
From S2P Require Import TcgMono TcgInv TcgFold TcgMask TcgGood TcgCorrect TcgFrame TcgLive.

(** ** The sets *)

Section Sets.
Context (s : TCGContext).

Definition needed (l : la) (t : Z) : bool := negb (dead_temps l t) || mem_temps l t.

Lemma unused_needed l t : unused l t = negb (needed l t).
Proof. unfold unused, needed. by destruct (dead_temps l t), (mem_temps l t). Qed.

Lemma needed_output l t d : needed (la_output l d) t = negb (t =? d) && needed l t.
Proof. unfold needed, la_output, set1. cbn. by destruct (t =? d). Qed.

Lemma needed_outputs l i outs d y :
  let l' := (la_outputs l i outs d y).1.1 in
  forall t, needed l' t = bool_decide (t ∉ outs) && needed l t.
Proof.
  revert l i d y. induction outs as [|o outs IH]; intros l i d y l' t.
  { unfold l'. cbn. by rewrite bool_decide_true by set_solver. }
  unfold l'. cbn [la_outputs]. rewrite IH, needed_output.
  destruct (Z.eqb_spec t o) as [->|Hne].
  - rewrite (bool_decide_false (o ∉ o :: outs)) by set_solver. by rewrite andb_false_r.
  - cbn [negb andb]. f_equal. apply bool_decide_ext. set_solver.
Qed.

Lemma needed_inputs call l i ins d :
  let l' := (la_inputs call l i ins d).1 in
  forall t, needed l' t =
    bool_decide (t ∈ ins) && negb (call && (t =? TCG_CALL_DUMMY_ARG)) || needed l t.
Proof.
  revert l i d. induction ins as [|o ins IH]; intros l i d l' t.
  { unfold l'. cbn. by rewrite bool_decide_false by set_solver. }
  unfold l'. cbn [la_inputs]. destruct (call && (o =? TCG_CALL_DUMMY_ARG)) eqn:Hd.
  - rewrite IH. destruct (Z.eqb_spec t o) as [->|Hne]; [by rewrite Hd, !andb_false_r|].
    f_equal. f_equal. apply bool_decide_ext. set_solver.
  - rewrite IH. unfold needed at 1 2, set1. cbn [dead_temps mem_temps].
    destruct (Z.eqb_spec t o) as [->|Hne].
    + rewrite Hd, (bool_decide_true (o ∈ o :: ins)) by set_solver. cbn. by rewrite orb_true_r.
    + f_equal. f_equal. apply bool_decide_ext. set_solver.
Qed.

Lemma needed_mem_globals l t : needed (mem_globals s l) t = is_global s t || needed l t.
Proof. unfold needed, mem_globals. cbn. by destruct (is_global s t), (dead_temps l t). Qed.

Lemma needed_bb_end t : needed (tcg_la_bb_end s) t = is_global s t || temp_local s t.
Proof. done. Qed.

Lemma needed_func_end t : needed (tcg_la_func_end s) t = is_global s t.
Proof. done. Qed.

(** Globals that are in memory may be dead in registers. *)
Lemma needed_dead_globals l t :
  needed (dead_globals s (mem_globals s l)) t = is_global s t || needed l t.
Proof. unfold needed, dead_globals, mem_globals. cbn. by destruct (is_global s t), (dead_temps l t). Qed.

End Sets.

(** ** One operation *)

Section Step.
Context (s : TCGContext) (HAS_muluh HAS_mulsh : width -> bool) {World : Type}.
Context (ext : TCGOpcode -> list Z -> list Z -> list Z -> World ->
               list Z -> list Z -> World -> bool -> Prop).

#[local] Abbreviation exec := (exec s ext).
#[local] Abbreviation rd := (rd s).
#[local] Abbreviation wr := (wr s).
#[local] Abbreviation in_temps := (in_temps s).

(** The variables that are used later are at least as defined. *)
Definition agree (L : Z -> bool) (E Et : env) : Prop :=
  forall t, in_temps t = true -> L t = true -> ole (E t) (Et t).

(** What has to agree after an operation. *)
Definition agree_after (l : la) (f : flow) (E' Et' : env) : Prop :=
  match f with
  | Next => agree (needed l) E' Et'
  | Jump _ => agree (fun _ => true) E' Et'
  | Stop => agree (is_global s) E' Et'
  | Wrong => True
  end.

(** Helpers without side effects and loads can run without effect. *)
Definition removable (op : TCGOp) : bool :=
  match opc op with
  | INDEX_op_call => has_bits (call_flags op) TCG_CALL_NO_SIDE_EFFECTS
  | oc => negb (OPF_SIDE_EFFECTS (tcg_op_defs oc)) && negb (Nat.eqb (nb_oargs (tcg_op_defs oc)) 0)
  end.

Class PureHelpers : Prop := pure_helpers op ins gl m :
  is_effect (opc op) = true -> removable op = true ->
  exists vals gl', ext (opc op) (op_consts op) ins gl m vals gl' m true.

Lemma survives_global t :
  in_temps t = true -> survives s t = is_global s t || temp_local s t.
Proof. unfold TcgOpt.in_temps, survives, is_global. intros. by destruct (Z.leb_spec 0 t); [|lia]. Qed.

Lemma global_in_temps t : wf_ctx s = true -> is_global s t = true -> in_temps t = true.
Proof. unfold wf_ctx, is_global, TcgOpt.in_temps. lia. Qed.

Lemma shown_global op t : t ∈ shown_globals s op -> reads_globals op = true /\ is_global s t = true.
Proof.
  unfold shown_globals, is_global. destruct (reads_globals op); [|set_solver].
  intros ?%elem_of_seqZ. split; [done|lia].
Qed.

(** What the sets before an operation that is kept have to hold. *)
Record keeps (l l' : la) (op : TCGOp) : Prop := {
  k_inputs : forall t, t ∈ op_inputs op -> needed l' t = true;
  k_globals : reads_globals op = true -> forall t, is_global s t = true -> needed l' t = true;
  k_later : ends_bb op = false -> forall t, in_temps t = true -> needed l t = true ->
    ~ written s op t -> needed l' t = true;
  k_bb_end : ends_bb op = true -> forall t, is_global s t || temp_local s t = true -> needed l' t = true;
}.

Lemma exec_stop op E m E' m' : exec op E m E' m' Stop -> reads_globals op = true.
Proof.
  intros Hx. inversion Hx as [| | | |? ? ? ? ? [] |? ? ? ? ? ? [] |? ? ? ? ? go ? ? ? Hgo]; try done.
  subst. destruct go; [done|]. by apply Hgo.
Qed.

Lemma exec_jump op E m E' m' l :
  exec op E m E' m' (Jump l) -> ends_bb op = true /\ forall t, ~ written s op t.
Proof.
  intros Hx. inversion Hx as [| | |? Ho|? ? ? ? ? [] Ho|? ? ? ? ? ? [] Ho|? ? ? ? ? []]; try done;
    unfold ends_bb; (split; [by rewrite Ho|]); intros t; apply nothing_written; by rewrite Ho.
Qed.

Lemma kept_ok l l' op E Et m Et' m' f :
  wf_ctx s = true -> wf_op s op = true -> keeps l l' op -> env_ok s Et ->
  agree (needed l') E Et -> exec op Et m Et' m' f ->
  exists E', exec op E m E' m' f /\ agree_after l f E' Et'.
Proof.
  intros Hctx Hwf [K1 K2 K3 K4] Het Ha Hx.
  pose proof Hwf as [_ Hwa]%andb_true_iff.
  pose proof (wf_inputs s HAS_muluh HAS_mulsh op Hwf) as Hin. rewrite Forall_forall in Hin.
  assert (Hg : forall t, reads_globals op = true -> is_global s t = true -> ole (E t) (Et t))
    by (intros t ? ?; apply Ha; [by apply global_in_temps|by apply K2]).
  destruct (exec_agree s ext op E Et m Et' m' f) as (E' & Hx' & Hw & Hn); try done.
  { apply Forall_forall. intros t Ht. apply Ha; auto. }
  { apply Forall_forall. intros t [? ?]%shown_global. auto. }
  exists E'. split; [done|].
  assert (Hbb : forall t, in_temps t = true -> ends_bb op = true -> ~ written s op t -> ole (E' t) (Et' t)).
  { intros t Hit Hb Hnw. destruct (Hn t Hnw) as [-> ->]. unfold left_alone, bb_end. rewrite Hb.
    rewrite survives_global by done. destruct (is_global s t || temp_local s t) eqn:Hs; [|by left].
    apply Ha; auto. }
  destruct f as [|lb| |]; cbn; [| | |done]; intros t Hit Hnd;
    (destruct (decide (written s op t)) as [Hwr|Hwr];
     [apply Hw; [done..|]; intros Hs; simplify_eq; by apply Hg; [eapply exec_stop|]|]).
  - destruct (ends_bb op) eqn:Hb; [by apply Hbb|]. destruct (Hn t Hwr) as [-> ->].
    unfold left_alone. rewrite Hb. apply Ha; auto.
  - destruct (exec_jump _ _ _ _ _ _ Hx) as [Hb _]. by apply Hbb.
  - pose proof (exec_stop _ _ _ _ _ Hx) as Hr. destruct (ends_bb op) eqn:Hb; [by apply Hbb|].
    destruct (Hn t Hwr) as [-> ->]. unfold left_alone. rewrite Hb. auto.
Qed.

Lemma do_not_remove_spec l def op no ni :
  exists l' an, do_not_remove s l def op no ni = (l', Some (op, Some an)) /\
  forall t, needed l' t =
    bool_decide (t ∈ firstn ni (skipn no (args op))) ||
    (if OPF_BB_END def then is_global s t || temp_local s t
     else (OPF_SIDE_EFFECTS def && is_global s t) ||
          (bool_decide (t ∉ firstn no (args op)) && needed l t)).
Proof.
  unfold do_not_remove.
  pose proof (needed_outputs l 0 (firstn no (args op)) 0 0) as Ho. cbv zeta in Ho.
  destruct (la_outputs l 0 _ 0 0) as [[l1 d1] y1]. cbn [fst] in Ho.
  set (l2 := if OPF_BB_END def then _ else _).
  pose proof (needed_inputs false l2 (Z.of_nat no) (firstn ni (skipn no (args op))) d1) as Hi.
  cbv zeta in Hi. destruct (la_inputs false l2 _ _ d1) as [l3 d3]. cbn [fst] in Hi.
  eexists _, _. split; [done|]. intros t. rewrite Hi. cbn [andb negb]. rewrite andb_true_r. f_equal.
  unfold l2. destruct (OPF_BB_END def); [apply needed_bb_end|].
  destruct (OPF_SIDE_EFFECTS def); [rewrite needed_mem_globals|]; by rewrite Ho.
Qed.

Lemma keeps_default l op :
  opc op <> INDEX_op_call ->
  exists l' an, do_not_remove s l (tcg_op_defs (opc op)) op (nb_oargs (tcg_op_defs (opc op)))
                  (nb_iargs (tcg_op_defs (opc op))) = (l', Some (op, Some an)) /\ keeps l l' op.
Proof.
  intros Hc. destruct (op_parts op Hc) as [Ho Hi].
  destruct (do_not_remove_spec l (tcg_op_defs (opc op)) op (nb_oargs (tcg_op_defs (opc op)))
    (nb_iargs (tcg_op_defs (opc op)))) as (l' & an & Hd & Hn).
  rewrite <- Ho, <- Hi in Hn. exists l', an. split; [done|].
  constructor; unfold ends_bb in *.
  - intros t Ht. rewrite Hn. by rewrite bool_decide_true.
  - intros Hr t Hg. rewrite Hn. unfold reads_globals in Hr.
    assert (OPF_SIDE_EFFECTS (tcg_op_defs (opc op)) || OPF_BB_END (tcg_op_defs (opc op)) = true) as Hf
      by (by destruct (opc op)).
    destruct (OPF_BB_END (tcg_op_defs (opc op))); [by rewrite Hg, orb_true_r|].
    rewrite orb_false_r in Hf. by rewrite Hf, Hg, orb_true_r.
  - intros Hb t Hit Hnd Hnw. rewrite Hn, Hb, Hnd, (bool_decide_true (t ∉ op_outputs op)).
    + by rewrite !orb_true_r.
    + intros ?. apply Hnw. by left.
  - intros Hb t Ht. rewrite Hn, Hb, Ht. apply orb_true_r.
Qed.

Lemma call_parts op :
  opc op = INDEX_op_call ->
  op_outputs op = firstn (callo op) (args op) /\
  op_inputs op = firstn (calli op) (skipn (callo op) (args op)) /\
  call_flags op = arg op (callo op + calli op + 1).
Proof.
  intros Hc. unfold op_outputs, op_inputs, call_flags, op_oargs, op_iargs.
  by rewrite bool_decide_eq_true_2.
Qed.

Lemma has_bits_or x a b : has_bits x (a ||| b) = has_bits x a || has_bits x b.
Proof.
  unfold has_bits. rewrite Z.land_lor_distr_r.
  destruct (Z.eqb_spec ((x &&& a) ||| (x &&& b)) 0) as [H|H].
  - apply Z.lor_eq_0_iff in H as [-> ->]. done.
  - destruct (Z.eqb_spec (x &&& a) 0) as [Ha|]; [|done].
    destruct (Z.eqb_spec (x &&& b) 0) as [Hb|]; [|done]. by rewrite Ha, Hb in H.
Qed.

(** The globals a helper may see are in memory. *)
Lemma needed_call_globals l flags t :
  let l1 := if negb (has_bits flags TCG_CALL_NO_READ_GLOBALS) then mem_globals s l else l in
  let l2 := if negb (has_bits flags (TCG_CALL_NO_WRITE_GLOBALS ||| TCG_CALL_NO_READ_GLOBALS))
            then dead_globals s l1 else l1 in
  needed l2 t = negb (has_bits flags TCG_CALL_NO_READ_GLOBALS) && is_global s t || needed l t.
Proof.
  cbv zeta. rewrite has_bits_or. destruct (has_bits flags TCG_CALL_NO_READ_GLOBALS); cbn [negb andb].
  - by rewrite orb_true_r.
  - rewrite orb_false_r. destruct (negb _); [apply needed_dead_globals|apply needed_mem_globals].
Qed.

Lemma keeps_call l op :
  wf_ctx s = true -> nb_temps s <= TCG_CALL_DUMMY_ARG -> opc op = INDEX_op_call -> wf_op s op = true ->
  (removable op = true /\ forallb (unused l) (op_outputs op) = true /\ live_call s l op = (l, None)) \/
  exists l' an, live_call s l op = (l', Some (op, Some an)) /\ keeps l l' op.
Proof.
  intros Hctx Hmax Hc Hwf. destruct (call_parts op Hc) as (Ho & Hi & Hf).
  unfold live_call, removable. rewrite Hc, <- Hf, <- Ho, <- Hi.
  destruct (has_bits (call_flags op) TCG_CALL_NO_SIDE_EFFECTS && forallb (unused l) (op_outputs op)) eqn:Hr.
  { left. apply andb_true_iff in Hr as [? ?]. done. }
  right. clear Hr.
  pose proof (needed_outputs l 0 (op_outputs op) 0 0) as Hno. cbv zeta in Hno.
  destruct (la_outputs l 0 _ 0 0) as [[l1 d1] y1]. cbn [fst] in Hno.
  pose proof (needed_call_globals l1 (call_flags op)) as Hng. cbv zeta in Hng.
  set (l2 := if negb (has_bits (call_flags op) (TCG_CALL_NO_WRITE_GLOBALS ||| _)) then _ else _) in *.
  pose proof (needed_inputs true l2 (Z.of_nat (callo op)) (op_inputs op) d1) as Hni. cbv zeta in Hni.
  destruct (la_inputs true l2 _ _ d1) as [l3 d3]. cbn [fst] in Hni.
  eexists _, _. split; [done|].
  pose proof (wf_inputs s HAS_muluh HAS_mulsh op Hwf) as Hin. rewrite Forall_forall in Hin.
  assert (Hbb : ends_bb op = false) by (unfold ends_bb; by rewrite Hc).
  constructor.
  - intros t Ht. rewrite Hni, bool_decide_true by done. specialize (Hin t Ht).
    unfold TcgOpt.in_temps in Hin. by destruct (Z.eqb_spec t TCG_CALL_DUMMY_ARG); [lia|].
  - intros Hr t Hg. rewrite Hni, Hng, Hg. unfold reads_globals in Hr. rewrite Hc in Hr.
    by rewrite Hr, !orb_true_r.
  - intros _ t Hit Hnd Hnw. rewrite Hni, Hng, Hno, Hnd, (bool_decide_true (t ∉ op_outputs op)); [by rewrite !orb_true_r|].
    intros ?. apply Hnw. by left.
  - congruence.
Qed.

Lemma eval_total op E :
  wf_args s op = true -> is_effect (opc op) = false -> nb_oargs (tcg_op_defs (opc op)) <> 0%nat ->
  exists E', eval_op s E op = Some E'.
Proof.
  intros Hw He Hn. destruct op as [oc al co ci]. unfold wf_args, eval_op in *. cbn [opc args] in *.
  destruct oc as [| | |w|w|w|w|w|w| |b w|u w|w|w|w|w|w|w| | | |w| | |name def]; try done;
    repeat (destruct al as [|? al]; try done); by eexists.
Qed.

Lemma removed_ok `{!PureHelpers} l op E Et m :
  wf_op s op = true -> removable op = true -> forallb (unused l) (op_outputs op) = true ->
  agree (needed l) E Et -> exists E', exec op E m E' m Next /\ agree (needed l) E' Et.
Proof.
  intros Hwf Hr Hu Ha. pose proof Hwf as [_ Hw]%andb_true_iff.
  assert (exists E', exec op E m E' m Next) as [E' Hx].
  { destruct (is_effect (opc op)) eqn:He.
    - destruct (found_total s E (op_inputs op)) as [ins Hi].
      destruct (found_total s E (shown_globals s op)) as [gl Hg].
      destruct (pure_helpers op ins gl m He Hr) as (vals & gl' & Hx).
      eexists. by apply (exec_effect s ext op E m ins gl vals gl' m true).
    - destruct (eval_total op E Hw He) as [E' ?]; [|exists E'; by constructor].
      unfold removable in Hr. destruct (opc op); try done;
        by apply andb_true_iff in Hr as [_ ?%negb_true_iff%Nat.eqb_neq]. }
  exists E'. split; [done|]. intros t Hit Hnd.
  assert (~ written s op t) as Hnw.
  { intros [Ht|[Hwg _]].
    - rewrite forallb_forall in Hu. apply list_elem_of_In, Hu in Ht.
      rewrite unused_needed, Hnd in Ht. done.
    - unfold removable in Hr. rewrite (writes_call op Hwg) in Hr.
      unfold writes_globals in Hwg. rewrite Hr, andb_false_r in Hwg. done. }
  rewrite (exec_unwritten s ext op E m E' m Next t Hw Hx Hnw). unfold left_alone, bb_end.
  destruct (ends_bb op); [destruct (survives s t); [|by left]|]; by apply Ha.
Qed.

(** ** Narrowed operations *)

Lemma low_wrap2 w x : low w (wrap (2 * wbits w) x) = low w x.
Proof. unfold low. apply wrap_wrap_le. by destruct w. Qed.

Lemma live_low_pair w x k : low w (x + 2 ^ wbits w * k) = low w x.
Proof. unfold low, wrap. rewrite Z.mul_comm. apply Z_mod_plus_full. Qed.

(** The low word of a sum or difference does not depend on the high words. *)
Lemma narrow_add w al ah bl bh :
  low w (sem_bin2 (INDEX_op_add2 w) w (pair_of w al ah) (pair_of w bl bh)) = low w (low w al + low w bl) /\
  low w (sem_bin2 (INDEX_op_sub2 w) w (pair_of w al ah) (pair_of w bl bh)) = low w (low w al - low w bl).
Proof.
  unfold sem_bin2, pair_of. rewrite !low_wrap2. split.
  - rewrite <- (live_low_pair w (low w al + low w bl) (low w ah + low w bh)). f_equal. ring.
  - rewrite <- (live_low_pair w (low w al - low w bl) (low w ah - low w bh)). f_equal. ring.
Qed.

Lemma narrow_mul oc w x y : low w (sem_mul2 oc w x y) = low w (x * y).
Proof.
  unfold sem_mul2. rewrite low_wrap2.
  assert (low w (slow w x * slow w y) = low w (x * y)) as Hs; [|by destruct oc].
  unfold low, slow. rewrite <- wrap_mul_l, wrap_sext, wrap_mul_l by (by destruct w).
  rewrite Z.mul_comm, <- wrap_mul_l, wrap_sext, wrap_mul_l by (by destruct w). by rewrite Z.mul_comm.
Qed.

Lemma narrow_high w x : low w (wrap (2 * wbits w) x >> wbits w) = low w (x >> wbits w).
Proof.
  bits_ext i Hi. destruct (Z.ltb_spec i (wbits w)); [|done]. cbn [andb].
  assert (0 <= wbits w) by (by destruct w). rewrite testbit_wrap by lia.
  by destruct (Z.ltb_spec (i + wbits w) (2 * wbits w)); [|lia].
Qed.

(** An operation with one of two results used, replaced by one that computes
    it. *)
Lemma narrowed_ok l l' an op op' d w E Et m Et' m' f r r' (r2 : option Z) (dl dh : Z) :
  wf_op s op = true -> do_not_remove s l (tcg_op_defs (opc op)) op' 1 2 = (l', Some (op', an)) ->
  OPF_BB_END (tcg_op_defs (opc op)) = false -> args op' = d :: tail (args op') ->
  eval_op s E op = Some (wr2 s E w dl dh r2) -> eval_op s Et op' = Some (wr Et w d r') ->
  (forall Et, may_trap s Et op' = false) ->
  (forall t, t ∈ [dl; dh] -> t <> d -> unused l t = true) ->
  wr2 s E w dl dh r2 d = low w <$> r -> out_ok s w d = true -> ole (low w <$> r) (low w <$> r') ->
  agree (needed l') E Et -> exec op' Et m Et' m' f ->
  exists E', exec op E m E' m' f /\ agree_after l f E' Et'.
Proof.
  intros Hwf Hd Hbb Hargs He He' Htr Hu Hrd Hout Hr Ha Hx.
  destruct (exec_eval_inv s ext op' Et m Et' m' f _ He' (Htr Et) Hx) as (-> & -> & ->).
  exists (wr2 s E w dl dh r2). split; [by constructor|].
  destruct (do_not_remove_spec l (tcg_op_defs (opc op)) op' 1 2) as (l1 & an1 & Hd1 & Hn).
  rewrite Hd in Hd1. injection Hd1 as <- _. rewrite Hbb, Hargs in Hn. cbn [firstn] in Hn.
  cbn. intros t Hit Hnd. destruct (decide (t = d)) as [->|Hne].
  { apply out_ok_spec in Hout as [_ Hty]. rewrite Hrd, wr_eq by done. done. }
  rewrite wr_ne by done. assert (t ∉ [dl; dh]) as Hnot.
  { intros Ht. specialize (Hu t Ht Hne). rewrite unused_needed, Hnd in Hu. done. }
  unfold wr2. rewrite !wr_ne by set_solver. apply Ha; [done|].
  rewrite Hn, Hnd, (bool_decide_true (t ∉ [d])) by set_solver. by rewrite !orb_true_r.
Qed.

(** ** The cases *)

(** What the analysis makes of an operation, with [l] after it. *)
Definition step_ok (l : la) (op : TCGOp) (a : analysed) : Prop :=
  forall E Et m, agree (needed a.1) E Et -> env_ok s Et ->
  match a.2 with
  | None => exists E', exec op E m E' m Next /\ agree (needed l) E' Et
  | Some (op', _) => forall Et' m' f, exec op' Et m Et' m' f ->
      exists E', exec op E m E' m' f /\ agree_after l f E' Et'
  end.

Hypothesis Hctx : wf_ctx s = true.
Hypothesis Hmax : nb_temps s <= TCG_CALL_DUMMY_ARG.

Lemma step_keeps l l' op an :
  wf_op s op = true -> keeps l l' op -> step_ok l op (l', Some (op, an)).
Proof. intros Hwf Hk E Et m Ha He Et' m' f Hx. by eapply kept_ok. Qed.

Lemma step_removed `{!PureHelpers} l op :
  wf_op s op = true -> removable op = true -> forallb (unused l) (op_outputs op) = true ->
  step_ok l op (l, None).
Proof. intros Hwf Hr Hu E Et m Ha He. by apply removed_ok. Qed.

Lemma step_call `{!PureHelpers} l op :
  opc op = INDEX_op_call -> wf_op s op = true -> step_ok l op (live_call s l op).
Proof.
  intros Hc Hwf. destruct (keeps_call l op Hctx Hmax Hc Hwf) as [(Hr & Hu & ->)|(l' & an & -> & Hk)].
  - by apply step_removed.
  - by apply step_keeps.
Qed.

Lemma step_not_removed l op :
  opc op <> INDEX_op_call -> wf_op s op = true ->
  step_ok l op (do_not_remove s l (tcg_op_defs (opc op)) op (nb_oargs (tcg_op_defs (opc op)))
                  (nb_iargs (tcg_op_defs (opc op)))).
Proof.
  intros Hc Hwf. destruct (keeps_default l op Hc) as (l' & an & -> & Hk). by apply step_keeps.
Qed.

Lemma step_default `{!PureHelpers} l op :
  opc op <> INDEX_op_call -> wf_op s op = true -> step_ok l op (live_default s l op).
Proof.
  intros Hc Hwf. unfold live_default. destruct (op_parts op Hc) as [Ho _]. rewrite <- Ho.
  destruct (_ && forallb (unused l) (op_outputs op)) eqn:Hr; [|by apply step_not_removed].
  apply andb_true_iff in Hr as [Hr Hu]. apply step_removed; [done| |done].
  unfold removable. by destruct (opc op).
Qed.

Lemma step_discard l t co ci :
  let op := mk_op INDEX_op_discard [t] co ci in
  step_ok l op (la_output l t, Some (op, None)).
Proof.
  intros op E Et m Ha He Et' m' f Hx.
  destruct (exec_eval_inv s ext op Et m Et' m' f _ eq_refl eq_refl Hx) as (-> & -> & ->).
  exists (wr E (temp_type s t) t None). split; [by constructor|]. intros i Hit Hnd.
  destruct (decide (i = t)) as [->|Hne]; [rewrite wr_eq by done; by left|].
  rewrite !wr_ne by done. apply Ha; [done|]. cbn [fst]. rewrite needed_output, Hnd.
  by destruct (Z.eqb_spec i t).
Qed.

Lemma step_debug l v co ci :
  let op := mk_op INDEX_op_debug_insn_start [v] co ci in
  step_ok l op (l, Some (op, None)).
Proof.
  intros op E Et m Ha He Et' m' f Hx.
  destruct (exec_eval_inv s ext op Et m Et' m' f _ eq_refl eq_refl Hx) as (-> & -> & ->).
  exists E. by split; [constructor|].
Qed.

Lemma rd_agree L E Et w t : agree L E Et -> in_temps t = true -> L t = true -> ole (rd E w t) (rd Et w t).
Proof. intros Ha Ht HL. unfold TcgSem.rd. apply ole_bind; [by apply Ha|by intros v]. Qed.

(** The inputs of an operation that is kept are needed. *)
Lemma input_needed l def op' no ni l' an t :
  do_not_remove s l def op' no ni = (l', Some (op', an)) ->
  t ∈ firstn ni (skipn no (args op')) -> needed l' t = true.
Proof.
  intros Hd Ht. destruct (do_not_remove_spec l def op' no ni) as (l1 & an1 & Hd1 & Hn).
  rewrite Hd in Hd1. injection Hd1 as <- _. by rewrite Hn, bool_decide_true.
Qed.

Lemma wr2_low E w dl dh r : temp_type s dl = w -> wr2 s E w dl dh r dl = low w <$> r.
Proof. intros Hd. unfold wr2. rewrite wr_eq by done. destruct r; cbn; by rewrite ?low_low. Qed.

Lemma wr2_high E w dl dh r :
  temp_type s dh = w -> dl <> dh -> wr2 s E w dl dh r dh = (fun r => low w (r >> wbits w)) <$> r.
Proof. intros Hd Hne. unfold wr2. rewrite wr_ne, wr_eq by done. by destruct r. Qed.

Lemma step_addsub2 `{!PureHelpers} l oc b w rl rh al ah bl bh co ci :
  let op := mk_op oc [rl; rh; al; ah; bl; bh] co ci in
  (oc = INDEX_op_add2 w /\ b = op_add) \/ (oc = INDEX_op_sub2 w /\ b = op_sub) ->
  wf_op s op = true -> step_ok l op (do_addsub2 s l op (INDEX_op_bin b w) rl rh al bl).
Proof.
  intros op Hoc Hwf.
  assert (Hargs : out_ok s w rl && out_ok s w rh && negb (rl =? rh) && in_ok s w al && in_ok s w ah
    && in_ok s w bl && in_ok s w bh = true).
  { apply andb_true_iff in Hwf as [_ Hw]. unfold wf_args in Hw. by destruct Hoc as [[-> _]|[-> _]]. }
  rewrite !andb_true_iff in Hargs. destruct Hargs as [[[[[[Hl Hh] Hne] Hal] Hah] Hbl] Hbh].
  assert (Hc : opc op <> INDEX_op_call) by (by destruct Hoc as [[-> _]|[-> _]]).
  assert (Hdef : tcg_op_defs (opc op) = row 2 4 0 false (is64 w)) by (by destruct Hoc as [[-> _]|[-> _]]).
  assert (Hkeep : step_ok l op (do_not_remove s l (tcg_op_defs (opc op)) op 2 4)).
  { pose proof (step_not_removed l op Hc Hwf) as Hs. by rewrite Hdef in Hs |- *. }
  unfold do_addsub2. destruct (unused l rh) eqn:Hurh; [|done]. destruct (unused l rl) eqn:Hurl.
  { apply step_removed; [done|by destruct Hoc as [[-> _]|[-> _]]|].
    destruct (op_parts op Hc) as [-> _]. rewrite Hdef. cbn. by rewrite Hurl, Hurh. }
  set (op' := mk_op (INDEX_op_bin b w) [rl; al; bl] 0 0).
  destruct (do_not_remove_spec l (tcg_op_defs (opc op)) op' 1 2) as (l' & an & Hd & _).
  rewrite Hd. intros E Et m Ha He Et' m' f Hx.
  apply out_ok_spec in Hl as Hl'. destruct Hl' as [_ Hlty].
  set (r2 := al ← rd E w al; ah ← rd E w ah; bl ← rd E w bl; bh ← rd E w bh;
    Some (sem_bin2 oc w (pair_of w al ah) (pair_of w bl bh))).
  eapply (narrowed_ok l l' _ op op' rl w E Et m Et' m' f r2
    (eval_bin b w (rd Et w al) (rd Et w bl)) r2 rl rh); try done.
  - by rewrite Hdef.
  - unfold eval_op, op. by destruct Hoc as [[-> _]|[-> _]].
  - intros. by destruct Hoc as [[_ ->]|[_ ->]].
  - intros t Ht Hnt. assert (t = rh) as -> by set_solver. done.
  - by apply wr2_low.
  - assert (Hin : forall t, t ∈ [al; bl] -> in_ok s w t = true -> ole (rd E w t) (rd Et w t)).
    { intros t Ht Hok. eapply rd_agree; [done|by apply in_ok_spec in Hok as [? _]|].
      eapply input_needed; [exact Hd|done]. }
    unfold r2. destruct (rd E w al) as [va|] eqn:Hva; [|by left].
    destruct (rd E w ah) as [vah|]; [|by left]. destruct (rd E w bl) as [vb|] eqn:Hvb; [|by left].
    destruct (rd E w bh) as [vbh|]; [|by left]. right. cbn [mbind option_bind fmap option_fmap option_map].
    pose proof (Hin al ltac:(set_solver) Hal) as Ht1. rewrite Hva in Ht1. apply ole_Some in Ht1 as ->.
    pose proof (Hin bl ltac:(set_solver) Hbl) as Ht2. rewrite Hvb in Ht2. apply ole_Some in Ht2 as ->.
    apply rd_Some in Hva as (u1 & _ & _ & ->). apply rd_Some in Hvb as (u2 & _ & _ & ->).
    destruct (narrow_add w (low w u1) vah (low w u2) vbh) as [H1 H2].
    destruct Hoc as [[-> ->]|[-> ->]]; cbn; rewrite ?H1, ?H2, !low_low; done.
Qed.

(** Either word of a product. *)
Lemma narrow_mul_words oc b w vx vy :
  (oc = INDEX_op_mulu2 w /\ b = op_muluh) \/ (oc = INDEX_op_muls2 w /\ b = op_mulsh) ->
  low w (sem_mul2 oc w vx vy) = low w (sem_bin op_mul w vx vy) /\
  low w (sem_mul2 oc w vx vy >> wbits w) = low w (sem_bin b w vx vy).
Proof.
  intros Hoc. split; [rewrite narrow_mul; cbn; by rewrite low_low|].
  unfold sem_mul2. rewrite narrow_high.
  destruct Hoc as [[-> ->]|[-> ->]]; cbn; by rewrite ?low_low.
Qed.

Section Mul2.
Context (l : la) (oc : TCGOpcode) (b : binop) (w : width) (rl rh x y : Z) (co ci : nat).
Let op := mk_op oc [rl; rh; x; y] co ci.
Hypothesis Hoc : (oc = INDEX_op_mulu2 w /\ b = op_muluh) \/ (oc = INDEX_op_muls2 w /\ b = op_mulsh).
Hypothesis Hwf : wf_op s op = true.

Lemma mul2_args :
  out_ok s w rl = true /\ out_ok s w rh = true /\ rl <> rh /\ in_ok s w x = true /\ in_ok s w y = true /\
  temp_type s rl = w /\ temp_type s rh = w.
Proof.
  apply andb_true_iff in Hwf as [_ Hw]. unfold wf_args in Hw.
  assert (out_ok s w rl && out_ok s w rh && negb (rl =? rh) && in_ok s w x && in_ok s w y = true) as Ha
    by (by destruct Hoc as [[-> _]|[-> _]]).
  rewrite !andb_true_iff in Ha. destruct Ha as [[[[Hl Hh] Hne%negb_true_iff%Z.eqb_neq] Hx] Hy].
  pose proof Hl as [_ ?]%out_ok_spec. pose proof Hh as [_ ?]%out_ok_spec. done.
Qed.

Lemma mul2_def : tcg_op_defs (opc op) = row 2 2 0 false (is64 w).
Proof. by destruct Hoc as [[-> _]|[-> _]]. Qed.

Lemma mul2_not_call : opc op <> INDEX_op_call.
Proof. by destruct Hoc as [[-> _]|[-> _]]. Qed.

(** The word that is used, against the operation that computes it. *)
Lemma mul2_word E Et d b' :
  (d = rl /\ b' = op_mul) \/ (d = rh /\ b' = b) ->
  ole (rd E w x) (rd Et w x) -> ole (rd E w y) (rd Et w y) ->
  let r2 := x ← rd E w x; y ← rd E w y; Some (sem_mul2 oc w x y) in
  wr2 s E w rl rh r2 d = low w <$> (if bool_decide (d = rl) then r2 else (fun r => r >> wbits w) <$> r2) /\
  ole (low w <$> (if bool_decide (d = rl) then r2 else (fun r => r >> wbits w) <$> r2))
      (low w <$> eval_bin b' w (rd Et w x) (rd Et w y)).
Proof.
  intros Hdb Hx Hy r2. destruct mul2_args as (_ & _ & Hne & _ & _ & Hlty & Hhty). split.
  - destruct Hdb as [(-> & _)|(-> & _)]; [rewrite bool_decide_true by done; by apply wr2_low|].
    rewrite bool_decide_false by done. rewrite wr2_high by done. by destruct r2.
  - unfold r2. destruct (rd E w x) as [vx|]; [|case_bool_decide; by left].
    destruct (rd E w y) as [vy|]; [|case_bool_decide; by left].
    apply ole_Some in Hx as ->. apply ole_Some in Hy as ->.
    destruct (narrow_mul_words oc b w vx vy Hoc) as [H1 H2]. right.
    destruct Hdb as [(-> & ->)|(-> & ->)].
    + rewrite bool_decide_true by done. cbn. by rewrite H1.
    + rewrite bool_decide_false by done. destruct Hoc as [[-> ->]|[-> ->]]; cbn in *; by rewrite H2.
Qed.

Lemma mul2_narrow d b' :
  (d = rl /\ b' = op_mul /\ unused l rh = true) \/ (d = rh /\ b' = b /\ unused l rl = true) ->
  step_ok l op (do_not_remove s l (tcg_op_defs (opc op)) (mk_op (INDEX_op_bin b' w) [d; x; y] 0 0) 1 2).
Proof.
  intros Hdb. set (op' := mk_op (INDEX_op_bin b' w) [d; x; y] 0 0).
  destruct (do_not_remove_spec l (tcg_op_defs (opc op)) op' 1 2) as (l' & an & Hd & _).
  rewrite Hd. intros E Et m Ha He Et' m' f Hex.
  destruct mul2_args as (Hl & Hh & Hne & Hx & Hy & _).
  assert (Hin : forall t, t ∈ [x; y] -> in_ok s w t = true -> ole (rd E w t) (rd Et w t)).
  { intros t Ht Hok. eapply rd_agree; [done|by apply in_ok_spec in Hok as [? _]|].
    eapply input_needed; [exact Hd|done]. }
  destruct (mul2_word E Et d b') as [Hw Hr]; [tauto|apply Hin; set_solver|apply Hin; set_solver|].
  eapply (narrowed_ok l l' _ op op' d w E Et m Et' m' f); try done.
  - by rewrite mul2_def.
  - unfold eval_op, op. by destruct Hoc as [[-> _]|[-> _]].
  - intros. destruct Hdb as [(_ & -> & _)|(_ & -> & _)]; [done|]. by destruct Hoc as [[_ ->]|[_ ->]].
  - intros t Ht Hnt. destruct Hdb as [(-> & _ & ?)|(-> & _ & ?)]; [assert (t = rh) as -> by set_solver
      |assert (t = rl) as -> by set_solver]; done.
  - by destruct Hdb as [(-> & _)|(-> & _)].
Qed.

Lemma step_mul2 `{!PureHelpers} have :
  step_ok l op (do_mul2 s l op (INDEX_op_bin op_mul w) (INDEX_op_bin b w) have rl rh x y).
Proof.
  assert (Hkeep : step_ok l op (do_not_remove s l (tcg_op_defs (opc op)) op 2 2)).
  { pose proof (step_not_removed l op mul2_not_call Hwf) as Hs. by rewrite mul2_def in Hs |- *. }
  unfold do_mul2. destruct (unused l rh) eqn:Hurh; [destruct (unused l rl) eqn:Hurl|].
  - apply step_removed; [done|by destruct Hoc as [[-> _]|[-> _]]|].
    destruct (op_parts op mul2_not_call) as [-> _]. rewrite mul2_def. cbn. by rewrite Hurl, Hurh.
  - apply mul2_narrow. auto.
  - destruct (have && unused l rl) eqn:Hurl; [|done]. apply andb_true_iff in Hurl as [_ ?].
    apply mul2_narrow. auto.
Qed.
End Mul2.

Lemma live_op_ok `{!PureHelpers} l op :
  wf_op s op = true -> step_ok l op (live_op s HAS_muluh HAS_mulsh l op).
Proof.
  intros Hwf. pose proof Hwf as [_ Hw]%andb_true_iff. unfold live_op.
  destruct op as [oc al co ci]. unfold wf_args in Hw. cbn [opc args] in *.
  destruct oc as [| | |w|w|w|w|w|w| |b w|u w|w|w|w|w|w|w| | | |w| | |name def];
    try (by apply step_default); [by apply step_call|..];
    repeat (destruct al as [|? al]; try done).
  - apply (step_addsub2 l _ op_add); auto.
  - apply (step_addsub2 l _ op_sub); auto.
  - apply (step_mul2 l _ op_muluh w); auto.
  - apply (step_mul2 l _ op_mulsh w); auto.
  - apply step_discard.
  - apply step_debug.
Qed.
End Step.

(** ** A block *)

Section Block.
Context (s : TCGContext) (HAS_muluh HAS_mulsh : width -> bool) {World : Type}.
Context (ext : TCGOpcode -> list Z -> list Z -> list Z -> World ->
               list Z -> list Z -> World -> bool -> Prop) `{!PureHelpers ext}.
Hypothesis Hctx : wf_ctx s = true.
Hypothesis Hmax : nb_temps s <= TCG_CALL_DUMMY_ARG.

#[local] Abbreviation live_ops := (live_ops s HAS_muluh HAS_mulsh).
#[local] Abbreviation live_op := (live_op s HAS_muluh HAS_mulsh).

(** The operations that are left. *)
Definition left_ops (k : list TCGOp) : list TCGOp := fst <$> (live_ops k).2.

Lemma left_ops_cons op k :
  left_ops (op :: k) = option_list (fst <$> (live_op (live_ops k).1 op).2) ++ left_ops k /\
  (live_ops (op :: k)).1 = (live_op (live_ops k).1 op).1.
Proof.
  unfold left_ops. cbn [TcgLive.live_ops]. destruct (live_ops k) as [l rest]. cbn [fst snd].
  destruct (live_op l op) as [l' [[op' an]|]]; done.
Qed.

Lemma do_not_remove_op l def op no ni :
  fst <$> (do_not_remove s l def op no ni).2 = Some op.
Proof. by destruct (do_not_remove_spec s l def op no ni) as (? & ? & -> & _). Qed.

Lemma live_op_labels l op :
  wf_op s op = true -> labels (option_list (fst <$> (live_op l op).2)) = labels [op].
Proof.
  intros [_ Hw]%andb_true_iff. unfold TcgLive.live_op. destruct op as [oc al co ci].
  unfold wf_args in Hw. cbn [opc args] in *.
  assert (Hd : forall op, opc op <> INDEX_op_set_label ->
    labels (option_list (fst <$> (live_default s l op).2)) = labels [op]).
  { clear Hw. intros op Hn. unfold live_default. destruct (_ && forallb _ _); [|by rewrite do_not_remove_op].
    unfold labels. cbn. by rewrite bool_decide_eq_false_2. }
  destruct oc as [| | |w|w|w|w|w|w| |b w|u w|w|w|w|w|w|w| | | |w| | |name def]; try (by apply Hd).
  - unfold live_default. cbn [tcg_op_defs opc row OPF_SIDE_EFFECTS nb_oargs Nat.eqb negb andb].
    by rewrite do_not_remove_op.
  - clear Hw. unfold live_call. destruct (_ && _); [done|]. destruct (la_outputs _ _ _ _ _) as [[l1 d1] y1].
    by destruct (la_inputs _ _ _ _ _) as [l2 d2].
  - repeat (destruct al as [|? al]; try done). unfold do_addsub2.
    destruct (unused l z0); [destruct (unused l z)|]; by rewrite ?do_not_remove_op.
  - repeat (destruct al as [|? al]; try done). unfold do_addsub2.
    destruct (unused l z0); [destruct (unused l z)|]; by rewrite ?do_not_remove_op.
  - repeat (destruct al as [|? al]; try done). clear Hw; unfold do_mul2.
    destruct (unused l z0); [destruct (unused l z)|destruct (_ && _)]; by rewrite ?do_not_remove_op.
  - repeat (destruct al as [|? al]; try done). clear Hw; unfold do_mul2.
    destruct (unused l z0); [destruct (unused l z)|destruct (_ && _)]; by rewrite ?do_not_remove_op.
  - by repeat (destruct al as [|? al]; try done).
  - done.
Qed.

Lemma find_label_left l k :
  Forall (fun op => wf_op s op = true) k ->
  find_label l (left_ops k) = left_ops <$> find_label l k.
Proof.
  induction 1 as [|op k Hop _ IH]; [done|]. destruct (left_ops_cons op k) as [-> _].
  pose proof (live_op_labels (live_ops k).1 op Hop) as Hl. cbn [find_label].
  destruct (decide (opc op = INDEX_op_set_label)) as [Ho|Ho].
  - unfold labels in Hl. cbn [List.filter] in Hl. rewrite bool_decide_true in Hl by done.
    destruct (fst <$> (live_op (live_ops k).1 op).2) as [op'|]; [|done]. cbn in Hl.
    case_bool_decide as Ho'; [|done]. injection Hl as ->. cbn.
    rewrite (bool_decide_eq_true_2 _ Ho). cbn [andb]. by case_bool_decide.
  - rewrite (bool_decide_eq_false_2 _ Ho). cbn [andb]. rewrite find_label_app; [done|].
    rewrite Hl. unfold labels. cbn. by rewrite (bool_decide_eq_false_2 _ Ho).
Qed.

(** The globals agree where the block ends without a crash. *)
Definition agree_end (e : ending) (E' Et' : env) : Prop :=
  match e with Crashed => True | _ => agree s (is_global s) E' Et' end.

Definition live_sim (P : list TCGOp) (n : nat) (k : list TCGOp) : Prop :=
  forall E Et m e Et' m', agree s (needed (live_ops k).1) E Et -> env_ok s Et ->
  run s ext (left_ops P) n (left_ops k) Et m e Et' m' ->
  exists E', run s ext P n k E m e E' m' /\ agree_end e E' Et'.

Lemma live_after P n k f E1 Et1 m1 e Et' m' :
  Forall (fun op => wf_op s op = true) P ->
  (forall n' k, (n' < n)%nat -> Forall (fun op => wf_op s op = true) k -> live_sim P n' k) ->
  live_sim P n k -> agree_after s (live_ops k).1 f E1 Et1 -> env_ok s Et1 ->
  after s ext (left_ops P) n (left_ops k) f Et1 m1 e Et' m' ->
  exists E', after s ext P n k f E1 m1 e E' m' /\ agree_end e E' Et'.
Proof.
  intros HP Hn Hk Ha Het Haf. destruct f as [|lb| |]; cbn [after agree_after] in *.
  - by apply Hk with (Et := Et1).
  - rewrite find_label_left in Haf by done.
    destruct n as [|n]; [destruct Haf as (-> & -> & ->); exists E1; split; [done|intros t ??; by apply Ha]|].
    destruct (find_label lb P) as [k1|] eqn:Hl; cbn in Haf.
    + eapply (Hn n k1) with (Et := Et1); [lia|by eapply find_label_wf| |done..].
      intros t ??. by apply Ha.
    + destruct Haf as (-> & -> & ->). exists E1. split; [done|intros t ??; by apply Ha].
  - destruct Haf as (-> & -> & ->). by exists E1.
  - destruct Haf as (-> & -> & ->). by exists E1.
Qed.

Lemma live_sim_ok P n k :
  Forall (fun op => wf_op s op = true) P -> Forall (fun op => wf_op s op = true) k -> live_sim P n k.
Proof.
  intros HP. revert k. induction n as [n Hn] using (well_founded_induction Nat.lt_wf_0).
  intros k Hk. induction Hk as [|op k Hop Hk IH]; intros E Et m e Et' m' Ha Het Hr.
  { inversion Hr; subst. exists E. split; [constructor|]. intros t Hit Hg. by apply Ha. }
  destruct (left_ops_cons op k) as [Hcons Hfst]. rewrite Hcons in Hr. rewrite Hfst in Ha.
  pose proof (live_op_ok s HAS_muluh HAS_mulsh ext Hctx Hmax (live_ops k).1 op Hop E Et m Ha Het) as Hs.
  destruct (live_op (live_ops k).1 op) as [l' [[op' an]|]]; cbn [fst snd fmap option_fmap option_map] in *.
  - destruct (run_app s ext _ n [op'] (left_ops k) Et m e Et' m' Hr) as (Et1 & m1 & f & Hx & Haf).
    assert (env_ok s Et1) as Het1 by (by eapply execs_env_ok). apply execs_one in Hx.
    destruct (Hs Et1 m1 f Hx) as (E1 & Hx1 & Ha1).
    destruct (live_after P n k f E1 Et1 m1 e Et' m') as (E' & Haf' & He); try done; [auto|].
    exists E'. split; [|done]. by eapply run_after.
  - destruct Hs as (E1 & Hx1 & Ha1).
    destruct (IH E1 Et m e Et' m' Ha1 Het Hr) as (E' & Hr' & He). exists E'. split; [|done].
    by eapply run_next.
Qed.
End Block.

(** ** The theorem *)

Definition TCG_MAX_TEMPS : Z := 512.

Definition wf_live (s : TCGContext) (P : list TCGOp) : bool :=
  wf_ctx s && (nb_temps s <=? TCG_MAX_TEMPS) && forallb (wf_op s) P.

Lemma wf_live_spec s P :
  wf_live s P = true <->
  wf_ctx s = true /\ nb_temps s <= TCG_MAX_TEMPS /\ Forall (fun op => wf_op s op = true) P.
Proof.
  unfold wf_live. rewrite !andb_true_iff, Z.leb_le, List.Forall_forall, forallb_forall. tauto.
Qed.

(** C3: What a block does after the liveness analysis the block may do.  The
    run ends at the same place with the same memory and helper calls, and
    with the same globals, although operations without used results are gone
    and double-word operations narrowed; helpers that are removed promise to
    have no side effects. *)
Theorem tcg_liveness_analysis_refines s HAS_muluh HAS_mulsh {World : Type}
    (ext : TCGOpcode -> list Z -> list Z -> list Z -> World ->
           list Z -> list Z -> World -> bool -> Prop) `{!PureHelpers ext} P n E m e E' m' :
  wf_live s P = true -> env_ok s E ->
  let P' := fst <$> tcg_liveness_analysis s HAS_muluh HAS_mulsh P in
  run s ext P' n P' E m e E' m' ->
  exists E1, run s ext P n P E m e E1 m' /\ agree_end s e E1 E'.
Proof.
  intros (Hctx & Hmax & HP)%wf_live_spec He P' Hr.
  apply (live_sim_ok s HAS_muluh HAS_mulsh ext Hctx) with (Et := E); try done.
  - unfold TCG_MAX_TEMPS, TCG_CALL_DUMMY_ARG, all_ones in *. lia.
  - intros t _ _. by right.
Qed.

(** A global and four temporaries. *)
Definition live_ctx : TCGContext := mk_ctx 1 5 (fun _ => W64) (fun _ => false).

(** The high word of the sum and the product are not used. *)
Definition live_block : list TCGOp :=
  [mk_op (INDEX_op_movi W64) [1; 7] 0 0;
   mk_op (INDEX_op_add2 W64) [2; 3; 0; 1; 1; 1] 0 0;
   mk_op (INDEX_op_bin op_mul W64) [4; 2; 1] 0 0;
   mk_op (INDEX_op_mov W64) [0; 2] 0 0].

Example live_block_analysed :
  tcg_liveness_analysis live_ctx (fun _ => true) (fun _ => true) live_block =
  [(mk_op (INDEX_op_movi W64) [1; 7] 0 0, Some (0, 0));
   (mk_op (INDEX_op_bin op_add W64) [2; 0; 1] 0 0, Some (6, 0));
   (mk_op (INDEX_op_mov W64) [0; 2] 0 0, Some (3, 1))].
Proof. reflexivity. Qed.

Definition quiet_ext (oc : TCGOpcode) (cs ins gl : list Z) (m : unit) (vals gl' : list Z) (m' : unit)
  (go : bool) : Prop := go = true.

#[export] Instance quiet_pure : PureHelpers quiet_ext.
Proof. intros op ins gl [] _ _. by exists [], []. Qed.

Lemma tcg_liveness_analysis_refines_witness :
  exists E' E1, run live_ctx quiet_ext live_block 0 live_block
      (fun t => if t =? 0 then Some 0 else None) tt AtEnd E1 tt /\
    agree_end live_ctx AtEnd E1 E' /\ E' 0 = Some 7.
Proof.
  assert (exists E', run live_ctx quiet_ext
    (fst <$> tcg_liveness_analysis live_ctx (fun _ => true) (fun _ => true) live_block) 0
    (fst <$> tcg_liveness_analysis live_ctx (fun _ => true) (fun _ => true) live_block)
    (fun t => if t =? 0 then Some 0 else None) tt AtEnd E' tt /\ E' 0 = Some 7) as (E' & Hr & H7).
  { rewrite live_block_analysed. eexists. split.
    - do 3 (eapply run_next; [by apply exec_eval|]). apply run_end.
    - reflexivity. }
  exists E'.
  destruct (tcg_liveness_analysis_refines live_ctx (fun _ => true) (fun _ => true) quiet_ext live_block
    0 (fun t => if t =? 0 then Some 0 else None) tt AtEnd E' tt) as (E1 & Hr1 & Ha); [reflexivity| |exact Hr|].
  - intros t v. destruct (t =? 0); [|done]. intros [= <-]. cbn. lia.
  - exists E1. split; [|by split].
    exact Hr1.
Defined.
