(* ===== verification/TcgAlloc.v ===== *)
(** * The register allocator of TCG

    The last pass of src/tcg/tcg.c: it walks over the operations the liveness
    analysis left, decides where every variable is kept, and emits host
    instructions.  What a host has of registers, constraints and calling
    conventions is a parameter; the instructions are the calls of the code
    generator of the host ([tcg_out_mov], [tcg_out_op] and so on). *)

From S2P Require Import Prelude HostUtils BitField TcgOp TcgOpt TcgSem TcgLive.

(** Where the value of a variable is. *)
Inductive temp_val := TEMP_VAL_DEAD | TEMP_VAL_REG | TEMP_VAL_MEM | TEMP_VAL_CONST.

#[export] Instance temp_val_eq_dec : EqDecision temp_val.
Proof. solve_decision. Defined.

(** The part of [TCGTemp] the allocator changes. *)
Record TCGTemp := mk_temp {
  val_type : temp_val;
  treg : Z;
  tval : Z;
  mem_reg : Z;
  mem_offset : Z;
  mem_coherent : bool;
  mem_allocated : bool;
}.

Definition set_val_type (v : temp_val) (ts : TCGTemp) : TCGTemp :=
  mk_temp v (treg ts) (tval ts) (mem_reg ts) (mem_offset ts) (mem_coherent ts) (mem_allocated ts).
Definition set_reg (r : Z) (ts : TCGTemp) : TCGTemp :=
  mk_temp (val_type ts) r (tval ts) (mem_reg ts) (mem_offset ts) (mem_coherent ts) (mem_allocated ts).
Definition set_tval (v : Z) (ts : TCGTemp) : TCGTemp :=
  mk_temp (val_type ts) (treg ts) v (mem_reg ts) (mem_offset ts) (mem_coherent ts) (mem_allocated ts).
Definition set_slot (r o : Z) (ts : TCGTemp) : TCGTemp :=
  mk_temp (val_type ts) (treg ts) (tval ts) r o (mem_coherent ts) true.
Definition set_coherent (b : bool) (ts : TCGTemp) : TCGTemp :=
  mk_temp (val_type ts) (treg ts) (tval ts) (mem_reg ts) (mem_offset ts) b (mem_allocated ts).

(** What the code generator of the host is asked for.  [tcg_out_op] has the
    operands of [tcg_out_op]: registers, or values where [const_args] says
    so, with the operation they are allocated for. *)
Inductive hinsn :=
| tcg_out_mov (w : width) (ret a : Z)
| tcg_out_movi (w : width) (ret v : Z)
| tcg_out_ld (w : width) (ret base off : Z)
| tcg_out_st (w : width) (a base off : Z)
| tcg_out_op (op : TCGOp) (new_args : list Z) (const_args : list bool)
| tcg_out_call (op : TCGOp)
| tcg_out_label (l : Z).

(** A constraint on an operand: [TCG_CT_ALIAS], [TCG_CT_IALIAS], the other
    operand, the registers; what constants it takes is for the host to say. *)
Record TCGArgConstraint := mk_ct {
  CT_ALIAS : bool;
  CT_IALIAS : bool;
  alias_index : nat;
  ct_regs : Z;
}.

(** A host. *)
Record TCGTarget := mk_target {
  TCG_TARGET_NB_REGS : Z;
  tcg_target_reg_alloc_order : list Z;
  tcg_target_available_regs : width -> Z;
  tcg_target_call_clobber_regs : Z;
  reserved_regs : Z;
  tcg_target_call_iarg_regs : list Z;
  tcg_target_call_oarg_regs : list Z;
  args_ct : TCGOpcode -> nat -> TCGArgConstraint;
  sorted_args : TCGOpcode -> list nat;
  tcg_target_const_match : TCGOpcode -> nat -> width -> Z -> bool;
  op_present : TCGOpcode -> bool;
  TCG_REG_CALL_STACK : Z;
  TCG_TARGET_CALL_STACK_OFFSET : Z;
  TCG_TARGET_STACK_ALIGN : Z;
  frame_reg : Z;
  frame_start : Z;
  frame_end : Z;
}.

(** [tcg_abort()]: the process ends by [SIGABRT], status 128 + 6. *)
Definition tcg_abort : fault := Exited 134.

Definition TCG_STATIC_CALL_ARGS_SIZE : Z := 128.

(** The state of the allocator, and what it has emitted. *)
Record astate := mk_ast {
  s_temps : Z -> TCGTemp;
  reg_to_temp : Z -> Z;
  current_frame_offset : Z;
  out_code : list hinsn;
}.

Definition upd_temp (st : astate) (t : Z) (f : TCGTemp -> TCGTemp) : astate :=
  mk_ast (fun i => if i =? t then f (s_temps st t) else s_temps st i)
         (reg_to_temp st) (current_frame_offset st) (out_code st).

Definition set_reg_to_temp (st : astate) (r t : Z) : astate :=
  mk_ast (s_temps st) (fun i => if i =? r then t else reg_to_temp st i)
         (current_frame_offset st) (out_code st).

Definition emit (st : astate) (i : hinsn) : astate :=
  mk_ast (s_temps st) (reg_to_temp st) (current_frame_offset st) (out_code st ++ [i]).

(** The bit of register [r], and the test of it. *)
Definition set_regset (set r : Z) : Z := set ||| (1 << r).

Definition upd_arg {A} (f : nat -> A) (i : nat) (v : A) : nat -> A :=
  fun j => if Nat.eqb j i then v else f j.

Definition arg_list {A} (op : TCGOp) (f : nat -> A) : list A := map f (seq 0 (length (args op))).

(** The register of variable [t], if it has one, is free. *)
Definition drop_reg (st : astate) (t : Z) : astate :=
  if bool_decide (val_type (s_temps st t) = TEMP_VAL_REG)
  then set_reg_to_temp st (treg (s_temps st t)) (-1) else st.

Section Alloc.
Context (s : TCGContext) (T : TCGTarget).

(** The globals kept in registers of the host: only globals are. *)
Context (global_reg : Z -> bool).

Definition fixed_reg (t : Z) : bool := is_global s t && global_reg t.

Definition tcg_reg_alloc_start (st : astate) : astate :=
  mk_ast (fun i =>
            let ts := s_temps st i in
            if is_global s i
            then set_val_type (if fixed_reg i then TEMP_VAL_REG else TEMP_VAL_MEM) ts
            else mk_temp (if temp_local s i then TEMP_VAL_MEM else TEMP_VAL_DEAD)
                   (treg ts) (tval ts) (mem_reg ts) (mem_offset ts) (mem_coherent ts) false)
         (fun _ => -1) (current_frame_offset st) (out_code st).

Definition check_regs (st : astate) : bool :=
  forallb (fun r =>
    let k := reg_to_temp st r in
    (k <? 0) || (bool_decide (val_type (s_temps st k) = TEMP_VAL_REG) && (treg (s_temps st k) =? r)))
    (seqZ 0 (TCG_TARGET_NB_REGS T)) &&
  forallb (fun k =>
    negb (bool_decide (val_type (s_temps st k) = TEMP_VAL_REG) && negb (fixed_reg k) &&
          negb (reg_to_temp st (treg (s_temps st k)) =? k)))
    (seqZ 0 (nb_temps s)).

Definition temp_allocate_frame (st : astate) (temp : Z) : outcome astate :=
  let off := (current_frame_offset st + 8 - 1) &&& Z.lnot (8 - 1) in
  if off + 8 >? frame_end T then Fault tcg_abort
  else
    let st := upd_temp st temp (set_slot (frame_reg T) off) in
    Ret (mk_ast (s_temps st) (reg_to_temp st) (off + 8) (out_code st)).

Definition tcg_reg_sync (st : astate) (reg : Z) : outcome astate :=
  let temp := reg_to_temp st reg in
  if temp <? 0 then Fault OutOfBounds
  else if negb (bool_decide (val_type (s_temps st temp) = TEMP_VAL_REG)) then Fault AssertFailed
  else
    st ← (if negb (mem_coherent (s_temps st temp)) && negb (fixed_reg temp) then
            st ← (if negb (mem_allocated (s_temps st temp)) then temp_allocate_frame st temp else Ret st);
            let ts := s_temps st temp in
            Ret (emit st (tcg_out_st (temp_type s temp) reg (mem_reg ts) (mem_offset ts)))
          else Ret st);
    Ret (upd_temp st temp (set_coherent true)).

Definition tcg_reg_free (st : astate) (reg : Z) : outcome astate :=
  let temp := reg_to_temp st reg in
  if temp =? -1 then Ret st
  else
    st ← tcg_reg_sync st reg;
    Ret (set_reg_to_temp (upd_temp st temp (set_val_type TEMP_VAL_MEM)) reg (-1)).

(** A register of [reg1] that is not in [reg2]. *)
Definition tcg_reg_alloc (st : astate) (reg1 reg2 : Z) : outcome (Z * astate) :=
  let reg_ct := Z.ldiff reg1 reg2 in
  match List.find (fun r => Z.testbit reg_ct r && (reg_to_temp st r =? -1))
          (tcg_target_reg_alloc_order T) with
  | Some reg => Ret (reg, st)
  | None =>
    match List.find (Z.testbit reg_ct) (tcg_target_reg_alloc_order T) with
    | Some reg => st ← tcg_reg_free st reg; Ret (reg, st)
    | None => Fault tcg_abort
    end
  end.

Definition temp_dead (st : astate) (temp : Z) : astate :=
  if fixed_reg temp then st
  else
    upd_temp (drop_reg st temp) temp
      (set_val_type (if is_global s temp || temp_local s temp then TEMP_VAL_MEM else TEMP_VAL_DEAD)).

(** Variable [t] is put into register [reg], which it has for its own. *)
Definition assign_reg (st : astate) (t reg : Z) (coherent : bool) : astate :=
  set_reg_to_temp
    (upd_temp st t (fun ts => set_coherent coherent (set_reg reg (set_val_type TEMP_VAL_REG ts)))) reg t.

Definition temp_sync (st : astate) (temp allocated_regs : Z) : outcome astate :=
  if fixed_reg temp then Ret st
  else
    match val_type (s_temps st temp) with
    | TEMP_VAL_CONST =>
      '(reg, st) ← tcg_reg_alloc st (tcg_target_available_regs T (temp_type s temp)) allocated_regs;
      let st := assign_reg st temp reg false in
      let st := emit st (tcg_out_movi (temp_type s temp) reg (tval (s_temps st temp))) in
      tcg_reg_sync st reg
    | TEMP_VAL_REG => tcg_reg_sync st (treg (s_temps st temp))
    | TEMP_VAL_DEAD | TEMP_VAL_MEM => Ret st
    end.

(** With the liveness analysis only an assertion. *)
Definition temp_save (st : astate) (temp : Z) : bool :=
  bool_decide (val_type (s_temps st temp) = TEMP_VAL_MEM) || fixed_reg temp.

Definition save_globals (st : astate) : bool := forallb (temp_save st) (seqZ 0 (nb_globals s)).

Definition sync_globals (st : astate) : bool :=
  forallb (fun i => negb (bool_decide (val_type (s_temps st i) = TEMP_VAL_REG)) || fixed_reg i ||
                    mem_coherent (s_temps st i)) (seqZ 0 (nb_globals s)).

Definition tcg_reg_alloc_bb_end (st : astate) : bool :=
  forallb (fun i => if temp_local s i then temp_save st i
                    else bool_decide (val_type (s_temps st i) = TEMP_VAL_DEAD))
    (seqZ (nb_globals s) (nb_temps s - nb_globals s)) && save_globals st.

Definition assert_that (b : bool) : outcome unit := if b then Ret tt else Fault AssertFailed.

(** [IS_DEAD_ARG] and [NEED_SYNC_ARG]. *)
Definition IS_DEAD_ARG (dead_args : Z) (n : nat) : bool := Z.testbit dead_args (Z.of_nat n).
Definition NEED_SYNC_ARG (sync_args : Z) (n : nat) : bool := Z.testbit sync_args (Z.of_nat n).

Definition tcg_reg_alloc_movi (st : astate) (arg0 arg1 dead_args sync_args : Z) : outcome astate :=
  let st :=
    if fixed_reg arg0
    then emit st (tcg_out_movi (temp_type s arg0) (treg (s_temps st arg0)) arg1)
    else
      upd_temp (drop_reg st arg0) arg0 (fun ots => set_tval arg1 (set_val_type TEMP_VAL_CONST ots)) in
  st ← (if NEED_SYNC_ARG sync_args 0 then temp_sync st arg0 (reserved_regs T) else Ret st);
  Ret (if IS_DEAD_ARG dead_args 0 then temp_dead st arg0 else st).

(** The first part of [tcg_reg_alloc_mov]: the source is put into a register.
    Of a constant, [mem_coherent] keeps whatever it was. *)
Definition mov_source (st : astate) (arg0 arg1 sync_args : Z) : outcome astate :=
  let ts := s_temps st arg1 in
  let itype := temp_type s arg1 in
  if ((NEED_SYNC_ARG sync_args 0 || fixed_reg arg0) && negb (bool_decide (val_type ts = TEMP_VAL_REG)))
     || bool_decide (val_type ts = TEMP_VAL_MEM)
  then
    '(reg, st) ← tcg_reg_alloc st (tcg_target_available_regs T itype) (reserved_regs T);
    let st := upd_temp st arg1 (set_reg reg) in
    let ts := s_temps st arg1 in
    let st :=
      match val_type ts with
      | TEMP_VAL_MEM =>
        upd_temp (emit st (tcg_out_ld itype reg (mem_reg ts) (mem_offset ts))) arg1 (set_coherent true)
      | TEMP_VAL_CONST => emit st (tcg_out_movi itype reg (tval ts))
      | _ => st
      end in
    Ret (upd_temp (set_reg_to_temp st reg arg1) arg1 (set_val_type TEMP_VAL_REG))
  else Ret st.

(** The branch for a destination that is only used in memory. *)
Definition mov_store (st : astate) (arg0 arg1 dead_args sync_args : Z) : outcome astate :=
  _ ← assert_that (NEED_SYNC_ARG sync_args 0);
  _ ← assert_that (bool_decide (val_type (s_temps st arg1) = TEMP_VAL_REG));
  st ← (if negb (mem_allocated (s_temps st arg0)) then temp_allocate_frame st arg0 else Ret st);
  let ots := s_temps st arg0 in
  let st := emit st (tcg_out_st (temp_type s arg0) (treg (s_temps st arg1)) (mem_reg ots) (mem_offset ots)) in
  let st := if IS_DEAD_ARG dead_args 1 then temp_dead st arg1 else st in
  Ret (temp_dead st arg0).

(** The branch that propagates a constant. *)
Definition mov_const (st : astate) (arg0 arg1 : Z) : astate :=
  let v := tval (s_temps st arg1) in
  upd_temp (drop_reg st arg0) arg0 (fun ots => set_tval v (set_val_type TEMP_VAL_CONST ots)).

(** The branch that copies or renames a register. *)
Definition mov_reg (st : astate) (arg0 arg1 dead_args sync_args : Z) : outcome astate :=
  _ ← assert_that (bool_decide (val_type (s_temps st arg1) = TEMP_VAL_REG));
  let r := treg (s_temps st arg1) in
  st ← (if IS_DEAD_ARG dead_args 1 && negb (fixed_reg arg1) && negb (fixed_reg arg0) then
          let st := upd_temp (drop_reg st arg0) arg0 (set_reg r) in
          Ret (temp_dead st arg1)
        else
          st ← (if negb (bool_decide (val_type (s_temps st arg0) = TEMP_VAL_REG)) then
                  '(reg, st) ← tcg_reg_alloc st (tcg_target_available_regs T (temp_type s arg0))
                                 (set_regset (reserved_regs T) r);
                  Ret (upd_temp st arg0 (set_reg reg))
                else Ret st);
          Ret (emit st (tcg_out_mov (temp_type s arg0) (treg (s_temps st arg0)) r)));
  let reg := treg (s_temps st arg0) in
  let st := assign_reg st arg0 reg false in
  if NEED_SYNC_ARG sync_args 0 then tcg_reg_sync st reg else Ret st.

Definition tcg_reg_alloc_mov (st : astate) (arg0 arg1 dead_args sync_args : Z) : outcome astate :=
  st ← mov_source st arg0 arg1 sync_args;
  if IS_DEAD_ARG dead_args 0 && negb (fixed_reg arg0)
  then mov_store st arg0 arg1 dead_args sync_args
  else if bool_decide (val_type (s_temps st arg1) = TEMP_VAL_CONST)
  then Ret (mov_const st arg0 arg1)
  else mov_reg st arg0 arg1 dead_args sync_args.

(** The local variables of [tcg_reg_alloc_op]. *)
Record opstate := mk_ops {
  o_st : astate;
  allocated_regs : Z;
  new_args : nat -> Z;
  const_args : nat -> bool;
}.

(** The input [i], which is in a register: that, or another register where
    the constraint asks for one. *)
Definition alloc_in_reg (op : TCGOp) (dead_args : Z) (x : opstate) (i : nat) : outcome opstate :=
  let t := arg op i in
  let ct := args_ct T (opc op) i in
  let st := o_st x in
  _ ← assert_that (bool_decide (val_type (s_temps st t) = TEMP_VAL_REG));
  let moves := CT_IALIAS ct && (if fixed_reg t then negb (t =? arg op (alias_index ct))
                                else negb (IS_DEAD_ARG dead_args i)) in
  let reg := treg (s_temps st t) in
  '(reg, st) ← (if negb moves && Z.testbit (ct_regs ct) reg then Ret (reg, st)
                else
                  '(reg, st) ← tcg_reg_alloc st (ct_regs ct) (allocated_regs x);
                  Ret (reg, emit st (tcg_out_mov (temp_type s t) reg (treg (s_temps st t)))));
  Ret (mk_ops st (set_regset (allocated_regs x) reg) (upd_arg (new_args x) i reg)
         (upd_arg (const_args x) i false)).

(** One input of an operation. *)
Definition alloc_input (op : TCGOp) (dead_args : Z) (x : opstate) (i : nat) : outcome opstate :=
  let t := arg op i in
  let ct := args_ct T (opc op) i in
  let st := o_st x in
  let ts := s_temps st t in
  let ty := temp_type s t in
  match val_type ts with
  | TEMP_VAL_MEM =>
    '(reg, st) ← tcg_reg_alloc st (ct_regs ct) (allocated_regs x);
    let ts := s_temps st t in
    let st := emit st (tcg_out_ld ty reg (mem_reg ts) (mem_offset ts)) in
    alloc_in_reg op dead_args
      (mk_ops (assign_reg st t reg true) (allocated_regs x) (new_args x) (const_args x)) i
  | TEMP_VAL_CONST =>
    if tcg_target_const_match T (opc op) i ty (tval ts) then
      Ret (mk_ops st (allocated_regs x) (upd_arg (new_args x) i (tval ts)) (upd_arg (const_args x) i true))
    else
      '(reg, st) ← tcg_reg_alloc st (ct_regs ct) (allocated_regs x);
      let st := emit st (tcg_out_movi ty reg (tval (s_temps st t))) in
      alloc_in_reg op dead_args
        (mk_ops (assign_reg st t reg false) (allocated_regs x) (new_args x) (const_args x)) i
  | _ => alloc_in_reg op dead_args x i
  end.

Fixpoint alloc_inputs (op : TCGOp) (dead_args : Z) (x : opstate) (idx : list nat) : outcome opstate :=
  match idx with
  | [] => Ret x
  | i :: idx => x ← alloc_input op dead_args x i; alloc_inputs op dead_args x idx
  end.

(** Dead inputs give their registers back. *)
Definition dead_inputs (op : TCGOp) (dead_args : Z) (st : astate) (idx : list nat) : astate :=
  fold_left (fun st i => if IS_DEAD_ARG dead_args i then temp_dead st (arg op i) else st) idx st.

(** The registers a call may change are freed. *)
Fixpoint free_clobbered (st : astate) (regs : list Z) : outcome astate :=
  match regs with
  | [] => Ret st
  | reg :: regs =>
    st ← (if Z.testbit (tcg_target_call_clobber_regs T) reg then tcg_reg_free st reg else Ret st);
    free_clobbered st regs
  end.

(** One output of an operation. *)
Definition alloc_output (op : TCGOp) (x : opstate) (i : nat) : outcome opstate :=
  let t := arg op i in
  let ct := args_ct T (opc op) i in
  let st := o_st x in
  let reg := treg (s_temps st t) in
  if negb (CT_ALIAS ct) && fixed_reg t && Z.testbit (ct_regs ct) reg
  then Ret (mk_ops st (allocated_regs x) (upd_arg (new_args x) i reg) (const_args x))
  else
    '(reg, st) ← (if CT_ALIAS ct then Ret (new_args x (alias_index ct), st)
                  else tcg_reg_alloc st (ct_regs ct) (allocated_regs x));
    let st :=
      if fixed_reg t then st else assign_reg (drop_reg st t) t reg false in
    Ret (mk_ops st (set_regset (allocated_regs x) reg) (upd_arg (new_args x) i reg) (const_args x)).

Fixpoint alloc_outputs (op : TCGOp) (x : opstate) (idx : list nat) : outcome opstate :=
  match idx with
  | [] => Ret x
  | i :: idx => x ← alloc_output op x i; alloc_outputs op x idx
  end.

(** What is done with an output after the instruction. *)
Definition finish_output (op : TCGOp) (dead_args sync_args : Z) (new_args : nat -> Z)
    (st : astate) (i : nat) : outcome astate :=
  let t := arg op i in
  let reg := new_args i in
  let st := if fixed_reg t && negb (treg (s_temps st t) =? reg)
            then emit st (tcg_out_mov (temp_type s t) (treg (s_temps st t)) reg) else st in
  st ← (if NEED_SYNC_ARG sync_args i then tcg_reg_sync st reg else Ret st);
  Ret (if IS_DEAD_ARG dead_args i then temp_dead st t else st).

Fixpoint finish_outputs (op : TCGOp) (dead_args sync_args : Z) (new_args : nat -> Z)
    (st : astate) (idx : list nat) : outcome astate :=
  match idx with
  | [] => Ret st
  | i :: idx =>
    st ← finish_output op dead_args sync_args new_args st i;
    finish_outputs op dead_args sync_args new_args st idx
  end.

(** The part between the inputs and the instruction: dead inputs, then the
    end of a basic block, or clobbered registers and outputs. *)
Definition op_prepare (op : TCGOp) (dead_args : Z) (x : opstate) : outcome opstate :=
  let def := tcg_op_defs (opc op) in
  let st := dead_inputs op dead_args (o_st x) (seq (nb_oargs def) (nb_iargs def)) in
  if OPF_BB_END def then
    _ ← assert_that (tcg_reg_alloc_bb_end st);
    Ret (mk_ops st (allocated_regs x) (new_args x) (const_args x))
  else
    st ← (if OPF_CALL_CLOBBER def then free_clobbered st (seqZ 0 (TCG_TARGET_NB_REGS T)) else Ret st);
    _ ← assert_that (negb (OPF_SIDE_EFFECTS def) || sync_globals st);
    alloc_outputs op (mk_ops st (reserved_regs T) (new_args x) (const_args x))
      (firstn (nb_oargs def) (sorted_args T (opc op))).

Definition tcg_reg_alloc_op (st : astate) (op : TCGOp) (dead_args sync_args : Z) : outcome astate :=
  let def := tcg_op_defs (opc op) in
  let x := mk_ops st (reserved_regs T) (arg op) (fun _ => false) in
  x ← alloc_inputs op dead_args x (skipn (nb_oargs def) (sorted_args T (opc op)));
  x ← op_prepare op dead_args x;
  let st := emit (o_st x) (tcg_out_op op (arg_list op (new_args x)) (arg_list op (const_args x))) in
  finish_outputs op dead_args sync_args (new_args x) st (seq 0 (nb_oargs def)).

(** The inputs of a call that are passed on the stack. *)
Fixpoint call_stack_args (st : astate) (stack_offset : Z) (ins : list Z) : outcome astate :=
  match ins with
  | [] => Ret st
  | a :: ins =>
    st ← (if a =? TCG_CALL_DUMMY_ARG then Ret st
          else
            let ty := temp_type s a in
            match val_type (s_temps st a) with
            | TEMP_VAL_REG =>
              Ret (emit st (tcg_out_st ty (treg (s_temps st a)) (TCG_REG_CALL_STACK T) stack_offset))
            | TEMP_VAL_MEM =>
              '(reg, st) ← tcg_reg_alloc st (tcg_target_available_regs T ty) (reserved_regs T);
              let ts := s_temps st a in
              let st := emit st (tcg_out_ld ty reg (mem_reg ts) (mem_offset ts)) in
              Ret (emit st (tcg_out_st ty reg (TCG_REG_CALL_STACK T) stack_offset))
            | TEMP_VAL_CONST =>
              '(reg, st) ← tcg_reg_alloc st (tcg_target_available_regs T ty) (reserved_regs T);
              let st := emit st (tcg_out_movi ty reg (tval (s_temps st a))) in
              Ret (emit st (tcg_out_st ty reg (TCG_REG_CALL_STACK T) stack_offset))
            | TEMP_VAL_DEAD => Fault tcg_abort
            end);
    call_stack_args st (stack_offset + 8) ins
  end.

(** The inputs passed in registers. *)
Fixpoint call_reg_args (st : astate) (regs ins : list Z) : outcome astate :=
  match regs, ins with
  | reg :: regs, a :: ins =>
    st ← (if a =? TCG_CALL_DUMMY_ARG then Ret st
          else
            st ← tcg_reg_free st reg;
            let ty := temp_type s a in
            let ts := s_temps st a in
            match val_type ts with
            | TEMP_VAL_REG =>
              Ret (if negb (treg ts =? reg) then emit st (tcg_out_mov ty reg (treg ts)) else st)
            | TEMP_VAL_MEM => Ret (emit st (tcg_out_ld ty reg (mem_reg ts) (mem_offset ts)))
            | TEMP_VAL_CONST => Ret (emit st (tcg_out_movi ty reg (tval ts)))
            | TEMP_VAL_DEAD => Fault tcg_abort
            end);
    call_reg_args st regs ins
  | _, _ => Ret st
  end.

(** The outputs of a call. *)
Fixpoint call_outputs (st : astate) (i : nat) (regs outs : list Z) (dead_args sync_args : Z)
    : outcome astate :=
  match outs with
  | [] => Ret st
  | a :: outs =>
    match regs with
    | [] => Fault OutOfBounds
    | reg :: regs =>
      _ ← assert_that (reg_to_temp st reg =? -1);
      st ← (if fixed_reg a then
              Ret (if negb (treg (s_temps st a) =? reg)
                   then emit st (tcg_out_mov (temp_type s a) (treg (s_temps st a)) reg) else st)
            else
              let st := assign_reg (drop_reg st a) a reg false in
              st ← (if NEED_SYNC_ARG sync_args i then tcg_reg_sync st reg else Ret st);
              Ret (if IS_DEAD_ARG dead_args i then temp_dead st a else st));
      call_outputs st (S i) regs outs dead_args sync_args
    end
  end.

Definition call_stack_size (nb_iargs nb_regs : nat) : Z :=
  ((Z.of_nat nb_iargs - Z.of_nat nb_regs) * 8 + TCG_TARGET_STACK_ALIGN T - 1)
    &&& Z.lnot (TCG_TARGET_STACK_ALIGN T - 1).

Definition tcg_reg_alloc_call (st : astate) (op : TCGOp) (dead_args sync_args : Z) : outcome astate :=
  let nb_oargs := callo op in
  let nb_iargs := calli op in
  let flags := arg op (nb_oargs + nb_iargs + 1) in
  let ins := firstn nb_iargs (skipn nb_oargs (args op)) in
  let nb_regs := Nat.min (length (tcg_target_call_iarg_regs T)) nb_iargs in
  if TCG_STATIC_CALL_ARGS_SIZE <? call_stack_size nb_iargs nb_regs then Fault tcg_abort
  else
    st ← call_stack_args st (TCG_TARGET_CALL_STACK_OFFSET T) (skipn nb_regs ins);
    st ← call_reg_args st (tcg_target_call_iarg_regs T) (firstn nb_regs ins);
    let st := dead_inputs op dead_args st (seq nb_oargs nb_iargs) in
    st ← free_clobbered st (seqZ 0 (TCG_TARGET_NB_REGS T));
    _ ← assert_that (if has_bits flags TCG_CALL_NO_READ_GLOBALS then true
                     else if has_bits flags TCG_CALL_NO_WRITE_GLOBALS then sync_globals st
                     else save_globals st);
    let st := emit st (tcg_out_call op) in
    call_outputs st 0 (tcg_target_call_oarg_regs T) (firstn nb_oargs (args op)) dead_args sync_args.

(** The body of the loop of [tcg_gen_code_common]. *)
Definition gen_op (st : astate) (oa : TCGOp * option (Z * Z)) : outcome astate :=
  let op := oa.1 in
  let '(dead_args, sync_args) := default (0, 0) oa.2 in
  match opc op with
  | INDEX_op_mov _ => tcg_reg_alloc_mov st (arg op 0) (arg op 1) dead_args sync_args
  | INDEX_op_movi _ => tcg_reg_alloc_movi st (arg op 0) (arg op 1) dead_args sync_args
  | INDEX_op_debug_insn_start => Ret st
  | INDEX_op_discard => Ret (temp_dead st (arg op 0))
  | INDEX_op_set_label =>
    _ ← assert_that (tcg_reg_alloc_bb_end st);
    Ret (emit st (tcg_out_label (arg op 0)))
  | INDEX_op_call => tcg_reg_alloc_call st op dead_args sync_args
  | oc => if op_present T oc then tcg_reg_alloc_op st op dead_args sync_args else Fault tcg_abort
  end.

(** The loop, with its check of the registers. *)
Fixpoint gen_ops (st : astate) (ops : list (TCGOp * option (Z * Z))) : outcome astate :=
  match ops with
  | [] => Ret st
  | oa :: ops =>
    st ← gen_op st oa;
    if check_regs st then gen_ops st ops else Fault tcg_abort
  end.

End Alloc.

(** [s->code_ptr = gen_code_buf]. *)
Definition code_start (st : astate) : astate :=
  mk_ast (s_temps st) (reg_to_temp st) (current_frame_offset st) [].

(** [tcg_gen_code_common] without the debugging output and the search for a
    place in the code: optimise, analyse, allocate.  [temps] and [st] are what
    the tables of the optimiser and of the variables were before. *)
Definition tcg_gen_code (s : TCGContext) (T : TCGTarget) (global_reg : Z -> bool)
    (HAS_neg HAS_not HAS_muluh HAS_mulsh : width -> bool)
    (temps : temps_t) (st : astate) (ops : list TCGOp) : outcome (list hinsn) :=
  ops ← tcg_optimize s HAS_neg HAS_not temps ops;
  let ops := tcg_liveness_analysis s HAS_muluh HAS_mulsh ops in
  st ← gen_ops s T global_reg (code_start (tcg_reg_alloc_start s global_reg st)) ops;
  Ret (out_code st).
