(* ===== verification/TcgHost.v ===== *)
(** * Runs of host code

    What the instructions do that the register allocator of TCG asks for: a
    move, load or store touches one register or one slot of memory, and
    leaves the rest of a register that is wider than the value open; an
    operation computes from its operands what the TCG operation it stands for
    computes, and a call what the helper may do.  Slots are named by their
    base register and offset; different names are different places. *)

From S2P Require Import Prelude HostUtils BitField TcgOp TcgOpt TcgSem TcgLive TcgAlloc.

Definition hregs : Type := Z -> Z.
Definition hmem : Type := Z * Z -> Z.

Definition slot (ts : TCGTemp) : Z * Z := (mem_reg ts, mem_offset ts).

(** [x] is found, from the places in [obs], in all of them. *)
Definition obs_env (obs : list (Z * Z)) : env := fun t =>
  match List.filter (fun p => p.1 =? t) obs with
  | [] => None
  | p :: ps => if forallb (fun q => q.2 =? p.2) ps then Some p.2 else None
  end.

(** Moves, loads and stores. *)
Definition hmove (i : hinsn) (R : hregs) (M : hmem) (R' : hregs) (M' : hmem) : Prop :=
  match i with
  | tcg_out_mov w d a =>
    low w (R' d) = low w (R a) /\ (forall r, r <> d -> R' r = R r) /\ M' = M
  | tcg_out_movi w d v =>
    low w (R' d) = low w v /\ (forall r, r <> d -> R' r = R r) /\ M' = M
  | tcg_out_ld w d b o =>
    low w (R' d) = low w (M (b, o)) /\ (forall r, r <> d -> R' r = R r) /\ M' = M
  | tcg_out_st w a b o =>
    low w (M' (b, o)) = low w (R a) /\ (forall c, c <> (b, o) -> M' c = M c) /\ R' = R
  | _ => False
  end.

Definition is_move (i : hinsn) : bool :=
  match i with
  | tcg_out_mov _ _ _ | tcg_out_movi _ _ _ | tcg_out_ld _ _ _ _ | tcg_out_st _ _ _ _ => true
  | _ => false
  end.

Definition is_label (i : hinsn) : bool := match i with tcg_out_label _ => true | _ => false end.

Fixpoint moves (c : list hinsn) (R : hregs) (M : hmem) (R' : hregs) (M' : hmem) : Prop :=
  match c with
  | [] => R' = R /\ M' = M
  | i :: c => exists R1 M1, hmove i R M R1 M1 /\ moves c R1 M1 R' M'
  end.

Section Host.
Context (s : TCGContext) (T : TCGTarget) (global_reg : Z -> bool).

(** Where the globals are: their fixed registers and their slots. *)
Context (G : Z -> TCGTemp).

Definition home (R : hregs) (M : hmem) (g : Z) : Z :=
  if fixed_reg s global_reg g then R (treg (G g)) else M (slot (G g)).

(** What an operation finds of its operands, of the inputs of a call, and of
    the globals. *)
Definition operand (R : hregs) (new_args : list Z) (const_args : list bool) (i : nat) : Z :=
  let a := nth i new_args 0 in if nth i const_args false then a else R a.

Definition saw (t x : Z) : Z * Z := (t, low (temp_type s t) x).

Definition op_obs (R : hregs) (op : TCGOp) (new_args : list Z) (const_args : list bool) : list (Z * Z) :=
  map (fun i => saw (arg op i) (operand R new_args const_args i)) (seq (op_oargs op) (op_iargs op)).

Definition call_operand (R : hregs) (M : hmem) (k : nat) : Z :=
  match nth_error (tcg_target_call_iarg_regs T) k with
  | Some r => R r
  | None => M (TCG_REG_CALL_STACK T,
               TCG_TARGET_CALL_STACK_OFFSET T + 8 * Z.of_nat (k - length (tcg_target_call_iarg_regs T)))
  end.

Definition call_obs (R : hregs) (M : hmem) (op : TCGOp) : list (Z * Z) :=
  map (fun k => saw (arg op (op_oargs op + k)) (call_operand R M k)) (seq 0 (op_iargs op)).

Definition global_obs (R : hregs) (M : hmem) (op : TCGOp) : list (Z * Z) :=
  map (fun g => saw g (home R M g)) (shown_globals s op).

(** A variable that is defined is found as it is. *)
Definition holds (E : env) (t x : Z) : Prop := E t = None \/ E t = Some (low (temp_type s t) x).

Definition clobbered (r : Z) : bool := Z.testbit (tcg_target_call_clobber_regs T) r.

(** The slots where the arguments of a call are passed. *)
Definition stack_slot (c : Z * Z) : Prop :=
  c.1 = TCG_REG_CALL_STACK T /\
  TCG_TARGET_CALL_STACK_OFFSET T <= c.2 < TCG_TARGET_CALL_STACK_OFFSET T + TCG_STATIC_CALL_ARGS_SIZE.

Context {World : Type}.
Context (ext : TCGOpcode -> list Z -> list Z -> list Z -> World ->
               list Z -> list Z -> World -> bool -> Prop).

(** [hexec i R M m R' M' m' f]: the instruction [i] on registers [R], memory
    [M] and the machine [m]. *)
Inductive hexec : hinsn -> hregs -> hmem -> World -> hregs -> hmem -> World -> flow -> Prop :=
| hexec_move i R M m R' M' : hmove i R M R' M' -> hexec i R M m R' M' m Next
| hexec_op op na ca R M m E' R' m' f :
  exec s ext op (obs_env (op_obs R op na ca ++ global_obs R M op)) m E' m' f ->
  (forall i, (i < op_oargs op)%nat -> f = Next -> holds E' (arg op i) (R' (nth i na 0))) ->
  (forall r, (forall i, (i < op_oargs op)%nat -> nth i na 0 <> r) ->
     OPF_CALL_CLOBBER (tcg_op_defs (opc op)) && clobbered r = false -> R' r = R r) ->
  hexec (tcg_out_op op na ca) R M m R' M m' f
| hexec_call op R M m E' R' M' m' f :
  exec s ext op (obs_env (call_obs R M op ++ global_obs R M op)) m E' m' f ->
  (forall i r, (i < op_oargs op)%nat -> f = Next -> nth_error (tcg_target_call_oarg_regs T) i = Some r ->
     holds E' (arg op i) (R' r)) ->
  (writes_globals op = true -> forall g, is_global s g = true -> g ∉ op_outputs op \/ f <> Next ->
     holds E' g (home R' M' g)) ->
  (forall r, clobbered r = false ->
     writes_globals op && existsb (fun g => fixed_reg s global_reg g && (treg (G g) =? r))
                            (seqZ 0 (nb_globals s)) = false -> R' r = R r) ->
  (forall c, ~ stack_slot c ->
     (writes_globals op = true -> forall g, is_global s g = true -> fixed_reg s global_reg g = false ->
        slot (G g) <> c) -> M' c = M c) ->
  hexec (tcg_out_call op) R M m R' M' m' f
| hexec_label l R M m : hexec (tcg_out_label l) R M m R M m Next.

(** What follows the label [l]. *)
Fixpoint hfind (l : Z) (H : list hinsn) : option (list hinsn) :=
  match H with
  | [] => None
  | tcg_out_label l' :: H => if l' =? l then Some H else hfind l H
  | _ :: H => hfind l H
  end.

(** Runs, as of TCG code. *)
Inductive hrun (H : list hinsn) : nat -> list hinsn -> hregs -> hmem -> World ->
                                  ending -> hregs -> hmem -> World -> Prop :=
| hrun_end n R M m : hrun H n [] R M m AtEnd R M m
| hrun_next n i k R M m R1 M1 m1 e R' M' m' :
  hexec i R M m R1 M1 m1 Next -> hrun H n k R1 M1 m1 e R' M' m' ->
  hrun H n (i :: k) R M m e R' M' m'
| hrun_stop n i k R M m R' M' m' :
  hexec i R M m R' M' m' Stop -> hrun H n (i :: k) R M m Left_block R' M' m'
| hrun_wrong n i k R M m R' M' m' :
  hexec i R M m R' M' m' Wrong -> hrun H n (i :: k) R M m Crashed R' M' m'
| hrun_cut i k R M m R' M' m' l :
  hexec i R M m R' M' m' (Jump l) -> hrun H 0 (i :: k) R M m (AtLabel l) R' M' m'
| hrun_lost n i k R M m R' M' m' l :
  hexec i R M m R' M' m' (Jump l) -> hfind l H = None ->
  hrun H (S n) (i :: k) R M m (AtLabel l) R' M' m'
| hrun_jump n i k R M m R1 M1 m1 l k1 e R' M' m' :
  hexec i R M m R1 M1 m1 (Jump l) -> hfind l H = Some k1 ->
  hrun H n k1 R1 M1 m1 e R' M' m' -> hrun H (S n) (i :: k) R M m e R' M' m'.

End Host.
