(* ===== verification/TcgAllocInv.v ===== *)
(** * Invariants of the register allocator of TCG

    The tables of the allocator are consistent ([wf_st]): a register belongs
    to the variable that is in it, reserved registers to none, and different
    variables have different slots.  The values are where the tables say
    ([dyn]).  Moves of variables between registers and memory keep both. *)

From S2P Require Import Prelude HostUtils BitField TcgOp TcgOpt TcgSem TcgMono TcgLive TcgAlloc TcgHost.

(** ** Outcomes *)

(** The computation returns, with a result in [Q], or [tcg_abort()] ends it,
    which takes that something is [lacking]. *)
Definition ok {A} (lacking : Prop) (m : outcome A) (Q : A -> Prop) : Prop :=
  match m with
  | Ret a => Q a
  | Fault f => f = tcg_abort /\ lacking
  | NoFuel => False
  end.

Lemma ok_bind {A B} lacking (m : outcome A) (f : A -> outcome B) Q :
  ok lacking m (fun a => ok lacking (f a) Q) -> ok lacking (a ← m; f a) Q.
Proof. by destruct m. Qed.

Lemma ok_mono {A} lacking (m : outcome A) (P Q : A -> Prop) :
  ok lacking m P -> (forall a, P a -> Q a) -> ok lacking m Q.
Proof. destruct m; cbn; auto. Qed.

Lemma ok_bind' {A B} lacking (m : outcome A) (f : A -> outcome B) P Q :
  ok lacking m P -> (forall a, P a -> ok lacking (f a) Q) -> ok lacking (a ← m; f a) Q.
Proof. intros Hm Hf. apply ok_bind. by eapply ok_mono. Qed.

Lemma ok_assert {B} lacking b (f : unit -> outcome B) Q :
  b = true -> ok lacking (f tt) Q -> ok lacking (u ← assert_that b; f u) Q.
Proof. by intros ->. Qed.

(** ** Hosts *)

(** What the tables of a host, and of the globals, have to satisfy. *)
Record target_ok (s : TCGContext) (T : TCGTarget) (global_reg : Z -> bool) (G : Z -> TCGTemp) : Prop := {
  t_order : forall r, r ∈ tcg_target_reg_alloc_order T -> 0 <= r < TCG_TARGET_NB_REGS T;
  t_fixed : forall g, fixed_reg s global_reg g = true ->
    Z.testbit (reserved_regs T) (treg (G g)) = true /\ clobbered T (treg (G g)) = false;
  t_slots : forall g, is_global s g = true -> fixed_reg s global_reg g = false ->
    mem_allocated (G g) = true /\ ~ stack_slot T (slot (G g)) /\
    (mem_reg (G g) = frame_reg T -> mem_offset (G g) < frame_start T);
  t_distinct : forall g1 g2, is_global s g1 = true -> is_global s g2 = true ->
    fixed_reg s global_reg g1 = false -> fixed_reg s global_reg g2 = false ->
    slot (G g1) = slot (G g2) -> g1 = g2;
  t_frame : (8 | frame_start T) /\
    (frame_reg T = TCG_REG_CALL_STACK T ->
     TCG_TARGET_CALL_STACK_OFFSET T + TCG_STATIC_CALL_ARGS_SIZE <= frame_start T);
  t_iargs : NoDup (tcg_target_call_iarg_regs T) /\
    Forall (fun r => Z.testbit (reserved_regs T) r = false /\ 0 <= r < TCG_TARGET_NB_REGS T)
      (tcg_target_call_iarg_regs T);
  t_oargs : NoDup (tcg_target_call_oarg_regs T) /\
    Forall (fun r => Z.testbit (reserved_regs T) r = false /\ 0 <= r < TCG_TARGET_NB_REGS T /\
                     clobbered T r = true) (tcg_target_call_oarg_regs T);
}.

Section Inv.
Context (s : TCGContext) (T : TCGTarget) (global_reg : Z -> bool) (G : Z -> TCGTemp).
Context (Hctx : wf_ctx s = true) (HT : target_ok s T global_reg G).

#[local] Abbreviation fixed := (fixed_reg s global_reg).
#[local] Abbreviation in_temps := (in_temps s).
#[local] Abbreviation ty := (temp_type s).
#[local] Abbreviation reserved r := (Z.testbit (reserved_regs T) r).

(** ** Consistent tables *)

Definition own (st : astate) (r t : Z) : Prop :=
  in_temps t = true /\ fixed t = false /\ val_type (s_temps st t) = TEMP_VAL_REG /\
  treg (s_temps st t) = r /\ reserved r = false /\ 0 <= r < TCG_TARGET_NB_REGS T.

(** The temporaries that have a slot of the frame. *)
Definition framed (st : astate) (t : Z) : bool :=
  negb (is_global s t) && mem_allocated (s_temps st t).

Definition frame_count (st : astate) : Z :=
  Z.of_nat (length (List.filter (framed st) (seqZ 0 (nb_temps s)))).

Record wf_st (st : astate) : Prop := {
  w_own : forall r, reg_to_temp st r = -1 \/ own st r (reg_to_temp st r);
  w_reg : forall t, in_temps t = true -> fixed t = false ->
    val_type (s_temps st t) = TEMP_VAL_REG -> reg_to_temp st (treg (s_temps st t)) = t;
  w_fixed : forall t, fixed t = true ->
    val_type (s_temps st t) = TEMP_VAL_REG /\ treg (s_temps st t) = treg (G t);
  w_global : forall t, is_global s t = true -> fixed t = false ->
    mem_allocated (s_temps st t) = true /\ slot (s_temps st t) = slot (G t);
  w_frame : forall t, in_temps t = true -> framed st t = true ->
    mem_reg (s_temps st t) = frame_reg T /\
    frame_start T <= mem_offset (s_temps st t) /\ mem_offset (s_temps st t) + 8 <= current_frame_offset st;
  w_inj : forall t1 t2, in_temps t1 = true -> in_temps t2 = true ->
    framed st t1 = true -> framed st t2 = true ->
    mem_offset (s_temps st t1) = mem_offset (s_temps st t2) -> t1 = t2;
  w_count : current_frame_offset st = frame_start T + 8 * frame_count st;
  w_coh : forall t, in_temps t = true -> fixed t = false -> val_type (s_temps st t) = TEMP_VAL_REG ->
    mem_coherent (s_temps st t) = true -> mem_allocated (s_temps st t) = true;
}.

(** States that differ at most in how they are written down, and in the code
    emitted so far. *)
Record same (st st' : astate) : Prop := {
  same_temps : forall t, s_temps st' t = s_temps st t;
  same_regs : forall r, reg_to_temp st' r = reg_to_temp st r;
  same_frame : current_frame_offset st' = current_frame_offset st;
}.

#[export] Instance same_equiv : Equivalence same.
Proof.
  split.
  - by constructor.
  - intros x y [H1 H2 H3]. by constructor.
  - intros x y z [H1 H2 H3] [H4 H5 H6]. constructor; intros; congruence.
Qed.

Lemma framed_ext st st' :
  (forall t, in_temps t = true -> framed st' t = framed st t) -> frame_count st' = frame_count st.
Proof.
  intros H. unfold frame_count. f_equal. f_equal. apply List.filter_ext_in.
  intros t Ht. apply H. apply list_elem_of_In, elem_of_seqZ in Ht. unfold TcgOpt.in_temps. lia.
Qed.

#[export] Instance wf_same : Proper (same ==> impl) wf_st.
Proof.
  intros st st' [Ht Hr Hc] [H1 H2 H3 H4 H5 H6 H7 H8]. unfold own, framed in *.
  assert (frame_count st' = frame_count st) as Hf
    by (apply framed_ext; intros t _; unfold framed; by rewrite Ht).
  constructor; unfold own, framed; intros *; rewrite ?Ht, ?Hr, ?Hc, ?Hf; auto.
Qed.

(** What a fixed register is. *)
Lemma fixed_reserved st t : wf_st st -> fixed t = true -> reserved (treg (s_temps st t)) = true.
Proof. intros Hw Hf. destruct (w_fixed _ Hw t Hf) as [_ ->]. by apply (t_fixed _ _ _ _ HT). Qed.

Lemma fixed_global t : fixed t = true -> is_global s t = true.
Proof. unfold fixed_reg. by intros [? _]%andb_true_iff. Qed.

Lemma global_in t : is_global s t = true -> in_temps t = true.
Proof. unfold wf_ctx, is_global, TcgOpt.in_temps in *. lia. Qed.

(** Registers of variables. *)
Lemma in_reg_inj st t1 t2 :
  wf_st st -> in_temps t1 = true -> in_temps t2 = true -> fixed t1 = false ->
  val_type (s_temps st t1) = TEMP_VAL_REG -> val_type (s_temps st t2) = TEMP_VAL_REG ->
  treg (s_temps st t1) = treg (s_temps st t2) -> t1 = t2.
Proof.
  intros Hw H1 H2 Hf V1 V2 He. pose proof (w_reg _ Hw t1 H1 Hf V1) as R1.
  destruct (fixed t2) eqn:Hf2; [|pose proof (w_reg _ Hw t2 H2 Hf2 V2); congruence].
  pose proof (fixed_reserved st t2 Hw Hf2) as Hr. rewrite <- He in Hr.
  destruct (w_own _ Hw (treg (s_temps st t1))) as [Hm|(_ & _ & _ & _ & Hn & _)]; [|congruence].
  rewrite Hm in R1. unfold TcgOpt.in_temps in H1. lia.
Qed.

(** Different variables have different slots. *)
Lemma slot_inj st t1 t2 :
  wf_st st -> in_temps t1 = true -> in_temps t2 = true -> fixed t1 = false -> fixed t2 = false ->
  mem_allocated (s_temps st t1) = true -> mem_allocated (s_temps st t2) = true ->
  slot (s_temps st t1) = slot (s_temps st t2) -> t1 = t2.
Proof.
  intros Hw H1 H2 F1 F2 A1 A2 He.
  assert (Hx : forall a b, in_temps a = true -> in_temps b = true -> fixed a = false -> fixed b = false ->
    mem_allocated (s_temps st a) = true -> mem_allocated (s_temps st b) = true ->
    slot (s_temps st a) = slot (s_temps st b) -> is_global s a = true -> is_global s b = true).
  { intros a b Ha Hb Fa Fb Aa Ab Hs Ga. destruct (is_global s b) eqn:Gb; [done|].
    assert (framed st b = true) as Hfr by (unfold framed; by rewrite Gb, Ab).
    destruct (w_frame _ Hw b Hb Hfr) as (Hmr & Hlo & _).
    destruct (w_global _ Hw a Ga Fa) as [_ Hsa]. destruct (t_slots _ _ _ _ HT a Ga Fa) as (_ & _ & Hlt).
    rewrite Hsa in Hs. unfold slot in Hs. injection Hs as Hs1 Hs2. rewrite Hs1, Hs2 in Hlt.
    specialize (Hlt Hmr). lia. }
  destruct (is_global s t1) eqn:G1.
  - assert (is_global s t2 = true) as G2 by (by apply (Hx t1 t2)).
    destruct (w_global _ Hw t1 G1 F1) as [_ S1]. destruct (w_global _ Hw t2 G2 F2) as [_ S2].
    apply (t_distinct _ _ _ _ HT); congruence.
  - assert (is_global s t2 = false) as G2.
    { apply not_true_is_false. intros G2. apply (Hx t2 t1) in G2; congruence. }
    unfold slot in He. injection He as _ He. apply (w_inj _ Hw); unfold framed; try done; by rewrite ?G1, ?G2, ?A1, ?A2.
Qed.

Lemma slot_not_stack st t :
  wf_st st -> in_temps t = true -> fixed t = false -> mem_allocated (s_temps st t) = true ->
  ~ stack_slot T (slot (s_temps st t)).
Proof.
  intros Hw Ht Hf Ha. destruct (is_global s t) eqn:Hg.
  - destruct (w_global _ Hw t Hg Hf) as [_ ->]. by apply (t_slots _ _ _ _ HT).
  - destruct (w_frame _ Hw t Ht) as (Hm & Hlo & _); [unfold framed; by rewrite Hg, Ha|].
    intros [H1 H2]. unfold slot in *. cbn [fst snd] in *. destruct (t_frame _ _ _ _ HT) as [_ Hst].
    rewrite Hm in H1. specialize (Hst H1). lia.
Qed.

(** ** Changes of the tables *)

Lemma temps_drop st t : s_temps (drop_reg st t) = s_temps st.
Proof. unfold drop_reg. by case_bool_decide. Qed.

Lemma frame_drop st t : current_frame_offset (drop_reg st t) = current_frame_offset st.
Proof. unfold drop_reg. by case_bool_decide. Qed.

Lemma code_drop st t : out_code (drop_reg st t) = out_code st.
Proof. unfold drop_reg. by case_bool_decide. Qed.

(** Afterwards no register belongs to the variable, and the others are as
    they were. *)
Lemma regs_drop st t r :
  wf_st st -> in_temps t = true -> fixed t = false ->
  reg_to_temp (drop_reg st t) r = (if reg_to_temp st r =? t then -1 else reg_to_temp st r).
Proof.
  intros Hw Ht Hf. unfold drop_reg. case_bool_decide as Hv.
  - cbn. pose proof (w_reg _ Hw t Ht Hf Hv) as Hr.
    destruct (Z.eqb_spec r (treg (s_temps st t))) as [->|Hne]; [by rewrite Hr, Z.eqb_refl|].
    destruct (Z.eqb_spec (reg_to_temp st r) t) as [He|]; [|done].
    destruct (w_own _ Hw r) as [Hm|(_ & _ & _ & Hr' & _)]; [unfold TcgOpt.in_temps in Ht; lia|congruence].
  - destruct (Z.eqb_spec (reg_to_temp st r) t) as [He|]; [|done].
    destruct (w_own _ Hw r) as [Hm|(_ & _ & Hr' & _)]; [unfold TcgOpt.in_temps in Ht; lia|congruence].
Qed.

Lemma temps_upd st t f i : s_temps (upd_temp st t f) i = if i =? t then f (s_temps st t) else s_temps st i.
Proof. done. Qed.

Lemma neg_in t : in_temps t = true -> t <> -1.
Proof. unfold TcgOpt.in_temps. lia. Qed.

(** The slots are as they were. *)
Definition same_slot (ts ts' : TCGTemp) : Prop :=
  slot ts' = slot ts /\ mem_allocated ts' = mem_allocated ts.

(** The part of [wf_st] that is about slots. *)
Lemma wf_slots st st' :
  wf_st st -> current_frame_offset st' = current_frame_offset st ->
  (forall t, same_slot (s_temps st t) (s_temps st' t)) ->
  (forall r, reg_to_temp st' r = -1 \/ own st' r (reg_to_temp st' r)) ->
  (forall t, in_temps t = true -> fixed t = false ->
    val_type (s_temps st' t) = TEMP_VAL_REG -> reg_to_temp st' (treg (s_temps st' t)) = t) ->
  (forall t, fixed t = true -> s_temps st' t = s_temps st t) ->
  (forall t, in_temps t = true -> fixed t = false -> val_type (s_temps st' t) = TEMP_VAL_REG ->
    mem_coherent (s_temps st' t) = true -> mem_allocated (s_temps st' t) = true) ->
  wf_st st'.
Proof.
  intros Hw Hc Hs Ho Hr Hf Hco.
  assert (Hfr : forall t, framed st' t = framed st t)
    by (intros t; unfold framed; by destruct (Hs t) as [_ ->]).
  assert (Hsl : forall t, mem_reg (s_temps st' t) = mem_reg (s_temps st t) /\
                          mem_offset (s_temps st' t) = mem_offset (s_temps st t)).
  { intros t. destruct (Hs t) as [He _]. unfold slot in He. by injection He. }
  constructor; try done.
  - intros t Ht. rewrite (Hf t Ht). by apply (w_fixed _ Hw).
  - intros t Hg Hn. destruct (Hs t) as [-> ->]. by apply (w_global _ Hw).
  - intros t Ht. rewrite Hfr, Hc. destruct (Hsl t) as [-> ->]. by apply (w_frame _ Hw).
  - intros t1 t2 H1 H2. rewrite !Hfr. destruct (Hsl t1) as [_ ->]. destruct (Hsl t2) as [_ ->].
    by apply (w_inj _ Hw).
  - rewrite Hc, (w_count _ Hw). do 2 f_equal. symmetry. by apply framed_ext.
Qed.

(** A variable leaves its register. *)
Lemma wf_leave st t f :
  wf_st st -> in_temps t = true -> fixed t = false ->
  val_type (f (s_temps st t)) <> TEMP_VAL_REG -> same_slot (s_temps st t) (f (s_temps st t)) ->
  wf_st (upd_temp (drop_reg st t) t f).
Proof.
  intros Hw Ht Hf Hv Hs. apply (wf_slots st); try done.
  - apply frame_drop.
  - intros i. rewrite temps_upd, temps_drop. by destruct (Z.eqb_spec i t) as [->|].
  - intros r. cbn [upd_temp reg_to_temp]. rewrite regs_drop by done.
    destruct (Z.eqb_spec (reg_to_temp st r) t) as [|Hne]; [by left|].
    destruct (w_own _ Hw r) as [|Ho]; [by left|right]. unfold own in *.
    rewrite temps_upd, temps_drop. by destruct (Z.eqb_spec (reg_to_temp st r) t).
  - intros i Hi Hfi. rewrite temps_upd, temps_drop. cbn [upd_temp reg_to_temp].
    destruct (Z.eqb_spec i t) as [->|Hne]; [done|]. intros Hvi. rewrite regs_drop by done.
    rewrite (w_reg _ Hw i Hi Hfi Hvi). by destruct (Z.eqb_spec i t).
  - intros i Hi. rewrite temps_upd, temps_drop. by destruct (Z.eqb_spec i t) as [->|]; [congruence|].
  - intros i Hi Hfi. rewrite temps_upd, temps_drop.
    destruct (Z.eqb_spec i t) as [->|Hne]; [done|]. by apply (w_coh _ Hw).
Qed.

(** A variable gets a register that belongs to nobody else. *)
Lemma wf_assign st t r coh :
  wf_st st -> in_temps t = true -> fixed t = false -> reserved r = false ->
  0 <= r < TCG_TARGET_NB_REGS T -> reg_to_temp st r = -1 \/ reg_to_temp st r = t ->
  (coh = true -> mem_allocated (s_temps st t) = true) -> wf_st (assign_reg (drop_reg st t) t r coh).
Proof.
  intros Hw Ht Hf Hr Hrange Hfree Hcoh.
  assert (Hte : forall i, s_temps (assign_reg (drop_reg st t) t r coh) i =
    if i =? t then set_coherent coh (set_reg r (set_val_type TEMP_VAL_REG (s_temps st t))) else s_temps st i)
    by (intros i; cbn; by rewrite temps_drop).
  assert (Hre : forall i, reg_to_temp (assign_reg (drop_reg st t) t r coh) i =
    if i =? r then t else if reg_to_temp st i =? t then -1 else reg_to_temp st i)
    by (intros i; cbn; by rewrite <- regs_drop).
  apply (wf_slots st); try done.
  - apply frame_drop.
  - intros i. rewrite Hte. by destruct (Z.eqb_spec i t) as [->|].
  - intros i. rewrite Hre. unfold own. destruct (Z.eqb_spec i r) as [->|Hne].
    + right. rewrite Hte, Z.eqb_refl. done.
    + destruct (Z.eqb_spec (reg_to_temp st i) t) as [|Hn]; [by left|].
      destruct (w_own _ Hw i) as [|Ho]; [by left|right]. rewrite Hte.
      by destruct (Z.eqb_spec (reg_to_temp st i) t).
  - intros i Hi Hfi. rewrite Hte. destruct (Z.eqb_spec i t) as [->|Hne]; [by rewrite Hre, Z.eqb_refl|].
    intros Hv. rewrite Hre. pose proof (w_reg _ Hw i Hi Hfi Hv) as Hri.
    destruct (Z.eqb_spec (treg (s_temps st i)) r) as [He|_].
    { rewrite He in Hri. pose proof (neg_in i Hi). destruct Hfree; congruence. }
    rewrite Hri. by destruct (Z.eqb_spec i t).
  - intros i Hi. rewrite Hte. by destruct (Z.eqb_spec i t) as [->|]; [congruence|].
  - intros i Hi Hfi. rewrite Hte. destruct (Z.eqb_spec i t) as [->|Hne]; [done|]. by apply (w_coh _ Hw).
Qed.

Lemma wf_coherent st t :
  wf_st st -> in_temps t = true -> fixed t = false -> mem_allocated (s_temps st t) = true ->
  wf_st (upd_temp st t (set_coherent true)).
Proof.
  intros Hw Ht Hf Ha. apply (wf_slots st); try done.
  - intros i. rewrite temps_upd. by destruct (Z.eqb_spec i t) as [->|].
  - intros r. destruct (w_own _ Hw r) as [|Ho]; [by left|right]. unfold own in *.
    cbn [upd_temp reg_to_temp]. rewrite temps_upd. by destruct (Z.eqb_spec (reg_to_temp st r) t) as [<-|].
  - intros i Hi Hfi. rewrite temps_upd. cbn [upd_temp reg_to_temp].
    destruct (Z.eqb_spec i t) as [->|Hne]; by apply (w_reg _ Hw).
  - intros i Hi. rewrite temps_upd. by destruct (Z.eqb_spec i t) as [->|]; [congruence|].
  - intros i Hi Hfi. rewrite temps_upd. destruct (Z.eqb_spec i t) as [->|Hne]; [done|]. by apply (w_coh _ Hw).
Qed.

(** ** Slots of the frame *)

Lemma filter_one_more (f f' : Z -> bool) l t :
  NoDup l -> t ∈ l -> f t = false -> f' t = true -> (forall i, i <> t -> f' i = f i) ->
  length (List.filter f' l) = S (length (List.filter f l)).
Proof.
  intros Hn Ht Hf Hf' He. induction Hn as [|x l Hx Hn IH]; [set_solver|]. cbn.
  destruct (decide (x = t)) as [->|Hne].
  - rewrite Hf, Hf'. cbn. f_equal. f_equal. apply List.filter_ext_in.
    intros i Hi%list_elem_of_In. apply He. set_solver.
  - rewrite He by done. destruct (f x); cbn; rewrite IH by set_solver; done.
Qed.

Lemma filter_length_lt (f : Z -> bool) l t :
  t ∈ l -> f t = false -> (length (List.filter f l) < length l)%nat.
Proof.
  induction l as [|x l IH]; intros Ht Hf; [set_solver|]. cbn.
  destruct (f x) eqn:Hx; cbn.
  - apply -> Nat.succ_lt_mono. apply IH; [|done]. apply elem_of_cons in Ht as [->|]; [congruence|done].
  - pose proof (List.filter_length_le f l). lia.
Qed.

Lemma round_up_8 c : (8 | c) -> (c + 8 - 1) &&& Z.lnot (8 - 1) = c.
Proof.
  intros [k ->]. rewrite <- Z.ldiff_land. change (8 - 1) with (Z.ones 3).
  rewrite Z.ldiff_ones_r by done. rewrite Z.shiftr_div_pow2, Z.shiftl_mul_pow2 by done.
  change (2 ^ 3) with 8. f_equal. symmetry. apply (Z.div_unique _ _ _ 7); lia.
Qed.

(** The frame is large enough for all temporaries. *)
Definition enough_frame : Prop := frame_start T + 8 * nb_temps s <= frame_end T.

Lemma in_seqZ t : in_temps t = true -> t ∈ seqZ 0 (nb_temps s).
Proof. unfold TcgOpt.in_temps. intros. apply elem_of_seqZ. lia. Qed.

Lemma temp_allocate_frame_ok lacking st t :
  wf_st st -> in_temps t = true -> is_global s t = false -> mem_allocated (s_temps st t) = false ->
  lacking \/ enough_frame ->
  ok lacking (temp_allocate_frame T st t) (fun st' =>
    wf_st st' /\ (forall i, s_temps st' i = if i =? t then set_slot (frame_reg T) (current_frame_offset st) (s_temps st t) else s_temps st i) /\
    reg_to_temp st' = reg_to_temp st /\ out_code st' = out_code st).
Proof.
  intros Hw Ht Hg Ha Hl. unfold temp_allocate_frame.
  assert (Hfix : fixed t = false) by (unfold fixed_reg; by rewrite Hg).
  pose proof (w_count _ Hw) as Hc. destruct (t_frame _ _ _ _ HT) as [Hdiv _].
  rewrite round_up_8; [|rewrite Hc; apply Z.divide_add_r; [done|apply Z.divide_factor_l]].
  assert (Hfr0 : framed st t = false) by (unfold framed; by rewrite Ha, andb_false_r).
  pose proof (filter_length_lt (framed st) _ t (in_seqZ t Ht) Hfr0) as Hlt.
  rewrite length_seqZ in Hlt. unfold frame_count in Hc.
  destruct (Z.gtb_spec (current_frame_offset st + 8) (frame_end T)) as [Hgt|Hle]; cbn.
  { split; [done|]. destruct Hl as [|He]; [done|]. unfold enough_frame in He. lia. }
  set (st' := mk_ast _ _ _ _).
  assert (Hte : forall i, s_temps st' i = if i =? t then set_slot (frame_reg T) (current_frame_offset st) (s_temps st t) else s_temps st i) by done.
  assert (Hfr : forall i, framed st' i = (i =? t) || framed st i).
  { intros i. unfold framed. rewrite Hte. destruct (Z.eqb_spec i t) as [->|]; [|done]. cbn. by rewrite Hg. }
  split_and!; try done. constructor.
  - intros r. destruct (w_own _ Hw r) as [|Ho]; [by left|right]. unfold own in *. cbn [st' reg_to_temp].
    rewrite Hte. by destruct (Z.eqb_spec (reg_to_temp st r) t) as [<-|].
  - intros i Hi Hfi. rewrite Hte. cbn [st' reg_to_temp].
    destruct (Z.eqb_spec i t) as [->|Hne]; by apply (w_reg _ Hw).
  - intros i Hi. rewrite Hte. destruct (Z.eqb_spec i t) as [->|]; by apply (w_fixed _ Hw).
  - intros i Hi Hfi. rewrite Hte. destruct (Z.eqb_spec i t) as [->|]; [congruence|]. by apply (w_global _ Hw).
  - intros i Hi. rewrite Hfr, Hte. cbn [st' current_frame_offset].
    destruct (Z.eqb_spec i t) as [->|]; cbn [orb]; [|intros Hfi].
    + intros _. unfold frame_count in Hc. cbn. lia.
    + destruct (w_frame _ Hw i Hi Hfi) as (-> & ? & ?). lia.
  - intros t1 t2 H1 H2. rewrite !Hfr, !Hte.
    destruct (Z.eqb_spec t1 t) as [->|], (Z.eqb_spec t2 t) as [->|]; cbn [orb]; intros F1 F2 He; try done.
    + destruct (w_frame _ Hw t2 H2 F2) as (_ & _ & ?). cbn in He. lia.
    + destruct (w_frame _ Hw t1 H1 F1) as (_ & _ & ?). cbn in He. lia.
    + by apply (w_inj _ Hw).
  - cbn [st' current_frame_offset]. unfold frame_count.
    rewrite (filter_one_more (framed st) (framed st') _ t); [lia|apply NoDup_seqZ|by apply in_seqZ|done| |].
    + rewrite Hfr, Z.eqb_refl. done.
    + intros i Hne. rewrite Hfr. by destruct (Z.eqb_spec i t).
  - intros i Hi Hfi. rewrite Hte. destruct (Z.eqb_spec i t) as [->|]; [done|]. by apply (w_coh _ Hw).
Qed.

(** ** Values in their places *)

Section Dyn.
Context (N : Z -> bool) (E : env) (Mb : hmem).

(** The place of [t] has its value. *)
Definition loc (ts : TCGTemp) (R : hregs) (M : hmem) (t : Z) : Prop :=
  match val_type ts with
  | TEMP_VAL_DEAD => True
  | TEMP_VAL_REG => holds s E t (R (treg ts))
  | TEMP_VAL_MEM => mem_allocated ts = true -> holds s E t (M (slot ts))
  | TEMP_VAL_CONST => holds s E t (tval ts)
  end.

(** The variables of [N] are in their places, slots said to be coherent are,
    and other memory is as in [Mb]. *)
Record dyn (st : astate) (R : hregs) (M : hmem) : Prop := {
  d_val : forall t, in_temps t = true -> N t = true -> loc (s_temps st t) R M t;
  d_coh : forall t, in_temps t = true -> fixed t = false -> val_type (s_temps st t) = TEMP_VAL_REG ->
    mem_coherent (s_temps st t) = true ->
    low (ty t) (R (treg (s_temps st t))) = low (ty t) (M (slot (s_temps st t)));
  d_frame : forall c, ~ stack_slot T c ->
    (forall t, in_temps t = true -> fixed t = false -> mem_allocated (s_temps st t) = true ->
       slot (s_temps st t) <> c) -> M c = Mb c;
}.

Lemma dyn_temps st st' R M :
  (forall t, s_temps st' t = s_temps st t) -> dyn st R M -> dyn st' R M.
Proof.
  intros He [H1 H2 H3]. constructor; intros *; rewrite ?He; auto.
  intros Hc Hs. apply H3; [done|]. intros t. specialize (Hs t). by rewrite He in Hs.
Qed.

(** Another place for [t]. *)
Lemma dyn_upd st st' t R M :
  (forall i, i <> t -> s_temps st' i = s_temps st i) -> same_slot (s_temps st t) (s_temps st' t) ->
  (N t = true -> loc (s_temps st' t) R M t) ->
  (fixed t = false -> val_type (s_temps st' t) = TEMP_VAL_REG -> mem_coherent (s_temps st' t) = true ->
   low (ty t) (R (treg (s_temps st' t))) = low (ty t) (M (slot (s_temps st' t)))) ->
  dyn st R M -> dyn st' R M.
Proof.
  intros He [Hs Ha] Hv Hc [H1 H2 H3]. constructor.
  - intros i Hi HN. destruct (decide (i = t)) as [->|Hne]; [auto|]. rewrite He by done. auto.
  - intros i Hi Hf. destruct (decide (i = t)) as [->|Hne]; [auto|]. rewrite He by done. auto.
  - intros c Hst Hsl. apply H3; [done|]. intros i Hi Hf Hai. specialize (Hsl i Hi Hf).
    destruct (decide (i = t)) as [->|Hne]; [rewrite Hs, Ha in Hsl|rewrite He in Hsl by done]; auto.
Qed.

(** A slot for a variable that had none. *)
Lemma dyn_slot st st' t R M :
  wf_st st -> in_temps t = true -> fixed t = false -> mem_allocated (s_temps st t) = false ->
  (forall i, s_temps st' i = if i =? t then set_slot (frame_reg T) (current_frame_offset st) (s_temps st t)
             else s_temps st i) ->
  (val_type (s_temps st t) = TEMP_VAL_MEM -> N t = false) -> dyn st R M -> dyn st' R M.
Proof.
  intros Hw Ht Hf Ha He Hm [H1 H2 H3]. constructor.
  - intros i Hi HN. rewrite He. destruct (Z.eqb_spec i t) as [->|]; [|auto].
    specialize (H1 t Hi HN). unfold loc in *. cbn.
    destruct (val_type (s_temps st t)) eqn:Hv; try done. rewrite Hm in HN; done.
  - intros i Hi Hfi. rewrite He. destruct (Z.eqb_spec i t) as [->|]; [|auto]. cbn. intros Hv Hc.
    pose proof (w_coh _ Hw t Ht Hf Hv Hc). congruence.
  - intros c Hst Hsl. apply H3; [done|]. intros i Hi Hfi Hai. specialize (Hsl i Hi Hfi).
    rewrite He in Hsl. destruct (Z.eqb_spec i t) as [Hit|]; [rewrite Hit in Hai; congruence|auto].
Qed.

(** A register nobody relies on is written. *)
Lemma dyn_setreg st R R' M d :
  wf_st st -> reserved d = false -> (forall r, r <> d -> R' r = R r) ->
  (forall t, in_temps t = true -> fixed t = false -> val_type (s_temps st t) = TEMP_VAL_REG ->
     treg (s_temps st t) = d -> N t = false /\ mem_coherent (s_temps st t) = false) ->
  dyn st R M -> dyn st R' M.
Proof.
  intros Hw Hd HR Hn [H1 H2 H3]. constructor; [| |done].
  - intros t Ht HN. specialize (H1 t Ht HN). unfold loc in *.
    destruct (val_type (s_temps st t)) eqn:Hv; try done. rewrite HR; [done|]. intros He.
    destruct (fixed t) eqn:Hf; [|destruct (Hn t Ht Hf Hv He); congruence].
    pose proof (fixed_reserved st t Hw Hf). congruence.
  - intros t Ht Hf Hv Hc. rewrite HR; [auto|]. intros He. destruct (Hn t Ht Hf Hv He). congruence.
Qed.

Lemma dyn_free_reg st R R' M d :
  wf_st st -> reserved d = false -> reg_to_temp st d = -1 -> (forall r, r <> d -> R' r = R r) ->
  dyn st R M -> dyn st R' M.
Proof.
  intros Hw Hd Hfree HR. apply (dyn_setreg st R R' M d); try done.
  intros t Ht Hf Hv He. pose proof (w_reg _ Hw t Ht Hf Hv). pose proof (neg_in t Ht). congruence.
Qed.

(** The slot of [t] is written. *)
Lemma dyn_store st R M M' t x :
  wf_st st -> in_temps t = true -> fixed t = false -> mem_allocated (s_temps st t) = true ->
  low (ty t) (M' (slot (s_temps st t))) = low (ty t) x ->
  (forall c, c <> slot (s_temps st t) -> M' c = M c) ->
  (val_type (s_temps st t) = TEMP_VAL_REG -> mem_coherent (s_temps st t) = true ->
   low (ty t) (R (treg (s_temps st t))) = low (ty t) x) ->
  (val_type (s_temps st t) = TEMP_VAL_MEM -> N t = true -> holds s E t x) ->
  dyn st R M -> dyn st R M'.
Proof.
  intros Hw Ht Hf Ha Hx Ho Hr Hm [H1 H2 H3].
  assert (Hsl : forall i, in_temps i = true -> fixed i = false -> mem_allocated (s_temps st i) = true ->
    i <> t -> M' (slot (s_temps st i)) = M (slot (s_temps st i))).
  { intros i Hi Hfi Hai Hne. apply Ho. intros He. apply Hne. by apply (slot_inj st). }
  constructor.
  - intros i Hi HN. specialize (H1 i Hi HN). unfold loc in *.
    destruct (val_type (s_temps st i)) eqn:Hv; try done. intros Hai.
    destruct (decide (i = t)) as [->|Hne]; [unfold holds in *; rewrite Hx; auto|].
    rewrite Hsl; auto. apply not_true_is_false. intros Hfi. destruct (w_fixed _ Hw i Hfi). congruence.
  - intros i Hi Hfi Hv Hc. destruct (decide (i = t)) as [->|Hne]; [rewrite Hx; auto|].
    rewrite Hsl; auto. by apply (w_coh _ Hw).
  - intros c Hst Hs. rewrite Ho; [by apply H3|]. intros ->. by apply (Hs t).
Qed.

(** A slot of the arguments of a call is written. *)
Lemma dyn_stack st R M M' c0 :
  wf_st st -> stack_slot T c0 -> (forall c, c <> c0 -> M' c = M c) -> dyn st R M -> dyn st R M'.
Proof.
  intros Hw Hc Ho [H1 H2 H3].
  assert (Hsl : forall i, in_temps i = true -> fixed i = false -> mem_allocated (s_temps st i) = true ->
    M' (slot (s_temps st i)) = M (slot (s_temps st i))).
  { intros i Hi Hfi Hai. apply Ho. intros He. rewrite <- He in Hc. by apply slot_not_stack in Hc. }
  constructor.
  - intros i Hi HN. specialize (H1 i Hi HN). unfold loc in *.
    destruct (val_type (s_temps st i)) eqn:Hv; try done. intros Hai. rewrite Hsl; auto.
    apply not_true_is_false. intros Hfi. destruct (w_fixed _ Hw i Hfi). congruence.
  - intros i Hi Hfi Hv Hco. rewrite Hsl; auto. by apply (w_coh _ Hw).
  - intros c Hst Hs. rewrite Ho by congruence. auto.
Qed.
End Dyn.

Lemma dyn_weaken (N N' : Z -> bool) E Mb st R M :
  (forall t, N' t = true -> N t = true) -> dyn N E Mb st R M -> dyn N' E Mb st R M.
Proof. intros HN [H1 H2 H3]. constructor; auto. Qed.

(** A value that is in its place. *)
Lemma dyn_gain (N N' : Z -> bool) E Mb st R M t :
  (forall i, N' i = true -> i <> t -> N i = true) -> loc E (s_temps st t) R M t ->
  dyn N E Mb st R M -> dyn N' E Mb st R M.
Proof.
  intros HN Hl [H1 H2 H3]. constructor; [|done..].
  intros i Hi HN'. destruct (decide (i = t)) as [->|]; auto.
Qed.
End Inv.
