(* ===== verification/TcgAllocMove.v ===== *)
(** * Moves between registers and memory

    The helpers of the register allocator of TCG: a variable is stored,
    loses its register to another, or gets one.  Each keeps the tables
    consistent, and the code it emits keeps the values in their places. *)

From S2P Require Import Prelude HostUtils BitField TcgOp TcgOpt TcgSem TcgMono TcgLive TcgAlloc TcgHost.
From S2P Require Import TcgAllocInv.

Lemma moves_app c1 c2 R M R' M' :
  moves (c1 ++ c2) R M R' M' <-> exists R1 M1, moves c1 R M R1 M1 /\ moves c2 R1 M1 R' M'.
Proof.
  revert R M. induction c1 as [|i c1 IH]; intros R M; cbn.
  - split; [by exists R, M|]. by intros (? & ? & [-> ->] & ?).
  - setoid_rewrite IH. split.
    + intros (R1 & M1 & H1 & R2 & M2 & H2 & H3). by exists R2, M2; split; [exists R1, M1|].
    + intros (R2 & M2 & (R1 & M1 & H1 & H2) & H3). by exists R1, M1; split; [|exists R2, M2].
Qed.

Section Moves.
Context (s : TCGContext) (T : TCGTarget) (global_reg : Z -> bool) (G : Z -> TCGTemp).
Context (Hctx : wf_ctx s = true) (HT : target_ok s T global_reg G).
Context (lacking : Prop) (Hlack : lacking \/ enough_frame s T).

(** The code before, and what is known of the machine after it. *)
Context (c0 : list hinsn) (I0 : hregs -> hmem -> Prop).

#[local] Abbreviation fixed := (fixed_reg s global_reg).
#[local] Abbreviation in_temps := (in_temps s).
#[local] Abbreviation ty := (temp_type s).
#[local] Abbreviation reserved r := (Z.testbit (reserved_regs T) r).
#[local] Abbreviation wf_st := (wf_st s T global_reg G).
#[local] Abbreviation dyn := (dyn s T global_reg).
#[local] Abbreviation ok := (ok lacking).
#[local] Abbreviation tcg_reg_sync := (tcg_reg_sync s T global_reg).
#[local] Abbreviation tcg_reg_free := (tcg_reg_free s T global_reg).
#[local] Abbreviation tcg_reg_alloc := (tcg_reg_alloc s T global_reg).

(** What has been emitted since brings the machine into [P]. *)
Definition reaches (st : astate) (P : hregs -> hmem -> Prop) : Prop :=
  exists c, out_code st = c0 ++ c /\ Forall (fun i => is_move i = true) c /\
    forall R0 M0 R M, I0 R0 M0 -> moves c R0 M0 R M -> P R M.

Lemma reaches_impl st (P Q : hregs -> hmem -> Prop) :
  (forall R M, P R M -> Q R M) -> reaches st P -> reaches st Q.
Proof. intros HPQ (c & Hc & Hm & HP). exists c. split_and!; [done..|eauto]. Qed.

Lemma reaches_and st (P Q : hregs -> hmem -> Prop) :
  reaches st P -> reaches st Q -> reaches st (fun R M => P R M /\ Q R M).
Proof.
  intros (c & Hc & Hm & HP) (c' & Hc' & _ & HQ). rewrite Hc in Hc'. apply app_inv_head in Hc' as <-.
  exists c. split_and!; [done..|eauto].
Qed.

Lemma reaches_code st st' P : out_code st' = out_code st -> reaches st P -> reaches st' P.
Proof. intros He (c & Hc & Hm & HP). exists c. by rewrite He. Qed.

Lemma reaches_emit st i (P Q : hregs -> hmem -> Prop) :
  is_move i = true -> (forall R M R' M', P R M -> hmove i R M R' M' -> Q R' M') -> reaches st P -> reaches (emit st i) Q.
Proof.
  intros Hi HPQ (c & Hc & Hm & HP). exists (c ++ [i]). cbn. split; [by rewrite Hc, app_assoc|].
  split; [by rewrite Forall_app, Forall_singleton|].
  intros R0 M0 R M HI (R1 & M1 & Hm1 & R2 & M2 & Hi2 & -> & ->)%moves_app. eauto.
Qed.

(** ** What spilling leaves as it was *)

Record spills (st st' : astate) : Prop := {
  sp_type : forall t, in_temps t = true ->
    val_type (s_temps st' t) = val_type (s_temps st t) \/
    val_type (s_temps st t) = TEMP_VAL_REG /\ fixed t = false /\
    val_type (s_temps st' t) = TEMP_VAL_MEM /\ mem_allocated (s_temps st' t) = true;
  sp_reg : forall t, treg (s_temps st' t) = treg (s_temps st t);
  sp_val : forall t, tval (s_temps st' t) = tval (s_temps st t);
  sp_coh : forall t, mem_coherent (s_temps st t) = true -> mem_coherent (s_temps st' t) = true;
  sp_slot : forall t, mem_allocated (s_temps st t) = true ->
    mem_allocated (s_temps st' t) = true /\ slot (s_temps st' t) = slot (s_temps st t);
  sp_new : forall t, in_temps t = true -> val_type (s_temps st t) <> TEMP_VAL_REG ->
    mem_allocated (s_temps st' t) = mem_allocated (s_temps st t);
  sp_own : forall r, reg_to_temp st' r = reg_to_temp st r \/ reg_to_temp st' r = -1;
  sp_code : forall P : hregs -> Prop, reaches st (fun R _ => P R) -> reaches st' (fun R _ => P R);
  sp_other : forall c (P : Z -> Prop),
    (forall t, in_temps t = true -> fixed t = false -> mem_allocated (s_temps st' t) = true ->
       slot (s_temps st' t) <> c) ->
    reaches st (fun _ M => P (M c)) -> reaches st' (fun _ M => P (M c));
}.

#[export] Instance spills_refl : Reflexive spills.
Proof. intros st. constructor; auto. Qed.

#[export] Instance spills_trans : Transitive spills.
Proof.
  intros x y z [A1 A2 A3 A4 A5 A6 A7 A8 A9] [B1 B2 B3 B4 B5 B6 B7 B8 B9]. constructor.
  - intros t Ht. destruct (A1 t Ht) as [Ha|(Ha1 & Ha2 & Ha3 & Ha4)], (B1 t Ht) as [Hb|(Hb1 & Hb2 & Hb3 & Hb4)].
    + left. congruence.
    + right. split_and!; congruence.
    + right. split_and!; try congruence. by apply B5.
    + congruence.
  - intros. by rewrite B2.
  - intros. by rewrite B3.
  - auto.
  - intros t Ha. destruct (A5 t Ha) as [Hy Hs]. destruct (B5 t Hy) as [Hz Hs']. split; congruence.
  - intros t Ht Hn. rewrite <- A6 by done. apply B6; [done|].
    destruct (A1 t Ht) as [->|(Ha & _)]; congruence.
  - intros r. destruct (A7 r), (B7 r); auto; [left|right]; congruence.
  - auto.
  - intros c P Hc HP. apply B9; [done|]. apply A9; [|done]. intros t Ht Hf Ha.
    destruct (B5 t Ha) as [Ha' He]. rewrite <- He. auto.
Qed.

(** ** Storing *)

(** What holds after a variable has been given a slot. *)
Definition slotted (st st' : astate) (t : Z) : Prop :=
  wf_st st' /\ mem_allocated (s_temps st' t) = true /\
  (forall i, i <> t -> s_temps st' i = s_temps st i) /\
  val_type (s_temps st' t) = val_type (s_temps st t) /\ treg (s_temps st' t) = treg (s_temps st t) /\
  tval (s_temps st' t) = tval (s_temps st t) /\
  mem_coherent (s_temps st' t) = mem_coherent (s_temps st t) /\
  (mem_allocated (s_temps st t) = true -> slot (s_temps st' t) = slot (s_temps st t)) /\
  reg_to_temp st' = reg_to_temp st /\ out_code st' = out_code st.

Lemma slot_for_ok st t :
  wf_st st -> in_temps t = true -> fixed t = false ->
  ok (if negb (mem_allocated (s_temps st t)) then temp_allocate_frame T st t else Ret st) (fun st' =>
    slotted st st' t /\
    forall N E Mb R M, (val_type (s_temps st t) = TEMP_VAL_MEM -> mem_allocated (s_temps st t) = false -> N t = false) ->
      dyn N E Mb st R M -> dyn N E Mb st' R M).
Proof.
  intros Hw Ht Hf. destruct (mem_allocated (s_temps st t)) eqn:Ha; cbn [negb].
  { cbn. split; [|done]. unfold slotted. by rewrite Ha. }
  assert (Hg : is_global s t = false).
  { apply not_true_is_false. intros Hg. destruct (w_global _ _ _ _ _ Hw t Hg Hf). congruence. }
  eapply ok_mono; [by apply temp_allocate_frame_ok|].
  intros st' (Hw' & He & Hr & Hc). split.
  - unfold slotted. rewrite He, Z.eqb_refl. split_and!; try done.
    + intros i Hi. rewrite He. by destruct (Z.eqb_spec i t).
    + congruence.
  - intros N E Mb R M HN. eapply dyn_slot; try done. intros ?. by apply HN.
Qed.

(** What is in other slots than [c] stays. *)
Definition other_slots (st st' : astate) (c : Z * Z) : Prop :=
  forall c' (P : Z -> Prop), c' <> c -> reaches st (fun _ M => P (M c')) -> reaches st' (fun _ M => P (M c')).

Lemma tcg_reg_sync_ok N E Mb st r t :
  wf_st st -> reg_to_temp st r = t -> t <> -1 -> reaches st (dyn N E Mb st) ->
  ok (tcg_reg_sync st r) (fun st' =>
    wf_st st' /\ reaches st' (dyn N E Mb st') /\ spills st st' /\ reg_to_temp st' = reg_to_temp st /\
    (forall i, i <> t -> s_temps st' i = s_temps st i) /\
    val_type (s_temps st' t) = TEMP_VAL_REG /\ mem_coherent (s_temps st' t) = true /\
    mem_allocated (s_temps st' t) = true /\ other_slots st st' (slot (s_temps st' t))).
Proof.
  intros Hw Hr Hne Hd. unfold TcgAlloc.tcg_reg_sync. rewrite Hr.
  destruct (w_own _ _ _ _ _ Hw r) as [|(Ht & Hf & Hv & Hreg & _)]; [congruence|]. rewrite Hr in *.
  destruct (Z.ltb_spec t 0); [unfold TcgOpt.in_temps in Ht; lia|].
  rewrite (bool_decide_eq_true_2 _ Hv), Hf. cbn [negb]. rewrite andb_true_r.
  destruct (mem_coherent (s_temps st t)) eqn:Hco; cbn [negb].
  { pose proof (w_coh _ _ _ _ _ Hw t Ht Hf Hv Hco) as Ha. cbn -[upd_temp].
    assert (He : forall i, s_temps (upd_temp st t (set_coherent true)) i = s_temps st i).
    { intros i. rewrite temps_upd. destruct (Z.eqb_spec i t) as [->|]; [|done].
      destruct (s_temps st t). cbn in *. by rewrite Hco. }
    split_and!; [by apply wf_coherent| | |done|by intros i _; rewrite He|by rewrite He..|].
    - eapply reaches_impl; [|by eapply reaches_code; [|exact Hd]]. intros R M. by apply dyn_temps.
    - constructor; intros *; rewrite ?He; auto.
    - intros c' P _. by apply reaches_code. }
  apply ok_bind. eapply ok_bind'; [by apply slot_for_ok|].
  intros st1 ((Hw1 & Ha1 & Hi1 & Hv1 & Hr1 & Ht1 & Hc1 & Hs1 & Hrt1 & Hoc1) & Hd1).
  set (st2 := emit st1 _). cbn [TcgAllocInv.ok].
  assert (He : forall i, i <> t -> s_temps (upd_temp st2 t (set_coherent true)) i = s_temps st i).
  { intros i Hi. rewrite temps_upd. destruct (Z.eqb_spec i t); [done|]. by apply Hi1. }
  assert (Het : s_temps (upd_temp st2 t (set_coherent true)) t = set_coherent true (s_temps st1 t))
    by (by rewrite temps_upd, Z.eqb_refl).
  split_and!; try done; rewrite ?Het; cbn; try congruence.
  - by apply wf_coherent; [apply (wf_same s T global_reg G st1)| | |].
  - eapply (reaches_code st2); [done|]. apply (reaches_emit st1 _ (dyn N E Mb st1)); [done|..].
    + intros R M R' M' HdR (Hm & Ho & ->). eapply (dyn_upd s T global_reg N E Mb st1 _ t); try done.
      * intros i Hi. rewrite temps_upd. by destruct (Z.eqb_spec i t).
      * by rewrite Het.
      * rewrite Het. intros HN. pose proof (d_val _ _ _ _ _ _ _ _ _ HdR t Ht HN) as Hl.
        unfold loc in *. cbn. by rewrite Hv1, Hv in *.
      * rewrite Het. cbn. intros _ _ _. unfold slot in Hm. rewrite Hr1, Hreg. symmetry. apply Hm.
      * eapply (dyn_store s T global_reg G HT N E Mb st1 R M M' t (R r)); try done; [congruence|].
        intros HN. congruence.
    + eapply reaches_impl; [intros R M; apply Hd1; congruence|]. by eapply reaches_code; [|exact Hd].
  - constructor.
    + intros i Hi. left. destruct (decide (i = t)) as [->|Hni]; [rewrite Het; cbn; congruence|by rewrite He].
    + intros i. destruct (decide (i = t)) as [->|Hni]; [rewrite Het; cbn; congruence|by rewrite He].
    + intros i. destruct (decide (i = t)) as [->|Hni]; [rewrite Het; cbn; congruence|by rewrite He].
    + intros i. destruct (decide (i = t)) as [->|Hni]; [by rewrite Het|by rewrite He].
    + intros i. destruct (decide (i = t)) as [->|Hni]; [rewrite Het|by rewrite He].
      intros Hai. split; [done|by apply Hs1].
    + intros i Hi Hnv. destruct (decide (i = t)) as [->|Hni]; [congruence|by rewrite He].
    + intros r'. left. cbn. by rewrite Hrt1.
    + intros P HP. eapply (reaches_code st2); [done|].
      apply (reaches_emit st1 _ (fun R _ => P R)); [done|by intros R M R' M' HPR (_ & _ & ->)|].
      by eapply reaches_code; [|exact HP].
    + intros c' P Hcs HP. eapply (reaches_code st2); [done|].
      apply (reaches_emit st1 _ (fun _ M => P (M c'))); [done| |by eapply reaches_code; [|exact HP]].
      intros R M R' M' HPM (_ & Ho & _). rewrite Ho; [done|]. specialize (Hcs t Ht Hf). rewrite Het in Hcs.
      intros ->. by apply Hcs.
  - intros c' P Hc HP. eapply (reaches_code st2); [done|].
    apply (reaches_emit st1 _ (fun _ M => P (M c'))); [done| |by eapply reaches_code; [|exact HP]].
    intros R M R' M' HPM (_ & Ho & _). rewrite Ho; [done|]. exact Hc.
Qed.

(** ** Freeing and allocating a register *)

(** Register [r] has been made free. *)
Record freed (st st' : astate) (r : Z) : Prop := {
  fr_spills : spills st st';
  fr_free : reg_to_temp st' r = -1;
  fr_others : forall r', r' <> r -> reg_to_temp st' r' = reg_to_temp st r';
  fr_temps : forall t, reg_to_temp st r <> t -> s_temps st' t = s_temps st t;
  fr_owner : reg_to_temp st r <> -1 -> mem_allocated (s_temps st' (reg_to_temp st r)) = true;
  fr_mem : forall c (P : Z -> Prop),
    (reg_to_temp st r <> -1 -> slot (s_temps st' (reg_to_temp st r)) <> c) ->
    reaches st (fun _ M => P (M c)) -> reaches st' (fun _ M => P (M c));
}.

Lemma tcg_reg_free_ok N E Mb st r :
  wf_st st -> reaches st (dyn N E Mb st) ->
  ok (tcg_reg_free st r) (fun st' => wf_st st' /\ reaches st' (dyn N E Mb st') /\ freed st st' r).
Proof.
  intros Hw Hd. unfold TcgAlloc.tcg_reg_free. destruct (Z.eqb_spec (reg_to_temp st r) (-1)) as [Hr|Hne].
  { cbn. split_and!; [done..|]. by constructor. }
  remember (reg_to_temp st r) as t eqn:Ht.
  destruct (w_own _ _ _ _ _ Hw r) as [|Ho]; [congruence|]. rewrite <- Ht in Ho.
  destruct Ho as (Hin & Hf & Hv & Hreg & _).
  eapply ok_bind'; [by apply (tcg_reg_sync_ok N E Mb st r t)|].
  intros st1 (Hw1 & Hd1 & Hsp & Hrt & Hi & Hv1 & Hc1 & Ha1 & Hot). cbn [TcgAllocInv.ok].
  assert (Hr1 : treg (s_temps st1 t) = r) by (by rewrite (sp_reg _ _ Hsp)).
  set (st2 := set_reg_to_temp _ _ _).
  assert (He : forall i, s_temps st2 i = if i =? t then set_val_type TEMP_VAL_MEM (s_temps st1 t) else s_temps st1 i) by done.
  split_and!.
  - apply (wf_same s T global_reg G (upd_temp (drop_reg st1 t) t (set_val_type TEMP_VAL_MEM)));
      [|by apply wf_leave].
    unfold drop_reg. rewrite (bool_decide_eq_true_2 _ Hv1), Hr1. by constructor.
  - eapply reaches_impl; [|by eapply reaches_code; [|exact Hd1]].
    intros R M HdR. apply (dyn_upd s T global_reg N E Mb st1 _ t); try done.
    + intros i Hni. rewrite He. by destruct (Z.eqb_spec i t).
    + by rewrite He, Z.eqb_refl.
    + rewrite He, Z.eqb_refl. intros HN Ha. pose proof (d_val _ _ _ _ _ _ _ _ _ HdR t Hin HN) as Hl.
      unfold loc in Hl. rewrite Hv1 in Hl. unfold holds in *.
      change (slot (set_val_type TEMP_VAL_MEM (s_temps st1 t))) with (slot (s_temps st1 t)).
      by rewrite <- (d_coh _ _ _ _ _ _ _ _ _ HdR t Hin Hf Hv1 Hc1).
    + rewrite He, Z.eqb_refl. done.
  - constructor.
    + etrans; [exact Hsp|]. constructor; intros *; rewrite ?He; auto.
      * intros Hi'. destruct (Z.eqb_spec t0 t) as [->|]; [by right|by left].
      * by destruct (Z.eqb_spec t0 t) as [->|].
      * by destruct (Z.eqb_spec t0 t) as [->|].
      * by destruct (Z.eqb_spec t0 t) as [->|].
      * by destruct (Z.eqb_spec t0 t) as [->|].
      * by destruct (Z.eqb_spec t0 t) as [->|].
      * cbn. destruct (Z.eqb_spec r0 r); [by right|by left].
    + cbn. by rewrite Z.eqb_refl.
    + intros r' Hr'. cbn. rewrite Hrt. by destruct (Z.eqb_spec r' r).
    + intros i Hni. rewrite He. destruct (Z.eqb_spec i t) as [->|]; [congruence|]. apply Hi. congruence.
    + intros _. by rewrite <- Ht, He, Z.eqb_refl.
    + intros c P Hcs HP. rewrite <- Ht in Hcs. specialize (Hcs Hne). rewrite He, Z.eqb_refl in Hcs.
      apply (reaches_code st1); [done|]. apply Hot; [|done]. exact (not_eq_sym Hcs).
Qed.

(** A variable that is not in a register is not touched when one is freed. *)
Lemma freed_keeps st st' r a :
  wf_st st -> in_temps a = true -> val_type (s_temps st a) <> TEMP_VAL_REG ->
  freed st st' r -> s_temps st' a = s_temps st a.
Proof.
  intros Hw Ht Hv Hf. apply (fr_temps _ _ _ Hf). intros He.
  destruct (w_own _ _ _ _ _ Hw r) as [Hm|(_ & _ & Hvr & _)]; [apply neg_in in Ht|rewrite He in Hvr]; congruence.
Qed.

(** There is a register left of [reg1] when those of [reg2] are taken. *)
Definition available (reg1 reg2 : Z) : Prop :=
  exists r, r ∈ tcg_target_reg_alloc_order T /\ Z.testbit (Z.ldiff reg1 reg2) r = true.

Record allocated (st : astate) (reg1 reg2 : Z) (rs : Z * astate) : Prop := {
  al_freed : freed st rs.2 rs.1;
  al_in : Z.testbit reg1 rs.1 = true;
  al_out : Z.testbit reg2 rs.1 = false;
  al_range : 0 <= rs.1 < TCG_TARGET_NB_REGS T;
}.

Lemma tcg_reg_alloc_ok N E Mb st reg1 reg2 :
  wf_st st -> reaches st (dyn N E Mb st) -> lacking \/ available reg1 reg2 ->
  ok (tcg_reg_alloc st reg1 reg2) (fun rs =>
    wf_st rs.2 /\ reaches rs.2 (dyn N E Mb rs.2) /\ allocated st reg1 reg2 rs).
Proof.
  intros Hw Hd Hav. unfold TcgAlloc.tcg_reg_alloc.
  assert (Hbit : forall r, r ∈ tcg_target_reg_alloc_order T -> Z.testbit (Z.ldiff reg1 reg2) r = true ->
    Z.testbit reg1 r = true /\ Z.testbit reg2 r = false /\ 0 <= r < TCG_TARGET_NB_REGS T).
  { intros r Hin Hb. pose proof (t_order _ _ _ _ HT r Hin) as Hr.
    rewrite Z.ldiff_spec in Hb. by apply andb_true_iff in Hb as [? ?%negb_true_iff]. }
  destruct (List.find (fun r => _ && _) _) as [r|] eqn:Hf1.
  { apply List.find_some in Hf1 as [Hin [Hb Hr%Z.eqb_eq]%andb_true_iff]. apply list_elem_of_In in Hin.
    destruct (Hbit r Hin Hb) as (? & ? & ?). cbn. split_and!; [done..|]. by constructor; [constructor|..]. }
  clear Hf1. destruct (List.find _ _) as [r|] eqn:Hf2.
  - apply List.find_some in Hf2 as [Hin Hb]. apply list_elem_of_In in Hin.
    destruct (Hbit r Hin Hb) as (? & ? & ?).
    eapply ok_bind'; [by apply (tcg_reg_free_ok N E Mb)|]. cbn. intros st' (Hw' & Hd' & Hfr).
    split_and!; [done..|]. by constructor.
  - cbn. split; [done|]. destruct Hav as [|(r & Hin & Hb)]; [done|].
    apply list_elem_of_In in Hin. pose proof (List.find_none _ _ Hf2 r Hin). congruence.
Qed.

(** ** Dead variables *)

#[local] Abbreviation temp_dead := (temp_dead s global_reg).

(** Where a variable is whose value in a register is not used. *)
Definition canonical (t : Z) : temp_val :=
  if is_global s t || temp_local s t then TEMP_VAL_MEM else TEMP_VAL_DEAD.

(** Memory has the value. *)
Definition in_mem (ts : TCGTemp) : Prop :=
  val_type ts = TEMP_VAL_MEM \/ val_type ts = TEMP_VAL_REG /\ mem_coherent ts = true.

(** There is a value, and memory to read it from. *)
Definition readable (ts : TCGTemp) : Prop :=
  val_type ts <> TEMP_VAL_DEAD /\ (val_type ts = TEMP_VAL_MEM -> mem_allocated ts = true).

Lemma temps_dead st t i :
  s_temps (temp_dead st t) i =
    if (i =? t) && negb (fixed t) then set_val_type (canonical t) (s_temps st t) else s_temps st i.
Proof.
  unfold TcgAlloc.temp_dead. destruct (fixed t) eqn:Hf; [by rewrite andb_false_r|].
  rewrite temps_upd, temps_drop, andb_true_r. done.
Qed.

Lemma canonical_not_reg t : canonical t <> TEMP_VAL_REG.
Proof. unfold canonical. by destruct (_ || _). Qed.

Lemma code_dead st t : out_code (temp_dead st t) = out_code st.
Proof. unfold TcgAlloc.temp_dead. destruct (fixed t); [done|]. apply code_drop. Qed.

Lemma regs_dead st t r :
  wf_st st -> in_temps t = true ->
  reg_to_temp (temp_dead st t) r =
    if (reg_to_temp st r =? t) && negb (fixed t) then -1 else reg_to_temp st r.
Proof.
  intros Hw Ht. unfold TcgAlloc.temp_dead. destruct (fixed t) eqn:Hf; [by rewrite andb_false_r|].
  rewrite andb_true_r. apply (regs_drop s T global_reg G); done.
Qed.

Lemma wf_dead st t : wf_st st -> in_temps t = true -> wf_st (temp_dead st t).
Proof.
  intros Hw Ht. unfold TcgAlloc.temp_dead. destruct (fixed t) eqn:Hf; [done|].
  apply wf_leave; try done. apply canonical_not_reg.
Qed.

Lemma dyn_dead N E Mb st R M t :
  in_temps t = true -> (fixed t = false -> N t = true -> in_mem (s_temps st t)) ->
  dyn N E Mb st R M -> dyn N E Mb (temp_dead st t) R M.
Proof.
  intros Ht Hm Hd. destruct (fixed t) eqn:Hf.
  { unfold TcgAlloc.temp_dead. by rewrite Hf. }
  assert (He : s_temps (temp_dead st t) t = set_val_type (canonical t) (s_temps st t))
    by (by rewrite temps_dead, Z.eqb_refl, Hf).
  apply (dyn_upd s T global_reg N E Mb st _ t); try done.
  - intros i Hi. rewrite temps_dead. by destruct (Z.eqb_spec i t).
  - by rewrite He.
  - rewrite He. intros HN. unfold loc. cbn [set_val_type val_type].
    destruct (canonical t) eqn:Hc; try (unfold canonical in Hc; by destruct (_ || _)).
    intros Ha. pose proof (d_val _ _ _ _ _ _ _ _ _ Hd t Ht HN) as Hl. unfold loc in Hl.
    destruct (Hm eq_refl HN) as [Hv|[Hv Hco]]; rewrite Hv in Hl; [by apply Hl|].
    unfold holds in *. change (slot (set_val_type TEMP_VAL_MEM (s_temps st t))) with (slot (s_temps st t)).
    by rewrite <- (d_coh _ _ _ _ _ _ _ _ _ Hd t Ht Hf Hv Hco).
  - rewrite He. cbn. intros _ Hv. by destruct (canonical_not_reg t).
Qed.

(** ** The sets of the liveness analysis *)

(** The tables are as the liveness analysis promises: [l] are its sets, [D]
    the variables that have been written. *)
Record stat (l : la) (D : Z -> bool) (st : astate) : Prop := {
  s_wf : wf_st st;
  s_mem : forall t, in_temps t = true -> fixed t = false -> mem_temps l t = true -> in_mem (s_temps st t);
  s_dead : forall t, in_temps t = true -> fixed t = false -> dead_temps l t = true ->
    val_type (s_temps st t) = canonical t;
  s_def : forall t, in_temps t = true -> D t = true -> dead_temps l t = false \/ mem_temps l t = true ->
    readable (s_temps st t);
}.

Lemma in_mem_spills st st' t :
  in_temps t = true -> spills st st' -> in_mem (s_temps st t) -> in_mem (s_temps st' t).
Proof.
  intros Ht [S1 _ _ S4 _ _ _ _ _] [Hv|[Hv Hc]]; unfold in_mem;
    destruct (S1 t Ht) as [->|(? & ? & -> & ?)]; rewrite ?Hv; auto.
Qed.

Lemma readable_spills st st' t :
  in_temps t = true -> spills st st' -> readable (s_temps st t) -> readable (s_temps st' t).
Proof.
  intros Ht [S1 _ _ _ S5 _ _ _ _] [Hn Ha]. unfold readable. destruct (S1 t Ht) as [->|(? & ? & -> & ?)]; [|done].
  split; [done|]. intros Hv. apply S5. auto.
Qed.

Lemma canonical_spills st st' t :
  in_temps t = true -> spills st st' -> val_type (s_temps st t) = canonical t ->
  val_type (s_temps st' t) = canonical t.
Proof.
  intros Ht [S1 _ _ _ _ _ _ _ _] Hc. destruct (S1 t Ht) as [->|(Hv & _)]; [done|].
  rewrite Hv in Hc. by destruct (canonical_not_reg t).
Qed.

Lemma stat_spills l D st st' : stat l D st -> wf_st st' -> spills st st' -> stat l D st'.
Proof.
  intros [H1 H2 H3 H4] Hw Hs. constructor; [done|..]; intros t Ht **.
  - eapply in_mem_spills; eauto.
  - eapply canonical_spills; eauto.
  - eapply readable_spills; eauto.
Qed.

(** Sets that promise less. *)
Lemma stat_weaken (l l' : la) D st :
  (forall t, in_temps t = true -> mem_temps l' t = true -> mem_temps l t = true) ->
  (forall t, in_temps t = true -> dead_temps l' t = true -> dead_temps l t = true) ->
  (forall t, in_temps t = true -> dead_temps l' t = false \/ mem_temps l' t = true ->
     dead_temps l t = false \/ mem_temps l t = true) ->
  stat l D st -> stat l' D st.
Proof. intros Hm Hd Hn [H1 H2 H3 H4]. constructor; auto. Qed.

(** ** Evolution of the tables *)

(** A variable in memory without a slot: a local temporary nothing has been
    stored in yet. *)
Definition bare (ts : TCGTemp) : Prop := val_type ts = TEMP_VAL_MEM /\ mem_allocated ts = false.

(** What stays while operands are brought into registers; those in [ins] may
    be loaded. *)
Record evolves (ins : list Z) (st st' : astate) : Prop := {
  ev_mem : forall t, in_temps t = true -> in_mem (s_temps st t) -> in_mem (s_temps st' t);
  ev_read : forall t, in_temps t = true -> readable (s_temps st t) -> readable (s_temps st' t);
  ev_rest : forall t, in_temps t = true -> t ∉ ins -> val_type (s_temps st t) = canonical t ->
    val_type (s_temps st' t) = canonical t;
  ev_bare : forall t, in_temps t = true -> bare (s_temps st' t) -> bare (s_temps st t);
  ev_slot : forall t, mem_allocated (s_temps st t) = true ->
    mem_allocated (s_temps st' t) = true /\ slot (s_temps st' t) = slot (s_temps st t);
  ev_const : forall t, in_temps t = true -> val_type (s_temps st' t) = TEMP_VAL_CONST ->
    val_type (s_temps st t) = TEMP_VAL_CONST;
}.

#[export] Instance evolves_refl ins : Reflexive (evolves ins).
Proof. intros st. by constructor. Qed.

#[export] Instance evolves_trans ins : Transitive (evolves ins).
Proof.
  intros x y z [A1 A2 A3 A4 A5 A6] [B1 B2 B3 B4 B5 B6]. constructor; auto.
  intros t Ha. destruct (A5 t Ha) as [Hy Hs]. destruct (B5 t Hy) as [Hz Hs']. split; congruence.
Qed.

Lemma const_spills st st' t :
  in_temps t = true -> spills st st' -> val_type (s_temps st' t) = TEMP_VAL_CONST ->
  val_type (s_temps st t) = TEMP_VAL_CONST.
Proof. intros Ht [S1 _ _ _ _ _ _ _ _] Hv. destruct (S1 t Ht) as [<-|(_ & _ & ? & _)]; congruence. Qed.

Lemma bare_spills st st' t :
  in_temps t = true -> spills st st' -> bare (s_temps st' t) -> bare (s_temps st t).
Proof.
  intros Ht [S1 _ _ _ _ S6 _ _ _] [Hv Ha]. destruct (S1 t Ht) as [He|(_ & _ & _ & ?)]; [|congruence].
  split; [congruence|]. rewrite <- S6; congruence.
Qed.

Lemma evolves_spills ins st st' : spills st st' -> evolves ins st st'.
Proof.
  intros Hs. constructor; intros t.
  - intros Ht. by apply in_mem_spills.
  - intros Ht. by apply readable_spills.
  - intros Ht _. by apply canonical_spills.
  - intros Ht. by apply bare_spills.
  - apply (sp_slot _ _ Hs).
  - intros Ht. by apply const_spills.
Qed.

(** The place of one operand changes to a register. *)
Lemma evolves_load ins st st' t :
  t ∈ ins -> (forall i, i <> t -> s_temps st' i = s_temps st i) ->
  val_type (s_temps st' t) = TEMP_VAL_REG -> same_slot (s_temps st t) (s_temps st' t) ->
  (in_mem (s_temps st t) -> mem_coherent (s_temps st' t) = true) -> evolves ins st st'.
Proof.
  intros Ht He Hv [Hs Ha] Hm.
  constructor; intros i; (destruct (decide (i = t)) as [->|Hne]; [|by rewrite ?(He i Hne)]).
  - intros _ Hi. right. auto.
  - intros _ _. split; rewrite Hv; done.
  - done.
  - intros _ [? _]. congruence.
  - intros Hal. split; congruence.
  - congruence.
Qed.

Lemma evolves_same ins st st' : (forall t, s_temps st' t = s_temps st t) -> evolves ins st st'.
Proof. intros He. constructor; intros t; by rewrite ?He. Qed.
End Moves.
