(* ===== verification/TcgAllocLive.v ===== *)
(** * What the liveness analysis tells the register allocator

    The bits of [op_dead_args] and [op_sync_args] and the sets before an
    operation, in terms of the sets after it. *)

From S2P Require Import Prelude HostUtils BitField TcgOp TcgOpt TcgSem TcgMono TcgInv TcgGood TcgCorrect.
From S2P Require Import TcgFrame TcgLive TcgLiveness.

Lemma testbit_set_16 d i j :
  0 <= i -> 0 <= j < 16 -> Z.testbit (u16 (d ||| (1 << i))) j = Z.testbit d j || (j =? i).
Proof.
  intros Hi Hj. rewrite testbit_wrap by lia. rewrite Z.lor_spec.
  rewrite Z.shiftl_spec by lia. destruct (Z.ltb_spec j 16); [|lia]. cbn [andb]. f_equal.
  destruct (Z.eqb_spec j i) as [->|Hne]; [by rewrite Z.sub_diag|].
  destruct (Z.ltb_spec j i); [by rewrite Z.testbit_neg_r by lia|].
  change 1 with (2 ^ 0). rewrite Z.pow2_bits_false; [done|lia].
Qed.

Lemma testbit_set_8 d i j :
  0 <= i -> 0 <= j < 8 -> Z.testbit (u8 (d ||| (1 << i))) j = Z.testbit d j || (j =? i).
Proof.
  intros Hi Hj. rewrite <- (testbit_set_16 d i j Hi) by lia.
  rewrite !testbit_wrap by lia. destruct (Z.ltb_spec j 8), (Z.ltb_spec j 16); done || lia.
Qed.

(** ** Outputs *)

Lemma la_outputs_spec l i outs d y l1 d1 y1 :
  la_outputs l i outs d y = (l1, d1, y1) -> NoDup outs -> 0 <= i ->
  (forall t, dead_temps l1 t = bool_decide (t ∈ outs) || dead_temps l t) /\
  (forall t, mem_temps l1 t = bool_decide (t ∉ outs) && mem_temps l t) /\
  (forall k a, outs !! k = Some a -> i + Z.of_nat k < 16 ->
     Z.testbit d1 (i + Z.of_nat k) = Z.testbit d (i + Z.of_nat k) || dead_temps l a) /\
  (forall k a, outs !! k = Some a -> i + Z.of_nat k < 8 ->
     Z.testbit y1 (i + Z.of_nat k) = Z.testbit y (i + Z.of_nat k) || mem_temps l a) /\
  (forall j, 0 <= j < 16 -> j < i \/ i + Z.of_nat (length outs) <= j ->
     Z.testbit d1 j = Z.testbit d j) /\
  (forall j, 0 <= j < 8 -> j < i \/ i + Z.of_nat (length outs) <= j ->
     Z.testbit y1 j = Z.testbit y j).
Proof.
  intros He Hn. revert l i d y He. induction Hn as [|a outs Ha Hn IH]; intros l i d y He Hi.
  { cbn in He. by simplify_eq. }
  cbn [la_outputs] in He. apply IH in He as (I1 & I2 & I3 & I4 & I5 & I6); [|lia]. clear IH.
  assert (Hd : forall j, 0 <= j < 16 -> j <> i ->
    Z.testbit (if dead_temps l a then u16 (d ||| (1 << i)) else d) j = Z.testbit d j).
  { intros j Hj Hne. destruct (dead_temps l a); [|done]. rewrite testbit_set_16 by lia.
    destruct (Z.eqb_spec j i); [done|]. apply orb_false_r. }
  assert (Hy : forall j, 0 <= j < 8 -> j <> i ->
    Z.testbit (if mem_temps l a then u8 (y ||| (1 << i)) else y) j = Z.testbit y j).
  { intros j Hj Hne. destruct (mem_temps l a); [|done]. rewrite testbit_set_8 by lia.
    destruct (Z.eqb_spec j i); [done|]. apply orb_false_r. }
  assert (Hset : forall b (f : Z -> bool) k t, outs !! k = Some t -> set1 f a b t = f t).
  { intros b f k t Hk. unfold set1. destruct (Z.eqb_spec t a) as [->|]; [|done].
    by apply list_elem_of_lookup_2 in Hk. }
  split_and!.
  - intros t. rewrite I1. cbn. unfold set1. destruct (Z.eqb_spec t a) as [->|Hne].
    + rewrite (bool_decide_true (a ∈ a :: outs)) by set_solver. by rewrite orb_true_r.
    + f_equal. apply bool_decide_ext. set_solver.
  - intros t. rewrite I2. cbn. unfold set1. destruct (Z.eqb_spec t a) as [->|Hne].
    + rewrite (bool_decide_false (a ∉ a :: outs)) by set_solver. by rewrite andb_false_r.
    + f_equal. apply bool_decide_ext. set_solver.
  - intros [|k] b Hk Hb; cbn in Hk.
    + simplify_eq. rewrite Z.add_0_r. rewrite I5 by lia.
      destruct (dead_temps l b); [rewrite testbit_set_16 by lia; by rewrite Z.eqb_refl, orb_true_r|].
      by rewrite orb_false_r.
    + replace (i + Z.of_nat (S k)) with (i + 1 + Z.of_nat k) in * by lia.
      rewrite (I3 k b) by (done || lia). rewrite Hd by lia. cbn. by rewrite (Hset _ _ k b).
  - intros [|k] b Hk Hb; cbn in Hk.
    + simplify_eq. rewrite Z.add_0_r. rewrite I6 by lia.
      destruct (mem_temps l b); [rewrite testbit_set_8 by lia; by rewrite Z.eqb_refl, orb_true_r|].
      by rewrite orb_false_r.
    + replace (i + Z.of_nat (S k)) with (i + 1 + Z.of_nat k) in * by lia.
      rewrite (I4 k b) by (done || lia). rewrite Hy by lia. cbn. by rewrite (Hset _ _ k b).
  - intros j Hj Ho. cbn in Ho. rewrite I5 by lia. apply Hd; lia.
  - intros j Hj Ho. cbn in Ho. rewrite I6 by lia. apply Hy; lia.
Qed.

(** ** Inputs *)

Lemma la_inputs_spec call l i ins d l1 d1 :
  la_inputs call l i ins d = (l1, d1) -> 0 <= i ->
  Forall (fun a => call && (a =? TCG_CALL_DUMMY_ARG) = false) ins ->
  (forall t, dead_temps l1 t = bool_decide (t ∉ ins) && dead_temps l t) /\
  (forall t, mem_temps l1 t = mem_temps l t) /\
  (forall k a, ins !! k = Some a -> i + Z.of_nat k < 16 ->
     Z.testbit d1 (i + Z.of_nat k) =
       Z.testbit d (i + Z.of_nat k) || (dead_temps l a && bool_decide (a ∉ take k ins))) /\
  (forall j, 0 <= j < 16 -> j < i \/ i + Z.of_nat (length ins) <= j -> Z.testbit d1 j = Z.testbit d j).
Proof.
  intros He Hi Hd. revert l i d He Hi. induction Hd as [|a ins Ha Hn IH]; intros l i d He Hi.
  { cbn in He. by simplify_eq. }
  cbn [la_inputs] in He. rewrite Ha in He. apply IH in He as (I1 & I2 & I3 & I4); [|lia]. clear IH.
  assert (Hd : forall j, 0 <= j < 16 -> j <> i ->
    Z.testbit (if dead_temps l a then u16 (d ||| (1 << i)) else d) j = Z.testbit d j).
  { intros j Hj Hne. destruct (dead_temps l a); [|done]. rewrite testbit_set_16 by lia.
    destruct (Z.eqb_spec j i); [done|]. apply orb_false_r. }
  cbn [dead_temps mem_temps] in *. split_and!.
  - intros t. rewrite I1. unfold set1. destruct (Z.eqb_spec t a) as [->|Hne].
    + rewrite (bool_decide_false (a ∉ a :: ins)) by set_solver. by rewrite andb_false_r.
    + f_equal. apply bool_decide_ext. set_solver.
  - done.
  - intros [|k] b Hk Hb; cbn in Hk.
    + simplify_eq. rewrite Z.add_0_r. rewrite I4 by lia. cbn [take]. rewrite (bool_decide_true (b ∉ [])), andb_true_r by set_solver.
      destruct (dead_temps l b); [rewrite testbit_set_16 by lia; by rewrite Z.eqb_refl, orb_true_r|].
      by rewrite orb_false_r.
    + replace (i + Z.of_nat (S k)) with (i + 1 + Z.of_nat k) in * by lia.
      rewrite (I3 k b) by (done || lia). rewrite Hd by lia. f_equal. unfold set1. cbn [take firstn].
      destruct (Z.eqb_spec b a) as [->|Hne].
      * rewrite (bool_decide_false (a ∉ a :: _)) by set_solver. by rewrite andb_false_r.
      * f_equal. apply bool_decide_ext. set_solver.
  - intros j Hj Ho. cbn in Ho. rewrite I4 by lia. apply Hd; lia.
Qed.

(** ** One operation *)

Section Annot.
Context (s : TCGContext) (HAS_muluh HAS_mulsh : width -> bool).

#[local] Abbreviation live_op := (live_op s HAS_muluh HAS_mulsh).

(** The operands are there, are few enough for the bits, and the outputs
    are different. *)
Definition wf_shape (op : TCGOp) : bool :=
  Nat.leb (op_oargs op + op_iargs op) (length (args op)) &&
  Nat.leb (op_oargs op) 8 && Nat.leb (op_oargs op + op_iargs op) 16 &&
  bool_decide (NoDup (op_outputs op)).

Lemma wf_shape_spec op :
  wf_shape op = true ->
  length (op_outputs op) = op_oargs op /\ length (op_inputs op) = op_iargs op /\
  (op_oargs op <= 8)%nat /\ (op_oargs op + op_iargs op <= 16)%nat /\ NoDup (op_outputs op).
Proof.
  unfold wf_shape. rewrite !andb_true_iff, !Nat.leb_le, bool_decide_eq_true.
  intros [[[H1 H2] H3] H4]. unfold op_outputs, op_inputs in *.
  rewrite !length_firstn, length_skipn. split_and!; done || lia.
Qed.

(** A call may change the globals. *)
Definition kills_globals (op : TCGOp) : bool :=
  bool_decide (opc op = INDEX_op_call) &&
  negb (has_bits (call_flags op) (TCG_CALL_NO_WRITE_GLOBALS ||| TCG_CALL_NO_READ_GLOBALS)).

(** The sets between the outputs and the inputs of an operation. *)
Definition between (op : TCGOp) (l l2 : la) : Prop :=
  if ends_bb op then
    forall t, dead_temps l2 t = true /\ mem_temps l2 t = is_global s t || temp_local s t
  else
    forall t,
      dead_temps l2 t = kills_globals op && is_global s t ||
                        (bool_decide (t ∈ op_outputs op) || dead_temps l t) /\
      mem_temps l2 t = reads_globals op && is_global s t ||
                       (bool_decide (t ∉ op_outputs op) && mem_temps l t).

(** The bits of the arguments, and the sets before the inputs. *)
Record annotated (op : TCGOp) (l l2 l' : la) (da sa : Z) : Prop := {
  an_dead_out : forall k a, op_outputs op !! k = Some a ->
    Z.testbit da (Z.of_nat k) = dead_temps l a;
  an_sync_out : forall k a, op_outputs op !! k = Some a ->
    Z.testbit sa (Z.of_nat k) = mem_temps l a;
  an_dead_in : forall k a, op_inputs op !! k = Some a ->
    Z.testbit da (Z.of_nat (op_oargs op + k)) =
      dead_temps l2 a && bool_decide (a ∉ take k (op_inputs op));
  an_dead : forall t, dead_temps l' t = bool_decide (t ∉ op_inputs op) && dead_temps l2 t;
  an_mem : forall t, mem_temps l' t = mem_temps l2 t;
}.

Lemma annotated_intro op l l1 l2 l' call d1 sa da :
  wf_shape op = true -> la_outputs l 0 (op_outputs op) 0 0 = (l1, d1, sa) ->
  la_inputs call l2 (Z.of_nat (op_oargs op)) (op_inputs op) d1 = (l', da) ->
  Forall (fun a => call && (a =? TCG_CALL_DUMMY_ARG) = false) (op_inputs op) ->
  annotated op l l2 l' da sa.
Proof.
  intros (Ho & Hi & H8 & H16 & Hn)%wf_shape_spec H1 H2 Hd.
  apply la_outputs_spec in H1 as (_ & _ & A3 & A4 & A5 & _); [|done|done].
  apply la_inputs_spec in H2 as (B1 & B2 & B3 & B4); [|lia|done].
  constructor; try done.
  - intros k a Hk. pose proof (lookup_lt_Some _ _ _ Hk). rewrite B4 by lia.
    rewrite <- (Z.add_0_l (Z.of_nat k)). rewrite (A3 k a Hk) by lia. by rewrite Z.testbit_0_l.
  - intros k a Hk. pose proof (lookup_lt_Some _ _ _ Hk).
    rewrite <- (Z.add_0_l (Z.of_nat k)). rewrite (A4 k a Hk) by lia. by rewrite Z.testbit_0_l.
  - intros k a Hk. pose proof (lookup_lt_Some _ _ _ Hk). rewrite Nat2Z.inj_add.
    rewrite (B3 k a Hk) by lia. rewrite A5 by lia. by rewrite Z.testbit_0_l.
Qed.

Lemma not_dummy op : Forall (fun a => false && (a =? TCG_CALL_DUMMY_ARG) = false) (op_inputs op).
Proof. by apply Forall_true. Qed.

Lemma do_not_remove_annot l def op :
  opc op <> INDEX_op_call -> wf_shape op = true ->
  OPF_BB_END def = ends_bb op -> OPF_SIDE_EFFECTS def = OPF_SIDE_EFFECTS (tcg_op_defs (opc op)) ->
  exists l2 l' da sa,
    do_not_remove s l def op (nb_oargs (tcg_op_defs (opc op))) (nb_iargs (tcg_op_defs (opc op)))
      = (l', Some (op, Some (da, sa))) /\
    between op l l2 /\ annotated op l l2 l' da sa.
Proof.
  intros Hc Hs Hbb Hse. destruct (op_parts op Hc) as [Ho Hi]. destruct (op_args_def op Hc) as [Hno Hni].
  unfold do_not_remove. rewrite <- Ho, <- Hi, <- Hno.
  destruct (la_outputs l 0 (op_outputs op) 0 0) as [[l1 d1] sa] eqn:H1.
  set (l2 := if OPF_BB_END def then _ else _).
  destruct (la_inputs false l2 _ (op_inputs op) d1) as [l' da] eqn:H2.
  exists l2, l', da, sa. split_and!; [done| |by eapply annotated_intro, not_dummy].
  apply la_outputs_spec in H1 as (A1 & A2 & _); [|by apply wf_shape_spec|done].
  unfold between, l2. rewrite Hbb. destruct (ends_bb op) eqn:Hb; [done|].
  assert (kills_globals op = false) as -> by (unfold kills_globals; by rewrite bool_decide_eq_false_2).
  assert (reads_globals op = OPF_SIDE_EFFECTS def) as ->.
  { unfold reads_globals. rewrite Hse. unfold ends_bb in Hb. destruct (opc op); try done;
      by rewrite Hb, orb_false_r. }
  destruct (OPF_SIDE_EFFECTS def); cbn; intros t; rewrite A1, A2; done.
Qed.

Lemma live_call_annot l op :
  nb_temps s <= TCG_CALL_DUMMY_ARG -> opc op = INDEX_op_call -> wf_op s op = true -> wf_shape op = true ->
  (forallb (unused l) (op_outputs op) = true /\ live_call s l op = (l, None)) \/
  exists l2 l' da sa, live_call s l op = (l', Some (op, Some (da, sa))) /\
    between op l l2 /\ annotated op l l2 l' da sa.
Proof.
  intros Hmax Hc Hwf Hs. destruct (call_parts op Hc) as (Ho & Hi & Hf).
  unfold live_call. rewrite <- Hf, <- Ho, <- Hi.
  destruct (has_bits (call_flags op) TCG_CALL_NO_SIDE_EFFECTS && forallb (unused l) (op_outputs op)) eqn:Hr.
  { left. by apply andb_true_iff in Hr as [_ ?]. }
  right. clear Hr. assert (callo op = op_oargs op) as -> by (unfold op_oargs; by rewrite bool_decide_eq_true_2).
  destruct (la_outputs l 0 (op_outputs op) 0 0) as [[l1 d1] sa] eqn:H1.
  set (l2 := if negb (has_bits (call_flags op) (TCG_CALL_NO_WRITE_GLOBALS ||| _)) then _ else _).
  destruct (la_inputs true l2 _ (op_inputs op) d1) as [l' da] eqn:H2.
  exists l2, l', da, sa. split_and!; [done| |].
  - apply la_outputs_spec in H1 as (A1 & A2 & _); [|by apply wf_shape_spec|done].
    unfold between, l2, ends_bb, kills_globals, reads_globals. rewrite Hc.
    rewrite bool_decide_eq_true_2 by done. cbn [tcg_op_defs OPF_BB_END andb].
    intros t. destruct (negb (has_bits _ (_ ||| _))), (negb (has_bits _ TCG_CALL_NO_READ_GLOBALS)); cbn;
      rewrite A1, A2; done.
  - eapply annotated_intro; [done..|].
    pose proof (wf_inputs s HAS_muluh HAS_mulsh op Hwf) as Hin. eapply Forall_impl; [exact Hin|].
    unfold in_temps. intros a Ha. cbn. apply Z.eqb_neq. lia.
Qed.

(** An operation that is kept, perhaps narrowed. *)
Record kept_as (l : la) (op op' : TCGOp) : Prop := {
  ka_outs : forall t, t ∈ op_outputs op' -> t ∈ op_outputs op;
  ka_ins : forall t, t ∈ op_inputs op' -> t ∈ op_inputs op;
  ka_unused : forall t, t ∈ op_outputs op -> t ∉ op_outputs op' -> unused l t = true;
  ka_bb : ends_bb op' = ends_bb op;
  ka_args : wf_args s op' = true;
  ka_shape : wf_shape op' = true;
  ka_opc : opc op' <> INDEX_op_discard /\ opc op' <> INDEX_op_debug_insn_start;
  ka_kind : op' = op \/ opc op <> INDEX_op_call /\ exists b w, opc op' = INDEX_op_bin b w;
}.

Definition annotates (l : la) (op : TCGOp) (r : analysed) : Prop :=
  match r with
  | (l', None) => l' = l /\ forall t, t ∈ op_outputs op -> unused l t = true
  | (l', Some (op', None)) =>
    op' = op /\ ((exists t, opc op = INDEX_op_discard /\ args op = [t] /\ l' = la_output l t) \/
                 opc op = INDEX_op_debug_insn_start /\ l' = l)
  | (l', Some (op', Some (da, sa))) =>
    kept_as l op op' /\ exists l2, between op' l l2 /\ annotated op' l l2 l' da sa
  end.

Lemma kept_itself l op :
  wf_op s op = true -> wf_shape op = true ->
  opc op <> INDEX_op_discard -> opc op <> INDEX_op_debug_insn_start -> kept_as l op op.
Proof. intros [_ Hw]%andb_true_iff Hs H1 H2. constructor; try done. by left. Qed.

Lemma annotates_kept l op :
  opc op <> INDEX_op_call -> wf_op s op = true -> wf_shape op = true ->
  opc op <> INDEX_op_discard -> opc op <> INDEX_op_debug_insn_start ->
  annotates l op (do_not_remove s l (tcg_op_defs (opc op)) op (nb_oargs (tcg_op_defs (opc op)))
                    (nb_iargs (tcg_op_defs (opc op)))).
Proof.
  intros Hc Hwf Hs Hnd Hng.
  destruct (do_not_remove_annot l (tcg_op_defs (opc op)) op Hc Hs) as (l2 & l' & da & sa & -> & Hb & Ha); [done..|].
  split; [by apply kept_itself|eauto].
Qed.

Lemma annotates_default l op :
  opc op <> INDEX_op_call -> wf_op s op = true -> wf_shape op = true ->
  opc op <> INDEX_op_discard -> opc op <> INDEX_op_debug_insn_start ->
  annotates l op (live_default s l op).
Proof.
  intros Hc Hwf Hs Hnd Hng. unfold live_default.
  destruct (_ && forallb _ _) eqn:Hr; [|by apply annotates_kept].
  apply andb_true_iff in Hr as [_ Hr]. destruct (op_parts op Hc) as [Ho _]. rewrite <- Ho in Hr.
  split; [done|]. intros t Ht. rewrite forallb_forall in Hr. by apply Hr, list_elem_of_In.
Qed.

(** A double-word operation of which one word is used. *)
Lemma annotates_narrow l op b w d x y :
  opc op <> INDEX_op_call -> OPF_BB_END (tcg_op_defs (opc op)) = false ->
  OPF_SIDE_EFFECTS (tcg_op_defs (opc op)) = false ->
  d ∈ op_outputs op -> x ∈ op_inputs op -> y ∈ op_inputs op ->
  out_ok s w d = true -> in_ok s w x = true -> in_ok s w y = true ->
  (forall t, t ∈ op_outputs op -> t <> d -> unused l t = true) ->
  annotates l op (do_not_remove s l (tcg_op_defs (opc op)) (mk_op (INDEX_op_bin b w) [d; x; y] 0 0) 1 2).
Proof.
  intros Hc Hbb Hse Hd Hx Hy Od Ox Oy Hu. set (op' := mk_op (INDEX_op_bin b w) [d; x; y] 0 0).
  assert (Hc' : opc op' <> INDEX_op_call) by done.
  destruct (bin_args b w) as [Hb1 Hb2]. destruct (op_parts op' Hc') as [Ho Hi].
  cbn [opc op'] in Ho, Hi. rewrite Hb1 in Ho, Hi. rewrite Hb2 in Hi. cbn in Ho, Hi.
  destruct (op_args_def op' Hc') as [Hno Hni]. cbn [opc op'] in Hno, Hni. rewrite Hb1 in Hno. rewrite Hb2 in Hni.
  assert (Hs : wf_shape op' = true).
  { unfold wf_shape. rewrite Hno, Hni, Ho. cbn. apply bool_decide_eq_true. apply NoDup_singleton. }
  assert (Hbin : OPF_BB_END (tcg_op_defs (INDEX_op_bin b w)) = false /\
    OPF_SIDE_EFFECTS (tcg_op_defs (INDEX_op_bin b w)) = false) by (by destruct b).
  destruct Hbin as [Hbin1 Hbin2].
  destruct (do_not_remove_annot l (tcg_op_defs (opc op)) op' Hc' Hs) as (l2 & l' & da & sa & He & Hbt & Ha).
  { rewrite Hbb. unfold ends_bb. by rewrite <- Hbin1. }
  { rewrite Hse. by rewrite <- Hbin2. }
  cbn [opc op'] in He. rewrite Hb1, Hb2 in He. fold op' in He. rewrite He. split; [|eauto].
  constructor; try done; rewrite ?Ho, ?Hi.
  - set_solver.
  - set_solver.
  - intros t Ht Hn. apply Hu; [done|set_solver].
  - unfold ends_bb. cbn [opc op']. by rewrite Hbin1, Hbb.
  - unfold wf_args. cbn. by rewrite Od, Ox, Oy.
  - right. split; [done|]. by exists b, w.
Qed.

Lemma annotates_removed l op :
  (forall t, t ∈ op_outputs op -> unused l t = true) -> annotates l op (l, None).
Proof. by intros. Qed.

Lemma annotates_addsub2 l oc b w rl rh al ah bl bh co ci :
  let op := mk_op oc [rl; rh; al; ah; bl; bh] co ci in
  (oc = INDEX_op_add2 w /\ b = op_add) \/ (oc = INDEX_op_sub2 w /\ b = op_sub) ->
  wf_op s op = true -> wf_shape op = true ->
  annotates l op (do_addsub2 s l op (INDEX_op_bin b w) rl rh al bl).
Proof.
  intros op Hoc Hwf Hs.
  assert (Hargs : out_ok s w rl && out_ok s w rh && negb (rl =? rh) && in_ok s w al && in_ok s w ah
    && in_ok s w bl && in_ok s w bh = true).
  { apply andb_true_iff in Hwf as [_ Hw]. unfold wf_args in Hw. by destruct Hoc as [[-> _]|[-> _]]. }
  rewrite !andb_true_iff in Hargs. destruct Hargs as [[[[[[Hl Hh] Hne] Hal] Hah] Hbl] Hbh].
  assert (Hc : opc op <> INDEX_op_call) by (by destruct Hoc as [[-> _]|[-> _]]).
  assert (Hdef : tcg_op_defs (opc op) = row 2 4 0 false (is64 w)) by (by destruct Hoc as [[-> _]|[-> _]]).
  destruct (op_parts op Hc) as [Ho Hi]. rewrite Hdef in Ho, Hi. cbn in Ho, Hi.
  unfold do_addsub2. destruct (unused l rh) eqn:Hrh; [destruct (unused l rl) eqn:Hrl|].
  - apply annotates_removed. rewrite Ho. set_solver.
  - apply annotates_narrow; rewrite ?Ho, ?Hi, ?Hdef; done || set_solver.
  - pose proof (annotates_kept l op Hc Hwf Hs) as Hk. rewrite Hdef in *. apply Hk;
      by destruct Hoc as [[-> _]|[-> _]].
Qed.

Lemma annotates_mul2 l oc b w rl rh x y co ci have :
  let op := mk_op oc [rl; rh; x; y] co ci in
  (oc = INDEX_op_mulu2 w /\ b = op_muluh) \/ (oc = INDEX_op_muls2 w /\ b = op_mulsh) ->
  wf_op s op = true -> wf_shape op = true ->
  annotates l op (do_mul2 s l op (INDEX_op_bin op_mul w) (INDEX_op_bin b w) have rl rh x y).
Proof.
  intros op Hoc Hwf Hs.
  destruct (mul2_args s oc b w rl rh x y co ci Hoc Hwf) as (Hl & Hh & _ & Hx & Hy & _ & _).
  assert (Hc : opc op <> INDEX_op_call) by (by destruct Hoc as [[-> _]|[-> _]]).
  assert (Hdef : tcg_op_defs (opc op) = row 2 2 0 false (is64 w)) by (by destruct Hoc as [[-> _]|[-> _]]).
  destruct (op_parts op Hc) as [Ho Hi]. rewrite Hdef in Ho, Hi. cbn in Ho, Hi.
  unfold do_mul2. destruct (unused l rh) eqn:Hrh; [destruct (unused l rl) eqn:Hrl|].
  - apply annotates_removed. rewrite Ho. set_solver.
  - apply annotates_narrow; rewrite ?Ho, ?Hi, ?Hdef; done || set_solver.
  - destruct (have && unused l rl) eqn:Hrl.
    + apply andb_true_iff in Hrl as [_ ?]. apply annotates_narrow; rewrite ?Ho, ?Hi, ?Hdef; done || set_solver.
    + pose proof (annotates_kept l op Hc Hwf Hs) as Hk. rewrite Hdef in *. apply Hk;
        by destruct Hoc as [[-> _]|[-> _]].
Qed.

Lemma live_op_annotates l op :
  nb_temps s <= TCG_CALL_DUMMY_ARG -> wf_op s op = true -> wf_shape op = true ->
  annotates l op (live_op l op).
Proof.
  intros Hmax Hwf Hs. pose proof Hwf as [_ Hw]%andb_true_iff. unfold TcgLive.live_op.
  destruct op as [oc al co ci]. unfold wf_args in Hw. cbn [opc args] in *.
  destruct oc as [| | |w|w|w|w|w|w| |b w|u w|w|w|w|w|w|w| | | |w| | |name def];
    try (by apply annotates_default); [|repeat (destruct al as [|? al]; try done)..].
  - clear Hw. set (op := mk_op INDEX_op_call al co ci) in *.
    destruct (live_call_annot l op) as [[Hu He]|(l2 & l' & da & sa & He & Hb & Ha)]; try done; rewrite He.
    + apply annotates_removed. intros t Ht. rewrite forallb_forall in Hu. by apply Hu, list_elem_of_In.
    + split; [by apply kept_itself|eauto].
  - apply (annotates_addsub2 l _ op_add); auto.
  - apply (annotates_addsub2 l _ op_sub); auto.
  - apply (annotates_mul2 l _ op_muluh w); auto.
  - apply (annotates_mul2 l _ op_mulsh w); auto.
  - split; [done|]. left. by eexists.
  - split; [done|]. by right.
Qed.

(** A move that is kept has a result that is used. *)
Lemma moves_used l op l' op' a w d :
  live_op l op = (l', Some (op', a)) -> opc op' = INDEX_op_mov w \/ opc op' = INDEX_op_movi w ->
  op_outputs op' = [d] -> needed l d = true.
Proof.
  assert (Hdef : forall o, live_default s l o = (l', Some (op', a)) ->
    opc op' = INDEX_op_mov w \/ opc op' = INDEX_op_movi w -> op_outputs op' = [d] -> needed l d = true).
  { intros o. unfold live_default, do_not_remove.
    destruct (_ && forallb _ _) eqn:Hr; [done|].
    destruct (la_outputs _ _ _ _ _) as [[l1 d1] y1]. destruct (la_inputs _ _ _ _ _) as [l2 d2].
    intros [= <- <- <-] Hop Hout. assert (Hc : opc o <> INDEX_op_call) by (by destruct Hop as [-> | ->]).
    destruct (op_parts o Hc) as [Ho _]. rewrite <- Ho, Hout in Hr.
    apply not_false_iff_true. intros Hn. rewrite andb_false_iff in Hr. cbn [forallb] in Hr.
    rewrite unused_needed, Hn in Hr. by destruct Hop as [Hop|Hop]; rewrite Hop in Hr; cbn in Hr; naive_solver. }
  assert (Hother : forall def o no ni, do_not_remove s l def o no ni = (l', Some (op', a)) -> op' = o).
  { intros def o no ni. unfold do_not_remove. destruct (la_outputs _ _ _ _ _) as [[l1 d1] y1].
    destruct (la_inputs _ _ _ _ _) as [l2 d2]. by intros [= _ <- _]. }
  intros Hl Hop Hout. unfold TcgLive.live_op in Hl. destruct op as [oc al co ci]. cbn [opc args] in Hl.
  assert (Hno : forall o, op' = o -> (forall w0, opc o <> INDEX_op_mov w0) -> (forall w0, opc o <> INDEX_op_movi w0) -> False).
  { intros o -> H1 H2. destruct Hop as [Hop|Hop]; [by apply (H1 w)|by apply (H2 w)]. }
  destruct oc as [| | |w0|w0|w0|w0|w0|w0| |b w0|u w0|w0|w0|w0|w0|w0|w0| | | |w0| | |name def]; try (by eapply Hdef).
  - exfalso. unfold live_call in Hl. destruct (_ && forallb _ _); [done|].
    destruct (la_outputs _ _ _ _ _) as [[l1 d1] y1]. destruct (la_inputs _ _ _ _ _) as [l2 d2].
    injection Hl as _ <- _. by destruct Hop.
  - do 7 (destruct al as [|? al]; try (by eapply Hdef)). exfalso. unfold do_addsub2 in Hl.
    repeat destruct (unused _ _); try done; apply Hother in Hl; by eapply Hno.
  - do 7 (destruct al as [|? al]; try (by eapply Hdef)). exfalso. unfold do_addsub2 in Hl.
    repeat destruct (unused _ _); try done; apply Hother in Hl; by eapply Hno.
  - do 5 (destruct al as [|? al]; try (by eapply Hdef)). exfalso. unfold do_mul2 in Hl.
    repeat destruct (unused _ _); try done; repeat destruct (_ && _); apply Hother in Hl; by eapply Hno.
  - do 5 (destruct al as [|? al]; try (by eapply Hdef)). exfalso. unfold do_mul2 in Hl.
    repeat destruct (unused _ _); try done; repeat destruct (_ && _); apply Hother in Hl; by eapply Hno.
  - do 2 (destruct al as [|? al]; try (by eapply Hdef)). exfalso. injection Hl as _ <- _. by destruct Hop.
  - exfalso. injection Hl as _ <- _. by destruct Hop.
Qed.
End Annot.
