(* ===== verification/TcgAllocOp.v ===== *)
(** * Register allocation for an operation

    [tcg_reg_alloc_op]: the inputs are brought into registers that satisfy
    the constraints of the host, inputs that die give theirs back, the
    outputs get registers, and after the instruction they are stored where
    the liveness analysis asks for it. *)

From S2P Require Import Prelude HostUtils BitField TcgOp TcgOpt TcgSem TcgMono TcgLive TcgAlloc TcgHost.
From S2P Require Import TcgInv TcgGood TcgCorrect TcgFrame TcgLiveness TcgAllocInv TcgAllocMove TcgAllocLive.

(** ** Constraints *)

(** What the constraints of a host have to satisfy: they are sorted with the
    outputs first, and among these the ones that share the register of an
    input; such an input is not a constant. *)
Record ct_ok (T : TCGTarget) (oc : TCGOpcode) : Prop := {
  c_ins : skipn (nb_oargs (tcg_op_defs oc)) (sorted_args T oc) ≡ₚ
          seq (nb_oargs (tcg_op_defs oc)) (nb_iargs (tcg_op_defs oc));
  c_outs : firstn (nb_oargs (tcg_op_defs oc)) (sorted_args T oc) ≡ₚ seq 0 (nb_oargs (tcg_op_defs oc));
  c_order : exists al rest, firstn (nb_oargs (tcg_op_defs oc)) (sorted_args T oc) = al ++ rest /\
    Forall (fun o => CT_ALIAS (args_ct T oc o) = true) al /\
    Forall (fun o => CT_ALIAS (args_ct T oc o) = false) rest;
  c_alias : forall o, (o < nb_oargs (tcg_op_defs oc))%nat -> CT_ALIAS (args_ct T oc o) = true ->
    let i := alias_index (args_ct T oc o) in
    (nb_oargs (tcg_op_defs oc) <= i < nb_oargs (tcg_op_defs oc) + nb_iargs (tcg_op_defs oc))%nat /\
    CT_IALIAS (args_ct T oc i) = true /\ alias_index (args_ct T oc i) = o;
  c_ialias : forall i,
    (nb_oargs (tcg_op_defs oc) <= i < nb_oargs (tcg_op_defs oc) + nb_iargs (tcg_op_defs oc))%nat ->
    CT_IALIAS (args_ct T oc i) = true ->
    (alias_index (args_ct T oc i) < nb_oargs (tcg_op_defs oc))%nat /\
    forall w v, tcg_target_const_match T oc i w v = false;
}.

(** The registers output [i] may get. *)
Definition output_regs (T : TCGTarget) (oc : TCGOpcode) (i : nat) : Z :=
  let ct := args_ct T oc i in
  if CT_ALIAS ct then ct_regs (args_ct T oc (alias_index ct)) else ct_regs ct.

(** Registers [set] taken for the operands [pre], next to the reserved ones,
    where operand [i] may get [regs i]. *)
Definition taken_for (T : TCGTarget) (regs : nat -> Z) (pre : list nat) (f : nat -> Z) (set : Z) : Prop :=
  forall r, 0 <= r < TCG_TARGET_NB_REGS T -> Z.testbit set r = true ->
    Z.testbit (reserved_regs T) r = true \/ exists j, j ∈ pre /\ r = f j /\ Z.testbit (regs j) r = true.

(** The constraints can be met one after the other. *)
Definition met (T : TCGTarget) (regs : nat -> Z) (idx : list nat) : Prop :=
  forall pre i post f set, idx = pre ++ i :: post -> taken_for T regs pre f set ->
    available T (regs i) set.

Section Op.
Context (s : TCGContext) (T : TCGTarget) (global_reg : Z -> bool) (G : Z -> TCGTemp).
Context (Hctx : wf_ctx s = true) (HT : target_ok s T global_reg G).
Context (lacking : Prop) (Hlack : lacking \/ enough_frame s T).

#[local] Abbreviation fixed := (fixed_reg s global_reg).
#[local] Abbreviation in_temps := (in_temps s).
#[local] Abbreviation ty := (temp_type s).
#[local] Abbreviation reserved r := (Z.testbit (reserved_regs T) r).
#[local] Abbreviation wf_st := (wf_st s T global_reg G).
#[local] Abbreviation dyn := (dyn s T global_reg).
#[local] Abbreviation ok := (ok lacking).
#[local] Abbreviation holds := (holds s).
#[local] Abbreviation temp_dead := (temp_dead s global_reg).

Lemma testbit_set_regset set r r' :
  0 <= r -> Z.testbit (set_regset set r) r' = Z.testbit set r' || (r' =? r).
Proof.
  intros Hr. unfold set_regset. rewrite Z.lor_spec. f_equal.
  destruct (Z.ltb_spec r' 0).
  { rewrite Z.testbit_neg_r by lia. symmetry. apply Z.eqb_neq. lia. }
  rewrite Z.shiftl_spec by lia. destruct (Z.eqb_spec r' r) as [->|Hne]; [by rewrite Z.sub_diag|].
  destruct (Z.ltb_spec r' r); [by rewrite Z.testbit_neg_r by lia|].
  change 1 with (2 ^ 0). by rewrite Z.pow2_bits_false by lia.
Qed.

(** An instruction that writes register [r] and nothing else. *)
Definition writes_reg (i : hinsn) (r : Z) : Prop :=
  is_move i = true /\
  forall R M R' M', hmove i R M R' M' -> (forall r', r' <> r -> R' r' = R r') /\ M' = M.

Lemma writes_ld w d b o : writes_reg (tcg_out_ld w d b o) d.
Proof. split; [done|]. by intros R M R' M' (_ & ? & ?). Qed.

Lemma writes_movi w d v : writes_reg (tcg_out_movi w d v) d.
Proof. split; [done|]. by intros R M R' M' (_ & ? & ?). Qed.

Lemma writes_mov w d a : writes_reg (tcg_out_mov w d a) d.
Proof. split; [done|]. by intros R M R' M' (_ & ? & ?). Qed.

Section Emit.
Context (c0 : list hinsn) (I0 : hregs -> hmem -> Prop).
#[local] Abbreviation reaches := (reaches c0 I0).

(** A register that belongs to nobody is written. *)
Lemma dyn_write N E Mb st i d :
  wf_st st -> reserved d = false -> reg_to_temp st d = -1 ->
  writes_reg i d ->
  reaches st (dyn N E Mb st) -> reaches (emit st i) (dyn N E Mb (emit st i)).
Proof.
  intros Hw Hd Hf [Him Hm]. apply reaches_emit; [done|]. intros R M R' M' HdR Hi. destruct (Hm _ _ _ _ Hi) as [HR ->].
  apply (dyn_temps s T global_reg N E Mb st); [done|].
  by eapply (dyn_free_reg s T global_reg G) with (d := d).
Qed.

(** What is in other registers stays. *)
Lemma kept_write st i d (P : Z -> Prop) r :
  r <> d -> writes_reg i d ->
  reaches st (fun R _ => P (R r)) -> reaches (emit st i) (fun R _ => P (R r)).
Proof.
  intros Hr [Him Hm]. apply reaches_emit; [done|]. intros R M R' M' HP Hi. destruct (Hm _ _ _ _ Hi) as [HR _].
  by rewrite HR.
Qed.

(** A variable is brought from memory, or as a constant, into a free
    register. *)
Lemma load_ok N E Mb st t r coh i :
  wf_st st -> in_temps t = true -> fixed t = false -> val_type (s_temps st t) <> TEMP_VAL_REG ->
  reserved r = false -> 0 <= r < TCG_TARGET_NB_REGS T -> reg_to_temp st r = -1 ->
  (coh = true -> mem_allocated (s_temps st t) = true) ->
  writes_reg i r ->
  (forall R M R' M', dyn N E Mb st R M -> hmove i R M R' M' ->
     (N t = true -> holds E t (R' r)) /\
     (coh = true -> low (ty t) (R' r) = low (ty t) (M (slot (s_temps st t))))) ->
  reaches st (dyn N E Mb st) ->
  let st' := assign_reg (emit st i) t r coh in
  wf_st st' /\ reaches st' (dyn N E Mb st').
Proof.
  intros Hw Ht Hf Hv Hr Hrg Hfree Ha [Him Hm] Hx Hd st'.
  assert (drop_reg (emit st i) t = emit st i) as Hdrop
    by (unfold drop_reg; by rewrite bool_decide_eq_false_2).
  split.
  - unfold st'. rewrite <- Hdrop. apply (wf_assign s T global_reg G); auto.
    apply (wf_same s T global_reg G st); [by constructor|done].
  - apply (reaches_code c0 I0 (emit st i)); [done|]. revert Hd. apply reaches_emit; [done|].
    intros R M R' M' HdR Hi. destruct (Hm _ _ _ _ Hi) as [HR ->]. destruct (Hx _ _ _ _ HdR Hi) as [Hx1 Hx2].
    apply (dyn_upd s T global_reg N E Mb st _ t).
    + intros j Hj. cbn. by destruct (Z.eqb_spec j t).
    + cbn. by rewrite Z.eqb_refl.
    + cbn. rewrite Z.eqb_refl. done.
    + cbn. rewrite Z.eqb_refl. cbn. intros _ _ Hc. by apply Hx2.
    + by eapply (dyn_free_reg s T global_reg G) with (d := r).
Qed.
End Emit.

(** ** Inputs *)

Section Inputs.
Context (c0 : list hinsn) (I0 : hregs -> hmem -> Prop).
Context (op : TCGOp) (da : Z) (N : Z -> bool) (E : env) (Mb : hmem) (st0 : astate).

#[local] Abbreviation reaches := (reaches c0 I0).
#[local] Abbreviation spills := (spills s global_reg c0 I0).
#[local] Abbreviation evolves := (evolves s (op_inputs op)).
#[local] Abbreviation ct := (args_ct T (opc op)).
#[local] Abbreviation is_dead := (IS_DEAD_ARG da).

(** The positions of the inputs. *)
Definition input (i : nat) : Prop := (op_oargs op <= i < op_oargs op + op_iargs op)%nat.

(** The inputs are used and can be read; a variable dies at one position at
    most; inputs that share a register with an output are not constants, and
    that output is not in a fixed register. *)
Hypothesis Hin : forall i, input i ->
  arg op i ∈ op_inputs op /\ in_temps (arg op i) = true /\ N (arg op i) = true /\
  readable (s_temps st0 (arg op i)).
Hypothesis Hdie : forall i j, input i -> input j -> i <> j -> arg op i = arg op j ->
  is_dead i = true -> is_dead j = true -> False.
Hypothesis Hali : forall i, input i -> CT_IALIAS (ct i) = true ->
  fixed (arg op (alias_index (ct i))) = false /\
  forall w v, tcg_target_const_match T (opc op) i w v = false.

(** The operand [i] has the value of its variable. *)
Definition has_operand (x : opstate) (i : nat) : Prop :=
  const_args x i = true /\ reaches (o_st x) (fun _ _ => holds E (arg op i) (new_args x i)) \/
  const_args x i = false /\ Z.testbit (allocated_regs x) (new_args x i) = true /\
  reaches (o_st x) (fun R _ => holds E (arg op i) (R (new_args x i))).

(** The register of an input that an output will share: nobody's, or that of
    a variable that dies here. *)
Definition alias_reg (x : opstate) (i : nat) : Prop :=
  const_args x i = false /\ reserved (new_args x i) = false /\
  0 <= new_args x i < TCG_TARGET_NB_REGS T /\ Z.testbit (ct_regs (ct i)) (new_args x i) = true /\
  (reg_to_temp (o_st x) (new_args x i) = -1 \/
   reg_to_temp (o_st x) (new_args x i) = arg op i /\ is_dead i = true).

Record inp (x : opstate) (pre : list nat) : Prop := {
  i_wf : wf_st (o_st x);
  i_dyn : reaches (o_st x) (dyn N E Mb (o_st x));
  i_ev : evolves st0 (o_st x);
  i_resv : forall r, reserved r = true -> Z.testbit (allocated_regs x) r = true;
  i_ops : forall i, i ∈ pre -> has_operand x i;
  i_alias : forall i, i ∈ pre -> CT_IALIAS (ct i) = true ->
    alias_reg x i /\ Z.testbit (allocated_regs x) (new_args x i) = true;
  i_inj : forall i j, i ∈ pre -> j ∈ pre -> i <> j ->
    CT_IALIAS (ct i) = true -> CT_IALIAS (ct j) = true -> new_args x i <> new_args x j;
  i_taken : taken_for T (fun i => ct_regs (ct i)) pre (new_args x) (allocated_regs x);
}.

(** The tables change, and the operands already allocated do not. *)
Lemma inp_step x pre st' :
  inp x pre -> wf_st st' -> reaches st' (dyn N E Mb st') -> evolves (o_st x) st' ->
  (forall r, Z.testbit (allocated_regs x) r = true -> reg_to_temp st' r = reg_to_temp (o_st x) r) ->
  (forall r (P : Z -> Prop), Z.testbit (allocated_regs x) r = true ->
     reaches (o_st x) (fun R _ => P (R r)) -> reaches st' (fun R _ => P (R r))) ->
  (forall P : Prop, reaches (o_st x) (fun _ _ => P) -> reaches st' (fun _ _ => P)) ->
  inp (mk_ops st' (allocated_regs x) (new_args x) (const_args x)) pre.
Proof.
  intros [H1 H2 H3 H4 H5 H6 H7 H8] Hw Hd He Hr Hk Hc. constructor; cbn; try done.
  - by etrans.
  - intros i Hi. destruct (H5 i Hi) as [[??]|(? & ? & ?)]; [left|right]; split_and!; auto.
  - intros i Hi Ha. destruct (H6 i Hi Ha) as [(A1 & A2 & A3 & A4 & A5) A6]. split; [|done].
    unfold alias_reg. cbn. by rewrite Hr.
Qed.

(** A register is allocated. *)
Lemma inp_alloc x pre i :
  inp x pre -> lacking \/ available T (ct_regs (ct i)) (allocated_regs x) ->
  ok (tcg_reg_alloc s T global_reg (o_st x) (ct_regs (ct i)) (allocated_regs x)) (fun rs =>
    inp (mk_ops rs.2 (allocated_regs x) (new_args x) (const_args x)) pre /\
    allocated s T global_reg c0 I0 (o_st x) (ct_regs (ct i)) (allocated_regs x) rs).
Proof.
  intros Hx Hav.
  eapply ok_mono; [eapply (tcg_reg_alloc_ok s T global_reg G); [..|exact Hav]; try done; apply Hx|].
  intros [r st'] (Hw & Hd & Ha). split; [|done]. cbn [fst snd] in *.
  pose proof Ha as [[F1 F2 F3 F4 F5 F6] A2 A3 A4]. cbn [fst snd] in *.
  apply inp_step; try done.
  - by eapply evolves_spills.
  - intros r' Hr'. apply F3. intros ->. congruence.
  - intros r' P _. apply (sp_code _ _ _ _ _ _ F1 (fun R => P (R r'))).
  - intros P. apply (sp_code _ _ _ _ _ _ F1 (fun _ => P)).
Qed.

(** The operand [i] gets register [r]. *)
Lemma inp_add x pre i r :
  inp x pre -> input i -> i ∉ pre -> 0 <= r ->
  reaches (o_st x) (fun R _ => holds E (arg op i) (R r)) -> Z.testbit (ct_regs (ct i)) r = true ->
  (CT_IALIAS (ct i) = true -> reserved r = false /\ r < TCG_TARGET_NB_REGS T /\
    (reg_to_temp (o_st x) r = -1 /\ Z.testbit (allocated_regs x) r = false \/
     reg_to_temp (o_st x) r = arg op i /\ is_dead i = true)) ->
  (forall j, j ∈ pre -> input j) ->
  inp (mk_ops (o_st x) (set_regset (allocated_regs x) r) (upd_arg (new_args x) i r)
         (upd_arg (const_args x) i false)) (i :: pre).
Proof.
  intros [H1 H2 H3 H4 H5 H6 H7 H8] Hi Hn Hr0 Hh Hct Hal Hpre.
  assert (Hup : forall {A} (f : nat -> A) v j, j ∈ pre -> upd_arg f i v j = f j).
  { intros A f v j Hj. unfold upd_arg. destruct (Nat.eqb_spec j i) as [->|]; done. }
  assert (Hui : forall {A} (f : nat -> A) v, upd_arg f i v i = v)
    by (intros; unfold upd_arg; by rewrite Nat.eqb_refl).
  assert (Hbit : forall r', Z.testbit (set_regset (allocated_regs x) r) r' =
    Z.testbit (allocated_regs x) r' || (r' =? r)) by (intros; by apply testbit_set_regset).
  assert (Hne : forall j, j ∈ pre -> CT_IALIAS (ct i) = true -> CT_IALIAS (ct j) = true ->
    r <> new_args x j).
  { intros j Hj Ai Aj ->. destruct (H6 j Hj Aj) as [(_ & _ & _ & _ & Hre) Ht].
    destruct (Hal Ai) as (_ & _ & [[_ ?]|[Hr Hdi]]); [congruence|].
    destruct Hre as [Hre|[Hre Hdj]]; rewrite Hr in Hre.
    - destruct (Hin i Hi) as (_ & Hit & _). by apply neg_in in Hit.
    - eapply (Hdie i j); eauto. by intros ->. }
  constructor; cbn [o_st allocated_regs new_args const_args]; try done.
  - intros r' Hr'. rewrite Hbit, H4; done.
  - intros j [->|Hj]%elem_of_cons; unfold has_operand; cbn [o_st allocated_regs new_args const_args].
    + right. rewrite !Hui, Hbit, Z.eqb_refl, orb_true_r. done.
    + rewrite !Hup by done. destruct (H5 j Hj) as [?|(? & Ht & ?)]; [by left|right].
      rewrite Hbit, Ht. done.
  - intros j [->|Hj]%elem_of_cons Ha; unfold alias_reg; cbn [o_st allocated_regs new_args const_args].
    + rewrite !Hui, Hbit, Z.eqb_refl, orb_true_r. destruct (Hal Ha) as (? & ? & Hre).
      split_and!; try done. destruct Hre as [[? _]|?]; auto.
    + rewrite !Hup by done. destruct (H6 j Hj Ha) as [(? & ? & ? & ? & ?) Ht].
      rewrite Hbit, Ht. done.
  - intros j k [->|Hj]%elem_of_cons [->|Hk]%elem_of_cons Hjk Aj Ak; rewrite ?Hui, ?Hup by done;
      [done|by apply Hne| |by apply H7]. intros ?. by apply (Hne j).
  - intros r' Hr'. rewrite Hbit. intros [Ht|Ht%Z.eqb_eq]%orb_true_iff.
    + destruct (H8 r' Hr' Ht) as [|(j & Hj & -> & ?)]; [by left|right]. exists j.
      rewrite Hup by done. split_and!; try done. set_solver.
    + subst r'. right. exists i. rewrite Hui. split_and!; try done. set_solver.
Qed.

(** The tables after an instruction that writes a free register. *)
Lemma inp_write x pre i r :
  inp x pre -> reg_to_temp (o_st x) r = -1 -> Z.testbit (allocated_regs x) r = false ->
  writes_reg i r ->
  inp (mk_ops (emit (o_st x) i) (allocated_regs x) (new_args x) (const_args x)) pre.
Proof.
  intros Hx Hf Ha Hm. pose proof (i_wf _ _ Hx) as Hw.
  assert (Hr : reserved r = false).
  { apply not_true_is_false. intros Hr. apply (i_resv _ _ Hx) in Hr. congruence. }
  apply inp_step; try done.
  - by apply (wf_same s T global_reg G (o_st x)).
  - apply (dyn_write c0 I0 N E Mb (o_st x) i r); try done. apply Hx.
  - intros r' P Hr'. eapply kept_write; [|exact Hm]. congruence.
  - intros P. apply reaches_emit; [apply Hm|done].
Qed.

(** A variable that is in a register. *)
Lemma in_reg_holds x pre i :
  inp x pre -> input i -> val_type (s_temps (o_st x) (arg op i)) = TEMP_VAL_REG ->
  reaches (o_st x) (fun R _ => holds E (arg op i) (R (treg (s_temps (o_st x) (arg op i))))).
Proof.
  intros Hx Hi Hv. destruct (Hin i Hi) as (_ & Ht & HN & _).
  eapply reaches_impl; [|apply (i_dyn _ _ Hx)]. intros R M HdR.
  pose proof (d_val _ _ _ _ _ _ _ _ _ HdR _ Ht HN) as Hl. unfold loc in Hl. by rewrite Hv in Hl.
Qed.

Lemma alloc_in_reg_ok x pre i :
  inp x pre -> input i -> i ∉ pre -> (forall j, j ∈ pre -> input j) ->
  val_type (s_temps (o_st x) (arg op i)) = TEMP_VAL_REG ->
  lacking \/ available T (ct_regs (ct i)) (allocated_regs x) ->
  ok (alloc_in_reg s T global_reg op da x i) (fun x' => inp x' (i :: pre)).
Proof.
  intros Hx Hi Hn Hpre Hv Hav. unfold alloc_in_reg. apply ok_assert; [by apply bool_decide_eq_true|].
  destruct (Hin i Hi) as (_ & Ht & HN & _). pose proof (in_reg_holds x pre i Hx Hi Hv) as Hh.
  set (t := arg op i) in *. set (mv := CT_IALIAS (ct i) && _).
  destruct (negb mv && Z.testbit (ct_regs (ct i)) (treg (s_temps (o_st x) t))) eqn:Hk.
  - cbn [mbind outcome_bind TcgAllocInv.ok]. apply andb_true_iff in Hk as [Hmv Hct].
    destruct (Z.ltb_spec (treg (s_temps (o_st x) t)) 0) as [Hneg|Hpos].
    { by rewrite Z.testbit_neg_r in Hct. }
    apply inp_add; try done. intros Ha. destruct (Hali i Hi Ha) as [Hfa _]. unfold mv in Hmv.
    rewrite Ha in Hmv. cbn [andb] in Hmv. destruct (fixed t) eqn:Hft.
    { rewrite negb_involutive in Hmv. apply Z.eqb_eq in Hmv. rewrite <- Hmv in Hfa. congruence. }
    rewrite negb_involutive in Hmv. pose proof (w_reg _ _ _ _ _ (i_wf _ _ Hx) t Ht Hft Hv) as Hr.
    destruct (w_own _ _ _ _ _ (i_wf _ _ Hx) (treg (s_temps (o_st x) t))) as [Hm|(_ & _ & _ & _ & Hres & Hrg)].
    { apply neg_in in Ht. congruence. }
    split_and!; [done|lia|]. by right.
  - apply ok_bind. eapply ok_bind'; [by apply (inp_alloc x pre i)|].
    intros [r st'] [Hx' [[F1 F2 F3 F4 F5 F6] A2 A3 A4]]. cbn [fst snd TcgAllocInv.ok mbind outcome_bind] in *.
    apply (inp_add (mk_ops (emit st' _) (allocated_regs x) (new_args x) (const_args x)) pre i r); try done.
    + apply (inp_write _ pre _ r Hx'); try done. apply writes_mov.
    + lia.
    + cbn [o_st]. eapply reaches_emit; [done| |apply (sp_code _ _ _ _ _ _ F1 _ Hh)].
      intros R M R' M' HP (Hm & _). rewrite (sp_reg _ _ _ _ _ _ F1) in Hm.
      unfold TcgHost.holds in *. fold t in Hm |- *. by rewrite Hm.
    + intros _. split_and!; [|lia|by left].
      apply not_true_is_false. intros Hr. apply (i_resv _ _ Hx) in Hr. congruence.
Qed.

(** An input is loaded into a register allocated for it, and then there. *)
Lemma input_loaded x pre i r st' ins coh :
  inp x pre -> input i -> i ∉ pre -> (forall j, j ∈ pre -> input j) ->
  inp (mk_ops st' (allocated_regs x) (new_args x) (const_args x)) pre ->
  allocated s T global_reg c0 I0 (o_st x) (ct_regs (ct i)) (allocated_regs x) (r, st') ->
  lacking \/ available T (ct_regs (ct i)) (allocated_regs x) ->
  val_type (s_temps (o_st x) (arg op i)) <> TEMP_VAL_REG ->
  (in_mem (s_temps (o_st x) (arg op i)) -> coh = true) ->
  (coh = true -> mem_allocated (s_temps (o_st x) (arg op i)) = true) ->
  s_temps st' (arg op i) = s_temps (o_st x) (arg op i) ->
  writes_reg ins r ->
  (forall R M R' M', dyn N E Mb st' R M -> hmove ins R M R' M' -> holds E (arg op i) (R' r) /\
     (coh = true -> low (ty (arg op i)) (R' r) = low (ty (arg op i)) (M (slot (s_temps st' (arg op i)))))) ->
  ok (alloc_in_reg s T global_reg op da
        (mk_ops (assign_reg (emit st' ins) (arg op i) r coh) (allocated_regs x) (new_args x) (const_args x)) i)
     (fun x' => inp x' (i :: pre)).
Proof.
  intros Hx Hi Hn Hpre Hx' [[F1 F2 F3 F4 F5 F6] A2 A3 A4] Hav Hv Hco Hal Hst Hm Hval. cbn [fst snd] in *.
  destruct (Hin i Hi) as (Hins & Ht & HN & _).
  assert (Hfx : fixed (arg op i) = false).
  { apply not_true_is_false. intros Hf. destruct (w_fixed _ _ _ _ _ (i_wf _ _ Hx) _ Hf). congruence. }
  assert (Hres : reserved r = false).
  { apply not_true_is_false. intros Hr. apply (i_resv _ _ Hx) in Hr. congruence. }
  pose proof (i_wf _ _ Hx') as Hw'. pose proof (i_dyn _ _ Hx') as Hd'. cbn [o_st] in Hw', Hd'.
  destruct (load_ok c0 I0 N E Mb st' (arg op i) r coh ins) as [Hw2 Hd2]; try done; rewrite ?Hst; auto.
  { intros R M R' M' HdR Hmv. rewrite <- Hst. destruct (Hval R M R' M' HdR Hmv). auto. }
  apply alloc_in_reg_ok; try done.
  - apply (inp_step _ _ _ Hx'); try done; cbn [o_st allocated_regs].
    + eapply (evolves_load s _ _ _ (arg op i)); try done; cbn.
      * intros j Hj. by destruct (Z.eqb_spec j (arg op i)).
      * by rewrite Z.eqb_refl.
      * by rewrite Z.eqb_refl.
      * rewrite Z.eqb_refl. cbn. by rewrite Hst.
    + intros r' Hr'. cbn. destruct (Z.eqb_spec r' r) as [->|]; [congruence|done].
    + intros r' P Hr' HP. apply (reaches_code c0 I0 (emit st' ins)); [done|]. revert HP.
      eapply kept_write; [|exact Hm]. congruence.
    + intros P HP. apply (reaches_code c0 I0 (emit st' ins)); [done|]. revert HP.
      apply reaches_emit; [apply Hm|done].
  - cbn. by rewrite Z.eqb_refl.
Qed.

Lemma alloc_input_ok x pre i :
  inp x pre -> input i -> i ∉ pre -> (forall j, j ∈ pre -> input j) ->
  lacking \/ available T (ct_regs (ct i)) (allocated_regs x) ->
  ok (alloc_input s T global_reg op da x i) (fun x' => inp x' (i :: pre)).
Proof.
  intros Hx Hi Hn Hpre Hav. destruct (Hin i Hi) as (_ & Ht & HN & Hrd).
  pose proof (ev_read _ _ _ _ (i_ev _ _ Hx) _ Ht Hrd) as [Hnd Hall].
  assert (Hst : forall r st', val_type (s_temps (o_st x) (arg op i)) <> TEMP_VAL_REG ->
    freed s global_reg c0 I0 (o_st x) st' r -> s_temps st' (arg op i) = s_temps (o_st x) (arg op i)).
  { intros r st' Hv. apply (freed_keeps s T global_reg G); [apply Hx|done..]. }
  unfold alloc_input. destruct (val_type (s_temps (o_st x) (arg op i))) eqn:Hv; try done.
  - by apply (alloc_in_reg_ok x pre i).
  - eapply ok_bind'; [by apply (inp_alloc x pre i)|]. intros [r st'] [Hx' Ha]. cbn [fst snd] in *.
    assert (s_temps st' (arg op i) = s_temps (o_st x) (arg op i)) as He by (by apply (Hst r), Ha).
    eapply input_loaded; try done; auto; [congruence|apply writes_ld|].
    intros R M R' M' HdR (Hm & _ & _). split; [|done].
    pose proof (d_val _ _ _ _ _ _ _ _ _ HdR _ Ht HN) as Hl. unfold loc in Hl. rewrite He, Hv in Hl.
    unfold TcgHost.holds in *. rewrite Hm, He. by apply Hl, Hall.
  - destruct (tcg_target_const_match T (opc op) i _ _) eqn:Hcm.
    + cbn. destruct Hx as [H1 H2 H3 H4 H5 H6 H7 H8].
      assert (Hup : forall {A} (f : nat -> A) v j, j ∈ pre -> upd_arg f i v j = f j).
      { intros A f v j Hj. unfold upd_arg. destruct (Nat.eqb_spec j i) as [->|]; done. }
      assert (Hna : CT_IALIAS (ct i) = true -> False).
      { intros Hal. destruct (Hali i Hi Hal) as [_ Hc]. rewrite Hc in Hcm. done. }
      constructor; cbn [o_st allocated_regs new_args const_args]; try done.
      * intros j [->|Hj]%elem_of_cons; unfold has_operand; cbn [o_st allocated_regs new_args const_args];
          [left|rewrite !Hup by done; by apply H5].
        unfold upd_arg. rewrite !Nat.eqb_refl. split; [done|].
        eapply reaches_impl; [|exact H2]. intros R M HdR.
        pose proof (d_val _ _ _ _ _ _ _ _ _ HdR _ Ht HN) as Hl. unfold loc in Hl. by rewrite Hv in Hl.
      * intros j [->|Hj]%elem_of_cons Hal; [done|]. unfold alias_reg. cbn [o_st allocated_regs new_args const_args].
        rewrite !Hup by done. by apply H6.
      * intros j k [->|Hj]%elem_of_cons [->|Hk]%elem_of_cons Hjk Aj Ak; try done.
        rewrite !Hup by done. by apply H7.
      * intros r Hr Hb. destruct (H8 r Hr Hb) as [|(j & Hj & -> & ?)]; [by left|right].
        exists j. rewrite Hup by done. set_solver.
    + eapply ok_bind'; [by apply (inp_alloc x pre i)|]. intros [r st'] [Hx' Ha]. cbn [fst snd] in *.
      assert (s_temps st' (arg op i) = s_temps (o_st x) (arg op i)) as He by (by apply (Hst r), Ha).
      eapply input_loaded; try done; auto; [congruence| |apply writes_movi|].
      { intros [?|[? _]]; congruence. }
      intros R M R' M' HdR (Hm & _ & _). split; [|done].
      pose proof (d_val _ _ _ _ _ _ _ _ _ HdR _ Ht HN) as Hl. unfold loc in Hl. rewrite He, Hv in Hl.
      unfold TcgHost.holds in *. by rewrite Hm, He.
Qed.

Lemma alloc_inputs_ok x pre post idx :
  idx = reverse pre ++ post -> NoDup idx -> (forall j, j ∈ idx -> input j) -> inp x pre ->
  lacking \/ met T (fun i => ct_regs (ct i)) idx ->
  ok (alloc_inputs s T global_reg op da x post) (fun x' => inp x' (reverse idx)).
Proof.
  intros Hidx Hnd Hall Hx Hmet. revert x pre Hidx Hx.
  induction post as [|i post IH]; intros x pre Hidx Hx; cbn [alloc_inputs].
  { cbn. rewrite Hidx, app_nil_r, reverse_involutive. done. }
  assert (Hpre : forall j, j ∈ pre -> j ∈ idx).
  { intros j Hj. rewrite Hidx. apply elem_of_app. left. by apply elem_of_reverse. }
  eapply ok_bind'; [apply (alloc_input_ok x pre i)|]; try done.
  - apply Hall. rewrite Hidx. set_solver.
  - intros Hi. rewrite Hidx in Hnd. apply NoDup_app in Hnd as (_ & Hd & _).
    apply (Hd i); [by apply elem_of_reverse|set_solver].
  - auto.
  - destruct Hmet as [|Hmet]; [by left|right]. eapply Hmet; [done|].
    intros r Hr Hb. destruct (i_taken _ _ Hx r Hr Hb) as [|(j & Hj & ? & ?)]; [by left|right].
    exists j. split; [by apply elem_of_reverse|done].
  - intros x' Hx'. apply (IH x' (i :: pre)); [|done]. by rewrite reverse_cons, <- app_assoc.
Qed.
End Inputs.

(** ** Inputs that die *)

Section Dying.
Context (c0 : list hinsn) (I0 : hregs -> hmem -> Prop) (op : TCGOp) (da : Z).

#[local] Abbreviation reaches := (reaches c0 I0).
#[local] Abbreviation dead_inputs := (dead_inputs s global_reg op da).
#[local] Abbreviation canonical := (canonical s).

(** The variables that die at the positions [idx]. *)
Definition dies (idx : list nat) (t : Z) : bool :=
  existsb (fun i => IS_DEAD_ARG da i && (arg op i =? t)) idx && negb (fixed t).

Lemma dead_inputs_ok st idx :
  wf_st st -> (forall i, i ∈ idx -> in_temps (arg op i) = true) ->
  wf_st (dead_inputs st idx) /\
  (forall t, s_temps (dead_inputs st idx) t =
     if dies idx t then set_val_type (canonical t) (s_temps st t) else s_temps st t) /\
  (forall r, reg_to_temp (dead_inputs st idx) r =
     if dies idx (reg_to_temp st r) then -1 else reg_to_temp st r) /\
  out_code (dead_inputs st idx) = out_code st.
Proof.
  revert st. induction idx as [|i idx IH]; intros st Hw Hin; [done|].
  unfold TcgAlloc.dead_inputs. cbn [fold_left]. fold (dead_inputs).
  change (fold_left _ idx ?x) with (dead_inputs x idx).
  set (st1 := if IS_DEAD_ARG da i then temp_dead st (arg op i) else st).
  assert (Ht : in_temps (arg op i) = true) by (apply Hin; set_solver).
  assert (H1 : wf_st st1 /\
    (forall t, s_temps st1 t = if IS_DEAD_ARG da i && (arg op i =? t) && negb (fixed t)
                               then set_val_type (canonical t) (s_temps st t) else s_temps st t) /\
    (forall r, reg_to_temp st1 r = if IS_DEAD_ARG da i && (arg op i =? reg_to_temp st r) && negb (fixed (reg_to_temp st r))
                                   then -1 else reg_to_temp st r) /\ out_code st1 = out_code st).
  { unfold st1. destruct (IS_DEAD_ARG da i); [|done]. split_and!.
    - by apply wf_dead.
    - intros t. rewrite temps_dead, Z.eqb_sym. cbn [andb].
      by destruct (Z.eqb_spec (arg op i) t) as [->|].
    - intros r. rewrite (regs_dead s T global_reg G) by done. rewrite Z.eqb_sym. cbn [andb].
      by destruct (Z.eqb_spec (arg op i) (reg_to_temp st r)) as [->|].
    - apply code_dead. }
  destruct H1 as (Hw1 & Ht1 & Hr1 & Hc1).
  destruct (IH st1 Hw1) as (Hw2 & Ht2 & Hr2 & Hc2); [intros; apply Hin; set_solver|].
  split_and!; [done| | |congruence].
  - intros t. rewrite Ht2, Ht1. unfold dies. cbn [existsb].
    destruct (fixed t); [by rewrite !andb_false_r|]. cbn [negb]. rewrite !andb_true_r.
    by destruct (existsb _ idx), (IS_DEAD_ARG da i && (arg op i =? t)).
  - intros r. rewrite Hr2, Hr1. unfold dies. cbn [existsb].
    destruct (IS_DEAD_ARG da i && (arg op i =? reg_to_temp st r)), (fixed (reg_to_temp st r)) eqn:Hf;
      cbn [negb andb orb]; rewrite ?Hf, ?andb_false_r; [done| |done..]. by destruct (_ && _).
Qed.

Lemma dead_inputs_dyn N E Mb st idx :
  (forall i, i ∈ idx -> in_temps (arg op i) = true) -> wf_st st ->
  (forall t, in_temps t = true -> dies idx t = true -> N t = true ->
     in_mem (s_temps st t)) ->
  reaches st (dyn N E Mb st) -> reaches (dead_inputs st idx) (dyn N E Mb (dead_inputs st idx)).
Proof.
  intros Hin Hw Hm Hd. destruct (dead_inputs_ok st idx Hw Hin) as (_ & Ht & _ & Hc).
  eapply (reaches_impl c0 I0 _ (dyn N E Mb st)); [|by eapply reaches_code].
  intros R M [H1 H2 H3]. constructor.
  - intros t Hit HN. rewrite Ht. destruct (dies idx t) eqn:Hdie; [|auto].
    assert (Hf : fixed t = false) by (unfold dies in Hdie; by apply andb_true_iff in Hdie as [_ ?%negb_true_iff]).
    unfold loc. cbn [set_val_type val_type].
    destruct (canonical t) eqn:Hcn; try (unfold TcgAllocMove.canonical in Hcn; by destruct (_ || _)).
    intros Ha. specialize (H1 t Hit HN). unfold loc in H1. destruct (Hm t Hit Hdie HN) as [Hv|[Hv Hco]]; rewrite Hv in H1; [by apply H1|].
    unfold TcgHost.holds in *. change (slot (set_val_type TEMP_VAL_MEM (s_temps st t))) with (slot (s_temps st t)).
    by rewrite <- (H2 t Hit Hf Hv Hco).
  - intros t Hit Hf. rewrite Ht. destruct (dies idx t); [|auto]. cbn. intros Hv. by destruct (canonical_not_reg s t).
  - intros c Hst Hs. apply H3; [done|]. intros t Hit Hf Ha. specialize (Hs t Hit Hf). rewrite Ht in Hs.
    destruct (dies idx t); auto.
Qed.
End Dying.

(** ** Inputs of an operation, against the liveness analysis *)

Lemma lookup_nth (l : list Z) i : (i < length l)%nat -> l !! i = Some (nth i l 0).
Proof. intros Hi. destruct (lookup_lt_is_Some_2 l i Hi) as [v Hv]. by rewrite nth_lookup, Hv. Qed.

Lemma input_lookup op k :
  wf_shape op = true -> (k < op_iargs op)%nat -> op_inputs op !! k = Some (arg op (op_oargs op + k)).
Proof.
  unfold wf_shape. rewrite !andb_true_iff, Nat.leb_le. intros [[[Hl _] _] _] Hk.
  unfold op_inputs, arg. rewrite lookup_take_lt by done. rewrite lookup_drop.
  apply lookup_nth. lia.
Qed.

Lemma output_lookup op k :
  wf_shape op = true -> (k < op_oargs op)%nat -> op_outputs op !! k = Some (arg op k).
Proof.
  unfold wf_shape. rewrite !andb_true_iff, Nat.leb_le. intros [[[Hl _] _] _] Hk.
  unfold op_outputs, arg. rewrite lookup_take_lt by done.
  apply lookup_nth. lia.
Qed.

Lemma input_elem op i :
  wf_shape op = true -> input op i -> exists k, i = (op_oargs op + k)%nat /\ op_inputs op !! k = Some (arg op i).
Proof.
  intros Hs [H1 H2]. exists (i - op_oargs op)%nat. split; [lia|].
  rewrite input_lookup by (done || lia). do 2 f_equal. lia.
Qed.

(** Memory is used for globals and local temporaries only. *)
Definition la_ok (l : la) : Prop :=
  forall t, mem_temps l t = true -> is_global s t || temp_local s t = true.

(** The tables [st] before the inputs of an operation, and [st2] after. *)
Record inputs_left (l2 : la) (st st2 : astate) : Prop := {
  il_bare : forall t, in_temps t = true -> needed l2 t = true -> bare (s_temps st2 t) -> bare (s_temps st t);
  il_slot : forall t, mem_allocated (s_temps st t) = true ->
    mem_allocated (s_temps st2 t) = true /\ slot (s_temps st2 t) = slot (s_temps st t);
  il_const : forall t, in_temps t = true -> val_type (s_temps st2 t) = TEMP_VAL_CONST ->
    val_type (s_temps st t) = TEMP_VAL_CONST;
}.

Section Sets.
Context (op : TCGOp) (l l2 l' : la) (da sa : Z) (D : Z -> bool) (st0 st1 : astate).
Context (Hshape : wf_shape op = true) (Han : annotated op l l2 l' da sa) (Hla : la_ok l').
Context (Hst : stat s T global_reg G l' D st0) (Hev : evolves s (op_inputs op) st0 st1).
Context (Hw1 : wf_st st1) (Hins : Forall (fun t => in_temps t = true) (op_inputs op)).

#[local] Abbreviation idx := (seq (op_oargs op) (op_iargs op)).
#[local] Abbreviation st2 := (dead_inputs s global_reg op da st1 idx).

Lemma seq_input i : i ∈ idx <-> input op i.
Proof. rewrite elem_of_seq. unfold input. lia. Qed.

Lemma inputs_in i : i ∈ idx -> in_temps (arg op i) = true.
Proof.
  intros Hi%seq_input. destruct (input_elem op i Hshape Hi) as (k & _ & Hk).
  rewrite Forall_forall in Hins. apply Hins. by eapply list_elem_of_lookup_2.
Qed.

Lemma dies_spec t :
  dies op da idx t = bool_decide (t ∈ op_inputs op) && dead_temps l2 t && negb (fixed t).
Proof.
  unfold dies. f_equal. apply eq_true_iff_eq. rewrite existsb_exists, andb_true_iff, bool_decide_eq_true. split.
  - intros (i & Hi%list_elem_of_In%seq_input & [Hd Heq%Z.eqb_eq]%andb_true_iff). subst t.
    destruct (input_elem op i Hshape Hi) as (k & -> & Hk). split; [by eapply list_elem_of_lookup_2|].
    unfold IS_DEAD_ARG in Hd. rewrite (an_dead_in _ _ _ _ _ _ Han k _ Hk) in Hd.
    by apply andb_true_iff in Hd as [? _].
  - intros [Ht Hd]. apply list_elem_of_lookup_1 in Ht as [k0 Hk0].
    assert (exists k, op_inputs op !! k = Some t /\ t ∉ take k (op_inputs op)) as (k & Hk & Hnk).
    { revert Hk0. generalize (op_inputs op). clear. induction k0 as [|k0 IH]; intros [|a ins] Hk; cbn in Hk; try done.
      - exists 0%nat. split; [done|]. set_solver.
      - destruct (decide (a = t)) as [->|Hne]; [exists 0%nat; split; [done|set_solver]|].
        destruct (IH ins Hk) as (k & ? & ?). exists (S k). split; [done|]. cbn [take]. set_solver. }
    pose proof (lookup_lt_Some _ _ _ Hk) as Hlt. destruct (wf_shape_spec op Hshape) as (_ & Hli & _).
    rewrite Hli in Hlt. pose proof (input_lookup op k Hshape Hlt) as Hk'. rewrite Hk in Hk'. injection Hk' as Hk'.
    exists (op_oargs op + k)%nat. split; [apply list_elem_of_In, elem_of_seq; lia|].
    rewrite <- Hk', Z.eqb_refl, andb_true_r. unfold IS_DEAD_ARG.
    rewrite (an_dead_in _ _ _ _ _ _ Han k _ Hk), Hd, bool_decide_true; done.
Qed.

Lemma needed_before t : needed l2 t = true -> needed l' t = true.
Proof.
  unfold needed. rewrite (an_dead _ _ _ _ _ _ Han), (an_mem _ _ _ _ _ _ Han).
  rewrite !orb_true_iff. intros [Hd%negb_true_iff|]; [left|by right]. by rewrite Hd, andb_false_r.
Qed.

Lemma needed_stat (l0 : la) t : needed l0 t = true <-> dead_temps l0 t = false \/ mem_temps l0 t = true.
Proof. unfold needed. by rewrite orb_true_iff, negb_true_iff. Qed.

(** A variable that dies and is needed is in memory. *)
Lemma dying_in_mem t :
  in_temps t = true -> dies op da idx t = true -> needed l2 t = true ->
  in_mem (s_temps st1 t) /\ mem_temps l2 t = true /\ fixed t = false /\ canonical s t = TEMP_VAL_MEM.
Proof.
  intros Ht Hd Hn. rewrite dies_spec in Hd. rewrite !andb_true_iff in Hd. destruct Hd as [[_ Hd] Hf%negb_true_iff].
  apply needed_stat in Hn as [|Hm]; [congruence|]. split_and!; try done.
  - apply (ev_mem _ _ _ _ Hev t Ht). apply (s_mem _ _ _ _ _ _ _ Hst t Ht Hf). by rewrite (an_mem _ _ _ _ _ _ Han).
  - unfold canonical. rewrite Hla; [done|]. by rewrite (an_mem _ _ _ _ _ _ Han).
Qed.

Lemma stat_inputs : stat s T global_reg G l2 D st2.
Proof.
  destruct (dead_inputs_ok op da st1 idx Hw1 inputs_in) as (Hw2 & Ht2 & _ & _).
  constructor; [done|..].
  - intros t Ht Hf Hm. rewrite Ht2. destruct (dies op da idx t) eqn:Hd.
    + destruct (dying_in_mem t Ht Hd) as (_ & _ & _ & ->); [by apply needed_stat; right|]. by left.
    + apply (ev_mem _ _ _ _ Hev t Ht). apply (s_mem _ _ _ _ _ _ _ Hst t Ht Hf). by rewrite (an_mem _ _ _ _ _ _ Han).
  - intros t Ht Hf Hd2. rewrite Ht2, dies_spec, Hd2, Hf. cbn [negb]. rewrite !andb_true_r.
    case_bool_decide as Hin; [done|]. apply (ev_rest _ _ _ _ Hev t Ht Hin).
    apply (s_dead _ _ _ _ _ _ _ Hst t Ht Hf). by rewrite (an_dead _ _ _ _ _ _ Han), Hd2, bool_decide_true.
  - intros t Ht HD Hn%needed_stat. rewrite Ht2.
    assert (readable (s_temps st1 t)) as Hr.
    { apply (ev_read _ _ _ _ Hev t Ht), (s_def _ _ _ _ _ _ _ Hst t Ht HD), needed_stat. by apply needed_before. }
    destruct (dies op da idx t) eqn:Hd; [|done].
    destruct (dying_in_mem t Ht Hd Hn) as (Him & _ & Hf & ->). split; [done|]. intros _. cbn.
    destruct Him as [Hv|[Hv Hc]]; [by apply Hr|]. by apply (w_coh _ _ _ _ _ Hw1).
Qed.

Lemma bare_inputs t : in_temps t = true -> needed l2 t = true -> bare (s_temps st2 t) -> bare (s_temps st0 t).
Proof.
  destruct (dead_inputs_ok op da st1 idx Hw1 inputs_in) as (_ & Ht2 & _ & _).
  intros Ht Hn. rewrite Ht2. destruct (dies op da idx t) eqn:Hd; [|by apply (ev_bare _ _ _ _ Hev)].
  destruct (dying_in_mem t Ht Hd Hn) as (Him & _ & Hf & _). intros [_ Ha]. cbn in Ha.
  apply (ev_bare _ _ _ _ Hev); [done|]. destruct Him as [Hv|[Hv Hc]]; [done|].
  pose proof (w_coh _ _ _ _ _ Hw1 t Ht Hf Hv Hc). congruence.
Qed.

Lemma slots_inputs t :
  mem_allocated (s_temps st0 t) = true ->
  mem_allocated (s_temps st2 t) = true /\ slot (s_temps st2 t) = slot (s_temps st0 t).
Proof.
  destruct (dead_inputs_ok op da st1 idx Hw1 inputs_in) as (_ & Ht2 & _ & _).
  intros Ha. rewrite Ht2. destruct (ev_slot _ _ _ _ Hev t Ha). by destruct (dies op da idx t).
Qed.

Lemma const_inputs t :
  in_temps t = true -> val_type (s_temps st2 t) = TEMP_VAL_CONST -> val_type (s_temps st0 t) = TEMP_VAL_CONST.
Proof.
  destruct (dead_inputs_ok op da st1 idx Hw1 inputs_in) as (_ & Ht2 & _ & _).
  intros Ht. rewrite Ht2. destruct (dies op da idx t); [|by apply (ev_const _ _ _ _ Hev)].
  unfold set_val_type, canonical. cbn. by destruct (_ || _).
Qed.

Lemma after_inputs : inputs_left l2 st0 st2.
Proof. constructor; [apply bare_inputs|apply slots_inputs|apply const_inputs]. Qed.

Lemma code_inputs : out_code st2 = out_code st1.
Proof. by destruct (dead_inputs_ok op da st1 idx Hw1 inputs_in) as (_ & _ & _ & ?). Qed.

Lemma regs_inputs r :
  reg_to_temp st2 r = if dies op da idx (reg_to_temp st1 r) then -1 else reg_to_temp st1 r.
Proof. destruct (dead_inputs_ok op da st1 idx Hw1 inputs_in) as (_ & _ & H & _). apply H. Qed.

Lemma dyn_inputs c0 I0 E Mb :
  reaches c0 I0 st1 (dyn (needed l') E Mb st1) -> reaches c0 I0 st2 (dyn (needed l2) E Mb st2).
Proof.
  intros Hd. apply dead_inputs_dyn; [apply inputs_in|done| |].
  - intros t Ht Hdt Hn. by apply dying_in_mem.
  - eapply reaches_impl; [|exact Hd]. intros R M. apply dyn_weaken. intros t. apply needed_before.
Qed.
End Sets.

(** ** Registers a call may change *)

Lemma free_clobbered_ok c0 I0 N E Mb st regs :
  wf_st st -> reaches c0 I0 st (dyn N E Mb st) ->
  ok (free_clobbered s T global_reg st regs) (fun st' =>
    wf_st st' /\ reaches c0 I0 st' (dyn N E Mb st') /\ spills s global_reg c0 I0 st st' /\
    forall r, r ∈ regs -> clobbered T r = true -> reg_to_temp st' r = -1).
Proof.
  revert st. induction regs as [|r regs IH]; intros st Hw Hd; cbn [free_clobbered].
  { cbn. split_and!; [done..|]. set_solver. }
  eapply (ok_bind' _ _ _ (fun st1 => wf_st st1 /\ reaches c0 I0 st1 (dyn N E Mb st1) /\
    spills s global_reg c0 I0 st st1 /\ (clobbered T r = true -> reg_to_temp st1 r = -1))).
  { unfold clobbered. destruct (Z.testbit _ r); [|done].
    eapply ok_mono; [by apply (tcg_reg_free_ok s T global_reg G Hctx HT lacking Hlack c0 I0 N E Mb)|].
    intros st1 (Hw1 & Hd1 & [F1 F2 F3 F4 F5 F6]). done. }
  intros st1 (Hw1 & Hd1 & Hs1 & Hr1). eapply ok_mono; [by apply IH|].
  intros st2 (Hw2 & Hd2 & Hs2 & Hr2). split_and!; try done; [by etrans|].
  intros r' [->|Hr']%elem_of_cons Hc; [|by apply Hr2].
  destruct (sp_own _ _ _ _ _ _ Hs2 r) as [->|]; auto.
Qed.

(** ** Outputs *)

Lemma temps_assign st t r coh i :
  s_temps (assign_reg (drop_reg st t) t r coh) i =
    if i =? t then set_coherent coh (set_reg r (set_val_type TEMP_VAL_REG (s_temps st t))) else s_temps st i.
Proof. cbn. by rewrite temps_drop. Qed.

Lemma regs_assign st t r coh r' :
  wf_st st -> in_temps t = true -> fixed t = false ->
  reg_to_temp (assign_reg (drop_reg st t) t r coh) r' =
    if r' =? r then t else if reg_to_temp st r' =? t then -1 else reg_to_temp st r'.
Proof. intros. cbn. by rewrite <- (regs_drop s T global_reg G). Qed.

(** What stays of the variables other than [outs]. *)
Record stays (outs : list Z) (st st' : astate) : Prop := {
  sy_mem : forall t, in_temps t = true -> t ∉ outs -> in_mem (s_temps st t) -> in_mem (s_temps st' t);
  sy_read : forall t, in_temps t = true -> t ∉ outs -> readable (s_temps st t) -> readable (s_temps st' t);
  sy_rest : forall t, in_temps t = true -> t ∉ outs -> val_type (s_temps st t) = canonical s t ->
    val_type (s_temps st' t) = canonical s t;
  sy_bare : forall t, in_temps t = true -> t ∉ outs -> bare (s_temps st' t) -> bare (s_temps st t);
  sy_slot : forall t, mem_allocated (s_temps st t) = true ->
    mem_allocated (s_temps st' t) = true /\ slot (s_temps st' t) = slot (s_temps st t);
  sy_const : forall t, in_temps t = true -> t ∉ outs -> val_type (s_temps st' t) = TEMP_VAL_CONST ->
    val_type (s_temps st t) = TEMP_VAL_CONST;
}.

#[export] Instance stays_refl outs : Reflexive (stays outs).
Proof. intros st. by constructor. Qed.

#[export] Instance stays_trans outs : Transitive (stays outs).
Proof.
  intros x y z [A1 A2 A3 A4 A5 A6] [B1 B2 B3 B4 B5 B6]. constructor; auto.
  intros t Ha. destruct (A5 t Ha) as [Hy Hs]. destruct (B5 t Hy) as [Hz Hs']. split; congruence.
Qed.

Lemma stays_spills c0 I0 outs st st' : spills s global_reg c0 I0 st st' -> stays outs st st'.
Proof using Type.
  intros Hs. apply (evolves_spills s global_reg c0 I0 []) in Hs. destruct Hs as [H1 H2 H3 H4 H5 H6].
  constructor; auto. intros t Ht _. apply H3; [done|apply not_elem_of_nil].
Qed.

(** Only a variable of [outs] changes. *)
Lemma stays_upd outs st st' t :
  t ∈ outs -> (forall i, i <> t -> s_temps st' i = s_temps st i) ->
  (mem_allocated (s_temps st t) = true ->
   mem_allocated (s_temps st' t) = true /\ slot (s_temps st' t) = slot (s_temps st t)) -> stays outs st st'.
Proof using Type.
  intros Ht He Hs.
  constructor; intros i; try (intros _ Hi; rewrite He; [done|]; by intros ->).
  destruct (decide (i = t)) as [->|Hne]; [done|by rewrite He].
Qed.

Section Outputs.
Context (c0 : list hinsn) (I0 : hregs -> hmem -> Prop).
Context (op : TCGOp) (N : Z -> bool) (E : env) (Mb : hmem) (st2 : astate) (na : nat -> Z) (ca : nat -> bool).

(** Whether the globals are shown to the operation. *)
Context (shown : bool).

#[local] Abbreviation reaches := (reaches c0 I0).
#[local] Abbreviation spills := (spills s global_reg c0 I0).
#[local] Abbreviation ct := (args_ct T (opc op)).
#[local] Abbreviation outs := (op_outputs op).

Definition output (o : nat) : Prop := (o < op_oargs op)%nat.

(** The outputs are different variables without use, and not in fixed
    registers; the registers some share with inputs are free and different. *)
Hypothesis Hout : forall o, output o ->
  arg op o ∈ outs /\ in_temps (arg op o) = true /\ N (arg op o) = false /\ fixed (arg op o) = false.
Hypothesis Hcov : forall t, t ∈ outs -> exists o, output o /\ arg op o = t.
Hypothesis Hdiff : forall o o', output o -> output o' -> arg op o = arg op o' -> o = o'.
Hypothesis Hshare : forall o, output o -> CT_ALIAS (ct o) = true ->
  (op_oargs op <= alias_index (ct o))%nat /\
  reserved (na (alias_index (ct o))) = false /\ 0 <= na (alias_index (ct o)) < TCG_TARGET_NB_REGS T /\
  Z.testbit (output_regs T (opc op) o) (na (alias_index (ct o))) = true /\
  reg_to_temp st2 (na (alias_index (ct o))) = -1.
Hypothesis Hshare_inj : forall o o', output o -> output o' -> CT_ALIAS (ct o) = true ->
  CT_ALIAS (ct o') = true -> na (alias_index (ct o)) = na (alias_index (ct o')) -> o = o'.
Hypothesis Hclob : OPF_CALL_CLOBBER (tcg_op_defs (opc op)) = true ->
  forall r, clobbered T r = true -> 0 <= r < TCG_TARGET_NB_REGS T -> reg_to_temp st2 r = -1.

(** The output [o] has its register. *)
Definition has_output (x : opstate) (o : nat) : Prop :=
  let ts := s_temps (o_st x) (arg op o) in
  val_type ts = TEMP_VAL_REG /\ treg ts = new_args x o /\ mem_coherent ts = false /\
  reserved (new_args x o) = false /\ Z.testbit (allocated_regs x) (new_args x o) = true.

Record outp (x : opstate) (pre pend : list nat) : Prop := {
  p_wf : wf_st (o_st x);
  p_dyn : reaches (o_st x) (dyn N E Mb (o_st x));
  p_stays : stays outs st2 (o_st x);
  p_resv : forall r, reserved r = true -> Z.testbit (allocated_regs x) r = true;
  p_done : forall o, o ∈ pre -> has_output x o;
  p_pend : forall o, o ∈ pend -> CT_ALIAS (ct o) = true ->
    reg_to_temp (o_st x) (na (alias_index (ct o))) = -1;
  p_taken : taken_for T (output_regs T (opc op)) pre (new_args x) (allocated_regs x);
  p_new : (forall i, (op_oargs op <= i)%nat -> new_args x i = na i) /\ const_args x = ca;
  p_code : forall P : hregs -> Prop, reaches st2 (fun R _ => P R) -> reaches (o_st x) (fun R _ => P R);
  p_clob : OPF_CALL_CLOBBER (tcg_op_defs (opc op)) = true ->
    forall r, clobbered T r = true -> 0 <= r < TCG_TARGET_NB_REGS T ->
      reg_to_temp (o_st x) r = -1 \/ exists o, o ∈ pre /\ new_args x o = r;
  p_type : forall o, output o -> o ∉ pre -> val_type (s_temps (o_st x) (arg op o)) <> TEMP_VAL_REG;
  p_old : forall g, g ∈ outs -> is_global s g = true -> fixed g = false -> shown = true ->
    reaches (o_st x) (fun _ M => holds E g (M (slot (G g))));
}.

(** The output [o] gets register [r]. *)
Lemma outp_add x pre pend o r :
  outp x pre pend -> output o -> o ∉ pre -> (forall j, j ∈ pre -> output j) ->
  (forall j, j ∈ pend -> output j) -> o ∉ pend ->
  reserved r = false -> 0 <= r < TCG_TARGET_NB_REGS T -> reg_to_temp (o_st x) r = -1 ->
  Z.testbit (output_regs T (opc op) o) r = true ->
  (forall j, j ∈ pend -> CT_ALIAS (ct j) = true -> na (alias_index (ct j)) <> r) ->
  outp (mk_ops (assign_reg (drop_reg (o_st x) (arg op o)) (arg op o) r false)
          (set_regset (allocated_regs x) r) (upd_arg (new_args x) o r) (const_args x)) (o :: pre) pend.
Proof.
  intros [H1 H2 H3 H4 H5 H6 H7 [H8a H8b] H9 H10 H11 H12] Ho Hn Hpre Hpend Hnp Hr Hrg Hfree Hreg Hne.
  destruct (Hout o Ho) as (Hoo & Ht & HN & Hf).
  assert (Hup : forall {A} (f : nat -> A) v j, j <> o -> upd_arg f o v j = f j).
  { intros A f v j Hj. unfold upd_arg. by destruct (Nat.eqb_spec j o). }
  assert (Huo : forall {A} (f : nat -> A) v, upd_arg f o v o = v)
    by (intros; unfold upd_arg; by rewrite Nat.eqb_refl).
  assert (Hbit : forall r', Z.testbit (set_regset (allocated_regs x) r) r' =
    Z.testbit (allocated_regs x) r' || (r' =? r)) by (intros; apply testbit_set_regset; lia).
  assert (Hregs : forall r', reg_to_temp (assign_reg (drop_reg (o_st x) (arg op o)) (arg op o) r false) r' =
    if r' =? r then arg op o else if reg_to_temp (o_st x) r' =? arg op o then -1 else reg_to_temp (o_st x) r')
    by (intros; by apply regs_assign).
  constructor; cbn [o_st allocated_regs new_args const_args].
  - by apply (wf_assign s T global_reg G); auto.
  - eapply (reaches_impl c0 I0 _ (dyn N E Mb (o_st x))).
    + intros R M. apply (dyn_upd s T global_reg N E Mb _ _ (arg op o)); [| |congruence|].
      * intros i Hi. rewrite temps_assign. by destruct (Z.eqb_spec i (arg op o)).
      * by rewrite temps_assign, Z.eqb_refl.
      * by rewrite temps_assign, Z.eqb_refl.
    + eapply reaches_code; [|exact H2]. cbn. apply code_drop.
  - etrans; [exact H3|]. apply (stays_upd _ _ _ (arg op o)); [done| |].
    + intros i Hi. rewrite temps_assign. by destruct (Z.eqb_spec i (arg op o)).
    + by rewrite temps_assign, Z.eqb_refl.
  - intros r' Hr'. rewrite Hbit, H4; done.
  - intros j Hj. unfold has_output. cbn [o_st allocated_regs new_args const_args].
    rewrite temps_assign, Hbit. apply elem_of_cons in Hj as [->|Hj].
    + rewrite Z.eqb_refl, Huo, Z.eqb_refl, orb_true_r. done.
    + assert (j <> o) as Hjo by (by intros ->). rewrite Hup by done.
      destruct (Z.eqb_spec (arg op j) (arg op o)) as [He|_]; [by apply Hdiff in He; auto|].
      destruct (H5 j Hj) as (? & ? & ? & ? & ->). done.
  - intros j Hj Ha. rewrite Hregs. destruct (Z.eqb_spec (na (alias_index (ct j))) r) as [He|_]; [by apply Hne in He|].
    rewrite H6 by done. by destruct (-1 =? _).
  - intros r' Hr'. rewrite Hbit. intros [Hb|Hb%Z.eqb_eq]%orb_true_iff.
    + destruct (H7 r' Hr' Hb) as [|(j & Hj & -> & ?)]; [by left|right]. exists j.
      rewrite Hup by (by intros ->). set_solver.
    + subst r'. right. exists o. rewrite Huo. set_solver.
  - split; [|done]. intros i Hi. rewrite Hup; [by apply H8a|]. unfold output in Ho. lia.
  - intros P HP. eapply reaches_code; [|by apply H9]. cbn. apply code_drop.
  - intros Hc r' Hr' Hrg'. rewrite Hregs. destruct (Z.eqb_spec r' r) as [->|Hner].
    + right. exists o. rewrite Huo. set_solver.
    + destruct (H10 Hc r' Hr' Hrg') as [->|(j & Hj & Hj')]; [left; by destruct (-1 =? _)|right].
      exists j. rewrite Hup by (by intros ->). set_solver.
  - intros j Hj Hjp. rewrite temps_assign.
    destruct (Z.eqb_spec (arg op j) (arg op o)) as [He|_]; [|apply H11; set_solver].
    apply Hdiff in He; [set_solver|auto..].
  - intros g Hg1 Hg2 Hg3 Hg4. eapply reaches_code; [|by apply H12]. cbn. apply code_drop.
Qed.

Lemma alloc_output_ok x pre pend o :
  outp x pre (o :: pend) -> output o -> o ∉ pre -> o ∉ pend -> (forall j, j ∈ pre -> output j) ->
  (forall j, j ∈ pend -> output j) ->
  (CT_ALIAS (ct o) = false -> Forall (fun j => CT_ALIAS (ct j) = false) pend) ->
  lacking \/ available T (output_regs T (opc op) o) (allocated_regs x) ->
  ok (alloc_output s T global_reg op x o) (fun x' => outp x' (o :: pre) pend).
Proof.
  intros Hx Ho Hn Hnp Hpre Hpend Hal Hav. destruct (Hout o Ho) as (Hoo & Ht & HN & Hf).
  unfold alloc_output. rewrite Hf, andb_false_r. cbn [andb].
  assert (Hx0 : outp x pre pend).
  { destruct Hx as [? ? ? ? ? H6 ? ? ? ? H11 ?]. constructor; try done. intros j Hj. apply H6. set_solver. }
  destruct (CT_ALIAS (ct o)) eqn:Ha.
  - cbn [mbind outcome_bind TcgAllocInv.ok]. destruct (Hshare o Ho Ha) as (Hge & Hres & Hrg & Hreg & _).
    destruct (p_new _ _ _ Hx) as [Hnew _]. rewrite Hnew by done.
    apply outp_add; try done.
    + apply (p_pend _ _ _ Hx); [set_solver|done].
    + intros j Hj Hja He. assert (j = o) as -> by (apply Hshare_inj; auto). done.
  - eapply ok_bind'.
    { eapply (tcg_reg_alloc_ok s T global_reg G Hctx HT lacking Hlack c0 I0 N E Mb); [apply Hx|apply Hx|].
      unfold output_regs in Hav. rewrite Ha in Hav. exact Hav. }
    intros [r st'] (Hw' & Hd' & [[F1 F2 F3 F4 F5 F6] A2 A3 A4]). cbn [fst snd TcgAllocInv.ok] in *.
    assert (Hres : reserved r = false).
    { apply not_true_is_false. intros Hr. apply (p_resv _ _ _ Hx) in Hr. congruence. }
    assert (Hx' : outp (mk_ops st' (allocated_regs x) (new_args x) (const_args x)) pre pend).
    { destruct Hx0 as [H1 H2 H3 H4 H5 H6 H7 H8 H9 H10 H11 H12]. constructor; cbn [o_st allocated_regs new_args const_args]; try done.
      - etrans; [exact H3|]. by eapply stays_spills.
      - intros j Hj. destruct (H5 j Hj) as (Hv & Hr & Hc & Hre & Hb). unfold has_output. cbn [o_st allocated_regs new_args].
        rewrite F4; [done|]. intros He. destruct (w_own _ _ _ _ _ H1 r) as [Hm|(_ & _ & _ & Hrr & _)].
        + destruct (Hout j (Hpre j Hj)) as (_ & Hjt & _). apply neg_in in Hjt. congruence.
        + rewrite He in Hrr. congruence.
      - intros j Hj Hja. specialize (Hal eq_refl). rewrite Forall_forall in Hal. rewrite Hal in Hja; done.
      - intros P HP. apply (sp_code _ _ _ _ _ _ F1), H9, HP.
      - intros Hc r' Hr' Hrg'. destruct (H10 Hc r' Hr' Hrg') as [Hm|]; [left|by right].
        destruct (sp_own _ _ _ _ _ _ F1 r'); congruence.
      - intros j Hj Hjp Hv. apply (H11 j Hj Hjp). destruct (Hout j Hj) as (_ & Hjt & _).
        destruct (sp_type _ _ _ _ _ _ F1 _ Hjt) as [Heq|(? & _)]; congruence.
      - intros g Hg1 Hg2 Hg3 Hg4. apply F6; [|by apply H12]. intros Hown Hsl.
        destruct (w_global _ _ _ _ _ Hw' g Hg2 Hg3) as [Hga Hgs]. rewrite <- Hgs in Hsl.
        destruct (w_own _ _ _ _ _ H1 r) as [|(Hti & Hfi & Hvi & Hri & _)]; [done|].
        eapply (slot_inj s T global_reg G) in Hsl; try done; [|by apply global_in|by apply F5].
        destruct (Hcov g Hg1) as (j & Hj & Hja). rewrite Hsl in Hvi, Hri. rewrite <- Hja in Hvi, Hri.
        destruct (decide (j ∈ pre)) as [Hjp|Hjp]; [|by apply (H11 j Hj Hjp)].
        destruct (H5 j Hjp) as (_ & Hr & _ & _ & Hb). congruence. }
    apply (outp_add _ pre pend o r Hx'); try done.
    + unfold output_regs. by rewrite Ha.
    + intros j Hj Hja. specialize (Hal eq_refl). rewrite Forall_forall in Hal. rewrite Hal in Hja; done.
Qed.

Lemma alloc_outputs_ok x pre post idx :
  idx = reverse pre ++ post -> NoDup idx -> (forall j, j ∈ idx -> output j) -> outp x pre post ->
  (forall a o b, post = a ++ o :: b -> CT_ALIAS (ct o) = false ->
     Forall (fun j => CT_ALIAS (ct j) = false) b) ->
  lacking \/ met T (output_regs T (opc op)) idx ->
  ok (alloc_outputs s T global_reg op x post) (fun x' => outp x' (reverse idx) []).
Proof.
  intros Hidx Hnd Hall Hx Hord Hmet. revert x pre Hidx Hx Hord.
  induction post as [|o post IH]; intros x pre Hidx Hx Hord; cbn [alloc_outputs].
  { cbn. rewrite Hidx, app_nil_r, reverse_involutive. done. }
  assert (Hpre : forall j, j ∈ pre -> j ∈ idx).
  { intros j Hj. rewrite Hidx. apply elem_of_app. left. by apply elem_of_reverse. }
  rewrite Hidx in Hnd. apply NoDup_app in Hnd as (Hnd1 & Hd & [Hnp Hnd2]%NoDup_cons).
  eapply ok_bind'; [apply (alloc_output_ok x pre post o)|]; try done.
  - apply Hall. rewrite Hidx. set_solver.
  - intros Hi. apply (Hd o); [by apply elem_of_reverse|set_solver].
  - auto.
  - intros j Hj. apply Hall. rewrite Hidx. set_solver.
  - by apply (Hord []).
  - destruct Hmet as [|Hmet]; [by left|right]. eapply Hmet; [done|].
    intros r Hr Hb. destruct (p_taken _ _ _ Hx r Hr Hb) as [|(j & Hj & ? & ?)]; [by left|right].
    exists j. split; [by apply elem_of_reverse|done].
  - intros x' Hx'. apply (IH x' (o :: pre)); [by rewrite reverse_cons, <- app_assoc|done|].
    intros a o' b -> Ha. by apply (Hord (o :: a) o' b).
Qed.
End Outputs.
End Op.
