(* ===== verification/TcgAllocExec.v ===== *)
(** * Register allocation and the run of an operation

    What the code emitted for an operation does: the operands the
    instruction finds are the values of the inputs, and afterwards the
    outputs are where the tables say. *)

From S2P Require Import Prelude HostUtils BitField TcgOp TcgOpt TcgSem TcgMono TcgLive TcgAlloc TcgHost.
From S2P Require Import TcgInv TcgGood TcgCorrect TcgFrame TcgLiveness TcgAllocInv TcgAllocMove TcgAllocLive.
From S2P Require Import TcgAllocOp.

(** What holds for every [a] holds of the one result. *)
Lemma ok_forall {A B} lacking (m : outcome A) (Q : B -> A -> Prop) :
  inhabited B -> (forall b, ok lacking m (Q b)) -> ok lacking m (fun a => forall b, Q b a).
Proof. intros [b] H. destruct m; [done|apply (H b)..]. Qed.

Lemma ok_and {A} lacking (m : outcome A) (P Q : A -> Prop) :
  ok lacking m P -> ok lacking m Q -> ok lacking m (fun a => P a /\ Q a).
Proof. destruct m; cbn; tauto. Qed.

Section Exec.
Context (s : TCGContext) (T : TCGTarget) (global_reg : Z -> bool) (G : Z -> TCGTemp).
Context (Hctx : wf_ctx s = true) (HT : target_ok s T global_reg G).
Context (lacking : Prop) (Hlack : lacking \/ enough_frame s T).

#[local] Abbreviation fixed := (fixed_reg s global_reg).
#[local] Abbreviation in_temps := (in_temps s).
#[local] Abbreviation ty := (temp_type s).
#[local] Abbreviation reserved r := (Z.testbit (reserved_regs T) r).
#[local] Abbreviation wf_st := (wf_st s T global_reg G).
#[local] Abbreviation dyn := (dyn s T global_reg).
#[local] Abbreviation ok := (ok lacking).
#[local] Abbreviation holds := (holds s).
#[local] Abbreviation temp_dead := (temp_dead s global_reg).
#[local] Abbreviation tcg_reg_sync := (tcg_reg_sync s T global_reg).
#[local] Abbreviation stat := (stat s T global_reg G).

(** ** An output after the instruction *)

(** Variable [t] is where the sets [l] want it; it is a constant only if
    [const]. *)
Record settled (const : bool) (l : la) (t : Z) (ts : TCGTemp) : Prop := {
  se_mem : mem_temps l t = true -> in_mem ts;
  se_dead : dead_temps l t = true -> val_type ts = canonical s t;
  se_need : needed l t = true -> readable ts /\ ~ bare ts;
  se_const : val_type ts = TEMP_VAL_CONST -> const = true;
}.

Lemma store_output_ok c0 I0 N E Mb l st r t :
  la_ok s l -> wf_st st -> in_temps t = true -> fixed t = false ->
  val_type (s_temps st t) = TEMP_VAL_REG -> treg (s_temps st t) = r ->
  (N t = true -> needed l t = true) -> reaches c0 I0 st (dyn N E Mb st) ->
  ok (st ← (if mem_temps l t then tcg_reg_sync st r else Ret st);
      Ret (if dead_temps l t then temp_dead st t else st)) (fun st' =>
    wf_st st' /\ reaches c0 I0 st' (dyn N E Mb st') /\
    (forall i, i <> t -> s_temps st' i = s_temps st i) /\
    (mem_allocated (s_temps st t) = true ->
     mem_allocated (s_temps st' t) = true /\ slot (s_temps st' t) = slot (s_temps st t)) /\
    (forall r', reg_to_temp st r' <> t -> reg_to_temp st' r' = reg_to_temp st r') /\
    settled false l t (s_temps st' t) /\
    (forall P : hregs -> Prop, reaches c0 I0 st (fun R _ => P R) -> reaches c0 I0 st' (fun R _ => P R))).
Proof.
  intros Hla Hw Ht Hf Hv Hr HN Hd. pose proof (w_reg _ _ _ _ _ Hw t Ht Hf Hv) as Hown. rewrite Hr in Hown.
  eapply (ok_bind' _ _ _ (fun st1 => wf_st st1 /\ reaches c0 I0 st1 (dyn N E Mb st1) /\
    (forall i, i <> t -> s_temps st1 i = s_temps st i) /\
    (mem_allocated (s_temps st t) = true ->
     mem_allocated (s_temps st1 t) = true /\ slot (s_temps st1 t) = slot (s_temps st t)) /\
    reg_to_temp st1 = reg_to_temp st /\ val_type (s_temps st1 t) = TEMP_VAL_REG /\
    (mem_temps l t = true -> mem_coherent (s_temps st1 t) = true /\ mem_allocated (s_temps st1 t) = true) /\
    (forall P : hregs -> Prop, reaches c0 I0 st (fun R _ => P R) -> reaches c0 I0 st1 (fun R _ => P R)))).
  { destruct (mem_temps l t); [|done].
    eapply ok_mono; [eapply (tcg_reg_sync_ok s T global_reg G Hctx HT lacking Hlack c0 I0 N E Mb st r t); try done|].
    - by apply neg_in in Ht.
    - intros st1 (Hw1 & Hd1 & Hsp & Hrt & Hi & Hv1 & Hc1 & Ha1 & _). split_and!; try done.
      + apply (sp_slot _ _ _ _ _ _ Hsp).
      + apply (sp_code _ _ _ _ _ _ Hsp). }
  intros st1 (Hw1 & Hd1 & Hi1 & Hs1 & Hrt & Hv1 & Hm1 & Hk1). cbn [TcgAllocInv.ok].
  destruct (dead_temps l t) eqn:Hdd.
  - assert (Hcan : mem_temps l t = true -> canonical s t = TEMP_VAL_MEM)
      by (intros Hm; unfold canonical; by rewrite (Hla t Hm)).
    assert (Het : s_temps (temp_dead st1 t) t = set_val_type (canonical s t) (s_temps st1 t))
      by (by rewrite temps_dead, Z.eqb_refl, Hf).
    assert (Hnm : needed l t = true -> mem_temps l t = true) by (unfold needed; by rewrite Hdd).
    split_and!.
    + by apply (wf_dead s T global_reg G).
    + eapply (reaches_impl c0 I0 _ (dyn N E Mb st1)); [|eapply reaches_code; [apply code_dead|done]].
      intros R M. apply dyn_dead; [done|]. intros _ Hn. right. split; [done|]. by apply Hm1, Hnm, HN.
    + intros i Hi. rewrite temps_dead. destruct (Z.eqb_spec i t); [done|]. by apply Hi1.
    + rewrite Het. apply Hs1.
    + intros r' Hr'. rewrite (regs_dead s T global_reg G) by done. rewrite Hrt.
      by destruct (Z.eqb_spec (reg_to_temp st r') t).
    + rewrite Het. constructor; cbn [set_val_type val_type mem_allocated].
      * intros Hm. left. by apply Hcan.
      * done.
      * intros Hn%Hnm. unfold readable, bare. cbn. rewrite Hcan by done.
        destruct (Hm1 Hn) as [_ ->]. naive_solver.
      * unfold canonical. by destruct (_ || _).
    + intros P HP. eapply reaches_code; [apply code_dead|]. by apply Hk1.
  - split_and!; try done; [by rewrite Hrt|]. constructor.
    + intros Hm. right. split; [done|]. by apply Hm1.
    + congruence.
    + intros _. unfold readable, bare. rewrite Hv1. naive_solver.
    + congruence.
Qed.

Section Finish.
Context (c0 : list hinsn) (I0 : hregs -> hmem -> Prop) (E : env) (Mb : hmem).
Context (op : TCGOp) (l l2 l' : la) (da sa : Z) (na : nat -> Z) (st3 : astate).
Context (Hla : la_ok s l) (Hshape : wf_shape op = true) (Han : annotated op l l2 l' da sa).
Context (Houts : Forall (fun t => in_temps t = true /\ fixed t = false) (op_outputs op)).

Lemma output_facts o :
  output op o -> arg op o ∈ op_outputs op /\ in_temps (arg op o) = true /\ fixed (arg op o) = false /\
    Z.testbit da (Z.of_nat o) = dead_temps l (arg op o) /\ Z.testbit sa (Z.of_nat o) = mem_temps l (arg op o).
Proof.
  intros Ho. pose proof (output_lookup op o Hshape Ho) as Hl.
  pose proof (list_elem_of_lookup_2 _ _ _ Hl) as Hin. rewrite Forall_forall in Houts.
  destruct (Houts _ Hin). split_and!; try done; [by apply (an_dead_out _ _ _ _ _ _ Han)|by apply (an_sync_out _ _ _ _ _ _ Han)].
Qed.

Lemma output_diff o o' : output op o -> output op o' -> arg op o = arg op o' -> o = o'.
Proof.
  intros Ho Ho' He. destruct (wf_shape_spec op Hshape) as (_ & _ & _ & _ & Hn).
  eapply (NoDup_lookup (op_outputs op)); [done|by apply output_lookup|].
  rewrite He. by apply output_lookup.
Qed.

Definition in_its_reg (st : astate) (o : nat) : Prop :=
  val_type (s_temps st (arg op o)) = TEMP_VAL_REG /\ treg (s_temps st (arg op o)) = na o.

Lemma finish_outputs_ok k n st :
  (k + n = op_oargs op)%nat -> wf_st st -> reaches c0 I0 st (dyn (needed l) E Mb st) ->
  stays s (op_outputs op) st3 st ->
  (forall o, (k <= o)%nat -> output op o -> in_its_reg st o) ->
  (forall o, (o < k)%nat -> output op o -> settled false l (arg op o) (s_temps st (arg op o))) ->
  ok (finish_outputs s T global_reg op da sa na st (seq k n)) (fun st' =>
    wf_st st' /\ reaches c0 I0 st' (dyn (needed l) E Mb st') /\ stays s (op_outputs op) st3 st' /\
    forall o, output op o -> settled false l (arg op o) (s_temps st' (arg op o))).
Proof.
  revert k st. induction n as [|n IH]; intros k st Hk Hw Hd Hs Hp Hset; cbn [seq finish_outputs].
  { cbn. split_and!; try done. intros o Ho. apply Hset; [|done]. unfold output in Ho. lia. }
  assert (Ho : output op k) by (unfold output; lia).
  destruct (output_facts k Ho) as (Hin & Ht & Hf & Hda & Hsa). destruct (Hp k (le_n k) Ho) as [Hv Hr].
  eapply ok_bind'.
  { unfold finish_output, NEED_SYNC_ARG, IS_DEAD_ARG. rewrite Hf, Hda, Hsa. cbn [andb].
    by apply (store_output_ok c0 I0 (needed l) E Mb l st (na k) (arg op k)). }
  intros st1 (Hw1 & Hd1 & Hi1 & Hs1 & Hr1 & Hset1 & _). apply (IH (S k)); try done; [lia|..].
  - etrans; [exact Hs|]. by eapply (stays_upd s) with (t := arg op k).
  - intros o Hko Hoo. unfold in_its_reg. rewrite Hi1; [apply Hp; [lia|done]|].
    intros He. apply output_diff in He; [lia|done..].
  - intros o Hko Hoo. destruct (decide (o = k)) as [->|Hne]; [done|]. rewrite Hi1; [apply Hset; [lia|done]|].
    intros He. by apply output_diff in He.
Qed.
End Finish.

(** ** What an instruction finds *)

Lemma obs_agree (E : env) obs t :
  (forall p, p ∈ obs -> E p.1 = None \/ E p.1 = Some p.2) -> t ∈ map fst obs ->
  ole (E t) (obs_env obs t).
Proof.
  intros HE Ht. destruct (E t) as [v|] eqn:Hv; [|by left]. right.
  assert (Hall : forall p, p ∈ List.filter (fun p => p.1 =? t) obs -> p.2 = v).
  { intros p Hp. apply list_elem_of_In, filter_In in Hp as [Hp Heq%Z.eqb_eq]. apply list_elem_of_In in Hp.
    destruct (HE p Hp); congruence. }
  assert (Hne : List.filter (fun p => p.1 =? t) obs <> []).
  { apply list_elem_of_In, in_map_iff in Ht as (p & He & Hp). intros Hnil.
    assert (In p (List.filter (fun p => p.1 =? t) obs)) as Hin by (apply filter_In; split; [done|]; by apply Z.eqb_eq).
    by rewrite Hnil in Hin. }
  unfold obs_env. destruct (List.filter _ obs) as [|p ps]; [done|].
  assert (forallb (fun q => q.2 =? p.2) ps = true) as ->.
  { apply forallb_forall. intros q Hq%list_elem_of_In. apply Z.eqb_eq.
    rewrite (Hall q), (Hall p); [done|..]; set_solver. }
  by rewrite (Hall p) by set_solver.
Qed.

Lemma obs_env_ok obs :
  (forall p, p ∈ obs -> 0 <= p.2 < 2 ^ wbits (ty p.1)) -> env_ok s (obs_env obs).
Proof.
  intros Ho t v. unfold obs_env.
  destruct (List.filter _ obs) as [|p ps] eqn:Hf; [done|]. destruct (forallb _ ps); [|done]. intros [= <-].
  assert (In p (List.filter (fun p => p.1 =? t) obs)) as Hin by (rewrite Hf; by left).
  apply filter_In in Hin as [Hp Heq%Z.eqb_eq]. rewrite <- Heq. by apply Ho, list_elem_of_In.
Qed.

(** Places that hold what the variables are. *)
Lemma saw_agree E (f : nat -> Z * Z) (g : Z -> Z) idx gs t :
  (forall i, i ∈ idx -> holds E (f i).1 (f i).2) -> (forall x, x ∈ gs -> holds E x (g x)) ->
  let obs := map (fun i => saw s (f i).1 (f i).2) idx ++ map (fun x => saw s x (g x)) gs in
  env_ok s (obs_env obs) /\ (t ∈ map (fun i => (f i).1) idx ++ gs -> ole (E t) (obs_env obs t)).
Proof.
  intros Hf Hg obs. split.
  - apply obs_env_ok. intros p [Hp|Hp]%elem_of_app; apply list_elem_of_In, in_map_iff in Hp as (i & <- & _);
      apply low_range.
  - intros Ht. apply obs_agree.
    + intros p [Hp|Hp]%elem_of_app; apply list_elem_of_In, in_map_iff in Hp as (i & <- & Hi%list_elem_of_In);
        [by apply Hf|by apply Hg].
    + unfold obs. rewrite map_app, !map_map. cbn. by rewrite map_id.
Qed.

Context {World : Type}.
Context (ext : TCGOpcode -> list Z -> list Z -> list Z -> World ->
               list Z -> list Z -> World -> bool -> Prop).

#[local] Abbreviation exec := (exec s ext).
#[local] Abbreviation hexec := (hexec s T global_reg G ext).
#[local] Abbreviation home := (home s global_reg G).

Lemma exec_stop_alone op E m E' m' t :
  exec op E m E' m' Stop -> writes_globals op = false -> E' t = left_alone s op E t.
Proof.
  intros Hx Hw. inversion Hx as [| | | |? ? ? ? ? [] |? ? ? ? ? ? [] |? ? vals gl' ? [] ? ? ? ? ?]; try done.
  unfold after_effect, left_alone, ends_bb.
  assert (forall x, wr_globals s E op gl' x = E x) as Hg by (intros x; unfold wr_globals; by rewrite Hw).
  destruct (OPF_BB_END _); [unfold bb_end|]; by rewrite ?Hg.
Qed.

Lemma op_inputs_map op : wf_shape op = true -> op_inputs op = map (arg op) (seq (op_oargs op) (op_iargs op)).
Proof.
  intros Hs. apply list_eq. intros k. destruct (decide (k < op_iargs op)%nat) as [Hk|Hk].
  - rewrite (input_lookup op k Hs Hk). symmetry. rewrite list_lookup_fmap, lookup_seq_lt by done. done.
  - destruct (wf_shape_spec op Hs) as (_ & Hl & _). rewrite !lookup_ge_None_2; [done|..].
    + rewrite length_map, length_seq. lia.
    + lia.
Qed.

(** The instruction for an operation does what the operation may do. *)
Lemma hexec_op_ok op na ca E R M m R' M' m' f :
  opc op <> INDEX_op_call -> wf_args s op = true -> wf_shape op = true ->
  (forall i, input op i -> holds E (arg op i) (operand R na ca i)) ->
  (reads_globals op = true -> forall g, is_global s g = true -> holds E g (home R M g)) ->
  hexec (tcg_out_op op na ca) R M m R' M' m' f ->
  exists E', exec op E m E' m' f /\ M' = M /\
    (f = Next -> forall o, output op o -> holds E' (arg op o) (R' (nth o na 0))) /\
    (forall r, (forall o, output op o -> nth o na 0 <> r) ->
       OPF_CALL_CLOBBER (tcg_op_defs (opc op)) && clobbered T r = false -> R' r = R r) /\
    (forall t, t ∉ op_outputs op -> E' t = left_alone s op E t) /\
    (f = Stop -> forall t, E' t = left_alone s op E t).
Proof.
  intros Hc Hwa Hs Hop Hgl Hx.
  assert (Hng : writes_globals op = false).
  { apply not_true_is_false. intros Hw. by apply writes_call in Hw. }
  inversion Hx as [? ? ? ? ? ? Hmv|? ? ? ? ? ? Et' ? ? ? Hex Hout Hreg| |]; subst; [done|].
  pose proof (saw_agree E (fun i => (arg op i, operand R na ca i)) (home R M')
    (seq (op_oargs op) (op_iargs op)) (shown_globals s op)) as Hag. cbn [fst snd] in Hag.
  fold (op_obs s R op na ca) in Hag. fold (global_obs s global_reg G R M' op) in Hag.
  assert (Hag' : forall t, env_ok s (obs_env (op_obs s R op na ca ++ global_obs s global_reg G R M' op)) /\
    (t ∈ op_inputs op ++ shown_globals s op -> ole (E t) (obs_env (op_obs s R op na ca ++ global_obs s global_reg G R M' op) t))).
  { intros t. rewrite (op_inputs_map op Hs). apply Hag.
    - intros i Hi%elem_of_seq. apply Hop. unfold input. lia.
    - intros g [? ?]%shown_global. by apply Hgl. }
  clear Hag. destruct (Hag' 0) as [Heo _].
  destruct (exec_agree s ext op E (obs_env (op_obs s R op na ca ++ global_obs s global_reg G R M' op)) m Et' m' f)
    as (E' & Hx' & Hwr & Hun); try done.
  { apply Forall_forall. intros t Ht. apply Hag'. set_solver. }
  { apply Forall_forall. intros t Ht. apply Hag'. set_solver. }
  exists E'. split_and!; try done.
  - intros -> o Ho. pose proof (Hout o Ho eq_refl) as Hh.
    assert (Hle : ole (E' (arg op o)) (Et' (arg op o))).
    { apply Hwr; [done| |done]. left. pose proof (output_lookup op o Hs Ho) as Hl. by eapply list_elem_of_lookup_2. }
    unfold TcgHost.holds in *. destruct Hle as [-> | ->]; auto.
  - intros t Ht. apply Hun. intros [?|[? _]]; [done|congruence].
  - intros -> t. by eapply exec_stop_alone.
Qed.

(** ** A whole operation *)

(** An operation as the liveness analysis leaves it, where the tables are as
    it promises. *)
Record ready (op : TCGOp) (l l2 l' : la) (da sa : Z) (D : Z -> bool) (st : astate) : Prop := {
  r_args : wf_args s op = true;
  r_shape : wf_shape op = true;
  r_an : annotated op l l2 l' da sa;
  r_bet : between s op l l2;
  r_la : la_ok s l;
  r_la' : la_ok s l';
  r_stat : stat l' D st;
  r_ins : forall t, t ∈ op_inputs op -> in_temps t = true /\ D t = true;
  r_outs : Forall (fun t => in_temps t = true /\ fixed t = false) (op_outputs op);
  r_bb : ends_bb op = true -> op_oargs op = 0%nat;
}.

Section Ready.
Context (op : TCGOp) (l l2 l' : la) (da sa : Z) (D : Z -> bool) (st : astate).
Context (Hrd : ready op l l2 l' da sa D st).

Lemma input_ready i :
  input op i ->
  arg op i ∈ op_inputs op /\ in_temps (arg op i) = true /\ needed l' (arg op i) = true /\
  readable (s_temps st (arg op i)).
Proof.
  intros Hi. destruct (input_elem op i (r_shape _ _ _ _ _ _ _ _ Hrd) Hi) as (k & _ & Hk).
  pose proof (list_elem_of_lookup_2 _ _ _ Hk) as Hin. destruct (r_ins _ _ _ _ _ _ _ _ Hrd _ Hin) as [Ht HD].
  assert (Hn : needed l' (arg op i) = true).
  { unfold needed. rewrite (an_dead _ _ _ _ _ _ (r_an _ _ _ _ _ _ _ _ Hrd)).
    by rewrite bool_decide_false by (by intros []). }
  split_and!; try done. apply (s_def _ _ _ _ _ _ _ (r_stat _ _ _ _ _ _ _ _ Hrd)); try done.
  by apply needed_stat.
Qed.

Lemma dies_once i j :
  input op i -> input op j -> i <> j -> arg op i = arg op j ->
  IS_DEAD_ARG da i = true -> IS_DEAD_ARG da j = true -> False.
Proof.
  assert (Hlt : forall i j, input op i -> input op j -> (i < j)%nat -> arg op i = arg op j ->
    IS_DEAD_ARG da j = true -> False).
  { clear i j. intros i j Hi Hj Hij He Hd. pose proof (r_shape _ _ _ _ _ _ _ _ Hrd) as Hs.
    destruct (input_elem op i Hs Hi) as (k & -> & Hk). destruct (input_elem op j Hs Hj) as (k' & -> & Hk').
    unfold IS_DEAD_ARG in Hd. rewrite (an_dead_in _ _ _ _ _ _ (r_an _ _ _ _ _ _ _ _ Hrd) k' _ Hk') in Hd.
    apply andb_true_iff in Hd as [_ Hn%bool_decide_eq_true]. apply Hn. rewrite <- He.
    apply (list_elem_of_lookup_2 _ k). rewrite lookup_take_lt by lia. done. }
  intros Hi Hj Hne He Hdi Hdj. destruct (decide (i < j)%nat); [by eapply (Hlt i j)|].
  eapply (Hlt j i); try done. lia.
Qed.

Lemma inputs_in_temps : Forall (fun t => in_temps t = true) (op_inputs op).
Proof. apply Forall_forall. intros t Ht. by apply (r_ins _ _ _ _ _ _ _ _ Hrd). Qed.

Lemma outs_elem t : t ∈ op_outputs op -> exists o, output op o /\ arg op o = t.
Proof.
  intros Ht. apply list_elem_of_lookup_1 in Ht as [o Ho]. pose proof (r_shape _ _ _ _ _ _ _ _ Hrd) as Hs.
  pose proof (lookup_lt_Some _ _ _ Ho) as Hlt. destruct (wf_shape_spec op Hs) as (Hl & _). rewrite Hl in Hlt.
  exists o. split; [done|]. pose proof (output_lookup op o Hs Hlt). congruence.
Qed.

(** The variables other than the outputs, before and after the operation. *)
Lemma sets_other t :
  ends_bb op = false -> t ∉ op_outputs op ->
  (mem_temps l t = true -> mem_temps l2 t = true) /\
  (dead_temps l t = true -> dead_temps l2 t = true) /\
  (needed l t = true -> needed l2 t = true).
Proof.
  intros Hb Ht. pose proof (r_bet _ _ _ _ _ _ _ _ Hrd) as Hbt. unfold between in Hbt. rewrite Hb in Hbt.
  destruct (Hbt t) as [Hd Hm]. rewrite (bool_decide_true _ Ht) in Hm. cbn [andb] in Hm.
  split_and!.
  - intros H. by rewrite Hm, H, orb_true_r.
  - intros H. by rewrite Hd, H, !orb_true_r.
  - intros H%needed_stat. apply needed_stat. rewrite (bool_decide_false _ Ht) in Hd. cbn [orb] in Hd.
    destruct H as [H|H]; [|right; by rewrite Hm, H, orb_true_r].
    destruct (kills_globals op && is_global s t) eqn:Hk; [|left; by rewrite Hd, H].
    right. apply andb_true_iff in Hk as [Hk Hg]. rewrite Hm, Hg, andb_true_r.
    unfold kills_globals in Hk. apply andb_true_iff in Hk as [Hc%bool_decide_eq_true Hk].
    unfold reads_globals. rewrite Hc. rewrite has_bits_or in Hk.
    apply negb_true_iff, orb_false_iff in Hk as [_ ->]. done.
Qed.
End Ready.

(** A global that is in memory is at home. *)
Lemma at_home N E Mb st0 R M g :
  wf_st st0 -> dyn N E Mb st0 R M -> is_global s g = true -> N g = true ->
  (fixed g = false -> in_mem (s_temps st0 g)) -> holds E g (home R M g).
Proof.
  intros Hw Hd Hg HN Hm. pose proof (global_in s Hctx g Hg) as Ht.
  pose proof (d_val _ _ _ _ _ _ _ _ _ Hd g Ht HN) as Hl. unfold loc in Hl. unfold TcgHost.home.
  destruct (fixed g) eqn:Hf.
  - destruct (w_fixed _ _ _ _ _ Hw g Hf) as [Hv Hr]. by rewrite Hv, Hr in Hl.
  - destruct (w_global _ _ _ _ _ Hw g Hg Hf) as [Ha Hs]. rewrite <- Hs.
    destruct (Hm eq_refl) as [Hv|[Hv Hc]]; rewrite Hv in Hl; [by apply Hl|].
    unfold TcgHost.holds in *. by rewrite <- (d_coh _ _ _ _ _ _ _ _ _ Hd g Ht Hf Hv Hc).
Qed.


(** The assertions at the end of a basic block hold. *)
Lemma bb_end_holds st0 :
  (forall t, in_temps t = true -> fixed t = false -> val_type (s_temps st0 t) = canonical s t) ->
  tcg_reg_alloc_bb_end s global_reg st0 = true.
Proof.
  intros Hcan. unfold tcg_reg_alloc_bb_end, save_globals, temp_save. apply andb_true_iff. split.
  - apply forallb_forall. intros t Ht%list_elem_of_In%elem_of_seqZ.
    assert (is_global s t = false) as Hg by (unfold is_global; lia).
    assert (fixed t = false) as Hf by (unfold fixed_reg; by rewrite Hg).
    assert (in_temps t = true) as Hi.
    { unfold wf_ctx in Hctx. unfold TcgOpt.in_temps. lia. }
    rewrite (Hcan t Hi Hf). unfold canonical. rewrite Hg. cbn [orb].
    destruct (temp_local s t); by rewrite bool_decide_eq_true_2.
  - apply forallb_forall. intros t Ht%list_elem_of_In%elem_of_seqZ.
    assert (is_global s t = true) as Hg by (unfold is_global; lia).
    destruct (fixed t) eqn:Hf; [apply orb_true_r|]. rewrite (Hcan t) by (done || by apply global_in).
    unfold canonical. rewrite Hg. by rewrite bool_decide_eq_true_2.
Qed.

Lemma sync_globals_holds st0 :
  (forall t, is_global s t = true -> fixed t = false -> in_mem (s_temps st0 t)) ->
  sync_globals s global_reg st0 = true.
Proof.
  intros Hm. unfold sync_globals. apply forallb_forall. intros t Ht%list_elem_of_In%elem_of_seqZ.
  assert (is_global s t = true) as Hg by (unfold is_global; lia).
  destruct (fixed t) eqn:Hf; [by rewrite orb_true_r|]. destruct (Hm t Hg Hf) as [-> | [_ ->]]; [done|].
  by rewrite !orb_true_r.
Qed.

Lemma save_globals_holds st0 :
  (forall t, is_global s t = true -> fixed t = false -> val_type (s_temps st0 t) = TEMP_VAL_MEM) ->
  save_globals s global_reg st0 = true.
Proof.
  intros Hm. unfold save_globals, temp_save. apply forallb_forall.
  intros t Ht%list_elem_of_In%elem_of_seqZ. assert (is_global s t = true) as Hg by (unfold is_global; lia).
  destruct (fixed t) eqn:Hf; [by rewrite orb_true_r|]. by rewrite (Hm t Hg Hf).
Qed.

Section AllocOp.
Context (op : TCGOp) (l l2 l' : la) (da sa : Z) (D : Z -> bool) (st : astate).
Context (Hrd : ready op l l2 l' da sa D st).
Context (Hc : opc op <> INDEX_op_call) (Hct : ct_ok T (opc op)).
Context (Hmet : lacking \/
  met T (fun i => ct_regs (args_ct T (opc op) i)) (skipn (nb_oargs (tcg_op_defs (opc op))) (sorted_args T (opc op))) /\
  met T (output_regs T (opc op)) (firstn (nb_oargs (tcg_op_defs (opc op))) (sorted_args T (opc op)))).
Context (c0 : list hinsn) (I0 : hregs -> hmem -> Prop) (E : env) (Mb : hmem).
Context (Hd0 : reaches c0 I0 st (dyn (needed l') E Mb st)).

#[local] Abbreviation reaches := (reaches c0 I0).
#[local] Abbreviation outs := (op_outputs op).
#[local] Abbreviation ct := (args_ct T (opc op)).

(** What the variables are that are not written here. *)
Definition others (t : Z) : bool := needed l2 t && bool_decide (t ∉ outs).

(** Everything is ready for the instruction. *)
Record prepared (x : opstate) : Prop := {
  q_wf : wf_st (o_st x);
  q_dyn : reaches (o_st x) (dyn others E Mb (o_st x));
  q_stat : exists st2, stat l2 D st2 /\ stays s outs st2 (o_st x) /\ inputs_left s l2 st st2;
  q_ops : forall i, input op i -> reaches (o_st x) (fun R _ =>
    holds E (arg op i) (if const_args x i then new_args x i else R (new_args x i)));
  q_outs : ends_bb op = false -> forall o, output op o -> has_output T op x o;
  q_globals : reads_globals op = true ->
    reaches (o_st x) (fun R M => forall g, is_global s g = true -> holds E g (home R M g));
  q_clob : ends_bb op = false -> OPF_CALL_CLOBBER (tcg_op_defs (opc op)) = true ->
    forall r, clobbered T r = true -> 0 <= r < TCG_TARGET_NB_REGS T ->
      reg_to_temp (o_st x) r = -1 \/ exists o, output op o /\ new_args x o = r;
}.

Lemma reads_mem g : reads_globals op = true -> is_global s g = true -> mem_temps l2 g = true.
Proof.
  intros Hr Hg. pose proof (r_bet _ _ _ _ _ _ _ _ Hrd) as Hb. unfold between in Hb.
  destruct (ends_bb op); destruct (Hb g) as [_ ->]; by rewrite ?Hr, Hg.
Qed.

(** The tables after the inputs have been brought into registers and those
    that die have left them. *)
Section Prepare.
Context (x : opstate) (Hx : inp s T global_reg G c0 I0 op da (needed l') E Mb st x (seq (op_oargs op) (op_iargs op))).

#[local] Abbreviation st2 := (dead_inputs s global_reg op da (o_st x) (seq (op_oargs op) (op_iargs op))).

Let Hev := i_ev _ _ _ _ _ _ _ _ _ _ _ _ _ _ Hx.
Let Hw1 := i_wf _ _ _ _ _ _ _ _ _ _ _ _ _ _ Hx.
Let Hshape := r_shape _ _ _ _ _ _ _ _ Hrd.
Let Han := r_an _ _ _ _ _ _ _ _ Hrd.
Let Hins := inputs_in_temps op l l2 l' da sa D st Hrd.

Lemma stat2 : stat l2 D st2.
Proof. eapply stat_inputs; try done; apply Hrd. Qed.

Lemma dyn2 : reaches st2 (dyn (needed l2) E Mb st2).
Proof. eapply dyn_inputs; try done; [apply Hrd..|]. apply Hx. Qed.

Lemma ops2 i : input op i -> reaches st2 (fun R _ =>
  holds E (arg op i) (if const_args x i then new_args x i else R (new_args x i))).
Proof.
  intros Hi. assert (i ∈ seq (op_oargs op) (op_iargs op)) as Hi' by (apply elem_of_seq; unfold input in Hi; lia).
  eapply reaches_code; [by eapply code_inputs|].
  destruct (i_ops _ _ _ _ _ _ _ _ _ _ _ _ _ _ Hx i Hi') as [[-> Hr]|(-> & _ & Hr)]; done.
Qed.

Lemma globals2 g : reads_globals op = true -> is_global s g = true ->
  reaches st2 (fun R M => holds E g (home R M g)).
Proof.
  intros Hr Hg. pose proof (reads_mem g Hr Hg) as Hm. eapply reaches_impl; [|exact dyn2].
  intros R M HdR. eapply at_home; [|exact HdR|done|..].
  - apply (s_wf _ _ _ _ _ _ _ stat2).
  - apply needed_stat. by right.
  - intros Hf. apply (s_mem _ _ _ _ _ _ _ stat2); try done. by apply global_in.
Qed.

Lemma seq_prepare :
  seq (nb_oargs (tcg_op_defs (opc op))) (nb_iargs (tcg_op_defs (opc op))) = seq (op_oargs op) (op_iargs op).
Proof. destruct (op_args_def op Hc) as [-> ->]. done. Qed.

Lemma prepare_bb : ends_bb op = true -> ok (op_prepare s T global_reg op da x) prepared.
Proof.
  intros Hb. unfold op_prepare. rewrite seq_prepare. unfold ends_bb in Hb. rewrite Hb.
  pose proof (r_bet _ _ _ _ _ _ _ _ Hrd) as Hbt. unfold between, ends_bb in Hbt. rewrite Hb in Hbt.
  pose proof stat2 as Hst2. apply ok_assert.
  { apply bb_end_holds. intros t Ht Hf. apply (s_dead _ _ _ _ _ _ _ Hst2); try done. apply Hbt. }
  pose proof (r_bb _ _ _ _ _ _ _ _ Hrd Hb) as Hno. cbn.
  constructor; cbn [o_st new_args const_args].
  - apply Hst2.
  - eapply reaches_impl; [|exact dyn2]. intros R M. apply dyn_weaken. intros t. unfold others.
    by intros [? _]%andb_true_iff.
  - exists st2. split_and!; [done..|]. eapply after_inputs; try done; apply Hrd.
  - apply ops2.
  - unfold ends_bb. congruence.
  - intros Hr. destruct dyn2 as (c & Hco & Hmv & Hdy). exists c. split_and!; [done..|].
    intros R0 M0 R M HI Hm g Hg. pose proof (Hdy R0 M0 R M HI Hm) as HdR.
    eapply at_home; [|exact HdR|done|..].
    + apply (s_wf _ _ _ _ _ _ _ Hst2).
    + apply needed_stat. right. by apply reads_mem.
    + intros Hf. apply (s_mem _ _ _ _ _ _ _ Hst2); try done; [by apply global_in|by apply reads_mem].
  - unfold ends_bb. congruence.
Qed.

Section PrepareOp.
Context (Hb : ends_bb op = false).
Context (st2' : astate) (Hw2' : wf_st st2') (Hd2' : reaches st2' (dyn (needed l2) E Mb st2')).
Context (Hsp : spills s global_reg c0 I0 st2 st2').
Context (Hcl : OPF_CALL_CLOBBER (tcg_op_defs (opc op)) = true ->
  forall r, clobbered T r = true -> 0 <= r < TCG_TARGET_NB_REGS T -> reg_to_temp st2' r = -1).

Lemma out_dead t : t ∈ outs -> dead_temps l2 t = true.
Proof.
  intros Ht. pose proof (r_bet _ _ _ _ _ _ _ _ Hrd) as Hbt. unfold between in Hbt. rewrite Hb in Hbt.
  destruct (Hbt t) as [-> _]. by rewrite (bool_decide_true _ Ht), orb_true_r.
Qed.

Lemma out_not_reg o : output op o -> val_type (s_temps st2' (arg op o)) <> TEMP_VAL_REG.
Proof.
  intros Ho. destruct (output_facts op l l2 l' da sa Hshape Han (r_outs _ _ _ _ _ _ _ _ Hrd) o Ho)
    as (Hin & Ht & Hf & _).
  assert (val_type (s_temps st2' (arg op o)) = canonical s (arg op o)) as ->; [|apply canonical_not_reg].
  eapply canonical_spills; [done|exact Hsp|]. apply (s_dead _ _ _ _ _ _ _ stat2); try done. by apply out_dead.
Qed.

Lemma old_globals g :
  is_global s g = true -> fixed g = false -> reads_globals op = true ->
  reaches st2' (fun _ M => holds E g (M (slot (G g)))).
Proof.
  intros Hg Hf Hr. eapply reaches_impl; [|exact Hd2']. intros R M HdR.
  assert (Hh : holds E g (home R M g)).
  { eapply at_home; [exact Hw2'|exact HdR|done|..].
    - apply needed_stat. right. by apply reads_mem.
    - intros _. eapply in_mem_spills; [by apply global_in|exact Hsp|].
      apply (s_mem _ _ _ _ _ _ _ stat2); try done; [by apply global_in|by apply reads_mem]. }
  unfold TcgHost.home in Hh. by rewrite Hf in Hh.
Qed.

(** The registers that outputs share with inputs. *)
Lemma shared_regs o :
  output op o -> CT_ALIAS (ct o) = true ->
  (op_oargs op <= alias_index (ct o))%nat /\
  reserved (new_args x (alias_index (ct o))) = false /\
  0 <= new_args x (alias_index (ct o)) < TCG_TARGET_NB_REGS T /\
  Z.testbit (output_regs T (opc op) o) (new_args x (alias_index (ct o))) = true /\
  reg_to_temp st2' (new_args x (alias_index (ct o))) = -1.
Proof.
  intros Ho Ha. destruct (op_args_def op Hc) as [Hno Hni].
  destruct (c_alias _ _ Hct o) as (Hi & Hia & _); [by rewrite <- Hno|done|].
  rewrite <- Hno, <- Hni in Hi. set (i := alias_index (ct o)) in *.
  assert (Hi' : i ∈ seq (op_oargs op) (op_iargs op)) by (apply elem_of_seq; lia).
  destruct (i_alias _ _ _ _ _ _ _ _ _ _ _ _ _ _ Hx i Hi' Hia) as [(_ & Hres & Hrg & Hreg & Hown) _].
  split; [lia|]. split; [done|]. split; [done|]. split.
  - unfold output_regs. by rewrite Ha.
  - assert (reg_to_temp st2 (new_args x i) = -1) as H2.
    { erewrite regs_inputs by done.
      destruct Hown as [->|[Hr Hdead]]; [by destruct (dies _ _ _ _ _ _)|].
      assert (dies s global_reg op da (seq (op_oargs op) (op_iargs op)) (arg op i) = true) as Hdie.
      { unfold dies. apply andb_true_iff. split.
        - apply existsb_exists. exists i. split; [by apply list_elem_of_In|]. by rewrite Hdead, Z.eqb_refl.
        - destruct (w_own _ _ _ _ _ Hw1 (new_args x i)) as [Hm|(_ & Hf & _)].
          + destruct (input_ready op l l2 l' da sa D st Hrd i Hi) as (_ & Ht & _). apply neg_in in Ht. congruence.
          + rewrite Hr in Hf. by rewrite Hf. }
      by rewrite Hr, Hdie. }
    destruct (sp_own _ _ _ _ _ _ Hsp (new_args x i)); congruence.
Qed.

Lemma shared_inj o o' :
  output op o -> output op o' -> CT_ALIAS (ct o) = true -> CT_ALIAS (ct o') = true ->
  new_args x (alias_index (ct o)) = new_args x (alias_index (ct o')) -> o = o'.
Proof.
  intros Ho Ho' Ha Ha' He. destruct (op_args_def op Hc) as [Hno Hni].
  destruct (c_alias _ _ Hct o) as (Hi & Hia & Hio); [by rewrite <- Hno|done|].
  destruct (c_alias _ _ Hct o') as (Hi' & Hia' & Hio'); [by rewrite <- Hno|done|].
  rewrite <- Hno, <- Hni in Hi, Hi'.
  destruct (decide (alias_index (ct o) = alias_index (ct o'))) as [Heq|Hne]; [congruence|].
  exfalso. revert He. apply (i_inj _ _ _ _ _ _ _ _ _ _ _ _ _ _ Hx); try done; apply elem_of_seq; lia.
Qed.

Lemma outputs_start :
  outp s T global_reg G c0 I0 op others E Mb st2' (new_args x) (const_args x) (reads_globals op)
    (mk_ops st2' (reserved_regs T) (new_args x) (const_args x)) []
    (firstn (nb_oargs (tcg_op_defs (opc op))) (sorted_args T (opc op))).
Proof.
  assert (Hout : forall o, o ∈ firstn (nb_oargs (tcg_op_defs (opc op))) (sorted_args T (opc op)) -> output op o).
  { intros o Ho. rewrite (c_outs _ _ Hct) in Ho. apply elem_of_seq in Ho. unfold output.
    destruct (op_args_def op Hc) as [-> _]. lia. }
  constructor; cbn [o_st allocated_regs new_args const_args]; try done.
  - eapply reaches_impl; [|exact Hd2']. intros R M. apply dyn_weaken. intros t. unfold others.
    by intros [? _]%andb_true_iff.
  - intros o []%not_elem_of_nil.
  - intros o Ho Ha. by apply shared_regs; [apply Hout|].
  - intros r Hr ?. by left.
  - auto.
  - intros o Ho _. by apply out_not_reg.
  - intros g _. apply old_globals.
Qed.

Lemma prepared_of_outputs x' :
  outp s T global_reg G c0 I0 op others E Mb st2' (new_args x) (const_args x) (reads_globals op) x'
    (reverse (firstn (nb_oargs (tcg_op_defs (opc op))) (sorted_args T (opc op)))) [] -> prepared x'.
Proof.
  intros [H1 H2 H3 H4 H5 H6 H7 [H8a H8b] H9 H10 H11 H12]. destruct (op_args_def op Hc) as [Hno Hni].
  assert (Hall : forall o, o ∈ reverse (firstn (nb_oargs (tcg_op_defs (opc op))) (sorted_args T (opc op))) <-> output op o).
  { intros o. rewrite elem_of_reverse, (c_outs _ _ Hct), elem_of_seq. unfold output. lia. }
  constructor; try done.
  - exists st2. split; [apply stat2|]. split; [etrans; [by eapply stays_spills|done]|].
    eapply after_inputs; try done; apply Hrd.
  - intros i Hi. rewrite H8b, H8a by (unfold input in Hi; lia).
    apply (H9 (fun R => holds E (arg op i) (if const_args x i then new_args x i else R (new_args x i)))).
    apply (sp_code _ _ _ _ _ _ Hsp (fun R => holds E (arg op i) (if const_args x i then new_args x i else R (new_args x i)))).
    by apply ops2.
  - intros _ o Ho. by apply H5, Hall.
  - intros Hr.
    assert (Hg : forall g, is_global s g = true -> reaches (o_st x') (fun R M => holds E g (home R M g))).
    { intros g Hg. destruct (decide (g ∈ outs)) as [Hin|Hn].
      - assert (fixed g = false) as Hf.
        { pose proof (r_outs _ _ _ _ _ _ _ _ Hrd) as Ho. rewrite Forall_forall in Ho. by apply Ho. }
        eapply reaches_impl; [|by apply (H12 g)]. intros R M. unfold TcgHost.home. by rewrite Hf.
      - eapply reaches_impl; [|exact H2]. intros R M HdR. eapply at_home; [exact H1|exact HdR|done|..].
        + unfold others. apply andb_true_iff. split; [apply needed_stat; right; by apply reads_mem|].
          by apply bool_decide_eq_true.
        + intros Hf. apply (sy_mem _ _ _ _ H3); [by apply global_in|done|].
          eapply in_mem_spills; [by apply global_in|exact Hsp|].
          apply (s_mem _ _ _ _ _ _ _ stat2); try done; [by apply global_in|by apply reads_mem]. }
    destruct H2 as (c & Hco & Hmv & _). exists c. split_and!; [done..|].
    intros R0 M0 R M HI Hm g Hgg. destruct (Hg g Hgg) as (c' & Hco' & _ & HP).
    rewrite Hco in Hco'. apply app_inv_head in Hco' as <-. by eapply HP.
  - intros _ Hcc r Hr Hrg. destruct (H10 Hcc r Hr Hrg) as [|(o & Ho & ?)]; [by left|right].
    exists o. by rewrite <- Hall.
Qed.
End PrepareOp.

Lemma prepare_op : ends_bb op = false -> ok (op_prepare s T global_reg op da x) prepared.
Proof.
  intros Hb. unfold op_prepare. rewrite seq_prepare. pose proof Hb as Hb'. unfold ends_bb in Hb'. rewrite Hb'.
  eapply (ok_bind' _ _ _ (fun st2' => wf_st st2' /\ reaches st2' (dyn (needed l2) E Mb st2') /\
    spills s global_reg c0 I0 st2 st2' /\ (OPF_CALL_CLOBBER (tcg_op_defs (opc op)) = true ->
    forall r, clobbered T r = true -> 0 <= r < TCG_TARGET_NB_REGS T -> reg_to_temp st2' r = -1))).
  { destruct (OPF_CALL_CLOBBER _); [|cbn; split_and!; [apply stat2|apply dyn2|done|done]].
    eapply ok_mono; [eapply (free_clobbered_ok s T global_reg G Hctx HT lacking Hlack c0 I0); [apply stat2|apply dyn2]|].
    intros st2' (Hw & Hd & Hsp & Hr). split_and!; try done. intros _ r Hcl Hrg. apply Hr; [|done].
    apply elem_of_seqZ. lia. }
  intros st2' (Hw2' & Hd2' & Hsp & Hcl). apply ok_assert.
  { destruct (OPF_SIDE_EFFECTS _) eqn:Hse; [|done]. apply sync_globals_holds. intros g Hg Hf.
    assert (reads_globals op = true) as Hr.
    { unfold reads_globals. destruct (opc op); try done; by rewrite Hse. }
    eapply in_mem_spills; [by apply global_in|exact Hsp|].
    apply (s_mem _ _ _ _ _ _ _ stat2); try done; [by apply global_in|by apply reads_mem]. }
  eapply ok_mono.
  - eapply (alloc_outputs_ok s T global_reg G Hctx HT lacking Hlack c0 I0 op others E Mb st2' (new_args x)
      (const_args x) (reads_globals op)) with (pre := []); try done.
    + intros o Ho. destruct (output_facts op l l2 l' da sa Hshape Han (r_outs _ _ _ _ _ _ _ _ Hrd) o Ho)
        as (Hin & Ht & Hf & _). split_and!; try done. unfold others.
      by rewrite bool_decide_false, andb_false_r by (by intros []).
    + by eapply outs_elem.
    + by eapply output_diff.
    + by apply shared_regs.
    + by apply shared_inj.
    + eapply (NoDup_Permutation_proper); [apply (c_outs _ _ Hct)|]. apply NoDup_seq.
    + intros o Ho. rewrite (c_outs _ _ Hct) in Ho. apply elem_of_seq in Ho. unfold output.
      destruct (op_args_def op Hc) as [-> _]. lia.
    + by apply outputs_start.
    + intros a o b He Ha. destruct (c_order _ _ Hct) as (al & rest & Hs & Hal & Hrest). rewrite Hs in He.
      apply app_eq_app in He as (k & [[-> He]|[-> ->]]).
      * destruct k as [|o' k]; cbn in He; [subst rest; by inversion Hrest|]. injection He as <- _.
        apply Forall_app in Hal as [_ Hal]. inversion Hal; congruence.
      * apply Forall_app in Hrest as [_ Hrest]. by inversion Hrest.
    + destruct Hmet as [|[_ ?]]; auto.
  - intros x' Hx'. by eapply prepared_of_outputs.
Qed.
End Prepare.

Lemma inp_ext x pre pre' :
  (forall i, i ∈ pre <-> i ∈ pre') ->
  inp s T global_reg G c0 I0 op da (needed l') E Mb st x pre ->
  inp s T global_reg G c0 I0 op da (needed l') E Mb st x pre'.
Proof.
  intros Hp [H1 H2 H3 H4 H5 H6 H7 H8]. constructor; try done.
  - intros i Hi. by apply H5, Hp.
  - intros i Hi. by apply H6, Hp.
  - intros i j Hi Hj. by apply H7; apply Hp.
  - intros r Hr Hb. destruct (H8 r Hr Hb) as [|(j & Hj & ?)]; [by left|right]. exists j. by rewrite <- Hp.
Qed.

Lemma inputs_start :
  inp s T global_reg G c0 I0 op da (needed l') E Mb st
    (mk_ops st (reserved_regs T) (arg op) (fun _ => false)) [].
Proof.
  constructor; cbn [o_st allocated_regs new_args const_args]; try done.
  - apply Hrd.
  - intros i []%not_elem_of_nil.
  - intros i []%not_elem_of_nil.
  - intros i j []%not_elem_of_nil.
  - intros r Hr ?. by left.
Qed.

Lemma op_prepared :
  ok (x ← alloc_inputs s T global_reg op da (mk_ops st (reserved_regs T) (arg op) (fun _ => false))
            (skipn (nb_oargs (tcg_op_defs (opc op))) (sorted_args T (opc op)));
      op_prepare s T global_reg op da x) prepared.
Proof.
  destruct (op_args_def op Hc) as [Hno Hni].
  assert (Hidx : forall i, i ∈ skipn (nb_oargs (tcg_op_defs (opc op))) (sorted_args T (opc op)) <-> input op i).
  { intros i. rewrite (c_ins _ _ Hct), elem_of_seq. unfold input. lia. }
  eapply ok_bind'.
  - eapply (alloc_inputs_ok s T global_reg G Hctx HT lacking Hlack c0 I0 op da (needed l') E Mb st) with (pre := []); try done.
    + by apply (input_ready op l l2 l' da sa D st Hrd).
    + by apply (dies_once op l l2 l' da sa D st Hrd).
    + intros i Hi Ha. destruct (c_ialias _ _ Hct i) as [Hal Hcm]; [rewrite <- Hno, <- Hni; apply Hi|done|].
      split; [|done]. rewrite <- Hno in Hal.
      by destruct (output_facts op l l2 l' da sa (r_shape _ _ _ _ _ _ _ _ Hrd) (r_an _ _ _ _ _ _ _ _ Hrd)
        (r_outs _ _ _ _ _ _ _ _ Hrd) _ Hal) as (_ & _ & Hf & _).
    + eapply (NoDup_Permutation_proper); [apply (c_ins _ _ Hct)|]. apply NoDup_seq.
    + by apply Hidx.
    + apply inputs_start.
    + destruct Hmet as [|[? _]]; auto.
  - intros x Hx. assert (Hx' : inp s T global_reg G c0 I0 op da (needed l') E Mb st x (seq (op_oargs op) (op_iargs op))).
    { eapply inp_ext; [|exact Hx]. intros i. rewrite elem_of_reverse, Hidx, elem_of_seq. unfold input. lia. }
    destruct (ends_bb op) eqn:Hb; [by apply prepare_bb|by apply prepare_op].
Qed.
End AllocOp.
End Exec.
