(* ===== verification/TcgAllocRun.v ===== *)
(** * Code for an operation

    The code [tcg_reg_alloc_op] emits, run on the host, does what the
    operation may do, and leaves the values where the tables say for the rest
    of the block. *)

From S2P Require Import Prelude HostUtils BitField TcgOp TcgOpt TcgSem TcgMono TcgLive TcgAlloc TcgHost.
From S2P Require Import TcgInv TcgGood TcgCorrect TcgFrame TcgLiveness TcgAllocInv TcgAllocMove TcgAllocLive.
From S2P Require Import TcgAllocOp TcgAllocExec.

Section Run.
Context (s : TCGContext) (T : TCGTarget) (global_reg : Z -> bool) (G : Z -> TCGTemp).
Context (Hctx : wf_ctx s = true) (HT : target_ok s T global_reg G).
Context (lacking : Prop) (Hlack : lacking \/ enough_frame s T).
Context {World : Type}.
Context (ext : TCGOpcode -> list Z -> list Z -> list Z -> World ->
               list Z -> list Z -> World -> bool -> Prop).

#[local] Abbreviation fixed := (fixed_reg s global_reg).
#[local] Abbreviation in_temps := (in_temps s).
#[local] Abbreviation ty := (temp_type s).
#[local] Abbreviation reserved r := (Z.testbit (reserved_regs T) r).
#[local] Abbreviation wf_st := (wf_st s T global_reg G).
#[local] Abbreviation dyn := (dyn s T global_reg).
#[local] Abbreviation ok := (ok lacking).
#[local] Abbreviation holds := (holds s).
#[local] Abbreviation stat := (stat s T global_reg G).
#[local] Abbreviation ready := (ready s T global_reg G).
#[local] Abbreviation exec := (exec s ext).
#[local] Abbreviation hexec := (hexec s T global_reg G ext).
#[local] Abbreviation home := (home s global_reg G).

(** ** Instructions in sequence *)

Inductive hexecs : list hinsn -> hregs -> hmem -> World -> hregs -> hmem -> World -> flow -> Prop :=
| hexecs_nil R M m : hexecs [] R M m R M m Next
| hexecs_next i c R M m R1 M1 m1 R' M' m' f :
  hexec i R M m R1 M1 m1 Next -> hexecs c R1 M1 m1 R' M' m' f -> hexecs (i :: c) R M m R' M' m' f
| hexecs_exit i c R M m R' M' m' f :
  hexec i R M m R' M' m' f -> f <> Next -> hexecs (i :: c) R M m R' M' m' f.

Lemma hexec_is_move i R M m R' M' m' f :
  is_move i = true -> hexec i R M m R' M' m' f -> hmove i R M R' M' /\ m' = m /\ f = Next.
Proof. intros Hi Hx. by inversion Hx; subst. Qed.

Lemma hexecs_moves c c' R M m R' M' m' f :
  Forall (fun i => is_move i = true) c -> hexecs (c ++ c') R M m R' M' m' f ->
  exists R1 M1, moves c R M R1 M1 /\ hexecs c' R1 M1 m R' M' m' f.
Proof.
  intros Hc. revert R M. induction Hc as [|i c Hi Hc IH]; intros R M Hx; [by exists R, M|].
  inversion Hx as [|? ? ? ? ? R1 M1 m1 ? ? ? ? H1 H2|? ? ? ? ? ? ? ? ? H1 H2]; subst.
  - destruct (hexec_is_move _ _ _ _ _ _ _ _ Hi H1) as (Hm & -> & _).
    destruct (IH R1 M1 H2) as (R2 & M2 & ? & ?). exists R2, M2. split; [|done]. by exists R1, M1.
  - by destruct (hexec_is_move _ _ _ _ _ _ _ _ Hi H1) as (_ & _ & ?).
Qed.

Lemma hexecs_only_moves c R M m R' M' m' f :
  Forall (fun i => is_move i = true) c -> hexecs c R M m R' M' m' f ->
  moves c R M R' M' /\ m' = m /\ f = Next.
Proof.
  intros Hc Hx. rewrite <- (app_nil_r c) in Hx.
  destruct (hexecs_moves _ _ _ _ _ _ _ _ _ Hc Hx) as (R1 & M1 & Hm & H2). by inversion H2; subst.
Qed.

Lemma moves_no_label c : Forall (fun i => is_move i = true) c -> Forall (fun i => is_label i = false) c.
Proof. intros Hc. eapply Forall_impl; [exact Hc|]. by intros []. Qed.

(** ** The code of an operation *)

(** Globals and local temporaries, which survive the end of a basic block. *)
Definition lasting (t : Z) : bool := is_global s t || temp_local s t.

(** Where the values are after an operation with sets [l]. *)
Definition after_ok (l : la) (f : flow) (E' : env) (Mb : hmem) (st' : astate) (R' : hregs) (M' : hmem) : Prop :=
  match f with
  | Next => dyn (needed l) E' Mb st' R' M'
  | Jump _ => dyn lasting E' Mb st' R' M'
  | Stop => forall g, is_global s g = true -> holds E' g (home R' M' g)
  | Wrong => True
  end.

(** What may still be held as a constant after [op]. *)
Definition const_kept (op : TCGOp) (t : Z) : bool :=
  negb (ends_bb op) && bool_decide (t ∉ op_outputs op) && negb (writes_globals op && is_global s t).

Definition is_movi (oc : TCGOpcode) : bool := match oc with INDEX_op_movi _ => true | _ => false end.

(** The allocator went from [st] to [st'] over [op]: the tables are as the
    liveness analysis promises, slots stay, no variable that is used and
    written is left without a slot, and constants are those of [movi]. *)
Record tables (op : TCGOp) (l : la) (D' : Z -> bool) (st st' : astate) : Prop := {
  k_stat : stat l D' st';
  k_slots : forall t, mem_allocated (s_temps st t) = true ->
    mem_allocated (s_temps st' t) = true /\ slot (s_temps st' t) = slot (s_temps st t);
  k_bare : forall t, in_temps t = true -> needed l t = true \/ ends_bb op = true -> bare (s_temps st' t) ->
    bare (s_temps st t) /\ t ∉ op_outputs op;
  k_const : forall t, in_temps t = true -> val_type (s_temps st' t) = TEMP_VAL_CONST ->
    const_kept op t = true /\ val_type (s_temps st t) = TEMP_VAL_CONST \/
    is_movi (opc op) = true /\ t ∈ op_outputs op;
  k_end : ends_bb op = true -> forall t, in_temps t = true -> fixed t = false ->
    val_type (s_temps st' t) = canonical s t;
}.

(** And the code does what [op] may do. *)
Record compiled (op : TCGOp) (l l' : la) (D' : Z -> bool) (st st' : astate) : Prop := {
  k_tables : tables op l D' st st';
  k_code : exists c, out_code st' = out_code st ++ c /\ Forall (fun i => is_label i = false) c /\
    forall E R M m R' M' m' f, dyn (needed l') E M st R M -> hexecs c R M m R' M' m' f ->
      exists E', exec op E m E' m' f /\ after_ok l f E' M st' R' M';
}.

(** What has been written after [op]. *)
Definition written_after (op : TCGOp) (D D' : Z -> bool) : Prop :=
  forall t, D' t = true -> (t ∈ op_outputs op \/ D t = true) /\ (ends_bb op = true -> lasting t = true).

(** The tables at the end of a basic block. *)
Lemma stat_bb_end op l l2 l' da sa D D' st st2 :
  ready op l l2 l' da sa D st -> ends_bb op = true -> written_after op D D' -> stat l2 D st2 ->
  stat l D' st2 /\ (forall t, in_temps t = true -> fixed t = false -> val_type (s_temps st2 t) = canonical s t).
Proof.
  intros Hrd Hb Hw Hst. pose proof (r_bet _ _ _ _ _ _ _ _ _ _ _ _ Hrd) as Hbt. unfold between in Hbt. rewrite Hb in Hbt.
  assert (Hcan : forall t, in_temps t = true -> fixed t = false -> val_type (s_temps st2 t) = canonical s t).
  { intros t Ht Hf. apply (s_dead _ _ _ _ _ _ _ Hst); try done. apply Hbt. }
  split; [|done]. constructor; [apply Hst|..].
  - intros t Ht Hf Hm. left. rewrite Hcan by done. unfold canonical. by rewrite (r_la _ _ _ _ _ _ _ _ _ _ _ _ Hrd t Hm).
  - intros t Ht Hf _. by apply Hcan.
  - intros t Ht HD _. destruct (Hw t HD) as [HD' Hl]. apply (s_def _ _ _ _ _ _ _ Hst); try done.
    + destruct HD' as [Ho|]; [|done]. pose proof (r_bb _ _ _ _ _ _ _ _ _ _ _ _ Hrd Hb) as Hno.
      unfold op_outputs in Ho. rewrite Hno in Ho. set_solver.
    + right. destruct (Hbt t) as [_ ->]. by apply Hl.
Qed.

(** The tables elsewhere, once the outputs are settled. *)
Lemma stat_next op l l2 l' da sa D D' st st2 st' :
  ready op l l2 l' da sa D st -> ends_bb op = false -> written_after op D D' -> stat l2 D st2 ->
  stays s (op_outputs op) st2 st' -> wf_st st' ->
  (forall o, output op o -> settled s (is_movi (opc op)) l (arg op o) (s_temps st' (arg op o))) -> stat l D' st'.
Proof.
  intros Hrd Hb Hw Hst Hsy Hw' Hset.
  assert (Hout : forall t, t ∈ op_outputs op -> settled s (is_movi (opc op)) l t (s_temps st' t)).
  { intros t Ht. destruct (outs_elem s T global_reg G _ _ _ _ _ _ _ _ Hrd t Ht) as (o & Ho & <-). by apply Hset. }
  constructor; [done|..]; intros t Ht.
  - intros Hf Hm. destruct (decide (t ∈ op_outputs op)) as [Hin|Hn]; [by apply Hout|].
    apply (sy_mem _ _ _ _ Hsy); try done. apply (s_mem _ _ _ _ _ _ _ Hst); try done. by eapply sets_other.
  - intros Hf Hm. destruct (decide (t ∈ op_outputs op)) as [Hin|Hn]; [by apply Hout|].
    apply (sy_rest _ _ _ _ Hsy); try done. apply (s_dead _ _ _ _ _ _ _ Hst); try done. by eapply sets_other.
  - intros HD Hn%needed_stat. destruct (decide (t ∈ op_outputs op)) as [Hin|Hnin]; [by apply Hout|].
    apply (sy_read _ _ _ _ Hsy); try done. apply (s_def _ _ _ _ _ _ _ Hst); try done.
    + by destruct (Hw t HD) as [[|] _].
    + apply needed_stat. by eapply sets_other.
Qed.

(** Constants are not dead. *)
Lemma const_not_dead l D st t :
  stat l D st -> in_temps t = true -> val_type (s_temps st t) = TEMP_VAL_CONST -> dead_temps l t = false.
Proof.
  intros Hst Ht Hv. apply not_true_is_false. intros Hd. destruct (fixed t) eqn:Hf.
  - destruct (w_fixed _ _ _ _ _ (s_wf _ _ _ _ _ _ _ Hst) t Hf). congruence.
  - rewrite (s_dead _ _ _ _ _ _ _ Hst t Ht Hf Hd) in Hv. unfold canonical in Hv. by destruct (_ || _).
Qed.

Lemma writes_kills op : writes_globals op = true -> kills_globals op = true.
Proof.
  unfold writes_globals, kills_globals. rewrite !has_bits_or, !andb_true_iff. intros [[H1 H2] _].
  split; [done|]. by rewrite orb_comm.
Qed.

Lemma alive_kept op l l2 l' da sa D st t :
  ready op l l2 l' da sa D st -> dead_temps l2 t = false -> const_kept op t = true.
Proof.
  intros Hrd Hd. pose proof (r_bet _ _ _ _ _ _ _ _ _ _ _ _ Hrd) as Hbt. unfold between in Hbt. unfold const_kept.
  destruct (ends_bb op); destruct (Hbt t) as [H2 _]; [congruence|]. rewrite Hd in H2. symmetry in H2.
  apply orb_false_iff in H2 as [Hk [H2%bool_decide_eq_false _]%orb_false_iff].
  rewrite bool_decide_eq_true_2 by done. cbn. destruct (writes_globals op) eqn:Hw; [|done].
  by rewrite (writes_kills op Hw) in Hk; rewrite Hk.
Qed.

Lemma tables_next op l l2 l' da sa D D' st st2 st' :
  ready op l l2 l' da sa D st -> ends_bb op = false -> written_after op D D' -> stat l2 D st2 ->
  inputs_left s l2 st st2 -> stays s (op_outputs op) st2 st' -> wf_st st' ->
  (forall o, output op o -> settled s (is_movi (opc op)) l (arg op o) (s_temps st' (arg op o))) ->
  tables op l D' st st'.
Proof.
  intros Hrd Hb Hw Hst [Hba Hsl Hco] Hsy Hw' Hset. constructor.
  - by eapply stat_next.
  - intros t Ha. destruct (Hsl t Ha) as [Ha2 He2]. destruct (sy_slot _ _ _ _ Hsy t Ha2). split; congruence.
  - intros t Ht [Hn|?] Hbare; [|congruence]. destruct (decide (t ∈ op_outputs op)) as [Hin|Hnin].
    { destruct (outs_elem s T global_reg G _ _ _ _ _ _ _ _ Hrd t Hin) as (o & Ho & <-).
      by destruct (se_need _ _ _ _ _ (Hset o Ho) Hn). }
    split; [|done]. apply Hba; [done|by eapply sets_other|]. by apply (sy_bare _ _ _ _ Hsy).
  - intros t Ht Hv. destruct (decide (t ∈ op_outputs op)) as [Hin|Hnin].
    { right. split; [|done]. destruct (outs_elem s T global_reg G _ _ _ _ _ _ _ _ Hrd t Hin) as (o & Ho & <-).
      by apply (se_const _ _ _ _ _ (Hset o Ho)). }
    left. apply (sy_const _ _ _ _ Hsy) in Hv; [|done..]. split; [|by apply Hco].
    eapply alive_kept; [done|]. by eapply const_not_dead.
  - congruence.
Qed.

Lemma settled_const l b t ts : settled s false l t ts -> settled s b l t ts.
Proof. intros [H1 H2 H3 H4]. constructor; try done. intros Hv. by specialize (H4 Hv). Qed.

Lemma ok_bind2 {A B C} (m : outcome A) (f : A -> outcome B) (g : B -> outcome C) P Q :
  ok (a ← m; f a) P -> (forall b, P b -> ok (g b) Q) -> ok (a ← m; b ← f a; g b) Q.
Proof. destruct m as [a| |]; cbn; [|done..]. intros H1 H2. by eapply ok_bind'. Qed.

(** The code a computation emits after [st3], for all values at once. *)
Lemma reaches_all {B} (m : outcome astate) (P : astate -> Prop)
    (I : B -> hregs -> hmem -> Prop) (J : B -> astate -> hregs -> hmem -> Prop) st3 :
  inhabited B ->
  (forall b, ok m (fun st' => P st' /\ reaches (out_code st3) (I b) st' (J b st'))) ->
  ok m (fun st' => P st' /\ exists c, out_code st' = out_code st3 ++ c /\
    Forall (fun i => is_move i = true) c /\
    forall b R M R' M', I b R M -> moves c R M R' M' -> J b st' R' M').
Proof.
  intros Hb H. eapply ok_mono; [exact (ok_forall lacking m _ Hb H)|]. intros st' Hp.
  destruct Hb as [b0]. destruct (Hp b0) as [HP (c & Hc & Hm & _)]. split; [done|].
  exists c. split_and!; try done. intros b R M R' M' Hd Hmv.
  destruct (Hp b) as [_ (c' & Hc' & _ & Hr)]. rewrite Hc in Hc'. apply app_inv_head in Hc' as <-.
  by eapply Hr.
Qed.

Lemma reaches_here (I0 : hregs -> hmem -> Prop) st : reaches (out_code st) I0 st I0.
Proof. exists []. rewrite app_nil_r. split_and!; [done..|]. by intros R0 M0 R M HI [-> ->]. Qed.

Lemma finish_all op l l2 l' da sa na st3 :
  la_ok s l -> wf_shape op = true -> annotated op l l2 l' da sa ->
  Forall (fun t => in_temps t = true /\ fixed t = false) (op_outputs op) -> wf_st st3 ->
  (forall o, output op o -> in_its_reg op na st3 o) ->
  ok (finish_outputs s T global_reg op da sa na st3 (seq 0 (op_oargs op))) (fun st' =>
    (wf_st st' /\ stays s (op_outputs op) st3 st' /\
     forall o, output op o -> settled s false l (arg op o) (s_temps st' (arg op o))) /\
    exists c, out_code st' = out_code st3 ++ c /\ Forall (fun i => is_move i = true) c /\
      forall E Mb R M R' M', dyn (needed l) E Mb st3 R M -> moves c R M R' M' ->
        dyn (needed l) E Mb st' R' M').
Proof.
  intros Hla Hs Han Ho Hw Hr.
  eapply (ok_mono _ _ _ _ (reaches_all _ (fun st' => wf_st st' /\ stays s (op_outputs op) st3 st' /\
     forall o, output op o -> settled s false l (arg op o) (s_temps st' (arg op o)))
    (fun p => dyn (needed l) p.1 p.2 st3) (fun p => dyn (needed l) p.1 p.2) st3
    (inhabits (fun _ => None, fun _ => 0)) _)).
  { intros st' (HP & c & Hc & Hm & Hall). split; [exact HP|]. exists c. split; [done|]. split; [done|].
    intros E Mb. apply (Hall (E, Mb)). }
  Unshelve.
  intros [E Mb]. cbn [fst snd]. eapply ok_mono; [eapply (finish_outputs_ok s T global_reg G Hctx HT lacking Hlack (out_code st3)
    (dyn (needed l) E Mb st3) E Mb op l l2 l' da sa na st3 Hla Hs Han Ho 0); try done|].
  - apply reaches_here.
  - intros o _. apply Hr.
  - intros o Hlt. lia.
  - intros st' (? & ? & ? & ?). done.
Qed.

Section OpRun.
Context (op : TCGOp) (l l2 l' : la) (da sa : Z) (D D' : Z -> bool) (st : astate).
Context (Hrd : ready op l l2 l' da sa D st) (HD' : written_after op D D').
Context (Hc : opc op <> INDEX_op_call) (Hct : ct_ok T (opc op)).
Context (Hmet : lacking \/
  met T (fun i => ct_regs (args_ct T (opc op) i)) (skipn (nb_oargs (tcg_op_defs (opc op))) (sorted_args T (opc op))) /\
  met T (output_regs T (opc op)) (firstn (nb_oargs (tcg_op_defs (opc op))) (sorted_args T (opc op)))).

#[local] Abbreviation outs := (op_outputs op).

Section At.
Context (E : env) (R0 : hregs) (M0 : hmem).

(** The machine before the operation. *)
Definition start (R : hregs) (M : hmem) : Prop := R = R0 /\ M = M0 /\ dyn (needed l') E M0 st R0 M0.

#[local] Abbreviation prepared := (prepared s T global_reg G op l2 D st (out_code st) start E M0).

Context (x : opstate) (Hp : prepared x) (R1 : hregs) (M1 : hmem).
Context (c : list hinsn) (Hco : out_code (o_st x) = out_code st ++ c).
Context (Hs0 : start R0 M0) (Hmv : moves c R0 M0 R1 M1).

Lemma at_reached P : reaches (out_code st) start (o_st x) P -> P R1 M1.
Proof.
  intros (c' & Hc' & _ & HP). rewrite Hco in Hc'. apply app_inv_head in Hc' as <-. by eapply HP.
Qed.

Lemma arg_list_nth {A} (f : nat -> A) (d : A) i :
  (i < op_oargs op + op_iargs op)%nat -> nth i (arg_list op f) d = f i.
Proof.
  intros Hi. pose proof (r_shape _ _ _ _ _ _ _ _ _ _ _ _ Hrd) as Hs. unfold wf_shape in Hs.
  rewrite !andb_true_iff, Nat.leb_le in Hs. destruct Hs as [[[Hl _] _] _]. unfold arg_list.
  rewrite (nth_indep _ d (f 0%nat)) by (rewrite length_map, length_seq; lia).
  rewrite map_nth. rewrite seq_nth by lia. done.
Qed.

(** The registers outside the outputs, and the fixed ones. *)
Lemma fixed_kept R2 g :
  (forall r, (forall o, output op o -> nth o (arg_list op (new_args x)) 0 <> r) ->
     OPF_CALL_CLOBBER (tcg_op_defs (opc op)) && clobbered T r = false -> R2 r = R1 r) ->
  fixed g = true -> R2 (treg (G g)) = R1 (treg (G g)).
Proof.
  intros Hreg Hf. destruct (t_fixed _ _ _ _ HT g Hf) as [Hres Hcl]. apply Hreg; [|by rewrite Hcl, andb_false_r].
  intros o Ho. rewrite arg_list_nth by (unfold output in Ho; lia). intros He.
  destruct (ends_bb op) eqn:Hb.
  { pose proof (r_bb _ _ _ _ _ _ _ _ _ _ _ _ Hrd Hb). unfold output in Ho. lia. }
  destruct (q_outs _ _ _ _ _ _ _ _ _ _ _ _ _ Hp Hb o Ho) as (_ & _ & _ & Hn & _). congruence.
Qed.

Lemma others_dyn : dyn (others op l2) E M0 (o_st x) R1 M1.
Proof. apply at_reached, (q_dyn _ _ _ _ _ _ _ _ _ _ _ _ _ Hp). Qed.

(** After an instruction that goes on, elsewhere than at the end of a basic
    block. *)
Lemma dyn_next R2 E' :
  ends_bb op = false ->
  (forall o, output op o -> holds E' (arg op o) (R2 (nth o (arg_list op (new_args x)) 0))) ->
  (forall r, (forall o, output op o -> nth o (arg_list op (new_args x)) 0 <> r) ->
     OPF_CALL_CLOBBER (tcg_op_defs (opc op)) && clobbered T r = false -> R2 r = R1 r) ->
  (forall t, t ∉ outs -> E' t = left_alone s op E t) ->
  dyn (needed l) E' M0 (o_st x) R2 M1.
Proof.
  intros Hb Hout Hreg Hun. pose proof others_dyn as Hd. pose proof (q_wf _ _ _ _ _ _ _ _ _ _ _ _ _ Hp) as Hw.
  assert (Halone : forall t, left_alone s op E t = E t) by (intros t; unfold left_alone; by rewrite Hb).
  assert (Hkeep : forall t, in_temps t = true -> t ∉ outs -> val_type (s_temps (o_st x) t) = TEMP_VAL_REG ->
    R2 (treg (s_temps (o_st x) t)) = R1 (treg (s_temps (o_st x) t))).
  { intros t Ht Hn Hv. destruct (fixed t) eqn:Hf.
    { destruct (w_fixed _ _ _ _ _ Hw t Hf) as [_ ->]. by apply fixed_kept. }
    pose proof (w_reg _ _ _ _ _ Hw t Ht Hf Hv) as Hown.
    assert (Hno : forall o, output op o -> new_args x o <> treg (s_temps (o_st x) t)).
    { intros o Ho He. destruct (q_outs _ _ _ _ _ _ _ _ _ _ _ _ _ Hp Hb o Ho) as (Hvo & Hro & _).
      destruct (output_facts s global_reg op l l2 l' da sa (r_shape _ _ _ _ _ _ _ _ _ _ _ _ Hrd)
        (r_an _ _ _ _ _ _ _ _ _ _ _ _ Hrd) (r_outs _ _ _ _ _ _ _ _ _ _ _ _ Hrd) o Ho) as (Hin & Hto & Hfo & _).
      apply Hn. replace t with (arg op o); [done|].
      eapply (in_reg_inj s T global_reg G); try done. congruence. }
    apply Hreg; [intros o Ho; rewrite arg_list_nth by (unfold output in Ho; lia); by apply Hno|].
    apply andb_false_iff. destruct (OPF_CALL_CLOBBER _) eqn:Hcc; [right|by left].
    apply not_true_is_false. intros Hcl.
    destruct (w_own _ _ _ _ _ Hw (treg (s_temps (o_st x) t))) as [Hm|(_ & _ & _ & _ & _ & Hrg)];
      [apply neg_in in Ht; congruence|].
    destruct (q_clob _ _ _ _ _ _ _ _ _ _ _ _ _ Hp Hb Hcc _ Hcl Hrg) as [Hm|(o & Ho & He)].
    - apply neg_in in Ht. congruence.
    - by apply (Hno o). }
  destruct Hd as [H1 H2 H3]. constructor; [| |done].
  - intros t Ht Hn. destruct (decide (t ∈ outs)) as [Hin|Hnin].
    + destruct (outs_elem s T global_reg G _ _ _ _ _ _ _ _ Hrd t Hin) as (o & Ho & <-).
      destruct (q_outs _ _ _ _ _ _ _ _ _ _ _ _ _ Hp Hb o Ho) as (Hv & Hr & _). unfold loc. rewrite Hv, Hr.
      specialize (Hout o Ho). by rewrite arg_list_nth in Hout by (unfold output in Ho; lia).
    + assert (Hl : loc s E (s_temps (o_st x) t) R1 M1 t).
      { apply H1; [done|]. unfold others. apply andb_true_iff. split; [by eapply sets_other|by apply bool_decide_eq_true]. }
      unfold loc in *. unfold TcgHost.holds in *. rewrite (Hun t Hnin), Halone.
      destruct (val_type (s_temps (o_st x) t)) eqn:Hv; try done. by rewrite Hkeep.
  - intros t Ht Hf Hv Hco'. destruct (decide (t ∈ outs)) as [Hin|Hnin]; [|rewrite Hkeep by done; by apply H2].
    destruct (outs_elem s T global_reg G _ _ _ _ _ _ _ _ Hrd t Hin) as (o & Ho & <-).
    destruct (q_outs _ _ _ _ _ _ _ _ _ _ _ _ _ Hp Hb o Ho) as (_ & _ & Hnc & _). congruence.
Qed.

(** At the end of a basic block. *)
Lemma dyn_bb_end N R2 E' :
  ends_bb op = true ->
  (forall r, (forall o, output op o -> nth o (arg_list op (new_args x)) 0 <> r) ->
     OPF_CALL_CLOBBER (tcg_op_defs (opc op)) && clobbered T r = false -> R2 r = R1 r) ->
  (forall t, t ∉ outs -> E' t = left_alone s op E t) ->
  dyn N E' M0 (o_st x) R2 M1.
Proof.
  intros Hb Hreg Hun. pose proof (q_wf _ _ _ _ _ _ _ _ _ _ _ _ _ Hp) as Hw.
  pose proof (r_bb _ _ _ _ _ _ _ _ _ _ _ _ Hrd Hb) as Hno.
  assert (Houts : outs = []) by (unfold op_outputs; by rewrite Hno).
  destruct (q_stat _ _ _ _ _ _ _ _ _ _ _ _ _ Hp) as (st2 & Hst2 & Hsy & _).
  destruct (stat_bb_end op l l2 l' da sa D D' st st2 Hrd Hb HD' Hst2) as [_ Hcan2].
  assert (Hcan : forall t, in_temps t = true -> fixed t = false -> val_type (s_temps (o_st x) t) = canonical s t).
  { intros t Ht Hf. apply (sy_rest _ _ _ _ Hsy); [done|rewrite Houts; set_solver|]. auto. }
  pose proof (r_bet _ _ _ _ _ _ _ _ _ _ _ _ Hrd) as Hbt. unfold between in Hbt. rewrite Hb in Hbt.
  destruct others_dyn as [H1 H2 H3].
  assert (Hl : forall t, in_temps t = true -> lasting t = true -> loc s E (s_temps (o_st x) t) R1 M1 t /\ E' t = E t).
  { intros t Ht Hl. split.
    - apply H1; [done|]. unfold others. rewrite Houts. apply andb_true_iff. split.
      + apply needed_stat. right. destruct (Hbt t) as [_ ->]. done.
      + apply bool_decide_eq_true. set_solver.
    - rewrite Hun by (rewrite Houts; set_solver). unfold left_alone, bb_end. rewrite Hb, survives_global by done.
      unfold lasting in Hl. by rewrite Hl. }
  constructor; [| |done].
  - intros t Ht _. destruct (fixed t) eqn:Hf.
    + destruct (Hl t Ht) as [Hlo He]; [unfold lasting; by rewrite (fixed_global s global_reg t Hf)|].
      destruct (w_fixed _ _ _ _ _ Hw t Hf) as [Hv Hr]. unfold loc, TcgHost.holds in *. rewrite Hv, Hr in *.
      rewrite (fixed_kept R2 t Hreg Hf), He. done.
    + pose proof (Hcan t Ht Hf) as Hv. unfold canonical in Hv. fold (lasting t) in Hv. unfold loc.
      destruct (lasting t) eqn:Hla; rewrite Hv; [|done].
      destruct (Hl t Ht Hla) as [Hlo He]. unfold loc, TcgHost.holds in *. by rewrite Hv, He in *.
  - intros t Ht Hf Hv. rewrite (Hcan t Ht Hf) in Hv. by apply canonical_not_reg in Hv.
Qed.

(** The instruction. *)
Lemma op_insn_ok m R2 M2 m' f :
  hexec (tcg_out_op op (arg_list op (new_args x)) (arg_list op (const_args x))) R1 M1 m R2 M2 m' f ->
  exists E', exec op E m E' m' f /\ after_ok l f E' M0 (o_st x) R2 M2.
Proof.
  intros Hx. pose proof (r_shape _ _ _ _ _ _ _ _ _ _ _ _ Hrd) as Hs.
  destruct (hexec_op_ok s T global_reg G Hctx HT lacking Hlack ext op
    (arg_list op (new_args x)) (arg_list op (const_args x)) E R1 M1 m R2 M2 m' f Hc (r_args _ _ _ _ _ _ _ _ _ _ _ _ Hrd) Hs)
    with (3 := Hx) as (E' & Hex & -> & Hout & Hreg & Hun & Hstop).
  { intros i Hi. unfold operand. rewrite !arg_list_nth by (unfold input in Hi; lia).
    apply (at_reached (fun R _ => holds E (arg op i) (if const_args x i then new_args x i else R (new_args x i)))).
    by apply (q_ops _ _ _ _ _ _ _ _ _ _ _ _ _ Hp). }
  { intros Hr. apply (at_reached (fun R M => forall g, is_global s g = true -> holds E g (home R M g))).
    by apply (q_globals _ _ _ _ _ _ _ _ _ _ _ _ _ Hp). }
  exists E'. split; [done|]. destruct f as [|lb| |]; cbn [after_ok]; [| | |done].
  - destruct (ends_bb op) eqn:Hb; [by apply dyn_bb_end|]. apply dyn_next; auto.
  - destruct (exec_jump s ext _ _ _ _ _ _ Hex) as [Hb _]. by apply dyn_bb_end.
  - intros g Hg. pose proof (exec_stop s ext _ _ _ _ _ Hex) as Hr.
    assert (Hh : holds E g (home R1 M1 g)).
    { by apply (at_reached (fun R M => forall g, is_global s g = true -> holds E g (home R M g)));
        [apply (q_globals _ _ _ _ _ _ _ _ _ _ _ _ _ Hp)|]. }
    assert (E' g = E g) as He.
    { rewrite Hstop by done. unfold left_alone, bb_end, survives. destruct (ends_bb op); [|done].
      unfold is_global in Hg. by destruct (Z.ltb_spec g (nb_globals s)); [|lia]. }
    unfold TcgHost.holds, TcgHost.home in *. rewrite He.
    destruct (fixed g) eqn:Hf; [by rewrite (fixed_kept R2 g Hreg Hf)|done].
Qed.
End At.

(** What [op_compiled] shows for one machine. *)
Definition compiled_at (p : env * hregs * hmem) (st' : astate) : Prop :=
  let '(E, R, M) := p in
  tables op l D' st st' /\
  exists c, out_code st' = out_code st ++ c /\ Forall (fun i => is_label i = false) c /\
    forall m R' M' m' f, dyn (needed l') E M st R M -> hexecs c R M m R' M' m' f ->
      exists E', exec op E m E' m' f /\ after_ok l f E' M st' R' M'.

Lemma compiled_of_all (m : outcome astate) :
  (forall p, ok m (compiled_at p)) -> ok m (compiled op l l' D' st).
Proof.
  intros H. eapply ok_mono; [apply (ok_forall lacking m compiled_at); [|exact H];
    exact (inhabits (fun _ => None, fun _ => 0, fun _ => 0))|].
  intros st' Hp. destruct (Hp (fun _ => None, fun _ => 0, fun _ => 0)) as (H1 & c & Hco & Hnl & _).
  constructor; try done. exists c. split; [done|]. split; [done|]. intros E R M m0 R' M' m' f Hd Hx.
  destruct (Hp (E, R, M)) as (_ & c' & Hco' & _ & Hrun). rewrite Hco in Hco'. apply app_inv_head in Hco' as <-.
  by eapply Hrun.
Qed.

(** The code up to the instruction, the instruction, and the code after it. *)
Lemma insn_run E R0 M0 x st' c2 :
  prepared s T global_reg G op l2 D st (out_code st) (start E R0 M0) E M0 x ->
  let i := tcg_out_op op (arg_list op (new_args x)) (arg_list op (const_args x)) in
  out_code st' = out_code (emit (o_st x) i) ++ c2 -> Forall (fun i => is_move i = true) c2 ->
  (forall E' R M R' M', dyn (needed l) E' M0 (o_st x) R M -> moves c2 R M R' M' ->
     dyn (needed l) E' M0 st' R' M') ->
  (ends_bb op = true -> forall E' R M, dyn lasting E' M0 (o_st x) R M -> dyn lasting E' M0 st' R M) ->
  exists c, out_code st' = out_code st ++ c /\ Forall (fun i => is_label i = false) c /\
    forall m R' M' m' f, dyn (needed l') E M0 st R0 M0 -> hexecs c R0 M0 m R' M' m' f ->
      exists E', exec op E m E' m' f /\ after_ok l f E' M0 st' R' M'.
Proof.
  intros Hp i Hc2 Hm2 Hrun Hjump. destruct (q_dyn _ _ _ _ _ _ _ _ _ _ _ _ _ Hp) as (c1 & Hc1 & Hm1 & _).
  exists (c1 ++ i :: c2). split; [rewrite Hc2; cbn; by rewrite Hc1, <- !app_assoc|].
  split; [apply Forall_app; split; [by apply moves_no_label|]; constructor; [done|by apply moves_no_label]|].
  intros m R' M' m' f Hd Hx. destruct (hexecs_moves _ _ _ _ _ _ _ _ _ Hm1 Hx) as (R1 & M1 & Hmv & Hx1).
  assert (Hs0 : start E R0 M0 R0 M0) by done.
  inversion Hx1 as [|? ? ? ? ? R2 M2 m2 ? ? ? ? Hi Hrest|? ? ? ? ? ? ? ? ? Hi Hne]; subst.
  - destruct (op_insn_ok E R0 M0 x Hp R1 M1 c1 Hc1 Hs0 Hmv m R2 M2 m2 Next Hi) as (E' & Hex & Hafter).
    destruct (hexecs_only_moves _ _ _ _ _ _ _ _ Hm2 Hrest) as (Hmv2 & -> & ->).
    exists E'. split; [done|]. cbn [after_ok] in *. by eapply Hrun.
  - destruct (op_insn_ok E R0 M0 x Hp R1 M1 c1 Hc1 Hs0 Hmv m R' M' m' f Hi) as (E' & Hex & Hafter).
    exists E'. split; [done|]. destruct f; try done. cbn [after_ok] in *.
    destruct (exec_jump s ext _ _ _ _ _ _ Hex) as [Hb _]. by apply Hjump.
Qed.

Lemma op_finish E R0 M0 x :
  ends_bb op = false ->
  prepared s T global_reg G op l2 D st (out_code st) (start E R0 M0) E M0 x ->
  ok (finish_outputs s T global_reg op da sa (new_args x)
        (emit (o_st x) (tcg_out_op op (arg_list op (new_args x)) (arg_list op (const_args x))))
        (seq 0 (op_oargs op))) (compiled_at (E, R0, M0)).
Proof.
  intros Hb Hp. set (st3 := emit (o_st x) _).
  pose proof (r_shape _ _ _ _ _ _ _ _ _ _ _ _ Hrd) as Hs. pose proof (q_wf _ _ _ _ _ _ _ _ _ _ _ _ _ Hp) as Hw.
  assert (Hw3 : wf_st st3) by (by apply (wf_same s T global_reg G (o_st x))).
  destruct (q_stat _ _ _ _ _ _ _ _ _ _ _ _ _ Hp) as (st2 & Hst2 & Hsy & Hil).
  eapply ok_mono; [apply (finish_all op l l2 l' da sa (new_args x) st3); try done; try apply Hrd|].
  { intros o Ho. by destruct (q_outs _ _ _ _ _ _ _ _ _ _ _ _ _ Hp Hb o Ho) as (? & ? & _). }
  intros st' ((Hw' & Hsy' & Hset) & c2 & Hc2 & Hm2 & Hrun2).
  assert (Hsyt : stays s outs st2 st') by (etrans; [exact Hsy|etrans; [|exact Hsy']]; by constructor).
  cbn [compiled_at]. split.
  - eapply tables_next; try done. intros o Ho. by apply settled_const, Hset.
  - eapply (insn_run E R0 M0 x st' c2); try done.
    + intros E' R M R' M' HdR Hmv. eapply Hrun2; [|exact Hmv]. by eapply dyn_temps; [|exact HdR].
    + congruence.
Qed.

Lemma stat_stays D0 l0 st0 st1 : stat l0 D0 st0 -> stays s [] st0 st1 -> wf_st st1 -> stat l0 D0 st1.
Proof.
  intros [H1 H2 H3 H4] [S1 S2 S3 S4 S5 S6] Hw. constructor; [done|..]; intros t Ht.
  - intros. apply S1; [done|apply not_elem_of_nil|]. auto.
  - intros. apply S3; [done|apply not_elem_of_nil|]. auto.
  - intros. apply S2; [done|apply not_elem_of_nil|]. auto.
Qed.

Lemma op_finish_bb E R0 M0 x :
  ends_bb op = true ->
  prepared s T global_reg G op l2 D st (out_code st) (start E R0 M0) E M0 x ->
  compiled_at (E, R0, M0) (emit (o_st x) (tcg_out_op op (arg_list op (new_args x)) (arg_list op (const_args x)))).
Proof.
  intros Hb Hp. set (st3 := emit (o_st x) _). pose proof (q_wf _ _ _ _ _ _ _ _ _ _ _ _ _ Hp) as Hw.
  assert (Hw3 : wf_st st3) by (by apply (wf_same s T global_reg G (o_st x))).
  pose proof (r_bb _ _ _ _ _ _ _ _ _ _ _ _ Hrd Hb) as Hno.
  assert (Houts : outs = []) by (unfold op_outputs; by rewrite Hno).
  destruct (q_stat _ _ _ _ _ _ _ _ _ _ _ _ _ Hp) as (st2 & Hst2 & Hsy & [Hba Hsl Hcs]). rewrite Houts in Hsy.
  assert (Hst3 : stat l2 D st3) by (eapply (stat_stays D l2 st2); [done| |done]; etrans; [exact Hsy|by constructor]).
  destruct (stat_bb_end op l l2 l' da sa D D' st st3 Hrd Hb HD' Hst3) as [Hstat Hcan].
  pose proof (r_bet _ _ _ _ _ _ _ _ _ _ _ _ Hrd) as Hbt. unfold between in Hbt. rewrite Hb in Hbt.
  cbn [compiled_at]. split; [constructor|].
  - done.
  - intros t Ha. destruct (Hsl t Ha) as [Ha2 He2]. destruct (sy_slot _ _ _ _ Hsy t Ha2). split; cbn; congruence.
  - intros t Ht _ Hbare. rewrite Houts. split; [|apply not_elem_of_nil].
    assert (lasting t = true) as Hl.
    { destruct Hbare as [Hv _]. destruct (fixed t) eqn:Hf.
      - destruct (w_fixed _ _ _ _ _ Hw t Hf) as [Hv' _]. cbn in Hv. congruence.
      - rewrite (Hcan t Ht Hf) in Hv. unfold canonical in Hv. unfold lasting. by destruct (_ || _). }
    apply Hba; [done| |].
    + apply needed_stat. right. destruct (Hbt t) as [_ ->]. done.
    + apply (sy_bare _ _ _ _ Hsy); [done|apply not_elem_of_nil|done].
  - intros t Ht Hv. exfalso. destruct (fixed t) eqn:Hf.
    + destruct (w_fixed _ _ _ _ _ Hw3 t Hf). congruence.
    + rewrite (Hcan t Ht Hf) in Hv. unfold canonical in Hv. by destruct (_ || _).
  - done.
  - eapply (insn_run E R0 M0 x st3 []); try done.
    + by rewrite app_nil_r.
    + intros E' R M R' M' HdR [-> ->]. by eapply dyn_temps; [|exact HdR].
    + intros _ E' R M HdR. by eapply dyn_temps; [|exact HdR].
Qed.

(** [tcg_reg_alloc_op]. *)
Lemma op_compiled : ok (tcg_reg_alloc_op s T global_reg st op da sa) (compiled op l l' D' st).
Proof.
  apply compiled_of_all. intros [[E R0] M0]. unfold tcg_reg_alloc_op. eapply ok_bind2.
  - eapply (op_prepared s T global_reg G Hctx HT lacking Hlack op l l2 l' da sa D st Hrd Hc Hct Hmet
      (out_code st) (start E R0 M0) E M0).
    eapply reaches_impl; [|apply reaches_here]. by intros R M (-> & -> & ?).
  - intros x Hp. destruct (op_args_def op Hc) as [<- _]. destruct (ends_bb op) eqn:Hb.
    + rewrite (r_bb _ _ _ _ _ _ _ _ _ _ _ _ Hrd Hb). cbn [seq finish_outputs TcgAllocInv.ok]. by apply op_finish_bb.
    + by apply op_finish.
Qed.
End OpRun.
End Run.
