(* ===== verification/TcgAllocCall.v ===== *)
(** * Register allocation for a call

    [tcg_reg_alloc_call]: the arguments are put on the stack and into the
    registers of the calling convention, the registers a helper may change
    are freed, the globals it may see are in memory, and the results are
    taken from the registers they are returned in. *)

From S2P Require Import Prelude HostUtils BitField TcgOp TcgOpt TcgSem TcgMono TcgLive TcgAlloc TcgHost.
From S2P Require Import TcgInv TcgGood TcgCorrect TcgFrame TcgLiveness TcgAllocInv TcgAllocMove TcgAllocLive.
From S2P Require Import TcgAllocOp TcgAllocExec TcgAllocRun.

Lemma nth_error_lookup {A} (l : list A) i : nth_error l i = l !! i.
Proof. revert i. by induction l as [|a l IH]; intros [|i]; cbn. Qed.

Section Call.
Context (s : TCGContext) (T : TCGTarget) (global_reg : Z -> bool) (G : Z -> TCGTemp).
Context (Hctx : wf_ctx s = true) (HT : target_ok s T global_reg G).
Context (lacking : Prop) (Hlack : lacking \/ enough_frame s T).

#[local] Abbreviation fixed := (fixed_reg s global_reg).
#[local] Abbreviation in_temps := (in_temps s).
#[local] Abbreviation ty := (temp_type s).
#[local] Abbreviation reserved r := (Z.testbit (reserved_regs T) r).
#[local] Abbreviation wf_st := (wf_st s T global_reg G).
#[local] Abbreviation dyn := (dyn s T global_reg).
#[local] Abbreviation ok := (ok lacking).
#[local] Abbreviation holds := (holds s).
#[local] Abbreviation stat := (stat s T global_reg G).
#[local] Abbreviation ready := (ready s T global_reg G).
#[local] Abbreviation home := (home s global_reg G).

(** ** Arguments *)

Section Args.
Context (c0 : list hinsn) (I0 : hregs -> hmem -> Prop) (N : Z -> bool) (E : env) (Mb : hmem) (st0 : astate).

#[local] Abbreviation reaches := (reaches c0 I0).
#[local] Abbreviation spills := (spills s global_reg c0 I0).

(** The tables while the arguments are brought to their places. *)
Record passing (st : astate) : Prop := {
  a_wf : wf_st st;
  a_dyn : reaches st (dyn N E Mb st);
  a_ev : evolves s [] st0 st;
}.

(** An argument that can be passed. *)
Definition passable (a : Z) : Prop :=
  in_temps a = true /\ N a = true /\ readable (s_temps st0 a) /\ a <> TCG_CALL_DUMMY_ARG.

(** What is in the slots for arguments stays when variables are spilled. *)
Lemma stack_spills st st' c (P : Z -> Prop) :
  wf_st st' -> spills st st' -> stack_slot T c -> reaches st (fun _ M => P (M c)) -> reaches st' (fun _ M => P (M c)).
Proof.
  intros Hw Hs Hc. apply (sp_other _ _ _ _ _ _ Hs). intros t Ht Hf Ha He. rewrite <- He in Hc.
  by apply (slot_not_stack s T global_reg G HT) in Hc.
Qed.

Lemma passing_spills st st' : passing st -> wf_st st' -> reaches st' (dyn N E Mb st') -> spills st st' -> passing st'.
Proof. intros [H1 H2 H3] Hw Hd Hs. constructor; try done. etrans; [exact H3|]. by eapply evolves_spills. Qed.

(** A free register is written. *)
Lemma passing_write st i r :
  passing st -> reserved r = false -> reg_to_temp st r = -1 -> writes_reg i r -> passing (emit st i).
Proof.
  intros [H1 H2 H3] Hr Hf Hi. constructor.
  - by apply (wf_same s T global_reg G st).
  - by eapply (dyn_write s T global_reg G) with (d := r).
  - etrans; [exact H3|]. by apply evolves_same.
Qed.

(** An argument slot is written. *)
Lemma passing_stack st w a off :
  passing st -> stack_slot T (TCG_REG_CALL_STACK T, off) ->
  passing (emit st (tcg_out_st w a (TCG_REG_CALL_STACK T) off)).
Proof.
  intros [H1 H2 H3] Hc. constructor.
  - by apply (wf_same s T global_reg G st).
  - eapply reaches_emit; [done| |exact H2]. intros R M R' M' Hd (_ & Ho & ->).
    apply (dyn_temps s T global_reg N E Mb st); [done|].
    by eapply (dyn_stack s T global_reg G) with (c0 := (TCG_REG_CALL_STACK T, off)).
  - etrans; [exact H3|]. by apply evolves_same.
Qed.

(** A variable is in a register for a moment. *)
Lemma fetched st a :
  passing st -> passable a -> val_type (s_temps st a) = TEMP_VAL_REG ->
  reaches st (fun R _ => holds E a (R (treg (s_temps st a)))).
Proof.
  intros [H1 H2 H3] (Ht & HN & _) Hv. eapply reaches_impl; [|exact H2]. intros R M Hd.
  pose proof (d_val _ _ _ _ _ _ _ _ _ Hd a Ht HN) as Hl. unfold loc in Hl. by rewrite Hv in Hl.
Qed.

(** The instruction that brings a variable that is not in a register into
    register [r]. *)
Definition fetch (st : astate) (a r : Z) : hinsn :=
  match val_type (s_temps st a) with
  | TEMP_VAL_CONST => tcg_out_movi (ty a) r (tval (s_temps st a))
  | _ => tcg_out_ld (ty a) r (mem_reg (s_temps st a)) (mem_offset (s_temps st a))
  end.

Lemma fetch_writes st a r : writes_reg (fetch st a r) r.
Proof. unfold fetch. destruct (val_type _); first [apply writes_ld|apply writes_movi]. Qed.

Lemma fetch_holds st a r :
  passing st -> passable a -> val_type (s_temps st a) <> TEMP_VAL_REG ->
  reaches (emit st (fetch st a r)) (fun R _ => holds E a (R r)).
Proof.
  intros [H1 H2 H3] (Ht & HN & Hrd & _) Hv. pose proof (ev_read _ _ _ _ H3 a Ht Hrd) as [Hnd Hall].
  eapply reaches_emit; [apply fetch_writes| |exact H2]. intros R M R' M' Hd Hm.
  pose proof (d_val _ _ _ _ _ _ _ _ _ Hd a Ht HN) as Hl. unfold loc, fetch, TcgHost.holds in *.
  destruct (val_type (s_temps st a)) eqn:Hva; try done; destruct Hm as [-> _]; [by apply Hl, Hall|done].
Qed.
(** The value in register [x] is stored as an argument. *)
Lemma stored_arg st a x off :
  passing st -> stack_slot T (TCG_REG_CALL_STACK T, off) ->
  reaches st (fun R _ => holds E a (R x)) ->
  let st1 := emit st (tcg_out_st (ty a) x (TCG_REG_CALL_STACK T) off) in
  passing st1 /\ reaches st1 (fun _ M => holds E a (M (TCG_REG_CALL_STACK T, off))) /\
  forall c (P : Z -> Prop), c <> (TCG_REG_CALL_STACK T, off) ->
    reaches st (fun _ M => P (M c)) -> reaches st1 (fun _ M => P (M c)).
Proof.
  intros Hp Hc Hx st1. split_and!.
  - by apply passing_stack.
  - revert Hx. apply reaches_emit; [done|]. intros R M R' M' Hx (Hm & _ & ->).
    unfold TcgHost.holds in *. by rewrite Hm.
  - intros c P Hne. apply reaches_emit; [done|]. intros R M R' M' HP (_ & Ho & ->). by rewrite Ho.
Qed.

Context (Hscratch : forall w, lacking \/ available T (tcg_target_available_regs T w) (reserved_regs T)).

(** A variable that is not in a register is passed on the stack. *)
Lemma stack_fetch_ok st a off (load : Z -> astate -> hinsn) :
  (forall r st1, s_temps st1 a = s_temps st a -> load r st1 = fetch st1 a r) -> passing st -> passable a -> stack_slot T (TCG_REG_CALL_STACK T, off) ->
  val_type (s_temps st a) <> TEMP_VAL_REG ->
  ok ('(reg, st) ← tcg_reg_alloc s T global_reg st (tcg_target_available_regs T (ty a)) (reserved_regs T);
      Ret (emit (emit st (load reg st)) (tcg_out_st (ty a) reg (TCG_REG_CALL_STACK T) off))) (fun st1 =>
    passing st1 /\ reaches st1 (fun _ M => holds E a (M (TCG_REG_CALL_STACK T, off))) /\
    forall c (P : Z -> Prop), stack_slot T c -> c <> (TCG_REG_CALL_STACK T, off) ->
      reaches st (fun _ M => P (M c)) -> reaches st1 (fun _ M => P (M c))).
Proof.
  intros Hload Hp Ha Hc Hv. eapply ok_bind'.
  { apply (tcg_reg_alloc_ok s T global_reg G Hctx HT lacking Hlack c0 I0 N E Mb); [apply Hp..|apply Hscratch]. }
  intros [r st1] (Hw1 & Hd1 & [Hfr _ Hr _]). cbn [fst snd] in *.
  pose proof (fr_spills _ _ _ _ _ _ _ Hfr) as Hs. pose proof (passing_spills st st1 Hp Hw1 Hd1 Hs) as Hp1.
  assert (Hk : s_temps st1 a = s_temps st a) by (eapply (freed_keeps s T global_reg G); [apply Hp|apply Ha|done..]).
  assert (Hv1 : val_type (s_temps st1 a) <> TEMP_VAL_REG) by (by rewrite Hk). rewrite (Hload r st1 Hk).
  pose proof (passing_write st1 (fetch st1 a r) r Hp1 Hr (fr_free _ _ _ _ _ _ _ Hfr) (fetch_writes st1 a r)) as Hp2.
  destruct (stored_arg _ a r off Hp2 Hc (fetch_holds st1 a r Hp1 Ha Hv1)) as (Hp3 & Hh & Ho). cbn.
  split_and!; [done..|]. intros c P Hcs Hne HP. apply Ho; [done|].
  eapply (reaches_emit c0 I0 st1 _ (fun _ M => P (M c))).
  - apply (fetch_writes st1 a r).
  - intros R M R' M' HPM Hm. destruct (fetch_writes st1 a r) as [_ Hf]. by destruct (Hf _ _ _ _ Hm) as [_ ->].
  - by apply (stack_spills st st1).
Qed.

Lemma call_stack_args_ok ins st off :
  passing st -> Forall passable ins ->
  TCG_TARGET_CALL_STACK_OFFSET T <= off ->
  off + 8 * Z.of_nat (length ins) <= TCG_TARGET_CALL_STACK_OFFSET T + TCG_STATIC_CALL_ARGS_SIZE ->
  ok (call_stack_args s T global_reg st off ins) (fun st1 =>
    passing st1 /\
    (forall k a, ins !! k = Some a ->
       reaches st1 (fun _ M => holds E a (M (TCG_REG_CALL_STACK T, off + 8 * Z.of_nat k)))) /\
    forall o (P : Z -> Prop), TCG_TARGET_CALL_STACK_OFFSET T <= o < off ->
      reaches st (fun _ M => P (M (TCG_REG_CALL_STACK T, o))) ->
      reaches st1 (fun _ M => P (M (TCG_REG_CALL_STACK T, o)))).
Proof.
  intros Hp Hins. revert st off Hp. induction Hins as [|a ins Ha Hins IH]; intros st off Hp Hlo Hhi.
  { cbn. split_and!; try done. }
  cbn [call_stack_args]. cbn [length] in Hhi.
  assert (Hc : stack_slot T (TCG_REG_CALL_STACK T, off)) by (split; cbn; [done|lia]).
  destruct (Z.eqb_spec a TCG_CALL_DUMMY_ARG) as [|_]; [by destruct Ha as (_ & _ & _ & ?)|].
  eapply (ok_bind' _ _ _ (fun st1 =>
    passing st1 /\ reaches st1 (fun _ M => holds E a (M (TCG_REG_CALL_STACK T, off))) /\
    forall c (P : Z -> Prop), stack_slot T c -> c <> (TCG_REG_CALL_STACK T, off) ->
      reaches st (fun _ M => P (M c)) -> reaches st1 (fun _ M => P (M c)))).
  - destruct (val_type (s_temps st a)) eqn:Hv.
    + destruct Ha as (Ht & _ & Hrd & _). by destruct (ev_read _ _ _ _ (a_ev _ Hp) a Ht Hrd).
    + cbn. destruct (stored_arg st a _ off Hp Hc (fetched st a Hp Ha Hv)) as (? & ? & Ho).
      split_and!; auto.
    + apply (stack_fetch_ok st a off (fun r st1 => tcg_out_ld (ty a) r (mem_reg (s_temps st1 a)) (mem_offset (s_temps st1 a))));
        try done; [|congruence]. intros r st1 He. unfold fetch. by rewrite He, Hv.
    + apply (stack_fetch_ok st a off (fun r st1 => tcg_out_movi (ty a) r (tval (s_temps st1 a))));
        try done; [|congruence]. intros r st1 He. unfold fetch. by rewrite He, Hv.
  - intros st1 (Hp1 & Hh1 & Ho1). eapply ok_mono; [apply (IH st1 (off + 8)); try done; lia|].
    intros st2 (Hp2 & Hh2 & Ho2). split_and!; try done.
    + intros [|k] b Hk; cbn in Hk.
      * injection Hk as <-. rewrite Z.add_0_r. apply Ho2; [lia|done].
      * replace (off + 8 * Z.of_nat (S k)) with (off + 8 + 8 * Z.of_nat k) by lia. auto.
    + intros o P Hor HP. apply Ho2; [lia|]. apply Ho1; [split; cbn; [done|lia]| |done]. intros [= ->]. lia.
Qed.

(** What stays where it is while the register [reg] is filled. *)
Definition fills (reg : list Z) (st st1 : astate) : Prop :=
  (forall r (P : Z -> Prop), r ∉ reg -> reaches st (fun R _ => P (R r)) -> reaches st1 (fun R _ => P (R r))) /\
  (forall c (P : Z -> Prop), stack_slot T c -> reaches st (fun _ M => P (M c)) -> reaches st1 (fun _ M => P (M c))).

Lemma fills_spills reg st st1 : wf_st st1 -> spills st st1 -> fills reg st st1.
Proof.
  intros Hw Hs. split.
  - intros r P _. apply (sp_code _ _ _ _ _ _ Hs (fun R => P (R r))).
  - intros c P. by apply stack_spills.
Qed.

Lemma fills_write st i r : writes_reg i r -> fills [r] st (emit st i).
Proof.
  intros Hi. split.
  - intros r' P Hr'. apply (kept_write c0 I0 st i r); [set_solver|done].
  - intros c P _. destruct Hi as [Hm Hi]. apply reaches_emit; [done|].
    intros R M R' M' HP H. by destruct (Hi _ _ _ _ H) as [_ ->].
Qed.

Lemma fills_trans reg1 reg2 st st1 st2 : fills reg1 st st1 -> fills reg2 st1 st2 -> fills (reg1 ++ reg2) st st2.
Proof.
  intros [A1 A2] [B1 B2]. split; [|auto]. intros r P [H1 H2]%not_elem_of_app HP. auto.
Qed.

(** An argument is passed in the register [reg]. *)
Lemma reg_arg_ok st reg a :
  passing st -> passable a -> reserved reg = false ->
  ok (st ← tcg_reg_free s T global_reg st reg;
      let ts := s_temps st a in
      match val_type ts with
      | TEMP_VAL_REG =>
        Ret (if negb (treg ts =? reg) then emit st (tcg_out_mov (ty a) reg (treg ts)) else st)
      | TEMP_VAL_MEM => Ret (emit st (tcg_out_ld (ty a) reg (mem_reg ts) (mem_offset ts)))
      | TEMP_VAL_CONST => Ret (emit st (tcg_out_movi (ty a) reg (tval ts)))
      | TEMP_VAL_DEAD => Fault tcg_abort
      end) (fun st1 =>
    passing st1 /\ reaches st1 (fun R _ => holds E a (R reg)) /\ fills [reg] st st1).
Proof.
  intros Hp Ha Hr. eapply ok_bind'.
  { apply (tcg_reg_free_ok s T global_reg G Hctx HT lacking Hlack c0 I0 N E Mb); apply Hp. }
  intros st1 (Hw1 & Hd1 & Hfr). pose proof (fr_spills _ _ _ _ _ _ _ Hfr) as Hs.
  pose proof (passing_spills st st1 Hp Hw1 Hd1 Hs) as Hp1. pose proof (fr_free _ _ _ _ _ _ _ Hfr) as Hfree.
  assert (Hfill : forall i, writes_reg i reg -> fills [reg] st (emit st1 i)).
  { intros i Hi. apply (fills_trans [] [reg] st st1); [by apply fills_spills|by apply fills_write]. }
  assert (Hget : val_type (s_temps st1 a) <> TEMP_VAL_REG ->
    passing (emit st1 (fetch st1 a reg)) /\ reaches (emit st1 (fetch st1 a reg)) (fun R _ => holds E a (R reg)) /\
    fills [reg] st (emit st1 (fetch st1 a reg))).
  { intros Hv. pose proof (fetch_writes st1 a reg) as Hi. split_and!.
    - by eapply passing_write.
    - by apply fetch_holds.
    - by apply Hfill. }
  cbv zeta. unfold fetch in Hget. destruct (val_type (s_temps st1 a)) eqn:Hv; cbn; [|clear Hget|by apply Hget..].
  - destruct Ha as (Ht & _ & Hrd & _). by destruct (ev_read _ _ _ _ (a_ev _ Hp1) a Ht Hrd).
  - pose proof (fetched st1 a Hp1 Ha Hv) as Hh.
    destruct (Z.eqb_spec (treg (s_temps st1 a)) reg) as [He|Hne]; cbn.
    + split_and!; [done|by rewrite He in Hh|by apply fills_spills].
    + pose proof (writes_mov (ty a) reg (treg (s_temps st1 a))) as Hi. split_and!; [by eapply passing_write| |by apply Hfill].
      revert Hh. apply reaches_emit; [done|]. intros R M R' M' Hh (Hm & _). unfold TcgHost.holds in *. by rewrite Hm.
Qed.

Lemma call_reg_args_ok regs ins st :
  passing st -> Forall passable ins -> NoDup regs -> Forall (fun r => reserved r = false) regs ->
  ok (call_reg_args s T global_reg st regs ins) (fun st1 =>
    passing st1 /\
    (forall k r a, regs !! k = Some r -> ins !! k = Some a -> reaches st1 (fun R _ => holds E a (R r))) /\
    fills regs st st1).
Proof.
  intros Hp Hins Hn Hres. revert st ins Hp Hins.
  induction Hn as [|reg regs Hreg Hn IH]; intros st ins Hp Hins.
  { by destruct ins. }
  destruct ins as [|a ins]; cbn [call_reg_args].
  { done. }
  apply Forall_cons_1 in Hins as [Ha Hins]. apply Forall_cons_1 in Hres as [Hr Hres].
  destruct (Z.eqb_spec a TCG_CALL_DUMMY_ARG) as [|_]; [by destruct Ha as (_ & _ & _ & ?)|].
  eapply ok_bind'; [by apply (reg_arg_ok st reg a)|]. intros st1 (Hp1 & Hh1 & Hf1).
  eapply ok_mono; [by apply (IH Hres st1 ins)|]. intros st2 (Hp2 & Hh2 & Hf2). split_and!; [done| |].
  - intros [|k] r b Hk Hb; cbn in Hk, Hb; [|by eapply Hh2]. injection Hk as <-. injection Hb as <-.
    by apply (proj1 Hf2 _ (fun x => holds E a x)).
  - by apply (fills_trans [reg] regs st st1).
Qed.
End Args.

(** ** The call *)

Section Insn.
Context {World : Type}.
Context (ext : TCGOpcode -> list Z -> list Z -> list Z -> World ->
               list Z -> list Z -> World -> bool -> Prop).

#[local] Abbreviation exec := (exec s ext).
#[local] Abbreviation hexec := (hexec s T global_reg G ext).

Lemma call_inputs_map op :
  wf_shape op = true -> op_inputs op = map (fun k => arg op (op_oargs op + k)) (seq 0 (op_iargs op)).
Proof.
  intros Hs. rewrite op_inputs_map by done. rewrite <- (map_map (Nat.add (op_oargs op)) (arg op)). f_equal.
  symmetry. rewrite <- (Nat.add_0_r (op_oargs op)) at 2. apply fmap_add_seq.
Qed.

(** The call of a helper does what the operation may do. *)
Lemma hexec_call_ok op E R M m R' M' m' f :
  opc op = INDEX_op_call -> wf_args s op = true -> wf_shape op = true ->
  (forall k, (k < op_iargs op)%nat -> holds E (arg op (op_oargs op + k)) (call_operand T R M k)) ->
  (reads_globals op = true -> forall g, is_global s g = true -> holds E g (home R M g)) ->
  hexec (tcg_out_call op) R M m R' M' m' f ->
  exists E', exec op E m E' m' f /\
    (f = Next -> forall o r, output op o -> tcg_target_call_oarg_regs T !! o = Some r ->
       holds E' (arg op o) (R' r)) /\
    (writes_globals op = true -> f <> Wrong -> forall g, is_global s g = true -> g ∉ op_outputs op \/ f = Stop ->
       holds E' g (home R' M' g)) /\
    (forall r, clobbered T r = false ->
       (writes_globals op = true -> forall g, fixed g = true -> treg (G g) <> r) -> R' r = R r) /\
    (forall c, ~ stack_slot T c ->
       (writes_globals op = true -> forall g, is_global s g = true -> fixed g = false -> slot (G g) <> c) ->
       M' c = M c) /\
    (forall t, ~ written s op t -> E' t = E t) /\
    (f = Stop -> writes_globals op = false -> forall t, E' t = E t).
Proof.
  intros Hc Hwa Hs Hop Hgl Hx.
  assert (Hal : forall t, left_alone s op E t = E t) by (intros t; unfold left_alone, ends_bb; by rewrite Hc).
  inversion Hx as [? ? ? ? ? ? Hmv| |? ? ? ? Et' ? ? ? ? Hex Hout Hwg Hreg Hmem|]; subst; [done|].
  set (Et := obs_env (call_obs s T R M op ++ global_obs s global_reg G R M op)) in *.
  assert (Hag : forall t, env_ok s Et /\ (t ∈ op_inputs op ++ shown_globals s op -> ole (E t) (Et t))).
  { intros t. rewrite (call_inputs_map op Hs).
    apply (saw_agree s T global_reg G Hctx HT lacking Hlack E (fun k => (arg op (op_oargs op + k), call_operand T R M k)) (home R M)
      (seq 0 (op_iargs op)) (shown_globals s op)).
    - intros k Hk%elem_of_seq. apply Hop. lia.
    - intros g [? ?]%shown_global. by apply Hgl. }
  destruct (Hag 0) as [Heo _].
  destruct (exec_agree s ext op E Et m Et' m' f) as (E' & Hx' & Hwr & Hun); try done.
  { apply Forall_forall. intros t Ht. apply Hag. set_solver. }
  { apply Forall_forall. intros t Ht. apply Hag. set_solver. }
  assert (Hle : forall t x, ole (E' t) (Et' t) -> holds Et' t x -> holds E' t x).
  { intros t x H Hh. unfold TcgHost.holds in *. destruct H as [-> | ->]; auto. }
  exists E'. split_and!; try done.
  - intros -> o r Ho Hr. apply Hle; [|apply (Hout o r); [done..|by rewrite nth_error_lookup]].
    apply Hwr; [done| |done]. left. by eapply list_elem_of_lookup_2, output_lookup.
  - intros Hw Hf g Hg Hor. apply Hle; [|apply Hwg; [done..|]; by destruct Hor as [| -> ]; [left|right]].
    apply Hwr; [done|right; unfold is_global in Hg; split; [done|lia]|].
    intros _. apply Hag. apply elem_of_app. right. unfold shown_globals.
    assert (reads_globals op = true) as ->; [|unfold is_global in Hg; apply elem_of_seqZ; lia].
    unfold reads_globals. rewrite Hc. unfold writes_globals in Hw. rewrite has_bits_or, !andb_true_iff in Hw.
    destruct Hw as [[_ [H1 _]%negb_true_iff%orb_false_iff] _]. by rewrite H1.
  - intros r Hcl Hw. apply Hreg; [done|]. destruct (writes_globals op); [|done]. cbn [andb].
    apply not_true_is_false. intros (g & _ & [Hf Hr%Z.eqb_eq]%andb_true_iff)%existsb_exists. by apply (Hw eq_refl g).
  - intros t Ht. destruct (Hun t Ht) as [-> _]. apply Hal.
  - intros -> Hw t. rewrite (exec_stop_alone s ext op E m E' m' t Hx' Hw). apply Hal.
Qed.
End Insn.

(** ** Before the call *)

Section Prepare.
Context (op : TCGOp) (l l2 l' : la) (da sa : Z) (D : Z -> bool) (st : astate).
Context (Hrd : ready op l l2 l' da sa D st) (Hc : opc op = INDEX_op_call).
Context (Hmax : nb_temps s <= TCG_CALL_DUMMY_ARG).
Context (Hscratch : forall w, lacking \/ available T (tcg_target_available_regs T w) (reserved_regs T)).
Context (c0 : list hinsn) (I0 : hregs -> hmem -> Prop) (E : env) (Mb : hmem).
Context (Hd0 : reaches c0 I0 st (dyn (needed l') E Mb st)).

#[local] Abbreviation reaches := (reaches c0 I0).
#[local] Abbreviation passing := (passing c0 I0 (needed l') E Mb st).
#[local] Abbreviation nb_regs := (Nat.min (length (tcg_target_call_iarg_regs T)) (op_iargs op)).

(** The arguments are where the helper looks for them. *)
Definition args_passed (st1 : astate) : Prop :=
  forall k, (k < op_iargs op)%nat ->
    reaches st1 (fun R M => holds E (arg op (op_oargs op + k)) (call_operand T R M k)).

Lemma inputs_passable : Forall (passable (needed l') st) (op_inputs op).
Proof.
  apply Forall_forall. intros t Ht. rewrite (op_inputs_map op (r_shape _ _ _ _ _ _ _ _ _ _ _ _ Hrd)) in Ht.
  apply list_elem_of_In, in_map_iff in Ht as (i & <- & Hi%list_elem_of_In%elem_of_seq).
  destruct (input_ready s T global_reg G _ _ _ _ _ _ _ _ Hrd i) as (_ & Hin & Hn & Hr); [unfold input; lia|].
  split_and!; try done. unfold TcgOpt.in_temps in Hin. lia.
Qed.

Lemma stack_room :
  TCG_TARGET_CALL_STACK_OFFSET T + 8 * Z.of_nat (length (skipn nb_regs (op_inputs op))) <=
  TCG_TARGET_CALL_STACK_OFFSET T + TCG_STATIC_CALL_ARGS_SIZE.
Proof.
  destruct (wf_shape_spec op (r_shape _ _ _ _ _ _ _ _ _ _ _ _ Hrd)) as (_ & Hl & _ & H16 & _).
  rewrite length_skipn, Hl. unfold TCG_STATIC_CALL_ARGS_SIZE. lia.
Qed.

Lemma call_args_ok :
  ok (st1 ← call_stack_args s T global_reg st (TCG_TARGET_CALL_STACK_OFFSET T) (skipn nb_regs (op_inputs op));
      call_reg_args s T global_reg st1 (tcg_target_call_iarg_regs T) (firstn nb_regs (op_inputs op)))
     (fun st1 => passing st1 /\ args_passed st1).
Proof.
  pose proof inputs_passable as Hpas. destruct (t_iargs _ _ _ _ HT) as [Hnd Hreg].
  pose proof (r_shape _ _ _ _ _ _ _ _ _ _ _ _ Hrd) as Hs.
  eapply ok_bind'.
  { apply (call_stack_args_ok c0 I0 (needed l') E Mb st Hscratch); [|by apply Forall_drop|lia|apply stack_room].
    constructor; [apply Hrd|done|done]. }
  intros st1 (Hp1 & Hst1 & _). eapply ok_mono.
  { apply (call_reg_args_ok c0 I0 (needed l') E Mb st Hscratch); [done|by apply Forall_take|done|].
    eapply Forall_impl; [exact Hreg|]. by intros r [? _]. }
  intros st2 (Hp2 & Hr2 & [_ Hf2]). split; [done|]. intros k Hk.
  pose proof (input_lookup op k Hs Hk) as Hin. unfold call_operand. rewrite nth_error_lookup.
  destruct (tcg_target_call_iarg_regs T !! k) as [r|] eqn:Hkr.
  - pose proof (lookup_lt_Some _ _ _ Hkr). apply (Hr2 k r); [done|]. rewrite lookup_take_lt by lia. done.
  - apply lookup_ge_None in Hkr. set (off := _ + _).
    assert (Hslot : reaches st1 (fun _ M => holds E (arg op (op_oargs op + k)) (M (TCG_REG_CALL_STACK T, off)))).
    { apply Hst1. rewrite lookup_drop. rewrite <- Hin. f_equal. lia. }
    apply (Hf2 (TCG_REG_CALL_STACK T, off) (fun v => holds E (arg op (op_oargs op + k)) v)); [|done].
    pose proof stack_room as Hroom. destruct (wf_shape_spec op Hs) as (_ & Hl & _ & _ & _).
    rewrite length_skipn, Hl in Hroom. split; cbn; unfold off; [done|lia].
Qed.

(** Everything is ready for the call. *)
Record called (st2 : astate) : Prop := {
  ca_stat : stat l2 D st2;
  ca_dyn : reaches st2 (dyn (needed l2) E Mb st2);
  ca_left : inputs_left s l2 st st2;
  ca_args : args_passed st2;
  ca_clob : forall r, clobbered T r = true -> 0 <= r < TCG_TARGET_NB_REGS T -> reg_to_temp st2 r = -1;
}.

Lemma args_passed_spills st1 st2 :
  wf_st st2 -> spills s global_reg c0 I0 st1 st2 -> args_passed st1 -> args_passed st2.
Proof.
  intros Hw Hs Ha k Hk. specialize (Ha k Hk). unfold call_operand in *.
  destruct (nth_error _ k) as [r|] eqn:Hn.
  - by apply (sp_code _ _ _ _ _ _ Hs (fun R => holds E (arg op (op_oargs op + k)) (R r))).
  - set (off := _ + _) in *.
    apply (stack_spills c0 I0 st1 st2 (TCG_REG_CALL_STACK T, off)
      (fun v => holds E (arg op (op_oargs op + k)) v)); try done.
    rewrite nth_error_lookup in Hn. apply lookup_ge_None in Hn.
    destruct (wf_shape_spec op (r_shape _ _ _ _ _ _ _ _ _ _ _ _ Hrd)) as (_ & _ & _ & H16 & _).
    unfold TCG_STATIC_CALL_ARGS_SIZE. split; cbn; unfold off; [done|unfold TCG_STATIC_CALL_ARGS_SIZE; lia].
Qed.

Lemma evolves_more ins st1 st2 : evolves s [] st1 st2 -> evolves s ins st1 st2.
Proof. intros [H1 H2 H3 H4 H5 H6]. constructor; auto. intros t Ht _. apply H3; [done|apply not_elem_of_nil]. Qed.

(** The inputs that die leave their registers, and the registers a helper
    may change are freed. *)
Lemma call_free_ok st1 :
  passing st1 -> args_passed st1 ->
  ok (free_clobbered s T global_reg (dead_inputs s global_reg op da st1 (seq (op_oargs op) (op_iargs op)))
        (seqZ 0 (TCG_TARGET_NB_REGS T))) called.
Proof.
  intros [Hw1 Hd1 Hev%(evolves_more (op_inputs op))] Ha. set (st2 := dead_inputs _ _ _ _ _ _).
  pose proof (r_shape _ _ _ _ _ _ _ _ _ _ _ _ Hrd) as Hs. pose proof (r_an _ _ _ _ _ _ _ _ _ _ _ _ Hrd) as Han.
  pose proof (inputs_in_temps s T global_reg G _ _ _ _ _ _ _ _ Hrd) as Hins.
  assert (Hst2 : stat l2 D st2) by (eapply stat_inputs; try done; apply Hrd).
  assert (Hd2 : reaches st2 (dyn (needed l2) E Mb st2)) by (eapply dyn_inputs; try done; apply Hrd).
  assert (Ha2 : args_passed st2).
  { intros k Hk. eapply reaches_code; [by eapply code_inputs|]. by apply Ha. }
  eapply ok_mono; [apply (free_clobbered_ok s T global_reg G Hctx HT lacking Hlack c0 I0 (needed l2) E Mb); [apply Hst2|done]|].
  intros st3 (Hw3 & Hd3 & Hsp & Hr). constructor; try done.
  - by eapply stat_spills.
  - assert (inputs_left s l2 st st2) as [Hba Hsl Hcs] by (eapply after_inputs; try done; apply Hrd). constructor.
    + intros t Ht Hn Hb. apply Hba; [done..|]. by eapply bare_spills.
    + intros t Hal. destruct (Hsl t Hal) as [Hal2 He2]. destruct (sp_slot _ _ _ _ _ _ Hsp t Hal2). split; congruence.
    + intros t Ht Hv. apply Hcs; [done|]. by eapply const_spills.
  - by eapply args_passed_spills.
  - intros r Hcl Hrg. apply Hr; [|done]. apply elem_of_seqZ. lia.
Qed.

Lemma no_bb_end : ends_bb op = false.
Proof. unfold ends_bb. by rewrite Hc. Qed.

Lemma seen_in_mem st2 g :
  called st2 -> reads_globals op = true -> is_global s g = true -> fixed g = false -> in_mem (s_temps st2 g).
Proof.
  intros Hca Hr Hg Hf. apply (s_mem _ _ _ _ _ _ _ (ca_stat _ Hca)); try done; [by apply global_in|].
  by eapply (reads_mem s T global_reg G op).
Qed.

Lemma killed_in_mem st2 g :
  called st2 -> kills_globals op = true -> is_global s g = true -> fixed g = false ->
  val_type (s_temps st2 g) = TEMP_VAL_MEM.
Proof.
  intros Hca Hk Hg Hf. rewrite (s_dead _ _ _ _ _ _ _ (ca_stat _ Hca)); [|by apply global_in|done|].
  - unfold canonical. by rewrite Hg.
  - pose proof (r_bet _ _ _ _ _ _ _ _ _ _ _ _ Hrd) as Hb. unfold between in Hb. rewrite no_bb_end in Hb.
    destruct (Hb g) as [-> _]. by rewrite Hk, Hg.
Qed.

(** The assertion about the globals. *)
Lemma call_asserted st2 :
  called st2 ->
  (if has_bits (call_flags op) TCG_CALL_NO_READ_GLOBALS then true
   else if has_bits (call_flags op) TCG_CALL_NO_WRITE_GLOBALS then sync_globals s global_reg st2
   else save_globals s global_reg st2) = true.
Proof.
  intros Hca. destruct (has_bits (call_flags op) TCG_CALL_NO_READ_GLOBALS) eqn:Hr; [done|].
  destruct (has_bits (call_flags op) TCG_CALL_NO_WRITE_GLOBALS) eqn:Hw.
  - apply sync_globals_holds. intros g Hg Hf. apply seen_in_mem; try done.
    unfold reads_globals. by rewrite Hc, Hr.
  - apply save_globals_holds. intros g Hg Hf. apply killed_in_mem; try done.
    unfold kills_globals. by rewrite has_bits_or, Hr, Hw, Hc.
Qed.

Lemma call_home st2 R M g :
  called st2 -> dyn (needed l2) E Mb st2 R M -> reads_globals op = true -> is_global s g = true ->
  holds E g (home R M g).
Proof.
  intros Hca Hd Hr Hg. eapply (at_home s T global_reg G Hctx); [|exact Hd|done|..].
  - apply (s_wf _ _ _ _ _ _ _ (ca_stat _ Hca)).
  - apply needed_stat. right. by eapply (reads_mem s T global_reg G op).
  - intros Hf. by apply seen_in_mem.
Qed.

(** The values of the other variables after the call. *)
Section After.
Context (st2 : astate) (Hca : called st2) (R1 R2 : hregs) (M1 M2 : hmem) (E' : env).
Context (Hd1 : dyn (needed l2) E Mb st2 R1 M1).
Context (Hglob : writes_globals op = true -> forall g, is_global s g = true -> g ∉ op_outputs op ->
  holds E' g (home R2 M2 g)).
Context (Hreg : forall r, clobbered T r = false ->
  (writes_globals op = true -> forall g, fixed g = true -> treg (G g) <> r) -> R2 r = R1 r).
Context (Hmem : forall c, ~ stack_slot T c ->
  (writes_globals op = true -> forall g, is_global s g = true -> fixed g = false -> slot (G g) <> c) ->
  M2 c = M1 c).
Context (Hun : forall t, ~ written s op t -> E' t = E t).

Let Hw := s_wf _ _ _ _ _ _ _ (ca_stat _ Hca).

Lemma reg_kept t :
  in_temps t = true -> val_type (s_temps st2 t) = TEMP_VAL_REG ->
  ~ (writes_globals op = true /\ is_global s t = true) ->
  R2 (treg (s_temps st2 t)) = R1 (treg (s_temps st2 t)).
Proof.
  intros Ht Hv Hn. destruct (fixed t) eqn:Hf.
  - destruct (w_fixed _ _ _ _ _ Hw t Hf) as [_ ->]. apply Hreg; [by apply (t_fixed _ _ _ _ HT)|].
    intros Hwg. destruct Hn. split; [done|]. by eapply fixed_global.
  - pose proof (w_reg _ _ _ _ _ Hw t Ht Hf Hv) as Hown.
    destruct (w_own _ _ _ _ _ Hw (treg (s_temps st2 t))) as [Hm|(_ & _ & _ & _ & Hres & Hrg)];
      [apply neg_in in Ht; congruence|].
    apply Hreg.
    + apply not_true_is_false. intros Hcl. pose proof (ca_clob _ Hca _ Hcl Hrg). apply neg_in in Ht. congruence.
    + intros _ g Hfg He. pose proof (t_fixed _ _ _ _ HT g Hfg) as [Hr _]. congruence.
Qed.

Lemma slot_kept t :
  in_temps t = true -> fixed t = false -> mem_allocated (s_temps st2 t) = true ->
  ~ (writes_globals op = true /\ is_global s t = true) ->
  M2 (slot (s_temps st2 t)) = M1 (slot (s_temps st2 t)).
Proof.
  intros Ht Hf Ha Hn. apply Hmem; [by eapply slot_not_stack|]. intros Hwg g Hg Hfg He.
  destruct (w_global _ _ _ _ _ Hw g Hg Hfg) as [Hag Hs]. destruct Hn. split; [done|].
  replace t with g; [done|]. eapply (slot_inj s T global_reg G); try done; [by apply global_in|congruence].
Qed.

Lemma dyn_after : dyn (fun t => needed l t && bool_decide (t ∉ op_outputs op)) E' Mb st2 R2 M2.
Proof.
  assert (Hkill : forall t, writes_globals op = true /\ is_global s t = true -> fixed t = false ->
    val_type (s_temps st2 t) = TEMP_VAL_MEM).
  { intros t [Hwg Hg] Hf. apply killed_in_mem; try done. by apply writes_kills. }
  destruct Hd1 as [H1 H2 H3]. constructor.
  - intros t Ht [Hn Ho%bool_decide_eq_true]%andb_true_iff. unfold loc.
    destruct (decide (writes_globals op = true /\ is_global s t = true)) as [Hwg|Hwg].
    + pose proof (Hglob (proj1 Hwg) t (proj2 Hwg) Ho) as Hh. unfold TcgHost.home in Hh. destruct (fixed t) eqn:Hf.
      * by destruct (w_fixed _ _ _ _ _ Hw t Hf) as [-> ->].
      * rewrite (Hkill t Hwg Hf). intros _. by destruct (w_global _ _ _ _ _ Hw t (proj2 Hwg) Hf) as [_ ->].
    + assert (Hl : loc s E (s_temps st2 t) R1 M1 t).
      { apply H1; [done|]. eapply sets_other; try done. apply no_bb_end. }
      unfold loc, TcgHost.holds in *. rewrite Hun.
      2:{ intros [|[? ?]]; [done|]. apply Hwg. split; [done|]. unfold is_global. lia. }
      destruct (val_type (s_temps st2 t)) eqn:Hv; try done; [by rewrite reg_kept|].
      intros Ha. rewrite slot_kept; auto. apply not_true_is_false. intros Hf.
      destruct (w_fixed _ _ _ _ _ Hw t Hf). congruence.
  - intros t Ht Hf Hv Hco. assert (~ (writes_globals op = true /\ is_global s t = true)) as Hwg.
    { intros Hwg. rewrite (Hkill t Hwg Hf) in Hv. done. }
    rewrite reg_kept, slot_kept by (done || by apply (w_coh _ _ _ _ _ Hw)). by apply H2.
  - intros c Hst Hs. rewrite Hmem; [by apply H3|done|]. intros _ g Hg Hf He.
    destruct (w_global _ _ _ _ _ Hw g Hg Hf) as [Ha Hsl]. apply (Hs g); [by apply global_in|done..|congruence].
Qed.
End After.
End Prepare.

(** ** Results *)

Section Results.
Context (c0 : list hinsn) (I0 : hregs -> hmem -> Prop) (E : env) (Mb : hmem).
Context (op : TCGOp) (l l2 l' : la) (da sa : Z) (st3 : astate).
Context (Hla : la_ok s l) (Hshape : wf_shape op = true) (Han : annotated op l l2 l' da sa).
Context (Houts : Forall (fun t => in_temps t = true /\ fixed t = false) (op_outputs op)).

#[local] Abbreviation outs := (op_outputs op).
#[local] Abbreviation oregs := (tcg_target_call_oarg_regs T).

(** The variables whose values are in their places when the first [k]
    results have been taken. *)
Definition taken (k : nat) (t : Z) : bool := needed l t && bool_decide (t ∉ drop k outs).

(** The first [k] results have been taken. *)
Record results (k : nat) (st : astate) : Prop := {
  re_wf : wf_st st;
  re_dyn : reaches c0 I0 st (dyn (taken k) E Mb st);
  re_stays : stays s outs st3 st;
  re_free : forall o r, (k <= o)%nat -> oregs !! o = Some r -> reg_to_temp st r = -1;
  re_left : reaches c0 I0 st (fun R _ => forall o r, (k <= o)%nat -> output op o -> oregs !! o = Some r ->
    holds E (arg op o) (R r));
  re_set : forall o, (o < k)%nat -> output op o -> settled s false l (arg op o) (s_temps st (arg op o));
}.

(** A result is in the register it is returned in. *)
Lemma result_assigned k st r :
  results k st -> output op k -> oregs !! k = Some r ->
  let a := arg op k in
  let st1 := assign_reg (drop_reg st a) a r false in
  wf_st st1 /\ reaches c0 I0 st1 (dyn (taken (S k)) E Mb st1) /\
  (forall o r', (S k <= o)%nat -> oregs !! o = Some r' -> reg_to_temp st1 r' = -1).
Proof.
  intros [H1 H2 H3 H4 H5 H6] Ho Hr a st1. destruct (t_oargs _ _ _ _ HT) as [Hnd Hreg].
  assert (Hres : reserved r = false /\ 0 <= r < TCG_TARGET_NB_REGS T).
  { rewrite Forall_forall in Hreg. destruct (Hreg r) as (? & ? & _); [by eapply list_elem_of_lookup_2|done]. }
  destruct (output_facts s global_reg op l l2 l' da sa Hshape Han Houts k Ho) as (Hin & Ht & Hf & _).
  pose proof (output_lookup op k Hshape Ho) as Hlk. fold a in Hin, Ht, Hf, Hlk.
  pose proof (drop_S _ _ _ Hlk) as Hdrop.
  assert (Hst1 : forall i, s_temps st1 i = if i =? a then set_coherent false (set_reg r (set_val_type TEMP_VAL_REG (s_temps st a))) else s_temps st i)
    by (intros i; apply temps_assign).
  split_and!.
  - apply (wf_assign s T global_reg G); try done; [apply Hres..|]. left. by apply (H4 k).
  - eapply reaches_impl; [|eapply reaches_code; [|exact (reaches_and _ _ _ _ _ H2 H5)]; cbn; apply code_drop].
    intros R M [Hd Hl]. apply (dyn_gain s T global_reg (taken k) _ E Mb st1 R M a).
    + intros i [Hn Hi%bool_decide_eq_true]%andb_true_iff Hne. unfold taken. rewrite Hn, Hdrop.
      apply bool_decide_eq_true. set_solver.
    + rewrite Hst1, Z.eqb_refl. by apply (Hl k).
    + apply (dyn_upd s T global_reg (taken k) E Mb st st1 a); try done.
      * intros i Hi. rewrite Hst1. by destruct (Z.eqb_spec i a).
      * by rewrite Hst1, Z.eqb_refl.
      * unfold taken. rewrite Hdrop, bool_decide_false, andb_false_r by set_solver. done.
      * by rewrite Hst1, Z.eqb_refl.
  - intros o r' Hko Hr'. unfold st1. rewrite (regs_assign s T global_reg G) by done.
    rewrite (H4 o) by (done || lia).
    destruct (Z.eqb_spec r' r) as [->|_]; [pose proof (NoDup_lookup _ _ _ _ Hnd Hr Hr'); lia|].
    by destruct (_ =? _).
Qed.

Lemma call_outputs_ok n k st :
  (k + n = op_oargs op)%nat -> (op_oargs op <= length oregs)%nat -> results k st ->
  ok (call_outputs s T global_reg st k (drop k oregs) (drop k outs) da sa) (results (op_oargs op)).
Proof.
  revert k st. induction n as [|n IH]; intros k st Hk Hle Hres.
  { replace (op_oargs op) with k by lia. destruct (wf_shape_spec op Hshape) as (Hlen & _).
    rewrite (drop_ge outs) by lia. by destruct (drop k oregs). }
  assert (Ho : output op k) by (unfold output; lia).
  destruct (lookup_lt_is_Some_2 oregs k) as [r Hr]; [lia|].
  destruct (output_facts s global_reg op l l2 l' da sa Hshape Han Houts k Ho) as (Hin & Ht & Hf & Hda & Hsa).
  pose proof (output_lookup op k Hshape Ho) as Hlk.
  rewrite (drop_S _ _ _ Hlk), (drop_S _ _ _ Hr). cbn [call_outputs]. rewrite Hf.
  pose proof Hres as [H1 H2 H3 H4 H5 H6]. apply ok_assert; [apply Z.eqb_eq; by apply (H4 k)|].
  destruct (result_assigned k st r Hres Ho Hr) as (Hw1 & Hd1 & Hf1). set (st1 := assign_reg _ _ _ _) in *.
  assert (Hst1 : s_temps st1 (arg op k) = set_coherent false (set_reg r (set_val_type TEMP_VAL_REG (s_temps st (arg op k)))))
    by (unfold st1; by rewrite temps_assign, Z.eqb_refl).
  unfold NEED_SYNC_ARG, IS_DEAD_ARG. rewrite Hda, Hsa. eapply ok_bind'.
  { apply (store_output_ok s T global_reg G Hctx HT lacking Hlack c0 I0 (taken (S k)) E Mb l st1 r (arg op k)); try done.
    - by rewrite Hst1.
    - by rewrite Hst1.
    - by intros [? _]%andb_true_iff. }
  intros st2 (Hw2 & Hd2 & Hi2 & Hs2 & Hr2 & Hset2 & Hk2). apply IH; [lia|done|]. constructor; try done.
  - etrans; [exact H3|]. etrans; [|by eapply (stays_upd s) with (t := arg op k)].
    eapply (stays_upd s) with (t := arg op k); try done; [|by rewrite Hst1].
    intros i Hne. unfold st1. rewrite temps_assign. by destruct (Z.eqb_spec i (arg op k)).
  - intros o r' Hko Hr'. rewrite Hr2; [by apply (Hf1 o)|]. rewrite (Hf1 o) by done. apply neg_in in Ht. congruence.
  - apply (Hk2 (fun R => forall o r', (S k <= o)%nat -> output op o -> oregs !! o = Some r' -> holds E (arg op o) (R r'))).
    eapply reaches_code; [cbn; apply code_drop|]. eapply reaches_impl; [|exact H5].
    intros R M Hl o r' Hko. apply Hl. lia.
  - intros o Hko Hoo. destruct (decide (o = k)) as [->|Hne]; [done|].
    assert (arg op o <> arg op k) as Hd.
    { intros He. by apply (output_diff op Hshape) in He. }
    rewrite Hi2 by done. unfold st1. rewrite temps_assign. destruct (Z.eqb_spec (arg op o) (arg op k)); [done|].
    apply H6; [lia|done].
Qed.
End Results.

Lemma results_all op l l2 l' da sa st3 :
  la_ok s l -> wf_shape op = true -> annotated op l l2 l' da sa ->
  Forall (fun t => in_temps t = true /\ fixed t = false) (op_outputs op) -> wf_st st3 ->
  (op_oargs op <= length (tcg_target_call_oarg_regs T))%nat ->
  (forall o r, tcg_target_call_oarg_regs T !! o = Some r -> reg_to_temp st3 r = -1) ->
  ok (call_outputs s T global_reg st3 0 (tcg_target_call_oarg_regs T) (op_outputs op) da sa) (fun st' =>
    (wf_st st' /\ stays s (op_outputs op) st3 st' /\
     forall o, output op o -> settled s false l (arg op o) (s_temps st' (arg op o))) /\
    exists c, out_code st' = out_code st3 ++ c /\ Forall (fun i => is_move i = true) c /\
      forall E Mb R M R' M', dyn (taken op l 0) E Mb st3 R M ->
        (forall o r, output op o -> tcg_target_call_oarg_regs T !! o = Some r -> holds E (arg op o) (R r)) ->
        moves c R M R' M' -> dyn (needed l) E Mb st' R' M').
Proof.
  intros Hla Hs Han Ho Hw Hle Hfree.
  eapply (ok_mono _ _ _ _ (reaches_all lacking _ (fun st' => wf_st st' /\ stays s (op_outputs op) st3 st' /\
     forall o, output op o -> settled s false l (arg op o) (s_temps st' (arg op o)))
    (fun p R M => dyn (taken op l 0) p.1 p.2 st3 R M /\ forall o r, output op o ->
       tcg_target_call_oarg_regs T !! o = Some r -> holds p.1 (arg op o) (R r))
    (fun p => dyn (needed l) p.1 p.2) st3 (inhabits (fun _ => None, fun _ => 0)) _)).
  { intros st' (HP & c & Hc & Hm & Hall). split; [exact HP|]. exists c. split; [done|]. split; [done|].
    intros E Mb R M R' M' Hd Hp. by apply (Hall (E, Mb)). }
  Unshelve.
  intros [E Mb]. cbn [fst snd]. set (I0 := fun R M => _).
  eapply ok_mono.
  - apply (call_outputs_ok (out_code st3) I0 E Mb op l l2 l' da sa st3 Hla Hs Han Ho (op_oargs op) 0 st3); [lia|done|].
    pose proof (reaches_here I0 st3) as Hh. constructor; try done.
    + eapply reaches_impl; [|exact Hh]. by intros R M [? _].
    + intros o r _. apply Hfree.
    + eapply reaches_impl; [|exact Hh]. intros R M [_ Hp] o r _. apply Hp.
    + lia.
  - intros st' [H1 H2 H3 H4 H5 H6]. split; [|].
    + split_and!; try done. intros o Hoo. by apply H6.
    + eapply reaches_impl; [|exact H2]. intros R M. apply dyn_weaken. intros t Hn. unfold taken. rewrite Hn.
      destruct (wf_shape_spec op Hs) as (Hl & _). rewrite drop_ge by lia.
      apply bool_decide_eq_true. apply not_elem_of_nil.
Qed.

(** ** A whole call *)

Section CallRun.
Context {World : Type}.
Context (ext : TCGOpcode -> list Z -> list Z -> list Z -> World ->
               list Z -> list Z -> World -> bool -> Prop).
Context (op : TCGOp) (l l2 l' : la) (da sa : Z) (D D' : Z -> bool) (st : astate).
Context (Hrd : ready op l l2 l' da sa D st) (HD' : written_after s op D D').
Context (Hc : opc op = INDEX_op_call) (Hmax : nb_temps s <= TCG_CALL_DUMMY_ARG).
Context (Hscratch : forall w, lacking \/ available T (tcg_target_available_regs T w) (reserved_regs T)).
Context (Hsize : forall nr, lacking \/ call_stack_size T (op_iargs op) nr <= TCG_STATIC_CALL_ARGS_SIZE).
Context (Hoargs : (op_oargs op <= length (tcg_target_call_oarg_regs T))%nat).

#[local] Abbreviation start := (start s T global_reg l' st).
#[local] Abbreviation called := (called op l2 D st).
#[local] Abbreviation outs := (op_outputs op).

Lemma call_insn_ok E R0 M0 st2 R1 M1 c m R2 M2 m' f :
  called (out_code st) (start E R0 M0) E M0 st2 -> out_code st2 = out_code st ++ c ->
  start E R0 M0 R0 M0 -> moves c R0 M0 R1 M1 ->
  hexec s T global_reg G ext (tcg_out_call op) R1 M1 m R2 M2 m' f ->
  exists E', exec s ext op E m E' m' f /\
    match f with
    | Next => dyn (taken op l 0) E' M0 st2 R2 M2 /\
        forall o r, output op o -> tcg_target_call_oarg_regs T !! o = Some r -> holds E' (arg op o) (R2 r)
    | Jump _ => False
    | Stop => forall g, is_global s g = true -> holds E' g (home R2 M2 g)
    | Wrong => True
    end.
Proof.
  intros Hca Hco Hs0 Hmv Hx.
  assert (Hat : forall P, reaches (out_code st) (start E R0 M0) st2 P -> P R1 M1).
  { intros P (c' & Hc' & _ & HP). rewrite Hco in Hc'. apply app_inv_head in Hc' as <-. by eapply HP. }
  pose proof (Hat _ (ca_dyn _ _ _ _ _ _ _ _ _ Hca)) as Hd1.
  destruct (hexec_call_ok ext op E R1 M1 m R2 M2 m' f Hc (r_args _ _ _ _ _ _ _ _ _ _ _ _ Hrd)
    (r_shape _ _ _ _ _ _ _ _ _ _ _ _ Hrd)) as (E' & Hex & Hout & Hg & Hreg & Hmem & Hun & Hstop); try done.
  { intros k Hk. apply (Hat (fun R M => holds E (arg op (op_oargs op + k)) (call_operand T R M k))).
    by apply (ca_args _ _ _ _ _ _ _ _ _ Hca). }
  { intros Hr g Hg. by eapply call_home. }
  exists E'. split; [done|]. destruct f as [|lb| |]; [| | |done].
  - split; [|auto]. eapply dyn_after; try done. intros Hw g Hgg Hn. apply Hg; auto.
  - destruct (exec_jump s ext _ _ _ _ _ _ Hex) as [Hb _]. by rewrite no_bb_end in Hb.
  - intros g Hgg. destruct (writes_globals op) eqn:Hw; [by apply Hg; auto|].
    pose proof (exec_stop s ext _ _ _ _ _ Hex) as Hr.
    assert (Hh : holds E g (home R1 M1 g)) by (by eapply call_home).
    unfold TcgHost.holds in *. rewrite (Hstop eq_refl eq_refl g). unfold TcgHost.home in *.
    destruct (fixed g) eqn:Hf.
    + rewrite Hreg; [done|by apply (t_fixed _ _ _ _ HT)|congruence].
    + rewrite Hmem; [done|by apply (t_slots _ _ _ _ HT)|congruence].
Qed.

(** The code up to the call, the call, and the code after it. *)
Lemma call_run E R0 M0 st2 st' c2 :
  called (out_code st) (start E R0 M0) E M0 st2 ->
  out_code st' = out_code (emit st2 (tcg_out_call op)) ++ c2 -> Forall (fun i => is_move i = true) c2 ->
  (forall E' R M R' M', dyn (taken op l 0) E' M0 st2 R M ->
     (forall o r, output op o -> tcg_target_call_oarg_regs T !! o = Some r -> holds E' (arg op o) (R r)) ->
     moves c2 R M R' M' -> dyn (needed l) E' M0 st' R' M') ->
  exists c, out_code st' = out_code st ++ c /\ Forall (fun i => is_label i = false) c /\
    forall m R' M' m' f, dyn (needed l') E M0 st R0 M0 -> hexecs s T global_reg G ext c R0 M0 m R' M' m' f ->
      exists E', exec s ext op E m E' m' f /\ after_ok s T global_reg G l f E' M0 st' R' M'.
Proof.
  intros Hca Hc2 Hm2 Hrun. destruct (ca_dyn _ _ _ _ _ _ _ _ _ Hca) as (c1 & Hc1 & Hm1 & _).
  exists (c1 ++ tcg_out_call op :: c2). split; [rewrite Hc2; cbn; by rewrite Hc1, <- !app_assoc|].
  split; [apply Forall_app; split; [by apply moves_no_label|]; constructor; [done|by apply moves_no_label]|].
  intros m R' M' m' f Hd Hx. destruct (hexecs_moves _ _ _ _ _ _ _ _ _ _ _ _ _ _ Hm1 Hx) as (R1 & M1 & Hmv & Hx1).
  assert (Hs0 : start E R0 M0 R0 M0) by done.
  inversion Hx1 as [|? ? ? ? ? R2 M2 m2 ? ? ? ? Hi Hrest|? ? ? ? ? ? ? ? ? Hi Hne]; subst.
  - destruct (call_insn_ok E R0 M0 st2 R1 M1 c1 m R2 M2 m2 Next Hca Hc1 Hs0 Hmv Hi) as (E' & Hex & Hd2 & Hres).
    destruct (hexecs_only_moves _ _ _ _ _ _ _ _ _ _ _ _ _ Hm2 Hrest) as (Hmv2 & -> & ->).
    exists E'. split; [done|]. by apply (Hrun E' R2 M2).
  - destruct (call_insn_ok E R0 M0 st2 R1 M1 c1 m R' M' m' f Hca Hc1 Hs0 Hmv Hi) as (E' & Hex & Hafter).
    exists E'. split; [done|]. by destruct f.
Qed.

Lemma call_finish E R0 M0 st2 :
  called (out_code st) (start E R0 M0) E M0 st2 ->
  ok (call_outputs s T global_reg (emit st2 (tcg_out_call op)) 0 (tcg_target_call_oarg_regs T) outs da sa)
     (compiled_at s T global_reg G ext op l l' D' st (E, R0, M0)).
Proof.
  intros Hca. set (st3 := emit st2 _). pose proof (ca_stat _ _ _ _ _ _ _ _ _ Hca) as Hst2.
  assert (Hw3 : wf_st st3) by (apply (wf_same s T global_reg G st2); [done|apply Hst2]).
  assert (Hb : ends_bb op = false) by (by eapply no_bb_end).
  eapply ok_mono; [apply (results_all op l l2 l' da sa st3); try done; try apply Hrd|].
  { intros o r Hr. destruct (t_oargs _ _ _ _ HT) as [_ Ho]. rewrite Forall_forall in Ho.
    destruct (Ho r) as (_ & Hrg & Hcl); [by eapply list_elem_of_lookup_2|].
    by apply (ca_clob _ _ _ _ _ _ _ _ _ Hca). }
  intros st' ((Hw' & Hsy' & Hset) & c2 & Hc2 & Hm2 & Hrun2).
  assert (Hsyt : stays s outs st2 st') by (etrans; [|exact Hsy']; by constructor).
  cbn [compiled_at]. split.
  - eapply (tables_next s T global_reg G op); try done; [by apply (ca_left _ _ _ _ _ _ _ _ _ Hca)|].
    intros o Ho. by apply settled_const, Hset.
  - eapply (call_run E R0 M0 st2 st' c2); try done.
    intros E' R M R' M' HdR Hp Hmv. eapply Hrun2; [|exact Hp|exact Hmv]. by eapply dyn_temps; [|exact HdR].
Qed.

(** [tcg_reg_alloc_call]. *)
Lemma call_compiled :
  ok (tcg_reg_alloc_call s T global_reg st op da sa) (compiled s T global_reg G ext op l l' D' st).
Proof.
  apply compiled_of_all. intros [[E R0] M0]. unfold tcg_reg_alloc_call.
  destruct (call_parts op Hc) as (Ho & Hi & Hf). rewrite <- Hf, <- Ho, <- Hi.
  assert (callo op = op_oargs op /\ calli op = op_iargs op) as [-> ->]
    by (unfold op_oargs, op_iargs; by rewrite bool_decide_eq_true_2).
  set (nr := Nat.min _ _). destruct (Z.ltb_spec TCG_STATIC_CALL_ARGS_SIZE (call_stack_size T (op_iargs op) nr)) as [Hlt|_].
  { cbn. split; [done|]. destruct (Hsize nr); [done|lia]. }
  eapply ok_bind2.
  - apply (call_args_ok op l l2 l' da sa D st Hrd Hmax Hscratch (out_code st) (start E R0 M0) E M0).
    eapply reaches_impl; [|apply reaches_here]. by intros R M (-> & -> & ?).
  - intros st1 [Hp1 Ha1]. eapply ok_bind'.
    { by apply (call_free_ok op l l2 l' da sa D st Hrd (out_code st) (start E R0 M0) E M0 st1). }
    intros st2 Hca. apply ok_assert; [by eapply call_asserted|]. by apply call_finish.
Qed.
End CallRun.
End Call.
