(* ===== verification/TcgAllocMov.v ===== *)
(** * Register allocation for moves

    [tcg_reg_alloc_movi] and [tcg_reg_alloc_mov]: a constant is only noted in
    the tables, and a move from a variable that dies hands over its register;
    code is emitted where the value has to be stored or copied. *)

From S2P Require Import Prelude HostUtils BitField TcgOp TcgOpt TcgSem TcgMono TcgLive TcgAlloc TcgHost.
From S2P Require Import TcgInv TcgGood TcgCorrect TcgFrame TcgLiveness TcgAllocInv TcgAllocMove TcgAllocLive.
From S2P Require Import TcgAllocOp TcgAllocExec TcgAllocRun.

Lemma ok_unbind {A B} lacking (m : outcome A) (f : A -> outcome B) Q :
  ok lacking (a ← m; f a) Q -> ok lacking m (fun a => ok lacking (f a) Q).
Proof. by destruct m. Qed.

Section Mov.
Context (s : TCGContext) (T : TCGTarget) (global_reg : Z -> bool) (G : Z -> TCGTemp).
Context (Hctx : wf_ctx s = true) (HT : target_ok s T global_reg G).
Context (lacking : Prop) (Hlack : lacking \/ enough_frame s T).
Context (Hscratch : forall w, lacking \/ available T (tcg_target_available_regs T w) (reserved_regs T)).
Context (Hscratch2 : forall w r,
  lacking \/ available T (tcg_target_available_regs T w) (set_regset (reserved_regs T) r)).
Context {World : Type}.
Context (ext : TCGOpcode -> list Z -> list Z -> list Z -> World ->
               list Z -> list Z -> World -> bool -> Prop).

#[local] Abbreviation fixed := (fixed_reg s global_reg).
#[local] Abbreviation in_temps := (in_temps s).
#[local] Abbreviation ty := (temp_type s).
#[local] Abbreviation reserved r := (Z.testbit (reserved_regs T) r).
#[local] Abbreviation wf_st := (wf_st s T global_reg G).
#[local] Abbreviation dyn := (dyn s T global_reg).
#[local] Abbreviation ok := (ok lacking).
#[local] Abbreviation holds := (holds s).
#[local] Abbreviation stat := (stat s T global_reg G).
#[local] Abbreviation ready := (ready s T global_reg G).

(** Other values, and other variables in use. *)
Lemma dyn_env (N N' : Z -> bool) E E' Mb st R M d :
  (forall t, N' t = true -> t <> d -> N t = true /\ E' t = E t) ->
  (N' d = true -> loc s E' (s_temps st d) R M d) -> dyn N E Mb st R M -> dyn N' E' Mb st R M.
Proof.
  intros HN Hd [H1 H2 H3]. constructor; [|done..]. intros t Ht HNt.
  destruct (decide (t = d)) as [->|Hne]; [auto|]. destruct (HN t HNt Hne) as [HNt' He].
  specialize (H1 t Ht HNt'). unfold loc, TcgHost.holds in *. by rewrite He.
Qed.

(** States that differ in how they are written down. *)
Lemma reaches_same c0 I0 N E Mb st st' :
  same st st' -> out_code st' = out_code st -> reaches c0 I0 st (dyn N E Mb st) -> reaches c0 I0 st' (dyn N E Mb st').
Proof.
  intros [Ht _ _] Hc Hr. eapply reaches_impl; [|by eapply reaches_code]. intros R M. by apply dyn_temps.
Qed.

Section Moved.
Context (op : TCGOp) (l l2 l' : la) (da sa : Z) (D D' : Z -> bool) (st : astate).
Context (Hrd : ready op l l2 l' da sa D st) (HD' : written_after s op D D').
Context (Hb : ends_bb op = false) (Hng : reads_globals op = false) (d : Z) (Hout : op_outputs op = [d]).

(** The code for a move consists of moves. *)
Lemma moved_compiled E R0 M0 E' st' :
  tables s T global_reg G op l D' st st' ->
  reaches (out_code st) (start s T global_reg l' st E R0 M0) st' (dyn (needed l) E' M0 st') ->
  (forall m, exec s ext op E m E' m Next) -> compiled_at s T global_reg G ext op l l' D' st (E, R0, M0) st'.
Proof.
  intros Ht (c & Hc & Hm & HP) Hx. split; [done|]. exists c. split; [done|]. split; [by apply moves_no_label|]. intros m R' M' m' f Hd Hxs.
  destruct (hexecs_only_moves _ _ _ _ _ _ _ _ _ _ _ _ _ Hm Hxs) as (Hmv & -> & ->).
  exists E'. split; [done|]. cbn. by eapply HP.
Qed.

Lemma out_facts :
  in_temps d = true /\ fixed d = false /\ dead_temps l2 d = true /\ needed l2 d = false /\ arg op 0 = d /\
  op_oargs op = 1%nat /\ NEED_SYNC_ARG sa 0 = mem_temps l d /\ IS_DEAD_ARG da 0 = dead_temps l d.
Proof using Hrd Hb Hng Hout.
  pose proof (r_outs _ _ _ _ _ _ _ _ _ _ _ _ Hrd) as Ho. rewrite Hout, Forall_singleton in Ho.
  destruct (wf_shape_spec op (r_shape _ _ _ _ _ _ _ _ _ _ _ _ Hrd)) as (Hl & _). rewrite Hout in Hl. cbn in Hl.
  assert (Ho0 : output op 0) by (unfold output; rewrite <- Hl; apply Nat.lt_0_succ).
  pose proof (output_lookup op 0 (r_shape _ _ _ _ _ _ _ _ _ _ _ _ Hrd) Ho0) as H0. rewrite Hout in H0. cbn in H0.
  injection H0 as H0. pose proof (r_bet _ _ _ _ _ _ _ _ _ _ _ _ Hrd) as Hbt. unfold between in Hbt. rewrite Hb in Hbt.
  destruct (Hbt d) as [Hd2 Hm2]. rewrite Hout in Hd2, Hm2.
  rewrite (bool_decide_eq_true_2 (d ∈ [d])), orb_true_r in Hd2 by (by left).
  rewrite (bool_decide_eq_false_2 (d ∉ [d])), Hng in Hm2 by (intros Hn; apply Hn; by left).
  assert (Hlk : op_outputs op !! 0%nat = Some d) by (by rewrite Hout).
  split_and!; try done; try apply Ho.
  - unfold needed. by rewrite Hd2, Hm2.
  - unfold NEED_SYNC_ARG. by rewrite (an_sync_out _ _ _ _ _ _ (r_an _ _ _ _ _ _ _ _ _ _ _ _ Hrd) 0 d Hlk).
  - unfold IS_DEAD_ARG. by rewrite (an_dead_out _ _ _ _ _ _ (r_an _ _ _ _ _ _ _ _ _ _ _ _ Hrd) 0 d Hlk).
Qed.

Lemma one_output b st' : settled s b l d (s_temps st' d) ->
  forall o, output op o -> settled s b l (arg op o) (s_temps st' (arg op o)).
Proof using Hrd Hb Hng Hout.
  destruct out_facts as (_ & _ & _ & _ & H0 & Hn & _). intros Hs o Ho. unfold output in Ho.
  replace o with 0%nat by lia. by rewrite H0.
Qed.

(** The value for the output is in a free register, which it gets. *)
Lemma take_reg c0 I0 E E' Mb st2 st3 st4 r :
  stat l2 D st2 -> inputs_left s l2 st st2 -> stays s [d] st2 st3 -> wf_st st3 ->
  reaches c0 I0 st3 (dyn (needed l2) E Mb st3) ->
  reserved r = false -> 0 <= r < TCG_TARGET_NB_REGS T -> reg_to_temp st3 r = -1 \/ reg_to_temp st3 r = d ->
  reaches c0 I0 st3 (fun R _ => holds E' d (R r)) -> (forall t, t <> d -> E' t = E t) ->
  same (assign_reg (drop_reg st3 d) d r false) st4 -> out_code st4 = out_code st3 ->
  ok (st ← (if mem_temps l d then tcg_reg_sync s T global_reg st4 r else Ret st4);
      Ret (if dead_temps l d then temp_dead s global_reg st d else st)) (fun st' =>
    tables s T global_reg G op l D' st st' /\ reaches c0 I0 st' (dyn (needed l) E' Mb st')).
Proof.
  intros Hst2 Hil Hsy Hw3 Hd3 Hres Hrg Hfree Hval HE Hsame Hcode.
  destruct out_facts as (Ht & Hf & Hdd & Hnd & H0 & Hn & _).
  assert (Het : forall i, s_temps st4 i = if i =? d then set_coherent false (set_reg r (set_val_type TEMP_VAL_REG (s_temps st3 d))) else s_temps st3 i)
    by (intros i; rewrite (same_temps _ _ Hsame); apply temps_assign).
  assert (Hw4 : wf_st st4).
  { eapply (wf_same s T global_reg G); [exact Hsame|]. by apply (wf_assign s T global_reg G). }
  assert (Hd4 : reaches c0 I0 st4 (dyn (needed l) E' Mb st4)).
  { eapply reaches_impl; [|eapply reaches_code; [exact Hcode|exact (reaches_and _ _ _ _ _ Hd3 Hval)]].
    intros R M [HdR Hv]. eapply (dyn_env (needed l2)) with (d := d).
    - intros t Hnt Hne. split; [|by apply HE]. eapply sets_other; try done. rewrite Hout. set_solver.
    - intros _. rewrite Het, Z.eqb_refl. done.
    - apply (dyn_upd s T global_reg (needed l2) E Mb st3 st4 d); try done.
      + intros i Hi. rewrite Het. by destruct (Z.eqb_spec i d).
      + by rewrite Het, Z.eqb_refl.
      + congruence.
      + by rewrite Het, Z.eqb_refl. }
  eapply ok_mono; [apply (store_output_ok s T global_reg G Hctx HT lacking Hlack c0 I0 (needed l) E' Mb l st4 r d); try done|].
  - apply Hrd.
  - by rewrite Het, Z.eqb_refl.
  - by rewrite Het, Z.eqb_refl.
  - intros st' (Hw' & Hd' & Hi' & Hs' & _ & Hset & _). split; [|done].
    eapply (tables_next s T global_reg G op); try done.
    + rewrite Hout. etrans; [exact Hsy|]. etrans; [|eapply (stays_upd s) with (t := d); [|exact Hi'|exact Hs']; set_solver].
      eapply (stays_upd s) with (t := d); [set_solver| |by rewrite Het, Z.eqb_refl].
      intros i Hi. rewrite Het. by destruct (Z.eqb_spec i d).
    + apply one_output. by apply settled_const.
Qed.
End Moved.

(** ** Constants *)

Section Movi.
Context (op : TCGOp) (l l2 l' : la) (da sa : Z) (D D' : Z -> bool) (st : astate).
Context (Hrd : ready op l l2 l' da sa D st) (HD' : written_after s op D D').
Context (w : width) (d v : Z) (Hc : opc op = INDEX_op_movi w) (Ha : args op = [d; v]).
Context (Hused : needed l d = true).

Lemma movi_shape :
  op_outputs op = [d] /\ op_inputs op = [] /\ op_oargs op = 1%nat /\ op_iargs op = 0%nat /\ ends_bb op = false /\
  reads_globals op = false /\ ty d = w.
Proof.
  unfold op_outputs, op_inputs, op_oargs, op_iargs, ends_bb, reads_globals. rewrite Hc, Ha. split_and!; try done.
  pose proof (r_args _ _ _ _ _ _ _ _ _ _ _ _ Hrd) as Hw. unfold wf_args in Hw. rewrite Hc, Ha in Hw.
  unfold out_ok in Hw. rewrite !andb_true_iff, bool_decide_eq_true in Hw. apply Hw.
Qed.

(** The tables of an operation without inputs. *)
Lemma before_const : stat l2 D st /\ inputs_left s l2 st st.
Proof.
  destruct movi_shape as (_ & Hin & Hno & Hni & _).
  assert (Hev : evolves s (op_inputs op) st st) by done.
  pose proof (inputs_in_temps s T global_reg G _ _ _ _ _ _ _ _ Hrd) as Hins.
  assert (dead_inputs s global_reg op da st (seq (op_oargs op) (op_iargs op)) = st) as He by (by rewrite Hni).
  split; [rewrite <- He; eapply stat_inputs|rewrite <- He at 2; eapply after_inputs]; try done; apply Hrd.
Qed.

(** The constant is noted. *)
Definition noted : astate :=
  upd_temp (drop_reg st d) d (fun ots => set_tval v (set_val_type TEMP_VAL_CONST ots)).

Lemma temps_noted i :
  s_temps noted i = if i =? d then set_tval v (set_val_type TEMP_VAL_CONST (s_temps st d)) else s_temps st i.
Proof. unfold noted. by rewrite temps_upd, temps_drop. Qed.

Lemma noted_ok c0 I0 E Mb :
  reaches c0 I0 st (dyn (needed l') E Mb st) ->
  wf_st noted /\ stays s [d] st noted /\ reaches c0 I0 noted (dyn (needed l2) E Mb noted).
Proof.
  intros Hd. destruct movi_shape as (Hout & _ & _ & _ & Hb & Hng & _).
  destruct (out_facts op l l2 l' da sa D st Hrd Hb Hng d Hout) as (Ht & Hf & _ & Hnd & _).
  split_and!.
  - apply (wf_leave s T global_reg G); try done. apply Hrd.
  - eapply (stays_upd s) with (t := d); [set_solver| |by rewrite temps_noted, Z.eqb_refl].
    intros i Hi. rewrite temps_noted. by destruct (Z.eqb_spec i d).
  - eapply reaches_impl; [|eapply reaches_code; [|exact Hd]; unfold noted; cbn; apply code_drop].
    intros R M HdR. apply (dyn_upd s T global_reg (needed l2) E Mb st noted d).
    + intros i Hi. rewrite temps_noted. by destruct (Z.eqb_spec i d).
    + by rewrite temps_noted, Z.eqb_refl.
    + congruence.
    + by rewrite temps_noted, Z.eqb_refl.
    + eapply dyn_weaken; [|exact HdR]. intros t. eapply needed_before; apply Hrd.
Qed.

#[local] Abbreviation after E := (wr s E w d (Some (low w v))).

Lemma movi_value E : after E d = Some (low (ty d) v).
Proof. destruct movi_shape as (_ & _ & _ & _ & _ & _ & Hty). rewrite wr_eq by done. cbn. by rewrite low_low, Hty. Qed.

Lemma movi_compiled :
  ok (tcg_reg_alloc_movi s T global_reg st d v da sa) (compiled s T global_reg G ext op l l' D' st).
Proof.
  destruct movi_shape as (Hout & Hin & Hno & Hni & Hb & Hng & Hty).
  destruct (out_facts op l l2 l' da sa D st Hrd Hb Hng d Hout) as (Ht & Hf & _ & Hnd & H0 & _ & Hsy & Hde).
  destruct before_const as [Hst2 Hil]. apply compiled_of_all. intros [[E R0] M0].
  assert (Hx : forall m, exec s ext op E m (after E) m Next).
  { intros m. apply exec_eval. unfold eval_op. by rewrite Hc, Ha. }
  destruct (noted_ok (out_code st) (start s T global_reg l' st E R0 M0) E M0) as (Hw1 & Hs1 & Hd1).
  { eapply reaches_impl; [|apply reaches_here]. by intros R M (-> & -> & ?). }
  unfold tcg_reg_alloc_movi. rewrite Hf, Hsy, Hde. fold noted.
  destruct (mem_temps l d) eqn:Hmem.
  - unfold temp_sync. rewrite Hf. rewrite temps_noted, Z.eqb_refl at 1. cbn [set_tval set_val_type val_type].
    apply ok_bind. eapply ok_bind'.
    { by eapply (tcg_reg_alloc_ok s T global_reg G Hctx HT lacking Hlack). }
    intros [r st1] (Hw2 & Hd2 & [Hfr _ Hres Hrg]). cbn [fst snd] in *.
    assert (He : s_temps st1 d = s_temps noted d).
    { eapply (freed_keeps s T global_reg G); try done. by rewrite temps_noted, Z.eqb_refl. }
    rewrite temps_noted, Z.eqb_refl in He. pose proof (fr_free _ _ _ _ _ _ _ Hfr) as Hfree.
    apply ok_unbind. set (i := tcg_out_movi _ _ _).
    assert (Hi : i = tcg_out_movi (ty d) r v) by (unfold i; cbn; by rewrite Z.eqb_refl, He).
    assert (Hdrop : emit (assign_reg st1 d r false) i = assign_reg (drop_reg (emit st1 i) d) d r false).
    { unfold drop_reg. rewrite bool_decide_eq_false_2; [done|]. cbn. by rewrite He. }
    rewrite Hdrop, Hi. eapply ok_mono.
    + pose proof (take_reg op l l2 l' da sa D D' st Hrd HD' Hb Hng d Hout (out_code st)
        (start s T global_reg l' st E R0 M0) E (after E) M0 st (emit st1 (tcg_out_movi (ty d) r v))
        (assign_reg (drop_reg (emit st1 (tcg_out_movi (ty d) r v)) d) d r false) r) as Htk.
      rewrite Hmem in Htk. apply Htk; clear Htk; try done.
      * etrans; [exact Hs1|]. etrans; [eapply stays_spills, Hfr|]. by constructor.
      * by apply (wf_same s T global_reg G st1).
      * eapply (dyn_write s T global_reg G) with (d := r); try done; apply writes_movi.
      * by left.
      * eapply reaches_emit; [done| |exact Hd2]. intros R M R' M' _ (Hm & _). right. by rewrite movi_value, Hm.
      * intros t Hne. by rewrite wr_ne.
      * cbn. apply code_drop.
    + intros st' [Htab Hdyn]. by eapply moved_compiled.
  - assert (dead_temps l d = false) as Hdd by (unfold needed in Hused; rewrite Hmem in Hused; by destruct (dead_temps l d)).
    rewrite Hdd.
    cbn [mbind outcome_bind TcgAllocInv.ok]. eapply moved_compiled; [| |done].
    + eapply (tables_next s T global_reg G op); try done; [by rewrite Hout|]. rewrite Hc.
      apply (one_output op l l2 l' da sa D st Hrd Hb Hng d Hout). rewrite temps_noted, Z.eqb_refl.
      constructor; [congruence..| |done]. intros _. unfold readable, bare. cbn. naive_solver.
    + eapply reaches_impl; [|exact Hd1]. intros R M. apply dyn_env with (d := d).
      * intros t Hn Hne. rewrite wr_ne by done. split; [|done]. eapply sets_other; try done. rewrite Hout. set_solver.
      * intros _. rewrite temps_noted, Z.eqb_refl. right. apply movi_value.
Qed.
End Movi.

(** ** Copies *)

(** The source is in a register. *)
Lemma mov_source_ok c0 I0 N E Mb st d x y :
  wf_st st -> reaches c0 I0 st (dyn N E Mb st) -> in_temps x = true -> N x = true ->
  readable (s_temps st x) -> val_type (s_temps st x) <> TEMP_VAL_CONST ->
  ok (mov_source s T global_reg st d x y) (fun st1 =>
    wf_st st1 /\ reaches c0 I0 st1 (dyn N E Mb st1) /\ evolves s [x] st st1 /\
    val_type (s_temps st1 x) = TEMP_VAL_REG).
Proof.
  intros Hw Hd Ht HN [Hnd Hall] Hnc. unfold mov_source.
  destruct (val_type (s_temps st x)) eqn:Hv; try done.
  { rewrite (bool_decide_eq_true_2 (TEMP_VAL_REG = TEMP_VAL_REG)), andb_false_r by done.
    rewrite (bool_decide_eq_false_2 (TEMP_VAL_REG = TEMP_VAL_MEM)) by done. done. }
  rewrite (bool_decide_eq_true_2 (TEMP_VAL_MEM = TEMP_VAL_MEM)), orb_true_r by done.
  eapply ok_bind'; [by eapply (tcg_reg_alloc_ok s T global_reg G Hctx HT lacking Hlack)|].
  intros [r st1] (Hw1 & Hd1 & [Hfr _ Hres Hrg]). cbn [fst snd] in *.
  assert (Hk : s_temps st1 x = s_temps st x) by (eapply (freed_keeps s T global_reg G); try done; by rewrite Hv).
  assert (Hf : fixed x = false).
  { apply not_true_is_false. intros Hf. destruct (w_fixed _ _ _ _ _ Hw x Hf). congruence. }
  rewrite temps_upd, Z.eqb_refl. cbn [set_reg val_type mem_reg mem_offset]. rewrite Hk, Hv.
  set (i := tcg_out_ld (ty x) r (mem_reg (s_temps st x)) (mem_offset (s_temps st x))).
  destruct (load_ok s T global_reg G Hctx HT c0 I0 N E Mb st1 x r true i) as [Hw2 Hd2]; try done.
  { by rewrite Hk, Hv. }
  { by apply (fr_free _ _ _ _ _ _ _ Hfr). }
  { intros _. rewrite Hk. by apply Hall. }
  { apply writes_ld. }
  { intros R M R' M' HdR (Hm & _). unfold slot. rewrite Hk. split; [|by intros _].
    intros _. pose proof (d_val _ _ _ _ _ _ _ _ _ HdR x Ht HN) as Hl. unfold loc in Hl. rewrite Hk, Hv in Hl.
    unfold TcgHost.holds in *. rewrite Hm. by apply Hl, Hall. }
  set (st2 := assign_reg (emit st1 i) x r true) in *. set (st3 := upd_temp _ x (set_val_type TEMP_VAL_REG)).
  assert (Hsame : same st2 st3).
  { constructor; try done. intros t. cbn. rewrite Z.eqb_refl. by destruct (t =? x). }
  cbn [TcgAllocInv.ok]. split_and!.
  - by apply (wf_same s T global_reg G st2).
  - by apply (reaches_same _ _ _ _ _ st2).
  - etrans; [eapply evolves_spills, Hfr|]. eapply (evolves_load s) with (t := x); [by left|..];
      try intros j Hj; rewrite (same_temps _ _ Hsame); unfold st2; cbn.
    + by destruct (Z.eqb_spec j x).
    + by rewrite Z.eqb_refl.
    + by rewrite Z.eqb_refl.
    + by rewrite Z.eqb_refl.
  - rewrite (same_temps _ _ Hsame). cbn. by rewrite Z.eqb_refl.
Qed.

(** What a copy is. *)
Lemma mov_value E w d x v :
  ty d = w -> wbits w <= wbits (ty x) -> holds E x v -> holds (wr s E w d (rd s E w x)) d v.
Proof.
  intros Hty Hle Hh. unfold TcgHost.holds in *. rewrite wr_eq by done. unfold rd.
  destruct (Z.leb_spec (wbits w) (wbits (ty x))) as [_|]; [|lia].
  destruct Hh as [-> | ->]; [by left|right]. cbn. rewrite low_low, Hty. f_equal.
  destruct w, (ty x); try done; [apply low_low|apply low_u64|apply low_low].
Qed.

Section MovRun.
Context (op : TCGOp) (l l2 l' : la) (da sa : Z) (D D' : Z -> bool) (st : astate).
Context (Hrd : ready op l l2 l' da sa D st) (HD' : written_after s op D D').
Context (w : width) (d x : Z) (Hc : opc op = INDEX_op_mov w) (Ha : args op = [d; x]).
Context (Hused : needed l d = true) (Hnc : val_type (s_temps st x) <> TEMP_VAL_CONST).

Lemma mov_shape :
  op_outputs op = [d] /\ op_inputs op = [x] /\ op_oargs op = 1%nat /\ op_iargs op = 1%nat /\ ends_bb op = false /\
  reads_globals op = false /\ ty d = w /\ wbits w <= wbits (ty x).
Proof.
  unfold op_outputs, op_inputs, op_oargs, op_iargs, ends_bb, reads_globals. rewrite Hc, Ha. split_and!; try done;
  pose proof (r_args _ _ _ _ _ _ _ _ _ _ _ _ Hrd) as Hw; unfold wf_args in Hw; rewrite Hc, Ha in Hw;
  unfold out_ok, in_ok in Hw; rewrite !andb_true_iff, bool_decide_eq_true in Hw; [apply Hw|lia].
Qed.

#[local] Abbreviation Hout := (proj1 mov_shape).
#[local] Abbreviation Hb := (proj1 (proj2 (proj2 (proj2 (proj2 mov_shape))))).
#[local] Abbreviation Hng := (proj1 (proj2 (proj2 (proj2 (proj2 (proj2 mov_shape)))))).

Lemma source_facts :
  in_temps x = true /\ needed l' x = true /\ readable (s_temps st x) /\ IS_DEAD_ARG da 1 = dead_temps l2 x.
Proof.
  destruct mov_shape as (_ & Hin & Hno & Hni & _).
  destruct (input_ready s T global_reg G _ _ _ _ _ _ _ _ Hrd 1) as (_ & H1 & H2 & H3); [unfold input; lia|].
  unfold arg in H1, H2, H3. rewrite Ha in H1, H2, H3. split_and!; try done.
  assert (Hlk : op_inputs op !! 0%nat = Some x) by (by rewrite Hin).
  pose proof (an_dead_in _ _ _ _ _ _ (r_an _ _ _ _ _ _ _ _ _ _ _ _ Hrd) 0 x Hlk) as Hd.
  rewrite Hno in Hd. unfold IS_DEAD_ARG. change (Z.of_nat 1) with (Z.of_nat (1 + 0)). rewrite Hd. rewrite bool_decide_eq_true_2; [apply andb_true_r|apply not_elem_of_nil].
Qed.

(** The source, once it is used for the last time. *)
Definition source_left (st1 : astate) : astate :=
  if IS_DEAD_ARG da 1 then temp_dead s global_reg st1 x else st1.

Lemma mov_inputs c0 I0 E Mb st1 :
  wf_st st1 -> evolves s [x] st st1 -> reaches c0 I0 st1 (dyn (needed l') E Mb st1) ->
  stat l2 D (source_left st1) /\ inputs_left s l2 st (source_left st1) /\
  reaches c0 I0 (source_left st1) (dyn (needed l2) E Mb (source_left st1)) /\
  out_code (source_left st1) = out_code st1.
Proof.
  intros Hw1 Hev Hd1. destruct mov_shape as (_ & Hin & Hno & Hni & _). rewrite <- Hin in Hev.
  assert (dead_inputs s global_reg op da st1 (seq (op_oargs op) (op_iargs op)) = source_left st1) as <-.
  { rewrite Hno, Hni. unfold source_left, dead_inputs. cbn [seq fold_left]. unfold arg. by rewrite Ha. }
  pose proof (inputs_in_temps s T global_reg G _ _ _ _ _ _ _ _ Hrd) as Hins.
  pose proof (r_shape _ _ _ _ _ _ _ _ _ _ _ _ Hrd) as Hs. pose proof (r_an _ _ _ _ _ _ _ _ _ _ _ _ Hrd) as Han.
  split_and!.
  - eapply stat_inputs; try done; apply Hrd.
  - eapply after_inputs; try done; apply Hrd.
  - eapply dyn_inputs; try done; apply Hrd.
  - by eapply code_inputs.
Qed.

#[local] Abbreviation after E := (wr s E w d (rd s E w x)).

Lemma copied E v : holds E x v -> holds (after E) d v.
Proof. destruct mov_shape as (_ & _ & _ & _ & _ & _ & Hty & Hle). by apply mov_value. Qed.

(** ** Into memory *)

Lemma evolves_slotted ins st1 st2 t :
  slotted s T global_reg G st1 st2 t -> evolves s ins st1 st2.
Proof.
  intros (_ & Ha2 & Hi & Hv & Hr & Htv & Hco & Hsl & _). constructor; intros i;
    (destruct (decide (i = t)) as [->|Hne]; [|by rewrite ?(Hi i Hne)]).
  - intros _. unfold in_mem. by rewrite Hv, Hco.
  - intros _ [? _]. split; [by rewrite Hv|done].
  - intros _ _. by rewrite Hv.
  - intros _ [_ ?]. congruence.
  - intros H. split; [done|by apply Hsl].
  - intros _. by rewrite Hv.
Qed.

Lemma not_needed : d <> x -> needed l' d = false.
Proof.
  intros Hne. destruct mov_shape as (_ & Hin & _).
  destruct (out_facts op l l2 l' da sa D st Hrd Hb Hng d Hout) as (_ & _ & Hd2 & Hn2 & _).
  pose proof (r_an _ _ _ _ _ _ _ _ _ _ _ _ Hrd) as Han. unfold needed in *.
  rewrite (an_dead _ _ _ _ _ _ Han), (an_mem _ _ _ _ _ _ Han), Hin, Hd2.
  rewrite Hd2 in Hn2. rewrite bool_decide_eq_true_2; [done|]. by intros ->%list_elem_of_singleton.
Qed.

Lemma not_in_reg st1 : evolves s [x] st st1 -> d <> x -> val_type (s_temps st1 d) = canonical s d.
Proof.
  intros Hev Hne. destruct (out_facts op l l2 l' da sa D st Hrd Hb Hng d Hout) as (Ht & Hf & _).
  apply (ev_rest _ _ _ _ Hev); [done|by intros ->%list_elem_of_singleton|].
  apply (s_dead _ _ _ _ _ _ _ (r_stat _ _ _ _ _ _ _ _ _ _ _ _ Hrd)); try done.
  pose proof (not_needed Hne) as Hn. unfold needed in Hn. apply orb_false_iff in Hn as [Hn _].
  by apply negb_false_iff.
Qed.

Lemma mov_store_ok c0 I0 E Mb st1 :
  wf_st st1 -> evolves s [x] st st1 -> reaches c0 I0 st1 (dyn (needed l') E Mb st1) ->
  val_type (s_temps st1 x) = TEMP_VAL_REG -> dead_temps l d = true ->
  ok (mov_store s T global_reg st1 d x da sa) (fun st' =>
    tables s T global_reg G op l D' st st' /\ reaches c0 I0 st' (dyn (needed l) (after E) Mb st')).
Proof.
  intros Hw1 Hev1 Hd1 Hv1 Hdd. pose proof mov_shape as (_ & _ & _ & _ & _ & _ & Hty & Hle).
  destruct (out_facts op l l2 l' da sa D st Hrd Hb Hng d Hout) as (Ht & Hf & _ & Hnd & _ & _ & Hsy & _).
  destruct source_facts as (Htx & Hnx & _ & _).
  assert (Hmem : mem_temps l d = true) by (unfold needed in Hused; by rewrite Hdd in Hused).
  assert (Hcan : canonical s d = TEMP_VAL_MEM).
  { unfold canonical. by rewrite (r_la _ _ _ _ _ _ _ _ _ _ _ _ Hrd d Hmem). }
  unfold mov_store. rewrite Hsy, Hmem. apply ok_assert; [done|]. apply ok_assert; [by apply bool_decide_eq_true|].
  eapply ok_bind'; [by apply (slot_for_ok s T global_reg G)|]. intros st2 [Hsl Hd2].
  pose proof Hsl as (Hw2 & Ha2 & Hi2 & Hv2 & Hr2 & _ & _ & _ & _ & Hc2).
  assert (Hx2 : val_type (s_temps st2 x) = TEMP_VAL_REG /\ treg (s_temps st2 x) = treg (s_temps st1 x)).
  { destruct (decide (x = d)) as [->|Hne]; [split; congruence|]. by rewrite Hi2. }
  destruct Hx2 as [Hvx2 Hrx2]. set (r := treg (s_temps st2 x)) in *.
  assert (Hdd2 : reaches c0 I0 st2 (dyn (needed l') E Mb st2)).
  { eapply reaches_impl; [|eapply reaches_code; [exact Hc2|exact Hd1]]. intros R M. apply Hd2. intros Hvd _.
    apply not_needed. intros ->. congruence. }
  set (i := tcg_out_st (ty d) r (mem_reg (s_temps st2 d)) (mem_offset (s_temps st2 d))). set (st3 := emit st2 i).
  assert (Hd3 : reaches c0 I0 st3 (fun R M => dyn (needed l') E Mb st3 R M /\
    holds (after E) d (M (slot (s_temps st2 d))))).
  { eapply reaches_emit; [done| |exact Hdd2]. intros R M R' M' HdR (Hm & Ho & ->).
    assert (Hhx : holds E x (R r)).
    { pose proof (d_val _ _ _ _ _ _ _ _ _ HdR x Htx Hnx) as Hl. unfold loc in Hl. by rewrite Hvx2 in Hl. }
    split.
    - apply (dyn_temps s T global_reg _ E Mb st2); [done|].
      eapply (dyn_store s T global_reg G) with (t := d) (x := R r); try done.
      + intros Hvd _. destruct (decide (x = d)) as [Heq|Hne]; [unfold r; by rewrite Heq|].
        exfalso. apply (canonical_not_reg s d). rewrite <- (not_in_reg st1); [congruence|done|congruence].
      + intros Hvd HNd. rewrite not_needed in HNd; [done|]. intros ->. congruence.
    - apply copied in Hhx. unfold TcgHost.holds in *. unfold slot. by rewrite Hm. }
  assert (Hev3 : evolves s [x] st st3).
  { etrans; [exact Hev1|]. etrans; [by eapply evolves_slotted|]. by apply evolves_same. }
  assert (Hw3 : wf_st st3) by (by apply (wf_same s T global_reg G st2)).
  destruct (mov_inputs c0 I0 E Mb st3 Hw3 Hev3) as (Hst4 & Hil4 & Hd4 & Hc4).
  { eapply reaches_impl; [|exact Hd3]. by intros R M [? _]. }
  fold (source_left st3). set (st4 := source_left st3) in *. cbn [TcgAllocInv.ok].
  assert (He4 : s_temps st4 d = s_temps st2 d \/ s_temps st4 d = set_val_type (canonical s d) (s_temps st2 d)).
  { unfold st4, source_left. destruct (IS_DEAD_ARG da 1); [|by left]. rewrite temps_dead.
    destruct (Z.eqb_spec d x) as [->|]; [|by left]. destruct (fixed x); [by left|by right]. }
  assert (He5 : s_temps (temp_dead s global_reg st4 d) d = set_val_type (canonical s d) (s_temps st2 d)).
  { rewrite temps_dead, Z.eqb_refl, Hf. cbn [negb andb]. by destruct He4 as [-> | ->]. }
  split.
  - eapply (tables_next s T global_reg G op); try done; [exact Hb| | |].
    + rewrite Hout. eapply (stays_upd s) with (t := d); [by left| |].
      * intros j Hj. rewrite temps_dead. by destruct (Z.eqb_spec j d).
      * rewrite He5. by destruct He4 as [-> | ->].
    + apply (wf_dead s T global_reg G); [apply Hst4|done].
    + apply (one_output op l l2 l' da sa D st Hrd Hb Hng d Hout), settled_const. rewrite He5, Hcan.
      constructor; cbn; try done; [by left|]. intros _. unfold readable, bare. cbn. rewrite Ha2. naive_solver.
  - apply (reaches_code _ _ st3 st4) in Hd3; [|done].
    eapply reaches_impl; [|eapply reaches_code; [apply code_dead|exact (reaches_and _ _ _ _ _ Hd4 Hd3)]].
    intros R M [HdR [_ Hv]]. eapply (dyn_env (needed l2)) with (d := d) (E := E).
    + intros t Hn Hne. rewrite wr_ne by done. split; [|done]. eapply sets_other; try done; [exact Hb|].
      rewrite Hout. by intros ->%list_elem_of_singleton.
    + intros _. rewrite He5, Hcan. by intros _.
    + apply dyn_dead; [done| |done]. intros _. congruence.
Qed.

(** ** Into a register *)

(** [take_reg], where the output is used in a register. *)
Lemma take_copy c0 I0 E Mb st2 st3 st4 r :
  stat l2 D st2 -> inputs_left s l2 st st2 -> stays s [d] st2 st3 -> wf_st st3 ->
  reaches c0 I0 st3 (dyn (needed l2) E Mb st3) ->
  reserved r = false -> 0 <= r < TCG_TARGET_NB_REGS T -> reg_to_temp st3 r = -1 ->
  reaches c0 I0 st3 (fun R _ => holds (after E) d (R r)) ->
  same (assign_reg (drop_reg st3 d) d r false) st4 -> out_code st4 = out_code st3 -> dead_temps l d = false ->
  ok (if NEED_SYNC_ARG sa 0 then tcg_reg_sync s T global_reg st4 r else Ret st4) (fun st' =>
    tables s T global_reg G op l D' st st' /\ reaches c0 I0 st' (dyn (needed l) (after E) Mb st')).
Proof.
  intros Hst2 Hil Hsy Hw3 Hd3 Hres Hrg Hfree Hval Hsame Hcode Hdd.
  destruct (out_facts op l l2 l' da sa D st Hrd Hb Hng d Hout) as (_ & _ & _ & _ & _ & _ & -> & _).
  pose proof (take_reg op l l2 l' da sa D D' st Hrd HD' Hb Hng d Hout c0 I0 E (after E) Mb st2 st3 st4 r) as Htk.
  rewrite Hdd in Htk. apply ok_unbind in Htk; try done; [by left|]. intros t Hne. by rewrite wr_ne.
Qed.

Lemma source_reg st1 :
  wf_st st1 -> val_type (s_temps st1 x) = TEMP_VAL_REG -> fixed x = false ->
  let r := treg (s_temps st1 x) in
  reg_to_temp st1 r = x /\ reserved r = false /\ 0 <= r < TCG_TARGET_NB_REGS T.
Proof.
  intros Hw Hv Hf r. destruct source_facts as (Ht & _). pose proof (w_reg _ _ _ _ _ Hw x Ht Hf Hv) as Hr.
  fold r in Hr. destruct (w_own _ _ _ _ _ Hw r) as [Hm|(_ & _ & _ & _ & ? & ?)]; [|done].
  apply neg_in in Ht. congruence.
Qed.

(** The registers when one is handed over. *)
Lemma renamed_regs st1 r' :
  wf_st st1 -> evolves s [x] st st1 -> val_type (s_temps st1 x) = TEMP_VAL_REG -> fixed x = false ->
  let r := treg (s_temps st1 x) in
  reg_to_temp (temp_dead s global_reg (upd_temp (drop_reg st1 d) d (set_reg r)) x) r' =
    if r' =? r then -1 else reg_to_temp st1 r'.
Proof.
  intros Hw1 Hev1 Hv1 Hfx r. destruct (out_facts op l l2 l' da sa D st Hrd Hb Hng d Hout) as (Ht & Hf & _).
  unfold temp_dead. rewrite Hfx. cbn [upd_temp reg_to_temp]. unfold drop_reg at 1.
  assert (He : s_temps (upd_temp (drop_reg st1 d) d (set_reg r)) x =
    (if x =? d then set_reg r (s_temps st1 d) else s_temps st1 x)) by (by rewrite temps_upd, temps_drop).
  assert (val_type (s_temps (upd_temp (drop_reg st1 d) d (set_reg r)) x) = TEMP_VAL_REG /\
    treg (s_temps (upd_temp (drop_reg st1 d) d (set_reg r)) x) = r) as [Hva Hra].
  { rewrite He. destruct (Z.eqb_spec x d) as [Heq|]; [|done]. cbn. by rewrite <- Heq. }
  rewrite bool_decide_eq_true_2, Hra by done. cbn. destruct (Z.eqb_spec r' r) as [|Hr]; [done|].
  rewrite (regs_drop s T global_reg G) by done. destruct (Z.eqb_spec (reg_to_temp st1 r') d) as [Hd'|]; [|done].
  destruct (w_own _ _ _ _ _ Hw1 r') as [->|(_ & _ & Hvo & Hro & _)]; [done|]. rewrite Hd' in Hvo, Hro.
  destruct (decide (d = x)) as [Heq|Hne]; [rewrite Heq in Hro; by destruct Hr|].
  rewrite (not_in_reg st1) in Hvo by done. by apply canonical_not_reg in Hvo.
Qed.

(** The register is handed over. *)
Lemma mov_rename_ok c0 I0 E Mb st1 :
  wf_st st1 -> evolves s [x] st st1 -> reaches c0 I0 st1 (dyn (needed l') E Mb st1) ->
  val_type (s_temps st1 x) = TEMP_VAL_REG -> dead_temps l d = false ->
  IS_DEAD_ARG da 1 = true -> fixed x = false ->
  let r := treg (s_temps st1 x) in
  let st2 := temp_dead s global_reg (upd_temp (drop_reg st1 d) d (set_reg r)) x in
  let reg := treg (s_temps st2 d) in
  let st4 := assign_reg st2 d reg false in
  ok (if NEED_SYNC_ARG sa 0 then tcg_reg_sync s T global_reg st4 reg else Ret st4) (fun st' =>
    tables s T global_reg G op l D' st st' /\ reaches c0 I0 st' (dyn (needed l) (after E) Mb st')).
Proof.
  intros Hw1 Hev1 Hd1 Hv1 Hdd Hdie Hfx r st2 reg st4.
  destruct (out_facts op l l2 l' da sa D st Hrd Hb Hng d Hout) as (Ht & Hf & _).
  destruct source_facts as (Htx & Hnx & _ & _). destruct (source_reg st1 Hw1 Hv1 Hfx) as (Hown & Hres & Hrg). fold r in Hown, Hres, Hrg.
  destruct (mov_inputs c0 I0 E Mb st1 Hw1 Hev1 Hd1) as (Hst2 & Hil2 & Hd2 & Hc2).
  assert (Hsl : source_left st1 = temp_dead s global_reg st1 x) by (unfold source_left; by rewrite Hdie).
  rewrite Hsl in *.
  assert (Hreg : reg = r).
  { unfold reg, st2. rewrite temps_dead, Hfx, !temps_upd, temps_drop, Z.eqb_refl.
    destruct (Z.eqb_spec d x) as [->|]; cbn; [by rewrite Z.eqb_refl|done]. }
  unfold st4. rewrite Hreg. clearbody reg. clear reg st4 Hreg.
  assert (Hrx : forall r', reg_to_temp st2 r' = if r' =? r then -1 else reg_to_temp st1 r')
    by (intros r'; by apply renamed_regs).
  eapply (take_copy c0 I0 E Mb (temp_dead s global_reg st1 x) (temp_dead s global_reg st1 x)); try done.
  - apply Hst2.
  - rewrite (regs_dead s T global_reg G), Hown, Z.eqb_refl, Hfx by done. done.
  - eapply reaches_code; [exact Hc2|]. eapply reaches_impl; [|exact Hd1]. intros R M HdR. apply copied.
    pose proof (d_val _ _ _ _ _ _ _ _ _ HdR x Htx Hnx) as Hl. unfold loc in Hl. by rewrite Hv1 in Hl.
  - constructor.
    + intros t. rewrite temps_assign. cbn [assign_reg set_reg_to_temp upd_temp s_temps].
      unfold st2. rewrite !temps_dead, Hfx, !temps_upd, temps_drop.
      destruct (Z.eqb_spec t d) as [->|Hne].
      * destruct (Z.eqb_spec d x) as [->|]; cbn; rewrite ?Z.eqb_refl; done.
      * destruct (Z.eqb_spec t x) as [->|]; cbn; [|done]. by destruct (Z.eqb_spec x d).
    + intros r'. rewrite (regs_assign s T global_reg G); [|apply Hst2|done..].
      cbn [assign_reg set_reg_to_temp reg_to_temp upd_temp]. rewrite Hrx.
      rewrite (regs_dead s T global_reg G), Hfx by done. cbn [negb]. rewrite andb_true_r.
      destruct (Z.eqb_spec r' r) as [|Hr]; [done|].
      destruct (Z.eqb_spec (reg_to_temp st1 r') x) as [Hx'|Hx'].
      * destruct (w_own _ _ _ _ _ Hw1 r') as [Hm|(_ & _ & _ & Hro & _)]; [apply neg_in in Htx; congruence|].
        rewrite Hx' in Hro. done.
      * destruct (Z.eqb_spec (reg_to_temp st1 r') d) as [Hd'|]; [|done].
        destruct (w_own _ _ _ _ _ Hw1 r') as [Hm|(_ & _ & Hvo & _)]; [congruence|].
        rewrite Hd', (not_in_reg st1) in Hvo; [by apply canonical_not_reg in Hvo|done|congruence].
    + cbn. unfold st2, temp_dead. rewrite Hfx. cbn. rewrite !frame_drop. cbn. by rewrite !frame_drop.
  - cbn. unfold st2. rewrite code_dead. cbn. rewrite code_drop. by rewrite Hc2.
Qed.

(** The value is copied. *)
Lemma mov_copy_ok c0 I0 E Mb st1 :
  wf_st st1 -> evolves s [x] st st1 -> reaches c0 I0 st1 (dyn (needed l') E Mb st1) ->
  val_type (s_temps st1 x) = TEMP_VAL_REG -> dead_temps l d = false -> source_left st1 = st1 ->
  let r := treg (s_temps st1 x) in
  ok (st ← (st ← (if negb (bool_decide (val_type (s_temps st1 d) = TEMP_VAL_REG)) then
                    '(reg, st) ← tcg_reg_alloc s T global_reg st1 (tcg_target_available_regs T (ty d))
                                   (set_regset (reserved_regs T) r);
                    Ret (upd_temp st d (set_reg reg))
                  else Ret st1);
            Ret (emit st (tcg_out_mov (ty d) (treg (s_temps st d)) r)));
      let reg := treg (s_temps st d) in
      let st := assign_reg st d reg false in
      if NEED_SYNC_ARG sa 0 then tcg_reg_sync s T global_reg st reg else Ret st) (fun st' =>
    tables s T global_reg G op l D' st st' /\ reaches c0 I0 st' (dyn (needed l) (after E) Mb st')).
Proof.
  intros Hw1 Hev1 Hd1 Hv1 Hdd Hsl r.
  destruct (out_facts op l l2 l' da sa D st Hrd Hb Hng d Hout) as (Ht & Hf & Hd2d & _).
  destruct source_facts as (Htx & Hnx & _ & _).
  destruct (mov_inputs c0 I0 E Mb st1 Hw1 Hev1 Hd1) as (Hst2 & Hil2 & Hd2 & _). rewrite Hsl in *.
  pose proof (s_dead _ _ _ _ _ _ _ Hst2 d Ht Hf Hd2d) as Hcd.
  assert (Hnr : val_type (s_temps st1 d) <> TEMP_VAL_REG) by (rewrite Hcd; apply canonical_not_reg).
  rewrite bool_decide_eq_false_2 by done. cbn [negb].
  apply ok_bind, ok_bind. eapply ok_bind'; [by eapply (tcg_reg_alloc_ok s T global_reg G Hctx HT lacking Hlack)|].
  intros [reg st2] (Hw2 & Hdy2 & [Hfr _ Hres Hrg]). cbn [fst snd] in *.
  unfold set_regset in Hres. rewrite Z.lor_spec in Hres. apply orb_false_iff in Hres as [Hres _].
  pose proof (fr_spills _ _ _ _ _ _ _ Hfr) as Hs2.
  assert (Hk : s_temps st2 d = s_temps st1 d) by (by eapply (freed_keeps s T global_reg G)).
  cbn [TcgAllocInv.ok]. rewrite temps_upd, Z.eqb_refl. cbn [set_reg treg].
  set (i := tcg_out_mov (ty d) reg r).
  assert (treg (s_temps (emit (upd_temp st2 d (set_reg reg)) i) d) = reg) as -> by (cbn; by rewrite Z.eqb_refl).
  eapply (take_copy c0 I0 E Mb st1 (emit st2 i)); try done.
  - etrans; [by eapply stays_spills|]. by constructor.
  - by apply (wf_same s T global_reg G st2).
  - eapply (dyn_write s T global_reg G) with (d := reg); try done; [apply Hfr|apply writes_mov].
  - apply Hfr.
  - eapply (reaches_emit _ _ st2 _ (fun R _ => holds E x (R r))); [done| |].
    + intros R M R' M' Hh (Hm & _). apply copied in Hh. unfold TcgHost.holds in *. by rewrite Hm.
    + apply (sp_code _ _ _ _ _ _ Hs2 (fun R => holds E x (R r))). eapply reaches_impl; [|exact Hd1].
      intros R M HdR. pose proof (d_val _ _ _ _ _ _ _ _ _ HdR x Htx Hnx) as Hl. unfold loc in Hl. by rewrite Hv1 in Hl.
  - assert (drop_reg (emit st2 i) d = emit st2 i) as -> by (unfold drop_reg; rewrite bool_decide_eq_false_2; [done|cbn; by rewrite Hk]).
    constructor; try done. intros t. cbn. rewrite Z.eqb_refl. by destruct (t =? d).
Qed.

(** [tcg_reg_alloc_mov]. *)
Lemma mov_compiled :
  ok (tcg_reg_alloc_mov s T global_reg st d x da sa) (compiled s T global_reg G ext op l l' D' st).
Proof.
  destruct (out_facts op l l2 l' da sa D st Hrd Hb Hng d Hout) as (Ht & Hf & _ & _ & _ & _ & Hsy & Hde).
  destruct source_facts as (Htx & Hnx & Hrx & Hdx). apply compiled_of_all. intros [[E R0] M0].
  assert (Hx : forall m, exec s ext op E m (after E) m Next).
  { intros m. apply exec_eval. unfold eval_op. by rewrite Hc, Ha. }
  set (I0 := start s T global_reg l' st E R0 M0).
  eapply ok_mono with (P := fun st' => tables s T global_reg G op l D' st st' /\
    reaches (out_code st) I0 st' (dyn (needed l) (after E) M0 st')); [|by intros st' [? ?]; eapply moved_compiled].
  unfold tcg_reg_alloc_mov. eapply ok_bind'.
  { eapply (mov_source_ok (out_code st) I0 (needed l') E M0); try done; [apply Hrd|].
    eapply reaches_impl; [|apply reaches_here]. by intros R M (-> & -> & ?). }
  intros st1 (Hw1 & Hd1 & Hev1 & Hv1). rewrite Hf, Hde. cbn [negb]. rewrite andb_true_r.
  destruct (dead_temps l d) eqn:Hdd; [by apply mov_store_ok|].
  rewrite bool_decide_eq_false_2 by congruence. unfold mov_reg. rewrite Hf. cbn [negb]. rewrite andb_true_r.
  apply ok_assert; [by apply bool_decide_eq_true|].
  destruct (IS_DEAD_ARG da 1 && negb (fixed x)) eqn:Hdie.
  - apply andb_true_iff in Hdie as [Hdie Hfx%negb_true_iff]. by apply mov_rename_ok.
  - apply mov_copy_ok; try done. unfold source_left, temp_dead.
    by destruct (IS_DEAD_ARG da 1), (fixed x).
Qed.
End MovRun.
End Mov.
