(* ===== verification/TcgGenCode.v ===== *)
(** * Code for a whole block

    [gen_ops], the loop of [tcg_gen_code_common] after the liveness analysis:
    it returns, or the host lacks something; and whatever the code it emits
    does, the block may do, through all its jumps. *)

From S2P Require Import Prelude HostUtils BitField TcgOp TcgOpt TcgSem TcgMono TcgLive TcgAlloc TcgHost.
From S2P Require Import TcgInv TcgGood TcgCorrect TcgFrame TcgLiveness TcgAllocInv TcgAllocMove TcgAllocLive.
From S2P Require Import TcgAllocOp TcgAllocExec TcgAllocRun TcgAllocCall TcgAllocMov.

Section Block.
Context (s : TCGContext) (T : TCGTarget) (global_reg : Z -> bool) (G : Z -> TCGTemp).
Context (Hctx : wf_ctx s = true) (HT : target_ok s T global_reg G).
Context {World : Type}.
Context (ext : TCGOpcode -> list Z -> list Z -> list Z -> World ->
               list Z -> list Z -> World -> bool -> Prop).

#[local] Abbreviation fixed := (fixed_reg s global_reg).
#[local] Abbreviation in_temps := (in_temps s).
#[local] Abbreviation ty := (temp_type s).
#[local] Abbreviation wf_st := (wf_st s T global_reg G).
#[local] Abbreviation dyn := (dyn s T global_reg).
#[local] Abbreviation holds := (holds s).
#[local] Abbreviation stat := (stat s T global_reg G).
#[local] Abbreviation ready := (ready s T global_reg G).
#[local] Abbreviation exec := (exec s ext).
#[local] Abbreviation hexecs := (hexecs s T global_reg G ext).
#[local] Abbreviation home := (home s global_reg G).
#[local] Abbreviation lasting := (lasting s).

(** ** Points of the block *)

(** The slots of [st] are those of [st']. *)
Definition extends (st st' : astate) : Prop :=
  forall t, mem_allocated (s_temps st t) = true ->
    mem_allocated (s_temps st' t) = true /\ slot (s_temps st' t) = slot (s_temps st t).

#[export] Instance extends_trans : Transitive extends.
Proof. intros x y z Hxy Hyz t Ha. destruct (Hxy t Ha) as [Hy Hs]. destruct (Hyz t Hy). split; congruence. Qed.

#[export] Instance extends_refl : Reflexive extends.
Proof. by intros st t Ha. Qed.

(** All variables are out of registers, but those in fixed ones. *)
Definition out_of_regs (st : astate) : Prop :=
  forall t, in_temps t = true -> fixed t = false -> val_type (s_temps st t) = canonical s t.

Section Points.
(** The tables at the end of the block. *)
Context (stF : astate) (HwF : wf_st stF).

(** At a point with the sets [l] and the tables [st]: the variables in use
    are in their places; a local temporary that has no slot yet is already
    where it will have one, for a jump back may have brought a value. *)
Record at_point (l : la) (st : astate) (E : env) (R : hregs) (M : hmem) : Prop := {
  p_dyn : dyn (needed l) E M st R M;
  p_bare : forall t, in_temps t = true -> needed l t = true -> bare (s_temps st t) ->
    mem_allocated (s_temps stF t) = true -> holds E t (M (slot (s_temps stF t)));
}.

(** At a jump: globals and local temporaries are in their slots. *)
Record at_jump (E : env) (R : hregs) (M : hmem) : Prop := {
  j_fixed : forall t, fixed t = true -> holds E t (R (treg (G t)));
  j_slot : forall t, in_temps t = true -> lasting t = true -> fixed t = false ->
    mem_allocated (s_temps stF t) = true -> holds E t (M (slot (s_temps stF t)));
}.

Definition globals_home (E : env) (R : hregs) (M : hmem) : Prop :=
  forall g, is_global s g = true -> holds E g (home R M g).

Lemma jump_home E R M : at_jump E R M -> globals_home E R M.
Proof.
  intros [Hf Hs] g Hg. unfold TcgHost.home. destruct (fixed g) eqn:Hfg; [by apply Hf|].
  destruct (w_global _ _ _ _ _ HwF g Hg Hfg) as [Ha <-]. apply Hs; try done; [by apply global_in|].
  unfold TcgAllocRun.lasting. by rewrite Hg.
Qed.

(** From a jump to a label. *)
Lemma enter l st E R M :
  wf_st st -> extends st stF -> out_of_regs st -> at_jump E R M -> at_point l st E R M.
Proof.
  intros Hw He Ho [Hf Hs].
  assert (Hval : forall t, in_temps t = true -> fixed t = false ->
    val_type (s_temps st t) = if lasting t then TEMP_VAL_MEM else TEMP_VAL_DEAD) by (intros; by apply Ho).
  constructor; [constructor; [| |done]|].
  - intros t Ht _. unfold loc. destruct (fixed t) eqn:Hft.
    + destruct (w_fixed _ _ _ _ _ Hw t Hft) as [-> ->]. by apply Hf.
    + rewrite Hval by done. destruct (lasting t) eqn:Hl; [|done]. intros Ha. destruct (He t Ha) as [HaF <-]. by apply Hs.
  - intros t Ht Hft Hv. rewrite Hval in Hv by done. by destruct (lasting t).
  - intros t Ht _ [Hv _] HaF. destruct (fixed t) eqn:Hft.
    + destruct (w_fixed _ _ _ _ _ Hw t Hft). congruence.
    + rewrite Hval in Hv by done. destruct (lasting t) eqn:Hl; [|done]. by apply Hs.
Qed.

(** And from the end of a basic block to a jump. *)
Lemma leave E R M Mb st :
  wf_st st -> extends st stF -> out_of_regs st -> dyn lasting E Mb st R M ->
  (forall t, in_temps t = true -> lasting t = true -> bare (s_temps st t) ->
     mem_allocated (s_temps stF t) = true -> holds E t (M (slot (s_temps stF t)))) -> at_jump E R M.
Proof.
  intros Hw He Ho [H1 _ _] Hb. constructor.
  - intros t Hf. pose proof (fixed_global s global_reg t Hf) as Hg.
    assert (Hl : loc s E (s_temps st t) R M t).
    { apply H1; [by apply global_in|]. unfold TcgAllocRun.lasting. by rewrite Hg. }
    unfold loc in Hl. by destruct (w_fixed _ _ _ _ _ Hw t Hf) as [Hv <-]; rewrite Hv in Hl.
  - intros t Ht Hl Hf HaF. pose proof (Ho t Ht Hf) as Hv. unfold canonical in Hv. fold (lasting t) in Hv. rewrite Hl in Hv.
    destruct (mem_allocated (s_temps st t)) eqn:Ha; [|by apply Hb].
    destruct (He t Ha) as [_ ->]. pose proof (H1 t Ht Hl) as Hlo. unfold loc in Hlo. rewrite Hv in Hlo. auto.
Qed.

Definition after_step (l : la) (f : flow) (E' : env) (st' : astate) (R' : hregs) (M' : hmem) : Prop :=
  match f with
  | Next => at_point l st' E' R' M'
  | Jump _ => at_jump E' R' M'
  | Stop => globals_home E' R' M'
  | Wrong => True
  end.

(** A local temporary without a slot is not touched. *)
Lemma bare_kept op l l' D' st st' E R M m R' M' m' f N E' t :
  tables s T global_reg G op l D' st st' -> extends st' stF -> wf_args s op = true ->
  at_point l' st E R M -> exec op E m E' m' f -> dyn N E' M st' R' M' ->
  in_temps t = true -> needed l t = true \/ ends_bb op = true -> needed l' t = true ->
  bare (s_temps st' t) -> mem_allocated (s_temps stF t) = true -> holds E' t (M' (slot (s_temps stF t))).
Proof.
  intros Htab He Hwa [_ Hpb] Hx Hd Ht Hn Hn' Hb HaF.
  destruct (k_bare _ _ _ _ _ _ _ _ _ Htab t Ht Hn Hb) as [Hb0 Hout].
  pose proof (s_wf _ _ _ _ _ _ _ (k_stat _ _ _ _ _ _ _ _ _ Htab)) as Hw'.
  assert (Hf : fixed t = false).
  { apply not_true_is_false. intros Hf. destruct (w_fixed _ _ _ _ _ Hw' t Hf), Hb. congruence. }
  assert (Hg : is_global s t = false).
  { apply not_true_is_false. intros Hg. destruct (w_global _ _ _ _ _ Hw' t Hg Hf), Hb. congruence. }
  assert (E' t = None \/ E' t = E t) as HE.
  { rewrite (exec_unwritten s ext op E m E' m' f t Hwa Hx).
    - unfold left_alone, bb_end. destruct (ends_bb op), (survives s t); auto.
    - intros [|[_ Hlt]]; [done|]. unfold is_global in Hg. lia. }
  assert (M' (slot (s_temps stF t)) = M (slot (s_temps stF t))) as ->.
  { apply (d_frame _ _ _ _ _ _ _ _ _ Hd); [by apply (slot_not_stack s T global_reg G)|].
    intros t' Ht' Hf' Ha' Heq. destruct (He t' Ha') as [HaF' Hs']. destruct Hb as [_ Hna].
    assert (t' = t) as -> by (apply (slot_inj s T global_reg G HT stF); try done; congruence). congruence. }
  destruct HE as [HE|HE]; [by left|]. unfold TcgHost.holds. rewrite HE. by apply Hpb.
Qed.

Lemma compiled_runs op l l2 l' da sa D D' st st' :
  ready op l l2 l' da sa D st -> compiled s T global_reg G ext op l l' D' st st' -> extends st' stF ->
  exists c, out_code st' = out_code st ++ c /\ Forall (fun i => is_label i = false) c /\
    forall E R M m R' M' m' f, at_point l' st E R M -> hexecs c R M m R' M' m' f ->
      exists E', exec op E m E' m' f /\ after_step l f E' st' R' M'.
Proof.
  intros Hrd [Htab (c & Hc & Hnl & Hrun)] He. exists c. split; [done|]. split; [done|].
  intros E R M m R' M' m' f Hp Hx. destruct (Hrun E R M m R' M' m' f) as (E' & Hex & Ha); [apply Hp|done|].
  exists E'. split; [done|]. pose proof (r_args _ _ _ _ _ _ _ _ _ _ _ _ Hrd) as Hwa.
  pose proof (r_bet _ _ _ _ _ _ _ _ _ _ _ _ Hrd) as Hbt. unfold between in Hbt.
  assert (Hlast : forall t, ends_bb op = true -> lasting t = true -> needed l' t = true).
  { intros t Hb Hl. eapply needed_before; [apply Hrd|]. rewrite Hb in Hbt. apply needed_stat. right.
    by destruct (Hbt t) as [_ ->]. }
  destruct f as [|lb| |]; cbn [after_ok after_step] in *; [| |done..].
  - constructor.
    + destruct Ha as [H1 H2 H3]. by constructor.
    + intros t Ht Hn Hb HaF. eapply bare_kept; try done; [by left|].
      destruct (k_bare _ _ _ _ _ _ _ _ _ Htab t Ht (or_introl Hn) Hb) as [_ Hno].
      destruct (ends_bb op) eqn:Hbb; [|eapply needed_before; [apply Hrd|]; by eapply sets_other].
      apply Hlast; [done|]. destruct Hb as [Hv _]. destruct (fixed t) eqn:Hf.
      * destruct (w_fixed _ _ _ _ _ (s_wf _ _ _ _ _ _ _ (k_stat _ _ _ _ _ _ _ _ _ Htab)) t Hf). congruence.
      * rewrite (k_end _ _ _ _ _ _ _ _ _ Htab) in Hv by done. unfold canonical in Hv. unfold TcgAllocRun.lasting.
        by destruct (_ || _).
  - destruct (exec_jump s ext _ _ _ _ _ _ Hex) as [Hbb _].
    eapply (leave E' R' M' M st'); try done.
    + apply (s_wf _ _ _ _ _ _ _ (k_stat _ _ _ _ _ _ _ _ _ Htab)).
    + intros t. by apply (k_end _ _ _ _ _ _ _ _ _ Htab).
    + intros t Ht Hl Hb HaF. eapply bare_kept; try done; [by right|]. by apply Hlast.
Qed.
End Points.

(** ** Blocks *)

(** The allocator went over [op] and emitted [c]. *)
Record step_ok (op : TCGOp) (l l' : la) (st st1 : astate) (c : list hinsn) : Prop := {
  so_wf : wf_st st1;
  so_slots : extends st st1;
  so_code : out_code st1 = out_code st ++ c;
  so_label : if bool_decide (opc op = INDEX_op_set_label)
             then out_of_regs st1 /\ exists lb, args op = [lb] /\ c = [tcg_out_label lb]
             else Forall (fun i => is_label i = false) c;
  so_run : forall stF, wf_st stF -> extends st1 stF ->
    forall E R M m R' M' m' f, at_point stF l' st E R M -> hexecs c R M m R' M' m' f ->
      exists E', exec op E m E' m' f /\ after_step stF l f E' st1 R' M';
}.

(** The code of a block, from the tables [st] to [st']. *)
Inductive built : list TCGOp -> la -> astate -> list hinsn -> astate -> Prop :=
| built_end l st :
  (forall g, is_global s g = true -> needed l g = true /\ (fixed g = false -> in_mem (s_temps st g))) ->
  built [] l st [] st
| built_op op k l l' st st1 c1 c st' :
  step_ok op l l' st st1 c1 -> built k l st1 c st' -> built (op :: k) l' st (c1 ++ c) st'.

Lemma built_tables k l st c st' :
  built k l st c st' -> wf_st st -> wf_st st' /\ extends st st' /\ out_code st' = out_code st ++ c.
Proof.
  induction 1 as [l st|op k l l' st st1 c1 c st' [H1 H2 H3 _ _] _ IH]; intros Hw.
  - by rewrite app_nil_r.
  - destruct (IH H1) as (? & ? & ->). split_and!; [done|by etrans|]. by rewrite H3, app_assoc.
Qed.

(** ** Labels *)

Lemma hfind_app lb c c' :
  Forall (fun i => is_label i = false) c -> hfind lb (c ++ c') = hfind lb c'.
Proof. induction 1 as [|i c Hi _ IH]; [done|]. cbn. by destruct i. Qed.

Lemma built_find lb P l st H stF :
  built P l st H stF -> wf_st st ->
  match find_label lb P with
  | None => hfind lb H = None
  | Some k => exists c l1 st1, hfind lb H = Some c /\ built k l1 st1 c stF /\ wf_st st1 /\ out_of_regs st1
  end.
Proof.
  induction 1 as [l st|op k l l' st st1 c1 c stF [H1 H2 H3 H4 _] Hb IH]; intros Hw; [done|].
  specialize (IH H1). cbn [find_label]. case_bool_decide as Hop; cbn [andb].
  - destruct H4 as (Ho & l0 & Ha & ->). rewrite Ha. cbn [app hfind].
    destruct (Z.eqb_spec l0 lb) as [->|Hne].
    + rewrite bool_decide_eq_true_2 by done. by exists c, l, st1.
    + rewrite bool_decide_eq_false_2 by congruence. done.
  - by rewrite hfind_app.
Qed.

(** ** Runs *)

(** How a run goes on after a piece of code that ended with [f]. *)
Definition goes_on_from (H : list hinsn) (n : nat) (c : list hinsn) (f : flow) (R : hregs) (M : hmem) (m : World)
    (e : ending) (R' : hregs) (M' : hmem) (m' : World) : Prop :=
  match f with
  | Next => hrun s T global_reg G ext H n c R M m e R' M' m'
  | Stop => e = Left_block /\ R' = R /\ M' = M /\ m' = m
  | Wrong => e = Crashed /\ R' = R /\ M' = M /\ m' = m
  | Jump lb =>
    (e = AtLabel lb /\ R' = R /\ M' = M /\ m' = m /\ (n = 0%nat \/ hfind lb H = None)) \/
    (exists n' c', n = S n' /\ hfind lb H = Some c' /\ hrun s T global_reg G ext H n' c' R M m e R' M' m')
  end.

Lemma hrun_app H n c1 c R M m e R' M' m' :
  hrun s T global_reg G ext H n (c1 ++ c) R M m e R' M' m' ->
  exists R1 M1 m1 f, hexecs c1 R M m R1 M1 m1 f /\ goes_on_from H n c f R1 M1 m1 e R' M' m'.
Proof.
  revert R M m. induction c1 as [|i c1 IH]; intros R M m Hr.
  { exists R, M, m, Next. split; [constructor|done]. }
  inversion Hr as [|? ? ? ? ? ? R1 M1 m1 ? ? ? ? Hx Hr1|? ? ? ? ? ? ? ? ? Hx|? ? ? ? ? ? ? ? ? Hx
    |? ? ? ? ? ? ? ? lb Hx|? ? ? ? ? ? ? ? ? lb Hx Hf|? ? ? ? ? ? R1 M1 m1 lb c' ? ? ? ? Hx Hf Hr1]; subst.
  - destruct (IH _ _ _ Hr1) as (R2 & M2 & m2 & f & Hxs & Hg). exists R2, M2, m2, f. split; [|done].
    by eapply hexecs_next.
  - exists R', M', m', Stop. split; [by apply hexecs_exit|done].
  - exists R', M', m', Wrong. split; [by apply hexecs_exit|done].
  - exists R', M', m', (Jump lb). split; [by apply hexecs_exit|]. left. split_and!; auto.
  - exists R', M', m', (Jump lb). split; [by apply hexecs_exit|]. left. split_and!; auto.
  - exists R1, M1, m1, (Jump lb). split; [by apply hexecs_exit|]. right. eauto.
Qed.

Section Simulation.
Context (P : list TCGOp) (l0 : la) (st0 : astate) (H : list hinsn) (stF : astate).
Context (HB : built P l0 st0 H stF) (Hw0 : wf_st st0).

Lemma built_sim n : forall k l st c st' E R M m e R' M' m',
  built k l st c st' -> st' = stF -> wf_st st -> at_point stF l st E R M ->
  hrun s T global_reg G ext H n c R M m e R' M' m' ->
  exists E', run s ext P n k E m e E' m' /\ (e <> Crashed -> globals_home E' R' M').
Proof.
  destruct (built_tables P l0 st0 H stF HB Hw0) as (HwF & _ & _).
  induction n as [n IHn] using lt_wf_ind. intros k l st c st' E R M m e R' M' m' Hb.
  revert E R M m. induction Hb as [l st Hg|op k l l' st st1 c1 c st' Hso Hb IH]; intros E R M m HF Hw Hp Hr; rewrite HF in *.
  - inversion Hr; subst. exists E. split; [constructor|]. intros _ g Hgg. destruct (Hg g Hgg) as [Hn Hm].
    by eapply (at_home s T global_reg G Hctx); [exact Hw|apply Hp|..].
  - apply hrun_app in Hr as (R1 & M1 & m1 & f & Hx & Hgo). pose proof (so_wf _ _ _ _ _ _ Hso) as Hw1.
    destruct (built_tables _ _ _ _ _ Hb Hw1) as (_ & He1 & _).
    destruct (so_run _ _ _ _ _ _ Hso stF HwF He1 _ _ _ _ _ _ _ _ Hp Hx) as (E1 & Hex & Ha).
    destruct f as [|lb| |]; cbn [goes_on_from after_step] in *.
    + destruct (IH E1 R1 M1 m1 eq_refl Hw1 Ha Hgo) as (E' & Hrun & Hh). exists E'. split; [|done]. by eapply run_next.
    + pose proof (built_find lb P l0 st0 H stF HB Hw0) as Hfind.
      destruct Hgo as [(-> & -> & -> & -> & Hor)|(n' & c' & -> & Hf & Hr)].
      * exists E1. split; [|intros _; by apply (jump_home stF)]. destruct n as [|n]; [by apply run_cut|].
        apply run_lost; [done|]. destruct Hor as [|Hno]; [done|].
        destruct (find_label lb P) as [k'|]; [|done]. destruct Hfind as (c' & _ & _ & Hc' & _). congruence.
      * destruct (find_label lb P) as [k'|] eqn:Hk'; [|congruence].
        destruct Hfind as (c2 & l1 & st2 & Hc2 & Hb2 & Hw2 & Ho2). assert (c2 = c') as -> by congruence.
        destruct (built_tables _ _ _ _ _ Hb2 Hw2) as (_ & He2 & _).
        destruct (IHn n' ltac:(lia) k' l1 st2 c' stF E1 R1 M1 m1 e R' M' m' Hb2 eq_refl Hw2) as (E' & Hrun & Hh); try done.
        { by apply enter. }
        exists E'. split; [|done]. by eapply run_jump.
    + destruct Hgo as (-> & -> & -> & ->). exists E1. split; [by apply run_stop|done].
    + destruct Hgo as (-> & -> & -> & ->). exists E1. split; [by apply run_wrong|done].
Qed.
End Simulation.

(** ** Operations that only change the tables *)

Lemma compiled_step op l l2 l' da sa D D' st st1 :
  ready op l l2 l' da sa D st -> opc op <> INDEX_op_set_label ->
  compiled s T global_reg G ext op l l' D' st st1 -> exists c, step_ok op l l' st st1 c.
Proof.
  intros Hrd Hnl Hk. pose proof (k_tables _ _ _ _ _ _ _ _ _ _ _ Hk) as Htab.
  destruct (k_code _ _ _ _ _ _ _ _ _ _ _ Hk) as (c & Hc & Hl & _). exists c.
  constructor; try done.
  - apply (s_wf _ _ _ _ _ _ _ (k_stat _ _ _ _ _ _ _ _ _ Htab)).
  - intros t. apply (k_slots _ _ _ _ _ _ _ _ _ Htab).
  - by rewrite bool_decide_eq_false_2.
  - intros stF HwF He. destruct (compiled_runs stF HwF op l l2 l' da sa D D' st st1 Hrd Hk He) as (c' & Hc' & _ & Hrun).
    rewrite Hc in Hc'. by apply app_inv_head in Hc' as <-.
Qed.

(** A label. *)
Lemma label_step op lb l l2 l' da sa D st :
  ready op l l2 l' da sa D st -> opc op = INDEX_op_set_label -> args op = [lb] ->
  tcg_reg_alloc_bb_end s global_reg st = true /\
  step_ok op l l' st (emit st (tcg_out_label lb)) [tcg_out_label lb] /\
  out_of_regs st /\ stat l2 D st.
Proof.
  intros Hrd Hop Ha. pose proof (r_stat _ _ _ _ _ _ _ _ _ _ _ _ Hrd) as Hst. pose proof (s_wf _ _ _ _ _ _ _ Hst) as Hw.
  pose proof (r_bet _ _ _ _ _ _ _ _ _ _ _ _ Hrd) as Hbt. unfold between, ends_bb in Hbt. rewrite Hop in Hbt. cbn in Hbt.
  pose proof (r_an _ _ _ _ _ _ _ _ _ _ _ _ Hrd) as Han.
  assert (Hin : op_inputs op = []) by (unfold op_inputs, op_iargs, op_oargs; by rewrite Hop, Ha).
  assert (Hd' : forall t, dead_temps l' t = true).
  { intros t. rewrite (an_dead _ _ _ _ _ _ Han), Hin. destruct (Hbt t) as [-> _].
    rewrite bool_decide_eq_true_2; [done|apply not_elem_of_nil]. }
  assert (Hout : out_of_regs st) by (intros t Ht Hf; by apply (s_dead _ _ _ _ _ _ _ Hst)).
  assert (Hm' : forall t, mem_temps l' t = lasting t).
  { intros t. rewrite (an_mem _ _ _ _ _ _ Han). by destruct (Hbt t) as [_ ->]. }
  split; [by apply bb_end_holds|]. split; [|split; [done|]].
  - constructor; try done.
    + by apply (wf_same s T global_reg G st).
    + by rewrite bool_decide_eq_true_2 by done; split; [|exists lb].
    + intros stF HwF He E R M m R' M' m' f [Hp1 Hp2] Hx.
      assert (Hf : f = Next /\ R' = R /\ M' = M /\ m' = m).
      { inversion Hx as [|? ? ? ? ? ? ? ? ? ? ? ? H1 H2|? ? ? ? ? ? ? ? ? H1 H2]; subst;
          inversion H1; subst; try done. by inversion H2. }
      destruct Hf as (-> & -> & -> & ->). exists (bb_end s E). split; [by eapply exec_label|]. cbn [after_step].
      apply enter; try done; [by apply (wf_same s T global_reg G st)|].
      assert (Hj : at_jump stF E R M).
      { eapply (leave stF E R M M st); try done.
        - eapply dyn_weaken; [|exact Hp1]. intros t Hl. apply needed_stat. right. by rewrite Hm'.
        - intros t Ht Hl. apply Hp2; [done|]. apply needed_stat. right. by rewrite Hm'. }
      assert (Hbb : forall t x, holds E t x -> holds (bb_end s E) t x).
      { intros t x Hh. unfold TcgHost.holds, bb_end in *. by destruct (survives s t); [|left]. }
      destruct Hj as [J1 J2]. constructor; auto.
  - eapply stat_weaken; [..|exact Hst].
    + intros t _. by rewrite (an_mem _ _ _ _ _ _ Han).
    + intros t _ _. by apply Hd'.
    + intros t _. rewrite (an_mem _ _ _ _ _ _ Han). destruct (Hbt t) as [-> _]. intros [|]; [done|by right].
Qed.

(** A hint that a value is not used any more. *)
Lemma discard_step op t l st D :
  opc op = INDEX_op_discard -> args op = [t] -> in_temps t = true -> fixed t = false ->
  stat (la_output l t) D st ->
  step_ok op l (la_output l t) st (temp_dead s global_reg st t) [].
Proof.
  intros Hop Ha Ht Hf Hst. pose proof (s_wf _ _ _ _ _ _ _ Hst) as Hw.
  assert (Het : forall i, s_temps (temp_dead s global_reg st t) i =
    if i =? t then set_val_type (canonical s t) (s_temps st t) else s_temps st i).
  { intros i. rewrite temps_dead, Hf. by rewrite andb_true_r. }
  constructor.
  - by apply (wf_dead s T global_reg G).
  - intros i Hi. rewrite Het. by destruct (Z.eqb_spec i t) as [->|].
  - by rewrite code_dead, app_nil_r.
  - by rewrite bool_decide_eq_false_2 by congruence.
  - intros stF HwF He E R M m R' M' m' f [Hp1 Hp2] Hx. inversion Hx; subst.
    exists (wr s E (ty t) t None). split; [apply exec_eval; unfold eval_op; by rewrite Hop, Ha|].
    assert (Hnone : wr s E (ty t) t None t = None) by (by rewrite wr_eq).
    assert (Hnt : forall i, needed l i = true -> i <> t -> needed (la_output l t) i = true).
    { intros i Hn Hne. rewrite needed_output, Hn. by destruct (Z.eqb_spec i t). }
    constructor.
    + eapply (dyn_env s T global_reg (needed (la_output l t))) with (E := E) (d := t).
      * intros i Hn Hne. split; [by apply Hnt|]. by rewrite wr_ne.
      * intros _. unfold loc, TcgHost.holds. rewrite Hnone. destruct (val_type _); auto.
      * apply dyn_dead; [done| |done]. intros _. rewrite needed_output, Z.eqb_refl. done.
    + intros i Hi Hn Hb HaF. destruct (decide (i = t)) as [->|Hne]; [by left|].
      unfold TcgHost.holds. rewrite wr_ne by done. apply Hp2; auto.
      rewrite Het in Hb. by destruct (Z.eqb_spec i t).
Qed.

(** The mark of a guest instruction. *)
Lemma debug_step op l st :
  opc op = INDEX_op_debug_insn_start -> wf_args s op = true -> wf_st st -> step_ok op l l st st [].
Proof.
  intros Hop Hwa Hw. constructor; try done.
  - by rewrite app_nil_r.
  - by rewrite bool_decide_eq_false_2 by congruence.
  - intros stF HwF He E R M m R' M' m' f Hp Hx. inversion Hx; subst. exists E. split; [|done].
    apply exec_eval. unfold wf_args in Hwa. unfold eval_op. rewrite Hop in *.
    by destruct (args op) as [|? []].
Qed.

(** ** What the allocator relies on *)

(** The variables written after [op], and those that may be held as
    constants. *)
Definition def_after (D : Z -> bool) (op : TCGOp) (t : Z) : bool :=
  match opc op with
  | INDEX_op_discard => D t && negb (bool_decide (t ∈ op_outputs op))
  | _ => (bool_decide (t ∈ op_outputs op) || D t) && (negb (ends_bb op) || lasting t)
  end.

Definition const_after (K : Z -> bool) (op : TCGOp) (t : Z) : bool :=
  is_movi (opc op) && bool_decide (t ∈ op_outputs op) || const_kept s op t && K t.

(** An operation the allocator can take: its operands are there, it reads
    only variables written before in the text, it does not write a fixed
    register, a helper has no more results than registers for them, and it is
    not a move of a constant. *)
Definition op_ready (D : Z -> bool) (op : TCGOp) : bool :=
  wf_op s op && wf_shape op && forallb (fun t => in_temps t && negb (fixed t)) (op_outputs op) &&
  (negb (ends_bb op) || Nat.eqb (op_oargs op) 0) &&
  (negb (bool_decide (opc op = INDEX_op_call)) ||
   Nat.leb (op_oargs op) (length (tcg_target_call_oarg_regs T))) &&
  forallb D (op_inputs op).

Definition moves_const (K : Z -> bool) (op : TCGOp) : bool :=
  match opc op, args op with INDEX_op_mov _, [_; x] => K x | _, _ => false end.

Definition op_fits (D K : Z -> bool) (op : TCGOp) : bool := op_ready D op && negb (moves_const K op).

Fixpoint block_fits (D K : Z -> bool) (ops : list TCGOp) : bool :=
  match ops with
  | [] => true
  | op :: ops => op_fits D K op && block_fits (def_after D op) (const_after K op) ops
  end.

Lemma op_ready_spec D op :
  op_ready D op = true <->
  wf_op s op = true /\ wf_shape op = true /\ (forall t, t ∈ op_outputs op -> in_temps t = true /\ fixed t = false) /\
  (ends_bb op = true -> op_oargs op = 0%nat) /\
  (opc op = INDEX_op_call -> (op_oargs op <= length (tcg_target_call_oarg_regs T))%nat) /\
  (forall t, t ∈ op_inputs op -> D t = true).
Proof.
  unfold op_ready. rewrite !andb_true_iff, !forallb_forall, !orb_true_iff, !negb_true_iff, Nat.eqb_eq, Nat.leb_le,
    bool_decide_eq_false.
  assert (Ho : (forall t, In t (op_outputs op) -> in_temps t && negb (fixed t) = true) <->
    (forall t, t ∈ op_outputs op -> in_temps t = true /\ fixed t = false)).
  { apply forall_proper. intros t. by rewrite list_elem_of_In, andb_true_iff, negb_true_iff. }
  assert (Hb : (ends_bb op = false \/ op_oargs op = 0%nat) <-> (ends_bb op = true -> op_oargs op = 0%nat)).
  { destruct (ends_bb op); naive_solver. }
  assert (Hc : forall n, (opc op <> INDEX_op_call \/ n) <-> (opc op = INDEX_op_call -> n)).
  { intros n. destruct (decide (opc op = INDEX_op_call)); naive_solver. }
  rewrite Ho, Hb, Hc. setoid_rewrite list_elem_of_In. tauto.
Qed.

Lemma op_fits_spec D K op :
  op_fits D K op = true ->
  wf_op s op = true /\ wf_shape op = true /\ (forall t, t ∈ op_outputs op -> in_temps t = true /\ fixed t = false) /\
  (ends_bb op = true -> op_oargs op = 0%nat) /\
  (opc op = INDEX_op_call -> (op_oargs op <= length (tcg_target_call_oarg_regs T))%nat) /\
  (forall t, t ∈ op_inputs op -> in_temps t = true /\ D t = true) /\
  (forall w d x, opc op = INDEX_op_mov w -> args op = [d; x] -> K x = false).
Proof.
  unfold op_fits, moves_const. rewrite andb_true_iff, op_ready_spec.
  intros [(Hwf & Hs & Ho & Hb & Hc & Hi) Hm]. split_and!; try done.
  - intros t Ht. split; [|by apply Hi].
    pose proof (wf_inputs s (fun _ => true) (fun _ => true) op Hwf) as Hin. rewrite Forall_forall in Hin. auto.
  - intros w d x Hop Ha. rewrite Hop, Ha in Hm. by apply negb_true_iff.
Qed.

(** ** The loop *)

Section Gen.
Context (lacking : Prop) (Hlack : lacking \/ enough_frame s T).
Context (HAS_muluh HAS_mulsh : width -> bool).
Context (Hmax : nb_temps s <= TCG_CALL_DUMMY_ARG).
Context (Hct : forall oc, op_present T oc = true -> ct_ok T oc).
Context (Hscratch : forall w, lacking \/ available T (tcg_target_available_regs T w) (reserved_regs T)).
Context (Hscratch2 : forall w r,
  lacking \/ available T (tcg_target_available_regs T w) (set_regset (reserved_regs T) r)).
Context (Hstack : forall n nr, (n <= 16)%nat -> lacking \/ call_stack_size T n nr <= TCG_STATIC_CALL_ARGS_SIZE).
Context (Hmet : forall oc, op_present T oc = true -> lacking \/
  met T (fun i => ct_regs (args_ct T oc i)) (skipn (nb_oargs (tcg_op_defs oc)) (sorted_args T oc)) /\
  met T (output_regs T oc) (firstn (nb_oargs (tcg_op_defs oc)) (sorted_args T oc))).

#[local] Abbreviation ok := (ok lacking).
#[local] Abbreviation live_op := (live_op s HAS_muluh HAS_mulsh).

(** The operation is one of the five the loop handles itself, a call, or the
    host has it. *)
Definition supported (op : TCGOp) : bool :=
  match opc op with
  | INDEX_op_mov _ | INDEX_op_movi _ | INDEX_op_debug_insn_start | INDEX_op_discard | INDEX_op_set_label
  | INDEX_op_call => true
  | oc => op_present T oc
  end.

(** The tables at a point of the text. *)
Record text_ok (l : la) (D K : Z -> bool) (st : astate) : Prop := {
  x_stat : stat l D st;
  x_const : forall t, in_temps t = true -> val_type (s_temps st t) = TEMP_VAL_CONST -> K t = true;
}.

Lemma check_regs_ok st : wf_st st -> check_regs s T global_reg st = true.
Proof.
  intros Hw. unfold check_regs. apply andb_true_iff. split; apply forallb_forall.
  - intros r _. destruct (w_own _ _ _ _ _ Hw r) as [->|(_ & _ & Hv & Hr & _)]; [done|].
    apply orb_true_iff. right. apply andb_true_iff. split; [by apply bool_decide_eq_true|by apply Z.eqb_eq].
  - intros k Hk%list_elem_of_In%elem_of_seqZ. apply negb_true_iff, andb_false_iff.
    destruct (bool_decide (val_type (s_temps st k) = TEMP_VAL_REG)) eqn:Hv; [|by left]. apply bool_decide_eq_true in Hv.
    destruct (fixed k) eqn:Hf; [by left|right]. apply negb_false_iff, Z.eqb_eq.
    apply (w_reg _ _ _ _ _ Hw); try done. unfold TcgOpt.in_temps. lia.
Qed.

Lemma def_after_spec D op t :
  def_after D op t = true -> (t ∈ op_outputs op \/ D t = true) /\ (ends_bb op = true -> lasting t = true).
Proof.
  unfold def_after, ends_bb.
  assert (Hgen : (bool_decide (t ∈ op_outputs op) || D t) && (negb (OPF_BB_END (tcg_op_defs (opc op))) || lasting t) = true ->
    (t ∈ op_outputs op \/ D t = true) /\ (OPF_BB_END (tcg_op_defs (opc op)) = true -> lasting t = true)).
  { intros [H1 H2]%andb_true_iff. split.
    - by apply orb_true_iff in H1 as [?%bool_decide_eq_true|]; [left|right].
    - intros Hb. by rewrite Hb in H2. }
  destruct (opc op) eqn:Hop; try done. intros [HD _]%andb_true_iff. split; [by right|done].
Qed.

(** The sets stay within globals and local temporaries. *)
Lemma la_ok_between op l l2 l' da sa :
  la_ok s l -> between s op l l2 -> annotated op l l2 l' da sa -> la_ok s l'.
Proof.
  intros Hl Hb Ha t. rewrite (an_mem _ _ _ _ _ _ Ha). unfold between in Hb.
  destruct (ends_bb op); destruct (Hb t) as [_ ->]; [done|].
  rewrite orb_true_iff, !andb_true_iff. intros [[_ ->]|[_ Hm]]; [done|by apply Hl].
Qed.

Section Kept.
Context (op op' : TCGOp) (l l2 l' : la) (da sa : Z) (D K : Z -> bool) (st : astate).
Context (Hfit : op_fits D K op = true) (Hla : la_ok s l) (Hka : kept_as s l op op').
Context (Hbt : between s op' l l2) (Han : annotated op' l l2 l' da sa).
Context (Htx : text_ok l' D K st).

Lemma kept_ready : ready op' l l2 l' da sa D st.
Proof.
  destruct (op_fits_spec D K op Hfit) as (Hwf & Hs & Ho & Hb & Hc & Hi & Hm). constructor; try done.
  - apply Hka.
  - apply Hka.
  - by eapply la_ok_between.
  - apply Htx.
  - intros t Ht. by apply Hi, (ka_ins _ _ _ _ Hka).
  - apply Forall_forall. intros t Ht. by apply Ho, (ka_outs _ _ _ _ Hka).
  - intros Hbb. rewrite (ka_bb _ _ _ _ Hka) in Hbb. specialize (Hb Hbb).
    destruct (wf_shape_spec op' (ka_shape _ _ _ _ Hka)) as (<- & _).
    destruct (op_outputs op') as [|t ts] eqn:Ho'; [done|]. exfalso.
    assert (Hin : t ∈ op_outputs op) by (apply (ka_outs _ _ _ _ Hka); rewrite Ho'; by left).
    unfold op_outputs in Hin. rewrite Hb in Hin. by apply not_elem_of_nil in Hin.
Qed.

(** What has been written, for the operation as it is left. *)
Definition kept_def (t : Z) : bool :=
  (bool_decide (t ∈ op_outputs op') || D t) && (negb (ends_bb op') || lasting t).

Lemma kept_written : written_after s op' D kept_def.
Proof.
  intros t [H1 H2]%andb_true_iff. split.
  - by apply orb_true_iff in H1 as [?%bool_decide_eq_true|]; [left|right].
  - intros Hb. by rewrite Hb in H2.
Qed.

Lemma unused_dead t : unused l t = true -> dead_temps l t = true /\ needed l t = false.
Proof. intros Hu. rewrite unused_needed in Hu. unfold needed in *. by destruct (dead_temps l t), (mem_temps l t). Qed.

Lemma kept_text st1 :
  tables s T global_reg G op' l kept_def st st1 -> text_ok l (def_after D op) (const_after K op) st1.
Proof.
  intros Htab. pose proof (k_stat _ _ _ _ _ _ _ _ _ Htab) as Hst. constructor.
  - destruct Hst as [H1 H2 H3 H4]. constructor; try done. intros t Ht HD Hn.
    apply H4; try done. apply def_after_spec in HD as [HD Hl]. unfold kept_def. apply andb_true_iff. split.
    + apply orb_true_iff. destruct HD as [Ho|]; [|by right].
      destruct (decide (t ∈ op_outputs op')) as [|Hno]; [left; by apply bool_decide_eq_true|].
      exfalso. apply needed_stat in Hn.
      destruct (unused_dead t (ka_unused _ _ _ _ Hka t Ho Hno)). congruence.
    + rewrite (ka_bb _ _ _ _ Hka). destruct (ends_bb op); [|done]. rewrite Hl by done. apply orb_true_r.
  - intros t Ht Hv. unfold const_after. apply orb_true_iff.
    destruct (k_const _ _ _ _ _ _ _ _ _ Htab t Ht Hv) as [[Hk Hv0]|[Hmv Ho]].
    + right. rewrite (x_const _ _ _ _ Htx t Ht Hv0), andb_true_r. unfold const_kept in *.
      rewrite !andb_true_iff in Hk. destruct Hk as [[Hk1 Hk2%bool_decide_eq_true] Hk3].
      rewrite (ka_bb _ _ _ _ Hka) in Hk1. rewrite Hk1. cbn [andb]. apply andb_true_iff. split.
      * apply bool_decide_eq_true. intros Ho. destruct (unused_dead t (ka_unused _ _ _ _ Hka t Ho Hk2)) as [Hd _].
        rewrite (const_not_dead s T global_reg G l _ st1 t Hst Ht Hv) in Hd. done.
      * destruct (ka_kind _ _ _ _ Hka) as [<-|[Hnc _]]; [done|].
        unfold writes_globals. by rewrite bool_decide_eq_false_2.
    + left. destruct (ka_kind _ _ _ _ Hka) as [<-|(_ & b & w & Hop)]; [|by rewrite Hop in Hmv].
      rewrite Hmv. by apply bool_decide_eq_true.
Qed.
End Kept.

(** The tables after a label. *)
Lemma label_tables op lb l l2 l' da sa D D' st :
  ready op l l2 l' da sa D st -> opc op = INDEX_op_set_label -> written_after s op D D' ->
  stat l2 D st -> tables s T global_reg G op l D' st (emit st (tcg_out_label lb)).
Proof.
  intros Hrd Hop HD Hst2. assert (Hb : ends_bb op = true) by (unfold ends_bb; by rewrite Hop).
  assert (stat l D' st /\ out_of_regs st) as [[H1 H2 H3 H4] Hcan] by (by eapply (stat_bb_end s T global_reg G)).
  assert (Hw : wf_st (emit st (tcg_out_label lb))) by (by apply (wf_same s T global_reg G st)).
  constructor; try done.
  - intros t Ht _ Hbare. split; [done|]. unfold op_outputs, op_oargs. rewrite Hop. cbn. apply not_elem_of_nil.
  - intros t Ht Hv. exfalso. destruct (fixed t) eqn:Hf.
    + destruct (w_fixed _ _ _ _ _ Hw t Hf). congruence.
    + cbn in Hv. rewrite (Hcan t Ht Hf) in Hv. unfold canonical in Hv. by destruct (_ || _).
Qed.

(** An operation with its annotations. *)
Lemma gen_kept op op' l l' da sa D K st :
  op_fits D K op = true -> la_ok s l -> live_op l op = (l', Some (op', Some (da, sa))) -> text_ok l' D K st ->
  lacking \/ supported op' = true ->
  ok (gen_op s T global_reg st (op', Some (da, sa))) (fun st1 =>
    (exists c, step_ok op' l l' st st1 c) /\ text_ok l (def_after D op) (const_after K op) st1).
Proof.
  intros Hfit Hla Hlive Htx Hsup. destruct (op_fits_spec D K op Hfit) as (Hwf & Hs & _ & _ & Hoc & _ & Hmv).
  pose proof (live_op_annotates s HAS_muluh HAS_mulsh l op Hmax Hwf Hs) as Hann. rewrite Hlive in Hann.
  destruct Hann as (Hka & l2 & Hbt & Han).
  pose proof (kept_ready op op' l l2 l' da sa D K st Hfit Hla Hka Hbt Han Htx) as Hrd.
  pose proof (kept_written op' D) as HD'.
  assert (Hdone : forall m, opc op' <> INDEX_op_set_label ->
    ok m (compiled s T global_reg G ext op' l l' (kept_def op' D) st) ->
    ok m (fun st1 => (exists c, step_ok op' l l' st st1 c) /\ text_ok l (def_after D op) (const_after K op) st1)).
  { intros m Hnl Hk. eapply ok_mono; [exact Hk|]. intros st1 Hst1. split.
    - by eapply compiled_step.
    - eapply kept_text; try done. by eapply k_tables. }
  assert (Hgen : opc op' <> INDEX_op_call -> opc op' <> INDEX_op_set_label ->
    lacking \/ op_present T (opc op') = true ->
    ok (if op_present T (opc op') then tcg_reg_alloc_op s T global_reg st op' da sa else Fault tcg_abort)
      (fun st1 => (exists c, step_ok op' l l' st st1 c) /\ text_ok l (def_after D op) (const_after K op) st1)).
  { intros Hc Hnl Hp. destruct (op_present T (opc op')) eqn:Hpr.
    - apply Hdone; [done|]. eapply (op_compiled s T global_reg G Hctx HT lacking Hlack ext); try done; [by apply Hct|by apply Hmet].
    - cbn. split; [done|]. by destruct Hp. }
  pose proof (ka_args _ _ _ _ Hka) as Hwa. pose proof (ka_opc _ _ _ _ Hka) as [Hnd Hng].
  unfold gen_op, supported, wf_args in *. cbn [fst snd default] in *.
  destruct (opc op') as [| | |w|w|w|w|w|w| |b w|u w|w|w|w|w|w|w| | | |w| | |name def] eqn:Hop; try (by apply Hgen); try done.
  - destruct (args op') as [|lb []] eqn:Ha; try done.
    destruct (label_step op' lb l l2 l' da sa D st Hrd Hop Ha) as (Hend & Hstep & Hout & Hst2).
    apply ok_assert; [done|]. unfold arg. rewrite Ha. cbn [nth TcgAllocInv.ok]. split; [by eexists|].
    eapply kept_text; try done. by eapply label_tables.
  - apply Hdone; [done|]. assert (op' = op) as Heq by (destruct (ka_kind _ _ _ _ Hka) as [|(_ & b & w & ?)]; congruence).
    eapply (call_compiled s T global_reg G Hctx HT lacking Hlack ext); try done.
    + intros nr. apply Hstack. destruct (wf_shape_spec op' (ka_shape _ _ _ _ Hka)) as (_ & _ & _ & ? & _). lia.
    + rewrite Heq in *. by apply Hoc.
  - destruct (args op') as [|d [|x []]] eqn:Ha; try done. unfold arg. rewrite Ha. cbn [nth]. apply Hdone; [done|].
    assert (op' = op) as Heq by (destruct (ka_kind _ _ _ _ Hka) as [|(_ & b & w' & ?)]; congruence).
    eapply (mov_compiled s T global_reg G Hctx HT lacking Hlack Hscratch Hscratch2 ext); try done.
    + eapply moves_used; [exact Hlive|by left|]. unfold op_outputs, op_oargs. by rewrite Hop, Ha.
    + intros Hv. assert (Hx : in_temps x = true).
      { apply andb_true_iff in Hwa as [_ Hx]. unfold in_ok in Hx. by apply andb_true_iff in Hx as [? _]. }
      apply (x_const _ _ _ _ Htx) in Hv; [|done]. rewrite Heq in *. by rewrite (Hmv w d x Hop Ha) in Hv.
  - destruct (args op') as [|d [|x []]] eqn:Ha; try done. unfold arg. rewrite Ha. cbn [nth]. apply Hdone; [done|].
    eapply (movi_compiled s T global_reg G Hctx HT lacking Hlack Hscratch Hscratch2 ext); try done.
    eapply moves_used; [exact Hlive|by right|]. unfold op_outputs, op_oargs. by rewrite Hop, Ha.
Qed.

(** An operation that is removed ends no basic block and writes no global. *)
Lemma removed_quiet op l l' :
  live_op l op = (l', None) -> (ends_bb op = true -> op_oargs op = 0%nat) ->
  ends_bb op = false /\ writes_globals op = false.
Proof.
  intros Hl Hb.
  assert (Hdef : opc op <> INDEX_op_call -> live_default s l op = (l', None) ->
    ends_bb op = false /\ writes_globals op = false).
  { intros Hc. unfold live_default. destruct (_ && forallb _ _) eqn:Hr.
    - intros _. rewrite !andb_true_iff in Hr. destruct Hr as [[_ Hn%negb_true_iff%Nat.eqb_neq] _].
      destruct (op_args_def op Hc) as [Hno _]. split.
      + apply not_true_is_false. intros H. apply Hb in H. congruence.
      + apply not_true_is_false. intros H. by apply writes_call in H.
    - unfold do_not_remove. destruct (la_outputs _ _ _ _ _) as [[l1 d1] y1]. by destruct (la_inputs _ _ _ _ _). }
  assert (Hpl : opc op <> INDEX_op_call -> ends_bb op = false -> ends_bb op = false /\ writes_globals op = false).
  { intros Hc He. split; [done|]. apply not_true_is_false. intros H. by apply writes_call in H. }
  unfold TcgLive.live_op in Hl.
  destruct (opc op) as [| | |w|w|w|w|w|w| |b w|u w|w|w|w|w|w|w| | | |w| | |name def] eqn:Hop;
    try (by apply Hdef); try (by apply Hpl; [|unfold ends_bb; rewrite Hop]).
  unfold live_call in Hl. destruct (_ && forallb _ _) eqn:Hr.
  - apply andb_true_iff in Hr as [Hr _]. split; [unfold ends_bb; by rewrite Hop|].
    destruct (call_parts op Hop) as (_ & _ & Hf). unfold writes_globals. rewrite Hf, Hr. apply andb_false_r.
  - destruct (la_outputs _ _ _ _ _) as [[l1 d1] y1]. by destruct (la_inputs _ _ _ _ _).
Qed.

Lemma text_removed op l l' D K st :
  op_fits D K op = true -> live_op l op = (l', None) -> text_ok l' D K st ->
  l' = l /\ text_ok l (def_after D op) (const_after K op) st.
Proof.
  intros Hfit Hlive Htx. destruct (op_fits_spec D K op Hfit) as (Hwf & Hs & _ & Hb & _).
  pose proof (live_op_annotates s HAS_muluh HAS_mulsh l op Hmax Hwf Hs) as Hann. rewrite Hlive in Hann.
  destruct Hann as [-> Hun]. split; [done|]. destruct (removed_quiet op l l Hlive Hb) as [Hbb Hwg].
  pose proof (x_stat _ _ _ _ Htx) as Hst. constructor.
  - destruct Hst as [H1 H2 H3 H4]. constructor; try done. intros t Ht HD Hn.
    apply H4; try done. apply def_after_spec in HD as [[Ho|] _]; [|done]. exfalso. apply needed_stat in Hn.
    destruct (unused_dead l t (Hun t Ho)). congruence.
  - intros t Ht Hv. unfold const_after. rewrite (x_const _ _ _ _ Htx t Ht Hv), andb_true_r. apply orb_true_iff. right.
    unfold const_kept. rewrite Hbb, Hwg. cbn. rewrite andb_true_r. apply bool_decide_eq_true. intros Ho.
    destruct (unused_dead l t (Hun t Ho)) as [Hd _].
    rewrite (const_not_dead s T global_reg G l D st t Hst Ht Hv) in Hd. done.
Qed.

(** An operation without annotations. *)
Lemma gen_plain op op' l l' D K st :
  op_fits D K op = true -> la_ok s l -> live_op l op = (l', Some (op', None)) -> text_ok l' D K st ->
  ok (gen_op s T global_reg st (op', None)) (fun st1 =>
    (exists c, step_ok op' l l' st st1 c) /\ text_ok l (def_after D op) (const_after K op) st1).
Proof.
  intros Hfit Hla Hlive [Hst Hcs]. destruct (op_fits_spec D K op Hfit) as (Hwf & Hs & Ho & _).
  pose proof (live_op_annotates s HAS_muluh HAS_mulsh l op Hmax Hwf Hs) as Hann. rewrite Hlive in Hann.
  pose proof Hwf as [_ Hwa]%andb_true_iff.
  destruct Hann as [-> [(t & Hop & Ha & ->)|[Hop ->]]]; unfold gen_op; cbn [fst snd default]; rewrite Hop.
  - assert (Hout : op_outputs op = [t]) by (unfold op_outputs, op_oargs; by rewrite Hop, Ha).
    destruct (Ho t) as [Ht Hf]; [rewrite Hout; by left|]. unfold arg. rewrite Ha. cbn [nth TcgAllocInv.ok].
    assert (Het : forall i, s_temps (temp_dead s global_reg st t) i =
      if i =? t then set_val_type (canonical s t) (s_temps st t) else s_temps st i).
    { intros i. rewrite temps_dead, Hf. by rewrite andb_true_r. }
    assert (Hset : forall f i b, i <> t -> set1 f t b i = f i) by (intros f i b Hne; unfold set1; by destruct (Z.eqb_spec i t)).
    split.
    + exists []. by eapply discard_step.
    + destruct Hst as [H1 H2 H3 H4]. cbn [dead_temps mem_temps la_output] in *. constructor; [constructor|].
      * by apply (wf_dead s T global_reg G).
      * intros i Hi Hfi Hm. rewrite Het. destruct (Z.eqb_spec i t) as [->|Hne].
        -- left. cbn. unfold canonical. by rewrite (Hla t Hm).
        -- apply H2; try done. by rewrite Hset.
      * intros i Hi Hfi Hd. rewrite Het. destruct (Z.eqb_spec i t) as [->|Hne]; [done|].
        apply H3; try done. by rewrite Hset.
      * intros i Hi HD Hn. unfold def_after in HD. rewrite Hop, Hout in HD. apply andb_true_iff in HD as [HD Hni].
        apply negb_true_iff, bool_decide_eq_false in Hni. assert (i <> t) as Hne by (intros ->; apply Hni; by left).
        rewrite Het. destruct (Z.eqb_spec i t); [done|]. apply H4; try done. by rewrite !Hset.
      * intros i Hi Hv. rewrite Het in Hv. destruct (Z.eqb_spec i t) as [->|Hne].
        -- unfold canonical in Hv. cbn in Hv. by destruct (_ || _).
        -- unfold const_after, const_kept, ends_bb, writes_globals. rewrite Hop, Hout, (Hcs i Hi Hv). cbn.
           rewrite bool_decide_eq_true_2; [done|]. by intros ->%list_elem_of_singleton.
  - cbn [TcgAllocInv.ok].
    assert (Hout : op_outputs op = []) by (unfold op_outputs, op_oargs; by rewrite Hop).
    split; [exists []; apply debug_step; [done..|apply Hst]|]. constructor.
    + destruct Hst as [H1 H2 H3 H4]. constructor; try done. intros t Ht HD.
      apply def_after_spec in HD as [[Hi|HD] _]; [rewrite Hout in Hi; by apply not_elem_of_nil in Hi|]. by apply H4.
    + intros t Ht Hv. unfold const_after, const_kept, ends_bb, writes_globals. rewrite Hop, Hout, (Hcs t Ht Hv). cbn.
      by rewrite bool_decide_eq_true_2 by apply not_elem_of_nil.
Qed.

#[local] Abbreviation live_ops := (live_ops s HAS_muluh HAS_mulsh).

(** The sets before an operation. *)
Lemma live_op_la op l D K : op_fits D K op = true -> la_ok s l -> la_ok s (live_op l op).1.
Proof.
  intros Hfit Hla. destruct (op_fits_spec D K op Hfit) as (Hwf & Hs & _).
  pose proof (live_op_annotates s HAS_muluh HAS_mulsh l op Hmax Hwf Hs) as Hann.
  destruct (live_op l op) as [l' [[op' [[da sa]|]]|]]; cbn [fst] in *.
  - destruct Hann as (_ & l2 & Hb & Ha). by eapply la_ok_between.
  - destruct Hann as [_ [(t & _ & _ & ->)|[_ ->]]]; [|done]. intros i. cbn. unfold set1.
    destruct (Z.eqb_spec i t); [done|]. apply Hla.
  - by destruct Hann as [-> _].
Qed.

Lemma live_ops_la ops D K : block_fits D K ops = true -> la_ok s (live_ops ops).1.
Proof.
  revert D K. induction ops as [|op ops IH]; intros D K Hfit; cbn [TcgLive.live_ops].
  { intros t Hm. cbn in Hm. by rewrite Hm. }
  cbn [block_fits] in Hfit. apply andb_true_iff in Hfit as [Hop Hops]. pose proof (IH _ _ Hops) as Hla.
  destruct (live_ops ops) as [l rest]. pose proof (live_op_la op l D K Hop Hla).
  by destruct (live_op l op) as [l' r].
Qed.

Lemma gen_ops_ok ops D K st :
  block_fits D K ops = true -> Forall (fun oa => lacking \/ supported oa.1 = true) (live_ops ops).2 ->
  text_ok (live_ops ops).1 D K st ->
  ok (gen_ops s T global_reg st (live_ops ops).2) (fun stF =>
    exists c, built (fst <$> (live_ops ops).2) (live_ops ops).1 st c stF).
Proof.
  revert D K st. induction ops as [|op ops IH]; intros D K st Hfit; cbn [TcgLive.live_ops].
  { intros _ [Hst _]. exists []. apply built_end. intros g Hg. split; [unfold needed; cbn; by rewrite Hg|].
    intros Hf. apply (s_mem _ _ _ _ _ _ _ Hst); try done. by apply global_in. }
  cbn [block_fits] in Hfit. apply andb_true_iff in Hfit as [Hop Hops]. pose proof (live_ops_la ops _ _ Hops) as Hla.
  pose proof (fun st => IH _ _ st Hops) as Hgen. clear IH. destruct (live_ops ops) as [l rest]. cbn [fst snd] in *.
  destruct (live_op l op) as [l' [[op' a]|]] eqn:Hlive; cbn [fst snd option_list app fmap list_fmap].
  2:{ intros Hsup Htx. destruct (text_removed op l l' D K st Hop Hlive Htx) as [-> Htx']. by apply Hgen. }
  intros [Hs1 Hsup]%Forall_cons_1 Htx. cbn [gen_ops fst snd] in *. eapply ok_bind'.
  - destruct a as [[da sa]|]; [by apply (gen_kept op op' l l' da sa D K)|by apply (gen_plain op op' l l' D K)].
  - intros st1 [[c1 Hstep] Htx1]. rewrite (check_regs_ok st1 (so_wf _ _ _ _ _ _ Hstep)).
    eapply ok_mono; [by apply Hgen|]. intros stF [c Hb]. exists (c1 ++ c). by eapply built_op.
Qed.
End Gen.
End Block.
