(* ===== verification/TcgText.v ===== *)
(** * Optimised text

    What the register allocator relies on of the text of a block, variables
    written before they are used and no moves of constants, holds of the
    block the optimiser makes of one whose variables are written before they
    are used: a copy that takes the place of a variable has been written, and
    a move of a constant becomes a [movi]. *)

From S2P Require Import Prelude HostUtils BitField TcgOp TcgOpt TcgSem TcgMono TcgLive TcgAlloc TcgHost.
From S2P Require Import TcgInv TcgGood TcgCorrect TcgFrame TcgLiveness TcgAllocInv TcgAllocMove TcgAllocLive.
From S2P Require Import TcgAllocOp TcgAllocExec TcgAllocRun TcgGenCode.

Section Text.
Context (s : TCGContext) (T : TCGTarget) (global_reg : Z -> bool) (HAS_neg HAS_not : width -> bool).
Context (Hctx : wf_ctx s = true).

#[local] Abbreviation in_temps := (in_temps s).
#[local] Abbreviation op_ready := (op_ready s T global_reg).
#[local] Abbreviation op_fits := (op_fits s T global_reg).
#[local] Abbreviation block_fits := (block_fits s T global_reg).
#[local] Abbreviation def_after := (def_after s).
#[local] Abbreviation const_after := (const_after s).

(** ** What the optimiser knows of the text *)

(** What the optimiser takes for a copy has been written, and what may be
    held as a constant it knows to be one. *)
Definition textual (temps : temps_t) (D K : Z -> bool) : Prop :=
  forall t, in_temps t = true ->
    (K t = true -> is_const temps t = true) /\ (is_copy temps t = true -> D t = true).

(** Nothing new is known, and nothing of the variables in [gone]. *)
Definition forgets (temps temps' : temps_t) (gone : Z -> Prop) : Prop :=
  forall t, in_temps t = true ->
    (is_const temps t = true -> ~ gone t -> is_const temps' t = true) /\
    (is_copy temps' t = true -> is_copy temps t = true /\ ~ gone t).

Lemma reset_forgets temps d :
  rings s temps -> in_temps d = true ->
  rings s (reset_temp temps d) /\ forgets temps (reset_temp temps d) (fun t => t = d).
Proof using Type.
  intros Hr Hd. destruct (reset_temp_self temps d) as [Hs _]. split.
  - intros t Ht Hc. assert (t <> d) as Hne by congruence.
    destruct (reset_temp_rings s temps d t Hr Hd Ht Hne) as (_ & _ & _ & H). by destruct (H Hc) as (_ & ? & _).
  - intros t Ht. unfold is_const, is_copy. rewrite !bool_decide_eq_true. split.
    + intros Hc Hne. by apply (reset_temp_rings s temps d t Hr Hd Ht Hne).
    + intros Hc. assert (t <> d) as Hne by congruence. split; [|done].
      by apply (reset_temp_rings s temps d t Hr Hd Ht Hne).
Qed.

Lemma resets_forget l temps :
  rings s temps -> Forall (fun d => in_temps d = true) l ->
  rings s (fold_left reset_temp l temps) /\ forgets temps (fold_left reset_temp l temps) (fun t => t ∈ l).
Proof using Type.
  intros Hr Hl. revert temps Hr. induction Hl as [|d l Hd _ IH]; intros temps Hr; cbn [fold_left].
  - split; [done|]. intros t Ht. split; [done|]. intros Hc. split; [done|]. apply not_elem_of_nil.
  - destruct (reset_forgets temps d Hr Hd) as [Hr1 Hf1]. destruct (IH _ Hr1) as [Hr2 Hf2]. split; [done|].
    intros t Ht. destruct (Hf1 t Ht) as [A1 A2], (Hf2 t Ht) as [B1 B2]. split.
    + intros Hc Hn. rewrite not_elem_of_cons in Hn. destruct Hn. auto.
    + intros Hc. apply B2 in Hc as [Hc Hn]. apply A2 in Hc as [Hc Hne]. split; [done|].
      by apply not_elem_of_cons.
Qed.

(** Changes to the masks do not matter. *)
Lemma forgets_mask temps temps' d m gone :
  forgets temps temps' gone -> forgets temps (upd temps' d (set_mask m)) gone.
Proof using Type.
  intros Hf t Ht. destruct (Hf t Ht) as [H1 H2].
  assert (state (upd temps' d (set_mask m) t) = state (temps' t)) as Hs.
  { unfold upd. by destruct (t =? d). }
  unfold is_const, is_copy in *. rewrite Hs. done.
Qed.
(** ** What becomes of an operation *)

(** The ways an operation is handled. *)
Inductive becomes (temps : temps_t) (op : TCGOp) : handled -> Prop :=
| becomes_kept m :
  match opc op with INDEX_op_mov _ | INDEX_op_movi _ | INDEX_op_call => false | _ => true end = true ->
  becomes temps op (do_default s temps op m)
| becomes_call m : opc op = INDEX_op_call -> becomes temps op (do_call s temps op m)
| becomes_movi oc d v : op_outputs op = [d] -> becomes temps op (gen_movi temps oc d v)
| becomes_mov oc d x h :
  op_outputs op = [d] -> x ∈ op_inputs op -> is_const temps x = false ->
  gen_mov s temps oc d x = Ret h -> becomes temps op h
| becomes_same d x :
  op_outputs op = [d] -> x ∈ op_inputs op -> temps_are_copies s temps d x = Ret true ->
  becomes temps op (tcg_op_remove temps)
| becomes_nothing : op_outputs op = [] -> becomes temps op (tcg_op_remove temps)
| becomes_un u w d x :
  op_outputs op = [d] -> x ∈ op_inputs op ->
  becomes temps op (keep (reset_temp temps d, mk_op (INDEX_op_un u w) [d; x] 0 0))
| becomes_jump op' :
  op_outputs op = [] -> ends_bb op = true -> ends_bb op' = true -> op_outputs op' = [] -> callo op' = 0%nat ->
  match opc op' with INDEX_op_br | INDEX_op_brcond _ => true | _ => false end = true ->
  (forall x, x ∈ op_inputs op' -> x ∈ op_inputs op) ->
  becomes temps op (keep (reset_all_temps s temps, op'))
| becomes_movi2 oc l h v :
  op_outputs op = [l; h] -> l <> h -> becomes temps op (gen_movi2 temps oc l h v).

Lemma mov_or_remove_becomes temps op oc d x h :
  op_outputs op = [d] -> x ∈ op_inputs op -> mov_or_remove s temps oc d x = Ret h -> becomes temps op h.
Proof using Type.
  intros Ho Hx. unfold mov_or_remove.
  destruct (temps_are_copies s temps d x) as [[]| |] eqn:Hc; cbn [mbind outcome_bind]; try done.
  - intros [= <-]. by eapply becomes_same.
  - destruct (is_const temps x) eqn:Hk; cbn [negb].
    + intros [= <-]. by apply becomes_movi.
    + intros Hm. by eapply becomes_mov.
Qed.

Section Bin.
Context (temps : temps_t) (b : binop) (w : width) (d x y : Z) (co ci : nat) (h : handled).
#[local] Abbreviation op := (mk_op (INDEX_op_bin b w) [d; x; y] co ci).

Lemma bin_parts : op_outputs op = [d] /\ op_inputs op = [x; y].
Proof using Type. unfold op_outputs, op_inputs, op_oargs, op_iargs. by destruct b. Qed.

Lemma simplify_unary_becomes : simplify_unary HAS_neg HAS_not temps op = Some h -> becomes temps op h.
Proof using Type.
  destruct bin_parts as [Ho Hi].
  assert (Hx : x ∈ op_inputs op) by (rewrite Hi; by left).
  assert (Hy : y ∈ op_inputs op) by (rewrite Hi; by right; left).
  unfold simplify_unary, try_not. cbn [opc args].
  destruct b; intros Hs; repeat case_match; simplify_eq; try done;
    try (by apply becomes_movi); by eapply becomes_un.
Qed.

Lemma simplify_mov_becomes : simplify_mov s temps op = Ret (Some h) -> becomes temps op h.
Proof using Type.
  destruct bin_parts as [Ho Hi].
  assert (Hx : x ∈ op_inputs op) by (rewrite Hi; by left).
  assert (Hdo : forall c : bool, negb (is_const temps x) && c = true ->
    (same ← temps_are_copies s temps d x;
     if (same : bool) then Ret (Some (tcg_op_remove temps)) else Some <$> gen_mov s temps (opc op) d x)
      = Ret (Some h) -> becomes temps op h).
  { intros c [Hk%negb_true_iff _]%andb_true_iff.
    destruct (temps_are_copies s temps d x) as [[]| |] eqn:Hc; cbn [mbind outcome_bind]; try done.
    - intros [= <-]. by eapply becomes_same.
    - destruct (gen_mov s temps (opc op) d x) as [h0| |] eqn:Hg; try done. intros [= <-]. by eapply becomes_mov. }
  unfold simplify_mov. cbn [opc args] in *.
  destruct b; try done; case_match; try done; by eapply Hdo.
Qed.

Lemma simplify_same_becomes : simplify_same s temps op = Ret (Some h) -> becomes temps op h.
Proof using Type.
  destruct bin_parts as [Ho Hi].
  assert (Hx : x ∈ op_inputs op) by (rewrite Hi; by left).
  assert (Hm : Some <$> mov_or_remove s temps (opc op) d x = Ret (Some h) -> becomes temps op h).
  { destruct (mov_or_remove s temps (opc op) d x) as [h0| |] eqn:Hg; try done. intros [= <-].
    by eapply mov_or_remove_becomes. }
  unfold simplify_same. cbn [opc args] in *.
  destruct (temps_are_copies s temps x y) as [[]| |]; cbn [mbind outcome_bind]; destruct b; intros Hs;
    repeat case_match; simplify_eq; try done; try (by apply becomes_movi); by apply Hm.
Qed.
End Bin.

Lemma single_output op : wf_shape op = true -> op_oargs op = 1%nat -> op_outputs op = [arg op 0].
Proof using Type.
  intros (Hl & _)%wf_shape_spec Ho. unfold op_outputs, arg in *. rewrite Ho in *.
  by destruct (args op).
Qed.

(** Only one- and two-operand operations have known results in the bits the
    operand affects. *)
Lemma affected_cases temps op ma :
  known_zero temps op = Ret ma ->
  ma.2 = all_ones \/
  (exists u w d x, opc op = INDEX_op_un u w /\ args op = [d; x]) \/
  (exists b w d x y, opc op = INDEX_op_bin b w /\ args op = [d; x; y]).
Proof using Type.
  unfold known_zero, no_mask. intros Hk.
  destruct (opc op) as [| | |w|w|w|w|w|w| |b w|u w|w|w|w|w|w|w| | | |w| | |name def] eqn:Hop;
    repeat case_match; simplify_eq; try (by left); eauto 10.
  - destruct (deposit64 _ _ _ _) as [k| |]; try done. cbn in Hk. simplify_eq. by left.
  - destruct (cshr _ _ _) as [k| |]; try done. cbn in Hk. simplify_eq. by left.
Qed.

Lemma simplify_zero_becomes temps op m h :
  wf_shape op = true -> simplify_zero s temps op = Ret (m, Some h) -> becomes temps op h.
Proof using Type.
  intros Hs. unfold simplify_zero.
  destruct (known_zero temps op) as [[mk af]| |] eqn:Hk; cbn [mbind outcome_bind]; try done.
  destruct (Nat.eqb_spec (op_oargs op) 1) as [H1|_]; cbn [negb]; [|repeat case_match; done].
  pose proof (single_output op Hs H1) as Ho.
  assert (Hin : af <> all_ones -> arg op 1 ∈ op_inputs op).
  { intros Hne. apply affected_cases in Hk as [?|[(u & w & d & x & Hop & Ha)|(b & w & d & x & y & Hop & Ha)]]; [done|..].
    - unfold op_inputs, arg, op_oargs, op_iargs. rewrite Hop, Ha. cbn. by left.
    - destruct op as [oc al co ci]. cbn in Hop, Ha. subst. destruct (bin_parts b w d x y co ci) as [_ ->]. cbn. by left. }
  destruct (OPF_64BIT _); cbn [negb]; case_match; try (intros [= <- <-]; by apply becomes_movi);
    case_match eqn:Haf; try done; apply Z.eqb_eq in Haf; intros Hr.
  all: destruct (mov_or_remove _ _ _ _ _) as [r| |] eqn:Hg; try done; cbn [mbind outcome_bind] in Hr;
    injection Hr as <- <-; eapply mov_or_remove_becomes; try done; apply Hin; intros ->; done.
Qed.

(** A branch on two words that is decided, or on one of them. *)
Lemma fold_brcond2_becomes temps al ah bl bh c l co ci m h :
  let op := mk_op INDEX_op_brcond2_i32 [al; ah; bl; bh; c; l] co ci in
  fold_brcond2 s temps op m al ah bl bh c l = Ret h -> becomes temps op h.
Proof using Type.
  intros op Hf.
  assert (Hbr : becomes temps op (br_to s temps l)).
  { apply becomes_jump; try done. intros x Hx. unfold op_inputs in Hx. cbn in Hx. by apply not_elem_of_nil in Hx. }
  assert (Hno : becomes temps op (tcg_op_remove temps)) by (by apply becomes_nothing).
  assert (Hd : becomes temps op (do_default s temps op m)) by (by apply becomes_kept).
  assert (Hw : forall x y, x ∈ [al; ah; bl; bh] -> y ∈ [al; ah; bl; bh] ->
    becomes temps op (keep (reset_all_temps s temps, mk_op (INDEX_op_brcond W32) [x; y; c; l] 0 0))).
  { intros x y Hx Hy. apply becomes_jump; try done. intros z Hz. change (op_inputs op) with [al; ah; bl; bh].
    change (z ∈ [x; y]) in Hz. apply elem_of_cons in Hz as [-> | ->%list_elem_of_singleton]; done. }
  assert (Hh : becomes temps op (keep (reset_all_temps s temps, mk_op (INDEX_op_brcond W32) [ah; bh; c; l] 0 0))).
  { apply Hw; [by right; left|by do 3 right; left]. }
  assert (Hl : becomes temps op (keep (reset_all_temps s temps, mk_op (INDEX_op_brcond W32) [al; bl; c; l] 0 0))).
  { apply Hw; [by left|by do 2 right; left]. }
  unfold fold_brcond2 in Hf.
  destruct (do_constant_folding_cond2 _ _ _ _ _) as [k| |]; cbn [mbind outcome_bind] in Hf; try done.
  destruct (do_constant_folding_cond s temps (INDEX_op_brcond W32) al bl TCG_COND_EQ) as [k1| |],
    (do_constant_folding_cond s temps (INDEX_op_brcond W32) ah bh TCG_COND_EQ) as [k2| |],
    (do_constant_folding_cond s temps (INDEX_op_brcond W32) al bl TCG_COND_NE) as [k3| |],
    (do_constant_folding_cond s temps (INDEX_op_brcond W32) ah bh TCG_COND_NE) as [k4| |];
    cbn [mbind outcome_bind] in Hf; repeat case_match; simplify_eq; done.
Qed.

Lemma fold_constants_becomes temps op m h :
  wf_args s op = true -> fold_constants s temps op m = Ret h -> becomes temps op h.
Proof using Type.
  destruct op as [oc al co ci]. intros Hwa.
  assert (Hk : match oc with INDEX_op_mov _ | INDEX_op_movi _ | INDEX_op_call => false | _ => true end = true ->
    becomes temps (mk_op oc al co ci) (do_default s temps (mk_op oc al co ci) m)) by (by intros; apply becomes_kept).
  destruct (decide (oc = INDEX_op_brcond2_i32)) as [->|Hn2].
  { unfold wf_args, fold_constants in *. cbn [opc args] in *. repeat (destruct al as [|? al]; try done).
    apply fold_brcond2_becomes. }
  unfold wf_args, fold_constants in *. cbn [opc args] in *.
  destruct oc as [| | |w|w|w|w|w|w| |b w|u w|w|w|w|w|w|w| | | |w| | |name def];
    try (intros [= <-]; by (apply Hk || apply becomes_call));
    repeat (destruct al as [|? al]; try done).
  all: intros Hf; repeat match type of Hf with
    | (_ ← ?m; _) = _ => destruct m eqn:?; cbn [mbind outcome_bind] in Hf; try done
    | (if ?c then _ else _) = _ => destruct c eqn:?
    end; try (injection Hf as <-).
  all: try (by apply Hk); try (by apply becomes_movi); try (by apply becomes_nothing).
  all: try (apply becomes_movi; by destruct b).
  - eapply mov_or_remove_becomes; [done| |done]. by left.
  - eapply mov_or_remove_becomes; [done| |done]. change (op_inputs _) with [z0; z1; z2; z3].
    destruct (_ =? 1); [by do 2 right; left|by do 3 right; left].
  - apply becomes_jump; try done. intros x Hx. unfold op_inputs in Hx. cbn in Hx. by apply not_elem_of_nil in Hx.
  - apply becomes_movi2; [done|]. rewrite !andb_true_iff in Hwa.
    by destruct Hwa as [[[[[_ ?%negb_true_iff%Z.eqb_neq] _] _] _] _].
  - apply becomes_movi2; [done|]. rewrite !andb_true_iff in Hwa.
    by destruct Hwa as [[[[[_ ?%negb_true_iff%Z.eqb_neq] _] _] _] _].
  - apply becomes_movi2; [done|]. rewrite !andb_true_iff in Hwa.
    by destruct Hwa as [[[_ ?%negb_true_iff%Z.eqb_neq] _] _].
Qed.

Lemma simplify_becomes temps op h :
  wf_op s op = true -> wf_shape op = true -> simplify s HAS_neg HAS_not temps op = Ret h -> becomes temps op h.
Proof using Type.
  intros [_ Hwa]%andb_true_iff Hs. unfold simplify.
  assert (Hbin : (exists b w d x y co ci, op = mk_op (INDEX_op_bin b w) [d; x; y] co ci) \/
    simplify_unary HAS_neg HAS_not temps op = None /\ simplify_mov s temps op = Ret None /\
    simplify_same s temps op = Ret None).
  { destruct op as [oc al co ci]. unfold simplify_unary, simplify_mov, simplify_same. cbn [opc args].
    destruct oc; try (by right). do 4 (destruct al as [|? al]; try by right). left. by repeat eexists. }
  assert (Hrest : forall sm,
    (mh ← simplify_zero s temps op;
     match mh.2 with
     | Some h => Ret h
     | None => h ← sm; match h with Some h => Ret h | None => fold_constants s temps op mh.1 end
     end) = Ret h ->
    (sm = Ret (Some h) -> becomes temps op h) -> becomes temps op h).
  { intros sm Hr Hsm. destruct (simplify_zero s temps op) as [[m [h0|]]| |] eqn:Hz; cbn [mbind outcome_bind snd] in Hr; try done.
    - injection Hr as <-. by eapply simplify_zero_becomes.
    - destruct sm as [[h0|]| |]; cbn [mbind outcome_bind] in Hr; try done; [injection Hr as ->; by apply Hsm|].
      by eapply fold_constants_becomes. }
  destruct Hbin as [(b & w & d & x & y & co & ci & ->)|(-> & -> & ->)].
  - destruct (simplify_unary _ _ _ _) as [h1|] eqn:Hu; [intros [= <-]; by apply simplify_unary_becomes|].
    destruct (simplify_mov _ _ _) as [[h1|]| |] eqn:Hm; cbn [mbind outcome_bind]; try done.
    + intros [= <-]. by apply simplify_mov_becomes.
    + intros Hr. eapply Hrest; [exact Hr|]. apply simplify_same_becomes.
  - cbn [mbind outcome_bind]. intros Hr. by apply (Hrest (Ret None)).
Qed.

(** ** The text after an operation *)

(** A helper that may be suppressed does not write globals. *)
Definition sane_flags (op : TCGOp) : bool :=
  negb (bool_decide (opc op = INDEX_op_call) && has_bits (call_flags op) TCG_CALL_NO_SIDE_EFFECTS) ||
  has_bits (call_flags op) (TCG_CALL_NO_READ_GLOBALS ||| TCG_CALL_NO_WRITE_GLOBALS).

Definition defs_after (D : Z -> bool) (ops : list TCGOp) : Z -> bool := fold_left def_after ops D.
Definition consts_after (K : Z -> bool) (ops : list TCGOp) : Z -> bool := fold_left const_after ops K.

Lemma block_fits_app D K ops k :
  block_fits D K (ops ++ k) = block_fits D K ops && block_fits (defs_after D ops) (consts_after K ops) k.
Proof using Type.
  revert D K. induction ops as [|op ops IH]; intros D K; [done|]. cbn [app TcgGenCode.block_fits].
  by rewrite IH, andb_assoc.
Qed.

(** [ops] may stand in the text for [op]. *)
Definition stands_for (temps : temps_t) (op : TCGOp) (temps' : temps_t) (ops : list TCGOp) : Prop :=
  forall D K, textual temps D K -> op_ready D op = true ->
    block_fits D K ops = true /\ textual temps' (defs_after D ops) (consts_after K ops) /\
    forall t, def_after D op t = true -> defs_after D ops t = true.

(** What is written after an operation that does not end its basic block. *)
Lemma def_after_plain D op t :
  ends_bb op = false -> opc op <> INDEX_op_discard ->
  def_after D op t = bool_decide (t ∈ op_outputs op) || D t.
Proof using Type.
  intros Hb Hd. unfold TcgGenCode.def_after. destruct (opc op); try done; by rewrite Hb, andb_true_r.
Qed.

Lemma def_after_other D op t :
  ends_bb op = false -> t ∉ op_outputs op -> def_after D op t = D t.
Proof using Type.
  intros Hb Hn. unfold TcgGenCode.def_after. rewrite Hb, bool_decide_eq_false_2 by done.
  by destruct (opc op); rewrite ?andb_true_r.
Qed.

(** An operation that stays, when the optimiser forgets its outputs. *)
Lemma textual_kept temps temps' D K op (gone : Z -> Prop) :
  textual temps D K -> forgets temps temps' gone -> is_movi (opc op) = false -> ends_bb op = false ->
  (forall t, t ∈ op_outputs op -> gone t) ->
  (forall t, gone t -> t ∈ op_outputs op \/ writes_globals op = true /\ is_global s t = true) ->
  textual temps' (def_after D op) (const_after K op).
Proof using Type.
  intros Htx Hf Hm Hb Ho Hg t Ht. destruct (Htx t Ht) as [H1 H2], (Hf t Ht) as [F1 F2]. split.
  - unfold TcgGenCode.const_after, const_kept. rewrite Hm, Hb. cbn [andb orb negb].
    rewrite !andb_true_iff, negb_true_iff. intros [[Hno%bool_decide_eq_true Hw] Hk].
    apply F1; [by apply H1|]. intros [?|[Hw1 Hg1]]%Hg; [done|]. by rewrite Hw1, Hg1 in Hw.
  - intros [Hc Hn]%F2. rewrite def_after_other; [by apply H2|done|]. intros Hi. by apply Hn, Ho.
Qed.

(** The end of a basic block. *)
Lemma textual_bb_end temps D K op :
  ends_bb op = true -> is_movi (opc op) = false ->
  textual (reset_all_temps s temps) (def_after D op) (const_after K op).
Proof using Type.
  intros Hb Hm t Ht. unfold is_const, is_copy, reset_all_temps. rewrite Ht. cbn. split.
  - unfold TcgGenCode.const_after, const_kept. by rewrite Hm, Hb.
  - by rewrite bool_decide_eq_false_2.
Qed.

Lemma stands_one temps op temps' op' :
  (forall D K, textual temps D K -> op_ready D op = true ->
     op_fits D K op' = true /\ textual temps' (def_after D op') (const_after K op') /\
     forall t, def_after D op t = true -> def_after D op' t = true) ->
  stands_for temps op temps' [op'].
Proof using Type.
  intros H D K Htx Hr. destruct (H D K Htx Hr) as (H1 & H2 & H3). split_and!; [|done..].
  cbn. by rewrite H1.
Qed.

(** An operation in the place of another with its outputs. *)
Lemma fits_same D K op op' :
  op_ready D op = true -> wf_op s op' = true -> wf_shape op' = true -> op_outputs op' = op_outputs op ->
  ends_bb op' = false \/ op_oargs op' = 0%nat -> opc op' <> INDEX_op_call ->
  (forall x, x ∈ op_inputs op' -> D x = true) -> moves_const K op' = false -> op_fits D K op' = true.
Proof using Type.
  intros (_ & _ & Ho & _)%op_ready_spec Hwf Hs Heq Hb Hc Hi Hm. unfold TcgGenCode.op_fits. rewrite Hm, andb_true_r.
  apply op_ready_spec. rewrite Heq. split_and!; try done. intros He. destruct Hb; congruence.
Qed.

Lemma shape_one op d : op_outputs op = [d] \/ op_outputs op = [] ->
  Nat.leb (op_oargs op + op_iargs op) (length (args op)) && Nat.leb (op_oargs op) 8 &&
  Nat.leb (op_oargs op + op_iargs op) 16 = true -> wf_shape op = true.
Proof using Type.
  intros Ho H. unfold wf_shape. rewrite H. apply bool_decide_eq_true.
  destruct Ho as [-> | ->]; [apply NoDup_singleton|constructor].
Qed.

Lemma rings_mask temps d m : rings s temps -> rings s (upd temps d (set_mask m)).
Proof using Type.
  intros Hr. assert (Hs : forall t, state (upd temps d (set_mask m) t) = state (temps t) /\
    next_copy (upd temps d (set_mask m) t) = next_copy (temps t) /\
    prev_copy (upd temps d (set_mask m) t) = prev_copy (temps t)) by (intros t; unfold upd; by destruct (t =? d)).
  assert (Hst : forall t, state (upd temps d (set_mask m) t) = state (temps t)) by (intros t; apply Hs).
  assert (Hn : forall t, next_copy (upd temps d (set_mask m) t) = next_copy (temps t)) by (intros t; apply Hs).
  assert (Hp : forall t, prev_copy (upd temps d (set_mask m) t) = prev_copy (temps t)) by (intros t; apply Hs).
  intros t Ht Hc. rewrite Hst in Hc. destruct (Hr t Ht Hc). constructor; by rewrite ?Hst, ?Hn, ?Hp, ?Hn, ?Hp, ?Hst.
Qed.

Lemma reset_output_forgets temps m outs :
  rings s temps -> Forall (fun d => in_temps d = true) outs ->
  forgets temps (reset_output temps m outs) (fun t => t ∈ outs).
Proof using Type.
  intros Hr Hin. destruct outs as [|o outs]; cbn [reset_output].
  - intros t Ht. split; [done|]. intros Hc. split; [done|]. apply not_elem_of_nil.
  - apply Forall_cons_1 in Hin as [Ho Hin]. destruct (reset_forgets temps o Hr Ho) as [Hr1 Hf1].
    destruct (resets_forget outs (upd (reset_temp temps o) o (set_mask m))) as [_ Hf2]; [by apply rings_mask|done|].
    pose proof (forgets_mask _ _ o m _ Hf1) as Hf1'. intros t Ht.
    destruct (Hf1' t Ht) as [A1 A2], (Hf2 t Ht) as [B1 B2]. split.
    + intros Hc Hn. rewrite not_elem_of_cons in Hn. destruct Hn. auto.
    + intros Hc. apply B2 in Hc as [Hc Hn]. apply A2 in Hc as [Hc Hne]. split; [done|]. by apply not_elem_of_cons.
Qed.

Lemma ready_outs D op : op_ready D op = true -> Forall (fun d => in_temps d = true) (op_outputs op).
Proof using Type. intros (_ & _ & Ho & _)%op_ready_spec. apply Forall_forall. intros t Ht. by apply Ho. Qed.

Lemma stands_kept temps op m :
  rings s temps ->
  match opc op with INDEX_op_mov _ | INDEX_op_movi _ | INDEX_op_call => false | _ => true end = true ->
  stands_for temps op (h_temps (do_default s temps op m)) [op].
Proof using Type.
  intros Hr Hk. apply stands_one. intros D K Htx Hrd.
  assert (Hm : is_movi (opc op) = false) by (by destruct (opc op)).
  assert (Hmc : moves_const K op = false) by (unfold moves_const; by destruct (opc op)).
  assert (Hnc : opc op <> INDEX_op_call) by (by destruct (opc op)).
  split; [unfold TcgGenCode.op_fits; by rewrite Hrd, Hmc|]. split; [|done].
  unfold do_default. fold (ends_bb op). destruct (ends_bb op) eqn:Hb; cbn [keep h_temps fst].
  - by apply textual_bb_end.
  - eapply textual_kept; try done; [by eapply reset_output_forgets, ready_outs|done|by left].
Qed.

Lemma stands_call temps op m :
  rings s temps -> opc op = INDEX_op_call -> sane_flags op = true ->
  stands_for temps op (h_temps (do_call s temps op m)) [op].
Proof.
  intros Hr Hop Hsf. apply stands_one. intros D K Htx Hrd.
  split; [unfold TcgGenCode.op_fits, moves_const; by rewrite Hrd, Hop|]. split; [|done].
  set (kills := negb (has_bits (call_flags op) (TCG_CALL_NO_READ_GLOBALS ||| TCG_CALL_NO_WRITE_GLOBALS))).
  assert (Hw : kills = true -> writes_globals op = true).
  { unfold sane_flags in Hsf. rewrite bool_decide_eq_true_2 in Hsf by done.
    unfold writes_globals. rewrite bool_decide_eq_true_2 by done. fold kills. unfold kills.
    destruct (has_bits (call_flags op) (_ ||| _)); [done|]. by rewrite orb_false_r in Hsf. }
  set (temps1 := if kills then fold_left reset_temp (seqZ 0 (nb_globals s)) temps else temps).
  assert (rings s temps1 /\ forgets temps temps1 (fun t => kills = true /\ is_global s t = true)) as [Hr1 Hf1].
  { unfold temps1. destruct kills.
    - destruct (resets_forget (seqZ 0 (nb_globals s)) temps Hr) as [H1 H2].
      + apply Forall_forall. intros g Hg%elem_of_seqZ. apply (global_in s Hctx). unfold is_global. lia.
      + split; [done|]. intros t Ht. destruct (H2 t Ht) as [A1 A2].
        assert (Hi : t ∈ seqZ 0 (nb_globals s) <-> is_global s t = true).
        { rewrite elem_of_seqZ. unfold is_global, TcgOpt.in_temps in *. lia. }
        rewrite Hi in A1, A2. naive_solver.
    - split; [done|]. intros t Ht. naive_solver. }
  pose proof (reset_output_forgets temps1 m (op_outputs op) Hr1 (ready_outs D op Hrd)) as Hf2.
  eapply (textual_kept temps _ D K op (fun t => t ∈ op_outputs op \/ kills = true /\ is_global s t = true)); try done.
  - intros t Ht. destruct (Hf1 t Ht) as [A1 A2], (Hf2 t Ht) as [B1 B2].
    change (h_temps (do_call s temps op m)) with (reset_output temps1 m (op_outputs op)). naive_solver.
  - by rewrite Hop.
  - unfold ends_bb. by rewrite Hop.
  - by left.
  - intros t [?|[Hk Hg]]; [by left|right; auto].
Qed.

(** ** Moves *)

Lemma movi_text temps oc d v D K :
  rings s temps -> in_temps d = true -> textual temps D K ->
  let r := tcg_opt_gen_movi temps oc d v in
  exists w, r.2 = mk_op (INDEX_op_movi w) [d; v] 0 0 /\ textual r.1 (def_after D r.2) (const_after K r.2).
Proof using Type.
  intros Hr Hd Htx r.
  exists (if op_bits oc =? 32 then W32 else W64).
  assert (Hr2 : r.2 = mk_op (INDEX_op_movi (if op_bits oc =? 32 then W32 else W64)) [d; v] 0 0).
  { unfold r, tcg_opt_gen_movi, op_to_movi. cbn. by destruct (op_bits oc =? 32). }
  split; [done|]. rewrite Hr2. destruct (reset_forgets temps d Hr Hd) as [_ Hf]. intros t Ht.
  assert (Hs : state (r.1 t) = if t =? d then TCG_TEMP_CONST else state (reset_temp temps d t)).
  { unfold r, tcg_opt_gen_movi, upd. cbn. by destruct (t =? d). }
  rewrite def_after_plain by done. unfold TcgGenCode.const_after, const_kept. cbn [is_movi andb opc].
  change (op_outputs _) with [d]. unfold is_const, is_copy in *. rewrite Hs.
  destruct (Z.eqb_spec t d) as [->|Hne].
  - split; [done|]. intros _. apply orb_true_iff. left. apply bool_decide_eq_true. by left.
  - destruct (Hf t Ht) as [F1 F2], (Htx t Ht) as [H1 H2].
    rewrite bool_decide_eq_false_2 by (by intros ->%list_elem_of_singleton). cbn [orb andb].
    rewrite bool_decide_eq_true_2 by (by intros ->%list_elem_of_singleton). split.
    + intros [_ Hk]%andb_true_iff. by apply F1; [apply H1|].
    + intros [Hc _]%F2. by apply H2.
Qed.

Lemma gen_mov_states temps oc d x temps' op' :
  rings s temps -> in_temps d = true -> tcg_opt_gen_mov s temps oc d x = Ret (temps', op') ->
  (exists w, op' = mk_op (INDEX_op_mov w) [d; x] 0 0) /\
  forall t, in_temps t = true ->
    (is_const temps t = true -> t <> d -> is_const temps' t = true) /\
    (is_copy temps' t = true -> t = d \/ t = x \/ is_copy temps t = true).
Proof using Type.
  intros Hr Hd. destruct (reset_forgets temps d Hr Hd) as [_ Hf]. unfold tcg_opt_gen_mov. cbv zeta.
  set (temps1 := upd (reset_temp temps d) d (set_mask _)).
  destruct (is_const temps1 x) eqn:Hx; [done|]. intros [= <- <-].
  split; [exists (if op_bits oc =? 32 then W32 else W64); unfold op_to_mov; by destruct (op_bits oc =? 32)|].
  assert (Hst : forall f i t, (forall j, state (f j) = state j) ->
    forall tt : temps_t, state (upd tt i f t) = state (tt t)).
  { intros f i t Hj tt. unfold upd. destruct (t =? i); [apply Hj|done]. }
  intros t Ht. destruct (Hf t Ht) as [F1 F2].
  assert (H1 : state (temps1 t) = state (reset_temp temps d t)) by (by apply Hst).
  unfold is_const, is_copy in *. apply bool_decide_eq_false in Hx.
  rewrite !bool_decide_eq_true in *. rewrite <- H1 in F1, F2. clear H1.
  case_bool_decide; [|split; [done|]; intros Hc; right; right; by apply F2].
  rewrite !Hst by done.
  assert (Hu : forall (tt : temps_t) st i, state (upd tt i (set_state st) t) = if t =? i then st else state (tt t)).
  { intros tt st i. unfold upd. by destruct (t =? i). }
  rewrite !Hu. destruct (Z.eqb_spec t d) as [->|Hne].
  - split; [done|]. by left.
  - case_bool_decide; cbn [negb]; rewrite ?Hst, ?Hu by done.
    + split; [intros Hc _; by apply F1|]. intros Hc. right; right. by apply F2.
    + destruct (Z.eqb_spec t x) as [->|Hnx].
      * split; [|by right; left]. intros Hc Hn. by destruct Hx; apply F1.
      * split; [intros Hc _; by apply F1|]. intros Hc. right; right. by apply F2.
Qed.

Lemma mov_text temps oc d x D K temps' op' :
  rings s temps -> in_temps d = true -> tcg_opt_gen_mov s temps oc d x = Ret (temps', op') ->
  D x = true -> textual temps D K -> textual temps' (def_after D op') (const_after K op').
Proof using Type.
  intros Hr Hd Hg Hx Htx. destruct (gen_mov_states _ _ _ _ _ _ Hr Hd Hg) as [[w ->] Hst].
  intros t Ht. destruct (Hst t Ht) as [S1 S2], (Htx t Ht) as [H1 H2].
  rewrite def_after_plain by done. unfold TcgGenCode.const_after, const_kept. cbn [is_movi andb opc orb].
  change (op_outputs _) with [d]. split.
  - rewrite !andb_true_iff. intros [[[_ Hn%bool_decide_eq_true] _] Hk].
    apply S1; [by apply H1|]. intros ->. by destruct Hn; left.
  - intros [-> | [-> | Hc]]%S2; apply orb_true_iff; [left|right..]; [|done|by apply H2].
    apply bool_decide_eq_true. by left.
Qed.

Lemma copies_written temps D K d x :
  rings s temps -> textual temps D K -> in_temps d = true -> D x = true ->
  temps_are_copies s temps d x = Ret true -> D d = true.
Proof using Type.
  intros Hr Htx Hd Hx Hc. destruct (temps_are_copies_ok s temps d x Hr Hd) as (b & Hb & Hcp).
  assert (b = true) as -> by congruence. destruct Hcp as [Hcp _]. destruct (Hcp eq_refl) as [->|[Hst _]]; [done|].
  apply (Htx d Hd). by apply bool_decide_eq_true.
Qed.

Lemma written_cases D op t : def_after D op t = true -> t ∈ op_outputs op \/ D t = true.
Proof using Type.
  unfold TcgGenCode.def_after.
  destruct (opc op); intros [H _]%andb_true_iff; try apply orb_true_iff in H as [?%bool_decide_eq_true|]; auto.
Qed.

(** An operation that goes away. *)
Lemma stands_removed temps op :
  (forall D K t, textual temps D K -> op_ready D op = true -> t ∈ op_outputs op -> D t = true) ->
  stands_for temps op temps [].
Proof using Type.
  intros Ho D K Htx Hrd. split_and!; [done..|]. intros t [Hi|Hd]%written_cases; [|done]. by eapply Ho.
Qed.

Lemma output_ready D op d : op_ready D op = true -> d ∈ op_outputs op -> in_temps d = true.
Proof using Type. intros Hrd Hd. pose proof (ready_outs D op Hrd) as H. rewrite Forall_forall in H. by apply H. Qed.

(** The outputs are written by [ops] as well. *)
Lemma written_one D op op' t :
  op_outputs op' = op_outputs op -> ends_bb op' = false -> opc op' <> INDEX_op_discard ->
  def_after D op t = true -> def_after D op' t = true.
Proof using Type.
  intros Ho Hb Hd Ht. rewrite def_after_plain, Ho by done. apply orb_true_iff.
  apply written_cases in Ht as [?|?]; [left; by apply bool_decide_eq_true|by right].
Qed.

Lemma stands_movi temps op oc d v :
  rings s temps -> op_outputs op = [d] -> Forall (fun op => wf_op s op = true) (h_ops (gen_movi temps oc d v)) ->
  stands_for temps op (h_temps (gen_movi temps oc d v)) (h_ops (gen_movi temps oc d v)).
Proof using Type.
  intros Hr Ho [Hwf _]%Forall_cons_1. apply stands_one. intros D K Htx Hrd.
  assert (Hd : in_temps d = true) by (eapply output_ready; [done|rewrite Ho; by left]).
  destruct (movi_text temps oc d v D K Hr Hd Htx) as (w & Heq & Htx'). rewrite Heq in *.
  split_and!; [|done|].
  - apply (fits_same D K op _ Hrd Hwf); [by eapply shape_one; [left|]|by rewrite Ho|by left|done| |done].
    intros x Hx. by apply not_elem_of_nil in Hx.
  - intros t. by apply written_one.
Qed.

Lemma stands_mov temps op oc d x h :
  rings s temps -> op_outputs op = [d] -> x ∈ op_inputs op -> is_const temps x = false ->
  gen_mov s temps oc d x = Ret h -> Forall (fun op => wf_op s op = true) (h_ops h) ->
  stands_for temps op (h_temps h) (h_ops h).
Proof using Type.
  intros Hr Ho Hx Hc. unfold gen_mov. destruct (tcg_opt_gen_mov s temps oc d x) as [[temps' op']| |] eqn:Hg; try done.
  intros [= <-] [Hwf _]%Forall_cons_1. cbn [keep h_temps h_ops fst snd] in *. apply stands_one. intros D K Htx Hrd.
  assert (Hd : in_temps d = true) by (eapply output_ready; [done|rewrite Ho; by left]).
  pose proof Hrd as (Hwo & _ & _ & _ & _ & Hi)%op_ready_spec.
  pose proof (mov_text temps oc d x D K temps' op' Hr Hd Hg (Hi x Hx) Htx) as Htx'.
  destruct (gen_mov_states _ _ _ _ _ _ Hr Hd Hg) as [[w ->] _]. split_and!; [|done|].
  - apply (fits_same D K op _ Hrd Hwf); [by eapply shape_one; [left|]|by rewrite Ho|by left|done|..].
    + intros y ->%list_elem_of_singleton. by apply Hi.
    + apply not_true_is_false. intros Hk. cbn in Hk.
      pose proof (wf_inputs s (fun _ => true) (fun _ => true) op Hwo) as Hin. rewrite Forall_forall in Hin.
      destruct (Htx x (Hin x Hx)) as [H1 _]. rewrite H1 in Hc; done.
  - intros t. by apply written_one.
Qed.

Lemma stands_un temps op u w d x :
  let op' := mk_op (INDEX_op_un u w) [d; x] 0 0 in
  rings s temps -> op_outputs op = [d] -> x ∈ op_inputs op -> wf_op s op' = true ->
  stands_for temps op (reset_temp temps d) [op'].
Proof using Type.
  intros op' Hr Ho Hx Hwf. apply stands_one. intros D K Htx Hrd.
  assert (Hd : in_temps d = true) by (eapply output_ready; [done|rewrite Ho; by left]).
  pose proof Hrd as (_ & _ & _ & _ & _ & Hi)%op_ready_spec. destruct (reset_forgets temps d Hr Hd) as [_ Hf].
  assert (Hout : op_outputs op' = [d]) by done. split_and!.
  - apply (fits_same D K op _ Hrd Hwf); [by eapply shape_one; [left|]|by rewrite Ho|by left|done| |done].
    intros y ->%list_elem_of_singleton. by apply Hi.
  - eapply textual_kept; try done; rewrite Hout.
    + by intros t ->%list_elem_of_singleton.
    + intros t ->. left. by left.
  - intros t. apply written_one; [by rewrite Ho|done..].
Qed.

Lemma stands_jump temps op op' :
  op_outputs op = [] -> ends_bb op' = true -> op_outputs op' = [] -> callo op' = 0%nat ->
  match opc op' with INDEX_op_br | INDEX_op_brcond _ => true | _ => false end = true ->
  (forall x, x ∈ op_inputs op' -> x ∈ op_inputs op) -> ends_bb op = true -> wf_op s op' = true ->
  stands_for temps op (reset_all_temps s temps) [op'].
Proof using Type.
  intros Ho Hb Ho' Hco Hk Hin Hbo Hwf. apply stands_one. intros D K Htx Hrd.
  pose proof Hrd as (_ & _ & _ & _ & _ & Hi)%op_ready_spec.
  assert (Hs : wf_shape op' = true).
  { apply (shape_one _ 0); [by right|]. destruct op' as [oc al co ci]. apply andb_true_iff in Hwf as [_ Hwf].
    unfold wf_args in Hwf. cbn [opc args] in *. destruct oc; try done; repeat (destruct al as [|? al]; try done). }
  assert (Hn0 : op_oargs op' = 0%nat) by (unfold op_oargs; by destruct (opc op')).
  split_and!.
  - apply (fits_same D K op _ Hrd Hwf Hs); [by rewrite Ho|by right|by destruct (opc op')| |].
    + intros x Hx. by apply Hi, Hin.
    + unfold moves_const. by destruct (opc op').
  - apply textual_bb_end; [done|]. by destruct (opc op').
  - intros t. unfold TcgGenCode.def_after. rewrite Hb, Hbo, Ho, Ho'.
    destruct (opc op') eqn:E'; try done; destruct (opc op) eqn:E1; try done; unfold ends_bb in Hbo; by rewrite E1 in Hbo.
Qed.

Lemma movi_fits temps oc d v D K op :
  rings s temps -> textual temps D K -> in_temps d = true -> fixed_reg s global_reg d = false ->
  wf_op s (tcg_opt_gen_movi temps oc d v).2 = true -> op = (tcg_opt_gen_movi temps oc d v).2 ->
  op_fits D K op = true /\ textual (tcg_opt_gen_movi temps oc d v).1 (def_after D op) (const_after K op) /\
  op_outputs op = [d] /\ ends_bb op = false /\ opc op <> INDEX_op_discard.
Proof using Type.
  intros Hr Htx Hd Hf Hwf ->. destruct (movi_text temps oc d v D K Hr Hd Htx) as (w & Heq & Htx'). rewrite Heq in *.
  split_and!; try done. unfold TcgGenCode.op_fits. rewrite andb_true_r. apply op_ready_spec. split_and!; try done.
  - by intros t ->%list_elem_of_singleton.
  - intros t Ht. by apply not_elem_of_nil in Ht.
Qed.

Lemma rings_movi temps oc d v :
  rings s temps -> in_temps d = true -> rings s (tcg_opt_gen_movi temps oc d v).1.
Proof using Type.
  intros Hr Hd. destruct (reset_forgets temps d Hr Hd) as [Hr' _]. unfold tcg_opt_gen_movi. cbn [fst].
  apply rings_mask. destruct (reset_temp_self temps d) as [Hu _].
  set (t1 := reset_temp temps d) in *. set (t2 := upd (upd t1 d _) d _).
  assert (H2 : forall t, t <> d -> t2 t = t1 t) by (intros t Hn; unfold t2; by rewrite !upd_ne).
  assert (Hc2 : state (t2 d) = TCG_TEMP_CONST) by (unfold t2; by rewrite !upd_eq).
  intros t Ht Hc. assert (t <> d) as Hne by congruence. rewrite H2 in Hc by done.
  destruct (Hr' t Ht Hc) as [? ? Hn Hp ? ? ?]. apply (linked_unchanged s t1).
  - by apply Hr'.
  - by apply H2.
  - apply H2. congruence.
  - apply H2. congruence.
Qed.

Lemma textual_movi temps oc d v D K :
  rings s temps -> in_temps d = true -> textual temps D K -> textual (tcg_opt_gen_movi temps oc d v).1 D K.
Proof using Type.
  intros Hr Hd Htx. destruct (reset_forgets temps d Hr Hd) as [_ Hf]. intros t Ht.
  set (temps' := (tcg_opt_gen_movi temps oc d v).1).
  assert (Hs : state (temps' t) = if t =? d then TCG_TEMP_CONST else state (reset_temp temps d t)).
  { unfold temps', tcg_opt_gen_movi, upd. cbn. by destruct (t =? d). }
  unfold is_const, is_copy in *. rewrite Hs. destruct (Z.eqb_spec t d) as [->|Hne]; [done|].
  destruct (Hf t Ht) as [F1 F2], (Htx t Ht) as [H1 H2]. split.
  - intros Hk. by apply F1; [apply H1|].
  - intros [Hc _]%F2. by apply H2.
Qed.

Lemma stands_movi2 temps op oc l h v temps' ops :
  rings s temps -> op_outputs op = [l; h] -> l <> h ->
  finish s HAS_neg HAS_not (gen_movi2 temps oc l h v) = Ret (temps', ops) ->
  Forall (fun op => wf_op s op = true) ops -> stands_for temps op temps' ops.
Proof using Type.
  intros Hr Ho Hne Hfin Hwf D K Htx Hrd.
  assert (Hl : in_temps l = true /\ fixed_reg s global_reg l = false).
  { apply op_ready_spec in Hrd as (_ & _ & H & _). apply H. rewrite Ho. by left. }
  assert (Hh : in_temps h = true /\ fixed_reg s global_reg h = false).
  { apply op_ready_spec in Hrd as (_ & _ & H & _). apply H. rewrite Ho. by right; left. }
  set (m1 := tcg_opt_gen_movi temps oc l (u32 v)). set (m2 := tcg_opt_gen_movi m1.1 oc h (u32 (v >> 32))).
  destruct (movi_text temps oc l (u32 v) D K Hr (proj1 Hl) Htx) as (w & Heq1 & _). fold m1 in Heq1.
  set (m3 := tcg_opt_gen_movi m2.1 (INDEX_op_movi w) l (u32 v)).
  assert (temps' = m3.1 /\ ops = [m2.2; m3.2]) as [-> ->].
  { revert Hfin. unfold finish, gen_movi2. fold m1. destruct m1 as [t1 op1] eqn:E1. cbn [fst snd] in *. subst op1.
    destruct m2 as [t2 op2] eqn:E2. unfold m2 in E2. cbn [fst snd] in *. rewrite E2. cbn [h_again h_temps h_ops].
    rewrite fold_op_movi. cbn. by intros [= <- <-]. }
  apply Forall_cons_1 in Hwf as [Hwf2 [Hwf3 _]%Forall_cons_1].
  assert (Hr1 : rings s m1.1) by (by apply rings_movi; [|apply Hl]).
  assert (Hr2 : rings s m2.1) by (by apply rings_movi; [|apply Hh]).
  assert (Htx1 : textual m1.1 D K) by (by apply textual_movi; [|apply Hl|]).
  destruct (movi_fits m1.1 oc h (u32 (v >> 32)) D K m2.2 Hr1 Htx1 (proj1 Hh) (proj2 Hh) Hwf2 eq_refl)
    as (F2 & T2 & O2 & B2 & N2). fold m2 in T2.
  destruct (movi_fits m2.1 (INDEX_op_movi w) l (u32 v) _ _ m3.2 Hr2 T2 (proj1 Hl) (proj2 Hl) Hwf3 eq_refl)
    as (F3 & T3 & O3 & B3 & N3). fold m3 in T3.
  split_and!; [cbn [TcgGenCode.block_fits]; by rewrite F2, F3|done|].
  intros t Ht. cbn [defs_after fold_left].
  rewrite (def_after_plain _ m3.2), (def_after_plain _ m2.2), O2, O3 by done. rewrite !orb_true_iff, !bool_decide_eq_true.
  apply written_cases in Ht as [Ht|Ht]; [|by right; right]. rewrite Ho in Ht.
  apply elem_of_cons in Ht as [->|Ht]; [left; by left|by right; left].
Qed.

Lemma becomes_stands temps op h temps' ops :
  becomes temps op h -> finish s HAS_neg HAS_not h = Ret (temps', ops) -> rings s temps ->
  sane_flags op = true -> Forall (fun op => wf_op s op = true) ops -> stands_for temps op temps' ops.
Proof.
  intros Hb Hfin Hr Hsf Hwf.
  destruct Hb as [m Hk|m Hop|oc d v Ho|oc d x h Ho Hx Hc Hg|d x Ho Hx Hc|Ho|u w d x Ho Hx|op' Ho Hbo Hb Ho' Hco Hk Hi
    |oc l h v Ho Hne]; [..|by eapply stands_movi2].
  - unfold do_default in Hfin |- *. pose proof (stands_kept temps op m Hr Hk) as H. unfold do_default in H.
    destruct (OPF_BB_END _); injection Hfin as <- <-; exact H.
  - injection Hfin as <- <-. by apply (stands_call temps op m).
  - injection Hfin as <- <-. by apply (stands_movi temps op oc d v).
  - assert (finish s HAS_neg HAS_not h = Ret (h_temps h, h_ops h)) as Hf.
    { unfold gen_mov in Hg. destruct (tcg_opt_gen_mov _ _ _ _ _); try done. by injection Hg as <-. }
    rewrite Hf in Hfin. injection Hfin as <- <-. by eapply stands_mov.
  - injection Hfin as <- <-. apply stands_removed. intros D K t Htx Hrd Ht. rewrite Ho in Ht.
    apply list_elem_of_singleton in Ht as ->. eapply copies_written; try done.
    + eapply output_ready; [done|]. rewrite Ho. by left.
    + by apply op_ready_spec in Hrd as (_ & _ & _ & _ & _ & H); apply H.
  - injection Hfin as <- <-. apply stands_removed. intros D K t _ _ Ht. rewrite Ho in Ht. by apply not_elem_of_nil in Ht.
  - injection Hfin as <- <-. apply Forall_cons_1 in Hwf as [Hwf _]. by apply stands_un.
  - injection Hfin as <- <-. apply Forall_cons_1 in Hwf as [Hwf _]. by apply stands_jump.
Qed.

(** ** Canonical operations *)

Lemma canonical_parts temps op :
  wf_op s op = true ->
  op_outputs (canonicalize temps op) = op_outputs op /\
  (forall x, x ∈ op_inputs (canonicalize temps op) -> x ∈ op_inputs op) /\
  length (args (canonicalize temps op)) = length (args op).
Proof using Type.
  intros [_ Hwa]%andb_true_iff. destruct op as [oc al co ci].
  destruct oc as [| | |w|w|w|w|w|w| |b w|u w|w|w|w|w|w|w| | | |w| | |name def]; try done;
    unfold wf_args in Hwa; cbn [opc args] in Hwa; repeat (destruct al as [|? al]; try done);
    unfold canonicalize; cbn [opc args]; try (destruct (commutes b); [|done]);
    repeat match goal with
    | |- context [swap_commutative temps ?d ?x ?y] => destruct (swap_cases temps d x y) as [-> | ->]
    | |- context [swap_commutative2 temps ?p ?q] => destruct (swap2_cases temps p q) as [-> | ->]
    end; try destruct b; (split; [done|]); (split; [|done]); intros y;
    match goal with |- _ ∈ ?l1 -> _ ∈ ?l2 =>
      let l1' := eval vm_compute in l1 in let l2' := eval vm_compute in l2 in
      change (y ∈ l1' -> y ∈ l2')
    end; clear; rewrite !elem_of_cons; intuition.
Qed.

(** ** The block *)

Fixpoint block_ready (D : Z -> bool) (ops : list TCGOp) : bool :=
  match ops with
  | [] => true
  | op :: ops => op_ready D op && sane_flags op && block_ready (def_after D op) ops
  end.

Lemma copies_in_text temps D K t j :
  rings s temps -> textual temps D K -> in_temps t = true -> D t = true -> copies temps t j -> D j = true.
Proof using Type.
  intros Hr Htx Ht HD [<-|(Hc & k & ->)]; [done|]. destruct (step_to_ring s temps k t Hr Ht Hc) as (Hi & Hs & _).
  apply (Htx _ Hi). by apply bool_decide_eq_true.
Qed.

Lemma propagated_length temps i n l l' : propagated temps i n l l' -> length l' = length l.
Proof using Type.
  revert i n l'. induction l as [|a l IH]; intros i n l' Hp.
  { assert (l' = []) as -> by (by destruct i, n). done. }
  destruct i as [|i]; [destruct n as [|n]|]; cbn in Hp.
  - by subst l'.
  - destruct l' as [|a' l']; [done|]. destruct Hp as [_ Hp]. cbn. by rewrite (IH _ _ _ Hp).
  - destruct l' as [|a' l']; [done|]. destruct Hp as [_ Hp]. cbn. by rewrite (IH _ _ _ Hp).
Qed.

(** Propagation and canonical operands keep what the text relies on. *)
Lemma ready_canonical temps E op l' D K :
  inv s temps E -> textual temps D K -> op_ready D op = true ->
  propagated temps (op_oargs op) (op_iargs op) (args op) l' ->
  op_ready D (canonicalize temps (with_args op l')) = true.
Proof using Type.
  intros Hi Htx (Hwf & Hs & Ho & Hb & Hc & Hin)%op_ready_spec Hp.
  destruct (propagated_parts temps _ _ _ _ Hp) as (Hout & _ & Hins).
  destruct (propagated_sound s quiet_ext temps E op l' Hi Hwf Hp) as [Hwf1 _].
  destruct (canonicalize_sound s quiet_ext temps E _ Hwf1) as [Hwf2 _].
  destruct (canonical_parts temps _ Hwf1) as (Ho2 & Hi2 & Hl2).
  destruct (canonicalize_same temps (with_args op l')) as (Hop & Hco & Hci).
  set (op2 := canonicalize temps (with_args op l')) in *.
  assert (Hno : op_oargs op2 = op_oargs op) by (unfold op_oargs; by rewrite Hop, Hco).
  assert (Hni : op_iargs op2 = op_iargs op) by (unfold op_iargs; by rewrite Hop, Hci).
  assert (Ho1 : op_outputs op2 = op_outputs op) by (by rewrite Ho2).
  assert (Hlen : length l' = length (args op)).
  { apply propagated_length in Hp. done. }
  apply op_ready_spec. rewrite Ho1, Hno, Hop. split_and!; try done.
  - unfold wf_shape in *. rewrite Hno, Hni, Ho1, Hl2. cbn [args with_args]. by rewrite Hlen.
  - unfold ends_bb in *. by rewrite Hop.
  - intros x Hx%Hi2. apply (list_elem_of_lookup_1 _ _) in Hx as [k Hk].
    destruct (Forall2_lookup_r _ _ _ _ _ Hins Hk) as (y & Hy & Hcp).
    apply list_elem_of_lookup_2 in Hy. eapply copies_in_text; try done; [apply Hi| |by apply Hin].
    pose proof (wf_inputs s (fun _ => true) (fun _ => true) op Hwf) as Hw. rewrite Forall_forall in Hw. by apply Hw.
Qed.

Lemma fold_op_stands temps op h temps' ops :
  possible s temps -> wf_op s op = true -> sane_flags op = true ->
  fold_op s HAS_neg HAS_not temps op = Ret h -> finish s HAS_neg HAS_not h = Ret (temps', ops) ->
  Forall (fun op => wf_op s op = true) ops -> stands_for temps op temps' ops.
Proof.
  intros [E Hi] Hwf Hsf Hf Hfin Hw D K Htx Hrd. pose proof (inv_rings _ _ _ Hi) as Hr. unfold fold_op in Hf.
  destruct (propagate_ok s temps (op_oargs op) (op_iargs op) (args op)) as (l' & Hp & Hpr);
    [done|by apply (wf_inputs s HAS_neg HAS_not)|].
  rewrite Hp in Hf. cbn [mbind outcome_bind] in Hf.
  pose proof (ready_canonical temps E op l' D K Hi Htx Hrd Hpr) as Hrd2.
  destruct (propagated_sound s quiet_ext temps E op l' Hi Hwf Hpr) as [Hwf1 _].
  destruct (canonical_parts temps _ Hwf1) as (Ho2 & _). destruct (propagated_parts temps _ _ _ _ Hpr) as (Hout & _).
  destruct (canonicalize_same temps (with_args op l')) as (Hop & Hco & Hci).
  assert (Hfl : opc op = INDEX_op_call ->
    call_flags (canonicalize temps (with_args op l')) = call_flags op).
  { intros Hc. assert (canonicalize temps (with_args op l') = with_args op l') as ->.
    { unfold canonicalize. cbn [opc with_args]. by rewrite Hc. }
    by eapply propagated_flags. }
  set (op2 := canonicalize temps (with_args op l')) in *.
  assert (Ho : op_outputs op2 = op_outputs op) by (by rewrite Ho2).
  assert (Hda : forall t, def_after D op2 t = def_after D op t).
  { intros t. unfold TcgGenCode.def_after, ends_bb. by rewrite Hop, Ho. }
  assert (Hsf2 : sane_flags op2 = true).
  { unfold sane_flags in *. rewrite Hop. cbn [opc with_args]. destruct (decide (opc op = INDEX_op_call)) as [Hc|Hc].
    - by rewrite Hfl.
    - by rewrite bool_decide_eq_false_2. }
  pose proof Hrd2 as (Hwf2 & Hs2 & _)%op_ready_spec.
  destruct (becomes_stands temps op2 h temps' ops (simplify_becomes temps op2 h Hwf2 Hs2 Hf) Hfin Hr Hsf2 Hw D K Htx Hrd2)
    as (H1 & H2 & H3). split_and!; [done..|]. intros t. rewrite <- Hda. apply H3.
Qed.

Lemma ready_mono (D D' : Z -> bool) op :
  (forall t, D t = true -> D' t = true) -> op_ready D op = true -> op_ready D' op = true.
Proof using Type. intros HD. rewrite !op_ready_spec. naive_solver. Qed.

Lemma def_after_mono (D D' : Z -> bool) op t :
  (forall t, D t = true -> D' t = true) -> def_after D op t = true -> def_after D' op t = true.
Proof using Type.
  intros HD. unfold TcgGenCode.def_after.
  destruct (opc op); rewrite !andb_true_iff, ?orb_true_iff; intros [H1 H2]; (split; [|done]);
    (by apply HD) || (destruct H1; auto).
Qed.

Lemma optimised_fits temps k k' :
  optimised s HAS_neg HAS_not temps k k' -> possible s temps ->
  forall (D0 D K : Z -> bool), (forall t, D0 t = true -> D t = true) -> textual temps D K ->
    block_ready D0 k = true -> block_fits D K k' = true.
Proof.
  induction 1 as [|temps op k h temps' ops k' Hwf Hf Hfin _ _ IH]; intros Hp D0 D K HD Htx Hk; [done|].
  cbn [block_ready] in Hk. rewrite !andb_true_iff in Hk. destruct Hk as [[Hrd Hsf] Hk].
  destruct (fold_op_possible s HAS_neg HAS_not Hctx temps op Hp Hwf)
    as [[_ ?]|(h1 & temps1 & ops1 & Hf1 & Hfin1 & Hp1 & Hw1 & _)]; [congruence|].
  assert (h1 = h) as -> by congruence. assert (temps1 = temps' /\ ops1 = ops) as [-> ->] by (split; congruence).
  destruct (fold_op_stands temps op h temps' ops Hp Hwf Hsf Hf Hfin Hw1 D K Htx (ready_mono D0 D op HD Hrd)) as (H1 & H2 & H3).
  rewrite block_fits_app, H1. apply (IH Hp1 (def_after D0 op)); [|done..].
  intros t Ht. apply H3. by eapply def_after_mono.
Qed.
End Text.
