(* ===== verification/TcgCompile.v ===== *)
(** * From a block to host code

    [tcg_gen_code_common] as a whole: the optimiser, the liveness analysis and
    the register allocator one after the other.  The code is there, or the
    host lacks registers, room in the frame or an operation; and whatever it
    does, the block may do. *)

From S2P Require Import Prelude HostUtils BitField TcgOp TcgOpt TcgSem TcgMono TcgLive TcgAlloc TcgHost.
From S2P Require Import TcgInv TcgFold TcgGood TcgCorrect TcgOptimize TcgFrame TcgLiveness TcgAllocInv TcgAllocMove.
From S2P Require Import TcgAllocLive TcgAllocOp TcgAllocExec TcgAllocRun TcgAllocCall TcgAllocMov TcgGenCode TcgText.

(** ** Hosts *)

(** What a host has to have for the allocator not to give up: room in the
    frame for every temporary and on the stack for every argument, a register
    beside the reserved ones, and registers for the operands of its
    operations. *)
Record roomy (s : TCGContext) (T : TCGTarget) : Prop := {
  ro_frame : enough_frame s T;
  ro_one : forall w, available T (tcg_target_available_regs T w) (reserved_regs T);
  ro_two : forall w r, available T (tcg_target_available_regs T w) (set_regset (reserved_regs T) r);
  ro_stack : forall n nr, (n <= 16)%nat -> call_stack_size T n nr <= TCG_STATIC_CALL_ARGS_SIZE;
  ro_ops : forall oc, op_present T oc = true ->
    met T (fun i => ct_regs (args_ct T oc i)) (skipn (nb_oargs (tcg_op_defs oc)) (sorted_args T oc)) /\
    met T (output_regs T oc) (firstn (nb_oargs (tcg_op_defs oc)) (sorted_args T oc));
}.

Section Compile.
Context (s : TCGContext) (T : TCGTarget) (global_reg : Z -> bool) (st : astate).
Context (HAS_muluh HAS_mulsh : width -> bool).

#[local] Abbreviation G := (s_temps st).
#[local] Abbreviation fixed := (fixed_reg s global_reg).
#[local] Abbreviation in_temps := (in_temps s).
#[local] Abbreviation home := (home s global_reg G).

Context (Hctx : wf_ctx s = true) (HT : target_ok s T global_reg G).
Context (Hframe : current_frame_offset st = frame_start T).

(** The tables before the first operation. *)
Definition first_tables : astate := code_start (tcg_reg_alloc_start s global_reg st).

Lemma first_type t :
  val_type (s_temps first_tables t) = if fixed t then TEMP_VAL_REG else canonical s t.
Proof.
  cbn. unfold fixed_reg, canonical. destruct (is_global s t); cbn; [|by destruct (temp_local s t)].
  by destruct (global_reg t).
Qed.

Lemma first_global g : is_global s g = true ->
  slot (s_temps first_tables g) = slot (G g) /\ treg (s_temps first_tables g) = treg (G g) /\
  mem_allocated (s_temps first_tables g) = mem_allocated (G g).
Proof. intros Hg. cbn. by rewrite Hg. Qed.

Lemma first_other t : is_global s t = false -> mem_allocated (s_temps first_tables t) = false.
Proof. intros Hg. cbn. by rewrite Hg. Qed.

Lemma first_wf : wf_st s T global_reg G first_tables.
Proof.
  assert (Hfr : forall t, framed s first_tables t = false).
  { intros t. unfold framed. destruct (is_global s t) eqn:Hg; [done|]. by rewrite first_other. }
  assert (Hnr : forall t, fixed t = false -> val_type (s_temps first_tables t) <> TEMP_VAL_REG).
  { intros t Hf. rewrite first_type, Hf. apply canonical_not_reg. }
  constructor.
  - by left.
  - intros t Ht Hf Hv. by destruct (Hnr t Hf).
  - intros t Hf. rewrite first_type, Hf. split; [done|]. apply first_global. by eapply fixed_global.
  - intros t Hg Hf. destruct (first_global t Hg) as (-> & _ & ->). split; [|done]. by apply (t_slots _ _ _ _ HT).
  - intros t Ht. by rewrite Hfr.
  - intros t1 t2 H1 H2. by rewrite Hfr.
  - unfold frame_count. rewrite (List.filter_ext _ (fun _ => false)) by done.
    cbn. rewrite Hframe. assert (forall l : list Z, List.filter (fun _ => false) l = []) as -> by (by induction l). cbn. lia.
  - intros t Ht Hf Hv. by destruct (Hnr t Hf).
Qed.

Lemma first_text l : la_ok s l -> text_ok s T global_reg G l (is_global s) (fun _ => false) first_tables.
Proof.
  intros Hla. constructor.
  - constructor; [apply first_wf|..]; intros t Ht.
    + intros Hf Hm. left. rewrite first_type, Hf. unfold canonical. by rewrite (Hla t Hm).
    + intros Hf _. by rewrite first_type, Hf.
    + intros Hg _. unfold readable. rewrite first_type. destruct (first_global t Hg) as (_ & _ & ->).
      destruct (fixed t) eqn:Hf; [done|]. unfold canonical. rewrite Hg. split; [done|]. intros _.
      by apply (t_slots _ _ _ _ HT).
  - intros t Ht. rewrite first_type. destruct (fixed t); [done|]. unfold canonical. by destruct (_ || _).
Qed.

(** The variables at the start of a block: the globals, where they are at
    home. *)
Definition globals_env (R : hregs) (M : hmem) : env :=
  fun t => if is_global s t then Some (low (temp_type s t) (home R M t)) else None.

Lemma globals_env_ok R M : env_ok s (globals_env R M).
Proof. intros t v. unfold globals_env. destruct (is_global s t); [|done]. intros [= <-]. apply low_range. Qed.

Lemma first_point stF l R M :
  at_point s T global_reg stF l first_tables (globals_env R M) R M.
Proof.
  assert (Hg : forall t, holds s (globals_env R M) t (home R M t)).
  { intros t. unfold holds, globals_env. destruct (is_global s t); [by right|by left]. }
  constructor; [constructor; [| |done]|].
  - intros t Ht _. unfold loc. rewrite first_type. destruct (fixed t) eqn:Hf.
    + destruct (first_global t) as (_ & -> & _); [by eapply fixed_global|].
      specialize (Hg t). unfold TcgHost.home in Hg. by rewrite Hf in Hg.
    + unfold canonical. destruct (is_global s t) eqn:Hgt; cbn [orb].
      * destruct (first_global t Hgt) as (-> & _ & _). intros _.
        specialize (Hg t). unfold TcgHost.home in Hg. by rewrite Hf in Hg.
      * destruct (temp_local s t); [|done]. by rewrite first_other.
  - intros t Ht Hf Hv. rewrite first_type, Hf in Hv. by apply canonical_not_reg in Hv.
  - intros t Ht _ [Hv Ha] _. destruct (is_global s t) eqn:Hgt; [|left; unfold globals_env; by rewrite Hgt].
    destruct (first_global t Hgt) as (_ & _ & Hal). rewrite Ha in Hal. rewrite first_type in Hv.
    destruct (fixed t) eqn:Hf; [done|]. destruct (t_slots _ _ _ _ HT t Hgt Hf). congruence.
Qed.

(** The tables of the allocator, from the first operation to the last. *)
Section Built.
Context {World : Type}.
Context (ext : TCGOpcode -> list Z -> list Z -> list Z -> World ->
               list Z -> list Z -> World -> bool -> Prop).
Context (Hmax : nb_temps s <= TCG_MAX_TEMPS).
Context (Hct : forall oc, op_present T oc = true -> ct_ok T oc).
Context (P : list TCGOp) (Hfit : block_fits s T global_reg (is_global s) (fun _ => false) P = true).

#[local] Abbreviation P_live := (tcg_liveness_analysis s HAS_muluh HAS_mulsh P).
#[local] Abbreviation P_left := (fst <$> P_live).

Definition laid_out (stF : astate) : Prop :=
  built s T global_reg G ext P_left (live_ops s HAS_muluh HAS_mulsh P).1 first_tables (out_code stF) stF.

Lemma few_temps : nb_temps s <= TCG_CALL_DUMMY_ARG.
Proof using Hmax. unfold TCG_MAX_TEMPS, TCG_CALL_DUMMY_ARG, all_ones in *. lia. Qed.

Lemma gen_code_built (lacking : Prop) :
  lacking \/ roomy s T -> lacking \/ forallb (supported T) P_left = true ->
  TcgAllocInv.ok lacking (gen_ops s T global_reg first_tables P_live) laid_out.
Proof.
  intros Hr Hsup. unfold laid_out, tcg_liveness_analysis.
  eapply ok_mono.
  - eapply (gen_ops_ok s T global_reg G Hctx HT ext lacking) with (D := is_global s) (K := fun _ => false);
      try done; try (intros; by destruct Hr as [|[]]; [left|right; eauto]); [by apply few_temps| |].
    + apply Forall_forall. intros oa Hoa. destruct Hsup as [|Hs]; [by left|right].
      rewrite forallb_forall in Hs. apply Hs, list_elem_of_In, list_elem_of_fmap. by exists oa.
    + apply first_text. eapply (live_ops_la s T global_reg); [apply few_temps|exact Hfit].
  - intros stF [c Hb]. destruct (built_tables s T global_reg G ext _ _ _ _ _ Hb first_wf) as (_ & _ & Hc).
    cbn in Hc. by subst c.
Qed.
End Built.
End Compile.

(** ** The theorems *)

(** What the tables and the host have to be when code is generated: see
    [tcg_func_start], [temp_allocate_frame] and [tcg_add_target_add_op_defs]. *)
Record host_ready (s : TCGContext) (T : TCGTarget) (global_reg : Z -> bool) (st : astate) : Prop := {
  hr_target : target_ok s T global_reg (s_temps st);
  hr_frame : current_frame_offset st = frame_start T;
  hr_cts : forall oc, op_present T oc = true -> ct_ok T oc;
}.

(** The blocks code is generated for: their operations are well formed, the
    text writes a variable other than a global before it uses it, and the
    flags of helper calls are in order ([sane_flags]): a helper that is flagged
    as without side effects is also flagged as not writing the globals, or as
    not reading them, which implies it.  src/target-cris/helper.h has helpers flagged only as
    without side effects; a block that calls one of these is not covered, and
    [lost_constant] of file [TcgX86] has one whose code is wrong. *)
Definition compilable (s : TCGContext) (T : TCGTarget) (global_reg : Z -> bool) (P : list TCGOp) : bool :=
  wf_ctx s && (nb_temps s <=? TCG_MAX_TEMPS) && block_ready s T global_reg (is_global s) P.

Lemma compilable_spec s T global_reg P :
  compilable s T global_reg P = true ->
  wf_block s P = true /\ nb_temps s <= TCG_MAX_TEMPS /\ block_ready s T global_reg (is_global s) P = true.
Proof.
  unfold compilable. rewrite !andb_true_iff, Z.leb_le. intros [[Hctx Hmax] Hrd]. split_and!; try done.
  apply wf_block_spec. split; [done|]. revert Hrd. generalize (is_global s).
  induction P as [|op P IH]; intros D; [constructor|]. cbn [block_ready].
  rewrite !andb_true_iff. intros [[(? & _)%op_ready_spec _] HP]. constructor; [done|by eapply IH].
Qed.

(** The optimiser leaves text the allocator can take. *)
Lemma optimised_text s T global_reg HAS_neg HAS_not temps P P' :
  wf_ctx s = true -> block_ready s T global_reg (is_global s) P = true ->
  optimised s HAS_neg HAS_not (reset_all_temps s temps) P P' ->
  block_fits s T global_reg (is_global s) (fun _ => false) P' = true.
Proof.
  intros Hctx Hrd Ho. eapply (optimised_fits s T global_reg HAS_neg HAS_not Hctx); try done; [apply possible_reset|].
  intros t Ht. split; [done|]. unfold is_copy, reset_all_temps. rewrite Ht. cbn. by rewrite bool_decide_eq_false_2.
Qed.

(** C4: Code generation ends with host code, or the host lacks something.  No
    assertion of the optimiser or the allocator fails and no loop goes on for
    ever: on a block that writes its temporaries before it uses them, code
    generation returns code or aborts, unless the optimiser folds a rotation
    or division C leaves undefined; and it does not abort where the host has
    the operations that are left of the block, registers for their operands
    and room in the frame. *)
Theorem tcg_gen_code_total s T global_reg HAS_neg HAS_not HAS_muluh HAS_mulsh temps st P :
  compilable s T global_reg P = true -> host_ready s T global_reg st ->
  let code := tcg_gen_code s T global_reg HAS_neg HAS_not HAS_muluh HAS_mulsh temps st P in
  (existsb (fun op => may_overflow (opc op)) P = true /\ code = Fault Undefined) \/
  exists P', tcg_optimize s HAS_neg HAS_not temps P = Ret P' /\
    (code = Fault tcg_abort \/ exists H, code = Ret H) /\
    (roomy s T -> forallb (supported T) (fst <$> tcg_liveness_analysis s HAS_muluh HAS_mulsh P') = true ->
     exists H, code = Ret H).
Proof.
  intros (HP & Hmax & Hrd)%compilable_spec [HT Hfr Hct] code. pose proof HP as [Hctx _]%wf_block_spec.
  unfold code, tcg_gen_code. clear code.
  destruct (tcg_optimize_cases s HAS_neg HAS_not temps P HP) as [[Hov ->]|(P' & -> & Hopt & _)]; [by left|right].
  exists P'. split; [done|]. pose proof (optimised_text _ _ _ _ _ _ _ _ Hctx Hrd Hopt) as Hfit.
  assert (Hok : forall lacking : Prop, lacking \/ roomy s T ->
    lacking \/ forallb (supported T) (fst <$> tcg_liveness_analysis s HAS_muluh HAS_mulsh P') = true ->
    TcgAllocInv.ok lacking (st ← gen_ops s T global_reg (code_start (tcg_reg_alloc_start s global_reg st))
      (tcg_liveness_analysis s HAS_muluh HAS_mulsh P'); Ret (out_code st)) (fun _ => True)).
  { intros lacking Hr Hs. eapply ok_bind'; [by eapply (gen_code_built s T global_reg st _ _ Hctx HT Hfr quiet_ext)|done]. }
  cbn [mbind outcome_bind] in *. split.
  - pose proof (Hok True (or_introl I) (or_introl I)) as Hk. revert Hk.
    destruct (gen_ops _ _ _ _ _) as [st'|f|]; cbn; [by right; eexists| |done]. intros [-> _]. by left.
  - intros Hr Hs. pose proof (Hok False (or_intror Hr) (or_intror Hs)) as Hk. revert Hk.
    destruct (gen_ops _ _ _ _ _) as [st'|f|]; cbn; [by eexists|by intros [_ []]|done].
Qed.

(** What the code may do, step by step: the tables of the allocator, the
    liveness analysis, the optimiser. *)
Lemma gen_code_sim s T global_reg HAS_neg HAS_not HAS_muluh HAS_mulsh {World : Type}
    (ext : TCGOpcode -> list Z -> list Z -> list Z -> World ->
           list Z -> list Z -> World -> bool -> Prop) `{!PureHelpers ext}
    temps st P H n R M m e R' M' m' :
  compilable s T global_reg P = true -> host_ready s T global_reg st ->
  tcg_gen_code s T global_reg HAS_neg HAS_not HAS_muluh HAS_mulsh temps st P = Ret H ->
  hrun s T global_reg (s_temps st) ext H n H R M m e R' M' m' ->
  let E := globals_env s global_reg st R M in
  exists E1 E2 E3,
    (e <> Crashed -> globals_home s global_reg (s_temps st) E1 R' M') /\
    agree_end s e E2 E1 /\ lessdef E3 E2 /\ run s ext P n P E m e E3 m'.
Proof.
  intros (HP & Hmax & Hrd)%compilable_spec [HT Hfr Hct] Hgen Hr E.
  unfold tcg_gen_code in Hgen.
  destruct (tcg_optimize_cases s HAS_neg HAS_not temps P HP) as [[_ Ho]|(P' & Ho & Hopt & HP1)];
    rewrite Ho in Hgen; cbn [mbind outcome_bind] in Hgen; [done|].
  apply wf_block_spec in HP as [Hctx HP]. apply wf_block_spec in HP1 as [_ HP1].
  pose proof (gen_code_built s T global_reg st HAS_muluh HAS_mulsh Hctx HT Hfr ext Hmax Hct P'
    (optimised_text _ _ _ _ _ _ _ _ Hctx Hrd Hopt) True (or_introl I) (or_introl I)) as Hb.
  fold (first_tables s global_reg st) in Hgen.
  destruct (gen_ops _ _ _ _ _) as [stF| |]; try discriminate Hgen. cbn in Hgen, Hb. injection Hgen as <-.
  pose proof (first_wf s T global_reg st HT Hfr) as Hw.
  destruct (built_sim s T global_reg (s_temps st) Hctx ext _ _ _ _ _ Hb Hw n _ _ _ _ _
    E R M m e R' M' m' Hb eq_refl Hw) as (E1 & Hr1 & Hh); [by apply first_point|done|].
  assert (Henv : env_ok s E) by apply globals_env_ok.
  destruct (live_sim_ok s HAS_muluh HAS_mulsh ext Hctx (few_temps s Hmax) P' n P' HP1 HP1
    E E m e E1 m') as (E2 & Hr2 & Ha); [intros t _ _; by right|done|done|].
  destruct (optimised_simulated s HAS_neg HAS_not ext P P' (reset_all_temps s temps) Hctx Hopt n
    (reset_all_temps s temps) P P' E E E m Hopt (inv_reset_all _ _ _ Henv)) with (e := e) (Et' := E2) (m' := m')
    as (E3 & Hr3 & Hl); try done; [by intros t; right..|].
  by exists E1, E2, E3.
Qed.

(** C1: The host code is correct.  Whatever the code does that is generated for
    a block, at any number of jumps, whatever it finds in registers and memory
    beside the globals, the block may do: the run ends at the same place with
    the same memory and helper calls, and unless it crashed every global is in
    its fixed register or its slot of memory, with the value it has there. *)
Theorem tcg_gen_code_refines s T global_reg HAS_neg HAS_not HAS_muluh HAS_mulsh {World : Type}
    (ext : TCGOpcode -> list Z -> list Z -> list Z -> World ->
           list Z -> list Z -> World -> bool -> Prop) `{!PureHelpers ext}
    temps st P H n R M m e R' M' m' :
  compilable s T global_reg P = true -> host_ready s T global_reg st ->
  tcg_gen_code s T global_reg HAS_neg HAS_not HAS_muluh HAS_mulsh temps st P = Ret H ->
  hrun s T global_reg (s_temps st) ext H n H R M m e R' M' m' ->
  exists E', run s ext P n P (globals_env s global_reg st R M) m e E' m' /\
    (e <> Crashed -> forall g, is_global s g = true -> holds s E' g (home s global_reg (s_temps st) R' M' g)).
Proof.
  intros HP Hh Hgen Hr. pose proof (compilable_spec _ _ _ _ HP) as ([Hctx _]%wf_block_spec & _ & _).
  destruct (gen_code_sim _ _ _ _ _ _ _ ext _ _ _ _ _ _ _ _ _ _ _ _ HP Hh Hgen Hr)
    as (E1 & E2 & E3 & Hg & Ha & Hl & Hr3).
  exists E3. split; [done|]. intros He g Hgg. specialize (Hg He g Hgg).
  assert (agree s (is_global s) E2 E1) as Ha' by (by destruct e).
  destruct (Hl g) as [Hg0|Hg0]; [by left|]. unfold holds in *. rewrite Hg0.
  destruct (Ha' g (global_in s Hctx g Hgg) Hgg) as [?|Hg1]; [by left|]. by rewrite Hg1.
Qed.

(** C39: The optimiser leaves text the register allocator can take.  Where a
    block writes its temporaries before it uses them, so does the optimised
    block, although copies have taken the place of variables and operations
    are gone; and no move from a constant is left. *)
Theorem tcg_optimize_fits s T global_reg HAS_neg HAS_not temps P P' :
  compilable s T global_reg P = true -> tcg_optimize s HAS_neg HAS_not temps P = Ret P' ->
  block_fits s T global_reg (is_global s) (fun _ => false) P' = true.
Proof.
  intros (HP & _ & Hrd)%compilable_spec Ho. pose proof HP as [Hctx _]%wf_block_spec.
  destruct (tcg_optimize_cases s HAS_neg HAS_not temps P HP) as [[_ ?]|(P1 & Ho1 & Hopt & _)]; [congruence|].
  assert (P1 = P') as -> by congruence. by eapply optimised_text.
Qed.
