(* ===== verification/TcgConstraints.v ===== *)
(** * Operand constraints

    [tcg_add_target_add_op_defs] of src/tcg/tcg.c: what a host says of the
    operands of its operations, as strings, becomes the constraints of the
    register allocator and the order in which it takes the operands.  The
    order is by priority, and a permutation of the outputs and one of the
    inputs. *)

From Stdlib Require Import Ascii String.
From S2P Require Import Prelude HostUtils BitField TcgOp TcgOpt TcgSem TcgLive TcgAlloc.

Definition TCG_CT_ALIAS : Z := 0x80.
Definition TCG_CT_IALIAS : Z := 0x40.
Definition TCG_CT_REG : Z := 0x01.
Definition TCG_CT_CONST : Z := 0x02.
Definition TCG_MAX_OP_ARGS : nat := 16.

(** [TCGArgConstraint] with its flags in one word. *)
Record arg_ct := mk_arg_ct {
  ct : Z;
  ct_alias_index : nat;
  u_regs : Z;
}.

Definition no_ct : arg_ct := mk_arg_ct 0 0 0.

Definition set_ct_flags (f : Z) (c : arg_ct) : arg_ct := mk_arg_ct f (ct_alias_index c) (u_regs c).
Definition set_alias (i : nat) (c : arg_ct) : arg_ct := mk_arg_ct (ct c) i (u_regs c).

Definition set_ct (cts : nat -> arg_ct) (i : nat) (c : arg_ct) : nat -> arg_ct := upd_arg cts i c.

Section Constraints.
(** [TCG_TARGET_NB_REGS], and the letters of the host; each is one
    character. *)
Context (nb_regs : nat).
Context (target_parse_constraint : arg_ct -> ascii -> option arg_ct).

(** ** Priorities *)

Definition get_constraint_priority (args_ct : nat -> arg_ct) (k : nat) : Z :=
  let arg_ct := args_ct k in
  if has_bits (ct arg_ct) TCG_CT_ALIAS then Z.of_nat nb_regs - 1 + 1
  else if negb (has_bits (ct arg_ct) TCG_CT_REG) then 0
  else
    let n := length (List.filter (fun i => Z.testbit (u_regs arg_ct) (Z.of_nat i)) (seq 0 nb_regs)) in
    Z.of_nat nb_regs - Z.of_nat n + 1.

(** The exchange in the inner loop of [sort_constraints]. *)
Definition sort_exchange (args_ct : nat -> arg_ct) (i : nat) (sorted_args : nat -> nat) (j : nat) : nat -> nat :=
  let p1 := get_constraint_priority args_ct (sorted_args i) in
  let p2 := get_constraint_priority args_ct (sorted_args j) in
  if p1 <? p2 then upd_arg (upd_arg sorted_args i (sorted_args j)) j (sorted_args i) else sorted_args.

Definition sort_constraints (args_ct : nat -> arg_ct) (start n : nat) (sorted_args : nat -> nat) : nat -> nat :=
  let sorted_args k := if (Nat.leb start k && Nat.ltb k (start + n))%nat then k else sorted_args k in
  if Nat.leb n 1 then sorted_args
  else
    fold_left (fun sorted_args i => fold_left (sort_exchange args_ct i) (seq (S i) (start + n - S i)) sorted_args)
      (seq start (n - 1)) sorted_args.

(** ** Strings *)

Definition digit_of (c : ascii) : option nat :=
  let n := nat_of_ascii c in
  if (Nat.leb 48 n && Nat.leb n 57)%nat then Some (n - 48)%nat else None.

(** The loop over the letters of a string.  An unknown letter ends the
    process with status 1. *)
Fixpoint parse_letters (c : arg_ct) (ct_str : string) : outcome arg_ct :=
  match ct_str with
  | EmptyString => Ret c
  | String l ct_str =>
    if Ascii.eqb l "i" then parse_letters (set_ct_flags (ct c ||| TCG_CT_CONST) c) ct_str
    else match target_parse_constraint c l with
         | Some c => parse_letters c ct_str
         | None => Fault (Exited 1)
         end
  end.

(** One string: an output to share the register of, or letters. *)
Definition parse_arg (nb_oargs : nat) (args_ct : nat -> arg_ct) (i : nat) (ct_str : string)
  : outcome (nat -> arg_ct) :=
  let args_ct := set_ct args_ct i (mk_arg_ct 0 (ct_alias_index (args_ct i)) 0) in
  let oarg := match ct_str with String c _ => digit_of c | EmptyString => None end in
  match oarg with
  | Some oarg =>
    if negb (Nat.ltb oarg nb_oargs) then Fault AssertFailed
    else if negb (has_bits (ct (args_ct oarg)) TCG_CT_REG) then Fault AssertFailed
    else
      let args_ct := set_ct args_ct i (args_ct oarg) in
      let args_ct := set_ct args_ct oarg (set_alias i (set_ct_flags TCG_CT_ALIAS (args_ct oarg))) in
      Ret (set_ct args_ct i (set_alias oarg (set_ct_flags (ct (args_ct i) ||| TCG_CT_IALIAS) (args_ct i))))
  | None => c ← parse_letters (args_ct i) ct_str; Ret (set_ct args_ct i c)
  end.

(** [ct_strs] is the array of strings up to the null pointer. *)
Fixpoint parse_args (nb_oargs n i : nat) (args_ct : nat -> arg_ct) (ct_strs : list string)
  : outcome (nat -> arg_ct) :=
  match n, ct_strs with
  | O, [] => Ret args_ct
  | O, _ :: _ => if Nat.eqb i TCG_MAX_OP_ARGS then Ret args_ct else Fault AssertFailed
  | S _, [] => Fault AssertFailed
  | S n, ct_str :: ct_strs =>
    args_ct ← parse_arg nb_oargs args_ct i ct_str;
    parse_args nb_oargs n (S i) args_ct ct_strs
  end.

(** One entry of the table of the host: constraints, and the order of the
    operands. *)
Definition add_op_def (def : TCGOpDef) (ct_strs : list string) : outcome ((nat -> arg_ct) * (nat -> nat)) :=
  args_ct ← parse_args (nb_oargs def) (nb_iargs def + nb_oargs def) 0 (fun _ => no_ct) ct_strs;
  let sorted_args := sort_constraints args_ct 0 (nb_oargs def) (fun _ => O) in
  let sorted_args := sort_constraints args_ct (nb_oargs def) (nb_iargs def) sorted_args in
  Ret (args_ct, sorted_args).

(** ** The order *)

Lemma fold_seq_ind {A} (I : nat -> A -> Prop) (g : A -> nat -> A) a n x :
  I a x -> (forall k y, (a <= k < a + n)%nat -> I k y -> I (S k) (g y k)) ->
  I (a + n)%nat (fold_left g (seq a n) x).
Proof using Type.
  revert a x. induction n as [|n IH]; intros a x H0 Hs; cbn [seq fold_left].
  - by rewrite Nat.add_0_r.
  - rewrite <- Nat.add_succ_comm. apply IH; [apply Hs; [lia|done]|]. intros k y Hk. apply Hs. lia.
Qed.

Section Order.
Context (args_ct : nat -> arg_ct) (start n : nat).
#[local] Abbreviation prio := (get_constraint_priority args_ct).

(** The operands from [start] on, each once; the others where they were. *)
Record arranged (f0 f : nat -> nat) : Prop := {
  ar_in : forall a, (start <= a < start + n)%nat -> (start <= f a < start + n)%nat;
  ar_inj : forall a b, (start <= a < start + n)%nat -> (start <= b < start + n)%nat -> f a = f b -> a = b;
  ar_out : forall a, ~ (start <= a < start + n)%nat -> f a = f0 a;
}.

(** The first operands, up to [i], are in their places. *)
Definition placed (f : nat -> nat) (i : nat) : Prop :=
  forall a b, (start <= a < i)%nat -> (a < b < start + n)%nat -> prio (f b) <= prio (f a).

Lemma upd_swap (f : nat -> nat) i j k :
  upd_arg (upd_arg f i (f j)) j (f i) k = if Nat.eqb k j then f i else if Nat.eqb k i then f j else f k.
Proof using Type. done. Qed.

Lemma exchange_arranged f0 f i j :
  arranged f0 f -> (start <= i < start + n)%nat -> (start <= j < start + n)%nat ->
  arranged f0 (sort_exchange args_ct i f j).
Proof using Type.
  intros [H1 H2 H3] Hi Hj. unfold sort_exchange. destruct (_ <? _); [|by constructor]. constructor.
  - intros a Ha. rewrite upd_swap. destruct (Nat.eqb a j); [by apply H1|]. destruct (Nat.eqb a i); by apply H1.
  - intros a b Ha Hb. rewrite !upd_swap.
    destruct (Nat.eqb_spec a j), (Nat.eqb_spec b j), (Nat.eqb_spec a i), (Nat.eqb_spec b i); subst; try done;
      intros Heq; apply H2 in Heq; congruence.
  - intros a Ha. rewrite upd_swap. destruct (Nat.eqb_spec a j); [subst; done|]. destruct (Nat.eqb_spec a i); [subst; done|].
    by apply H3.
Qed.

Lemma exchange_placed f i j :
  placed f i -> (start <= i < j)%nat -> (j < start + n)%nat ->
  (forall b, (i < b < j)%nat -> prio (f b) <= prio (f i)) ->
  let f' := sort_exchange args_ct i f j in
  placed f' i /\ forall b, (i < b < S j)%nat -> prio (f' b) <= prio (f' i).
Proof using Type.
  intros Hp Hij Hj Hb. unfold sort_exchange. destruct (Z.ltb_spec (prio (f i)) (prio (f j))) as [Hlt|Hle]; cbn zeta.
  - split.
    + intros a b Ha Hab. rewrite !upd_swap. destruct (Nat.eqb_spec a j); [lia|]. destruct (Nat.eqb_spec a i); [lia|].
      destruct (Nat.eqb b j); [apply Hp; lia|]. destruct (Nat.eqb b i); apply Hp; lia.
    + intros b Hbj. rewrite !upd_swap. rewrite Nat.eqb_refl. destruct (Nat.eqb_spec i j); [lia|].
      destruct (Nat.eqb_spec b j); [lia|]. destruct (Nat.eqb_spec b i); [lia|].
      specialize (Hb b ltac:(lia)). lia.
  - split; [done|]. intros b Hbj. destruct (decide (b = j)) as [->|]; [done|]. apply Hb. lia.
Qed.

Lemma inner_sorts f0 f i :
  arranged f0 f -> placed f i -> (start <= i < start + n)%nat ->
  let f' := fold_left (sort_exchange args_ct i) (seq (S i) (start + n - S i)) f in
  arranged f0 f' /\ placed f' (S i).
Proof using Type.
  intros Ha Hp Hi f'.
  pose proof (fold_seq_ind (fun k f => arranged f0 f /\ placed f i /\
    forall b, (i < b < k)%nat -> prio (f b) <= prio (f i)) (sort_exchange args_ct i) (S i) (start + n - S i) f) as Hind.
  cbv beta in Hind. fold f' in Hind. replace (S i + (start + n - S i))%nat with (start + n)%nat in Hind by lia.
  destruct Hind as (H1 & H2 & H3).
  - split_and!; [done..|]. lia.
  - intros k g Hk (G1 & G2 & G3). destruct (exchange_placed g i k) as [E1 E2]; try done; [lia..|].
    split_and!; [|done..]. apply exchange_arranged; [done|lia..].
  - split; [done|]. intros a b Ha' Hab. destruct (decide (a = i)) as [->|]; [by apply H3|]. apply H2; lia.
Qed.

Lemma sort_constraints_ok f0 :
  let f := sort_constraints args_ct start n f0 in
  arranged f0 f /\ placed f (start + n).
Proof using Type.
  unfold sort_constraints. set (f1 := fun k => _).
  assert (Ha : arranged f0 f1).
  { assert (Hin : forall a, (start <= a < start + n)%nat -> f1 a = a).
    { intros a [H1%Nat.leb_le H2%Nat.ltb_lt]. unfold f1. by rewrite H1, H2. }
    constructor.
    - intros a H. by rewrite Hin.
    - intros a b H1 H2. by rewrite !Hin.
    - intros a H. unfold f1. destruct (Nat.leb_spec start a), (Nat.ltb_spec a (start + n)); cbn; done || lia. }
  destruct (Nat.leb_spec n 1) as [H1|H1]; [split; [done|]; intros a b; lia|].
  pose proof (fold_seq_ind (fun k f => arranged f0 f /\ placed f k)
    (fun f i => fold_left (sort_exchange args_ct i) (seq (S i) (start + n - S i)) f) start (n - 1) f1) as Hind.
  cbv beta in Hind. destruct Hind as [G1 G2].
  - split; [done|]. intros a b. lia.
  - intros k g Hk [G1 G2]. apply inner_sorts; [done..|lia].
  - split; [done|]. intros a b Ha' Hab. apply G2; lia.
Qed.

(** The operands in order are those from [start] on. *)
Lemma arranged_perm f0 f : arranged f0 f -> map f (seq start n) ≡ₚ seq start n.
Proof using Type.
  intros [H1 H2 _]. apply submseteq_length_Permutation; [|by rewrite length_map].
  assert (Hnd : NoDup (map f (seq start n))).
  { apply NoDup_alt. intros i j x Hi Hj. rewrite list_lookup_fmap in Hi, Hj.
    apply fmap_Some in Hi as (a & Ha & ->), Hj as (b & Hb & Heq). apply lookup_seq in Ha as [-> ?], Hb as [-> ?].
    apply H2 in Heq; lia. }
  apply NoDup_submseteq; [done|]. intros x (a & -> & Ha%elem_of_seq)%list_elem_of_fmap.
  apply elem_of_seq. by apply H1.
Qed.
End Order.

(** ** Shared registers *)

Definition is_alias (c : arg_ct) : bool := has_bits (ct c) TCG_CT_ALIAS.
Definition is_ialias (c : arg_ct) : bool := has_bits (ct c) TCG_CT_IALIAS.

Definition starts_with_digit (ct_str : string) : bool :=
  match ct_str with String c _ => bool_decide (is_Some (digit_of c)) | EmptyString => false end.

(** The letters of the host are about registers and constants. *)
Context (Hletters : forall c l c', target_parse_constraint c l = Some c' ->
  is_alias c' = is_alias c /\ is_ialias c' = is_ialias c).

Lemma has_bits_lor x m k : m &&& k = 0 -> has_bits (x ||| m) k = has_bits x k.
Proof using Type. intros H. unfold has_bits. by rewrite Z.land_lor_distr_l, H, Z.lor_0_r. Qed.

Lemma parse_letters_ok str : forall c c', parse_letters c str = Ret c' ->
  is_alias c' = is_alias c /\ is_ialias c' = is_ialias c.
Proof using Hletters.
  induction str as [|l str IH]; intros c c'; cbn [parse_letters]; [by intros [= <-]|].
  destruct (Ascii.eqb l "i").
  - intros (-> & ->)%IH. unfold is_alias, is_ialias. cbn [ct set_ct_flags]. by rewrite !has_bits_lor.
  - destruct (target_parse_constraint c l) as [c1|] eqn:Hc; [|done]. intros (-> & ->)%IH. by apply Hletters in Hc.
Qed.

(** Operands up to [i] that share a register name each other. *)
Record paired (no : nat) (cts : nat -> arg_ct) (i : nat) : Prop := {
  pa_later : forall k, (i <= k)%nat -> ct (cts k) = 0;
  pa_alias : forall o, is_alias (cts o) = true -> ct (cts o) = TCG_CT_ALIAS /\ (o < no)%nat /\
    (no <= ct_alias_index (cts o) < i)%nat /\ is_ialias (cts (ct_alias_index (cts o))) = true /\
    ct_alias_index (cts (ct_alias_index (cts o))) = o;
  pa_ialias : forall j, is_ialias (cts j) = true -> (no <= j < i)%nat /\ (ct_alias_index (cts j) < no)%nat /\
    is_alias (cts (ct_alias_index (cts j))) = true /\ ct_alias_index (cts (ct_alias_index (cts j))) = j;
}.

Lemma upd_arg_eq {A} (f : nat -> A) i v : upd_arg f i v i = v.
Proof using Type. unfold upd_arg. by rewrite Nat.eqb_refl. Qed.

Lemma upd_arg_ne {A} (f : nat -> A) i v j : j <> i -> upd_arg f i v j = f j.
Proof using Type. intros. unfold upd_arg. by destruct (Nat.eqb_spec j i). Qed.

(** Letters: the operand shares no register. *)
Lemma paired_plain no cts cts' i :
  paired no cts i -> (forall k, k <> i -> cts' k = cts k) ->
  is_alias (cts' i) = false -> is_ialias (cts' i) = false -> paired no cts' (S i).
Proof using Type.
  intros [H1 H2 H3] He Ha Hi.
  assert (Hi0 : is_ialias (cts i) = false /\ is_alias (cts i) = false).
  { unfold is_ialias, is_alias. by rewrite H1 by lia. }
  constructor.
  - intros k Hk. rewrite He by lia. apply H1. lia.
  - intros o Ho. assert (o <> i) as Hne by congruence. rewrite He in Ho |- * by done.
    destruct (H2 o Ho) as (? & ? & ? & ? & ?). rewrite He by lia. split_and!; done || lia.
  - intros j Hj. assert (j <> i) as Hne by congruence. rewrite He in Hj |- * by done.
    destruct (H3 j Hj) as (? & ? & Hal & ?).
    assert (ct_alias_index (cts j) <> i) as Hni by (destruct Hi0; congruence). rewrite He by done. split_and!; done || lia.
Qed.

(** A digit: the operand and the output name each other. *)
Lemma paired_shared no cts cts' i o :
  paired no cts i -> (no <= i)%nat -> (o < no)%nat -> has_bits (ct (cts o)) TCG_CT_REG = true ->
  (forall k, k <> i -> k <> o -> cts' k = cts k) ->
  ct (cts' o) = TCG_CT_ALIAS -> ct_alias_index (cts' o) = i ->
  ct (cts' i) = ct (cts o) ||| TCG_CT_IALIAS -> ct_alias_index (cts' i) = o -> paired no cts' (S i).
Proof using Type.
  intros [H1 H2 H3] Hi Ho Hreg He Ho1 Ho2 Hi1 Hi2.
  assert (Hoa : is_alias (cts o) = false).
  { apply not_true_is_false. intros Ha. destruct (H2 o Ha) as (Hct & _). by rewrite Hct in Hreg. }
  assert (Hoi : is_ialias (cts o) = false).
  { apply not_true_is_false. intros Ha. destruct (H3 o Ha). lia. }
  assert (Hia : is_alias (cts' i) = false).
  { unfold is_alias in *. rewrite Hi1, has_bits_lor by done. done. }
  assert (Hii : is_ialias (cts' i) = true).
  { unfold is_ialias, has_bits. rewrite Hi1, Z.land_lor_distr_l. apply negb_true_iff, Z.eqb_neq.
    intros [_ H]%Z.lor_eq_0_iff. discriminate H. }
  assert (Hoi' : is_ialias (cts' o) = false /\ is_alias (cts' o) = true) by (unfold is_ialias, is_alias; by rewrite Ho1).
  assert (Hi0 : is_ialias (cts i) = false /\ is_alias (cts i) = false).
  { unfold is_ialias, is_alias. by rewrite H1 by lia. }
  constructor.
  - intros k Hk. rewrite He by lia. apply H1. lia.
  - intros k Hk. destruct (decide (k = o)) as [->|Hko].
    + rewrite Ho2. split_and!; done || lia.
    + assert (k <> i) as Hki by congruence. rewrite He in Hk |- * by done.
      destruct (H2 k Hk) as (? & ? & ? & Hial & Hback).
      assert (ct_alias_index (cts k) <> o) as Hno by congruence. rewrite He by lia. split_and!; done || lia.
  - intros j Hj. destruct (decide (j = i)) as [->|Hji].
    + rewrite Hi2. destruct Hoi'. split_and!; done || lia.
    + assert (j <> o) as Hjo by (destruct Hoi'; congruence). rewrite He in Hj |- * by done.
      destruct (H3 j Hj) as (? & ? & Hal & Hback).
      assert (ct_alias_index (cts j) <> o) as Hno by congruence.
      assert (ct_alias_index (cts j) <> i) as Hni by (destruct Hi0; congruence).
      rewrite He by done. split_and!; done || lia.
Qed.

Lemma parse_arg_ok no cts i str cts' :
  paired no cts i -> ((i < no)%nat -> starts_with_digit str = false) ->
  parse_arg no cts i str = Ret cts' -> paired no cts' (S i).
Proof using Hletters.
  intros Hp Hd. unfold parse_arg, set_ct. set (cts1 := upd_arg cts i _).
  assert (H1 : forall k, k <> i -> cts1 k = cts k) by (intros k Hk; by apply upd_arg_ne).
  assert (H1i : cts1 i = mk_arg_ct 0 (ct_alias_index (cts i)) 0) by apply upd_arg_eq.
  destruct (match str with EmptyString => None | String c _ => digit_of c end) as [o|] eqn:Ho.
  - assert (Hdi : starts_with_digit str = true).
    { unfold starts_with_digit. destruct str as [|c str]; [done|]. rewrite Ho. by apply bool_decide_eq_true. }
    assert (Hi : (no <= i)%nat) by (destruct (decide (i < no)%nat) as [Hlt|]; [rewrite Hd in Hdi by done; done|lia]).
    destruct (Nat.ltb_spec o no) as [Hlt|]; cbn [negb]; [|done].
    destruct (has_bits (ct (cts1 o)) TCG_CT_REG) eqn:Hreg; cbn [negb]; [|done]. intros [= <-].
    assert (o <> i) as Hne by lia. rewrite H1 in Hreg by done.
    eapply (paired_shared no cts _ i o); try done.
    + intros k Hk1 Hk2. rewrite !upd_arg_ne by done. by apply H1.
    + rewrite !(upd_arg_ne _ i) by done. by rewrite upd_arg_eq.
    + rewrite !(upd_arg_ne _ i) by done. by rewrite upd_arg_eq.
    + rewrite upd_arg_eq. cbn [ct set_alias set_ct_flags]. rewrite upd_arg_ne, upd_arg_eq by done. by rewrite H1.
    + by rewrite upd_arg_eq.
  - destruct (parse_letters (cts1 i) str) as [c| |] eqn:Hl; try done. intros [= <-].
    apply parse_letters_ok in Hl as [Ha Hi]. rewrite H1i in Ha, Hi.
    eapply (paired_plain no cts); try done.
    + intros k Hk. rewrite upd_arg_ne by done. by apply H1.
    + by rewrite upd_arg_eq, Ha.
    + by rewrite upd_arg_eq, Hi.
Qed.

Lemma parse_args_ok no n : forall i cts strs cts',
  paired no cts i -> Forall (fun str => starts_with_digit str = false) (firstn (no - i) strs) ->
  parse_args no n i cts strs = Ret cts' -> paired no cts' (i + n).
Proof using Hletters.
  induction n as [|n IH]; intros i cts strs cts' Hp Hd; destruct strs as [|str strs]; cbn [parse_args]; try done.
  - intros [= <-]. by rewrite Nat.add_0_r.
  - destruct (Nat.eqb i TCG_MAX_OP_ARGS); [|done]. intros [= <-]. by rewrite Nat.add_0_r.
  - destruct (parse_arg no cts i str) as [cts1| |] eqn:Ha; cbn [mbind outcome_bind]; try done.
    intros H. rewrite <- Nat.add_succ_comm. eapply (IH (S i)); [| |exact H].
    + eapply parse_arg_ok; [done| |done]. intros Hi. destruct (no - i)%nat eqn:E; [lia|].
      cbn in Hd. by apply Forall_cons_1 in Hd as [? _].
    + destruct (no - i)%nat as [|m] eqn:E; [replace (no - S i)%nat with 0%nat by lia; constructor|].
      replace (no - S i)%nat with m by lia. cbn in Hd. by apply Forall_cons_1 in Hd as [_ ?].
Qed.

Definition outputs_plain (def : TCGOpDef) (ct_strs : list string) : bool :=
  forallb (fun str => negb (starts_with_digit str)) (firstn (nb_oargs def) ct_strs).

(** What an entry leads to. *)
Record entry_ok (def : TCGOpDef) (cts : nat -> arg_ct) (order : nat -> nat) : Prop := {
  eo_outs : map order (seq 0 (nb_oargs def)) ≡ₚ seq 0 (nb_oargs def);
  eo_ins : map order (seq (nb_oargs def) (nb_iargs def)) ≡ₚ seq (nb_oargs def) (nb_iargs def);
  eo_outs_order : forall a b, (a < b < nb_oargs def)%nat ->
    get_constraint_priority cts (order b) <= get_constraint_priority cts (order a);
  eo_ins_order : forall a b, (nb_oargs def <= a < b)%nat -> (b < nb_oargs def + nb_iargs def)%nat ->
    get_constraint_priority cts (order b) <= get_constraint_priority cts (order a);
  eo_paired : paired (nb_oargs def) cts (nb_iargs def + nb_oargs def);
}.

Lemma add_op_def_entry def ct_strs cts order :
  outputs_plain def ct_strs = true -> add_op_def def ct_strs = Ret (cts, order) -> entry_ok def cts order.
Proof using Hletters.
  unfold outputs_plain, add_op_def. intros Hd.
  destruct (parse_args _ _ _ _ _) as [cts1| |] eqn:Hp; cbn [mbind outcome_bind]; try done. intros [= <- <-].
  set (f1 := sort_constraints cts1 0 (nb_oargs def) (fun _ => O)).
  set (f2 := sort_constraints cts1 (nb_oargs def) (nb_iargs def) f1).
  destruct (sort_constraints_ok cts1 0 (nb_oargs def) (fun _ => O)) as [A1 P1]. fold f1 in A1, P1.
  destruct (sort_constraints_ok cts1 (nb_oargs def) (nb_iargs def) f1) as [A2 P2]. fold f2 in A2, P2.
  assert (Hout : forall a, (a < nb_oargs def)%nat -> f2 a = f1 a) by (intros a Ha; apply (ar_out _ _ _ _ A2); lia).
  constructor.
  - rewrite (map_ext_in f2 f1); [by eapply arranged_perm|]. intros a Ha%in_seq. apply Hout. lia.
  - by eapply arranged_perm.
  - intros a b Hab. rewrite !Hout by lia. apply P1; lia.
  - intros a b Hab Hb. apply P2; lia.
  - apply (parse_args_ok (nb_oargs def) (nb_iargs def + nb_oargs def) 0 (fun _ => no_ct) ct_strs); [| |exact Hp].
    + constructor; try done.
    + rewrite Nat.sub_0_r. apply List.Forall_forall. intros str Hs. rewrite forallb_forall in Hd.
      by apply negb_true_iff, Hd.
Qed.
End Constraints.

(** C40: The constraints of an operation are well formed.  Whatever strings a
    host gives that [tcg_add_target_add_op_defs] takes, with letters for the
    outputs: the order of the operands has every output and then every input
    once, each of them by descending priority; and an output shares its
    register with an input exactly if the input names it, with the two naming
    each other. *)
Theorem add_op_def_ok nb_regs (target_parse_constraint : arg_ct -> ascii -> option arg_ct) def ct_strs cts order :
  (forall c l c', target_parse_constraint c l = Some c' -> is_alias c' = is_alias c /\ is_ialias c' = is_ialias c) ->
  outputs_plain def ct_strs = true ->
  add_op_def nb_regs target_parse_constraint def ct_strs = Ret (cts, order) ->
  let no := nb_oargs def in
  let prio := get_constraint_priority nb_regs cts in
  (map order (seq 0 no) ≡ₚ seq 0 no /\ map order (seq no (nb_iargs def)) ≡ₚ seq no (nb_iargs def)) /\
  (forall a b, (a < b < no)%nat -> prio (order b) <= prio (order a)) /\
  (forall a b, (no <= a < b)%nat -> (b < no + nb_iargs def)%nat -> prio (order b) <= prio (order a)) /\
  (forall o i, is_alias (cts o) = true /\ ct_alias_index (cts o) = i <->
     is_ialias (cts i) = true /\ ct_alias_index (cts i) = o) /\
  (forall o, is_alias (cts o) = true -> (o < no <= ct_alias_index (cts o))%nat).
Proof.
  intros Hl Hp Ha. destruct (add_op_def_entry nb_regs _ Hl def ct_strs cts order Hp Ha) as [H1 H2 H3 H4 [_ P1 P2]].
  split_and!; try done.
  - intros o i. split; intros [Hal <-].
    + destruct (P1 o Hal) as (_ & _ & _ & ? & ?). done.
    + destruct (P2 i Hal) as (_ & _ & ? & ?). done.
  - intros o Ho. destruct (P1 o Ho) as (_ & ? & ? & _). lia.
Qed.
