(* ===== verification/TcgX86.v ===== *)
(** * The x86-64 host

    What src/tcg/i386/tcg-target.c and src/tcg/i386/tcg-target.h tell the
    register allocator of a 64-bit x86 host with the calling convention of
    System V: registers, their order, calls, the frame, the operations the
    host has and the constraints on their operands.  The host meets what the
    correctness of the generated code relies on, and lacks no register. *)

From Stdlib Require Import Ascii String.
From S2P Require Import Prelude HostUtils BitField TcgOp TcgOpt TcgSem TcgLive TcgAlloc TcgHost TcgConstraints.
From S2P Require Import TcgInv TcgFold TcgGood TcgCorrect TcgOptimize TcgFrame TcgLiveness TcgAllocInv TcgAllocMove.
From S2P Require Import TcgAllocLive TcgAllocOp TcgAllocRun TcgGenCode TcgText TcgCompile.

(** ** Registers *)

Definition TCG_REG_RAX : Z := 0.
Definition TCG_REG_RCX : Z := 1.
Definition TCG_REG_RDX : Z := 2.
Definition TCG_REG_RBX : Z := 3.
Definition TCG_REG_RSP : Z := 4.
Definition TCG_REG_RBP : Z := 5.
Definition TCG_REG_RSI : Z := 6.
Definition TCG_REG_RDI : Z := 7.
Definition TCG_REG_R8 : Z := 8.
Definition TCG_REG_R9 : Z := 9.
Definition TCG_REG_R10 : Z := 10.
Definition TCG_REG_R11 : Z := 11.
Definition TCG_REG_R12 : Z := 12.
Definition TCG_REG_R13 : Z := 13.
Definition TCG_REG_R14 : Z := 14.
Definition TCG_REG_R15 : Z := 15.
Definition TCG_AREG0 : Z := TCG_REG_R14.

Definition x86_reg_alloc_order : list Z :=
  [TCG_REG_RBP; TCG_REG_RBX; TCG_REG_R12; TCG_REG_R13; TCG_REG_R14; TCG_REG_R15; TCG_REG_R10; TCG_REG_R11;
   TCG_REG_R9; TCG_REG_R8; TCG_REG_RCX; TCG_REG_RDX; TCG_REG_RSI; TCG_REG_RDI; TCG_REG_RAX].

Definition x86_call_iarg_regs : list Z :=
  [TCG_REG_RDI; TCG_REG_RSI; TCG_REG_RDX; TCG_REG_RCX; TCG_REG_R8; TCG_REG_R9].

Definition x86_call_oarg_regs : list Z := [TCG_REG_RAX].

(** [tcg_target_init]: registers calls clobber, and those not to allocate. *)
Definition x86_call_clobber_regs : Z :=
  fold_left set_regset
    [TCG_REG_RAX; TCG_REG_RDX; TCG_REG_RCX; TCG_REG_RDI; TCG_REG_RSI; TCG_REG_R8; TCG_REG_R9;
     TCG_REG_R10; TCG_REG_R11] 0.

Definition x86_reserved_regs : Z := set_regset 0 TCG_REG_RSP.

(** ** Constraints *)

Definition TCG_CT_CONST_S32 : Z := 0x100.
Definition TCG_CT_CONST_U32 : Z := 0x200.
Definition TCG_CT_CONST_I32 : Z := 0x400.

Definition regset_reset_reg (set r : Z) : Z := Z.ldiff set (1 << r).

Definition x86_parse_constraint (have_bmi2 : bool) (c : arg_ct) (l : ascii) : option arg_ct :=
  let reg r := Some (mk_arg_ct (ct c ||| TCG_CT_REG) (ct_alias_index c) (set_regset (u_regs c) r)) in
  let regs m := Some (mk_arg_ct (ct c ||| TCG_CT_REG) (ct_alias_index c) (m (u_regs c))) in
  let flag f := Some (mk_arg_ct (ct c ||| f) (ct_alias_index c) (u_regs c)) in
  (if Ascii.eqb l "a" then reg TCG_REG_RAX
   else if Ascii.eqb l "b" then reg TCG_REG_RBX
   else if Ascii.eqb l "c" then reg TCG_REG_RCX
   else if Ascii.eqb l "d" then reg TCG_REG_RDX
   else if Ascii.eqb l "S" then reg TCG_REG_RSI
   else if Ascii.eqb l "D" then reg TCG_REG_RDI
   else if Ascii.eqb l "q" then regs (fun d => d ||| 0xffff)
   else if Ascii.eqb l "Q" then regs (fun d => d ||| 0xf)
   else if Ascii.eqb l "r" then regs (fun d => d ||| 0xffff)
   else if Ascii.eqb l "C" then if have_bmi2 then regs (fun d => d ||| 0xffff) else reg TCG_REG_RCX
   else if Ascii.eqb l "L" then regs (fun d => regset_reset_reg (regset_reset_reg (d ||| 0xffff) TCG_REG_RDI) TCG_REG_RSI)
   else if Ascii.eqb l "e" then flag TCG_CT_CONST_S32
   else if Ascii.eqb l "Z" then flag TCG_CT_CONST_U32
   else if Ascii.eqb l "I" then flag TCG_CT_CONST_I32
   else None)%char.

(** [val] is a 64-bit signed number. *)
Definition x86_const_match (c : arg_ct) (val : Z) : bool :=
  has_bits (ct c) TCG_CT_CONST ||
  has_bits (ct c) TCG_CT_CONST_S32 && (s64 val =? s32 val) ||
  has_bits (ct c) TCG_CT_CONST_U32 && (s64 val =? u32 val) ||
  has_bits (ct c) TCG_CT_CONST_I32 && (Z.lnot (s64 val) =? s32 (Z.lnot val)).

(** ** Operations *)

(** Opcodes the optimiser knows only by their rows in src/tcg/tcg-opc.h, with
    their numbers. *)
Definition INDEX_op_ld8s_i32 : TCGOpcode := INDEX_op_other 9 (row 1 1 1 false false).
Definition INDEX_op_ld16s_i32 : TCGOpcode := INDEX_op_other 11 (row 1 1 1 false false).
Definition INDEX_op_ld_i32 : TCGOpcode := INDEX_op_other 12 (row 1 1 1 false false).
Definition INDEX_op_st8_i32 : TCGOpcode := INDEX_op_other 13 (row 0 2 1 false false).
Definition INDEX_op_st16_i32 : TCGOpcode := INDEX_op_other 14 (row 0 2 1 false false).
Definition INDEX_op_st_i32 : TCGOpcode := INDEX_op_other 15 (row 0 2 1 false false).
Definition INDEX_op_div2_i32 : TCGOpcode := INDEX_op_other 23 (row 2 3 0 false false).
Definition INDEX_op_divu2_i32 : TCGOpcode := INDEX_op_other 24 (row 2 3 0 false false).
Definition INDEX_op_bswap16_i32 : TCGOpcode := INDEX_op_other 47 (row 1 1 0 false false).
Definition INDEX_op_bswap32_i32 : TCGOpcode := INDEX_op_other 48 (row 1 1 0 false false).
Definition INDEX_op_ld8s_i64 : TCGOpcode := INDEX_op_other 61 (row 1 1 1 false true).
Definition INDEX_op_ld16s_i64 : TCGOpcode := INDEX_op_other 63 (row 1 1 1 false true).
Definition INDEX_op_ld32s_i64 : TCGOpcode := INDEX_op_other 65 (row 1 1 1 false true).
Definition INDEX_op_ld_i64 : TCGOpcode := INDEX_op_other 66 (row 1 1 1 false true).
Definition INDEX_op_st8_i64 : TCGOpcode := INDEX_op_other 67 (row 0 2 1 false true).
Definition INDEX_op_st16_i64 : TCGOpcode := INDEX_op_other 68 (row 0 2 1 false true).
Definition INDEX_op_st32_i64 : TCGOpcode := INDEX_op_other 69 (row 0 2 1 false true).
Definition INDEX_op_st_i64 : TCGOpcode := INDEX_op_other 70 (row 0 2 1 false true).
Definition INDEX_op_div2_i64 : TCGOpcode := INDEX_op_other 78 (row 2 3 0 false true).
Definition INDEX_op_divu2_i64 : TCGOpcode := INDEX_op_other 79 (row 2 3 0 false true).
Definition INDEX_op_bswap16_i64 : TCGOpcode := INDEX_op_other 97 (row 1 1 0 false true).
Definition INDEX_op_bswap32_i64 : TCGOpcode := INDEX_op_other 98 (row 1 1 0 false true).
Definition INDEX_op_bswap64_i64 : TCGOpcode := INDEX_op_other 99 (row 1 1 0 false true).
Definition INDEX_op_exit_tb : TCGOpcode := INDEX_op_other 114 (row 0 0 1 true false).
Definition INDEX_op_goto_tb : TCGOpcode := INDEX_op_other 115 (row 0 0 1 true false).
Definition INDEX_op_qemu_st_i32 : TCGOpcode := INDEX_op_other 117 (mk_def 0 2 2 false false true true).
Definition INDEX_op_qemu_st_i64 : TCGOpcode := INDEX_op_other 119 (mk_def 0 2 2 false true true true).

Definition x86_others : list TCGOpcode :=
  [INDEX_op_ld8s_i32; INDEX_op_ld16s_i32; INDEX_op_ld_i32; INDEX_op_st8_i32; INDEX_op_st16_i32;
   INDEX_op_st_i32; INDEX_op_div2_i32; INDEX_op_divu2_i32; INDEX_op_bswap16_i32; INDEX_op_bswap32_i32;
   INDEX_op_ld8s_i64; INDEX_op_ld16s_i64; INDEX_op_ld32s_i64; INDEX_op_ld_i64; INDEX_op_st8_i64;
   INDEX_op_st16_i64; INDEX_op_st32_i64; INDEX_op_st_i64; INDEX_op_div2_i64; INDEX_op_divu2_i64;
   INDEX_op_bswap16_i64; INDEX_op_bswap32_i64; INDEX_op_bswap64_i64; INDEX_op_exit_tb; INDEX_op_goto_tb;
   INDEX_op_qemu_st_i32; INDEX_op_qemu_st_i64].

(** The operations without [TCG_OPF_NOT_PRESENT].  [andc] is one although it
    takes BMI1: [have_bmi1] is no constant. *)
Definition x86_op_present (oc : TCGOpcode) : bool :=
  match oc with
  | INDEX_op_discard | INDEX_op_set_label | INDEX_op_call | INDEX_op_mov _ | INDEX_op_movi _
  | INDEX_op_debug_insn_start => false
  | INDEX_op_brcond2_i32 | INDEX_op_setcond2_i32 | INDEX_op_trunc_shr_i32 => false
  | INDEX_op_bin b _ =>
    match b with
    | op_div | op_divu | op_rem | op_remu | op_orc | op_eqv | op_nand | op_nor | op_muluh | op_mulsh => false
    | _ => true
    end
  | INDEX_op_un u w =>
    match u, w with op_ext32s, W32 | op_ext32u, W32 => false | _, _ => true end
  | INDEX_op_other _ _ => bool_decide (oc ∈ x86_others)
  | _ => true
  end.

Definition x86_op_defs : list (TCGOpcode * list string) :=
  [(INDEX_op_exit_tb, []); (INDEX_op_goto_tb, []); (INDEX_op_br, []); (INDEX_op_ld8u W32, ["r"; "r"]);
   (INDEX_op_ld8s_i32, ["r"; "r"]); (INDEX_op_ld16u W32, ["r"; "r"]); (INDEX_op_ld16s_i32, ["r"; "r"]);
   (INDEX_op_ld_i32, ["r"; "r"]); (INDEX_op_st8_i32, ["qi"; "r"]); (INDEX_op_st16_i32, ["ri"; "r"]);
   (INDEX_op_st_i32, ["ri"; "r"]); (INDEX_op_bin op_add W32, ["r"; "r"; "ri"]);
   (INDEX_op_bin op_sub W32, ["r"; "0"; "ri"]); (INDEX_op_bin op_mul W32, ["r"; "0"; "ri"]);
   (INDEX_op_div2_i32, ["a"; "d"; "0"; "1"; "r"]); (INDEX_op_divu2_i32, ["a"; "d"; "0"; "1"; "r"]);
   (INDEX_op_bin op_and W32, ["r"; "0"; "ri"]); (INDEX_op_bin op_or W32, ["r"; "0"; "ri"]);
   (INDEX_op_bin op_xor W32, ["r"; "0"; "ri"]); (INDEX_op_bin op_andc W32, ["r"; "r"; "ri"]);
   (INDEX_op_bin op_shl W32, ["r"; "0"; "Ci"]); (INDEX_op_bin op_shr W32, ["r"; "0"; "Ci"]);
   (INDEX_op_bin op_sar W32, ["r"; "0"; "Ci"]); (INDEX_op_bin op_rotl W32, ["r"; "0"; "ci"]);
   (INDEX_op_bin op_rotr W32, ["r"; "0"; "ci"]); (INDEX_op_brcond W32, ["r"; "ri"]);
   (INDEX_op_bswap16_i32, ["r"; "0"]); (INDEX_op_bswap32_i32, ["r"; "0"]);
   (INDEX_op_un op_neg W32, ["r"; "0"]); (INDEX_op_un op_not W32, ["r"; "0"]);
   (INDEX_op_un op_ext8s W32, ["r"; "q"]); (INDEX_op_un op_ext16s W32, ["r"; "r"]);
   (INDEX_op_un op_ext8u W32, ["r"; "q"]); (INDEX_op_un op_ext16u W32, ["r"; "r"]);
   (INDEX_op_setcond W32, ["q"; "r"; "ri"]); (INDEX_op_deposit W32, ["Q"; "0"; "Q"]);
   (INDEX_op_movcond W32, ["r"; "r"; "ri"; "r"; "0"]); (INDEX_op_mulu2 W32, ["a"; "d"; "a"; "r"]);
   (INDEX_op_muls2 W32, ["a"; "d"; "a"; "r"]); (INDEX_op_add2 W32, ["r"; "r"; "0"; "1"; "ri"; "ri"]);
   (INDEX_op_sub2 W32, ["r"; "r"; "0"; "1"; "ri"; "ri"]); (INDEX_op_ld8u W64, ["r"; "r"]);
   (INDEX_op_ld8s_i64, ["r"; "r"]); (INDEX_op_ld16u W64, ["r"; "r"]); (INDEX_op_ld16s_i64, ["r"; "r"]);
   (INDEX_op_ld32u_i64, ["r"; "r"]); (INDEX_op_ld32s_i64, ["r"; "r"]); (INDEX_op_ld_i64, ["r"; "r"]);
   (INDEX_op_st8_i64, ["ri"; "r"]); (INDEX_op_st16_i64, ["ri"; "r"]); (INDEX_op_st32_i64, ["ri"; "r"]);
   (INDEX_op_st_i64, ["re"; "r"]); (INDEX_op_bin op_add W64, ["r"; "r"; "re"]);
   (INDEX_op_bin op_mul W64, ["r"; "0"; "re"]); (INDEX_op_div2_i64, ["a"; "d"; "0"; "1"; "r"]);
   (INDEX_op_divu2_i64, ["a"; "d"; "0"; "1"; "r"]); (INDEX_op_bin op_sub W64, ["r"; "0"; "re"]);
   (INDEX_op_bin op_and W64, ["r"; "0"; "reZ"]); (INDEX_op_bin op_or W64, ["r"; "0"; "re"]);
   (INDEX_op_bin op_xor W64, ["r"; "0"; "re"]); (INDEX_op_bin op_andc W64, ["r"; "r"; "rI"]);
   (INDEX_op_bin op_shl W64, ["r"; "0"; "Ci"]); (INDEX_op_bin op_shr W64, ["r"; "0"; "Ci"]);
   (INDEX_op_bin op_sar W64, ["r"; "0"; "Ci"]); (INDEX_op_bin op_rotl W64, ["r"; "0"; "ci"]);
   (INDEX_op_bin op_rotr W64, ["r"; "0"; "ci"]); (INDEX_op_brcond W64, ["r"; "re"]);
   (INDEX_op_setcond W64, ["r"; "r"; "re"]); (INDEX_op_bswap16_i64, ["r"; "0"]);
   (INDEX_op_bswap32_i64, ["r"; "0"]); (INDEX_op_bswap64_i64, ["r"; "0"]);
   (INDEX_op_un op_neg W64, ["r"; "0"]); (INDEX_op_un op_not W64, ["r"; "0"]);
   (INDEX_op_un op_ext8s W64, ["r"; "r"]); (INDEX_op_un op_ext16s W64, ["r"; "r"]);
   (INDEX_op_un op_ext32s W64, ["r"; "r"]); (INDEX_op_un op_ext8u W64, ["r"; "r"]);
   (INDEX_op_un op_ext16u W64, ["r"; "r"]); (INDEX_op_un op_ext32u W64, ["r"; "r"]);
   (INDEX_op_deposit W64, ["Q"; "0"; "Q"]); (INDEX_op_movcond W64, ["r"; "r"; "re"; "r"; "0"]);
   (INDEX_op_mulu2 W64, ["a"; "d"; "a"; "r"]); (INDEX_op_muls2 W64, ["a"; "d"; "a"; "r"]);
   (INDEX_op_add2 W64, ["r"; "r"; "0"; "1"; "re"; "re"]);
   (INDEX_op_sub2 W64, ["r"; "r"; "0"; "1"; "re"; "re"]); (INDEX_op_qemu_ld W32, ["r"; "L"]);
   (INDEX_op_qemu_st_i32, ["L"; "L"]); (INDEX_op_qemu_ld W64, ["r"; "L"]);
   (INDEX_op_qemu_st_i64, ["L"; "L"])]%string.

(** The entry of an operation, and what [tcg_add_target_add_op_defs] makes of
    it. *)
Definition x86_entry (oc : TCGOpcode) : option (list string) :=
  snd <$> List.find (fun e => bool_decide (e.1 = oc)) x86_op_defs.

Definition x86_cts (have_bmi2 : bool) (oc : TCGOpcode) : (nat -> arg_ct) * (nat -> nat) :=
  match add_op_def 16 (x86_parse_constraint have_bmi2) (tcg_op_defs oc) (default [] (x86_entry oc)) with
  | Ret r => r
  | _ => (fun _ => no_ct, id)
  end.

Definition to_ct (c : arg_ct) : TCGArgConstraint := mk_ct (is_alias c) (is_ialias c) (ct_alias_index c) (u_regs c).

(** ** The host *)

Definition CPU_TEMP_BUF_NLONGS : Z := 128.

(** The frame is what [tcg_target_qemu_prologue] sets; [TCG_AREG0] is reserved
    for the global that points to the guest state. *)
Definition x86_64 (have_bmi2 : bool) : TCGTarget := {|
  TCG_TARGET_NB_REGS := 16;
  tcg_target_reg_alloc_order := x86_reg_alloc_order;
  tcg_target_available_regs := fun _ => 0xffff;
  tcg_target_call_clobber_regs := x86_call_clobber_regs;
  reserved_regs := set_regset x86_reserved_regs TCG_AREG0;
  tcg_target_call_iarg_regs := x86_call_iarg_regs;
  tcg_target_call_oarg_regs := x86_call_oarg_regs;
  args_ct := fun oc i => to_ct ((x86_cts have_bmi2 oc).1 i);
  sorted_args := fun oc =>
    map (x86_cts have_bmi2 oc).2 (seq 0 (nb_oargs (tcg_op_defs oc) + nb_iargs (tcg_op_defs oc)));
  tcg_target_const_match := fun oc i _ v => x86_const_match ((x86_cts have_bmi2 oc).1 i) v;
  op_present := x86_op_present;
  TCG_REG_CALL_STACK := TCG_REG_RSP;
  TCG_TARGET_CALL_STACK_OFFSET := 0;
  TCG_TARGET_STACK_ALIGN := 16;
  frame_reg := TCG_REG_RSP;
  frame_start := TCG_STATIC_CALL_ARGS_SIZE;
  frame_end := TCG_STATIC_CALL_ARGS_SIZE + CPU_TEMP_BUF_NLONGS * 8;
|}.

(** ** The constraints can be met *)

(** The registers of a set that may be allocated. *)
Definition candidates (T : TCGTarget) (regs : Z) : list Z :=
  List.filter (fun r => Z.testbit (Z.ldiff regs (reserved_regs T)) r) (tcg_target_reg_alloc_order T).

(** Each operand has more registers than operands before it that may take
    one of them. *)
Fixpoint meets (T : TCGTarget) (regs : nat -> Z) (pre idx : list nat) : bool :=
  match idx with
  | [] => true
  | i :: idx =>
    Nat.ltb (length (List.filter (fun j => negb (Z.land (regs j) (regs i) =? 0)) pre))
            (length (candidates T (regs i))) &&
    meets T regs (pre ++ [i]) idx
  end.

Lemma meets_split T regs pre idx pre' i post :
  meets T regs pre idx = true -> idx = pre' ++ i :: post ->
  (length (List.filter (fun j => negb (Z.land (regs j) (regs i) =? 0)%Z) (pre ++ pre'))
   < length (candidates T (regs i)))%nat.
Proof.
  revert pre pre'. induction idx as [|k idx IH]; intros pre pre' Hm He; [by destruct pre'|].
  cbn [meets] in Hm. apply andb_true_iff in Hm as [Hlt Hm]. destruct pre' as [|k' pre']; injection He as -> He.
  - rewrite app_nil_r. by apply Nat.ltb_lt.
  - specialize (IH (pre ++ [k']) pre' Hm He). by rewrite <- app_assoc in IH.
Qed.

Lemma meets_met T regs idx :
  NoDup (tcg_target_reg_alloc_order T) ->
  (forall r, r ∈ tcg_target_reg_alloc_order T -> 0 <= r < TCG_TARGET_NB_REGS T) ->
  meets T regs [] idx = true -> met T regs idx.
Proof.
  intros Hnd Hrange Hm pre i post f set He Hset.
  pose proof (meets_split T regs [] idx pre i post Hm He) as Hlt. cbn [app] in Hlt.
  set (rivals := List.filter (fun j => negb (Z.land (regs j) (regs i) =? 0)) pre) in *.
  destruct (decide (Forall (fun r => Z.testbit set r = true) (candidates T (regs i)))) as [Hall|Hsome].
  - exfalso. apply (Nat.lt_irrefl (length rivals)). eapply Nat.lt_le_trans; [exact Hlt|].
    rewrite <- (length_map f rivals). apply NoDup_incl_length.
    { unfold candidates. apply List.NoDup_filter. by apply NoDup_ListNoDup. }
    intros r Hr. rewrite List.Forall_forall in Hall. pose proof (Hall r Hr) as Hs.
    unfold candidates in Hr. apply filter_In in Hr as [Hr1 Hr2]. apply list_elem_of_In in Hr1.
    rewrite Z.ldiff_spec, andb_true_iff, negb_true_iff in Hr2. destruct Hr2 as [Hri Hrr].
    destruct (Hset r (Hrange r Hr1) Hs) as [?|(j & Hj & Hrj & Hbj)]; [congruence|].
    apply in_map_iff. exists j. split; [done|]. apply filter_In. split; [by apply list_elem_of_In|].
    apply negb_true_iff, Z.eqb_neq. intros H0.
    assert (Z.testbit (Z.land (regs j) (regs i)) r = true) by (by rewrite Z.land_spec, Hbj, Hri).
    by rewrite H0, Z.testbit_0_l in *.
  - apply not_Forall_Exists in Hsome; [|intros r; apply _]. apply List.Exists_exists in Hsome as (r & Hr & Hs).
    unfold candidates in Hr. apply filter_In in Hr as [Hr1 Hr2]. exists r. split; [by apply list_elem_of_In|].
    rewrite Z.ldiff_spec, andb_true_iff in *. destruct Hr2 as [-> _]. split; [done|].
    by apply negb_true_iff, not_true_is_false.
Qed.

(** ** The table *)

Lemma x86_letters have_bmi2 c l c' :
  x86_parse_constraint have_bmi2 c l = Some c' -> is_alias c' = is_alias c /\ is_ialias c' = is_ialias c.
Proof.
  unfold x86_parse_constraint, is_alias, is_ialias. intros H.
  repeat case_match; simplify_eq; cbn [ct]; by rewrite !has_bits_lor.
Qed.

(** What remains to be checked of an entry: it is taken, shared outputs come
    first, shared inputs are no constants, and there are registers. *)
Definition aliases_first (cts : nat -> arg_ct) (outs : list nat) : bool :=
  bool_decide (outs = List.filter (fun o => is_alias (cts o)) outs ++
                      List.filter (fun o => negb (is_alias (cts o))) outs).

Definition all_const_flags : Z := 0x702.

Definition x86_check (have_bmi2 : bool) (e : TCGOpcode * list string) : bool :=
  let def := tcg_op_defs e.1 in
  let T := x86_64 have_bmi2 in
  bool_decide (x86_entry e.1 = Some e.2) && outputs_plain def e.2 &&
  match add_op_def 16 (x86_parse_constraint have_bmi2) def e.2 with
  | Ret (cts, order) =>
    aliases_first cts (map order (seq 0 (nb_oargs def))) &&
    forallb (fun i => negb (is_ialias (cts i)) || (Z.land (ct (cts i)) all_const_flags =? 0))
      (seq (nb_oargs def) (nb_iargs def)) &&
    meets T (fun i => u_regs (cts i)) [] (map order (seq (nb_oargs def) (nb_iargs def))) &&
    meets T (fun i => if is_alias (cts i) then u_regs (cts (ct_alias_index (cts i))) else u_regs (cts i)) []
      (map order (seq 0 (nb_oargs def)))
  | _ => false
  end.

Lemma x86_table_checked have_bmi2 : forallb (x86_check have_bmi2) x86_op_defs = true.
Proof. by destruct have_bmi2; vm_compute. Qed.

(** Every operation the host has is in the table. *)
Lemma x86_complete oc : x86_op_present oc = true -> exists strs, x86_entry oc = Some strs.
Proof.
  assert (Hoth : forallb (fun oc => bool_decide (is_Some (x86_entry oc))) x86_others = true) by (by vm_compute).
  assert (Hc : x86_op_present oc = true -> bool_decide (is_Some (x86_entry oc)) = true).
  { destruct oc as [| | |w|w|w|w|w|w| |b w|u w|w|w|w|w|w|w| | | |w| | |name def]; intros Hp; try discriminate Hp;
      try destruct w; try destruct b; try destruct u; try discriminate Hp; try (vm_compute; reflexivity).
    apply bool_decide_eq_true, list_elem_of_In in Hp. rewrite forallb_forall in Hoth. by apply Hoth. }
  by intros Hp%Hc%bool_decide_eq_true.
Qed.

Lemma x86_cts_eq have_bmi2 oc strs r :
  x86_entry oc = Some strs ->
  add_op_def 16 (x86_parse_constraint have_bmi2) (tcg_op_defs oc) strs = Ret r -> x86_cts have_bmi2 oc = r.
Proof. intros Hs Ha. unfold x86_cts. rewrite Hs. cbn [default]. unfold id. by rewrite Ha. Qed.

#[local] Opaque x86_cts.

Lemma x86_entry_taken have_bmi2 oc strs :
  x86_entry oc = Some strs ->
  add_op_def 16 (x86_parse_constraint have_bmi2) (tcg_op_defs oc) strs = Ret (x86_cts have_bmi2 oc) /\
  x86_check have_bmi2 (oc, strs) = true.
Proof.
  intros Hs. assert (Hin : In (oc, strs) x86_op_defs).
  { unfold x86_entry in Hs. destruct (List.find _ x86_op_defs) as [[oc' strs']|] eqn:Hf; [|done].
    apply find_some in Hf as [Hin Heq%bool_decide_eq_true]. cbn in Heq. subst oc'. by injection Hs as <-. }
  pose proof (x86_table_checked have_bmi2) as Hc. rewrite forallb_forall in Hc. specialize (Hc _ Hin).
  split; [|exact Hc]. unfold x86_check in Hc. cbn [fst snd] in Hc. apply andb_true_iff in Hc as [_ Hc].
  destruct (add_op_def _ _ _ strs) as [r| |] eqn:Ha; [|discriminate Hc..]. by rewrite (x86_cts_eq _ _ _ _ Hs Ha).
Qed.

Section Present.
Context (have_bmi2 : bool) (oc : TCGOpcode) (Hp : x86_op_present oc = true).
#[local] Abbreviation T := (x86_64 have_bmi2).
#[local] Abbreviation def := (tcg_op_defs oc).
#[local] Abbreviation cts := (x86_cts have_bmi2 oc).1.
#[local] Abbreviation order := (x86_cts have_bmi2 oc).2.

(** What the table says of an operation the host has. *)
Lemma x86_present_ok :
  entry_ok 16 def cts order /\ aliases_first cts (map order (seq 0 (nb_oargs def))) = true /\
  (forall i, (nb_oargs def <= i < nb_oargs def + nb_iargs def)%nat -> is_ialias (cts i) = true ->
     Z.land (ct (cts i)) all_const_flags = 0) /\
  meets T (fun i => u_regs (cts i)) [] (map order (seq (nb_oargs def) (nb_iargs def))) = true /\
  meets T (fun i => if is_alias (cts i) then u_regs (cts (ct_alias_index (cts i))) else u_regs (cts i)) []
    (map order (seq 0 (nb_oargs def))) = true.
Proof using Hp.
  destruct (x86_complete oc Hp) as [strs Hs]. destruct (x86_entry_taken have_bmi2 oc strs Hs) as [Ha Hc].
  unfold x86_check in Hc. cbn [fst snd] in Hc. rewrite Ha in Hc. rewrite !andb_true_iff in Hc.
  destruct Hc as [[_ Hpl] Hc]. destruct (x86_cts have_bmi2 oc) as [c o]. cbn [fst snd] in *.
  rewrite !andb_true_iff in Hc. destruct Hc as [[[H1 H2] H3] H4].
  split; [|split; [exact H1|split; [|split; [exact H3|exact H4]]]].
  - eapply add_op_def_entry; [apply x86_letters|exact Hpl|exact Ha].
  - intros i Hi Hia. rewrite forallb_forall in H2. specialize (H2 i). rewrite Hia in H2. cbn in H2.
    apply Z.eqb_eq, H2, in_seq. lia.
Qed.

Lemma x86_sorted :
  firstn (nb_oargs def) (sorted_args T oc) = map order (seq 0 (nb_oargs def)) /\
  skipn (nb_oargs def) (sorted_args T oc) = map order (seq (nb_oargs def) (nb_iargs def)).
Proof using Type.
  cbn [sorted_args x86_64]. rewrite seq_app, map_app.
  rewrite take_app_length', drop_app_length' by (by rewrite length_map, length_seq). done.
Qed.

Lemma x86_ct_ok : ct_ok T oc.
Proof using Hp.
  destruct x86_present_ok as (He & Hf & Hk & _). destruct x86_sorted as [Hs1 Hs2].
  pose proof (eo_paired _ _ _ _ He) as Hpa. constructor.
  - rewrite Hs2. apply He.
  - rewrite Hs1. apply He.
  - rewrite Hs1. unfold aliases_first in Hf. apply bool_decide_eq_true in Hf. do 2 eexists. split; [exact Hf|].
    split; apply List.Forall_forall; intros o [_ Ho]%filter_In; [exact Ho|by apply negb_true_iff].
  - intros o Ho Ha. destruct (pa_alias _ _ _ Hpa o Ha) as (_ & _ & Hr & Hi & Hb).
    change (alias_index (args_ct T oc o)) with (ct_alias_index (cts o)). cbv zeta.
    split; [lia|]. split; [exact Hi|exact Hb].
  - intros i Hi Hia. destruct (pa_ialias _ _ _ Hpa i Hia) as (_ & Hr & _ & _). split; [done|].
    intros w v. change (x86_const_match (cts i) v = false). specialize (Hk i Hi Hia). unfold x86_const_match.
    assert (Hno : forall f, Z.land all_const_flags f = f -> has_bits (ct (cts i)) f = false).
    { intros f Hf'. unfold has_bits. rewrite <- Hf', Z.land_assoc, Hk. done. }
    by rewrite !Hno.
Qed.

Lemma x86_met :
  met T (fun i => ct_regs (args_ct T oc i)) (skipn (nb_oargs def) (sorted_args T oc)) /\
  met T (output_regs T oc) (firstn (nb_oargs def) (sorted_args T oc)).
Proof using Hp.
  destruct x86_present_ok as (_ & _ & _ & H1 & H2). destruct x86_sorted as [-> ->].
  assert (Hnd : NoDup (tcg_target_reg_alloc_order T)) by (apply (bool_decide_unpack _); by vm_compute).
  assert (Hr : forall r, r ∈ tcg_target_reg_alloc_order T -> 0 <= r < TCG_TARGET_NB_REGS T).
  { apply Forall_forall. cbn. repeat constructor; vm_compute; done. }
  split; by apply meets_met.
Qed.
End Present.

(** ** Globals *)

(** What is known of the variables that are created when the translator of a
    guest is set up. *)
Record globals := mk_globals {
  x_nb_globals : Z;
  x_type : Z -> width;
  x_fixed_reg : Z -> bool;
  x_temps : Z -> TCGTemp;
  x_reserved_regs : Z;
}.

Definition tcg_temp_alloc (n : Z) : outcome unit := if n >? TCG_MAX_TEMPS then Fault tcg_abort else Ret tt.

Definition add_global (x : globals) (type : width) (fixed : bool) (ts : TCGTemp) (reserved : Z) : globals :=
  let n := x_nb_globals x in
  mk_globals (n + 1) (fun i => if i =? n then type else x_type x i)
    (fun i => if i =? n then fixed else x_fixed_reg x i) (fun i => if i =? n then ts else x_temps x i) reserved.

Definition tcg_global_reg_new_internal (x : globals) (type : width) (reg : Z) : outcome (Z * globals) :=
  if Z.testbit (x_reserved_regs x) reg then Fault tcg_abort
  else
    let idx := x_nb_globals x in
    _ ← tcg_temp_alloc (x_nb_globals x + 1);
    let ts := set_reg reg (x_temps x idx) in
    Ret (idx, add_global x type true ts (set_regset (x_reserved_regs x) reg)).

Definition tcg_global_mem_new_internal (x : globals) (type : width) (reg offset : Z) : outcome (Z * globals) :=
  let idx := x_nb_globals x in
  _ ← tcg_temp_alloc (x_nb_globals x + 1);
  let ts := set_slot reg offset (x_temps x idx) in
  Ret (idx, add_global x type false ts (x_reserved_regs x)).

Definition zero_temp : TCGTemp := mk_temp TEMP_VAL_DEAD 0 0 0 0 false false.

(** The context after [tcg_context_init]: zeroed, with the registers
    [tcg_target_init] reserves. *)
Definition x86_context_init : globals :=
  mk_globals 0 (fun _ => W32) (fun _ => false) (fun _ => zero_temp) x86_reserved_regs.

(** The translators of the guests make the pointer to the guest state, then
    the globals that live in it. *)
Fixpoint new_mem_globals (x : globals) (l : list (width * Z)) : outcome globals :=
  match l with
  | [] => Ret x
  | (type, offset) :: l => r ← tcg_global_mem_new_internal x type TCG_AREG0 offset; new_mem_globals r.2 l
  end.

Definition translate_init (l : list (width * Z)) : outcome globals :=
  r ← tcg_global_reg_new_internal x86_context_init W64 TCG_AREG0; new_mem_globals r.2 l.

(** The state of the allocator [tcg_func_start] leaves for the next block. *)
Definition tcg_func_start (T : TCGTarget) (st : astate) : astate :=
  mk_ast (s_temps st) (reg_to_temp st) (frame_start T) (out_code st).

(** ** The globals of a guest *)

Record x86_globals (x : globals) (l : list (width * Z)) : Prop := {
  xg_nb : x_nb_globals x = 1 + Z.of_nat (length l);
  xg_reserved : x_reserved_regs x = set_regset x86_reserved_regs TCG_AREG0;
  xg_env : x_fixed_reg x 0 = true /\ treg (x_temps x 0) = TCG_AREG0;
  xg_mem : forall k type offset, l !! k = Some (type, offset) ->
    let g := 1 + Z.of_nat k in
    x_type x g = type /\ x_fixed_reg x g = false /\ mem_allocated (x_temps x g) = true /\
    slot (x_temps x g) = (TCG_AREG0, offset);
}.

Lemma new_mem_globals_ok l2 : forall x l1,
  x86_globals x l1 -> 1 + Z.of_nat (length l1 + length l2) <= TCG_MAX_TEMPS ->
  exists x', new_mem_globals x l2 = Ret x' /\ x86_globals x' (l1 ++ l2).
Proof.
  induction l2 as [|[type offset] l2 IH]; intros x l1 Hx Hmax; cbn [new_mem_globals].
  { exists x. by rewrite app_nil_r. }
  unfold tcg_global_mem_new_internal, tcg_temp_alloc. cbn [length] in Hmax. pose proof Hx as [Hn Hr He Hm].
  rewrite Hn. assert (1 + Z.of_nat (length l1) + 1 >? TCG_MAX_TEMPS = false) as -> by lia.
  cbn [mbind outcome_bind snd]. rewrite <- Hn. set (x1 := add_global _ _ _ _ _).
  assert (Hx1 : x86_globals x1 (l1 ++ [(type, offset)])).
  { assert (Ho : forall i, i <> x_nb_globals x -> x_type x1 i = x_type x i /\ x_fixed_reg x1 i = x_fixed_reg x i /\
      x_temps x1 i = x_temps x i) by (intros i Hi; cbn; by destruct (Z.eqb_spec i (x_nb_globals x))).
    constructor.
    - rewrite length_app. cbn. rewrite Hn. lia.
    - done.
    - destruct (Ho 0) as (_ & -> & ->); [lia|done].
    - intros k ty off Hk g. destruct (decide (k < length l1)%nat) as [Hlt|Hge].
      + rewrite lookup_app_l in Hk by done. destruct (Ho g) as (-> & -> & ->); [lia|]. by apply Hm.
      + rewrite lookup_app_r in Hk by lia. apply list_lookup_singleton_Some in Hk as [Hk [= <- <-]].
        assert (g = x_nb_globals x) as -> by lia. cbn. by rewrite Z.eqb_refl. }
  destruct (IH x1 _ Hx1) as (x' & Hx' & Hg); [rewrite length_app; cbn; lia|].
  exists x'. split; [done|]. by rewrite <- app_assoc in Hg.
Qed.

Lemma translate_init_ok l :
  1 + Z.of_nat (length l) <= TCG_MAX_TEMPS -> exists x, translate_init l = Ret x /\ x86_globals x l.
Proof.
  intros Hmax. unfold translate_init.
  change (tcg_global_reg_new_internal x86_context_init W64 TCG_AREG0)
    with (Ret (0, add_global x86_context_init W64 true (set_reg TCG_AREG0 zero_temp)
      (set_regset x86_reserved_regs TCG_AREG0))).
  cbn [mbind outcome_bind snd]. apply (new_mem_globals_ok l _ []); [|done]. by constructor.
Qed.

(** ** The host meets what the code relies on *)

(** The tables know the globals; other fields change as code is generated. *)
Definition knows_globals (s : TCGContext) (x : globals) (st : astate) : Prop :=
  nb_globals s = x_nb_globals x /\
  forall g, is_global s g = true ->
    (x_fixed_reg x g = true -> treg (s_temps st g) = treg (x_temps x g)) /\
    slot (s_temps st g) = slot (x_temps x g) /\ mem_allocated (s_temps st g) = mem_allocated (x_temps x g).

Section Ready.
Context (have_bmi2 : bool) (s : TCGContext) (x : globals) (l : list (width * Z)) (st : astate).
Context (Hx : x86_globals x l) (Hnd : NoDup (snd <$> l)) (Hk : knows_globals s x st).
#[local] Abbreviation T := (x86_64 have_bmi2).

Lemma x86_global_cases g :
  is_global s g = true -> g = 0 \/ exists k type offset, g = 1 + Z.of_nat k /\ l !! k = Some (type, offset).
Proof using Hx Hk.
  destruct Hk as [Hn _]. unfold is_global. rewrite Hn, (xg_nb _ _ Hx). intros Hg.
  destruct (decide (g = 0)) as [->|]; [by left|right].
  destruct (lookup_lt_is_Some_2 l (Z.to_nat (g - 1))) as [[type offset] Hl]; [lia|].
  exists (Z.to_nat (g - 1)), type, offset. split; [lia|done].
Qed.

Lemma x86_fixed_env g : fixed_reg s (x_fixed_reg x) g = true -> treg (s_temps st g) = TCG_AREG0.
Proof using Hx Hk.
  intros [Hg Hf]%andb_true_iff. destruct Hk as [_ Hs]. destruct (Hs g Hg) as [-> _]; [|done].
  destruct (x86_global_cases g Hg) as [->|(k & type & offset & -> & Hl)]; [by apply (xg_env _ _ Hx)|].
  destruct (xg_mem _ _ Hx k type offset Hl) as (_ & Hf' & _). congruence.
Qed.

Lemma x86_mem_global g :
  is_global s g = true -> fixed_reg s (x_fixed_reg x) g = false ->
  exists k type offset, g = 1 + Z.of_nat k /\ l !! k = Some (type, offset) /\
    mem_allocated (s_temps st g) = true /\ slot (s_temps st g) = (TCG_AREG0, offset).
Proof using Hx Hk.
  intros Hg Hf. unfold fixed_reg in Hf. rewrite Hg in Hf. cbn [andb] in Hf. destruct Hk as [_ Hs].
  destruct (Hs g Hg) as (_ & -> & ->). destruct (x86_global_cases g Hg) as [->|(k & type & offset & -> & Hl)].
  - destruct (xg_env _ _ Hx). congruence.
  - exists k, type, offset. split_and!; [done..|by apply (xg_mem _ _ Hx k type offset Hl)|].
    by apply (xg_mem _ _ Hx k type offset Hl).
Qed.

Lemma x86_target_ok : target_ok s T (x_fixed_reg x) (s_temps st).
Proof using Hx Hnd Hk.
  constructor.
  - apply Forall_forall. cbn. repeat constructor; vm_compute; done.
  - intros g Hf. by rewrite (x86_fixed_env g Hf).
  - intros g Hg Hf. destruct (x86_mem_global g Hg Hf) as (k & type & offset & -> & Hl & -> & Hs).
    split; [done|]. rewrite Hs. unfold slot in Hs. injection Hs as -> _. split; [by intros [? _]|]. intros H. discriminate H.
  - intros g1 g2 Hg1 Hg2 Hf1 Hf2 Heq.
    destruct (x86_mem_global g1 Hg1 Hf1) as (k1 & ty1 & o1 & -> & Hl1 & _ & Hs1).
    destruct (x86_mem_global g2 Hg2 Hf2) as (k2 & ty2 & o2 & -> & Hl2 & _ & Hs2).
    rewrite Hs1, Hs2 in Heq. injection Heq as ->. do 2 f_equal.
    apply (NoDup_lookup _ k1 k2 o2 Hnd); by rewrite list_lookup_fmap, ?Hl1, ?Hl2.
  - split; [by exists 16|done].
  - split; [apply (bool_decide_unpack _); by vm_compute|]. repeat constructor; vm_compute; done.
  - split; [apply (bool_decide_unpack _); by vm_compute|]. repeat constructor; vm_compute; done.
Qed.
End Ready.

(** A register is left beside the reserved ones and any other. *)
Lemma x86_spare have_bmi2 w r :
  available (x86_64 have_bmi2) (tcg_target_available_regs (x86_64 have_bmi2) w)
    (set_regset (reserved_regs (x86_64 have_bmi2)) r).
Proof.
  assert (Hspare : forall r', r' <> r -> Z.testbit (Z.ldiff 0xffff (reserved_regs (x86_64 have_bmi2))) r' = true ->
    Z.testbit (Z.ldiff 0xffff (set_regset (reserved_regs (x86_64 have_bmi2)) r)) r' = true).
  { intros r' Hne. rewrite !Z.ldiff_spec, !andb_true_iff. intros [-> Hr']. split; [done|].
    destruct (decide (0 <= r)) as [Hr|Hr].
    - rewrite testbit_set_regset by done. destruct (Z.eqb_spec r' r); [done|]. by rewrite orb_false_r.
    - unfold set_regset. rewrite <- (Z.opp_involutive r), Z.shiftl_opp_r.
      assert (Z.div 1 (2 ^ (- r)) = 0) as H1.
      { apply Z.div_small. split; [lia|]. apply Z.pow_gt_1; lia. }
      by rewrite Z.shiftr_div_pow2, H1, Z.lor_0_r by lia. }
  destruct (decide (TCG_REG_RBP = r)) as [<-|Hr].
  - exists TCG_REG_RBX. split; [by right; left|]. by apply Hspare.
  - exists TCG_REG_RBP. split; [by left|]. by apply Hspare.
Qed.

Lemma x86_roomy have_bmi2 s : nb_temps s <= CPU_TEMP_BUF_NLONGS -> roomy s (x86_64 have_bmi2).
Proof.
  intros Hn. unfold CPU_TEMP_BUF_NLONGS in Hn. constructor.
  - unfold enough_frame. cbn. unfold CPU_TEMP_BUF_NLONGS, TCG_STATIC_CALL_ARGS_SIZE. lia.
  - intros w. exists TCG_REG_RBP. split; [by left|done].
  - apply x86_spare.
  - intros n nr Hle. unfold call_stack_size. change (TCG_TARGET_STACK_ALIGN (x86_64 have_bmi2)) with 16.
    change (16 - 1) with (Z.ones 4). rewrite <- Z.ldiff_land, Z.ldiff_ones_r by lia.
    rewrite Z.shiftl_mul_pow2, Z.shiftr_div_pow2 by lia. change (2 ^ 4) with 16.
    pose proof (Z.div_le_mono ((Z.of_nat n - Z.of_nat nr) * 8 + 16 - 1) 143 16 ltac:(lia) ltac:(lia)) as Hd.
    change (143 / 16) with 8 in Hd. unfold TCG_STATIC_CALL_ARGS_SIZE. lia.
  - intros oc Hp. by apply x86_met.
Qed.

Lemma x86_host_ready have_bmi2 s x l st :
  x86_globals x l -> NoDup (snd <$> l) -> knows_globals s x st ->
  host_ready s (x86_64 have_bmi2) (x_fixed_reg x) (tcg_func_start (x86_64 have_bmi2) st).
Proof.
  intros Hx Hnd Hk. constructor; [by eapply x86_target_ok|done|]. intros oc Hp. by apply x86_ct_ok.
Qed.

(** C5: The x86-64 host meets what the generated code relies on, with or
    without BMI2.  The globals of a guest are created without an abort; every
    operation the host has is in its table, its constraints are taken without
    a failed assertion, name each other where operands share a register, and
    can always be met; and a frame for 128 variables is enough. *)
Theorem x86_64_meets have_bmi2 l :
  1 + Z.of_nat (length l) <= TCG_MAX_TEMPS -> NoDup (snd <$> l) ->
  exists x, translate_init l = Ret x /\
    forall s st, knows_globals s x st ->
      host_ready s (x86_64 have_bmi2) (x_fixed_reg x) (tcg_func_start (x86_64 have_bmi2) st) /\
      (nb_temps s <= CPU_TEMP_BUF_NLONGS -> roomy s (x86_64 have_bmi2)).
Proof.
  intros Hmax Hnd. destruct (translate_init_ok l Hmax) as (x & Hx & Hg). exists x. split; [done|].
  intros s st Hk. split; [by eapply x86_host_ready|apply x86_roomy].
Qed.

(** ** A block *)

(** A pointer to the guest state, two globals in it, and three
    temporaries. *)
Definition guest_offsets : list (width * Z) := [(W64, 0); (W64, 8)].
Definition guest_ctx : TCGContext := mk_ctx 3 6 (fun _ => W64) (fun _ => false).
Definition guest_globals : globals :=
  match translate_init guest_offsets with Ret x => x | _ => x86_context_init end.
Definition guest_tables : astate := mk_ast (x_temps guest_globals) (fun _ => -1) 0 [].

Lemma guest_offsets_distinct : NoDup (snd <$> guest_offsets).
Proof. apply (bool_decide_unpack _). by vm_compute. Qed.

Lemma guest_knows : knows_globals guest_ctx guest_globals guest_tables.
Proof. by split; [vm_compute|]. Qed.

Lemma x86_64_meets_witness :
  exists x, translate_init guest_offsets = Ret x /\ knows_globals guest_ctx x guest_tables /\
    host_ready guest_ctx (x86_64 true) (x_fixed_reg x) (tcg_func_start (x86_64 true) guest_tables) /\
    roomy guest_ctx (x86_64 true).
Proof.
  destruct (x86_64_meets true guest_offsets) as (x & Hx & Hm); [vm_compute; discriminate|apply guest_offsets_distinct|].
  exists x. assert (guest_globals = x) as Hg by (unfold guest_globals; by rewrite Hx).
  pose proof guest_knows as Hk. rewrite Hg in Hk. destruct (Hm guest_ctx guest_tables Hk) as [Hr Hroom].
  split; [exact Hx|]. split; [exact Hk|]. split; [exact Hr|]. apply Hroom. vm_compute. discriminate.
Defined.

Lemma guest_ready have_bmi2 :
  host_ready guest_ctx (x86_64 have_bmi2) (x_fixed_reg guest_globals) (tcg_func_start (x86_64 have_bmi2) guest_tables).
Proof.
  apply (x86_host_ready have_bmi2 guest_ctx guest_globals guest_offsets);
    [|apply guest_offsets_distinct|apply guest_knows].
  destruct (translate_init_ok guest_offsets) as (x & Hx & Hg); [vm_compute; discriminate|].
  unfold guest_globals. by rewrite Hx.
Qed.

(** Add 7 to the first global until it is the second. *)
Definition guest_block : list TCGOp :=
  [mk_op INDEX_op_set_label [1] 0 0;
   mk_op (INDEX_op_movi W64) [3; 7] 0 0;
   mk_op (INDEX_op_bin op_add W64) [4; 1; 3] 0 0;
   mk_op (INDEX_op_mov W64) [1; 4] 0 0;
   mk_op (INDEX_op_brcond W64) [1; 2; TCG_COND_NE; 1] 0 0].

Definition guest_temps : temps_t := fun _ => mk_info TCG_TEMP_UNDEF 0 0 0 0.

Definition guest_compile (have_bmi2 : bool) (P : list TCGOp) : outcome (list hinsn) :=
  tcg_gen_code guest_ctx (x86_64 have_bmi2) (x_fixed_reg guest_globals) (fun _ => true) (fun _ => true)
    (fun _ => false) (fun _ => false) guest_temps (tcg_func_start (x86_64 have_bmi2) guest_tables) P.

(** The constant is an operand, and the sum stays in its register for the
    comparison. *)
Definition guest_code : list hinsn :=
  [tcg_out_label 1;
   tcg_out_ld W64 TCG_REG_RBP TCG_AREG0 0;
   tcg_out_op (mk_op (INDEX_op_bin op_add W64) [4; 1; 3] 0 0) [TCG_REG_RBP; TCG_REG_RBP; 7] [false; false; true];
   tcg_out_st W64 TCG_REG_RBP TCG_AREG0 0;
   tcg_out_ld W64 TCG_REG_RBX TCG_AREG0 8;
   tcg_out_op (mk_op (INDEX_op_brcond W64) [1; 2; TCG_COND_NE; 1] 0 0) [TCG_REG_RBP; TCG_REG_RBX; TCG_COND_NE; 1]
     [false; false; false; false]].

Example guest_compiled : guest_compile true guest_block = Ret guest_code.
Proof. vm_compute. reflexivity. Qed.

Lemma tcg_gen_code_total_witness :
  compilable guest_ctx (x86_64 true) (x_fixed_reg guest_globals) guest_block = true /\
  exists H, guest_compile true guest_block = Ret H.
Proof.
  split; [vm_compute; reflexivity|].
  destruct (tcg_gen_code_total guest_ctx (x86_64 true) (x_fixed_reg guest_globals) (fun _ => true) (fun _ => true)
    (fun _ => false) (fun _ => false) guest_temps (tcg_func_start (x86_64 true) guest_tables) guest_block)
    as [[Ho _]|(P' & Ho & _ & Hr)]; [vm_compute; reflexivity|apply guest_ready|discriminate Ho|].
  apply Hr; [apply x86_roomy; vm_compute; discriminate|].
  vm_compute in Ho. injection Ho as <-. vm_compute. reflexivity.
Defined.

(** A run of the code: the first global is 0, the second 14, and the loop is
    taken twice. *)
Definition set_hreg (R : hregs) (d v : Z) : hregs := fun r => if r =? d then v else R r.
Definition set_hmem (M : hmem) (c : Z * Z) (v : Z) : hmem := fun c' => if bool_decide (c' = c) then v else M c'.

Lemma set_hreg_ne R d v r : r <> d -> set_hreg R d v r = R r.
Proof. intros. unfold set_hreg. by destruct (Z.eqb_spec r d). Qed.

Section Steps.
Context (s : TCGContext) (T : TCGTarget) (global_reg : Z -> bool) (G : Z -> TCGTemp).
Context {World : Type}.
Context (ext : TCGOpcode -> list Z -> list Z -> list Z -> World ->
               list Z -> list Z -> World -> bool -> Prop).
#[local] Abbreviation hexec := (hexec s T global_reg G ext).

Lemma hexec_ld w d b o R M m : hexec (tcg_out_ld w d b o) R M m (set_hreg R d (M (b, o))) M m Next.
Proof.
  apply hexec_move. split; [unfold set_hreg; by rewrite Z.eqb_refl|]. split; [|done]. intros r. apply set_hreg_ne.
Qed.

Lemma hexec_st w a b o R M m : hexec (tcg_out_st w a b o) R M m R (set_hmem M (b, o) (R a)) m Next.
Proof.
  apply hexec_move. unfold set_hmem. split; [by rewrite bool_decide_eq_true_2|]. split; [|done].
  intros c Hc. by rewrite bool_decide_eq_false_2.
Qed.

(** An operation with one result and no effect. *)
Lemma hexec_compute op na ca R M m E' v :
  op_oargs op = 1%nat -> eval_op s (obs_env (op_obs s R op na ca ++ global_obs s global_reg G R M op)) op = Some E' ->
  holds s E' (arg op 0) v -> hexec (tcg_out_op op na ca) R M m (set_hreg R (nth 0 na 0) v) M m Next.
Proof.
  intros Ho He Hv. eapply hexec_op; [by apply exec_eval|..]; rewrite Ho.
  - intros [|i] Hi _; [|lia]. unfold set_hreg. by rewrite Z.eqb_refl.
  - intros r Hr _. apply set_hreg_ne. intros ->. by apply (Hr 0%nat); [lia|].
Qed.
End Steps.

Definition guest_regs : hregs := fun _ => 0.
Definition guest_mem : hmem := set_hmem (fun _ => 0) (TCG_AREG0, 8) 14.

Lemma guest_run : exists R' M',
  hrun guest_ctx (x86_64 true) (x_fixed_reg guest_globals) (x_temps guest_globals) quiet_ext
    guest_code 1 guest_code guest_regs guest_mem tt AtEnd R' M' tt /\ M' (TCG_AREG0, 0) = 14.
Proof.
  assert (Hbr : forall R M op na ca b w x y c l, op = mk_op (INDEX_op_brcond w) [x; y; c; l] 0 0 ->
    let E := obs_env (op_obs guest_ctx R op na ca ++
      global_obs guest_ctx (x_fixed_reg guest_globals) (x_temps guest_globals) R M op) in
    cond_may (eval_cond c w (rd guest_ctx E w x) (rd guest_ctx E w y)) b ->
    hexec guest_ctx (x86_64 true) (x_fixed_reg guest_globals) (x_temps guest_globals) quiet_ext
      (tcg_out_op op na ca) R M tt R M tt (if b then Jump l else Next)).
  { intros R M op na ca b w x y c l -> E Hc. eapply hexec_op; [by eapply exec_brcond| |done].
    intros i Hi. change (i < 0)%nat in Hi. lia. }
  do 2 eexists. split.
  - eapply hrun_next; [apply hexec_label|]. eapply hrun_next; [apply hexec_ld|].
    eapply hrun_next; [eapply hexec_compute; [done|reflexivity|by right]|].
    eapply hrun_next; [apply hexec_st|]. eapply hrun_next; [apply hexec_ld|].
    eapply hrun_jump; [apply (Hbr _ _ _ _ _ true W64 1 2 TCG_COND_NE 1); [done|by vm_compute]|reflexivity|].
    eapply hrun_next; [apply hexec_ld|].
    eapply hrun_next; [eapply hexec_compute; [done|reflexivity|by right]|].
    eapply hrun_next; [apply hexec_st|]. eapply hrun_next; [apply hexec_ld|].
    eapply hrun_next; [apply (Hbr _ _ _ _ _ false W64 1 2 TCG_COND_NE 1); [done|by vm_compute]|]. apply hrun_end.
  - by vm_compute.
Qed.

Lemma tcg_gen_code_refines_witness :
  exists R' M' E', M' (TCG_AREG0, 0) = 14 /\
    run guest_ctx quiet_ext guest_block 1 guest_block
      (globals_env guest_ctx (x_fixed_reg guest_globals) (tcg_func_start (x86_64 true) guest_tables)
         guest_regs guest_mem) tt AtEnd E' tt /\
    holds guest_ctx E' 1 (home guest_ctx (x_fixed_reg guest_globals) (x_temps guest_globals) R' M' 1).
Proof.
  destruct guest_run as (R' & M' & Hr & H14). exists R', M'.
  destruct (tcg_gen_code_refines guest_ctx (x86_64 true) (x_fixed_reg guest_globals) (fun _ => true) (fun _ => true)
    (fun _ => false) (fun _ => false) quiet_ext guest_temps (tcg_func_start (x86_64 true) guest_tables)
    guest_block guest_code 1 guest_regs guest_mem tt AtEnd R' M' tt) as (E' & Hrun & Hh);
    [vm_compute; reflexivity|apply guest_ready|apply guest_compiled|exact Hr|].
  exists E'. split; [exact H14|]. split; [exact Hrun|]. apply Hh; [discriminate|reflexivity].
Defined.

(** ** A constant that is lost *)

(** A helper that may be suppressed but is not said to leave the globals alone
    makes the optimiser forget that the first global is 5; the liveness
    analysis removes the call, and the move from the global reaches the
    allocator while the global is still held as a constant.
    [tcg_reg_alloc_mov] then puts it in a register without clearing
    [mem_coherent], which is set from the load before. *)
Definition lost_ctx : TCGContext := mk_ctx 3 18 (fun _ => W64) (fun _ => false).

Definition lost_block : list TCGOp :=
  [mk_op INDEX_op_st_i64 [1; 0; 64] 0 0;
   mk_op (INDEX_op_movi W64) [1; 5] 0 0;
   mk_op INDEX_op_call [3; 0; 77; TCG_CALL_NO_SIDE_EFFECTS] 1 1;
   mk_op (INDEX_op_mov W64) [2; 1] 0 0] ++
  map (fun i => mk_op INDEX_op_ld_i64 [i; 0; 8 * i] 0 0) (seqZ 4 14) ++
  [mk_op INDEX_op_st_i64 [1; 0; 72] 0 0] ++
  map (fun i => mk_op INDEX_op_st_i64 [i; 0; 8 * i] 0 0) (seqZ 4 14) ++
  [mk_op (INDEX_op_movi W64) [1; 0] 0 0].

Definition stores_to (base off : Z) (i : hinsn) : bool :=
  match i with tcg_out_st _ _ b o => (b =? base) && (o =? off) | _ => false end.

(** When the registers run out the global is loaded again from memory, where
    nothing has been stored. *)
Example lost_constant :
  match tcg_gen_code lost_ctx (x86_64 true) (x_fixed_reg guest_globals) (fun _ => true) (fun _ => true)
          (fun _ => false) (fun _ => false) guest_temps (tcg_func_start (x86_64 true) guest_tables) lost_block with
  | Ret code =>
    code !! 19%nat = Some (tcg_out_ld W64 TCG_REG_RBP TCG_AREG0 0) /\
    code !! 20%nat = Some (tcg_out_op (mk_op INDEX_op_st_i64 [1; 0; 72] 0 0) [TCG_REG_RBP; TCG_AREG0; 72]
                             [false; false; false]) /\
    existsb (stores_to TCG_AREG0 0) (firstn 20 code) = false
  | _ => False
  end.
Proof. vm_compute. done. Qed.

Lemma add_op_def_ok_witness :
  let r := x86_cts true INDEX_op_div2_i64 in
  add_op_def 16 (x86_parse_constraint true) (tcg_op_defs INDEX_op_div2_i64) ["a"; "d"; "0"; "1"; "r"]%string = Ret r /\
  map r.2 (seq 0 5) = [0; 1; 2; 3; 4]%nat /\ map r.2 (seq 2 3) ≡ₚ seq 2 3.
Proof.
  pose proof (proj1 (x86_entry_taken true INDEX_op_div2_i64 ["a"; "d"; "0"; "1"; "r"]%string eq_refl)) as Ha.
  split; [exact Ha|]. split; [vm_compute; reflexivity|]. rewrite (surjective_pairing (x86_cts true INDEX_op_div2_i64)) in Ha.
  exact (proj2 (proj1 (add_op_def_ok 16 (x86_parse_constraint true) (tcg_op_defs INDEX_op_div2_i64)
    ["a"; "d"; "0"; "1"; "r"]%string _ _ (x86_letters true) eq_refl Ha))).
Defined.

(** A block with a copy, an operation that is the copy of its operand, and a
    sum of constants, and what the optimiser makes of it. *)
Definition copies_block : list TCGOp :=
  [mk_op (INDEX_op_movi W64) [3; 7] 0 0;
   mk_op (INDEX_op_mov W64) [4; 1] 0 0;
   mk_op (INDEX_op_bin op_and W64) [5; 4; 4] 0 0;
   mk_op (INDEX_op_bin op_add W64) [3; 3; 3] 0 0;
   mk_op (INDEX_op_bin op_add W64) [2; 5; 3] 0 0].

Definition copies_optimised : list TCGOp :=
  [mk_op (INDEX_op_movi W64) [3; 7] 0 0;
   mk_op (INDEX_op_mov W64) [4; 1] 0 0;
   mk_op (INDEX_op_mov W64) [5; 1] 0 0;
   mk_op (INDEX_op_movi W64) [3; 14] 0 0;
   mk_op (INDEX_op_bin op_add W64) [2; 1; 3] 0 0].

Lemma tcg_optimize_fits_witness :
  block_fits guest_ctx (x86_64 true) (x_fixed_reg guest_globals) (is_global guest_ctx) (fun _ => false)
    copies_optimised = true.
Proof.
  apply (tcg_optimize_fits guest_ctx (x86_64 true) (x_fixed_reg guest_globals) (fun _ => true) (fun _ => true)
    guest_temps copies_block copies_optimised); vm_compute; reflexivity.
Defined.
